(* ===== verification/_CoqProject ===== *)
-Q . S2P
Prelude.v
Common.v
BitVector.v
TwoLevelBitVector.v
BitVectorTrace.v
BVGraph.v
DeadlockDetector.v
DDetector.v
IntrusiveList.v
Quarantine.v
SizeClassMap.v
Leb128.v
DenseMap.v
Sort.v
MmapVector.v
Lzw.v
StackStore.v
Libc.v
Printf.v
ThreadRegistry.v
Mutex.v
CheckedMutex.v
PageRelease.v
Allocator64.v
LocalCache.v
IntDiv.v
IntMul.v
SoftFloat.v
SoftAdd.v
SoftMul.v
QuadMul.v
SoftCompare.v
SoftConvert.v
SoftDiv.v
IntBits.v
IntFloat.v
