(* ===== verification/Prelude.v ===== *)
(** * compiler-rt: a verification development

    This repository holds the runtimes that compilers link into programs: the builtins
    (arithmetic a processor lacks) and the sanitizers.  The sanitizers share the
    library [src/lib/sanitizer_common].  Since they replace [malloc], the C library and the
    thread functions of the program they watch, that library brings its own containers,
    string functions, allocator, locks and bookkeeping, and a failed [CHECK] in it ends the
    program.  The builtins in [src/lib/builtins] are plain functions on integers and
    representations of floating-point numbers.  This development models both and proves that
    they do what their clients rely on.

    ** Files

    - [Prelude.v] (this file): faults, the error monad and [returns], loops, arrays
      with checked accesses, sums, the tactics and the hint database.
    - [Common.v]: machine integers and the power-of-two arithmetic of
      [sanitizer_common.h].

    The sanitizers' library:

    - [BitVector.v], [TwoLevelBitVector.v]: [sanitizer_bitvector.h]; the class
      [BitVectorSpec] is the interface.  [BitVectorTrace.v]: programs over arrays of bit
      vectors refine programs over finite sets.
    - [BVGraph.v]: [sanitizer_bvgraph.h], over any implementation of the interface.
    - [DeadlockDetector.v]: [sanitizer_deadlock_detector.h] (per-thread lock sets and the
      lock-order graph).  [DDetector.v]: [sanitizer_deadlock_detector1.cpp], the callbacks
      around mutex operations.
    - [IntrusiveList.v]: [sanitizer_list.h] over a heap of items.  [Quarantine.v]:
      [sanitizer_quarantine.h], with the lists of the former.
    - [SizeClassMap.v]: [sanitizer_allocator_size_class_map.h].
    - [Leb128.v]: [sanitizer_leb128.h].
    - [DenseMap.v]: [sanitizer_dense_map.h] and [sanitizer_dense_map_info.h]; the classes
      [MapOps] and [MapLaws] are the interface for the clients.
    - [Sort.v], [MmapVector.v]: [Sort], [InternalLowerBound], [SortAndDedup] and
      [InternalMmapVector] of [sanitizer_common.h].
    - [Lzw.v]: [sanitizer_lzw.h], over any map that meets [MapLaws].
    - [StackStore.v]: [sanitizer_stack_store.h] and [sanitizer_stack_store.cpp], with the
      codecs of [Leb128.v] and [Lzw.v].
    - [Libc.v]: [sanitizer_libc.cpp].  [Printf.v]: [sanitizer_printf.cpp].
    - [ThreadRegistry.v]: [sanitizer_thread_registry.h] and
      [sanitizer_thread_registry.cpp], over any map that meets [MapLaws], with the string
      functions of [Libc.v].
    - [Mutex.v]: [Mutex], [Semaphore] and [StaticSpinMutex] of [sanitizer_mutex.h] as
      interleaved threads.  [CheckedMutex.v]: the hierarchy checks of [sanitizer_mutex.cpp].
    - [PageRelease.v]: the release of free pages in [sanitizer_allocator_primary64.h]
      (packed counters, the tracker of page ranges, [ReleaseFreeMemoryToOS]).
      [Allocator64.v]: [SizeClassAllocator64] of the same file, with the size classes of
      [SizeClassMap.v].  [LocalCache.v]: [SizeClassAllocator64LocalCache] of
      [sanitizer_allocator_local_cache.h], over the allocator, for any number of threads.

    The builtins:

    - [IntDiv.v]: [int_div_impl.inc], [udivmoddi4.c], [udivmodti4.c], [udivmodsi4.c] and the
      signed functions; the class [DivMod] is their interface.  [IntMul.v]: multiplication by
      halves and the functions that detect overflow.  [IntBits.v]: leading and trailing zeros,
      population count, parity, byte order, shifts and comparisons of two words.
    - [SoftFloat.v]: the formats and word operations of [fp_lib.h], the values of
      representations and rounding; the class [WideMultiply] is what multiplication needs of
      the wide product.  [SoftAdd.v]: [fp_add_impl.inc].  [SoftMul.v]: [fp_mul_impl.inc].
      [QuadMul.v]: the wide product of quadruple precision.  [SoftCompare.v]:
      [fp_compare_impl.inc].  [SoftConvert.v]: [fp_extend_impl.inc], [fp_trunc_impl.inc],
      [fp_fixint_impl.inc], [fp_fixuint_impl.inc].  [SoftDiv.v]: [fp_div_impl.inc], over any
      reciprocal that meets [Reciprocal].  [IntFloat.v]: the conversions of integers
      ([float*.c]); the class [DoubleArithmetic] is the arithmetic of the hardware.

    ** Conventions

    Definitions keep the names of the source; a prefix ([tl_], [dm_], [vec_]) separates
    methods of the same name, and an [X] stands for the letters of a width or precision
    ([udivXi3], [addXf3]), which is then an argument.  An integer of [w] bits is a [Z], reduced
    with [cast w] wherever the source stores or converts it; the configuration is the 64-bit
    one.  A floating-point number is its representation.  An
    operation returns [Ok] of its result and the new state, or the fault that stops it:
    a failed check, an access out of bounds, through a null pointer or to memory of
    another kind, a shift, division or signed operation with undefined result.  Class
    members are fields of records; pointers are indices or keys of finite maps, 0 or
    [None] being null.  What the code obtains from elsewhere is an argument: the page
    size, [sizeof], addresses and contents of fresh memory, the outcome of [TryLock],
    comparison functions, callbacks, the arithmetic of the hardware.  Callbacks that only
    inform a tool (hooks, recycled chunks, warnings) are recorded in a log.  A function that
    holds a lock
    throughout is one atomic step; where the code works without a lock or releases it
    in between, the steps are separate and the theorem is about all interleavings
    ([StackStore.v], [ThreadRegistry.v], [Mutex.v], [LocalCache.v]).

    Loops with a counter are structural ([for_range] and its relatives).  The others run
    on fuel: the number of buckets for a probe sequence, the size of the memory plus one for
    a scan of a string, the length of the format for [VSNPrintf], ten groups for a
    LEB128 number, the number of nodes for a graph search, the chunks of a class to drain a
    cache, two corrections of an estimated quotient digit.  The Newton-Raphson iterations of
    the division are as many as the source configures: three of full width in single
    precision, three of half width and one emulated in double precision.  The theorems
    are stated with [returns], or as equations with [Ok]: they include that the
    fuel suffices and that no fault occurs.

    ** What the theorems show

    - Refinement: bit vectors are finite sets, hash tables finite maps, vectors lists,
      intrusive lists sequences, for every program of operations.  The allocator with its
      caches hands out disjoint blocks of its space, for every sequence of calls of any
      number of threads, and conserves chunks between the free arrays, the caches and the
      program; what the program holds can be looked up by any address inside it.  The
      only reasons for it to die are stated.
    - Released pages: exactly the ranges of pages on which every chunk is free.
    - The lock graph: reachability and shortest paths are exact; [onLockBefore] reports iff
      the acquisition closes a cycle; the callbacks of [DD] never fault, and what they
      report is a cycle.
    - The quarantine loses, duplicates and reorders no chunk, and accounts for sizes exactly.
    - Codecs (LEB128, LZW, the compressed stack store, printing and reading integers) are
      inverse to each other; the stack store is correct under every interleaving.
    - Size classes: [ClassID] is the least sufficient class and [Validate] passes.
    - String functions and sorting against reference definitions, with
      the bounds of every write.  [VSNPrintf] against a grammar of formats that is stated apart
      from its parser: it returns exactly on the formats and arguments that have a text, and
      writes that text.
    - The thread registry, with a quarantine of at least one thread: no allowed call fails,
      counters and user ids are
      exact, threads follow their life cycle, joining waits for the end of a thread.
    - The locks: mutual exclusion and no lost wake-up under every interleaving, which
      justifies that locked operations are atomic; mutexes that pass the hierarchy
      checks can deadlock only on one type that the table marks [MutexMulti].
    - Integers: division, multiplication, counts of bits, byte order, shifts and comparisons
      equal those of the mathematical integers, and overflow is reported exactly.
    - Floating point: addition, multiplication, division and the conversions, with the
      exceptions named below, give the number
      nearest to the exact result, ties to even, through subnormal numbers and overflow;
      special values follow the standard, and NaN results are quiet; integers that fit the
      significand survive the way to a floating-point number and back.

    Some theorems show a fault of the code: an off-by-one in the checks of
    [TwoLevelBitVector], an undefined shift in [RoundUpToPowerOfTwo], an access
    behind the last block of the stack store, the negation of the least integer in
    [AppendSignedDecimal] and in the conversions to floating point, bytes that
    [internal_memset] writes for arguments wider than a byte, a registry without
    quarantine, the carry that the wide product of quadruple precision loses, zeros
    narrowed from single precision to bfloat, signed conversions that saturate one binade
    late, signed shifts and products that are undefined where they are to be detected.

    ** What is not modelled

    The tools themselves (their shadow memory, interceptors, reports and platform code), the
    profile, fuzzer, XRay, ORC, GWP-ASan and Scudo runtimes: they consist of memory at fixed
    addresses that instrumented code accesses, of wrappers around the C library, of system calls and of
    files.  Of [sanitizer_common] the parts
    that consist of system calls, assembly or generated tables: file and process
    handling, unwinding, symbolization, procmaps, interceptors, signal handling, the
    platform layers; the depots of stacks and origins, flags and suppressions; the
    secondary, combined and 32-bit allocators.  Of the builtins, the division of quadruple
    precision (its iterations use the wide product that loses a carry), complex
    arithmetic and powers (operations of the language on its floating-point types), the x87
    format, and what controls caches, threads and the processor.  Directed rounding is modelled
    for addition only, where the source has it.
    A mapping may fail in [Allocator64.v]; elsewhere an allocation succeeds.  Aliased arguments ([x.setUnion(x)]) are not
    considered.  C++ object lifetimes (destructors of trivially destructible types) have no
    effect and do not appear. *)
From stdpp Require Export base tactics numbers list gmap sets fin_sets.
From Stdlib Require Export ZArith Lia.

#[global] Set Default Goal Selector "!".
Declare Scope san_scope.
Delimit Scope san_scope with san.
Open Scope san_scope.
Open Scope Z_scope.

(** ** Faults and the error monad

    The runtime has no exceptions: a failed [CHECK] calls [Die], and an access
    outside an array, through a null pointer, a shift by the width of its operand
    or more, a division by zero, a signed overflow, or a write to memory that is
    read-only or of another kind is undefined behaviour.  An operation of the model returns
    [Ok v] or the fault that stops it.
    [OutOfFuel] is only produced by a loop whose fuel is exhausted; every
    theorem of the development excludes it. *)
Inductive fault :=
  | CheckFailed
  | OutOfBounds
  | NullDeref
  | BadShift
  | DivByZero
  | BadAccess
  | SignedOverflow
  | OutOfFuel.

Inductive result (A : Type) :=
  | Ok (a : A)
  | Fault (e : fault).
Arguments Ok {A} a.
Arguments Fault {A} e.

#[export] Instance fault_eq_dec : EqDecision fault.
Proof. solve_decision. Defined.

#[export] Instance result_eq_dec {A} `{EqDecision A} : EqDecision (result A).
Proof. solve_decision. Defined.

#[export] Instance result_ret : MRet result := λ A a, Ok a.
#[export] Instance result_bind : MBind result := λ A B k m,
  match m with Ok a => k a | Fault e => Fault e end.
#[export] Instance result_fmap : FMap result := λ A B f m,
  match m with Ok a => Ok (f a) | Fault e => Fault e end.

(** [CHECK(b)]: continue when [b] holds, die otherwise. *)
Definition CHECK (b : bool) : result unit :=
  if b then Ok tt else Fault CheckFailed.

(** [returns m Q]: [m] terminates without a fault, with a value that satisfies
    [Q] (total correctness). *)
Definition returns {A} (m : result A) (Q : A → Prop) : Prop :=
  match m with Ok a => Q a | Fault _ => False end.

Lemma returns_ok {A} (a : A) (Q : A → Prop) : Q a → returns (Ok a) Q.
Proof. done. Qed.

Lemma returns_mret {A} (a : A) (Q : A → Prop) : Q a → returns (mret a) Q.
Proof. done. Qed.

Lemma returns_bind {A B} (m : result A) (k : A → result B) (P : A → Prop) (Q : B → Prop) :
  returns m P → (∀ a, P a → returns (k a) Q) → returns (m ≫= k) Q.
Proof. destruct m; simpl; [auto | done]. Qed.

Lemma returns_mono {A} (m : result A) (P Q : A → Prop) :
  returns m P → (∀ a, P a → Q a) → returns m Q.
Proof. destruct m; simpl; auto. Qed.

Lemma returns_CHECK (b : bool) (Q : unit → Prop) : b = true → Q tt → returns (CHECK b) Q.
Proof. by intros ->. Qed.

(** [returns_or D m Q]: [m] returns a value that satisfies [Q], or the runtime dies in one
    of its checks, which happens only when [D] holds. *)
Definition returns_or {A} (D : Prop) (m : result A) (Q : A → Prop) : Prop :=
  match m with Ok a => Q a | Fault e => e = CheckFailed ∧ D end.

Lemma returns_or_returns {A} D (m : result A) (Q : A → Prop) : returns m Q → returns_or D m Q.
Proof. by destruct m. Qed.

Lemma returns_or_False {A} (D : Prop) (m : result A) (Q : A → Prop) : ¬ D → returns_or D m Q → returns m Q.
Proof. destruct m; cbn; [done|]. intros HD [_ ?]. done. Qed.

Lemma returns_or_bind {A B} D (m : result A) (k : A → result B) (P : A → Prop) (Q : B → Prop) :
  returns_or D m P → (∀ a, P a → returns_or D (k a) Q) → returns_or D (m ≫= k) Q.
Proof. destruct m; cbn; auto. Qed.

Lemma returns_or_mono {A} (D D' : Prop) (m : result A) (P Q : A → Prop) :
  returns_or D m P → (D → D') → (∀ a, P a → Q a) → returns_or D' m Q.
Proof. destruct m; cbn; [auto|]. intros [??]; auto. Qed.

Lemma returns_or_CHECK (D : Prop) (b : bool) (Q : unit → Prop) : (b = false → D) → (b = true → Q tt) → returns_or D (CHECK b) Q.
Proof. destruct b; cbn; auto. Qed.

(** The value of a computation, for concrete ones that return. *)
Definition from_result {A} (d : A) (m : result A) : A :=
  match m with Ok a => a | Fault _ => d end.

Lemma returns_from_result {A} (d : A) (m : result A) (Q : A → Prop) :
  returns m Q → Q (from_result d m).
Proof. by destruct m. Qed.

Lemma returns_inv {A} (m : result A) (Q : A → Prop) :
  returns m Q ↔ ∃ a, m = Ok a ∧ Q a.
Proof. destruct m; simpl; naive_solver. Qed.

Lemma returns_eq {A} (m : result A) a : returns m (λ x, x = a) → m = Ok a.
Proof. destruct m; simpl; [by intros ->|done]. Qed.

Lemma returns_and {A} (m : result A) (P Q : A → Prop) :
  returns m P → returns m Q → returns m (λ a, P a ∧ Q a).
Proof. destruct m; simpl; auto. Qed.

Lemma bind_ok_inv {A B} (m : result A) (k : A → result B) b :
  m ≫= k = Ok b → ∃ a, m = Ok a ∧ k a = Ok b.
Proof. destruct m; simpl; [eauto | discriminate]. Qed.

Lemma CHECK_ok_inv b u : CHECK b = Ok u → b = true.
Proof. by destruct b. Qed.

(** ** Arrays

    A C array is a list; an index is a machine integer.  Reading or writing
    outside the list is the fault [OutOfBounds]. *)
Definition aget {A} (l : list A) (i : Z) : result A :=
  if 0 <=? i then
    match l !! Z.to_nat i with Some a => Ok a | None => Fault OutOfBounds end
  else Fault OutOfBounds.

Definition aset {A} (l : list A) (i : Z) (a : A) : result (list A) :=
  if (0 <=? i) && (i <? Z.of_nat (length l)) then Ok (<[Z.to_nat i := a]> l)
  else Fault OutOfBounds.

Lemma aget_Ok {A} (l : list A) i a :
  aget l i = Ok a ↔ 0 ≤ i ∧ l !! Z.to_nat i = Some a.
Proof.
  unfold aget. destruct (Z.leb_spec 0 i); [|naive_solver lia].
  destruct (l !! Z.to_nat i); naive_solver.
Qed.

Lemma aget_lookup {A} (l : list A) (n : nat) a :
  l !! n = Some a → aget l (Z.of_nat n) = Ok a.
Proof. intros H. apply aget_Ok. rewrite Nat2Z.id. auto with lia. Qed.

Lemma aget_OutOfBounds {A} (l : list A) i :
  Z.of_nat (length l) ≤ i → aget l i = Fault OutOfBounds.
Proof.
  intros. unfold aget. destruct (Z.leb_spec 0 i); [|done].
  by rewrite lookup_ge_None_2 by lia.
Qed.

Lemma returns_aget {A} (l : list A) i (Q : A → Prop) :
  0 ≤ i < Z.of_nat (length l) →
  (∀ a, l !! Z.to_nat i = Some a → Q a) → returns (aget l i) Q.
Proof.
  intros Hi HQ. destruct (lookup_lt_is_Some_2 l (Z.to_nat i)) as [a Ha]; [lia|].
  rewrite (proj2 (aget_Ok l i a)); [by apply HQ | auto with lia].
Qed.

Lemma aset_Ok {A} (l : list A) i a :
  0 ≤ i < Z.of_nat (length l) → aset l i a = Ok (<[Z.to_nat i := a]> l).
Proof.
  intros. unfold aset.
  by rewrite (proj2 (Z.leb_le 0 i)), (proj2 (Z.ltb_lt i _)) by lia.
Qed.

Lemma returns_aset {A} (l : list A) i a (Q : list A → Prop) :
  0 ≤ i < Z.of_nat (length l) →
  Q (<[Z.to_nat i := a]> l) → returns (aset l i a) Q.
Proof. intros Hi HQ. by rewrite aset_Ok. Qed.

(** [Swap(a[i], a[j])]. *)
Definition aswap {A} (l : list A) (i j : Z) : result (list A) :=
  x ← aget l i;
  y ← aget l j;
  l' ← aset l i y;
  aset l' j x.

(** Unordered removal: swap the [i]-th of the first [n + 1] elements with the
    last of them and forget it. *)
Lemma aswap_last {A} (l : list A) (i n : nat) x (Q : list A → Prop) :
  (i ≤ n < length l)%nat → l !! i = Some x →
  (∀ l', length l' = length l → take (S n) l ≡ₚ x :: take n l' →
    (∀ j, (j < n)%nat → j ≠ i → l' !! j = l !! j) → (∀ j, (n < j)%nat → l' !! j = l !! j) →
    ((i < n)%nat → l' !! i = l !! n) → Q l') →
  returns (aswap l (Z.of_nat i) (Z.of_nat n)) Q.
Proof.
  intros Hin Hx HQ. destruct (lookup_lt_is_Some_2 l n) as [y Hy]; [lia|]. unfold aswap.
  rewrite (aget_lookup l i x), (aget_lookup l n y) by done. cbn [mbind result_bind].
  rewrite aset_Ok by lia. cbn [mbind result_bind].
  rewrite aset_Ok by (rewrite length_insert; lia). rewrite !Nat2Z.id.
  apply HQ; simpl.
  - by rewrite !length_insert.
  - rewrite (take_S_r _ _ _ Hy), take_insert_ge by lia.
    destruct (decide (i = n)) as [->|Hne].
    + rewrite take_insert_ge by lia. simplify_eq. by rewrite Permutation_app_comm.
    + rewrite take_insert_lt by lia.
      assert (take n l !! i = Some x) as Hi by (rewrite lookup_take_lt; [done|lia]).
      rewrite insert_take_drop by (rewrite length_take; lia).
      rewrite <- (take_drop_middle _ _ _ Hi) at 1. solve_Permutation.
  - intros j Hj Hne. by rewrite !list_lookup_insert_ne by lia.
  - intros j Hj. by rewrite !list_lookup_insert_ne by lia.
  - intros Hlt. rewrite list_lookup_insert_ne by lia. by rewrite list_lookup_insert_eq, Hy by lia.
Qed.

(** ** Counted loops

    [for_up n i body s] runs [body i], [body (i+1)], ..., [n] times. *)
Fixpoint for_up {S} (n : nat) (i : Z) (body : Z → S → result S) (s : S) : result S :=
  match n with
  | O => Ok s
  | Datatypes.S n' => s' ← body i s; for_up n' (i + 1) body s'
  end.

Lemma returns_for_up {S} (P : Z → S → Prop) (body : Z → S → result S) (n : nat) i s :
  P i s →
  (∀ j t, i ≤ j < i + Z.of_nat n → P j t → returns (body j t) (P (j + 1))) →
  returns (for_up n i body s) (P (i + Z.of_nat n)).
Proof.
  revert i s. induction n as [|n IH]; intros i s HP Hbody.
  { simpl. by rewrite Z.add_0_r. }
  cbn [for_up]. eapply returns_bind; [apply Hbody; [lia | done]|].
  intros t Ht. replace (i + Z.of_nat (Datatypes.S n)) with (i + 1 + Z.of_nat n) by lia.
  apply IH; [done|]. intros. apply Hbody; [lia | done].
Qed.

(** [first_in n i body] runs [body i], [body (i+1)], ... at most [n] times and
    stops at the first one that returns a value (a loop with a [return] in its
    body). *)
Fixpoint first_in {R} (n : nat) (i : Z) (body : Z → result (option R)) : result (option R) :=
  match n with
  | O => Ok None
  | S n' =>
      r ← body i;
      match r with
      | Some x => Ok (Some x)
      | None => first_in n' (i + 1) body
      end
  end.

Lemma returns_first_in {R} (P : Z → Prop) (Q : option R → Prop)
    (body : Z → result (option R)) (n : nat) i :
  P i →
  (∀ j, i ≤ j < i + Z.of_nat n → P j →
    returns (body j) (λ r, match r with Some x => Q (Some x) | None => P (j + 1) end)) →
  (P (i + Z.of_nat n) → Q None) →
  returns (first_in n i body) Q.
Proof.
  revert i. induction n as [|n IH]; intros i HP Hbody HQ.
  { apply HQ. by rewrite Z.add_0_r. }
  cbn [first_in]. eapply returns_bind; [apply Hbody; [lia | done]|].
  intros [x|] Hx; [done|]. apply IH; [done| |].
  - intros. apply Hbody; [lia | done].
  - intros. apply HQ. by replace (i + Z.of_nat (S n)) with (i + 1 + Z.of_nat n) by lia.
Qed.

(** [for (i = lo;; i++)] with a [return] in the body, at most [fuel] times. *)
Fixpoint loop_from {R} (fuel : nat) (i : Z) (body : Z → result (option R)) : result R :=
  match fuel with
  | O => Fault OutOfFuel
  | S fuel =>
      r ← body i;
      match r with
      | Some x => Ok x
      | None => loop_from fuel (i + 1) body
      end
  end.

(** The loop returns at [n] at the latest. *)
Lemma returns_loop_from {R} (P : Z → Prop) (Q : R → Prop) (body : Z → result (option R)) (fuel : nat) i n :
  P i → i ≤ n < i + Z.of_nat fuel →
  (∀ j, i ≤ j ≤ n → P j →
    returns (body j) (λ r, match r with Some x => Q x | None => j < n ∧ P (j + 1) end)) →
  returns (loop_from fuel i body) Q.
Proof.
  revert i. induction fuel as [|fuel IH]; intros i HP Hn Hbody; [lia|].
  cbn [loop_from]. eapply returns_bind; [apply Hbody; [lia|done]|].
  intros [x|] Hx; [done|]. destruct Hx as [Hlt Hx]. apply IH; [done|lia|]. intros. apply Hbody; [lia|done].
Qed.

(** [for (i = lo; i < hi; i++)], without and with a [return] in the body. *)
Definition for_range {S} (lo hi : Z) (body : Z → S → result S) (s : S) : result S :=
  for_up (Z.to_nat (hi - lo)) lo body s.

Definition find_range {R} (lo hi : Z) (body : Z → result (option R)) : result (option R) :=
  first_in (Z.to_nat (hi - lo)) lo body.

Lemma returns_for_range {S} (P : Z → S → Prop) (body : Z → S → result S) lo hi s :
  lo ≤ hi → P lo s →
  (∀ j t, lo ≤ j < hi → P j t → returns (body j t) (P (j + 1))) →
  returns (for_range lo hi body s) (P hi).
Proof.
  intros Hle HP Hbody. unfold for_range.
  replace (P hi) with (P (lo + Z.of_nat (Z.to_nat (hi - lo)))) by (f_equal; lia).
  apply returns_for_up; [done|]. intros. apply Hbody; [lia|done].
Qed.

(** What holds when the loop returns, whether or not it must. *)
Lemma for_range_inv {S} (P : Z → S → Prop) (body : Z → S → result S) lo hi s s' :
  lo ≤ hi → P lo s →
  (∀ j t t', lo ≤ j < hi → P j t → body j t = Ok t' → P (j + 1) t') →
  for_range lo hi body s = Ok s' → P hi s'.
Proof.
  intros Hle HP Hbody. unfold for_range. assert (hi = lo + Z.of_nat (Z.to_nat (hi - lo))) as Ehi by lia.
  revert Ehi. generalize (Z.to_nat (hi - lo)) as n. intros n ->. clear Hle. revert lo s HP Hbody. induction n as [|n IH]; intros lo s HP Hbody; cbn [for_up].
  - intros [= <-]. by rewrite Z.add_0_r.
  - destruct (body lo s) as [t|] eqn:E; [|done]. cbn [mbind result_bind]. intros Hr.
    replace (lo + Z.of_nat (Datatypes.S n)) with (lo + 1 + Z.of_nat n) by lia. apply (IH (lo + 1) t); [|intros; eapply Hbody; eauto; lia|done].
    apply (Hbody lo s); [lia|done|done].
Qed.

Lemma for_range_empty {S} lo hi (body : Z → S → result S) s : hi ≤ lo → for_range lo hi body s = Ok s.
Proof. intros H. unfold for_range. by replace (Z.to_nat (hi - lo)) with 0%nat by lia. Qed.

Lemma returns_find_range {R} (P : Z → Prop) (Q : option R → Prop)
    (body : Z → result (option R)) lo hi :
  lo ≤ hi → P lo →
  (∀ j, lo ≤ j < hi → P j →
    returns (body j) (λ r, match r with Some x => Q (Some x) | None => P (j + 1) end)) →
  (P hi → Q None) →
  returns (find_range lo hi body) Q.
Proof.
  intros Hle HP Hbody HQ. apply (returns_first_in P); [done| |].
  - intros. apply Hbody; [lia|done].
  - intros HP'. apply HQ. replace hi with (lo + Z.of_nat (Z.to_nat (hi - lo))) by lia. done.
Qed.

Lemma returns_or_for_range {S} D (P : Z → S → Prop) (body : Z → S → result S) lo hi s :
  lo ≤ hi → P lo s → (∀ i t, lo ≤ i < hi → P i t → returns_or D (body i t) (P (i + 1))) → returns_or D (for_range lo hi body s) (P hi).
Proof.
  intros Hle HP Hbody. unfold for_range. replace hi with (lo + Z.of_nat (Z.to_nat (hi - lo))) by lia. set (n := Z.to_nat (hi - lo)).
  assert (∀ i t, lo ≤ i < lo + Z.of_nat n → P i t → returns_or D (body i t) (P (i + 1))) as Hb by (intros; apply Hbody; [lia|done]).
  replace (Z.to_nat (lo + Z.of_nat n - lo)) with n by lia. clearbody n. clear Hbody Hle. revert lo s HP Hb. induction n as [|n IH]; intros lo s HP Hb.
  { cbn. by rewrite Z.add_0_r. }
  cbn [for_up]. eapply returns_or_bind; [apply Hb; [lia|done]|]. intros t Ht. replace (lo + Z.of_nat (Datatypes.S n)) with (lo + 1 + Z.of_nat n) by lia.
  apply IH; [done|]. intros. apply Hb; [lia|done].
Qed.

(** [for (i = n - 1; i >= 0; i--)], with a [return] in the body and without. *)
Fixpoint find_down {R} (n : nat) (body : Z → result (option R)) : result (option R) :=
  match n with
  | O => Ok None
  | S n' =>
      r ← body (Z.of_nat n');
      match r with
      | Some x => Ok (Some x)
      | None => find_down n' body
      end
  end.

Fixpoint for_down {S} (n : nat) (body : Z → S → result S) (s : S) : result S :=
  match n with
  | O => Ok s
  | Datatypes.S n' => s' ← body (Z.of_nat n') s; for_down n' body s'
  end.

Lemma returns_find_down {R} (P : nat → Prop) (Q : option R → Prop)
    (body : Z → result (option R)) (n : nat) :
  P n →
  (∀ i, (i < n)%nat → P (S i) → returns (body (Z.of_nat i)) (λ r,
    match r with Some x => Q (Some x) | None => P i end)) →
  (P 0%nat → Q None) →
  returns (find_down n body) Q.
Proof.
  intros HP Hbody HQ. induction n as [|n IH]; [by apply HQ|].
  cbn [find_down]. eapply returns_bind; [apply Hbody; [lia|done]|].
  intros [x|] Hx; [done|]. apply IH; [done|]. intros. apply Hbody; [lia|done].
Qed.

Lemma returns_for_down {S} (P : nat → S → Prop) (body : Z → S → result S) (n : nat) s :
  P n s →
  (∀ i t, (i < n)%nat → P (Datatypes.S i) t → returns (body (Z.of_nat i) t) (P i)) →
  returns (for_down n body s) (P 0%nat).
Proof.
  revert s. induction n as [|n IH]; intros s HP Hbody; [done|].
  cbn [for_down]. eapply returns_bind; [apply Hbody; [lia|done]|].
  intros t Ht. apply IH; [done|]. intros. apply Hbody; [lia|done].
Qed.

(** ** Sums over lists *)
Fixpoint sumZ {A} (f : A → Z) (l : list A) : Z :=
  match l with [] => 0 | x :: l => f x + sumZ f l end.

Lemma sumZ_app {A} (f : A → Z) l1 l2 : sumZ f (l1 ++ l2) = sumZ f l1 + sumZ f l2.
Proof. induction l1; simpl; lia. Qed.

Lemma sumZ_insert {A} (f : A → Z) l n x y : l !! n = Some x → sumZ f (<[n := y]> l) = sumZ f l - f x + f y.
Proof.
  intros Hn. pose proof (lookup_lt_Some _ _ _ Hn). rewrite insert_take_drop by done.
  rewrite <- (take_drop_middle _ _ _ Hn) at 3. rewrite !sumZ_app. simpl. lia.
Qed.

Lemma sumZ_le {A} (f g : A → Z) l : (∀ x, x ∈ l → f x ≤ g x) → sumZ f l ≤ sumZ g l.
Proof. intros H. induction l as [|x l IH]; simpl; [lia|]. pose proof (H x ltac:(set_solver +)). specialize (IH ltac:(set_solver + H)). lia. Qed.

Lemma sumZ_tight {A} (f g : A → Z) l : (∀ x, x ∈ l → f x ≤ g x) → sumZ g l ≤ sumZ f l → ∀ x, x ∈ l → f x = g x.
Proof.
  intros H. induction l as [|y l IH]; simpl; [set_solver +|]. intros Hs x [->|Hx]%elem_of_cons.
  - pose proof (H y ltac:(set_solver +)). pose proof (sumZ_le f g l ltac:(set_solver + H)). lia.
  - apply IH; [set_solver + H| |done]. pose proof (H y ltac:(set_solver +)). lia.
Qed.

Lemma sumZ_elem {A} (f : A → Z) l n x : (∀ y, y ∈ l → 0 ≤ f y) → l !! n = Some x → f x ≤ sumZ f l.
Proof.
  intros H Hn. rewrite <- (take_drop_middle _ _ _ Hn) in *. rewrite sumZ_app. simpl.
  pose proof (sumZ_le (λ _, 0) f (take n l) ltac:(set_solver + H)). pose proof (sumZ_le (λ _, 0) f (drop (S n) l) ltac:(set_solver + H)).
  assert (∀ k : list A, sumZ (λ _ : A, 0) k = 0) as Hz by (induction k; simpl; lia). rewrite !Hz in *. lia.
Qed.

Lemma sumZ_zero {A} (f : A → Z) l : (∀ x, x ∈ l → f x = 0) → sumZ f l = 0.
Proof. intros H. induction l as [|y l IH]; simpl; [done|]. rewrite (H y), IH by set_solver + H. done. Qed.

(** ** Tactics *)

(** One step of symbolic execution: run through a [bind] whose first action
    has a known specification among the hypotheses or is a [CHECK]. *)
Ltac rstep_check :=
  eapply returns_bind; [apply (returns_CHECK _ (λ _, True)); [|done] | intros _ _].

(** [rbind tac]: the first action of the computation meets the specification
    [tac] proves; continue after it. *)
Tactic Notation "rbind" tactic3(tac) := eapply returns_bind; [solve [tac] | cbn beta].
Tactic Notation "robind" tactic3(tac) := eapply returns_or_bind; [solve [tac] | cbn beta].

(** Case analysis on a decision of the goal (and never of a hypothesis). *)
Tactic Notation "gdecide" "as" simple_intropattern(pat) :=
  match goal with |- context [@decide ?P ?d] => destruct (@decide P d) as pat end.
Tactic Notation "gdecide" := gdecide as [?|?].

(** Replace boolean comparisons by their propositional content. *)
Ltac bool_prop :=
  repeat match goal with
  | H : (_ && _) = true |- _ => apply andb_true_iff in H; destruct H
  | H : (_ || _) = false |- _ => apply orb_false_iff in H; destruct H
  | H : negb _ = true |- _ => apply negb_true_iff in H
  | H : negb _ = false |- _ => apply negb_false_iff in H
  | H : (_ =? _) = true |- _ => apply Z.eqb_eq in H
  | H : (_ =? _) = false |- _ => apply Z.eqb_neq in H
  | H : (_ <? _) = true |- _ => apply Z.ltb_lt in H
  | H : (_ <? _) = false |- _ => apply Z.ltb_ge in H
  | H : (_ <=? _) = true |- _ => apply Z.leb_le in H
  | H : (_ <=? _) = false |- _ => apply Z.leb_gt in H
  end.
