(* ===== verification/Common.v ===== *)
(** * Common: the integer helpers of [sanitizer_common.h]

    Machine integers at their width (the 64-bit configuration,
    [SANITIZER_WORDSIZE] = 64), the bit-scan functions and the power-of-two
    arithmetic the allocators, the bit vectors and the stack store use. *)
From S2P Require Import Prelude.

(** ** Machine integers *)

(** The value of a computation stored in an unsigned integer of [w] bits. *)
Definition cast (w z : Z) : Z := z mod 2 ^ w.

Abbreviation u8 := (cast 8).
Abbreviation u16 := (cast 16).
Abbreviation u32 := (cast 32).
Abbreviation u64 := (cast 64).

(** The bits [x] of a [w]-bit register read as a two's complement number. *)
Definition signed (w x : Z) : Z :=
  if cast w x <? 2 ^ (w - 1) then cast w x else cast w x - 2 ^ w.

(** [x << n] in a [w]-bit unsigned type: undefined when [n] reaches the width. *)
Definition shl (w x n : Z) : result Z :=
  if (0 <=? n) && (n <? w) then Ok (cast w (Z.shiftl x n)) else Fault BadShift.

(** [x >> n] in a [w]-bit unsigned type. *)
Definition shr (w x n : Z) : result Z :=
  if (0 <=? n) && (n <? w) then Ok (Z.shiftr x n) else Fault BadShift.

(** [x / y] on unsigned integers. *)
Definition udiv (x y : Z) : result Z := if y =? 0 then Fault DivByZero else Ok (x / y).

Definition SANITIZER_WORDSIZE : Z := 64.

(** ** Bit scans *)

(** [__builtin_ctzl] and [__builtin_clzl], defined for a nonzero argument. *)
Fixpoint pos_ctz (p : positive) : Z :=
  match p with xO q => 1 + pos_ctz q | _ => 0 end.

Definition builtin_ctzl (x : Z) : Z :=
  match x with Zpos p => pos_ctz p | _ => 0 end.

Definition builtin_clzl (x : Z) : Z := SANITIZER_WORDSIZE - 1 - Z.log2 x.

Definition MostSignificantSetBitIndex (x : Z) : result Z :=
  CHECK (negb (x =? 0));;
  Ok (SANITIZER_WORDSIZE - 1 - builtin_clzl x).

Definition LeastSignificantSetBitIndex (x : Z) : result Z :=
  CHECK (negb (x =? 0));;
  Ok (builtin_ctzl x).

(** ** Powers of two *)

Definition IsPowerOfTwo (x : Z) : bool := Z.land x (u64 (x - 1)) =? 0.

Definition RoundUpToPowerOfTwo (size : Z) : result Z :=
  CHECK (negb (size =? 0));;
  if IsPowerOfTwo size then Ok size
  else
    up ← MostSignificantSetBitIndex size;
    hi ← shl 64 1 (up + 1);
    CHECK (size <? hi);;
    lo ← shl 64 1 up;
    CHECK (lo <? size);;
    shl 64 1 (up + 1).

Definition RoundUpTo (p boundary : Z) : result Z :=
  CHECK (IsPowerOfTwo boundary);;
  Ok (Z.land (u64 (p + boundary - 1)) (u64 (Z.lnot (u64 (boundary - 1))))).

Definition RoundDownTo (x boundary : Z) : Z :=
  Z.land x (u64 (Z.lnot (u64 (boundary - 1)))).

Definition IsAligned (a alignment : Z) : bool :=
  Z.land a (u64 (alignment - 1)) =? 0.

Definition Log2 (x : Z) : result Z :=
  CHECK (IsPowerOfTwo x);;
  LeastSignificantSetBitIndex x.

Definition Min (a b : Z) : Z := if a <? b then a else b.
Definition Max (a b : Z) : Z := if b <? a then a else b.

(** ** Facts about [cast] *)

Lemma cast_range w z : 0 ≤ w → 0 ≤ cast w z < 2 ^ w.
Proof. intros. apply Z.mod_pos_bound. lia. Qed.

Lemma cast_id w z : 0 ≤ z < 2 ^ w → cast w z = z.
Proof. apply Z.mod_small. Qed.

Lemma cast_cast w z : cast w (cast w z) = cast w z.
Proof. apply Zmod_mod. Qed.

Lemma signed_bounds w x : 0 < w → - 2 ^ (w - 1) ≤ signed w x < 2 ^ (w - 1).
Proof.
  intros Hw. unfold signed. pose proof (cast_range w x ltac:(lia)). assert (2 ^ w = 2 * 2 ^ (w - 1)) by (rewrite <- Z.pow_succ_r by lia; f_equal; lia).
  destruct (Z.ltb_spec (cast w x) (2 ^ (w - 1))); lia.
Qed.

Lemma cast_testbit w z i : 0 ≤ w →
  Z.testbit (cast w z) i = (i <? w) && Z.testbit z i.
Proof.
  intros. unfold cast. destruct (Z.ltb_spec i w); simpl.
  - by apply Z.mod_pow2_bits_low.
  - by apply Z.mod_pow2_bits_high.
Qed.

Lemma testbit_high w x i : 0 ≤ x < 2 ^ w → w ≤ i → Z.testbit x i = false.
Proof.
  intros Hx Hi. destruct (Z.eq_dec x 0) as [->|]; [apply Z.bits_0|].
  apply Z.bits_above_log2; [lia|]. apply Z.log2_lt_pow2; [lia|].
  eapply Z.lt_le_trans; [apply Hx|]. apply Z.pow_le_mono_r; lia.
Qed.

Lemma bits_range w x : 0 ≤ w → 0 ≤ x → (∀ i, w ≤ i → Z.testbit x i = false) → 0 ≤ x < 2 ^ w.
Proof.
  intros Hw Hx Hb. split; [done|]. destruct (Z.eq_dec x 0) as [->|]; [lia|].
  apply Z.log2_lt_pow2; [lia|]. apply Z.nle_gt. intros Hl.
  specialize (Hb _ Hl). rewrite Z.bit_log2 in Hb by lia. done.
Qed.

(** Equality of two [w]-bit values is equality of their low bits. *)
Lemma bits_eq w x y : 0 ≤ x < 2 ^ w → 0 ≤ y < 2 ^ w →
  (∀ i, 0 ≤ i < w → Z.testbit x i = Z.testbit y i) → x = y.
Proof.
  intros Hx Hy Hb. apply Z.bits_inj'. intros i Hi.
  destruct (Z.lt_ge_cases i w); [auto with lia|].
  by rewrite !(testbit_high w) by done.
Qed.

Lemma nonzero_bit x : x ≠ 0 → ∃ i, 0 ≤ i ∧ Z.testbit x i = true.
Proof.
  intros Hx. destruct (Z.lt_ge_cases x 0).
  - destruct (Z.eq_dec x (-1)) as [->|]; [exists 0; split; [lia|done]|].
    exists (Z.succ (Z.log2 (Z.pred (- x)))). split.
    + pose proof (Z.log2_nonneg (Z.pred (- x))). lia.
    + apply Z.bits_above_log2_neg; lia.
  - exists (Z.log2 x). split; [apply Z.log2_nonneg | apply Z.bit_log2; lia].
Qed.

Lemma signed_cast w x : 0 < w → - 2 ^ (w - 1) ≤ x < 2 ^ (w - 1) → signed w (cast w x) = x.
Proof.
  intros Hw Hx. unfold signed. rewrite cast_cast.
  assert (2 ^ w = 2 * 2 ^ (w - 1)) as E by (rewrite <- Z.pow_succ_r by lia; f_equal; lia).
  destruct (Z.lt_ge_cases x 0).
  - assert (cast w x = x + 2 ^ w) as -> by (symmetry; apply (Z.mod_unique _ _ (-1)); lia).
    rewrite (proj2 (Z.ltb_ge _ _)) by lia. lia.
  - rewrite cast_id, (proj2 (Z.ltb_lt _ _)) by lia. done.
Qed.

(** Combining disjoint bit ranges. *)
Lemma lor_shift_add s a b : 0 ≤ s → 0 ≤ a < 2 ^ s → Z.lor a (b * 2 ^ s) = a + b * 2 ^ s.
Proof.
  intros Hs Ha. pose proof (Z.add_lor_land a (b * 2 ^ s)) as E.
  assert (Z.land a (b * 2 ^ s) = 0) as E0; [|lia].
  apply Z.bits_inj'. intros i Hi. rewrite Z.land_spec, Z.bits_0, <- Z.shiftl_mul_pow2, Z.shiftl_spec by lia.
  destruct (Z.lt_ge_cases i s); [rewrite (Z.testbit_neg_r b) by lia; apply andb_false_r|].
  by rewrite (testbit_high s a) by lia.
Qed.

(** ** The bit scans *)

Lemma pos_ctz_nonneg p : 0 ≤ pos_ctz p.
Proof. induction p; simpl; lia. Qed.

Lemma pos_ctz_spec p :
  Z.testbit (Zpos p) (pos_ctz p) = true ∧
  ∀ i, 0 ≤ i < pos_ctz p → Z.testbit (Zpos p) i = false.
Proof.
  induction p as [p IH|p [IH1 IH2]|]; [by split; [|intros; simpl in *; lia]| |by split; [|simpl; lia]].
  pose proof (pos_ctz_nonneg p). cbn [pos_ctz].
  change (Zpos (xO p)) with (2 * Zpos p). split.
  - replace (1 + pos_ctz p) with (Z.succ (pos_ctz p)) by lia.
    by rewrite Z.testbit_even_succ by lia.
  - intros i Hi. destruct (Z.eq_dec i 0) as [->|]; [by rewrite Z.testbit_even_0|].
    replace i with (Z.succ (i - 1)) by lia.
    rewrite Z.testbit_even_succ by lia. apply IH2. lia.
Qed.

(** [builtin_ctzl x] is the least index of a set bit. *)
Lemma builtin_ctzl_spec x : 0 < x →
  0 ≤ builtin_ctzl x ∧ Z.testbit x (builtin_ctzl x) = true ∧
  ∀ i, 0 ≤ i < builtin_ctzl x → Z.testbit x i = false.
Proof.
  destruct x as [|p|p]; try lia. intros _. cbn [builtin_ctzl].
  split; [apply pos_ctz_nonneg | apply pos_ctz_spec].
Qed.

Lemma MostSignificantSetBitIndex_log2 x : 0 < x →
  MostSignificantSetBitIndex x = Ok (Z.log2 x).
Proof.
  intros. unfold MostSignificantSetBitIndex, builtin_clzl, CHECK.
  rewrite (proj2 (Z.eqb_neq x 0)) by lia. cbn. f_equal. lia.
Qed.

(** ** Powers of two *)

Lemma pow2_testbit k i : 0 ≤ k → Z.testbit (2 ^ k) i = (i =? k).
Proof. intros. rewrite Z.pow2_bits_eqb by done. apply Z.eqb_sym. Qed.

Lemma land_pow2_pred k : 0 ≤ k → Z.land (2 ^ k) (2 ^ k - 1) = 0.
Proof.
  intros. rewrite Z.sub_1_r, <- Z.ones_equiv, Z.land_ones by done.
  apply Z.mod_same. lia.
Qed.

(** [IsPowerOfTwo] decides being zero or a power of two. *)
Lemma IsPowerOfTwo_iff x : 0 ≤ x < 2 ^ 64 →
  IsPowerOfTwo x = true ↔ x = 0 ∨ ∃ k, 0 ≤ k ∧ x = 2 ^ k.
Proof.
  intros Hx. unfold IsPowerOfTwo. rewrite Z.eqb_eq.
  destruct (Z.eq_dec x 0) as [->|Hnz]; [rewrite Z.land_0_l; naive_solver|].
  rewrite cast_id by lia. split.
  - intros H0. right. exists (Z.log2 x). pose proof (Z.log2_nonneg x).
    split; [done|]. destruct (Z.log2_spec x) as [Hlo Hhi]; [lia|].
    destruct (Z.eq_dec x (2 ^ Z.log2 x)) as [|Hne]; [done|]. exfalso.
    assert (Z.log2 (x - 1) = Z.log2 x) as Hl by (apply Z.log2_unique; lia).
    assert (Z.testbit (Z.land x (x - 1)) (Z.log2 x) = true) as Ht.
    { rewrite Z.land_spec, <- Hl at 1. rewrite Hl at 1.
      rewrite Z.bit_log2 by lia. rewrite <- Hl, Z.bit_log2; [done|lia]. }
    by rewrite H0, Z.bits_0 in Ht.
  - intros [?|(k & Hk & ->)]; [done|]. by apply land_pow2_pred.
Qed.

Lemma IsPowerOfTwo_pow2 k : 0 ≤ k < 64 → IsPowerOfTwo (2 ^ k) = true.
Proof.
  intros. apply IsPowerOfTwo_iff; [|right; exists k; split; [lia|done]].
  split; [lia|]. apply Z.pow_lt_mono_r; lia.
Qed.

(** The mask [~(2^k - 1)] in a 64-bit register. *)
Lemma align_mask_land k x : 0 ≤ k < 64 → 0 ≤ x < 2 ^ 64 →
  Z.land x (u64 (Z.lnot (u64 (2 ^ k - 1)))) = 2 ^ k * (x / 2 ^ k).
Proof.
  intros Hk Hx.
  rewrite (Z.mul_comm (2 ^ k)), <- Z.shiftr_div_pow2, <- Z.shiftl_mul_pow2 by lia.
  assert (2 ^ k < 2 ^ 64) by (apply Z.pow_lt_mono_r; lia).
  rewrite (cast_id 64 (2 ^ k - 1)) by lia. rewrite Z.sub_1_r, <- Z.ones_equiv.
  apply Z.bits_inj'. intros i Hi.
  rewrite Z.land_spec, cast_testbit, Z.lnot_spec, Z.shiftl_spec by lia.
  destruct (Z.lt_ge_cases i k).
  - rewrite Z.ones_spec_low, (Z.testbit_neg_r _ (i - k)) by lia.
    by rewrite !andb_false_r.
  - rewrite Z.ones_spec_high, Z.shiftr_spec by lia. rewrite andb_true_r.
    replace (i - k + k) with i by lia.
    destruct (Z.ltb_spec i 64); [by rewrite andb_true_r|].
    by rewrite (testbit_high 64 x i) by lia.
Qed.

Lemma RoundDownTo_pow2 k x : 0 ≤ k < 64 → 0 ≤ x < 2 ^ 64 →
  RoundDownTo x (2 ^ k) = 2 ^ k * (x / 2 ^ k).
Proof. intros. by apply align_mask_land. Qed.

Lemma RoundUpTo_pow2 k p : 0 ≤ k < 64 → 0 ≤ p → p + 2 ^ k - 1 < 2 ^ 64 →
  RoundUpTo p (2 ^ k) = Ok (2 ^ k * ((p + 2 ^ k - 1) / 2 ^ k)).
Proof.
  intros. unfold RoundUpTo, CHECK. rewrite IsPowerOfTwo_pow2 by done. cbn.
  rewrite (cast_id 64 (p + _ - 1)) by lia. by rewrite align_mask_land by lia.
Qed.

Lemma shl_ok w x n : 0 ≤ n < w → shl w x n = Ok (cast w (Z.shiftl x n)).
Proof.
  intros. unfold shl. by rewrite (proj2 (Z.leb_le 0 n)), (proj2 (Z.ltb_lt n w)) by lia.
Qed.

Lemma shr_ok w x n : 0 ≤ n < w → shr w x n = Ok (Z.shiftr x n).
Proof.
  intros. unfold shr. by rewrite (proj2 (Z.leb_le 0 n)), (proj2 (Z.ltb_lt n w)) by lia.
Qed.

Lemma shl_1 w n : 0 ≤ n < w → shl w 1 n = Ok (2 ^ n).
Proof.
  intros. rewrite shl_ok by done. rewrite Z.shiftl_1_l, cast_id; [done|].
  split; [lia|]. apply Z.pow_lt_mono_r; lia.
Qed.

Lemma udiv_ok x y : y ≠ 0 → udiv x y = Ok (x / y).
Proof. intros. unfold udiv. by rewrite (proj2 (Z.eqb_neq y 0)). Qed.

Lemma shl_1_64 n : 0 ≤ n < 64 → shl 64 1 n = Ok (2 ^ n).
Proof.
  intros. rewrite shl_ok by done. rewrite Z.shiftl_1_l, cast_id; [done|].
  split; [lia|]. apply Z.pow_lt_mono_r; lia.
Qed.

(** ** Rounding *)

Lemma RoundUpToPowerOfTwo_spec size : 0 ≤ size < 2 ^ 64 →
  match RoundUpToPowerOfTwo size with
  | Ok r => 0 < size ≤ 2 ^ 63 ∧ ∃ k, 0 ≤ k < 64 ∧ r = 2 ^ k ∧ size ≤ r ∧
            ∀ j, 0 ≤ j → size ≤ 2 ^ j → r ≤ 2 ^ j
  | Fault e => (size = 0 ∧ e = CheckFailed) ∨ (2 ^ 63 < size ∧ e = BadShift)
  end.
Proof.
  intros Hs. unfold RoundUpToPowerOfTwo. destruct (Z.eqb_spec size 0) as [->|Hne]; [cbn; by left|].
  cbn [negb CHECK mbind result_bind]. destruct (IsPowerOfTwo size) eqn:Ep.
  - apply IsPowerOfTwo_iff in Ep; [|lia]. destruct Ep as [?|(k & Hk & ->)]; [lia|].
    assert (k < 64) by (apply (Z.pow_lt_mono_r_iff 2); lia).
    split; [split; [lia|apply Z.pow_le_mono_r; lia]|]. exists k. split; [lia|]. split; [done|]. split; [lia|]. done.
  - rewrite MostSignificantSetBitIndex_log2 by lia. cbn [mbind result_bind].
    pose proof (Z.log2_spec size ltac:(lia)) as [Hlo Hhi]. pose proof (Z.log2_nonneg size).
    assert (size ≠ 2 ^ Z.log2 size) as Hnp.
    { intros E. assert (IsPowerOfTwo size = true); [|congruence]. apply IsPowerOfTwo_iff; [lia|]. right. eauto. }
    assert (Z.log2 size < 64) by (apply Z.log2_lt_pow2; lia).
    destruct (Z.eq_dec (Z.log2 size) 63) as [E|E].
    + rewrite E in *. cbn. right. split; [lia|done].
    + rewrite !shl_1_64 by lia. cbn [mbind result_bind].
      rewrite (proj2 (Z.ltb_lt size _)), (proj2 (Z.ltb_lt _ size)) by lia. cbn [CHECK mbind result_bind].
      assert (2 ^ (Z.log2 size + 1) ≤ 2 ^ 63) by (apply Z.pow_le_mono_r; lia).
      split; [lia|]. exists (Z.log2 size + 1). split; [lia|]. split; [done|]. split; [lia|].
      intros j Hj Hle. apply Z.pow_le_mono_r; [lia|].
      assert (Z.log2 size < j); [|lia]. apply (Z.pow_lt_mono_r_iff 2); lia.
Qed.

Lemma returns_RoundUpToPowerOfTwo size e : 0 ≤ e < 64 → 0 < size ≤ 2 ^ e →
  returns (RoundUpToPowerOfTwo size) (λ r, ∃ k, 0 ≤ k ≤ e ∧ r = 2 ^ k ∧ size ≤ r).
Proof.
  intros He Hs. assert (2 ^ e ≤ 2 ^ 63) by (apply Z.pow_le_mono_r; lia).
  pose proof (RoundUpToPowerOfTwo_spec size ltac:(lia)) as H1.
  destruct (RoundUpToPowerOfTwo size) as [r|]; [|lia]. destruct H1 as (_ & k & Hk & -> & Hle & Hmin).
  exists k. split; [|done]. split; [lia|]. apply (Z.pow_le_mono_r_iff 2); [lia..|]. apply Hmin; lia.
Qed.

(** [RoundUpToPowerOfTwo] returns the least power of two that is not below
    its argument, for every argument up to [2^63].  Zero stops at the [CHECK];
    above [2^63], where no such 64-bit number exists, the shift distance reaches
    64. *)
Theorem RoundUpToPowerOfTwo_correct size : 0 ≤ size < 2 ^ 64 →
  match RoundUpToPowerOfTwo size with
  | Ok r => 0 < size ≤ 2 ^ 63 ∧ ∃ k, 0 ≤ k < 64 ∧ r = 2 ^ k ∧ size ≤ r ∧
            ∀ j, 0 ≤ j → size ≤ 2 ^ j → r ≤ 2 ^ j
  | Fault e => (size = 0 ∧ e = CheckFailed) ∨ (2 ^ 63 < size ∧ e = BadShift)
  end.
Proof. apply RoundUpToPowerOfTwo_spec. Qed.

Lemma RoundUpToPowerOfTwo_correct_witness :
  match RoundUpToPowerOfTwo 65 with
  | Ok r => 0 < 65 ≤ 2 ^ 63 ∧ ∃ k, 0 ≤ k < 64 ∧ r = 2 ^ k ∧ 65 ≤ r ∧
            ∀ j, 0 ≤ j → 65 ≤ 2 ^ j → r ≤ 2 ^ j
  | Fault e => (65 = 0 ∧ e = CheckFailed) ∨ (2 ^ 63 < 65 ∧ e = BadShift)
  end.
Proof. apply (RoundUpToPowerOfTwo_correct 65). lia. Defined.

(** For a power of two [2^k], [RoundUpTo] returns the least multiple that is
    not below [p] when the addition does not wrap, [RoundDownTo] the greatest one
    that is not above it, and [IsAligned] holds exactly of the multiples. *)
Theorem rounding_correct k p : 0 ≤ k < 64 → 0 ≤ p < 2 ^ 64 →
  (p + 2 ^ k - 1 < 2 ^ 64 → ∃ q, RoundUpTo p (2 ^ k) = Ok (2 ^ k * q) ∧
    2 ^ k * (q - 1) < p ≤ 2 ^ k * q) ∧
  (∃ q, RoundDownTo p (2 ^ k) = 2 ^ k * q ∧ 2 ^ k * q ≤ p < 2 ^ k * (q + 1)) ∧
  (IsAligned p (2 ^ k) = true ↔ (2 ^ k | p)).
Proof.
  intros Hk Hp. assert (0 < 2 ^ k) by lia. assert (2 ^ k < 2 ^ 64) by (apply Z.pow_lt_mono_r; lia).
  split; [|split].
  - intros Hov. exists ((p + 2 ^ k - 1) / 2 ^ k). rewrite RoundUpTo_pow2 by lia. split; [done|].
    pose proof (Z.div_mod (p + 2 ^ k - 1) (2 ^ k)). pose proof (Z.mod_pos_bound (p + 2 ^ k - 1) (2 ^ k)). nia.
  - exists (p / 2 ^ k). rewrite RoundDownTo_pow2 by lia. split; [done|].
    pose proof (Z.div_mod p (2 ^ k)). pose proof (Z.mod_pos_bound p (2 ^ k)). nia.
  - unfold IsAligned. rewrite cast_id by lia. rewrite Z.sub_1_r, <- Z.ones_equiv, Z.land_ones by lia.
    rewrite Z.eqb_eq. apply Z.mod_divide. lia.
Qed.

Lemma rounding_correct_witness :
  (77 + 2 ^ 4 - 1 < 2 ^ 64 → ∃ q, RoundUpTo 77 (2 ^ 4) = Ok (2 ^ 4 * q) ∧
    2 ^ 4 * (q - 1) < 77 ≤ 2 ^ 4 * q) ∧
  (∃ q, RoundDownTo 77 (2 ^ 4) = 2 ^ 4 * q ∧ 2 ^ 4 * q ≤ 77 < 2 ^ 4 * (q + 1)) ∧
  (IsAligned 77 (2 ^ 4) = true ↔ (2 ^ 4 | 77)).
Proof. apply (rounding_correct 4 77); lia. Defined.
