(* ===== verification/BitVector.v ===== *)
(** * BitVector: the bit-vector interface and [BasicBitVector]

    [sanitizer_bitvector.h] has two implementations of one interface.  The
    class [BitVector] lists its operations, the class [BitVectorSpec] states
    what they promise, against the finite set of the indices that are set.
    [BVGraph] and [DeadlockDetector] are proved against these classes; this file
    discharges them for [BasicBitVector], [TwoLevelBitVector] for the
    two-level vector.

    Bit vectors have no constructor: an object starts as uninitialised memory
    ([bv_raw]), and [clear], [setAll] or [copyFrom] establish the invariant
    ([bv_wf]). *)
From S2P Require Import Prelude Common.

(** ** The interface *)

Class BitVector (BV : Type) := {
  kSize : Z;
  clear : BV → result BV;
  setAll : BV → result BV;
  empty : BV → result bool;
  setBit : BV → Z → result (BV * bool);
  clearBit : BV → Z → result (BV * bool);
  getBit : BV → Z → result bool;
  getAndClearFirstOne : BV → result (BV * Z);
  setUnion : BV → BV → result (BV * bool);
  setIntersection : BV → BV → result (BV * bool);
  setDifference : BV → BV → result (BV * bool);
  copyFrom : BV → BV → result BV;
  intersectsWith : BV → BV → result bool;
  (* An iterator keeps a reference to the vector it runs over: [hasNext] and
     [next] read the vector they are given. *)
  Iterator : Type;
  mkIterator : BV → Iterator;
  hasNext : BV → Iterator → result bool;
  next : BV → Iterator → result (Iterator * Z)
}.

(** The indices a bit vector of [n] bits can hold. *)
Definition indices (n : Z) : gset Z := list_to_set (seqZ 0 n).

Lemma elem_of_indices n i : i ∈ indices n ↔ 0 ≤ i < n.
Proof. unfold indices. rewrite elem_of_list_to_set, elem_of_seqZ. lia. Qed.

Lemma size_indices n : size (indices n) = Z.to_nat n.
Proof.
  unfold indices. rewrite size_list_to_set by apply NoDup_seqZ.
  apply length_seqZ.
Qed.

(** When adding, removing or testing an element changes a set. *)
Lemma union_singleton_changed (i : Z) (s t : gset Z) :
  t = s ∪ {[i]} → t ≠ s ↔ i ∉ s.
Proof. intros ->. set_solver. Qed.

Lemma elem_nonempty (i : Z) (s : gset Z) : i ∈ s → s ≠ ∅.
Proof. set_solver. Qed.

Lemma union_singleton_nonempty (i : Z) (s : gset Z) : {[i]} ∪ s ≠ ∅.
Proof. set_solver. Qed.

Lemma difference_singleton_changed (i : Z) (s t : gset Z) :
  t = s ∖ {[i]} → t ≠ s ↔ i ∈ s.
Proof. intros ->. destruct (decide (i ∈ s)); set_solver. Qed.

Lemma intersection_singleton_nonempty (i : Z) (s t : gset Z) :
  t = s ∩ {[i]} → t ≠ ∅ ↔ i ∈ s.
Proof. intros ->. destruct (decide (i ∈ s)); set_solver. Qed.

Lemma intersection_complement (n : Z) (s t : gset Z) :
  s ⊆ indices n → s ∩ (indices n ∖ t) = s ∖ t.
Proof. set_solver. Qed.

(** [first_one i s]: [i] is the least element of [s]. *)
Definition first_one (i : Z) (s : gset Z) : Prop := i ∈ s ∧ ∀ j, j ∈ s → i ≤ j.

(** What the operations promise.  [bits b] is the set [b] denotes; an operation
    that reports a change reports exactly whether that set has changed. *)
Class BitVectorSpec (BV : Type) `{BitVector BV} := {
  bv_raw : BV → Prop;
  bv_wf : BV → Prop;
  bits : BV → gset Z;
  bv_iter : BV → Iterator → gset Z → Prop;
  kSize_pos : 0 < kSize;
  bv_wf_raw b : bv_wf b → bv_raw b;
  bits_subset b : bits b ⊆ indices kSize;
  clear_spec b : bv_raw b →
    returns (clear b) (λ b', bv_wf b' ∧ bits b' = ∅);
  setAll_spec b : bv_raw b →
    returns (setAll b) (λ b', bv_wf b' ∧ bits b' = indices kSize);
  empty_spec b : bv_wf b →
    returns (empty b) (λ r, r = bool_decide (bits b = ∅));
  setBit_spec b i : bv_wf b → 0 ≤ i < kSize →
    returns (setBit b i) (λ '(b', r),
      bv_wf b' ∧ bits b' = {[i]} ∪ bits b ∧ r = bool_decide (i ∉ bits b));
  clearBit_spec b i : bv_wf b → 0 ≤ i < kSize →
    returns (clearBit b i) (λ '(b', r),
      bv_wf b' ∧ bits b' = bits b ∖ {[i]} ∧ r = bool_decide (i ∈ bits b));
  getBit_spec b i : bv_wf b → 0 ≤ i < kSize →
    returns (getBit b i) (λ r, r = bool_decide (i ∈ bits b));
  getAndClearFirstOne_spec b : bv_wf b → bits b ≠ ∅ →
    returns (getAndClearFirstOne b) (λ '(b', i),
      bv_wf b' ∧ first_one i (bits b) ∧ bits b' = bits b ∖ {[i]});
  setUnion_spec b v : bv_wf b → bv_wf v →
    returns (setUnion b v) (λ '(b', r),
      bv_wf b' ∧ bits b' = bits b ∪ bits v ∧ r = bool_decide (bits b' ≠ bits b));
  setIntersection_spec b v : bv_wf b → bv_wf v →
    returns (setIntersection b v) (λ '(b', r),
      bv_wf b' ∧ bits b' = bits b ∩ bits v ∧ r = bool_decide (bits b' ≠ bits b));
  setDifference_spec b v : bv_wf b → bv_wf v →
    returns (setDifference b v) (λ '(b', r),
      bv_wf b' ∧ bits b' = bits b ∖ bits v ∧ r = bool_decide (bits b' ≠ bits b));
  copyFrom_spec b v : bv_raw b → bv_wf v →
    returns (copyFrom b v) (λ b', bv_wf b' ∧ bits b' = bits v);
  intersectsWith_spec b v : bv_wf b → bv_wf v →
    returns (intersectsWith b v) (λ r, r = bool_decide (bits b ∩ bits v ≠ ∅));
  mkIterator_spec b : bv_wf b → bv_iter b (mkIterator b) (bits b);
  hasNext_spec b it s : bv_iter b it s →
    returns (hasNext b it) (λ r, r = bool_decide (s ≠ ∅));
  next_spec b it s : bv_iter b it s → s ≠ ∅ →
    returns (next b it) (λ '(it', i), first_one i s ∧ bv_iter b it' (s ∖ {[i]}))
}.

(** ** Draining a bit vector

    The loop [while (!t.empty()) { i = t.getAndClearFirstOne(); body }], with
    and without a [return] in its body.  [kSize] iterations are enough: every
    iteration removes one of at most [kSize] bits. *)
Section drain.
Context {BV : Type} `{BitVector BV}.

Fixpoint drain_loop {S} (fuel : nat) (body : Z → S → result S) (t : BV) (s : S) : result (BV * S) :=
  e ← empty t;
  if e : bool then Ok (t, s)
  else
    match fuel with
    | O => Fault OutOfFuel
    | Datatypes.S fuel' =>
        '(t', i) ← getAndClearFirstOne t;
        s' ← body i s;
        drain_loop fuel' body t' s'
    end.

Definition drain {S} (body : Z → S → result S) (t : BV) (s : S) : result (BV * S) :=
  drain_loop (Z.to_nat kSize) body t s.

Fixpoint drain_find_loop {R} (fuel : nat) (body : Z → result (option R)) (t : BV) : result (option R) :=
  e ← empty t;
  if e : bool then Ok None
  else
    match fuel with
    | O => Fault OutOfFuel
    | S fuel' =>
        '(t', i) ← getAndClearFirstOne t;
        r ← body i;
        match r with
        | Some x => Ok (Some x)
        | None => drain_find_loop fuel' body t'
        end
    end.

Definition drain_find {R} (body : Z → result (option R)) (t : BV) : result (option R) :=
  drain_find_loop (Z.to_nat kSize) body t.

Context `{!BitVectorSpec BV}.

Lemma size_bits (b : BV) : (size (bits b) ≤ Z.to_nat kSize)%nat.
Proof. rewrite <- size_indices. apply subseteq_size, bits_subset. Qed.

Lemma size_remove (i : Z) (s : gset Z) n :
  i ∈ s → (size s ≤ S n)%nat → (size (s ∖ {[i]}) ≤ n)%nat.
Proof.
  intros Hi Hs. rewrite size_difference by set_solver.
  rewrite size_singleton. lia.
Qed.

Lemma returns_drain {S} (P : gset Z → S → Prop) (body : Z → S → result S) (t : BV) (s : S) :
  bv_wf t → P (bits t) s →
  (∀ i R s, first_one i R → R ⊆ bits t → P R s → returns (body i s) (P (R ∖ {[i]}))) →
  returns (drain body t s) (λ '(t', s'), bv_wf t' ∧ bits t' = ∅ ∧ P ∅ s').
Proof.
  intros Ht HP Hbody. unfold drain. pose proof (size_bits t) as Hsz.
  remember (bits t) as T eqn:ET in Hbody. assert (bits t ⊆ T) as Hsub by (by subst).
  clear ET. revert t s Ht HP Hsub Hsz.
  induction (Z.to_nat kSize) as [|n IH]; intros t s Ht HP Hsub Hsz; cbn [drain_loop].
  all: eapply returns_bind; [by apply empty_spec|]; intros e ->; case_bool_decide as He;
    [by rewrite He in HP; repeat split|].
  - exfalso. apply He, leibniz_equiv, size_empty_iff. lia.
  - eapply returns_bind; [by apply getAndClearFirstOne_spec|].
    intros [t' i] (Ht' & Hi & E). eapply returns_bind; [by apply Hbody|].
    intros s' HP'. rewrite <- E in HP'. apply IH; [done..| |].
    + rewrite E. set_solver.
    + rewrite E. apply size_remove; [apply Hi | done].
Qed.

Lemma returns_drain_find {R} (P : gset Z → Prop) (Q : option R → Prop)
    (body : Z → result (option R)) (t : BV) :
  bv_wf t → P (bits t) →
  (∀ i S, first_one i S → S ⊆ bits t → P S →
    returns (body i) (λ r, match r with Some x => Q (Some x) | None => P (S ∖ {[i]}) end)) →
  (P ∅ → Q None) →
  returns (drain_find body t) Q.
Proof.
  intros Ht HP Hbody HQ. unfold drain_find. pose proof (size_bits t) as Hsz.
  remember (bits t) as T eqn:ET in Hbody. assert (bits t ⊆ T) as Hsub by (by subst).
  clear ET. revert t Ht HP Hsub Hsz.
  induction (Z.to_nat kSize) as [|n IH]; intros t Ht HP Hsub Hsz; cbn [drain_find_loop].
  all: eapply returns_bind; [by apply empty_spec|]; intros e ->; case_bool_decide as He;
    [rewrite He in HP; by apply HQ|].
  - exfalso. apply He, leibniz_equiv, size_empty_iff. lia.
  - eapply returns_bind; [by apply getAndClearFirstOne_spec|].
    intros [t' i] (Ht' & Hi & E). eapply returns_bind; [by apply Hbody|].
    intros [x|] HP'; [done|]. rewrite <- E in HP'. apply IH; [done..| |].
    + rewrite E. set_solver.
    + rewrite E. apply size_remove; [apply Hi | done].
Qed.
End drain.

(** ** [BasicBitVector<basic_int_t>]

    [w] is the width of [basic_int_t]; the vector is one integer of that width. *)
Module Basic.

Record BasicBitVector (w : Z) := BBV { bits_ : Z }.
Arguments BBV {w} bits_.
Arguments bits_ {w} b.

Section ops.
Context {w : Z}.
Implicit Types b v : BasicBitVector w.



Definition basic_clear b : BasicBitVector w := BBV 0.

Definition basic_setAll b : BasicBitVector w := BBV (cast w (Z.lnot 0)).

Definition basic_empty b : bool := bits_ b =? 0.

Definition mask (idx : Z) : result Z :=
  CHECK (idx <? w);;
  Ok (cast w (Z.shiftl 1 idx)).

(** The boolean result of an update: whether [bits_] has changed. *)
Definition updated b (new_bits : Z) : BasicBitVector w * bool :=
  (BBV new_bits, negb (new_bits =? bits_ b)).

Definition basic_setBit b (idx : Z) : result (BasicBitVector w * bool) :=
  m ← mask idx;
  Ok (updated b (Z.lor (bits_ b) m)).

Definition basic_clearBit b (idx : Z) : result (BasicBitVector w * bool) :=
  m ← mask idx;
  Ok (updated b (Z.land (bits_ b) (cast w (Z.lnot m)))).

Definition basic_getBit b (idx : Z) : result bool :=
  m ← mask idx;
  Ok (negb (Z.land (bits_ b) m =? 0)).

Definition basic_getAndClearFirstOne b : result (BasicBitVector w * Z) :=
  CHECK (negb (basic_empty b));;
  idx ← LeastSignificantSetBitIndex (bits_ b);
  '(b', _) ← basic_clearBit b idx;
  Ok (b', idx).

Definition basic_setUnion b v : BasicBitVector w * bool :=
  updated b (Z.lor (bits_ b) (bits_ v)).

Definition basic_setIntersection b v : BasicBitVector w * bool :=
  updated b (Z.land (bits_ b) (bits_ v)).

Definition basic_setDifference b v : BasicBitVector w * bool :=
  updated b (Z.land (bits_ b) (cast w (Z.lnot (bits_ v)))).

Definition basic_copyFrom b v : BasicBitVector w := BBV (bits_ v).

Definition basic_intersectsWith b v : bool :=
  negb (Z.land (bits_ b) (bits_ v) =? 0).

(** [BasicBitVector::Iterator]: a copy of the vector, consumed bit by bit. *)
Record basic_Iterator := BIter { bv_ : BasicBitVector w }.

Definition basic_mkIterator b : basic_Iterator := BIter b.

Definition basic_hasNext (it : basic_Iterator) : bool := negb (basic_empty (bv_ it)).

Definition basic_next (it : basic_Iterator) : result (basic_Iterator * Z) :=
  '(b', idx) ← basic_getAndClearFirstOne (bv_ it);
  Ok (BIter b', idx).

Definition basic_iter_clear (it : basic_Iterator) : basic_Iterator :=
  BIter (basic_clear (bv_ it)).

End ops.
Arguments basic_Iterator : clear implicits.

#[export] Instance basic_BitVector (w : Z) : BitVector (BasicBitVector w) := {|
  kSize := w;
  clear b := Ok (basic_clear b);
  setAll b := Ok (basic_setAll b);
  empty b := Ok (basic_empty b);
  setBit := basic_setBit;
  clearBit := basic_clearBit;
  getBit := basic_getBit;
  getAndClearFirstOne := basic_getAndClearFirstOne;
  setUnion b v := Ok (basic_setUnion b v);
  setIntersection b v := Ok (basic_setIntersection b v);
  setDifference b v := Ok (basic_setDifference b v);
  copyFrom b v := Ok (basic_copyFrom b v);
  intersectsWith b v := Ok (basic_intersectsWith b v);
  Iterator := basic_Iterator w;
  mkIterator := basic_mkIterator;
  hasNext _ it := Ok (basic_hasNext it);
  next _ it := basic_next it
|}.

(** A [basic_int_t] is 8, 16, 32 or 64 bits wide; the proofs need only this. *)
Class ValidWidth (w : Z) := valid_width : 0 < w ≤ 64.
#[export] Instance valid_width_8 : ValidWidth 8 := ltac:(unfold ValidWidth; lia).
#[export] Instance valid_width_16 : ValidWidth 16 := ltac:(unfold ValidWidth; lia).
#[export] Instance valid_width_32 : ValidWidth 32 := ltac:(unfold ValidWidth; lia).
#[export] Instance valid_width_64 : ValidWidth 64 := ltac:(unfold ValidWidth; lia).

Section proofs.
Context {w : Z} {Hw : ValidWidth w}.
Implicit Types b v : BasicBitVector w.

Let width : 0 < w ≤ 64 := Hw.

Definition basic_wf b : Prop := 0 ≤ bits_ b < 2 ^ w.

Definition basic_bits b : gset Z :=
  filter (λ i, Z.testbit (bits_ b) i = true) (indices w).

Lemma elem_of_basic_bits b i :
  i ∈ basic_bits b ↔ 0 ≤ i < w ∧ Z.testbit (bits_ b) i = true.
Proof. unfold basic_bits. rewrite elem_of_filter, elem_of_indices. tauto. Qed.

Lemma elem_of_basic_bits_wf b i : basic_wf b →
  i ∈ basic_bits b ↔ Z.testbit (bits_ b) i = true.
Proof.
  intros Hb. rewrite elem_of_basic_bits. split; [tauto|]. intros Ht. split; [|done].
  destruct (Z.lt_ge_cases i 0); [by rewrite Z.testbit_neg_r in Ht|].
  destruct (Z.lt_ge_cases i w); [done|].
  by rewrite (testbit_high w) in Ht by done.
Qed.

Lemma basic_wf_bits (x : Z) :
  0 ≤ x → (∀ i, w ≤ i → Z.testbit x i = false) → basic_wf (BBV x).
Proof. intros. apply bits_range; auto with lia. Qed.

Lemma basic_bits_inj b v : basic_wf b → basic_wf v →
  basic_bits b = basic_bits v → bits_ b = bits_ v.
Proof.
  intros Hb Hv E. apply (bits_eq w); [done..|]. intros i Hi.
  apply eq_bool_prop_intro. rewrite !Is_true_true.
  rewrite <- !elem_of_basic_bits_wf by done. by rewrite E.
Qed.

Lemma basic_bits_empty b : basic_wf b → basic_bits b = ∅ ↔ bits_ b = 0.
Proof.
  intros Hb. split.
  - intros E. apply (basic_bits_inj b (BBV 0)); [done| |].
    + split; simpl; lia.
    + rewrite E. symmetry. apply set_eq. intros i. rewrite elem_of_basic_bits.
      simpl. rewrite Z.bits_0. set_solver.
  - intros E. apply set_eq. intros i. rewrite elem_of_basic_bits, E, Z.bits_0. set_solver.
Qed.

(** [updated] reports whether the denoted set has changed. *)
Lemma updated_spec b x : basic_wf b → basic_wf (BBV x) →
  negb (x =? bits_ b) = bool_decide (basic_bits (BBV x) ≠ basic_bits b).
Proof.
  intros Hb Hx. symmetry.
  destruct (Z.eqb_spec x (bits_ b)) as [->|Hne]; simpl.
  - apply bool_decide_eq_false_2. by destruct b; intros [].
  - apply bool_decide_eq_true_2. contradict Hne. apply (basic_bits_inj (BBV x) b Hx Hb Hne).
Qed.

Lemma mask_spec i : 0 ≤ i < w → mask (w:=w) i = Ok (2 ^ i).
Proof.
  intros. unfold mask, CHECK. rewrite (proj2 (Z.ltb_lt i w)) by lia. cbn.
  rewrite Z.shiftl_1_l, cast_id; [done|]. split; [lia|]. apply Z.pow_lt_mono_r; lia.
Qed.

Lemma basic_wf_high b i : basic_wf b → w ≤ i → Z.testbit (bits_ b) i = false.
Proof. apply testbit_high. Qed.

(** Decide a set equation between [basic_bits] terms bit by bit. *)
Ltac bits_set :=
  apply set_eq; intros ?i; rewrite ?elem_of_union, ?elem_of_intersection,
    ?elem_of_difference, ?elem_of_singleton, ?elem_of_basic_bits; simpl.

Lemma basic_lor_spec b v : basic_wf b → basic_wf v →
  basic_wf (BBV (Z.lor (bits_ b) (bits_ v))) ∧
  basic_bits (BBV (Z.lor (bits_ b) (bits_ v))) = basic_bits b ∪ basic_bits v.
Proof.
  intros Hb Hv. split.
  - apply basic_wf_bits; [apply Z.lor_nonneg; split; [apply Hb|apply Hv]|].
    intros. by rewrite Z.lor_spec, !basic_wf_high.
  - bits_set. rewrite Z.lor_spec, orb_true_iff. tauto.
Qed.

Lemma basic_land_spec b v : basic_wf b → basic_wf v →
  basic_wf (BBV (Z.land (bits_ b) (bits_ v))) ∧
  basic_bits (BBV (Z.land (bits_ b) (bits_ v))) = basic_bits b ∩ basic_bits v.
Proof.
  intros Hb Hv. split.
  - apply basic_wf_bits; [apply Z.land_nonneg; left; apply Hb|].
    intros. by rewrite Z.land_spec, !basic_wf_high.
  - bits_set. rewrite Z.land_spec, andb_true_iff. tauto.
Qed.

Lemma basic_lnot_spec v :
  basic_wf (BBV (cast w (Z.lnot (bits_ v)))) ∧
  basic_bits (BBV (cast w (Z.lnot (bits_ v)))) = indices w ∖ basic_bits v.
Proof.
  split; [apply cast_range; lia|].
  apply set_eq. intros i. rewrite elem_of_difference, elem_of_indices, !elem_of_basic_bits.
  simpl. destruct (decide (0 ≤ i < w)); [|tauto].
  rewrite cast_testbit, Z.lnot_spec, (proj2 (Z.ltb_lt i w)) by lia. simpl.
  rewrite negb_true_iff, <- not_true_iff_false. tauto.
Qed.

Lemma basic_mask_spec i : 0 ≤ i < w →
  basic_wf (BBV (2 ^ i)) ∧ basic_bits (BBV (2 ^ i)) = {[i]}.
Proof.
  intros Hi. split.
  - split; simpl; [lia|]. apply Z.pow_lt_mono_r; lia.
  - bits_set. rewrite pow2_testbit, Z.eqb_eq by lia. naive_solver.
Qed.

Lemma basic_subset b : basic_bits b ⊆ indices w.
Proof. intros i. rewrite elem_of_basic_bits, elem_of_indices. tauto. Qed.

Lemma basic_setBit_spec b i : basic_wf b → 0 ≤ i < w →
  returns (basic_setBit b i) (λ '(b', r),
    basic_wf b' ∧ basic_bits b' = {[i]} ∪ basic_bits b ∧ r = bool_decide (i ∉ basic_bits b)).
Proof.
  intros Hb Hi. unfold basic_setBit. rewrite mask_spec by done. cbn.
  destruct (basic_mask_spec i Hi) as [Hm Em].
  destruct (basic_lor_spec b (BBV (2 ^ i)) Hb Hm) as [Hwf E]. simpl in *.
  split; [done|]. split; [by rewrite E, Em, (comm_L (∪))|].
  rewrite updated_spec by done. apply bool_decide_ext.
  apply union_singleton_changed. by rewrite E, Em.
Qed.

Lemma basic_diff_spec b v : basic_wf b →
  basic_wf (BBV (Z.land (bits_ b) (cast w (Z.lnot (bits_ v))))) ∧
  basic_bits (BBV (Z.land (bits_ b) (cast w (Z.lnot (bits_ v))))) = basic_bits b ∖ basic_bits v.
Proof.
  intros Hb. destruct (basic_lnot_spec v) as [Hn En].
  destruct (basic_land_spec b (BBV _) Hb Hn) as [Hl El]. simpl in *.
  split; [done|]. rewrite El, En. apply intersection_complement, basic_subset.
Qed.

Lemma basic_clearBit_spec b i : basic_wf b → 0 ≤ i < w →
  returns (basic_clearBit b i) (λ '(b', r),
    basic_wf b' ∧ basic_bits b' = basic_bits b ∖ {[i]} ∧ r = bool_decide (i ∈ basic_bits b)).
Proof.
  intros Hb Hi. unfold basic_clearBit. rewrite mask_spec by done. cbn.
  destruct (basic_mask_spec i Hi) as [Hm Em].
  destruct (basic_diff_spec b (BBV (2 ^ i)) Hb) as [Hwf E]. simpl in *.
  split; [done|]. split; [by rewrite E, Em|].
  rewrite updated_spec by done. apply bool_decide_ext.
  apply difference_singleton_changed. by rewrite E, Em.
Qed.

Lemma basic_nonzero x : basic_wf (BBV x) →
  negb (x =? 0) = bool_decide (basic_bits (BBV x) ≠ ∅).
Proof.
  intros Hb. symmetry. destruct (Z.eqb_spec x 0); simpl.
  - apply bool_decide_eq_false_2. rewrite basic_bits_empty; auto.
  - apply bool_decide_eq_true_2. by rewrite basic_bits_empty.
Qed.

Lemma basic_getBit_spec b i : basic_wf b → 0 ≤ i < w →
  returns (basic_getBit b i) (λ r, r = bool_decide (i ∈ basic_bits b)).
Proof.
  intros Hb Hi. unfold basic_getBit. rewrite mask_spec by done. cbn.
  destruct (basic_mask_spec i Hi) as [Hm Em].
  destruct (basic_land_spec b (BBV (2 ^ i)) Hb Hm) as [Hwf E]. simpl in *.
  rewrite basic_nonzero by done. apply bool_decide_ext.
  apply intersection_singleton_nonempty. by rewrite E, Em.
Qed.

Lemma basic_empty_spec b : basic_wf b → basic_empty b = bool_decide (basic_bits b = ∅).
Proof.
  intros Hb. unfold basic_empty. rewrite (bool_decide_ext _ _ (basic_bits_empty b Hb)).
  symmetry. destruct (Z.eqb_spec (bits_ b) 0);
    [by apply bool_decide_eq_true_2 | by apply bool_decide_eq_false_2].
Qed.

Lemma basic_getAndClearFirstOne_spec b : basic_wf b → basic_bits b ≠ ∅ →
  returns (basic_getAndClearFirstOne b) (λ '(b', i),
    basic_wf b' ∧ first_one i (basic_bits b) ∧ basic_bits b' = basic_bits b ∖ {[i]}).
Proof.
  intros Hb Hne. unfold basic_getAndClearFirstOne.
  rstep_check; [rewrite basic_empty_spec by done; by rewrite bool_decide_eq_false_2|].
  assert (0 < bits_ b) as Hpos.
  { rewrite basic_bits_empty in Hne by done. destruct Hb. lia. }
  unfold LeastSignificantSetBitIndex, CHECK. rewrite (proj2 (Z.eqb_neq (bits_ b) 0)) by lia. cbn.
  destruct (builtin_ctzl_spec _ Hpos) as (Hi0 & Hit & Hmin).
  set (i := builtin_ctzl (bits_ b)) in *.
  assert (i ∈ basic_bits b) as Hin by (rewrite elem_of_basic_bits_wf; done).
  pose proof (proj1 (proj1 (elem_of_basic_bits b i) Hin)) as Hi.
  eapply returns_bind; [by apply basic_clearBit_spec|].
  intros [b' r] (Hwf & E & _). split; [done|]. split; [|done].
  split; [done|]. intros j [Hj Ht]%elem_of_basic_bits.
  apply Z.nlt_ge. intros Hlt. rewrite Hmin in Ht by lia. done.
Qed.

(** The pure updates, in the form the two-level vector uses them. *)
Lemma basic_setUnion_spec b v b' r : basic_wf b → basic_wf v → basic_setUnion b v = (b', r) →
  basic_wf b' ∧ basic_bits b' = basic_bits b ∪ basic_bits v ∧
  r = bool_decide (basic_bits b' ≠ basic_bits b).
Proof.
  intros Hb Hv [= <- <-]. destruct (basic_lor_spec b v Hb Hv).
  split_and!; [done..|]. by apply updated_spec.
Qed.

Lemma basic_setIntersection_spec b v b' r : basic_wf b → basic_wf v →
  basic_setIntersection b v = (b', r) →
  basic_wf b' ∧ basic_bits b' = basic_bits b ∩ basic_bits v ∧
  r = bool_decide (basic_bits b' ≠ basic_bits b).
Proof.
  intros Hb Hv [= <- <-]. destruct (basic_land_spec b v Hb Hv).
  split_and!; [done..|]. by apply updated_spec.
Qed.

Lemma basic_setDifference_spec b v b' r : basic_wf b → basic_setDifference b v = (b', r) →
  basic_wf b' ∧ basic_bits b' = basic_bits b ∖ basic_bits v ∧
  r = bool_decide (basic_bits b' ≠ basic_bits b).
Proof.
  intros Hb [= <- <-]. destruct (basic_diff_spec b v Hb).
  split_and!; [done..|]. by apply updated_spec.
Qed.

Lemma basic_clear_spec b : basic_wf (basic_clear b) ∧ basic_bits (basic_clear b) = ∅.
Proof.
  assert (basic_wf (basic_clear b)) by (split; simpl; lia).
  split; [done|]. by apply basic_bits_empty.
Qed.

Lemma basic_setAll_spec b : basic_wf (basic_setAll b) ∧ basic_bits (basic_setAll b) = indices w.
Proof.
  destruct (basic_lnot_spec (basic_clear b)) as [Hwf E]. split; [done|].
  rewrite (proj2 (basic_clear_spec b)), difference_empty_L in E. exact E.
Qed.

Lemma basic_intersectsWith_spec b v : basic_wf b → basic_wf v →
  basic_intersectsWith b v = bool_decide (basic_bits b ∩ basic_bits v ≠ ∅).
Proof.
  intros Hb Hv. destruct (basic_land_spec b v Hb Hv) as [Hwf E].
  unfold basic_intersectsWith. by rewrite basic_nonzero, E.
Qed.

Lemma basic_hasNext_spec (it : basic_Iterator w) : basic_wf (bv_ it) →
  basic_hasNext it = bool_decide (basic_bits (bv_ it) ≠ ∅).
Proof.
  intros. unfold basic_hasNext. rewrite basic_empty_spec by done.
  symmetry. apply bool_decide_not.
Qed.

Lemma basic_next_spec (it : basic_Iterator w) : basic_wf (bv_ it) → basic_bits (bv_ it) ≠ ∅ →
  returns (basic_next it) (λ '(it', i), basic_wf (bv_ it') ∧
    first_one i (basic_bits (bv_ it)) ∧ basic_bits (bv_ it') = basic_bits (bv_ it) ∖ {[i]}).
Proof.
  intros Hwf Hne. unfold basic_next.
  eapply returns_bind; [by apply basic_getAndClearFirstOne_spec|]. by intros [b' i].
Qed.

End proofs.

#[export] Instance basic_BitVectorSpec (w : Z) {Hw : ValidWidth w} :
  BitVectorSpec (BasicBitVector w).
Proof.
  refine {| bv_raw := basic_wf; bv_wf := basic_wf; bits := basic_bits;
            bv_iter _ it s := basic_wf (bv_ it) ∧ basic_bits (bv_ it) = s |}.
  all: cbn [kSize clear setAll empty setBit clearBit getBit getAndClearFirstOne setUnion
            setIntersection setDifference copyFrom intersectsWith mkIterator hasNext next
            Iterator basic_BitVector returns].
  - apply Hw.
  - done.
  - apply basic_subset.
  - intros b _. apply basic_clear_spec.
  - intros b _. apply basic_setAll_spec.
  - apply basic_empty_spec.
  - apply basic_setBit_spec.
  - apply basic_clearBit_spec.
  - apply basic_getBit_spec.
  - apply basic_getAndClearFirstOne_spec.
  - intros b v Hb Hv. destruct (basic_setUnion b v) eqn:E. by eapply basic_setUnion_spec.
  - intros b v Hb Hv. destruct (basic_setIntersection b v) eqn:E.
    by eapply basic_setIntersection_spec.
  - intros b v Hb Hv. destruct (basic_setDifference b v) eqn:E.
    by eapply basic_setDifference_spec.
  - intros b v _ Hv. by destruct v.
  - apply basic_intersectsWith_spec.
  - by intros b Hb.
  - intros _ it s [Hwf <-]. by apply basic_hasNext_spec.
  - intros _ it s [Hwf <-] Hne. eapply returns_mono; [by apply basic_next_spec|].
    by intros [it' i] (? & ? & ?).
Defined.

End Basic.
