(* ===== verification/TwoLevelBitVector.v ===== *)
(** * TwoLevelBitVector: the sparse bit vector of [sanitizer_bitvector.h]

    [TwoLevelBitVector<kLevel1Size, BasicBitVector<basic_int_t>>]: bit [i1] of
    the first-level vector [l1_[i0]] says that the second-level vector
    [l2_[i0][i1]] is in use; the contents of an unused second-level vector are
    arbitrary.  [k] is [kLevel1Size] and [w] the width of [basic_int_t]. *)
From S2P Require Import Prelude Common BitVector.
Import Basic.

Module TwoLevel.

#[export] Instance basic_inhabited w : Inhabited (BasicBitVector w) := populate (BBV 0).

Record TwoLevelBitVector (k w : Z) := TLBV {
  l1_ : list (BasicBitVector w);
  l2_ : list (list (BasicBitVector w))
}.
Arguments TLBV {k w} l1_ l2_.
Arguments l1_ {k w} t.
Arguments l2_ {k w} t.

Section ops.
Context {k w : Z}.
Implicit Types b v : TwoLevelBitVector k w.

Definition tl_kSize : Z := w * w * k.

(** Reads and writes of [l1_[i0]] and [l2_[i0][i1]]. *)
Definition get1 b (i0 : Z) : result (BasicBitVector w) := aget (l1_ b) i0.

Definition get2 b (i0 i1 : Z) : result (BasicBitVector w) :=
  row ← aget (l2_ b) i0;
  aget row i1.

Definition set1 b (i0 : Z) (x : BasicBitVector w) : result (TwoLevelBitVector k w) :=
  l1 ← aset (l1_ b) i0 x;
  Ok (TLBV l1 (l2_ b)).

Definition set2 b (i0 i1 : Z) (x : BasicBitVector w) : result (TwoLevelBitVector k w) :=
  row ← aget (l2_ b) i0;
  row' ← aset row i1 x;
  l2 ← aset (l2_ b) i0 row';
  Ok (TLBV (l1_ b) l2).

Definition check (idx : Z) : result unit := CHECK (idx <=? tl_kSize).

Definition idx0 (idx : Z) : result Z :=
  let res := idx / (w * w) in
  CHECK (res <=? k);; Ok res.

Definition idx1 (idx : Z) : result Z :=
  let res := (idx / w) mod w in
  CHECK (res <=? w);; Ok res.

Definition idx2 (idx : Z) : result Z :=
  let res := idx mod w in
  CHECK (res <=? w);; Ok res.

Definition tl_clear b : result (TwoLevelBitVector k w) :=
  for_range 0 k (λ i b, x ← get1 b i; set1 b i (basic_clear x)) b.

Definition tl_setAll b : result (TwoLevelBitVector k w) :=
  for_range 0 k (λ i0 b,
    x ← get1 b i0;
    b ← set1 b i0 (basic_setAll x);
    for_range 0 w (λ i1 b,
      y ← get2 b i0 i1;
      set2 b i0 i1 (basic_setAll y)) b) b.

Definition tl_empty b : result bool :=
  r ← find_range 0 k (λ i,
    x ← get1 b i;
    Ok (if basic_empty x then None else Some false));
  Ok (default true r).

Definition tl_setBit b (idx : Z) : result (TwoLevelBitVector k w * bool) :=
  check idx;;
  i0 ← idx0 idx;
  i1 ← idx1 idx;
  i2 ← idx2 idx;
  x ← get1 b i0;
  g ← basic_getBit x i1;
  b ← (if g : bool then Ok b
       else
         '(x', _) ← basic_setBit x i1;
         b ← set1 b i0 x';
         y ← get2 b i0 i1;
         set2 b i0 i1 (basic_clear y));
  y ← get2 b i0 i1;
  '(y', res) ← basic_setBit y i2;
  b ← set2 b i0 i1 y';
  Ok (b, res).

(** [if (l2_[i0][i1].empty()) l1_[i0].clearBit(i1);] *)
Definition tl_prune b (i0 i1 : Z) : result (TwoLevelBitVector k w) :=
  y ← get2 b i0 i1;
  if basic_empty y then
    x ← get1 b i0;
    '(x', _) ← basic_clearBit x i1;
    set1 b i0 x'
  else Ok b.

Definition tl_clearBit b (idx : Z) : result (TwoLevelBitVector k w * bool) :=
  check idx;;
  i0 ← idx0 idx;
  i1 ← idx1 idx;
  i2 ← idx2 idx;
  x ← get1 b i0;
  g ← basic_getBit x i1;
  if g : bool then
    y ← get2 b i0 i1;
    '(y', res) ← basic_clearBit y i2;
    b ← set2 b i0 i1 y';
    b ← tl_prune b i0 i1;
    Ok (b, res)
  else Ok (b, false).

Definition tl_getBit b (idx : Z) : result bool :=
  check idx;;
  i0 ← idx0 idx;
  i1 ← idx1 idx;
  i2 ← idx2 idx;
  x ← get1 b i0;
  g ← basic_getBit x i1;
  if g : bool then
    y ← get2 b i0 i1;
    basic_getBit y i2
  else Ok false.

(** The body of the loop of [getAndClearFirstOne] for a non-empty [l1_[i0]]. *)
Definition tl_takeFrom b (i0 : Z) : result (TwoLevelBitVector k w * Z) :=
  x ← get1 b i0;
  '(x', i1) ← basic_getAndClearFirstOne x;
  b ← set1 b i0 x';
  y ← get2 b i0 i1;
  '(y', i2) ← basic_getAndClearFirstOne y;
  b ← set2 b i0 i1 y';
  b ← (if basic_empty y' then Ok b
       else
         x ← get1 b i0;
         '(x', _) ← basic_setBit x i1;
         set1 b i0 x');
  Ok (b, i0 * w * w + i1 * w + i2).

Definition tl_getAndClearFirstOne b : result (TwoLevelBitVector k w * Z) :=
  r ← find_range 0 k (λ i0,
    x ← get1 b i0;
    if basic_empty x then Ok None else Some <$> tl_takeFrom b i0);
  match r with
  | Some res => Ok res
  | None => CHECK false;; Ok (b, 0)
  end.

Definition tl_setUnion b v : result (TwoLevelBitVector k w * bool) :=
  for_range 0 k (λ i0 s,
    t ← get1 v i0;
    '(_, s) ← drain (λ i1 '(b, res),
      x ← get1 b i0;
      '(x', new) ← basic_setBit x i1;
      b ← set1 b i0 x';
      b ← (if new : bool then y ← get2 b i0 i1; set2 b i0 i1 (basic_clear y) else Ok b);
      y ← get2 b i0 i1;
      vy ← get2 v i0 i1;
      let '(y', c) := basic_setUnion y vy in
      b ← set2 b i0 i1 y';
      Ok (b, if c : bool then true else res)) t s;
    Ok s) (b, false).

Definition tl_setIntersection b v : result (TwoLevelBitVector k w * bool) :=
  for_range 0 k (λ i0 '(b, res),
    x ← get1 b i0;
    vx ← get1 v i0;
    let '(x', c) := basic_setIntersection x vx in
    b ← set1 b i0 x';
    let res := if c : bool then true else res in
    if basic_empty x' then Ok (b, res)
    else
      '(_, s) ← drain (λ i1 '(b, res),
        y ← get2 b i0 i1;
        vy ← get2 v i0 i1;
        let '(y', c) := basic_setIntersection y vy in
        b ← set2 b i0 i1 y';
        b ← tl_prune b i0 i1;
        Ok (b, if c : bool then true else res)) x' (b, res);
      Ok s) (b, false).

Definition tl_setDifference b v : result (TwoLevelBitVector k w * bool) :=
  for_range 0 k (λ i0 '(b, res),
    x ← get1 b i0;
    vx ← get1 v i0;
    let '(t, _) := basic_setIntersection x vx in
    '(_, s) ← drain (λ i1 '(b, res),
      y ← get2 b i0 i1;
      vy ← get2 v i0 i1;
      let '(y', c) := basic_setDifference y vy in
      b ← set2 b i0 i1 y';
      b ← tl_prune b i0 i1;
      Ok (b, if c : bool then true else res)) t (b, res);
    Ok s) (b, false).

Definition tl_copyFrom b v : result (TwoLevelBitVector k w) :=
  b ← tl_clear b;
  '(b, _) ← tl_setUnion b v;
  Ok b.

Definition tl_intersectsWith b v : result bool :=
  r ← find_range 0 k (λ i0,
    x ← get1 b i0;
    vx ← get1 v i0;
    let '(t, _) := basic_setIntersection x vx in
    drain_find (λ i1,
      vx ← get1 v i0;
      g ← basic_getBit vx i1;
      if g : bool then
        y ← get2 b i0 i1;
        vy ← get2 v i0 i1;
        Ok (if basic_intersectsWith y vy then Some true else None)
      else Ok None) t);
  Ok (default false r).

(** [TwoLevelBitVector::Iterator], over a reference to the vector. *)
Record tl_Iterator := TLIter {
  i0_ : Z;
  i1_ : Z;
  it1_ : basic_Iterator w;
  it2_ : basic_Iterator w
}.

(** The members [it1_] and [it2_] are default-constructed, then cleared. *)
Definition tl_mkIterator b : tl_Iterator :=
  TLIter 0 0 (basic_iter_clear (BIter (BBV 0))) (basic_iter_clear (BIter (BBV 0))).

Definition tl_hasNext b (it : tl_Iterator) : result bool :=
  if basic_hasNext (it1_ it) then Ok true
  else
    r ← find_range (i0_ it) k (λ i,
      x ← get1 b i;
      Ok (if basic_empty x then None else Some true));
    Ok (default false r).

(** The first step of [next]: with both iterators exhausted, find the next row. *)
Definition tl_next_row b (it : tl_Iterator) : result tl_Iterator :=
  if negb (basic_hasNext (it1_ it)) && negb (basic_hasNext (it2_ it)) then
    r ← find_range (i0_ it) k (λ i,
      x ← get1 b i;
      Ok (if basic_empty x then None
          else Some (TLIter i (i1_ it) (basic_mkIterator x) (it2_ it))));
    Ok (default (TLIter (Z.max (i0_ it) k) (i1_ it) (it1_ it) (it2_ it)) r)
  else Ok it.

(** The second step: with [it2_] exhausted, open the next cell of the row. *)
Definition tl_next_cell b (it : tl_Iterator) : result tl_Iterator :=
  if basic_hasNext (it2_ it) then Ok it
  else
    CHECK (basic_hasNext (it1_ it));;
    '(it1', i1) ← basic_next (it1_ it);
    y ← get2 b (i0_ it) i1;
    Ok (TLIter (i0_ it) i1 it1' (basic_mkIterator y)).

Definition tl_next b (it : tl_Iterator) : result (tl_Iterator * Z) :=
  it ← tl_next_row b it;
  it ← tl_next_cell b it;
  CHECK (basic_hasNext (it2_ it));;
  '(it2', i2) ← basic_next (it2_ it);
  let res := i0_ it * w * w + i1_ it * w + i2 in
  let i0 := if negb (basic_hasNext (it1_ it)) && negb (basic_hasNext it2')
            then i0_ it + 1 else i0_ it in
  Ok (TLIter i0 (i1_ it) (it1_ it) it2', res).

End ops.
Arguments tl_Iterator : clear implicits.

#[export] Instance tl_BitVector (k w : Z) : BitVector (TwoLevelBitVector k w) := {|
  kSize := tl_kSize (k:=k) (w:=w);
  clear := tl_clear;
  setAll := tl_setAll;
  empty := tl_empty;
  setBit := tl_setBit;
  clearBit := tl_clearBit;
  getBit := tl_getBit;
  getAndClearFirstOne := tl_getAndClearFirstOne;
  setUnion := tl_setUnion;
  setIntersection := tl_setIntersection;
  setDifference := tl_setDifference;
  copyFrom := tl_copyFrom;
  intersectsWith := tl_intersectsWith;
  Iterator := tl_Iterator w;
  mkIterator := tl_mkIterator;
  hasNext := tl_hasNext;
  next := tl_next
|}.

(** ** Reading and writing the two levels *)

Class ValidLevels (k : Z) := valid_levels : 0 < k.

Section access.
Context {k w : Z}.
Implicit Types b : TwoLevelBitVector k w.

Definition L1 b (i0 : Z) : BasicBitVector w := l1_ b !!! Z.to_nat i0.
Definition L2 b (i0 i1 : Z) : BasicBitVector w := l2_ b !!! Z.to_nat i0 !!! Z.to_nat i1.

Definition put1 b (i0 : Z) (x : BasicBitVector w) : TwoLevelBitVector k w :=
  TLBV (<[Z.to_nat i0 := x]> (l1_ b)) (l2_ b).
Definition put2 b (i0 i1 : Z) (x : BasicBitVector w) : TwoLevelBitVector k w :=
  TLBV (l1_ b)
    (<[Z.to_nat i0 := <[Z.to_nat i1 := x]> (l2_ b !!! Z.to_nat i0)]> (l2_ b)).

Definition shape b : Prop :=
  length (l1_ b) = Z.to_nat k ∧ length (l2_ b) = Z.to_nat k ∧
  ∀ i0, 0 ≤ i0 < k → length (l2_ b !!! Z.to_nat i0) = Z.to_nat w.

Lemma aget_total {A} `{Inhabited A} (l : list A) i :
  0 ≤ i < Z.of_nat (length l) → aget l i = Ok (l !!! Z.to_nat i).
Proof. intros. apply aget_Ok. split; [lia|]. apply list_lookup_lookup_total_lt. lia. Qed.

Lemma get1_ok b i0 : shape b → 0 ≤ i0 < k → get1 b i0 = Ok (L1 b i0).
Proof. intros (H1 & _ & _) Hi. apply aget_total. lia. Qed.

Lemma get2_ok b i0 i1 : shape b → 0 ≤ i0 < k → 0 ≤ i1 < w → get2 b i0 i1 = Ok (L2 b i0 i1).
Proof.
  intros (_ & H2 & H3) Hi Hi1. unfold get2. rewrite aget_total by lia. cbn.
  apply aget_total. rewrite H3 by lia. lia.
Qed.

Lemma set1_ok b i0 x : shape b → 0 ≤ i0 < k → set1 b i0 x = Ok (put1 b i0 x).
Proof. intros (H1 & _ & _) Hi. unfold set1. by rewrite aset_Ok by lia. Qed.

Lemma set2_ok b i0 i1 x : shape b → 0 ≤ i0 < k → 0 ≤ i1 < w →
  set2 b i0 i1 x = Ok (put2 b i0 i1 x).
Proof.
  intros (_ & H2 & H3) Hi Hi1. unfold set2. rewrite aget_total by lia. cbn.
  rewrite aset_Ok by (rewrite H3; lia). cbn. by rewrite aset_Ok by lia.
Qed.

Lemma shape_put1 b i0 x : shape b → shape (put1 b i0 x).
Proof. intros (H1 & H2 & H3). split; [simpl; by rewrite length_insert|done]. Qed.

Lemma shape_put2 b i0 i1 x : shape b → 0 ≤ i0 < k → shape (put2 b i0 i1 x).
Proof.
  intros (H1 & H2 & H3) Hi. split; [done|]. split; [simpl; by rewrite length_insert|].
  intros j0 Hj. cbn. destruct (decide (j0 = i0)) as [->|].
  - rewrite list_lookup_total_insert_eq by lia. rewrite length_insert. auto.
  - rewrite list_lookup_total_insert_ne by lia. auto.
Qed.

Lemma L1_put1 b i0 x j0 : shape b → 0 ≤ i0 < k → 0 ≤ j0 < k →
  L1 (put1 b i0 x) j0 = if decide (j0 = i0) then x else L1 b j0.
Proof.
  intros (H1 & _ & _) Hi Hj. unfold L1. cbn. destruct (decide (j0 = i0)) as [->|].
  - by rewrite list_lookup_total_insert_eq by lia.
  - by rewrite list_lookup_total_insert_ne by lia.
Qed.

Lemma L2_put1 b i0 x j0 j1 : L2 (put1 b i0 x) j0 j1 = L2 b j0 j1.
Proof. done. Qed.

Lemma L1_put2 b i0 i1 x j0 : L1 (put2 b i0 i1 x) j0 = L1 b j0.
Proof. done. Qed.

Lemma L2_put2 b i0 i1 x j0 j1 : shape b → 0 ≤ i0 < k → 0 ≤ j0 < k → 0 ≤ i1 < w → 0 ≤ j1 < w →
  L2 (put2 b i0 i1 x) j0 j1 = if decide (j0 = i0 ∧ j1 = i1) then x else L2 b j0 j1.
Proof.
  intros (_ & H2 & H3) Hi Hj Hi1 Hj1. unfold L2. cbn.
  destruct (decide (j0 = i0)) as [->|].
  - rewrite list_lookup_total_insert_eq by lia. destruct (decide (j1 = i1)) as [->|].
    + rewrite decide_True by done. by rewrite list_lookup_total_insert_eq by (rewrite H3; lia).
    + rewrite decide_False by naive_solver. by rewrite list_lookup_total_insert_ne by lia.
  - rewrite decide_False by naive_solver. by rewrite list_lookup_total_insert_ne by lia.
Qed.

End access.

(** ** The denoted set and the invariant *)

Section invariant.
Context {k w : Z} {Hw : ValidWidth w} {Hk : ValidLevels k}.
Implicit Types b v : TwoLevelBitVector k w.

Let width : 0 < w ≤ 64 := Hw.
Let levels : 0 < k := Hk.

(** Every second-level vector holds a [w]-bit integer, used or not. *)
Definition tl_raw b : Prop :=
  shape b ∧ ∀ i0, 0 ≤ i0 < k →
    basic_wf (L1 b i0) ∧ ∀ i1, 0 ≤ i1 < w → basic_wf (L2 b i0 i1).

(** A first-level bit marks a second-level vector that is not empty. *)
Definition tl_wf b : Prop :=
  tl_raw b ∧ ∀ i0 i1, 0 ≤ i0 < k → i1 ∈ basic_bits (L1 b i0) → basic_bits (L2 b i0 i1) ≠ ∅.

(** The bits of [l2_[i0][i1]] when that vector is in use. *)
Definition cell b (i0 i1 : Z) : gset Z :=
  if decide (i1 ∈ basic_bits (L1 b i0)) then basic_bits (L2 b i0 i1) else ∅.

Definition tri (i0 i1 i2 : Z) : Z := i0 * w * w + i1 * w + i2.

Definition in_range (i0 i1 i2 : Z) : Prop := 0 ≤ i0 < k ∧ 0 ≤ i1 < w ∧ 0 ≤ i2 < w.

Definition tl_bits b : gset Z :=
  filter (λ i, i mod w ∈ cell b (i / (w * w)) ((i / w) mod w)) (indices (w * w * k)).

Lemma tri_idx i0 i1 i2 : in_range i0 i1 i2 →
  tri i0 i1 i2 / (w * w) = i0 ∧ (tri i0 i1 i2 / w) mod w = i1 ∧ tri i0 i1 i2 mod w = i2.
Proof.
  intros (H0 & H1 & H2). unfold tri.
  assert ((i0 * w * w + i1 * w + i2) / w = i0 * w + i1) as E.
  { replace (i0 * w * w + i1 * w + i2) with (i2 + (i0 * w + i1) * w) by lia.
    rewrite Z.div_add, Z.div_small by lia. lia. }
  split; [|split].
  - rewrite <- Z.div_div, E by lia. rewrite Z.div_add_l, (Z.div_small i1) by lia. lia.
  - rewrite E, Z.add_comm, Z.mod_add, Z.mod_small; lia.
  - replace (i0 * w * w + i1 * w + i2) with (i2 + (i0 * w + i1) * w) by lia.
    rewrite Z.mod_add, Z.mod_small; lia.
Qed.

Lemma tri_bound i0 i1 i2 : in_range i0 i1 i2 → 0 ≤ tri i0 i1 i2 < w * w * k.
Proof.
  intros (H0 & H1 & H2). unfold tri.
  assert (i0 * w * w + i1 * w + i2 ≤ (k - 1) * w * w + (w - 1) * w + (w - 1)) by nia. nia.
Qed.

Lemma tri_cover i : 0 ≤ i < w * w * k →
  in_range (i / (w * w)) ((i / w) mod w) (i mod w) ∧
  i = tri (i / (w * w)) ((i / w) mod w) (i mod w).
Proof.
  intros Hi. pose proof (Z.mod_pos_bound i w) as Hm. pose proof (Z.mod_pos_bound (i / w) w).
  split.
  - repeat split; try lia; [apply Z.div_pos; lia | apply Z.div_lt_upper_bound; nia].
  - unfold tri. rewrite <- Z.div_div by lia.
    pose proof (Z.div_mod i w). pose proof (Z.div_mod (i / w) w). nia.
Qed.

(** Increasing index is lexicographic order of the triple. *)
Lemma tri_le i0 i1 i2 j0 j1 j2 : in_range i0 i1 i2 → in_range j0 j1 j2 →
  i0 < j0 ∨ (i0 = j0 ∧ (i1 < j1 ∨ (i1 = j1 ∧ i2 ≤ j2))) → tri i0 i1 i2 ≤ tri j0 j1 j2.
Proof.
  intros (H0 & H1 & H2) (G0 & G1 & G2). unfold tri.
  intros [?|[-> [?|[-> ?]]]]; nia.
Qed.

Lemma elem_of_tl_bits b i0 i1 i2 : in_range i0 i1 i2 →
  tri i0 i1 i2 ∈ tl_bits b ↔ i2 ∈ cell b i0 i1.
Proof.
  intros Hr. unfold tl_bits. rewrite elem_of_filter, elem_of_indices.
  destruct (tri_idx i0 i1 i2 Hr) as (-> & -> & ->). pose proof (tri_bound _ _ _ Hr). tauto.
Qed.

Lemma tl_bits_subset b : tl_bits b ⊆ indices (w * w * k).
Proof. unfold tl_bits. intros i. rewrite elem_of_filter. tauto. Qed.

(** A set of indices is determined by its triples. *)
Lemma tri_ext (S T : gset Z) : S ⊆ indices (w * w * k) → T ⊆ indices (w * w * k) →
  (∀ i0 i1 i2, in_range i0 i1 i2 → tri i0 i1 i2 ∈ S ↔ tri i0 i1 i2 ∈ T) → S = T.
Proof.
  intros HS HT Heq. apply set_eq. intros i.
  destruct (decide (i ∈ indices (w * w * k))) as [Hi|]; [|naive_solver].
  apply elem_of_indices, tri_cover in Hi as [Hr ->]. by apply Heq.
Qed.

Lemma tri_inj i0 i1 i2 j0 j1 j2 : in_range i0 i1 i2 → in_range j0 j1 j2 →
  tri i0 i1 i2 = tri j0 j1 j2 ↔ i0 = j0 ∧ i1 = j1 ∧ i2 = j2.
Proof.
  intros Hi Hj. split; [|naive_solver]. intros E.
  destruct (tri_idx _ _ _ Hi) as (A0 & A1 & A2). destruct (tri_idx _ _ _ Hj) as (B0 & B1 & B2).
  rewrite E in A0, A1, A2. split; [|split]; congruence.
Qed.

Lemma cell_range b i0 i1 i2 : i2 ∈ cell b i0 i1 → 0 ≤ i1 < w ∧ 0 ≤ i2 < w.
Proof.
  unfold cell. case_decide as Hd; [|set_solver].
  apply elem_of_basic_bits in Hd as [? _]. by intros [? _]%elem_of_basic_bits.
Qed.

Lemma cell_outside b i0 i1 : i1 ∉ basic_bits (L1 b i0) → cell b i0 i1 = ∅.
Proof. intros. unfold cell. by rewrite decide_False. Qed.

Lemma cell_used b i0 i1 : i1 ∈ basic_bits (L1 b i0) → cell b i0 i1 = basic_bits (L2 b i0 i1).
Proof. intros. unfold cell. by rewrite decide_True. Qed.

Lemma cell_nonempty b i0 i1 : tl_wf b → 0 ≤ i0 < k →
  cell b i0 i1 ≠ ∅ ↔ i1 ∈ basic_bits (L1 b i0).
Proof.
  intros [_ Hne] Hi. unfold cell. case_decide; [|naive_solver]. split; [done|]. auto.
Qed.

(** Two vectors denote the same set iff they agree cell by cell. *)
Lemma tl_bits_eq b v :
  tl_bits b = tl_bits v ↔ ∀ i0 i1, 0 ≤ i0 < k → 0 ≤ i1 < w → cell b i0 i1 = cell v i0 i1.
Proof.
  split.
  - intros E i0 i1 H0 H1. apply set_eq. intros i2.
    destruct (decide (0 ≤ i2 < w)) as [H2|H2].
    + rewrite <- !elem_of_tl_bits by done. by rewrite E.
    + split; intros ?%cell_range; tauto.
  - intros E. apply tri_ext; [apply tl_bits_subset..|].
    intros i0 i1 i2 Hr. rewrite !elem_of_tl_bits by done. destruct Hr as (? & ? & _).
    by rewrite E.
Qed.

(** [edit b b' i0 i1 c]: [b'] is [b] with the cell [(i0, i1)] replaced by [c]. *)
Definition edit b b' (i0 i1 : Z) (c : gset Z) : Prop :=
  tl_wf b' ∧ ∀ j0 j1, 0 ≤ j0 < k → 0 ≤ j1 < w →
    cell b' j0 j1 = if decide (j0 = i0 ∧ j1 = i1) then c else cell b j0 j1.

Lemma raw_put1 b i0 x : tl_raw b → 0 ≤ i0 < k → basic_wf x → tl_raw (put1 b i0 x).
Proof.
  intros [Hs Hb] Hi Hx. split; [by apply shape_put1|]. intros j0 Hj.
  rewrite L1_put1 by done. split; [case_decide; [done|by apply Hb]|].
  intros j1. rewrite L2_put1. by apply Hb.
Qed.

Lemma raw_put2 b i0 i1 x : tl_raw b → 0 ≤ i0 < k → 0 ≤ i1 < w → basic_wf x →
  tl_raw (put2 b i0 i1 x).
Proof.
  intros [Hs Hb] Hi Hi1 Hx. split; [by apply shape_put2|]. intros j0 Hj.
  rewrite L1_put2. split; [by apply Hb|].
  intros j1 Hj1. rewrite L2_put2 by done. case_decide; [done|by apply Hb].
Qed.

Lemma edit_intro b b' i0 i1 c : tl_wf b → tl_raw b' → 0 ≤ i0 < k →
  (∀ j0, 0 ≤ j0 < k → j0 ≠ i0 → L1 b' j0 = L1 b j0) →
  (∀ j1, j1 ∈ basic_bits (L1 b' i0) ↔
     if decide (j1 = i1) then c ≠ ∅ else j1 ∈ basic_bits (L1 b i0)) →
  (∀ j0 j1, 0 ≤ j0 < k → 0 ≤ j1 < w → ¬ (j0 = i0 ∧ j1 = i1) → L2 b' j0 j1 = L2 b j0 j1) →
  (c ≠ ∅ → basic_bits (L2 b' i0 i1) = c) → edit b b' i0 i1 c.
Proof.
  intros Hwf Hraw Hi H1 H1' H2 H2'. split.
  - split; [done|]. intros j0 j1 Hj Hin.
    pose proof (proj1 (proj1 (elem_of_basic_bits _ _) Hin)) as Hj1.
    destruct (decide (j0 = i0)) as [->|].
    + apply H1' in Hin. destruct (decide (j1 = i1)) as [->|].
      * rewrite H2'; done.
      * rewrite H2 by naive_solver. by apply Hwf.
    + rewrite H1 in Hin by done. rewrite H2 by naive_solver. by apply Hwf.
  - intros j0 j1 Hj Hj1. destruct (decide (j0 = i0 ∧ j1 = i1)) as [[-> ->]|Hne].
    + destruct (decide (c = ∅)) as [->|Hc].
      * apply cell_outside. rewrite H1'. rewrite decide_True by done. naive_solver.
      * rewrite cell_used; [by apply H2'|]. apply H1'. by rewrite decide_True.
    + unfold cell. rewrite H2 by done. destruct (decide (j0 = i0)) as [->|].
      * apply decide_ext. rewrite H1'. rewrite decide_False by naive_solver. done.
      * by rewrite H1.
Qed.

(** What an edit does to the denoted set. *)
Lemma edit_bits b b' i0 i1 c (S : gset Z) :
  edit b b' i0 i1 c → 0 ≤ i0 < k → 0 ≤ i1 < w → S ⊆ indices (w * w * k) →
  (∀ j0 j1 j2, in_range j0 j1 j2 → tri j0 j1 j2 ∈ S ↔
     if decide (j0 = i0 ∧ j1 = i1) then j2 ∈ c else j2 ∈ cell b j0 j1) →
  tl_bits b' = S.
Proof.
  intros [_ He] Hi0 Hi1 HS Heq. apply tri_ext; [apply tl_bits_subset|done|].
  intros j0 j1 j2 Hr. rewrite elem_of_tl_bits, Heq by done. destruct Hr as (? & ? & _).
  rewrite He by done. by case_decide.
Qed.

Lemma tl_wf_raw b : tl_wf b → tl_raw b.
Proof. by intros []. Qed.

Lemma tl_raw_shape b : tl_raw b → shape b.
Proof. by intros []. Qed.

Lemma raw_wf1 b i0 : tl_raw b → 0 ≤ i0 < k → basic_wf (L1 b i0).
Proof. intros [_ H] Hi. by apply H. Qed.

Lemma raw_wf2 b i0 i1 : tl_raw b → 0 ≤ i0 < k → 0 ≤ i1 < w → basic_wf (L2 b i0 i1).
Proof. intros [_ H] Hi. by apply H. Qed.

End invariant.

Create HintDb tl.
#[export] Hint Resolve tl_wf_raw tl_raw_shape raw_wf1 raw_wf2 shape_put1 shape_put2
  raw_put1 raw_put2 : tl.
#[export] Hint Extern 1 (0 <= _ < _) => lia : tl.

(** Run the reads and writes at the head of a computation. *)
Ltac tl_side := first [done | by eauto 6 with tl | lia].
Ltac tl_step :=
  repeat (first [rewrite get1_ok by tl_side | rewrite get2_ok by tl_side
                | rewrite set1_ok by tl_side | rewrite set2_ok by tl_side];
          cbn [mbind result_bind]).

(** ** The operations on one bit *)

Section bits.
Context {k w : Z} {Hw : ValidWidth w} {Hk : ValidLevels k}.
Implicit Types b v : TwoLevelBitVector k w.

Let width : 0 < w ≤ 64 := Hw.
Let levels : 0 < k := Hk.

(** Removing the first-level bit of an emptied cell. *)
Lemma prune_put2 b i0 i1 y : tl_wf b → 0 ≤ i0 < k → i1 ∈ basic_bits (L1 b i0) → basic_wf y →
  returns (tl_prune (put2 b i0 i1 y) i0 i1) (λ b', edit b b' i0 i1 (basic_bits y)).
Proof.
  intros Hwf Hi Hin Hy. pose proof (proj1 (proj1 (elem_of_basic_bits _ _) Hin)) as Hi1.
  unfold tl_prune. tl_step. rewrite L2_put2, decide_True by tl_side.
  rewrite basic_empty_spec by done. case_bool_decide as He; tl_step; rewrite ?L1_put2.
  - rbind (apply basic_clearBit_spec; [tl_side|done]).
    intros [x' r] (Hx' & Ex & _). tl_step. apply edit_intro; [done|tl_side|done|..].
    + intros. by rewrite L1_put1, decide_False, L1_put2 by tl_side.
    + intros j1. rewrite L1_put1, decide_True by tl_side. rewrite Ex, He.
      case_decide; set_solver.
    + intros. by rewrite L2_put1, L2_put2, decide_False by tl_side.
    + done.
  - apply edit_intro; [done|tl_side|done|..].
    + done.
    + intros j1. rewrite L1_put2. case_decide; naive_solver.
    + intros. by rewrite L2_put2, decide_False by tl_side.
    + by rewrite L2_put2, decide_True by tl_side.
Qed.

(** [opened b b1 i0 i1]: the first-level bit of the cell [(i0, i1)] is set and the
    second-level vector holds the bits of the cell. *)
Definition opened b b1 (i0 i1 : Z) : Prop :=
  tl_raw b1 ∧
  (∀ j0, 0 ≤ j0 < k → j0 ≠ i0 → L1 b1 j0 = L1 b j0) ∧
  basic_bits (L1 b1 i0) = {[i1]} ∪ basic_bits (L1 b i0) ∧
  (∀ j0 j1, 0 ≤ j0 < k → 0 ≤ j1 < w → ¬ (j0 = i0 ∧ j1 = i1) → L2 b1 j0 j1 = L2 b j0 j1) ∧
  basic_bits (L2 b1 i0 i1) = cell b i0 i1.

Lemma opened_used b x i0 i1 : tl_wf b → 0 ≤ i0 < k → i1 ∈ basic_bits (L1 b i0) →
  basic_wf x → basic_bits x = {[i1]} ∪ basic_bits (L1 b i0) → opened b (put1 b i0 x) i0 i1.
Proof.
  intros Hwf Hi Hin Hx Ex. split_and!.
  - tl_side.
  - intros. by rewrite L1_put1, decide_False by tl_side.
  - by rewrite L1_put1, decide_True by tl_side.
  - done.
  - by rewrite L2_put1, cell_used.
Qed.

Lemma opened_refl b i0 i1 : tl_wf b → i1 ∈ basic_bits (L1 b i0) → opened b b i0 i1.
Proof.
  intros Hwf Hin. split_and!; [tl_side|done| |done|by rewrite cell_used].
  set_solver + Hin.
Qed.

Lemma opened_fresh b x y i0 i1 : tl_wf b → 0 ≤ i0 < k → 0 ≤ i1 < w →
  i1 ∉ basic_bits (L1 b i0) → basic_wf x → basic_bits x = {[i1]} ∪ basic_bits (L1 b i0) →
  opened b (put2 (put1 b i0 x) i0 i1 (basic_clear y)) i0 i1.
Proof.
  intros Hwf Hi Hi1 Hin Hx Ex. destruct (basic_clear_spec y) as [Hc Ec]. split_and!.
  - tl_side.
  - intros. by rewrite L1_put2, L1_put1, decide_False by tl_side.
  - by rewrite L1_put2, L1_put1, decide_True by tl_side.
  - intros. by rewrite L2_put2, decide_False by tl_side.
  - rewrite L2_put2, decide_True by tl_side. by rewrite cell_outside.
Qed.

Lemma opened_put2 b b1 y i0 i1 : tl_wf b → 0 ≤ i0 < k → 0 ≤ i1 < w → opened b b1 i0 i1 →
  basic_wf y → basic_bits y ≠ ∅ → edit b (put2 b1 i0 i1 y) i0 i1 (basic_bits y).
Proof.
  intros Hwf Hi Hi1 (Hraw & HL1 & HB1 & HL2 & HB2) Hy Hne.
  apply edit_intro; [done|tl_side|done|..].
  - intros. rewrite L1_put2. auto.
  - intros j1. rewrite L1_put2, HB1, elem_of_union, elem_of_singleton.
    destruct (decide (j1 = i1)); tauto.
  - intros. rewrite L2_put2, decide_False by tl_side. auto.
  - intros _. by rewrite L2_put2, decide_True by tl_side.
Qed.

(** The prologue of [setBit], [clearBit] and [getBit]: the checks pass and the
    three indices are those of the decomposition. *)
Lemma idx_ok i : 0 ≤ i < tl_kSize (k:=k) (w:=w) →
  ∃ i0 i1 i2, in_range (k:=k) (w:=w) i0 i1 i2 ∧ i = tri (w:=w) i0 i1 i2 ∧
    check (k:=k) (w:=w) i = Ok tt ∧ idx0 (k:=k) (w:=w) i = Ok i0 ∧
    idx1 (w:=w) i = Ok i1 ∧ idx2 (w:=w) i = Ok i2.
Proof.
  intros Hi. destruct (tri_cover (k:=k) (w:=w) i Hi) as [Hr E].
  exists (i / (w * w)), ((i / w) mod w), (i mod w).
  destruct Hr as (H0 & H1 & H2).
  unfold check, idx0, idx1, idx2, CHECK.
  rewrite (proj2 (Z.leb_le i _)), (proj2 (Z.leb_le (i / (w * w)) _)),
    (proj2 (Z.leb_le ((i / w) mod w) _)), (proj2 (Z.leb_le (i mod w) _)) by lia.
  done.
Qed.

Lemma tl_setBit_spec b i : tl_wf b → 0 ≤ i < tl_kSize (k:=k) (w:=w) →
  returns (tl_setBit b i) (λ '(b', r),
    tl_wf b' ∧ tl_bits b' = {[i]} ∪ tl_bits b ∧ r = bool_decide (i ∉ tl_bits b)).
Proof.
  intros Hwf Hi. destruct (idx_ok i Hi) as (i0 & i1 & i2 & Hr & -> & Hc & E0 & E1 & E2).
  pose proof Hr as (H0 & H1 & H2).
  unfold tl_setBit. rewrite Hc, E0, E1, E2. cbn [mbind result_bind]. tl_step.
  rbind (apply basic_getBit_spec; tl_side). intros g ->.
  eapply (returns_bind _ _ (λ b1, opened b b1 i0 i1)).
  { case_bool_decide as Hg; [by apply opened_refl|].
    rbind (apply basic_setBit_spec; tl_side). intros [x' r] (Hx & Ex & _). tl_step.
    by apply opened_fresh. }
  intros b1 Hop. pose proof Hop as (Hraw & _ & _ & _ & HB2). tl_step.
  rbind (apply basic_setBit_spec; tl_side). intros [y' r] (Hy & Ey & Er). tl_step.
  pose proof (opened_put2 b b1 y' i0 i1 Hwf H0 H1 Hop Hy) as He.
  rewrite Ey, HB2 in He. specialize (He (union_singleton_nonempty _ _)).
  split; [apply He|]. split.
  - eapply edit_bits; [done..| |].
    + pose proof (tl_bits_subset b). pose proof (tri_bound _ _ _ Hr).
      intros j. rewrite elem_of_union, elem_of_singleton.
      intros [->|?]; [by apply elem_of_indices | auto].
    + intros j0 j1 j2 Hj. rewrite elem_of_union, elem_of_singleton, tri_inj, elem_of_tl_bits by done.
      destruct (decide (j0 = i0 ∧ j1 = i1)) as [Hd|]; [|tauto]. destruct Hd as [-> ->]. set_solver +.
  - rewrite Er, HB2. apply bool_decide_ext. by rewrite elem_of_tl_bits.
Qed.

Lemma tl_clearBit_spec b i : tl_wf b → 0 ≤ i < tl_kSize (k:=k) (w:=w) →
  returns (tl_clearBit b i) (λ '(b', r),
    tl_wf b' ∧ tl_bits b' = tl_bits b ∖ {[i]} ∧ r = bool_decide (i ∈ tl_bits b)).
Proof.
  intros Hwf Hi. destruct (idx_ok i Hi) as (i0 & i1 & i2 & Hr & -> & Hc & E0 & E1 & E2).
  pose proof Hr as (H0 & H1 & H2).
  unfold tl_clearBit. rewrite Hc, E0, E1, E2. cbn [mbind result_bind]. tl_step.
  rbind (apply basic_getBit_spec; tl_side). intros g ->.
  rewrite (bool_decide_ext _ _ (elem_of_tl_bits b _ _ _ Hr)). case_bool_decide as Hg.
  - tl_step. rbind (apply basic_clearBit_spec; tl_side).
    intros [y' r] (Hy & Ey & Er). tl_step.
    rbind (by apply prune_put2). intros b' He.
    split; [apply He|]. split; [|by rewrite cell_used].
    eapply edit_bits; [done..| |].
    + pose proof (tl_bits_subset b) as Hsub. set_solver + Hsub.
    + intros j0 j1 j2 Hj.
      rewrite elem_of_difference, elem_of_singleton, tri_inj, elem_of_tl_bits by done.
      destruct (decide (j0 = i0 ∧ j1 = i1)) as [Hd|]; [|tauto]. destruct Hd as [-> ->].
      rewrite Ey, cell_used by done. set_solver +.
  - split; [done|]. rewrite cell_outside by done. split; [|by rewrite bool_decide_eq_false_2 by set_solver +].
    apply set_eq. intros j. rewrite elem_of_difference, elem_of_singleton.
    split; [|tauto]. intros Hj. split; [done|]. intros ->.
    rewrite elem_of_tl_bits, cell_outside in Hj by done. set_solver + Hj.
Qed.

Lemma tl_getBit_spec b i : tl_wf b → 0 ≤ i < tl_kSize (k:=k) (w:=w) →
  returns (tl_getBit b i) (λ r, r = bool_decide (i ∈ tl_bits b)).
Proof.
  intros Hwf Hi. destruct (idx_ok i Hi) as (i0 & i1 & i2 & Hr & -> & Hc & E0 & E1 & E2).
  pose proof Hr as (H0 & H1 & H2).
  unfold tl_getBit. rewrite Hc, E0, E1, E2. cbn [mbind result_bind]. tl_step.
  rbind (apply basic_getBit_spec; tl_side). intros g ->.
  rewrite (bool_decide_ext _ _ (elem_of_tl_bits b _ _ _ Hr)). case_bool_decide as Hg.
  - tl_step. rewrite cell_used by done. apply basic_getBit_spec; tl_side.
  - rewrite cell_outside by done. by rewrite bool_decide_eq_false_2 by set_solver +.
Qed.

(** The whole vector is empty iff every first-level vector is. *)
Lemma tl_bits_empty b : tl_wf b →
  tl_bits b = ∅ ↔ ∀ i0, 0 ≤ i0 < k → basic_bits (L1 b i0) = ∅.
Proof.
  intros Hwf. split.
  - intros E i0 Hi. apply set_eq. intros i1. split; [|set_solver +]. intros Hin.
    pose proof (proj1 (proj1 (elem_of_basic_bits _ _) Hin)) as Hi1.
    destruct (set_choose_L (cell b i0 i1)) as [i2 Hi2]; [by apply cell_nonempty|].
    pose proof (cell_range _ _ _ _ Hi2) as [_ ?].
    rewrite <- (elem_of_tl_bits b i0 i1 i2), E in Hi2 by done. set_solver + Hi2.
  - intros E. apply tri_ext; [apply tl_bits_subset|set_solver +|].
    intros i0 i1 i2 Hr. rewrite elem_of_tl_bits by done. destruct Hr as (? & _).
    rewrite cell_outside; [set_solver +|]. rewrite E by done. set_solver +.
Qed.

Lemma tl_empty_spec b : tl_wf b → returns (tl_empty b) (λ r, r = bool_decide (tl_bits b = ∅)).
Proof.
  intros Hwf. unfold tl_empty.
  eapply returns_bind;
    [apply (returns_find_range (λ i, ∀ j, 0 ≤ j < i → basic_bits (L1 b j) = ∅)
        (λ r, default true r = bool_decide (tl_bits b = ∅)))|by intros r ->].
  - lia.
  - lia.
  - intros i Hi HP. tl_step. rewrite basic_empty_spec by tl_side. case_bool_decide as He; cbn.
    + intros j Hj. destruct (decide (j = i)) as [->|]; [done|]. apply HP. lia.
    + symmetry. apply bool_decide_eq_false_2. rewrite tl_bits_empty by done. intros Hall.
      apply He, Hall. lia.
  - intros HP. symmetry. apply bool_decide_eq_true_2, tl_bits_empty; [done|].
    intros i Hi. apply HP. lia.
Qed.

Lemma raw_all_empty b : tl_raw b → (∀ i0, 0 ≤ i0 < k → basic_bits (L1 b i0) = ∅) →
  tl_wf b ∧ tl_bits b = ∅.
Proof.
  intros Hraw E. assert (tl_wf b) as Hwf.
  { split; [done|]. intros i0 i1 Hi. rewrite E by done. set_solver +. }
  split; [done|]. by apply tl_bits_empty.
Qed.

Lemma tl_clear_spec b : tl_raw b → returns (tl_clear b) (λ b', tl_wf b' ∧ tl_bits b' = ∅).
Proof.
  intros Hraw. eapply returns_mono.
  { apply (returns_for_range (λ i b', tl_raw b' ∧ ∀ j, 0 ≤ j < i → basic_bits (L1 b' j) = ∅)).
    - lia.
    - split; [done|lia].
    - intros i t Hi [Ht HP]. tl_step. destruct (basic_clear_spec (L1 t i)) as [Hc Ec].
      split; [tl_side|]. intros j Hj. rewrite L1_put1 by tl_side. case_decide; [done|].
      apply HP. lia. }
  intros b' [Hb' E]. by apply raw_all_empty.
Qed.

Lemma tl_setAll_spec b : tl_raw b →
  returns (tl_setAll b) (λ b', tl_wf b' ∧ tl_bits b' = indices (tl_kSize (k:=k) (w:=w))).
Proof.
  intros Hraw. eapply returns_mono.
  { apply (returns_for_range (λ i b', tl_raw b' ∧ ∀ j0, 0 ≤ j0 < i →
      basic_bits (L1 b' j0) = indices w ∧
      ∀ j1, 0 ≤ j1 < w → basic_bits (L2 b' j0 j1) = indices w)).
    - lia.
    - split; [done|lia].
    - intros i0 t Hi [Ht HP]. tl_step. destruct (basic_setAll_spec (L1 t i0)) as [Hc Ec].
      eapply returns_mono.
      { apply (returns_for_range (λ i1 b', tl_raw b' ∧
          (∀ j0, 0 ≤ j0 < i0 → basic_bits (L1 b' j0) = indices w ∧
             ∀ j1, 0 ≤ j1 < w → basic_bits (L2 b' j0 j1) = indices w) ∧
          basic_bits (L1 b' i0) = indices w ∧
          ∀ j1, 0 ≤ j1 < i1 → basic_bits (L2 b' i0 j1) = indices w)).
        - lia.
        - split_and!; [tl_side| |by rewrite L1_put1, decide_True by tl_side|lia].
          intros j0 Hj. rewrite L1_put1, decide_False by tl_side. apply HP. lia.
        - intros i1 t1 Hi1 (Ht1 & HP1 & HL1 & HP2). tl_step.
          destruct (basic_setAll_spec (L2 t1 i0 i1)) as [Hc2 Ec2].
          split_and!; [tl_side| |by rewrite L1_put2|].
          + intros j0 Hj. rewrite L1_put2. split; [by apply HP1|]. intros j1 Hj1.
            rewrite L2_put2, decide_False by tl_side. by apply HP1.
          + intros j1 Hj1. rewrite L2_put2 by tl_side. case_decide; [done|]. apply HP2. lia. }
      intros t' (Ht' & HP1 & HL1 & HP2). split; [done|]. intros j0 Hj.
      destruct (decide (j0 = i0)) as [->|]; [done|]. apply HP1. lia. }
  intros b' [Hb' E]. split.
  - split; [done|]. intros i0 i1 Hi Hin.
    pose proof (proj1 (proj1 (elem_of_basic_bits _ _) Hin)) as Hi1.
    rewrite (proj2 (E i0 Hi)) by done. intros E0. apply (not_elem_of_empty (C:=gset Z) 0).
    rewrite <- E0. apply elem_of_indices. lia.
  - apply tri_ext; [apply tl_bits_subset|done|]. intros i0 i1 i2 Hr.
    pose proof (tri_bound _ _ _ Hr). rewrite elem_of_tl_bits by done. destruct Hr as (? & ? & ?).
    rewrite cell_used by (rewrite (proj1 (E i0 ltac:(done))); by apply elem_of_indices).
    rewrite (proj2 (E i0 ltac:(done))), !elem_of_indices by done. tauto.
Qed.

(** The least element is in the first non-empty cell of the first non-empty row. *)
Lemma tl_first_one b i0 i1 i2 : tl_wf b → in_range (k:=k) (w:=w) i0 i1 i2 →
  (∀ j, 0 ≤ j < i0 → basic_bits (L1 b j) = ∅) →
  first_one i1 (basic_bits (L1 b i0)) → first_one i2 (basic_bits (L2 b i0 i1)) →
  first_one (tri (w:=w) i0 i1 i2) (tl_bits b).
Proof.
  intros Hwf Hr Hbefore [Hi1 Hmin1] [Hi2 Hmin2]. split.
  - rewrite elem_of_tl_bits by done. by rewrite cell_used.
  - intros j Hj. pose proof (tl_bits_subset _ _ Hj) as Hjr.
    apply elem_of_indices, tri_cover in Hjr as [Hjr E]. rewrite E in Hj |- *.
    revert Hj Hjr. generalize (j / (w * w)) ((j / w) mod w) (j mod w). clear j E.
    intros j0 j1 j2 Hj Hjr. rewrite elem_of_tl_bits in Hj by done.
    destruct (decide (j1 ∈ basic_bits (L1 b j0))) as [Hu|Hu];
      [|rewrite cell_outside in Hj by done; by apply not_elem_of_empty in Hj].
    rewrite cell_used in Hj by done. apply (tri_le (k:=k)); [done..|].
    destruct (Z.lt_trichotomy i0 j0) as [?|[<-|Hlt]]; [by left| |].
    + right. split; [done|]. destruct (Z.lt_trichotomy i1 j1) as [?|[<-|Hlt]]; [by left| |].
      * right. auto.
      * apply Hmin1 in Hu. lia.
    + exfalso. rewrite Hbefore in Hu by (destruct Hjr; lia). set_solver + Hu.
Qed.

Lemma tl_takeFrom_spec b i0 : tl_wf b → 0 ≤ i0 < k → basic_bits (L1 b i0) ≠ ∅ →
  (∀ j, 0 ≤ j < i0 → basic_bits (L1 b j) = ∅) →
  returns (tl_takeFrom b i0) (λ '(b', i),
    tl_wf b' ∧ first_one i (tl_bits b) ∧ tl_bits b' = tl_bits b ∖ {[i]}).
Proof.
  intros Hwf Hi0 Hne HP. unfold tl_takeFrom. tl_step.
  rbind (apply basic_getAndClearFirstOne_spec; tl_side). intros [x' i1] (Hx & Hi1 & Ex).
  pose proof (proj1 (proj1 (elem_of_basic_bits _ _) (proj1 Hi1))) as Hr1. tl_step.
  rewrite L2_put1.
  rbind (apply basic_getAndClearFirstOne_spec; [tl_side|apply Hwf; [done|apply Hi1]]).
  intros [y' i2] (Hy & Hi2 & Ey).
  pose proof (proj1 (proj1 (elem_of_basic_bits _ _) (proj1 Hi2))) as Hr2. tl_step.
  eapply (returns_bind _ _ (λ b3, edit b b3 i0 i1 (basic_bits y'))).
  { rewrite basic_empty_spec by done. case_bool_decide as Hy'; tl_step.
    - apply edit_intro; [done|tl_side|done|..].
      + intros. by rewrite L1_put2, L1_put1, decide_False by tl_side.
      + intros j1. rewrite L1_put2, L1_put1, decide_True by tl_side.
        rewrite Ex, elem_of_difference, elem_of_singleton, Hy'.
        destruct (decide (j1 = i1)); [|tauto]. split; [tauto|done].
      + intros. by rewrite L2_put2, decide_False by tl_side.
      + by rewrite Hy'.
    - rewrite L1_put2, L1_put1, decide_True by tl_side.
      rbind (apply basic_setBit_spec; done). intros [x3 r] (Hx3 & Ex3 & _). tl_step.
      apply edit_intro; [done|tl_side|done|..].
      + intros. by rewrite L1_put1, decide_False, L1_put2, L1_put1, decide_False by tl_side.
      + intros j1. rewrite L1_put1, decide_True by tl_side.
        rewrite Ex3, Ex, elem_of_union, elem_of_difference, elem_of_singleton.
        destruct (decide (j1 = i1)); tauto.
      + intros. by rewrite L2_put1, L2_put2, decide_False by tl_side.
      + intros _. by rewrite L2_put1, L2_put2, decide_True by tl_side. }
  intros b3 He3. assert (in_range (k:=k) (w:=w) i0 i1 i2) as Hr by done.
  change (i0 * w * w + i1 * w + i2) with (tri (w:=w) i0 i1 i2).
  split; [apply He3|]. split; [by apply tl_first_one|].
  eapply edit_bits; [done..| |].
  - pose proof (tl_bits_subset b) as Hsub. set_solver + Hsub.
  - intros j0 j1 j2 Hj.
    rewrite elem_of_difference, elem_of_singleton, tri_inj, elem_of_tl_bits by done.
    destruct (decide (j0 = i0 ∧ j1 = i1)) as [Hd|]; [|tauto]. destruct Hd as [-> ->].
    rewrite Ey, cell_used by apply Hi1. set_solver +.
Qed.

Lemma tl_getAndClearFirstOne_spec b : tl_wf b → tl_bits b ≠ ∅ →
  returns (tl_getAndClearFirstOne b) (λ '(b', i),
    tl_wf b' ∧ first_one i (tl_bits b) ∧ tl_bits b' = tl_bits b ∖ {[i]}).
Proof.
  intros Hwf Hne. unfold tl_getAndClearFirstOne. eapply returns_bind.
  { apply (returns_find_range (λ i, ∀ j, 0 ≤ j < i → basic_bits (L1 b j) = ∅)
      (λ r, ∃ b' i, r = Some (b', i) ∧ tl_wf b' ∧ first_one i (tl_bits b) ∧
                    tl_bits b' = tl_bits b ∖ {[i]})).
    - lia.
    - lia.
    - intros i0 Hi0 HP. tl_step. rewrite basic_empty_spec by tl_side.
      case_bool_decide as He.
      { cbn. intros j Hj. destruct (decide (j = i0)) as [->|]; [done|]. apply HP. lia. }
      pose proof (tl_takeFrom_spec b i0 Hwf Hi0 He HP) as Ht.
      destruct (tl_takeFrom b i0) as [[b' i]|]; [cbn|done]. by exists b', i.
    - intros HP. destruct Hne. by apply tl_bits_empty. }
  intros r (b' & i & -> & H). done.
Qed.

End bits.

(** ** Union, intersection, difference

    The three loops visit the cells row by row and combine each with the cell
    of [v] by one set operation [f]. *)
Section merge.
Context {k w : Z} {Hw : ValidWidth w} {Hk : ValidLevels k}.
Implicit Types b v cur : TwoLevelBitVector k w.

Let width : 0 < w ≤ 64 := Hw.
Let levels : 0 < k := Hk.

Context (f : gset Z → gset Z → gset Z) (b v : TwoLevelBitVector k w).

(** The rows before [i0] and the cells of row [i0] that are not in [R] have been
    combined; the flag says whether the denoted set has changed. *)
Definition merged (i0 : Z) (R : gset Z) (s : TwoLevelBitVector k w * bool) : Prop :=
  let '(cur, res) := s in
  tl_wf cur ∧
  (∀ j0 j1, 0 ≤ j0 < k → 0 ≤ j1 < w →
    cell cur j0 j1 = if decide (j0 < i0 ∨ j0 = i0 ∧ j1 ∉ R)
                     then f (cell b j0 j1) (cell v j0 j1) else cell b j0 j1) ∧
  res = bool_decide (tl_bits cur ≠ tl_bits b).

Lemma merged_pending i0 R cur res i1 : merged i0 R (cur, res) → 0 ≤ i0 < k → 0 ≤ i1 < w →
  i1 ∈ R → cell cur i0 i1 = cell b i0 i1.
Proof.
  intros (_ & Hc & _) Hi0 Hi1 Hin. rewrite Hc by done. rewrite decide_False; [done|].
  intros [?|[_ ?]]; [lia|done].
Qed.

Lemma merged_start : tl_wf b → merged 0 (indices w) (b, false).
Proof.
  intros Hwf. split_and!; [done| |].
  - intros j0 j1 Hj0 Hj1. rewrite decide_False; [done|].
    intros [?|[_ Hn]]; [lia|]. by apply Hn, elem_of_indices.
  - symmetry. apply bool_decide_eq_false_2. tauto.
Qed.

(** Entering row [i0]: cells outside [R] are their own combination. *)
Lemma merged_enter i0 R cur res : merged i0 (indices w) (cur, res) → 0 ≤ i0 < k →
  (∀ j1, 0 ≤ j1 < w → j1 ∉ R → f (cell b i0 j1) (cell v i0 j1) = cell b i0 j1) →
  merged i0 R (cur, res).
Proof.
  intros (Hwf & Hc & Hr) Hi0 HR. split_and!; [done| |done].
  intros j0 j1 Hj0 Hj1. rewrite Hc by done.
  assert (j1 ∈ indices w) by (by apply elem_of_indices).
  destruct (decide (j0 < i0)); [rewrite !decide_True by tauto; done|].
  rewrite (decide_False (P := j0 < i0 ∨ j0 = i0 ∧ j1 ∉ indices w)) by tauto.
  destruct (decide (j0 < i0 ∨ j0 = i0 ∧ j1 ∉ R)) as [[?|[-> ?]]|]; [lia| |done].
  by rewrite HR.
Qed.

Lemma merged_leave i0 s : merged i0 ∅ s → merged (i0 + 1) (indices w) s.
Proof.
  destruct s as [cur res]. intros (Hwf & Hc & Hr). split_and!; [done| |done].
  intros j0 j1 Hj0 Hj1. rewrite Hc by done.
  assert (j1 ∈ indices w) by (by apply elem_of_indices).
  apply decide_ext. split; [intros [?|[? _]]; left; lia|].
  intros [?|[_ ?]]; [|done]. destruct (decide (j0 = i0)) as [->|]; [right; split; [done|apply not_elem_of_empty]|left; lia].
Qed.

(** One cell is combined. *)
Lemma merged_step i0 R cur res cur' (c : bool) i1 :
  merged i0 R (cur, res) → 0 ≤ i0 < k → 0 ≤ i1 < w → i1 ∈ R →
  edit cur cur' i0 i1 (f (cell b i0 i1) (cell v i0 i1)) →
  c = bool_decide (f (cell b i0 i1) (cell v i0 i1) ≠ cell b i0 i1) →
  merged i0 (R ∖ {[i1]}) (cur', if c then true else res).
Proof.
  intros Hm Hi0 Hi1 Hin [Hwf' He] Ec. pose proof (merged_pending _ _ _ _ _ Hm Hi0 Hi1 Hin) as Hp.
  destruct Hm as (Hwf & Hc & Hr). split_and!; [done| |].
  - intros j0 j1 Hj0 Hj1. rewrite He by done.
    destruct (decide (j0 = i0 ∧ j1 = i1)) as [[-> ->]|Hne].
    + rewrite decide_True; [done|]. right. split; [done|]. set_solver +.
    + rewrite Hc by done. apply decide_ext. rewrite not_elem_of_difference, elem_of_singleton.
      naive_solver.
  - assert (tl_bits cur' = tl_bits b ↔
      f (cell b i0 i1) (cell v i0 i1) = cell b i0 i1 ∧ tl_bits cur = tl_bits b) as Hiff.
    { rewrite !tl_bits_eq. split.
      - intros H. split.
        + specialize (H i0 i1 Hi0 Hi1). by rewrite He, decide_True in H.
        + intros j0 j1 Hj0 Hj1. destruct (decide (j0 = i0 ∧ j1 = i1)) as [[-> ->]|Hne]; [done|].
          specialize (H j0 j1 Hj0 Hj1). by rewrite He, decide_False in H.
      - intros [H1 H2] j0 j1 Hj0 Hj1. rewrite He by done.
        destruct (decide (j0 = i0 ∧ j1 = i1)) as [[-> ->]|Hne]; [done|]. auto. }
    subst c res. repeat case_bool_decide; tauto.
Qed.

(** All rows combined. *)
Lemma merged_finish cur res (S : gset Z) : merged k (indices w) (cur, res) →
  S ⊆ indices (w * w * k) →
  (∀ i0 i1 i2, in_range (k:=k) (w:=w) i0 i1 i2 →
    tri (w:=w) i0 i1 i2 ∈ S ↔ i2 ∈ f (cell b i0 i1) (cell v i0 i1)) →
  tl_wf cur ∧ tl_bits cur = S ∧ res = bool_decide (tl_bits cur ≠ tl_bits b).
Proof.
  intros (Hwf & Hc & Hr) HS Heq. split_and!; [done| |done].
  apply tri_ext; [apply tl_bits_subset|done|]. intros i0 i1 i2 Hir.
  rewrite elem_of_tl_bits, Heq by done. destruct Hir as (? & ? & ?).
  rewrite Hc, decide_True by (done || lia). done.
Qed.

End merge.

(** The loops drain a first-level vector. *)
Lemma basic_drain {w : Z} {Hw : ValidWidth w} {S} (P : gset Z → S → Prop)
    (body : Z → S → result S) (t : BasicBitVector w) (s : S) :
  basic_wf t → P (basic_bits t) s →
  (∀ i R s, first_one i R → R ⊆ basic_bits t → P R s → returns (body i s) (P (R ∖ {[i]}))) →
  returns (drain body t s) (λ '(_, s'), P ∅ s').
Proof.
  intros Ht HP Hbody. eapply returns_mono; [exact (returns_drain P body t s Ht HP Hbody)|].
  by intros [t' s'] (_ & _ & H).
Qed.

Lemma basic_drain_find {w : Z} {Hw : ValidWidth w} {R} (P : gset Z → Prop) (Q : option R → Prop)
    (body : Z → result (option R)) (t : BasicBitVector w) :
  basic_wf t → P (basic_bits t) →
  (∀ i S, first_one i S → S ⊆ basic_bits t → P S →
    returns (body i) (λ r, match r with Some x => Q (Some x) | None => P (S ∖ {[i]}) end)) →
  (P ∅ → Q None) → returns (drain_find body t) Q.
Proof. exact (returns_drain_find P Q body t). Qed.

Section merge_ops.
Context {k w : Z} {Hw : ValidWidth w} {Hk : ValidLevels k}.
Implicit Types b v cur : TwoLevelBitVector k w.

Let width : 0 < w ≤ 64 := Hw.
Let levels : 0 < k := Hk.

Lemma sub_of_cells b v :
  (∀ i0 i1, 0 ≤ i0 < k → 0 ≤ i1 < w → cell b i0 i1 ⊆ cell v i0 i1) → tl_bits b ⊆ tl_bits v.
Proof.
  intros H i Hi. pose proof (tl_bits_subset _ _ Hi) as Hr.
  apply elem_of_indices, tri_cover in Hr as [Hr E]. rewrite E in Hi |- *.
  rewrite elem_of_tl_bits in Hi |- * by done. apply H; [apply Hr..|done].
Qed.

(** In a decreasing chain of sets a change of the whole is a change of a step. *)
Lemma shrink_chain (s t u : gset Z) : s ⊆ t → t ⊆ u → s ≠ u ↔ s ≠ t ∨ t ≠ u.
Proof.
  intros H1 H2. destruct (decide (s = t)) as [->|]; [tauto|]. split; [tauto|].
  intros _ ->. by apply n, set_eq_subseteq.
Qed.

Lemma tl_setUnion_spec b v : tl_wf b → tl_wf v →
  returns (tl_setUnion b v) (λ '(b', r),
    tl_wf b' ∧ tl_bits b' = tl_bits b ∪ tl_bits v ∧ r = bool_decide (tl_bits b' ≠ tl_bits b)).
Proof.
  intros Hb Hv. eapply returns_mono.
  { apply (returns_for_range (λ i0, merged (∪) b v i0 (indices w)));
      [lia|by apply merged_start|].
    intros i0 [cur res] Hi0 Hm. tl_step. eapply returns_bind.
    { apply (basic_drain (merged (∪) b v i0)); [tl_side| |].
      - apply merged_enter; [done..|]. intros j1 _ Hj. rewrite (cell_outside v) by done.
        by rewrite (right_id_L ∅ (∪)).
      - clear cur res Hm. intros i1 R [cur res] Hf HR Hm.
        assert (i1 ∈ basic_bits (L1 v i0)) as Hvi by apply HR, Hf.
        pose proof (proj1 (proj1 (elem_of_basic_bits _ _) Hvi)) as Hi1.
        pose proof (merged_pending _ _ _ _ _ _ _ _ Hm Hi0 Hi1 (proj1 Hf)) as Hp.
        assert (tl_wf cur) as Hcur by apply Hm. tl_step.
        rbind (apply basic_setBit_spec; tl_side). intros [x' new] (Hx & Ex & En). tl_step.
        eapply (returns_bind _ _ (λ b1, opened cur b1 i0 i1)).
        { subst new. case_bool_decide; tl_step; [by apply opened_fresh|].
          by apply opened_used. }
        intros b1 Hop. pose proof Hop as (Hraw & _ & _ & _ & HB2). tl_step.
        destruct (basic_setUnion (L2 b1 i0 i1) (L2 v i0 i1)) as [y' c] eqn:Eu.
        apply basic_setUnion_spec in Eu as (Hy & Ey & Ec); [|tl_side..]. tl_step.
        rewrite HB2, Hp in Ey, Ec. rewrite <- (cell_used v) in Ey by done.
        apply merged_step with (cur := cur); [done..|tl_side|apply Hf| |by rewrite Ey in Ec].
        rewrite <- Ey. apply opened_put2; [done..|]. rewrite Ey.
        apply (cell_nonempty v) in Hvi; [|done..]. set_solver + Hvi. }
    intros [t' s'] Hm'. by apply merged_leave. }
  intros [cur res] Hm. apply (merged_finish (∪) b v); [done| |].
  - pose proof (tl_bits_subset b) as H1. pose proof (tl_bits_subset v) as H2. set_solver + H1 H2.
  - intros. by rewrite !elem_of_union, !elem_of_tl_bits by done.
Qed.

(** The common body of the intersection and difference loops: combine the
    second-level vector of a cell both vectors use, then prune it. *)
Lemma combine_cell (f : gset Z → gset Z → gset Z) b v i0 R cur res i1 y' c :
  tl_wf b → tl_wf v → 0 ≤ i0 < k → merged f b v i0 R (cur, res) → i1 ∈ R →
  i1 ∈ basic_bits (L1 cur i0) → basic_wf y' →
  basic_bits y' = f (cell b i0 i1) (cell v i0 i1) →
  c = bool_decide (basic_bits y' ≠ cell b i0 i1) →
  returns (b2 ← tl_prune (put2 cur i0 i1 y') i0 i1; Ok (b2, if c : bool then true else res))
    (merged f b v i0 (R ∖ {[i1]})).
Proof.
  intros Hb Hv Hi0 Hm HR Hin Hy Ey Ec.
  pose proof (proj1 (proj1 (elem_of_basic_bits _ _) Hin)) as Hi1.
  rbind (apply prune_put2; [apply Hm|done..]). intros cur' He. cbn [returns].
  rewrite Ey in He, Ec. by apply merged_step with (cur := cur).
Qed.

(** In the loop, a cell of the set being drained is still the cell of [b]. *)
Lemma pending_cell f b v i0 R cur res i1 : merged f b v i0 R (cur, res) → 0 ≤ i0 < k →
  tl_wf b → i1 ∈ R → i1 ∈ basic_bits (L1 b i0) →
  0 ≤ i1 < w ∧ tl_wf cur ∧ i1 ∈ basic_bits (L1 cur i0) ∧
  basic_bits (L2 cur i0 i1) = cell b i0 i1.
Proof.
  intros Hm Hi0 Hb HR Hin. pose proof (proj1 (proj1 (elem_of_basic_bits _ _) Hin)) as Hi1.
  pose proof (merged_pending _ _ _ _ _ _ _ _ Hm Hi0 Hi1 HR) as Hp.
  assert (tl_wf cur) as Hcur by apply Hm.
  assert (i1 ∈ basic_bits (L1 cur i0)) as Hcin.
  { apply cell_nonempty; [done..|]. rewrite Hp. by apply cell_nonempty. }
  split_and!; [apply Hi1..|done|done|]. by rewrite <- Hp, cell_used.
Qed.

(** When a row is entered its first level is that of [b]. *)
Lemma merged_row f b v i0 cur res : merged f b v i0 (indices w) (cur, res) → tl_wf b →
  0 ≤ i0 < k → basic_bits (L1 cur i0) = basic_bits (L1 b i0).
Proof.
  intros Hm Hb Hi0. assert (tl_wf cur) as Hcur by apply Hm.
  apply set_eq. intros j1. rewrite <- !cell_nonempty by done.
  destruct (decide (0 ≤ j1 < w)) as [Hj|Hj].
  - erewrite merged_pending; [done|done..|]. by apply elem_of_indices.
  - rewrite !cell_nonempty by done. split; intros ?%elem_of_basic_bits; tauto.
Qed.

Lemma tl_setDifference_spec b v : tl_wf b → tl_wf v →
  returns (tl_setDifference b v) (λ '(b', r),
    tl_wf b' ∧ tl_bits b' = tl_bits b ∖ tl_bits v ∧ r = bool_decide (tl_bits b' ≠ tl_bits b)).
Proof.
  intros Hb Hv. eapply returns_mono.
  { apply (returns_for_range (λ i0, merged (∖) b v i0 (indices w)));
      [lia|by apply merged_start|].
    intros i0 [cur res] Hi0 Hm. assert (tl_wf cur) as Hcur by apply Hm. tl_step.
    destruct (basic_setIntersection (L1 cur i0) (L1 v i0)) as [t ?] eqn:Et.
    apply basic_setIntersection_spec in Et as (Ht & Et & _); [|tl_side..].
    rewrite (merged_row (∖) b v i0 cur res) in Et by done.
    eapply returns_bind.
    { apply (basic_drain (merged (∖) b v i0)); [done| |].
      - apply merged_enter; [done..|]. intros j1 _ Hj. rewrite Et in Hj.
        destruct (decide (j1 ∈ basic_bits (L1 b i0))).
        + rewrite (cell_outside v) by set_solver + Hj e. by rewrite difference_empty_L.
        + rewrite (cell_outside b) by done. by rewrite empty_difference_L.
      - clear cur res Hcur Hm. intros i1 R [cur res] Hf HR Hm.
        assert (i1 ∈ basic_bits (L1 b i0) ∧ i1 ∈ basic_bits (L1 v i0)) as [Hbi Hvi].
        { apply elem_of_intersection. rewrite <- Et. apply HR, Hf. }
        destruct (pending_cell _ _ _ _ _ _ _ _ Hm Hi0 Hb (proj1 Hf) Hbi)
          as (Hi1 & Hcur & Hcin & Hp). tl_step.
        destruct (basic_setDifference (L2 cur i0 i1) (L2 v i0 i1)) as [y' c] eqn:Ed.
        apply basic_setDifference_spec in Ed as (Hy & Ey & Ec); [|tl_side..].
        tl_step. rewrite Hp in Ey, Ec. rewrite <- (cell_used v) in Ey by done.
        apply combine_cell; (done || apply Hf). }
    intros [t' s'] Hm'. by apply merged_leave. }
  intros [cur res] Hm. apply (merged_finish (∖) b v); [done| |].
  - pose proof (tl_bits_subset b) as H1. set_solver + H1.
  - intros. by rewrite !elem_of_difference, !elem_of_tl_bits by done.
Qed.

(** Shrinking a first-level vector empties the cells it no longer marks. *)
Lemma cell_put1_sub b i0 x' j0 j1 : tl_wf b → 0 ≤ i0 < k → 0 ≤ j0 < k →
  basic_bits x' ⊆ basic_bits (L1 b i0) →
  cell (put1 b i0 x') j0 j1 =
    if decide (j0 = i0 ∧ j1 ∉ basic_bits x') then ∅ else cell b j0 j1.
Proof.
  intros Hwf Hi0 Hj0 Hsub. unfold cell at 1. rewrite L1_put1, L2_put1 by tl_side.
  destruct (decide (j0 = i0)) as [->|].
  - destruct (decide (j1 ∈ basic_bits x')) as [Hin|].
    + rewrite decide_False by tauto. rewrite cell_used by set_solver + Hsub Hin. done.
    + by rewrite decide_True.
  - by rewrite (decide_False (P := j0 = i0 ∧ _)) by tauto.
Qed.

Lemma wf_put1_sub b i0 x' : tl_wf b → 0 ≤ i0 < k → basic_wf x' →
  basic_bits x' ⊆ basic_bits (L1 b i0) → tl_wf (put1 b i0 x').
Proof.
  intros Hwf Hi0 Hx Hsub. split; [tl_side|]. intros j0 j1 Hj0.
  rewrite L2_put1, L1_put1 by tl_side. gdecide as [->|]; [|by apply (proj2 Hwf)].
  intros Hin. apply Hwf; [done|]. set_solver + Hsub Hin.
Qed.

Lemma bits_put1_sub b i0 x' : tl_wf b → 0 ≤ i0 < k → basic_bits x' ⊆ basic_bits (L1 b i0) →
  tl_bits (put1 b i0 x') = tl_bits b ↔ basic_bits x' = basic_bits (L1 b i0).
Proof.
  intros Hwf Hi0 Hsub. rewrite tl_bits_eq. split.
  - intros H. apply set_eq. intros j1. split; [set_solver + Hsub|]. intros Hin.
    pose proof (proj1 (proj1 (elem_of_basic_bits _ _) Hin)) as Hj1.
    apply dec_stable. intros Hn. specialize (H i0 j1 Hi0 Hj1).
    rewrite cell_put1_sub, decide_True in H by done. symmetry in H. revert H.
    by apply cell_nonempty.
  - intros E j0 j1 Hj0 Hj1. rewrite cell_put1_sub by done. gdecide as [[-> Hn]|]; [|done].
    symmetry. apply cell_outside. by rewrite <- E.
Qed.

(** The first-level intersection of a row drops the cells only [b] uses. *)
Lemma merged_intersect_row b v i0 cur res x' c :
  merged (∩) b v i0 (indices w) (cur, res) → tl_wf b → tl_wf v → 0 ≤ i0 < k →
  basic_setIntersection (L1 cur i0) (L1 v i0) = (x', c) →
  basic_wf x' ∧ basic_bits x' = basic_bits (L1 b i0) ∩ basic_bits (L1 v i0) ∧
  merged (∩) b v i0 (basic_bits x') (put1 cur i0 x', if c then true else res).
Proof.
  intros Hm Hb Hv Hi0 Ex. assert (tl_wf cur) as Hcur by apply Hm.
  apply basic_setIntersection_spec in Ex as (Hx & Ex & Ec); [|tl_side..].
  assert (basic_bits x' ⊆ basic_bits (L1 cur i0)) as Hsub by set_solver + Ex.
  pose proof (bits_put1_sub cur i0 x' Hcur Hi0 Hsub) as Hiff.
  pose proof (merged_row (∩) b v i0 cur res Hm Hb Hi0) as EL.
  destruct Hm as (_ & Hc & Hr). split; [done|]. rewrite EL in Ex. split; [done|]. split_and!.
  - by apply wf_put1_sub.
  - intros j0 j1 Hj0 Hj1. rewrite cell_put1_sub, Hc by done.
    assert (j1 ∈ indices w) by (by apply elem_of_indices).
    rewrite (decide_ext (j0 < i0 ∨ j0 = i0 ∧ j1 ∉ indices w) (j0 < i0)) by tauto.
    destruct (decide (j0 = i0)) as [->|];
      [|rewrite (decide_False (P := j0 = i0 ∧ _)) by tauto; apply decide_ext; tauto].
    destruct (decide (j1 ∈ basic_bits x')) as [Hin|Hin]; [repeat gdecide; done || lia || tauto|].
    rewrite !decide_True by tauto. rewrite Ex in Hin.
    destruct (decide (j1 ∈ basic_bits (L1 b i0))).
    + rewrite (cell_outside v) by set_solver + Hin e. set_solver +.
    + rewrite (cell_outside b) by done. set_solver +.
  - assert (tl_bits (put1 cur i0 x') ≠ tl_bits b ↔
      tl_bits (put1 cur i0 x') ≠ tl_bits cur ∨ tl_bits cur ≠ tl_bits b) as Hch.
    { apply shrink_chain; apply sub_of_cells; intros j0 j1 Hj0 Hj1.
      - rewrite cell_put1_sub by done. gdecide; [set_solver +|done].
      - rewrite Hc by done. gdecide; [set_solver +|done]. }
    subst c res. rewrite (bool_decide_ext _ _ Hch). repeat case_bool_decide; tauto.
Qed.

Lemma tl_setIntersection_spec b v : tl_wf b → tl_wf v →
  returns (tl_setIntersection b v) (λ '(b', r),
    tl_wf b' ∧ tl_bits b' = tl_bits b ∩ tl_bits v ∧ r = bool_decide (tl_bits b' ≠ tl_bits b)).
Proof.
  intros Hb Hv. eapply returns_mono.
  { apply (returns_for_range (λ i0, merged (∩) b v i0 (indices w)));
      [lia|by apply merged_start|].
    intros i0 [cur res] Hi0 Hm. assert (tl_wf cur) as Hcur by apply Hm. tl_step.
    destruct (basic_setIntersection (L1 cur i0) (L1 v i0)) as [x' c] eqn:Et. tl_step.
    destruct (merged_intersect_row b v i0 cur res x' c Hm Hb Hv Hi0 Et) as (Hx & Ex & Hm').
    rewrite basic_empty_spec by done. case_bool_decide as He.
    { apply merged_leave. by rewrite He in Hm'. }
    eapply returns_bind.
    { apply (basic_drain (merged (∩) b v i0)); [done..|].
      clear cur res Hcur Hm Et Hm'. intros i1 R [cur res] Hf HR Hm.
      assert (i1 ∈ basic_bits (L1 b i0) ∧ i1 ∈ basic_bits (L1 v i0)) as [Hbi Hvi].
      { apply elem_of_intersection. rewrite <- Ex. apply HR, Hf. }
      destruct (pending_cell _ _ _ _ _ _ _ _ Hm Hi0 Hb (proj1 Hf) Hbi)
        as (Hi1 & Hcur & Hcin & Hp). tl_step.
      destruct (basic_setIntersection (L2 cur i0 i1) (L2 v i0 i1)) as [y' d] eqn:Ed.
      apply basic_setIntersection_spec in Ed as (Hy & Ey & Ec); [|tl_side..].
      tl_step. rewrite Hp in Ey, Ec. rewrite <- (cell_used v) in Ey by done.
      apply combine_cell; (done || apply Hf). }
    intros [t' s'] Hm''. by apply merged_leave. }
  intros [cur res] Hm. apply (merged_finish (∩) b v); [done| |].
  - pose proof (tl_bits_subset b) as H1. set_solver + H1.
  - intros. by rewrite !elem_of_intersection, !elem_of_tl_bits by done.
Qed.

Lemma tl_copyFrom_spec b v : tl_raw b → tl_wf v →
  returns (tl_copyFrom b v) (λ b', tl_wf b' ∧ tl_bits b' = tl_bits v).
Proof.
  intros Hb Hv. unfold tl_copyFrom. rbind (by apply tl_clear_spec). intros b1 [Hb1 E1].
  rbind (by apply tl_setUnion_spec). intros [b2 r] (Hb2 & E2 & _). cbn.
  split; [done|]. by rewrite E2, E1, (left_id_L ∅ (∪)).
Qed.

Lemma tl_intersectsWith_spec b v : tl_wf b → tl_wf v →
  returns (tl_intersectsWith b v) (λ r, r = bool_decide (tl_bits b ∩ tl_bits v ≠ ∅)).
Proof.
  intros Hb Hv. unfold tl_intersectsWith.
  set (disjoint_cells j0 j1 := cell b j0 j1 ∩ cell v j0 j1 = ∅).
  eapply returns_bind; [|by intros r; apply id].
  apply (returns_find_range (λ i0, ∀ j0 j1, 0 ≤ j0 < i0 → disjoint_cells j0 j1)
    (λ r, returns (Ok (default false r)) (λ r, r = bool_decide (tl_bits b ∩ tl_bits v ≠ ∅))));
    [lia|lia| |].
  - intros i0 Hi0 HP. tl_step.
    destruct (basic_setIntersection (L1 b i0) (L1 v i0)) as [t ?] eqn:Et.
    apply basic_setIntersection_spec in Et as (Ht & Et & _); [|tl_side..].
    apply (basic_drain_find (λ R, ∀ j1, j1 ∉ R → disjoint_cells i0 j1)); [done|..].
    + intros j1 Hj. unfold disjoint_cells. rewrite Et, not_elem_of_intersection in Hj.
      destruct Hj; [rewrite (cell_outside b) by done|rewrite (cell_outside v) by done]; set_solver +.
    + intros i1 R Hf HR HP1.
      assert (i1 ∈ basic_bits (L1 b i0) ∧ i1 ∈ basic_bits (L1 v i0)) as [Hbi Hvi].
      { apply elem_of_intersection. rewrite <- Et. apply HR, Hf. }
      pose proof (proj1 (proj1 (elem_of_basic_bits _ _) Hvi)) as Hi1. tl_step.
      rbind (apply basic_getBit_spec; tl_side). intros g ->.
      rewrite bool_decide_eq_true_2 by done. tl_step.
      rewrite basic_intersectsWith_spec by tl_side. case_bool_decide as Hx; cbn.
      * symmetry. apply bool_decide_eq_true_2. apply set_choose_L in Hx as [i2 Hi2].
        rewrite <- !cell_used, elem_of_intersection in Hi2 by done.
        pose proof (cell_range _ _ _ _ (proj1 Hi2)) as [_ ?].
        rewrite <- !(elem_of_tl_bits _ i0 i1 i2), <- elem_of_intersection in Hi2 by done.
        by eapply elem_nonempty.
      * intros j1 Hj. destruct (decide (j1 = i1)) as [->|].
        -- unfold disjoint_cells. by rewrite !cell_used by done.
        -- apply HP1. set_solver + Hj n.
    + intros HP1 j0 j1 Hj. destruct (decide (j0 = i0)) as [->|]; [apply HP1; set_solver +|].
      apply HP. lia.
  - intros HP. cbn. symmetry. apply bool_decide_eq_false_2. intros Hn. apply Hn.
    apply tri_ext; [pose proof (tl_bits_subset b) as H1; set_solver + H1|set_solver +|].
    intros i0 i1 i2 Hr. rewrite elem_of_intersection, !elem_of_tl_bits by done.
    destruct Hr as (Hi0 & _ & _). specialize (HP i0 i1 Hi0). set_solver + HP.
Qed.

End merge_ops.

(** ** The iterator *)

Section iterator.
Context {k w : Z} {Hw : ValidWidth w} {Hk : ValidLevels k}.
Implicit Types (b : TwoLevelBitVector k w) (it : tl_Iterator w).

Let width : 0 < w ≤ 64 := Hw.
Let levels : 0 < k := Hk.

Definition R1 it : gset Z := basic_bits (bv_ (it1_ it)).
Definition R2 it : gset Z := basic_bits (bv_ (it2_ it)).

(** The position of an iterator: the rest of the current row is in [it1_], the
    rest of the current cell in [it2_]. *)
Definition tl_pos b it : Prop :=
  tl_wf b ∧ basic_wf (bv_ (it1_ it)) ∧ basic_wf (bv_ (it2_ it)) ∧ 0 ≤ i0_ it ≤ k ∧
  (R1 it ≠ ∅ ∨ R2 it ≠ ∅ → i0_ it < k) ∧
  R1 it ⊆ basic_bits (L1 b (i0_ it)) ∧
  (R2 it ≠ ∅ → i1_ it ∈ basic_bits (L1 b (i0_ it)) ∧ (∀ j, j ∈ R1 it → i1_ it < j) ∧
               R2 it ⊆ basic_bits (L2 b (i0_ it) (i1_ it))).

(** The triples still to be returned. *)
Definition remaining it (j0 j1 j2 : Z) : Prop :=
  if decide (R1 it = ∅ ∧ R2 it = ∅) then i0_ it ≤ j0
  else i0_ it < j0 ∨ (j0 = i0_ it ∧ (j1 ∈ R1 it ∨ (j1 = i1_ it ∧ j2 ∈ R2 it))).

Definition tl_iter b it (s : gset Z) : Prop :=
  tl_pos b it ∧ s ⊆ indices (w * w * k) ∧
  ∀ j0 j1 j2, in_range (k:=k) (w:=w) j0 j1 j2 →
    tri (w:=w) j0 j1 j2 ∈ s ↔ j2 ∈ cell b j0 j1 ∧ remaining it j0 j1 j2.

Lemma tl_iter_elem b it s i : tl_iter b it s → i ∈ s → ∃ j0 j1 j2,
  in_range (k:=k) (w:=w) j0 j1 j2 ∧ i = tri (w:=w) j0 j1 j2 ∧
  j2 ∈ cell b j0 j1 ∧ remaining it j0 j1 j2.
Proof.
  intros (_ & Hsub & Hs) Hi. pose proof (Hsub _ Hi) as Hr.
  apply elem_of_indices, tri_cover in Hr as [Hr E]. rewrite E in Hi.
  eexists _, _, _. split; [done|]. split; [done|]. by apply Hs.
Qed.

(** A row with a first-level bit has a triple. *)
Lemma row_elem b i0 i1 : tl_wf b → 0 ≤ i0 < k → i1 ∈ basic_bits (L1 b i0) →
  ∃ i2, in_range (k:=k) (w:=w) i0 i1 i2 ∧ i2 ∈ cell b i0 i1.
Proof.
  intros Hwf Hi0 Hin. pose proof (proj1 (proj1 (elem_of_basic_bits _ _) Hin)) as Hi1.
  destruct (set_choose_L (cell b i0 i1)) as [i2 Hi2]; [by apply cell_nonempty|].
  exists i2. split; [|done]. pose proof (cell_range _ _ _ _ Hi2). done.
Qed.

Lemma cell_marked b j0 j1 j2 : j2 ∈ cell b j0 j1 → j1 ∈ basic_bits (L1 b j0).
Proof. unfold cell. gdecide; [done|]. intros []%not_elem_of_empty. Qed.

Lemma tl_mkIterator_spec b : tl_wf b → tl_iter b (tl_mkIterator b) (tl_bits b).
Proof.
  intros Hwf. destruct (basic_clear_spec (w:=w) (BBV 0)) as [Hc Ec].
  assert (R1 (tl_mkIterator b) = ∅) as E1 by exact Ec.
  assert (R2 (tl_mkIterator b) = ∅) as E2 by exact Ec.
  split; [|split; [apply tl_bits_subset|]].
  - unfold tl_pos. rewrite E1, E2. split_and!; [done..|simpl; lia|simpl; lia|naive_solver|set_solver +|done].
  - intros j0 j1 j2 Hr. rewrite elem_of_tl_bits by done. unfold remaining.
    rewrite decide_True by done. destruct Hr as (? & _). simpl. intuition lia.
Qed.

Lemma tl_hasNext_spec b it s : tl_iter b it s →
  returns (tl_hasNext b it) (λ r, r = bool_decide (s ≠ ∅)).
Proof.
  intros Hit. pose proof Hit as (Hpos & _ & Hs).
  destruct Hpos as (Hwf & Hw1 & Hw2 & Hi0 & Hlt & HR1 & HR2).
  unfold tl_hasNext. rewrite basic_hasNext_spec by done.
  case_bool_decide as He1.
  { symmetry. apply bool_decide_eq_true_2. destruct (set_choose_L _ He1) as [j1 Hj1].
    assert (i0_ it < k) by auto.
    destruct (row_elem b (i0_ it) j1) as (j2 & Hr & Hj2); [done|lia|by apply HR1|].
    assert (tri (w:=w) (i0_ it) j1 j2 ∈ s) as Hin; [|by eapply elem_nonempty].
    apply Hs; [done|]. split; [done|]. unfold remaining. rewrite decide_False by tauto. auto. }
  eapply returns_bind; [|by intros r; apply id].
  apply (returns_find_range (λ i, ∀ j, i0_ it ≤ j < i → basic_bits (L1 b j) = ∅)
    (λ r, returns (Ok (default false r)) (λ r, r = bool_decide (s ≠ ∅)))); [lia|lia| |].
  - intros i Hi HP. tl_step. rewrite basic_empty_spec by tl_side. case_bool_decide as Hx; cbn.
    { intros j Hj. destruct (decide (j = i)) as [->|]; [done|]. apply HP. lia. }
    symmetry. apply bool_decide_eq_true_2. destruct (decide (R2 it = ∅)) as [E2|E2].
    + destruct (set_choose_L _ Hx) as [j1 Hj1].
      destruct (row_elem b i j1) as (j2 & Hr & Hj2); [done|lia|done|].
      assert (tri (w:=w) i j1 j2 ∈ s) as Hin; [|by eapply elem_nonempty].
      apply Hs; [done|]. split; [done|]. unfold remaining. rewrite decide_True by done. lia.
    + destruct (set_choose_L _ E2) as [j2 Hj2]. destruct (HR2 E2) as (Hm & _ & Hsub2).
      assert (i0_ it < k) by auto. pose proof (proj1 (proj1 (elem_of_basic_bits _ _) Hm)).
      pose proof (proj1 (proj1 (elem_of_basic_bits _ _) (Hsub2 _ Hj2))).
      assert (tri (w:=w) (i0_ it) (i1_ it) j2 ∈ s) as Hin; [|by eapply elem_nonempty].
      apply Hs; [split; [lia|done]|]. rewrite cell_used by done. split; [by apply Hsub2|].
      unfold remaining. rewrite decide_False by tauto. auto.
  - intros HP. cbn. symmetry. apply bool_decide_eq_false_2. intros Hne. apply Hne.
    apply set_eq. intros i. split; [|set_solver +]. intros Hi.
    destruct (tl_iter_elem _ _ _ _ Hit Hi) as (j0 & j1 & j2 & Hr & _ & Hj2 & Hrem).
    apply cell_marked in Hj2. exfalso. rewrite HP in Hj2; [set_solver + Hj2|].
    destruct Hr as (? & _). unfold remaining in Hrem. revert Hrem. gdecide; [lia|].
    intros [?|[-> _]]; lia.
Qed.

Lemma tl_next_row_spec b it s : tl_iter b it s → s ≠ ∅ →
  returns (tl_next_row b it) (λ it', tl_iter b it' s ∧ (R1 it' ≠ ∅ ∨ R2 it' ≠ ∅)).
Proof.
  intros Hit Hne. pose proof Hit as (Hpos & Hsub & Hs).
  destruct Hpos as (Hwf & Hw1 & Hw2 & Hi0 & Hlt & HR1 & HR2).
  unfold tl_next_row. rewrite !basic_hasNext_spec by done. fold (R1 it) (R2 it).
  destruct (decide (R1 it = ∅ ∧ R2 it = ∅)) as [[E1 E2]|Hn].
  2:{ assert (R1 it ≠ ∅ ∨ R2 it ≠ ∅) as Hor.
      { destruct (decide (R1 it = ∅)); [right; tauto|by left]. }
      assert (negb (bool_decide (R1 it ≠ ∅)) && negb (bool_decide (R2 it ≠ ∅)) = false) as ->.
      { repeat case_bool_decide; tauto. }
      done. }
  rewrite !bool_decide_eq_false_2 by tauto. cbn [negb andb].
  eapply returns_bind; [|by intros r; apply id].
  apply (returns_find_range (λ i, ∀ j, i0_ it ≤ j < i → basic_bits (L1 b j) = ∅)
    (λ r, returns (Ok (default _ r)) (λ it', tl_iter b it' s ∧ (R1 it' ≠ ∅ ∨ R2 it' ≠ ∅))));
    [lia|lia| |].
  - intros i Hi HP. tl_step. rewrite basic_empty_spec by tl_side. case_bool_decide as Hx; cbn.
    { intros j Hj. destruct (decide (j = i)) as [->|]; [done|]. apply HP. lia. }
    set (it' := TLIter i (i1_ it) (basic_mkIterator (L1 b i)) (it2_ it)).
    assert (R1 it' = basic_bits (L1 b i)) as E1' by done.
    assert (R2 it' = ∅) as E2' by done.
    split; [|left; by rewrite E1']. split; [|split; [done|]].
    + unfold tl_pos. rewrite E1', E2'. simpl. split_and!; try done; try lia; tl_side.
    + intros j0 j1 j2 Hr. rewrite Hs by done. unfold remaining. rewrite E1', E2'.
      rewrite (decide_True (P := R1 it = ∅ ∧ _)), decide_False by tauto. simpl.
      split; intros [Hj2 Hrem]; (split; [done|]); [|lia].
      destruct (Z.lt_trichotomy i j0) as [?|[<-|Hlt']]; [by left|right|].
      * split; [done|]. left. by eapply cell_marked.
      * exfalso. apply cell_marked in Hj2. rewrite HP in Hj2 by lia. set_solver + Hj2.
  - intros HP. exfalso. apply Hne, set_eq. intros i. split; [|set_solver +]. intros Hi.
    destruct (tl_iter_elem _ _ _ _ Hit Hi) as (j0 & j1 & j2 & (Hr & _) & _ & Hj2 & Hrem).
    apply cell_marked in Hj2. exfalso. rewrite HP in Hj2; [set_solver + Hj2|].
    unfold remaining in Hrem. rewrite decide_True in Hrem by done. lia.
Qed.

Lemma tl_next_cell_spec b it s : tl_iter b it s → R1 it ≠ ∅ ∨ R2 it ≠ ∅ →
  returns (tl_next_cell b it) (λ it', tl_iter b it' s ∧ R2 it' ≠ ∅).
Proof.
  intros Hit Hor. pose proof Hit as (Hpos & Hsub & Hs).
  destruct Hpos as (Hwf & Hw1 & Hw2 & Hi0 & Hlt & HR1 & HR2). specialize (Hlt Hor).
  unfold tl_next_cell. rewrite !basic_hasNext_spec by done. fold (R1 it) (R2 it).
  destruct (decide (R2 it = ∅)) as [E2|E2].
  2:{ rewrite bool_decide_eq_true_2 by done. done. }
  destruct Hor as [Hor|]; [|done]. rewrite bool_decide_eq_false_2 by tauto.
  rstep_check; [by apply bool_decide_eq_true_2|].
  rbind (by apply basic_next_spec). intros [it1' i1] (Hwn & [Hin Hmin] & En).
  fold (R1 it) in Hin, Hmin, En.
  pose proof (HR1 _ Hin) as Hm. pose proof (proj1 (proj1 (elem_of_basic_bits _ _) Hm)) as Hi1.
  tl_step. set (it' := TLIter (i0_ it) i1 it1' (basic_mkIterator (L2 b (i0_ it) i1))).
  assert (R1 it' = R1 it ∖ {[i1]}) as E1' by exact En.
  assert (R2 it' = basic_bits (L2 b (i0_ it) i1)) as E2' by done.
  assert (R2 it' ≠ ∅) as Hne2 by (rewrite E2'; apply Hwf; [lia|done]).
  split; [|done]. split; [|split; [done|]].
  - unfold tl_pos. rewrite E1', E2'. simpl. split_and!; try done; try lia; [tl_side|set_solver + HR1|].
    intros _. split_and!; [done| |done]. intros j [Hj Hne]%elem_of_difference.
    specialize (Hmin j Hj). assert (j ≠ i1) by set_solver + Hne. lia.
  - intros j0 j1 j2 Hr. rewrite Hs by done. unfold remaining.
    rewrite (decide_False (P := R1 it = ∅ ∧ _)), (decide_False (P := R1 it' = ∅ ∧ _)) by tauto.
    rewrite E1', E2', E2, elem_of_difference, elem_of_singleton. simpl.
    split; intros [Hj2 Hrem]; (split; [done|]); (destruct Hrem as [?|[-> Hrem]]; [by left|right]);
      (split; [done|]).
    + destruct Hrem as [Hj1|[_ []%not_elem_of_empty]].
      destruct (decide (j1 = i1)) as [->|]; [right|by left].
      split; [done|]. by rewrite cell_used in Hj2.
    + left. destruct Hrem as [[? _]|[-> _]]; done.
Qed.

(** Taking the first bit of the open cell. *)
Lemma tl_take_first b it s i2 : tl_iter b it s → first_one i2 (R2 it) →
  in_range (k:=k) (w:=w) (i0_ it) (i1_ it) i2 ∧ first_one (tri (w:=w) (i0_ it) (i1_ it) i2) s.
Proof.
  intros Hit [Hin Hmin]. pose proof Hit as (Hpos & Hsub & Hs).
  destruct Hpos as (Hwf & Hw1 & Hw2 & Hi0 & Hlt & HR1 & HR2).
  pose proof (elem_nonempty _ _ Hin) as E2. specialize (Hlt (or_intror E2)).
  destruct (HR2 E2) as (Hm & Hafter & Hsub2).
  assert (in_range (k:=k) (w:=w) (i0_ it) (i1_ it) i2) as Hr.
  { split; [lia|]. split; [by apply elem_of_basic_bits in Hm as [? _]|].
    by apply Hsub2, elem_of_basic_bits in Hin as [? _]. }
  split; [done|]. split.
  - apply Hs; [done|]. rewrite cell_used by done. split; [by apply Hsub2|].
    unfold remaining. rewrite decide_False by tauto. auto.
  - intros i Hi. destruct (tl_iter_elem _ _ _ _ Hit Hi) as (j0 & j1 & j2 & Hr' & -> & _ & Hrem).
    apply (tri_le (k:=k)); [done..|]. unfold remaining in Hrem.
    rewrite decide_False in Hrem by tauto.
    destruct Hrem as [?|[-> [Hj1|[-> Hj2]]]]; [by left|right..]; (split; [done|]).
    + left. by apply Hafter.
    + right. auto.
Qed.

Lemma tl_take_rest b it s i2 (it2' : basic_Iterator w) : tl_iter b it s → first_one i2 (R2 it) →
  basic_wf (bv_ it2') → basic_bits (bv_ it2') = R2 it ∖ {[i2]} →
  tl_iter b
    (TLIter (if decide (R1 it = ∅ ∧ R2 it ∖ {[i2]} = ∅) then i0_ it + 1 else i0_ it)
            (i1_ it) (it1_ it) it2')
    (s ∖ {[tri (w:=w) (i0_ it) (i1_ it) i2]}).
Proof.
  intros Hit Hf Hwn En. pose proof (tl_take_first b it s i2 Hit Hf) as [Hr _].
  pose proof Hit as (Hpos & Hsub & Hs).
  destruct Hpos as (Hwf & Hw1 & Hw2 & Hi0 & Hlt & HR1 & HR2).
  pose proof (elem_nonempty _ _ (proj1 Hf)) as E2. specialize (Hlt (or_intror E2)).
  destruct (HR2 E2) as (Hm & Hafter & Hsub2).
  set (it' := TLIter _ _ _ _).
  assert (R1 it' = R1 it) as E1' by done. assert (R2 it' = R2 it ∖ {[i2]}) as E2' by exact En.
  split; [|split; [set_solver + Hsub|]].
  - unfold tl_pos. rewrite E1', E2'. unfold it'. cbn [i0_ i1_ it1_ it2_].
    gdecide as [[F1 F2]|Hn].
    + rewrite F1, F2. split_and!; try done; try lia; try tauto; set_solver +.
    + split_and!; try done; try lia. intros _. split_and!; [done..|set_solver + Hsub2].
  - intros j0 j1 j2 Hj. rewrite elem_of_difference, elem_of_singleton, Hs, (tri_inj (k:=k)) by done.
    unfold remaining. rewrite E1', E2'. rewrite (decide_False (P := R1 it = ∅ ∧ R2 it = ∅)) by tauto.
    unfold it'. cbn [i0_ i1_]. destruct (decide (R1 it = ∅ ∧ R2 it ∖ {[i2]} = ∅)) as [[F1 F2]|Hn].
    + rewrite F1. split; [|intuition lia]. intros [[Hc Hrem] Hne]. split; [done|].
      destruct Hrem as [?|[-> [[]%not_elem_of_empty|[-> Hj2]]]]; [lia|].
      destruct Hne. split; [done|]. split; [done|]. apply dec_stable. intros Hne.
      apply (not_elem_of_empty (C:=gset Z) j2). rewrite <- F2. set_solver + Hj2 Hne.
    + rewrite elem_of_difference, elem_of_singleton. split.
      * intros [[Hc Hrem] Hne]. split; [done|].
        destruct Hrem as [?|[-> [?|[-> Hj2]]]]; [by left|auto|].
        right. split; [done|]. right. split; [done|]. split; [done|]. tauto.
      * intros [Hc Hrem]. split; [split; [done|]|].
        -- destruct Hrem as [?|[-> [?|[-> [? ?]]]]]; auto.
        -- intros (-> & -> & ->). destruct Hrem as [?|[_ [Hj1|[_ [_ ?]]]]]; [lia| |done].
           apply Hafter in Hj1. lia.
Qed.

Lemma tl_next_spec b it s : tl_iter b it s → s ≠ ∅ →
  returns (tl_next b it) (λ '(it', i), first_one i s ∧ tl_iter b it' (s ∖ {[i]})).
Proof.
  intros Hit0 Hne. unfold tl_next. rbind (by apply tl_next_row_spec).
  intros it1 [Hit1 Hor]. rbind (by apply tl_next_cell_spec). clear it it1 Hit0 Hit1 Hor.
  intros it [Hit E2]. pose proof Hit as ((Hwf & Hw1 & Hw2 & _) & _ & _).
  rstep_check; [rewrite basic_hasNext_spec by done; by apply bool_decide_eq_true_2|].
  rbind (by apply basic_next_spec). intros [it2' i2] (Hwn & Hf & En). fold (R2 it) in Hf, En.
  cbn [returns]. fold (tri (w:=w) (i0_ it) (i1_ it) i2).
  split; [by apply (tl_take_first b)|].
  rewrite !basic_hasNext_spec, En by done. fold (R1 it).
  replace (negb (bool_decide (R1 it ≠ ∅)) && negb (bool_decide (R2 it ∖ {[i2]} ≠ ∅)))
    with (bool_decide (R1 it = ∅ ∧ R2 it ∖ {[i2]} = ∅))
    by (repeat case_bool_decide; tauto).
  rewrite <- decide_bool_decide. by apply tl_take_rest.
Qed.

End iterator.

#[export] Instance tl_BitVectorSpec (k w : Z) {Hw : ValidWidth w} {Hk : ValidLevels k} :
  BitVectorSpec (TwoLevelBitVector k w).
Proof.
  refine {| bv_raw := tl_raw; bv_wf := tl_wf; bits := tl_bits; bv_iter := tl_iter |}.
  - cbn. unfold tl_kSize. destruct Hw. apply Z.mul_pos_pos; [nia|apply Hk].
  - apply tl_wf_raw.
  - apply tl_bits_subset.
  - apply tl_clear_spec.
  - apply tl_setAll_spec.
  - apply tl_empty_spec.
  - apply tl_setBit_spec.
  - apply tl_clearBit_spec.
  - apply tl_getBit_spec.
  - apply tl_getAndClearFirstOne_spec.
  - apply tl_setUnion_spec.
  - apply tl_setIntersection_spec.
  - apply tl_setDifference_spec.
  - apply tl_copyFrom_spec.
  - apply tl_intersectsWith_spec.
  - apply tl_mkIterator_spec.
  - apply tl_hasNext_spec.
  - apply tl_next_spec.
Defined.

End TwoLevel.
