(* ===== verification/BitVectorTrace.v ===== *)
(** * BitVectorTrace: bit vectors refine finite sets

    Programs that use bit vectors are sequences of operations on an array of
    vectors.  [run] executes such a program with the operations of an
    implementation, [ref_run] with finite sets.  For every implementation of
    [BitVectorSpec] the two produce the same outputs; the theorems at the end
    instantiate this with [BasicBitVector] and [TwoLevelBitVector]. *)
From stdpp Require Import sorting.
From S2P Require Import Prelude Common BitVector TwoLevelBitVector.
Import Basic TwoLevel.

(** [r] and [s] are indices into the array of vectors. *)
Inductive bvop :=
  | OpClear (r : nat)
  | OpSetAll (r : nat)
  | OpEmpty (r : nat)
  | OpSetBit (r : nat) (i : Z)
  | OpClearBit (r : nat) (i : Z)
  | OpGetBit (r : nat) (i : Z)
  | OpGetAndClearFirstOne (r : nat)
  | OpSetUnion (r s : nat)
  | OpSetIntersection (r s : nat)
  | OpSetDifference (r s : nat)
  | OpCopyFrom (r s : nat)
  | OpIntersectsWith (r s : nat)
  | OpIterate (r : nat).

Inductive bvout := OutUnit | OutBool (b : bool) | OutIndex (i : Z) | OutList (l : list Z).

Section run.
Context {BV : Type} `{BitVector BV}.

Definition vec (m : list BV) (r : nat) : result BV := aget m (Z.of_nat r).

(** Replace vector [r] by the first component of a result. *)
Definition upd {A} (m : list BV) (r : nat) (out : A → bvout) (x : BV * A) : result (list BV * bvout) :=
  m' ← aset m (Z.of_nat r) x.1;
  Ok (m', out x.2).

Definition upd_void (m : list BV) (r : nat) (b : BV) : result (list BV * bvout) :=
  upd m r (λ _, OutUnit) (b, tt).

(** [for (Iterator it(b); it.hasNext();) l.push_back(it.next())]. *)
Fixpoint iterate (fuel : nat) (b : BV) (it : Iterator) : result (list Z) :=
  h ← hasNext b it;
  if h : bool then
    match fuel with
    | O => Fault OutOfFuel
    | S fuel' =>
        '(it', i) ← next b it;
        l ← iterate fuel' b it';
        Ok (i :: l)
    end
  else Ok [].

Definition exec (m : list BV) (op : bvop) : result (list BV * bvout) :=
  match op with
  | OpClear r => b ← vec m r; b ← clear b; upd_void m r b
  | OpSetAll r => b ← vec m r; b ← setAll b; upd_void m r b
  | OpEmpty r => b ← vec m r; e ← empty b; Ok (m, OutBool e)
  | OpSetBit r i => b ← vec m r; x ← setBit b i; upd m r OutBool x
  | OpClearBit r i => b ← vec m r; x ← clearBit b i; upd m r OutBool x
  | OpGetBit r i => b ← vec m r; e ← getBit b i; Ok (m, OutBool e)
  | OpGetAndClearFirstOne r => b ← vec m r; x ← getAndClearFirstOne b; upd m r OutIndex x
  | OpSetUnion r s => b ← vec m r; c ← vec m s; x ← setUnion b c; upd m r OutBool x
  | OpSetIntersection r s => b ← vec m r; c ← vec m s; x ← setIntersection b c; upd m r OutBool x
  | OpSetDifference r s => b ← vec m r; c ← vec m s; x ← setDifference b c; upd m r OutBool x
  | OpCopyFrom r s => b ← vec m r; c ← vec m s; b ← copyFrom b c; upd_void m r b
  | OpIntersectsWith r s => b ← vec m r; c ← vec m s; e ← intersectsWith b c; Ok (m, OutBool e)
  | OpIterate r => b ← vec m r; l ← iterate (Z.to_nat kSize) b (mkIterator b); Ok (m, OutList l)
  end.

Fixpoint run (m : list BV) (ops : list bvop) : result (list bvout) :=
  match ops with
  | [] => Ok []
  | op :: ops =>
      '(m', o) ← exec m op;
      os ← run m' ops;
      Ok (o :: os)
  end.
End run.

(** ** The reference: finite sets of indices below [n]

    A vector is [None] until it is initialised.  A step that is not allowed
    (an index out of range, a vector that is not initialised, an empty vector
    without a first element, the two operands the same object) has no result. *)
Definition sorted (n : Z) (s : gset Z) : list Z := filter (λ i, i ∈ s) (seqZ 0 n).

Definition in_bounds (n i : Z) : bool := (0 <=? i) && (i <? n).

Definition reg (m : list (option (gset Z))) (r : nat) : option (gset Z) := mjoin (m !! r).

Definition ref_exec (n : Z) (m : list (option (gset Z))) (op : bvop) :
    option (list (option (gset Z)) * bvout) :=
  let two r s (f : gset Z → gset Z → gset Z * bvout) :=
    if decide (r = s) then None else
      a ← reg m r; b ← reg m s;
      let '(a', o) := f a b in Some (<[r := Some a']> m, o) in
  match op with
  | OpClear r => m !! r ≫= λ _, Some (<[r := Some ∅]> m, OutUnit)
  | OpSetAll r => m !! r ≫= λ _, Some (<[r := Some (indices n)]> m, OutUnit)
  | OpEmpty r => a ← reg m r; Some (m, OutBool (bool_decide (a = ∅)))
  | OpSetBit r i => a ← reg m r;
      if in_bounds n i then Some (<[r := Some ({[i]} ∪ a)]> m, OutBool (bool_decide (i ∉ a))) else None
  | OpClearBit r i => a ← reg m r;
      if in_bounds n i then Some (<[r := Some (a ∖ {[i]})]> m, OutBool (bool_decide (i ∈ a))) else None
  | OpGetBit r i => a ← reg m r;
      if in_bounds n i then Some (m, OutBool (bool_decide (i ∈ a))) else None
  | OpGetAndClearFirstOne r => a ← reg m r; i ← head (sorted n a);
      Some (<[r := Some (a ∖ {[i]})]> m, OutIndex i)
  | OpSetUnion r s => two r s (λ a b, (a ∪ b, OutBool (bool_decide (a ∪ b ≠ a))))
  | OpSetIntersection r s => two r s (λ a b, (a ∩ b, OutBool (bool_decide (a ∩ b ≠ a))))
  | OpSetDifference r s => two r s (λ a b, (a ∖ b, OutBool (bool_decide (a ∖ b ≠ a))))
  | OpCopyFrom r s =>
      if decide (r = s) then None else
      m !! r ≫= λ _, b ← reg m s; Some (<[r := Some b]> m, OutUnit)
  | OpIntersectsWith r s =>
      if decide (r = s) then None else
      a ← reg m r; b ← reg m s; Some (m, OutBool (bool_decide (a ∩ b ≠ ∅)))
  | OpIterate r => a ← reg m r; Some (m, OutList (sorted n a))
  end.

Fixpoint ref_run (n : Z) (m : list (option (gset Z))) (ops : list bvop) : option (list bvout) :=
  match ops with
  | [] => Some []
  | op :: ops =>
      '(m', o) ← ref_exec n m op;
      os ← ref_run n m' ops;
      Some (o :: os)
  end.

(** ** The simulation *)
Lemma filter_iff_in {A} (P1 P2 : A → Prop) `{!∀ x, Decision (P1 x), !∀ x, Decision (P2 x)} (l : list A) :
  (∀ x, x ∈ l → P1 x ↔ P2 x) → filter P1 l = filter P2 l.
Proof.
  induction l as [|x l IH]; intros Hiff; [done|]. rewrite !filter_cons.
  rewrite IH by (intros; apply Hiff; by right).
  rewrite (decide_ext _ (P2 x)) by (apply Hiff; by left). done.
Qed.

Lemma seqZ_sorted m n : StronglySorted Z.lt (seqZ m n).
Proof.
  remember (Z.to_nat n) as k eqn:E. revert m n E. induction k as [|k IH]; intros m n E.
  - rewrite seqZ_nil by lia. constructor.
  - rewrite seqZ_cons by lia. constructor; [apply IH; lia|].
    apply Forall_forall. intros x Hx%elem_of_seqZ. lia.
Qed.

Lemma filter_first (L : list Z) i (s : gset Z) : StronglySorted Z.lt L → i ∈ L → i ∈ s →
  (∀ j, j ∈ L → j ∈ s → i ≤ j) →
  filter (λ j, j ∈ s) L = i :: filter (λ j, j ∈ s ∖ {[i]}) L.
Proof.
  induction 1 as [|x L HL IH Hx]; intros Hi His Hmin; [by apply not_elem_of_nil in Hi|].
  rewrite !filter_cons. apply elem_of_cons in Hi as [->|Hi].
  - rewrite decide_True, decide_False by (done || set_solver +). f_equal.
    apply filter_iff_in. intros y Hy. rewrite Forall_forall in Hx. specialize (Hx y Hy).
    rewrite elem_of_difference, elem_of_singleton. intuition lia.
  - rewrite Forall_forall in Hx. pose proof (Hx i Hi) as Hlt. assert (x ∉ s) as Hxs.
    { intros Hxs. specialize (Hmin x (list_elem_of_here _ _) Hxs). lia. }
    rewrite decide_False, decide_False by (done || set_solver + Hxs).
    apply IH; [done..|]. intros. apply Hmin; [by right|done].
Qed.

Lemma sorted_first n i s : first_one i s → s ⊆ indices n → sorted n s = i :: sorted n (s ∖ {[i]}).
Proof.
  intros [Hi Hmin] Hs. apply filter_first; [apply seqZ_sorted| |done|auto].
  apply Hs, elem_of_indices in Hi. apply elem_of_seqZ. lia.
Qed.

Lemma sorted_empty n : sorted n ∅ = [].
Proof.
  unfold sorted. induction (seqZ 0 n) as [|x l IH]; [done|]. rewrite filter_cons, decide_False; [done|].
  apply not_elem_of_empty.
Qed.

Section simulation.
Context {BV : Type} `{BitVectorSpec BV}.

Definition represents (o : option (gset Z)) (b : BV) : Prop :=
  match o with None => bv_raw b | Some s => bv_wf b ∧ bits b = s end.

Definition simulates (m : list (option (gset Z))) (vs : list BV) : Prop := Forall2 represents m vs.

Lemma represents_raw o b : represents o b → bv_raw b.
Proof. destruct o; [intros [? _]; by apply bv_wf_raw|done]. Qed.

Lemma sim_any m vs r o : simulates m vs → m !! r = Some o →
  ∃ b, vec vs r = Ok b ∧ bv_raw b.
Proof.
  intros Hs Ho. destruct (Forall2_lookup_l _ _ _ _ _ Hs Ho) as (b & Hb & Hr).
  exists b. split; [by apply aget_lookup|by eapply represents_raw].
Qed.

Lemma sim_reg m vs r s : simulates m vs → reg m r = Some s →
  ∃ b, vec vs r = Ok b ∧ bv_wf b ∧ bits b = s.
Proof.
  intros Hs Ho. unfold reg in Ho. destruct (m !! r) as [[s'|]|] eqn:E; simplify_eq/=.
  destruct (Forall2_lookup_l _ _ _ _ _ Hs E) as (b & Hb & [Hw Hr]).
  exists b. split; [by apply aget_lookup|done].
Qed.

(** Storing a vector that represents the new set. *)
Lemma sim_upd {A} m vs r o b s (out : A → bvout) (x : A) : simulates m vs → vec vs r = Ok o →
  bv_wf b → bits b = s →
  returns (upd vs r out (b, x)) (λ '(vs', y), simulates (<[r := Some s]> m) vs' ∧ y = out x).
Proof.
  intros Hs [_ Hl]%aget_Ok Hb E. rewrite Nat2Z.id in Hl. unfold upd.
  apply lookup_lt_Some in Hl. rewrite aset_Ok by lia. simpl. rewrite Nat2Z.id.
  split; [|done]. by apply Forall2_insert.
Qed.

Lemma bv_iterate_spec b it s fuel : bv_iter b it s → s ⊆ indices kSize → (size s ≤ fuel)%nat →
  returns (iterate fuel b it) (λ l, l = sorted kSize s).
Proof.
  revert it s. induction fuel as [|fuel IH]; intros it s Hit Hsub Hsz; cbn [iterate].
  all: rbind (by apply hasNext_spec); intros h ->; case_bool_decide as Hs;
    [|simpl; subst s; symmetry; apply sorted_empty].
  - exfalso. apply Hs, leibniz_equiv, size_empty_iff. lia.
  - rbind (by apply next_spec). intros [it' i] [Hi Hit'].
    rbind (apply (IH _ (s ∖ {[i]})); [done|set_solver + Hsub|apply size_remove; [apply Hi|done]]).
    intros l ->. symmetry. by apply sorted_first.
Qed.

Lemma in_bounds_true n i : in_bounds n i = true → 0 ≤ i < n.
Proof. unfold in_bounds. intros. bool_prop. done. Qed.

(** Open the bindings of a successful reference step. *)
Ltac ref_inv :=
  repeat match goal with
  | H : context [match ?d with left _ => _ | right _ => _ end = Some _] |- _ => destruct d; [discriminate|]
  | H : _ ≫= _ = Some _ |- _ => apply bind_Some in H as (? & ? & H)
  | H : (if ?b then _ else _) = Some _ |- _ => destruct b eqn:?; [|discriminate]
  | H : in_bounds _ _ = true |- _ => apply in_bounds_true in H
  end; simplify_eq/=.

(** Run to the vector a register holds. *)
Ltac sim_reg :=
  match goal with
  | Hs : simulates ?m ?vs, H : reg ?m ?r = Some _ |- context [vec ?vs ?r] =>
      destruct (sim_reg m vs r _ Hs H) as (? & ? & ? & ?)
  | Hs : simulates ?m ?vs, H : ?m !! ?r = Some _ |- context [vec ?vs ?r] =>
      destruct (sim_any m vs r _ Hs H) as (? & ? & ?)
  end;
  match goal with H : vec ?vs ?r = Ok _ |- context [vec ?vs ?r ≫= _] => rewrite H; cbn [mbind result_bind] end.

Lemma exec_spec m vs op m' o : simulates m vs → ref_exec kSize m op = Some (m', o) →
  returns (exec vs op) (λ '(vs', o'), simulates m' vs' ∧ o' = o).
Proof.
  intros Hs Href. destruct op; cbn [ref_exec] in Href; ref_inv; cbn [exec]; repeat sim_reg; simplify_eq.
  - rbind (by apply clear_spec). intros b [? ?]. by eapply sim_upd.
  - rbind (by apply setAll_spec). intros b [? ?]. by eapply sim_upd.
  - rbind (by apply empty_spec). by intros e ->.
  - rbind (by apply setBit_spec). intros [b r'] (? & ? & ->). by eapply sim_upd.
  - rbind (by apply clearBit_spec). intros [b r'] (? & ? & ->). by eapply sim_upd.
  - rbind (by apply getBit_spec). by intros e ->.
  - match goal with H : head (sorted _ (bits ?b)) = _ |- _ =>
      assert (bits b ≠ ∅) by (intros E; rewrite E, sorted_empty in H; discriminate) end.
    rbind (by apply getAndClearFirstOne_spec). intros [b i] (? & Hi & ?).
    rewrite (sorted_first _ i) in * by (done || apply bits_subset). simplify_eq/=. by eapply sim_upd.
  - rbind (by apply setUnion_spec). intros [b r'] (? & E & ->). rewrite E. by eapply sim_upd.
  - rbind (by apply setIntersection_spec). intros [b r'] (? & E & ->). rewrite E. by eapply sim_upd.
  - rbind (by apply setDifference_spec). intros [b r'] (? & E & ->). rewrite E. by eapply sim_upd.
  - rbind (by apply copyFrom_spec). intros b [? ?]. by eapply sim_upd.
  - rbind (by apply intersectsWith_spec). by intros e ->.
  - rbind (by apply bv_iterate_spec; [apply mkIterator_spec|apply bits_subset|apply size_bits]). by intros l ->.
Qed.

Lemma run_spec m vs ops os : simulates m vs → ref_run kSize m ops = Some os →
  run vs ops = Ok os.
Proof.
  revert m vs os. induction ops as [|op ops IH]; intros m vs os Hs Href; cbn [ref_run] in Href; [by simplify_eq|].
  apply bind_Some in Href as ([m' o] & Hop & Href). apply bind_Some in Href as (os' & Hops & ?). simplify_eq.
  pose proof (exec_spec m vs op m' o Hs Hop) as Hex. apply returns_inv in Hex as ([vs' o'] & E & Hs' & ->).
  cbn [run]. rewrite E. cbn [mbind result_bind]. by rewrite (IH m' vs' os') by done.
Qed.

Lemma simulates_raw vs : Forall bv_raw vs → simulates (replicate (length vs) None) vs.
Proof. induction 1; simpl; [constructor|by constructor]. Qed.

(** Starting from uninitialised memory. *)
Lemma run_refines_sets vs ops os : Forall bv_raw vs →
  ref_run kSize (replicate (length vs) None) ops = Some os → run vs ops = Ok os.
Proof. intros Hvs. by apply run_spec, simulates_raw. Qed.
End simulation.

(** [BasicBitVector] implements finite sets: for every sequence of
    operations that the set semantics allows, started on uninitialised vectors,
    every value the operations return is the one the sets give. *)
Theorem basic_refines_sets w {Hw : ValidWidth w} (vs : list (BasicBitVector w)) ops outs :
  Forall basic_wf vs → ref_run w (replicate (length vs) None) ops = Some outs →
  run vs ops = Ok outs.
Proof. exact (run_refines_sets vs ops outs). Qed.

(** [C2] [TwoLevelBitVector] implements finite sets over [w * w * k] indices: its
    lazily cleared second level is never observable, whatever the memory held
    before. *)
Theorem twolevel_refines_sets k w {Hw : ValidWidth w} {Hk : ValidLevels k}
    (vs : list (TwoLevelBitVector k w)) ops outs :
  Forall tl_raw vs → ref_run (w * w * k) (replicate (length vs) None) ops = Some outs →
  run vs ops = Ok outs.
Proof. exact (run_refines_sets vs ops outs). Qed.

(** A program with every operation, and its results for 64 indices. *)
Definition demo : list bvop :=
  [OpClear 0; OpEmpty 0; OpSetBit 0 17; OpSetBit 0 17; OpSetBit 0 3; OpGetBit 0 3; OpGetBit 0 4;
   OpSetAll 1; OpClearBit 1 0; OpClearBit 1 0; OpSetBit 0 60; OpIntersectsWith 0 1;
   OpSetDifference 1 0; OpIntersectsWith 0 1; OpGetAndClearFirstOne 1; OpCopyFrom 2 0;
   OpSetUnion 2 0; OpGetAndClearFirstOne 2; OpIterate 2; OpSetIntersection 0 2; OpIterate 0]%nat.

Definition demo_results : list bvout :=
  [OutUnit; OutBool true; OutBool true; OutBool false; OutBool true; OutBool true; OutBool false;
   OutUnit; OutBool true; OutBool false; OutBool true; OutBool true;
   OutBool true; OutBool false; OutIndex 1; OutUnit;
   OutBool false; OutIndex 3; OutList [17; 60]; OutBool true; OutList [17; 60]].

Lemma basic_refines_sets_witness : run (replicate 3 (BBV 12345 : BasicBitVector 64)) demo = Ok demo_results.
Proof.
  apply (basic_refines_sets 64 (replicate 3 (BBV 12345))); [|vm_compute; done].
  apply Forall_replicate. cbv. done.
Defined.

#[export] Instance one_level : ValidLevels 1.
Proof. done. Qed.

Definition tl_junk : TwoLevelBitVector 1 8 := TLBV [BBV 255] [replicate 8 (BBV 170)].

Lemma tl_junk_raw : tl_raw tl_junk.
Proof.
  split.
  - split; [done|]. split; [done|]. intros i0 Hi. by replace i0 with 0 by lia.
  - intros i0 Hi. replace i0 with 0 by lia. split; [cbv; done|].
    intros i1 Hi1. change (basic_wf (replicate 8 (BBV 170 : BasicBitVector 8) !!! Z.to_nat i1)).
    rewrite (lookup_total_replicate_2 8) by lia. cbv. done.
Qed.

Lemma twolevel_refines_sets_witness : run (replicate 3 tl_junk) demo = Ok demo_results.
Proof.
  apply (twolevel_refines_sets 1 8 (replicate 3 tl_junk)); [|vm_compute; done].
  apply Forall_replicate, tl_junk_raw.
Defined.

(** The argument checks of [TwoLevelBitVector] accept the index [size()]:
    [check] and [idx0] compare with [CHECK_LE], so the access runs past the end of
    [l1_].  Every larger index is stopped by the [CHECK]. *)
Theorem twolevel_check_off_by_one k w {Hw : ValidWidth w} {Hk : ValidLevels k}
    (b : TwoLevelBitVector k w) : tl_raw b →
  tl_setBit b (w * w * k) = Fault OutOfBounds ∧ tl_getBit b (w * w * k) = Fault OutOfBounds ∧
  ∀ i, w * w * k < i → tl_setBit b i = Fault CheckFailed ∧ tl_getBit b i = Fault CheckFailed.
Proof.
  intros [(Hl & _) _]. destruct Hw as [Hw0 _]. pose proof (Hk : 0 < k) as Hk0.
  assert (0 < w * w) by nia. unfold tl_setBit, tl_getBit, check, idx0, idx1, idx2, tl_kSize.
  split; [|split; [|intros i Hi; by rewrite (proj2 (Z.leb_gt i _)) by lia]].
  all: rewrite Z.leb_refl; cbn [CHECK mbind result_bind].
  all: rewrite (Z.mul_comm (w * w) k), Z.div_mul, Z.leb_refl by lia; cbn [CHECK mbind result_bind].
  all: pose proof (Z.mod_pos_bound (k * (w * w) / w) w Hw0); pose proof (Z.mod_pos_bound (k * (w * w)) w Hw0).
  all: rewrite !(proj2 (Z.leb_le _ w)) by lia; cbn [CHECK mbind result_bind].
  all: unfold get1; by rewrite aget_OutOfBounds by lia.
Qed.

Lemma twolevel_check_off_by_one_witness :
  tl_setBit tl_junk (8 * 8 * 1) = Fault OutOfBounds ∧ tl_getBit tl_junk (8 * 8 * 1) = Fault OutOfBounds ∧
  ∀ i, 8 * 8 * 1 < i → tl_setBit tl_junk i = Fault CheckFailed ∧ tl_getBit tl_junk i = Fault CheckFailed.
Proof. apply (twolevel_check_off_by_one 1 8 tl_junk). apply tl_junk_raw. Defined.
