(* ===== verification/BVGraph.v ===== *)
(** * BVGraph: directed graphs as arrays of bit vectors

    Models [sanitizer_bvgraph.h].  The graph is proved against the interface
    [BitVectorSpec], so the theorems hold of every bit vector that implements
    it.  A graph denotes the relation [edge] on the node indices; the
    operations are shown to update that relation, [isReachable] to decide its
    reflexive transitive closure, [findPath] and [findShortestPath] to find
    paths of it. *)
From stdpp Require Import sorting.
From S2P Require Import Prelude Common BitVector.

Module Graph.

Record BVGraph (BV : Type) := BVG { v : list BV; t1 : BV; t2 : BV }.
Arguments BVG {BV} v t1 t2.
Arguments v {BV} b.
Arguments t1 {BV} b.
Arguments t2 {BV} b.

(** ** Operations *)
Section ops.
Context {BV : Type} `{BitVector BV}.
Implicit Types g : BVGraph BV.

Definition set_v g (v' : list BV) : BVGraph BV := BVG v' (t1 g) (t2 g).
Definition set_t1 g (t : BV) : BVGraph BV := BVG (v g) t (t2 g).
Definition set_t2 g (t : BV) : BVGraph BV := BVG (v g) (t1 g) t.

(** [v[from].f()] for a member function [f] that updates the row. *)
Definition on_row {R} g (from : Z) (f : BV → result (BV * R)) : result (BVGraph BV * R) :=
  b ← aget (v g) from;
  '(b', r) ← f b;
  v' ← aset (v g) from b';
  Ok (set_v g v', r).

(** [void] member functions return no value. *)
Definition void (m : result BV) : result (BV * unit) := b ← m; Ok (b, tt).

Definition check (idx1 idx2 : Z) : result unit :=
  CHECK (idx1 <? kSize);;
  CHECK (idx2 <? kSize).

Definition graph_clear g : result (BVGraph BV) :=
  for_range 0 kSize (λ i g, '(g', _) ← on_row g i (λ b, void (clear b)); Ok g') g.

Definition graph_empty g : result bool :=
  r ← find_range 0 kSize (λ i,
    b ← aget (v g) i;
    e ← empty b;
    Ok (if negb e then Some false else None));
  Ok (default true r).

Definition addEdge g (from to : Z) : result (BVGraph BV * bool) :=
  check from to;;
  on_row g from (λ b, setBit b to).

(** One iteration of the loop of [addEdges]; the state is the graph, [res] and
    the caller's array [added_edges]. *)
Definition addEdges_step (to max_added_edges node : Z)
    (s : BVGraph BV * Z * list Z) : result (BVGraph BV * Z * list Z) :=
  let '(g, res, added_edges) := s in
  '(g', changed) ← on_row g node (λ b, setBit b to);
  if (changed : bool) && (res <? max_added_edges) then
    added_edges' ← aset added_edges res node;
    Ok (g', res + 1, added_edges')
  else Ok (g', res, added_edges).

Definition addEdges g (from : BV) (to : Z) (added_edges : list Z) (max_added_edges : Z) :
    result (BVGraph BV * Z * list Z) :=
  t ← copyFrom (t1 g) from;
  '(t', s) ← drain (addEdges_step to max_added_edges) t (g, 0, added_edges);
  let '(g', res, added_edges') := s in
  Ok (set_t1 g' t', res, added_edges').

Definition hasEdge g (from to : Z) : result bool :=
  b ← aget (v g) from;
  getBit b to.

(** The [const] overload checks its arguments first. *)
Definition hasEdge_const g (from to : Z) : result bool :=
  check from to;;
  b ← aget (v g) from;
  getBit b to.

Definition removeEdge g (from to : Z) : result (BVGraph BV * bool) :=
  on_row g from (λ b, clearBit b to).

Definition removeEdgesTo g (to : BV) : result (BVGraph BV * bool) :=
  for_range 0 kSize (λ from '(g, res),
    '(g', changed) ← on_row g from (λ b, setDifference b to);
    Ok (g', if changed : bool then true else res)) (g, false).

Definition removeEdgesFrom_step (idx : Z) (s : BVGraph BV * bool) : result (BVGraph BV * bool) :=
  let '(g, res) := s in
  b ← aget (v g) idx;
  e ← empty b;
  if negb e then
    '(g', _) ← on_row g idx (λ b, void (clear b));
    Ok (g', true)
  else Ok (g, res).

Definition removeEdgesFrom g (from : BV) : result (BVGraph BV * bool) :=
  t ← copyFrom (t1 g) from;
  '(t', s) ← drain removeEdgesFrom_step t (g, false);
  let '(g', res) := s in
  Ok (set_t1 g' t', res).

(** The overload that takes one node. *)
Definition removeEdgesFrom_node g (from : Z) : result (BVGraph BV) :=
  '(g', _) ← on_row g from (λ b, void (clear b));
  Ok g'.

(** The loop of [isReachable]: [to_visit] is the work list. *)
Fixpoint reach_loop (fuel : nat) g (to_visit visited : BV) : result (BV * BV) :=
  e ← empty to_visit;
  if e : bool then Ok (to_visit, visited)
  else
    match fuel with
    | O => Fault OutOfFuel
    | S fuel' =>
        '(to_visit', idx) ← getAndClearFirstOne to_visit;
        '(visited', fresh) ← setBit visited idx;
        if fresh : bool then
          row ← aget (v g) idx;
          '(to_visit'', _) ← setUnion to_visit' row;
          reach_loop fuel' g to_visit'' visited'
        else reach_loop fuel' g to_visit' visited'
    end.

(** An iteration either visits a new node or removes one of at most [kSize]
    bits of the work list. *)
Definition reach_fuel : nat := Z.to_nat ((kSize + 1) * (kSize + 1)).

Definition isReachable g (from : Z) (targets : BV) : result (BVGraph BV * bool) :=
  row ← aget (v g) from;
  to_visit ← copyFrom (t1 g) row;
  visited ← clear (t2 g);
  '(visited, _) ← setBit visited from;
  '(to_visit', visited') ← reach_loop reach_fuel g to_visit visited;
  r ← intersectsWith targets visited';
  Ok (BVG (v g) to_visit' visited', r).

(** [for (BV::Iterator it(b); it.hasNext();) { idx = it.next(); body }], where
    the body may return from the function. *)
Fixpoint iter_find {S R} (fuel : nat) (body : Z → S → result (S * option R)) (b : BV)
    (it : Iterator) (s : S) : result (S * option R) :=
  h ← hasNext b it;
  if h : bool then
    match fuel with
    | O => Fault OutOfFuel
    | Datatypes.S fuel' =>
        '(it', idx) ← next b it;
        '(s', r) ← body idx s;
        match r with
        | Some x => Ok (s', Some x)
        | None => iter_find fuel' body b it' s'
        end
    end
  else Ok (s, None).

(** [findPath]: the pointer [path] is an array and the offset [off] the pointer
    has reached; [path_size] bounds the recursion. *)
Fixpoint findPath g (path_size : nat) (from : Z) (targets : BV) (path : list Z) (off : Z) :
    result (list Z * Z) :=
  match path_size with
  | O => Ok (path, 0)
  | S path_size' =>
      path ← aset path off from;
      found ← getBit targets from;
      if found : bool then Ok (path, 1)
      else
        row ← aget (v g) from;
        '(path, r) ← iter_find (Z.to_nat kSize)
          (λ idx path,
            '(path, res) ← findPath g path_size' idx targets path (off + 1);
            Ok (path, if res =? 0 then None else Some (res + 1)))
          row (mkIterator row) path;
        Ok (path, default 0 r)
  end.

(** The loop of [findShortestPath] for [p], ..., [path_size] ([n] values). *)
Fixpoint shortest_loop g (n : nat) (p from : Z) (targets : BV) (path : list Z) :
    result (list Z * Z) :=
  match n with
  | O => Ok (path, 0)
  | S n' =>
      '(path, r) ← findPath g (Z.to_nat p) from targets path 0;
      if r =? p then Ok (path, p)
      else shortest_loop g n' (p + 1) from targets path
  end.

Definition findShortestPath g (from : Z) (targets : BV) (path : list Z) (path_size : Z) :
    result (list Z * Z) :=
  shortest_loop g (Z.to_nat path_size) 1 from targets path.

End ops.

(** ** The relation a graph denotes *)
Section spec.
Context {BV : Type} `{BitVectorSpec BV}.
Implicit Types g : BVGraph BV.

(** The successors of a node. *)
Definition succ g (i : Z) : gset Z :=
  if decide (0 ≤ i) then default ∅ (bits <$> v g !! Z.to_nat i) else ∅.

Definition edge g (i j : Z) : Prop := j ∈ succ g i.

#[export] Instance edge_dec g i j : Decision (edge g i j).
Proof. unfold edge. apply _. Defined.

(** Uninitialised memory, and the invariant [clear] establishes.  The
    temporaries [t1] and [t2] are never relied upon between two calls. *)
Definition shaped (P : BV → Prop) g : Prop :=
  Z.of_nat (length (v g)) = kSize ∧ Forall P (v g) ∧ bv_raw (t1 g) ∧ bv_raw (t2 g).
Definition graph_raw : BVGraph BV → Prop := shaped bv_raw.
Definition graph_wf : BVGraph BV → Prop := shaped bv_wf.

Lemma graph_wf_raw g : graph_wf g → graph_raw g.
Proof.
  intros (Hl & Hv & Ht). split; [done|]. split; [|done].
  eapply Forall_impl; [exact Hv|]. apply bv_wf_raw.
Qed.

Lemma succ_subset g i : succ g i ⊆ indices kSize.
Proof.
  unfold succ. gdecide; [|set_solver +]. destruct (v g !! _) as [b|]; simpl; [|set_solver +].
  apply bits_subset.
Qed.

Lemma edge_target g i j : edge g i j → 0 ≤ j < kSize.
Proof. intros Hij. apply elem_of_indices. by eapply succ_subset. Qed.

Lemma edge_source g i j : graph_wf g → edge g i j → 0 ≤ i < kSize.
Proof.
  intros (Hl & _) Hij. unfold edge, succ in Hij.
  destruct (decide (0 ≤ i)); [|set_solver + Hij].
  destruct (v g !! Z.to_nat i) eqn:E; [|set_solver + Hij].
  apply lookup_lt_Some in E. lia.
Qed.

Lemma succ_lookup g i b : 0 ≤ i → v g !! Z.to_nat i = Some b → succ g i = bits b.
Proof. intros Hi E. unfold succ. by rewrite decide_True, E by done. Qed.

Lemma succ_set_v g i b' j : 0 ≤ i < Z.of_nat (length (v g)) →
  succ (set_v g (<[Z.to_nat i := b']> (v g))) j = if decide (j = i) then bits b' else succ g j.
Proof.
  intros Hi. unfold succ. simpl. destruct (decide (j = i)) as [->|Hne].
  - by rewrite decide_True, list_lookup_insert_eq by lia.
  - gdecide; [|done]. by rewrite list_lookup_insert_ne by lia.
Qed.

(** Reading a row. *)
Lemma row_lookup (P : BV → Prop) g i : shaped P g → 0 ≤ i < kSize →
  ∃ b, v g !! Z.to_nat i = Some b ∧ P b ∧ succ g i = bits b.
Proof.
  intros (Hl & HP & _) Hi. destruct (lookup_lt_is_Some_2 (v g) (Z.to_nat i)) as [b Hb]; [lia|].
  exists b. split; [done|]. split; [by eapply Forall_lookup_1|by apply succ_lookup; [lia|]].
Qed.

Lemma returns_row g i (Q : BV → Prop) : graph_wf g → 0 ≤ i < kSize →
  (∀ b, bv_wf b → succ g i = bits b → Q b) → returns (aget (v g) i) Q.
Proof.
  intros Hg Hi HQ. destruct (row_lookup _ _ _ Hg Hi) as (b & Hb & Hw & E).
  rewrite (proj2 (aget_Ok _ _ b)); [by apply HQ|]. split; [lia|done].
Qed.

(** Updating a row. *)
Lemma returns_on_row {R} g i b (f : BV → result (BV * R)) (F Q : _ → Prop) :
  0 ≤ i → v g !! Z.to_nat i = Some b → returns (f b) F →
  (∀ b' r, F (b', r) → Q (set_v g (<[Z.to_nat i := b']> (v g)), r)) → returns (on_row g i f) Q.
Proof.
  intros Hi Hb Hf HQ. unfold on_row. rewrite (proj2 (aget_Ok _ _ b)) by done. cbn [mbind result_bind].
  rbind (exact Hf). intros [b' r] HF. rewrite aset_Ok; [by apply HQ|].
  apply lookup_lt_Some in Hb. lia.
Qed.

Lemma shaped_set_v (P : BV → Prop) g i b' : shaped P g → P b' →
  shaped P (set_v g (<[i := b']> (v g))).
Proof.
  intros (Hl & HP & Ht) Hb'. split; [simpl; by rewrite length_insert|].
  split; [by apply Forall_insert|done].
Qed.

Lemma on_row_spec {R} g i (f : BV → result (BV * R)) (F : gset Z → gset Z → R → Prop) :
  graph_wf g → 0 ≤ i < kSize →
  (∀ b, bv_wf b → returns (f b) (λ '(b', r), bv_wf b' ∧ F (bits b) (bits b') r)) →
  returns (on_row g i f) (λ '(g', r),
    graph_wf g' ∧ F (succ g i) (succ g' i) r ∧ ∀ j, j ≠ i → succ g' j = succ g j).
Proof.
  intros Hg Hi Hf. destruct (row_lookup _ _ _ Hg Hi) as (b & Hb & Hw & E).
  eapply returns_on_row; [lia|exact Hb|by apply Hf|].
  intros b' r (Hw' & HF). pose proof Hg as (Hl & _).
  split; [by apply shaped_set_v|]. split.
  - by rewrite E, succ_set_v, decide_True by lia.
  - intros j Hj. by rewrite succ_set_v, decide_False by lia.
Qed.

Lemma graph_clear_spec g : graph_raw g →
  returns (graph_clear g) (λ g', graph_wf g' ∧ ∀ i j, ¬ edge g' i j).
Proof.
  intros Hg. unfold graph_clear. pose proof kSize_pos as Hk.
  eapply returns_mono.
  - apply (returns_for_range (λ i g, graph_raw g ∧ ∀ j, 0 ≤ j < i →
      ∃ b, v g !! Z.to_nat j = Some b ∧ bv_wf b ∧ bits b = ∅)); [lia| |].
    { split; [done|]. lia. }
    intros i h Hi [Hh Hj]. destruct (row_lookup _ _ _ Hh Hi) as (b & Hb & Hw & _).
    pose proof Hh as (Hl & _). eapply returns_bind.
    + apply (returns_on_row _ _ b _ (λ '(b', _), bv_wf b' ∧ bits b' = ∅) (λ '(g', _), graph_raw g' ∧ ∀ j, 0 ≤ j < i + 1 →
        ∃ b, v g' !! Z.to_nat j = Some b ∧ bv_wf b ∧ bits b = ∅)); [lia|done| |].
      * unfold void. rbind (by apply clear_spec). intros b'. done.
      * intros b' [] [Hw' E']. split; [apply shaped_set_v; [done|by apply bv_wf_raw]|].
        intros j Hj'. simpl. destruct (decide (j = i)) as [->|Hne].
        -- exists b'. rewrite list_lookup_insert_eq by lia. done.
        -- rewrite list_lookup_insert_ne by lia. apply Hj. lia.
    + intros [g' ?] Hg'. exact Hg'.
  - intros g' [(Hl & _ & Ht) Hrow]. split.
    + split; [done|]. split; [|done]. apply Forall_lookup. intros i b Hb.
      pose proof (lookup_lt_Some _ _ _ Hb). destruct (Hrow (Z.of_nat i)) as (b' & Hb' & ? & _); [lia|].
      rewrite Nat2Z.id in Hb'. naive_solver.
    + intros i j Hij. unfold edge, succ in Hij.
      destruct (decide (0 ≤ i)); [|set_solver + Hij].
      destruct (v g' !! Z.to_nat i) eqn:E; [|set_solver + Hij].
      pose proof (lookup_lt_Some _ _ _ E). destruct (Hrow i) as (b' & Hb' & _ & E'); [lia|].
      simplify_eq. simpl in Hij. rewrite E' in Hij. set_solver + Hij.
Qed.

Lemma graph_empty_spec g : graph_wf g →
  returns (graph_empty g) (λ r, r = true ↔ ∀ i j, ¬ edge g i j).
Proof.
  intros Hg. unfold graph_empty. pose proof kSize_pos as Hk. eapply returns_bind.
  - apply (returns_find_range (λ i, ∀ j, 0 ≤ j < i → succ g j = ∅)
      (λ r, match r with Some x => x = false ∧ ∃ i j, edge g i j
                       | None => ∀ i j, ¬ edge g i j end)); [lia|lia| |].
    + intros i Hi Hj. rbind (apply (returns_row g i (λ b, bv_wf b ∧ succ g i = bits b)); done).
      intros b [Hb E]. rbind (by apply empty_spec). intros e ->. simpl.
      case_bool_decide as He; simpl.
      * intros j Hj'. destruct (decide (j = i)) as [->|]; [by rewrite E|apply Hj; lia].
      * split; [done|]. destruct (set_choose_L _ He) as [j Hj']. exists i, j. unfold edge. by rewrite E.
    + intros Hall i j Hij. pose proof (edge_source _ _ _ Hg Hij) as Hi.
      unfold edge in Hij. rewrite Hall in Hij by lia. set_solver + Hij.
  - intros [x|] Hr; simpl; [|tauto]. destruct Hr as [-> (i & j & Hij)]. split; [done|].
    intros Hno. by destruct (Hno i j).
Qed.

Lemma check_ok i j : 0 ≤ i < kSize → 0 ≤ j < kSize → check i j = Ok tt.
Proof.
  intros Hi Hj. unfold check.
  by rewrite (proj2 (Z.ltb_lt i _)), (proj2 (Z.ltb_lt j _)) by lia.
Qed.

(** Row updates as updates of the edge relation. *)
Lemma edge_row g g' i (F : gset Z → gset Z) x y :
  succ g' i = F (succ g i) → (∀ j, j ≠ i → succ g' j = succ g j) →
  edge g' x y ↔ (if decide (x = i) then y ∈ F (succ g i) else edge g x y).
Proof. intros E Hne. unfold edge. gdecide as [->|?]; [by rewrite E|by rewrite Hne]. Qed.

Lemma row_setBit_spec g from to : graph_wf g → 0 ≤ from < kSize → 0 ≤ to < kSize →
  returns (on_row g from (λ b, setBit b to)) (λ '(g', r),
    graph_wf g' ∧ (∀ i j, edge g' i j ↔ edge g i j ∨ (i = from ∧ j = to)) ∧
    r = bool_decide (to ∉ succ g from)).
Proof.
  intros Hg Hf Ht. eapply returns_mono.
  - apply (on_row_spec g from _ (λ s s' r, s' = {[to]} ∪ s ∧ r = bool_decide (to ∉ s))); [done..|].
    intros b Hb. eapply returns_mono; [by apply setBit_spec|]. intros [b' r]. tauto.
  - intros [g' r] (Hg' & [E ->] & Hne). split; [done|]. split; [|done].
    intros i j. rewrite (edge_row g g' from (λ s, {[to]} ∪ s) i j E Hne).
    gdecide as [->|?]; [|tauto]. unfold edge. rewrite elem_of_union, elem_of_singleton. tauto.
Qed.

Lemma addEdge_spec g from to : graph_wf g → 0 ≤ from < kSize → 0 ≤ to < kSize →
  returns (addEdge g from to) (λ '(g', r),
    graph_wf g' ∧ (∀ i j, edge g' i j ↔ edge g i j ∨ (i = from ∧ j = to)) ∧
    (r = true ↔ ¬ edge g from to)).
Proof.
  intros Hg Hf Ht. unfold addEdge. rewrite check_ok by done. cbn [mbind result_bind].
  eapply returns_mono; [by apply row_setBit_spec|].
  intros [g' r] (Hg' & E & ->). split; [done|]. split; [done|]. apply bool_decide_eq_true.
Qed.

Lemma hasEdge_spec g from to : graph_wf g → 0 ≤ from < kSize → 0 ≤ to < kSize →
  returns (hasEdge g from to) (λ r, r = true ↔ edge g from to).
Proof.
  intros Hg Hf Ht. unfold hasEdge.
  rbind (apply (returns_row g from (λ b, bv_wf b ∧ succ g from = bits b)); done).
  intros b [Hb E]. eapply returns_mono; [by apply getBit_spec|].
  intros r ->. unfold edge. rewrite E. apply bool_decide_eq_true.
Qed.

Lemma hasEdge_const_spec g from to : graph_wf g → 0 ≤ from < kSize → 0 ≤ to < kSize →
  returns (hasEdge_const g from to) (λ r, r = true ↔ edge g from to).
Proof.
  intros Hg Hf Ht. unfold hasEdge_const. rewrite check_ok by done. by apply hasEdge_spec.
Qed.

Lemma removeEdge_spec g from to : graph_wf g → 0 ≤ from < kSize → 0 ≤ to < kSize →
  returns (removeEdge g from to) (λ '(g', r),
    graph_wf g' ∧ (∀ i j, edge g' i j ↔ edge g i j ∧ ¬ (i = from ∧ j = to)) ∧
    (r = true ↔ edge g from to)).
Proof.
  intros Hg Hf Ht. eapply returns_mono.
  - apply (on_row_spec g from _ (λ s s' r, s' = s ∖ {[to]} ∧ r = bool_decide (to ∈ s))); [done..|].
    intros b Hb. eapply returns_mono; [by apply clearBit_spec|]. intros [b' r]. tauto.
  - intros [g' r] (Hg' & [E ->] & Hne). split; [done|]. split; [|apply bool_decide_eq_true].
    intros i j. rewrite (edge_row g g' from (λ s, s ∖ {[to]}) i j E Hne).
    gdecide as [->|?]; [|tauto]. unfold edge. rewrite elem_of_difference, elem_of_singleton. tauto.
Qed.

Lemma row_clear_spec g i : graph_wf g → 0 ≤ i < kSize →
  returns (on_row g i (λ b, void (clear b))) (λ '(g', _),
    graph_wf g' ∧ ∀ x y, edge g' x y ↔ edge g x y ∧ x ≠ i).
Proof.
  intros Hg Hi. eapply returns_mono.
  - apply (on_row_spec g i _ (λ s s' _, s' = ∅)); [done..|].
    intros b Hb. unfold void. rbind (by apply clear_spec, bv_wf_raw). done.
  - intros [g' ?] (Hg' & E & Hne). split; [done|]. intros x y.
    rewrite (edge_row g g' i (λ s, ∅) x y E Hne). gdecide as [->|?]; [|tauto]. set_solver +.
Qed.

Lemma removeEdgesFrom_node_spec g from : graph_wf g → 0 ≤ from < kSize →
  returns (removeEdgesFrom_node g from) (λ g',
    graph_wf g' ∧ ∀ i j, edge g' i j ↔ edge g i j ∧ i ≠ from).
Proof.
  intros Hg Hf. unfold removeEdgesFrom_node. rbind (by apply row_clear_spec).
  intros [g' ?] Hg'. exact Hg'.
Qed.

Lemma removeEdgesTo_spec g to : graph_wf g → bv_wf to →
  returns (removeEdgesTo g to) (λ '(g', r),
    graph_wf g' ∧ (∀ i j, edge g' i j ↔ edge g i j ∧ j ∉ bits to) ∧
    (r = true ↔ ∃ i j, edge g i j ∧ j ∈ bits to)).
Proof.
  intros Hg Hto. unfold removeEdgesTo. pose proof kSize_pos as Hk. eapply returns_mono.
  - apply (returns_for_range (λ n '(h, r), graph_wf h ∧
      (∀ i j, edge h i j ↔ edge g i j ∧ ¬ (i < n ∧ j ∈ bits to)) ∧
      (r = true ↔ ∃ i j, edge g i j ∧ i < n ∧ j ∈ bits to))); [lia| |].
    { split; [done|]. split.
      - intros i j. split; [|tauto]. intros Hij. pose proof (edge_source _ _ _ Hg Hij). split; [done|lia].
      - split; [done|]. intros (i & j & Hij & ? & _). pose proof (edge_source _ _ _ Hg Hij). lia. }
    intros n [h r] Hn (Hh & He & Hr). eapply returns_bind.
    { apply (on_row_spec h n _ (λ s s' r, s' = s ∖ bits to ∧ r = bool_decide (s' ≠ s))); [done..|].
      intros b Hb. eapply returns_mono; [by apply setDifference_spec|]. intros [b' c]. tauto. }
    intros [h' c] (Hh' & [E ->] & Hne). split; [done|]. split.
    + intros i j. rewrite (edge_row h h' n (λ s, s ∖ bits to) i j E Hne). gdecide as [->|?].
      * rewrite elem_of_difference. pose proof (He n j) as Hnj. unfold edge in Hnj at 1. rewrite Hnj.
        assert (n < n + 1) by lia. assert (¬ n < n) by lia. tauto.
      * rewrite He. assert (i < n ↔ i < n + 1) by lia. tauto.
    + assert (succ h' n ≠ succ h n ↔ ∃ j, edge g n j ∧ j ∈ bits to) as Hc.
      { rewrite E. split.
        - intros Hd. assert (succ h n ∩ bits to ≠ ∅) as [j Hj]%set_choose_L by set_solver + Hd.
          apply elem_of_intersection in Hj as [Hj ?]. apply He in Hj as [? _]. eauto.
        - intros (j & Hj & ?) Eq. assert (edge h n j) as Hhj by (apply He; split; [done|lia]).
          unfold edge in Hhj. rewrite <- Eq in Hhj. set_solver. }
      case_bool_decide as Hd; rewrite ?Hr.
      * split; [|done]. intros _. apply Hc in Hd as (j & ? & ?). exists n, j. split; [done|]. split; [lia|done].
      * split; intros (i & j & ? & ? & ?); exists i, j; (split; [done|]); (split; [|done]); [lia|].
        destruct (decide (i = n)) as [->|]; [|lia]. exfalso. by apply (proj2 Hc); [eauto|].
  - intros [g' r] (Hg' & He & Hr). split; [done|]. split.
    + intros i j. rewrite He. split; intros [Hij Hn]; (split; [done|]); [|tauto].
      pose proof (edge_source _ _ _ Hg Hij). intuition lia.
    + rewrite Hr. split; intros (i & j & Hij & Hj); exists i, j; [tauto|].
      pose proof (edge_source _ _ _ Hg Hij). split; [done|]. split; [lia|done].
Qed.

Lemma graph_wf_t1 g t : graph_wf g → bv_raw t → graph_wf (set_t1 g t).
Proof. intros (? & ? & ? & ?) ?. done. Qed.

Lemma edge_set_t1 g t i j : edge (set_t1 g t) i j ↔ edge g i j.
Proof. done. Qed.

Lemma removeEdgesFrom_spec g from : graph_wf g → bv_wf from →
  returns (removeEdgesFrom g from) (λ '(g', r),
    graph_wf g' ∧ (∀ i j, edge g' i j ↔ edge g i j ∧ i ∉ bits from) ∧
    (r = true ↔ ∃ i j, edge g i j ∧ i ∈ bits from)).
Proof.
  intros Hg Hfrom. pose proof Hg as (_ & _ & Ht1 & _). unfold removeEdgesFrom.
  rbind (by apply copyFrom_spec). intros t [Ht Et]. eapply returns_bind.
  - apply (returns_drain (λ R '(h, r), graph_wf h ∧
      (∀ i j, edge h i j ↔ edge g i j ∧ ¬ (i ∈ bits from ∧ i ∉ R)) ∧
      (r = true ↔ ∃ i j, edge g i j ∧ i ∈ bits from ∧ i ∉ R))); [done| |].
    { rewrite Et. split; [done|]. split; [intros; tauto|]. naive_solver. }
    intros n R [h r] [HnR _] HR (Hh & He & Hr). unfold removeEdgesFrom_step.
    assert (n ∈ bits from) as Hn by (rewrite <- Et; by apply HR).
    assert (0 ≤ n < kSize) as Hnk by (by eapply elem_of_indices, bits_subset).
    assert (∀ i, i ∈ bits from ∧ i ∉ R ∖ {[n]} ↔ i = n ∨ i ∈ bits from ∧ i ∉ R) as Hstep.
    { intros i. rewrite not_elem_of_difference, elem_of_singleton. split; [tauto|].
      intros [->|?]; tauto. }
    assert (∀ j, edge h n j ↔ edge g n j) as Hhn by (intros; rewrite He; tauto).
    rbind (apply (returns_row h n (λ b, bv_wf b ∧ succ h n = bits b)); done).
    intros b [Hb Eb]. rbind (by apply empty_spec). intros e ->. case_bool_decide as Hem; simpl.
    + assert (∀ j, ¬ edge g n j) as Hno.
      { intros j. rewrite <- Hhn. unfold edge. rewrite Eb, Hem. apply not_elem_of_empty. }
      split; [done|]. split.
      * intros i j. rewrite He, Hstep. split; [|tauto]. intros [? ?]. split; [done|].
        intros [->|?]; [by eapply Hno|done].
      * rewrite Hr. split; intros (i & j & ? & Hij); exists i, j; rewrite ?Hstep in *; [tauto|].
        destruct Hij as [->|?]; [by destruct (Hno j)|tauto].
    + rbind (by apply row_clear_spec). intros [h' ?] [Hh' He']. split; [done|]. split.
      * intros i j. rewrite He', He, Hstep. tauto.
      * split; [|done]. intros _. destruct (set_choose_L _ Hem) as [j Hj].
        exists n, j. rewrite <- Hhn, Hstep. unfold edge. rewrite Eb. auto.
  - intros [t' [g' r]] (Ht' & _ & Hg' & He & Hr).
    split; [by apply graph_wf_t1; [|apply bv_wf_raw]|]. split.
    + intros i j. rewrite edge_set_t1, He. pose proof (not_elem_of_empty (C:=gset Z) i). tauto.
    + rewrite Hr. split; intros (i & j & ? & ?); exists i, j;
        pose proof (not_elem_of_empty (C:=gset Z) i); tauto.
Qed.

(** The sources of the edges [addEdges] creates, in increasing order. *)
Definition new_sources g (from : gset Z) (to : Z) (L : list Z) : Prop :=
  StronglySorted Z.lt L ∧ ∀ i, i ∈ L ↔ i ∈ from ∧ ¬ edge g i to.

Lemma StronglySorted_snoc (L : list Z) x :
  StronglySorted Z.lt L → (∀ y, y ∈ L → y < x) → StronglySorted Z.lt (L ++ [x]).
Proof.
  induction 1 as [|y L HL IH Hy]; intros Hx; simpl.
  - repeat constructor.
  - constructor; [apply IH; intros; apply Hx; by constructor|].
    apply Forall_app. split; [done|]. constructor; [apply Hx; by constructor|done].
Qed.

(** What has been written of [L] to an array with room for [max] entries. *)
Definition recorded (max : Z) (old : list Z) (L : list Z) (res : Z) (out : list Z) : Prop :=
  res = Z.min max (Z.of_nat (length L)) ∧ out = take (Z.to_nat res) L ++ drop (Z.to_nat res) old.

Lemma recorded_push max old L res out x : 0 ≤ max ≤ Z.of_nat (length old) →
  recorded max old L res out →
  if res <? max
  then returns (aset out res x) (recorded max old (L ++ [x]) (res + 1))
  else recorded max old (L ++ [x]) res out.
Proof.
  intros Hm [Er ->]. destruct (Z.ltb_spec res max) as [Hlt|Hge].
  - assert (res = Z.of_nat (length L)) as -> by lia. clear Er.
    apply returns_aset; rewrite ?length_app, ?length_take, ?length_drop, Nat2Z.id; [lia|].
    split; [rewrite length_app; simpl; lia|].
    replace (Z.to_nat (Z.of_nat (length L) + 1)) with (S (length L)) by lia.
    rewrite !firstn_all, take_ge by (rewrite length_app; simpl; lia).
    rewrite insert_app_r_alt, Nat.sub_diag by lia.
    destruct (lookup_lt_is_Some_2 old (length L)) as [y Hy]; [lia|].
    rewrite (drop_S old y) by done. by rewrite <- app_assoc.
  - split; [rewrite length_app; simpl; lia|]. by rewrite take_app_le by lia.
Qed.

Lemma addEdges_spec g from to added max : graph_wf g → bv_wf from → 0 ≤ to < kSize →
  0 ≤ max ≤ Z.of_nat (length added) →
  returns (addEdges g from to added max) (λ '(g', res, added'),
    graph_wf g' ∧ (∀ i j, edge g' i j ↔ edge g i j ∨ (i ∈ bits from ∧ j = to)) ∧
    ∃ L, new_sources g (bits from) to L ∧ recorded max added L res added').
Proof.
  intros Hg Hfrom Hto Hmax. pose proof Hg as (_ & _ & Ht1 & _). unfold addEdges.
  rbind (by apply copyFrom_spec). intros t [Ht Et]. eapply returns_bind.
  - apply (returns_drain (λ R '(h, res, out), graph_wf h ∧
      (∀ i j, edge h i j ↔ edge g i j ∨ (i ∈ bits from ∖ R ∧ j = to)) ∧
      ∃ L, (∀ x y, x ∈ L → y ∈ R → x < y) ∧ new_sources g (bits from ∖ R) to L ∧
           recorded max added L res out)); [done| |].
    { rewrite Et, difference_diag_L. split; [done|]. split; [set_solver +|].
      exists []. split; [set_solver +|]. split; [split; [constructor|set_solver +]|].
      split; [simpl; lia|]. done. }
    intros n R [[h res] out] [HnR Hmin] HR (Hh & He & L & HL & [Hs Hn] & Hrec).
    assert (n ∈ bits from) as Hnf by (rewrite <- Et; by apply HR).
    assert (0 ≤ n < kSize) as Hnk by (by eapply elem_of_indices, bits_subset).
    assert (∀ i, i ∈ bits from ∖ (R ∖ {[n]}) ↔ i = n ∨ i ∈ bits from ∖ R) as Hstep.
    { intros i. rewrite !elem_of_difference, elem_of_singleton.
      destruct (decide (i = n)) as [->|]; tauto. }
    assert (∀ L' : list Z, (∀ x, x ∈ L' → x ∈ L ∨ x = n) → ∀ x y, x ∈ L' → y ∈ R ∖ {[n]} → x < y) as HL'.
    { intros L' Hsub x y Hx [Hy Hyn]%elem_of_difference. rewrite elem_of_singleton in Hyn.
      destruct (Hsub x Hx) as [Hx'| ->]; [by apply HL|]. pose proof (Hmin _ Hy). lia. }
    unfold addEdges_step. rbind (by apply row_setBit_spec). intros [h' c] (Hh' & He' & ->).
    assert (∀ i j, edge h' i j ↔ edge g i j ∨ (i ∈ bits from ∖ (R ∖ {[n]}) ∧ j = to)) as He''.
    { intros i j. rewrite He', He, Hstep. tauto. }
    assert (to ∈ succ h n ↔ edge g n to) as Hc.
    { change (edge h n to ↔ edge g n to). rewrite He, elem_of_difference. tauto. }
    case_bool_decide as Hto'; rewrite Hc in Hto'; cbn [andb].
    + pose proof (recorded_push max added L res out n Hmax Hrec) as Hpush.
      assert (new_sources g (bits from ∖ (R ∖ {[n]})) to (L ++ [n])) as Hnew.
      { split; [apply StronglySorted_snoc; [done|]; intros; by apply HL|].
        intros i. rewrite elem_of_app, list_elem_of_singleton, Hn, Hstep.
        destruct (decide (i = n)) as [->|]; tauto. }
      assert (∀ x y, x ∈ L ++ [n] → y ∈ R ∖ {[n]} → x < y) as Hord.
      { apply HL'. intros x. rewrite elem_of_app, list_elem_of_singleton. done. }
      destruct (res <? max).
      * rbind (exact Hpush). intros out' Hrec'. split; [done|]. split; [done|]. by exists (L ++ [n]).
      * simpl. split; [done|]. split; [done|]. by exists (L ++ [n]).
    + simpl. split; [done|]. split; [done|]. exists L. split; [by apply HL'; auto|]. split; [|done].
      split; [done|]. intros i. rewrite Hn, Hstep. split; [tauto|]. intros [[->|?] ?]; [done|tauto].
  - intros [t' [[g' res] out]] (Ht' & _ & Hg' & He & L & _ & Hnew & Hrec).
    rewrite difference_empty_L in Hnew. setoid_rewrite difference_empty_L in He. split; [by apply graph_wf_t1; [|apply bv_wf_raw]|].
    split; [|eauto]. intros i j. by rewrite edge_set_t1, He.
Qed.

(** ** Reachability *)

Notation reachable g := (rtc (edge g)).

Lemma size_indices_bound (s : gset Z) : s ⊆ indices kSize → (size s ≤ Z.to_nat kSize)%nat.
Proof. rewrite <- size_indices. apply subseteq_size. Qed.

(** The work-list invariant: everything visited is reachable from [from], and
    the successors of a visited node are visited or waiting. *)
Definition reach_inv g (from : Z) (to_visit visited : gset Z) : Prop :=
  from ∈ visited ∧
  (∀ x, x ∈ visited ∪ to_visit → reachable g from x) ∧
  (∀ x y, x ∈ visited → edge g x y → y ∈ visited ∪ to_visit).

Lemma reach_inv_closed g from visited x :
  reach_inv g from ∅ visited → x ∈ visited ↔ reachable g from x.
Proof.
  intros (Hf & Hr & Hc). split; [intros; apply Hr; set_solver|].
  intros Hx. revert Hf Hc. clear Hr. induction Hx as [x|x y z Hxy Hyz IH]; [done|].
  intros Hf Hc. apply IH; [|done]. specialize (Hc x y Hf Hxy). set_solver + Hc.
Qed.

Lemma reach_inv_old g from T V i : reach_inv g from T V → i ∈ T → i ∈ V →
  reach_inv g from (T ∖ {[i]}) V.
Proof.
  intros (Hf & Hr & Hc) HiT HiV. split; [done|]. split.
  - intros x Hx. apply Hr. set_solver + Hx.
  - intros x y Hx Hxy. specialize (Hc x y Hx Hxy). destruct (decide (y = i)); set_solver.
Qed.

Lemma reach_inv_new g from T V i : reach_inv g from T V → i ∈ T →
  reach_inv g from (T ∖ {[i]} ∪ succ g i) ({[i]} ∪ V).
Proof.
  intros (Hf & Hr & Hc) HiT. split; [set_solver + Hf|].
  assert (reachable g from i) as Hi by (apply Hr; set_solver + HiT). split.
  - intros x Hx. destruct (decide (edge g i x)) as [He|He]; [by eapply rtc_r|].
    apply Hr. unfold edge in He. set_solver + Hx He HiT.
  - intros x y Hx Hxy. destruct (decide (x = i)) as [->|]; [unfold edge in Hxy; set_solver + Hxy|].
    assert (x ∈ V) as HxV by set_solver. specialize (Hc x y HxV Hxy).
    destruct (decide (y = i)); set_solver.
Qed.

Lemma reach_loop_spec g from fuel (T V : BV) : graph_wf g → bv_wf T → bv_wf V →
  reach_inv g from (bits T) (bits V) →
  ((Z.to_nat kSize - size (bits V)) * (Z.to_nat kSize + 1) + size (bits T) ≤ fuel)%nat →
  returns (reach_loop fuel g T V) (λ '(T', V'), bv_wf T' ∧ bv_wf V' ∧
    ∀ x, x ∈ bits V' ↔ reachable g from x).
Proof.
  intros Hg. revert T V. induction fuel as [|fuel IH]; intros T V HT HV Hinv Hf; cbn [reach_loop].
  all: rbind (by apply empty_spec); intros e ->; case_bool_decide as He;
    [simpl; rewrite He in Hinv; split; [done|]; split; [done|]; intros; by apply reach_inv_closed|].
  { exfalso. apply He, leibniz_equiv, size_empty_iff. nia. }
  rbind (by apply getAndClearFirstOne_spec). intros [T1 i] (HT1 & [Hi _] & E1).
  assert (0 ≤ i < kSize) as Hik by (by eapply elem_of_indices, bits_subset).
  rbind (by apply setBit_spec). intros [V1 fresh] (HV1 & EV & ->). case_bool_decide as Hfr.
  - rbind (apply (returns_row g i (λ b, bv_wf b ∧ succ g i = bits b)); done). intros b [Hb Eb].
    rbind (by apply setUnion_spec). intros [T2 ?] (HT2 & E2 & _).
    apply IH; [done..|by rewrite EV, E2, E1, <- Eb; apply reach_inv_new|].
    pose proof (size_indices_bound _ (bits_subset T2)).
    assert (size (bits V1) = S (size (bits V))) as EV1.
    { rewrite EV, size_union, size_singleton; [done|set_solver + Hfr]. }
    pose proof (size_indices_bound _ (bits_subset V1)). nia.
  - assert (bits V1 = bits V) as EV1 by (rewrite EV; set_solver + Hfr).
    apply IH; [done..|by rewrite EV1, E1; apply reach_inv_old|].
    rewrite EV1, E1, size_difference, size_singleton by set_solver + Hi.
    assert (size (bits T) ≠ 0%nat); [|lia]. intros Hz%size_empty_inv. set_solver.
Qed.

Lemma isReachable_spec g from targets : graph_wf g → 0 ≤ from < kSize → bv_wf targets →
  returns (isReachable g from targets) (λ '(g', r),
    graph_wf g' ∧ v g' = v g ∧
    (r = true ↔ ∃ t, t ∈ bits targets ∧ reachable g from t)).
Proof.
  intros Hg Hf Ht. pose proof Hg as (Hl & Hv & Ht1 & Ht2). unfold isReachable.
  rbind (apply (returns_row g from (λ b, bv_wf b ∧ succ g from = bits b)); done). intros b [Hb Eb].
  rbind (by apply copyFrom_spec). intros T [HT ET].
  rbind (by apply clear_spec). intros V0 [HV0 EV0].
  rbind (by apply setBit_spec). intros [V ?] (HV & EV & _).
  eapply returns_bind; [apply (reach_loop_spec g from); [done..| |]|].
  - rewrite EV, EV0, ET, <- Eb. split; [set_solver +|]. split.
    + intros x Hx. destruct (decide (x = from)) as [->|]; [apply rtc_refl|].
      apply rtc_once. unfold edge. set_solver.
    + intros x y Hx Hxy. assert (x = from) as -> by set_solver + Hx. unfold edge in Hxy. set_solver + Hxy.
  - pose proof (size_indices_bound _ (bits_subset T)). unfold reach_fuel. pose proof kSize_pos. nia.
  - intros [T' V'] (HT' & HV' & Hreach). rbind (by apply intersectsWith_spec). intros r ->.
    split; [|split; [done|]].
    + split; [done|]. split; [done|]. split; by apply bv_wf_raw.
    + rewrite bool_decide_eq_true. split.
      * intros [t Hx]%set_choose_L. apply elem_of_intersection in Hx as [? ?]. exists t. by rewrite <- Hreach.
      * intros (t & Hx & Hr). apply (elem_nonempty t), elem_of_intersection. by rewrite Hreach.
Qed.

(** ** Paths *)

(** [gpath g T x l]: [l] is a path of [g] from [x] to a node of [T]. *)
Inductive gpath g (T : gset Z) : Z → list Z → Prop :=
  | gpath_end x : x ∈ T → gpath g T x [x]
  | gpath_step x y l : edge g x y → gpath g T y l → gpath g T x (x :: l).

Lemma gpath_reachable g T x : (∃ l, gpath g T x l) ↔ ∃ t, t ∈ T ∧ reachable g x t.
Proof.
  split.
  - intros [l Hl]. induction Hl as [x Hx|x y l Hxy _ (t & Ht & Hyt)]; [by exists x; split|].
    exists t. split; [done|]. by eapply rtc_l.
  - intros (t & Ht & Hxt). induction Hxt as [x|x y t Hxy _ IH]; [eexists; by constructor|].
    destruct (IH Ht) as [l Hl]. eexists. by eapply gpath_step.
Qed.

Lemma gpath_length g T x l : gpath g T x l → (0 < length l)%nat.
Proof. by destruct 1; simpl; lia. Qed.

(** Writes between [off] and [off + n] only. *)
Definition frame (off n : nat) (p p' : list Z) : Prop :=
  length p' = length p ∧ ∀ i, (i < off ∨ off + n ≤ i)%nat → p' !! i = p !! i.

Lemma frame_refl off n p : frame off n p p.
Proof. done. Qed.

Lemma frame_trans off n p1 p2 p3 : frame off n p1 p2 → frame off n p2 p3 → frame off n p1 p3.
Proof. intros [E1 F1] [E2 F2]. split; [congruence|]. intros i Hi. by rewrite F2, F1. Qed.

Lemma frame_S off n p p' : frame (S off) n p p' → frame off (S n) p p'.
Proof. intros [E F]. split; [done|]. intros i Hi. apply F. lia. Qed.

Lemma frame_insert off n p x : frame off (S n) p (<[off := x]> p).
Proof. split; [apply length_insert|]. intros i Hi. apply list_lookup_insert_ne. lia. Qed.

(** The array holds [l] from [off] on. *)
Definition holds (p : list Z) (off : nat) (l : list Z) : Prop := take (length l) (drop off p) = l.

Lemma holds_cons p off x l : p !! off = Some x → holds p (S off) l → holds p off (x :: l).
Proof. intros Hx Hl. unfold holds. rewrite (drop_S _ x) by done. simpl. by f_equal. Qed.

Lemma returns_iter_find {S R} (P : gset Z → S → Prop) (Q : S * option R → Prop)
    (body : Z → S → result (S * option R)) (b : BV) it s fuel X :
  bv_iter b it X → (size X ≤ fuel)%nat → P X s →
  (∀ i Y s, i ∈ Y → Y ⊆ X → P Y s → returns (body i s) (λ '(s', r),
    match r with Some x => Q (s', Some x) | None => P (Y ∖ {[i]}) s' end)) →
  (∀ s, P ∅ s → Q (s, None)) →
  returns (iter_find fuel body b it s) Q.
Proof.
  intros Hit Hsz HP Hbody HQ. remember X as X0 eqn:E in Hbody.
  assert (X ⊆ X0) as Hsub by (by subst). clear E. revert X it s Hit Hsz HP Hsub.
  induction fuel as [|n IH]; intros X it s Hit Hsz HP Hsub; cbn [iter_find].
  all: rbind (by apply hasNext_spec); intros h ->; case_bool_decide as HX;
    [|rewrite HX in HP; by apply HQ].
  { exfalso. apply HX, leibniz_equiv, size_empty_iff. lia. }
  rbind (by apply next_spec). intros [it' i] [[Hi _] Hit']. rbind (by apply (Hbody i X)).
  intros [s' [x|]] Hr; [done|].
  apply (IH (X ∖ {[i]})); [done|by apply size_remove|done|set_solver + Hsub].
Qed.

(** What [findPath] promises for a pointer at [off] and size [n]. *)
Definition path_found g (T : gset Z) (x : Z) (n off : nat) (p p' : list Z) (r : Z) : Prop :=
  frame off n p p' ∧
  ((r = 0 ∧ ∀ l, gpath g T x l → (n < length l)%nat) ∨
   (∃ l, gpath g T x l ∧ r = Z.of_nat (length l) ∧ (length l ≤ n)%nat ∧ holds p' off l)).

Lemma findPath_spec g n x targets p off : graph_wf g → bv_wf targets → 0 ≤ x < kSize →
  (off + n ≤ length p)%nat →
  returns (findPath g n x targets p (Z.of_nat off)) (λ '(p', r),
    path_found g (bits targets) x n off p p' r).
Proof.
  intros Hg Ht. revert x p off. induction n as [|n IH]; intros x p off Hx Hlen; cbn [findPath].
  { split; [apply frame_refl|]. left. split; [done|]. apply gpath_length. }
  eapply returns_bind; [apply (returns_aset _ _ _ (λ p1, p1 = <[off := x]> p)); rewrite ?Nat2Z.id; [lia|done]|].
  intros p1 ->. rbind (by apply getBit_spec). intros found ->. case_bool_decide as Hin.
  { split; [apply frame_insert|]. right. exists [x]. split; [by constructor|]. split; [done|].
    split; [simpl; lia|]. apply holds_cons; [apply list_lookup_insert_eq; lia|done]. }
  rbind (apply (returns_row g x (λ b, bv_wf b ∧ succ g x = bits b)); done). intros b [Hb Eb].
  eapply returns_bind.
  - apply (returns_iter_find (λ Y q, frame off (S n) p q ∧ q !! off = Some x ∧
        ∀ i l, i ∈ succ g x ∖ Y → gpath g (bits targets) i l → (n < length l)%nat)
      (λ '(p', r), path_found g (bits targets) x (S n) off p p' (default 0 r)) _ _ _ _ _ (bits b)).
    + by apply mkIterator_spec.
    + apply size_bits.
    + split; [apply frame_insert|]. split; [apply list_lookup_insert_eq; lia|].
      rewrite Eb, difference_diag_L. set_solver +.
    + intros i Y q Hi HY (Hfr & Hq & Hdone).
      assert (edge g x i) as Hxi by (unfold edge; rewrite Eb; by apply HY).
      replace (Z.of_nat off + 1) with (Z.of_nat (S off)) by lia.
      rbind (apply IH; [by eapply edge_target|rewrite (proj1 Hfr); lia]).
      intros [q' res] [Hfr' Hres].
      assert (frame off (S n) p q') as Hfr'' by (eapply frame_trans; [done|by apply frame_S]).
      assert (q' !! off = Some x) as Hq' by (rewrite (proj2 Hfr'); [done|lia]).
      destruct Hres as [[-> Hno]|(l & Hl & -> & Hle & Hh)]; simpl.
      * split; [done|]. split; [done|]. intros j l Hj. destruct (decide (j = i)) as [->|]; [apply Hno|].
        apply Hdone. set_solver.
      * pose proof (gpath_length _ _ _ _ Hl). rewrite (proj2 (Z.eqb_neq _ 0)) by lia. simpl.
        split; [done|]. right. exists (x :: l). split; [by eapply gpath_step|].
        split; [simpl; lia|]. split; [simpl; lia|]. by apply holds_cons.
    + intros q (Hfr & _ & Hdone). split; [done|]. left. split; [done|].
      intros l Hl. inversion Hl as [|? y l' Hxy Hl']; subst; [done|].
      simpl. apply -> Nat.succ_lt_mono. apply (Hdone y); [|done].
      by rewrite difference_empty_L.
  - intros [p' r] Hr. exact Hr.
Qed.

(** [l] is a shortest path. *)
Definition shortest g (T : gset Z) (x : Z) (l : list Z) : Prop :=
  gpath g T x l ∧ ∀ l', gpath g T x l' → (length l ≤ length l')%nat.

Lemma shortest_loop_spec g n q x targets p : graph_wf g → bv_wf targets → 0 ≤ x < kSize →
  (0 < q)%nat → (q + n ≤ S (length p))%nat →
  (∀ l, gpath g (bits targets) x l → (q ≤ length l)%nat) →
  returns (shortest_loop g n (Z.of_nat q) x targets p) (λ '(p', r),
    length p' = length p ∧
    ((r = 0 ∧ ∀ l, gpath g (bits targets) x l → (q + n ≤ length l)%nat) ∨
     (∃ l, shortest g (bits targets) x l ∧ r = Z.of_nat (length l) ∧
           (length l < q + n)%nat ∧ holds p' 0 l))).
Proof.
  intros Hg Ht Hx. revert q p. induction n as [|n IH]; intros q p Hq Hlen Hmin; cbn [shortest_loop].
  { split; [done|]. left. split; [done|]. intros l Hl. specialize (Hmin l Hl). lia. }
  rewrite Nat2Z.id. rbind (apply (findPath_spec g q x targets p 0); [done..|simpl; lia]).
  intros [p1 r] [[El _] Hr]. destruct (Z.eqb_spec r (Z.of_nat q)) as [->|Hne].
  - split; [done|]. right. destruct Hr as [[? _]|(l & Hl & E & _ & Hh)]; [lia|].
    exists l. split; [|split; [done|]; split; [lia|done]]. split; [done|].
    intros l' Hl'. specialize (Hmin l' Hl'). lia.
  - replace (Z.of_nat q + 1) with (Z.of_nat (S q)) by lia.
    eapply returns_mono; [apply IH; [lia|lia|]|].
    + intros l Hl. destruct Hr as [[_ Hno]|(l1 & Hl1 & E & Hle & _)]; [apply Hno in Hl; lia|].
      specialize (Hmin _ Hl1). lia.
    + intros [p' r'] [E' Hr']. split; [congruence|].
      replace (q + S n)%nat with (S q + n)%nat by lia. done.
Qed.

Lemma findShortestPath_spec g x targets p n : graph_wf g → bv_wf targets → 0 ≤ x < kSize →
  0 ≤ n ≤ Z.of_nat (length p) →
  returns (findShortestPath g x targets p n) (λ '(p', r),
    length p' = length p ∧
    ((r = 0 ∧ ∀ l, gpath g (bits targets) x l → n < Z.of_nat (length l)) ∨
     (∃ l, shortest g (bits targets) x l ∧ r = Z.of_nat (length l) ∧ r ≤ n ∧ holds p' 0 l))).
Proof.
  intros Hg Ht Hx Hn. unfold findShortestPath. change 1 with (Z.of_nat 1).
  eapply returns_mono; [apply shortest_loop_spec; [done..|lia|lia|apply gpath_length]|].
  intros [p' r] [E Hr]. split; [done|]. destruct Hr as [[-> Hno]|(l & Hl & -> & Hle & Hh)].
  - left. split; [done|]. intros l Hl. specialize (Hno l Hl). lia.
  - right. exists l. split; [done|]. split; [done|]. split; [lia|done].
Qed.

(** Paths without repeated nodes. *)
Lemma gpath_suffix g T y l x : gpath g T y l → x ∈ l → ∃ l', l' `suffix_of` l ∧ gpath g T x l'.
Proof.
  induction 1 as [y Hy|y z l Hyz Hl IH]; intros Hx.
  - apply list_elem_of_singleton in Hx as ->. exists [y]. split; [done|by constructor].
  - apply elem_of_cons in Hx as [->|Hx]; [exists (y :: l); split; [done|by eapply gpath_step]|].
    destruct (IH Hx) as (l' & Hs & Hl'). exists l'. split; [by apply suffix_cons_r|done].
Qed.

Lemma gpath_nodup g T x l : gpath g T x l → ∃ l', gpath g T x l' ∧ NoDup l'.
Proof.
  induction 1 as [x Hx|x y l Hxy Hl (l' & Hl' & Hnd)].
  - exists [x]. split; [by constructor|apply NoDup_singleton].
  - destruct (decide (x ∈ l')) as [Hin|Hni].
    + destruct (gpath_suffix _ _ _ _ _ Hl' Hin) as (l2 & [k ->] & Hl2). exists l2.
      split; [done|]. by apply NoDup_app in Hnd as (_ & _ & ?).
    + exists (x :: l'). split; [by eapply gpath_step|by constructor].
Qed.

Lemma gpath_elem g T x l y : gpath g T x l → 0 ≤ x < kSize → y ∈ l → 0 ≤ y < kSize.
Proof.
  induction 1 as [x Hx|x z l Hxz Hl IH]; intros Hx'.
  - intros ->%list_elem_of_singleton. done.
  - intros [->|Hy]%elem_of_cons; [done|]. apply IH; [by eapply edge_target|done].
Qed.

Lemma nodup_length l : NoDup l → (∀ y, y ∈ l → 0 ≤ y < kSize) → Z.of_nat (length l) ≤ kSize.
Proof.
  intros Hnd Hl. assert (length l ≤ length (seqZ 0 kSize))%nat as Hle.
  { apply submseteq_length, NoDup_submseteq; [done|]. intros y Hy%Hl. apply elem_of_seqZ. lia. }
  rewrite length_seqZ in Hle. pose proof kSize_pos. lia.
Qed.

(** [isReachable] returns [true] exactly when some target can be reached
    from the node along edges of the graph, terminates on every graph within its
    fuel, and leaves the edges as they are. *)
Theorem isReachable_correct g from targets : graph_wf g → 0 ≤ from < kSize → bv_wf targets →
  returns (isReachable g from targets) (λ '(g', r),
    graph_wf g' ∧ (∀ i j, edge g' i j ↔ edge g i j) ∧
    (r = true ↔ ∃ t, t ∈ bits targets ∧ rtc (edge g) from t)).
Proof.
  intros Hg Hf Ht. eapply returns_mono; [by apply isReachable_spec|].
  intros [g' r] (Hg' & Ev & Hr). split; [done|]. split; [|done].
  intros i j. unfold edge, succ. by rewrite Ev.
Qed.

(** [findShortestPath] writes a shortest path from the node to the targets
    at the start of [path] and returns its length, or returns 0 when every such
    path is longer than [path_size].  With room for [kSize] nodes it fails only
    when no target is reachable at all. *)
Theorem findShortestPath_correct g from targets path path_size : graph_wf g → bv_wf targets →
  0 ≤ from < kSize → 0 ≤ path_size ≤ Z.of_nat (length path) →
  returns (findShortestPath g from targets path path_size) (λ '(path', r),
    length path' = length path ∧
    ((r = 0 ∧ (∀ l, gpath g (bits targets) from l → path_size < Z.of_nat (length l)) ∧
      (kSize ≤ path_size → ¬ ∃ t, t ∈ bits targets ∧ rtc (edge g) from t)) ∨
     (∃ l, shortest g (bits targets) from l ∧ r = Z.of_nat (length l) ∧ r ≤ path_size ∧
        take (length l) path' = l))).
Proof.
  intros Hg Ht Hf Hn. eapply returns_mono; [by apply findShortestPath_spec|].
  intros [path' r] [El [[-> Hno]|(l & Hl & -> & Hle & Hh)]]; (split; [done|]).
  - left. split; [done|]. split; [done|]. intros Hk [l Hl]%gpath_reachable.
    destruct (gpath_nodup _ _ _ _ Hl) as (l' & Hl' & Hnd). specialize (Hno l' Hl').
    assert (Z.of_nat (length l') ≤ kSize); [|lia].
    apply nodup_length; [done|]. intros y. by apply (gpath_elem g (bits targets) from).
  - right. exists l. split; [done|]. split; [done|]. split; [done|].
    unfold holds in Hh. by rewrite drop_0 in Hh.
Qed.

(** [addEdges] adds exactly the edges from the nodes of [from] to [to]; it
    returns how many of them are new, up to [max_added_edges], and stores their
    sources in increasing order at the start of [added_edges]. *)
Theorem addEdges_correct g from to added_edges max_added_edges :
  graph_wf g → bv_wf from → 0 ≤ to < kSize →
  0 ≤ max_added_edges ≤ Z.of_nat (length added_edges) →
  returns (addEdges g from to added_edges max_added_edges) (λ '(g', res, added'),
    graph_wf g' ∧ (∀ i j, edge g' i j ↔ edge g i j ∨ (i ∈ bits from ∧ j = to)) ∧
    ∃ L, StronglySorted Z.lt L ∧ (∀ i, i ∈ L ↔ i ∈ bits from ∧ ¬ edge g i to) ∧
      res = Z.min max_added_edges (Z.of_nat (length L)) ∧
      added' = take (Z.to_nat res) L ++ drop (Z.to_nat res) added_edges).
Proof.
  intros Hg Hf Ht Hm. eapply returns_mono; [by apply addEdges_spec|].
  intros [[g' res] added'] (Hg' & He & L & [Hs HL] & [Hr Ha]). split; [done|]. split; [done|].
  by exists L.
Qed.

(** [removeEdgesTo] and [removeEdgesFrom] delete exactly the edges into
    (respectively out of) the given nodes, and report whether there were any. *)
Theorem removeEdges_correct g nodes : graph_wf g → bv_wf nodes →
  returns (removeEdgesTo g nodes) (λ '(g', r), graph_wf g' ∧
    (∀ i j, edge g' i j ↔ edge g i j ∧ j ∉ bits nodes) ∧
    (r = true ↔ ∃ i j, edge g i j ∧ j ∈ bits nodes)) ∧
  returns (removeEdgesFrom g nodes) (λ '(g', r), graph_wf g' ∧
    (∀ i j, edge g' i j ↔ edge g i j ∧ i ∉ bits nodes) ∧
    (r = true ↔ ∃ i j, edge g i j ∧ i ∈ bits nodes)).
Proof. intros Hg Hn. split; [by apply removeEdgesTo_spec|by apply removeEdgesFrom_spec]. Qed.

End spec.

(** ** A concrete graph

    Eight nodes; [0 -> 1 -> 2 -> 3], [0 -> 4 -> 3] and the cycle [5 -> 6 -> 5]. *)
Import Basic.

Definition g8 : BVGraph (BasicBitVector 8) :=
  BVG [BBV 18; BBV 4; BBV 8; BBV 0; BBV 8; BBV 64; BBV 32; BBV 0] (BBV 77) (BBV 255).

Lemma g8_wf : graph_wf g8.
Proof.
  split; [done|]. split; [|split; cbv; done]. repeat constructor; cbv; done.
Qed.

Lemma isReachable_correct_witness :
  returns (isReachable g8 0 (BBV 8)) (λ '(g', r),
    graph_wf g' ∧ (∀ i j, edge g' i j ↔ edge g8 i j) ∧
    (r = true ↔ ∃ t, t ∈ bits (BBV 8 : BasicBitVector 8) ∧ rtc (edge g8) 0 t)).
Proof. apply (isReachable_correct g8 0 (BBV 8)); [apply g8_wf|cbv; done|cbv; done]. Defined.

Lemma findShortestPath_correct_witness :
  returns (findShortestPath g8 0 (BBV 8) [9; 9; 9; 9; 9; 9; 9; 9] 8) (λ '(path', r),
    length path' = length [9; 9; 9; 9; 9; 9; 9; 9] ∧
    ((r = 0 ∧ (∀ l, gpath g8 (bits (BBV 8 : BasicBitVector 8)) 0 l → 8 < Z.of_nat (length l)) ∧
      (kSize (BV:=BasicBitVector 8) ≤ 8 → ¬ ∃ t, t ∈ bits (BBV 8 : BasicBitVector 8) ∧ rtc (edge g8) 0 t)) ∨
     (∃ l, shortest g8 (bits (BBV 8 : BasicBitVector 8)) 0 l ∧ r = Z.of_nat (length l) ∧ r ≤ 8 ∧
        take (length l) path' = l))).
Proof.
  apply (findShortestPath_correct g8 0 (BBV 8) [9; 9; 9; 9; 9; 9; 9; 9] 8);
    [apply g8_wf|cbv; done|cbv; done|cbv; done].
Defined.

Lemma addEdges_correct_witness :
  returns (addEdges g8 (BBV 113) 4 [0; 0; 0] 2) (λ '(g', res, added'),
    graph_wf g' ∧ (∀ i j, edge g' i j ↔ edge g8 i j ∨ (i ∈ bits (BBV 113 : BasicBitVector 8) ∧ j = 4)) ∧
    ∃ L, StronglySorted Z.lt L ∧ (∀ i, i ∈ L ↔ i ∈ bits (BBV 113 : BasicBitVector 8) ∧ ¬ edge g8 i 4) ∧
      res = Z.min 2 (Z.of_nat (length L)) ∧
      added' = take (Z.to_nat res) L ++ drop (Z.to_nat res) [0; 0; 0]).
Proof.
  apply (addEdges_correct g8 (BBV 113) 4 [0; 0; 0] 2); [apply g8_wf|cbv; done|cbv; done|cbv; done].
Defined.

Lemma removeEdges_correct_witness :
  returns (removeEdgesTo g8 (BBV 40)) (λ '(g', r), graph_wf g' ∧
    (∀ i j, edge g' i j ↔ edge g8 i j ∧ j ∉ bits (BBV 40 : BasicBitVector 8)) ∧
    (r = true ↔ ∃ i j, edge g8 i j ∧ j ∈ bits (BBV 40 : BasicBitVector 8))) ∧
  returns (removeEdgesFrom g8 (BBV 40)) (λ '(g', r), graph_wf g' ∧
    (∀ i j, edge g' i j ↔ edge g8 i j ∧ i ∉ bits (BBV 40 : BasicBitVector 8)) ∧
    (r = true ↔ ∃ i j, edge g8 i j ∧ i ∈ bits (BBV 40 : BasicBitVector 8))).
Proof. apply (removeEdges_correct g8 (BBV 40)); [apply g8_wf|cbv; done]. Defined.

(** The functions evaluate: [3] is reachable from [0], by a shortest path of
    three nodes. *)
Example g8_runs :
  snd <$> isReachable g8 0 (BBV 8) = Ok true ∧ snd <$> isReachable g8 5 (BBV 8) = Ok false ∧
  findShortestPath g8 0 (BBV 8) (replicate 8 9) 8 = Ok ([0; 4; 3; 9; 9; 9; 9; 9], 3).
Proof. vm_compute. done. Qed.

End Graph.
