(* ===== verification/DeadlockDetector.v ===== *)
(** * DeadlockDetector: lock-order graphs

    Models [sanitizer_deadlock_detector.h]: [Module Tls] the per-thread set of
    held locks ([DeadlockDetectorTLS]), [Module Detector] the global graph of
    lock acquisitions ([DeadlockDetector]).

    A thread's held locks are shown to form a multiset that [addLock] and
    [removeLock] update.  For the detector: node numbers encode epoch and index,
    a new node is isolated in the graph, [onLockBefore] answers exactly whether
    acquiring the lock closes a cycle, and a reported path is a shortest cycle
    of the graph.  All of it holds of any bit vector with at most [2^16] bits
    (edges store 16-bit indices). *)
From S2P Require Import Prelude Common BitVector BVGraph.
Import Graph.

(** Node indices fit into the [u16] fields of [Edge]. *)
Class SmallVector (BV : Type) `{BitVector BV} := small_vector : kSize ≤ 2 ^ 16.

(** ** The locks held by a thread *)
Module Tls.

Record LockWithContext := LWC { lock : Z; stk : Z }.

Record DeadlockDetectorTLS (BV : Type) := TLS {
  bv_ : BV;
  epoch_ : Z;
  recursive_locks : list Z;
  n_recursive_locks : Z;
  all_locks_with_contexts_ : list LockWithContext;
  n_all_locks_ : Z
}.
Arguments TLS {BV}.
Arguments bv_ {BV} d.
Arguments epoch_ {BV} d.
Arguments recursive_locks {BV} d.
Arguments n_recursive_locks {BV} d.
Arguments all_locks_with_contexts_ {BV} d.
Arguments n_all_locks_ {BV} d.

(** [ARRAY_SIZE(recursive_locks)] and [ARRAY_SIZE(all_locks_with_contexts_)]. *)
Abbreviation kMaxRecursive := (64) (only parsing).
Abbreviation kMaxLocks := (64) (only parsing).

Abbreviation getEpoch t := (epoch_ t) (only parsing).
Abbreviation getNumLocks t := (n_all_locks_ t) (only parsing).

Section ops.
Context {BV : Type} `{BitVector BV}.
Implicit Types t : DeadlockDetectorTLS BV.

(** Empty the set for a given epoch: the common part of [clear] and
    [ensureCurrentEpoch]. *)
Definition restart t (epoch : Z) : result (DeadlockDetectorTLS BV) :=
  b ← clear (bv_ t);
  Ok (TLS b epoch (recursive_locks t) 0 (all_locks_with_contexts_ t) 0).

Definition tls_clear t : result (DeadlockDetectorTLS BV) := restart t 0.

Definition tls_empty t : result bool := empty (bv_ t).

Definition ensureCurrentEpoch t (current_epoch : Z) : result (DeadlockDetectorTLS BV) :=
  if epoch_ t =? current_epoch then Ok t else restart t current_epoch.


Definition addLock t (lock_id current_epoch stk : Z) : result (DeadlockDetectorTLS BV * bool) :=
  CHECK (epoch_ t =? current_epoch);;
  '(b, changed) ← setBit (bv_ t) lock_id;
  if negb changed then
    CHECK (n_recursive_locks t <? kMaxRecursive);;
    r ← aset (recursive_locks t) (n_recursive_locks t) lock_id;
    Ok (TLS b (epoch_ t) r (n_recursive_locks t + 1)
          (all_locks_with_contexts_ t) (n_all_locks_ t), false)
  else
    CHECK (n_all_locks_ t <? kMaxLocks);;
    l ← aset (all_locks_with_contexts_ t) (n_all_locks_ t) (LWC (u32 lock_id) stk);
    Ok (TLS b (epoch_ t) (recursive_locks t) (n_recursive_locks t)
          l (n_all_locks_ t + 1), true).

(** The index of the last recursive entry for [lock_id]. *)
Definition find_recursive t (lock_id : Z) : result (option Z) :=
  find_down (Z.to_nat (n_recursive_locks t)) (λ i,
    x ← aget (recursive_locks t) i;
    Ok (if x =? lock_id then Some i else None)).

Definition find_lock t (lock_id : Z) : result (option Z) :=
  find_down (Z.to_nat (n_all_locks_ t)) (λ i,
    l ← aget (all_locks_with_contexts_ t) i;
    Ok (if lock l =? u32 lock_id then Some i else None)).

Definition removeLock t (lock_id : Z) : result (DeadlockDetectorTLS BV) :=
  r ← find_recursive t lock_id;
  match r with
  | Some i =>
      let n := n_recursive_locks t - 1 in
      r ← aswap (recursive_locks t) i n;
      Ok (TLS (bv_ t) (epoch_ t) r n (all_locks_with_contexts_ t) (n_all_locks_ t))
  | None =>
      '(b, changed) ← clearBit (bv_ t) lock_id;
      if negb changed then
        Ok (TLS b (epoch_ t) (recursive_locks t) (n_recursive_locks t)
              (all_locks_with_contexts_ t) (n_all_locks_ t))
      else
        r ← find_lock t lock_id;
        match r with
        | Some i =>
            l ← aswap (all_locks_with_contexts_ t) i (n_all_locks_ t - 1);
            Ok (TLS b (epoch_ t) (recursive_locks t) (n_recursive_locks t) l (n_all_locks_ t - 1))
        | None =>
            Ok (TLS b (epoch_ t) (recursive_locks t) (n_recursive_locks t)
                  (all_locks_with_contexts_ t) (n_all_locks_ t))
        end
  end.

Definition findLockContext t (lock_id : Z) : result Z :=
  r ← find_range 0 (n_all_locks_ t) (λ i,
    l ← aget (all_locks_with_contexts_ t) i;
    Ok (if lock l =? u32 lock_id then Some (stk l) else None));
  Ok (default 0 r).

Definition getLocks t (current_epoch : Z) : result BV :=
  CHECK (epoch_ t =? current_epoch);;
  Ok (bv_ t).


Definition getLock t (idx : Z) : result Z :=
  l ← aget (all_locks_with_contexts_ t) idx;
  Ok (lock l).

End ops.

Section spec.
Context {BV : Type} `{BitVectorSpec BV} {Hsmall : SmallVector BV}.
Implicit Types t : DeadlockDetectorTLS BV.

(** The valid prefixes of the two arrays. *)
Definition contexts t : list LockWithContext :=
  take (Z.to_nat (n_all_locks_ t)) (all_locks_with_contexts_ t).
Definition locks t : list Z := lock <$> contexts t.
Definition recursives t : list Z := take (Z.to_nat (n_recursive_locks t)) (recursive_locks t).

(** The locks held, one entry per acquisition. *)
Definition held t : list Z := locks t ++ recursives t.

Definition tls_raw t : Prop :=
  bv_raw (bv_ t) ∧ Z.of_nat (length (recursive_locks t)) = kMaxRecursive ∧
  Z.of_nat (length (all_locks_with_contexts_ t)) = kMaxLocks.

Record tls_wf t : Prop := {
  tls_bv : bv_wf (bv_ t);
  tls_length_rec : Z.of_nat (length (recursive_locks t)) = kMaxRecursive;
  tls_length_all : Z.of_nat (length (all_locks_with_contexts_ t)) = kMaxLocks;
  tls_n_rec : 0 ≤ n_recursive_locks t ≤ kMaxRecursive;
  tls_n_all : 0 ≤ n_all_locks_ t ≤ kMaxLocks;
  tls_nodup : NoDup (locks t);
  tls_locks i : i ∈ locks t ↔ i ∈ bits (bv_ t);
  tls_rec i : i ∈ recursives t → i ∈ bits (bv_ t)
}.

Lemma tls_wf_raw t : tls_wf t → tls_raw t.
Proof. intros []. split; [by apply bv_wf_raw|done]. Qed.

Lemma elem_of_held t i : tls_wf t → i ∈ held t ↔ i ∈ bits (bv_ t).
Proof.
  intros Ht. unfold held. rewrite elem_of_app, tls_locks by done.
  split; [|tauto]. intros [?|?]; [done|by apply tls_rec].
Qed.

Lemma held_index t i : tls_wf t → i ∈ held t → 0 ≤ i < kSize.
Proof. intros Ht Hi%elem_of_held; [|done]. by eapply elem_of_indices, bits_subset. Qed.

Lemma u32_index i : 0 ≤ i < kSize → u32 i = i.
Proof. intros Hi. pose proof small_vector. apply cast_id. lia. Qed.

Lemma restart_spec t e : tls_raw t →
  returns (restart t e) (λ t', tls_wf t' ∧ epoch_ t' = e ∧ held t' = []).
Proof.
  intros (Hb & Hr & Hl). unfold restart. rbind (by apply clear_spec).
  intros b [Hb' E]. split; [|done].
  split; try done; unfold locks, contexts, recursives; simpl; try lia.
  - constructor.
  - intros i. rewrite E. set_solver +.
  - set_solver +.
Qed.

Lemma ensureCurrentEpoch_spec t e : tls_wf t →
  returns (ensureCurrentEpoch t e) (λ t', tls_wf t' ∧ epoch_ t' = e ∧
    if decide (epoch_ t = e) then t' = t else held t' = []).
Proof.
  intros Ht. unfold ensureCurrentEpoch. destruct (Z.eqb_spec (epoch_ t) e) as [E|E].
  - simpl. by rewrite decide_True.
  - destruct (decide (epoch_ t = e)); [done|]. by apply restart_spec, tls_wf_raw.
Qed.

(** Pushing onto and popping from the valid prefix of an array. *)
Lemma take_push {A} (l : list A) (n : Z) x : 0 ≤ n < Z.of_nat (length l) →
  take (Z.to_nat (n + 1)) (<[Z.to_nat n := x]> l) = take (Z.to_nat n) l ++ [x].
Proof.
  intros Hn. replace (Z.to_nat (n + 1)) with (S (Z.to_nat n)) by lia.
  rewrite (take_S_r _ _ x) by (apply list_lookup_insert_eq; lia).
  by rewrite take_insert_ge.
Qed.

Lemma addLock_spec t i e c : tls_wf t → 0 ≤ i < kSize → epoch_ t = e →
  (if decide (i ∈ held t) then n_recursive_locks t < kMaxRecursive
   else n_all_locks_ t < kMaxLocks) →
  returns (addLock t i e c) (λ '(t', r), tls_wf t' ∧ epoch_ t' = e ∧
    held t' ≡ₚ i :: held t ∧ r = bool_decide (i ∉ held t)).
Proof.
  intros Ht Hi <- Hroom. unfold addLock. rewrite Z.eqb_refl. cbn [CHECK mbind result_bind].
  rbind (apply setBit_spec; [apply Ht|done]). intros [b r] (Hb & Eb & ->).
  replace (bool_decide (i ∉ bits (bv_ t))) with (bool_decide (i ∉ held t))
    by (apply bool_decide_ext; by rewrite elem_of_held).
  destruct Ht as [_ Hlr Hla Hnr Hna Hnd Hlk Hrec].
  case_bool_decide as Hin; cbn [negb].
  - rewrite decide_False in Hroom by done. rewrite (proj2 (Z.ltb_lt _ _)) by done.
    cbn [CHECK mbind result_bind]. rewrite aset_Ok by lia. cbn [mbind result_bind returns].
    assert (∀ r n c', locks (TLS b (epoch_ t) r n (<[Z.to_nat (n_all_locks_ t) := LWC (u32 i) c']>
      (all_locks_with_contexts_ t)) (n_all_locks_ t + 1)) = locks t ++ [i]) as El.
    { intros. unfold locks, contexts. simpl. rewrite take_push, fmap_app by lia. simpl. by rewrite u32_index. }
    assert (i ∉ locks t) as Hnew by (intros ?; apply Hin; unfold held; set_solver).
    split; [|split; [done|]; split; [|done]].
    + split; try done; simpl; rewrite ?length_insert, ?El; try lia.
      * apply NoDup_app. split; [done|]. split; [set_solver + Hnew|apply NoDup_singleton].
      * intros j. rewrite Eb, elem_of_app, list_elem_of_singleton, Hlk. set_solver +.
      * intros j Hj. rewrite Eb. apply elem_of_union_r. by apply Hrec.
    + unfold held at 1. rewrite El. unfold held, recursives. simpl. solve_Permutation.
  - rewrite decide_True in Hroom by done. rewrite (proj2 (Z.ltb_lt _ _)) by done.
    cbn [CHECK mbind result_bind]. rewrite aset_Ok by lia. cbn [mbind result_bind returns].
    assert (i ∈ bits (bv_ t)) as Hib.
    { unfold held in Hin. apply elem_of_app in Hin as [?|?]; [by apply Hlk|by apply Hrec]. }
    assert (bits b = bits (bv_ t)) as Eb' by (rewrite Eb; set_solver + Hib).
    split; [|split; [done|]; split; [|done]].
    + split; try done; simpl; rewrite ?length_insert; try lia.
      * intros j. rewrite Eb'. apply Hlk.
      * intros j. unfold recursives. simpl. rewrite take_push, elem_of_app, list_elem_of_singleton, Eb' by lia.
        intros [?| ->]; [by apply Hrec|done].
    + unfold held, recursives. simpl. rewrite take_push by lia. solve_Permutation.
Qed.

(** A search from the end of the valid prefix of an array. *)
Lemma find_last_spec {A} (l : list A) (n : Z) (f : A → bool) :
  0 ≤ n ≤ Z.of_nat (length l) →
  returns (find_down (Z.to_nat n) (λ i, x ← aget l i; Ok (if f x then Some i else None)))
    (λ r, match r with
          | Some i => ∃ k x, i = Z.of_nat k ∧ (k < Z.to_nat n)%nat ∧ l !! k = Some x ∧ f x = true
          | None => ∀ x, x ∈ take (Z.to_nat n) l → f x = false
          end).
Proof.
  intros Hn. apply (returns_find_down (λ m, ∀ k x, (m ≤ k < Z.to_nat n)%nat → l !! k = Some x → f x = false)).
  - intros. lia.
  - intros i Hi Hdone. destruct (lookup_lt_is_Some_2 l i) as [x Hx]; [lia|].
    rewrite (aget_lookup _ _ _ Hx). cbn [mbind result_bind returns].
    destruct (f x) eqn:E; [eauto 10|]. intros k y Hk Hy.
    destruct (decide (k = i)) as [->|]; [congruence|]. eapply Hdone; [|done]. lia.
  - intros Hall x Hx. apply list_elem_of_lookup in Hx as [k Hk].
    apply lookup_take_Some in Hk as [Hk ?]. eapply Hall; [|done]. lia.
Qed.

Lemma removeLock_recursive t i (k : nat) : tls_wf t →
  (k < Z.to_nat (n_recursive_locks t))%nat → recursive_locks t !! k = Some i →
  returns (r ← aswap (recursive_locks t) (Z.of_nat k) (n_recursive_locks t - 1);
           Ok (TLS (bv_ t) (epoch_ t) r (n_recursive_locks t - 1)
                 (all_locks_with_contexts_ t) (n_all_locks_ t)))
    (λ t', tls_wf t' ∧ epoch_ t' = epoch_ t ∧ held t ≡ₚ i :: held t').
Proof.
  intros [Hbv Hlr Hla Hnr Hna Hnd Hlk Hrec] Hk Hi.
  replace (n_recursive_locks t - 1) with (Z.of_nat (pred (Z.to_nat (n_recursive_locks t)))) by lia.
  eapply returns_bind.
  { apply (aswap_last _ _ _ i (λ l', length l' = length (recursive_locks t) ∧ recursives t ≡ₚ
      i :: take (pred (Z.to_nat (n_recursive_locks t))) l')); [lia|done|].
    intros l' El HP _ _ _. split; [done|]. unfold recursives.
    by replace (S (pred (Z.to_nat (n_recursive_locks t)))) with (Z.to_nat (n_recursive_locks t)) in HP by lia. }
  intros l' [El HP]. simpl. split; [|split; [done|]].
  - split; try done; simpl; try lia.
    intros j. unfold recursives at 1. simpl. rewrite Nat2Z.id. intros Hj. apply Hrec. rewrite HP. by constructor.
  - unfold held. rewrite HP. unfold recursives at 1. simpl. rewrite Nat2Z.id.
    unfold locks, contexts. simpl. solve_Permutation.
Qed.

Lemma removeLock_last t b i (k : nat) l : tls_wf t → bv_wf b → bits b = bits (bv_ t) ∖ {[i]} →
  i ∉ recursives t →
  (k < Z.to_nat (n_all_locks_ t))%nat → all_locks_with_contexts_ t !! k = Some l → lock l = i →
  returns (l ← aswap (all_locks_with_contexts_ t) (Z.of_nat k) (n_all_locks_ t - 1);
           Ok (TLS b (epoch_ t) (recursive_locks t) (n_recursive_locks t) l (n_all_locks_ t - 1)))
    (λ t', tls_wf t' ∧ epoch_ t' = epoch_ t ∧ held t ≡ₚ i :: held t').
Proof.
  intros [Hbv Hlr Hla Hnr Hna Hnd Hlk Hrec] Hb Eb Hnr' Hk Hl <-.
  replace (n_all_locks_ t - 1) with (Z.of_nat (pred (Z.to_nat (n_all_locks_ t)))) by lia.
  eapply returns_bind.
  { apply (aswap_last _ _ _ l (λ l', length l' = length (all_locks_with_contexts_ t) ∧
      locks t ≡ₚ lock l :: (lock <$> take (pred (Z.to_nat (n_all_locks_ t))) l'))); [lia|done|].
    intros l' El HP _ _ _. split; [done|]. unfold locks, contexts.
    replace (S (pred (Z.to_nat (n_all_locks_ t)))) with (Z.to_nat (n_all_locks_ t)) in HP by lia.
    by rewrite HP. }
  intros l' [El HP]. rewrite HP in Hnd. apply NoDup_cons in Hnd as [Hni Hnd].
  simpl. split; [|split; [done|]].
  - split; try done; unfold locks, contexts; simpl; rewrite ?Nat2Z.id; try lia; try done.
    + intros j. rewrite Eb, elem_of_difference, elem_of_singleton, <- Hlk, HP, elem_of_cons.
      destruct (decide (j = lock l)) as [->|]; tauto.
    + intros j Hj. rewrite Eb, elem_of_difference, elem_of_singleton.
      split; [by apply Hrec|]. by intros ->.
  - unfold held. rewrite HP. unfold locks at 1, contexts at 1. simpl. rewrite Nat2Z.id.
    unfold recursives. solve_Permutation.
Qed.

Lemma removeLock_spec t i : tls_wf t → 0 ≤ i < kSize →
  returns (removeLock t i) (λ t', tls_wf t' ∧ epoch_ t' = epoch_ t ∧
    if decide (i ∈ held t) then held t ≡ₚ i :: held t' else held t' = held t).
Proof.
  intros Ht Hi. pose proof Ht as [Hbv Hlr Hla Hnr Hna Hnd Hlk Hrec].
  unfold removeLock, find_recursive in *.
  rbind (apply (find_last_spec _ _ (λ x, x =? i)); lia). intros [j|] Hj.
  - destruct Hj as (k & x & -> & Hk & Hx & ->%Z.eqb_eq).
    eapply returns_mono; [by apply (removeLock_recursive t i k)|].
    intros t' (? & ? & HP). split; [done|]. split; [done|].
    rewrite decide_True; [done|]. rewrite HP. by constructor.
  - assert (i ∉ recursives t) as Hni by (intros Hin%Hj; lia).
    rbind (by apply clearBit_spec). intros [b c] (Hb & Eb & ->). case_bool_decide as Hin; cbn [negb].
    + unfold find_lock. rewrite u32_index by done.
      rbind (apply (find_last_spec _ _ (λ l, lock l =? i)); lia). intros [j|] Hj'.
      * destruct Hj' as (k & x & -> & Hk & Hx & E%Z.eqb_eq).
        eapply returns_mono; [by apply (removeLock_last t b i k x)|].
        intros t' (? & ? & HP). split; [done|]. split; [done|].
        rewrite decide_True; [done|]. rewrite HP. by constructor.
      * exfalso. apply Hlk, list_elem_of_fmap in Hin as (x & E & Hx%Hj'). lia.
    + simpl. rewrite decide_False by (by rewrite elem_of_held). split; [|done].
      assert (bits b = bits (bv_ t)) as Eb' by (rewrite Eb; set_solver + Hin).
      split; try done; intros j; simpl; rewrite Eb'; [apply Hlk|apply Hrec].
Qed.

(** [findLockContext] finds the stack recorded by the first acquisition. *)
Lemma findLockContext_spec t i : tls_wf t → 0 ≤ i < kSize →
  returns (findLockContext t i) (λ c, if decide (i ∈ held t) then LWC i c ∈ contexts t else c = 0).
Proof.
  intros Ht Hi. unfold findLockContext. rewrite u32_index by done.
  pose proof (tls_length_all t Ht) as Hl. pose proof (tls_n_all t Ht) as Hn.
  eapply returns_bind.
  - apply (returns_find_range (λ m, ∀ k l, (k < Z.to_nat m)%nat → contexts t !! k = Some l → lock l ≠ i)
      (λ r, match r with Some c => LWC i c ∈ contexts t | None => i ∉ locks t end)); [lia|lia| |].
    + intros j Hj Hdone. destruct (lookup_lt_is_Some_2 (all_locks_with_contexts_ t) (Z.to_nat j)) as [l Hl']; [lia|].
      rewrite (proj2 (aget_Ok _ _ l)) by (split; [lia|done]). cbn [mbind result_bind returns].
      assert (contexts t !! Z.to_nat j = Some l) as Hc by (apply lookup_take_Some; split; [done|lia]).
      destruct (Z.eqb_spec (lock l) i) as [<-|Hne].
      * destruct l. by eapply list_elem_of_lookup_2.
      * intros k l2 Hk Hl2. destruct (decide (k = Z.to_nat j)) as [->|]; [congruence|].
        apply (Hdone k); [lia|done].
    + intros Hall (l & -> & Hl')%list_elem_of_fmap. apply list_elem_of_lookup in Hl' as [k Hk].
      apply (Hall k l); [|done..]. apply lookup_lt_Some in Hk. unfold contexts in Hk.
      rewrite length_take in Hk. lia.
  - intros [c|] Hc; simpl.
    + rewrite decide_True; [done|]. unfold held. apply elem_of_app. left.
      apply list_elem_of_fmap. by exists (LWC i c).
    + rewrite decide_False; [done|]. by rewrite elem_of_held, <- tls_locks.
Qed.

(** The array an acquisition is stored in is full. *)
Definition full t (i : Z) : Prop :=
  if decide (i ∈ held t) then n_recursive_locks t = kMaxRecursive else n_all_locks_ t = kMaxLocks.

Lemma addLock_full t i c : tls_wf t → 0 ≤ i < kSize → full t i →
  addLock t i (epoch_ t) c = Fault CheckFailed.
Proof.
  intros Ht Hi Hf. unfold addLock. rewrite Z.eqb_refl. cbn [CHECK mbind result_bind].
  pose proof (setBit_spec (bv_ t) i (tls_bv t Ht) Hi) as Hs.
  apply returns_inv in Hs as ([b r] & -> & _ & _ & ->). cbn [mbind result_bind].
  replace (bool_decide (i ∉ bits (bv_ t))) with (bool_decide (i ∉ held t))
    by (apply bool_decide_ext; by rewrite elem_of_held).
  unfold full in Hf. case_bool_decide as Hin; cbn [negb].
  - rewrite decide_False in Hf by done. by rewrite Hf, Z.ltb_irrefl.
  - rewrite decide_True in Hf by done. by rewrite Hf, Z.ltb_irrefl.
Qed.

(** A thread's record of held locks is a multiset: [addLock] adds one
    occurrence of the lock, reports whether it is the first one, and keeps the
    invariant that ties the bit vector to the two arrays; when the array for the
    acquisition is full it stops at a [CHECK]. *)
Theorem addLock_correct t lock_id stk : tls_wf t → 0 ≤ lock_id < kSize →
  (full t lock_id → addLock t lock_id (epoch_ t) stk = Fault CheckFailed) ∧
  (¬ full t lock_id → returns (addLock t lock_id (epoch_ t) stk) (λ '(t', r),
    tls_wf t' ∧ epoch_ t' = epoch_ t ∧ held t' ≡ₚ lock_id :: held t ∧
    r = bool_decide (lock_id ∉ held t))).
Proof.
  intros Ht Hi. split; [by apply addLock_full|]. intros Hnf. apply addLock_spec; [done..|].
  unfold full in Hnf. pose proof (tls_n_rec t Ht). pose proof (tls_n_all t Ht).
  destruct (decide (lock_id ∈ held t)); lia.
Qed.

(** [removeLock] removes one occurrence of a lock the thread holds, and
    changes nothing when the thread does not hold it (the lock was taken before
    a flush). *)
Theorem removeLock_correct t lock_id : tls_wf t → 0 ≤ lock_id < kSize →
  returns (removeLock t lock_id) (λ t', tls_wf t' ∧ epoch_ t' = epoch_ t ∧
    if decide (lock_id ∈ held t) then held t ≡ₚ lock_id :: held t' else held t' = held t).
Proof. apply removeLock_spec. Qed.

End spec.
End Tls.

(** ** The detector *)
Module Detector.
Import Tls.

Record Edge := mkEdge { from : Z; to : Z; stk_from : Z; stk_to : Z; unique_tid : Z }.

Record DeadlockDetector (BV : Type) := DD {
  current_epoch_ : Z;
  available_nodes_ : BV;
  recycled_nodes_ : BV;
  tmp_bv_ : BV;
  g_ : BVGraph BV;
  data_ : list Z;
  edges_ : list Edge;
  n_edges_ : Z
}.
Arguments DD {BV}.
Arguments current_epoch_ {BV} d.
Arguments available_nodes_ {BV} d.
Arguments recycled_nodes_ {BV} d.
Arguments tmp_bv_ {BV} d.
Arguments g_ {BV} d.
Arguments data_ {BV} d.
Arguments edges_ {BV} d.
Arguments n_edges_ {BV} d.

Abbreviation kMaxAdded := (40) (only parsing).

Abbreviation dd_size := (kSize) (only parsing).

Section ops.
Context {BV : Type} `{BitVector BV}.
Implicit Types (d : DeadlockDetector BV) (dtls : DeadlockDetectorTLS BV).

Definition kMaxEdges : Z := kSize * 32.

Definition set_g d (g : BVGraph BV) : DeadlockDetector BV :=
  DD (current_epoch_ d) (available_nodes_ d) (recycled_nodes_ d) (tmp_bv_ d) g
     (data_ d) (edges_ d) (n_edges_ d).

Definition set_edges d (es : list Edge) (n : Z) : DeadlockDetector BV :=
  DD (current_epoch_ d) (available_nodes_ d) (recycled_nodes_ d) (tmp_bv_ d) (g_ d)
     (data_ d) es n.

Definition set_tmp d (tmp : BV) : DeadlockDetector BV :=
  DD (current_epoch_ d) (available_nodes_ d) (recycled_nodes_ d) tmp (g_ d)
     (data_ d) (edges_ d) (n_edges_ d).

Definition dd_clear d : result (DeadlockDetector BV) :=
  a ← clear (available_nodes_ d);
  r ← clear (recycled_nodes_ d);
  g ← graph_clear (g_ d);
  Ok (DD 0 a r (tmp_bv_ d) g (data_ d) (edges_ d) 0).

(** Node numbers: [epoch + index]. *)
Definition nodeToEpoch (node : Z) : Z := node / dd_size * dd_size.
Definition nodeToIndexUnchecked (node : Z) : Z := node mod dd_size.

Definition check_node d (node : Z) : result unit :=
  CHECK (dd_size <=? node);;
  CHECK (current_epoch_ d =? nodeToEpoch node).

Definition nodeToIndex d (node : Z) : result Z :=
  check_node d node;;
  Ok (nodeToIndexUnchecked node).

Definition check_idx (idx : Z) : result unit := CHECK (idx <? dd_size).

Definition indexToNode d (idx : Z) : result Z :=
  check_idx idx;;
  Ok (u64 (idx + current_epoch_ d)).

Definition nodeBelongsToCurrentEpoch d (node : Z) : bool :=
  negb (node =? 0) && (node / dd_size * dd_size =? current_epoch_ d).

Definition getAvailableNode d (data : Z) : result (DeadlockDetector BV * Z) :=
  '(a, idx) ← getAndClearFirstOne (available_nodes_ d);
  data' ← aset (data_ d) idx data;
  let d := DD (current_epoch_ d) a (recycled_nodes_ d) (tmp_bv_ d) (g_ d) data'
              (edges_ d) (n_edges_ d) in
  node ← indexToNode d idx;
  Ok (d, node).

(** One iteration of the loop of [newNode] that drops the recorded edges of
    recycled nodes; the state is [edges_] and [n_edges_]. *)
Definition drop_edge (recycled : BV) (i : Z) (s : list Edge * Z) : result (list Edge * Z) :=
  let '(es, n) := s in
  e ← aget es i;
  bf ← getBit recycled (from e);
  b ← (if bf : bool then Ok true else getBit recycled (to e));
  if b : bool then
    es' ← aswap es i (n - 1);
    Ok (es', n - 1)
  else Ok (es, n).

Definition recycle d : result (DeadlockDetector BV) :=
  '(es, n) ← for_down (Z.to_nat (n_edges_ d)) (drop_edge (recycled_nodes_ d))
               (edges_ d, n_edges_ d);
  e ← empty (available_nodes_ d);
  CHECK e;;
  '(g, _) ← removeEdgesTo (g_ d) (recycled_nodes_ d);
  '(a, _) ← setUnion (available_nodes_ d) (recycled_nodes_ d);
  r ← clear (recycled_nodes_ d);
  Ok (DD (current_epoch_ d) a r (tmp_bv_ d) g (data_ d) es n).

Definition flush d : result (DeadlockDetector BV) :=
  let epoch := u64 (current_epoch_ d + dd_size) in
  r ← clear (recycled_nodes_ d);
  a ← setAll (available_nodes_ d);
  g ← graph_clear (g_ d);
  Ok (DD epoch a r (tmp_bv_ d) g (data_ d) (edges_ d) 0).

Definition newNode d (data : Z) : result (DeadlockDetector BV * Z) :=
  ea ← empty (available_nodes_ d);
  if negb ea then getAvailableNode d data
  else
    er ← empty (recycled_nodes_ d);
    if negb er then d ← recycle d; getAvailableNode d data
    else d ← flush d; getAvailableNode d data.

Definition getData d (node : Z) : result Z :=
  idx ← nodeToIndex d node;
  aget (data_ d) idx.

Definition removeNode d (node : Z) : result (DeadlockDetector BV) :=
  idx ← nodeToIndex d node;
  b ← getBit (available_nodes_ d) idx;
  CHECK (negb b);;
  '(r, changed) ← setBit (recycled_nodes_ d) idx;
  CHECK changed;;
  g ← removeEdgesFrom_node (g_ d) idx;
  Ok (DD (current_epoch_ d) (available_nodes_ d) r (tmp_bv_ d) g (data_ d) (edges_ d) (n_edges_ d)).

Definition dd_ensureCurrentEpoch d dtls : result (DeadlockDetectorTLS BV) :=
  ensureCurrentEpoch dtls (current_epoch_ d).

Definition onLockBefore d dtls (cur_node : Z) :
    result (DeadlockDetector BV * DeadlockDetectorTLS BV * bool) :=
  dtls ← dd_ensureCurrentEpoch d dtls;
  cur_idx ← nodeToIndex d cur_node;
  held ← getLocks dtls (current_epoch_ d);
  '(g, r) ← isReachable (g_ d) cur_idx held;
  Ok (set_g d g, dtls, r).

Definition dd_findLockContext d dtls (node : Z) : result Z :=
  idx ← nodeToIndex d node;
  findLockContext dtls idx.

Definition onLockAfter d dtls (cur_node stk : Z) : result (DeadlockDetectorTLS BV) :=
  dtls ← dd_ensureCurrentEpoch d dtls;
  cur_idx ← nodeToIndex d cur_node;
  '(dtls, _) ← addLock dtls cur_idx (current_epoch_ d) stk;
  Ok dtls.

Definition hasAllEdges d dtls (cur_node : Z) : result bool :=
  let local_epoch := getEpoch dtls in
  if negb (cur_node =? 0) && (local_epoch =? current_epoch_ d) &&
     (local_epoch =? nodeToEpoch cur_node) then
    let cur_idx := nodeToIndexUnchecked cur_node in
    r ← find_range 0 (getNumLocks dtls) (λ i,
      l ← getLock dtls i;
      b ← hasEdge (g_ d) l cur_idx;
      Ok (if negb b then Some false else None));
    Ok (default true r)
  else Ok false.

(** One iteration of the loop of [addEdges] that records the new edges. *)
Definition record_edge dtls (added_edges : list Z) (cur_idx stk unique_tid i : Z)
    (s : list Edge * Z) : result (list Edge * Z) :=
  let '(es, n) := s in
  if n <? kMaxEdges then
    a ← aget added_edges i;
    c ← findLockContext dtls a;
    es' ← aset es n (mkEdge (u16 a) (u16 cur_idx) c stk unique_tid);
    Ok (es', n + 1)
  else Ok (es, n).

(** [added_edges] is a local array of 40 words, uninitialised ([scratch]). *)

Definition dd_addEdges d dtls (scratch : list Z) (cur_node stk unique_tid : Z) :
    result (DeadlockDetector BV * DeadlockDetectorTLS BV * Z) :=
  dtls ← dd_ensureCurrentEpoch d dtls;
  cur_idx ← nodeToIndex d cur_node;
  held ← getLocks dtls (current_epoch_ d);
  '(g, n_added, added) ← addEdges (g_ d) held cur_idx scratch kMaxAdded;
  let d := set_g d g in
  '(es, n) ← for_range 0 n_added (record_edge dtls added cur_idx stk unique_tid)
               (edges_ d, n_edges_ d);
  Ok (set_edges d es n, dtls, n_added).

(** The contexts of the first recorded edge between two nodes. *)
Definition findEdge d (from_node to_node : Z) : result (option (Z * Z * Z)) :=
  from_idx ← nodeToIndex d from_node;
  to_idx ← nodeToIndex d to_node;
  find_range 0 (n_edges_ d) (λ i,
    e ← aget (edges_ d) i;
    Ok (if (from e =? from_idx) && (to e =? to_idx)
        then Some (stk_from e, stk_to e, unique_tid e) else None)).

Definition isHeld d dtls (node : Z) : result bool :=
  held ← getLocks dtls (current_epoch_ d);
  idx ← nodeToIndex d node;
  getBit held idx.

Definition onLock d dtls (scratch : list Z) (cur_node stk : Z) :
    result (DeadlockDetector BV * DeadlockDetectorTLS BV * bool) :=
  dtls ← dd_ensureCurrentEpoch d dtls;
  h ← isHeld d dtls cur_node;
  '(d, dtls, is_reachable) ←
    (if negb h then onLockBefore d dtls cur_node else Ok (d, dtls, false));
  '(d, dtls, _) ← dd_addEdges d dtls scratch cur_node stk 0;
  dtls ← onLockAfter d dtls cur_node stk;
  Ok (d, dtls, is_reachable).

Definition onTryLock d dtls (cur_node stk : Z) : result (DeadlockDetectorTLS BV * bool) :=
  dtls ← dd_ensureCurrentEpoch d dtls;
  cur_idx ← nodeToIndex d cur_node;
  '(dtls, _) ← addLock dtls cur_idx (current_epoch_ d) stk;
  Ok (dtls, false).

Definition onFirstLock dtls (node stk : Z) : result (DeadlockDetectorTLS BV * bool) :=
  e ← tls_empty dtls;
  if negb e then Ok (dtls, false)
  else if negb (getEpoch dtls =? 0) && (getEpoch dtls =? nodeToEpoch node) then
    '(dtls, _) ← addLock dtls (nodeToIndexUnchecked node) (nodeToEpoch node) stk;
    Ok (dtls, true)
  else Ok (dtls, false).

Definition findPathToLock d dtls (cur_node : Z) (path : list Z) (path_size : Z) :
    result (DeadlockDetector BV * list Z * Z) :=
  held ← getLocks dtls (current_epoch_ d);
  tmp ← copyFrom (tmp_bv_ d) held;
  let d := set_tmp d tmp in
  idx ← nodeToIndex d cur_node;
  b ← getBit tmp idx;
  CHECK (negb b);;
  '(path, res) ← findShortestPath (g_ d) idx tmp path path_size;
  path ← for_range 0 res (λ i path,
    x ← aget path i;
    node ← indexToNode d x;
    aset path i node) path;
  (if negb (res =? 0) then x ← aget path 0; CHECK (x =? cur_node) else Ok tt);;
  Ok (d, path, res).

Definition onUnlock dtls (node : Z) : result (DeadlockDetectorTLS BV) :=
  if getEpoch dtls =? nodeToEpoch node then removeLock dtls (nodeToIndexUnchecked node)
  else Ok dtls.

Definition onLockFast d dtls (node stk : Z) : result (DeadlockDetectorTLS BV * bool) :=
  b ← hasAllEdges d dtls node;
  if b : bool then
    '(dtls, _) ← addLock dtls (nodeToIndexUnchecked node) (nodeToEpoch node) stk;
    Ok (dtls, true)
  else Ok (dtls, false).

End ops.

(** *** Cycles *)
Section cycles.
Context (E E' : Z → Z → Prop) (H : gset Z) (c : Z).
Hypothesis added : ∀ x y, E' x y ↔ E x y ∨ (x ∈ H ∧ y = c).

Lemma added_rtc x y : rtc E x y → rtc E' x y.
Proof. apply rtc_subrel. intros a b Hab. apply added. by left. Qed.

Lemma added_split x y : (∀ h, h ∈ H → ¬ rtc E c h) → tc E' x y →
  tc E x y ∨ (rtc E c y ∧ ∃ h, h ∈ H ∧ rtc E x h).
Proof.
  intros Hno. revert y. apply tc_ind_r.
  - intros z [?|[? ->]]%added; [by left; apply tc_once|]. right. split; [done|]. by exists x.
  - intros y' z _ Hyz IH. apply added in Hyz. destruct IH as [IH|[Hc (h & Hh & Hxh)]].
    + destruct Hyz as [?|[? ->]]; [left; by eapply tc_r|]. right. split; [done|].
      exists y'. split; [done|by apply tc_rtc].
    + destruct Hyz as [?|[? ->]]; [|by destruct (Hno y')]. right. split; [by eapply rtc_r|eauto].
Qed.

(** Adding the edges [h -> c] for all [h] of [H] to an acyclic relation closes
    a cycle exactly when [c] reaches some [h]. *)
Lemma added_acyclic : (∀ x, ¬ tc E x x) → (∀ h, h ∈ H → ¬ rtc E c h) → ∀ x, ¬ tc E' x x.
Proof.
  intros Hac Hno x Hx. destruct (added_split x x Hno Hx) as [?|[Hc (h & Hh & Hxh)]]; [by eapply Hac|].
  apply (Hno h); [done|]. by etrans.
Qed.

Lemma added_cycle h : h ∈ H → rtc E c h → tc E' c c.
Proof.
  intros Hh Hc. apply tc_rtc_l with h; [by apply added_rtc|]. apply tc_once, added. by right.
Qed.
End cycles.

(** *** The invariant *)
Section spec.
Context {BV : Type} `{BitVectorSpec BV} {Hsmall : SmallVector BV}.
Implicit Types (d : DeadlockDetector BV) (t : DeadlockDetectorTLS BV).

(** The recorded edges. *)
Definition records d : list Edge := take (Z.to_nat (n_edges_ d)) (edges_ d).

(** An index whose node has been handed out and not been removed. *)
Definition live d (i : Z) : Prop :=
  0 ≤ i < kSize ∧ i ∉ bits (available_nodes_ d) ∧ i ∉ bits (recycled_nodes_ d).

Definition touches (s : gset Z) (e : Edge) : Prop := from e ∈ s ∨ to e ∈ s.

#[local] Instance touches_dec s e : Decision (touches s e).
Proof. unfold touches. apply _. Defined.

Definition edge_ok d (e : Edge) : Prop :=
  0 ≤ from e < kSize ∧ 0 ≤ to e < kSize ∧
  (from e ∈ bits (recycled_nodes_ d) ∨ edge (g_ d) (from e) (to e)).

Definition dd_raw d : Prop :=
  bv_raw (available_nodes_ d) ∧ bv_raw (recycled_nodes_ d) ∧ bv_raw (tmp_bv_ d) ∧
  graph_raw (g_ d) ∧ Z.of_nat (length (data_ d)) = kSize ∧
  Z.of_nat (length (edges_ d)) = kMaxEdges (BV:=BV).

Record dd_wf d : Prop := {
  dd_avail : bv_wf (available_nodes_ d);
  dd_recycled : bv_wf (recycled_nodes_ d);
  dd_tmp : bv_raw (tmp_bv_ d);
  dd_graph : graph_wf (g_ d);
  dd_data : Z.of_nat (length (data_ d)) = kSize;
  dd_edges : Z.of_nat (length (edges_ d)) = kMaxEdges (BV:=BV);
  dd_n_edges : 0 ≤ n_edges_ d ≤ kMaxEdges (BV:=BV);
  dd_epoch : 0 ≤ current_epoch_ d ∧ current_epoch_ d + kSize ≤ 2 ^ 64 ∧
    current_epoch_ d mod kSize = 0;
  (* before the first [newNode] nothing is available *)
  dd_started i : i ∈ bits (available_nodes_ d) ∨ i ∈ bits (recycled_nodes_ d) →
    current_epoch_ d ≠ 0;
  dd_disjoint i : i ∈ bits (available_nodes_ d) → i ∉ bits (recycled_nodes_ d);
  (* no edge leaves a vacant node, none enters an available one *)
  dd_clean i j : edge (g_ d) i j → live d i ∧ j ∉ bits (available_nodes_ d);
  dd_records e : e ∈ records d → edge_ok d e
}.

Lemma dd_clear_spec d : dd_raw d →
  returns (dd_clear d) (λ d', dd_wf d' ∧ current_epoch_ d' = 0 ∧ ∀ i j, ¬ edge (g_ d') i j).
Proof.
  intros (Ha & Hr & Ht & Hg & Hd & He). unfold dd_clear. pose proof kSize_pos.
  pose proof small_vector.
  rbind (by apply clear_spec). intros a [Ha' Ea]. rbind (by apply clear_spec). intros r [Hr' Er].
  rbind (by apply graph_clear_spec). intros g [Hg' Eg]. split; [|done].
  split; try done; simpl; unfold kMaxEdges; try lia.
  - split; [lia|]. split; [lia|done].
  - rewrite Ea, Er. set_solver +.
  - rewrite Ea. set_solver +.
  - intros i j Hij. by destruct (Eg i j).
  - intros e. set_solver +.
Qed.

(** *** Node numbers *)

Lemma epoch_node d i : dd_wf d → 0 ≤ i < kSize → current_epoch_ d ≠ 0 →
  nodeToEpoch (BV:=BV) (i + current_epoch_ d) = current_epoch_ d ∧
  nodeToIndexUnchecked (BV:=BV) (i + current_epoch_ d) = i ∧ kSize ≤ i + current_epoch_ d.
Proof.
  intros Hd Hi He. destruct (dd_epoch d Hd) as (Hr & Hov & Hm). pose proof kSize_pos.
  unfold nodeToEpoch, nodeToIndexUnchecked.
  assert (current_epoch_ d = kSize * (current_epoch_ d / kSize)) as E
    by (apply Z_div_exact_full_2; lia).
  set (q := current_epoch_ d / kSize) in *. rewrite E.
  replace (i + kSize * q) with (q * kSize + i) by lia.
  rewrite Z.div_add_l, Z.div_small, (Z.add_comm (q * kSize)), Z.mod_add, Z.mod_small by lia.
  split_and!; [lia..|]. assert (0 < q) by nia. nia.
Qed.

(** [node] is the number of index [i] in the current epoch. *)
Definition is_node d (node i : Z) : Prop :=
  0 ≤ i < kSize ∧ current_epoch_ d ≠ 0 ∧ node = i + current_epoch_ d.

Lemma nodeToIndex_spec d node i : dd_wf d → is_node d node i → nodeToIndex d node = Ok i.
Proof.
  intros Hd (Hi & He & ->). destruct (epoch_node d i Hd Hi He) as (E1 & E2 & Hle).
  unfold nodeToIndex, check_node. rewrite E1, E2, Z.eqb_refl.
  by rewrite (proj2 (Z.leb_le _ _)) by done.
Qed.

Lemma is_node_inj d n i j : is_node d n i → is_node d n j → i = j.
Proof. intros (_ & _ & ->) (_ & _ & ?). lia. Qed.

(** *** Allocating nodes *)

Lemma drop_edges_spec (r : BV) es n : bv_wf r → 0 ≤ n ≤ Z.of_nat (length es) →
  (∀ e, e ∈ take (Z.to_nat n) es → 0 ≤ from e < kSize ∧ 0 ≤ to e < kSize) →
  returns (for_down (Z.to_nat n) (drop_edge r) (es, n)) (λ '(es', n'),
    length es' = length es ∧ 0 ≤ n' ≤ n ∧
    take (Z.to_nat n') es' ≡ₚ filter (λ e, ¬ touches (bits r) e) (take (Z.to_nat n) es)).
Proof.
  intros Hr Hn Hok. set (N := Z.to_nat n) in *.
  eapply returns_mono.
  - apply (returns_for_down (λ m '(es', n'), length es' = length es ∧ Z.of_nat m ≤ n' ≤ n ∧
      (∀ j, (j < m)%nat → es' !! j = es !! j) ∧
      take (Z.to_nat n') es' ≡ₚ
        take m es ++ filter (λ e, ¬ touches (bits r) e) (drop m (take N es)))).
    { split; [done|]. split; [lia|]. split; [done|]. rewrite drop_ge by (rewrite length_take; lia).
      by rewrite filter_nil, app_nil_r. }
    intros i [es' n'] Hi (El & Hn' & Hpre & HP). unfold drop_edge.
    destruct (lookup_lt_is_Some_2 es i) as [e He]; [lia|].
    assert (take N es !! i = Some e) as HeN by (rewrite lookup_take_lt; [done|lia]).
    destruct (Hok e) as [Hf Ht]; [by eapply list_elem_of_lookup_2|].
    rewrite (aget_lookup _ _ e) by (rewrite Hpre; [done|lia]). cbn [mbind result_bind].
    rewrite (take_S_r _ _ _ He) in HP. rewrite (drop_S _ _ _ HeN), filter_cons.
    rbind (by apply getBit_spec). intros bf ->.
    eapply returns_bind with (P := λ b, b = bool_decide (touches (bits r) e)).
    { case_bool_decide; [symmetry; apply bool_decide_eq_true; by left|].
      eapply returns_mono; [by apply getBit_spec|]. intros b ->. apply bool_decide_ext. unfold touches. tauto. }
    intros b ->. case_bool_decide as Hto.
    + replace (n' - 1) with (Z.of_nat (pred (Z.to_nat n'))) by lia.
      eapply returns_bind; [apply (aswap_last _ _ _ e (λ l', length l' = length es ∧
        (∀ j, (j < i)%nat → l' !! j = es !! j) ∧
        take (Z.to_nat n') es' ≡ₚ e :: take (pred (Z.to_nat n')) l')); [lia|rewrite Hpre; [done|lia]|]|].
      { intros l' El' HP' Heq _ _. split; [congruence|]. split.
        - intros j Hj. rewrite Heq by lia. apply Hpre. lia.
        - by replace (S (pred (Z.to_nat n'))) with (Z.to_nat n') in HP' by lia. }
      intros l' (El' & Hpre' & HP'). simpl. rewrite Nat2Z.id. split; [done|]. split; [lia|]. split; [done|].
      rewrite decide_False by tauto. rewrite HP' in HP. apply Permutation_cons_inv with e.
      rewrite HP. solve_Permutation.
    + simpl. split; [done|]. split; [lia|]. split; [intros; apply Hpre; lia|].
      rewrite decide_True by done. rewrite HP. solve_Permutation.
  - intros [es' n'] (El & Hn' & _ & HP). simpl in HP. split; [done|]. split; [lia|done].
Qed.

(** What [recycle] and [flush] make available. *)
Lemma recycle_spec d : dd_wf d → bits (available_nodes_ d) = ∅ → bits (recycled_nodes_ d) ≠ ∅ →
  returns (recycle d) (λ d', dd_wf d' ∧ bits (available_nodes_ d') ≠ ∅ ∧
    current_epoch_ d' = current_epoch_ d ∧ data_ d' = data_ d ∧
    (∀ i, live d' i ↔ live d i) ∧
    (∀ i j, edge (g_ d') i j ↔ edge (g_ d) i j ∧ j ∉ bits (recycled_nodes_ d))).
Proof.
  intros Hd Ea Hr. pose proof Hd as [Hwa Hwr Ht Hg Hdt Hel Hne Hep Hst Hdis Hcl Hrec]. unfold recycle.
  rbind (apply drop_edges_spec; [done|lia|intros e He; by apply Hrec in He as (? & ? & _)]).
  intros [es n] (El & Hn & HP).
  rbind (by apply empty_spec). intros e ->. rstep_check; [by apply bool_decide_eq_true_2|].
  rbind (by apply removeEdgesTo_spec). intros [g ?] (Hg' & Eg & _).
  rbind (by apply setUnion_spec). intros [a ?] (Hwa' & Ea' & _).
  rbind (by apply clear_spec, bv_wf_raw). intros r [Hwr' Er].
  assert (bits a = bits (recycled_nodes_ d)) as Ea'' by (rewrite Ea', Ea; set_solver +).
  set (d' := DD _ _ _ _ _ _ _ _).
  assert (∀ i, live d' i ↔ live d i) as Hlive.
  { intros i. unfold live, d'. simpl. rewrite Ea'', Er, Ea. set_solver +. }
  split; [|split; [by unfold d'; simpl; rewrite Ea''|done]].
  split; try done; simpl; try lia.
  - intros i [Hi|Hi]; [apply (Hst i); right; by rewrite <- Ea''|set_solver + Hi Er].
  - rewrite Er. set_solver +.
  - intros i j [Hij Hj]%Eg. rewrite Hlive, Ea''. split; [|done]. by apply (Hcl i j).
  - intros x. unfold records, d'. simpl. rewrite HP, list_elem_of_filter. intros [Hnt Hx].
    apply Hrec in Hx as (? & ? & [Hx|Hx]); [by destruct Hnt; left|].
    split; [done|]. split; [done|]. right. simpl. apply Eg. split; [done|]. intros ?. apply Hnt. by right.
Qed.

Lemma flush_spec d : dd_wf d → current_epoch_ d + 2 * kSize ≤ 2 ^ 64 →
  returns (flush d) (λ d', dd_wf d' ∧ bits (available_nodes_ d') = indices kSize ∧
    current_epoch_ d' = current_epoch_ d + kSize ∧ ∀ i j, ¬ edge (g_ d') i j).
Proof.
  intros [Hwa Hwr Ht Hg Hdt Hel Hne (Hep & _ & Hm) Hst Hdis Hcl Hrec] Hov. unfold flush. pose proof kSize_pos.
  rewrite (cast_id 64) by (lia). 
  rbind (by apply clear_spec, bv_wf_raw). intros r [Hwr' Er].
  rbind (by apply setAll_spec, bv_wf_raw). intros a [Hwa' Ea].
  rbind (by apply graph_clear_spec, graph_wf_raw). intros g [Hg' Eg]. split; [|done].
  split; try done; simpl; unfold kMaxEdges; try lia.
  - split; [lia|]. split; [lia|]. rewrite <- Z.add_mod_idemp_l, Hm by lia. apply Z.mod_same. lia.
  - rewrite Er. set_solver +.
  - intros i j Hij. by destruct (Eg i j).
  - intros e. set_solver +.
Qed.

(** [node] is new in [d']: it carries [data] and no edge. *)
Definition fresh d (node i data : Z) : Prop :=
  is_node d node i ∧ live d i ∧ data_ d !! Z.to_nat i = Some data ∧
  ∀ j, ¬ edge (g_ d) i j ∧ ¬ edge (g_ d) j i.

(** The nodes of [d] survive in [d'], and [i] joins them. *)
Definition extends d d' (i : Z) : Prop :=
  ¬ live d i ∧ (∀ j, live d' j ↔ live d j ∨ j = i) ∧
  (∀ x y, live d x → live d y → edge (g_ d') x y ↔ edge (g_ d) x y) ∧
  (∀ j, live d j → data_ d' !! Z.to_nat j = data_ d !! Z.to_nat j).

Lemma getAvailableNode_spec d data : dd_wf d → bits (available_nodes_ d) ≠ ∅ →
  returns (getAvailableNode d data) (λ '(d', node), dd_wf d' ∧
    current_epoch_ d' = current_epoch_ d ∧ g_ d' = g_ d ∧
    ∃ i, first_one i (bits (available_nodes_ d)) ∧ fresh d' node i data ∧ extends d d' i).
Proof.
  intros Hd Ha. pose proof Hd as [Hwa Hwr Ht Hg Hdt Hel Hne Hep Hst Hdis Hcl Hrec].
  unfold getAvailableNode. rbind (by apply getAndClearFirstOne_spec). intros [a i] (Hwa' & Hi & Ea).
  pose proof Hi as [Hin _]. assert (0 ≤ i < kSize) as Hik by (by eapply elem_of_indices, bits_subset).
  rewrite aset_Ok by lia. cbn [mbind result_bind]. set (d' := DD _ _ _ _ _ _ _ _).
  assert (∀ j, live d' j ↔ live d j ∨ j = i) as Hlive.
  { intros j. unfold live, d'. simpl. rewrite Ea, not_elem_of_difference, elem_of_singleton.
    destruct (decide (j = i)) as [->|]; [|tauto]. specialize (Hdis i Hin). tauto. }
  unfold indexToNode, check_idx. rewrite (proj2 (Z.ltb_lt i _)) by (lia).
  cbn [CHECK mbind result_bind returns]. rewrite (cast_id 64) by (unfold d'; simpl; lia).
  assert (¬ live d i) as Hni by (unfold live; tauto).
  split; [|split; [done|]; split; [done|]; exists i; split; [done|]; split].
  - split; try done; simpl; rewrite ?length_insert; try done.
    + intros j [Hj|Hj]; apply (Hst j); [left|by right]. rewrite Ea in Hj. set_solver + Hj.
    + intros j. rewrite Ea. intros [Hj _]%elem_of_difference. by apply Hdis.
    + intros x y [Hx Hy]%Hcl. split; [apply Hlive; by left|]. rewrite Ea. set_solver + Hy.
  - split; [split; [done|]; split; [apply (Hst i); by left|done]|].
    split; [apply Hlive; by right|]. split; [apply list_lookup_insert_eq; lia|].
    intros j. unfold d'. simpl. split; intros Hij%Hcl; tauto.
  - split; [done|]. split; [done|]. split; [done|]. intros j Hj. simpl.
    apply list_lookup_insert_ne. intros E. apply Hni. destruct Hj as (? & ?).
    by replace i with j by lia.
Qed.

(** [newNode] hands out an isolated node: either next to the live nodes, whose
    edges it keeps, or, when all nodes are live, alone in a new epoch. *)
Lemma newNode_spec d data : dd_wf d → current_epoch_ d + 2 * kSize ≤ 2 ^ 64 →
  returns (newNode d data) (λ '(d', node), dd_wf d' ∧ ∃ i, fresh d' node i data ∧
    ((current_epoch_ d' = current_epoch_ d ∧ extends d d' i) ∨
     (current_epoch_ d' = current_epoch_ d + kSize ∧ (∀ j, 0 ≤ j < kSize → live d j) ∧
      (∀ j, live d' j ↔ j = i) ∧ ∀ x y, ¬ edge (g_ d') x y))).
Proof.
  intros Hd Hov. pose proof Hd as [Hwa Hwr Ht Hg Hdt Hel Hne Hep Hst Hdis Hcl Hrec].
  unfold newNode. rbind (by apply empty_spec). intros ea ->. case_bool_decide as Ea; cbn [negb].
  - rbind (by apply empty_spec). intros er ->. case_bool_decide as Er; cbn [negb].
    + rbind (by apply flush_spec). intros d1 (Hd1 & Ea1 & Ee1 & Eg1).
      assert (bits (available_nodes_ d1) ≠ ∅) as Hne1.
      { apply (elem_nonempty 0). rewrite Ea1, elem_of_indices. pose proof kSize_pos. lia. }
      eapply returns_mono; [by apply getAvailableNode_spec|].
      intros [d' node] (Hd' & Ee & Egr & i & _ & Hf & (Hni & Hlv & _)). split; [done|]. exists i. split; [done|].
      right. split; [congruence|]. split; [|split].
      * intros j Hj. unfold live. rewrite Ea, Er. set_solver + Hj.
      * intros j. rewrite Hlv. unfold live at 1. rewrite Ea1, elem_of_indices. tauto.
      * by rewrite Egr.
    + rbind (by apply recycle_spec). intros d1 (Hd1 & Hne1 & Ee1 & Edt & Hlv1 & Eg1).
      eapply returns_mono; [by apply getAvailableNode_spec|].
      intros [d' node] (Hd' & Ee & Egr & i & _ & Hf & (Hni & Hlv & Heg & Hdata)). split; [done|].
      exists i. split; [done|]. left. split; [congruence|]. split; [by rewrite <- Hlv1|].
      split; [intros j; by rewrite Hlv, Hlv1|]. split.
      * intros x y Hx Hy. rewrite Egr, Eg1. destruct Hy as (_ & _ & ?). tauto.
      * intros j Hj. rewrite Hdata by (by apply Hlv1). by rewrite Edt.
  - eapply returns_mono; [by apply getAvailableNode_spec|].
    intros [d' node] (Hd' & Ee & Egr & i & _ & Hf & Hext). split; [done|]. exists i. split; [done|]. by left.
Qed.

Lemma removeNode_spec d node i : dd_wf d → is_node d node i → live d i →
  returns (removeNode d node) (λ d', dd_wf d' ∧ current_epoch_ d' = current_epoch_ d ∧
    data_ d' = data_ d ∧ (∀ j, live d' j ↔ live d j ∧ j ≠ i) ∧
    (∀ x y, edge (g_ d') x y ↔ edge (g_ d) x y ∧ x ≠ i)).
Proof.
  intros Hd Hn (Hi & Hia & Hir). pose proof Hd as [Hwa Hwr Ht Hg Hdt Hel Hne Hep Hst Hdis Hcl Hrec].
  unfold removeNode. rewrite (nodeToIndex_spec d node i) by done. cbn [mbind result_bind].
  rbind (by apply getBit_spec). intros b ->. rstep_check; [by rewrite bool_decide_eq_false_2|].
  rbind (by apply setBit_spec). intros [r c] (Hwr' & Er & ->).
  rstep_check; [by apply bool_decide_eq_true_2|].
  rbind (by apply removeEdgesFrom_node_spec). intros g (Hg' & Eg). set (d' := DD _ _ _ _ _ _ _ _).
  assert (∀ j, live d' j ↔ live d j ∧ j ≠ i) as Hlive.
  { intros j. unfold live, d'. simpl. rewrite Er. set_solver +. }
  split; [|split; [done|]; split; [done|]; split; done].
  split; try done; simpl.
  - intros j Hj. rewrite Er in Hj. destruct (decide (j = i)) as [->|]; [apply Hn|].
    apply (Hst j). set_solver.
  - intros j Hj. rewrite Er. apply not_elem_of_union. split; [|by apply Hdis].
    rewrite elem_of_singleton. by intros ->.
  - intros x y [Hxy Hx]%Eg. apply Hcl in Hxy as [? ?]. by rewrite Hlive.
  - intros e (? & ? & He)%Hrec. split; [done|]. split; [done|]. simpl. rewrite Er, Eg.
    destruct (decide (from e = i)) as [->|]; [left; set_solver +|].
    destruct He as [?|?]; [left; set_solver|right; done].
Qed.

(** *** Lock events *)

Lemma ensure_spec d t : tls_wf t →
  returns (dd_ensureCurrentEpoch d t) (λ t', tls_wf t' ∧ epoch_ t' = current_epoch_ d ∧
    if decide (epoch_ t = current_epoch_ d) then t' = t else held t' = []).
Proof. intros Ht. by apply ensureCurrentEpoch_spec. Qed.

Lemma getLocks_ok t e : epoch_ t = e → getLocks t e = Ok (bv_ t).
Proof. intros <-. unfold getLocks. by rewrite Z.eqb_refl. Qed.

(** The detector's graph, apart from the temporaries of its bit vectors. *)
Lemma dd_wf_set_g d g : dd_wf d → graph_wf g → v g = v (g_ d) → dd_wf (set_g d g).
Proof.
  intros [Hwa Hwr Ht Hg Hdt Hel Hne Hep Hst Hdis Hcl Hrec] Hg' Ev.
  assert (∀ i j, edge g i j ↔ edge (g_ d) i j) as E by (intros; unfold edge, succ; by rewrite Ev).
  split; try done; simpl.
  - intros i j Hij%E. by apply Hcl.
  - intros e (? & ? & ?)%Hrec. split; [done|]. split; [done|]. simpl. by rewrite E.
Qed.

(** [t'] is the thread's state in the current epoch: the locks it holds, or
    nothing when it was last used in another epoch. *)
Definition current d t t' : Prop :=
  tls_wf t' ∧ epoch_ t' = current_epoch_ d ∧
  if decide (epoch_ t = current_epoch_ d) then t' = t else held t' = [].

Lemma onLockBefore_spec d t node i : dd_wf d → tls_wf t → is_node d node i →
  returns (onLockBefore d t node) (λ '(d', t', r), dd_wf d' ∧ current d t t' ∧
    (∃ g', d' = set_g d g' ∧ v g' = v (g_ d)) ∧
    (r = true ↔ ∃ h, h ∈ held t' ∧ rtc (edge (g_ d)) i h)).
Proof.
  intros Hd Ht Hn. unfold onLockBefore. rbind (by apply ensure_spec). intros t' Hcur.
  pose proof Hcur as (Ht' & Ee & _). rewrite (nodeToIndex_spec d node i) by done. cbn [mbind result_bind].
  rewrite getLocks_ok by done. cbn [mbind result_bind].
  rbind (apply isReachable_spec; [apply Hd|apply Hn|apply Ht']). intros [g' r] (Hg' & Ev & Hr).
  split; [by apply dd_wf_set_g|]. split; [done|]. split; [eauto|]. rewrite Hr.
  split; intros (h & Hh & ?); exists h; (split; [|done]); by apply elem_of_held.
Qed.

Lemma isHeld_spec d t node i : dd_wf d → tls_wf t → is_node d node i →
  epoch_ t = current_epoch_ d →
  returns (isHeld d t node) (λ r, r = bool_decide (i ∈ held t)).
Proof.
  intros Hd Ht Hn Ee. unfold isHeld. rewrite getLocks_ok by done. cbn [mbind result_bind].
  rewrite (nodeToIndex_spec d node i) by done. cbn [mbind result_bind].
  eapply returns_mono; [apply getBit_spec; [apply Ht|apply Hn]|].
  intros r ->. apply bool_decide_ext. by rewrite elem_of_held.
Qed.

Lemma u16_index i : 0 ≤ i < kSize → u16 i = i.
Proof. intros Hi. pose proof small_vector. apply cast_id. lia. Qed.

(** The edges [addEdges] records for the sources [L] of new edges. *)
Definition edge_for t (cur_idx stk tid : Z) (a : Z) (e : Edge) : Prop :=
  from e = a ∧ to e = cur_idx ∧ LWC a (stk_from e) ∈ contexts t ∧ stk_to e = stk ∧ unique_tid e = tid.

Lemma record_edges_spec t i stk tid added L n es n0 : tls_wf t → 0 ≤ i < kSize →
  (∀ a, a ∈ L → a ∈ held t) → take (Z.to_nat n) added = take (Z.to_nat n) L →
  0 ≤ n ≤ Z.of_nat (length L) → 0 ≤ n0 ≤ kMaxEdges (BV:=BV) →
  Z.of_nat (length es) = kMaxEdges (BV:=BV) →
  returns (for_range 0 n (record_edge (BV:=BV) t added i stk tid) (es, n0)) (λ '(es', n'),
    length es' = length es ∧ n' = Z.min (kMaxEdges (BV:=BV)) (n0 + n) ∧
    ∃ new, take (Z.to_nat n') es' = take (Z.to_nat n0) es ++ new ∧
      Forall2 (edge_for t i stk tid) (take (Z.to_nat (n' - n0)) L) new).
Proof.
  intros Ht Hi HL Hadd Hn Hn0 Hes.
  apply (returns_for_range (λ m '(es', n'), length es' = length es ∧
    n' = Z.min (kMaxEdges (BV:=BV)) (n0 + m) ∧
    ∃ new, take (Z.to_nat n') es' = take (Z.to_nat n0) es ++ new ∧
      Forall2 (edge_for t i stk tid) (take (Z.to_nat (n' - n0)) L) new)); [lia| |].
  { split; [done|]. split; [lia|]. exists []. rewrite app_nil_r, Z.sub_diag. done. }
  intros m [es' n'] Hm (El & En & new & Enew & Hnew). unfold record_edge.
  destruct (Z.ltb_spec n' (kMaxEdges (BV:=BV))) as [Hlt|Hge].
  - destruct (lookup_lt_is_Some_2 L (Z.to_nat m)) as [a Ha]; [lia|].
    assert (added !! Z.to_nat m = Some a) as Ha'.
    { rewrite <- (lookup_take_lt added (Z.to_nat n)), Hadd, lookup_take_lt by lia. done. }
    rewrite (proj2 (aget_Ok _ _ a)) by (split; [lia|done]). cbn [mbind result_bind].
    assert (a ∈ held t) as Hh by (apply HL; by eapply list_elem_of_lookup_2).
    pose proof (held_index t a Ht Hh) as Hak.
    rbind (by apply findLockContext_spec). intros c Hc. rewrite decide_True in Hc by done.
    rewrite aset_Ok by lia. cbn [mbind result_bind]. rewrite !u16_index by done.
    split; [by rewrite length_insert|]. split; [lia|]. exists (new ++ [mkEdge a i c stk tid]).
    rewrite take_push, Enew, app_assoc by lia. split; [done|].
    replace (Z.to_nat (n' + 1 - n0)) with (S (Z.to_nat m)) by lia.
    replace (Z.to_nat (n' - n0)) with (Z.to_nat m) in Hnew by lia.
    rewrite (take_S_r _ _ a) by done. apply Forall2_app; [done|]. by repeat constructor.
  - split; [done|]. split; [lia|]. eauto.
Qed.

(** The locks the thread holds in the current epoch are live. *)
Definition holds_live d t : Prop :=
  epoch_ t = current_epoch_ d → ∀ h, h ∈ held t → live d h.

Lemma current_live d t t' h : current d t t' → holds_live d t → h ∈ held t' → live d h.
Proof.
  intros (_ & _ & Hc) Hl Hh. destruct (decide _) as [E|E]; [subst t'; by apply Hl|].
  rewrite Hc in Hh. by apply not_elem_of_nil in Hh.
Qed.

Lemma forall2_edge_for t i stk tid L new e :
  Forall2 (edge_for t i stk tid) L new → e ∈ new → from e ∈ L ∧ to e = i.
Proof.
  intros HF He. apply list_elem_of_lookup in He as [k Hk].
  destruct (Forall2_lookup_r _ _ _ _ _ HF Hk) as (a & Ha & (<- & <- & _)).
  split; [by eapply list_elem_of_lookup_2|done].
Qed.

Lemma dd_wf_add d g i es n (hs : gset Z) new : dd_wf d → graph_wf g → live d i →
  (∀ h, h ∈ hs → live d h) →
  (∀ x y, edge g x y ↔ edge (g_ d) x y ∨ (x ∈ hs ∧ y = i)) →
  length es = length (edges_ d) → 0 ≤ n ≤ kMaxEdges (BV:=BV) →
  take (Z.to_nat n) es = records d ++ new →
  (∀ e, e ∈ new → from e ∈ hs ∧ to e = i) →
  dd_wf (set_edges (set_g d g) es n).
Proof.
  intros [Hwa Hwr Ht Hg Hdt Hel Hne Hep Hst Hdis Hcl Hrec] Hg' Hi Hhs E El Hn Er Hnew.
  split; try done; simpl.
  - by rewrite El.
  - intros x y [Hxy|[Hx ->]]%E; [by apply Hcl in Hxy|]. split; [by apply Hhs|]. apply Hi.
  - intros e. unfold records at 1. simpl. rewrite Er, elem_of_app. intros [(? & ? & He)%Hrec|He].
    + split; [done|]. split; [done|]. simpl. rewrite E. tauto.
    + apply Hnew in He as [Hf Eto]. unfold edge_ok. simpl. rewrite Eto.
      split; [apply Hhs, Hf|]. split; [apply Hi|]. right. apply E. by right.
Qed.

Lemma dd_addEdges_spec d t scratch node i stk tid : dd_wf d → tls_wf t → is_node d node i →
  live d i → holds_live d t → Z.of_nat (length scratch) = kMaxAdded →
  returns (dd_addEdges d t scratch node stk tid) (λ '(d', t', n), dd_wf d' ∧ current d t t' ∧
    current_epoch_ d' = current_epoch_ d ∧ (∀ j, live d' j ↔ live d j) ∧ data_ d' = data_ d ∧
    (∀ x y, edge (g_ d') x y ↔ edge (g_ d) x y ∨ (x ∈ held t' ∧ y = i)) ∧
    ∃ L new, new_sources (g_ d) (list_to_set (held t')) i L ∧
      n = Z.min kMaxAdded (Z.of_nat (length L)) ∧ records d' = records d ++ new ∧
      Forall2 (edge_for t' i stk tid) (take (Z.to_nat (n_edges_ d' - n_edges_ d)) L) new ∧
      n_edges_ d' = Z.min (kMaxEdges (BV:=BV)) (n_edges_ d + n)).
Proof.
  intros Hd Ht Hn Hi Hl Hs. unfold dd_addEdges. rbind (by apply ensure_spec). intros t' Hcur.
  pose proof Hcur as (Ht' & Ee & _). rewrite (nodeToIndex_spec d node i) by done. cbn [mbind result_bind].
  rewrite getLocks_ok by done. cbn [mbind result_bind].
  rbind (apply (addEdges_spec (g_ d) (bv_ t') i scratch kMaxAdded);
    [apply Hd|apply Ht'|apply Hi|rewrite Hs; lia]).
  intros [[g n] added] (Hg & Eg & L & HL & [-> Eadd]).
  set (n := Z.min _ _) in *. assert (0 ≤ n ≤ Z.of_nat (length L)) as Hnb by (unfold n; lia).
  assert (∀ a, a ∈ L → a ∈ held t') as HLh by (intros a [Ha _]%HL; by apply elem_of_held).
  pose proof (dd_n_edges d Hd) as Hne. pose proof (dd_edges d Hd) as Hel.
  eapply returns_bind; [apply (record_edges_spec t' i stk tid added L n); try done; simpl; try done|].
  - apply Hi.
  - rewrite Eadd, take_app_le by (rewrite length_take; lia). by rewrite take_take, Nat.min_id.
  - intros [es n'] (El & En' & new & Enew & Hnew). simpl in *.
    assert (∀ x, x ∈ bits (bv_ t') ↔ x ∈ held t') as Hh by (intros; by rewrite elem_of_held).
    split; [|split; [done|]; split; [done|]; split; [done|]; split; [done|]; split].
    + apply (dd_wf_add d g i es n' (bits (bv_ t')) new); try done; [|lia|].
      * intros h Hx%Hh. by eapply current_live.
      * intros e He. destruct (forall2_edge_for _ _ _ _ _ _ _ Hnew He) as [Hx Eto]. split; [|done].
        apply Hh, HLh. by eapply subseteq_take in Hx.
    + intros x y. simpl. by rewrite Eg, Hh.
    + exists L, new. split; [|done]. destruct HL as [Hsrt HL]. split; [done|].
      intros x. by rewrite HL, Hh, elem_of_list_to_set.
Qed.

(** The node numbers of the thread's epoch. *)
Lemma node_decompose d node : dd_wf d → 0 < node → nodeToEpoch (BV:=BV) node = current_epoch_ d →
  current_epoch_ d ≠ 0 → is_node d node (nodeToIndexUnchecked (BV:=BV) node).
Proof.
  intros Hd Hn E He. unfold nodeToEpoch in E. pose proof kSize_pos as Hk.
  unfold is_node, nodeToIndexUnchecked.
  split; [by apply Z.mod_pos_bound|]. split; [done|].
  rewrite <- E. rewrite (Z.div_mod node kSize) at 1; lia.
Qed.

(** [hasAllEdges]: the graph already has the edges [addEdges] would add. *)
Lemma hasAllEdges_spec d t node i : dd_wf d → tls_wf t → is_node d node i →
  returns (hasAllEdges d t node) (λ r, r = true ↔
    epoch_ t = current_epoch_ d ∧ ∀ h, h ∈ held t → edge (g_ d) h i).
Proof.
  intros Hd Ht Hn. pose proof Hn as (Hi & He & En).
  destruct (epoch_node d i Hd Hi He) as (Ne & Ni & Hle). rewrite <- En in *. unfold hasAllEdges.
  pose proof kSize_pos as Hk. rewrite (proj2 (Z.eqb_neq node 0)), Ne, Ni by lia. cbn [negb andb].
  destruct (Z.eqb_spec (epoch_ t) (current_epoch_ d)) as [E|E]; cbn [andb]; [|simpl; naive_solver].
  pose proof (tls_n_all t Ht) as Hna. pose proof (tls_length_all t Ht) as Hla. eapply returns_bind.
  - apply (returns_find_range (λ m, ∀ k l, (k < Z.to_nat m)%nat → contexts t !! k = Some l → edge (g_ d) (lock l) i)
      (λ r, match r with Some x => x = false ∧ ∃ h, h ∈ held t ∧ ¬ edge (g_ d) h i
                       | None => ∀ h, h ∈ held t → edge (g_ d) h i end)); [lia|lia| |].
    + intros j Hj Hdone. unfold getLock.
      destruct (lookup_lt_is_Some_2 (all_locks_with_contexts_ t) (Z.to_nat j)) as [l Hl]; [lia|].
      rewrite (proj2 (aget_Ok _ _ l)) by (split; [lia|done]). cbn [mbind result_bind].
      assert (contexts t !! Z.to_nat j = Some l) as Hc by (apply lookup_take_Some; split; [done|lia]).
      assert (lock l ∈ held t) as Hh.
      { apply elem_of_app. left. apply list_elem_of_fmap. exists l. split; [done|]. by eapply list_elem_of_lookup_2. }
      rbind (apply hasEdge_spec; [apply Hd|by eapply held_index|done]). intros [] Hb; cbn [negb returns].
      * intros k l2 Hk' Hl2. destruct (decide (k = Z.to_nat j)) as [->|].
        -- replace l2 with l by congruence. by apply Hb.
        -- apply (Hdone k); [lia|done].
      * split; [done|]. exists (lock l). split; [done|]. intros ?%Hb. done.
    + intros Hall h Hh. apply elem_of_held, tls_locks, list_elem_of_fmap in Hh as (l & -> & Hl); [|done..].
      apply list_elem_of_lookup in Hl as [k Hk']. apply (Hall k l); [|done].
      apply lookup_lt_Some in Hk'. unfold contexts in Hk'. rewrite length_take in Hk'. lia.
  - intros [x|] Hr; simpl; [|tauto]. destruct Hr as [-> (h & Hh & Hno)]. naive_solver.
Qed.

Lemma nodes_of_path d l path : dd_wf d → current_epoch_ d ≠ 0 → (∀ x, x ∈ l → 0 ≤ x < kSize) →
  holds path 0 l →
  returns (for_range 0 (Z.of_nat (length l)) (λ i path,
      x ← aget path i; node ← indexToNode d x; aset path i node) path)
    (λ path', length path' = length path ∧ holds path' 0 ((λ x, x + current_epoch_ d) <$> l)).
Proof.
  intros Hd He Hl Hh. unfold holds in *. rewrite drop_0 in Hh.
  destruct (dd_epoch d Hd) as (Hep & Hov & _).
  assert (length l ≤ length path)%nat as Hlen by (rewrite <- Hh, length_take; lia).
  eapply returns_mono.
  - apply (returns_for_range (λ m p, length p = length path ∧
      p = ((λ x, x + current_epoch_ d) <$> take (Z.to_nat m) l) ++ drop (Z.to_nat m) path)); [lia|done|].
    intros m p Hm (El & Ep). destruct (lookup_lt_is_Some_2 l (Z.to_nat m)) as [x Hx]; [lia|].
    assert (path !! Z.to_nat m = Some x) as Hpx by (rewrite <- Hh, lookup_take_Some in Hx; tauto).
    assert (length ((λ x, x + current_epoch_ d) <$> take (Z.to_nat m) l) = Z.to_nat m) as Em
      by (rewrite length_fmap, length_take; lia).
    assert (p !! Z.to_nat m = Some x) as Hp.
    { rewrite Ep, lookup_app_r, Em, Nat.sub_diag, lookup_drop, Nat.add_0_r by lia. done. }
    rewrite (proj2 (aget_Ok _ _ x)) by (split; [lia|done]). cbn [mbind result_bind].
    assert (0 ≤ x < kSize) as Hxk by (apply Hl; by eapply list_elem_of_lookup_2).
    unfold indexToNode, check_idx. rewrite (proj2 (Z.ltb_lt _ _)) by (lia).
    cbn [CHECK mbind result_bind]. rewrite (cast_id 64) by lia.
    apply returns_aset; [lia|]. split; [by rewrite length_insert|].
    replace (Z.to_nat (m + 1)) with (S (Z.to_nat m)) by lia.
    rewrite (take_S_r _ _ _ Hx), fmap_app, Ep, insert_app_r_alt, Em, Nat.sub_diag by lia.
    rewrite (drop_S _ _ _ Hpx). simpl. by rewrite <- app_assoc.
  - intros p (El & Ep). split; [done|]. rewrite length_fmap, drop_0, Ep, Nat2Z.id, firstn_all.
    rewrite take_app_le by (rewrite length_fmap; lia). by rewrite take_ge by (rewrite length_fmap; lia).
Qed.

(** A reported path leads from the node to a held lock and is a shortest one. *)
Lemma findPathToLock_spec d t node i path n : dd_wf d → tls_wf t → is_node d node i →
  epoch_ t = current_epoch_ d → i ∉ held t → 0 ≤ n ≤ Z.of_nat (length path) →
  returns (findPathToLock d t node path n) (λ '(d', path', res), dd_wf d' ∧ (∃ tmp, d' = set_tmp d tmp) ∧
    ((res = 0 ∧ ∀ l, gpath (g_ d) (list_to_set (held t)) i l → n < Z.of_nat (length l)) ∨
     (∃ l, shortest (g_ d) (list_to_set (held t)) i l ∧ res = Z.of_nat (length l) ∧ res ≤ n ∧
       holds path' 0 ((λ x, x + current_epoch_ d) <$> l)))).
Proof.
  intros Hd Ht Hn Ee Hi Hlen. pose proof Hd as [Hwa Hwr Htm Hg Hdt Hel Hne Hep Hst Hdis Hcl Hrec].
  unfold findPathToLock. rewrite getLocks_ok by done. cbn [mbind result_bind].
  rbind (apply copyFrom_spec; [done|apply Ht]). intros tmp [Hw Et].
  set (d' := set_tmp d tmp). assert (dd_wf d') as Hd' by (split; try done; by apply bv_wf_raw).
  rewrite (nodeToIndex_spec d' node i) by done. cbn [mbind result_bind].
  rbind (apply getBit_spec; [done|apply Hn]). intros b ->.
  rewrite Et. rstep_check; [by rewrite bool_decide_eq_false_2 by (by rewrite <- elem_of_held)|].
  rbind (apply (findShortestPath_spec (g_ d') i tmp path n); [apply Hd'|done|apply Hn|done]).
  assert (bits tmp = list_to_set (held t)) as ->.
  { apply set_eq. intros x. by rewrite Et, elem_of_list_to_set, elem_of_held. }
  intros [p res] [El [[-> Hno]|(l & Hl & -> & Hle & Hh)]].
  - cbn. split; [done|]. split; [by exists tmp|]. by left.
  - rbind (apply (nodes_of_path d' l p); [done|apply Hn| |done];
      intros x Hx; eapply gpath_elem; [apply Hl|apply Hn|done]).
    intros p' [El' Hp']. destruct l as [|x l]; [by destruct Hl as [Hl _]; inversion Hl|].
    assert (x = i) as -> by (destruct Hl as [Hl _]; inversion Hl; done).
    rewrite (proj2 (Z.eqb_neq _ 0)) by (simpl; lia). cbn [negb].
    eapply returns_bind with (P := λ _, True).
    { unfold holds in Hp'. rewrite drop_0 in Hp'. destruct p' as [|y p']; [done|]. simpl in Hp'.
      assert (y = i + current_epoch_ d) as -> by congruence.
      simpl. destruct Hn as (_ & _ & ->). by rewrite Z.eqb_refl. }
    intros _ _. cbn. split; [done|]. split; [by exists tmp|]. right. by exists (i :: l).
Qed.

(** There is room for one more acquisition of [i]. *)
Definition room t (i : Z) : Prop :=
  if decide (i ∈ held t) then n_recursive_locks t < kMaxRecursive else n_all_locks_ t < kMaxLocks.

Lemma held_nil_room t i : tls_wf t → held t = [] → room t i.
Proof.
  intros Ht Eh. unfold room. rewrite Eh, decide_False by apply not_elem_of_nil.
  pose proof (tls_n_all t Ht). pose proof (tls_length_all t Ht).
  assert (length (locks t) = 0%nat) as Hz by (unfold held in Eh; by apply app_eq_nil in Eh as [-> _]).
  unfold locks, contexts in Hz. rewrite length_fmap, length_take in Hz. lia.
Qed.

Lemma onLockAfter_spec d t node i stk : dd_wf d → tls_wf t → is_node d node i →
  (epoch_ t = current_epoch_ d → room t i) →
  returns (onLockAfter d t node stk) (λ t', tls_wf t' ∧ epoch_ t' = current_epoch_ d ∧
    held t' ≡ₚ i :: (if decide (epoch_ t = current_epoch_ d) then held t else [])).
Proof.
  intros Hd Ht Hn Hroom. unfold onLockAfter. rbind (by apply ensure_spec). intros t1 (Ht1 & E1 & Hc).
  rewrite (nodeToIndex_spec d node i) by done. cbn [mbind result_bind].
  assert (room t1 i ∧ held t1 = if decide (epoch_ t = current_epoch_ d) then held t else []) as [Hr1 Eh].
  { destruct (decide (epoch_ t = current_epoch_ d)) as [E|E]; [subst t1; auto|].
    split; [by apply held_nil_room|done]. }
  rewrite <- Eh. eapply returns_bind; [apply (addLock_spec t1 i); [done|apply Hn|done|done]|].
  intros [t2 r] (Ht2 & E2 & HP & _). done.
Qed.

Lemma findEdge_spec d fn tn f to_idx : dd_wf d → is_node d fn f → is_node d tn to_idx →
  returns (findEdge d fn tn) (λ r,
    match r with
    | Some (sf, st, tid) => ∃ e, e ∈ records d ∧ from e = f ∧ to e = to_idx ∧
        sf = stk_from e ∧ st = stk_to e ∧ tid = unique_tid e
    | None => ∀ e, e ∈ records d → ¬ (from e = f ∧ to e = to_idx)
    end).
Proof.
  intros Hd Hf Ht. unfold findEdge. rewrite (nodeToIndex_spec d fn f), (nodeToIndex_spec d tn to_idx) by done.
  cbn [mbind result_bind]. pose proof (dd_n_edges d Hd). pose proof (dd_edges d Hd).
  apply (returns_find_range (λ m, ∀ k e, (k < Z.to_nat m)%nat → records d !! k = Some e → ¬ (from e = f ∧ to e = to_idx)));
    [lia|lia| |].
  - intros j Hj Hdone. destruct (lookup_lt_is_Some_2 (edges_ d) (Z.to_nat j)) as [e He]; [lia|].
    rewrite (proj2 (aget_Ok _ _ e)) by (split; [lia|done]). cbn [mbind result_bind returns].
    assert (records d !! Z.to_nat j = Some e) as Hc by (apply lookup_take_Some; split; [done|lia]).
    destruct (Z.eqb_spec (from e) f) as [E1|E1]; cbn [andb]; [destruct (Z.eqb_spec (to e) to_idx) as [E2|E2]|].
    + exists e. split; [by eapply list_elem_of_lookup_2|done].
    + intros k e2 Hk He2. destruct (decide (k = Z.to_nat j)) as [->|]; [|apply (Hdone k); [lia|done]].
      replace e2 with e by congruence. tauto.
    + intros k e2 Hk He2. destruct (decide (k = Z.to_nat j)) as [->|]; [|apply (Hdone k); [lia|done]].
      replace e2 with e by congruence. tauto.
  - intros Hall e He. apply list_elem_of_lookup in He as [k Hk]. apply (Hall k); [|done].
    apply lookup_lt_Some in Hk. unfold records in Hk. rewrite length_take in Hk. lia.
Qed.

Lemma onUnlock_spec d t node i : dd_wf d → tls_wf t → is_node d node i →
  returns (onUnlock t node) (λ t', tls_wf t' ∧ epoch_ t' = epoch_ t ∧
    if decide (epoch_ t = current_epoch_ d ∧ i ∈ held t) then held t ≡ₚ i :: held t' else held t' = held t).
Proof.
  intros Hd Ht Hn. pose proof Hn as (Hi & He & En).
  destruct (epoch_node d i Hd Hi He) as (Ne & Ni & _). rewrite <- En in *.
  unfold onUnlock. rewrite Ne, Ni. destruct (Z.eqb_spec (epoch_ t) (current_epoch_ d)) as [E|E].
  - eapply returns_mono; [by apply removeLock_spec|]. intros t' (Ht' & E' & Hh).
    split; [done|]. split; [done|]. destruct (decide (i ∈ held t)); [by rewrite decide_True|].
    rewrite decide_False; [done|tauto].
  - simpl. by rewrite decide_False by tauto.
Qed.

(** The paths that only touch the thread's own state agree with the slow one:
    they hold the same locks afterwards, and the edges the slow path would add
    already exist. *)
Lemma onLockFast_spec d t node i stk : dd_wf d → tls_wf t → is_node d node i → room t i →
  returns (onLockFast d t node stk) (λ '(t', r), tls_wf t' ∧ epoch_ t' = epoch_ t ∧
    if r then epoch_ t = current_epoch_ d ∧ held t' ≡ₚ i :: held t ∧ ∀ h, h ∈ held t → edge (g_ d) h i
    else t' = t).
Proof.
  intros Hd Ht Hn Hroom. pose proof Hn as (Hi & He & En).
  destruct (epoch_node d i Hd Hi He) as (Ne & Ni & _). rewrite <- En in *. unfold onLockFast.
  rbind (by apply (hasAllEdges_spec d t node i)). intros [] Hb; [|done].
  destruct (proj1 Hb eq_refl) as [E Hall]. rewrite Ne, Ni.
  rbind (by apply (addLock_spec t i)). intros [t' r] (Ht' & E' & HP & _). by rewrite E.
Qed.

Lemma empty_held t : tls_wf t → returns (tls_empty t) (λ e, e = bool_decide (held t = [])).
Proof.
  intros Ht. eapply returns_mono; [apply empty_spec, Ht|]. intros e ->. apply bool_decide_ext.
  split; intros E.
  - destruct (held t) as [|x l] eqn:Eh; [done|].
    assert (x ∈ bits (bv_ t)) as Hx by (rewrite <- elem_of_held by done; rewrite Eh; by left). set_solver.
  - apply set_eq. intros x. rewrite <- elem_of_held, E by done. set_solver +.
Qed.

Lemma node_index node : 0 ≤ nodeToIndexUnchecked (BV:=BV) node < kSize.
Proof. apply Z.mod_pos_bound, kSize_pos. Qed.

Lemma onFirstLock_spec t node stk : tls_wf t →
  returns (onFirstLock t node stk) (λ '(t', r), tls_wf t' ∧ epoch_ t' = epoch_ t ∧
    if r : bool then epoch_ t = nodeToEpoch (BV:=BV) node ∧ epoch_ t ≠ 0 ∧ held t = [] ∧
      held t' = [nodeToIndexUnchecked (BV:=BV) node]
    else t' = t).
Proof.
  intros Ht. unfold onFirstLock. rbind (by apply empty_held). intros e ->.
  case_bool_decide as Eh; cbn [negb]; [|done].
  destruct (Z.eqb_spec (epoch_ t) 0); cbn [negb andb]; [done|].
  destruct (Z.eqb_spec (epoch_ t) (nodeToEpoch (BV:=BV) node)) as [E|E]; [|done]. rewrite <- E.
  eapply returns_bind; [apply addLock_spec; [done|apply node_index|done|by apply held_nil_room]|].
  intros [t' r] (Ht' & E' & HP & _). rewrite Eh in HP. apply Permutation_singleton_r in HP. done.
Qed.

(** The fast paths for an arbitrary identifier: 0, or a node of some epoch. *)
Definition id_ok (node : Z) : Prop := node = 0 ∨ kSize (BV:=BV) ≤ node.

Lemma hasAllEdges_any d t node : dd_wf d → tls_wf t → id_ok node →
  returns (hasAllEdges d t node) (λ r, r = true →
    epoch_ t = current_epoch_ d ∧ is_node d node (nodeToIndexUnchecked (BV:=BV) node) ∧
    ∀ h, h ∈ held t → edge (g_ d) h (nodeToIndexUnchecked (BV:=BV) node)).
Proof.
  intros Hd Ht Hid. pose proof kSize_pos as Hk.
  destruct (decide (node ≠ 0 ∧ epoch_ t = current_epoch_ d ∧ epoch_ t = nodeToEpoch (BV:=BV) node)) as [(Hn & E1 & E2)|Hno].
  - assert (kSize ≤ node) as Hle by (by destruct Hid).
    assert (is_node d node (nodeToIndexUnchecked (BV:=BV) node)) as Hin.
    { apply node_decompose; [done|lia|congruence|]. rewrite <- E1, E2. unfold nodeToEpoch.
      pose proof (Z.div_str_pos node kSize). nia. }
    eapply returns_mono; [by apply hasAllEdges_spec|]. intros r Hr ->. by destruct (proj1 Hr eq_refl).
  - unfold hasAllEdges. destruct (Z.eqb_spec node 0); [done|].
    destruct (Z.eqb_spec (epoch_ t) (current_epoch_ d)); [|done].
    destruct (Z.eqb_spec (epoch_ t) (nodeToEpoch (BV:=BV) node)); [|done]. by destruct Hno.
Qed.

Lemma onLockFast_any d t node stk : dd_wf d → tls_wf t → id_ok node →
  room t (nodeToIndexUnchecked (BV:=BV) node) →
  returns (onLockFast d t node stk) (λ '(t', r), tls_wf t' ∧ epoch_ t' = epoch_ t ∧
    if r : bool then epoch_ t = current_epoch_ d ∧ is_node d node (nodeToIndexUnchecked (BV:=BV) node) ∧
      held t' ≡ₚ nodeToIndexUnchecked (BV:=BV) node :: held t
    else t' = t).
Proof.
  intros Hd Ht Hid Hroom. unfold onLockFast. rbind (by apply hasAllEdges_any). intros [] Hb; [|done].
  destruct (Hb eq_refl) as (E & Hn & _). pose proof Hn as (Hi & He & En).
  destruct (epoch_node d _ Hd Hi He) as (Ne & _). rewrite <- En in Ne. rewrite Ne.
  rbind (by apply addLock_spec). intros [t' r] (Ht' & E' & HP & _). split; [done|]. by rewrite E.
Qed.

Lemma onUnlock_any t node : tls_wf t →
  returns (onUnlock t node) (λ t', tls_wf t' ∧ epoch_ t' = epoch_ t ∧ ∀ h, h ∈ held t' → h ∈ held t).
Proof.
  intros Ht. unfold onUnlock. destruct (getEpoch t =? _); [|done].
  eapply returns_mono; [apply removeLock_spec; [done|apply node_index]|].
  intros t' (Ht' & E & Hh). split; [done|]. split; [done|]. intros h Hh'.
  destruct (decide _); [rewrite Hh; by right|by rewrite <- Hh].
Qed.

(** *** Deadlock detection *)

Definition acyclic (g : BVGraph BV) : Prop := ∀ x, ¬ tc (edge g) x x.

Lemma onLock_spec d t scratch node i stk : dd_wf d → tls_wf t → is_node d node i → live d i →
  holds_live d t → Z.of_nat (length scratch) = kMaxAdded → epoch_ t = current_epoch_ d →
  room t i → i ∉ held t → acyclic (g_ d) →
  returns (onLock d t scratch node stk) (λ '(d', t', r), dd_wf d' ∧ tls_wf t' ∧
    held t' ≡ₚ i :: held t ∧ (∀ x y, edge (g_ d') x y ↔ edge (g_ d) x y ∨ (x ∈ held t ∧ y = i)) ∧
    if r : bool then tc (edge (g_ d')) i i else acyclic (g_ d')).
Proof.
  intros Hd Ht Hn Hi Hl Hs Ee Hroom Hih Hac. unfold onLock.
  assert (dd_ensureCurrentEpoch d t = Ok t) as ->.
  { unfold dd_ensureCurrentEpoch, ensureCurrentEpoch. by rewrite Ee, Z.eqb_refl. }
  cbn [mbind result_bind]. rbind (by apply (isHeld_spec d t node i)). intros h ->.
  rewrite bool_decide_eq_false_2 by done. cbn [negb].
  rbind (by apply (onLockBefore_spec d t node i)).
  intros [[d1 t1] r] (Hd1 & (_ & _ & Hc1) & (g1 & -> & Ev) & Hr). rewrite decide_True in Hc1 by done. subst t1.
  assert (∀ x y, edge g1 x y ↔ edge (g_ d) x y) as E1 by (intros; unfold edge, succ; by rewrite Ev).
  rbind (by apply (dd_addEdges_spec _ t scratch node i)).
  intros [[d2 t2] n] (Hd2 & (_ & _ & Hc2) & Ee2 & Hlv & _ & Eg2 & _). rewrite decide_True in Hc2 by done. subst t2.
  simpl in *. assert (is_node d2 node i) as Hn2 by (unfold is_node; by rewrite Ee2).
  rbind (apply (onLockAfter_spec d2 t node i); try done). intros t3 (Ht3 & E3 & HP).
  rewrite decide_True in HP by congruence.
  assert (∀ x y, edge (g_ d2) x y ↔ edge (g_ d) x y ∨ (x ∈ (list_to_set (held t) : gset Z) ∧ y = i)) as Hadd.
  { intros x y. by rewrite Eg2, E1, elem_of_list_to_set. }
  split; [done|]. split; [done|]. split; [done|]. split; [intros; by rewrite Eg2, E1|].
  destruct r.
  - destruct (proj1 Hr eq_refl) as (h & Hh & Hrt).
    eapply added_cycle; [exact Hadd|by rewrite elem_of_list_to_set|done].
  - intros x. eapply added_acyclic; [exact Hadd|done|]. intros h Hh Hrt.
    assert (false = true); [|done]. apply Hr. exists h. by rewrite elem_of_list_to_set in Hh.
Qed.

(** [C8] Deadlock detection: let the lock-order graph be acyclic and let a thread
    acquire a lock it does not hold.  [onLock] adds the edges from the held locks
    to the new one and returns [true] exactly when that closes a cycle: on [true]
    the new node lies on a cycle, on [false] the graph is still acyclic. *)
Theorem onLock_detects_cycles d dtls scratch cur_node i stk :
  dd_wf d → tls_wf dtls → is_node d cur_node i → live d i → holds_live d dtls →
  Z.of_nat (length scratch) = kMaxAdded → epoch_ dtls = current_epoch_ d →
  room dtls i → i ∉ held dtls → acyclic (g_ d) →
  returns (onLock d dtls scratch cur_node stk) (λ '(d', dtls', r),
    dd_wf d' ∧ tls_wf dtls' ∧ held dtls' ≡ₚ i :: held dtls ∧
    (∀ x y, edge (g_ d') x y ↔ edge (g_ d) x y ∨ (x ∈ held dtls ∧ y = i)) ∧
    if r : bool then tc (edge (g_ d')) i i else acyclic (g_ d')).
Proof. apply onLock_spec. Qed.

(** [newNode] returns the number of a live node that carries [data] and has
    no edge, and keeps the invariant.  The other live nodes keep their data and
    the edges among them; only when all nodes are live, the graph is emptied and
    the epoch advances by [kSize]. *)
Theorem newNode_correct d data : dd_wf d → current_epoch_ d + 2 * kSize ≤ 2 ^ 64 →
  returns (newNode d data) (λ '(d', node), dd_wf d' ∧ ∃ i, fresh d' node i data ∧
    ((current_epoch_ d' = current_epoch_ d ∧ extends d d' i) ∨
     (current_epoch_ d' = current_epoch_ d + kSize ∧ (∀ j, 0 ≤ j < kSize → live d j) ∧
      (∀ j, live d' j ↔ j = i) ∧ ∀ x y, ¬ edge (g_ d') x y))).
Proof. apply newNode_spec. Qed.

(** [findPathToLock] returns the length of a shortest path from the lock to
    one the thread holds and stores the path as node numbers, or returns 0 when
    every such path is longer than [path_size]; its own [CHECK]s never fail. *)
Theorem findPathToLock_correct d dtls cur_node i path path_size :
  dd_wf d → tls_wf dtls → is_node d cur_node i → epoch_ dtls = current_epoch_ d →
  i ∉ held dtls → 0 ≤ path_size ≤ Z.of_nat (length path) →
  returns (findPathToLock d dtls cur_node path path_size) (λ '(d', path', res),
    dd_wf d' ∧ g_ d' = g_ d ∧
    ((res = 0 ∧ ∀ l, gpath (g_ d) (list_to_set (held dtls)) i l → path_size < Z.of_nat (length l)) ∨
     (∃ l, shortest (g_ d) (list_to_set (held dtls)) i l ∧ res = Z.of_nat (length l) ∧
       res ≤ path_size ∧ holds path' 0 ((λ x, x + current_epoch_ d) <$> l)))).
Proof.
  intros Hd Ht Hn He Hi Hl. eapply returns_mono; [by apply findPathToLock_spec|].
  by intros [[d' path'] res] (Hd' & (tmp & ->) & Hr).
Qed.

(** The lock-free path [onLockFast] agrees with the slow path: when it
    succeeds, the thread holds the lock once more and every edge the slow path
    would add is already in the graph; otherwise the thread's state is unchanged. *)
Theorem onLockFast_correct d dtls node i stk : dd_wf d → tls_wf dtls → is_node d node i →
  room dtls i →
  returns (onLockFast d dtls node stk) (λ '(dtls', r), tls_wf dtls' ∧ epoch_ dtls' = epoch_ dtls ∧
    if r : bool
    then epoch_ dtls = current_epoch_ d ∧ held dtls' ≡ₚ i :: held dtls ∧
         ∀ h, h ∈ held dtls → edge (g_ d) h i
    else dtls' = dtls).
Proof. apply onLockFast_spec. Qed.

End spec.

(** *** A concrete run

    A detector for eight locks, starting from arbitrary memory: nodes 8 and 9 are
    created, and a thread that holds the first one acquires the second. *)
Import Basic.

#[export] Instance basic_small w {Hw : ValidWidth w} : SmallVector (BasicBitVector w).
Proof. unfold SmallVector. cbn. destruct Hw. lia. Qed.

Notation V8 := (BasicBitVector 8).

Definition d_raw : DeadlockDetector V8 :=
  DD 12345 (BBV 17) (BBV 255) (BBV 3) (BVG (replicate 8 (BBV 99)) (BBV 1) (BBV 2))
     (replicate 8 0) (replicate 256 (mkEdge 7 7 7 7 7)) 400.
Definition d0 : DeadlockDetector V8 := from_result d_raw (dd_clear d_raw).
Definition d1 : DeadlockDetector V8 := (from_result (d0, 0) (newNode d0 100)).1.
Definition d2 : DeadlockDetector V8 := (from_result (d1, 0) (newNode d1 101)).1.

Definition t_raw : DeadlockDetectorTLS V8 :=
  TLS (BBV 170) 9 (replicate 64 3) 70 (replicate 64 (LWC 1 2)) 80.
Definition t0 : DeadlockDetectorTLS V8 := from_result t_raw (restart t_raw 8).
Definition t1 : DeadlockDetectorTLS V8 := (from_result (t0, false) (addLock t0 0 8 555)).1.

Lemma d0_wf : dd_wf d0.
Proof.
  apply (returns_from_result d_raw (dd_clear d_raw) dd_wf).
  eapply returns_mono; [apply dd_clear_spec|intros ? [? _]; done].
  repeat (split; [cbv; done|]). split; [|split; done]. split; [done|].
  split; [repeat constructor; cbv; done|split; cbv; done].
Qed.

Lemma newNode_wf d data : dd_wf d → current_epoch_ d + 2 * 8 ≤ 2 ^ 64 →
  dd_wf (from_result (d, 0) (newNode (BV:=V8) d data)).1.
Proof.
  intros Hd He. apply (returns_from_result (d, 0) (newNode d data) (λ x, dd_wf x.1)).
  eapply returns_mono; [by apply newNode_spec|]. by intros [d' node] [? _].
Qed.

Lemma d1_wf : dd_wf d1.
Proof. apply newNode_wf; [apply d0_wf|vm_compute; done]. Qed.

Lemma d2_wf : dd_wf d2.
Proof. apply newNode_wf; [apply d1_wf|vm_compute; done]. Qed.

Lemma t0_wf : tls_wf t0.
Proof.
  apply (returns_from_result t_raw (restart t_raw 8) tls_wf).
  eapply returns_mono; [apply restart_spec|intros ? [? _]; done].
  split; [cbv; done|]. split; done.
Qed.

Lemma t1_wf : tls_wf t1.
Proof.
  apply (returns_from_result (t0, false) (addLock t0 0 8 555) (λ x, tls_wf x.1)).
  eapply returns_mono; [apply (addLock_spec t0 0 8 555)|intros [? ?] [? _]; done];
    [apply t0_wf|cbv; done|vm_compute; done|vm_compute; done].
Qed.

Lemma d2_node : is_node d2 9 1.
Proof. split; [cbv; done|]. split; [vm_compute; done|vm_compute; done]. Qed.

Lemma d2_live i : 0 ≤ i < 2 → live d2 i.
Proof.
  intros Hi. assert (i = 0 ∨ i = 1) as [-> | ->] by lia.
  all: split; [cbv; done|]; split; apply (bool_decide_unpack _); vm_compute; done.
Qed.

Lemma t1_held : held t1 = [0].
Proof. vm_compute. done. Qed.

Lemma d2_acyclic : acyclic (g_ d2).
Proof.
  pose proof (graph_empty_spec (g_ d2) (dd_graph _ d2_wf)) as He.
  assert (graph_empty (g_ d2) = Ok true) as E by (vm_compute; done). rewrite E in He.
  intros x Hx. assert (∀ i j, ¬ edge (g_ d2) i j) as Hno by (by apply He).
  by inversion Hx as [? ? Hxy|? ? ? Hxy]; apply Hno in Hxy.
Qed.

Lemma t1_holds_live : holds_live d2 t1.
Proof. intros _ h. rewrite t1_held. intros ->%list_elem_of_singleton. by apply d2_live. Qed.

Lemma t1_not_held : 1 ∉ held t1.
Proof. rewrite t1_held. apply (bool_decide_unpack _). vm_compute. done. Qed.

Lemma addLock_correct_witness :
  (full t1 1 → addLock t1 1 (epoch_ t1) 5 = Fault CheckFailed) ∧
  (¬ full t1 1 → returns (addLock t1 1 (epoch_ t1) 5) (λ '(t', r),
    tls_wf t' ∧ epoch_ t' = epoch_ t1 ∧ held t' ≡ₚ 1 :: held t1 ∧ r = bool_decide (1 ∉ held t1))).
Proof. apply (addLock_correct t1 1 5); [apply t1_wf|cbv; done]. Defined.

Lemma removeLock_correct_witness :
  returns (removeLock t1 0) (λ t', tls_wf t' ∧ epoch_ t' = epoch_ t1 ∧
    if decide (0 ∈ held t1) then held t1 ≡ₚ 0 :: held t' else held t' = held t1).
Proof. apply (removeLock_correct t1 0); [apply t1_wf|cbv; done]. Defined.

Lemma onLock_detects_cycles_witness :
  returns (onLock d2 t1 (replicate 40 0) 9 7) (λ '(d', dtls', r),
    dd_wf d' ∧ tls_wf dtls' ∧ held dtls' ≡ₚ 1 :: held t1 ∧
    (∀ x y, edge (g_ d') x y ↔ edge (g_ d2) x y ∨ (x ∈ held t1 ∧ y = 1)) ∧
    if r : bool then tc (edge (g_ d')) 1 1 else acyclic (g_ d')).
Proof.
  apply (onLock_detects_cycles d2 t1 (replicate 40 0) 9 1 7);
    [apply d2_wf|apply t1_wf|apply d2_node|by apply d2_live|apply t1_holds_live|done
    |vm_compute; done|vm_compute; done|apply t1_not_held|apply d2_acyclic].
Defined.

Lemma newNode_correct_witness :
  returns (newNode d2 102) (λ '(d', node), dd_wf d' ∧ ∃ i, fresh d' node i 102 ∧
    ((current_epoch_ d' = current_epoch_ d2 ∧ extends d2 d' i) ∨
     (current_epoch_ d' = current_epoch_ d2 + kSize (BV:=V8) ∧
      (∀ j, 0 ≤ j < kSize (BV:=V8) → live d2 j) ∧
      (∀ j, live d' j ↔ j = i) ∧ ∀ x y, ¬ edge (g_ d') x y))).
Proof. apply (newNode_correct d2 102); [apply d2_wf|vm_compute; done]. Defined.

Lemma findPathToLock_correct_witness :
  returns (findPathToLock d2 t1 9 (replicate 4 0) 4) (λ '(d', path', res),
    dd_wf d' ∧ g_ d' = g_ d2 ∧
    ((res = 0 ∧ ∀ l, gpath (g_ d2) (list_to_set (held t1)) 1 l → 4 < Z.of_nat (length l)) ∨
     (∃ l, shortest (g_ d2) (list_to_set (held t1)) 1 l ∧ res = Z.of_nat (length l) ∧
       res ≤ 4 ∧ holds path' 0 ((λ x, x + current_epoch_ d2) <$> l)))).
Proof.
  apply (findPathToLock_correct d2 t1 9 1 (replicate 4 0) 4);
    [apply d2_wf|apply t1_wf|apply d2_node|vm_compute; done|apply t1_not_held|cbv; done].
Defined.

Lemma onLockFast_correct_witness :
  returns (onLockFast d2 t1 9 7) (λ '(dtls', r), tls_wf dtls' ∧ epoch_ dtls' = epoch_ t1 ∧
    if r : bool
    then epoch_ t1 = current_epoch_ d2 ∧ held dtls' ≡ₚ 1 :: held t1 ∧
         ∀ h, h ∈ held t1 → edge (g_ d2) h 1
    else dtls' = t1).
Proof.
  apply (onLockFast_correct d2 t1 9 1 7); [apply d2_wf|apply t1_wf|apply d2_node|vm_compute; done].
Defined.

(** Two threads that take the two locks in opposite order: the second
    acquisition reports a cycle. *)
Example opposite_orders :
  match onLock d2 t1 (replicate 40 0) 9 7 with
  | Ok (d3, _, r1) =>
      match addLock t0 1 8 556 with
      | Ok (t2, _) => r1 = false ∧ snd <$> onLock d3 t2 (replicate 40 0) 8 7 = Ok true
      | Fault _ => False
      end
  | Fault _ => False
  end.
Proof. vm_compute. done. Qed.

End Detector.
