(* ===== verification/DDetector.v ===== *)
(** * DDetector: the mutex callbacks of the deadlock detector

    Models [sanitizer_deadlock_detector1.cpp]: [DD], the implementation of the
    [DDetector] interface that a tool calls around every mutex operation.
    Mutexes ([DDMutex]) and logical threads ([DDLogicalThread]) are objects of
    the tool that [DD] reaches through pointers; the state of the model holds
    them in two finite maps from addresses.

    A call is an [event].  [sys_wf] is the invariant of the whole system, and
    [allowed] what the tool must respect (no mutex is destroyed while it is
    held, the per-thread arrays do not overflow).  Every allowed event runs
    without a failed [CHECK] and without a dangling pointer, and a report
    describes a cycle of the lock graph. *)
From S2P Require Import Prelude Common BitVector TwoLevelBitVector BVGraph DeadlockDetector.
Import Graph Tls Detector.

Module DDet.

Record DDMutex := mkMutex { id : Z; m_stk : Z; ctx : Z }.

Record LoopEntry := mkEntry {
  thr_ctx : Z; mtx_ctx0 : Z; mtx_ctx1 : Z; stk0 : Z; stk1 : Z
}.
Record DDReport := mkReport { n : Z; loop : list LoopEntry }.
Abbreviation kMaxLoopSize := (20) (only parsing).

Record DDLogicalThread (BV : Type) := mkThread {
  lt_ctx : Z;
  lt_dd : DeadlockDetectorTLS BV;
  rep : DDReport;
  report_pending : bool
}.
Arguments mkThread {BV}.
Arguments lt_ctx {BV} d.
Arguments lt_dd {BV} d.
Arguments rep {BV} d.
Arguments report_pending {BV} d.

(** [DD] with the objects its callers pass to it. *)
Record DD (BV : Type) := mkDD {
  dd : DeadlockDetector BV;
  second_deadlock_stack : bool;
  mutexes : gmap Z DDMutex;
  threads : gmap Z (DDLogicalThread BV)
}.
Arguments mkDD {BV}.
Arguments dd {BV} d.
Arguments second_deadlock_stack {BV} d.
Arguments mutexes {BV} d.
Arguments threads {BV} d.

(** What the virtual functions of the callback return: [Unwind k] is the value
    of the [k]-th call of [Unwind] in a handler. *)
Record DDCallback := mkCallback { cb_lt : Z; Unwind : nat → Z; UniqueTid : Z }.

Section ops.
Context {BV : Type} `{BitVector BV}.
Implicit Types (w : DD BV) (t : DeadlockDetectorTLS BV).

Definition get_mutex w (m : Z) : result DDMutex :=
  match mutexes w !! m with Some mm => Ok mm | None => Fault NullDeref end.
Definition get_thread w (lt : Z) : result (DDLogicalThread BV) :=
  match threads w !! lt with Some th => Ok th | None => Fault NullDeref end.

Definition set_dd w (d : DeadlockDetector BV) : DD BV :=
  mkDD d (second_deadlock_stack w) (mutexes w) (threads w).
Definition set_mutex w (m : Z) (mm : DDMutex) : DD BV :=
  mkDD (dd w) (second_deadlock_stack w) (<[m := mm]> (mutexes w)) (threads w).
Definition set_thread w (lt : Z) (th : DDLogicalThread BV) : DD BV :=
  mkDD (dd w) (second_deadlock_stack w) (mutexes w) (<[lt := th]> (threads w)).
Definition set_tls w (lt : Z) (th : DDLogicalThread BV) t : DD BV :=
  set_thread w lt (mkThread (lt_ctx th) t (rep th) (report_pending th)).

(** [DD::DD]: [raw] is the mapped memory of the object. *)
Definition DD_ctor (raw : DeadlockDetector BV) (flag : bool) : result (DD BV) :=
  d ← dd_clear raw;
  Ok (mkDD d flag ∅ ∅).

(** [lt] and [raw] are the address and the contents of the allocated object. *)
Definition CreateLogicalThread w (lt : Z) (raw : DDLogicalThread BV) (c : Z) : result (DD BV) :=
  t ← tls_clear (lt_dd raw);
  Ok (set_thread w lt (mkThread c t (rep raw) false)).

Definition DestroyLogicalThread w (lt : Z) : result (DD BV) :=
  get_thread w lt;;
  Ok (mkDD (dd w) (second_deadlock_stack w) (mutexes w) (delete lt (threads w))).

(** [m->ctx] is set by the tool. *)
Definition MutexInit w (cb : DDCallback) (m c : Z) : result (DD BV) :=
  Ok (set_mutex w m (mkMutex 0 (Unwind cb 0) c)).

Definition MutexEnsureID w (lt m : Z) : result (DD BV) :=
  mm ← get_mutex w m;
  w ← (if negb (nodeBelongsToCurrentEpoch (dd w) (id mm)) then
         '(d, node) ← newNode (dd w) m;
         Ok (set_mutex (set_dd w d) m (mkMutex node (m_stk mm) (ctx mm)))
       else Ok w);
  th ← get_thread w lt;
  t ← dd_ensureCurrentEpoch (dd w) (lt_dd th);
  Ok (set_tls w lt th t).

(** One iteration of the loop of [ReportDeadlock]. *)
Definition report_step w (path : list Z) (len i : Z) (entries : list LoopEntry) :
    result (list LoopEntry) :=
  from ← aget path i;
  to ← aget path ((i + 1) mod len);
  p0 ← getData (dd w) from;
  p1 ← getData (dd w) to;
  e ← findEdge (dd w) from to;
  let '(stk_from, stk_to, unique_tid) := default (0, 0, 0) e in
  m0 ← get_mutex w p0;
  m1 ← get_mutex w p1;
  aset entries i (mkEntry unique_tid (ctx m0) (ctx m1) stk_to stk_from).

(** [path0] is the uninitialised local array [path]. *)
Definition ReportDeadlock w (lt m : Z) (path0 : list Z) : result (DD BV) :=
  th ← get_thread w lt;
  mm ← get_mutex w m;
  '(d, path, len) ← findPathToLock (dd w) (lt_dd th) (id mm) path0 20;
  let w := set_dd w d in
  if len =? 0 then Ok w
  else
    x ← aget path 0;
    CHECK (id mm =? x);;
    let len := Min len kMaxLoopSize in
    entries ← for_range 0 len (report_step w path len) (loop (rep th));
    Ok (set_thread w lt (mkThread (lt_ctx th) (lt_dd th) (mkReport len entries) true)).

(** [scratch] is the uninitialised local array of [addEdges]. *)
Definition MutexBeforeLock w (cb : DDCallback) (m : Z) (scratch path0 : list Z) : result (DD BV) :=
  let lt := cb_lt cb in
  th ← get_thread w lt;
  mm ← get_mutex w m;
  e ← tls_empty (lt_dd th);
  if e : bool then Ok w
  else
    b ← hasAllEdges (dd w) (lt_dd th) (id mm);
    if b : bool then Ok w
    else
      w ← MutexEnsureID w lt m;
      th ← get_thread w lt;
      mm ← get_mutex w m;
      h ← isHeld (dd w) (lt_dd th) (id mm);
      if h : bool then Ok w
      else
        '(d, t, r) ← onLockBefore (dd w) (lt_dd th) (id mm);
        let w := set_tls (set_dd w d) lt th t in
        if r : bool then
          '(d, t, _) ← dd_addEdges (dd w) t scratch (id mm) (Unwind cb 0) (UniqueTid cb);
          ReportDeadlock (set_tls (set_dd w d) lt th t) lt m path0
        else Ok w.

Definition MutexAfterLock w (cb : DDCallback) (m : Z) (wlock trylock : bool) (scratch : list Z) :
    result (DD BV) :=
  let lt := cb_lt cb in
  th ← get_thread w lt;
  mm ← get_mutex w m;
  let stk := if second_deadlock_stack w then Unwind cb 0 else 0 in
  '(t, r) ← onFirstLock (lt_dd th) (id mm) stk;
  if r : bool then Ok (set_tls w lt th t)
  else
    '(t, r) ← onLockFast (dd w) t (id mm) stk;
    if r : bool then Ok (set_tls w lt th t)
    else
      w ← MutexEnsureID w lt m;
      th ← get_thread w lt;
      mm ← get_mutex w m;
      (if wlock then h ← isHeld (dd w) (lt_dd th) (id mm); CHECK (negb h) else Ok tt);;
      '(d, t) ← (if negb trylock then
          '(d, t, _) ← dd_addEdges (dd w) (lt_dd th) scratch (id mm)
                         (if stk =? 0 then Unwind cb 1 else stk) (UniqueTid cb);
          Ok (d, t)
        else Ok (dd w, lt_dd th));
      t ← onLockAfter d t (id mm) stk;
      Ok (set_tls (set_dd w d) lt th t).

Definition MutexBeforeUnlock w (cb : DDCallback) (m : Z) : result (DD BV) :=
  let lt := cb_lt cb in
  th ← get_thread w lt;
  mm ← get_mutex w m;
  t ← onUnlock (lt_dd th) (id mm);
  Ok (set_tls w lt th t).

Definition MutexDestroy w (m : Z) : result (DD BV) :=
  mm ← get_mutex w m;
  if id mm =? 0 then Ok w
  else
    w ← (if nodeBelongsToCurrentEpoch (dd w) (id mm) then
           d ← removeNode (dd w) (id mm);
           Ok (set_dd w d)
         else Ok w);
    Ok (set_mutex w m (mkMutex 0 (m_stk mm) (ctx mm))).

Definition GetReport w (cb : DDCallback) : result (DD BV * option DDReport) :=
  let lt := cb_lt cb in
  th ← get_thread w lt;
  if negb (report_pending th) then Ok (w, None)
  else Ok (set_thread w lt (mkThread (lt_ctx th) (lt_dd th) (rep th) false), Some (rep th)).

End ops.

(** ** The invariant of the system *)
Section spec.
Context {BV : Type} `{BitVectorSpec BV} {Hsmall : SmallVector BV}.
Implicit Types (w : DD BV) (d : DeadlockDetector BV) (t : DeadlockDetectorTLS BV)
  (th : DDLogicalThread BV) (mm : DDMutex).

Definition thread_ok d th : Prop :=
  tls_wf (lt_dd th) ∧ 0 ≤ epoch_ (lt_dd th) ≤ current_epoch_ d ∧ holds_live d (lt_dd th) ∧
  Z.of_nat (length (loop (rep th))) = kMaxLoopSize.

(** A mutex has no node, one of an earlier epoch, or a live one that points back
    to it. *)
Definition mutex_ok d (m : Z) mm : Prop :=
  id mm = 0 ∨
  (kSize ≤ id mm < current_epoch_ d + kSize ∧
   ∀ i, is_node d (id mm) i → live d i ∧ data_ d !! Z.to_nat i = Some m).

Record sys_wf w : Prop := {
  sw_dd : dd_wf (dd w);
  sw_thread lt th : threads w !! lt = Some th → thread_ok (dd w) th;
  sw_mutex m mm : mutexes w !! m = Some mm → mutex_ok (dd w) m mm;
  (* the data of a live node is a mutex that has this node *)
  sw_live i : live (dd w) i → current_epoch_ (dd w) ≠ 0 →
    ∃ m mm, data_ (dd w) !! Z.to_nat i = Some m ∧ mutexes w !! m = Some mm ∧ is_node (dd w) (id mm) i
}.

Lemma mutex_id_ok d m mm : mutex_ok d m mm → id_ok (BV:=BV) (id mm).
Proof. intros [?|[? _]]; [by left|right; lia]. Qed.

Lemma belongs_node d node : dd_wf d → id_ok (BV:=BV) node →
  nodeBelongsToCurrentEpoch d node = true → is_node d node (nodeToIndexUnchecked (BV:=BV) node).
Proof.
  intros Hd Hid. unfold nodeBelongsToCurrentEpoch. intros Hb. bool_prop.
  pose proof kSize_pos. destruct Hid as [?|Hle]; [done|].
  apply node_decompose; [done|lia|done|]. match goal with E : _ = current_epoch_ d |- _ => rewrite <- E end.
  pose proof (Z.div_str_pos node kSize). nia.
Qed.

Lemma node_belongs d node i : dd_wf d → is_node d node i → nodeBelongsToCurrentEpoch d node = true.
Proof.
  intros Hd (Hi & He & ->). destruct (epoch_node d i Hd Hi He) as (Ne & _ & Hle). pose proof kSize_pos.
  unfold nodeBelongsToCurrentEpoch. apply andb_true_iff. split; [|by apply Z.eqb_eq].
  apply negb_true_iff, Z.eqb_neq. lia.
Qed.

Lemma get_thread_ok w lt th : threads w !! lt = Some th → get_thread w lt = Ok th.
Proof. unfold get_thread. by intros ->. Qed.

Lemma get_mutex_ok w m mm : mutexes w !! m = Some mm → get_mutex w m = Ok mm.
Proof. unfold get_mutex. by intros ->. Qed.

(** Updates of one thread, and of the detector with the same nodes. *)
Lemma sys_set_thread w lt th : sys_wf w → thread_ok (dd w) th → sys_wf (set_thread w lt th).
Proof.
  intros [Hd Ht Hm Hl] Hok. split; [done| |done|done]. simpl. intros lt' th'.
  destruct (decide (lt' = lt)) as [->|].
  - rewrite lookup_insert_eq. by intros [= <-].
  - rewrite lookup_insert_ne by done. apply Ht.
Qed.

Definition same_nodes d d' : Prop :=
  current_epoch_ d' = current_epoch_ d ∧ (∀ i, live d' i ↔ live d i) ∧ data_ d' = data_ d.

Lemma same_is_node d d' node i : same_nodes d d' → is_node d' node i ↔ is_node d node i.
Proof. intros (E & _ & _). unfold is_node. by rewrite E. Qed.

Lemma thread_ok_same d d' th : same_nodes d d' → thread_ok d th → thread_ok d' th.
Proof.
  intros (E & Hl & _) (Ht & He & Hh & Hn). split; [done|]. split; [by rewrite E|]. split; [|done].
  intros Ee h Hin. apply Hl, Hh; [congruence|done].
Qed.

Lemma sys_set_dd w d : sys_wf w → dd_wf d → same_nodes (dd w) d → sys_wf (set_dd w d).
Proof.
  intros [Hd Ht Hm Hl] Hd' Hs. pose proof Hs as (E & Hlv & Edt). split; [done| | |]; simpl.
  - intros lt th Hth. by eapply thread_ok_same, Ht.
  - intros m mm Hmm. destruct (Hm m mm Hmm) as [?|[Hr Hn]]; [by left|]. right. split; [by rewrite E|].
    intros i Hi. rewrite Hlv, Edt. apply Hn. by eapply same_is_node.
  - intros i Hi He. rewrite Edt. destruct (Hl i) as (m & mm & ? & ? & ?); [by apply Hlv|congruence|].
    exists m, mm. split; [done|]. split; [done|]. by eapply same_is_node.
Qed.

(** The thread holds the mutex, as far as the current epoch knows. *)
Definition holds_mutex w th (m : Z) : Prop :=
  ∃ mm i, mutexes w !! m = Some mm ∧ is_node (dd w) (id mm) i ∧
    epoch_ (lt_dd th) = current_epoch_ (dd w) ∧ i ∈ held (lt_dd th).

(** [m] gets the fresh node of [newNode]. *)
Lemma sys_new_node w m mm d node : sys_wf w → mutexes w !! m = Some mm →
  nodeBelongsToCurrentEpoch (dd w) (id mm) = false → dd_wf d →
  (∃ i, fresh d node i m ∧
    ((current_epoch_ d = current_epoch_ (dd w) ∧ extends (dd w) d i) ∨
     (current_epoch_ d = current_epoch_ (dd w) + kSize ∧ (∀ j, live d j ↔ j = i)))) →
  sys_wf (set_mutex (set_dd w d) m (mkMutex node (m_stk mm) (ctx mm))).
Proof.
  intros [Hd Ht Hm Hl] Hmm Hnb Hd' (i & (Hn & Hi & Hdata & _) & Hcase). pose proof kSize_pos as Hk.
  assert (mutex_ok d m (mkMutex node (m_stk mm) (ctx mm))) as Hself.
  { right. simpl. pose proof Hn as (Hik & He & ->).
    destruct (epoch_node d i Hd' Hik He) as (_ & _ & ?). split; [lia|].
    intros j Hj. by rewrite <- (is_node_inj d _ i j Hn Hj). }
  split; [done| | |]; simpl.
  - intros lt th (Hw & Her & Hh & Hlen)%Ht. split; [done|].
    destruct Hcase as [[E (_ & Hlv & _)]|[E _]]; (split; [lia|]); (split; [|done]); intros Ee h Hin.
    + apply Hlv. left. apply Hh; [congruence|done].
    + lia.
  - intros m' mm'. destruct (decide (m' = m)) as [->|Hne].
    { rewrite lookup_insert_eq. by intros [= <-]. }
    rewrite lookup_insert_ne by done. intros [?|[Hr Hn']]%Hm; [by left|right].
    destruct Hcase as [[E (_ & Hlv & _ & Hkeep)]|[E _]].
    + split; [lia|]. intros j Hj. destruct (Hn' j) as [? ?]; [unfold is_node in *; by rewrite <- E|].
      split; [apply Hlv; by left|]. by rewrite Hkeep.
    + split; [lia|]. intros j (Hj & _ & Hid). lia.
  - intros j Hj He. destruct (decide (j = i)) as [->|Hne].
    { exists m, (mkMutex node (m_stk mm) (ctx mm)). by rewrite lookup_insert_eq. }
    destruct Hcase as [[E (_ & Hlv & _ & Hkeep)]|[E Honly]]; [|by apply Honly in Hj].
    assert (live (dd w) j) as Hj' by (apply Hlv in Hj as [?|?]; done).
    destruct (Hl j Hj') as (m' & mm' & Hdt & Hmm' & Hn'); [congruence|].
    exists m', mm'. rewrite Hkeep by done. split; [done|].
    rewrite lookup_insert_ne.
    + split; [done|]. unfold is_node in *. by rewrite E.
    + intros <-. assert (mm' = mm) as -> by congruence. by rewrite (node_belongs _ _ _ Hd Hn') in Hnb.
Qed.

(** After [MutexEnsureID] the mutex has a live node and the thread's state is of
    the current epoch. *)
Definition ensured w lt m th mm w' : Prop :=
  sys_wf w' ∧ second_deadlock_stack w' = second_deadlock_stack w ∧
  dom (mutexes w') = dom (mutexes w) ∧ dom (threads w') = dom (threads w) ∧
  ∃ th' mm' i, threads w' !! lt = Some th' ∧ mutexes w' !! m = Some mm' ∧
    is_node (dd w') (id mm') i ∧ live (dd w') i ∧ ctx mm' = ctx mm ∧
    current (dd w') (lt_dd th) (lt_dd th') ∧ rep th' = rep th ∧ report_pending th' = report_pending th ∧
    (i ∈ held (lt_dd th') → holds_mutex w th m).

Lemma thread_ok_tls d th t : thread_ok d th → current d (lt_dd th) t →
  thread_ok d (mkThread (lt_ctx th) t (rep th) (report_pending th)).
Proof.
  intros (Hw & He & Hh & Hlen) Hc. pose proof Hc as (Ht & Ee & _).
  split; [done|]. split; [simpl; lia|]. split; [|done]. intros _ h Hin. by eapply current_live.
Qed.

Lemma MutexEnsureID_spec w lt m th mm : sys_wf w → threads w !! lt = Some th →
  mutexes w !! m = Some mm → current_epoch_ (dd w) + 2 * kSize ≤ 2 ^ 64 →
  returns (MutexEnsureID w lt m) (ensured w lt m th mm).
Proof.
  intros Hw Hth Hmm Hov. unfold MutexEnsureID. rewrite (get_mutex_ok w m mm) by done. cbn [mbind result_bind].
  pose proof (sw_mutex w Hw m mm Hmm) as Hmok.
  eapply returns_bind with (P := λ w1, sys_wf w1 ∧ second_deadlock_stack w1 = second_deadlock_stack w ∧
    dom (mutexes w1) = dom (mutexes w) ∧ threads w1 = threads w ∧ ∃ mm' i, mutexes w1 !! m = Some mm' ∧
      is_node (dd w1) (id mm') i ∧ live (dd w1) i ∧ ctx mm' = ctx mm ∧
      (epoch_ (lt_dd th) = current_epoch_ (dd w1) → i ∈ held (lt_dd th) → holds_mutex w th m)).
  - destruct (nodeBelongsToCurrentEpoch (dd w) (id mm)) eqn:Hb; cbn [negb].
    + simpl. pose proof (belongs_node (dd w) (id mm) (sw_dd w Hw) (mutex_id_ok _ _ _ Hmok) Hb) as Hn.
      destruct Hmok as [E|[_ Hlive]]; [by unfold nodeBelongsToCurrentEpoch in Hb; rewrite E in Hb|].
      split; [done|]. split; [done|]. split; [done|]. split; [done|]. exists mm, (nodeToIndexUnchecked (BV:=BV) (id mm)).
      split; [done|]. split; [done|]. split; [by apply Hlive|]. split; [done|].
      intros He Hin. exists mm, (nodeToIndexUnchecked (BV:=BV) (id mm)). done.
    + rbind (apply newNode_spec; [apply Hw|done]). intros [d node] (Hd & i & Hf & Hcase).
      cbn [returns]. split; [|split; [done|]; split; [|split; [done|]]].
      * eapply sys_new_node; [done..|]. exists i. split; [done|].
        destruct Hcase as [?|(? & _ & ? & _)]; [by left|by right].
      * simpl. rewrite dom_insert_L. apply elem_of_dom_2 in Hmm. set_solver + Hmm.
      * exists (mkMutex node (m_stk mm) (ctx mm)), i. simpl. rewrite lookup_insert_eq.
        destruct Hf as (Hn & Hi & _). split; [done|]. split; [done|]. split; [done|]. split; [done|].
        intros Ee Hin. exfalso. destruct (sw_thread w Hw lt th Hth) as (_ & Hr & Hh & _).
        pose proof kSize_pos. destruct Hcase as [[E (Hni & _)]|(E & _)]; [|lia].
        apply Hni, Hh; [congruence|done].
  - intros w1 (Hw1 & E1 & Edom & Eth & mm' & i & Hmm' & Hn & Hi & Ectx & Hheld).
    rewrite (get_thread_ok w1 lt th) by (by rewrite Eth). cbn [mbind result_bind].
    rewrite <- Eth in Hth. pose proof (sw_thread w1 Hw1 lt th Hth) as Hok.
    rbind (apply ensure_spec, Hok). intros t Hc. cbn [returns].
    split; [by apply sys_set_thread, thread_ok_tls|]. split; [done|]. split; [done|]. split.
    { simpl. rewrite dom_insert_L, Eth. rewrite Eth in Hth. apply elem_of_dom_2 in Hth. set_solver + Hth. }
    exists (mkThread (lt_ctx th) t (rep th) (report_pending th)), mm', i. simpl. rewrite lookup_insert_eq.
    do 5 (split; [done|]). split; [done|]. split; [done|]. split; [done|].
    intros Hin. destruct Hc as (_ & _ & Hc). destruct (decide _) as [E|E].
    + subst t. by apply Hheld.
    + rewrite Hc in Hin. by apply not_elem_of_nil in Hin.
Qed.

(** ** Reports *)

(** [p] is the number of a live node [x], and its mutex. *)
Lemma live_mutex w x : sys_wf w → live (dd w) x → current_epoch_ (dd w) ≠ 0 →
  ∃ m mm, getData (dd w) (x + current_epoch_ (dd w)) = Ok m ∧ get_mutex w m = Ok mm ∧
    is_node (dd w) (id mm) x.
Proof.
  intros Hw Hx He. destruct (sw_live w Hw x Hx He) as (m & mm & Hdt & Hmm & Hn).
  exists m, mm. split; [|by rewrite (get_mutex_ok w m mm)]. unfold getData.
  rewrite (nodeToIndex_spec _ _ x); [|apply Hw|split; [apply Hx|done]]. cbn [mbind result_bind].
  apply aget_Ok. split; [apply Hx|done].
Qed.

(** The mutex of node [x] has context [c]. *)
Definition has_ctx w (x c : Z) : Prop :=
  ∃ m mm, mutexes w !! m = Some mm ∧ is_node (dd w) (id mm) x ∧ c = ctx mm.

(** The entries describe the cycle [l]: entry [k] goes from the mutex of the
    [k]-th node to the one of the next, and back to the first at the end. *)
Definition describes w (l : list Z) (es : list LoopEntry) (k : nat) : Prop :=
  ∀ j x y, (j < k)%nat → l !! j = Some x → l !! ((j + 1) mod length l)%nat = Some y →
    ∃ e, es !! j = Some e ∧ has_ctx w x (mtx_ctx0 e) ∧ has_ctx w y (mtx_ctx1 e).

Lemma report_step_spec w l path i es : sys_wf w → current_epoch_ (dd w) ≠ 0 →
  (∀ x, x ∈ l → live (dd w) x) → holds path 0 ((λ x, x + current_epoch_ (dd w)) <$> l) →
  (i < length l)%nat → (i < length es)%nat → describes w l es i →
  returns (report_step w path (Z.of_nat (length l)) (Z.of_nat i) es)
    (λ es', length es' = length es ∧ describes w l es' (S i)).
Proof.
  intros Hw He Hl Hp Hi Hes Hd. unfold report_step.
  assert (∀ k x, l !! k = Some x → aget path (Z.of_nat k) = Ok (x + current_epoch_ (dd w))) as Hget.
  { intros k x Hx. apply aget_lookup. unfold holds in Hp. rewrite drop_0, length_fmap in Hp.
    assert (((λ x, x + current_epoch_ (dd w)) <$> l) !! k = Some (x + current_epoch_ (dd w))) as E
      by (by rewrite list_lookup_fmap, Hx).
    rewrite <- Hp in E. by apply lookup_take_Some in E as [? _]. }
  destruct (lookup_lt_is_Some_2 l i Hi) as [x Hx].
  destruct (lookup_lt_is_Some_2 l ((i + 1) mod length l)%nat) as [y Hy]; [apply Nat.mod_upper_bound; lia|].
  rewrite (Hget i x Hx). cbn [mbind result_bind].
  replace ((Z.of_nat i + 1) mod Z.of_nat (length l)) with (Z.of_nat ((i + 1) mod length l))
    by (rewrite Nat2Z.inj_mod; f_equal; lia).
  rewrite (Hget _ y Hy). cbn [mbind result_bind].
  destruct (live_mutex w x Hw) as (mx & mmx & -> & Emx & Hnx); [apply Hl; by eapply list_elem_of_lookup_2|done|].
  destruct (live_mutex w y Hw) as (my & mmy & -> & Emy & Hny); [apply Hl; by eapply list_elem_of_lookup_2|done|].
  cbn [mbind result_bind].
  assert (∀ z, z ∈ l → is_node (dd w) (z + current_epoch_ (dd w)) z) as Hnode by (intros z Hz; split; [apply Hl, Hz|done]).
  rbind (apply (findEdge_spec _ _ _ x y); [apply Hw|apply Hnode; by eapply list_elem_of_lookup_2..]).
  intros e _. destruct (default (0, 0, 0) e) as [[sf st] tid].
  rewrite Emx, Emy. cbn [mbind result_bind]. apply returns_aset; [lia|]. rewrite Nat2Z.id.
  split; [by rewrite length_insert|]. intros j x' y' Hj Hx' Hy'.
  unfold get_mutex in Emx, Emy. destruct (mutexes w !! mx) eqn:E1, (mutexes w !! my) eqn:E2; simplify_eq.
  destruct (decide (j = i)) as [->|].
  - simplify_eq. eexists. rewrite list_lookup_insert_eq by lia. split; [done|]. split; [by exists mx, mmx|by exists my, mmy].
  - rewrite list_lookup_insert_ne by lia. apply Hd; [lia|done..].
Qed.

(** The nodes on a path to held locks are live: their mutexes exist. *)
Lemma gpath_live d (T : gset Z) x l : dd_wf d → (∀ h, h ∈ T → live d h) →
  gpath (g_ d) T x l → ∀ y, y ∈ l → live d y.
Proof.
  intros Hd HT. induction 1 as [x Hx|x z l Hxz Hl IH]; intros y Hy.
  - apply list_elem_of_singleton in Hy as ->. by apply HT.
  - apply elem_of_cons in Hy as [->|Hy]; [|by apply IH]. by apply (dd_clean d Hd) in Hxz as [? _].
Qed.

(** The outcome of [ReportDeadlock] for the thread's previous state [th]. *)
Definition reported w lt th (i : Z) : Prop :=
  ∃ th', threads w !! lt = Some th' ∧ lt_dd th' = lt_dd th ∧
   ((rep th' = rep th ∧ report_pending th' = report_pending th ∧
     ∀ l, gpath (g_ (dd w)) (list_to_set (held (lt_dd th))) i l → 20 < Z.of_nat (length l)) ∨
    (∃ l, shortest (g_ (dd w)) (list_to_set (held (lt_dd th))) i l ∧
      report_pending th' = true ∧ n (rep th') = Z.of_nat (length l) ∧ Z.of_nat (length l) ≤ 20 ∧
      describes w l (loop (rep th')) (length l))).

Lemma ReportDeadlock_spec w lt m th mm i path0 : sys_wf w → threads w !! lt = Some th →
  mutexes w !! m = Some mm → is_node (dd w) (id mm) i →
  epoch_ (lt_dd th) = current_epoch_ (dd w) → i ∉ held (lt_dd th) → Z.of_nat (length path0) = 20 →
  returns (ReportDeadlock w lt m path0) (λ w', sys_wf w' ∧
    (∃ tmp, dd w' = set_tmp (dd w) tmp) ∧ mutexes w' = mutexes w ∧ reported w' lt th i).
Proof.
  intros Hw Hth Hmm Hn Ee Hi Hp. unfold ReportDeadlock.
  rewrite (get_thread_ok w lt th), (get_mutex_ok w m mm) by done. cbn [mbind result_bind].
  pose proof (sw_thread w Hw lt th Hth) as (Ht & Her & Hlive & Hlen).
  rbind (apply (findPathToLock_spec (dd w) (lt_dd th) (id mm) i); [apply Hw|done..|lia]).
  intros [[d path] len] (Hd & (tmp & ->) & Hres).
  assert (sys_wf (set_dd w (set_tmp (dd w) tmp))) as Hw1 by (by apply sys_set_dd).
  set (w1 := set_dd w (set_tmp (dd w) tmp)) in *.
  destruct Hres as [[-> Hno]|(l & Hl & -> & Hle & Hh)].
  - cbn. split; [done|]. split; [by exists tmp|]. split; [done|]. exists th. split; [done|]. split; [done|]. by left.
  - pose proof (gpath_length _ _ _ _ (proj1 Hl)) as Hpos. rewrite (proj2 (Z.eqb_neq _ 0)) by lia.
    assert (∃ l', l = i :: l') as [l' El] by (destruct Hl as [Hl _]; inversion Hl; eauto).
    assert (aget path 0 = Ok (id mm)) as ->.
    { apply (aget_lookup _ 0). unfold holds in Hh. rewrite drop_0, El in Hh. destruct path as [|y path]; [done|].
      simpl in Hh. destruct Hn as (_ & _ & ->). simpl. congruence. }
    cbn [mbind result_bind]. rewrite Z.eqb_refl. cbn [CHECK mbind result_bind].
    assert (Min (Z.of_nat (length l)) kMaxLoopSize = Z.of_nat (length l)) as ->.
    { unfold Min. destruct (Z.ltb_spec (Z.of_nat (length l)) 20); lia. }
    assert (∀ x, x ∈ l → live (dd w1) x) as Hlv.
    { apply (gpath_live (dd w1) (list_to_set (held (lt_dd th))) i); [apply Hw1| |apply Hl].
      intros h Hin%elem_of_list_to_set. by apply (Hlive Ee). }
    eapply returns_bind.
    + apply (returns_for_range (λ k es, length es = length (loop (rep th)) ∧ describes w1 l es (Z.to_nat k))); [lia|split; [done|intros j; lia]|].
      intros k es Hk [El' Hds]. replace k with (Z.of_nat (Z.to_nat k)) at 1 by lia.
      eapply returns_mono; [apply report_step_spec; try done; [apply Hn|lia|lia]|].
      intros es' [E1 E2]. split; [congruence|]. by replace (Z.to_nat (k + 1)) with (S (Z.to_nat k)) by lia.
    + intros es [El' Hds]. rewrite Nat2Z.id in Hds. cbn [returns].
      set (th' := mkThread _ _ _ _).
      assert (sys_wf (set_thread w1 lt th')) as Hw2.
      { apply sys_set_thread; [done|]. split; [done|]. split; [done|]. split; [done|]. simpl. by rewrite El'. }
      split; [done|]. split; [by exists tmp|]. split; [done|]. exists th'. simpl. rewrite lookup_insert_eq.
      split; [done|]. split; [done|]. right. exists l. split; [done|]. split; [done|]. split; [done|].
      split; [lia|]. intros j x y Hj Hx Hy. destruct (Hds j x y Hj Hx Hy) as (e & ? & ? & ?). by exists e.
Qed.

(** ** The handlers *)

(** What [MutexBeforeLock] does on its slow path, where the thread's state has
    become [th'] and the mutex has node [i]. *)
Definition before_lock w lt m th w' : Prop :=
  ∃ th' mm' i, threads w' !! lt = Some th' ∧ mutexes w' !! m = Some mm' ∧
    is_node (dd w') (id mm') i ∧ current (dd w') (lt_dd th) (lt_dd th') ∧
    ((rep th' = rep th ∧ report_pending th' = report_pending th ∧
      (holds_mutex w th m ∨ ∀ h, h ∈ held (lt_dd th') → ¬ rtc (edge (g_ (dd w'))) i h)) ∨
     (i ∉ held (lt_dd th') ∧ (∀ h, h ∈ held (lt_dd th') → edge (g_ (dd w')) h i) ∧
      (∃ h, h ∈ held (lt_dd th') ∧ rtc (edge (g_ (dd w'))) i h) ∧
      ∃ th0, rep th0 = rep th ∧ report_pending th0 = report_pending th ∧
        lt_dd th0 = lt_dd th' ∧ reported w' lt th0 i)).

Lemma current_refl d t : tls_wf t → epoch_ t = current_epoch_ d → current d t t.
Proof. intros Ht E. split; [done|]. split; [done|]. by rewrite decide_True. Qed.

Lemma current_trans d t t1 t2 : current d t t1 → current d t1 t2 → current d t t2.
Proof.
  intros (Ht1 & E1 & H1) (Ht2 & E2 & H2). rewrite decide_True in H2 by done. by subst t2.
Qed.

(** Storing the results of an operation of the detector. *)
Lemma sys_store w d lt th t : sys_wf w → threads w !! lt = Some th → dd_wf d → same_nodes (dd w) d →
  current d (lt_dd th) t → sys_wf (set_tls (set_dd w d) lt th t).
Proof.
  intros Hw Hth Hd Hs Hc. apply sys_set_thread; [by apply sys_set_dd|].
  apply thread_ok_tls; [|done]. by eapply thread_ok_same, sw_thread.
Qed.

(** The branch of [MutexBeforeLock] that has found a cycle. *)
Lemma found_cycle w lt m th mm i scratch path0 stk tid : sys_wf w → threads w !! lt = Some th →
  mutexes w !! m = Some mm → is_node (dd w) (id mm) i → live (dd w) i →
  epoch_ (lt_dd th) = current_epoch_ (dd w) → i ∉ held (lt_dd th) →
  (∃ h, h ∈ held (lt_dd th) ∧ rtc (edge (g_ (dd w))) i h) →
  Z.of_nat (length scratch) = kMaxAdded → Z.of_nat (length path0) = 20 →
  returns ('(d, t, _) ← dd_addEdges (dd w) (lt_dd th) scratch (id mm) stk tid;
           ReportDeadlock (set_tls (set_dd w d) lt th t) lt m path0)
    (λ w', sys_wf w' ∧ ∃ th', threads w' !! lt = Some th' ∧ mutexes w' !! m = Some mm ∧
      is_node (dd w') (id mm) i ∧ lt_dd th' = lt_dd th ∧ current_epoch_ (dd w') = current_epoch_ (dd w) ∧
      (∀ h, h ∈ held (lt_dd th) → edge (g_ (dd w')) h i) ∧
      (∃ h, h ∈ held (lt_dd th) ∧ rtc (edge (g_ (dd w'))) i h) ∧ reported w' lt th i).
Proof.
  intros Hw Hth Hmm Hn Hi Ee Hih (h & Hh & Hrt) Hs Hp.
  pose proof (sw_thread w Hw lt th Hth) as (Ht & _ & Hlv & _).
  rbind (apply (dd_addEdges_spec (dd w) (lt_dd th) scratch (id mm) i); [apply Hw|done..]).
  intros [[d t] na] (Hd & Hc & Ed & Hlvd & Edt & Eg & _). pose proof Hc as (_ & _ & E).
  rewrite decide_True in E by done. subst t.
  assert (sys_wf (set_tls (set_dd w d) lt th (lt_dd th))) as Hw1.
  { apply sys_store; [done..| |]; [done|]. apply current_refl; [done|congruence]. }
  assert (threads (set_tls (set_dd w d) lt th (lt_dd th)) !! lt = Some th) as Hth1.
  { simpl. rewrite lookup_insert_eq. by destruct th. }
  assert (is_node d (id mm) i) as Hn' by (unfold is_node; by rewrite Ed).
  eapply returns_mono; [by apply (ReportDeadlock_spec _ lt m th mm i path0); simpl; try done; congruence|].
  intros w' (Hw' & (tmp & Edw) & Em & Hrep). split; [done|]. pose proof Hrep as (th' & Hth' & Edd & _).
  exists th'. split; [done|]. split; [by rewrite Em|]. rewrite Edw. simpl.
  split; [done|]. split; [done|]. split; [done|]. split; [intros; apply Eg; by right|]. split; [|done].
  exists h. split; [done|]. eapply rtc_subrel; [|exact Hrt]. intros a b ?. apply Eg. by left.
Qed.

Lemma MutexBeforeLock_spec w cb m th mm scratch path0 : sys_wf w →
  threads w !! cb_lt cb = Some th → mutexes w !! m = Some mm →
  current_epoch_ (dd w) + 2 * kSize ≤ 2 ^ 64 →
  Z.of_nat (length scratch) = kMaxAdded → Z.of_nat (length path0) = 20 →
  returns (MutexBeforeLock w cb m scratch path0) (λ w', sys_wf w' ∧
    ((w' = w ∧ (held (lt_dd th) = [] ∨ ∀ h, h ∈ held (lt_dd th) → edge (g_ (dd w)) h (nodeToIndexUnchecked (BV:=BV) (id mm)))) ∨
     before_lock w (cb_lt cb) m th w')).
Proof.
  intros Hw Hth Hmm Hov Hs Hp. unfold MutexBeforeLock. set (lt := cb_lt cb) in *.
  rewrite (get_thread_ok w lt th), (get_mutex_ok w m mm) by done. cbn [mbind result_bind].
  pose proof (sw_thread w Hw lt th Hth) as (Ht & _ & _ & _).
  rbind (by apply empty_held). intros e ->. case_bool_decide as Hem; [simpl; auto|].
  rbind (apply hasAllEdges_any; [apply Hw|done|eapply mutex_id_ok, sw_mutex; done]).
  intros [] Hb; [destruct (Hb eq_refl) as (_ & _ & ?); simpl; auto|]. clear Hb.
  rbind (by apply MutexEnsureID_spec). intros w1 (Hw1 & _ & _ & _ & [c1 t1 rep1 rp1] & mm1 & i & Hth1 & Hmm1 & Hn & Hi & _ & Hc & Er & Ep & Hh).
  rewrite (get_thread_ok w1 lt _ Hth1), (get_mutex_ok w1 m mm1) by done. cbn [mbind result_bind lt_dd rep report_pending] in *.
  pose proof Hc as (Ht1 & Ee1 & _).
  rbind (apply (isHeld_spec _ _ _ i); [apply Hw1|done..]). intros h ->. case_bool_decide as Hheld.
  { simpl. split; [done|]. right. eexists _, mm1, i. split; [exact Hth1|]. do 3 (split; [done|]). left. auto. }
  rbind (apply (onLockBefore_spec _ _ _ i); [apply Hw1|done..]).
  intros [[d2 t2] r] (Hd2 & Hc2 & (g2 & -> & Ev) & Hr). pose proof Hc2 as (_ & _ & E2).
  rewrite decide_True in E2 by done. subst t2.
  assert (∀ x y, edge g2 x y ↔ edge (g_ (dd w1)) x y) as Eg2 by (intros; unfold edge, succ; by rewrite Ev).
  assert (∀ x y, rtc (edge g2) x y ↔ rtc (edge (g_ (dd w1))) x y) as Er2.
  { intros x y. split; apply rtc_subrel; intros a b; apply Eg2. }
  set (w2 := set_tls _ _ _ _). assert (sys_wf w2) as Hw2 by (by apply sys_store).
  assert (threads w2 !! lt = Some (mkThread c1 t1 rep1 rp1)) as Hth2 by (simpl; by rewrite lookup_insert_eq).
  destruct r.
  - destruct (proj1 Hr eq_refl) as (h & Hin & Hrt). eapply returns_mono.
    { apply (found_cycle w2 lt m (mkThread c1 t1 rep1 rp1) mm1 i); try done. exists h. split; [done|by apply Er2]. }
    intros w' (Hw' & th' & Hth' & Hmm' & Hn' & Edd & Ee' & Hall & Hex & Hrep). simpl in *. split; [done|]. right.
    exists th', mm1, i. rewrite Edd. do 3 (split; [done|]). split; [|right].
    + unfold current in *. by rewrite Ee'.
    + split; [done|]. split; [done|]. split; [done|]. by eexists (mkThread c1 t1 rep1 rp1).
  - simpl. split; [done|]. right. eexists _, mm1, i. split; [exact Hth2|]. do 3 (split; [done|]). left. simpl.
    split; [done|]. split; [done|]. right. intros h Hin Hrt%Er2. assert (false = true); [|done]. apply Hr. by exists h.
Qed.

(** Both arrays of the thread have a free entry. *)
Definition has_room t : Prop :=
  n_recursive_locks t < kMaxRecursive ∧ n_all_locks_ t < kMaxLocks.

Lemma has_room_room t i : has_room t → room t i.
Proof. intros [? ?]. unfold room. by destruct (decide _). Qed.

(** A thread that acquires one more live lock. *)
Lemma thread_ok_acquire d th t i : thread_ok d th → tls_wf t → epoch_ t = epoch_ (lt_dd th) →
  (epoch_ t = current_epoch_ d → live d i) → (∀ h, h ∈ held t → h = i ∨ h ∈ held (lt_dd th)) →
  thread_ok d (mkThread (lt_ctx th) t (rep th) (report_pending th)).
Proof.
  intros (_ & Hr & Hh & Hl) Ht E Hi Hsub. split; [done|]. split; [simpl; lia|]. split; [|done].
  intros Ee h [->|Hin]%Hsub; [by apply Hi|]. apply Hh; [simpl in Ee; congruence|done].
Qed.

(** The thread holds the mutex once more than before. *)
Definition acquired lt m th w' : Prop :=
  ∃ th' mm', threads w' !! lt = Some th' ∧ mutexes w' !! m = Some mm' ∧
    rep th' = rep th ∧ report_pending th' = report_pending th ∧
    held (lt_dd th') ≡ₚ nodeToIndexUnchecked (BV:=BV) (id mm') ::
      (if decide (epoch_ (lt_dd th') = epoch_ (lt_dd th)) then held (lt_dd th) else []).

(** The slow path of [MutexAfterLock], after [MutexEnsureID]. *)
Lemma after_lock_slow w lt m th mm i (wlock trylock : bool) stk stk' tid scratch :
  sys_wf w → threads w !! lt = Some th → mutexes w !! m = Some mm → is_node (dd w) (id mm) i →
  live (dd w) i → epoch_ (lt_dd th) = current_epoch_ (dd w) → (wlock = true → i ∉ held (lt_dd th)) →
  room (lt_dd th) i → Z.of_nat (length scratch) = kMaxAdded →
  returns (
      (if wlock then h ← isHeld (dd w) (lt_dd th) (id mm); CHECK (negb h) else Ok tt);;
      '(d, t) ← (if negb trylock then
          '(d, t, _) ← dd_addEdges (dd w) (lt_dd th) scratch (id mm) stk' tid;
          Ok (d, t)
        else Ok (dd w, lt_dd th));
      t ← onLockAfter d t (id mm) stk;
      Ok (set_tls (set_dd w d) lt th t))
    (λ w', sys_wf w' ∧ acquired lt m th w' ∧
      ∀ th', threads w' !! lt = Some th' → epoch_ (lt_dd th') = epoch_ (lt_dd th)).
Proof.
  intros Hw Hth Hmm Hn Hi Ee Hwl Hroom Hs. pose proof (sw_thread w Hw lt th Hth) as Hok.
  pose proof Hok as (Ht & _ & Hlv & _). eapply returns_bind with (P := λ _, True).
  { destruct wlock; [|done]. rbind (apply (isHeld_spec _ _ _ i); [apply Hw|done..]). intros h ->.
    apply returns_CHECK; [|done]. by rewrite bool_decide_eq_false_2 by auto. }
  intros _ _. eapply returns_bind with (P := λ '(d, t), dd_wf d ∧ same_nodes (dd w) d ∧ t = lt_dd th).
  { destruct trylock; cbn [negb]; [by simpl; split; [apply Hw|]|].
    rbind (apply (dd_addEdges_spec (dd w) (lt_dd th) scratch (id mm) i); [apply Hw|done..]).
    intros [[d t] na] (Hd & (_ & _ & Hc) & Ed & Hlvd & Edt & _). rewrite decide_True in Hc by done. done. }
  intros [d t] (Hd & Hsame & ->). pose proof Hsame as (Ed & Hlvd & _).
  assert (is_node d (id mm) i) as Hn' by (by eapply same_is_node).
  rbind (by apply (onLockAfter_spec d (lt_dd th) (id mm) i)). intros t (Ht' & Et & HP).
  rewrite decide_True in HP by congruence. cbn [returns]. split.
  - apply sys_set_thread; [by apply sys_set_dd|].
    apply (thread_ok_acquire d th t i); [by eapply thread_ok_same|done|congruence|by rewrite Hlvd|].
    intros h. rewrite HP. apply elem_of_cons.
  - split; [|simpl; rewrite lookup_insert_eq; intros ? [= <-]; simpl; congruence].
    eexists _, mm. simpl. rewrite lookup_insert_eq. split; [done|]. split; [done|]. split; [done|]. split; [done|].
    simpl. rewrite decide_True by congruence. destruct Hn as (Hik & He & ->).
    destruct (epoch_node (dd w) i (sw_dd w Hw) Hik He) as (_ & -> & _). done.
Qed.

Lemma MutexAfterLock_spec w cb m th mm wlock trylock scratch : sys_wf w →
  threads w !! cb_lt cb = Some th → mutexes w !! m = Some mm →
  current_epoch_ (dd w) + 2 * kSize ≤ 2 ^ 64 → Z.of_nat (length scratch) = kMaxAdded →
  has_room (lt_dd th) → (wlock = true → ¬ holds_mutex w th m) →
  returns (MutexAfterLock w cb m wlock trylock scratch) (λ w', sys_wf w' ∧ acquired (cb_lt cb) m th w').
Proof.
  intros Hw Hth Hmm Hov Hs Hroom Hwl. unfold MutexAfterLock. set (lt := cb_lt cb) in *.
  rewrite (get_thread_ok w lt th), (get_mutex_ok w m mm) by done. cbn [mbind result_bind].
  pose proof (sw_thread w Hw lt th Hth) as Hok. pose proof Hok as (Ht & Her & Hlv & _).
  pose proof (sw_mutex w Hw m mm Hmm) as Hmok. pose proof (mutex_id_ok _ _ _ Hmok) as Hid.
  set (idx := nodeToIndexUnchecked (BV:=BV) (id mm)).
  assert (is_node (dd w) (id mm) idx → live (dd w) idx) as Hlive.
  { intros Hn. destruct Hmok as [E|[_ Hl]]; [|by apply Hl]. destruct Hn as (? & He & Hn).
    destruct (dd_epoch _ (sw_dd w Hw)). lia. }
  rbind (by apply onFirstLock_spec). intros [t r] (Ht1 & E1 & Hr). destruct r.
  { destruct Hr as (Ee & He0 & Eh & Eh'). cbn [returns]. split.
    - apply sys_set_thread; [done|]. apply (thread_ok_acquire (dd w) th t idx); [done..| |].
      + intros Ec. apply Hlive. apply node_decompose; [apply Hw| |congruence|congruence].
        destruct Hid as [E|Hle]; [|pose proof kSize_pos; lia]. exfalso. apply He0. rewrite Ee, E. done.
      + intros h. rewrite Eh'. intros ->%list_elem_of_singleton. by left.
    - eexists _, mm. simpl. rewrite lookup_insert_eq. do 4 (split; [done|]). simpl.
      rewrite decide_True, Eh', Eh by done. done. }
  subst t. rbind (apply onLockFast_any; [apply Hw|done|done|by apply has_room_room]).
  intros [t r] (Ht2 & E2 & Hr). destruct r.
  { destruct Hr as (Ee & Hn & HP). cbn [returns]. split.
    - apply sys_set_thread; [done|]. apply (thread_ok_acquire (dd w) th t idx); [done..|by intros _; apply Hlive|].
      intros h. rewrite HP. apply elem_of_cons.
    - eexists _, mm. simpl. rewrite lookup_insert_eq. do 4 (split; [done|]). simpl. by rewrite decide_True. }
  subst t. rbind (by apply MutexEnsureID_spec).
  intros w1 (Hw1 & _ & _ & _ & th1 & mm1 & i & Hth1 & Hmm1 & Hn & Hi & _ & Hc & Er & Ep & Hh).
  rewrite (get_thread_ok w1 lt th1), (get_mutex_ok w1 m mm1) by done. cbn [mbind result_bind].
  pose proof Hc as (Htc & Ee1 & Hcase). eapply returns_mono.
  - apply (after_lock_slow w1 lt m th1 mm1 i); try done.
    + intros Hwl' Hin. by apply Hwl, Hh.
    + destruct (decide _); [rewrite Hcase; by apply has_room_room|by apply held_nil_room].
  - intros w' (Hw' & (th' & mm' & Hth' & Hmm' & Er' & Ep' & HP) & Hep). split; [done|].
    specialize (Hep th' Hth'). rewrite decide_True in HP by done.
    exists th', mm'. split; [done|]. split; [done|]. split; [congruence|]. split; [congruence|]. rewrite HP.
    destruct (decide (epoch_ (lt_dd th) = _)) as [E|E].
    + by rewrite decide_True, Hcase by congruence.
    + by rewrite decide_False, Hcase by congruence.
Qed.

Lemma sys_forget w m mm' : sys_wf w → id mm' = 0 →
  (∀ mm i, mutexes w !! m = Some mm → ¬ is_node (dd w) (id mm) i) → sys_wf (set_mutex w m mm').
Proof.
  intros [Hd Ht Hm Hl] E0 Hno. split; [done..| |]; simpl.
  - intros m' mm. destruct (decide (m' = m)) as [->|].
    + rewrite lookup_insert_eq. intros [= <-]. by left.
    + rewrite lookup_insert_ne by done. apply Hm.
  - intros i Hi He. destruct (Hl i Hi He) as (m' & mm & Hdt & Hmm & Hn). exists m', mm.
    rewrite lookup_insert_ne; [done|]. intros <-. by destruct (Hno mm i).
Qed.

Lemma sys_remove_node w m mm i d : sys_wf w → mutexes w !! m = Some mm → is_node (dd w) (id mm) i →
  (∀ lt th, threads w !! lt = Some th → ¬ holds_mutex w th m) →
  dd_wf d → current_epoch_ d = current_epoch_ (dd w) → data_ d = data_ (dd w) →
  (∀ j, live d j ↔ live (dd w) j ∧ j ≠ i) →
  sys_wf (set_mutex (set_dd w d) m (mkMutex 0 (m_stk mm) (ctx mm))).
Proof.
  intros [Hd Ht Hm Hl] Hmm Hn Hnh Hd' Ee Edt Hlv.
  assert (∀ node j, is_node d node j ↔ is_node (dd w) node j) as Hsame by (intros; unfold is_node; by rewrite Ee).
  assert (data_ (dd w) !! Z.to_nat i = Some m) as Hdi.
  { destruct (Hm m mm Hmm) as [E|[_ Hx]]; [|by apply Hx]. destruct Hn as (? & He & Hx).
    destruct (dd_epoch _ Hd). lia. }
  split; [done| | |]; simpl.
  - intros lt th Hth. destruct (Ht lt th Hth) as (Hw & Hr & Hh & Hlen). split; [done|]. split; [by rewrite Ee|].
    split; [|done]. intros Eh h Hin. rewrite Hlv. rewrite Ee in Eh. split; [by apply Hh|].
    intros ->. apply (Hnh lt th Hth). by exists mm, i.
  - intros m' mm'. destruct (decide (m' = m)) as [->|Hne].
    { rewrite lookup_insert_eq. intros [= <-]. by left. }
    rewrite lookup_insert_ne by done. intros [?|[Hr Hx]]%Hm; [by left|right]. split; [by rewrite Ee|].
    intros j Hj%Hsame. destruct (Hx j Hj) as [Hlj Hdj]. rewrite Hlv, Edt. split; [|done]. split; [done|].
    intros ->. congruence.
  - intros j [Hj Hji]%Hlv He. rewrite Ee in He. destruct (Hl j Hj He) as (m' & mm' & Hdj & Hmm' & Hn').
    exists m', mm'. rewrite Edt, lookup_insert_ne; [by rewrite Hsame|].
    intros <-. assert (mm' = mm) as -> by congruence. apply Hji. by eapply is_node_inj.
Qed.

Lemma MutexDestroy_spec w m mm : sys_wf w → mutexes w !! m = Some mm →
  (∀ lt th, threads w !! lt = Some th → ¬ holds_mutex w th m) →
  returns (MutexDestroy w m) (λ w', sys_wf w' ∧ ∃ mm', mutexes w' !! m = Some mm' ∧ id mm' = 0).
Proof.
  intros Hw Hmm Hnh. unfold MutexDestroy. rewrite (get_mutex_ok w m mm) by done. cbn [mbind result_bind].
  destruct (Z.eqb_spec (id mm) 0) as [E0|E0]; [simpl; eauto|].
  pose proof (sw_mutex w Hw m mm Hmm) as Hmok. pose proof (mutex_id_ok _ _ _ Hmok) as Hid.
  destruct (nodeBelongsToCurrentEpoch (dd w) (id mm)) eqn:Hb.
  - pose proof (belongs_node (dd w) (id mm) (sw_dd w Hw) Hid Hb) as Hn.
    destruct Hmok as [?|[_ Hlive]]; [done|]. destruct (Hlive _ Hn) as [Hi _].
    eapply returns_bind with (P := λ w1, sys_wf (set_mutex w1 m (mkMutex 0 (m_stk mm) (ctx mm)))).
    { rbind (apply (removeNode_spec _ _ _ (sw_dd w Hw) Hn Hi)). intros d (Hd & Ee & Edt & Hlv & _).
      by eapply sys_remove_node. }
    intros w1 Hw1. split; [done|]. eexists. simpl. rewrite lookup_insert_eq. done.
  - cbn. split.
    + apply sys_forget; [done..|]. intros mm0 i Hmm0 Hn. assert (mm0 = mm) as -> by congruence.
      by rewrite (node_belongs _ _ _ (sw_dd w Hw) Hn) in Hb.
    + eexists. rewrite lookup_insert_eq. done.
Qed.

(** ** Events and runs *)

Inductive event :=
  | EvCreateThread (lt : Z) (raw : DDLogicalThread BV) (c : Z)
  | EvDestroyThread (lt : Z)
  | EvInit (cb : DDCallback) (m c : Z)
  | EvBeforeLock (cb : DDCallback) (m : Z) (scratch path0 : list Z)
  | EvAfterLock (cb : DDCallback) (m : Z) (wlock trylock : bool) (scratch : list Z)
  | EvBeforeUnlock (cb : DDCallback) (m : Z)
  | EvDestroy (m : Z)
  | EvGetReport (cb : DDCallback).

Definition handle w (ev : event) : result (DD BV) :=
  match ev with
  | EvCreateThread lt raw c => CreateLogicalThread w lt raw c
  | EvDestroyThread lt => DestroyLogicalThread w lt
  | EvInit cb m c => MutexInit w cb m c
  | EvBeforeLock cb m scratch path0 => MutexBeforeLock w cb m scratch path0
  | EvAfterLock cb m wlock trylock scratch => MutexAfterLock w cb m wlock trylock scratch
  | EvBeforeUnlock cb m => MutexBeforeUnlock w cb m
  | EvDestroy m => MutexDestroy w m
  | EvGetReport cb => fst <$> GetReport w cb
  end.

(** What the tool guarantees: objects exist, memory is not reused for a second
    mutex without destroying the first, a mutex is destroyed only when no thread
    holds it, a write lock is not taken twice, local arrays have their size, and
    neither the per-thread arrays nor the epoch counter is exhausted. *)
Definition allowed w (ev : event) : Prop :=
  match ev with
  | EvCreateThread lt raw c => tls_raw (lt_dd raw) ∧ Z.of_nat (length (loop (rep raw))) = kMaxLoopSize
  | EvDestroyThread lt => is_Some (threads w !! lt)
  | EvInit cb m c => ∀ mm i, mutexes w !! m = Some mm → ¬ is_node (dd w) (id mm) i
  | EvBeforeLock cb m scratch path0 =>
      is_Some (threads w !! cb_lt cb) ∧ is_Some (mutexes w !! m) ∧
      current_epoch_ (dd w) + 2 * kSize ≤ 2 ^ 64 ∧
      Z.of_nat (length scratch) = kMaxAdded ∧ Z.of_nat (length path0) = 20
  | EvAfterLock cb m wlock trylock scratch =>
      (∃ th, threads w !! cb_lt cb = Some th ∧ has_room (lt_dd th) ∧
        (wlock = true → ¬ holds_mutex w th m)) ∧
      is_Some (mutexes w !! m) ∧ current_epoch_ (dd w) + 2 * kSize ≤ 2 ^ 64 ∧
      Z.of_nat (length scratch) = kMaxAdded
  | EvBeforeUnlock cb m => is_Some (threads w !! cb_lt cb) ∧ is_Some (mutexes w !! m)
  | EvDestroy m => is_Some (mutexes w !! m) ∧
      ∀ lt th, threads w !! lt = Some th → ¬ holds_mutex w th m
  | EvGetReport cb => is_Some (threads w !! cb_lt cb)
  end.

Lemma handle_spec w ev : sys_wf w → allowed w ev → returns (handle w ev) sys_wf.
Proof.
  intros Hw Hal. destruct ev as [lt raw c|lt|cb m c|cb m scratch path0|cb m wlock trylock scratch|cb m|m|cb];
    cbn [handle allowed] in *.
  - destruct Hal as [Hraw Hlen]. unfold CreateLogicalThread. rbind (by apply restart_spec).
    intros t (Ht & E & Eh). apply sys_set_thread; [done|]. split; [done|].
    destruct (dd_epoch _ (sw_dd w Hw)). split; [simpl; lia|]. split; [|done].
    intros _ h. simpl. rewrite Eh. by intros ?%not_elem_of_nil.
  - destruct Hal as [th Hth]. unfold DestroyLogicalThread. rewrite (get_thread_ok w lt th) by done. cbn.
    destruct Hw as [Hd Ht Hm Hl]. split; [done| |done|done]. simpl.
    intros lt' th' [_ Hth']%lookup_delete_Some. by eapply Ht.
  - by apply sys_forget.
  - destruct Hal as ([th Hth] & [mm Hmm] & ? & ? & ?).
    eapply returns_mono; [by apply (MutexBeforeLock_spec w cb m th mm)|]. by intros w' [? _].
  - destruct Hal as ((th & Hth & ? & ?) & [mm Hmm] & ? & ?).
    eapply returns_mono; [by apply (MutexAfterLock_spec w cb m th mm)|]. by intros w' [? _].
  - destruct Hal as [[th Hth] [mm Hmm]]. unfold MutexBeforeUnlock.
    rewrite (get_thread_ok w _ th), (get_mutex_ok w m mm) by done. cbn [mbind result_bind].
    pose proof (sw_thread w Hw _ th Hth) as (Ht & He & Hh & Hlen).
    rbind (by apply onUnlock_any). intros t (Ht' & E & Hsub). apply sys_set_thread; [done|].
    split; [done|]. split; [simpl; lia|]. split; [|done]. intros Ee h Hin. apply Hh; [simpl in Ee; congruence|by apply Hsub].
  - destruct Hal as [[mm Hmm] Hnh]. eapply returns_mono; [by apply (MutexDestroy_spec w m mm)|]. by intros w' [? _].
  - destruct Hal as [th Hth]. unfold GetReport. rewrite (get_thread_ok w _ th) by done. cbn [mbind result_bind].
    destruct (report_pending th); cbn; [|done]. apply sys_set_thread; [done|].
    by apply (sw_thread w Hw _ th) in Hth.
Qed.

(** The states the detector reaches. *)
Inductive reachable_dd : DD BV → Prop :=
  | reach_init raw flag w : dd_raw raw → DD_ctor raw flag = Ok w → reachable_dd w
  | reach_step w ev w' : reachable_dd w → allowed w ev → handle w ev = Ok w' → reachable_dd w'.

Lemma DD_ctor_wf raw flag : dd_raw raw → returns (DD_ctor raw flag) sys_wf.
Proof.
  intros Hraw. unfold DD_ctor. rbind (by apply dd_clear_spec). intros d (Hd & Ee & _).
  split; simpl; [done|intros ? ?; by rewrite lookup_empty..|by rewrite Ee].
Qed.

Lemma reachable_wf w : reachable_dd w → sys_wf w.
Proof.
  induction 1 as [raw flag w Hraw E|w ev w' _ IH Hal E].
  - pose proof (DD_ctor_wf raw flag Hraw) as Hr. by rewrite E in Hr.
  - pose proof (handle_spec w ev IH Hal) as Hr. by rewrite E in Hr.
Qed.

(** The deadlock detector never fails: in every state it can reach, every
    call the tool is allowed to make returns (no [CHECK] fails, no index is out of
    bounds, no dangling mutex is dereferenced) and leads to such a state again. *)
Theorem dd_never_faults w ev : reachable_dd w → allowed w ev →
  ∃ w', handle w ev = Ok w' ∧ reachable_dd w'.
Proof.
  intros Hr Hal. pose proof (handle_spec w ev (reachable_wf w Hr) Hal) as Hh.
  apply returns_inv in Hh as (w' & E & _). exists w'. split; [done|]. by eapply reach_step.
Qed.

(** [MutexBeforeLock] reports a deadlock exactly when it finds a cycle of at
    most 20 locks.  If a report is pending afterwards, it describes a cycle of the
    lock graph through the new lock: a shortest path to a held lock, closed by the
    new edge.  If none is pending, then the thread held nothing, or all edges were
    there before, or the thread holds the mutex already, or every path from the
    mutex to a held lock has more than 20 nodes. *)
Theorem MutexBeforeLock_reports w cb m th mm scratch path0 : reachable_dd w →
  allowed w (EvBeforeLock cb m scratch path0) →
  threads w !! cb_lt cb = Some th → mutexes w !! m = Some mm → report_pending th = false →
  returns (MutexBeforeLock w cb m scratch path0) (λ w', ∃ th', threads w' !! cb_lt cb = Some th' ∧
    if report_pending th' then
      ∃ i l, tc (edge (g_ (dd w'))) i i ∧
        shortest (g_ (dd w')) (list_to_set (held (lt_dd th'))) i l ∧
        n (rep th') = Z.of_nat (length l) ∧ n (rep th') ≤ kMaxLoopSize ∧
        describes w' l (loop (rep th')) (length l)
    else
      held (lt_dd th) = [] ∨
      (∀ h, h ∈ held (lt_dd th) → edge (g_ (dd w)) h (nodeToIndexUnchecked (BV:=BV) (id mm))) ∨
      holds_mutex w th m ∨
      ∃ mm' i, mutexes w' !! m = Some mm' ∧ is_node (dd w') (id mm') i ∧
        ∀ l, gpath (g_ (dd w')) (list_to_set (held (lt_dd th'))) i l → kMaxLoopSize < Z.of_nat (length l)).
Proof.
  intros Hr (_ & _ & Hov & Hs & Hp) Hth Hmm Hpend.
  eapply returns_mono; [by apply (MutexBeforeLock_spec w cb m th mm), Hp; [apply reachable_wf|..]|].
  intros w' [Hw' [[-> Hwhy]|(th' & mm' & i & Hth' & Hmm' & Hn & _ & Hcase)]].
  { exists th. split; [done|]. rewrite Hpend. tauto. }
  exists th'. split; [done|]. destruct Hcase as [(_ & -> & Hwhy)|(Hih & Hall & (h & Hh & Hrt) & th0 & Er & Ep & Edd & Hrep)].
  - rewrite Hpend. destruct Hwhy as [?|Hno]; [tauto|]. right. right. right. exists mm', i.
    split; [done|]. split; [done|]. intros l Hl. exfalso.
    destruct (proj1 (gpath_reachable (g_ (dd w')) _ i) (ex_intro _ l Hl)) as (t & Ht & Hit).
    apply elem_of_list_to_set in Ht. by eapply Hno.
  - destruct Hrep as (th2 & Hth2 & _ & Hrep). assert (th2 = th') as -> by congruence. rewrite Edd in Hrep.
    destruct Hrep as [(_ & Epend & Hlong)|(l & Hl & Epend & Hn' & Hle & Hd)].
    + rewrite Epend, Ep, Hpend. right. right. right. by exists mm', i.
    + rewrite Epend. exists i, l. split; [|by rewrite Hn'].
      apply tc_rtc_l with h; [done|]. by apply tc_once, Hall.
Qed.

End spec.

(** ** A concrete run with eight lock nodes *)
Import Basic.

Definition raw_thread : DDLogicalThread V8 :=
  mkThread 0 t_raw (mkReport 3 (replicate 20 (mkEntry 0 0 0 0 0))) true.
Definition cb1 : DDCallback := mkCallback 1 (λ _, 77) 5.

Definition w0 : DD V8 := from_result (mkDD d_raw true ∅ ∅) (DD_ctor d_raw true).
Definition w1 : DD V8 := from_result w0 (handle w0 (EvCreateThread 1 raw_thread 9)).
Definition w2 : DD V8 := from_result w1 (handle w1 (EvInit cb1 1000 50)).
Definition w3 : DD V8 := from_result w2 (handle w2 (EvInit cb1 2000 60)).
Definition w4 : DD V8 := from_result w3 (handle w3 (EvAfterLock cb1 1000 true false (replicate 40 0))).

Lemma reach_from w ev : reachable_dd (BV:=V8) w → allowed w ev → reachable_dd (from_result w (handle w ev)).
Proof.
  intros Hr Hal. pose proof (handle_spec w ev (reachable_wf w Hr) Hal) as Hh.
  apply returns_inv in Hh as (w' & E & _). rewrite E. by eapply reach_step.
Qed.

Lemma w0_reachable : reachable_dd w0.
Proof.
  apply (reach_init d_raw true); [|vm_compute; done].
  repeat (split; [cbv; done|]). split; [|split; done]. split; [done|].
  split; [repeat constructor; cbv; done|split; cbv; done].
Qed.

Lemma w3_reachable : reachable_dd w3.
Proof.
  repeat apply reach_from.
  - apply w0_reachable.
  - split; [split; [cbv; done|split; done]|done].
  - intros mm i E. vm_compute in E. done.
  - intros mm i E. vm_compute in E. done.
Qed.

Lemma w4_reachable : reachable_dd w4.
Proof.
  apply reach_from; [apply w3_reachable|]. split; [|split; [|split]].
  - eexists. split; [vm_compute; done|]. split; [vm_compute; done|].
    intros _ (mm & i & _ & (_ & He & _) & _). apply He. vm_compute. done.
  - eexists. vm_compute. done.
  - vm_compute. done.
  - done.
Qed.

Definition lock2 : event := EvBeforeLock (BV:=V8) cb1 2000 (replicate 40 0) (replicate 20 0).

Lemma lock2_allowed : allowed w4 lock2.
Proof.
  split; [eexists; vm_compute; done|]. split; [eexists; vm_compute; done|].
  split; [vm_compute; done|]. split; done.
Qed.

Lemma dd_never_faults_witness : ∃ w', handle w4 lock2 = Ok w' ∧ reachable_dd w'.
Proof. apply (dd_never_faults w4 lock2); [apply w4_reachable|apply lock2_allowed]. Defined.

Definition th1 : DDLogicalThread V8 := from_result raw_thread (get_thread w4 1).
Definition mm2 : DDMutex := from_result (mkMutex 0 0 0) (get_mutex w4 2000).

Lemma MutexBeforeLock_reports_witness :
  returns (MutexBeforeLock w4 cb1 2000 (replicate 40 0) (replicate 20 0)) (λ w',
    ∃ th', threads w' !! cb_lt cb1 = Some th' ∧
    if report_pending th' then
      ∃ i l, tc (edge (g_ (dd w'))) i i ∧
        shortest (g_ (dd w')) (list_to_set (held (lt_dd th'))) i l ∧
        n (rep th') = Z.of_nat (length l) ∧ n (rep th') ≤ kMaxLoopSize ∧
        describes w' l (loop (rep th')) (length l)
    else
      held (lt_dd th1) = [] ∨
      (∀ h, h ∈ held (lt_dd th1) → edge (g_ (dd w4)) h (nodeToIndexUnchecked (BV:=V8) (id mm2))) ∨
      holds_mutex w4 th1 2000 ∨
      ∃ mm' i, mutexes w' !! 2000 = Some mm' ∧ is_node (dd w') (id mm') i ∧
        ∀ l, gpath (g_ (dd w')) (list_to_set (held (lt_dd th'))) i l → kMaxLoopSize < Z.of_nat (length l)).
Proof.
  apply (MutexBeforeLock_reports w4 cb1 2000 th1 mm2 (replicate 40 0) (replicate 20 0));
    [apply w4_reachable|apply lock2_allowed|vm_compute; done..].
Defined.

(** Thread 1 takes 1000 then 2000; thread 2 takes 2000 and asks for 1000: the
    report of thread 2 names the two mutexes. *)
Example two_threads_report :
  let cb2 := mkCallback 2 (λ _, 88) 6 in
  let z40 := replicate 40 0 in
  let z20 := replicate 20 0 in
  match
    (w ← handle w4 lock2;
     w ← handle w (EvAfterLock cb1 2000 true false z40);
     w ← handle w (EvBeforeUnlock cb1 2000);
     w ← handle w (EvBeforeUnlock cb1 1000);
     w ← handle w (EvCreateThread 2 raw_thread 10);
     w ← handle w (EvAfterLock cb2 2000 true false z40);
     w ← handle w (EvBeforeLock cb2 1000 z40 z20);
     GetReport w cb2)
  with
  | Ok (_, Some r) => n r = 2 ∧ (mtx_ctx0 <$> take 2 (loop r)) = [50; 60]
  | _ => False
  end.
Proof. vm_compute. done. Qed.

End DDet.
