(* ===== verification/IntrusiveList.v ===== *)
(** * IntrusiveList: singly linked lists threaded through their items

    Models [sanitizer_list.h].  Items live in a heap, a finite map from
    addresses; the list object holds the size and the addresses of the first and
    the last item, 0 being the null pointer.  What an item is besides its [next]
    field is abstract (class [Linked]); [Quarantine] uses the lists with its
    batches as items.

    [lrep h l xs] says that in the heap [h] the list [l] consists of the items at
    the addresses [xs].  Every operation is proved to have the effect of the
    corresponding operation on sequences and to write no other item; [run_lists]
    at the end lifts this to programs that work on several lists over one heap. *)
From S2P Require Import Prelude Common.

(** Items have a [next] field. *)
Class Linked (Item : Type) := {
  next : Item → Z;
  set_next : Z → Item → Item
}.

Class LinkedLaws (Item : Type) `{Linked Item} := {
  next_set_next p it : next (set_next p it) = p;
  set_next_set_next p q it : set_next p (set_next q it) = set_next p it
}.

Module ListM.

Record IntrusiveList := IL { size_ : Z; first_ : Z; last_ : Z }.

#[export] Instance IntrusiveList_eq_dec : EqDecision IntrusiveList.
Proof. solve_decision. Defined.

Abbreviation list_empty l := (size_ l =? 0) (only parsing).
Abbreviation list_size l := (size_ l) (only parsing).
Abbreviation front l := (first_ l) (only parsing).
Abbreviation back l := (last_ l) (only parsing).

Section ops.
Context {Item : Type} `{Linked Item}.
Notation heap := (gmap Z Item).
Implicit Types (h : heap) (l : IntrusiveList).

(** Dereference: the null pointer and addresses without an item fault. *)
Definition load h (p : Z) : result Item :=
  if p =? 0 then Fault NullDeref
  else match h !! p with Some it => Ok it | None => Fault NullDeref end.

Definition load_next h (p : Z) : result Z := it ← load h p; Ok (next it).

Definition store_next h (p q : Z) : result heap :=
  it ← load h p;
  Ok (<[p := set_next q it]> h).

Definition list_clear : IntrusiveList := IL 0 0 0.



Definition push_back h l (x : Z) : result (heap * IntrusiveList) :=
  if list_empty l then
    h ← store_next h x 0;
    Ok (h, IL 1 x x)
  else
    h ← store_next h x 0;
    h ← store_next h (last_ l) x;
    Ok (h, IL (u64 (size_ l + 1)) (first_ l) x).

Definition push_front h l (x : Z) : result (heap * IntrusiveList) :=
  if list_empty l then
    h ← store_next h x 0;
    Ok (h, IL 1 x x)
  else
    h ← store_next h x (first_ l);
    Ok (h, IL (u64 (size_ l + 1)) x (last_ l)).

Definition pop_front h l : result IntrusiveList :=
  CHECK (negb (list_empty l));;
  f ← load_next h (first_ l);
  Ok (IL (u64 (size_ l - 1)) f (if f =? 0 then 0 else last_ l)).

Definition extract h l (prev x : Z) : result (heap * IntrusiveList) :=
  CHECK (negb (list_empty l));;
  CHECK (negb (prev =? 0));;
  CHECK (negb (x =? 0));;
  n ← load_next h prev;
  CHECK (n =? x);;
  n ← load_next h x;
  h ← store_next h prev n;
  Ok (h, IL (u64 (size_ l - 1)) (first_ l) (if last_ l =? x then prev else last_ l)).


(** The results are [*this] and [*l]; [this_is_l] is [this == l]. *)
Definition append_front h (this l : IntrusiveList) (this_is_l : bool) :
    result (heap * IntrusiveList * IntrusiveList) :=
  CHECK (negb this_is_l);;
  if list_empty l then Ok (h, this, l)
  else if list_empty this then Ok (h, l, list_clear)
  else
    h ← store_next h (last_ l) (first_ this);
    Ok (h, IL (u64 (size_ this + list_size l)) (first_ l) (last_ this), list_clear).

Definition append_back h (this l : IntrusiveList) (this_is_l : bool) :
    result (heap * IntrusiveList * IntrusiveList) :=
  CHECK (negb this_is_l);;
  if list_empty l then Ok (h, this, l)
  else if list_empty this then Ok (h, l, list_clear)
  else
    h ← store_next h (last_ this) (first_ l);
    Ok (h, IL (u64 (size_ this + list_size l)) (first_ this) (last_ l), list_clear).

(** The loop of [CheckConsistency]: counts the items up to [last_]. *)
Fixpoint count_loop (fuel : nat) h l (i count : Z) : result Z :=
  let count := count + 1 in
  if i =? last_ l then Ok count
  else
    match fuel with
    | O => Fault OutOfFuel
    | S fuel => i ← load_next h i; count_loop fuel h l i count
    end.

(** The list has at most as many items as the heap: its size is enough fuel. *)
Definition CheckConsistency h l : result unit :=
  if size_ l =? 0 then
    CHECK (first_ l =? 0);;
    CHECK (last_ l =? 0)
  else
    count ← count_loop (size h) h l (first_ l) 0;
    CHECK (list_size l =? count);;
    n ← load_next h (last_ l);
    CHECK (n =? 0).

(** Iteration [for (it = begin(); it != end(); ++it)] collects the addresses. *)
Fixpoint collect (fuel : nat) h (current : Z) : result (list Z) :=
  if current =? 0 then Ok []
  else
    match fuel with
    | O => Fault OutOfFuel
    | S fuel => n ← load_next h current; xs ← collect fuel h n; Ok (current :: xs)
    end.

Definition iterate h l : result (list Z) := collect (size h) h (first_ l).

End ops.

(** ** The sequence a list represents *)
Section spec.
Context {Item : Type} `{LinkedLaws Item}.
Notation heap := (gmap Z Item).
Implicit Types (h : heap) (l : IntrusiveList) (xs ys : list Z).

(** A chain of items whose last [next] is [q]. *)
Fixpoint seg h xs (q : Z) : Prop :=
  match xs with
  | [] => True
  | x :: ys => x ≠ 0 ∧ (∃ it, h !! x = Some it ∧ next it = hd q ys) ∧ seg h ys q
  end.

Record lrep h l xs : Prop := {
  lrep_nodup : NoDup xs;
  lrep_seg : seg h xs 0;
  lrep_size : size_ l = Z.of_nat (length xs);
  lrep_bound : Z.of_nat (length xs) < 2 ^ 64;
  lrep_first : first_ l = hd 0 xs;
  lrep_last : last_ l = default 0 (last xs)
}.

(** [h'] differs from [h] at most in the [next] fields of [S]. *)
Definition writes (S : list Z) h h' : Prop :=
  ∀ y, (y ∉ S → h' !! y = h !! y) ∧ set_next 0 <$> h' !! y = set_next 0 <$> h !! y.

Lemma writes_refl S h : writes S h h.
Proof. done. Qed.

Lemma writes_trans S h1 h2 h3 : writes S h1 h2 → writes S h2 h3 → writes S h1 h3.
Proof.
  intros H1 H2 y. destruct (H1 y) as [Ha1 Hb1], (H2 y) as [Ha2 Hb2].
  split; [intros; rewrite Ha2; auto|congruence].
Qed.

Lemma writes_mono S S' h h' : S ⊆ S' → writes S h h' → writes S' h h'.
Proof. intros Hs Hw y. destruct (Hw y) as [Ha Hb]. split; [|done]. intros Hy. apply Ha. set_solver. Qed.

Lemma writes_insert h p it q : h !! p = Some it → writes [p] h (<[p := set_next q it]> h).
Proof.
  intros Hp y. split.
  - intros Hy. apply lookup_insert_ne. set_solver.
  - destruct (decide (y = p)) as [->|]; [|by rewrite lookup_insert_ne].
    by rewrite lookup_insert_eq, Hp; simpl; rewrite set_next_set_next.
Qed.

Lemma writes_lookup S h h' y it : writes S h h' → h !! y = Some it →
  ∃ it', h' !! y = Some it' ∧ set_next 0 it' = set_next 0 it.
Proof.
  intros Hw Hy. destruct (Hw y) as [_ E]. rewrite Hy in E. destruct (h' !! y); simplify_eq/=. eauto.
Qed.

Lemma hd_app (q : Z) xs ys : hd q (xs ++ ys) = hd (hd q ys) xs.
Proof. by destruct xs. Qed.

Lemma seg_app h xs ys q : seg h (xs ++ ys) q ↔ seg h xs (hd q ys) ∧ seg h ys q.
Proof.
  induction xs as [|x xs IH]; simpl; [tauto|]. rewrite hd_app, IH. tauto.
Qed.

Lemma seg_frame h h' xs q : (∀ x, x ∈ xs → next <$> h' !! x = next <$> h !! x) → seg h xs q → seg h' xs q.
Proof.
  induction xs as [|x xs IH]; intros Hf; [done|]. intros (Hx & (it & Hit & En) & Hs). split; [done|]. split.
  - specialize (Hf x (list_elem_of_here _ _)). rewrite Hit in Hf.
    destruct (h' !! x) as [it'|]; simplify_eq/=. exists it'. split; [done|congruence].
  - apply IH; [|done]. intros y Hy. apply Hf. by right.
Qed.

Lemma seg_writes S h h' xs q : writes S h h' → (∀ x, x ∈ xs → x ∉ S) → seg h xs q → seg h' xs q.
Proof. intros Hw Hd. apply seg_frame. intros x Hx. destruct (Hw x) as [E _]. by rewrite E by auto. Qed.

Lemma seg_lookup h xs q x : seg h xs q → x ∈ xs → x ≠ 0 ∧ ∃ it, h !! x = Some it.
Proof.
  induction xs as [|y xs IH]; [by intros _ ?%not_elem_of_nil|]. intros (Hy & (it & Hit & _) & Hs).
  intros [->|Hx]%elem_of_cons; [eauto|auto].
Qed.

Lemma seg_first h x xs q : seg h (x :: xs) q → ∃ it, h !! x = Some it ∧ next it = hd q xs.
Proof. by intros (_ & ? & _). Qed.

(** Redirecting the end of a chain. *)
Lemma seg_redirect h xs x q q' it : x ∉ xs → seg h (xs ++ [x]) q → h !! x = Some it →
  seg (<[x := set_next q' it]> h) (xs ++ [x]) q'.
Proof.
  intros Hx [Hs (Hn & _ & _)]%seg_app Hit. apply seg_app. split.
  - eapply seg_frame; [|exact Hs]. intros y Hy. rewrite lookup_insert_ne; [done|]. by intros <-.
  - simpl. split; [done|]. split; [|done]. exists (set_next q' it). rewrite lookup_insert_eq, next_set_next. done.
Qed.

(** ** Loads and stores *)

Lemma load_ok h p it : p ≠ 0 → h !! p = Some it → load h p = Ok it.
Proof. intros Hp E. unfold load. by rewrite (proj2 (Z.eqb_neq p 0)), E by done. Qed.

Lemma load_next_ok h p it : p ≠ 0 → h !! p = Some it → load_next h p = Ok (next it).
Proof. intros Hp E. unfold load_next. by rewrite (load_ok h p it). Qed.

Lemma store_next_ok h p q it : p ≠ 0 → h !! p = Some it → store_next h p q = Ok (<[p := set_next q it]> h).
Proof. intros Hp E. unfold store_next. by rewrite (load_ok h p it). Qed.

Lemma lrep_empty h l xs : lrep h l xs → list_empty l = bool_decide (xs = []).
Proof.
  intros [_ _ E _ _ _]. rewrite E. destruct xs; [done|].
  rewrite bool_decide_eq_false_2 by done. apply Z.eqb_neq. simpl. lia.
Qed.

Lemma lrep_nil h : lrep h list_clear [].
Proof. split; try done. constructor. Qed.

Lemma lrep_nil_inv h l : lrep h l [] → l = list_clear.
Proof. intros [_ _ E1 _ E2 E3]. destruct l. simpl in *. by subst. Qed.

(** A list is not affected by writes to other items. *)
Lemma lrep_writes S h h' l xs : writes S h h' → (∀ x, x ∈ xs → x ∉ S) → lrep h l xs → lrep h' l xs.
Proof. intros Hw Hd []. split; try done. by eapply seg_writes. Qed.

(** The last item of a list that is not empty. *)
Lemma lrep_snoc h l xs : lrep h l xs → xs ≠ [] → ∃ ys x, xs = ys ++ [x] ∧ last_ l = x ∧ x ∉ ys.
Proof.
  intros [Hnd _ _ _ _ El] Hne. destruct (exists_last Hne) as (ys & x & ->). exists ys, x.
  split; [done|]. rewrite last_snoc in El. split; [done|]. apply NoDup_app in Hnd as (_ & Hd & _).
  intros Hx. apply (Hd x Hx). by constructor.
Qed.

Lemma push_single h x it : x ≠ 0 → h !! x = Some it →
  lrep (<[x := set_next 0 it]> h) (IL 1 x x) [x].
Proof.
  intros Hx Hit. split; try done; [apply NoDup_singleton|]. simpl. split; [done|]. split; [|done].
  exists (set_next 0 it). by rewrite lookup_insert_eq, next_set_next.
Qed.

Lemma push_back_spec h l xs x it : lrep h l xs → x ≠ 0 → x ∉ xs → h !! x = Some it →
  Z.of_nat (length xs) + 1 < 2 ^ 64 →
  returns (push_back h l x) (λ '(h', l'), lrep h' l' (xs ++ [x]) ∧ writes (x :: xs) h h').
Proof.
  intros Hl Hx Hxs Hit Hb. unfold push_back. rewrite (lrep_empty _ _ _ Hl).
  rewrite (store_next_ok h x 0 it) by done. cbn [mbind result_bind]. case_bool_decide as Hne.
  - subst xs. simpl. split; [by apply push_single|]. eapply writes_mono; [|by apply writes_insert]. set_solver.
  - destruct (lrep_snoc _ _ _ Hl Hne) as (ys & y & -> & -> & Hy). pose proof Hl as [Hnd Hs Esz _ Ef El].
    destruct (seg_lookup h _ _ y Hs) as [Hy0 [ity Hity]]; [set_solver +|].
    assert (x ≠ y) as Hxy by (intros ->; set_solver).
    rewrite (store_next_ok _ y x ity) by (done || by rewrite lookup_insert_ne). cbn [mbind result_bind returns].
    split.
    + split.
      * apply NoDup_app. split; [done|]. split; [set_solver|apply NoDup_singleton].
      * apply seg_app. split.
        -- simpl. apply seg_redirect with 0; [done| |by rewrite lookup_insert_ne].
           eapply seg_frame; [|exact Hs]. intros z Hz. rewrite lookup_insert_ne; [done|]. intros <-. done.
        -- simpl. split; [done|]. split; [|done]. exists (set_next 0 it).
           by rewrite lookup_insert_ne, lookup_insert_eq, next_set_next by done.
      * simpl. rewrite !length_app in *. simpl in *. rewrite cast_id; lia.
      * rewrite !length_app in *. simpl in *. lia.
      * simpl. rewrite Ef. by destruct ys.
      * simpl. by rewrite last_snoc.
    + eapply writes_trans; (eapply writes_mono; [|apply writes_insert]); [set_solver +|done|set_solver +|].
      by rewrite lookup_insert_ne.
Qed.

Lemma push_front_spec h l xs x it : lrep h l xs → x ≠ 0 → x ∉ xs → h !! x = Some it →
  Z.of_nat (length xs) + 1 < 2 ^ 64 →
  returns (push_front h l x) (λ '(h', l'), lrep h' l' (x :: xs) ∧ writes [x] h h').
Proof.
  intros Hl Hx Hxs Hit Hb. unfold push_front. rewrite (lrep_empty _ _ _ Hl). case_bool_decide as Hne.
  - rewrite (store_next_ok h x 0 it) by done. subst xs. simpl. split; [by apply push_single|by apply writes_insert].
  - rewrite (store_next_ok h x (first_ l) it) by done. cbn [mbind result_bind returns].
    pose proof Hl as [Hnd Hs Esz _ Ef El]. split; [|by apply writes_insert]. split.
    + by constructor.
    + simpl. split; [done|]. split.
      * exists (set_next (first_ l) it). by rewrite lookup_insert_eq, next_set_next.
      * eapply seg_writes; [by apply writes_insert| |done]. intros z Hz. set_solver.
    + simpl length. simpl size_. rewrite cast_id; lia.
    + simpl. lia.
    + done.
    + simpl. rewrite El. by destruct xs.
Qed.

Lemma pop_front_spec h l x xs : lrep h l (x :: xs) → returns (pop_front h l) (λ l', lrep h l' xs).
Proof.
  intros Hl. unfold pop_front. rewrite (lrep_empty _ _ _ Hl). rstep_check; [done|].
  destruct Hl as [Hnd Hs Esz Hb Ef El]. simpl in Ef. rewrite Ef.
  destruct (seg_lookup h _ _ x Hs) as [Hx _]; [by constructor|]. destruct (seg_first _ _ _ _ Hs) as (it & Hit & En).
  rewrite (load_next_ok h x it) by done. cbn [mbind result_bind returns]. rewrite En.
  apply NoDup_cons in Hnd as [Hni Hnd]. destruct Hs as (_ & _ & Hs). simpl in Esz, Hb. split; simpl; try done; try lia.
  - rewrite cast_id; lia.
  - destruct xs as [|y ys]; [done|]. simpl. destruct (seg_lookup h _ _ y Hs) as [Hy _]; [by constructor|].
    rewrite (proj2 (Z.eqb_neq y 0)) by done. by rewrite El.
Qed.

Lemma pop_front_empty h l : lrep h l [] → pop_front h l = Fault CheckFailed.
Proof. intros ->%lrep_nil_inv. done. Qed.

Lemma extract_spec h l xs prev x ys : lrep h l (xs ++ prev :: x :: ys) →
  returns (extract h l prev x) (λ '(h', l'), lrep h' l' (xs ++ prev :: ys) ∧ writes [prev] h h' ∧
    h' !! x = h !! x).
Proof.
  intros Hl. pose proof Hl as [Hnd Hs Esz Hb Ef El]. unfold extract. rewrite (lrep_empty _ _ _ Hl).
  rewrite bool_decide_eq_false_2 by (by destruct xs). cbn [negb CHECK mbind result_bind].
  destruct (seg_lookup h _ _ prev Hs) as [Hp _]; [set_solver +|].
  destruct (seg_lookup h _ _ x Hs) as [Hx _]; [set_solver +|].
  rewrite !(proj2 (Z.eqb_neq _ 0)) by done. cbn [negb CHECK mbind result_bind].
  apply seg_app in Hs as [Hs1 (_ & (itp & Hitp & Enp) & (_ & (itx & Hitx & Enx) & Hs2))]. simpl in Enp.
  rewrite (load_next_ok h prev itp), Enp by done. cbn [mbind result_bind].
  rewrite Z.eqb_refl. cbn [CHECK mbind result_bind].
  rewrite (load_next_ok h x itx), Enx by done. cbn [mbind result_bind].
  rewrite (store_next_ok h prev _ itp) by done. cbn [mbind result_bind returns].
  apply NoDup_app in Hnd as (Hnd1 & Hd & [Hp2 [Hx2 Hnd2]%NoDup_cons]%NoDup_cons).
  assert (x ≠ prev) as Hxp by (intros ->; apply Hp2; by constructor).
  split; [|split; [by apply writes_insert|by apply lookup_insert_ne]]. split.
  - apply NoDup_app. split; [done|]. split; [set_solver + Hd|]. constructor; [set_solver + Hp2|done].
  - apply seg_app. split; [|split; [done|split]].
    + eapply seg_writes; [by apply writes_insert| |exact Hs1]. set_solver + Hd.
    + eexists. by rewrite lookup_insert_eq, next_set_next.
    + eapply seg_writes; [by apply writes_insert| |exact Hs2]. set_solver + Hp2.
  - simpl. rewrite length_app in *. simpl in *. rewrite cast_id; lia.
  - rewrite length_app in *. simpl in *. lia.
  - simpl. rewrite Ef. by destruct xs.
  - simpl. rewrite El, !last_app_cons. destruct ys as [|y ys]; simpl.
    + by rewrite Z.eqb_refl.
    + destruct (Z.eqb_spec (default 0 (last (y :: ys))) x) as [E|E]; [|done]. exfalso.
      destruct (last (y :: ys)) as [z|] eqn:Elast; [|by apply last_None in Elast]. simpl in E. subst z.
      apply last_Some_elem_of in Elast. done.
Qed.

(** Joining two chains. *)
Lemma join_spec h l1 l2 xs ys : lrep h l1 xs → lrep h l2 ys → xs ≠ [] → ys ≠ [] →
  (∀ x, x ∈ xs → x ∉ ys) → Z.of_nat (length xs + length ys) < 2 ^ 64 →
  returns (store_next h (last_ l1) (first_ l2)) (λ h',
    lrep h' (IL (u64 (size_ l1 + size_ l2)) (first_ l1) (last_ l2)) (xs ++ ys) ∧ writes xs h h').
Proof.
  intros H1 H2 Hx Hy Hd Hb. destruct (lrep_snoc _ _ _ H1 Hx) as (zs & z & -> & -> & Hz).
  pose proof H1 as [Hnd1 Hs1 Esz1 _ Ef1 El1]. pose proof H2 as [Hnd2 Hs2 Esz2 _ Ef2 El2].
  destruct (seg_lookup h _ _ z Hs1) as [Hz0 [itz Hitz]]; [set_solver +|].
  rewrite (store_next_ok h z _ itz) by done. simpl.
  split; [|eapply writes_mono; [|by apply writes_insert]; set_solver +]. split.
  - apply NoDup_app. split; [done|]. split; [set_solver + Hd|done].
  - apply seg_app. rewrite <- Ef2. split; [by eapply seg_redirect|].
    eapply seg_writes; [by apply writes_insert| |exact Hs2]. set_solver + Hd.
  - simpl. rewrite length_app, Esz1, Esz2, cast_id; lia.
  - rewrite length_app. lia.
  - simpl. rewrite Ef1. by destruct zs.
  - simpl. rewrite El2. destruct ys as [|y ys]; [done|]. by rewrite last_app_cons.
Qed.

Lemma append_back_spec h l1 l2 xs ys : lrep h l1 xs → lrep h l2 ys → (∀ x, x ∈ xs → x ∉ ys) →
  Z.of_nat (length xs + length ys) < 2 ^ 64 →
  returns (append_back h l1 l2 false) (λ '(h', l1', l2'),
    lrep h' l1' (xs ++ ys) ∧ l2' = list_clear ∧ writes xs h h').
Proof.
  intros H1 H2 Hd Hb. unfold append_back. cbn [negb CHECK mbind result_bind].
  rewrite (lrep_empty _ _ _ H2), (lrep_empty _ _ _ H1).
  case_bool_decide as Ey; [subst ys; rewrite app_nil_r; split; [done|split; [by eapply lrep_nil_inv|apply writes_refl]]|].
  case_bool_decide as Ex; [by subst xs|].
  rbind (by apply (join_spec h l1 l2 xs ys)). intros h' [Hl Hw]. done.
Qed.

Lemma append_front_spec h l1 l2 xs ys : lrep h l1 xs → lrep h l2 ys → (∀ x, x ∈ xs → x ∉ ys) →
  Z.of_nat (length xs + length ys) < 2 ^ 64 →
  returns (append_front h l1 l2 false) (λ '(h', l1', l2'),
    lrep h' l1' (ys ++ xs) ∧ l2' = list_clear ∧ writes ys h h').
Proof.
  intros H1 H2 Hd Hb. unfold append_front. cbn [negb CHECK mbind result_bind].
  rewrite (lrep_empty _ _ _ H2), (lrep_empty _ _ _ H1).
  case_bool_decide as Ey; [subst ys; split; [done|split; [by eapply lrep_nil_inv|apply writes_refl]]|].
  case_bool_decide as Ex; [subst xs; rewrite app_nil_r; done|].
  rbind (apply (join_spec h l2 l1 ys xs); try done; [set_solver + Hd|lia]). intros h' [Hl Hw].
  cbn [returns]. split; [|done]. by rewrite (Z.add_comm (size_ l1)).
Qed.

Lemma seg_size h xs q : NoDup xs → seg h xs q → (length xs ≤ size h)%nat.
Proof.
  intros Hnd Hs. rewrite <- size_dom, <- (size_list_to_set (C:=gset Z)) by done.
  apply subseteq_size. intros x Hx%elem_of_list_to_set. apply elem_of_dom.
  by destruct (seg_lookup h xs q x Hs Hx) as [_ ?].
Qed.

Lemma collect_spec h xs fuel : seg h xs 0 → (length xs ≤ fuel)%nat → collect fuel h (hd 0 xs) = Ok xs.
Proof.
  revert fuel. induction xs as [|x xs IH]; intros fuel Hs Hf; [by destruct fuel|].
  destruct Hs as (Hx & (it & Hit & En) & Hs). destruct fuel as [|fuel]; simpl in Hf; [lia|].
  cbn [collect hd]. rewrite (proj2 (Z.eqb_neq x 0)), (load_next_ok h x it), En by done.
  cbn [mbind result_bind]. by rewrite IH by (done || lia).
Qed.

Lemma iterate_spec h l xs : lrep h l xs → iterate h l = Ok xs.
Proof.
  intros [Hnd Hs _ _ Ef _]. unfold iterate. rewrite Ef. apply collect_spec; [done|by eapply seg_size].
Qed.

Lemma count_loop_spec h l xs x c fuel : x ∉ xs → seg h (xs ++ [x]) 0 → last_ l = x → (length xs ≤ fuel)%nat →
  count_loop fuel h l (hd x xs) c = Ok (c + Z.of_nat (length xs) + 1).
Proof.
  revert c fuel. induction xs as [|y xs IH]; intros c fuel Hx Hs El Hf.
  - destruct fuel; simpl; rewrite El, Z.eqb_refl; f_equal; lia.
  - destruct Hs as (Hy & (it & Hit & En) & Hs). destruct fuel as [|fuel]; simpl in Hf; [lia|].
    cbn [count_loop hd]. assert (y ≠ x) as Hyx by set_solver + Hx. rewrite El, (proj2 (Z.eqb_neq y x)) by done.
    rewrite (load_next_ok h y it), En by done. cbn [mbind result_bind].
    replace (hd 0 (xs ++ [x])) with (hd x xs) by (by destruct xs).
    rewrite IH; [f_equal; simpl; lia|set_solver + Hx|done|done|lia].
Qed.

(** [CheckConsistency] accepts every well-formed list. *)
Lemma CheckConsistency_spec h l xs : lrep h l xs → CheckConsistency h l = Ok tt.
Proof.
  intros Hl. unfold CheckConsistency. pose proof (lrep_empty _ _ _ Hl) as Ee. rewrite Ee.
  case_bool_decide as Hne; [subst xs; by rewrite (lrep_nil_inv _ _ Hl)|].
  destruct (lrep_snoc _ _ _ Hl Hne) as (ys & x & -> & El & Hx). destruct Hl as [Hnd Hs Esz Hb Ef _].
  rewrite Ef. replace (hd 0 (ys ++ [x])) with (hd x ys) by (by destruct ys).
  pose proof (seg_size _ _ _ Hnd Hs) as Hle. rewrite length_app in Hle, Esz. simpl in Hle, Esz.
  rewrite (count_loop_spec h l ys x) by (done || lia). cbn [mbind result_bind].
  rewrite Esz, (proj2 (Z.eqb_eq _ _)) by lia. cbn [CHECK mbind result_bind].
  apply seg_app in Hs as [_ (Hx0 & (it & Hit & En) & _)]. rewrite El, (load_next_ok h x it), En by done. done.
Qed.

End spec.

(** ** Programs on several lists

    [r] and [s] are indices into an array of lists that share one heap. *)
Inductive lop :=
  | LClear (r : nat)
  | LPushBack (r : nat) (x : Z)
  | LPushFront (r : nat) (x : Z)
  | LPopFront (r : nat)
  | LExtract (r : nat) (prev x : Z)
  | LAppendFront (r s : nat)
  | LAppendBack (r s : nat)
  | LFront (r : nat)
  | LBack (r : nat)
  | LSize (r : nat)
  | LIterate (r : nat)
  | LCheck (r : nat).

Inductive lout := LUnit | LNum (n : Z) | LAddrs (xs : list Z).

Section run.
Context {Item : Type} `{Linked Item}.
Notation heap := (gmap Z Item).

Definition get_list (ls : list IntrusiveList) (r : nat) : result IntrusiveList := aget ls (Z.of_nat r).

Definition put_list (r : nat) (ls : list IntrusiveList) (x : heap * IntrusiveList) :
    result (heap * list IntrusiveList * lout) :=
  ls ← aset ls (Z.of_nat r) x.2;
  Ok (x.1, ls, LUnit).

Definition put_lists (r s : nat) (ls : list IntrusiveList) (x : heap * IntrusiveList * IntrusiveList) :
    result (heap * list IntrusiveList * lout) :=
  ls ← aset ls (Z.of_nat s) x.2;
  put_list r ls x.1.

Definition lexec (h : heap) (ls : list IntrusiveList) (op : lop) : result (heap * list IntrusiveList * lout) :=
  match op with
  | LClear r => get_list ls r;; put_list r ls (h, list_clear)
  | LPushBack r x => l ← get_list ls r; y ← push_back h l x; put_list r ls y
  | LPushFront r x => l ← get_list ls r; y ← push_front h l x; put_list r ls y
  | LPopFront r => l ← get_list ls r; l ← pop_front h l; put_list r ls (h, l)
  | LExtract r prev x => l ← get_list ls r; y ← extract h l prev x; put_list r ls y
  | LAppendFront r s => l ← get_list ls r; k ← get_list ls s;
      y ← append_front h l k (bool_decide (r = s)); put_lists r s ls y
  | LAppendBack r s => l ← get_list ls r; k ← get_list ls s;
      y ← append_back h l k (bool_decide (r = s)); put_lists r s ls y
  | LFront r => l ← get_list ls r; Ok (h, ls, LNum (front l))
  | LBack r => l ← get_list ls r; Ok (h, ls, LNum (back l))
  | LSize r => l ← get_list ls r; Ok (h, ls, LNum (list_size l))
  | LIterate r => l ← get_list ls r; xs ← iterate h l; Ok (h, ls, LAddrs xs)
  | LCheck r => l ← get_list ls r; CheckConsistency h l;; Ok (h, ls, LUnit)
  end.

Fixpoint run_lists (h : heap) (ls : list IntrusiveList) (ops : list lop) : result (list lout) :=
  match ops with
  | [] => Ok []
  | op :: ops =>
      '(h, ls, o) ← lexec h ls op;
      os ← run_lists h ls ops;
      Ok (o :: os)
  end.
End run.

(** The reference: sequences of addresses, no address in two of them. *)
Fixpoint remove_after (prev x : Z) (xs : list Z) : option (list Z) :=
  match xs with
  | y :: (z :: zs) as ys =>
      if bool_decide (y = prev ∧ z = x) then Some (y :: zs) else cons y <$> remove_after prev x ys
  | _ => None
  end.

Definition unused (m : list (list Z)) (x : Z) : bool := bool_decide (Forall (λ ys, x ∉ ys) m).

Definition ref_lexec (nodes : gset Z) (m : list (list Z)) (op : lop) : option (list (list Z) * lout) :=
  match op with
  | LClear r => m !! r ≫= λ _, Some (<[r := []]> m, LUnit)
  | LPushBack r x => xs ← m !! r;
      if bool_decide (x ≠ 0 ∧ x ∈ nodes) && unused m x then Some (<[r := xs ++ [x]]> m, LUnit) else None
  | LPushFront r x => xs ← m !! r;
      if bool_decide (x ≠ 0 ∧ x ∈ nodes) && unused m x then Some (<[r := x :: xs]> m, LUnit) else None
  | LPopFront r => xs ← m !! r; match xs with [] => None | _ :: ys => Some (<[r := ys]> m, LUnit) end
  | LExtract r prev x => xs ← m !! r; ys ← remove_after prev x xs; Some (<[r := ys]> m, LUnit)
  | LAppendFront r s => xs ← m !! r; ys ← m !! s;
      if decide (r = s) then None else Some (<[r := ys ++ xs]> (<[s := []]> m), LUnit)
  | LAppendBack r s => xs ← m !! r; ys ← m !! s;
      if decide (r = s) then None else Some (<[r := xs ++ ys]> (<[s := []]> m), LUnit)
  | LFront r => xs ← m !! r; Some (m, LNum (hd 0 xs))
  | LBack r => xs ← m !! r; Some (m, LNum (default 0 (last xs)))
  | LSize r => xs ← m !! r; Some (m, LNum (Z.of_nat (length xs)))
  | LIterate r => xs ← m !! r; Some (m, LAddrs xs)
  | LCheck r => xs ← m !! r; Some (m, LUnit)
  end.

Fixpoint ref_run_lists (nodes : gset Z) (m : list (list Z)) (ops : list lop) : option (list lout) :=
  match ops with
  | [] => Some []
  | op :: ops =>
      '(m, o) ← ref_lexec nodes m op;
      os ← ref_run_lists nodes m ops;
      Some (o :: os)
  end.

Section simulation.
Context {Item : Type} `{LinkedLaws Item}.
Notation heap := (gmap Z Item).
Implicit Types (h : heap) (ls : list IntrusiveList) (m : list (list Z)).

Record lsim (nodes : gset Z) h ls m : Prop := {
  lsim_dom : dom h = nodes;
  lsim_lists : Forall2 (lrep h) ls m;
  lsim_disjoint i j xs ys x : m !! i = Some xs → m !! j = Some ys → i ≠ j → x ∈ xs → x ∉ ys
}.

Lemma writes_dom S h h' : writes S h h' → dom h' = dom h.
Proof.
  intros Hw. apply set_eq. intros y. rewrite !elem_of_dom. destruct (Hw y) as [_ E].
  destruct (h' !! y), (h !! y); simplify_eq/=; split; intros [? ?]; eauto; done.
Qed.

Lemma lsim_get nodes h ls m r xs : lsim nodes h ls m → m !! r = Some xs →
  ∃ l, get_list ls r = Ok l ∧ ls !! r = Some l ∧ lrep h l xs.
Proof.
  intros Hs Hr. destruct (Forall2_lookup_r _ _ _ _ _ (lsim_lists _ _ _ _ Hs) Hr) as (l & Hl & Hrep).
  exists l. split; [by apply aget_lookup|done].
Qed.

(** [x] occurs in no list but possibly the one at [r]. *)
Definition owned m (r : nat) (x : Z) : Prop := ∀ j ys, m !! j = Some ys → j ≠ r → x ∉ ys.

Lemma unused_owned m r x : unused m x = true → owned m r x.
Proof.
  intros Hu%bool_decide_eq_true j ys Hj _. rewrite Forall_lookup in Hu. by apply (Hu j).
Qed.

Lemma unused_not_in m r xs x : unused m x = true → m !! r = Some xs → x ∉ xs.
Proof. intros Hu%bool_decide_eq_true Hr. rewrite Forall_lookup in Hu. by apply (Hu r). Qed.

Lemma elem_owned nodes h ls m r xs x : lsim nodes h ls m → m !! r = Some xs → x ∈ xs → owned m r x.
Proof. intros Hs Hr Hx j ys Hj Hne. eapply (lsim_disjoint _ _ _ _ Hs r j); [done..|congruence|done]. Qed.

Lemma lsim_update nodes h ls m r l h' l' xs xs' S : lsim nodes h ls m → ls !! r = Some l → m !! r = Some xs →
  lrep h' l' xs' → writes S h h' → (∀ y, y ∈ S → owned m r y) → (∀ y, y ∈ xs' → owned m r y) →
  lsim nodes h' (<[r := l']> ls) (<[r := xs']> m).
Proof.
  intros Hs Hr Hm Hrep Hw HS Hxs. pose proof Hs as [Hd HF Hdis]. split.
  - by rewrite (writes_dom _ _ _ Hw).
  - apply Forall2_same_length_lookup_2; [by rewrite !length_insert; eapply Forall2_length|].
    intros j k ys Hj Hk. destruct (decide (j = r)) as [->|Hne].
    + rewrite list_lookup_insert_eq in Hj by (by eapply lookup_lt_Some).
      rewrite list_lookup_insert_eq in Hk by (by eapply lookup_lt_Some). by simplify_eq.
    + rewrite list_lookup_insert_ne in Hj by done. rewrite list_lookup_insert_ne in Hk by done.
      eapply lrep_writes; [done| |by eapply (Forall2_lookup_lr (lrep h))].
      intros x Hx Hin. by eapply (HS x Hin j ys).
  - intros i j ys zs x Hi Hj Hij Hx. assert (r < length m)%nat as Hlt by (by eapply lookup_lt_Some).
    destruct (decide (i = r)) as [->|Hi']; destruct (decide (j = r)) as [->|Hj'].
    + done.
    + rewrite list_lookup_insert_eq in Hi by done. rewrite list_lookup_insert_ne in Hj by done. simplify_eq.
      by eapply Hxs.
    + rewrite list_lookup_insert_ne in Hi by done. rewrite list_lookup_insert_eq in Hj by done. simplify_eq.
      intros Hz. by eapply (Hxs x Hz i ys).
    + rewrite list_lookup_insert_ne in Hi, Hj by done. by eapply (Hdis i j ys zs).
Qed.

Lemma put_list_spec nodes h ls m r l h' l' xs xs' S : lsim nodes h ls m → ls !! r = Some l → m !! r = Some xs →
  lrep h' l' xs' → writes S h h' → (∀ y, y ∈ S → owned m r y) → (∀ y, y ∈ xs' → owned m r y) →
  returns (put_list r ls (h', l')) (λ '(h', ls', o), lsim nodes h' ls' (<[r := xs']> m) ∧ o = LUnit).
Proof.
  intros Hs Hr Hm Hrep Hw HS Hxs. unfold put_list. apply lookup_lt_Some in Hr as Hlt.
  rewrite aset_Ok by lia. simpl. rewrite Nat2Z.id. split; [|done]. by eapply lsim_update.
Qed.

Lemma lsim_sub nodes h ls m r xs x : lsim nodes h ls m → m !! r = Some xs → x ∈ xs → x ∈ nodes ∧ x ≠ 0.
Proof.
  intros Hs Hr Hx. destruct (lsim_get _ _ _ _ _ _ Hs Hr) as (l & _ & _ & [_ Hsg _ _ _ _]).
  rewrite <- (lsim_dom _ _ _ _ Hs), elem_of_dom. by destruct (seg_lookup h xs 0 x Hsg Hx) as [? ?].
Qed.

Lemma lsim_length2 nodes h ls m r s xs ys : lsim nodes h ls m → m !! r = Some xs → m !! s = Some ys → r ≠ s →
  (length xs + length ys ≤ size nodes)%nat.
Proof.
  intros Hs Hr Hs' Hne. rewrite <- length_app, <- (size_list_to_set (C:=gset Z)).
  - apply subseteq_size. intros x [Hx|Hx]%elem_of_list_to_set%elem_of_app.
    + by destruct (lsim_sub _ _ _ _ _ _ x Hs Hr Hx).
    + by destruct (lsim_sub _ _ _ _ _ _ x Hs Hs' Hx).
  - destruct (lsim_get _ _ _ _ _ _ Hs Hr) as (l & _ & _ & [Hnd1 _ _ _ _ _]).
    destruct (lsim_get _ _ _ _ _ _ Hs Hs') as (k & _ & _ & [Hnd2 _ _ _ _ _]).
    apply NoDup_app. split; [done|]. split; [|done]. intros x Hx. by eapply (lsim_disjoint _ _ _ _ Hs r s).
Qed.

Lemma lsim_length nodes h ls m r xs : lsim nodes h ls m → m !! r = Some xs → (length xs ≤ size nodes)%nat.
Proof.
  intros Hs Hr. destruct (lsim_get _ _ _ _ _ _ Hs Hr) as (l & _ & _ & [Hnd Hsg _ _ _ _]).
  rewrite <- (lsim_dom _ _ _ _ Hs), size_dom. by eapply seg_size.
Qed.

Lemma remove_after_split prev x xs ys : remove_after prev x xs = Some ys →
  ∃ as_ bs, xs = as_ ++ prev :: x :: bs ∧ ys = as_ ++ prev :: bs.
Proof.
  revert ys. induction xs as [|y [|z zs] IH]; intros ys; [done..|]. cbn [remove_after].
  case_bool_decide as E.
  - destruct E as [-> ->]. intros [= <-]. by exists [], zs.
  - intros Hys. apply fmap_Some in Hys as (ys' & Hys' & ->). destruct (IH ys' Hys') as (as_ & bs & -> & ->).
    by exists (y :: as_), bs.
Qed.

Lemma put_lists_spec nodes h ls m r s l k h' l' k' xs ys xs' S : lsim nodes h ls m → r ≠ s →
  ls !! r = Some l → m !! r = Some xs → ls !! s = Some k → m !! s = Some ys →
  lrep h' l' xs' → k' = list_clear → writes S h h' →
  (∀ y, y ∈ S → y ∈ xs ∨ y ∈ ys) → (∀ y, y ∈ xs' → y ∈ xs ∨ y ∈ ys) →
  returns (put_lists r s ls (h', l', k')) (λ '(h', ls', o),
    lsim nodes h' ls' (<[r := xs']> (<[s := []]> m)) ∧ o = LUnit).
Proof.
  intros Hs Hrs Hr Hm Hks Hms Hrep -> Hw HS Hxs. unfold put_lists. apply lookup_lt_Some in Hks as Hlt.
  rewrite aset_Ok by lia. cbn [mbind result_bind fst snd]. rewrite Nat2Z.id.
  assert (∀ y, y ∈ xs ∨ y ∈ ys → owned (<[s := []]> m) r y) as Hown.
  { intros y Hy j zs Hj Hjr. destruct (decide (j = s)) as [->|Hjs].
    - apply lookup_lt_Some in Hms. rewrite list_lookup_insert_eq in Hj by done. simplify_eq. apply not_elem_of_nil.
    - rewrite list_lookup_insert_ne in Hj by done. destruct Hy as [Hy|Hy].
      + by eapply (lsim_disjoint _ _ _ _ Hs r j).
      + by eapply (lsim_disjoint _ _ _ _ Hs s j). }
  eapply (put_list_spec nodes h _ _ r l h' l' xs xs' S); [|by rewrite list_lookup_insert_ne|by rewrite list_lookup_insert_ne|done|done|auto|auto].
  eapply (lsim_update nodes h ls m s k h list_clear ys [] []); [done|done|done|apply lrep_nil|apply writes_refl|set_solver +|set_solver +].
Qed.

Lemma lexec_spec nodes h ls m op m' o : Z.of_nat (size nodes) < 2 ^ 64 - 1 → lsim nodes h ls m →
  ref_lexec nodes m op = Some (m', o) →
  returns (lexec h ls op) (λ '(h', ls', o'), lsim nodes h' ls' m' ∧ o' = o).
Proof.
  intros Hsz Hs Href.
  assert (∀ r xs, m !! r = Some xs → Z.of_nat (length xs) + 1 < 2 ^ 64) as Hlen.
  { intros r xs Hr. pose proof (lsim_length _ _ _ _ _ _ Hs Hr). lia. }
  assert (∀ r s xs ys, m !! r = Some xs → m !! s = Some ys → r ≠ s →
    Z.of_nat (length xs + length ys) < 2 ^ 64) as Hlen2.
  { intros r s xs ys Hr Hs' Hne. pose proof (lsim_length2 _ _ _ _ _ _ _ _ Hs Hr Hs' Hne). lia. }
  pose proof (lsim_disjoint _ _ _ _ Hs) as Hdis. pose proof (lsim_dom _ _ _ _ Hs) as Hdom.
  assert (∀ r xs y, m !! r = Some xs → y ∈ xs → owned m r y) as Hown by (intros; by eapply elem_owned).
  destruct op as [r|r x|r x|r|r prev x|r s|r s|r|r|r|r|r]; cbn [ref_lexec] in Href.
  all: apply bind_Some in Href as (xs & Hr & Href); destruct (lsim_get _ _ _ _ _ _ Hs Hr) as (l & El & Hl & Hrep);
    cbn [lexec]; rewrite El; cbn [mbind result_bind].
  - simplify_eq. eapply (put_list_spec _ h _ _ _ _ _ _ _ _ []); [done|done|done|apply lrep_nil|apply writes_refl|set_solver +|set_solver +].
  - destruct (bool_decide _) eqn:Hx; [|done]. apply bool_decide_eq_true in Hx as [Hx0 Hx]. simpl in Href.
    destruct (unused m x) eqn:Hu; [|done]. simplify_eq. apply elem_of_dom in Hx as [it Hit].
    rbind (eapply push_back_spec; [done|done|by eapply unused_not_in|done|by eapply Hlen]).
    intros [h' l'] [Hl' Hw]. eapply put_list_spec; [done..| |].
    + intros y [->|Hy]%elem_of_cons; [by apply unused_owned|by eapply Hown].
    + intros y [Hy| ->%list_elem_of_singleton]%elem_of_app; [by eapply Hown|by apply unused_owned].
  - destruct (bool_decide _) eqn:Hx; [|done]. apply bool_decide_eq_true in Hx as [Hx0 Hx]. simpl in Href.
    destruct (unused m x) eqn:Hu; [|done]. simplify_eq. apply elem_of_dom in Hx as [it Hit].
    rbind (eapply push_front_spec; [done|done|by eapply unused_not_in|done|by eapply Hlen]).
    intros [h' l'] [Hl' Hw]. eapply put_list_spec; [done..| |].
    + intros y ->%list_elem_of_singleton. by apply unused_owned.
    + intros y [->|Hy]%elem_of_cons; [by apply unused_owned|by eapply Hown].
  - destruct xs as [|x xs]; [done|]. simplify_eq. rbind (by eapply pop_front_spec). intros l' Hl'.
    eapply (put_list_spec _ h _ _ _ _ _ _ _ _ []); [done|done|done|done|apply writes_refl|set_solver +|].
    intros y Hy. eapply Hown; [done|by right].
  - apply bind_Some in Href as (ys & Hys & Href). simplify_eq.
    destruct (remove_after_split _ _ _ _ Hys) as (as_ & bs & -> & ->).
    rbind (by apply extract_spec). intros [h' l'] (Hl' & Hw & _). eapply put_list_spec; [done..| |].
    + intros y ->%list_elem_of_singleton. eapply Hown; [done|set_solver +].
    + intros y Hy. eapply Hown; [done|set_solver + Hy].
  - apply bind_Some in Href as (ys & Hr' & Href). destruct (decide (r = s)) as [|Hne]; [done|]. simplify_eq.
    destruct (lsim_get _ _ _ _ _ _ Hs Hr') as (k & -> & Hk & Hrepk). cbn [mbind result_bind].
    rewrite bool_decide_eq_false_2 by done.
    rbind (eapply append_front_spec; [done|done|intros y Hy; by eapply (Hdis r s)|by eapply Hlen2]).
    intros [[h' l'] k'] (Hl' & Ek & Hw). eapply put_lists_spec; [done..|auto|]. intros y Hy%elem_of_app. tauto.
  - apply bind_Some in Href as (ys & Hr' & Href). destruct (decide (r = s)) as [|Hne]; [done|]. simplify_eq.
    destruct (lsim_get _ _ _ _ _ _ Hs Hr') as (k & -> & Hk & Hrepk). cbn [mbind result_bind].
    rewrite bool_decide_eq_false_2 by done.
    rbind (eapply append_back_spec; [done|done|intros y Hy; by eapply (Hdis r s)|by eapply Hlen2]).
    intros [[h' l'] k'] (Hl' & Ek & Hw). eapply put_lists_spec; [done..|auto|]. intros y Hy%elem_of_app. tauto.
  - simplify_eq. simpl. by rewrite (lrep_first _ _ _ Hrep).
  - simplify_eq. simpl. by rewrite (lrep_last _ _ _ Hrep).
  - simplify_eq. simpl. by rewrite (lrep_size _ _ _ Hrep).
  - simplify_eq. by rewrite (iterate_spec _ _ _ Hrep).
  - simplify_eq. by rewrite (CheckConsistency_spec _ _ _ Hrep).
Qed.

Lemma run_lists_spec nodes h ls m ops os : Z.of_nat (size nodes) < 2 ^ 64 - 1 → lsim nodes h ls m →
  ref_run_lists nodes m ops = Some os → run_lists h ls ops = Ok os.
Proof.
  intros Hsz. revert h ls m os. induction ops as [|op ops IH]; intros h ls m os Hs Href; cbn [ref_run_lists] in Href; [by simplify_eq|].
  apply bind_Some in Href as ([m' o] & Hop & Href). apply bind_Some in Href as (os' & Hops & ?). simplify_eq.
  pose proof (lexec_spec _ h ls m op m' o Hsz Hs Hop) as Hex.
  apply returns_inv in Hex as ([[h' ls'] o'] & E & Hs' & ->).
  cbn [run_lists]. rewrite E. cbn [mbind result_bind]. by rewrite (IH h' ls' m' os') by done.
Qed.

(** [C37] Intrusive lists behave as sequences: a program that works on several
    initially empty lists over one heap, and never links an item into two lists,
    observes exactly the results of the same program on sequences of addresses;
    [CheckConsistency] accepts every state it reaches. *)
Theorem lists_refine_sequences (h : heap) (k : nat) ops outs :
  Z.of_nat (size (dom h)) < 2 ^ 64 - 1 →
  ref_run_lists (dom h) (replicate k []) ops = Some outs →
  run_lists h (replicate k list_clear) ops = Ok outs.
Proof.
  intros Hsz. apply run_lists_spec; [done|]. split; [done| |].
  - apply Forall2_replicate, lrep_nil.
  - intros i j xs ys x [-> _]%lookup_replicate. by intros _ _ ?%not_elem_of_nil.
Qed.

End simulation.

(** A heap of five plain items and a program that uses every operation. *)
Record PlainItem := Plain { pl_next : Z; pl_data : Z }.

#[export] Instance plain_linked : Linked PlainItem :=
  {| next := pl_next; set_next p it := Plain p (pl_data it) |}.
#[export] Instance plain_laws : LinkedLaws PlainItem.
Proof. split; [by intros p []|by intros p q []]. Qed.

Definition demo_heap : gmap Z PlainItem :=
  list_to_map ((λ a, (a, Plain 99 (a * 7))) <$> [16; 32; 48; 64; 80]).

Definition list_demo : list lop :=
  [LPushBack 0 16; LPushBack 0 32; LPushFront 0 48; LSize 0; LPushBack 1 64; LPushFront 1 80;
   LAppendBack 0 1; LIterate 0; LExtract 0 16 32; LBack 0; LPopFront 0; LFront 0; LPushBack 1 32;
   LAppendFront 1 0; LCheck 0; LCheck 1; LIterate 1; LExtract 1 64 32; LBack 1; LIterate 0]%nat.

Lemma lists_refine_sequences_witness :
  run_lists demo_heap (replicate 2 list_clear) list_demo =
  Ok [LUnit; LUnit; LUnit; LNum 3; LUnit; LUnit; LUnit; LAddrs [48; 16; 32; 80; 64]; LUnit; LNum 64;
      LUnit; LNum 16; LUnit; LUnit; LUnit; LUnit; LAddrs [16; 80; 64; 32]; LUnit; LNum 64; LAddrs []].
Proof. apply (lists_refine_sequences demo_heap 2 list_demo); vm_compute; done. Defined.

End ListM.
