(* ===== verification/Quarantine.v ===== *)
(** * Quarantine: delayed reuse of freed memory

    Models [sanitizer_quarantine.h].  Freed chunks wait in batches, batches in
    per-thread caches and in the global one; chunks leave the quarantine through
    [Callback::Recycle], in the order in which they came.  Batches are items of
    [IntrusiveList]s in a heap.  The callback is the tool's: [Recycle] is recorded
    in a log, [Allocate] hands out an address and memory with arbitrary contents
    that are arguments of the operations, [Deallocate] removes the batch from the
    heap.  The two spin mutexes guard one operation each; the model runs the
    operations one at a time, with the outcome of [TryLock] as an argument.

    The theorems show that no chunk is lost or recycled twice, that the order of
    chunks is kept, that sizes are accounted for exactly, and that recycling brings
    the quarantine below its limit. *)
From S2P Require Import Prelude Common IntrusiveList.
Import ListM.

Module Quar.

(** ** Batches *)
Abbreviation kSize := (1021) (only parsing).
(** [sizeof(QuarantineBatch)]: three words and [kSize] pointers. *)
Definition sizeof_QuarantineBatch : Z := 8 * 3 + 8 * kSize.

Record QuarantineBatch := QB { qb_next : Z; qb_size : Z; count : Z; batch : list Z }.

#[export] Instance qb_linked : Linked QuarantineBatch :=
  {| next := qb_next; set_next p b := QB p (qb_size b) (count b) (batch b) |}.
#[export] Instance qb_laws : LinkedLaws QuarantineBatch.
Proof. split; [by intros p []|by intros p q []]. Qed.

Definition batch_init (b : QuarantineBatch) (ptr size : Z) : result QuarantineBatch :=
  bs ← aset (batch b) 0 ptr;
  Ok (QB (qb_next b) (u64 (size + sizeof_QuarantineBatch)) 1 bs).

Abbreviation quarantined_size b := (u64 (qb_size b - sizeof_QuarantineBatch)) (only parsing).

Definition batch_push_back (b : QuarantineBatch) (ptr size : Z) : result QuarantineBatch :=
  CHECK (count b <? kSize);;
  bs ← aset (batch b) (count b) ptr;
  Ok (QB (qb_next b) (u64 (qb_size b + size)) (count b + 1) bs).

Abbreviation can_merge b from := (count b + count from <=? kSize) (only parsing).

(** The results are the batch and [from]. *)
Definition merge (b from : QuarantineBatch) : result (QuarantineBatch * QuarantineBatch) :=
  CHECK (count b + count from <=? kSize);;
  CHECK (sizeof_QuarantineBatch <=? qb_size b);;
  bs ← for_range 0 (count from) (λ i bs, x ← aget (batch from) i; aset bs (count b + i) x) (batch b);
  Ok (QB (qb_next b) (u64 (qb_size b + quarantined_size from)) (count b + count from) bs,
      QB (qb_next from) sizeof_QuarantineBatch 0 (batch from)).

(** ** Caches *)
Notation heap := (gmap Z QuarantineBatch).

Record QuarantineCache := Cache { list_ : IntrusiveList; q_size_ : Z }.

Definition new_cache : QuarantineCache := Cache list_clear 0.

Definition Size (c : QuarantineCache) : Z := q_size_ c.
Abbreviation OverheadSize c := (u64 (list_size (list_ c) * sizeof_QuarantineBatch)) (only parsing).

Definition SizeAdd (c : QuarantineCache) (add : Z) : QuarantineCache := Cache (list_ c) (u64 (Size c + add)).
Definition SizeSub (c : QuarantineCache) (sub : Z) : QuarantineCache := Cache (list_ c) (u64 (Size c - sub)).

Definition set_list (c : QuarantineCache) (l : IntrusiveList) : QuarantineCache := Cache l (q_size_ c).

Definition EnqueueBatch (h : heap) (c : QuarantineCache) (b : Z) : result (heap * QuarantineCache) :=
  '(h, l) ← push_back h (list_ c) b;
  it ← load h b;
  Ok (h, SizeAdd (set_list c l) (qb_size it)).

(** The result is 0, the null pointer, when the cache is empty. *)
Definition DequeueBatch (h : heap) (c : QuarantineCache) : result (QuarantineCache * Z) :=
  if list_empty (list_ c) then Ok (c, 0)
  else
    let b := front (list_ c) in
    l ← pop_front h (list_ c);
    it ← load h b;
    Ok (SizeSub (set_list c l) (qb_size it), b).

(** [alloc] is what [cb.Allocate] returns, should it be called: an address (0 on
    failure) and the contents of the memory there. *)
Definition Enqueue (h : heap) (c : QuarantineCache) (alloc : Z * QuarantineBatch) (ptr size : Z) :
    result (heap * QuarantineCache) :=
  full ← (if list_empty (list_ c) then Ok true
          else it ← load h (back (list_ c)); Ok (count it =? kSize));
  if full : bool then
    let '(b, raw) := alloc in
    CHECK (negb (b =? 0));;
    it ← batch_init raw ptr size;
    EnqueueBatch (<[b := it]> h) c b
  else
    let b := back (list_ c) in
    it ← load h b;
    it ← batch_push_back it ptr size;
    Ok (<[b := it]> h, SizeAdd c size).

(** The results are the heap, [*this] and [*from_cache]. *)
Definition Transfer (h : heap) (c from_cache : QuarantineCache) :
    result (heap * QuarantineCache * QuarantineCache) :=
  '(h, l, fl) ← append_back h (list_ c) (list_ from_cache) false;
  Ok (h, SizeAdd (set_list c l) (Size from_cache), Cache fl 0).

(** The loop of [MergeBatches]; its state is the heap, the list, [to_deallocate]
    and [extracted_size].  Every iteration removes or passes one item, the number
    of items is enough fuel. *)
Fixpoint merge_loop (fuel : nat) (h : heap) (l : IntrusiveList) (tod : QuarantineCache)
    (extracted_size current : Z) : result (heap * IntrusiveList * QuarantineCache * Z) :=
  if current =? 0 then Ok (h, l, tod, extracted_size)
  else
    nx ← load_next h current;
    if nx =? 0 then Ok (h, l, tod, extracted_size)
    else
      match fuel with
      | O => Fault OutOfFuel
      | S fuel =>
          cur ← load h current;
          ext ← load h nx;
          if can_merge cur ext then
            '(cur, ext) ← merge cur ext;
            let h := <[nx := ext]> (<[current := cur]> h) in
            CHECK (count ext =? 0);;
            CHECK (qb_size ext =? sizeof_QuarantineBatch);;
            '(h, l) ← extract h l current nx;
            '(h, tod) ← EnqueueBatch h tod nx;
            merge_loop fuel h l tod (u64 (extracted_size + qb_size ext)) current
          else merge_loop fuel h l tod extracted_size nx
      end.

Definition MergeBatches (h : heap) (c to_deallocate : QuarantineCache) :
    result (heap * QuarantineCache * QuarantineCache) :=
  '(h, l, tod, extracted_size) ←
    merge_loop (Z.to_nat (list_size (list_ c))) h (list_ c) to_deallocate 0 (front (list_ c));
  Ok (h, SizeSub (set_list c l) extracted_size, tod).

(** ** The quarantine *)
Record Quarantine := Quar {
  max_size_ : Z;
  min_size_ : Z;
  max_cache_size_ : Z;
  cache_ : QuarantineCache
}.

Definition Init (size cache_size : Z) : result Quarantine :=
  CHECK (((size =? 0) && (cache_size =? 0)) || negb (cache_size =? 0));;
  Ok (Quar size (size / 10 * 9) cache_size new_cache).

Abbreviation GetSize q := (max_size_ q) (only parsing).
Abbreviation GetCacheSize q := (max_cache_size_ q) (only parsing).
Definition set_cache (q : Quarantine) (c : QuarantineCache) : Quarantine :=
  Quar (max_size_ q) (min_size_ q) (max_cache_size_ q) c.

(** The log of the chunks given to [cb.Recycle]. *)
Notation log := (list Z).

(** The two loops of [DoRecycle]. *)
Definition recycle_batch (it : QuarantineBatch) (rec : log) : result log :=
  for_range 0 (count it) (λ i rec, x ← aget (batch it) i; Ok (rec ++ [x])) rec.

Fixpoint DoRecycle_loop (fuel : nat) (h : heap) (c : QuarantineCache) (rec : log) : result (heap * log) :=
  '(c, b) ← DequeueBatch h c;
  if b =? 0 then Ok (h, rec)
  else
    match fuel with
    | O => Fault OutOfFuel
    | S fuel =>
        it ← load h b;
        rec ← recycle_batch it rec;
        DoRecycle_loop fuel (delete b h) c rec
    end.

Definition DoRecycle (h : heap) (c : QuarantineCache) (rec : log) : result (heap * log) :=
  DoRecycle_loop (Z.to_nat (list_size (list_ c))) h c rec.

(** [while (cache_.Size() > min_size) tmp.EnqueueBatch(cache_.DequeueBatch());] *)
Fixpoint drain_loop (fuel : nat) (h : heap) (c tmp : QuarantineCache) (min_size : Z) :
    result (heap * QuarantineCache * QuarantineCache) :=
  if min_size <? Size c then
    match fuel with
    | O => Fault OutOfFuel
    | S fuel =>
        '(c, b) ← DequeueBatch h c;
        '(h, tmp) ← EnqueueBatch h tmp b;
        drain_loop fuel h c tmp min_size
    end
  else Ok (h, c, tmp).

Definition kOverheadThresholdPercents : Z := 100.

Definition Recycle (h : heap) (q : Quarantine) (min_size : Z) (rec : log) :
    result (heap * Quarantine * log) :=
  let c := cache_ q in
  let cache_size := Size c in
  let overhead_size := OverheadSize c in
  CHECK (overhead_size <=? cache_size);;
  '(h, c, tmp) ←
    (if (overhead_size <? cache_size) &&
        (u64 (cache_size * kOverheadThresholdPercents) <?
         u64 (overhead_size * (100 + kOverheadThresholdPercents)))
     then MergeBatches h c new_cache
     else Ok (h, c, new_cache));
  '(h, c, tmp) ← drain_loop (Z.to_nat (list_size (list_ c))) h c tmp min_size;
  '(h, rec) ← DoRecycle h tmp rec;
  Ok (h, set_cache q c, rec).

(** The results are the heap, the quarantine, the thread's cache and the log. *)
Definition Drain (h : heap) (q : Quarantine) (c : QuarantineCache) (rec : log) (trylock : bool) :
    result (heap * Quarantine * QuarantineCache * log) :=
  '(h, g, c) ← Transfer h (cache_ q) c;
  let q := set_cache q g in
  if (GetSize q <? Size g) && trylock then
    '(h, q, rec) ← Recycle h q (min_size_ q) rec;
    Ok (h, q, c, rec)
  else Ok (h, q, c, rec).

Definition DrainAndRecycle (h : heap) (q : Quarantine) (c : QuarantineCache) (rec : log) :
    result (heap * Quarantine * QuarantineCache * log) :=
  '(h, g, c) ← Transfer h (cache_ q) c;
  '(h, q, rec) ← Recycle h (set_cache q g) 0 rec;
  Ok (h, q, c, rec).

Definition Put (h : heap) (q : Quarantine) (c : QuarantineCache) (rec : log)
    (alloc : Z * QuarantineBatch) (ptr size : Z) (trylock : bool) :
    result (heap * Quarantine * QuarantineCache * log) :=
  let cache_size := GetCacheSize q in
  '(h, c, rec) ←
    (if negb (cache_size =? 0) then
       '(h, c) ← Enqueue h c alloc ptr size;
       Ok (h, c, rec)
     else Ok (h, c, rec ++ [ptr]));
  if cache_size <? Size c then Drain h q c rec trylock
  else Ok (h, q, c, rec).

(** ** Invariants *)

(** The chunks and the size recorded for the batch at an address. *)
Definition chunk_of (it : QuarantineBatch) : list Z := take (Z.to_nat (count it)) (batch it).
Definition chunks (h : heap) (xs : list Z) : list Z :=
  xs ≫= λ b, match h !! b with Some it => chunk_of it | None => [] end.
Definition size_at (h : heap) (b : Z) : Z := match h !! b with Some it => qb_size it | None => 0 end.
Definition count_at (h : heap) (b : Z) : Z := match h !! b with Some it => count it | None => 0 end.
Fixpoint total (h : heap) (xs : list Z) : Z :=
  match xs with [] => 0 | b :: xs => size_at h b + total h xs end.

Definition batch_ok (it : QuarantineBatch) : Prop :=
  Z.of_nat (length (batch it)) = kSize ∧ 0 ≤ count it ≤ kSize ∧
  sizeof_QuarantineBatch ≤ qb_size it < 2 ^ 64.

Definition batches_ok (h : heap) (xs : list Z) : Prop :=
  ∀ b, b ∈ xs → ∃ it, h !! b = Some it ∧ batch_ok it.

(** The cache consists of the batches [xs], and its size is what they add up to. *)
Record crep (h : heap) (c : QuarantineCache) (xs : list Z) : Prop := {
  cr_list : lrep h (list_ c) xs;
  cr_ok : batches_ok h xs;
  cr_size : q_size_ c = total h xs;
  cr_bound : total h xs < 2 ^ 64
}.

Lemma chunks_app h xs ys : chunks h (xs ++ ys) = chunks h xs ++ chunks h ys.
Proof. apply bind_app. Qed.

Lemma total_app h xs ys : total h (xs ++ ys) = total h xs + total h ys.
Proof. induction xs as [|x xs IH]; simpl; lia. Qed.

Lemma batches_ok_app h xs ys : batches_ok h (xs ++ ys) ↔ batches_ok h xs ∧ batches_ok h ys.
Proof. unfold batches_ok. setoid_rewrite elem_of_app. naive_solver. Qed.

Lemma total_nonneg h xs : batches_ok h xs → Z.of_nat (length xs) * sizeof_QuarantineBatch ≤ total h xs.
Proof.
  induction xs as [|x xs IH]; intros Hok; simpl; [lia|].
  destruct (Hok x) as (it & Hit & _ & _ & ?); [by constructor|]. unfold size_at. rewrite Hit.
  specialize (IH (λ b Hb, Hok b (proj2 (elem_of_cons _ _ _) (or_intror Hb)))).
  unfold sizeof_QuarantineBatch in *. lia.
Qed.

(** What a batch records does not depend on its [next] field. *)
Definition same_payload (h h' : heap) (xs : list Z) : Prop :=
  ∀ b, b ∈ xs → set_next 0 <$> h' !! b = set_next 0 <$> h !! b.

Lemma writes_payload S h h' xs : writes S h h' → same_payload h h' xs.
Proof. intros Hw b _. apply Hw. Qed.

Lemma same_payload_lookup h h' xs b : same_payload h h' xs → b ∈ xs →
  match h !! b, h' !! b with
  | Some it, Some it' => qb_size it' = qb_size it ∧ count it' = count it ∧ batch it' = batch it
  | None, None => True
  | _, _ => False
  end.
Proof.
  intros Hs Hb. specialize (Hs b Hb). destruct (h !! b) as [[]|], (h' !! b) as [[]|]; simplify_eq/=; done.
Qed.

Lemma payload_chunks h h' xs : same_payload h h' xs → chunks h' xs = chunks h xs.
Proof.
  induction xs as [|x xs IH]; intros Hs; [done|]. cbn [chunks mbind list_bind].
  pose proof (same_payload_lookup _ _ _ x Hs (list_elem_of_here _ _)) as Hx.
  f_equal.
  - destruct (h !! x), (h' !! x); try done. destruct Hx as (_ & E1 & E2). unfold chunk_of. by rewrite E1, E2.
  - apply IH. intros b Hb. apply Hs. by right.
Qed.

Lemma payload_total h h' xs : same_payload h h' xs → total h' xs = total h xs.
Proof.
  induction xs as [|x xs IH]; intros Hs; [done|]. simpl.
  pose proof (same_payload_lookup _ _ _ x Hs (list_elem_of_here _ _)) as Hx.
  rewrite IH by (intros b Hb; apply Hs; by right). unfold size_at.
  destruct (h !! x), (h' !! x); try done. by destruct Hx as (-> & _).
Qed.

Lemma payload_ok h h' xs : same_payload h h' xs → batches_ok h xs → batches_ok h' xs.
Proof.
  intros Hs Hok b Hb. destruct (Hok b Hb) as (it & Hit & Hb1).
  pose proof (same_payload_lookup _ _ _ b Hs Hb) as Hx. rewrite Hit in Hx.
  destruct (h' !! b) as [it'|]; [|done]. exists it'. split; [done|].
  destruct Hx as (E1 & E2 & E3). unfold batch_ok. by rewrite E1, E2, E3.
Qed.

Lemma payload_crep h h' c xs : same_payload h h' xs → lrep h' (list_ c) xs → crep h c xs → crep h' c xs.
Proof.
  intros Hs Hl [_ Hok Hsz Hb]. split; [done|by eapply payload_ok|by rewrite (payload_total h)|by rewrite (payload_total h)].
Qed.

(** A cache is not affected by changes to other batches. *)
Lemma crep_frame h h' c xs : (∀ b, b ∈ xs → h' !! b = h !! b) → crep h c xs → crep h' c xs.
Proof.
  intros Hf Hc. apply (payload_crep h); [intros b Hb; by rewrite Hf| |done].
  destruct (cr_list _ _ _ Hc) as [Hnd Hs]. split; try done. eapply seg_frame; [|done]. intros b Hb. by rewrite Hf.
Qed.

Lemma chunks_frame h h' xs : (∀ b, b ∈ xs → h' !! b = h !! b) → chunks h' xs = chunks h xs.
Proof. intros Hf. apply payload_chunks. intros b Hb. by rewrite Hf. Qed.

Lemma total_frame h h' xs : (∀ b, b ∈ xs → h' !! b = h !! b) → total h' xs = total h xs.
Proof. intros Hf. apply payload_total. intros b Hb. by rewrite Hf. Qed.

Lemma crep_new h : crep h new_cache [].
Proof. split; [apply lrep_nil|by intros b ?%not_elem_of_nil|done|done]. Qed.

Lemma crep_length h c xs : crep h c xs → Z.of_nat (length xs) * sizeof_QuarantineBatch < 2 ^ 64.
Proof. intros Hc. pose proof (total_nonneg h xs (cr_ok _ _ _ Hc)). pose proof (cr_bound _ _ _ Hc). lia. Qed.

Lemma EnqueueBatch_spec h c xs b it : crep h c xs → h !! b = Some it → batch_ok it → b ≠ 0 → b ∉ xs →
  total h xs + qb_size it < 2 ^ 64 →
  returns (EnqueueBatch h c b) (λ '(h', c'), crep h' c' (xs ++ [b]) ∧ writes (b :: xs) h h').
Proof.
  intros Hc Hit Hok Hb Hni Hbd. unfold EnqueueBatch. pose proof (crep_length _ _ _ Hc) as Hlen.
  unfold sizeof_QuarantineBatch in Hlen.
  rbind (eapply push_back_spec; [apply Hc|done|done|done|lia]). intros [h' l'] [Hl' Hw].
  destruct (writes_lookup _ _ _ _ _ Hw Hit) as (it' & Hit' & E).
  assert (qb_size it' = qb_size it) as Esz by (destruct it, it'; simplify_eq/=; done).
  rewrite (load_ok h' b it') by done. cbn [mbind result_bind returns]. split; [|done].
  pose proof (writes_payload _ _ _ (xs ++ [b]) Hw) as Hp.
  assert (total h' (xs ++ [b]) = total h xs + qb_size it) as Et.
  { rewrite (payload_total h) by done. rewrite total_app. simpl. unfold size_at. rewrite Hit. lia. }
  pose proof (total_nonneg h xs (cr_ok _ _ _ Hc)). destruct Hok as (Hok1 & Hok2 & Hok3).
  unfold sizeof_QuarantineBatch in *. split.
  - exact Hl'.
  - apply (payload_ok h); [done|]. apply batches_ok_app. split; [apply Hc|].
    intros b' ->%list_elem_of_singleton. by exists it.
  - simpl. unfold SizeAdd, Size, set_list. simpl. rewrite Et, Esz, (cr_size _ _ _ Hc), cast_id; lia.
  - lia.
Qed.

Lemma DequeueBatch_spec h c b xs : crep h c (b :: xs) →
  returns (DequeueBatch h c) (λ '(c', b'), b' = b ∧ b ≠ 0 ∧ crep h c' xs).
Proof.
  intros [Hl Hok Hsz Hbd]. unfold DequeueBatch. rewrite (lrep_empty _ _ _ Hl). cbn.
  rbind (by eapply pop_front_spec). intros l' Hl'. pose proof (lrep_first _ _ _ Hl) as Ef. simpl in Ef.
  rewrite Ef. destruct (seg_lookup _ _ _ b (lrep_seg _ _ _ Hl)) as [Hb [it Hit]]; [by constructor|].
  rewrite (load_ok h b it) by done. cbn [mbind result_bind returns]. split; [done|]. split; [done|].
  assert (batches_ok h xs) as Hok' by (intros x Hx; apply Hok; by right).
  simpl in Hsz, Hbd. unfold size_at in Hsz, Hbd. rewrite Hit in Hsz, Hbd.
  pose proof (total_nonneg h xs Hok'). destruct (Hok b) as (it2 & E & _ & _ & Hs); [by constructor|].
  assert (it2 = it) as -> by congruence. unfold sizeof_QuarantineBatch in *.
  split; [done|done| |lia]. unfold SizeSub, Size, set_list. simpl. rewrite cast_id; lia.
Qed.

Lemma DequeueBatch_empty h c : crep h c [] → DequeueBatch h c = Ok (c, 0).
Proof. intros [Hl _ _ _]. unfold DequeueBatch. by rewrite (lrep_empty _ _ _ Hl). Qed.

Lemma batch_init_spec raw ptr size : Z.of_nat (length (batch raw)) = kSize →
  0 ≤ size → size + sizeof_QuarantineBatch < 2 ^ 64 →
  returns (batch_init raw ptr size) (λ it, batch_ok it ∧ chunk_of it = [ptr] ∧
    qb_size it = size + sizeof_QuarantineBatch).
Proof.
  intros Hl Hs Hb. unfold batch_init. rewrite aset_Ok by lia. cbn [mbind result_bind returns].
  rewrite cast_id by (unfold sizeof_QuarantineBatch in *; lia). unfold batch_ok, chunk_of. simpl.
  rewrite length_insert. split; [unfold sizeof_QuarantineBatch in *; lia|]. split; [|done].
  destruct (batch raw); [simpl in Hl; lia|done].
Qed.

Lemma batch_push_back_spec it ptr size : batch_ok it → count it < kSize → 0 ≤ size → qb_size it + size < 2 ^ 64 →
  returns (batch_push_back it ptr size) (λ it', batch_ok it' ∧ chunk_of it' = chunk_of it ++ [ptr] ∧
    qb_size it' = qb_size it + size ∧ qb_next it' = qb_next it).
Proof.
  intros (Hl & Hc & Hs) Hlt Hsz Hb. unfold batch_push_back. rewrite (proj2 (Z.ltb_lt _ _)) by done.
  cbn [CHECK mbind result_bind]. rewrite aset_Ok by lia. cbn [mbind result_bind returns].
  unfold sizeof_QuarantineBatch in *. rewrite cast_id by lia. unfold batch_ok, chunk_of. simpl.
  rewrite length_insert. split; [unfold sizeof_QuarantineBatch in *; lia|]. split; [|done].
  replace (Z.to_nat (count it + 1)) with (S (Z.to_nat (count it))) by lia.
  rewrite (take_S_r _ _ ptr) by (apply list_lookup_insert_eq; lia). by rewrite take_insert_ge.
Qed.

(** Replacing the record of the last batch. *)
Lemma crep_set_last h c xs b it it' add : crep h c (xs ++ [b]) → h !! b = Some it → batch_ok it' →
  qb_next it' = qb_next it → qb_size it' = qb_size it + add → 0 ≤ add → total h (xs ++ [b]) + add < 2 ^ 64 →
  crep (<[b := it']> h) (SizeAdd c add) (xs ++ [b]) ∧
  total (<[b := it']> h) (xs ++ [b]) = total h (xs ++ [b]) + add.
Proof.
  intros [Hl Hok Hsz Hbd] Hit Hok' En Es Ha Hb. pose proof (lrep_nodup _ _ _ Hl) as Hnd.
  assert (b ∉ xs) as Hni by (apply NoDup_app in Hnd as (_ & Hd & _); intros Hin; by apply (Hd b Hin), list_elem_of_here).
  assert (∀ x, x ∈ xs → <[b := it']> h !! x = h !! x) as Hf by (intros x Hx; apply lookup_insert_ne; by intros <-).
  assert (total (<[b := it']> h) (xs ++ [b]) = total h (xs ++ [b]) + add) as Et.
  { rewrite !total_app. simpl. rewrite (total_frame h) by done. unfold size_at. rewrite lookup_insert_eq, Hit. lia. }
  split; [|done]. split.
  - simpl. destruct Hl as [_ Hs ? ? ? ?]. split; try done. eapply seg_frame; [|exact Hs]. intros x Hx.
    destruct (decide (x = b)) as [->|]; [by rewrite lookup_insert_eq, Hit; simpl; rewrite En|by rewrite lookup_insert_ne].
  - intros x Hx. destruct (decide (x = b)) as [->|]; [exists it'; by rewrite lookup_insert_eq|].
    rewrite lookup_insert_ne by done. by apply Hok.
  - unfold SizeAdd, Size. simpl. rewrite Et, Hsz. apply cast_id.
    pose proof (total_nonneg h _ Hok). unfold sizeof_QuarantineBatch in *. lia.
  - lia.
Qed.

(** [Enqueue] adds the chunk at the end, in a new batch when the last is full. *)
Lemma Enqueue_spec h c xs nb raw ptr size : crep h c xs → nb ≠ 0 → h !! nb = None →
  Z.of_nat (length (batch raw)) = kSize → 0 ≤ size →
  total h xs + size + sizeof_QuarantineBatch < 2 ^ 64 →
  returns (Enqueue h c (nb, raw) ptr size) (λ '(h', c'), ∃ xs', crep h' c' xs' ∧
    (xs' = xs ∨ xs' = xs ++ [nb]) ∧ chunks h' xs' = chunks h xs ++ [ptr] ∧
    total h xs + size ≤ total h' xs' ≤ total h xs + size + sizeof_QuarantineBatch ∧
    ∀ y, y ∉ nb :: xs → h' !! y = h !! y).
Proof.
  intros Hc Hnb Hfresh Hraw Hsz Hbd. unfold Enqueue. pose proof (cr_list _ _ _ Hc) as Hl.
  pose proof (total_nonneg h xs (cr_ok _ _ _ Hc)) as Hnn.
  assert (nb ∉ xs) as Hni by (intros (it & E & _)%(cr_ok _ _ _ Hc); congruence).
  eapply returns_bind with (P := λ full : bool, full = false → ∃ ys b it, xs = ys ++ [b] ∧
    back (list_ c) = b ∧ b ≠ 0 ∧ h !! b = Some it ∧ batch_ok it ∧ count it < kSize).
  - rewrite (lrep_empty _ _ _ Hl). case_bool_decide as Hne; [done|].
    destruct (lrep_snoc _ _ _ Hl Hne) as (ys & b & -> & El & _). rewrite El.
    destruct (cr_ok _ _ _ Hc b) as (it & Hit & Hok); [set_solver +|].
    destruct (seg_lookup _ _ _ b (lrep_seg _ _ _ Hl)) as [Hb _]; [set_solver +|].
    rewrite (load_ok h b it) by done. cbn [mbind result_bind returns].
    destruct (Z.eqb_spec (count it) kSize); [done|]. intros _. exists ys, b, it.
    do 5 (split; [done|]). destruct Hok as (_ & ? & _). lia.
  - intros [] Hfull.
    + rewrite (proj2 (Z.eqb_neq nb 0)) by done. cbn [negb CHECK mbind result_bind].
      rbind (by apply batch_init_spec; [done|done|unfold sizeof_QuarantineBatch in *; lia]).
      intros it (Hok & Ech & Es).
      assert (∀ x, x ∈ xs → <[nb := it]> h !! x = h !! x) as Hf by (intros x Hx; apply lookup_insert_ne; by intros <-).
      eapply returns_mono; [apply (EnqueueBatch_spec _ c xs nb it); [by eapply crep_frame|apply lookup_insert_eq|done|done|done|]|].
      { rewrite (total_frame h) by done. lia. }
      intros [h' c'] [Hc' Hw]. exists (xs ++ [nb]). split; [done|]. split; [by right|].
      pose proof (writes_payload _ _ _ (xs ++ [nb]) Hw) as Hp. split; [|split].
      * rewrite (payload_chunks _ _ _ Hp), chunks_app, (chunks_frame h _ xs Hf).
        simpl. by rewrite lookup_insert_eq, Ech.
      * rewrite (payload_total _ _ _ Hp), total_app, (total_frame h _ xs Hf).
        simpl. unfold size_at. rewrite lookup_insert_eq. unfold sizeof_QuarantineBatch in *. lia.
      * intros y Hy. destruct (Hw y) as [-> _]; [|done]. apply lookup_insert_ne. set_solver + Hy.
    + destruct (Hfull eq_refl) as (ys & b & it & -> & -> & Hb & Hit & Hok & Hlt). clear Hfull.
      rewrite (load_ok h b it) by done. cbn [mbind result_bind].
      assert (qb_size it ≤ total h (ys ++ [b])) as Hle.
      { rewrite total_app. simpl. unfold size_at. rewrite Hit.
        pose proof (total_nonneg h ys (proj1 (proj1 (batches_ok_app _ _ _) (cr_ok _ _ _ Hc)))).
        unfold sizeof_QuarantineBatch in *. lia. }
      rbind (apply batch_push_back_spec; [done|done|done|unfold sizeof_QuarantineBatch in *; lia]).
      intros it' (Hok' & Ech & Es & En). cbn [returns]. exists (ys ++ [b]).
      destruct (crep_set_last h c ys b it it' size Hc Hit Hok' En Es Hsz) as [Hc' Et];
        [unfold sizeof_QuarantineBatch in *; lia|].
      split; [done|]. split; [by left|]. split; [|split; [unfold sizeof_QuarantineBatch in *; lia|]].
      * pose proof (lrep_nodup _ _ _ Hl) as Hnd. apply NoDup_app in Hnd as (_ & Hd & _).
        rewrite !chunks_app, (chunks_frame h (<[b := it']> h) ys).
        -- simpl. by rewrite lookup_insert_eq, Hit, Ech, !app_nil_r, app_assoc.
        -- intros x Hx. apply lookup_insert_ne. intros <-. by apply (Hd b Hx), list_elem_of_here.
      * intros y Hy. apply lookup_insert_ne. set_solver + Hy.
Qed.

Lemma Transfer_spec h c f xs ys : crep h c xs → crep h f ys → (∀ x, x ∈ xs → x ∉ ys) →
  total h xs + total h ys < 2 ^ 64 →
  returns (Transfer h c f) (λ '(h', c', f'), crep h' c' (xs ++ ys) ∧ f' = new_cache ∧ writes xs h h').
Proof.
  intros Hc Hf Hd Hb. unfold Transfer.
  pose proof (total_nonneg h xs (cr_ok _ _ _ Hc)). pose proof (total_nonneg h ys (cr_ok _ _ _ Hf)).
  rbind (eapply append_back_spec; [apply Hc|apply Hf|done|unfold sizeof_QuarantineBatch in *; lia]).
  intros [[h' l'] fl] (Hl & -> & Hw). cbn [returns]. split; [|done].
  pose proof (writes_payload _ _ _ (xs ++ ys) Hw) as Hp. rewrite <- total_app in Hb.
  assert (batches_ok h (xs ++ ys)) as Hok by (apply batches_ok_app; split; [apply Hc|apply Hf]).
  split; [done|by eapply payload_ok| |by rewrite (payload_total h)].
  rewrite (payload_total h) by done. unfold SizeAdd, Size, set_list. simpl.
  rewrite (cr_size _ _ _ Hc), (cr_size _ _ _ Hf), <- total_app. apply cast_id.
  pose proof (total_nonneg h _ Hok). unfold sizeof_QuarantineBatch in *. lia.
Qed.

(** ** Merging *)

Lemma merge_spec b from : batch_ok b → batch_ok from → can_merge b from = true →
  qb_size b + qb_size from < 2 ^ 64 →
  returns (merge b from) (λ '(b', from'), batch_ok b' ∧ qb_next b' = qb_next b ∧
    chunk_of b' = chunk_of b ++ chunk_of from ∧ count b' = count b + count from ∧
    qb_size b' = qb_size b + qb_size from - sizeof_QuarantineBatch ∧
    batch_ok from' ∧ qb_next from' = qb_next from ∧ count from' = 0 ∧
    qb_size from' = sizeof_QuarantineBatch).
Proof.
  intros (Hl & Hc & Hs) (Hl' & Hc' & Hs') Hm Hb. unfold merge. rewrite Hm.
  apply Z.leb_le in Hm. cbn [CHECK mbind result_bind]. rewrite (proj2 (Z.leb_le _ _)) by lia.
  cbn [CHECK mbind result_bind]. eapply returns_bind.
  - apply (returns_for_range (λ i bs, length bs = length (batch b) ∧
      take (Z.to_nat (count b + i)) bs = chunk_of b ++ take (Z.to_nat i) (batch from))); [lia| |].
    { split; [done|]. by rewrite Z.add_0_r, app_nil_r. }
    intros i bs Hi [El Et]. destruct (lookup_lt_is_Some_2 (batch from) (Z.to_nat i)) as [x Hx]; [lia|].
    rewrite (proj2 (aget_Ok _ _ x)) by (split; [lia|done]). cbn [mbind result_bind].
    apply returns_aset; [lia|]. split; [by rewrite length_insert|].
    replace (Z.to_nat (count b + (i + 1))) with (S (Z.to_nat (count b + i))) by lia.
    rewrite (take_S_r _ _ x) by (apply list_lookup_insert_eq; lia).
    rewrite take_insert_ge, Et, <- app_assoc by lia. f_equal.
    replace (Z.to_nat (i + 1)) with (S (Z.to_nat i)) by lia. by rewrite (take_S_r _ _ _ Hx).
  - intros bs [El Et]. cbn [returns]. unfold batch_ok, chunk_of. simpl.
    unfold sizeof_QuarantineBatch in *. rewrite !(cast_id 64) by (rewrite ?(cast_id 64) by lia; lia).
    split_and!; try done; lia.
Qed.

(** No two neighbours in the list can be merged. *)
Definition settled (h : heap) (xs : list Z) : Prop :=
  ∀ pre a b post, xs = pre ++ a :: b :: post → kSize < count_at h a + count_at h b.

Lemma settled_snoc h xs a b : settled h (xs ++ [a]) → kSize < count_at h a + count_at h b →
  settled h ((xs ++ [a]) ++ [b]).
Proof.
  intros Hs Hab pre x y post E. destruct post as [|z post _] using rev_ind.
  - assert (xs ++ [a] = pre ++ [x] ∧ [b] = [y]) as [E1 E2].
    { apply app_inj_2; [done|]. by rewrite E, <- app_assoc. }
    apply app_inj_tail in E1 as [_ <-]. by simplify_eq.
  - rewrite !app_comm_cons, app_assoc in E. apply app_inj_tail in E as [E _]. by apply (Hs pre x y post).
Qed.

Lemma settled_mono h h' xs : (∀ x, x ∈ xs → count_at h x ≤ count_at h' x) → settled h xs → settled h' xs.
Proof.
  intros Hle Hs pre a b post E. specialize (Hs pre a b post E).
  assert (count_at h a ≤ count_at h' a) by (apply Hle; rewrite E; set_solver +).
  assert (count_at h b ≤ count_at h' b) by (apply Hle; rewrite E; set_solver +). lia.
Qed.

(** The state of the merge loop: the list with the position of [current], and the
    batches extracted so far. *)
Record merge_inv (h0 : heap) (xs0 : list Z) (tot : Z) (h : heap) (l : IntrusiveList) (tod : QuarantineCache)
    (ext : Z) (pre : list Z) (cur : Z) (post ts : list Z) : Prop := {
  mi_list : lrep h l (pre ++ cur :: post);
  mi_ok : batches_ok h (pre ++ cur :: post);
  mi_tod : crep h tod ts;
  mi_disjoint x : x ∈ pre ++ cur :: post → x ∉ ts;
  mi_perm : (pre ++ cur :: post) ++ ts ≡ₚ xs0;
  mi_chunks : chunks h (pre ++ cur :: post) = chunks h0 xs0;
  mi_empty : chunks h ts = [];
  mi_total : total h (pre ++ cur :: post) + ext = tot;
  mi_ext : total h ts = ext;
  mi_bound : tot < 2 ^ 64;
  mi_settled : settled h (pre ++ [cur]);
  mi_frame y : y ∉ xs0 → h !! y = h0 !! y
}.

Lemma chunks_two h pre a b post : chunks h (pre ++ a :: b :: post) =
  chunks h pre ++ chunks h [a] ++ chunks h [b] ++ chunks h post.
Proof. rewrite chunks_app. simpl. by rewrite !app_nil_r. Qed.

(** The heap after [current->merge(extracted)]. *)
Lemma merged_heap h pre a b post ita itb ita' itb' :
  NoDup (pre ++ a :: b :: post) → h !! a = Some ita → h !! b = Some itb →
  chunk_of ita' = chunk_of ita ++ chunk_of itb →
  qb_size ita' = qb_size ita + qb_size itb - sizeof_QuarantineBatch →
  let h' := <[b := itb']> (<[a := ita']> h) in
  (∀ x, x ∈ pre ++ post → h' !! x = h !! x) ∧ h' !! a = Some ita' ∧ h' !! b = Some itb' ∧
  chunks h' (pre ++ a :: post) = chunks h (pre ++ a :: b :: post) ∧
  total h' (pre ++ a :: post) + sizeof_QuarantineBatch = total h (pre ++ a :: b :: post).
Proof.
  intros (Hn1 & Hd & [Ha [Hb Hn2]%NoDup_cons]%NoDup_cons)%NoDup_app Hita Hitb Ech Es h'.
  assert (a ≠ b) as Hab by (intros ->; apply Ha; by constructor).
  assert (∀ x, x ∈ pre ++ post → h' !! x = h !! x) as Hf.
  { intros x Hx. unfold h'. rewrite !lookup_insert_ne; [done|..]; intros <-.
    - apply elem_of_app in Hx as [Hx|Hx]; [apply (Hd _ Hx)|apply Ha]; set_solver.
    - apply elem_of_app in Hx as [Hx|Hx]; [apply (Hd _ Hx)|apply Hb]; set_solver. }
  assert (h' !! a = Some ita') as Ea by (unfold h'; by rewrite lookup_insert_ne, lookup_insert_eq).
  split; [done|]. split; [done|]. split; [apply lookup_insert_eq|].
  assert (∀ x, x ∈ pre → h' !! x = h !! x) as Hf1 by (intros; apply Hf; set_solver).
  assert (∀ x, x ∈ post → h' !! x = h !! x) as Hf2 by (intros; apply Hf; set_solver).
  split.
  - rewrite chunks_app, chunks_two, (chunks_frame h h' pre Hf1).
    change (chunks h' (a :: post)) with ((match h' !! a with Some it => chunk_of it | None => [] end) ++ chunks h' post).
    rewrite Ea, Ech, (chunks_frame h h' post Hf2). simpl. rewrite Hita, Hitb. by rewrite !app_nil_r, <- app_assoc.
  - rewrite !total_app, (total_frame h h' pre Hf1). simpl. rewrite (total_frame h h' post Hf2).
    unfold size_at. rewrite Ea, Hita, Hitb. lia.
Qed.

Lemma payload_count h h' xs b : same_payload h h' xs → b ∈ xs → count_at h' b = count_at h b.
Proof.
  intros Hs Hb. pose proof (same_payload_lookup _ _ _ b Hs Hb) as Hx. unfold count_at.
  destruct (h !! b), (h' !! b); try done. by destruct Hx as (_ & -> & _).
Qed.

Lemma same_payload_trans h1 h2 h3 xs : same_payload h1 h2 xs → same_payload h2 h3 xs → same_payload h1 h3 xs.
Proof. intros H1 H2 b Hb. by rewrite H2, H1. Qed.

(** One merging iteration, from the [CHECK]s on. *)
Lemma merge_step h0 xs0 tot h l tod ext pre cur nx post ts itc itn itc' itn' :
  merge_inv h0 xs0 tot h l tod ext pre cur (nx :: post) ts →
  h !! cur = Some itc → h !! nx = Some itn →
  batch_ok itc' → qb_next itc' = qb_next itc → chunk_of itc' = chunk_of itc ++ chunk_of itn →
  count itc' = count itc + count itn → qb_size itc' = qb_size itc + qb_size itn - sizeof_QuarantineBatch →
  batch_ok itn' → qb_next itn' = qb_next itn → count itn' = 0 → qb_size itn' = sizeof_QuarantineBatch →
  returns ('(h, l) ← extract (<[nx := itn']> (<[cur := itc']> h)) l cur nx;
           '(h, tod) ← EnqueueBatch h tod nx; Ok (h, l, tod))
    (λ '(h', l', tod'), merge_inv h0 xs0 tot h' l' tod' (ext + sizeof_QuarantineBatch) pre cur post (ts ++ [nx])).
Proof.
  intros [Hl Hok Htod Hd Hperm Hch Hem Htot Hext Hbd Hset Hfr] Hitc Hitn Hokc Enc Ech Ecc Esc Hokn Enn Ecn Esn.
  pose proof (lrep_nodup _ _ _ Hl) as Hnd.
  destruct (merged_heap h pre cur nx post itc itn itc' itn' Hnd Hitc Hitn Ech Esc) as (Hf & Hc1 & Hn1 & Ech1 & Etot1).
  set (h1 := <[nx := itn']> (<[cur := itc']> h)) in *.
  destruct (seg_lookup _ _ _ nx (lrep_seg _ _ _ Hl)) as [Hnx0 _]; [set_solver +|].
  assert (lrep h1 l (pre ++ cur :: nx :: post)) as Hl1.
  { destruct Hl as [_ Hs ? ? ? ?]. split; try done. eapply seg_frame; [|exact Hs]. intros x Hx.
    destruct (decide (x = cur)) as [->|]; [by rewrite Hc1, Hitc; simpl; rewrite Enc|].
    destruct (decide (x = nx)) as [->|]; [by rewrite Hn1, Hitn; simpl; rewrite Enn|]. by rewrite Hf by set_solver. }
  assert (nx ∉ ts) as Hnt by (apply Hd; set_solver +).
  assert (∀ x, x ∈ ts → h1 !! x = h !! x) as Hft.
  { intros x Hx. unfold h1. rewrite !lookup_insert_ne; [done|..]; intros <-; by eapply (Hd _); [|exact Hx]; set_solver +. }
  rbind (by apply extract_spec). intros [h2 l2] (Hl2 & Hw2 & Hn2). rewrite Hn1 in Hn2.
  assert (∀ x, x ∈ ts → h2 !! x = h !! x) as Hft2.
  { intros x Hx. destruct (Hw2 x) as [-> _]; [by apply Hft|]. intros ->%list_elem_of_singleton.
    eapply (Hd cur); [set_solver +|done]. }
  assert (total h2 ts = ext) as Et2 by (by rewrite (total_frame h)).
  pose proof (total_nonneg h _ Hok) as Hnn. rewrite length_app in Hnn. simpl in Hnn.
  rbind (eapply (EnqueueBatch_spec h2 tod ts nx itn'); try done; [by eapply crep_frame|
    unfold sizeof_QuarantineBatch in *; lia]).
  intros [h3 tod3] [Hc3 Hw3]. cbn [returns].
  assert (∀ ys, same_payload h1 h3 ys) as Hp.
  { intros ys. eapply same_payload_trans; by eapply writes_payload. }
  assert (batches_ok h1 (pre ++ cur :: post)) as Hok1.
  { intros x Hx. destruct (decide (x = cur)) as [->|]; [eauto|].
    destruct (Hok x) as (it & Hit & ?); [set_solver|]. exists it. by rewrite Hf by set_solver. }
  split.
  - eapply lrep_writes; [exact Hw3| |done]. intros x Hx [->|Hin]%elem_of_cons.
    + apply NoDup_app in Hnd as (_ & Hd1 & [Hcx [Hnx _]%NoDup_cons]%NoDup_cons).
      apply elem_of_app in Hx as [Hx|[->|Hx]%elem_of_cons]; [apply (Hd1 nx Hx)|apply Hcx|done]; set_solver +.
    + eapply (Hd x); [set_solver + Hx|done].
  - by apply (payload_ok h1).
  - done.
  - intros x Hx Hin. apply elem_of_app in Hin as [Hin| ->%list_elem_of_singleton].
    + eapply (Hd x); [set_solver + Hx|done].
    + apply NoDup_app in Hnd as (_ & Hd1 & [Hcx [Hnx _]%NoDup_cons]%NoDup_cons).
      apply elem_of_app in Hx as [Hx|[->|Hx]%elem_of_cons]; [apply (Hd1 nx Hx)|apply Hcx|done]; set_solver +.
  - rewrite <- Hperm. solve_Permutation.
  - by rewrite (payload_chunks _ _ _ (Hp _)), Ech1.
  - rewrite (payload_chunks _ _ _ (Hp _)), chunks_app, (chunks_frame h h1 ts Hft), Hem. simpl.
    rewrite Hn1. unfold chunk_of. by rewrite Ecn.
  - rewrite (payload_total _ _ _ (Hp _)). lia.
  - rewrite (payload_total _ _ _ (Hp _)), total_app, (total_frame h h1 ts Hft). simpl. unfold size_at. rewrite Hn1. lia.
  - done.
  - eapply settled_mono; [|exact Hset]. intros x Hx. rewrite (payload_count _ _ _ x (Hp [x])) by (by constructor).
    unfold count_at. destruct (decide (x = cur)) as [->|]; [rewrite Hc1, Hitc; destruct (Hok nx) as (it & E & _ & ? & _); [set_solver +|]|].
    + assert (it = itn) as -> by congruence. lia.
    + rewrite Hf by set_solver. lia.
  - intros y Hy. rewrite <- Hperm in Hy. destruct (Hw3 y) as [-> _]; [|set_solver + Hy].
    destruct (Hw2 y) as [-> _]; [|set_solver + Hy]. unfold h1. rewrite !lookup_insert_ne by set_solver + Hy.
    apply Hfr. by rewrite <- Hperm.
Qed.

Lemma merge_loop_spec fuel h0 xs0 tot h l tod ext pre cur post ts :
  merge_inv h0 xs0 tot h l tod ext pre cur post ts → (length post ≤ fuel)%nat →
  returns (merge_loop fuel h l tod ext cur) (λ '(h', l', tod', ext'),
    ∃ pre' cur' ts', merge_inv h0 xs0 tot h' l' tod' ext' pre' cur' [] ts').
Proof.
  revert h l tod ext pre cur post ts.
  induction fuel as [|fuel IH]; intros h l tod ext pre cur post ts Hinv Hlen; cbn [merge_loop].
  all: pose proof (mi_list _ _ _ _ _ _ _ _ _ _ _ Hinv) as Hl;
    pose proof (lrep_seg _ _ _ Hl) as Hs; apply seg_app in Hs as [_ (Hc0 & (itc & Hitc & En) & Hs)];
    rewrite (proj2 (Z.eqb_neq cur 0)), (load_next_ok h cur itc), En by done; cbn [mbind result_bind].
  - destruct post; [|simpl in Hlen; lia]. simpl. by exists pre, cur, ts.
  - destruct post as [|nx post]; [simpl; by exists pre, cur, ts|]. cbn [hd].
    destruct Hs as (Hnx & (itn & Hitn & _) & _). rewrite (proj2 (Z.eqb_neq nx 0)) by done.
    rewrite (load_ok h cur itc), (load_ok h nx itn) by done. cbn [mbind result_bind].
    destruct (mi_ok _ _ _ _ _ _ _ _ _ _ _ Hinv cur) as (? & E & Hokc); [set_solver +|]. simplify_eq.
    destruct (mi_ok _ _ _ _ _ _ _ _ _ _ _ Hinv nx) as (? & E & Hokn); [set_solver +|]. simplify_eq.
    pose proof (mi_total _ _ _ _ _ _ _ _ _ _ _ Hinv) as Htot. pose proof (mi_bound _ _ _ _ _ _ _ _ _ _ _ Hinv) as Hbd.
    assert (qb_size itc + qb_size itn ≤ total h (pre ++ cur :: nx :: post) ∧ 0 ≤ ext) as [Hle Hext].
    { pose proof (mi_ok _ _ _ _ _ _ _ _ _ _ _ Hinv) as Hok. apply batches_ok_app in Hok as [Hok1 Hok2].
      change (cur :: nx :: post) with ([cur; nx] ++ post) in *. apply batches_ok_app in Hok2 as [_ Hok2].
      pose proof (total_nonneg _ _ Hok1). pose proof (total_nonneg _ _ Hok2).
      pose proof (total_nonneg _ _ (cr_ok _ _ _ (mi_tod _ _ _ _ _ _ _ _ _ _ _ Hinv))).
      rewrite (mi_ext _ _ _ _ _ _ _ _ _ _ _ Hinv) in *. rewrite !total_app. simpl. unfold size_at.
      rewrite Hitc, Hitn. unfold sizeof_QuarantineBatch in *. lia. }
    destruct (can_merge itc itn) eqn:Hm.
    + rbind (apply merge_spec; [done..|lia]).
      intros [itc' itn'] (Hokc' & Enc & Ech & Ecc & Esc & Hokn' & Enn & Ecn & Esn).
      rewrite Ecn, Esn, !Z.eqb_refl. cbn [CHECK mbind result_bind].
      pose proof (merge_step _ _ _ _ _ _ _ _ _ _ _ _ _ _ _ _ Hinv Hitc Hitn Hokc' Enc Ech Ecc Esc Hokn' Enn Ecn Esn) as Hstep.
      destruct (extract _ l cur nx) as [[h2 l2]|]; [|done]. cbn [mbind result_bind] in *.
      destruct (EnqueueBatch h2 tod nx) as [[h3 tod3]|]; [|done]. cbn [mbind result_bind returns] in *.
      rewrite cast_id; [eapply IH; [exact Hstep|simpl in Hlen; lia]|].
      destruct Hokn as (_ & _ & Hsn). destruct Hokc as (_ & _ & Hsc). unfold sizeof_QuarantineBatch in *. lia.
    + apply (IH _ _ _ _ (pre ++ [cur]) nx post ts); [|simpl in Hlen; lia]. apply Z.leb_gt in Hm.
      destruct Hinv as [H1 H2 H3 H4 H5 H6 H7 H8 H9 H10 H11 H12].
      assert ((pre ++ [cur]) ++ nx :: post = pre ++ cur :: nx :: post) as E by (by rewrite <- app_assoc).
      split; rewrite ?E; try done.
      apply settled_snoc; [done|]. unfold count_at. by rewrite Hitc, Hitn.
Qed.

Lemma settled_short h xs : (length xs ≤ 1)%nat → settled h xs.
Proof. intros Hl pre a b post ->. rewrite length_app in Hl. simpl in Hl. lia. Qed.

Lemma MergeBatches_spec h c xs : crep h c xs →
  returns (MergeBatches h c new_cache) (λ '(h', c', tod), ∃ xs' ts, crep h' c' xs' ∧ crep h' tod ts ∧
    xs' ++ ts ≡ₚ xs ∧ chunks h' xs' = chunks h xs ∧ chunks h' ts = [] ∧ settled h' xs' ∧
    total h' xs' + total h' ts = total h xs ∧ ∀ y, y ∉ xs → h' !! y = h !! y).
Proof.
  intros Hc. unfold MergeBatches. pose proof Hc as [Hl Hok Hsz Hbd].
  rewrite (lrep_first _ _ _ Hl), (lrep_size _ _ _ Hl), Nat2Z.id.
  destruct xs as [|cur post].
  - cbn. exists [], []. split; [|split; [apply crep_new|]].
    + destruct c as [l sz]. simpl in *. subst sz. split; done.
    + do 3 (split; [done|]). split; [apply settled_short; simpl; lia|done].
  - eapply returns_bind; [apply (merge_loop_spec _ h (cur :: post) (total h (cur :: post)) h (list_ c) new_cache 0 [] cur post [])|].
    + split; try done; simpl; try (by rewrite ?app_nil_r); try lia.
      * apply crep_new.
      * set_solver +.
      * apply settled_short; simpl; lia.
    + simpl. lia.
    + intros [[[h' l'] tod] ext] (pre & cur' & ts & [Hl' Hok' Ht Hd Hp Hch He Htot Hext Hb Hset Hfr]). cbn [returns].
      exists (pre ++ [cur']), ts. pose proof (total_nonneg _ _ Hok') as Hnn.
      pose proof (total_nonneg _ _ (cr_ok _ _ _ Ht)) as Hnt. rewrite Hext in Hnt.
      unfold sizeof_QuarantineBatch in Hnn, Hnt. split; [|split_and!; try done; lia]. split; [done|done| |lia].
      unfold SizeSub, Size, set_list. simpl. rewrite Hsz, cast_id; simpl in *; lia.
Qed.

Lemma drain_loop_spec fuel h c tmp xs ts min_size : crep h c xs → crep h tmp ts → (∀ x, x ∈ xs → x ∉ ts) →
  total h xs + total h ts < 2 ^ 64 → 0 ≤ min_size → (length xs ≤ fuel)%nat →
  returns (drain_loop fuel h c tmp min_size) (λ '(h', c', tmp'), ∃ moved rest, xs = moved ++ rest ∧
    crep h' c' rest ∧ crep h' tmp' (ts ++ moved) ∧ Size c' ≤ min_size ∧ writes (xs ++ ts) h h').
Proof.
  revert h c tmp xs ts. induction fuel as [|fuel IH]; intros h c tmp xs ts Hc Ht Hd Hb Hm Hf; cbn [drain_loop].
  all: destruct (Z.ltb_spec min_size (Size c)) as [Hlt|Hge];
    [|exists [], xs; rewrite app_nil_r; simpl; split_and!; try done; apply writes_refl].
  all: destruct xs as [|b xs]; [pose proof (cr_size _ _ _ Hc); unfold Size in Hlt; simpl in *; lia|].
  { simpl in Hf. lia. }
  rbind (by apply DequeueBatch_spec). intros [c1 b1] (-> & Hb0 & Hc1).
  destruct (cr_ok _ _ _ Hc b) as (it & Hit & Hok); [by constructor|].
  pose proof (lrep_nodup _ _ _ (cr_list _ _ _ Hc)) as [Hbx Hnd]%NoDup_cons.
  simpl in Hb. unfold size_at in Hb. rewrite Hit in Hb.
  pose proof (total_nonneg _ _ (cr_ok _ _ _ Hc1)) as Hnn. unfold sizeof_QuarantineBatch in Hnn.
  rbind (eapply (EnqueueBatch_spec h tmp ts b it); try done; [apply Hd; by constructor|lia]).
  intros [h2 tmp2] [Ht2 Hw2].
  assert (∀ x, x ∈ xs → h2 !! x = h !! x) as Hf2.
  { intros x Hx. destruct (Hw2 x) as [-> _]; [done|]. intros [->|Hin]%elem_of_cons; [done|].
    eapply (Hd x); [by right|done]. }
  pose proof (writes_payload _ _ _ (ts ++ [b]) Hw2) as Hp2.
  eapply returns_mono; [apply (IH h2 c1 tmp2 xs (ts ++ [b])); [by eapply crep_frame|done| | |done|simpl in Hf; lia]|].
  - intros x Hx [Hin|Hin]%elem_of_app; [eapply (Hd x); [by right|done]|].
    apply list_elem_of_singleton in Hin as ->. done.
  - rewrite (total_frame h h2 xs Hf2), (payload_total _ _ _ Hp2), total_app. simpl. unfold size_at. rewrite Hit. lia.
  - intros [[h' c'] tmp'] (moved & rest & -> & Hc' & Ht' & Hs' & Hw'). exists (b :: moved), rest.
    split; [done|]. split; [done|]. split; [by rewrite <- app_assoc in Ht'|]. split; [done|].
    eapply writes_trans; eapply writes_mono; [|exact Hw2| |exact Hw']; set_solver +.
Qed.

Lemma recycle_batch_spec it rec : batch_ok it → recycle_batch it rec = Ok (rec ++ chunk_of it).
Proof.
  intros (Hl & Hc & _). assert (returns (recycle_batch it rec) (λ r, r = rec ++ chunk_of it)) as Hr.
  { unfold recycle_batch. apply (returns_for_range (λ i r, r = rec ++ take (Z.to_nat i) (batch it))); [lia|by rewrite app_nil_r|].
    intros i r Hi ->. destruct (lookup_lt_is_Some_2 (batch it) (Z.to_nat i)) as [x Hx]; [lia|].
    rewrite (proj2 (aget_Ok _ _ x)) by (split; [lia|done]). cbn [mbind result_bind returns].
    replace (Z.to_nat (i + 1)) with (S (Z.to_nat i)) by lia. by rewrite (take_S_r _ _ _ Hx), app_assoc. }
  by apply returns_inv in Hr as (r & -> & ->).
Qed.

Lemma DoRecycle_spec fuel h c xs rec : crep h c xs → (length xs ≤ fuel)%nat →
  returns (DoRecycle_loop fuel h c rec) (λ '(h', rec'), rec' = rec ++ chunks h xs ∧
    ∀ y, h' !! y = if decide (y ∈ xs) then None else h !! y).
Proof.
  revert h c xs rec. induction fuel as [|fuel IH]; intros h c xs rec Hc Hf; cbn [DoRecycle_loop].
  all: destruct xs as [|b xs]; [rewrite (DequeueBatch_empty _ _ Hc); simpl; rewrite app_nil_r; done|].
  { simpl in Hf. lia. }
  rbind (by apply DequeueBatch_spec). intros [c1 b1] (-> & Hb0 & Hc1).
  rewrite (proj2 (Z.eqb_neq b 0)) by done. destruct (cr_ok _ _ _ Hc b) as (it & Hit & Hok); [by constructor|].
  rewrite (load_ok h b it) by done. cbn [mbind result_bind].
  rewrite recycle_batch_spec by done. cbn [mbind result_bind].
  pose proof (lrep_nodup _ _ _ (cr_list _ _ _ Hc)) as [Hbx Hnd]%NoDup_cons.
  assert (∀ x, x ∈ xs → delete b h !! x = h !! x) as Hfr by (intros x Hx; apply lookup_delete_ne; by intros <-).
  eapply returns_mono; [apply (IH _ c1 xs); [by eapply crep_frame|simpl in Hf; lia]|].
  intros [h' rec'] [-> Hh]. split.
  - rewrite (chunks_frame h) by done. change (chunks h (b :: xs)) with
      ((match h !! b with Some it => chunk_of it | None => [] end) ++ chunks h xs). by rewrite Hit, <- app_assoc.
  - intros y. rewrite Hh. destruct (decide (y ∈ xs)) as [Hy|Hy]; [by rewrite decide_True by (by right)|].
    destruct (decide (y = b)) as [->|Hne]; [rewrite decide_True by (by constructor); apply lookup_delete_eq|].
    rewrite decide_False by set_solver. by apply lookup_delete_ne.
Qed.

(** ** Recycling *)

(** The part [tmp] of [Recycle] plays after the merge: the chunks are all in the
    cache, and the extracted batches hold none. *)
Lemma Recycle_spec h q xs min_size rec : crep h (cache_ q) xs → 0 ≤ min_size →
  returns (Recycle h q min_size rec) (λ '(h', q', rec'), ∃ xs' out, crep h' (cache_ q') xs' ∧
    q' = set_cache q (cache_ q') ∧ (∀ x, x ∈ xs' → x ∈ xs) ∧ rec' = rec ++ out ∧
    chunks h xs = out ++ chunks h' xs' ∧ Size (cache_ q') ≤ min_size ∧
    (∀ y, y ∉ xs → h' !! y = h !! y)).
Proof.
  intros Hc Hm. unfold Recycle. pose proof (crep_length _ _ _ Hc) as Hlen.
  pose proof (total_nonneg _ _ (cr_ok _ _ _ Hc)) as Hnn. pose proof (cr_bound _ _ _ Hc) as Hbd.
  assert (OverheadSize (cache_ q) = Z.of_nat (length xs) * sizeof_QuarantineBatch) as ->.
  { rewrite (lrep_size _ _ _ (cr_list _ _ _ Hc)). apply cast_id.
    unfold sizeof_QuarantineBatch in *. lia. }
  assert (Size (cache_ q) = total h xs) as -> by apply Hc.
  rewrite (proj2 (Z.leb_le _ _)) by done. cbn [CHECK mbind result_bind].
  eapply returns_bind with (P := λ '(h1, c1, tmp), ∃ xs1 ts, crep h1 c1 xs1 ∧ crep h1 tmp ts ∧
    xs1 ++ ts ≡ₚ xs ∧ chunks h1 xs1 = chunks h xs ∧ chunks h1 ts = [] ∧
    total h1 xs1 + total h1 ts = total h xs ∧ ∀ y, y ∉ xs → h1 !! y = h !! y).
  { destruct (_ && _).
    - eapply returns_mono; [by apply MergeBatches_spec|].
      intros [[h1 c1] tmp] (xs1 & ts & H1 & H2 & H3 & H4 & H5 & _ & H7 & H8). by exists xs1, ts.
    - exists xs, []. rewrite app_nil_r. split; [done|]. split; [apply crep_new|]. split; [done|].
      split; [done|]. split; [done|]. split; [simpl; lia|done]. }
  intros [[h1 c1] tmp] (xs1 & ts & Hc1 & Ht1 & Hp1 & Ech1 & Ee1 & Et1 & Hf1).
  assert (NoDup (xs1 ++ ts)) as Hnd by (rewrite Hp1; apply (lrep_nodup _ _ _ (cr_list _ _ _ Hc))).
  apply NoDup_app in Hnd as (_ & Hd & _).
  rewrite (lrep_size _ _ _ (cr_list _ _ _ Hc1)), Nat2Z.id.
  rbind (apply (drain_loop_spec _ h1 c1 tmp xs1 ts); [done|done|done|lia|done|lia]).
  intros [[h2 c2] tmp2] (moved & rest & -> & Hc2 & Ht2 & Hs2 & Hw2).
  unfold DoRecycle. rewrite (lrep_size _ _ _ (cr_list _ _ _ Ht2)), Nat2Z.id.
  rbind (by apply (DoRecycle_spec _ h2 tmp2 (ts ++ moved))). intros [h3 rec3] [-> Hh3]. cbn [returns].
  assert (∀ x, x ∈ rest → h3 !! x = h2 !! x) as Hf3.
  { intros x Hx. rewrite Hh3, decide_False; [done|]. intros [Hin|Hin]%elem_of_app.
    - apply (Hd x); [set_solver + Hx|done].
    - assert (NoDup ((moved ++ rest) ++ ts)) as Hnd by (rewrite Hp1; apply (lrep_nodup _ _ _ (cr_list _ _ _ Hc))).
      apply NoDup_app in Hnd as ((_ & Hmr & _)%NoDup_app & _). by apply (Hmr x). }
  exists rest, (chunks h1 moved). split; [by eapply crep_frame|]. split; [done|].
  split; [intros x Hx; rewrite <- Hp1; set_solver + Hx|].
  pose proof (λ ys, writes_payload _ _ _ ys Hw2) as Hp2. split; [|split; [|split; [done|]]].
  - by rewrite chunks_app, !(payload_chunks h1 h2 _ (Hp2 _)), Ee1.
  - rewrite (chunks_frame h2 h3 rest Hf3), (payload_chunks h1 h2 _ (Hp2 _)), <- chunks_app. done.
  - intros y Hy. rewrite <- Hp1 in Hy. rewrite Hh3, decide_False by set_solver + Hy.
    destruct (Hw2 y) as [-> _]; [apply Hf1; by rewrite <- Hp1|done].
Qed.

(** The global cache, a thread's cache and the chunks on their way through them. *)
Record qrep (h : heap) (q : Quarantine) (c : QuarantineCache) (gs ls : list Z) : Prop := {
  qr_global : crep h (cache_ q) gs;
  qr_local : crep h c ls;
  qr_disjoint x : x ∈ gs → x ∉ ls;
  qr_bound : total h gs + total h ls < 2 ^ 64;
  qr_limits : 0 ≤ min_size_ q ≤ max_size_ q ∧ 0 ≤ max_cache_size_ q
}.

(** What an operation does to the chunks: [out] is recycled, oldest first; other
    batches than those of the two caches (and [new]) are not touched. *)
Definition moves (h : heap) (gs ls : list Z) (rec : log) (add new : list Z)
    (h' : heap) (gs' ls' : list Z) (rec' : log) : Prop :=
  ∃ out, rec' = rec ++ out ∧ chunks h gs ++ chunks h ls ++ add = out ++ chunks h' gs' ++ chunks h' ls' ∧
    ∀ y, y ∉ gs → y ∉ ls → y ∉ new → h' !! y = h !! y.

Lemma Drain_spec h q c gs ls rec trylock : qrep h q c gs ls →
  returns (Drain h q c rec trylock) (λ '(h', q', c', rec'), ∃ gs', qrep h' q' c' gs' [] ∧
    q' = set_cache q (cache_ q') ∧ c' = new_cache ∧ moves h gs ls rec [] [] h' gs' [] rec' ∧
    (trylock = true → Size (cache_ q') ≤ max_size_ q)).
Proof.
  intros [Hg Hl Hd Hb Hlim]. unfold Drain. rbind (by apply (Transfer_spec h (cache_ q) c gs ls)).
  intros [[h1 g1] c1] (Hg1 & -> & Hw1). pose proof (writes_payload _ _ _ (gs ++ ls) Hw1) as Hp1.
  assert (∀ y, y ∉ gs → y ∉ ls → h1 !! y = h !! y) as Hf1 by (intros y Hy _; by destruct (Hw1 y) as [-> _]).
  assert (total h1 (gs ++ ls) < 2 ^ 64) as Hb1 by apply Hg1.
  destruct (Z.ltb_spec (GetSize (set_cache q g1)) (Size g1)) as [Hlt|Hge]; cbn [andb]; [destruct trylock|].
  - rbind (apply (Recycle_spec h1 (set_cache q g1) (gs ++ ls)); [done|simpl; lia]).
    intros [[h2 q2] rec2] (xs & out & Hc2 & Eq2 & Hsub & -> & Ech & Hs2 & Hf2). cbn [returns].
    exists xs. split; [|split; [rewrite Eq2; by destruct q|]; split; [done|]; split].
    + split; [done|apply crep_new|set_solver +| |by rewrite Eq2]. simpl.
      pose proof (cr_bound _ _ _ Hc2). lia.
    + exists out. split; [done|]. rewrite (payload_chunks _ _ _ Hp1), chunks_app in Ech. simpl.
      rewrite !app_nil_r. split; [done|]. intros y Hy1 Hy2 _. rewrite Hf2 by set_solver. by apply Hf1.
    + intros _. simpl in Hs2. lia.
  - cbn [returns]. exists (gs ++ ls). split; [|split; [by destruct q|]; split; [done|]; split; [|done]].
    + split; [done|apply crep_new|set_solver +|simpl; lia|done].
    + exists []. split; [by rewrite app_nil_r|]. simpl. rewrite !app_nil_r, (payload_chunks _ _ _ Hp1), chunks_app.
      split; [done|]. intros y Hy1 Hy2 _. by apply Hf1.
  - cbn [returns]. exists (gs ++ ls). split; [|split; [by destruct q|]; split; [done|]; split; [|intros _; simpl; simpl in Hge; lia]].
    + split; [done|apply crep_new|set_solver +|simpl; lia|done].
    + exists []. split; [by rewrite app_nil_r|]. simpl. rewrite !app_nil_r, (payload_chunks _ _ _ Hp1), chunks_app.
      split; [done|]. intros y Hy1 Hy2 _. by apply Hf1.
Qed.

Lemma moves_trans h gs ls rec add new h1 gs1 ls1 rec1 new1 h2 gs2 ls2 rec2 :
  moves h gs ls rec add new h1 gs1 ls1 rec1 → moves h1 gs1 ls1 rec1 [] new1 h2 gs2 ls2 rec2 →
  (∀ x, x ∈ gs1 ∨ x ∈ ls1 ∨ x ∈ new1 → x ∈ gs ∨ x ∈ ls ∨ x ∈ new) →
  moves h gs ls rec add new h2 gs2 ls2 rec2.
Proof.
  intros (o1 & -> & E1 & F1) (o2 & -> & E2 & F2) Hsub. exists (o1 ++ o2). split; [by rewrite app_assoc|].
  rewrite app_nil_r in E2. split; [by rewrite E1, E2, !app_assoc|].
  intros y Hy1 Hy2 Hy3. rewrite F2, F1; [done..| | |]; intros Hin; specialize (Hsub y); tauto.
Qed.

(** The first part of [Put]. *)
Lemma Put_enqueue h q c gs ls rec nb raw ptr size : qrep h q c gs ls →
  nb ≠ 0 → h !! nb = None → Z.of_nat (length (batch raw)) = kSize → 0 ≤ size →
  total h gs + total h ls + size + sizeof_QuarantineBatch < 2 ^ 64 →
  returns (Enqueue h c (nb, raw) ptr size) (λ '(h', c'), ∃ ls',
    qrep h' q c' gs ls' ∧ (∀ x, x ∈ ls' → x ∈ ls ∨ x = nb) ∧ moves h gs ls rec [ptr] [nb] h' gs ls' rec).
Proof.
  intros [Hg Hl Hd Hb Hlim] Hnb Hfr Hraw Hsz Hov.
  pose proof (total_nonneg _ _ (cr_ok _ _ _ Hg)) as Hn1. unfold sizeof_QuarantineBatch in Hn1.
  eapply returns_mono; [apply (Enqueue_spec h c ls nb raw ptr size); [done..|lia]|].
  intros [h1 c1] (ls1 & Hc1 & Hls & Ech & Et & Hf). exists ls1.
  assert (∀ x, x ∈ ls1 → x ∈ ls ∨ x = nb) as Hsub by (destruct Hls as [-> | ->]; set_solver +).
  assert (∀ x, x ∈ gs → x ∉ nb :: ls) as Hgx.
  { intros x Hx [->|Hin]%elem_of_cons; [|by apply (Hd x)].
    destruct (cr_ok _ _ _ Hg nb Hx) as (it & E & _). congruence. }
  assert (∀ x, x ∈ gs → h1 !! x = h !! x) as Hfg by (intros x Hx; apply Hf; by apply Hgx).
  split; [|split; [done|]].
  - split; [by eapply crep_frame|done| |rewrite (total_frame h h1 gs Hfg); lia|done].
    intros x Hx [Hin|Hin]%Hsub; [by apply (Hd x)|subst x]. by apply (Hgx nb Hx), list_elem_of_here.
  - exists []. split; [by rewrite app_nil_r|]. rewrite (chunks_frame h h1 gs Hfg), Ech. split; [done|].
    intros y Hy1 Hy2 Hy3. apply Hf. set_solver + Hy2 Hy3.
Qed.

(** The second part: drain the thread's cache when it is too large. *)
Lemma Put_drain h q c gs ls rec trylock : qrep h q c gs ls →
  returns (if GetCacheSize q <? Size c then Drain h q c rec trylock else Ok (h, q, c, rec))
    (λ '(h', q', c', rec'), ∃ gs' ls', qrep h' q' c' gs' ls' ∧ moves h gs ls rec [] [] h' gs' ls' rec' ∧
      Size c' ≤ GetCacheSize q ∧
      (trylock = true → Size (cache_ q) ≤ GetSize q → Size (cache_ q') ≤ GetSize q)).
Proof.
  intros Hq. destruct (Z.ltb_spec (GetCacheSize q) (Size c)) as [Hlt|Hge].
  - eapply returns_mono; [by apply Drain_spec|]. intros [[[h' q'] c'] rec'] (gs' & Hq' & Eq & -> & Hm & Hs).
    exists gs', []. split; [done|]. split; [done|]. split; [|auto].
    destruct Hq as [_ _ _ _ [_ ?]]. unfold Size. simpl. lia.
  - exists gs, ls. split; [done|]. split; [|done]. exists []. rewrite !app_nil_r. done.
Qed.

(** [C34] [Put] loses nothing and keeps the order: the chunks recycled so far, those
    in the global cache and those in the thread's cache form, in this order, the
    sequence of all chunks put, with the new one at the end (or recycled at once
    when caching is off).  The invariant of both caches is kept, the thread's cache
    stays within its limit, and so does the global one when the recycle lock is
    free. *)
Theorem Put_correct h q c gs ls rec nb raw ptr size trylock : qrep h q c gs ls →
  nb ≠ 0 → h !! nb = None → Z.of_nat (length (batch raw)) = kSize → 0 ≤ size →
  total h gs + total h ls + size + sizeof_QuarantineBatch < 2 ^ 64 →
  returns (Put h q c rec (nb, raw) ptr size trylock) (λ '(h', q', c', rec'), ∃ gs' ls',
    qrep h' q' c' gs' ls' ∧
    (if decide (GetCacheSize q = 0) then moves h gs ls (rec ++ [ptr]) [] [nb] h' gs' ls' rec'
     else moves h gs ls rec [ptr] [nb] h' gs' ls' rec') ∧
    Size c' ≤ GetCacheSize q ∧
    (trylock = true → Size (cache_ q) ≤ GetSize q → Size (cache_ q') ≤ GetSize q)).
Proof.
  intros Hq Hnb Hfr Hraw Hsz Hov. unfold Put.
  destruct (Z.eqb_spec (GetCacheSize q) 0) as [E|E]; cbn [negb].
  - cbn [mbind result_bind]. eapply returns_mono; [by apply Put_drain|].
    intros [[[h' q'] c'] rec'] (gs' & ls' & Hq' & Hm & Hs & Hb). exists gs', ls'. split; [done|].
    rewrite decide_True by done. split; [|done]. eapply moves_trans; [|exact Hm|set_solver +].
    exists []. rewrite !app_nil_r. done.
  - eapply returns_bind with (P := λ '(h1, c1, rec1), ∃ ls1, qrep h1 q c1 gs ls1 ∧
      (∀ x, x ∈ ls1 → x ∈ ls ∨ x = nb) ∧ rec1 = rec ∧ moves h gs ls rec [ptr] [nb] h1 gs ls1 rec).
    { rbind (by eapply (Put_enqueue h q c gs ls rec)). intros [h1 c1] (ls1 & ? & ? & ?). by exists ls1. }
    intros [[h1 c1] rec1] (ls1 & Hq1 & Hsub & -> & Hm1). eapply returns_mono; [by apply Put_drain|].
    intros [[[h' q'] c'] rec'] (gs' & ls' & Hq' & Hm & Hs & Hb). exists gs', ls'. split; [done|].
    rewrite decide_False by done. split; [|done]. eapply moves_trans; [exact Hm1|exact Hm|].
    intros x [Hx|[[Hx|Hx]%Hsub|Hx]]; set_solver + Hx.
Qed.

(** [DrainAndRecycle] recycles everything: the chunks of the global and of the
    thread's cache, in order, and leaves both empty with size 0. *)
Theorem DrainAndRecycle_correct h q c gs ls rec : qrep h q c gs ls →
  returns (DrainAndRecycle h q c rec) (λ '(h', q', c', rec'),
    rec' = rec ++ chunks h gs ++ chunks h ls ∧ cache_ q' = new_cache ∧ c' = new_cache ∧
    ∀ y, y ∉ gs → y ∉ ls → h' !! y = h !! y).
Proof.
  intros [Hg Hl Hd Hb Hlim]. unfold DrainAndRecycle. rbind (by apply (Transfer_spec h (cache_ q) c gs ls)).
  intros [[h1 g1] c1] (Hg1 & -> & Hw1). pose proof (writes_payload _ _ _ (gs ++ ls) Hw1) as Hp1.
  rbind (apply (Recycle_spec h1 (set_cache q g1) (gs ++ ls)); [done|lia]).
  intros [[h2 q2] rec2] (xs & out & Hc2 & _ & _ & -> & Ech & Hs2 & Hf2). cbn [returns].
  assert (xs = []) as ->.
  { destruct xs as [|x xs]; [done|]. pose proof (total_nonneg _ _ (cr_ok _ _ _ Hc2)) as Hn.
    unfold Size in Hs2. rewrite (cr_size _ _ _ Hc2) in Hs2. simpl in Hn. unfold sizeof_QuarantineBatch in Hn. simpl in *. lia. }
  simpl in Ech. rewrite app_nil_r, (payload_chunks _ _ _ Hp1), chunks_app in Ech. subst out.
  split; [done|]. split; [|split; [done|]].
  - destruct Hc2 as [Hl2 _ Hsz _]. destruct (cache_ q2) as [l sz]. simpl in *. subst sz.
    by rewrite (lrep_nil_inv _ _ Hl2).
  - intros y Hy1 Hy2. rewrite Hf2 by set_solver. by destruct (Hw1 y) as [-> _].
Qed.

(** [MergeBatches] keeps the sequence of quarantined chunks, moves the batches
    it has emptied to the deallocation list, and leaves no two neighbouring batches
    that would fit into one. *)
Theorem MergeBatches_correct h c xs : crep h c xs →
  returns (MergeBatches h c new_cache) (λ '(h', c', tod), ∃ xs' ts, crep h' c' xs' ∧ crep h' tod ts ∧
    xs' ++ ts ≡ₚ xs ∧ chunks h' xs' = chunks h xs ∧ chunks h' ts = [] ∧ settled h' xs' ∧
    Size c' + Size tod = Size c).
Proof.
  intros Hc. eapply returns_mono; [by apply MergeBatches_spec|].
  intros [[h' c'] tod] (xs' & ts & H1 & H2 & H3 & H4 & H5 & H6 & H7 & _). exists xs', ts.
  do 6 (split; [done|]). unfold Size. by rewrite (cr_size _ _ _ H1), (cr_size _ _ _ H2), (cr_size _ _ _ Hc).
Qed.

(** ** Concrete instances *)
Definition ex_batch (nx p : Z) : QuarantineBatch := QB nx (sizeof_QuarantineBatch + 16) 1 (p :: replicate 1020 0).
(** Two one-batch caches, and one cache of two batches. *)
Definition ex_heap : heap := <[1 := ex_batch 0 100]> (<[2 := ex_batch 0 200]> ∅).
Definition ex_heap2 : heap := <[1 := ex_batch 2 100]> (<[2 := ex_batch 0 200]> ∅).
Definition ex_cache (xs : list Z) : QuarantineCache :=
  Cache (IL (Z.of_nat (length xs)) (hd 0 xs) (default 0 (last xs))) (Z.of_nat (length xs) * 8208).
Definition ex_quar : Quarantine := Quar 20000 18000 10000 (ex_cache [1]).

Lemma ex_batch_ok nx p : batch_ok (ex_batch nx p).
Proof. split; [done|]. split; [done|]. unfold ex_batch, sizeof_QuarantineBatch. simpl. lia. Qed.

Lemma ex_crep1 : crep ex_heap (ex_cache [1]) [1].
Proof.
  split; [split; try done; [apply NoDup_singleton|]| |done|done].
  - split; [done|]. split; [by exists (ex_batch 0 100)|done].
  - intros b ->%list_elem_of_singleton. by eexists; split; [|apply (ex_batch_ok 0 100)].
Qed.
Lemma ex_crep2 : crep ex_heap (ex_cache [2]) [2].
Proof.
  split; [split; try done; [apply NoDup_singleton|]| |done|done].
  - split; [done|]. split; [by exists (ex_batch 0 200)|done].
  - intros b ->%list_elem_of_singleton. by eexists; split; [|apply (ex_batch_ok 0 200)].
Qed.
Lemma ex_crep12 : crep ex_heap2 (ex_cache [1; 2]) [1; 2].
Proof.
  split; [split; try done; [by apply (bool_decide_unpack _)|]| |done|done].
  - split; [done|]. split; [by exists (ex_batch 2 100)|]. split; [done|]. split; [by exists (ex_batch 0 200)|done].
  - intros b [->|[->|[]%not_elem_of_nil]%elem_of_cons]%elem_of_cons.
    + by eexists; split; [|apply (ex_batch_ok 2 100)].
    + by eexists; split; [|apply (ex_batch_ok 0 200)].
Qed.
Lemma ex_qrep : qrep ex_heap ex_quar (ex_cache [2]) [1] [2].
Proof. split; [apply ex_crep1|apply ex_crep2|set_solver|done|simpl; lia]. Qed.

Lemma Put_correct_witness :
  returns (Put ex_heap ex_quar (ex_cache [2]) [50] (3, ex_batch 0 0) 300 2000 true)
    (λ '(h', q', c', rec'), ∃ gs' ls',
    qrep h' q' c' gs' ls' ∧
    (if decide (GetCacheSize ex_quar = 0) then moves ex_heap [1] [2] ([50] ++ [300]) [] [3] h' gs' ls' rec'
     else moves ex_heap [1] [2] [50] [300] [3] h' gs' ls' rec') ∧
    Size c' ≤ GetCacheSize ex_quar ∧
    (true = true → Size (cache_ ex_quar) ≤ GetSize ex_quar → Size (cache_ q') ≤ GetSize ex_quar)).
Proof. apply Put_correct; [apply ex_qrep|done..]. Defined.

Lemma DrainAndRecycle_correct_witness :
  returns (DrainAndRecycle ex_heap ex_quar (ex_cache [2]) [50]) (λ '(h', q', c', rec'),
    rec' = [50] ++ chunks ex_heap [1] ++ chunks ex_heap [2] ∧ cache_ q' = new_cache ∧ c' = new_cache ∧
    ∀ y, y ∉ [1] → y ∉ [2] → h' !! y = ex_heap !! y).
Proof. apply DrainAndRecycle_correct, ex_qrep. Defined.

Lemma MergeBatches_correct_witness :
  returns (MergeBatches ex_heap2 (ex_cache [1; 2]) new_cache) (λ '(h', c', tod), ∃ xs' ts,
    crep h' c' xs' ∧ crep h' tod ts ∧
    xs' ++ ts ≡ₚ [1; 2] ∧ chunks h' xs' = chunks ex_heap2 [1; 2] ∧ chunks h' ts = [] ∧ settled h' xs' ∧
    Size c' + Size tod = Size (ex_cache [1; 2])).
Proof. apply MergeBatches_correct, ex_crep12. Defined.

End Quar.
