(* ===== verification/SizeClassMap.v ===== *)
(** * SizeClassMap: the size classes of the allocators

    Models [sanitizer_allocator_size_class_map.h].  The template parameters are a
    record; the constants of the class are definitions over it.  The theorems hold
    for every instance that passes the class's compile-time checks and whose shifts
    are defined ([ValidMap]); the five instances of the header are shown to be
    such.  [ClassID] finds the smallest class that is large enough, and the
    run-time self-test [Validate] never fails. *)
From S2P Require Import Prelude Common.

Module SizeClass.

Record SizeClassMap := mkSCM {
  kNumBits : Z;
  kMinSizeLog : Z;
  kMidSizeLog : Z;
  kMaxSizeLog : Z;
  kMaxNumCachedHintT : Z;
  kMaxBytesCachedLog : Z
}.

Abbreviation kMinSize P := (Z.shiftl 1 (kMinSizeLog P)).
Abbreviation kMidSize P := (Z.shiftl 1 (kMidSizeLog P)).
Abbreviation S_ P := (kNumBits P - 1).
Abbreviation kMaxNumCachedHint P := (kMaxNumCachedHintT P).
Abbreviation kMaxSize P := (Z.shiftl 1 (kMaxSizeLog P)).

Implicit Type P : SizeClassMap.

Definition kMidClass P : Z := kMidSize P / kMinSize P.
Abbreviation M P := (Z.shiftl 1 (S_ P) - 1) (only parsing).
Definition kNumClasses P : Z :=
  kMidClass P + Z.shiftl (kMaxSizeLog P - kMidSizeLog P) (S_ P) + 1 + 1.
Abbreviation kLargestClassID P := (kNumClasses P - 2).
Abbreviation kBatchClassID P := (kNumClasses P - 1).
Definition kNumClassesRounded P : Z :=
  if kNumClasses P <=? 32 then 32 else
  if kNumClasses P <=? 64 then 64 else
  if kNumClasses P <=? 128 then 128 else 256.

Section Ops.
Variable P : SizeClassMap.

Definition Size (class_id : Z) : result Z :=
  if class_id =? kBatchClassID P then Ok (u64 (kMaxNumCachedHint P * 8))
  else if class_id <=? kMidClass P then Ok (u64 (kMinSize P * class_id))
  else
    let class_id := u64 (class_id - kMidClass P) in
    q ← shr 64 class_id (S_ P);
    t ← shl 64 (kMidSize P) q;
    ts ← shr 64 t (S_ P);
    Ok (u64 (t + ts * Z.land class_id (M P))).

Definition ClassID (size : Z) : result Z :=
  if kMaxSize P <? size then Ok 0
  else if size <=? kMidSize P then shr 64 (u64 (size + kMinSize P - 1)) (kMinSizeLog P)
  else
    l ← MostSignificantSetBitIndex size;
    hb ← shr 64 size (u64 (l - S_ P));
    let hbits := Z.land hb (M P) in
    one ← shl 32 1 (u64 (l - S_ P));
    let lbits := Z.land size (u32 (one - 1)) in
    let l1 := u64 (l - kMidSizeLog P) in
    l1S ← shl 64 l1 (S_ P);
    Ok (u64 (kMidClass P + l1S + hbits + (if 0 <? lbits then 1 else 0))).

Definition MaxCachedHint (size : Z) : result Z :=
  CHECK (size <=? kMaxSize P);;
  if size =? 0 then Ok 0
  else
    n ← (if (31 <? kMaxBytesCachedLog P) || (31 <? kMaxSizeLog P) then
           b ← shl 64 1 (kMaxBytesCachedLog P);
           udiv b size
         else
           b ← shl 32 1 (kMaxBytesCachedLog P);
           udiv b (u32 size));
    Ok (Max 1 (Min (kMaxNumCachedHint P) n)).

(** The bodies of the two loops of [Validate]. *)
Definition validate_class (c : Z) : result unit :=
  s ← Size c;
  CHECK (negb (s =? 0));;
  if c =? kBatchClassID P then Ok tt
  else
    c1 ← ClassID s;
    CHECK (c1 =? c);;
    (if c <? kLargestClassID P then
       c2 ← ClassID (u64 (s + 1));
       CHECK (c2 =? c + 1)
     else Ok tt);;
    c3 ← ClassID (u64 (s - 1));
    CHECK (c3 =? c);;
    s1 ← Size (c - 1);
    CHECK (s1 <? s).

Definition validate_size (s : Z) : result unit :=
  c ← ClassID s;
  CHECK (c <? kNumClasses P);;
  s1 ← Size c;
  CHECK (s <=? s1);;
  if 0 <? c then
    s2 ← Size (c - 1);
    CHECK (s2 <? s)
  else Ok tt.

Definition Validate : result unit :=
  for_range 1 (kNumClasses P) (λ c _, validate_class c) tt;;
  c ← ClassID (u64 (kMaxSize P + 1));
  CHECK (c =? 0);;
  for_range 1 (kMaxSize P + 1) (λ s _, validate_size s) tt.

End Ops.

(** The instances of the header. *)
Abbreviation DefaultSizeClassMap := (mkSCM 3 4 8 17 128 16) (only parsing).
Abbreviation CompactSizeClassMap := (mkSCM 3 4 8 17 64 14) (only parsing).
Abbreviation VeryCompactSizeClassMap := (mkSCM 2 5 9 16 64 14) (only parsing).
Abbreviation DenseSizeClassMap := (mkSCM 3 4 8 17 8 10) (only parsing).
Abbreviation VeryDenseSizeClassMap := (mkSCM 2 5 9 16 8 10) (only parsing).

(** ** Valid instances

    The [COMPILER_CHECK]s of the class (a power of two, the number of classes) and
    the ranges in which its constants and shifts are defined; classes are at least
    two bytes apart. *)
Class ValidMap (P : SizeClassMap) : Prop := {
  vm_hint : Z.land (kMaxNumCachedHint P) (kMaxNumCachedHint P - 1) = 0;
  vm_classes : 16 ≤ kNumClasses P ≤ 256;
  vm_hint_range : 0 < kMaxNumCachedHint P < 2 ^ 61;
  vm_bits : 0 ≤ S_ P < kMidSizeLog P;
  vm_logs : 0 < kMinSizeLog P ≤ kMidSizeLog P ∧ kMidSizeLog P ≤ 30 ∧ kMidSizeLog P ≤ kMaxSizeLog P ≤ 62;
  vm_low : kMaxSizeLog P - S_ P ≤ 31;
  vm_cached : 0 ≤ kMaxBytesCachedLog P < 64
}.

Ltac valid_map := split; vm_compute; try done; intuition congruence.
#[export] Instance default_valid : ValidMap DefaultSizeClassMap.
Proof. valid_map. Qed.
#[export] Instance compact_valid : ValidMap CompactSizeClassMap.
Proof. valid_map. Qed.
#[export] Instance very_compact_valid : ValidMap VeryCompactSizeClassMap.
Proof. valid_map. Qed.
#[export] Instance dense_valid : ValidMap DenseSizeClassMap.
Proof. valid_map. Qed.
#[export] Instance very_dense_valid : ValidMap VeryDenseSizeClassMap.
Proof. valid_map. Qed.

(** ** The sizes as mathematical functions *)
Section Facts.
Context (P : SizeClassMap) {V : ValidMap P}.
Notation S := (S_ P).
Notation mn := (kMinSizeLog P).
Notation mid := (kMidSizeLog P).
Notation mx := (kMaxSizeLog P).

Lemma consts : kMinSize P = 2 ^ mn ∧ kMidSize P = 2 ^ mid ∧ kMidClass P = 2 ^ (mid - mn) ∧
  M P = 2 ^ S - 1 ∧ kMaxSize P = 2 ^ mx ∧ kLargestClassID P = 2 ^ (mid - mn) + (mx - mid) * 2 ^ S.
Proof.
  destruct V as [_ _ _ ? ? _ _].
  assert (kMidClass P = 2 ^ (mid - mn)) as E.
  { unfold kMidClass. rewrite !Z.shiftl_1_l, Z.pow_sub_r by lia. done. }
  unfold kNumClasses. rewrite E. 
  rewrite !Z.shiftl_1_l, Z.shiftl_mul_pow2 by lia. repeat split; lia.
Qed.

(** The size of the [c]-th class above [kMidClass]: [2^S] steps per power of two. *)
Definition big (c : Z) : Z := 2 ^ (mid - S + c / 2 ^ S) * (2 ^ S + c mod 2 ^ S).
Definition sz (c : Z) : Z := if c <=? 2 ^ (mid - mn) then 2 ^ mn * c else big (c - 2 ^ (mid - mn)).

Lemma big_0 : big 0 = 2 ^ mid.
Proof.
  destruct V. unfold big. rewrite Zdiv_0_l, Zmod_0_l, !Z.add_0_r, <- Z.pow_add_r by lia. f_equal. lia.
Qed.

Lemma big_step c : 0 ≤ c → big (c + 1) = big c + 2 ^ (mid - S + c / 2 ^ S).
Proof.
  intros Hc. destruct V as [_ _ _ HS _ _ _]. unfold big. assert (0 < 2 ^ S) by lia.
  pose proof (Z.div_mod c (2 ^ S)). pose proof (Z.mod_pos_bound c (2 ^ S)).
  pose proof (Z.div_pos c (2 ^ S)).
  destruct (Z.eq_dec (c mod 2 ^ S + 1) (2 ^ S)) as [E|E].
  - assert ((c + 1) / 2 ^ S = c / 2 ^ S + 1) as -> by (symmetry; apply (Z.div_unique _ _ _ 0); nia).
    assert ((c + 1) mod 2 ^ S = 0) as -> by (symmetry; apply (Z.mod_unique _ _ (c / 2 ^ S + 1)); nia).
    rewrite Z.add_assoc, (Z.pow_add_r 2 _ 1) by lia. nia.
  - assert ((c + 1) / 2 ^ S = c / 2 ^ S) as -> by (symmetry; apply (Z.div_unique _ _ _ (c mod 2 ^ S + 1)); nia).
    assert ((c + 1) mod 2 ^ S = c mod 2 ^ S + 1) as -> by (symmetry; apply (Z.mod_unique _ _ (c / 2 ^ S)); nia).
    lia.
Qed.

Lemma sz_mid : sz (2 ^ (mid - mn)) = 2 ^ mid.
Proof. destruct V. unfold sz. rewrite Z.leb_refl, <- Z.pow_add_r by lia. f_equal. lia. Qed.

Lemma sz_big c : 2 ^ (mid - mn) ≤ c → sz c = big (c - 2 ^ (mid - mn)).
Proof.
  intros Hc. destruct (Z.eq_dec c (2 ^ (mid - mn))) as [->|]; [by rewrite sz_mid, Z.sub_diag, big_0|].
  unfold sz. by rewrite (proj2 (Z.leb_gt c _)) by lia.
Qed.

(** Neighbouring classes differ by at least two bytes. *)
Lemma sz_step c : 0 ≤ c → sz c + 2 ≤ sz (c + 1).
Proof.
  intros Hc. destruct V as [_ _ _ HS HL _ _]. destruct (Z.lt_ge_cases c (2 ^ (mid - mn))).
  - unfold sz. rewrite !(proj2 (Z.leb_le _ _)) by lia.
    assert (2 ^ 1 ≤ 2 ^ mn) by (apply Z.pow_le_mono_r; lia). nia.
  - rewrite !sz_big by lia. replace (c + 1 - _) with (c - 2 ^ (mid - mn) + 1) by lia.
    rewrite big_step by lia. pose proof (Z.div_pos (c - 2 ^ (mid - mn)) (2 ^ S)).
    assert (2 ^ 1 ≤ 2 ^ (mid - S + (c - 2 ^ (mid - mn)) / 2 ^ S)) by (apply Z.pow_le_mono_r; lia). lia.
Qed.

Lemma sz_mono a b : 0 ≤ a ≤ b → sz a + 2 * (b - a) ≤ sz b.
Proof.
  intros [Ha Hab]. revert b Hab. apply Zlt_lower_bound_ind. intros b IH Hab.
  destruct (Z.eq_dec a b) as [->|]; [lia|]. specialize (IH (b - 1) ltac:(lia)).
  pose proof (sz_step (b - 1) ltac:(lia)). rewrite Z.sub_add in *. lia.
Qed.

Lemma sz_largest : sz (kLargestClassID P) = 2 ^ mx.
Proof.
  destruct consts as (_ & _ & _ & _ & _ & ->). destruct V as [_ _ _ HS HL _ _].
  assert (0 < 2 ^ S) by lia. rewrite sz_big by nia.
  replace (_ + _ - _) with ((mx - mid) * 2 ^ S) by lia. unfold big.
  rewrite Z.div_mul, Z.mod_mul, Z.add_0_r, <- Z.pow_add_r by lia. f_equal. lia.
Qed.

Lemma sz_0 : sz 0 = 0.
Proof. destruct V. unfold sz. rewrite (proj2 (Z.leb_le _ _)) by lia. lia. Qed.

(** The sizes of all classes, the batch class excepted, fit a machine word. *)
Lemma sz_range c : 0 ≤ c ≤ kLargestClassID P → 0 ≤ sz c ≤ 2 ^ mx.
Proof.
  intros Hc. pose proof (sz_mono 0 c ltac:(lia)). pose proof (sz_mono c (kLargestClassID P) ltac:(lia)).
  rewrite sz_0, sz_largest in *. lia.
Qed.

Lemma max_word : 2 ^ mx ≤ 2 ^ 62.
Proof. destruct V as [_ _ _ _ HL _ _]. apply Z.pow_le_mono_r; lia. Qed.

(** ** [Size] and [ClassID] *)
Lemma Size_sz c : 0 ≤ c ≤ kLargestClassID P → Size P c = Ok (sz c).
Proof.
  intros Hc. pose proof (sz_range c Hc) as Hsz. pose proof max_word as Hw.
  destruct consts as (Emn & Emd & Ecl & EM & _ & El). pose proof V as [_ Hn _ HS HL _ _].
  unfold Size. rewrite Ecl, Emn, Emd, EM.
  rewrite (proj2 (Z.eqb_neq _ _)) by lia.
  unfold sz in *. destruct (Z.leb_spec c (2 ^ (mid - mn))) as [Hle|Hgt]; [by rewrite cast_id by lia|].
  set (d := c - 2 ^ (mid - mn)) in *. assert (2 ^ (mid - mn) ≤ 2 ^ 30) by (apply Z.pow_le_mono_r; lia).
  assert (0 ≤ d < 2 ^ 64) as Hd by lia.
  rewrite (cast_id 64 d) by done. rewrite shr_ok by lia. cbn [mbind result_bind].
  rewrite Z.shiftr_div_pow2 by lia. pose proof (Z.div_pos d (2 ^ S) ltac:(lia) ltac:(lia)) as Hq.
  assert (d / 2 ^ S ≤ mx - mid) as Hqm by (apply Z.div_le_upper_bound; lia).
  assert (Z.shiftl (2 ^ mid) (d / 2 ^ S) = 2 ^ (mid - S + d / 2 ^ S) * 2 ^ S) as Et.
  { rewrite Z.shiftl_mul_pow2, <- !Z.pow_add_r by lia. f_equal. lia. }
  pose proof (Z.mod_pos_bound d (2 ^ S)). unfold big in *. fold d in Hsz.
  rewrite shl_ok by lia. cbn [mbind result_bind]. rewrite Et, cast_id by nia.
  rewrite shr_ok by lia. cbn [mbind result_bind].
  rewrite Z.shiftr_div_pow2, Z.div_mul, (Z.sub_1_r (2 ^ S)), <- Z.ones_equiv, Z.land_ones by lia.
  rewrite cast_id by nia. f_equal. lia.
Qed.

(** The class of a size above [kMidSize], before rounding up. *)
Lemma ClassID_large size : 2 ^ mid < size ≤ 2 ^ mx →
  let l := Z.log2 size in
  ClassID P size = Ok (2 ^ (mid - mn) + (l - mid) * 2 ^ S + (size / 2 ^ (l - S)) mod 2 ^ S +
                       (if 0 <? size mod 2 ^ (l - S) then 1 else 0)).
Proof.
  intros Hs l. pose proof max_word as Hw. destruct consts as (_ & Emd & Ecl & EM & Emx & El).
  pose proof V as [_ Hn _ HS HL Hlow _]. assert (0 < 2 ^ mid) by lia.
  assert (mid ≤ l ≤ mx) as Hl.
  { split; [apply Z.log2_le_pow2; lia|]. rewrite <- (Z.log2_pow2 mx) by lia. apply Z.log2_le_mono. lia. }
  assert (0 < 2 ^ S) by lia. assert (2 ^ (mid - mn) ≤ 2 ^ 30) by (apply Z.pow_le_mono_r; lia).
  assert ((mx - mid) * 2 ^ S ≤ 256) as Hcl.
  { assert (0 < 2 ^ (mid - mn)) by lia. lia. }
  assert ((l - mid) * 2 ^ S ≤ (mx - mid) * 2 ^ S) by nia.
  unfold ClassID. rewrite Emx, Emd, (proj2 (Z.ltb_ge _ _)), (proj2 (Z.leb_gt _ _)) by lia.
  rewrite MostSignificantSetBitIndex_log2 by lia. fold l. cbn [mbind result_bind].
  rewrite !(cast_id 64 (l - _)) by lia. rewrite shr_ok, shl_1 by lia. cbn [mbind result_bind].
  rewrite EM, Ecl, !(Z.sub_1_r (2 ^ S)), <- Z.ones_equiv, Z.land_ones, Z.shiftr_div_pow2 by lia.
  assert (2 ^ (l - S) < 2 ^ 32) by (apply Z.pow_lt_mono_r; lia).
  assert (0 < 2 ^ (l - S)) by lia.
  rewrite (cast_id 32), (Z.sub_1_r (2 ^ (l - S))), <- Z.ones_equiv, Z.land_ones by lia.
  rewrite shl_ok by lia. cbn [mbind result_bind]. rewrite Z.shiftl_mul_pow2 by lia.
  pose proof (Z.mod_pos_bound (size / 2 ^ (l - S)) (2 ^ S) ltac:(lia)).
  assert (2 ^ S ≤ 2 ^ 30) by (apply Z.pow_le_mono_r; lia).
  rewrite (cast_id 64 (_ * _)) by nia. rewrite cast_id; [done|].
  destruct (0 <? _); nia.
Qed.

(** [ClassID] finds the class whose size is the least one that is enough. *)
Lemma ClassID_spec size : 0 < size ≤ kMaxSize P →
  returns (ClassID P size) (λ c, 0 < c ≤ kLargestClassID P ∧ sz (c - 1) < size ≤ sz c).
Proof.
  intros Hs. pose proof max_word as Hw. destruct consts as (Emn & Emd & Ecl & EM & Emx & El).
  pose proof V as [_ Hn _ HS HL Hlow _]. rewrite Emx in Hs.
  assert (∀ c, 0 < c → sz (c - 1) < size ≤ sz c → 0 < c ≤ kLargestClassID P ∧ sz (c - 1) < size ≤ sz c) as Hub.
  { intros c Hc Hb. split; [|done]. split; [done|]. apply Z.nlt_ge. intros Hlt.
    pose proof (sz_mono (kLargestClassID P) (c - 1)) as Hm. rewrite sz_largest in Hm.
    lia. }
  destruct (Z.le_gt_cases size (2 ^ mid)) as [Hle|Hgt].
  - unfold ClassID. rewrite Emx, Emd, Emn, (proj2 (Z.ltb_ge _ _)), (proj2 (Z.leb_le _ _)) by lia.
    assert (2 ^ mn ≤ 2 ^ mid ≤ 2 ^ 30) by (split; apply Z.pow_le_mono_r; lia).
    assert (0 < 2 ^ mn) by lia.
    rewrite cast_id, shr_ok, Z.shiftr_div_pow2 by lia. cbn [returns].
    pose proof (Z.div_mod (size + 2 ^ mn - 1) (2 ^ mn)). pose proof (Z.mod_pos_bound (size + 2 ^ mn - 1) (2 ^ mn)).
    set (c := (size + 2 ^ mn - 1) / 2 ^ mn) in *.
    assert (2 ^ mid = 2 ^ mn * 2 ^ (mid - mn)) as E by (rewrite <- Z.pow_add_r by lia; f_equal; lia).
    apply Hub; [nia|]. unfold sz. rewrite !(proj2 (Z.leb_le _ _)) by nia. nia.
  - rewrite ClassID_large by lia. cbn [returns]. set (l := Z.log2 size).
    assert (mid ≤ l) by (apply Z.log2_le_pow2; lia).
    pose proof (Z.log2_spec size ltac:(lia)) as [Hlo Hhi]. fold l in Hlo, Hhi.
    assert (2 ^ l = 2 ^ (l - S) * 2 ^ S) as E1 by (rewrite <- Z.pow_add_r by lia; f_equal; lia).
    rewrite Z.pow_succ_r in Hhi by lia. assert (0 < 2 ^ (l - S)) by lia. assert (0 < 2 ^ S) by lia.
    pose proof (Z.div_mod size (2 ^ (l - S)) ltac:(lia)) as Edm.
    pose proof (Z.mod_pos_bound size (2 ^ (l - S)) ltac:(lia)) as Hm.
    set (hb := size / 2 ^ (l - S)) in *. set (lb := size mod 2 ^ (l - S)) in *.
    assert (2 ^ S ≤ hb < 2 * 2 ^ S) as Hhb by nia.
    assert (hb mod 2 ^ S = hb - 2 ^ S) as -> by (symmetry; apply (Z.mod_unique _ _ 1); lia).
    set (d := (l - mid) * 2 ^ S + (hb - 2 ^ S)). assert (0 ≤ d) by nia.
    assert (d / 2 ^ S = l - mid) as Ed by (symmetry; apply (Z.div_unique _ _ _ (hb - 2 ^ S)); lia).
    assert (big d = 2 ^ (l - S) * hb) as Eb.
    { unfold big. rewrite Ed. assert (d mod 2 ^ S = hb - 2 ^ S) as -> by (symmetry; apply (Z.mod_unique _ _ (l - mid)); lia).
      f_equal; [f_equal; lia|lia]. }
    assert (sz (2 ^ (mid - mn) + d) = 2 ^ (l - S) * hb) as E0 by (rewrite sz_big by lia; by rewrite Z.add_simpl_l).
    assert (sz (2 ^ (mid - mn) + d + 1) = 2 ^ (l - S) * hb + 2 ^ (l - S)) as E2.
    { rewrite sz_big by lia. replace (_ + _ + 1 - _) with (d + 1) by lia. rewrite big_step, Ed, Eb by lia.
      f_equal. f_equal. lia. }
    pose proof (sz_step (2 ^ (mid - mn) + d - 1) ltac:(nia)) as Hst. rewrite Z.sub_add in Hst.
    destruct (Z.ltb_spec 0 lb).
    + replace (_ + _ + _ + 1) with (2 ^ (mid - mn) + d + 1) by lia. apply Hub; [lia|]. rewrite Z.add_simpl_r. lia.
    + replace (_ + _ + _ + 0) with (2 ^ (mid - mn) + d) by lia. apply Hub; [nia|]. lia.
Qed.

Lemma ClassID_unique c size : 0 < c ≤ kLargestClassID P → sz (c - 1) < size ≤ sz c → ClassID P size = Ok c.
Proof.
  intros Hc Hs. pose proof (sz_range (c - 1) ltac:(lia)). pose proof (sz_range c ltac:(lia)).
  destruct consts as (_ & _ & _ & _ & Emx & _). pose proof (ClassID_spec size ltac:(lia)) as H2.
  destruct (ClassID P size) as [c'|]; [|done]. destruct H2 as [Hc' Hs']. f_equal.
  destruct (Z.lt_trichotomy c c') as [Hlt|[->|Hlt]]; [|done|].
  - pose proof (sz_mono c (c' - 1) ltac:(lia)). lia.
  - pose proof (sz_mono c' (c - 1) ltac:(lia)). lia.
Qed.

Lemma ClassID_above size : kMaxSize P < size → ClassID P size = Ok 0.
Proof. intros. unfold ClassID. by rewrite (proj2 (Z.ltb_lt _ _)) by lia. Qed.

(** [ClassID] returns the smallest class that is large enough: a size up to
    [kMaxSize] fits its class and does not fit the class before; sizes beyond
    [kMaxSize] have class 0. *)
Theorem ClassID_correct size : 0 < size < 2 ^ 64 →
  (size ≤ kMaxSize P → ∃ c s s', ClassID P size = Ok c ∧ 0 < c ≤ kLargestClassID P ∧
    Size P c = Ok s ∧ Size P (c - 1) = Ok s' ∧ s' < size ≤ s) ∧
  (kMaxSize P < size → ClassID P size = Ok 0).
Proof.
  intros Hs. split; [|apply ClassID_above]. intros Hm.
  pose proof (ClassID_spec size ltac:(lia)) as H. apply returns_inv in H as (c & -> & Hc & Hb).
  exists c, (sz c), (sz (c - 1)). rewrite !Size_sz by lia. done.
Qed.

(** [ClassID] inverts [Size] on every class but the batch class, and the sizes
    of the classes increase strictly from 0 to [kMaxSize]. *)
Theorem ClassID_Size_inverse c : 0 ≤ c ≤ kLargestClassID P →
  ∃ s, Size P c = Ok s ∧ ClassID P s = Ok c ∧ 0 ≤ s ≤ kMaxSize P ∧
    (c < kLargestClassID P → ∃ s', Size P (c + 1) = Ok s' ∧ s < s').
Proof.
  intros Hc. exists (sz c). rewrite Size_sz by lia. pose proof (sz_range c Hc).
  destruct consts as (Emn & Emd & _ & _ & Emx & _). split; [done|]. split; [|split; [lia|]].
  - destruct (Z.eq_dec c 0) as [->|].
    + destruct V as [_ _ _ _ HL _ _]. rewrite sz_0. unfold ClassID. rewrite Emx, Emd, Emn.
      rewrite (proj2 (Z.ltb_ge _ _)), (proj2 (Z.leb_le _ _)) by lia.
      assert (2 ^ mn ≤ 2 ^ 30) by (apply Z.pow_le_mono_r; lia).
      rewrite cast_id, shr_ok, Z.shiftr_div_pow2, Z.div_small by lia. done.
    + apply ClassID_unique; [lia|]. pose proof (sz_step (c - 1) ltac:(lia)). rewrite Z.sub_add in *. lia.
  - intros Hlt. exists (sz (c + 1)). rewrite Size_sz by lia. split; [done|].
    pose proof (sz_step c ltac:(lia)). lia.
Qed.

(** ** The self-test *)
Lemma validate_class_ok c : 1 ≤ c < kNumClasses P → returns (validate_class P c) (λ _, True).
Proof.
  intros Hc. pose proof max_word as Hw. unfold validate_class. destruct (Z.eqb_spec c (kBatchClassID P)) as [->|Hb].
  - unfold Size. rewrite Z.eqb_refl. cbn [mbind result_bind]. destruct V as [_ _ Hh _ _ _ _].
    rewrite cast_id, (proj2 (Z.eqb_neq _ _)) by lia. done.
  - assert (0 < c ≤ kLargestClassID P) as Hl by lia.
    rewrite !Size_sz by lia. cbn [mbind result_bind].
    pose proof (sz_range c ltac:(lia)). pose proof (sz_range (c - 1) ltac:(lia)).
    pose proof (sz_step (c - 1) ltac:(lia)) as Hst. rewrite Z.sub_add in Hst.
    rewrite (proj2 (Z.eqb_neq (sz c) 0)), (ClassID_unique c (sz c)) by lia. cbn.
    rewrite Z.eqb_refl, !cast_id by lia. cbn.
    rewrite (ClassID_unique c (sz c - 1)) by lia. cbn.
    rewrite Z.eqb_refl, (proj2 (Z.ltb_lt (sz (c - 1)) _)) by lia.
    destruct (Z.ltb_spec c (kLargestClassID P)); [|done].
    pose proof (sz_step c ltac:(lia)).
    rewrite (ClassID_unique (c + 1) (sz c + 1)) by (rewrite ?Z.add_simpl_r; lia). cbn. by rewrite Z.eqb_refl.
Qed.

Lemma validate_size_ok s : 1 ≤ s < kMaxSize P + 1 → returns (validate_size P s) (λ _, True).
Proof.
  intros Hs. unfold validate_size. rbind (apply ClassID_spec; lia). intros c [Hc Hb].
  assert (c < kNumClasses P) by lia.
  rewrite !Size_sz, (proj2 (Z.ltb_lt c _)) by lia. cbn.
  by rewrite (proj2 (Z.leb_le s _)), (proj2 (Z.ltb_lt 0 c)), (proj2 (Z.ltb_lt _ s)) by lia.
Qed.

(** The self-test [Validate], which checks every class and every size, passes
    for every valid instance of the template. *)
Theorem Validate_passes : Validate P = Ok tt.
Proof.
  assert (returns (Validate P) (λ _, True)) as H; [|destruct (Validate P) as [[]|]; done].
  pose proof max_word. destruct consts as (_ & _ & _ & _ & Emx & _). pose proof V as [_ Hn _ _ HL _ _].
  unfold Validate. eapply returns_bind.
  { apply (returns_for_range (λ _ _, True)); [lia|done|]. intros c _ Hc _. by apply validate_class_ok. }
  intros _ _. rewrite ClassID_above by (rewrite cast_id; lia). cbn.
  apply (returns_for_range (λ _ _, True)); [lia|done|]. intros s _ Hs _. by apply validate_size_ok.
Qed.

(** [MaxCachedHint] is between 1 and [kMaxNumCachedHint], and that many chunks
    take at most [2^kMaxBytesCachedLog] bytes unless a single one is larger. *)
Theorem MaxCachedHint_bounds size : 0 < size ≤ kMaxSize P →
  returns (MaxCachedHint P size) (λ n, 1 ≤ n ≤ kMaxNumCachedHint P ∧
    (n = 1 ∨ n * size ≤ 2 ^ kMaxBytesCachedLog P) ∧
    (n < kMaxNumCachedHint P → 2 ^ kMaxBytesCachedLog P < (n + 1) * size)).
Proof.
  intros Hs. pose proof V as [_ _ Hh _ HL _ Hc]. unfold MaxCachedHint.
  rewrite (proj2 (Z.leb_le _ _)), (proj2 (Z.eqb_neq _ _)) by lia. cbn [CHECK mbind result_bind].
  set (b := 2 ^ kMaxBytesCachedLog P).
  eapply (returns_bind _ _ (λ n, n = b / size)).
  - destruct (_ || _) eqn:E.
    + rewrite shl_1 by lia. cbn. by rewrite udiv_ok by lia.
    + bool_prop. rewrite shl_1 by lia. cbn. destruct consts as (_ & _ & _ & _ & Emx & _).
      assert (2 ^ mx ≤ 2 ^ 31) by (apply Z.pow_le_mono_r; lia).
      rewrite cast_id by lia. by rewrite udiv_ok by lia.
  - intros n ->. cbn. unfold Max, Min. assert (0 < b) by (unfold b; lia).
    pose proof (Z.div_mod b size ltac:(lia)). pose proof (Z.mod_pos_bound b size ltac:(lia)).
    pose proof (Z.div_pos b size ltac:(lia) ltac:(lia)).
    destruct (Z.ltb_spec (kMaxNumCachedHint P) (b / size));
      [destruct (Z.ltb_spec (kMaxNumCachedHint P) 1)|destruct (Z.ltb_spec (b / size) 1)]; nia.
Qed.

End Facts.

(** ** Concrete instances *)
Lemma ClassID_correct_witness :
  (1000 ≤ kMaxSize DefaultSizeClassMap → ∃ c s s', ClassID DefaultSizeClassMap 1000 = Ok c ∧
    0 < c ≤ kLargestClassID DefaultSizeClassMap ∧ Size DefaultSizeClassMap c = Ok s ∧
    Size DefaultSizeClassMap (c - 1) = Ok s' ∧ s' < 1000 ≤ s) ∧
  (kMaxSize DefaultSizeClassMap < 1000 → ClassID DefaultSizeClassMap 1000 = Ok 0).
Proof. apply (ClassID_correct DefaultSizeClassMap 1000). lia. Defined.

Lemma ClassID_Size_inverse_witness :
  ∃ s, Size VeryDenseSizeClassMap 20 = Ok s ∧ ClassID VeryDenseSizeClassMap s = Ok 20 ∧
    0 ≤ s ≤ kMaxSize VeryDenseSizeClassMap ∧
    (20 < kLargestClassID VeryDenseSizeClassMap → ∃ s', Size VeryDenseSizeClassMap (20 + 1) = Ok s' ∧ s < s').
Proof. apply (ClassID_Size_inverse VeryDenseSizeClassMap 20). vm_compute. intuition congruence. Defined.

Lemma Validate_passes_witness : Validate CompactSizeClassMap = Ok tt.
Proof. apply (Validate_passes CompactSizeClassMap). Defined.

Lemma MaxCachedHint_bounds_witness :
  returns (MaxCachedHint DenseSizeClassMap 48) (λ n, 1 ≤ n ≤ kMaxNumCachedHint DenseSizeClassMap ∧
    (n = 1 ∨ n * 48 ≤ 2 ^ kMaxBytesCachedLog DenseSizeClassMap) ∧
    (n < kMaxNumCachedHint DenseSizeClassMap → 2 ^ kMaxBytesCachedLog DenseSizeClassMap < (n + 1) * 48)).
Proof. apply (MaxCachedHint_bounds DenseSizeClassMap 48). vm_compute. intuition congruence. Defined.

End SizeClass.
