(* ===== verification/Leb128.v ===== *)
(** * Leb128: variable-length integers

    Models [sanitizer_leb128.h] at the word types [sptr] and [uptr] with which the
    stack store uses it.  The output range of an encoder is the list of the bytes
    it writes, with the number of bytes before [end] as an argument; the input range of
    a decoder is a list of bytes, and what is left of it stands for the returned
    iterator.  A decoder leaves [*v] alone ([None]) when the input ends inside a
    number.  A signed value is kept as an integer: [Z.land] and [Z.shiftr] act on
    its two's complement bits. *)
From S2P Require Import Prelude Common.

Module Leb.

(** A 64-bit value needs at most ten groups of seven bits. *)
Definition kMaxGroups : nat := 10.

Fixpoint EncodeSLEB128_loop (fuel : nat) (value : Z) (room : nat) : result (list Z) :=
  match fuel with
  | O => Fault OutOfFuel
  | S fuel =>
      let byte := Z.land value 0x7f in
      let value := Z.shiftr value 7 in
      let more := negb (((value =? 0) && (Z.land byte 0x40 =? 0)) ||
                        ((value =? -1) && negb (Z.land byte 0x40 =? 0))) in
      let byte := if more then Z.lor byte 0x80 else byte in
      match room with
      | O => Ok []
      | S room =>
          rest ← (if more then EncodeSLEB128_loop fuel value room else Ok []);
          Ok (byte :: rest)
      end
  end.

Definition EncodeSLEB128 (value : Z) (room : nat) : result (list Z) :=
  EncodeSLEB128_loop kMaxGroups value room.

(** [value] holds the 64 bits of the variable. *)
Fixpoint DecodeSLEB128_loop (input : list Z) (value shift : Z) : result (list Z * option Z) :=
  match input with
  | [] => Ok ([], None)
  | byte :: input =>
      let slice := Z.land byte 0x7f in
      s ← shl 64 slice shift;
      let value := Z.lor value s in
      let shift := u32 (shift + 7) in
      if 128 <=? byte then DecodeSLEB128_loop input value shift
      else
        value ← (if (shift <? 64) && negb (Z.land byte 0x40 =? 0) then
                   m ← shl 64 (u64 (-1)) shift;
                   Ok (Z.lor value m)
                 else Ok value);
        Ok (input, Some (signed 64 value))
  end.

Definition DecodeSLEB128 (input : list Z) : result (list Z * option Z) :=
  DecodeSLEB128_loop input 0 0.

Fixpoint EncodeULEB128_loop (fuel : nat) (value : Z) (room : nat) : result (list Z) :=
  match fuel with
  | O => Fault OutOfFuel
  | S fuel =>
      let byte := Z.land value 0x7f in
      let value := Z.shiftr value 7 in
      let byte := if negb (value =? 0) then Z.lor byte 0x80 else byte in
      match room with
      | O => Ok []
      | S room =>
          rest ← (if negb (value =? 0) then EncodeULEB128_loop fuel value room else Ok []);
          Ok (byte :: rest)
      end
  end.

Definition EncodeULEB128 (value : Z) (room : nat) : result (list Z) :=
  EncodeULEB128_loop kMaxGroups value room.

Fixpoint DecodeULEB128_loop (input : list Z) (value shift : Z) : result (list Z * option Z) :=
  match input with
  | [] => Ok ([], None)
  | byte :: input =>
      let slice := Z.land byte 0x7f in
      s ← shl 64 slice shift;
      let value := u64 (value + s) in
      let shift := u32 (shift + 7) in
      if 128 <=? byte then DecodeULEB128_loop input value shift
      else Ok (input, Some value)
  end.

Definition DecodeULEB128 (input : list Z) : result (list Z * option Z) :=
  DecodeULEB128_loop input 0 0.

(** ** Groups of seven bits *)

(** The bytes of a number, without a limit on the room. *)
Fixpoint sleb (fuel : nat) (v : Z) : list Z :=
  match fuel with
  | O => []
  | S fuel =>
      let b := v mod 128 in
      let v := v / 128 in
      if decide (v = 0 ∧ b < 64 ∨ v = -1 ∧ 64 ≤ b) then [b] else (b + 128) :: sleb fuel v
  end.

Fixpoint uleb (fuel : nat) (v : Z) : list Z :=
  match fuel with
  | O => []
  | S fuel => if decide (v / 128 = 0) then [v mod 128] else (v mod 128 + 128) :: uleb fuel (v / 128)
  end.

Definition is_byte (b : Z) : Prop := 0 ≤ b < 256.

Lemma low7 v : Z.land v 0x7f = v mod 128.
Proof. change 0x7f with (Z.ones 7). by rewrite Z.land_ones. Qed.

Lemma group_sign b : 0 ≤ b < 128 → (Z.land b 0x40 =? 0) = (b <? 64).
Proof.
  intros Hb. assert (Z.land b (2 ^ 6) = b / 2 ^ 6 * 2 ^ 6) as E.
  { apply Z.bits_inj'. intros i Hi. rewrite Z.land_spec, pow2_testbit by lia.
    rewrite <- Z.shiftr_div_pow2, <- Z.shiftl_mul_pow2, Z.shiftl_spec by lia.
    destruct (Z.lt_trichotomy i 6) as [Hlt|[->|Hgt]].
    - rewrite (proj2 (Z.eqb_neq i 6)), andb_false_r, Z.testbit_neg_r by lia. done.
    - rewrite Z.eqb_refl, andb_true_r, Z.shiftr_spec by lia. done.
    - rewrite (proj2 (Z.eqb_neq i 6)), andb_false_r, Z.shiftr_spec by lia. symmetry. apply (testbit_high 7); lia. }
  change 0x40 with (2 ^ 6) at 1. rewrite E. change (2 ^ 6) with 64. pose proof (Z.div_mod b 64).
  pose proof (Z.mod_pos_bound b 64). destruct (Z.ltb_spec b 64), (Z.eqb_spec (b / 64 * 64) 0); done || lia.
Qed.

Lemma group_more b : 0 ≤ b < 128 → Z.lor b 0x80 = b + 128.
Proof. intros. change 0x80 with (1 * 2 ^ 7). rewrite lor_shift_add by lia. lia. Qed.

Lemma group_bounds v : 0 ≤ v mod 128 < 128.
Proof. by apply Z.mod_pos_bound. Qed.

(** The range of the numbers that take at most [n] groups. *)
Definition sleb_range (n : nat) (v : Z) : Prop := - 2 ^ (7 * Z.of_nat n - 1) ≤ v < 2 ^ (7 * Z.of_nat n - 1).

Lemma pow2_group n : 2 ^ (7 * Z.of_nat (S (S n)) - 1) = 128 * 2 ^ (7 * Z.of_nat (S n) - 1).
Proof. change 128 with (2 ^ 7). rewrite <- Z.pow_add_r by lia. f_equal. lia. Qed.

Lemma sleb_range_div n v : sleb_range (S (S n)) v → sleb_range (S n) (v / 128).
Proof.
  unfold sleb_range. rewrite pow2_group. intros [H1 H2].
  split; [apply Z.div_le_lower_bound; lia|apply Z.div_lt_upper_bound; lia].
Qed.

Lemma sleb_range_1 v : sleb_range 1 v → v / 128 = 0 ∧ v mod 128 < 64 ∨ v / 128 = -1 ∧ 64 ≤ v mod 128.
Proof.
  unfold sleb_range. change (2 ^ _) with 64. intros Hv.
  pose proof (Z.div_mod v 128). pose proof (Z.mod_pos_bound v 128). lia.
Qed.

(** ** Signed numbers *)
Lemma EncodeSLEB128_step n v room :
  EncodeSLEB128_loop (S n) v room =
  match room with
  | O => Ok []
  | S room =>
      if decide (v / 128 = 0 ∧ v mod 128 < 64 ∨ v / 128 = -1 ∧ 64 ≤ v mod 128) then Ok [v mod 128]
      else rest ← EncodeSLEB128_loop n (v / 128) room; Ok ((v mod 128 + 128) :: rest)
  end.
Proof.
  cbn [EncodeSLEB128_loop]. rewrite low7, Z.shiftr_div_pow2 by lia. change (2 ^ 7) with 128.
  rewrite group_sign, group_more by apply group_bounds. destruct room as [|room]; [done|].
  destruct (Z.eqb_spec (v / 128) 0), (Z.eqb_spec (v / 128) (-1)), (Z.ltb_spec (v mod 128) 64); simpl;
    first [rewrite decide_False by lia; done | rewrite decide_True by lia; done].
Qed.

Lemma sleb_encode n v room : sleb_range (S n) v →
  EncodeSLEB128_loop (S n) v room = Ok (take room (sleb (S n) v)).
Proof.
  revert v room. induction n as [|n IH]; intros v room Hv; rewrite EncodeSLEB128_step; destruct room as [|room];
    [done| |done|].
  - apply sleb_range_1 in Hv. cbn [sleb]. rewrite !decide_True by done. cbn. by rewrite take_nil.
  - remember (S n) as m. cbn [sleb]. gdecide; [cbn; by rewrite take_nil|].
    subst m. by rewrite IH by by apply sleb_range_div.
Qed.

Lemma sleb_length n v : (length (sleb n v) ≤ n)%nat.
Proof. revert v. induction n as [|n IH]; intros v; [done|]. cbn [sleb]. gdecide; simpl; [lia|]. specialize (IH (v / 128)). lia. Qed.

Lemma sleb_bytes n v : Forall is_byte (sleb n v).
Proof.
  revert v. induction n as [|n IH]; intros v; [by constructor|]. pose proof (group_bounds v). cbn [sleb].
  gdecide; repeat constructor; unfold is_byte; try lia. apply IH.
Qed.

(** All bytes but the last have the continuation bit. *)
Lemma sleb_prefix n v k : (k < length (sleb n v))%nat → Forall (λ b, 128 ≤ b < 256) (take k (sleb n v)).
Proof.
  revert v k. induction n as [|n IH]; intros v k; simpl; [lia|]. pose proof (group_bounds v).
  gdecide; simpl; intros Hk; destruct k as [|k]; try (by constructor); [lia|].
  constructor; [lia|]. apply IH. lia.
Qed.

(** One step of a decoder. *)
Lemma slice_ok b s : 0 ≤ s < 64 → 0 ≤ b < 128 → shl 64 (Z.land b 0x7f) s = Ok (u64 (b * 2 ^ s)).
Proof. intros Hs Hb. by rewrite low7, Z.mod_small, shl_ok, Z.shiftl_mul_pow2 by lia. Qed.

Lemma continued b : 0 ≤ b < 128 → Z.land (b + 128) 0x7f = Z.land b 0x7f.
Proof. intros. rewrite !low7. by rewrite <- (Z.mul_1_l 128), Z.mod_add at 1 by lia. Qed.

Lemma lor_slice acc b s : 0 ≤ s ≤ 57 → 0 ≤ acc < 2 ^ s → 0 ≤ b < 128 →
  Z.lor acc (u64 (b * 2 ^ s)) = acc + b * 2 ^ s ∧ acc + b * 2 ^ s < 2 ^ (s + 7).
Proof.
  intros Hs Ha Hb. assert (2 ^ (s + 7) = 2 ^ s * 128) as E by (by rewrite Z.pow_add_r by lia).
  assert (2 ^ (s + 7) ≤ 2 ^ 64) by (apply Z.pow_le_mono_r; lia).
  rewrite cast_id by nia. rewrite lor_shift_add by lia. nia.
Qed.

(** Near the top of the word the bits beyond it are cut off. *)
Lemma lor_slice_top acc v s : 57 ≤ s ≤ 63 → 0 ≤ acc < 2 ^ s →
  Z.lor acc (u64 (v mod 128 * 2 ^ s)) = acc + u64 (v * 2 ^ s) ∧ acc + u64 (v * 2 ^ s) < 2 ^ 64.
Proof.
  intros Hs Ha. assert (2 ^ 64 = 2 ^ (64 - s) * 2 ^ s) as E by (rewrite <- Z.pow_add_r by lia; f_equal; lia).
  assert (u64 (v mod 128 * 2 ^ s) = v mod 2 ^ (64 - s) * 2 ^ s) as ->.
  { unfold cast. rewrite E, Z.mul_mod_distr_r by lia. f_equal. change 128 with (2 ^ 7).
    assert (2 ^ 7 = 2 ^ (7 - (64 - s)) * 2 ^ (64 - s)) as -> by (rewrite <- Z.pow_add_r by lia; f_equal; lia).
    rewrite Z.mod_mod_divide; [done|]. by exists (2 ^ (7 - (64 - s))). }
  assert (u64 (v * 2 ^ s) = v mod 2 ^ (64 - s) * 2 ^ s) as ->.
  { unfold cast. by rewrite E, Z.mul_mod_distr_r by lia. }
  rewrite lor_shift_add by lia. split; [done|]. pose proof (Z.mod_pos_bound v (2 ^ (64 - s))). nia.
Qed.

(** The sign extension after the last group. *)
Lemma sign_extend acc s : 0 ≤ s < 64 → 0 ≤ acc < 2 ^ s →
  Z.lor acc (u64 (Z.shiftl (u64 (-1)) s)) = acc + (2 ^ 64 - 2 ^ s).
Proof.
  intros Hs Ha. assert (2 ^ 64 = 2 ^ (64 - s) * 2 ^ s) as E by (rewrite <- Z.pow_add_r by lia; f_equal; lia).
  assert (u64 (Z.shiftl (u64 (-1)) s) = (2 ^ (64 - s) - 1) * 2 ^ s) as ->; [|rewrite lor_shift_add by lia; nia].
  unfold cast. rewrite Z.shiftl_mul_pow2, E, Z.mul_mod_distr_r by lia. f_equal. rewrite <- E.
  assert ((2 ^ (64 - s) | 2 ^ 64)) as Hd by (exists (2 ^ s); lia).
  rewrite Z.mod_mod_divide by done. symmetry. apply (Z.mod_unique _ _ (-1)); lia.
Qed.

Lemma sleb_last v s acc rest :
  v / 128 = 0 ∧ v mod 128 < 64 ∨ v / 128 = -1 ∧ 64 ≤ v mod 128 → 0 ≤ s ≤ 63 → 0 ≤ acc < 2 ^ s →
  - 2 ^ 63 ≤ v * 2 ^ s < 2 ^ 63 →
  DecodeSLEB128_loop ([v mod 128] ++ rest) acc s = Ok (rest, Some (signed 64 (u64 (acc + v * 2 ^ s)))).
Proof.
  intros Hv Hs Ha Hb. pose proof (group_bounds v) as Hg. pose proof (Z.div_mod v 128 ltac:(lia)) as Edm.
  assert (2 ^ (s + 7) = 128 * 2 ^ s) as E7 by (rewrite Z.pow_add_r by lia; lia).
  cbn [DecodeSLEB128_loop app]. rewrite slice_ok by lia. cbn [mbind result_bind].
  rewrite (cast_id 32), (proj2 (Z.leb_gt 128 _)), group_sign by lia.
  destruct (Z.lt_ge_cases (s + 7) 64).
  - rewrite (proj2 (Z.ltb_lt (s + 7) 64)) by lia. cbn [andb]. destruct (lor_slice acc (v mod 128) s) as [-> Hlt]; [lia..|].
    destruct Hv as [[Ed Hm]|[Ed Hm]].
    + rewrite (proj2 (Z.ltb_lt _ 64)) by lia. cbn. assert (v mod 128 = v) as -> by lia.
      assert (2 ^ (s + 7) ≤ 2 ^ 63) by (apply Z.pow_le_mono_r; lia). by rewrite (cast_id 64) by nia.
    + rewrite (proj2 (Z.ltb_ge _ 64)) by lia. cbn [negb]. rewrite shl_ok by lia. cbn [mbind result_bind].
      rewrite sign_extend by nia. do 4 f_equal. apply (Z.mod_unique _ _ (-1)); nia.
  - rewrite (proj2 (Z.ltb_ge (s + 7) 64)) by lia. cbn [andb mbind result_bind].
    destruct (lor_slice_top acc v s) as [-> Hlt]; [lia..|]. do 3 f_equal.
    unfold signed. rewrite cast_cast. rewrite cast_id by (pose proof (cast_range 64 (v * 2 ^ s)); lia).
    assert (acc + u64 (v * 2 ^ s) = u64 (acc + v * 2 ^ s)) as ->; [|done].
    apply (Z.mod_unique _ _ ((v * 2 ^ s) / 2 ^ 64)); [pose proof (cast_range 64 (v * 2 ^ s)); lia|].
    unfold cast. pose proof (Z.div_mod (v * 2 ^ s) (2 ^ 64)). lia.
Qed.

Lemma sleb_decode n v s acc rest : sleb_range (S n) v → 0 ≤ s ≤ 63 → 0 ≤ acc < 2 ^ s →
  - 2 ^ 63 ≤ v * 2 ^ s < 2 ^ 63 →
  DecodeSLEB128_loop (sleb (S n) v ++ rest) acc s = Ok (rest, Some (signed 64 (u64 (acc + v * 2 ^ s)))).
Proof.
  revert v s acc. induction n as [|n IH]; intros v s acc Hv Hs Ha Hb;
    pose proof (group_bounds v) as Hg; pose proof (Z.div_mod v 128 ltac:(lia)) as Edm.
  all: assert (2 ^ (s + 7) = 128 * 2 ^ s) as E7 by (rewrite Z.pow_add_r by lia; lia).
  - pose proof (sleb_range_1 v Hv) as H1. cbn [sleb]. rewrite decide_True by done.
    apply sleb_last; lia.
  - remember (S n) as m. cbn [sleb]. gdecide as [Hd|Hd]; [by apply sleb_last|]. subst m.
    assert (s ≤ 56) as Hs56.
    { apply Z.nlt_ge. intros Hlt. assert (2 ^ 57 ≤ 2 ^ s) by (apply Z.pow_le_mono_r; lia). apply Hd. nia. }
    cbn [DecodeSLEB128_loop app]. rewrite continued, slice_ok by lia. cbn [mbind result_bind].
    destruct (lor_slice acc (v mod 128) s) as [-> Hlt]; [lia..|].
    rewrite (cast_id 32), (proj2 (Z.leb_le 128 _)) by lia. rewrite IH; [|by apply sleb_range_div|lia|nia|].
    + rewrite E7. replace (v * 2 ^ s) with ((128 * (v / 128) + v mod 128) * 2 ^ s) by (by rewrite <- Edm).
      match goal with |- _ = Ok (_, Some (signed 64 (u64 ?b))) => replace b with (acc + v mod 128 * 2 ^ s + v / 128 * (128 * 2 ^ s)) by lia end.
      done.
    + assert (2 ^ 63 = 2 ^ (56 - s) * 2 ^ (s + 7)) as E by (rewrite <- Z.pow_add_r by lia; f_equal; lia).
      assert (- 2 ^ (56 - s) ≤ v / 128) by (apply Z.div_le_lower_bound; [lia|]; nia). split; nia.
Qed.

(** No encoding is longer than the range of the number asks for. *)
Lemma sleb_shortest m n v : sleb_range (S m) v → (n ≤ m)%nat →
  (length (sleb (S m) v) ≤ S n)%nat ↔ sleb_range (S n) v.
Proof.
  revert n v. induction m as [|m IH]; intros n v Hm Hn.
  { assert (n = 0%nat) as -> by lia. split; [done|]. intros _. apply sleb_length. }
  pose proof (group_bounds v) as Hg. pose proof (Z.div_mod v 128 ltac:(lia)) as Edm.
  remember (S m) as m'. cbn [sleb]. gdecide as [Hd|Hd]; simpl; subst m'.
  - assert (sleb_range (S n) v); [|split; [done|lia]].
    assert (2 ^ 6 ≤ 2 ^ (7 * Z.of_nat (S n) - 1)) by (apply Z.pow_le_mono_r; lia). unfold sleb_range. lia.
  - destruct n as [|n].
    + assert (length (sleb (S m) (v / 128)) ≠ 0)%nat by (cbn [sleb]; by gdecide).
      split; [lia|]. intros Hr. by apply sleb_range_1 in Hr.
    + rewrite <- Nat.succ_le_mono, IH by (by apply sleb_range_div || lia). split; intros Hr.
      * unfold sleb_range in *. rewrite pow2_group. lia.
      * by apply sleb_range_div.
Qed.

(** ** Unsigned numbers *)
Lemma EncodeULEB128_step n v room :
  EncodeULEB128_loop (S n) v room =
  match room with
  | O => Ok []
  | S room =>
      if decide (v / 128 = 0) then Ok [v mod 128]
      else rest ← EncodeULEB128_loop n (v / 128) room; Ok ((v mod 128 + 128) :: rest)
  end.
Proof.
  cbn [EncodeULEB128_loop]. rewrite low7, Z.shiftr_div_pow2 by lia. change (2 ^ 7) with 128.
  rewrite group_more by apply group_bounds. destruct room as [|room]; [done|].
  by destruct (Z.eqb_spec (v / 128) 0) as [->|]; [|rewrite decide_False by done].
Qed.

Lemma uleb_div n v : 0 ≤ v < 2 ^ (7 * Z.of_nat (S n)) → 0 ≤ v / 128 < 2 ^ (7 * Z.of_nat n).
Proof.
  intros Hv. assert (2 ^ (7 * Z.of_nat (S n)) = 128 * 2 ^ (7 * Z.of_nat n)) as E.
  { change 128 with (2 ^ 7). rewrite <- Z.pow_add_r by lia. f_equal. lia. }
  split; [apply Z.div_pos; lia|apply Z.div_lt_upper_bound; lia].
Qed.

Lemma uleb_encode n v room : 0 ≤ v < 2 ^ (7 * Z.of_nat (S n)) →
  EncodeULEB128_loop (S n) v room = Ok (take room (uleb (S n) v)).
Proof.
  revert v room. induction n as [|n IH]; intros v room Hv; rewrite EncodeULEB128_step; destruct room as [|room];
    [done| |done|].
  - apply uleb_div in Hv. cbn [uleb]. rewrite !decide_True by (simpl in Hv; lia). cbn. by rewrite take_nil.
  - remember (S n) as m. cbn [uleb]. gdecide; [cbn; by rewrite take_nil|].
    subst m. by rewrite IH by by apply uleb_div.
Qed.

Lemma uleb_length n v : (length (uleb n v) ≤ n)%nat.
Proof. revert v. induction n as [|n IH]; intros v; [done|]. cbn [uleb]. gdecide; simpl; [lia|]. specialize (IH (v / 128)). lia. Qed.

Lemma uleb_prefix n v k : (k < length (uleb n v))%nat → Forall (λ b, 128 ≤ b < 256) (take k (uleb n v)).
Proof.
  revert v k. induction n as [|n IH]; intros v k; simpl; [lia|]. pose proof (group_bounds v).
  gdecide; simpl; intros Hk; destruct k as [|k]; try (by constructor); [lia|].
  constructor; [lia|]. apply IH. lia.
Qed.

Lemma uleb_bytes n v : Forall is_byte (uleb n v).
Proof.
  revert v. induction n as [|n IH]; intros v; [by constructor|]. pose proof (group_bounds v). cbn [uleb].
  gdecide; repeat constructor; unfold is_byte; try lia. apply IH.
Qed.

Lemma uleb_decode n v s acc rest : 0 ≤ v < 2 ^ (7 * Z.of_nat (S n)) → 0 ≤ s ≤ 63 → 0 ≤ acc < 2 ^ s →
  acc + v * 2 ^ s < 2 ^ 64 →
  DecodeULEB128_loop (uleb (S n) v ++ rest) acc s = Ok (rest, Some (acc + v * 2 ^ s)).
Proof.
  assert (∀ v s acc rest, v / 128 = 0 → 0 ≤ v → 0 ≤ s ≤ 63 → 0 ≤ acc < 2 ^ s → acc + v * 2 ^ s < 2 ^ 64 →
    DecodeULEB128_loop ([v mod 128] ++ rest) acc s = Ok (rest, Some (acc + v * 2 ^ s))) as Hlast.
  { clear. intros v s acc rest Hd H0 Hs Ha Hb. pose proof (Z.div_mod v 128 ltac:(lia)). pose proof (group_bounds v).
    cbn [DecodeULEB128_loop app]. assert (v mod 128 = v) as -> by lia. rewrite slice_ok by lia. cbn [mbind result_bind].
    rewrite (cast_id 32), (proj2 (Z.leb_gt 128 _)) by lia. by rewrite (cast_id 64 (v * _)), cast_id by nia. }
  revert v s acc. induction n as [|n IH]; intros v s acc Hv Hs Ha Hb;
    pose proof (group_bounds v) as Hg; pose proof (Z.div_mod v 128 ltac:(lia)) as Edm.
  - apply uleb_div in Hv as Hd. cbn [uleb]. rewrite decide_True by (simpl in Hd; lia). apply Hlast; simpl in Hd; lia.
  - apply uleb_div in Hv as Hv'. remember (S n) as m. cbn [uleb]. gdecide as [Hd|Hd]; [apply Hlast; lia|]. subst m.
    assert (2 ^ (s + 7) = 128 * 2 ^ s) as E7 by (rewrite Z.pow_add_r by lia; lia).
    assert (s ≤ 56) as Hs56.
    { apply Z.nlt_ge. intros Hlt. assert (2 ^ 57 ≤ 2 ^ s) by (apply Z.pow_le_mono_r; lia). nia. }
    assert (2 ^ (s + 7) ≤ 2 ^ 63) by (apply Z.pow_le_mono_r; lia).
    cbn [DecodeULEB128_loop app]. rewrite continued, slice_ok by lia. cbn [mbind result_bind].
    rewrite (cast_id 64 (_ * _)), (cast_id 64), (cast_id 32), (proj2 (Z.leb_le 128 _)) by nia.
    rewrite IH; [|lia|lia|nia|nia]. rewrite E7. do 3 f_equal. nia.
Qed.

(** ** The claims *)

(** A decoder that runs out of input leaves the variable alone. *)
Lemma decode_truncated bs acc s : Forall (λ b, 128 ≤ b < 256) bs → 0 ≤ s → s + 7 * Z.of_nat (length bs) ≤ 70 →
  DecodeSLEB128_loop bs acc s = Ok ([], None) ∧ DecodeULEB128_loop bs acc s = Ok ([], None).
Proof.
  intros Hb. revert acc s. induction Hb as [|b bs H Hb IH]; intros acc s Hs Hl; [done|]. cbn [length] in Hl.
  cbn [DecodeSLEB128_loop DecodeULEB128_loop]. rewrite !(shl_ok 64 (Z.land b 127) s) by lia. cbn [mbind result_bind].
  rewrite (proj2 (Z.leb_le 128 b)), (cast_id 32) by lia. split; apply IH; lia.
Qed.

Lemma sleb128_spec v : - 2 ^ 63 ≤ v < 2 ^ 63 →
  ∃ bs, (∀ room, EncodeSLEB128 v room = Ok (take room bs)) ∧ Forall is_byte bs ∧ (length bs ≤ 10)%nat ∧
    (∀ n, (1 ≤ n ≤ 10)%nat → (length bs ≤ n)%nat ↔ sleb_range n v) ∧
    (∀ rest, DecodeSLEB128 (bs ++ rest) = Ok (rest, Some v)) ∧
    (∀ k, (k < length bs)%nat → DecodeSLEB128 (take k bs) = Ok ([], None)).
Proof.
  intros Hv. assert (sleb_range 10 v) as Hr by (unfold sleb_range; change (2 ^ _) with (2 ^ 69); lia).
  exists (sleb 10 v). split; [intros room; by apply sleb_encode|]. split; [apply sleb_bytes|].
  split; [apply sleb_length|]. split; [|split].
  - intros [|n] Hn; [lia|]. apply sleb_shortest; [done|lia].
  - intros rest. unfold DecodeSLEB128. rewrite sleb_decode by (done || lia). rewrite signed_cast by lia.
    do 3 f_equal. lia.
  - intros k Hk. pose proof (sleb_length 10 v). apply decode_truncated; [by apply sleb_prefix|done|].
    rewrite length_take. lia.
Qed.

(** Signed LEB128 is a round trip on all 64-bit values: there is a sequence of
    at most ten bytes of which the encoder writes as much as fits, from which the
    decoder gets the value back, whatever follows, and of which no shorter part is
    taken for a number.  The sequence has [n] bytes or fewer exactly when the value
    is in the range of [n] groups of seven bits. *)
Theorem SLEB128_roundtrip v : - 2 ^ 63 ≤ v < 2 ^ 63 →
  ∃ bs, (∀ room, EncodeSLEB128 v room = Ok (take room bs)) ∧ Forall is_byte bs ∧ (length bs ≤ 10)%nat ∧
    (∀ n, (1 ≤ n ≤ 10)%nat → (length bs ≤ n)%nat ↔ sleb_range n v) ∧
    (∀ rest, DecodeSLEB128 (bs ++ rest) = Ok (rest, Some v)) ∧
    (∀ k, (k < length bs)%nat → DecodeSLEB128 (take k bs) = Ok ([], None)).
Proof. apply sleb128_spec. Qed.

(** Unsigned LEB128 is a round trip on all 64-bit values, in the same sense. *)
Theorem ULEB128_roundtrip v : 0 ≤ v < 2 ^ 64 →
  ∃ bs, (∀ room, EncodeULEB128 v room = Ok (take room bs)) ∧ Forall is_byte bs ∧ (length bs ≤ 10)%nat ∧
    (∀ rest, DecodeULEB128 (bs ++ rest) = Ok (rest, Some v)) ∧
    (∀ k, (k < length bs)%nat → DecodeULEB128 (take k bs) = Ok ([], None)).
Proof.
  intros Hv. assert (0 ≤ v < 2 ^ (7 * Z.of_nat 10)) as Hr by (change (2 ^ _) with (2 ^ 70); lia).
  exists (uleb 10 v). split; [intros room; by apply uleb_encode|]. split; [apply uleb_bytes|].
  split; [apply uleb_length|]. split.
  - intros rest. unfold DecodeULEB128. rewrite uleb_decode by (done || lia). do 3 f_equal. lia.
  - intros k Hk. pose proof (uleb_length 10 v). apply decode_truncated; [by apply uleb_prefix|done|].
    rewrite length_take. lia.
Qed.

Lemma SLEB128_roundtrip_witness :
  ∃ bs, (∀ room, EncodeSLEB128 (-300) room = Ok (take room bs)) ∧ Forall is_byte bs ∧ (length bs ≤ 10)%nat ∧
    (∀ n, (1 ≤ n ≤ 10)%nat → (length bs ≤ n)%nat ↔ sleb_range n (-300)) ∧
    (∀ rest, DecodeSLEB128 (bs ++ rest) = Ok (rest, Some (-300))) ∧
    (∀ k, (k < length bs)%nat → DecodeSLEB128 (take k bs) = Ok ([], None)).
Proof. apply (SLEB128_roundtrip (-300)). lia. Defined.

Lemma ULEB128_roundtrip_witness :
  ∃ bs, (∀ room, EncodeULEB128 70000 room = Ok (take room bs)) ∧ Forall is_byte bs ∧ (length bs ≤ 10)%nat ∧
    (∀ rest, DecodeULEB128 (bs ++ rest) = Ok (rest, Some 70000)) ∧
    (∀ k, (k < length bs)%nat → DecodeULEB128 (take k bs) = Ok ([], None)).
Proof. apply (ULEB128_roundtrip 70000). lia. Defined.

End Leb.
