(* ===== verification/DenseMap.v ===== *)
(** * DenseMap: the hash table of the runtime

    Models [sanitizer_dense_map.h] and the key traits of
    [sanitizer_dense_map_info.h].  The table is an open-addressing hash table with
    quadratic probing and tombstones.  A pointer to a bucket is its index, a null
    pointer [None]; the null bucket array is the empty list.  Keys and values are
    trivially copyable, so moves and destructors have no effect of their own; where
    the source distinguishes trivial from other values, a flag does.  The page size
    and [sizeof(BucketT)] are arguments, as are the contents of memory fresh from
    [MmapOrDie] and the default value [ValueT()].  The template parameter
    [LookupKeyT] of the [_as] operations is taken to be the key type. *)
From S2P Require Import Prelude Common.

(** ** Key traits *)
Class DenseMapInfo (K : Type) := {
  getEmptyKey : K;
  getTombstoneKey : K;
  getHashValue : K → Z;
  isEqual : K → K → bool
}.

Class DenseMapInfoLaws (K : Type) `{DenseMapInfo K} : Prop := {
  isEqual_spec a b : isEqual a b = true ↔ a = b;
  empty_not_tombstone : getEmptyKey ≠ getTombstoneKey;
  hash_range k : 0 ≤ getHashValue k < 2 ^ 32
}.

(** [combineHashValue] on 32-bit hashes. *)
Definition combineHashValue (a b : Z) : Z :=
  let key := Z.lor (u64 (Z.shiftl a 32)) b in
  let key := u64 (key + u64 (Z.lnot (u64 (Z.shiftl key 32)))) in
  let key := Z.lxor key (Z.shiftr key 22) in
  let key := u64 (key + u64 (Z.lnot (u64 (Z.shiftl key 13)))) in
  let key := Z.lxor key (Z.shiftr key 8) in
  let key := u64 (key + u64 (Z.shiftl key 3)) in
  let key := Z.lxor key (Z.shiftr key 15) in
  let key := u64 (key + u64 (Z.lnot (u64 (Z.shiftl key 27)))) in
  let key := Z.lxor key (Z.shiftr key 31) in
  u32 key.

(** The specialisations for the built-in types, on an LP64 platform with a signed
    [char]. *)
Definition Info_ptr : DenseMapInfo Z := {|
  getEmptyKey := u64 (Z.shiftl (u64 (-1)) 12);
  getTombstoneKey := u64 (Z.shiftl (u64 (-2)) 12);
  getHashValue v := Z.lxor (Z.shiftr (u32 v) 4) (Z.shiftr (u32 v) 9);
  isEqual := Z.eqb |}.
Definition Info_char : DenseMapInfo Z := {|
  getEmptyKey := signed 8 (-1); getTombstoneKey := signed 8 (-2);
  getHashValue v := u32 (v * 37); isEqual := Z.eqb |}.
Definition Info_uchar : DenseMapInfo Z := {|
  getEmptyKey := u8 (-1); getTombstoneKey := u8 (-2);
  getHashValue v := u32 (v * 37); isEqual := Z.eqb |}.
Definition Info_ushort : DenseMapInfo Z := {|
  getEmptyKey := 0xFFFF; getTombstoneKey := 0xFFFF - 1;
  getHashValue v := u32 (v * 37); isEqual := Z.eqb |}.
Definition Info_unsigned : DenseMapInfo Z := {|
  getEmptyKey := u32 (-1); getTombstoneKey := u32 (-1) - 1;
  getHashValue v := u32 (v * 37); isEqual := Z.eqb |}.
Definition Info_ulong : DenseMapInfo Z := {|
  getEmptyKey := u64 (-1); getTombstoneKey := u64 (-1) - 1;
  getHashValue v := u32 (u64 (v * 37)); isEqual := Z.eqb |}.
Definition Info_ulonglong : DenseMapInfo Z := {|
  getEmptyKey := u64 (-1); getTombstoneKey := u64 (-1) - 1;
  getHashValue v := u32 (u64 (v * 37)); isEqual := Z.eqb |}.
Definition Info_short : DenseMapInfo Z := {|
  getEmptyKey := 0x7FFF; getTombstoneKey := - 0x7FFF - 1;
  getHashValue v := u32 (v * 37); isEqual := Z.eqb |}.
Definition Info_int : DenseMapInfo Z := {|
  getEmptyKey := 0x7fffffff; getTombstoneKey := - 0x7fffffff - 1;
  getHashValue v := u32 (v * 37); isEqual := Z.eqb |}.
Definition Info_long : DenseMapInfo Z := {|
  getEmptyKey := Z.shiftl 1 (8 * 8 - 1) - 1; getTombstoneKey := Z.shiftl 1 (8 * 8 - 1) - 1 - 1;
  getHashValue v := u32 (u64 (v * 37)); isEqual := Z.eqb |}.
Definition Info_longlong : DenseMapInfo Z := {|
  getEmptyKey := 0x7fffffffffffffff; getTombstoneKey := - 0x7fffffffffffffff - 1;
  getHashValue v := u32 (u64 (v * 37)); isEqual := Z.eqb |}.
Definition Info_pair {T U} (I1 : DenseMapInfo T) (I2 : DenseMapInfo U) : DenseMapInfo (T * U) := {|
  getEmptyKey := (getEmptyKey, getEmptyKey);
  getTombstoneKey := (getTombstoneKey, getTombstoneKey);
  getHashValue v := combineHashValue (getHashValue v.1) (getHashValue v.2);
  isEqual a b := isEqual a.1 b.1 && isEqual a.2 b.2 |}.

Ltac int_info := split; [intros; apply Z.eqb_eq | done | intros; apply cast_range; lia].
Lemma Info_char_laws : @DenseMapInfoLaws Z Info_char.
Proof. int_info. Qed.
Lemma Info_uchar_laws : @DenseMapInfoLaws Z Info_uchar.
Proof. int_info. Qed.
Lemma Info_ushort_laws : @DenseMapInfoLaws Z Info_ushort.
Proof. int_info. Qed.
Lemma Info_unsigned_laws : @DenseMapInfoLaws Z Info_unsigned.
Proof. int_info. Qed.
Lemma Info_ulong_laws : @DenseMapInfoLaws Z Info_ulong.
Proof. int_info. Qed.
Lemma Info_ulonglong_laws : @DenseMapInfoLaws Z Info_ulonglong.
Proof. int_info. Qed.
Lemma Info_short_laws : @DenseMapInfoLaws Z Info_short.
Proof. int_info. Qed.
Lemma Info_int_laws : @DenseMapInfoLaws Z Info_int.
Proof. int_info. Qed.
Lemma Info_long_laws : @DenseMapInfoLaws Z Info_long.
Proof. int_info. Qed.
Lemma Info_longlong_laws : @DenseMapInfoLaws Z Info_longlong.
Proof. int_info. Qed.

Lemma Info_ptr_laws : @DenseMapInfoLaws Z Info_ptr.
Proof.
  split; [intros; apply Z.eqb_eq | done |]. intros k. cbn [getHashValue Info_ptr].
  pose proof (cast_range 32 k ltac:(lia)) as Hr. apply bits_range; [lia| |].
  - apply Z.lxor_nonneg. rewrite !Z.shiftr_nonneg. lia.
  - intros i Hi. rewrite Z.lxor_spec, !Z.shiftr_spec, !(testbit_high 32 (u32 k)) by lia. done.
Qed.

Lemma Info_pair_laws {T U} (I1 : DenseMapInfo T) (I2 : DenseMapInfo U) :
  DenseMapInfoLaws T → DenseMapInfoLaws U → @DenseMapInfoLaws (T * U) (Info_pair I1 I2).
Proof.
  intros L1 L2. split.
  - intros [a1 a2] [b1 b2]. cbn. rewrite andb_true_iff, !isEqual_spec. naive_solver.
  - cbn. intros [=]. by apply (empty_not_tombstone (K:=T)).
  - intros k. cbn. by apply cast_range.
Qed.

(** ** The interface of a map

    What the clients of the table use of it, and what they may rely on: the
    operations act on the finite map the table represents, for valid keys and up to
    a number of entries. *)
Class MapOps (M K V : Type) := {
  map_new : M;
  map_try_emplace : M → K → V → result (M * V * bool);
  map_get : M → K → result (option V);
  map_put : M → K → V → result M;
  map_erase : M → K → result (M * bool);
  (** [find] and [erase] of the bucket found. *)
  map_take : M → K → result (M * option V);
  map_len : M → Z
}.

Class MapLaws (M K V : Type) `{Countable K, MapOps M K V} := {
  map_limit : Z;
  map_key : K → Prop;
  map_rep : M → gmap K V → Prop;
  map_new_rep : map_rep map_new ∅;
  map_try_emplace_rep m g k v : map_rep m g → map_key k → Z.of_nat (size g) < map_limit →
    returns (map_try_emplace m k v) (λ '(m', w, inserted), map_rep m' (<[k := default v (g !! k)]> g) ∧
      w = default v (g !! k) ∧ inserted = bool_decide (g !! k = None));
  map_get_rep m g k : map_rep m g → map_key k → returns (map_get m k) (λ r, r = g !! k);
  map_put_rep m g k v : map_rep m g → map_key k → Z.of_nat (size g) < map_limit →
    returns (map_put m k v) (λ m', map_rep m' (<[k := v]> g));
  map_erase_rep m g k : map_rep m g → map_key k →
    returns (map_erase m k) (λ '(m', erased), map_rep m' (delete k g) ∧ erased = bool_decide (is_Some (g !! k)));
  map_take_rep m g k : map_rep m g → map_key k → returns (map_take m k) (λ '(m', r), map_rep m' (delete k g) ∧ r = g !! k);
  map_len_rep m g : map_rep m g → map_len m = Z.of_nat (size g)
}.

Module DM.

(** ** Operations *)
Section Ops.
Context {K V : Type} `{Info : DenseMapInfo K}.
(** [GetPageSizeCached()], [sizeof(BucketT)], [ValueT()] and the contents of a bucket in
    fresh memory. *)
Variables (PageSize sizeof_BucketT : Z) (default_value : V) (fresh : K * V).

Record DenseMap := mkDM {
  Buckets : list (K * V);
  NumEntries : Z;
  NumTombstones : Z;
  NumBuckets : Z
}.
Implicit Types (m : DenseMap) (Key : K) (b : K * V).

Definition setBuckets m bs : DenseMap := mkDM bs (NumEntries m) (NumTombstones m) (NumBuckets m).
Definition setNumEntries m (Num : Z) : DenseMap := mkDM (Buckets m) (u32 Num) (NumTombstones m) (NumBuckets m).
Definition setNumTombstones m (Num : Z) : DenseMap := mkDM (Buckets m) (NumEntries m) (u32 Num) (NumBuckets m).
Definition incrementNumEntries m : DenseMap := setNumEntries m (NumEntries m + 1).
Definition decrementNumEntries m : DenseMap := setNumEntries m (NumEntries m - 1).
Definition incrementNumTombstones m : DenseMap := setNumTombstones m (NumTombstones m + 1).
Definition decrementNumTombstones m : DenseMap := setNumTombstones m (NumTombstones m - 1).

(** The map of the default constructor. *)
Definition new_DenseMap : DenseMap := mkDM [] 0 0 0.

Definition dm_empty m : bool := NumEntries m =? 0.
Definition dm_size m : Z := NumEntries m.

(** A bucket that holds an entry. *)
Definition occupied b : bool := negb (isEqual b.1 getEmptyKey) && negb (isEqual b.1 getTombstoneKey).

(** The probe loop of [LookupBucketFor].  The result is the flag and the bucket;
    the number of buckets is enough fuel. *)
Fixpoint probe_loop (fuel : nat) m Key (BucketNo ProbeAmt : Z) (FoundTombstone : option Z) : result (bool * Z) :=
  match fuel with
  | O => Fault OutOfFuel
  | S fuel =>
      ThisBucket ← aget (Buckets m) BucketNo;
      if isEqual Key ThisBucket.1 then Ok (true, BucketNo)
      else if isEqual ThisBucket.1 getEmptyKey then
        Ok (false, match FoundTombstone with Some t => t | None => BucketNo end)
      else
        let FoundTombstone :=
          if isEqual ThisBucket.1 getTombstoneKey && bool_decide (FoundTombstone = None)
          then Some BucketNo else FoundTombstone in
        let BucketNo := Z.land (u32 (BucketNo + ProbeAmt)) (u32 (NumBuckets m - 1)) in
        probe_loop fuel m Key BucketNo (u32 (ProbeAmt + 1)) FoundTombstone
  end.

Definition LookupBucketFor m Key : result (bool * option Z) :=
  if NumBuckets m =? 0 then Ok (false, None)
  else
    CHECK (negb (isEqual Key getEmptyKey));;
    CHECK (negb (isEqual Key getTombstoneKey));;
    '(found, i) ← probe_loop (Z.to_nat (NumBuckets m)) m Key
      (Z.land (getHashValue Key) (u32 (NumBuckets m - 1))) 1 None;
    Ok (found, Some i).

(** [*p], for a pointer to a bucket. *)
Definition deref (p : option Z) : result Z :=
  match p with Some i => Ok i | None => Fault NullDeref end.

Definition dm_count m Key : result Z :=
  '(found, _) ← LookupBucketFor m Key;
  Ok (if found : bool then 1 else 0).

Definition dm_find m Key : result (option Z) :=
  '(found, i) ← LookupBucketFor m Key;
  Ok (if found : bool then i else None).

Definition dm_lookup m Key : result V :=
  '(found, p) ← LookupBucketFor m Key;
  if found : bool then i ← deref p; b ← aget (Buckets m) i; Ok b.2
  else Ok default_value.

(** Every bucket of the array gets the empty key. *)
Definition initEmpty m : result DenseMap :=
  let m := setNumTombstones (setNumEntries m 0) 0 in
  CHECK (Z.land (NumBuckets m) (u32 (NumBuckets m - 1)) =? 0);;
  bs ← for_range 0 (NumBuckets m) (λ i bs, b ← aget bs i; aset bs i (getEmptyKey, b.2)) (Buckets m);
  Ok (setBuckets m bs).

Definition allocate_buffer (n : Z) : list (K * V) := replicate (Z.to_nat n) fresh.

Definition allocateBuckets m (Num : Z) : result (DenseMap * bool) :=
  if Num =? 0 then Ok (mkDM [] (NumEntries m) (NumTombstones m) Num, false)
  else
    let Size := u64 (sizeof_BucketT * Num) in
    '(Size, Num) ←
      (if u64 (Size * 2) <=? PageSize then
         q ← udiv PageSize Size;
         Log2 ← MostSignificantSetBitIndex q;
         Size ← shl 64 Size Log2;
         Num ← shl 32 Num Log2;
         CHECK (Size =? u64 (sizeof_BucketT * Num));;
         CHECK (PageSize <? u64 (Size * 2));;
         Ok (Size, Num)
       else Ok (Size, Num));
    Ok (mkDM (allocate_buffer Num) (NumEntries m) (NumTombstones m) Num, true).

Definition getMinBucketToReserveForEntries (NumEntries : Z) : result Z :=
  if NumEntries =? 0 then Ok 0
  else r ← RoundUpToPowerOfTwo (u32 (u32 (u32 (NumEntries * 4) / 3 + 1) + 1)); Ok (u32 r).

(** One old bucket moves to the new table. *)
Definition move_bucket m b : result DenseMap :=
  if occupied b then
    '(FoundVal, p) ← LookupBucketFor m b.1;
    CHECK (negb FoundVal);;
    i ← deref p;
    bs ← aset (Buckets m) i b;
    Ok (incrementNumEntries (setBuckets m bs))
  else Ok m.

Definition moveFromOldBuckets m (OldBuckets : list (K * V)) : result DenseMap :=
  m ← initEmpty m;
  for_range 0 (Z.of_nat (length OldBuckets)) (λ i m, b ← aget OldBuckets i; move_bucket m b) m.

Definition grow m (AtLeast : Z) : result DenseMap :=
  let OldBuckets := Buckets m in
  n ← RoundUpToPowerOfTwo (Max 64 AtLeast);
  '(m, _) ← allocateBuckets m (u32 n);
  CHECK (negb (bool_decide (Buckets m = [])));;
  if bool_decide (OldBuckets = []) then initEmpty m
  else moveFromOldBuckets m OldBuckets.

Definition dm_reserve m (Num : Z) : result DenseMap :=
  n ← getMinBucketToReserveForEntries Num;
  if NumBuckets m <? n then grow m n else Ok m.

Definition init m (InitNumEntries : Z) : result DenseMap :=
  n ← getMinBucketToReserveForEntries InitNumEntries;
  '(m, ok) ← allocateBuckets m n;
  if ok : bool then initEmpty m
  else Ok (mkDM (Buckets m) 0 0 (NumBuckets m)).

Definition InsertIntoBucketImpl m Key (TheBucket : option Z) : result (DenseMap * Z) :=
  let NewNumEntries := u32 (NumEntries m + 1) in
  let nb := NumBuckets m in
  '(m, TheBucket) ←
    (if u32 (nb * 3) <=? u32 (NewNumEntries * 4) then
       m ← grow m (u32 (nb * 2));
       '(_, p) ← LookupBucketFor m Key;
       Ok (m, p)
     else if u32 (nb - u32 (NewNumEntries + NumTombstones m)) <=? nb / 8 then
       m ← grow m nb;
       '(_, p) ← LookupBucketFor m Key;
       Ok (m, p)
     else Ok (m, TheBucket));
  CHECK (negb (bool_decide (TheBucket = None)));;
  i ← deref TheBucket;
  let m := incrementNumEntries m in
  b ← aget (Buckets m) i;
  Ok (if isEqual b.1 getEmptyKey then m else decrementNumTombstones m, i).

Definition InsertIntoBucket m (TheBucket : option Z) Key (v : V) : result (DenseMap * Z) :=
  '(m, i) ← InsertIntoBucketImpl m Key TheBucket;
  bs ← aset (Buckets m) i (Key, v);
  Ok (setBuckets m bs, i).

Definition try_emplace m Key (v : V) : result (DenseMap * Z * bool) :=
  '(found, p) ← LookupBucketFor m Key;
  if found : bool then i ← deref p; Ok (m, i, false)
  else '(m, i) ← InsertIntoBucket m p Key v; Ok (m, i, true).

Definition dm_insert m (KV : K * V) : result (DenseMap * Z * bool) := try_emplace m KV.1 KV.2.

(** [erase] through a pointer to the bucket. *)
Definition erase_bucket m (I : option Z) : result DenseMap :=
  CHECK (negb (bool_decide (I = None)));;
  i ← deref I;
  b ← aget (Buckets m) i;
  bs ← aset (Buckets m) i (getTombstoneKey, b.2);
  Ok (incrementNumTombstones (decrementNumEntries (setBuckets m bs))).

Definition dm_erase m Key : result (DenseMap * bool) :=
  '(found, p) ← LookupBucketFor m Key;
  if negb found then Ok (m, false)
  else
    i ← deref p;
    b ← aget (Buckets m) i;
    bs ← aset (Buckets m) i (getTombstoneKey, b.2);
    Ok (incrementNumTombstones (decrementNumEntries (setBuckets m bs)), true).

Definition FindAndConstruct m Key : result (DenseMap * Z) :=
  '(found, p) ← LookupBucketFor m Key;
  if found : bool then i ← deref p; Ok (m, i)
  else InsertIntoBucket m p Key default_value.

(** [map[Key] = v]: [operator[]] returns a reference to the value, which is assigned. *)
Definition subscript_assign m Key (v : V) : result DenseMap :=
  '(m, i) ← FindAndConstruct m Key;
  b ← aget (Buckets m) i;
  bs ← aset (Buckets m) i (b.1, v);
  Ok (setBuckets m bs).

(** [trivial] is [is_trivially_destructible<ValueT>]. *)
Definition dm_clear (trivial : bool) m : result DenseMap :=
  if (NumEntries m =? 0) && (NumTombstones m =? 0) then Ok m
  else
    bs ← (if trivial then
            for_range 0 (NumBuckets m) (λ i bs, b ← aget bs i; aset bs i (getEmptyKey, b.2)) (Buckets m)
          else
            '(bs, n) ← for_range 0 (NumBuckets m) (λ i '(bs, n),
                b ← aget bs i;
                if negb (isEqual b.1 getEmptyKey) then
                  let n := if negb (isEqual b.1 getTombstoneKey) then u32 (n - 1) else n in
                  bs ← aset bs i (getEmptyKey, b.2);
                  Ok (bs, n)
                else Ok (bs, n)) (Buckets m, NumEntries m);
            CHECK (n =? 0);;
            Ok bs);
    Ok (setNumTombstones (setNumEntries (setBuckets m bs) 0) 0).

(** [fn] gets the entry and the state it captures; it answers whether to go on. *)
Fixpoint forEach_loop {S} (bs : list (K * V)) (fn : K * V → S → result (S * bool)) (s : S) : result S :=
  match bs with
  | [] => Ok s
  | b :: bs =>
      if occupied b then
        '(s, continue) ← fn b s;
        if continue : bool then forEach_loop bs fn s else Ok s
      else forEach_loop bs fn s
  end.

Definition forEach {S} m (fn : K * V → S → result (S * bool)) (s : S) : result S :=
  forEach_loop (Buckets m) fn s.

(** [operator==]; [veq] is [==] on values. *)
Definition dm_eq (veq : V → V → bool) (LHS RHS : DenseMap) : result bool :=
  if negb (dm_size LHS =? dm_size RHS) then Ok false
  else forEach LHS (λ KV _,
         p ← dm_find RHS KV.1;
         match p with
         | None => Ok (false, false)
         | Some i => b ← aget (Buckets RHS) i; Ok (if negb (veq b.2 KV.2) then (false, false) else (true, true))
         end) true.

Definition dm_neq (veq : V → V → bool) (LHS RHS : DenseMap) : result bool :=
  r ← dm_eq veq LHS RHS; Ok (negb r).

(** [BaseT::copyFrom]; [trivial] is [is_trivially_copyable] of keys and values. *)
Definition base_copyFrom (trivial : bool) m (other : DenseMap) : result DenseMap :=
  CHECK (NumBuckets m =? NumBuckets other);;
  let m := setNumTombstones (setNumEntries m (NumEntries other)) (NumTombstones other) in
  bs ← (if trivial then
          for_range 0 (NumBuckets m) (λ i bs, b ← aget (Buckets other) i; aset bs i b) (Buckets m)
        else
          for_range 0 (NumBuckets m) (λ i bs,
            o ← aget (Buckets other) i;
            b ← aget bs i;
            aset bs i (o.1, if occupied o then o.2 else b.2)) (Buckets m));
  Ok (setBuckets m bs).

Definition copyFrom (trivial : bool) m (other : DenseMap) : result DenseMap :=
  '(m, ok) ← allocateBuckets m (NumBuckets other);
  if ok : bool then base_copyFrom trivial m other
  else Ok (mkDM (Buckets m) 0 0 (NumBuckets m)).

(** The copy constructor. *)
Definition copy_DenseMap (trivial : bool) (other : DenseMap) : result DenseMap :=
  m ← init new_DenseMap 0;
  copyFrom trivial m other.

Definition dm_swap (m RHS : DenseMap) : DenseMap * DenseMap := (RHS, m).

Definition getMemorySize m : result Z := RoundUpTo (u64 (NumBuckets m * sizeof_BucketT)) PageSize.

End Ops.
Arguments DenseMap : clear implicits.

Ltac dm_simpl :=
  unfold incrementNumEntries, decrementNumEntries, incrementNumTombstones, decrementNumTombstones,
    setNumEntries, setNumTombstones, setBuckets;
  cbn [Buckets NumEntries NumTombstones NumBuckets].

(** ** Quadratic probing

    With [2^k] buckets the triangular numbers visit every bucket once in [2^k]
    steps. *)
Definition probe (nb h n : Z) : Z := (h + n * (n + 1) / 2) mod nb.

Lemma pow2_divide_odd (k : nat) a b : Z.odd a = true → (2 ^ Z.of_nat k | a * b) → (2 ^ Z.of_nat k | b).
Proof.
  intros Ha. revert b. induction k as [|k IH]; intros b Hd; [apply Z.divide_1_l|].
  rewrite Nat2Z.inj_succ, Z.pow_succ_r in * by lia.
  assert (Z.even b = true) as Hb.
  { destruct Hd as [q Hq]. destruct (Z.even b) eqn:E; [done|]. exfalso.
    assert (Z.odd (a * b) = true) as Ho by (rewrite Z.odd_mul, Ha, <- Z.negb_even, E; done).
    rewrite Hq, (Z.mul_comm q), <- Z.mul_assoc, Z.odd_mul in Ho. done. }
  apply Z.even_spec in Hb as [c ->]. apply Z.mul_divide_mono_l. apply IH.
  apply (Z.mul_divide_cancel_l _ _ 2); [lia|]. by replace (2 * (a * c)) with (a * (2 * c)) by lia.
Qed.

Lemma triangle n : 2 * (n * (n + 1) / 2) = n * (n + 1).
Proof.
  symmetry. apply Z_div_exact_full_2; [lia|]. apply Z.mod_divide; [lia|].
  destruct (Z.Even_or_Odd n) as [[m ->]|[m ->]].
  - exists (m * (2 * m + 1)). lia.
  - exists ((2 * m + 1) * (m + 1)). lia.
Qed.

Lemma probe_inj_lt k h i j : 0 ≤ k → 0 ≤ i < j → j < 2 ^ k → probe (2 ^ k) h i ≠ probe (2 ^ k) h j.
Proof.
  unfold probe. intros Hk Hij Hj E. pose proof (triangle i) as Ti. pose proof (triangle j) as Tj.
  assert ((2 ^ (k + 1) | (j - i) * (j + i + 1))) as Hd.
  { rewrite Z.pow_add_r by lia. change (2 ^ 1) with 2. replace ((j - i) * (j + i + 1)) with
      ((j * (j + 1) / 2 - i * (i + 1) / 2) * 2) by lia.
    apply Z.mul_divide_mono_r. apply Z.mod_divide; [lia|].
    replace (_ - _) with ((h + j * (j + 1) / 2) - (h + i * (i + 1) / 2)) by lia.
    rewrite Zminus_mod, E, Z.sub_diag. by rewrite Zmod_0_l. }
  rewrite <- (Z2Nat.id (k + 1)) in Hd by lia.
  assert (2 ^ (k + 1) = 2 * 2 ^ k) as E2 by (rewrite Z.pow_add_r by lia; lia).
  destruct (Z.odd (j - i)) eqn:Eo.
  - apply pow2_divide_odd in Hd; [|done]. rewrite Z2Nat.id in Hd by lia. apply Z.divide_pos_le in Hd; lia.
  - rewrite Z.mul_comm in Hd. apply pow2_divide_odd in Hd.
    + rewrite Z2Nat.id in Hd by lia. apply Z.divide_pos_le in Hd; lia.
    + replace (j + i + 1) with (j - i + (1 + 2 * i)) by lia. by rewrite Z.odd_add, Eo, Z.odd_add_mul_2.
Qed.

(** Every bucket is visited. *)
Lemma probe_surj k h p : 0 ≤ k → 0 ≤ p < 2 ^ k → ∃ n, 0 ≤ n < 2 ^ k ∧ probe (2 ^ k) h n = p.
Proof.
  intros Hk Hp. set (nb := Z.to_nat (2 ^ k)).
  set (l := (λ n, Z.to_nat (probe (2 ^ k) h (Z.of_nat n))) <$> seq 0 nb).
  assert (∀ n, 0 ≤ probe (2 ^ k) h n < 2 ^ k) as Hr by (intros; apply Z.mod_pos_bound; lia).
  assert (NoDup l) as Hnd.
  { apply NoDup_fmap_2_strong; [|apply NoDup_seq]. intros i j Hi%elem_of_seq Hj%elem_of_seq E.
    apply Z2Nat.inj in E; [|apply Hr..]. destruct (Nat.lt_trichotomy i j) as [?|[?|?]]; [|done|]; exfalso.
    - apply (probe_inj_lt k h (Z.of_nat i) (Z.of_nat j)); [lia..|done].
    - apply (probe_inj_lt k h (Z.of_nat j) (Z.of_nat i)); [lia..|done]. }
  assert (l ≡ₚ seq 0 nb) as Hp'.
  { apply submseteq_length_Permutation; [|by unfold l; rewrite length_fmap].
    apply NoDup_submseteq; [done|]. intros x (n & -> & _)%list_elem_of_fmap. apply elem_of_seq.
    specialize (Hr (Z.of_nat n)). lia. }
  assert (Z.to_nat p ∈ l) as Hin by (rewrite Hp'; apply elem_of_seq; lia).
  apply list_elem_of_fmap in Hin as (n & E & Hn%elem_of_seq). exists (Z.of_nat n). split; [lia|].
  apply Z2Nat.inj in E; [done|lia|apply Hr].
Qed.

Lemma probe_next k h n : 0 ≤ k ≤ 30 → 0 ≤ n →
  Z.land (u32 (probe (2 ^ k) h n + (n + 1))) (u32 (2 ^ k - 1)) = probe (2 ^ k) h (n + 1).
Proof.
  intros Hk Hn. assert (2 ^ k ≤ 2 ^ 30) by (apply Z.pow_le_mono_r; lia). assert (0 < 2 ^ k) by lia.
  rewrite (cast_id 32 (2 ^ k - 1)) by lia. rewrite Z.sub_1_r, <- Z.ones_equiv, Z.land_ones by lia.
  unfold cast. assert ((2 ^ k | 2 ^ 32)) by (exists (2 ^ (32 - k)); rewrite <- Z.pow_add_r by lia; f_equal; lia).
  rewrite Z.mod_mod_divide by done. unfold probe. rewrite Zplus_mod_idemp_l. f_equal.
  pose proof (triangle n). pose proof (triangle (n + 1)). lia.
Qed.

(** ** The invariant *)
Section Facts.
Context {K V : Type} `{Laws : DenseMapInfoLaws K, Countable K}.
Implicit Types (m : DenseMap K V) (k : K) (v : V) (b : K * V) (bs : list (K * V)).
Notation E := (getEmptyKey (K:=K)).
Notation T := (getTombstoneKey (K:=K)).

Lemma isEqual_decide k1 k2 : isEqual k1 k2 = bool_decide (k1 = k2).
Proof. apply eq_bool_prop_intro. rewrite !Is_true_true, isEqual_spec, bool_decide_eq_true. done. Qed.

(** A key that can be stored. *)
Definition key_ok k : Prop := k ≠ E ∧ k ≠ T.
#[local] Instance key_ok_dec k : Decision (key_ok k).
Proof. unfold key_ok. apply _. Defined.

Lemma occupied_spec b : occupied b = bool_decide (key_ok b.1).
Proof. unfold occupied. rewrite !isEqual_decide, <- !bool_decide_not, <- bool_decide_and. done. Qed.

Definition live b : Prop := key_ok b.1.
Definition tomb b : Prop := b.1 = T.
#[local] Instance live_dec b : Decision (live b).
Proof. unfold live. apply _. Defined.
#[local] Instance tomb_dec b : Decision (tomb b).
Proof. unfold tomb. apply _. Defined.
Definition count_of (P : K * V → Prop) `{∀ b, Decision (P b)} bs : Z := Z.of_nat (length (filter P bs)).

(** [k] is looked for at [i] after buckets that are not empty. *)
Definition reach nb bs k (i : nat) : Prop :=
  ∃ n, 0 ≤ n < nb ∧ probe nb (getHashValue k) n = Z.of_nat i ∧
    ∀ j, 0 ≤ j < n → ∃ b, bs !! Z.to_nat (probe nb (getHashValue k) j) = Some b ∧ b.1 ≠ E.

Record dm_wf m : Prop := {
  wf_len : NumBuckets m = Z.of_nat (length (Buckets m));
  wf_pow : NumBuckets m = 0 ∨ ∃ e, 0 ≤ e ≤ 30 ∧ NumBuckets m = 2 ^ e;
  wf_entries : NumEntries m = count_of live (Buckets m);
  wf_tombs : NumTombstones m = count_of tomb (Buckets m);
  wf_room : NumBuckets m ≠ 0 → NumEntries m + NumTombstones m < NumBuckets m;
  wf_unique i j b b' : Buckets m !! i = Some b → Buckets m !! j = Some b' → live b → b.1 = b'.1 → i = j;
  wf_reach i b : Buckets m !! i = Some b → live b → reach (NumBuckets m) (Buckets m) b.1 i
}.

(** The table [m] represents the map [g]. *)
Record dm_rep m (g : gmap K V) : Prop := {
  rep_wf : dm_wf m;
  rep_map k v : g !! k = Some v ↔ key_ok k ∧ (k, v) ∈ Buckets m
}.

(** ** Counting buckets *)
Lemma count_nil (P : K * V → Prop) `{∀ b, Decision (P b)} : count_of P [] = 0.
Proof. done. Qed.

Lemma count_cons (P : K * V → Prop) `{∀ b, Decision (P b)} b bs :
  count_of P (b :: bs) = (if decide (P b) then 1 else 0) + count_of P bs.
Proof. unfold count_of. rewrite filter_cons. gdecide; simpl; lia. Qed.

Lemma count_app (P : K * V → Prop) `{∀ b, Decision (P b)} bs bs' : count_of P (bs ++ bs') = count_of P bs + count_of P bs'.
Proof. unfold count_of. rewrite filter_app, length_app. lia. Qed.

Lemma count_insert (P : K * V → Prop) `{∀ b, Decision (P b)} bs i b b' : bs !! i = Some b →
  count_of P (<[i := b']> bs) = count_of P bs - (if decide (P b) then 1 else 0) + (if decide (P b') then 1 else 0).
Proof.
  intros Hi. assert (i < length bs)%nat by (by eapply lookup_lt_Some).
  rewrite insert_take_drop by done. rewrite <- (take_drop_middle _ _ _ Hi) at 3.
  rewrite !count_app, !count_cons. lia.
Qed.

Lemma count_range (P : K * V → Prop) `{∀ b, Decision (P b)} bs : 0 ≤ count_of P bs ≤ Z.of_nat (length bs).
Proof. unfold count_of. pose proof (length_filter P bs). lia. Qed.

(** A table that is not full has an empty bucket. *)
Lemma empty_bucket bs : count_of live bs + count_of tomb bs < Z.of_nat (length bs) →
  ∃ i b, bs !! i = Some b ∧ b.1 = E.
Proof.
  induction bs as [|b bs IH]; rewrite ?count_nil, ?count_cons; simpl length; [lia|]. intros Hlt.
  destruct (decide (b.1 = E)); [by exists 0%nat, b|].
  destruct IH as (i & b' & ? & ?); [|by exists (S i), b'].
  destruct (decide (b.1 = T)) as [Ht|Ht].
  - rewrite decide_False, decide_True in Hlt by (unfold live, key_ok, tomb; naive_solver). lia.
  - rewrite decide_True in Hlt by (unfold live, key_ok, tomb; naive_solver). destruct (decide (tomb b)); lia.
Qed.

Lemma reach_mono nb bs bs' k i : (∀ j b, bs !! j = Some b → b.1 ≠ E → ∃ b', bs' !! j = Some b' ∧ b'.1 ≠ E) →
  reach nb bs k i → reach nb bs' k i.
Proof.
  intros Hm (n & Hn & Ep & Hj). exists n. split; [done|]. split; [done|].
  intros j Hjn. destruct (Hj j Hjn) as (b & Hb & Hne). by eapply Hm.
Qed.

(** ** Looking up *)

(** What the loop knows after [n] probes. *)
Record probed m k (n : Z) (ft : option Z) : Prop := {
  pr_range : 0 ≤ n < NumBuckets m;
  pr_before j : 0 ≤ j < n → ∃ b, Buckets m !! Z.to_nat (probe (NumBuckets m) (getHashValue k) j) = Some b ∧
    b.1 ≠ E ∧ b.1 ≠ k;
  pr_tomb : match ft with
            | None => True
            | Some t => ∃ j b, 0 ≤ j < n ∧ t = probe (NumBuckets m) (getHashValue k) j ∧
                Buckets m !! Z.to_nat t = Some b ∧ b.1 = T
            end
}.

Definition found_at m k (r : bool * Z) : Prop :=
  ∃ i b, r.2 = Z.of_nat i ∧ Buckets m !! i = Some b ∧
    if r.1 then b.1 = k
    else ¬ live b ∧ reach (NumBuckets m) (Buckets m) k i ∧ ∀ j b', Buckets m !! j = Some b' → b'.1 ≠ k.

(** A key that is stored is met before the first empty bucket. *)
Lemma absent_at_empty m k n ft b : dm_wf m → key_ok k → probed m k n ft →
  Buckets m !! Z.to_nat (probe (NumBuckets m) (getHashValue k) n) = Some b → b.1 = E →
  ∀ j b', Buckets m !! j = Some b' → b'.1 ≠ k.
Proof.
  intros Hw Hk [Hn Hb _] Hbn HE j b' Hj Ek.
  destruct (wf_reach m Hw j b' Hj) as (n' & Hn' & Ep & Hb'); [unfold live; by rewrite Ek|]. rewrite Ek in *.
  destruct (Z.lt_trichotomy n' n) as [Hlt|[->|Hgt]].
  - destruct (Hb n' ltac:(lia)) as (b2 & Hb2 & _ & Hne). rewrite Ep, Nat2Z.id, Hj in Hb2. congruence.
  - rewrite Ep, Nat2Z.id, Hj in Hbn. simplify_eq. by destruct Hk.
  - destruct (Hb' n ltac:(lia)) as (b2 & Hb2 & Hne). congruence.
Qed.

Lemma probe_nat m k n : dm_wf m → NumBuckets m ≠ 0 →
  0 ≤ probe (NumBuckets m) (getHashValue k) n < Z.of_nat (length (Buckets m)).
Proof. intros Hw Hn. rewrite <- (wf_len m Hw). apply Z.mod_pos_bound. destruct (wf_pow m Hw) as [|(e & ? & ->)]; lia. Qed.

Lemma probe_loop_spec fuel m k n ft : dm_wf m → key_ok k → probed m k n ft →
  (Z.to_nat (NumBuckets m - n) ≤ fuel)%nat →
  returns (probe_loop fuel m k (probe (NumBuckets m) (getHashValue k) n) (n + 1) ft) (found_at m k).
Proof.
  intros Hw Hk. revert n ft. induction fuel as [|fuel IH]; intros n ft Hp Hf; pose proof (pr_range _ _ _ _ Hp) as Hn; [lia|].
  cbn [probe_loop]. pose proof (probe_nat m k n Hw ltac:(lia)) as Hpr.
  eapply returns_bind; [apply returns_aget; [done|]; intros b Hb; exact Hb|]. cbn beta. intros b Hb.
  set (p := probe _ _ n) in *.
  rewrite !isEqual_decide. case_bool_decide as Ek; [|case_bool_decide as Ee].
  - exists (Z.to_nat p), b. simpl. split; [lia|]. split; [done|]. done.
  - pose proof (absent_at_empty m k n ft b Hw Hk Hp Hb Ee) as Habs. destruct Hp as [_ Hbef Htomb]. destruct ft as [t|].
    + destruct Htomb as (j & bt & Hj & -> & Hbt & Et). eexists _, bt. simpl. split; [symmetry; apply Z2Nat.id, probe_nat; [done|lia]|].
      split; [done|]. split; [unfold live, key_ok; naive_solver|]. split; [|done]. exists j. split; [lia|].
      split; [symmetry; apply Z2Nat.id, probe_nat; [done|lia]|]. intros j' Hj'. destruct (Hbef j') as (b2 & ? & ? & _); [lia|]. by exists b2.
    + exists (Z.to_nat p), b. simpl. split; [lia|]. split; [done|]. split; [unfold live, key_ok; naive_solver|]. split; [|done].
      exists n. split; [lia|]. split; [lia|]. intros j' Hj'. destruct (Hbef j') as (b2 & ? & ? & _); [lia|]. by exists b2.
  - destruct (wf_pow m Hw) as [|(e & He & Enb)]; [lia|].
    assert (2 ^ e ≤ 2 ^ 30) by (apply Z.pow_le_mono_r; lia).
    assert (Z.land (u32 (p + (n + 1))) (u32 (NumBuckets m - 1)) = probe (NumBuckets m) (getHashValue k) (n + 1)) as ->
      by (unfold p; rewrite Enb; apply probe_next; lia).
    rewrite cast_id by lia. destruct Hp as [_ Hbef Htomb].
    assert (n + 1 ≠ NumBuckets m) as Hlast.
    { intros En. destruct (empty_bucket (Buckets m)) as (i & be & Hi & HE).
      { rewrite <- (wf_entries m Hw), <- (wf_tombs m Hw), <- (wf_len m Hw). apply wf_room; [done|lia]. }
      assert (i < length (Buckets m))%nat by (by eapply lookup_lt_Some). pose proof (wf_len m Hw).
      destruct (probe_surj e (getHashValue k) (Z.of_nat i)) as (n' & Hn' & Ep); [lia..|]. rewrite <- Enb in Ep.
      destruct (Z.eq_dec n' n) as [->|]; [unfold p in Hb|destruct (Hbef n' ltac:(lia)) as (b2 & Hb2 & Hne & _)];
        rewrite Ep, Nat2Z.id in *; congruence. }
    apply IH; [|lia]. split; [lia| |].
    + intros j Hj. destruct (Z.eq_dec j n) as [->|]; [|apply Hbef; lia]. exists b. naive_solver.
    + destruct (bool_decide (b.1 = T)) eqn:Et; cbn [andb]; [apply bool_decide_eq_true in Et|].
      * case_bool_decide as Eft; [exists n, b; split; [lia|done]|]. destruct ft as [t|]; [|done].
        destruct Htomb as (j & bt & Hj & ? & ? & ?). exists j, bt. split; [lia|done].
      * destruct ft as [t|]; [|done]. destruct Htomb as (j & bt & Hj & ? & ? & ?). exists j, bt. split; [lia|done].
Qed.

Lemma LookupBucketFor_spec m k : dm_wf m → NumBuckets m ≠ 0 → key_ok k →
  returns (LookupBucketFor m k) (λ '(found, p), ∃ i b, p = Some (Z.of_nat i) ∧ Buckets m !! i = Some b ∧
    if found : bool then b.1 = k
    else ¬ live b ∧ reach (NumBuckets m) (Buckets m) k i ∧ ∀ j b', Buckets m !! j = Some b' → b'.1 ≠ k).
Proof.
  intros Hw Hn Hk. unfold LookupBucketFor. rewrite (proj2 (Z.eqb_neq _ _)) by done.
  rewrite !isEqual_decide, !bool_decide_eq_false_2 by apply Hk. cbn [CHECK negb mbind result_bind].
  destruct (wf_pow m Hw) as [|(e & He & Enb)]; [done|]. assert (2 ^ e ≤ 2 ^ 30) by (apply Z.pow_le_mono_r; lia).
  assert (Z.land (getHashValue k) (u32 (NumBuckets m - 1)) = probe (NumBuckets m) (getHashValue k) 0) as ->.
  { rewrite Enb, cast_id by lia. rewrite Z.sub_1_r, <- Z.ones_equiv, Z.land_ones by lia. unfold probe. by rewrite Z.add_0_r. }
  rbind (apply (probe_loop_spec _ m k 0 None Hw Hk); [|lia]; split; [lia|lia|done]).
  intros [found p] (i & b & Ep & Hi & Hb). simpl in Ep, Hb. subst p. cbn. by exists i, b.
Qed.

(** ** Changing one bucket *)
Lemma rep_bucket m g i b : dm_rep m g → Buckets m !! i = Some b → live b → g !! b.1 = Some b.2.
Proof.
  intros Hr Hi Hl. apply (rep_map m g Hr). split; [done|]. apply list_elem_of_lookup. exists i. by rewrite <- surjective_pairing.
Qed.

Lemma rep_absent m g k : dm_rep m g → (∀ j b, Buckets m !! j = Some b → b.1 ≠ k) → g !! k = None.
Proof.
  intros Hr Ha. destruct (g !! k) as [v|] eqn:Eg; [|done]. apply (rep_map m g Hr) in Eg as [_ Hin].
  apply list_elem_of_lookup in Hin as [j Hj]. by destruct (Ha _ _ Hj).
Qed.

Lemma wf_update m i b b' : dm_wf m → Buckets m !! i = Some b → (b.1 ≠ E → b'.1 ≠ E) →
  (live b' → (live b ∧ b'.1 = b.1) ∨
    (reach (NumBuckets m) (Buckets m) b'.1 i ∧ ∀ j b2, Buckets m !! j = Some b2 → b2.1 ≠ b'.1)) →
  let bs := <[i := b']> (Buckets m) in
  count_of live bs + count_of tomb bs < NumBuckets m →
  dm_wf (mkDM bs (count_of live bs) (count_of tomb bs) (NumBuckets m)).
Proof.
  intros Hw Hi Hne Hb' bs Hroom. assert (i < length (Buckets m))%nat by (by eapply lookup_lt_Some).
  assert (∀ j b, Buckets m !! j = Some b → b.1 ≠ E → ∃ b', bs !! j = Some b' ∧ b'.1 ≠ E) as Hmono.
  { intros j bj Hj HE. unfold bs. destruct (decide (i = j)) as [<-|].
    - rewrite list_lookup_insert_eq by done. simplify_eq. eauto.
    - rewrite list_lookup_insert_ne by done. eauto. }
  assert (∀ j bj, bs !! j = Some bj → j = i ∧ bj = b' ∨ j ≠ i ∧ Buckets m !! j = Some bj) as Hlk.
  { intros j bj. unfold bs. rewrite list_lookup_insert. case_decide; naive_solver. }
  split; cbn [Buckets NumBuckets NumEntries NumTombstones].
  - unfold bs. rewrite length_insert. apply Hw.
  - apply Hw.
  - done.
  - done.
  - lia.
  - intros j1 j2 b1 b2 [[-> ->]|[Hn1 L1]]%Hlk [[-> ->]|[Hn2 L2]]%Hlk Hl Ek; [done| | |by eapply (wf_unique m Hw)].
    + destruct (Hb' Hl) as [[Hlb Eb]|[_ Ha]]; [|by destruct (Ha _ _ L2)].
      eapply (wf_unique m Hw); [exact Hi|exact L2|done|congruence].
    + assert (live b') as Hl' by (unfold live in *; congruence).
      destruct (Hb' Hl') as [[Hlb Eb]|[_ Ha]]; [|by destruct (Ha _ _ L1)].
      eapply (wf_unique m Hw); [exact L1|exact Hi|done|congruence].
  - intros j bj [[-> ->]|[Hnj Hj]]%Hlk Hl; eapply reach_mono; try exact Hmono; [|by apply (wf_reach m Hw)].
    destruct (Hb' Hl) as [[Hlb ->]|[Hr _]]; [by apply (wf_reach m Hw)|done].
Qed.

Lemma not_live b : ¬ live b → b.1 = E ∨ b.1 = T.
Proof. unfold live, key_ok. intros Hn. destruct (decide (b.1 = E)), (decide (b.1 = T)); naive_solver. Qed.

Lemma live_not_tomb b : live b → ¬ tomb b.
Proof. unfold live, key_ok, tomb. naive_solver. Qed.

(** The entries of a table after bucket [i] has been replaced. *)
Lemma elem_insert bs i b b' k v : bs !! i = Some b →
  (k, v) ∈ <[i := b']> bs ↔ (k, v) = b' ∨ ∃ j, j ≠ i ∧ bs !! j = Some (k, v).
Proof.
  intros Hi. assert (i < length bs)%nat by (by eapply lookup_lt_Some). rewrite list_elem_of_lookup. split.
  - intros [j Hj]. destruct (decide (i = j)) as [<-|].
    + rewrite list_lookup_insert_eq in Hj by done. left. congruence.
    + rewrite list_lookup_insert_ne in Hj by done. eauto.
  - intros [<-|(j & Hj & Hv)].
    + exists i. by apply list_lookup_insert_eq.
    + exists j. by rewrite list_lookup_insert_ne.
Qed.

(** A free bucket on the key's path receives a new entry. *)
Lemma fill_spec m g k v i b : dm_rep m g → key_ok k → Buckets m !! i = Some b → ¬ live b →
  reach (NumBuckets m) (Buckets m) k i → (∀ j b', Buckets m !! j = Some b' → b'.1 ≠ k) →
  NumEntries m + 1 + NumTombstones m < NumBuckets m ∨ tomb b →
  dm_rep (mkDM (<[i := (k, v)]> (Buckets m)) (NumEntries m + 1)
    (NumTombstones m - (if decide (tomb b) then 1 else 0)) (NumBuckets m)) (<[k := v]> g).
Proof.
  intros [Hw Hg] Hk Hi Hnl Hr Ha Hroom.
  assert (i < length (Buckets m))%nat by (by eapply lookup_lt_Some). pose proof (wf_len m Hw).
  pose proof (wf_room m Hw ltac:(lia)). pose proof (live_not_tomb (k, v) Hk) as Hnt.
  pose proof (count_insert live _ i b (k, v) Hi) as El. pose proof (count_insert tomb _ i b (k, v) Hi) as Et.
  rewrite (decide_False (P:=live b)), (decide_True (P:=live (k, v))) in El by done.
  rewrite (decide_False (P:=tomb (k, v))) in Et by done.
  rewrite (wf_entries m Hw), (wf_tombs m Hw) in *. split.
  - replace (count_of live (Buckets m) + 1) with (count_of live (<[i := (k, v)]> (Buckets m))) by lia.
    replace (count_of tomb (Buckets m) - _) with (count_of tomb (<[i := (k, v)]> (Buckets m))) by lia.
    apply (wf_update m i b); [done|done|by intros _; apply Hk|by right|].
    destruct (decide (tomb b)); destruct Hroom; done || lia.
  - intros k' v'. cbn [Buckets]. rewrite elem_insert, lookup_insert_Some, Hg by done. split.
    + intros [[-> ->]|[Hne [Hk' Hin]]]; [by auto|]. split; [done|]. right. apply list_elem_of_lookup in Hin as [j Hj].
      exists j. split; [|done]. intros ->. by simplify_eq.
    + intros [Hk' [[= -> ->]|(j & Hj & Hv)]]; [by left|]. right. split; [intros ->; by destruct (Ha _ _ Hv)|].
      split; [done|]. apply list_elem_of_lookup. by exists j.
Qed.

(** An entry becomes a tombstone. *)
Lemma kill_spec m g i b w : dm_rep m g → Buckets m !! i = Some b → live b →
  dm_rep (mkDM (<[i := (T, w)]> (Buckets m)) (NumEntries m - 1) (NumTombstones m + 1) (NumBuckets m)) (delete b.1 g).
Proof.
  intros [Hw Hg] Hi Hl. assert (i < length (Buckets m))%nat by (by eapply lookup_lt_Some). pose proof (wf_len m Hw).
  pose proof (wf_room m Hw ltac:(lia)).
  assert (¬ live (T, w)) as Hnl by (unfold live, key_ok; naive_solver).
  pose proof (count_insert live _ i b (T, w) Hi) as El. pose proof (count_insert tomb _ i b (T, w) Hi) as Et.
  rewrite (decide_True (P:=live b)), (decide_False (P:=live (T, w))) in El by done.
  rewrite (decide_False (P:=tomb b)), (decide_True (P:=tomb (T, w))) in Et by (done || by apply live_not_tomb).
  rewrite (wf_entries m Hw), (wf_tombs m Hw) in *. split.
  - replace (count_of live (Buckets m) - 1) with (count_of live (<[i := (T, w)]> (Buckets m))) by lia.
    replace (count_of tomb (Buckets m) + 1) with (count_of tomb (<[i := (T, w)]> (Buckets m))) by lia.
    apply (wf_update m i b); [done|done| |done|lia]. intros _. simpl. pose proof empty_not_tombstone. congruence.
  - intros k' v'. cbn [Buckets]. rewrite elem_insert, lookup_delete_Some, Hg by done. split.
    + intros (Hne & Hk' & Hin). split; [done|]. right. apply list_elem_of_lookup in Hin as [j Hj].
      exists j. split; [|done]. intros ->. by simplify_eq.
    + intros [Hk' [[= -> ->]|(j & Hj & Hv)]]; [by destruct Hk'|]. split; [|split; [done|apply list_elem_of_lookup; by exists j]].
      intros Ek. destruct Hj. symmetry. by eapply (wf_unique m Hw).
Qed.

(** The value of an entry is overwritten. *)
Lemma set_value_spec m g i b v : dm_rep m g → Buckets m !! i = Some b → live b →
  dm_rep (mkDM (<[i := (b.1, v)]> (Buckets m)) (NumEntries m) (NumTombstones m) (NumBuckets m)) (<[b.1 := v]> g).
Proof.
  intros [Hw Hg] Hi Hl. assert (i < length (Buckets m))%nat by (by eapply lookup_lt_Some). pose proof (wf_len m Hw).
  pose proof (wf_room m Hw ltac:(lia)). pose proof (live_not_tomb b Hl) as Hnt.
  pose proof (count_insert live _ i b (b.1, v) Hi) as El. pose proof (count_insert tomb _ i b (b.1, v) Hi) as Et.
  rewrite !decide_True in El by done. rewrite !decide_False in Et by done.
  rewrite (wf_entries m Hw), (wf_tombs m Hw) in *. split.
  - replace (count_of live (Buckets m)) with (count_of live (<[i := (b.1, v)]> (Buckets m))) by lia.
    replace (count_of tomb (Buckets m)) with (count_of tomb (<[i := (b.1, v)]> (Buckets m))) by lia.
    apply (wf_update m i b); [done|done|done|by left|lia].
  - intros k' v'. cbn [Buckets]. rewrite elem_insert, lookup_insert_Some, Hg by done. split.
    + intros [[<- ->]|[Hne [Hk' Hin]]]; [by auto|]. split; [done|]. right. apply list_elem_of_lookup in Hin as [j Hj].
      exists j. split; [|done]. intros ->. by simplify_eq.
    + intros [Hk' [[= -> ->]|(j & Hj & Hv)]]; [by left|]. right. split; [|split; [done|apply list_elem_of_lookup; by exists j]].
      intros Ek. destruct Hj. symmetry. by eapply (wf_unique m Hw).
Qed.

(** The occupied buckets are the entries of the map. *)
Lemma rep_entries m g : dm_rep m g → filter live (Buckets m) ≡ₚ map_to_list g.
Proof.
  intros [Hw Hg]. apply NoDup_Permutation; [|apply NoDup_map_to_list|].
  - assert (∀ bs, (∀ i j b b', bs !! i = Some b → bs !! j = Some b' → live b → b.1 = b'.1 → i = j) → NoDup (filter live bs)) as Hnd; [|apply Hnd, (wf_unique m Hw)].
    clear. intros bs. induction bs as [|b bs IH]; intros Hu; [constructor|]. rewrite filter_cons.
    assert (NoDup (filter live bs)) as IH'.
    { apply IH. intros i j b1 b2 L1 L2 Hl Ek. assert (S i = S j) by by eapply Hu. lia. }
    gdecide as [Hl|Hl]; [|done]. constructor; [|done]. intros [_ Hin]%list_elem_of_filter.
    apply list_elem_of_lookup in Hin as [j Hj]. assert (0%nat = S j) by by eapply Hu. done.
  - intros [k v]. rewrite list_elem_of_filter, elem_of_map_to_list, Hg. done.
Qed.

(** The number of entries is the size of the map. *)
Lemma rep_size m g : dm_rep m g → NumEntries m = Z.of_nat (size g).
Proof.
  intros Hr. rewrite (wf_entries m (rep_wf m g Hr)). unfold count_of. f_equal.
  rewrite <- length_map_to_list. by apply Permutation_length, rep_entries.
Qed.

(** ** The operations *)

(** Where a failed lookup of [k] points to. *)
Definition slot m k (p : option Z) : Prop :=
  NumBuckets m = 0 ∧ p = None ∨
  ∃ i b, p = Some (Z.of_nat i) ∧ Buckets m !! i = Some b ∧ ¬ live b ∧
    reach (NumBuckets m) (Buckets m) k i ∧ ∀ j b', Buckets m !! j = Some b' → b'.1 ≠ k.

Lemma lookup_rep m g k : dm_rep m g → key_ok k →
  returns (LookupBucketFor m k) (λ '(found, p),
    match g !! k with
    | Some v => found = true ∧ ∃ i, p = Some (Z.of_nat i) ∧ Buckets m !! i = Some (k, v)
    | None => found = false ∧ slot m k p
    end).
Proof.
  intros Hr Hk. destruct (Z.eq_dec (NumBuckets m) 0) as [E0|Hn].
  - unfold LookupBucketFor. rewrite E0. cbn. pose proof (wf_len m (rep_wf m g Hr)).
    destruct (g !! k) eqn:Eg; [|by split; [|left]]. apply (rep_map m g Hr) in Eg as [_ Hin].
    destruct (Buckets m); [by apply elem_of_nil in Hin|simpl in *; lia].
  - eapply returns_mono; [apply LookupBucketFor_spec; [apply Hr|done|done]|]. intros [found p] (i & b & -> & Hi & Hb).
    destruct found.
    + subst k. rewrite (rep_bucket m g i b Hr Hi Hk). split; [done|]. exists i. by rewrite <- surjective_pairing.
    + destruct Hb as (Hl & Hre & Ha). rewrite (rep_absent m g k Hr Ha). split; [done|]. right. by exists i, b.
Qed.

(** The loop that sets all keys to the empty key. *)
Lemma blank_loop bs : returns (for_range 0 (Z.of_nat (length bs)) (λ i bs, b ← aget bs i; aset bs i (E, b.2)) bs)
  (λ bs', length bs' = length bs ∧ Forall (λ b, b.1 = E) bs').
Proof.
  eapply returns_mono; [apply (returns_for_range (λ i bs', length bs' = length bs ∧
    ∀ j b, Z.of_nat j < i → bs' !! j = Some b → b.1 = E)); [lia|split; [done|lia]|]|].
  - intros i bs' Hi [Hl Hb]. eapply returns_bind; [apply returns_aget; [lia|]; intros b Hb'; exact Hb'|]. cbn beta. intros b Hbi.
    apply returns_aset; [lia|]. split; [by rewrite length_insert|]. intros j b' Hj.
    rewrite list_lookup_insert. case_decide as Hc; [intros [= <-]; done|]. intros Hjb. apply (Hb j); [lia|done].
  - cbn beta. intros bs' [Hl Hb]. split; [done|]. apply Forall_lookup. intros j b Hj. apply (Hb j); [|done].
    apply lookup_lt_Some in Hj. lia.
Qed.

Lemma blank_rep bs nb : Forall (λ b, b.1 = E) bs → nb = Z.of_nat (length bs) →
  (nb = 0 ∨ ∃ e, 0 ≤ e ≤ 30 ∧ nb = 2 ^ e) → dm_rep (mkDM bs 0 0 nb) ∅.
Proof.
  intros Hb Hl Hp. rewrite Forall_lookup in Hb.
  assert (∀ (P : K * V → Prop) `{∀ b, Decision (P b)}, (∀ b, b.1 = E → ¬ P b) → count_of P bs = 0) as Hc.
  { intros P ? HP. unfold count_of. destruct (filter P bs) as [|b l] eqn:Ef; [done|].
    assert (b ∈ filter P bs) as [HPb Hin]%list_elem_of_filter by (rewrite Ef; apply list_elem_of_here).
    apply list_elem_of_lookup in Hin as [i Hi]. destruct (HP b); eauto. }
  assert (∀ b, b.1 = E → ¬ live b) as HE by (unfold live, key_ok; naive_solver).
  split; [split; cbn [Buckets NumBuckets NumEntries NumTombstones]|].
  - done.
  - done.
  - by rewrite Hc.
  - rewrite Hc; [done|]. unfold tomb. pose proof (empty_not_tombstone (K:=K)). congruence.
  - lia.
  - intros i j b b' Hi _ Hlb. destruct (HE b); eauto.
  - intros i b Hi Hlb. destruct (HE b); eauto.
  - intros k v. rewrite lookup_empty. cbn. split; [done|]. intros [Hk Hin]. apply list_elem_of_lookup in Hin as [i Hi].
    destruct (HE (k, v)); eauto.
Qed.

Lemma initEmpty_spec m e : 0 ≤ e ≤ 30 → NumBuckets m = 2 ^ e → NumBuckets m = Z.of_nat (length (Buckets m)) →
  returns (initEmpty m) (λ m', dm_rep m' ∅ ∧ NumBuckets m' = NumBuckets m ∧ NumTombstones m' = 0).
Proof.
  intros He En El. assert (2 ^ e ≤ 2 ^ 30) by (apply Z.pow_le_mono_r; lia). unfold initEmpty.
  cbn [setNumTombstones setNumEntries NumBuckets Buckets]. rewrite cast_id by lia.
  rewrite En at 1 2. rewrite land_pow2_pred by lia. cbn [Z.eqb CHECK mbind result_bind].
  rewrite El. rbind (apply blank_loop). intros bs [Hl Hb]. dm_simpl. cbn [returns]. split; [|done].
  apply blank_rep; [done|lia|]. right. exists e. done.
Qed.

(** A claim about unique keys, for the old buckets of a table that grows. *)
Definition unique_keys bs : Prop :=
  ∀ i j b b', bs !! i = Some b → bs !! j = Some b' → live b → b.1 = b'.1 → i = j.

Lemma move_bucket_spec m g b : dm_rep m g → NumTombstones m = 0 → NumEntries m + 1 < NumBuckets m ∨ ¬ live b →
  (live b → g !! b.1 = None) →
  returns (move_bucket m b) (λ m', dm_rep m' (if decide (live b) then <[b.1 := b.2]> g else g) ∧
    NumTombstones m' = 0 ∧ NumBuckets m' = NumBuckets m).
Proof.
  intros Hr Ht Hroom Hg. unfold move_bucket. rewrite occupied_spec.
  destruct (decide (live b)) as [Hl|Hl]; [rewrite bool_decide_eq_true_2 by done|by rewrite bool_decide_eq_false_2 by done].
  eapply returns_bind; [by apply (lookup_rep m g)|]. intros [found p]. rewrite (Hg Hl). intros [-> Hs].
  destruct Hroom as [Hroom|]; [|done]. pose proof (count_range live (Buckets m)) as Hc. rewrite <- (wf_entries m (rep_wf m g Hr)) in Hc.
  destruct Hs as [[? _]|(i & b0 & -> & Hi & Hnl & Hre & Ha)]; [lia|]. cbn [negb CHECK mbind result_bind deref].
  assert (i < length (Buckets m))%nat by (by eapply lookup_lt_Some).
  rewrite aset_Ok by lia. cbn. rewrite Nat2Z.id. dm_simpl.
  assert (¬ tomb b0) as Hnt.
  { intros Ht0. pose proof (count_insert tomb _ i b0 (E, b.2) Hi) as Ec. rewrite decide_True in Ec by done.
    pose proof (count_range tomb (<[i := (E, b.2)]> (Buckets m))). rewrite <- (wf_tombs m (rep_wf m g Hr)) in Ec.
    rewrite decide_False in Ec; [lia|]. unfold tomb. simpl. apply empty_not_tombstone. }
  pose proof (fill_spec m g b.1 b.2 i b0 Hr Hl Hi Hnl Hre Ha ltac:(left; lia)) as Hf.
  rewrite <- surjective_pairing in Hf. rewrite decide_False, Z.sub_0_r in Hf by done.
  split; [|done]. destruct (wf_pow m (rep_wf m g Hr)) as [|(e & He & Ee)]; [lia|].
  assert (2 ^ e ≤ 2 ^ 30) by (apply Z.pow_le_mono_r; lia). by rewrite cast_id by lia.
Qed.

Lemma moveFromOldBuckets_spec m old e : 0 ≤ e ≤ 30 → NumBuckets m = 2 ^ e → NumBuckets m = Z.of_nat (length (Buckets m)) →
  unique_keys old → count_of live old < NumBuckets m →
  returns (moveFromOldBuckets m old) (λ m', NumBuckets m' = NumBuckets m ∧ NumTombstones m' = 0 ∧
    ∀ g : gmap K V, (∀ k v, g !! k = Some v ↔ key_ok k ∧ (k, v) ∈ old) → dm_rep m' g).
Proof.
  intros He En El Hu Hc. unfold moveFromOldBuckets. rbind (by apply (initEmpty_spec m e)). intros m0 (Hr0 & En0 & Et0).
  eapply returns_mono; [apply (returns_for_range (λ i mi, NumBuckets mi = NumBuckets m ∧ NumTombstones mi = 0 ∧
    NumEntries mi = count_of live (take (Z.to_nat i) old) ∧
    ∃ g, dm_rep mi g ∧ ∀ k v, g !! k = Some v ↔ key_ok k ∧ (k, v) ∈ take (Z.to_nat i) old)); [lia| |]|].
  - split; [done|]. split; [done|]. rewrite take_0. rewrite (rep_size m0 ∅ Hr0), map_size_empty. split; [done|].
    exists ∅. split; [done|]. intros k v. rewrite lookup_empty. set_solver.
  - intros i mi Hi (Enb & Et & Ene & g & Hr & Hg).
    eapply returns_bind; [apply returns_aget; [lia|]; intros b Hb; exact Hb|]. cbn beta. intros b Hb.
    assert (take (Z.to_nat (i + 1)) old = take (Z.to_nat i) old ++ [b]) as Etk.
    { replace (Z.to_nat (i + 1)) with (S (Z.to_nat i)) by lia. by apply take_S_r. }
    assert (count_of live (take (Z.to_nat i) old ++ [b]) ≤ count_of live old) as Hle.
    { rewrite <- Etk. rewrite <- (take_drop (Z.to_nat (i + 1)) old) at 2. rewrite count_app.
      pose proof (count_range live (drop (Z.to_nat (i + 1)) old)). lia. }
    rewrite Etk. rewrite count_app, count_cons, count_nil in *.
    assert (live b → g !! b.1 = None) as Hnone.
    { intros Hl. destruct (g !! b.1) as [v|] eqn:Eg; [|done]. apply Hg in Eg as [_ Hin].
      apply list_elem_of_lookup in Hin as [j Hj]. apply lookup_take_Some in Hj as [Hj Hlt].
      assert (Z.to_nat i = j) by (eapply Hu; done || done). lia. }
    eapply returns_mono; [apply (move_bucket_spec mi g b); [done|done| |done]|].
    + destruct (decide (live b)); [left; lia|by right].
    + intros m' (Hr' & Et' & Enb'). split; [congruence|]. split; [done|].
      rewrite (rep_size _ _ Hr'). rewrite (rep_size _ _ Hr) in Ene. destruct (decide (live b)) as [Hl|Hl].
      * rewrite map_size_insert_None by auto. split; [lia|]. exists (<[b.1 := b.2]> g). split; [done|]. intros k v.
        rewrite lookup_insert_Some, elem_of_app, list_elem_of_singleton, Hg. split.
        -- intros [[<- <-]|[_ [? ?]]]; [split; [done|right; by destruct b]|tauto].
        -- intros [Hk [Hin|Eb]]; [right|left; by subst b]. split; [|done]. intros <-.
           assert (g !! b.1 = Some v) by (by apply Hg). rewrite Hnone in *; done.
      * split; [lia|]. exists g. split; [done|]. intros k v. rewrite elem_of_app, list_elem_of_singleton, Hg. split; [tauto|].
        intros [Hk [Hin|Eb]]; [done|]. by subst b.
  - cbn beta. intros m' (Enb & Et & _ & g & Hr & Hg). split; [done|]. split; [done|]. intros g' Hg'.
    rewrite take_ge in Hg by lia. assert (g' = g) as ->; [|done].
    apply map_eq. intros k. apply option_eq. intros v. by rewrite Hg, Hg'.
Qed.

Lemma num_buckets_range m g : dm_rep m g → 0 ≤ NumBuckets m ≤ 2 ^ 30 ∧ 0 ≤ NumEntries m ∧ 0 ≤ NumTombstones m ∧
  NumEntries m + NumTombstones m ≤ NumBuckets m.
Proof.
  intros [Hw _]. pose proof (count_range live (Buckets m)) as Hc. rewrite <- (wf_entries m Hw) in Hc.
  pose proof (count_range tomb (Buckets m)) as Hct. rewrite <- (wf_tombs m Hw) in Hct.
  pose proof (wf_len m Hw). pose proof (wf_room m Hw).
  assert (0 ≤ NumBuckets m ≤ 2 ^ 30); [|destruct (Z.eq_dec (NumBuckets m) 0); lia].
  destruct (wf_pow m Hw) as [->|(e & He & ->)]; [lia|]. assert (2 ^ e ≤ 2 ^ 30) by (apply Z.pow_le_mono_r; lia). lia.
Qed.

(** *** Erasing and finding *)
Lemma tombstone_step m g n b : dm_rep m g → Buckets m !! n = Some b → live b →
  returns (bs ← aset (Buckets m) (Z.of_nat n) (T, b.2);
           Ok (incrementNumTombstones (decrementNumEntries (setBuckets m bs)))) (λ m', dm_rep m' (delete b.1 g) ∧ NumBuckets m' = NumBuckets m).
Proof.
  intros Hr Hn Hl. assert (n < length (Buckets m))%nat by (by eapply lookup_lt_Some).
  rewrite aset_Ok by lia. cbn [mbind result_bind returns]. dm_simpl. rewrite Nat2Z.id.
  destruct (num_buckets_range m g Hr) as (? & ? & ? & ?).
  assert (size g ≠ 0%nat). { intros E0%map_size_empty_inv. subst g. pose proof (rep_bucket m ∅ n b Hr Hn Hl) as Hb. by rewrite lookup_empty in Hb. }
  pose proof (rep_size m g Hr). rewrite !cast_id by lia. split; [by apply kill_spec|done].
Qed.

Lemma dm_erase_spec m g k : dm_rep m g → key_ok k →
  returns (dm_erase m k) (λ '(m', r), dm_rep m' (delete k g) ∧ NumBuckets m' = NumBuckets m ∧
    r = bool_decide (is_Some (g !! k))).
Proof.
  intros Hr Hk. unfold dm_erase. eapply returns_bind; [by apply (lookup_rep m g)|]. intros [found p].
  destruct (g !! k) as [w|] eqn:Eg.
  - intros [-> (n & -> & Hn)]. cbn [negb mbind result_bind deref]. rewrite (aget_lookup _ _ _ Hn). cbn [mbind result_bind].
    pose proof (tombstone_step m g n (k, w) Hr Hn Hk) as Ht. cbn [snd] in *. destruct (aset _ _ _); [|done].
    cbn in *. naive_solver.
  - intros [-> Hs]. cbn. rewrite delete_id by done. done.
Qed.

(** [erase] through the pointer a lookup has returned. *)
Lemma erase_bucket_spec m g n k v : dm_rep m g → key_ok k → Buckets m !! n = Some (k, v) →
  returns (erase_bucket m (Some (Z.of_nat n))) (λ m', dm_rep m' (delete k g) ∧ NumBuckets m' = NumBuckets m).
Proof.
  intros Hr Hk Hn. unfold erase_bucket. rewrite bool_decide_eq_false_2 by done. cbn [negb CHECK mbind result_bind deref].
  rewrite (aget_lookup _ _ _ Hn). cbn [mbind result_bind]. exact (tombstone_step m g n (k, v) Hr Hn Hk).
Qed.

Lemma dm_find_spec m g k : dm_rep m g → key_ok k →
  returns (dm_find m k) (λ p, match g !! k with
    | Some v => ∃ n, p = Some (Z.of_nat n) ∧ Buckets m !! n = Some (k, v)
    | None => p = None
    end).
Proof.
  intros Hr Hk. unfold dm_find. eapply returns_bind; [by apply (lookup_rep m g)|]. intros [found p].
  destruct (g !! k); [intros [-> Hp]; done|intros [-> _]; done].
Qed.

Lemma dm_lookup_spec default_value m g k : dm_rep m g → key_ok k →
  returns (dm_lookup default_value m k) (λ v, v = default default_value (g !! k)).
Proof.
  intros Hr Hk. unfold dm_lookup. eapply returns_bind; [by apply (lookup_rep m g)|]. intros [found p].
  destruct (g !! k); [|by intros [-> _]]. intros [-> (n & -> & Hn)]. cbn. by rewrite (aget_lookup _ _ _ Hn).
Qed.

Lemma dm_count_spec m g k : dm_rep m g → key_ok k →
  returns (dm_count m k) (λ c, c = if g !! k then 1 else 0).
Proof.
  intros Hr Hk. unfold dm_count. eapply returns_bind; [by apply (lookup_rep m g)|]. intros [found p].
  destruct (g !! k); by intros [-> _].
Qed.

(** The loop of [clear] for values with a destructor, which counts the entries. *)
Lemma clear_loop bs n : n = count_of live bs → n ≤ 2 ^ 30 →
  returns (for_range 0 (Z.of_nat (length bs)) (λ i '(bs, n),
      b ← aget bs i;
      if negb (isEqual b.1 E) then
        let n := if negb (isEqual b.1 T) then u32 (n - 1) else n in
        bs ← aset bs i (E, b.2);
        Ok (bs, n)
      else Ok (bs, n)) (bs, n))
    (λ '(bs', n), n = 0 ∧ length bs' = length bs ∧ Forall (λ b, b.1 = E) bs').
Proof.
  intros En Hn. eapply returns_mono; [apply (returns_for_range (λ i '(bs', n'), length bs' = length bs ∧ n' = count_of live bs' ∧
    0 ≤ n' ≤ n ∧ ∀ j b, Z.of_nat j < i → bs' !! j = Some b → b.1 = E)); [lia| |]|].
  - split; [done|]. split; [done|]. split; [pose proof (count_range live bs); lia|lia].
  - intros i [bs' n'] Hi (Hl & Hc & Hr & Hb).
    eapply returns_bind; [apply returns_aget; [lia|]; intros b Hb'; exact Hb'|]. cbn beta. intros b Hbi.
    pose proof (count_insert live bs' (Z.to_nat i) b (E, b.2) Hbi) as Ec.
    rewrite (decide_False (P:=live (E, b.2))) in Ec by (unfold live, key_ok; naive_solver).
    pose proof (count_range live (<[Z.to_nat i := (E, b.2)]> bs')) as Hcr.
    assert (∀ j b', Z.of_nat j < i + 1 → <[Z.to_nat i := (E, b.2)]> bs' !! j = Some b' → b'.1 = E) as Hb2.
    { intros j b' Hj. rewrite list_lookup_insert. gdecide as [Hd|Hd]; [intros [= <-]; done|]. intros Hjb. apply (Hb j); [lia|done]. }
    rewrite !isEqual_decide. case_bool_decide as HE; cbn [negb].
    + split; [done|]. split; [done|]. split; [done|]. intros j b' Hj Hjb.
      destruct (decide (j = Z.to_nat i)) as [->|]; [congruence|]. apply (Hb j); [lia|done].
    + rewrite aset_Ok by lia. cbn [mbind result_bind returns]. rewrite length_insert. split; [done|]. case_bool_decide as HT; cbn [negb].
      * rewrite decide_False in Ec by (unfold live, key_ok; naive_solver). split; [lia|]. split; [lia|done].
      * rewrite decide_True in Ec by (unfold live, key_ok; naive_solver). rewrite cast_id by lia. split; [lia|]. split; [lia|done].
  - cbn beta. intros [bs' n'] (Hl & Hc & Hr & Hb).
    assert (Forall (λ b, b.1 = E) bs') as Hf.
    { apply Forall_lookup. intros j b Hj. apply (Hb j); [|done]. apply lookup_lt_Some in Hj. lia. }
    split; [|done]. rewrite Hc. unfold count_of. destruct (filter live bs') as [|b l] eqn:Ef; [done|].
    assert (b ∈ filter live bs') as [Hlb Hin]%list_elem_of_filter by (rewrite Ef; apply list_elem_of_here).
    rewrite Forall_forall in Hf. specialize (Hf b Hin). by destruct Hlb.
Qed.

Lemma dm_clear_spec trivial m g : dm_rep m g →
  returns (dm_clear trivial m) (λ m', dm_rep m' ∅ ∧ NumBuckets m' = NumBuckets m).
Proof.
  intros Hr. pose proof (rep_wf m g Hr) as Hw. destruct (num_buckets_range m g Hr) as (? & ? & ? & ?).
  unfold dm_clear. destruct ((NumEntries m =? 0) && (NumTombstones m =? 0)) eqn:E0; bool_prop.
  - cbn. pose proof (rep_size m g Hr). assert (g = ∅) as -> by (apply map_size_empty_inv; lia). done.
  - eapply (returns_bind _ _ (λ bs, length bs = length (Buckets m) ∧ Forall (λ b, b.1 = E) bs)).
    + rewrite (wf_len m Hw). destruct trivial; [apply blank_loop|].
      rbind (apply clear_loop; [apply (wf_entries m Hw)|lia]). intros [bs n] (-> & ? & ?). done.
    + intros bs [Hl Hb]. cbn [returns]. dm_simpl. split; [|done]. apply blank_rep; [done|by rewrite (wf_len m Hw), Hl|apply (wf_pow m Hw)].
Qed.

(** *** Iterating *)

(** Calls [fn] on the elements of a list until it answers false. *)
Fixpoint visit {St} (l : list (K * V)) (fn : K * V → St → result (St * bool)) (s : St) : result St :=
  match l with
  | [] => Ok s
  | b :: l => '(s, continue) ← fn b s; if continue : bool then visit l fn s else Ok s
  end.

Lemma forEach_visit {St} bs (fn : K * V → St → result (St * bool)) s : forEach_loop bs fn s = visit (filter live bs) fn s.
Proof.
  revert s. induction bs as [|b bs IH]; intros s; [done|]. cbn [forEach_loop]. rewrite filter_cons, occupied_spec.
  gdecide as [Hl|Hl]; [rewrite bool_decide_eq_true_2 by done|by rewrite bool_decide_eq_false_2 by done].
  cbn [visit]. destruct (fn b s) as [[s' []]|]; cbn; [apply IH|done|done].
Qed.

Lemma forEach_spec {St} m g (fn : K * V → St → result (St * bool)) s : dm_rep m g →
  ∃ l, l ≡ₚ map_to_list g ∧ forEach m fn s = visit l fn s.
Proof. intros Hr. exists (filter live (Buckets m)). split; [by apply rep_entries|apply forEach_visit]. Qed.

Lemma dm_eq_spec (veq : V → V → bool) m1 m2 g1 g2 : (∀ v w, veq v w = true ↔ v = w) → dm_rep m1 g1 → dm_rep m2 g2 →
  returns (dm_eq veq m1 m2) (λ r, r = true ↔ g1 = g2).
Proof.
  intros Hv Hr1 Hr2. unfold dm_eq, dm_size. rewrite (rep_size m1 g1 Hr1), (rep_size m2 g2 Hr2).
  destruct (Z.eqb_spec (Z.of_nat (size g1)) (Z.of_nat (size g2))) as [Es|Es]; cbn [negb]; [|split; [done|intros ->; lia]].
  unfold forEach. rewrite forEach_visit. pose proof (rep_entries m1 g1 Hr1) as Hp.
  set (fn := λ (KV : K * V) (_ : bool), _).
  assert (∀ l, (∀ b, b ∈ l → live b) → returns (visit l fn true) (λ r, r = true ↔ ∀ b, b ∈ l → g2 !! b.1 = Some b.2)) as Hvis.
  { induction l as [|b l IH]; intros Hl; [split; [set_solver|done]|]. cbn [visit]. unfold fn at 1.
    eapply returns_bind with (P := λ '(s, c), s = c ∧ c = bool_decide (is_Some (g2 !! b.1 ≫= λ w, if veq w b.2 then Some w else None))).
    - eapply returns_bind; [apply (dm_find_spec m2 g2); [done|]; apply Hl, list_elem_of_here|]. intros p.
      destruct (g2 !! b.1) as [w|]; [|intros ->; done]. intros (n & -> & Hn). rewrite (aget_lookup _ _ _ Hn). cbn. by destruct (veq w b.2).
    - intros [s c] [-> Ec]. destruct c; cbn.
      + eapply returns_mono; [apply IH; set_solver|]. cbn beta. intros r ->. split; [|intros Hb b' Hb'; apply Hb; set_solver].
        intros Hb b' [->|Hb']%elem_of_cons; [|by apply Hb]. symmetry in Ec. apply bool_decide_eq_true in Ec.
        destruct (g2 !! b.1) as [w|]; cbn in Ec; [|by destruct Ec]. destruct (veq w b.2) eqn:Ev; [|by destruct Ec].
        apply Hv in Ev. by subst w.
      + split; [done|]. intros Hb. symmetry in Ec. apply bool_decide_eq_false in Ec. destruct Ec.
        rewrite (Hb b) by apply list_elem_of_here. cbn. rewrite (proj2 (Hv b.2 b.2)) by done. by eexists. }
  eapply returns_mono; [apply Hvis; intros b [Hl _]%list_elem_of_filter; done|]. cbn beta. intros r ->. split.
  - intros Hb. assert (g1 ⊆ g2) as Hsub.
    { apply map_subseteq_spec. intros k v Hk. apply (Hb (k, v)). rewrite Hp. by apply elem_of_map_to_list. }
    apply map_subseteq_size_eq; [done|lia].
  - intros <- [k v] Hin. rewrite Hp in Hin. by apply elem_of_map_to_list in Hin.
Qed.

(** [C38] [LookupBucketFor] terminates on every well-formed table: it finds the
    bucket of a key that is in the map, and for any other key a free bucket, which
    the key's probe sequence reaches over buckets that are not empty, so that the
    entry put there is found later. *)
Theorem LookupBucketFor_correct m g k : dm_rep m g → key_ok k →
  returns (LookupBucketFor m k) (λ '(found, p),
    match g !! k with
    | Some v => found = true ∧ ∃ i, p = Some (Z.of_nat i) ∧ Buckets m !! i = Some (k, v)
    | None => found = false ∧ slot m k p
    end).
Proof. apply lookup_rep. Qed.

(** [forEach] calls the function once for every entry, in some order, until it
    answers false; [operator==] decides whether two tables hold the same entries. *)
Theorem forEach_eq_correct m1 m2 g1 g2 (veq : V → V → bool) : dm_rep m1 g1 → dm_rep m2 g2 → (∀ v w, veq v w = true ↔ v = w) →
  (∀ St (fn : K * V → St → result (St * bool)) s, ∃ l, l ≡ₚ map_to_list g1 ∧ forEach m1 fn s = visit l fn s) ∧
  returns (dm_eq veq m1 m2) (λ r, r = true ↔ g1 = g2).
Proof. intros H1 H2 Hv. split; [intros; by apply forEach_spec|by apply dm_eq_spec]. Qed.

(** *** Growing *)
Section Platform.
Context (PageSize sizeof_BucketT : Z) (default_value : V) (fresh : K * V).
(** Pages of 4 to 64 kB, buckets of at most one page. *)
Context (page_ok : ∃ p, 12 ≤ p ≤ 16 ∧ PageSize = 2 ^ p) (bucket_ok : 0 < sizeof_BucketT ≤ 4096).

(** Buckets fill more than half of a page, so a copy of the table has as many. *)
Definition paged m : Prop := NumBuckets m = 0 ∨ PageSize < sizeof_BucketT * NumBuckets m * 2.
Definition dm_ok m (g : gmap K V) : Prop := dm_rep m g ∧ paged m.

Lemma allocateBuckets_spec m e : 0 ≤ e ≤ 30 →
  returns (allocateBuckets PageSize sizeof_BucketT fresh m (2 ^ e)) (λ '(m', ok), ok = true ∧
    NumEntries m' = NumEntries m ∧ NumTombstones m' = NumTombstones m ∧
    NumBuckets m' = Z.of_nat (length (Buckets m')) ∧ ∃ e', e ≤ e' ≤ 30 ∧ NumBuckets m' = 2 ^ e' ∧
    (PageSize < sizeof_BucketT * 2 ^ e * 2 → e' = e) ∧ PageSize < sizeof_BucketT * 2 ^ e' * 2).
Proof.
  intros He. destruct page_ok as (p & Hp & ->). assert (2 ^ e ≤ 2 ^ 30) by (apply Z.pow_le_mono_r; lia).
  assert (0 < 2 ^ e) by lia. assert (2 ^ p ≤ 2 ^ 16) by (apply Z.pow_le_mono_r; lia).
  unfold allocateBuckets. rewrite (proj2 (Z.eqb_neq _ _)) by lia. rewrite !(cast_id 64 (sizeof_BucketT * 2 ^ e)) by nia.
  set (sz := sizeof_BucketT * 2 ^ e) in *. assert (0 < sz ≤ 2 ^ 42) by (unfold sz; nia).
  rewrite (cast_id 64 (sz * 2)) by lia.
  destruct (Z.leb_spec (sz * 2) (2 ^ p)) as [Hle|Hgt].
  - rewrite udiv_ok by lia. cbn [mbind result_bind]. set (q := 2 ^ p / sz).
    pose proof (Z.div_mod (2 ^ p) sz ltac:(lia)) as Ed. pose proof (Z.mod_pos_bound (2 ^ p) sz ltac:(lia)). fold q in Ed.
    assert (0 < q) by nia. rewrite MostSignificantSetBitIndex_log2 by done. cbn [mbind result_bind].
    pose proof (Z.log2_spec q ltac:(lia)) as [Hlo Hhi]. pose proof (Z.log2_nonneg q). set (L := Z.log2 q) in *.
    assert (L < 17) by (apply (Z.pow_lt_mono_r_iff 2); [lia..|]; change (2 ^ 17) with (2 * 2 ^ 16); nia).
    rewrite Z.pow_succ_r in Hhi by lia.
    rewrite !shl_ok by lia. cbn [mbind result_bind]. rewrite !Z.shiftl_mul_pow2 by lia.
    assert (2 ^ e * 2 ^ L = 2 ^ (e + L)) as EL by (rewrite Z.pow_add_r by lia; done).
    assert (sz * 2 ^ L ≤ 2 ^ p) by nia. assert (2 ^ (e + L) ≤ 2 ^ p) by (unfold sz in *; nia).
    rewrite EL, !cast_id by (unfold sz in *; nia).
    replace (sizeof_BucketT * 2 ^ (e + L)) with (sz * 2 ^ L) by (unfold sz; rewrite <- EL; lia).
    rewrite Z.eqb_refl, (proj2 (Z.ltb_lt _ _)) by nia. cbn. unfold allocate_buffer. rewrite length_replicate.
    split; [done|]. split; [done|]. split; [done|]. split; [lia|]. exists (e + L).
    assert (e + L ≤ 16) by (apply (Z.pow_le_mono_r_iff 2); lia). split; [lia|]. split; [done|].
    split; [lia|]. rewrite <- EL. unfold sz in *. nia.
  - cbn. unfold allocate_buffer. rewrite length_replicate. split; [done|]. split; [done|]. split; [done|].
    split; [lia|]. exists e. split; [lia|]. split; [done|]. split; [done|]. unfold sz in *. lia.
Qed.

Lemma grow_spec m g AtLeast : dm_rep m g → 0 ≤ AtLeast ≤ 2 ^ 30 → NumEntries m < Z.max 64 AtLeast →
  returns (grow PageSize sizeof_BucketT fresh m AtLeast) (λ m', dm_ok m' g ∧ NumTombstones m' = 0 ∧
    Z.max 64 AtLeast ≤ NumBuckets m').
Proof.
  intros Hr Ha Hn. pose proof (rep_wf m g Hr) as Hw. unfold grow.
  assert (Max 64 AtLeast = Z.max 64 AtLeast) as -> by (unfold Max; destruct (Z.ltb_spec AtLeast 64); lia).
  rbind (apply (returns_RoundUpToPowerOfTwo _ 30); lia). intros r (e & He & -> & Hle).
  assert (2 ^ e ≤ 2 ^ 30) by (apply Z.pow_le_mono_r; lia). rewrite cast_id by lia.
  rbind (by apply (allocateBuckets_spec m e)). intros [m1 ok] (-> & _ & _ & El1 & e' & He' & En1 & _ & Hpg).
  assert (2 ^ e ≤ 2 ^ e') by (apply Z.pow_le_mono_r; lia). assert (0 < 2 ^ e') by lia.
  rewrite (bool_decide_eq_false_2 (Buckets m1 = [])) by (intros E1; rewrite E1 in El1; simpl in El1; lia). cbn [negb CHECK mbind result_bind].
  case_bool_decide as Eo.
  - eapply returns_mono; [by apply (initEmpty_spec m1 e'); [lia|..]|]. intros m' (Hr' & En' & Et'). split; [split; [|right; by rewrite En', En1]|split; [done|lia]].
    assert (g = ∅) as ->; [|done]. apply map_eq. intros k. apply option_eq. intros v.
    rewrite (rep_map m g Hr), Eo, lookup_empty. set_solver.
  - eapply returns_mono; [apply (moveFromOldBuckets_spec m1 (Buckets m) e'); [lia|done|done|exact (wf_unique m Hw)|]|].
    + rewrite <- (wf_entries m Hw). lia.
    + intros m' (En' & Et' & Hg). split; [split; [apply Hg, Hr|right; by rewrite En', En1]|]. split; [done|lia].
Qed.

(** *** Inserting *)
Lemma slot_found m k p : NumBuckets m ≠ 0 → slot m k p → ∃ i b, p = Some (Z.of_nat i) ∧ Buckets m !! i = Some b ∧ ¬ live b ∧
    reach (NumBuckets m) (Buckets m) k i ∧ ∀ j b', Buckets m !! j = Some b' → b'.1 ≠ k.
Proof. by intros Hn [[? _]|?]. Qed.

Lemma regrow m g k AtLeast : dm_rep m g → key_ok k → g !! k = None → 0 ≤ AtLeast ≤ 2 ^ 30 →
  NumEntries m + 1 < Z.max 64 AtLeast →
  returns (m ← grow PageSize sizeof_BucketT fresh m AtLeast; '(_, p) ← LookupBucketFor m k; Ok (m, p))
    (λ '(m', p), dm_ok m' g ∧ slot m' k p ∧ NumEntries m' + 1 + NumTombstones m' < NumBuckets m').
Proof.
  intros Hr Hk Hg Ha Hn. eapply returns_bind; [apply (grow_spec m g); [done|done|lia]|]. intros m' ([Hr' Hpg] & Et & Hle).
  eapply returns_bind; [by apply (lookup_rep m' g)|]. intros [found p]. rewrite Hg. intros [_ Hs]. cbn.
  split; [done|]. split; [done|]. rewrite (rep_size m' g Hr'), <- (rep_size m g Hr). lia.
Qed.

Lemma InsertIntoBucketImpl_spec m g k p : dm_ok m g → key_ok k → g !! k = None → slot m k p →
  Z.of_nat (size g) < 2 ^ 28 →
  returns (InsertIntoBucketImpl PageSize sizeof_BucketT fresh m k p) (λ '(m', i), ∃ m1 n b, i = Z.of_nat n ∧ dm_ok m1 g ∧
    Buckets m1 !! n = Some b ∧ ¬ live b ∧ reach (NumBuckets m1) (Buckets m1) k n ∧
    (∀ j b', Buckets m1 !! j = Some b' → b'.1 ≠ k) ∧ NumEntries m1 + 1 + NumTombstones m1 < NumBuckets m1 ∧
    m' = mkDM (Buckets m1) (NumEntries m1 + 1) (NumTombstones m1 - (if decide (tomb b) then 1 else 0)) (NumBuckets m1)).
Proof.
  intros [Hr Hpg] Hk Hg Hs Hsz. unfold InsertIntoBucketImpl. rewrite <- (rep_size m g Hr) in Hsz.
  destruct (num_buckets_range m g Hr) as (Hnb & Hne & Hnt & Hsum).
  rewrite (cast_id 32 (NumEntries m + 1)), !(cast_id 32 (_ * _)), (cast_id 32 (_ + NumTombstones m)) by lia.
  eapply (returns_bind _ _ (λ '(m1, p), dm_ok m1 g ∧ slot m1 k p ∧ NumEntries m1 + 1 + NumTombstones m1 < NumBuckets m1)).
  - destruct (Z.leb_spec (NumBuckets m * 3) ((NumEntries m + 1) * 4)).
    + apply regrow; [done..|lia|]. pose proof (wf_room m (rep_wf m g Hr)). lia.
    + assert (0 ≤ NumBuckets m / 8) by (apply Z.div_pos; lia). pose proof (wf_room m (rep_wf m g Hr)).
      rewrite cast_id by lia.
      destruct (Z.leb_spec (NumBuckets m - (NumEntries m + 1 + NumTombstones m)) (NumBuckets m / 8)).
      * apply regrow; [done..|lia|]. lia.
      * split; [done|]. split; [done|]. lia.
  - intros [m1 p1] ([Hr1 Hpg1] & Hs1 & Hroom). destruct (num_buckets_range m1 g Hr1) as (Hnb1 & Hne1 & Hnt1 & _).
    apply slot_found in Hs1 as (n & b & -> & Hi & Hnl & Hre & Ha); [|lia].
    rewrite bool_decide_eq_false_2 by done. cbn [negb CHECK mbind result_bind deref]. dm_simpl.
    rewrite (aget_lookup _ _ _ Hi). cbn [mbind result_bind returns]. exists m1, n, b. do 7 (split; [done|]).
    rewrite isEqual_decide, (cast_id 32 (NumEntries m1 + 1)) by lia.
    destruct (not_live b Hnl) as [HE|HT].
    + rewrite bool_decide_eq_true_2, decide_False, Z.sub_0_r by (done || unfold tomb; pose proof (empty_not_tombstone (K:=K)); congruence). done.
    + rewrite bool_decide_eq_false_2, decide_True by (done || pose proof (empty_not_tombstone (K:=K)); congruence).
      cbn [NumTombstones Buckets NumEntries NumBuckets]. rewrite cast_id; [done|].
      assert (count_of tomb (Buckets m1) ≠ 0).
      { unfold count_of. intros E0. assert (b ∈ filter tomb (Buckets m1)) as Hin.
        { apply list_elem_of_filter. split; [done|]. apply list_elem_of_lookup. eauto. }
        destruct (filter tomb (Buckets m1)); [by apply elem_of_nil in Hin|simpl in E0; lia]. }
      rewrite (wf_tombs m1 (rep_wf m1 g Hr1)) in *. lia.
Qed.

Lemma InsertIntoBucket_spec m g k v p : dm_ok m g → key_ok k → g !! k = None → slot m k p →
  Z.of_nat (size g) < 2 ^ 28 →
  returns (InsertIntoBucket PageSize sizeof_BucketT fresh m p k v) (λ '(m', i), dm_ok m' (<[k := v]> g) ∧
    ∃ n, i = Z.of_nat n ∧ Buckets m' !! n = Some (k, v)).
Proof.
  intros Hr Hk Hg Hs Hsz. unfold InsertIntoBucket. rbind (by apply (InsertIntoBucketImpl_spec m g)).
  intros [m' i] (m1 & n & b & -> & [Hr1 Hpg1] & Hi & Hnl & Hre & Ha & Hroom & ->).
  assert (n < length (Buckets m1))%nat by (by eapply lookup_lt_Some).
  cbn [Buckets]. rewrite aset_Ok by lia. rewrite Nat2Z.id. cbn [mbind result_bind returns]. dm_simpl. split.
  - split; [apply fill_spec; auto|done].
  - exists n. split; [done|]. by apply list_lookup_insert_eq.
Qed.

Lemma try_emplace_spec m g k v : dm_ok m g → key_ok k → Z.of_nat (size g) < 2 ^ 28 →
  returns (try_emplace PageSize sizeof_BucketT fresh m k v) (λ '(m', i, inserted),
    inserted = bool_decide (g !! k = None) ∧ dm_ok m' (<[k := default v (g !! k)]> g) ∧
    ∃ n, i = Z.of_nat n ∧ Buckets m' !! n = Some (k, default v (g !! k))).
Proof.
  intros Hr Hk Hsz. pose proof (proj1 Hr) as Hr0. unfold try_emplace. eapply returns_bind; [by apply (lookup_rep m g)|]. intros [found p].
  destruct (g !! k) as [w|] eqn:Eg.
  - intros [-> (n & -> & Hn)]. cbn. split; [done|]. rewrite insert_id by done. split; [done|]. by exists n.
  - intros [-> Hs]. rbind (by apply (InsertIntoBucket_spec m g k v)). intros [m' i] [Hr' Hi]. cbn. done.
Qed.

Lemma FindAndConstruct_spec m g k : dm_ok m g → key_ok k → Z.of_nat (size g) < 2 ^ 28 →
  returns (FindAndConstruct PageSize sizeof_BucketT default_value fresh m k) (λ '(m', i),
    dm_ok m' (<[k := default default_value (g !! k)]> g) ∧
    ∃ n, i = Z.of_nat n ∧ Buckets m' !! n = Some (k, default default_value (g !! k))).
Proof.
  intros Hr Hk Hsz. pose proof (proj1 Hr) as Hr0. unfold FindAndConstruct. eapply returns_bind; [by apply (lookup_rep m g)|]. intros [found p].
  destruct (g !! k) as [w|] eqn:Eg.
  - intros [-> (n & -> & Hn)]. cbn. rewrite insert_id by done. split; [done|]. by exists n.
  - intros [-> Hs]. by apply (InsertIntoBucket_spec m g k default_value).
Qed.

Lemma subscript_assign_spec m g k v : dm_ok m g → key_ok k → Z.of_nat (size g) < 2 ^ 28 →
  returns (subscript_assign PageSize sizeof_BucketT default_value fresh m k v) (λ m', dm_ok m' (<[k := v]> g)).
Proof.
  intros Hr Hk Hsz. unfold subscript_assign. rbind (by apply (FindAndConstruct_spec m g k)).
  intros [m' i] ([Hr' Hpg'] & n & -> & Hn). rewrite (aget_lookup _ _ _ Hn). cbn [mbind result_bind].
  assert (n < length (Buckets m'))%nat by (by eapply lookup_lt_Some).
  rewrite aset_Ok by lia. cbn [mbind result_bind returns]. rewrite Nat2Z.id. dm_simpl.
  pose proof (set_value_spec m' _ n _ v Hr' Hn Hk) as Hf. cbn [fst] in Hf.
  rewrite insert_insert_eq in Hf. by split.
Qed.

(** *** Reserving and copying *)
Lemma getMinBucketToReserveForEntries_spec n : 0 ≤ n < 2 ^ 28 →
  returns (getMinBucketToReserveForEntries n) (λ r, n = 0 ∧ r = 0 ∨ ∃ e, 0 ≤ e ≤ 29 ∧ r = 2 ^ e ∧ n * 4 < r * 3).
Proof.
  intros Hn. unfold getMinBucketToReserveForEntries. destruct (Z.eqb_spec n 0) as [->|Hne]; [by left|].
  pose proof (Z.div_mod (n * 4) 3 ltac:(lia)). pose proof (Z.mod_pos_bound (n * 4) 3 ltac:(lia)).
  rewrite (cast_id 32 (n * 4)), (cast_id 32 (_ / 3 + 1)), cast_id by lia.
  rbind (apply (returns_RoundUpToPowerOfTwo _ 29); lia). intros r (e & He & -> & Hle). cbn. right. exists e.
  assert (2 ^ e ≤ 2 ^ 29) by (apply Z.pow_le_mono_r; lia). rewrite cast_id by lia. split; [done|]. split; [done|]. lia.
Qed.

Lemma dm_reserve_spec m g n : dm_ok m g → 0 ≤ n < 2 ^ 28 →
  returns (dm_reserve PageSize sizeof_BucketT fresh m n) (λ m', dm_ok m' g ∧ (n = 0 ∨ n * 4 < NumBuckets m' * 3)).
Proof.
  intros [Hr Hp] Hn. unfold dm_reserve. rbind (by apply getMinBucketToReserveForEntries_spec). intros r Hspec.
  destruct (Z.ltb_spec (NumBuckets m) r) as [Hlt|Hge].
  - destruct Hspec as [[-> ->]|(e & He & -> & Hb)]; [destruct (num_buckets_range m g Hr); lia|].
    assert (2 ^ e ≤ 2 ^ 30) by (apply Z.pow_le_mono_r; lia). destruct (num_buckets_range m g Hr) as (? & ? & ? & ?).
    eapply returns_mono; [apply (grow_spec m g); [done|lia|lia]|]. intros m' (Hr' & _ & Hle). split; [done|]. lia.
  - cbn. split; [done|]. destruct Hspec as [[-> ->]|(e & He & -> & Hb)]; lia.
Qed.

Lemma init_spec m n : 0 ≤ n < 2 ^ 28 →
  returns (init PageSize sizeof_BucketT fresh m n) (λ m', dm_ok m' ∅ ∧ (n = 0 ∨ n * 4 < NumBuckets m' * 3)).
Proof.
  intros Hn. unfold init. rbind (by apply getMinBucketToReserveForEntries_spec). intros r [[-> ->]|(e & He & -> & Hb)].
  - cbn. split; [|by left]. split; [|by left]. apply blank_rep; [constructor|done|by left].
  - rbind (apply (allocateBuckets_spec m e); lia). intros [m1 ok] (-> & _ & _ & El & e' & He' & En & _ & Hp).
    eapply returns_mono; [apply (initEmpty_spec m1 e'); [lia|done|done]|]. intros m' (Hr & En' & _).
    assert (2 ^ e ≤ 2 ^ e') by (apply Z.pow_le_mono_r; lia). split; [split; [done|]|]; rewrite ?En', ?En; [right; lia|lia].
Qed.

(** Copying bucket by bucket; a free bucket may keep another value. *)
Definition same_bucket b b' : Prop := b.1 = b'.1 ∧ (live b' → b = b').

Lemma copy_loop (trivial : bool) bs obs : length bs = length obs →
  returns (if trivial then
      for_range 0 (Z.of_nat (length obs)) (λ i bs, b ← aget obs i; aset bs i b) bs
    else
      for_range 0 (Z.of_nat (length obs)) (λ i bs,
        o ← aget obs i; b ← aget bs i; aset bs i (o.1, if occupied o then o.2 else b.2)) bs)
    (λ bs', Forall2 same_bucket bs' obs).
Proof.
  intros Hl. set (P := λ (i : Z) bs', length bs' = length obs ∧
    ∀ j b o, Z.of_nat j < i → bs' !! j = Some b → obs !! j = Some o → same_bucket b o).
  assert (∀ i bs' o b2, P i bs' → 0 ≤ i < Z.of_nat (length obs) → obs !! Z.to_nat i = Some o → same_bucket b2 o →
    P (i + 1) (<[Z.to_nat i := b2]> bs')) as Hstep.
  { intros i bs' o b2 [Hl' Hb] Hi Ho Hs. split; [by rewrite length_insert|]. intros j b o' Hj.
    rewrite list_lookup_insert. gdecide as [[Ej _]|Hd]; [intros [= <-] Ho'; rewrite Ej in Ho; by simplify_eq|].
    intros ? ?. apply (Hb j); [lia|done..]. }
  assert (∀ bs', P (Z.of_nat (length obs)) bs' → Forall2 same_bucket bs' obs) as Hend.
  { intros bs' [Hl' Hb]. apply Forall2_same_length_lookup. split; [done|]. intros j b o Hj Ho.
    apply (Hb j); [|done..]. apply lookup_lt_Some in Hj. lia. }
  assert (P 0 bs) as H00 by (split; [done|lia]).
  destruct trivial; (eapply returns_mono; [apply (returns_for_range P); [lia|done|]|done]);
    intros i bs' Hi HP; pose proof (proj1 HP); (eapply returns_bind; [apply returns_aget; [lia|]; intros o Ho; exact Ho|]); cbn beta; intros o Ho.
  - apply returns_aset; [lia|]. by apply (Hstep i bs' o).
  - eapply returns_bind; [apply returns_aget; [lia|]; intros b Hb; exact Hb|]. cbn beta. intros b Hb.
    apply returns_aset; [lia|]. apply (Hstep i bs' o); [done..|]. split; [done|]. intros Hlo.
    rewrite occupied_spec, bool_decide_eq_true_2 by done. by destruct o.
Qed.

Lemma rep_same_buckets m g bs : dm_rep m g → Forall2 same_bucket bs (Buckets m) →
  dm_rep (mkDM bs (NumEntries m) (NumTombstones m) (NumBuckets m)) g.
Proof.
  intros [Hw Hg] Hs. rewrite Forall2_same_length_lookup in Hs. destruct Hs as [Hl Hs].
  assert (∀ i b, bs !! i = Some b → ∃ o, Buckets m !! i = Some o ∧ same_bucket b o) as Hto.
  { intros i b Hi. destruct (lookup_lt_is_Some_2 (Buckets m) i) as [o Ho]; [apply lookup_lt_Some in Hi; lia|]. eauto. }
  assert (∀ i o, Buckets m !! i = Some o → ∃ b, bs !! i = Some b ∧ same_bucket b o) as Hof.
  { intros i o Hi. destruct (lookup_lt_is_Some_2 bs i) as [b Hb]; [apply lookup_lt_Some in Hi; lia|]. eauto. }
  assert (∀ (P : K * V → Prop) `{∀ b, Decision (P b)}, (∀ b o, b.1 = o.1 → P b ↔ P o) → count_of P bs = count_of P (Buckets m)) as Hc.
  { intros P ? HP. clear -Hl Hs HP. revert Hl Hs. generalize (Buckets m). induction bs as [|b l IH]; intros [|o os] Hl Hs; [done..|].
    rewrite !count_cons. simpl in Hl. rewrite (IH os); [|lia|intros i b' o' ? ?; by apply (Hs (S i))].
    destruct (Hs 0%nat b o) as [E1 _]; [done..|]. specialize (HP b o E1). destruct (decide (P b)), (decide (P o)); tauto || lia. }
  split; [split; cbn [Buckets NumBuckets NumEntries NumTombstones]|].
  - rewrite Hl. apply Hw.
  - apply Hw.
  - rewrite Hc; [apply Hw|]. unfold live. by intros ? ? ->.
  - rewrite Hc; [apply Hw|]. unfold tomb. by intros ? ? ->.
  - apply Hw.
  - intros i j b b' (o & Ho & Eo & _)%Hto (o' & Ho' & Eo' & _)%Hto Hlb Ek. unfold live in *.
    apply (wf_unique m Hw i j o o'); [done|done|unfold live; congruence|congruence].
  - intros i b (o & Ho & Eo & _)%Hto Hlb. unfold live in Hlb. rewrite Eo in *. eapply reach_mono; [|by apply (wf_reach m Hw i o)].
    intros j bj Hj HE. destruct (Hof j bj Hj) as (b' & Hb' & E' & _). exists b'. split; [done|congruence].
  - intros k v. rewrite Hg. cbn. rewrite !list_elem_of_lookup. split; intros [Hk [i Hi]]; (split; [done|]); exists i.
    + destruct (Hof i _ Hi) as (b & Hb & _ & Hlb). by rewrite Hb, Hlb.
    + destruct (Hto i _ Hi) as (o & Ho & Eo & Hlo). rewrite Ho. f_equal. symmetry. apply Hlo. unfold live. by rewrite <- Eo.
Qed.

Lemma copyFrom_spec trivial m other g : dm_ok other g →
  returns (copyFrom PageSize sizeof_BucketT fresh trivial m other) (λ m', dm_ok m' g).
Proof.
  intros [Hr Hp]. unfold copyFrom. destruct (wf_pow other (rep_wf _ _ Hr)) as [E0|(e & He & Ee)].
  - rewrite E0. cbn. split; [|by left]. destruct (num_buckets_range other g Hr) as (_ & ? & ? & ?).
    pose proof (rep_size other g Hr). assert (g = ∅) as -> by (apply map_size_empty_inv; lia).
    apply blank_rep; [constructor|done|by left].
  - rewrite Ee. rbind (by apply allocateBuckets_spec). intros [m1 ok] (-> & _ & _ & El & e' & He' & En & Hsame & _).
    assert (0 < 2 ^ e) by lia. rewrite Hsame in En by (destruct Hp; [lia|congruence]). unfold base_copyFrom. rewrite En, Ee, Z.eqb_refl.
    cbn [CHECK mbind result_bind]. dm_simpl. pose proof (wf_len other (rep_wf _ _ Hr)) as Hlo.
    assert (length (Buckets m1) = length (Buckets other)) as Hlen by lia.
    rewrite En, <- Ee, Hlo. rbind (by apply copy_loop). intros bs Hbs. cbn [returns]. rewrite <- Hlo.
    destruct (num_buckets_range other g Hr) as (? & ? & ? & ?). rewrite !cast_id by lia.
    split; [by apply rep_same_buckets|done].
Qed.

(** ** Refinement: sequences of operations *)
Inductive dmop :=
  | OpFind (k : K) | OpLookup (k : K) | OpCount (k : K)
  | OpEmplace (k : K) (v : V) | OpAssign (k : K) (v : V) | OpErase (k : K)
  | OpClear (trivial : bool) | OpReserve (n : Z) | OpCopy (trivial : bool) | OpSize | OpEmpty.

Inductive dmout := OutUnit | OutBool (b : bool) | OutNum (n : Z) | OutVal (v : option V).

(** The value a bucket pointer leads to. *)
Definition value_at m (p : option Z) : result (option V) :=
  match p with None => Ok None | Some i => b ← aget (Buckets m) i; Ok (Some b.2) end.

Definition dm_exec m (op : dmop) : result (DenseMap K V * dmout) :=
  match op with
  | OpFind k => p ← dm_find m k; v ← value_at m p; Ok (m, OutVal v)
  | OpLookup k => v ← dm_lookup default_value m k; Ok (m, OutVal (Some v))
  | OpCount k => c ← dm_count m k; Ok (m, OutNum c)
  | OpEmplace k v => '(m, _, b) ← try_emplace PageSize sizeof_BucketT fresh m k v; Ok (m, OutBool b)
  | OpAssign k v => m ← subscript_assign PageSize sizeof_BucketT default_value fresh m k v; Ok (m, OutUnit)
  | OpErase k => '(m, b) ← dm_erase m k; Ok (m, OutBool b)
  | OpClear trivial => m ← dm_clear trivial m; Ok (m, OutUnit)
  | OpReserve n => m ← dm_reserve PageSize sizeof_BucketT fresh m n; Ok (m, OutUnit)
  | OpCopy trivial => m ← copy_DenseMap PageSize sizeof_BucketT fresh trivial m; Ok (m, OutUnit)
  | OpSize => Ok (m, OutNum (dm_size m))
  | OpEmpty => Ok (m, OutBool (dm_empty m))
  end.

Fixpoint dm_run m (ops : list dmop) : result (list dmout) :=
  match ops with
  | [] => Ok []
  | op :: ops => '(m, o) ← dm_exec m op; os ← dm_run m ops; Ok (o :: os)
  end.

(** The same operations on a finite map; [None] where an operation is not allowed: a
    reserved key, or a map with [2^28] entries that is to grow. *)
Definition ref_exec (g : gmap K V) (op : dmop) : option (gmap K V * dmout) :=
  match op with
  | OpFind k => guard (key_ok k);; Some (g, OutVal (g !! k))
  | OpLookup k => guard (key_ok k);; Some (g, OutVal (Some (default default_value (g !! k))))
  | OpCount k => guard (key_ok k);; Some (g, OutNum (if g !! k then 1 else 0))
  | OpEmplace k v => guard (key_ok k ∧ Z.of_nat (size g) < 2 ^ 28);;
      Some (<[k := default v (g !! k)]> g, OutBool (bool_decide (g !! k = None)))
  | OpAssign k v => guard (key_ok k ∧ Z.of_nat (size g) < 2 ^ 28);; Some (<[k := v]> g, OutUnit)
  | OpErase k => guard (key_ok k);; Some (delete k g, OutBool (bool_decide (is_Some (g !! k))))
  | OpClear _ => Some (∅, OutUnit)
  | OpReserve n => guard (0 ≤ n < 2 ^ 28);; Some (g, OutUnit)
  | OpCopy _ => Some (g, OutUnit)
  | OpSize => Some (g, OutNum (Z.of_nat (size g)))
  | OpEmpty => Some (g, OutBool (bool_decide (g = ∅)))
  end.

Fixpoint ref_run_map (g : gmap K V) (ops : list dmop) : option (list dmout) :=
  match ops with
  | [] => Some []
  | op :: ops => '(g, o) ← ref_exec g op; os ← ref_run_map g ops; Some (o :: os)
  end.

Lemma dm_exec_sim m g op g' o : dm_ok m g → ref_exec g op = Some (g', o) →
  returns (dm_exec m op) (λ '(m', o'), dm_ok m' g' ∧ o' = o).
Proof.
  intros Hr. pose proof (proj1 Hr) as Hr0. destruct op; cbn [ref_exec dm_exec]; intros Href;
    try (apply bind_Some in Href as (HG & _ & Href)); simplify_eq.
  - rbind (by apply (dm_find_spec m g')). intros p. destruct (g' !! k) as [v|]; [|intros ->; done].
    intros (n & -> & Hn). cbn. by rewrite (aget_lookup _ _ _ Hn).
  - rbind (by apply (dm_lookup_spec default_value m g')). by intros v ->.
  - rbind (by apply (dm_count_spec m g')). by intros c ->.
  - destruct HG as [Hk Hs]. rbind (by apply (try_emplace_spec m g)). intros [[m' i] b] (-> & Hr' & _). done.
  - destruct HG as [Hk Hs]. rbind (by apply (subscript_assign_spec m g)). intros m' Hr'. done.
  - rbind (by apply (dm_erase_spec m g)). intros [m' b] (Hr' & En & ->). split; [|done]. split; [done|].
    unfold paged. rewrite En. apply Hr.
  - rbind (by apply (dm_clear_spec trivial m g)). intros m' (Hr' & En). split; [|done]. split; [done|].
    unfold paged. rewrite En. apply Hr.
  - rbind (by apply (dm_reserve_spec m g')). intros m' [Hr' _]. done.
  - eapply returns_bind; [|by intros m' Hm'; split; [exact Hm'|]].
    unfold copy_DenseMap. rbind (by apply init_spec). intros m' _. by apply (copyFrom_spec trivial m' m g').
  - cbn. split; [done|]. unfold dm_size. by rewrite (rep_size m g' Hr0).
  - cbn. split; [done|]. unfold dm_empty. rewrite (rep_size m g' Hr0). f_equal.
    destruct (Z.eqb_spec (Z.of_nat (size g')) 0) as [E0|E0].
    + rewrite bool_decide_eq_true_2; [done|]. apply map_size_empty_inv. lia.
    + rewrite bool_decide_eq_false_2; [done|]. intros ->. by rewrite map_size_empty in E0.
Qed.

Lemma dm_run_sim m g ops outs : dm_ok m g → ref_run_map g ops = Some outs → dm_run m ops = Ok outs.
Proof.
  revert m g outs. induction ops as [|op ops IH]; intros m g outs Hr; cbn [ref_run_map dm_run]; [by intros [= <-]|].
  intros ([g' o] & Hex & Href)%bind_Some. apply bind_Some in Href as (os & Hos & [= <-]).
  pose proof (dm_exec_sim m g op g' o Hr Hex) as Hs. destruct (dm_exec m op) as [[m' o']|]; [|done].
  destruct Hs as [Hr' ->]. cbn. by rewrite (IH m' g' os Hr' Hos).
Qed.

Lemma new_ok : dm_ok new_DenseMap ∅.
Proof. split; [|by left]. apply blank_rep; [constructor|done|by left]. Qed.

(** [C3] The hash table implements a finite map: every sequence of operations, with
    keys other than the two reserved ones and fewer than [2^28] entries, terminates
    without a failed [CHECK] and returns what the same operations return on a
    finite map. *)
Theorem DenseMap_refines_map ops outs : ref_run_map ∅ ops = Some outs → dm_run new_DenseMap ops = Ok outs.
Proof. apply dm_run_sim, new_ok. Qed.

(** *** The table implements the interface *)
#[export] Instance DenseMap_ops : MapOps (DenseMap K V) K V := {|
  map_new := new_DenseMap;
  map_try_emplace m k v :=
    '(m, i, inserted) ← try_emplace PageSize sizeof_BucketT fresh m k v;
    b ← aget (Buckets m) i;
    Ok (m, b.2, inserted);
  map_get m k := p ← dm_find m k; value_at m p;
  map_put m k v := subscript_assign PageSize sizeof_BucketT default_value fresh m k v;
  map_erase m k := dm_erase m k;
  map_take m k :=
    p ← dm_find m k;
    v ← value_at m p;
    match p with Some _ => m ← erase_bucket m p; Ok (m, v) | None => Ok (m, v) end;
  map_len := dm_size
|}.

#[export] Instance DenseMap_laws : MapLaws (DenseMap K V) K V.
Proof.
  apply (Build_MapLaws _ _ _ _ _ _ (2 ^ 28) key_ok dm_ok).
  - apply new_ok.
  - intros m g k v Hr Hk Hs. cbn [map_try_emplace DenseMap_ops]. rbind (by apply (try_emplace_spec m g)).
    intros [[m' i] b] (-> & Hr' & n & -> & Hn). by rewrite (aget_lookup _ _ _ Hn).
  - intros m g k [Hr _] Hk. cbn [map_get DenseMap_ops]. rbind (by apply (dm_find_spec m g)). intros p.
    destruct (g !! k) as [v|]; [|intros ->; done]. intros (n & -> & Hn). cbn. by rewrite (aget_lookup _ _ _ Hn).
  - intros m g k v Hr Hk Hs. by apply subscript_assign_spec.
  - intros m g k [Hr Hp] Hk. cbn [map_erase DenseMap_ops]. eapply returns_mono; [by apply (dm_erase_spec m g k)|].
    intros [m' r] (Hr' & En & ->). split; [split; [done|unfold paged in *; by rewrite En]|done].
  - intros m g k [Hr Hp] Hk. cbn [map_take DenseMap_ops]. rbind (by apply (dm_find_spec m g)). intros p.
    destruct (g !! k) as [v|] eqn:Eg; [intros (n & -> & Hn)|intros ->; cbn; split; [by rewrite delete_id|done]].
    cbn [value_at]. rewrite (aget_lookup _ _ _ Hn). cbn [mbind result_bind]. rbind (by apply (erase_bucket_spec m g n k v)).
    intros m' [Hr' En]. split; [split; [done|unfold paged in *; by rewrite En]|done].
  - intros m g [Hr _]. by apply rep_size.
Defined.

End Platform.

End Facts.

(** ** Concrete instances: a table from [unsigned] to [unsigned], 4 kB pages *)
#[local] Existing Instance Info_unsigned.
#[local] Existing Instance Info_unsigned_laws.

Definition demo_ops : list (dmop (K:=Z) (V:=Z)) :=
  [OpEmplace 3 30; OpEmplace 3 31; OpFind 3; OpAssign 515 7; OpErase 3; OpFind 3; OpCount 515; OpReserve 1000;
   OpCopy true; OpLookup 515; OpLookup 9; OpSize; OpClear false; OpEmpty].
Definition demo_outs : list (dmout (V:=Z)) :=
  [OutBool true; OutBool false; OutVal (Some 30); OutUnit; OutBool true; OutVal None; OutNum 1; OutUnit;
   OutUnit; OutVal (Some 7); OutVal (Some 0); OutNum 1; OutUnit; OutBool true].

Lemma page4k : ∃ p, 12 ≤ p ≤ 16 ∧ 4096 = 2 ^ p.
Proof. by exists 12. Qed.

Lemma DenseMap_refines_map_witness : dm_run 4096 8 0 (0, 0) new_DenseMap demo_ops = Ok demo_outs.
Proof. apply (DenseMap_refines_map 4096 8 0 (0, 0) page4k ltac:(lia) demo_ops demo_outs). vm_compute. reflexivity. Defined.

Definition demo_map : DenseMap Z Z :=
  from_result new_DenseMap (fst <$> (fst <$> try_emplace 4096 8 (0, 0) new_DenseMap 5 50)).

Lemma demo_map_rep : dm_rep demo_map {[5 := 50]}.
Proof.
  apply (returns_from_result _ _ (λ m, dm_rep m {[5 := 50]})).
  pose proof (try_emplace_spec 4096 8 (0, 0) page4k ltac:(lia) new_DenseMap ∅ 5 50 (new_ok 4096 8)) as Ht.
  destruct (try_emplace _ _ _ _ _ _) as [[[m i] b]|]; cbn in *; apply Ht; done.
Qed.

Lemma LookupBucketFor_correct_witness :
  returns (LookupBucketFor demo_map 5) (λ '(found, p),
    match ({[5 := 50]} : gmap Z Z) !! 5 with
    | Some v => found = true ∧ ∃ i, p = Some (Z.of_nat i) ∧ Buckets demo_map !! i = Some (5, v)
    | None => found = false ∧ slot demo_map 5 p
    end).
Proof. apply (LookupBucketFor_correct demo_map {[5 := 50]} 5); [apply demo_map_rep|done]. Defined.

Lemma forEach_eq_correct_witness :
  (∀ St (fn : Z * Z → St → result (St * bool)) s, ∃ l, l ≡ₚ map_to_list ({[5 := 50]} : gmap Z Z) ∧
    forEach demo_map fn s = visit l fn s) ∧
  returns (dm_eq Z.eqb demo_map new_DenseMap) (λ r, r = true ↔ ({[5 := 50]} : gmap Z Z) = ∅).
Proof.
  apply (forEach_eq_correct demo_map new_DenseMap {[5 := 50]} ∅ Z.eqb);
    [apply demo_map_rep|apply (new_ok 4096 8)|intros; apply Z.eqb_eq].
Defined.

End DM.
