(* ===== verification/Sort.v ===== *)
(** * Sort: heap sort, binary search and deduplication

    Models [Sort], [InternalLowerBound] and [SortAndDedup] of [sanitizer_common.h].
    The array is a list, the comparison a parameter.  [Sort] is proved to return a
    sorted permutation for every strict weak order, [InternalLowerBound] to find
    the first element that is not less, [SortAndDedup] to leave one element of each
    equivalence class, in order. *)
From S2P Require Import Prelude Common.
From Stdlib Require Import ZifyNat.

Module Sorting.

Definition CompareLess (a b : Z) : bool := a <? b.

Section Ops.
Context {A : Type} (comp : A → A → bool).
Implicit Types (v : list A).

(** [for (j = i; j > 0; j = p)]: the new element rises to its place. *)
Fixpoint sift_up (fuel : nat) v (j : Z) : result (list A) :=
  if 0 <? j then
    match fuel with
    | O => Fault OutOfFuel
    | S fuel =>
        let p := (j - 1) / 2 in
        vp ← aget v p;
        vj ← aget v j;
        if comp vp vj then v ← aswap v j p; sift_up fuel v p
        else Ok v
    end
  else Ok v.

(** [for (j = 0; j < i; j = max_ind)]: the new top sinks. *)
Fixpoint sift_down (fuel : nat) v (i j : Z) : result (list A) :=
  if j <? i then
    match fuel with
    | O => Fault OutOfFuel
    | S fuel =>
        let left := u64 (2 * j + 1) in
        let right := u64 (2 * j + 2) in
        max_ind ← (if left <? i then
                     vm ← aget v j; vl ← aget v left;
                     Ok (if comp vm vl then left else j)
                   else Ok j);
        max_ind ← (if right <? i then
                     vm ← aget v max_ind; vr ← aget v right;
                     Ok (if comp vm vr then right else max_ind)
                   else Ok max_ind);
        if negb (max_ind =? j) then v ← aswap v j max_ind; sift_down fuel v i max_ind
        else Ok v
    end
  else Ok v.

Definition Sort v (size : Z) : result (list A) :=
  if size <? 2 then Ok v
  else
    v ← for_range 1 size (λ i v, sift_up (Z.to_nat i) v i) v;
    for_down (Z.to_nat (size - 1)) (λ n v,
      let i := n + 1 in
      v ← aswap v 0 i;
      sift_down (Z.to_nat i) v i 0) v.

(** [T] need not be the element type: [compv x] is [comp(x, val)]. *)
Fixpoint lower_bound_loop (fuel : nat) (compv : A → bool) v (first last : Z) : result Z :=
  if first <? last then
    match fuel with
    | O => Fault OutOfFuel
    | S fuel =>
        let mid := u64 (first + last) / 2 in
        CHECK (mid <? Z.of_nat (length v));;
        x ← aget v mid;
        if compv x then lower_bound_loop fuel compv v (mid + 1) last
        else lower_bound_loop fuel compv v first mid
    end
  else Ok first.

Definition InternalLowerBound (compv : A → bool) v : result Z :=
  lower_bound_loop (length v) compv v 0 (Z.of_nat (length v)).

(** One iteration of the loop of [SortAndDedup]. *)
Definition dedup_step (i : Z) (s : list A * Z) : result (list A * Z) :=
  let '(v, last) := s in
  vl ← aget v last;
  vi ← aget v i;
  if comp vl vi then
    let last := last + 1 in
    v ← (if negb (last =? i) then aset v last vi else Ok v);
    Ok (v, last)
  else
    CHECK (negb (comp vi vl));;
    Ok (v, last).

Definition SortAndDedup v : result (list A) :=
  let size := Z.of_nat (length v) in
  v ← Sort v size;
  if size <? 2 then Ok v
  else
    '(v, last) ← for_range 1 size dedup_step (v, 0);
    Ok (take (Z.to_nat (last + 1)) v).

End Ops.

(** ** Orders *)
Class StrictWeak {A} (comp : A → A → bool) : Prop := {
  comp_asym a b : comp a b = true → comp b a = false;
  comp_negtrans a b c : comp a b = false → comp b c = false → comp a c = false
}.

#[export] Instance CompareLess_weak : StrictWeak CompareLess.
Proof. unfold CompareLess. split; intros; bool_prop; lia. Qed.

Section Facts.
Context {A : Type} `{Inhabited A} (comp : A → A → bool) `{!StrictWeak comp}.
Implicit Types (v : list A).

(** [a] is not less than [b]. *)
Definition ge (a b : A) : Prop := comp a b = false.

Lemma ge_refl a : ge a a.
Proof. unfold ge. destruct (comp a a) eqn:E; [|done]. pose proof (comp_asym a a E). congruence. Qed.
Lemma ge_trans a b c : ge a b → ge b c → ge a c.
Proof. apply comp_negtrans. Qed.
Lemma ge_lt a b : comp a b = true → ge b a.
Proof. apply comp_asym. Qed.
Lemma ge_total a b : ge a b ∨ ge b a.
Proof. destruct (comp a b) eqn:E; [right; by apply ge_lt|by left]. Qed.

(** ** Swapping *)
Lemma aget_nth v (j : nat) : (j < length v)%nat → aget v (Z.of_nat j) = Ok (v !!! j).
Proof. intros Hj. apply aget_lookup. by apply list_lookup_lookup_total_lt. Qed.

Lemma aswap_total v (i j : nat) : (i < length v)%nat → (j < length v)%nat →
  returns (aswap v (Z.of_nat i) (Z.of_nat j)) (λ v', v' ≡ₚ v ∧ length v' = length v ∧
    ∀ k, v' !!! k = if decide (k = i) then v !!! j else if decide (k = j) then v !!! i else v !!! k).
Proof.
  intros Hi Hj. unfold aswap. rewrite !aget_nth by done. cbn [mbind result_bind].
  rewrite aset_Ok by lia. cbn [mbind result_bind]. rewrite aset_Ok by (rewrite length_insert; lia). rewrite !Nat2Z.id.
  cbn [returns]. split; [|split; [by rewrite !length_insert|]].
  - apply Permutation_insert_swap; by apply list_lookup_lookup_total_lt.
  - intros k. destruct (decide (k = i)) as [->|Hki].
    + destruct (decide (i = j)) as [->|Hne]; [rewrite list_lookup_total_insert_eq by (rewrite length_insert; lia); done|].
      rewrite list_lookup_total_insert_ne, list_lookup_total_insert_eq by done. done.
    + destruct (decide (k = j)) as [->|Hkj]; [by rewrite list_lookup_total_insert_eq by (rewrite length_insert; lia)|].
      by rewrite !list_lookup_total_insert_ne by done.
Qed.

(** ** Heaps

    The parent of [k > 0] in the implicit tree; [heap_on n v]: in the first [n]
    elements no child is greater than its parent. *)
Notation parent k := ((k - 1) / 2)%nat.
Definition heap_on (n : nat) v : Prop := ∀ k, (0 < k < n)%nat → ge (v !!! parent k) (v !!! k).

(** [v] is a heap up to [i], except that [v[j]] may be greater than its parent. *)
Definition rising (i j : nat) v : Prop :=
  (∀ k, (0 < k ≤ i)%nat → k ≠ j → ge (v !!! parent k) (v !!! k)) ∧
  (∀ k, (0 < j)%nat → (0 < k ≤ i)%nat → parent k = j → ge (v !!! parent j) (v !!! k)).

Lemma rising_swap i j v v' : (0 < j ≤ i)%nat → rising i j v → comp (v !!! parent j) (v !!! j) = true →
  (∀ k, v' !!! k = if decide (k = j) then v !!! parent j else if decide (k = parent j) then v !!! j else v !!! k) →
  rising i (parent j) v'.
Proof.
  intros Hj [H1 H2] Hc Hv. apply ge_lt in Hc. assert (parent j < j)%nat by lia. split.
  - intros k Hk Hkp. rewrite !Hv. destruct (decide (k = j)) as [->|Hkj].
    + rewrite (decide_False (P:=parent j = j)), decide_True by lia. done.
    + rewrite (decide_False (P:=k = parent j)) by done. specialize (H1 k Hk Hkj).
      destruct (decide (parent k = j)) as [Ej|Nj]; [apply H2; lia|].
      destruct (decide (parent k = parent j)) as [Ep|Np]; [|done]. rewrite Ep in H1. by eapply ge_trans.
  - intros k Hp Hk Ek. rewrite !Hv. rewrite (decide_False (P:=parent (parent j) = j)), (decide_False (P:=parent (parent j) = parent j)) by lia.
    assert (ge (v !!! parent (parent j)) (v !!! parent j)) as Hpp by (apply H1; lia).
    destruct (decide (k = j)) as [->|Hkj]; [done|]. rewrite decide_False by lia.
    eapply ge_trans; [exact Hpp|]. rewrite <- Ek. apply H1; lia.
Qed.

Lemma parent_Z (j : nat) : (0 < j)%nat → (Z.of_nat j - 1) / 2 = Z.of_nat (parent j).
Proof. lia. Qed.

Lemma sift_up_spec fuel i j v : (j ≤ fuel)%nat → (j ≤ i < length v)%nat → rising i j v →
  returns (sift_up comp fuel v (Z.of_nat j)) (λ v', v' ≡ₚ v ∧ length v' = length v ∧ heap_on (S i) v').
Proof.
  revert j v. induction fuel as [|fuel IH]; intros j v Hf Hj Hr; cbn [sift_up];
    destruct (Z.ltb_spec 0 (Z.of_nat j)) as [Hpos|Hz]; [lia| | |].
  1, 3: split; [done|]; split; [done|]; intros k Hk; apply Hr; lia.
  rewrite parent_Z, !aget_nth by lia. cbn [mbind result_bind].
  destruct (comp _ _) eqn:Ec.
  - rbind (apply aswap_total; lia). intros v' (Hp & Hl & Hv).
    eapply returns_mono; [apply (IH (parent j) v'); [lia|lia|apply (rising_swap i j v); [lia|done..]]|].
    intros v2 (Hp2 & Hl2 & Hh). split; [by rewrite Hp2|]. split; [lia|done].
  - split; [done|]. split; [done|]. intros k Hk. destruct (decide (k = j)) as [->|]; [done|]. apply Hr; lia.
Qed.

(** [v] is a heap of [i] elements, except that [v[j]] may be less than its children. *)
Definition sinking (i j : nat) v : Prop :=
  (∀ k, (0 < k < i)%nat → parent k ≠ j → ge (v !!! parent k) (v !!! k)) ∧
  (∀ k, (0 < j)%nat → (0 < k < i)%nat → parent k = j → ge (v !!! parent j) (v !!! k)).

Lemma sinking_swap i j m v v' : (j < i)%nat → (m < i)%nat → (0 < m)%nat → parent m = j → sinking i j v →
  comp (v !!! j) (v !!! m) = true → (∀ k, (0 < k < i)%nat → parent k = j → ge (v !!! m) (v !!! k)) →
  (∀ k, v' !!! k = if decide (k = j) then v !!! m else if decide (k = m) then v !!! j else v !!! k) →
  sinking i m v'.
Proof.
  intros Hj Hm H0 Hpm [H1 H2] Hc Hmax Hv. apply ge_lt in Hc. assert (j < m)%nat by lia. split.
  - intros k Hk Hkp. rewrite !Hv. rewrite (decide_False (P:=parent k = m)) by done.
    destruct (decide (k = j)) as [->|Hkj].
    + rewrite decide_False by lia. rewrite <- Hpm at 1. rewrite <- Hpm in Hk. rewrite Hpm. apply H2; lia.
    + destruct (decide (parent k = j)) as [Ej|Nj].
      * destruct (decide (k = m)); [done|]. by apply Hmax.
      * rewrite decide_False by (intros ->; done). by apply H1.
  - intros k Hm0 Hk Ek. rewrite !Hv, Hpm, decide_True by done. rewrite decide_False, decide_False by lia.
    rewrite <- Ek. apply H1; lia.
Qed.

Lemma comp_trans a b c : comp a b = true → comp b c = true → comp a c = true.
Proof.
  intros Hab Hbc. destruct (comp a c) eqn:Eac; [done|]. apply ge_lt in Hbc.
  pose proof (ge_trans a c b Eac Hbc) as Hge. unfold ge in Hge. congruence.
Qed.

(** The greatest of [v[j]] and its children, as the loop of stage 2 finds it. *)
Lemma max_child i j v : (j < i ≤ length v)%nat → 2 * Z.of_nat i + 2 < 2 ^ 64 →
  returns (max_ind ← (if u64 (2 * Z.of_nat j + 1) <? Z.of_nat i then
               vm ← aget v (Z.of_nat j); vl ← aget v (u64 (2 * Z.of_nat j + 1));
               Ok (if comp vm vl then u64 (2 * Z.of_nat j + 1) else Z.of_nat j)
             else Ok (Z.of_nat j));
           if u64 (2 * Z.of_nat j + 2) <? Z.of_nat i then
             vm ← aget v max_ind; vr ← aget v (u64 (2 * Z.of_nat j + 2));
             Ok (if comp vm vr then u64 (2 * Z.of_nat j + 2) else max_ind)
           else Ok max_ind)
    (λ r, ∃ m, r = Z.of_nat m ∧ (m < i)%nat ∧ (∀ k, (0 < k < i)%nat → parent k = j → ge (v !!! m) (v !!! k)) ∧
      (m = j ∨ (0 < m)%nat ∧ parent m = j ∧ comp (v !!! j) (v !!! m) = true)).
Proof.
  intros Hj Hi. rewrite !cast_id by lia.
  replace (2 * Z.of_nat j + 1) with (Z.of_nat (2 * j + 1)) by lia.
  replace (2 * Z.of_nat j + 2) with (Z.of_nat (2 * j + 2)) by lia.
  apply (returns_bind _ _ (λ r, ∃ m, r = Z.of_nat m ∧ (m < i)%nat ∧ ge (v !!! m) (v !!! j) ∧
    ((2 * j + 1 < i)%nat → ge (v !!! m) (v !!! (2 * j + 1)%nat)) ∧
    (m = j ∨ m = (2 * j + 1)%nat ∧ comp (v !!! j) (v !!! m) = true))).
  - destruct (Z.ltb_spec (Z.of_nat (2 * j + 1)) (Z.of_nat i)).
    + rewrite !aget_nth by lia. cbn [mbind result_bind returns]. destruct (comp _ _) eqn:Ec.
      * exists (2 * j + 1)%nat. split; [done|]. split; [lia|]. split; [by apply ge_lt|]. split; [intros _; apply ge_refl|by right].
      * exists j. split; [done|]. split; [lia|]. split; [apply ge_refl|]. split; [done|by left].
    + exists j. split; [done|]. split; [lia|]. split; [apply ge_refl|]. split; [lia|by left].
  - intros r (m & -> & Hm & Hmj & Hml & Hcase).
    assert (∀ k, (0 < k < i)%nat → parent k = j → k = 2 * j + 1 ∨ k = 2 * j + 2)%nat as Hch by (intros; lia).
    destruct (Z.ltb_spec (Z.of_nat (2 * j + 2)) (Z.of_nat i)) as [Hr|Hr].
    + rewrite !aget_nth by lia. cbn [mbind result_bind returns]. destruct (comp (v !!! m) (v !!! (2 * j + 2)%nat)) eqn:Ec.
      * exists (2 * j + 2)%nat. split; [done|]. split; [lia|]. apply ge_lt in Ec as Eg. split.
        -- intros k Hk Ek. destruct (Hch k Hk Ek) as [->| ->]; [|apply ge_refl]. eapply ge_trans; [exact Eg|]. apply Hml. lia.
        -- right. split; [lia|]. split; [lia|]. destruct Hcase as [->|[-> Hc]]; [done|]. by eapply comp_trans.
      * exists m. split; [done|]. split; [done|]. split; [|destruct Hcase as [->|[-> Hc]]; [by left|right; split; [lia|split; [lia|done]]]].
        intros k Hk Ek. destruct (Hch k Hk Ek) as [->| ->]; [apply Hml; lia|done].
    + exists m. split; [done|]. split; [done|]. split; [|destruct Hcase as [->|[-> Hc]]; [by left|right; split; [lia|split; [lia|done]]]].
      intros k Hk Ek. destruct (Hch k Hk Ek) as [->| ->]; [apply Hml; lia|lia].
Qed.

(** [v'] rearranges the first [i] elements of [v]. *)
Definition rearranged (i : nat) v v' : Prop :=
  v' ≡ₚ v ∧ length v' = length v ∧ (∀ k, (i ≤ k)%nat → v' !!! k = v !!! k) ∧
  ∀ k, (k < i)%nat → ∃ k', (k' < i)%nat ∧ v' !!! k = v !!! k'.

Lemma rearranged_refl i v : rearranged i v v.
Proof. split; [done|]. split; [done|]. split; [done|]. intros k Hk. by exists k. Qed.

Lemma rearranged_trans i v1 v2 v3 : rearranged i v1 v2 → rearranged i v2 v3 → rearranged i v1 v3.
Proof.
  intros (P1 & L1 & S1 & F1) (P2 & L2 & S2 & F2). split; [by rewrite P2|]. split; [lia|]. split.
  - intros k Hk. by rewrite S2, S1.
  - intros k Hk. destruct (F2 k Hk) as (k2 & H2 & ->). by apply F1.
Qed.

Lemma sift_down_spec fuel i j v : (i - j ≤ fuel)%nat → (j < i ≤ length v)%nat → 2 * Z.of_nat i + 2 < 2 ^ 64 →
  sinking i j v →
  returns (sift_down comp fuel v (Z.of_nat i) (Z.of_nat j)) (λ v', rearranged i v v' ∧ heap_on i v').
Proof.
  revert j v. induction fuel as [|fuel IH]; intros j v Hf Hj Hi Hs; cbn [sift_down];
    rewrite (proj2 (Z.ltb_lt _ _)) by lia; [lia|].
  pose proof (max_child i j v Hj Hi) as Hm. match type of Hm with returns (?m ≫= ?k) _ => set (M := m) in *; set (K := k) in * end.
  destruct M as [m1|]; [|done]. cbn [mbind result_bind] in *. unfold K in Hm. destruct (if _ <? _ then _ else _) as [m2|]; [|done].
  cbn [mbind result_bind returns] in *. destruct Hm as (m & -> & Hmi & Hmax & Hcase).
  destruct (Z.eqb_spec (Z.of_nat m) (Z.of_nat j)) as [Em|Em]; cbn [negb].
  - apply Nat2Z.inj in Em as ->. split; [apply rearranged_refl|]. intros k Hk.
    destruct (decide (parent k = j)) as [Ej|]; [rewrite Ej; by apply Hmax|by apply Hs].
  - destruct Hcase as [->|(H0 & Hpm & Hc)]; [done|].
    rbind (apply aswap_total; lia). intros v' (Hp & Hl & Hv).
    eapply returns_mono; [apply (IH m v'); [lia|lia|done|by apply (sinking_swap i j m v); [lia|..]]|].
    intros v2 (Hr & Hh). split; [|done]. eapply rearranged_trans; [|exact Hr]. split; [done|]. split; [done|]. split.
    + intros k Hk. rewrite Hv, !decide_False by lia. done.
    + intros k Hk. rewrite Hv. destruct (decide (k = j)); [by exists m|]. destruct (decide (k = m)); [exists j; split; [lia|done]|by exists k].
Qed.

Lemma heap_root n v k : heap_on n v → (k < n)%nat → ge (v !!! 0%nat) (v !!! k).
Proof.
  intros Hh. induction k as [k IH] using lt_wf_ind. intros Hk. destruct (decide (k = 0%nat)) as [->|]; [apply ge_refl|].
  eapply ge_trans; [|apply (Hh k); lia]. apply IH; lia.
Qed.

(** ** [Sort] *)

(** Stage 2 before the iteration for index [n]: a heap of [n + 1] elements, and a
    sorted rest whose elements are not less than any of the heap. *)
Record stage2 (n : nat) v : Prop := {
  st_heap : heap_on (S n) v;
  st_above a b : (a ≤ n < b)%nat → (b < length v)%nat → ge (v !!! b) (v !!! a);
  st_sorted a b : (n < a ≤ b)%nat → (b < length v)%nat → ge (v !!! b) (v !!! a)
}.

Lemma stage2_step n v v1 v2 : (S n < length v)%nat → stage2 (S n) v → length v1 = length v →
  (∀ k, v1 !!! k = if decide (k = 0%nat) then v !!! S n else if decide (k = S n) then v !!! 0%nat else v !!! k) →
  rearranged (S n) v1 v2 → heap_on (S n) v2 → stage2 n v2.
Proof.
  intros Hn [Hh Ha Hs] Hl Hv (_ & Hl2 & Hsame & Hfrom) Hh2. split; [done| |].
  - intros a b Hab Hb. rewrite (Hsame b) by lia. destruct (Hfrom a ltac:(lia)) as (a' & Ha' & ->).
    assert (∃ c, (c ≤ S n)%nat ∧ v1 !!! a' = v !!! c) as (c & Hc & ->).
    { rewrite Hv. destruct (decide (a' = 0%nat)); [by exists (S n)|]. rewrite decide_False by lia. exists a'. split; [lia|done]. }
    rewrite Hv, decide_False by lia. destruct (decide (b = S n)) as [->|].
    + apply (heap_root (S (S n))); [done|lia].
    + apply Ha; lia.
  - intros a b Hab Hb. rewrite !Hsame, !Hv, !(decide_False (P:=_ = 0%nat)) by lia.
    destruct (decide (a = S n)) as [->|]; destruct (decide (b = S n)) as [->|]; [apply ge_refl|apply Ha; lia|lia|apply Hs; lia].
Qed.

Lemma sinking_swap0 n v v1 : heap_on (S (S n)) v →
  (∀ k, v1 !!! k = if decide (k = 0%nat) then v !!! S n else if decide (k = S n) then v !!! 0%nat else v !!! k) →
  sinking (S n) 0 v1.
Proof.
  intros Hh Hv. split; [|lia]. intros k Hk Hp. rewrite !Hv, !decide_False by lia. apply Hh. lia.
Qed.

Lemma Sort_spec v : Z.of_nat (length v) < 2 ^ 62 →
  returns (Sort comp v (Z.of_nat (length v))) (λ v', v' ≡ₚ v ∧
    ∀ a b, (a ≤ b < length v')%nat → ge (v' !!! b) (v' !!! a)).
Proof.
  intros Hlen. unfold Sort. destruct (Z.ltb_spec (Z.of_nat (length v)) 2) as [Hlt|Hge].
  { split; [done|]. intros a b Hab. assert (a = b) as -> by lia. apply ge_refl. }
  eapply returns_bind.
  { apply (returns_for_range (λ i v', v' ≡ₚ v ∧ length v' = length v ∧ heap_on (Z.to_nat i) v')); [lia| |].
    - split; [done|]. split; [done|]. intros k Hk. lia.
    - intros i v' Hi (Hp & Hl & Hh). rewrite <- (Z2Nat.id i) at 2 by lia.
      eapply returns_mono; [apply (sift_up_spec _ (Z.to_nat i) (Z.to_nat i) v'); [lia|lia|]|].
      + split; [intros; apply Hh; lia|intros; lia].
      + intros v2 (Hp2 & Hl2 & Hh2). split; [by rewrite Hp2|]. split; [lia|].
        by replace (Z.to_nat (i + 1)) with (S (Z.to_nat i)) by lia. }
  cbn beta. intros v1 (Hp1 & Hl1 & Hh1). rewrite Nat2Z.id in Hh1.
  eapply returns_mono; [apply (returns_for_down (λ n v', v' ≡ₚ v ∧ length v' = length v ∧ stage2 n v'))|].
  - split; [done|]. split; [done|]. split; [by replace (S _) with (length v) by lia| |]; intros; lia.
  - intros n v' Hn (Hp & Hl & Hst). replace (Z.of_nat n + 1) with (Z.of_nat (S n)) by lia.
    rbind (apply (aswap_total v' 0 (S n)); lia). intros v2 (Hp2 & Hl2 & Hv2). rewrite Nat2Z.id.
    eapply returns_mono; [apply (sift_down_spec _ (S n) 0 v2); [lia|lia|lia|]|].
    + eapply sinking_swap0; [apply Hst|done].
    + intros v3 [Hr Hh]. pose proof Hr as (Hp3 & Hl3 & _). split; [by rewrite Hp3, Hp2|]. split; [lia|].
      eapply (stage2_step n v' v2 v3); [lia|done..].
  - cbn beta. intros v' (Hp & Hl & [_ Ha Hs]). split; [done|]. intros a b Hab.
    destruct (decide (a = b)) as [->|]; [apply ge_refl|]. destruct (decide (a = 0%nat)) as [->|]; [apply Ha|apply Hs]; lia.
Qed.

(** [v] is sorted: no element is less than one before it. *)
Definition sorted v : Prop := ∀ i j x y, (i < j)%nat → v !! i = Some x → v !! j = Some y → comp y x = false.

(** [C35] [Sort] terminates with a sorted permutation of the array, for every strict
    weak order. *)
Theorem Sort_correct v : Z.of_nat (length v) < 2 ^ 62 →
  returns (Sort comp v (Z.of_nat (length v))) (λ v', v' ≡ₚ v ∧ sorted v').
Proof.
  intros Hl. eapply returns_mono; [by apply Sort_spec|]. intros v' [Hp Hs]. split; [done|].
  intros i j x y Hij Hx Hy. pose proof (lookup_lt_Some _ _ _ Hy).
  apply list_lookup_total_correct in Hx as <-, Hy as <-. apply Hs. lia.
Qed.

(** ** [InternalLowerBound] *)
Lemma lower_bound_loop_spec fuel (compv : A → bool) v (f l : nat) : (l - f ≤ fuel)%nat → (f ≤ l ≤ length v)%nat →
  2 * Z.of_nat (length v) < 2 ^ 64 →
  (∀ a b, (a ≤ b < length v)%nat → compv (v !!! b) = true → compv (v !!! a) = true) →
  (∀ a, (a < f)%nat → compv (v !!! a) = true) → (∀ a, (l ≤ a < length v)%nat → compv (v !!! a) = false) →
  returns (lower_bound_loop fuel compv v (Z.of_nat f) (Z.of_nat l)) (λ r, ∃ n, r = Z.of_nat n ∧ (n ≤ length v)%nat ∧
    (∀ a, (a < n)%nat → compv (v !!! a) = true) ∧ (∀ a, (n ≤ a < length v)%nat → compv (v !!! a) = false)).
Proof.
  intros Hf Hfl Hov Hmono. revert f l Hf Hfl. induction fuel as [|fuel IH]; intros f l Hf Hfl Hlo Hhi; cbn [lower_bound_loop];
    destruct (Z.ltb_spec (Z.of_nat f) (Z.of_nat l)); try lia.
  1, 3: assert (f = l) as <- by lia; exists f; split; [done|]; split; [lia|done].
  rewrite cast_id by lia. set (mid := ((f + l) / 2)%nat).
  assert ((Z.of_nat f + Z.of_nat l) / 2 = Z.of_nat mid) as -> by (unfold mid; lia).
  assert (f ≤ mid < l)%nat as Hmid by (unfold mid; lia).
  rewrite (proj2 (Z.ltb_lt _ _)) by lia. cbn [CHECK mbind result_bind]. rewrite aget_nth by lia. cbn [mbind result_bind].
  destruct (compv (v !!! mid)) eqn:Ec.
  - replace (Z.of_nat mid + 1) with (Z.of_nat (S mid)) by lia. apply IH; [lia|lia| |done]. intros a Ha.
    apply (Hmono a mid); [lia|done].
  - apply IH; [lia|lia|done|]. intros a Ha. destruct (compv (v !!! a)) eqn:Ea; [|done].
    rewrite (Hmono mid a) in Ec; [done|lia|done].
Qed.

(** On an array in which the elements less than the value come first,
    [InternalLowerBound] returns the index of the first element that is not less
    than it (the size, when there is none). *)
Theorem InternalLowerBound_correct (compv : A → bool) v : Z.of_nat (length v) < 2 ^ 62 →
  (∀ i j x y, (i < j)%nat → v !! i = Some x → v !! j = Some y → compv y = true → compv x = true) →
  returns (InternalLowerBound compv v) (λ r, ∃ n, r = Z.of_nat n ∧ (n ≤ length v)%nat ∧
    ∀ i x, v !! i = Some x → compv x = bool_decide (i < n)%nat).
Proof.
  intros Hl Hpart. unfold InternalLowerBound.
  eapply returns_mono; [apply (lower_bound_loop_spec _ compv v 0 (length v)); try lia|].
  - intros a b Hab Hb. destruct (decide (a = b)) as [->|]; [done|].
    eapply (Hpart a b); [lia|apply list_lookup_lookup_total_lt; lia..|done].
  - cbn beta. intros r (n & -> & Hn & Hlo & Hhi). exists n. split; [done|]. split; [done|]. intros j x Hx.
    pose proof (lookup_lt_Some _ _ _ Hx). apply list_lookup_total_correct in Hx as <-.
    case_bool_decide; [by apply Hlo|apply Hhi; lia].
Qed.

(** ** [SortAndDedup] *)
Definition equiv (x y : A) : Prop := comp x y = false ∧ comp y x = false.

(** After the elements up to [i] of the sorted array [v0]: the first [last + 1]
    elements of [v] are the representatives found so far. *)
Record deduped v0 (i last : nat) v : Prop := {
  dd_len : length v = length v0;
  dd_last : (last < i)%nat;
  dd_rest k : (i ≤ k)%nat → v !!! k = v0 !!! k;
  dd_strict a b : (a < b ≤ last)%nat → comp (v !!! a) (v !!! b) = true;
  dd_from k : (k ≤ last)%nat → ∃ k', (k' < i)%nat ∧ v !!! k = v0 !!! k';
  dd_all k : (k < i)%nat → ∃ k', (k' ≤ last)%nat ∧ equiv (v !!! k') (v0 !!! k);
  dd_top : equiv (v !!! last) (v0 !!! (i - 1)%nat)
}.

Lemma equiv_refl x : equiv x x.
Proof. split; apply ge_refl. Qed.

Lemma deduped_new v0 i last v : (i < length v0)%nat → deduped v0 i last v → comp (v !!! last) (v0 !!! i) = true →
  deduped v0 (S i) (S last) (<[S last := v0 !!! i]> v).
Proof.
  intros Hi [Hl Hlast Hrest Hst Hfrom Hall Htop] Hc.
  assert (∀ k, k ≠ S last → <[S last := v0 !!! i]> v !!! k = v !!! k) as Hne.
  { intros k Hk. by rewrite list_lookup_total_insert_ne. }
  assert (<[S last := v0 !!! i]> v !!! S last = v0 !!! i) as Heq by (apply list_lookup_total_insert_eq; lia).
  split; [by rewrite length_insert|lia|..].
  - intros k Hk. rewrite Hne by lia. apply Hrest. lia.
  - intros a b Hab. rewrite (Hne a) by lia. destruct (decide (b = S last)) as [->|]; [|rewrite Hne by done; apply Hst; lia].
    rewrite Heq. destruct (decide (a = last)) as [->|]; [done|]. eapply comp_trans; [apply (Hst a last); lia|done].
  - intros k Hk. destruct (decide (k = S last)) as [->|]; [exists i; split; [lia|done]|]. rewrite Hne by done.
    destruct (Hfrom k) as (k' & ? & ?); [lia|]. exists k'. split; [lia|done].
  - intros k Hk. destruct (decide (k = i)) as [->|].
    + exists (S last). rewrite Heq. split; [done|apply equiv_refl].
    + destruct (Hall k) as (k' & ? & ?); [lia|]. exists k'. rewrite Hne by lia. split; [lia|done].
  - rewrite Heq. replace (S i - 1)%nat with i by lia. apply equiv_refl.
Qed.

Lemma deduped_old v0 i last v : (i < length v0)%nat → deduped v0 i last v → equiv (v !!! last) (v0 !!! i) →
  deduped v0 (S i) last v.
Proof.
  intros Hi [Hl Hlast Hrest Hst Hfrom Hall Htop] He. split; [done|lia|intros; apply Hrest; lia|done|..].
  - intros k Hk. destruct (Hfrom k Hk) as (k' & ? & ?). exists k'. split; [lia|done].
  - intros k Hk. destruct (decide (k = i)) as [->|]; [by exists last|]. apply Hall. lia.
  - by replace (S i - 1)%nat with i by lia.
Qed.

Lemma dedup_step_spec v0 (i last : nat) v : (0 < i < length v0)%nat →
  (∀ a b, (a ≤ b < length v0)%nat → ge (v0 !!! b) (v0 !!! a)) → deduped v0 i last v →
  returns (dedup_step comp (Z.of_nat i) (v, Z.of_nat last)) (λ '(v', l), ∃ n, l = Z.of_nat n ∧ deduped v0 (S i) n v').
Proof.
  intros Hi Hs Hd. pose proof Hd as [Hl Hlast Hrest _ _ _ [Ht1 Ht2]]. unfold dedup_step.
  rewrite !aget_nth by lia. cbn [mbind result_bind]. rewrite (Hrest i) by lia. destruct (comp (v !!! last) (v0 !!! i)) eqn:Ec.
  - replace (Z.of_nat last + 1) with (Z.of_nat (S last)) by lia.
    destruct (Z.eqb_spec (Z.of_nat (S last)) (Z.of_nat i)) as [Ei|Ei]; cbn [negb].
    + cbn [mbind result_bind returns]. exists (S last). split; [done|].
      pose proof (deduped_new v0 i last v ltac:(lia) Hd Ec) as Hn. rewrite list_insert_id in Hn; [done|].
      assert (S last = i) as -> by lia. rewrite <- (Hrest i) by lia. apply list_lookup_lookup_total_lt. lia.
    + rewrite aset_Ok by lia. cbn [mbind result_bind returns]. rewrite Nat2Z.id. exists (S last). split; [done|].
      apply deduped_new; [lia|done..].
  - assert (comp (v0 !!! i) (v !!! last) = false) as Ec2.
    { eapply ge_trans; [apply (Hs (i - 1)%nat i); lia|exact Ht2]. }
    rewrite Ec2. cbn. exists last. split; [done|]. apply deduped_old; [lia|done|]. by split.
Qed.

(** [SortAndDedup] leaves a strictly increasing array with one element of each
    class of equivalent elements of the input, and none else. *)
Theorem SortAndDedup_correct v : Z.of_nat (length v) < 2 ^ 62 →
  returns (SortAndDedup comp v) (λ r,
    (∀ i j x y, (i < j)%nat → r !! i = Some x → r !! j = Some y → comp x y = true) ∧
    (∀ x, x ∈ r → x ∈ v) ∧ (∀ x, x ∈ v → ∃ y, y ∈ r ∧ equiv y x)).
Proof.
  intros Hlen. unfold SortAndDedup. rbind (by apply Sort_spec). intros v0 [Hp Hs].
  pose proof (Permutation_length Hp) as Hl0.
  destruct (Z.ltb_spec (Z.of_nat (length v)) 2) as [Hlt|Hge].
  - cbn [returns]. split; [|split].
    + intros i j x y Hij Hx Hy%lookup_lt_Some. lia.
    + intros x. by rewrite Hp.
    + intros x Hx. exists x. rewrite Hp. split; [done|apply equiv_refl].
  - eapply returns_bind.
    + apply (returns_for_range (λ i '(v', l), ∃ n, l = Z.of_nat n ∧ deduped v0 (Z.to_nat i) n v')); [lia| |].
      * exists 0%nat. split; [done|]. split; [done|lia|done|lia| | |apply equiv_refl].
        -- intros k Hk. exists 0%nat. assert (k = 0%nat) as -> by lia. split; [lia|done].
        -- intros k Hk. exists 0%nat. assert (k = 0%nat) as -> by lia. split; [lia|apply equiv_refl].
      * intros i [v' l] Hi (n & -> & Hd). rewrite <- (Z2Nat.id i) at 1 by lia.
        replace (Z.to_nat (i + 1)) with (S (Z.to_nat i)) by lia. apply dedup_step_spec; [lia|done..].
    + cbn beta. intros [v' l] (n & -> & [Hl Hlast Hrest Hst Hfrom Hall _]). rewrite Nat2Z.id in *. cbn [returns].
      replace (Z.to_nat (Z.of_nat n + 1)) with (S n) by lia.
      assert (∀ k x, take (S n) v' !! k = Some x → (k ≤ n)%nat ∧ v' !!! k = x) as Htk.
      { intros k x [Hx Hk]%lookup_take_Some. split; [lia|]. by apply list_lookup_total_correct. }
      split; [|split].
      * intros i j x y Hij [Hi <-]%Htk [Hj <-]%Htk. apply Hst. lia.
      * intros x [k [Hk <-]%Htk]%list_elem_of_lookup. destruct (Hfrom k Hk) as (k' & Hk' & ->).
        rewrite <- Hp. apply list_elem_of_lookup. exists k'. apply list_lookup_lookup_total_lt. lia.
      * intros x Hx. rewrite <- Hp in Hx. apply list_elem_of_lookup in Hx as [k Hk]. pose proof (lookup_lt_Some _ _ _ Hk).
        apply list_lookup_total_correct in Hk as <-. destruct (Hall k) as (k' & Hk' & He); [lia|].
        exists (v' !!! k'). split; [|done]. apply list_elem_of_lookup. exists k'. rewrite lookup_take_lt by lia.
        apply list_lookup_lookup_total_lt. lia.
Qed.

End Facts.

(** ** Concrete instances *)
Lemma Sort_correct_witness :
  returns (Sort CompareLess [5; 2; 9; 2; 7] 5) (λ v', v' ≡ₚ [5; 2; 9; 2; 7] ∧ sorted CompareLess v').
Proof. apply (Sort_correct CompareLess [5; 2; 9; 2; 7]). done. Defined.

Lemma InternalLowerBound_correct_witness :
  returns (InternalLowerBound (λ x, CompareLess x 6) [2; 5; 7; 9]) (λ r, ∃ n, r = Z.of_nat n ∧ (n ≤ length [2; 5; 7; 9])%nat ∧
    ∀ i x, [2; 5; 7; 9] !! i = Some x → CompareLess x 6 = bool_decide (i < n)%nat).
Proof.
  apply (InternalLowerBound_correct (λ x, CompareLess x 6) [2; 5; 7; 9]); [done|].
  intros [|[|[|[|i]]]] [|[|[|[|j]]]] x y Hij Hx Hy; simpl in *; simplify_eq; done || lia.
Defined.

Lemma SortAndDedup_correct_witness :
  returns (SortAndDedup CompareLess [5; 2; 9; 2; 7]) (λ r,
    (∀ i j x y, (i < j)%nat → r !! i = Some x → r !! j = Some y → CompareLess x y = true) ∧
    (∀ x, x ∈ r → x ∈ [5; 2; 9; 2; 7]) ∧ (∀ x, x ∈ [5; 2; 9; 2; 7] → ∃ y, y ∈ r ∧ equiv CompareLess y x)).
Proof. apply (SortAndDedup_correct CompareLess [5; 2; 9; 2; 7]). done. Defined.

End Sorting.
