(* ===== verification/MmapVector.v ===== *)
(** * MmapVector: the growable array of the runtime

    Models [InternalMmapVectorNoCtor] of [sanitizer_common.h].  The buffer is the
    list of its cells; the page size, [sizeof(T)] and the value of zeroed memory
    are arguments.  Every sequence of operations is proved to act as on a list. *)
From S2P Require Import Prelude Common.

Module Vector.

Section Ops.
Context {T : Type} (PageSize sizeof_T : Z) (zero : T).

Record InternalMmapVector := Vec { data_ : list T; capacity_bytes_ : Z; size_ : Z }.
Implicit Types (v : InternalMmapVector).

Definition capacity v : Z := capacity_bytes_ v / sizeof_T.
Definition vec_size v : Z := size_ v.

(** [internal_memcpy] and [internal_memset] on whole elements. *)
Definition copy_elements (dst src : list T) (n : Z) : result (list T) :=
  for_range 0 n (λ i dst, x ← aget src i; aset dst i x) dst.
Definition zero_elements (dst : list T) (from n : Z) : result (list T) :=
  for_range from (from + n) (λ i dst, aset dst i zero) dst.

Definition Realloc v (new_capacity : Z) : result InternalMmapVector :=
  CHECK (0 <? new_capacity);;
  CHECK (size_ v <=? new_capacity);;
  new_capacity_bytes ← RoundUpTo (u64 (new_capacity * sizeof_T)) PageSize;
  let new_data := replicate (Z.to_nat (new_capacity_bytes / sizeof_T)) zero in
  new_data ← copy_elements new_data (data_ v) (size_ v);
  Ok (Vec new_data new_capacity_bytes (size_ v)).

Definition reserve v (new_size : Z) : result InternalMmapVector :=
  if capacity v <? new_size then Realloc v new_size else Ok v.

Definition Initialize (initial_capacity : Z) : result InternalMmapVector :=
  reserve (Vec [] 0 0) initial_capacity.

Definition vec_get v (i : Z) : result T := CHECK (i <? size_ v);; aget (data_ v) i.

(** [v[i] = x]. *)
Definition vec_set v (i : Z) (x : T) : result InternalMmapVector :=
  CHECK (i <? size_ v);;
  d ← aset (data_ v) i x;
  Ok (Vec d (capacity_bytes_ v) (size_ v)).

Definition vec_push_back v (element : T) : result InternalMmapVector :=
  CHECK (size_ v <=? capacity v);;
  v ← (if size_ v =? capacity v then
         new_capacity ← RoundUpToPowerOfTwo (u64 (size_ v + 1));
         Realloc v new_capacity
       else Ok v);
  d ← aset (data_ v) (size_ v) element;
  Ok (Vec d (capacity_bytes_ v) (u64 (size_ v + 1))).

Definition vec_back v : result T := CHECK (0 <? size_ v);; aget (data_ v) (size_ v - 1).

Definition vec_pop_back v : result InternalMmapVector :=
  CHECK (0 <? size_ v);;
  Ok (Vec (data_ v) (capacity_bytes_ v) (size_ v - 1)).

Definition vec_resize v (new_size : Z) : result InternalMmapVector :=
  v ← (if size_ v <? new_size then
         v ← reserve v new_size;
         d ← zero_elements (data_ v) (size_ v) (new_size - size_ v);
         Ok (Vec d (capacity_bytes_ v) (size_ v))
       else Ok v);
  Ok (Vec (data_ v) (capacity_bytes_ v) new_size).

Definition vec_clear v : InternalMmapVector := Vec (data_ v) (capacity_bytes_ v) 0.
Definition vec_empty v : bool := vec_size v =? 0.
Definition vec_swap v (other : InternalMmapVector) : InternalMmapVector * InternalMmapVector := (other, v).

(** [operator==]: [internal_memcmp] of the elements. *)
Definition vec_eq (eqb : T → T → bool) (lhs rhs : InternalMmapVector) : result bool :=
  if negb (vec_size lhs =? vec_size rhs) then Ok false
  else
    r ← find_range 0 (vec_size lhs) (λ i,
      x ← aget (data_ lhs) i;
      y ← aget (data_ rhs) i;
      Ok (if eqb x y then None else Some tt));
    Ok (bool_decide (r = None)).

(** The constructors of [InternalMmapVector]. *)
Definition new_vector : result InternalMmapVector := Initialize 0.
Definition new_vector_n (cnt : Z) : result InternalMmapVector := v ← Initialize cnt; vec_resize v cnt.

End Ops.
Arguments InternalMmapVector : clear implicits.

Section Facts.
Context {T : Type} (PageSize sizeof_T : Z) (zero : T).
Context (page_ok : ∃ p, 12 ≤ p ≤ 16 ∧ PageSize = 2 ^ p) (size_ok : 0 < sizeof_T ≤ 4096).
Implicit Types (v : InternalMmapVector T) (xs : list T).

(** The vector [v] holds the elements [xs]. *)
Record vec_ok v xs : Prop := {
  vo_size : size_ v = Z.of_nat (length xs);
  vo_data : take (length xs) (data_ v) = xs;
  vo_cap : Z.of_nat (length (data_ v)) = capacity_bytes_ v / sizeof_T;
  vo_room : Z.of_nat (length xs) ≤ capacity_bytes_ v / sizeof_T;
  vo_bound : 0 ≤ capacity_bytes_ v < 2 ^ 60
}.

Lemma vec_lookup v xs i : vec_ok v xs → (i < length xs)%nat → data_ v !! i = xs !! i.
Proof. intros Hv Hi. rewrite <- (vo_data v xs Hv). by rewrite lookup_take_lt. Qed.

Lemma copy_elements_spec (dst src : list T) n : 0 ≤ n ≤ Z.of_nat (length dst) → n ≤ Z.of_nat (length src) →
  returns (copy_elements dst src n) (λ d, length d = length dst ∧ take (Z.to_nat n) d = take (Z.to_nat n) src).
Proof.
  intros Hd Hs. unfold copy_elements. eapply returns_mono; [apply (returns_for_range (λ i d, length d = length dst ∧
    take (Z.to_nat i) d = take (Z.to_nat i) src)); [lia|done|]|done].
  intros i d Hi [Hl Ht]. eapply returns_bind; [apply returns_aget; [lia|]; intros x Hx; exact Hx|]. cbn beta. intros x Hx.
  apply returns_aset; [lia|]. split; [by rewrite length_insert|]. replace (Z.to_nat (i + 1)) with (S (Z.to_nat i)) by lia.
  rewrite (take_S_r src _ x) by done. rewrite (take_S_r _ _ x) by (apply list_lookup_insert_eq; lia).
  by rewrite take_insert_ge, Ht by lia.
Qed.

Lemma zero_elements_spec (dst : list T) a n : 0 ≤ a → 0 ≤ n → a + n ≤ Z.of_nat (length dst) →
  returns (zero_elements zero dst a n) (λ d, length d = length dst ∧
    take (Z.to_nat (a + n)) d = take (Z.to_nat a) dst ++ replicate (Z.to_nat n) zero).
Proof.
  intros Ha Hn Hd. unfold zero_elements. eapply returns_mono; [apply (returns_for_range (λ i d, length d = length dst ∧
    take (Z.to_nat i) d = take (Z.to_nat a) dst ++ replicate (Z.to_nat (i - a)) zero)); [lia| |]|].
  - split; [done|]. rewrite Z.sub_diag. simpl. by rewrite app_nil_r.
  - intros i d Hi [Hl Ht]. apply returns_aset; [lia|]. split; [by rewrite length_insert|].
    replace (Z.to_nat (i + 1)) with (S (Z.to_nat i)) by lia.
    rewrite (take_S_r _ _ zero) by (apply list_lookup_insert_eq; lia). rewrite take_insert_ge, Ht by lia.
    replace (Z.to_nat (i + 1 - a)) with (S (Z.to_nat (i - a))) by lia. by rewrite replicate_S_end, app_assoc.
  - cbn beta. intros d [Hl Ht]. split; [done|]. rewrite Ht. do 2 f_equal. lia.
Qed.

(** Reallocating keeps the elements and makes the room asked for. *)
Lemma Realloc_spec v xs n : vec_ok v xs → Z.of_nat (length xs) ≤ n → 0 < n < 2 ^ 42 →
  returns (Realloc PageSize sizeof_T zero v n) (λ v', vec_ok v' xs ∧ n ≤ capacity sizeof_T v').
Proof.
  intros Hv Hle Hn. destruct page_ok as (p & Hp & ->). pose proof Hv as [Hs Hd Hc Hr Hb]. unfold Realloc.
  rewrite Hs, (proj2 (Z.ltb_lt 0 n)), (proj2 (Z.leb_le _ n)) by lia. cbn [CHECK mbind result_bind].
  assert (2 ^ p ≤ 2 ^ 16) by (apply Z.pow_le_mono_r; lia). assert (0 < 2 ^ p) by lia.
  rewrite cast_id, RoundUpTo_pow2 by nia. cbn [mbind result_bind].
  set (q := (n * sizeof_T + 2 ^ p - 1) / 2 ^ p).
  assert (n * sizeof_T ≤ 2 ^ p * q < n * sizeof_T + 2 ^ p) as Hq.
  { pose proof (Z.div_mod (n * sizeof_T + 2 ^ p - 1) (2 ^ p)). pose proof (Z.mod_pos_bound (n * sizeof_T + 2 ^ p - 1) (2 ^ p)).
    unfold q. lia. }
  assert (n ≤ 2 ^ p * q / sizeof_T) as Hcap by (apply Z.div_le_lower_bound; lia).
  rbind (apply copy_elements_spec; rewrite ?length_replicate; lia).
  intros d [Hl Ht]. cbn [returns]. rewrite length_replicate in Hl. rewrite Nat2Z.id in Ht. split; [|done].
  split; cbn [data_ size_ capacity_bytes_]; [done| |lia|lia|nia]. by rewrite Ht.
Qed.

Lemma reserve_spec v xs n : vec_ok v xs → 0 ≤ n < 2 ^ 42 → Z.of_nat (length xs) ≤ Z.max n (capacity sizeof_T v) →
  returns (reserve PageSize sizeof_T zero v n) (λ v', vec_ok v' xs ∧ n ≤ capacity sizeof_T v').
Proof.
  intros Hv Hn Hl. unfold reserve. destruct (Z.ltb_spec (capacity sizeof_T v) n) as [Hlt|Hge].
  - pose proof (vo_room v xs Hv). unfold capacity in *. apply Realloc_spec; [done|lia|].
    destruct (Z.eq_dec n 0) as [->|]; [|lia]. pose proof (vo_cap v xs Hv). lia.
  - done.
Qed.

Lemma vec_get_spec v xs i : vec_ok v xs → 0 ≤ i < Z.of_nat (length xs) →
  returns (vec_get v i) (λ x, xs !! Z.to_nat i = Some x).
Proof.
  intros Hv Hi. unfold vec_get. rewrite (vo_size v xs Hv), (proj2 (Z.ltb_lt _ _)) by lia. cbn [CHECK mbind result_bind].
  pose proof (vo_room v xs Hv). pose proof (vo_cap v xs Hv). apply returns_aget; [lia|]. intros x.
  by rewrite (vec_lookup v xs) by (done || lia).
Qed.

Lemma vec_set_spec v xs i x : vec_ok v xs → 0 ≤ i < Z.of_nat (length xs) →
  returns (vec_set v i x) (λ v', vec_ok v' (<[Z.to_nat i := x]> xs)).
Proof.
  intros Hv Hi. unfold vec_set. pose proof Hv as [Hs Hd Hc Hr Hb]. rewrite Hs, (proj2 (Z.ltb_lt _ _)) by lia.
  cbn [CHECK mbind result_bind]. rewrite aset_Ok by lia. cbn [mbind result_bind returns].
  split; cbn [data_ size_ capacity_bytes_]; rewrite ?length_insert; try done.
  rewrite take_insert_lt by lia. by rewrite Hd.
Qed.

Lemma vec_push_back_spec v xs x : vec_ok v xs → Z.of_nat (length xs) < 2 ^ 40 →
  returns (vec_push_back PageSize sizeof_T zero v x) (λ v', vec_ok v' (xs ++ [x])).
Proof.
  intros Hv Hl. unfold vec_push_back. pose proof Hv as [Hs Hd Hc Hr Hb].
  rewrite (proj2 (Z.leb_le _ _)) by (unfold capacity; lia). cbn [CHECK mbind result_bind].
  eapply (returns_bind _ _ (λ v', vec_ok v' xs ∧ Z.of_nat (length xs) + 1 ≤ capacity sizeof_T v')).
  - destruct (Z.eqb_spec (size_ v) (capacity sizeof_T v)) as [E|E].
    + rewrite cast_id by lia. rbind (apply (returns_RoundUpToPowerOfTwo _ 40); lia). intros r (k & Hk & -> & Hle).
      assert (2 ^ k ≤ 2 ^ 40) by (apply Z.pow_le_mono_r; lia).
      eapply returns_mono; [apply Realloc_spec; [exact Hv|lia|lia]|]. intros v' [Hv' Hcap]. split; [done|lia].
    + split; [done|]. unfold capacity in *. lia.
  - intros v' [Hv' Hcap]. pose proof Hv' as [Hs' Hd' Hc' Hr' Hb']. unfold capacity in Hcap.
    rewrite Hs', aset_Ok by lia. cbn [mbind result_bind returns]. rewrite Nat2Z.id, cast_id by lia.
    split; cbn [data_ size_ capacity_bytes_]; rewrite ?length_app, ?length_insert; cbn [length]; [lia| |done|lia|done].
    rewrite Nat.add_1_r, (take_S_r _ _ x) by (apply list_lookup_insert_eq; lia). by rewrite take_insert_ge, Hd' by lia.
Qed.

Lemma vec_truncate v xs n : vec_ok v xs → (n ≤ length xs)%nat →
  vec_ok (Vec (data_ v) (capacity_bytes_ v) (Z.of_nat n)) (take n xs).
Proof.
  intros [Hs Hd Hc Hr Hb] Hn. assert (length (take n xs) = n) as E by (rewrite length_take; lia).
  split; cbn [data_ size_ capacity_bytes_]; rewrite ?E; [done| |done|lia|done].
  rewrite <- Hd, take_take. f_equal. lia.
Qed.

Lemma vec_resize_spec v xs n : vec_ok v xs → 0 ≤ n < 2 ^ 42 →
  returns (vec_resize PageSize sizeof_T zero v n) (λ v',
    vec_ok v' (take (Z.to_nat n) xs ++ replicate (Z.to_nat n - length xs) zero)).
Proof.
  intros Hv Hn. unfold vec_resize. rewrite (vo_size v xs Hv). destruct (Z.ltb_spec (Z.of_nat (length xs)) n) as [Hlt|Hge].
  - eapply returns_bind with (P := λ v', vec_ok (Vec (data_ v') (capacity_bytes_ v') n)
        (take (Z.to_nat n) xs ++ replicate (Z.to_nat n - length xs) zero)); [|done].
    eapply returns_bind; [apply (reserve_spec v xs n Hv); lia|]. intros v1 [Hv1 Hcap].
    pose proof Hv1 as [Hs1 Hd1 Hc1 Hr1 Hb1]. unfold capacity in Hcap. rewrite Hs1.
    rbind (apply zero_elements_spec; lia). intros d [Hl Ht]. cbn [returns data_ capacity_bytes_].
    rewrite take_ge by lia. assert (length (xs ++ replicate (Z.to_nat n - length xs) zero) = Z.to_nat n) as El.
    { rewrite length_app, length_replicate. lia. }
    split; cbn [data_ size_ capacity_bytes_]; rewrite ?El; [lia| |lia|lia|done].
    replace (Z.of_nat (length xs) + _) with n in Ht by lia. rewrite Ht, Nat2Z.id, Hd1. do 2 f_equal. lia.
  - cbn. replace (Z.to_nat n - length xs)%nat with 0%nat by lia. simpl. rewrite app_nil_r.
    rewrite <- (Z2Nat.id n) at 1 by lia. apply vec_truncate; [done|lia].
Qed.

Lemma vec_pop_back_spec v xs : vec_ok v xs → xs ≠ [] →
  returns (vec_pop_back v) (λ v', vec_ok v' (take (length xs - 1) xs)).
Proof.
  intros Hv Hne. unfold vec_pop_back. rewrite (vo_size v xs Hv). destruct xs as [|x xs]; [done|].
  cbn [length]. rewrite (proj2 (Z.ltb_lt _ _)) by lia. cbn [CHECK mbind result_bind returns].
  replace (Z.of_nat (S (length xs)) - 1) with (Z.of_nat (S (length xs) - 1)) by lia. apply vec_truncate; [done|simpl; lia].
Qed.

Lemma vec_back_spec v xs : vec_ok v xs → xs ≠ [] → returns (vec_back v) (λ x, last xs = Some x).
Proof.
  intros Hv Hne. pose proof Hv as [Hs Hd Hc Hr Hb]. unfold vec_back. rewrite Hs.
  assert (0 < length xs)%nat by (destruct xs; [done|simpl; lia]). rewrite (proj2 (Z.ltb_lt _ _)) by lia. cbn [CHECK mbind result_bind].
  apply returns_aget; [lia|]. intros x. replace (Z.to_nat _) with (pred (length xs)) by lia.
  by rewrite (vec_lookup v xs), last_lookup by (done || lia).
Qed.

Lemma vec_eq_spec (eqb : T → T → bool) v1 v2 xs1 xs2 : (∀ x y, eqb x y = true ↔ x = y) → vec_ok v1 xs1 → vec_ok v2 xs2 →
  returns (vec_eq eqb v1 v2) (λ r, r = true ↔ xs1 = xs2).
Proof.
  intros He [Hs1 Hd1 Hc1 Hr1 Hb1] [Hs2 Hd2 Hc2 Hr2 Hb2]. unfold vec_eq, vec_size. rewrite Hs1, Hs2.
  destruct (Z.eqb_spec (Z.of_nat (length xs1)) (Z.of_nat (length xs2))) as [El|El]; cbn [negb]; [|split; [done|congruence]].
  eapply returns_bind with (P := λ r, r = None ↔ xs1 = xs2).
  - apply (returns_find_range (λ i, take (Z.to_nat i) xs1 = take (Z.to_nat i) xs2)); [lia|done| |].
    + intros i Hi Ht. eapply returns_bind; [apply returns_aget; [lia|]; intros x Hx; exact Hx|]. cbn beta. intros x Hx.
      eapply returns_bind; [apply returns_aget; [lia|]; intros y Hy; exact Hy|]. cbn beta. intros y Hy.
      assert (xs1 !! Z.to_nat i = Some x) as Hx1 by (rewrite <- Hd1, lookup_take_lt by lia; done).
      assert (xs2 !! Z.to_nat i = Some y) as Hy2 by (rewrite <- Hd2, lookup_take_lt by lia; done).
      cbn [returns]. destruct (eqb x y) eqn:Ex.
      * apply He in Ex as ->. replace (Z.to_nat (i + 1)) with (S (Z.to_nat i)) by lia.
        by rewrite (take_S_r _ _ y Hx1), (take_S_r _ _ y Hy2), Ht.
      * split; [done|]. intros ->. assert (eqb x y = true); [|congruence]. apply He. congruence.
    + intros Ht. rewrite !take_ge in Ht by lia. done.
  - intros r Hr. cbn. rewrite bool_decide_eq_true. done.
Qed.

(** ** Refinement: sequences of operations *)
Inductive vop :=
  | VPush (x : T) | VPop | VBack | VGet (i : Z) | VSet (i : Z) (x : T) | VResize (n : Z) | VReserve (n : Z)
  | VClear | VSize | VEmpty.
Inductive vout := VUnit | VElem (x : T) | VNum (n : Z) | VBool (b : bool).

Definition vexec v (op : vop) : result (InternalMmapVector T * vout) :=
  match op with
  | VPush x => v ← vec_push_back PageSize sizeof_T zero v x; Ok (v, VUnit)
  | VPop => v ← vec_pop_back v; Ok (v, VUnit)
  | VBack => x ← vec_back v; Ok (v, VElem x)
  | VGet i => x ← vec_get v i; Ok (v, VElem x)
  | VSet i x => v ← vec_set v i x; Ok (v, VUnit)
  | VResize n => v ← vec_resize PageSize sizeof_T zero v n; Ok (v, VUnit)
  | VReserve n => v ← reserve PageSize sizeof_T zero v n; Ok (v, VUnit)
  | VClear => Ok (vec_clear v, VUnit)
  | VSize => Ok (v, VNum (vec_size v))
  | VEmpty => Ok (v, VBool (vec_empty v))
  end.

Fixpoint vrun v (ops : list vop) : result (list vout) :=
  match ops with
  | [] => Ok []
  | op :: ops => '(v, o) ← vexec v op; os ← vrun v ops; Ok (o :: os)
  end.

(** The same on a list; [None] when an index is out of range, the list is empty or
    a size is beyond [2^40] elements. *)
Definition ref_vexec xs (op : vop) : option (list T * vout) :=
  match op with
  | VPush x => guard (Z.of_nat (length xs) < 2 ^ 40);; Some (xs ++ [x], VUnit)
  | VPop => guard (length xs ≠ 0%nat);; Some (take (length xs - 1) xs, VUnit)
  | VBack => x ← last xs; Some (xs, VElem x)
  | VGet i => guard (0 ≤ i);; x ← xs !! Z.to_nat i; Some (xs, VElem x)
  | VSet i x => guard (0 ≤ i < Z.of_nat (length xs));; Some (<[Z.to_nat i := x]> xs, VUnit)
  | VResize n => guard (0 ≤ n ≤ 2 ^ 40);; Some (take (Z.to_nat n) xs ++ replicate (Z.to_nat n - length xs) zero, VUnit)
  | VReserve n => guard (0 ≤ n ≤ 2 ^ 40);; Some (xs, VUnit)
  | VClear => Some ([], VUnit)
  | VSize => Some (xs, VNum (Z.of_nat (length xs)))
  | VEmpty => Some (xs, VBool (bool_decide (length xs = 0%nat)))
  end.

Fixpoint ref_vrun xs (ops : list vop) : option (list vout) :=
  match ops with
  | [] => Some []
  | op :: ops => '(xs, o) ← ref_vexec xs op; os ← ref_vrun xs ops; Some (o :: os)
  end.

Lemma vexec_sim v xs op xs' o : vec_ok v xs → ref_vexec xs op = Some (xs', o) →
  returns (vexec v op) (λ '(v', o'), vec_ok v' xs' ∧ o' = o).
Proof.
  intros Hv. destruct op; cbn [ref_vexec vexec]; intros Href.
  - apply bind_Some in Href as (HG & _ & [= <- <-]). rbind (by apply (vec_push_back_spec v xs)). done.
  - apply bind_Some in Href as (HG & _ & [= <- <-]). rbind (apply (vec_pop_back_spec v xs Hv); by intros ->). done.
  - apply bind_Some in Href as (x & Hx & [= <- <-]). rbind (apply (vec_back_spec v xs Hv); by intros ->). intros y Hy.
    simplify_eq. done.
  - apply bind_Some in Href as (HG & _ & Href). apply bind_Some in Href as (x & Hx & [= <- <-]).
    pose proof (lookup_lt_Some _ _ _ Hx). rbind (apply (vec_get_spec v xs i Hv); lia). intros y Hy. simplify_eq. done.
  - apply bind_Some in Href as (HG & _ & [= <- <-]). rbind (by apply (vec_set_spec v xs)). done.
  - apply bind_Some in Href as (HG & _ & [= <- <-]). rbind (apply (vec_resize_spec v xs); [done|lia]). done.
  - apply bind_Some in Href as (HG & _ & [= <- <-]). rbind (apply (reserve_spec v xs n Hv); [lia|]; pose proof (vo_room v xs Hv); unfold capacity; lia).
    intros v' [Hv' _]. done.
  - simplify_eq. cbn. split; [|done]. apply (vec_truncate v xs 0 Hv). lia.
  - simplify_eq. cbn. split; [done|]. unfold vec_size. by rewrite (vo_size v _ Hv).
  - simplify_eq. cbn. split; [done|]. unfold vec_empty, vec_size. rewrite (vo_size v _ Hv). f_equal.
    destruct (Z.eqb_spec (Z.of_nat (length xs')) 0); symmetry; [apply bool_decide_eq_true_2|apply bool_decide_eq_false_2]; lia.
Qed.

Lemma vrun_sim v xs ops outs : vec_ok v xs → ref_vrun xs ops = Some outs → vrun v ops = Ok outs.
Proof.
  revert v xs outs. induction ops as [|op ops IH]; intros v xs outs Hv; cbn [ref_vrun vrun]; [by intros [= <-]|].
  intros ([xs' o] & Hex & Href)%bind_Some. apply bind_Some in Href as (os & Hos & [= <-]).
  pose proof (vexec_sim v xs op xs' o Hv Hex) as Hs. destruct (vexec v op) as [[v' o']|]; [|done].
  destruct Hs as [Hv' ->]. cbn. by rewrite (IH v' xs' os Hv' Hos).
Qed.

Lemma null_vec_ok : vec_ok (Vec [] 0 0) [].
Proof. split; simpl; rewrite ?Zdiv_0_l; done || lia. Qed.

(** Every sequence of operations on a vector made by its constructor behaves
    as on a list: no [CHECK] fails and no access leaves the buffer as long as the
    indices are in range. *)
Theorem vector_refines_list cap ops outs : 0 ≤ cap ≤ 2 ^ 40 → ref_vrun [] ops = Some outs →
  (v ← Initialize PageSize sizeof_T zero cap; vrun v ops) = Ok outs.
Proof.
  intros Hcap Href.
  assert (returns (Initialize PageSize sizeof_T zero cap) (λ v, vec_ok v [])) as Hi.
  { eapply returns_mono; [apply (reserve_spec _ [] cap null_vec_ok); [lia|unfold capacity; simpl; rewrite Zdiv_0_l; lia]|].
    by intros v' [? _]. }
  destruct (Initialize PageSize sizeof_T zero cap) as [v|]; [|done]. cbn. by apply (vrun_sim v []).
Qed.

End Facts.

(** ** A concrete instance: 8-byte elements, 4 kB pages *)
Lemma vector_refines_list_witness :
  (v ← Initialize 4096 8 0 3;
   vrun 4096 8 0 v [VPush 7; VPush 9; VResize 600; VSet 599 4; VBack; VPop; VGet 1; VGet 598; VSize; VClear; VEmpty]) =
  Ok [VUnit; VUnit; VUnit; VUnit; VElem 4; VUnit; VElem 9; VElem 0; VNum 599; VUnit; VBool true].
Proof.
  apply (vector_refines_list 4096 8 0 ltac:(by exists 12) ltac:(lia) 3
    [VPush 7; VPush 9; VResize 600; VSet 599 4; VBack; VPop; VGet 1; VGet 598; VSize; VClear; VEmpty]
    [VUnit; VUnit; VUnit; VUnit; VElem 4; VUnit; VElem 9; VElem 0; VNum 599; VUnit; VBool true]); [lia|].
  vm_compute. reflexivity.
Defined.

End Vector.
