(* ===== verification/Lzw.v ===== *)
(** * Lzw: compression of sequences of words

    Models [sanitizer_lzw.h] for the item type [uptr].  The encoder's dictionary is
    a [DenseMap]; here it is any implementation of the interface [MapOps], about
    which only [MapLaws] is used, and the concrete instance is the table of
    [DenseMap.v].  The input range is a list, the output iterator appends to a list;
    the vectors hold lists of their elements.  Decoding inverts encoding on every
    input. *)
From S2P Require Import Prelude Common DenseMap Sort.
Import Sorting.

Module LZW.

Notation Substring := (Z * Z)%type.
(** The traits of [DenseMapPair<LzwCodeType, uptr>]. *)
Definition SubstringInfo : DenseMapInfo Substring := Info_pair Info_unsigned Info_ulong.

(** Sentinel value for substrings of length 1. *)
Definition kNoPrefix : Z :=
  Min (getEmptyKey (DenseMapInfo:=SubstringInfo)).1 (getTombstoneKey (DenseMapInfo:=SubstringInfo)).1 - 1.

(** [*p], for the entry [find] has returned. *)
Definition deref_value (p : option Z) : result Z :=
  match p with Some v => Ok v | None => Fault NullDeref end.

Section Encode.
Context {M : Type} `{MapOps M Substring Z}.
Implicit Types (prefix_to_code : M) (input out : list Z).

(** Add all substrings of length 1 as the initial dictionary. *)
Fixpoint collect_len1 prefix_to_code input (dict_len1 : list Z) : result (M * list Z) :=
  match input with
  | [] => Ok (prefix_to_code, dict_len1)
  | x :: input =>
      '(prefix_to_code, _, inserted) ← map_try_emplace prefix_to_code (kNoPrefix, x) 0;
      collect_len1 prefix_to_code input (if inserted : bool then dict_len1 ++ [x] else dict_len1)
  end.

(** Remap after the sort, and emit the dictionary. *)
Definition remap_len1 prefix_to_code (dict_len1 : list Z) out : result (M * list Z) :=
  for_range 0 (Z.of_nat (length dict_len1)) (λ i '(prefix_to_code, out),
    x ← aget dict_len1 i;
    prefix_to_code ← map_put prefix_to_code (kNoPrefix, x) (u32 i);
    Ok (prefix_to_code, out ++ [x])) (prefix_to_code, out).

(** The main loop; its state is the map, the current match and the output. *)
Fixpoint encode_loop prefix_to_code (mtch : Z) input out : result (Z * list Z) :=
  match input with
  | [] => Ok (mtch, out)
  | x :: input =>
      '(prefix_to_code, second, inserted) ← map_try_emplace prefix_to_code (mtch, x) (map_len prefix_to_code);
      if inserted : bool then
        let out := out ++ [mtch] in
        p ← map_get prefix_to_code (kNoPrefix, x);
        mtch ← deref_value p;
        encode_loop prefix_to_code mtch input out
      else encode_loop prefix_to_code second input out
  end.

Definition LzwEncode input : result (list Z) :=
  '(prefix_to_code, dict_len1) ← collect_len1 map_new input [];
  dict_len1 ← Sort CompareLess dict_len1 (Z.of_nat (length dict_len1));
  let out := [Z.of_nat (length dict_len1)] in
  '(prefix_to_code, out) ← remap_len1 prefix_to_code dict_len1 out;
  CHECK (map_len prefix_to_code =? Z.of_nat (length dict_len1));;
  match input with
  | [] => Ok out
  | x :: input =>
      p ← map_get prefix_to_code (kNoPrefix, x);
      mtch ← deref_value p;
      '(mtch, out) ← encode_loop prefix_to_code mtch input out;
      Ok (out ++ [mtch])
  end.

End Encode.

(** ** Decoding *)
Section Decode.
Implicit Types (input out : list Z) (code_to_substr : list (Z * Z)) (code : Z).

(** An element of a vector. *)
Definition at_ {A} (v : list A) (i : Z) : result A := CHECK (i <? Z.of_nat (length v));; aget v i.

(** Copies already emitted substrings into the output again. *)
Definition copy_code (dict_len1 : list Z) code_to_substr code out : result (list Z) :=
  if code <? Z.of_nat (length dict_len1) then
    x ← at_ dict_len1 code;
    Ok (out ++ [x])
  else
    s ← at_ code_to_substr (code - Z.of_nat (length dict_len1));
    for_range s.1 s.2 (λ it out, x ← aget out it; Ok (out ++ [x])) out.

(** The length of the substring with the given code. *)
Definition code_to_len (dict_len1 : list Z) code_to_substr code : result Z :=
  if code <? Z.of_nat (length dict_len1) then Ok 1
  else
    s ← at_ code_to_substr (code - Z.of_nat (length dict_len1));
    Ok (s.2 - s.1).

Fixpoint decode_loop (dict_len1 : list Z) code_to_substr (prev_code : Z) input out : result (list Z) :=
  match input with
  | [] => Ok out
  | c :: input =>
      let code := u32 c in
      let start := Z.of_nat (length out) in
      out ← (if code =? Z.of_nat (length dict_len1) + Z.of_nat (length code_to_substr) then
               out ← copy_code dict_len1 code_to_substr prev_code out;
               x ← aget out start;
               Ok (out ++ [x])
             else copy_code dict_len1 code_to_substr code out);
      len ← code_to_len dict_len1 code_to_substr prev_code;
      decode_loop dict_len1 (code_to_substr ++ [(start - len, start + 1)]) code input out
  end.

(** Reads [n] items; the iterator must not pass the end. *)
Fixpoint read_dict (n : nat) input : result (list Z * list Z) :=
  match n, input with
  | O, _ => Ok ([], input)
  | S _, [] => Fault OutOfBounds
  | S n, x :: input => '(d, rest) ← read_dict n input; Ok (x :: d, rest)
  end.

Definition LzwDecode input : result (list Z) :=
  match input with
  | [] => Ok []
  | n :: input =>
      match input with
      | [] => Ok []
      | _ =>
          '(dict_len1, input) ← read_dict (Z.to_nat n) input;
          match input with
          | [] => Fault OutOfBounds
          | c :: input =>
              let prev_code := u32 c in
              out ← copy_code dict_len1 [] prev_code [];
              decode_loop dict_len1 [] prev_code input out
          end
      end
  end.

End Decode.

(** ** Code sequences

    [ss !! k] is the string the [k]-th code stands for: an item of the dictionary,
    or an earlier string extended by the first item of the string after it. *)
Record valid_codes (dict : list Z) (cs : list Z) (ss : list (list Z)) : Prop := {
  vc_len : length cs = length ss;
  vc_range k c : cs !! k = Some c → 0 ≤ c < Z.of_nat (length dict) + Z.of_nat k;
  vc_dict k c : cs !! k = Some c → c < Z.of_nat (length dict) → ∃ x, dict !! Z.to_nat c = Some x ∧ ss !! k = Some [x];
  vc_ref k c : cs !! k = Some c → Z.of_nat (length dict) ≤ c →
    let j := Z.to_nat (c - Z.of_nat (length dict)) in
    ∃ s x s', ss !! j = Some s ∧ ss !! S j = Some (x :: s') ∧ ss !! k = Some (s ++ [x])
}.

Lemma vc_string dict cs ss k c : valid_codes dict cs ss → cs !! k = Some c → ∃ x s, ss !! k = Some (x :: s).
Proof.
  intros Hv Hc. destruct (Z.lt_ge_cases c (Z.of_nat (length dict))) as [Hlt|Hge].
  - destruct (vc_dict _ _ _ Hv k c Hc Hlt) as (x & _ & ->). eauto.
  - destruct (vc_ref _ _ _ Hv k c Hc Hge) as ([|y s] & x & s' & _ & _ & ->); eauto.
Qed.

(** Equal codes stand for equal strings. *)
Lemma vc_functional dict cs ss a b c : valid_codes dict cs ss → cs !! a = Some c → cs !! b = Some c → ss !! a = ss !! b.
Proof.
  intros Hv Ha Hb. destruct (Z.lt_ge_cases c (Z.of_nat (length dict))) as [Hlt|Hge].
  - destruct (vc_dict _ _ _ Hv a c Ha Hlt) as (x & Hx & ->). destruct (vc_dict _ _ _ Hv b c Hb Hlt) as (y & Hy & ->). congruence.
  - destruct (vc_ref _ _ _ Hv a c Ha Hge) as (s & x & s' & E1 & E2 & ->).
    destruct (vc_ref _ _ _ Hv b c Hb Hge) as (t & y & t' & F1 & F2 & ->). congruence.
Qed.

(** ** Decoding a valid code sequence *)
Lemma copy_range (out : list Z) a b : 0 ≤ a ≤ b → b ≤ Z.of_nat (length out) →
  for_range a b (λ it out, x ← aget out it; Ok (out ++ [x])) out =
  Ok (out ++ take (Z.to_nat (b - a)) (drop (Z.to_nat a) out)).
Proof.
  intros Hab Hb.
  apply returns_eq. apply (returns_for_range (λ i o, o = out ++ take (Z.to_nat (i - a)) (drop (Z.to_nat a) out))); [lia| |].
  - by rewrite Z.sub_diag, app_nil_r.
  - intros i o Hi ->. destruct (lookup_lt_is_Some_2 out (Z.to_nat i)) as [x Hx]; [lia|].
    rewrite (proj2 (aget_Ok _ i x)) by (split; [lia|]; rewrite lookup_app_l by lia; done). cbn.
    replace (Z.to_nat (i + 1 - a)) with (S (Z.to_nat (i - a))) by lia.
    rewrite (take_S_r _ _ x), app_assoc; [done|]. rewrite lookup_drop, <- Hx. f_equal. lia.
Qed.

Section DecodeFacts.
Context (dict cs : list Z) (ss : list (list Z)) (Hv : valid_codes dict cs ss).
Context (Hsmall : Z.of_nat (length dict) + Z.of_nat (length cs) ≤ 2 ^ 32).
Notation n := (Z.of_nat (length dict)).

(** The output after [k] codes, and its length. *)
Definition out_of (k : nat) : list Z := concat (take k ss).
Definition off (k : nat) : Z := Z.of_nat (length (out_of k)).

Lemma out_of_S k s : ss !! k = Some s → out_of (S k) = out_of k ++ s.
Proof. intros Hs. unfold out_of. by rewrite (take_S_r _ _ _ Hs), concat_app, concat_cons, concat_nil, app_nil_r. Qed.

Lemma off_S k s : ss !! k = Some s → off (S k) = off k + Z.of_nat (length s).
Proof. intros Hs. unfold off. rewrite (out_of_S _ _ Hs), length_app. lia. Qed.

(** The substring that entry [j] of the table delimits. *)
Lemma out_slice j m s x s' : ss !! j = Some s → ss !! S j = Some (x :: s') → (S j < m)%nat →
  take (S (length s)) (drop (length (out_of j)) (out_of m)) = s ++ [x] ∧ off (S j) + 1 ≤ off m.
Proof.
  intros Hs Hx Hm. assert (take m ss !! j = Some s) as Hs' by (by rewrite lookup_take_lt by lia).
  assert (take m ss !! S j = Some (x :: s')) as Hx' by (by rewrite lookup_take_lt by lia).
  assert (∃ rest, out_of m = out_of j ++ s ++ [x] ++ rest) as [rest Er].
  { unfold out_of. rewrite <- (take_drop_middle _ _ _ Hs'), (drop_S _ _ _ Hx'), take_take, Nat.min_l by lia.
    exists (s' ++ concat (drop (S (S j)) (take m ss))). by rewrite concat_app, !concat_cons. }
  rewrite Er, drop_app_length. split.
  - rewrite (app_assoc s [x]), take_app_le, take_ge by (rewrite length_app; simpl; lia). done.
  - unfold off. rewrite Er, (out_of_S _ _ Hs), !length_app. simpl. lia.
Qed.

(** The table after [k + 1] codes. *)
Definition table_ok (tbl : list (Z * Z)) (k : nat) : Prop :=
  length tbl = k ∧ ∀ j, (j < k)%nat → tbl !! j = Some (off j, off (S j) + 1).

Lemma at_ok {A} (v : list A) (i : nat) x : v !! i = Some x → at_ v (Z.of_nat i) = Ok x.
Proof.
  intros Hx. unfold at_. pose proof (lookup_lt_Some _ _ _ Hx). rewrite (proj2 (Z.ltb_lt _ _)) by lia. cbn. by apply aget_lookup.
Qed.

Lemma entry_ok tbl k i c s : table_ok tbl k → cs !! i = Some c → n ≤ c < n + Z.of_nat k → ss !! i = Some s →
  ∃ j s0 x s', c - n = Z.of_nat j ∧ (j < k)%nat ∧ at_ tbl (c - n) = Ok (off j, off (S j) + 1) ∧
    ss !! j = Some s0 ∧ ss !! S j = Some (x :: s') ∧ s = s0 ++ [x].
Proof.
  intros [Hl Ht] Hc Hr Hs. destruct (vc_ref _ _ _ Hv i c Hc) as (s0 & x & s' & H0 & H1 & H2); [lia|].
  set (j := Z.to_nat (c - n)) in *. exists j, s0, x, s'. assert (c - n = Z.of_nat j) as Ej by (unfold j; lia).
  rewrite Ej. split; [done|]. split; [lia|]. split; [apply at_ok, Ht; lia|]. split; [done|]. split; [done|]. congruence.
Qed.

Lemma copy_code_spec tbl k i c s : table_ok tbl k → cs !! i = Some c → c < n + Z.of_nat k → ss !! i = Some s →
  copy_code dict tbl c (out_of (S k)) = Ok (out_of (S k) ++ s).
Proof.
  intros Ht Hc Hr Hs. unfold copy_code. pose proof (vc_range _ _ _ Hv i c Hc) as Hc0.
  destruct (Z.ltb_spec c n) as [Hlt|Hge].
  - destruct (vc_dict _ _ _ Hv i c Hc Hlt) as (x & Hx & Hs'). simplify_eq.
    rewrite <- (Z2Nat.id c) by lia. by rewrite (at_ok _ _ _ Hx).
  - destruct (entry_ok tbl k i c s Ht Hc) as (j & s0 & x & s' & _ & Hj & -> & H0 & H1 & ->); [lia|done|].
    cbn [mbind result_bind fst snd]. destruct (out_slice j (S k) s0 x s' H0 H1 ltac:(lia)) as [Hsl Hle].
    pose proof (off_S j s0 H0). rewrite copy_range by (unfold off in *; lia). do 2 f_equal.
    replace (Z.to_nat (off (S j) + 1 - off j)) with (S (length s0)) by lia. unfold off at 1. by rewrite Nat2Z.id.
Qed.

Lemma code_to_len_spec tbl k i c s : table_ok tbl k → cs !! i = Some c → c < n + Z.of_nat k → ss !! i = Some s →
  code_to_len dict tbl c = Ok (Z.of_nat (length s)).
Proof.
  intros Ht Hc Hr Hs. unfold code_to_len. destruct (Z.ltb_spec c n) as [Hlt|Hge].
  - destruct (vc_dict _ _ _ Hv i c Hc Hlt) as (x & _ & Hs'). by simplify_eq.
  - destruct (entry_ok tbl k i c s Ht Hc) as (j & s0 & x & s' & _ & Hj & -> & H0 & H1 & ->); [lia|done|].
    cbn. f_equal. rewrite (off_S j s0 H0), length_app. simpl. lia.
Qed.

Lemma decode_loop_spec input k tbl c : input = drop (S k) cs → cs !! k = Some c → table_ok tbl k →
  decode_loop dict tbl c input (out_of (S k)) = Ok (concat ss).
Proof.
  revert k tbl c. induction input as [|c' input IH]; intros k tbl c Hin Hc Ht; cbn [decode_loop].
  - assert (length cs ≤ S k)%nat by (symmetry in Hin; apply (f_equal length) in Hin; rewrite length_drop in Hin; simpl in Hin; lia).
    unfold out_of. rewrite take_ge; [done|]. rewrite <- (vc_len _ _ _ Hv). lia.
  - assert (cs !! S k = Some c') as Hc'.
    { rewrite <- (Nat.add_0_r (S k)), <- lookup_drop, <- Hin. done. }
    assert (input = drop (S (S k)) cs) as Hin' by (rewrite (drop_S _ _ _ Hc') in Hin; by simplify_eq).
    pose proof (vc_range _ _ _ Hv k c Hc) as Hr. pose proof (vc_range _ _ _ Hv _ _ Hc') as Hr'.
    pose proof (lookup_lt_Some _ _ _ Hc'). rewrite cast_id by lia.
    destruct (vc_string _ _ _ _ _ Hv Hc) as (y & s0 & Hs). destruct (vc_string _ _ _ _ _ Hv Hc') as (y' & s0' & Hs').
    rewrite (code_to_len_spec tbl k k c (y :: s0)) by (done || lia).
    destruct Ht as [Htl Htj]. rewrite Htl.
    match goal with |- (?X ≫= _) = _ => assert (X = Ok (out_of (S (S k)))) as -> end.
    + rewrite (out_of_S _ _ Hs'). destruct (Z.eqb_spec c' (n + Z.of_nat k)) as [E|E].
      * rewrite (copy_code_spec tbl k k c (y :: s0)) by (done || lia). cbn [mbind result_bind].
        destruct (vc_ref _ _ _ Hv _ _ Hc') as (s1 & x & s1' & H0 & H1 & H2); [lia|].
        replace (Z.to_nat (c' - n)) with k in * by lia. rewrite Hs in H0. injection H0 as <-.
        rewrite Hs' in H1, H2. simpl in H2. simplify_eq.
        rewrite (aget_lookup _ _ x); [cbn; by rewrite <- app_assoc|].
        rewrite lookup_app_r, Nat.sub_diag by done. done.
      * apply (copy_code_spec tbl k (S k) c' (y' :: s0')); [done|done|lia|done].
    + cbn [mbind result_bind]. apply IH; [done|done|]. split; [rewrite length_app; simpl; lia|].
      intros j Hj. destruct (decide (j = k)) as [->|].
      * rewrite list_lookup_middle by done. pose proof (off_S k _ Hs) as Eo. unfold off in *. do 2 f_equal. lia.
      * rewrite lookup_app_l by lia. apply Htj. lia.
Qed.

Lemma read_dict_ok (rest : list Z) : read_dict (length dict) (dict ++ rest) = Ok (dict, rest).
Proof. clear. induction dict as [|x d IH]; [done|]. cbn. by rewrite IH. Qed.

Lemma LzwDecode_valid : cs ≠ [] → LzwDecode ([n] ++ dict ++ cs) = Ok (concat ss).
Proof.
  intros Hne. assert (∃ c cs', cs = c :: cs') as (c & cs' & Ecs) by (destruct cs; [done|eauto]).
  cbn [LzwDecode app]. rewrite Nat2Z.id, read_dict_ok, Ecs. destruct (dict ++ c :: cs') eqn:Ed; [by destruct dict|].
  cbn [mbind result_bind]. assert (cs !! 0%nat = Some c) as Hc by (by rewrite Ecs).
  pose proof (vc_range _ _ _ Hv 0%nat c Hc). rewrite cast_id by lia.
  destruct (vc_dict _ _ _ Hv 0%nat c Hc) as (x & Hx & Hs); [lia|].
  assert (copy_code dict [] c [] = Ok (out_of 1)) as ->.
  { unfold copy_code. rewrite (proj2 (Z.ltb_lt _ _)) by lia. rewrite <- (Z2Nat.id c) by lia.
    rewrite (at_ok _ _ _ Hx). cbn. by rewrite (out_of_S 0 [x] Hs). }
  cbn [mbind result_bind]. apply decode_loop_spec; [by rewrite Ecs|done|]. split; [done|lia].
Qed.

End DecodeFacts.

(** Every code adds at most one item to the longest string. *)
Lemma vc_growth dict cs ss k s : valid_codes dict cs ss → ss !! k = Some s → (length s ≤ S k)%nat.
Proof.
  intros Hv. revert s. induction k as [k IH] using lt_wf_ind. intros s Hs.
  destruct (lookup_lt_is_Some_2 cs k) as [c Hc]; [rewrite (vc_len _ _ _ Hv); by eapply lookup_lt_Some|].
  pose proof (vc_range _ _ _ Hv k c Hc). destruct (Z.lt_ge_cases c (Z.of_nat (length dict))) as [Hlt|Hge].
  - destruct (vc_dict _ _ _ Hv k c Hc Hlt) as (x & _ & Hx). simplify_eq. simpl. lia.
  - destruct (vc_ref _ _ _ Hv k c Hc Hge) as (s0 & x & s' & H0 & _ & Hx). simplify_eq. rewrite length_app. simpl.
    specialize (IH (Z.to_nat (c - Z.of_nat (length dict))) ltac:(lia) s0 H0). lia.
Qed.

Lemma vc_total dict cs ss : valid_codes dict cs ss → (2 * length (concat ss) ≤ length cs * (length cs + 1))%nat.
Proof.
  intros Hv. rewrite (vc_len _ _ _ Hv).
  assert (∀ k, k ≤ length ss → 2 * length (concat (take k ss)) ≤ k * (k + 1))%nat as Hk.
  { induction k as [|k IH]; intros Hk; [simpl; lia|]. destruct (lookup_lt_is_Some_2 ss k) as [s Hs]; [lia|].
    rewrite (take_S_r _ _ _ Hs), concat_app, length_app, concat_cons, concat_nil, app_nil_r.
    pose proof (vc_growth _ _ _ _ _ Hv Hs). specialize (IH ltac:(lia)). nia. }
  specialize (Hk (length ss) ltac:(lia)). by rewrite take_ge in Hk by lia.
Qed.

(** ** Extending a code sequence *)
Lemma valid_snoc dict cs ss c s : valid_codes dict cs ss → 0 ≤ c < Z.of_nat (length dict) + Z.of_nat (length cs) →
  (c < Z.of_nat (length dict) → ∃ x, dict !! Z.to_nat c = Some x ∧ s = [x]) →
  (Z.of_nat (length dict) ≤ c → let j := Z.to_nat (c - Z.of_nat (length dict)) in
    ∃ s0 x s', (ss ++ [s]) !! j = Some s0 ∧ (ss ++ [s]) !! S j = Some (x :: s') ∧ s = s0 ++ [x]) →
  valid_codes dict (cs ++ [c]) (ss ++ [s]).
Proof.
  intros Hv Hc Hd Hr. pose proof (vc_len _ _ _ Hv) as Hl.
  assert (∀ k t, ss !! k = Some t → (ss ++ [s]) !! k = Some t) as Hss.
  { intros k t Hk. apply lookup_app_l_Some. done. }
  split.
  - rewrite !length_app. simpl. lia.
  - intros k c' [[Hk Hk']|[-> <-]]%lookup_snoc_Some; [by apply (vc_range _ _ _ Hv)|lia].
  - intros k c' [[Hk Hk']|[-> <-]]%lookup_snoc_Some Hlt.
    + destruct (vc_dict _ _ _ Hv k c' Hk' Hlt) as (x & ? & ?). eauto.
    + destruct (Hd Hlt) as (x & ? & ->). exists x. split; [done|]. by apply list_lookup_middle.
  - intros k c' [[Hk Hk']|[-> <-]]%lookup_snoc_Some Hge.
    + destruct (vc_ref _ _ _ Hv k c' Hk' Hge) as (s0 & x & s' & ? & ? & ?). exists s0, x, s'. auto.
    + destruct (Hr Hge) as (s0 & x & s' & ? & ? & Es). exists s0, x, s'. split; [done|]. split; [done|].
      rewrite <- Es. by apply list_lookup_middle.
Qed.

Lemma valid_prefix dict cs ss c s : valid_codes dict (cs ++ [c]) (ss ++ [s]) → valid_codes dict cs ss.
Proof.
  intros Hv. pose proof (vc_len _ _ _ Hv) as Hl. rewrite !length_app in Hl. simpl in Hl.
  assert (∀ k c', cs !! k = Some c' → (cs ++ [c]) !! k = Some c') as Hcs by (intros; by apply lookup_app_l_Some).
  assert (∀ k t, (k < length cs)%nat → (ss ++ [s]) !! k = Some t → ss !! k = Some t) as Hss.
  { intros k t Hk Ht. rewrite lookup_app_l in Ht by lia. done. }
  split; [lia|..].
  - intros k c' Hk. by apply (vc_range _ _ _ Hv), Hcs.
  - intros k c' Hk Hlt. pose proof (lookup_lt_Some _ _ _ Hk). destruct (vc_dict _ _ _ Hv k c' (Hcs _ _ Hk) Hlt) as (x & ? & ?). eauto.
  - intros k c' Hk Hge. pose proof (lookup_lt_Some _ _ _ Hk). pose proof (vc_range _ _ _ Hv k c' (Hcs _ _ Hk)).
    destruct (vc_ref _ _ _ Hv k c' (Hcs _ _ Hk) Hge) as (s0 & x & s' & ? & ? & ?). exists s0, x, s'.
    split; [|split]; apply Hss; done || lia.
Qed.

(** The current match grows to a string that has a code. *)
Lemma valid_extend dict cs ss m sm j x s : valid_codes dict (cs ++ [m]) (ss ++ [sm]) → cs !! j = Some m →
  (ss ++ [sm]) !! S j = Some (x :: s) →
  valid_codes dict (cs ++ [Z.of_nat (length dict) + Z.of_nat j]) (ss ++ [sm ++ [x]]) ∧
  ∀ k y t, (ss ++ [sm]) !! k = Some (y :: t) → ∃ t', (ss ++ [sm ++ [x]]) !! k = Some (y :: t').
Proof.
  intros Hv Hj Hx. pose proof (vc_len _ _ _ Hv) as Hl. rewrite !length_app in Hl. simpl in Hl.
  pose proof (lookup_lt_Some _ _ _ Hj) as Hjl.
  assert (ss !! j = Some sm) as Hsj.
  { assert ((cs ++ [m]) !! j = Some m) as Hj' by (by apply lookup_app_l_Some).
    pose proof (vc_functional _ _ _ j (length cs) m Hv Hj' (list_lookup_middle _ _ _ _ eq_refl)) as Ef.
    rewrite (list_lookup_middle ss [] sm (length cs)), lookup_app_l in Ef by lia. done. }
  assert (∀ k y t, (ss ++ [sm]) !! k = Some (y :: t) → ∃ t', (ss ++ [sm ++ [x]]) !! k = Some (y :: t')) as Hhd.
  { intros k y t [[Hk Hk']|[-> ->]]%lookup_snoc_Some; [exists t; by apply lookup_app_l_Some|].
    exists (t ++ [x]). by apply list_lookup_middle. }
  split; [|done]. apply valid_snoc; [by eapply valid_prefix|lia|lia|]. intros _. cbv zeta.
  replace (Z.to_nat _) with j by lia. destruct (Hhd _ _ _ Hx) as [t' Ht']. exists sm, x, t'.
  split; [by apply lookup_app_l_Some|]. done.
Qed.

(** The current match is emitted and restarts with one item. *)
Lemma valid_emit dict cs ss m sm i x : valid_codes dict (cs ++ [m]) (ss ++ [sm]) → 0 ≤ i → dict !! Z.to_nat i = Some x →
  valid_codes dict ((cs ++ [m]) ++ [i]) ((ss ++ [sm]) ++ [[x]]).
Proof.
  intros Hv Hi Hx. pose proof (lookup_lt_Some _ _ _ Hx). apply valid_snoc; [done|lia|by exists x|lia].
Qed.

(** ** The encoder *)
Section EncodeFacts.
Context {M : Type} `{Hmap : MapLaws M Substring Z}.
Context (Hkeys : ∀ c x, 0 ≤ c ≤ kNoPrefix → map_key (c, x)).
Implicit Types (g : gmap Substring Z) (dict cs : list Z).

(** The map of the one-item substrings of [dict]. *)
Definition len1_map g dict : Prop :=
  size g = length dict ∧ ∀ k, is_Some (g !! k) ↔ k.1 = kNoPrefix ∧ k.2 ∈ dict.

Lemma kNoPrefix_val : kNoPrefix = 2 ^ 32 - 3.
Proof. done. Qed.

Lemma collect_len1_spec input m g dict : map_rep m g → len1_map g dict → NoDup dict →
  Z.of_nat (length dict + length input) < map_limit →
  returns (collect_len1 m input dict) (λ '(m', dict'), ∃ g', map_rep m' g' ∧ len1_map g' dict' ∧ NoDup dict' ∧
    (∀ x, x ∈ dict' ↔ x ∈ dict ∨ x ∈ input) ∧ (length dict' ≤ length dict + length input)%nat).
Proof.
  revert m g dict. induction input as [|x input IH]; intros m g dict Hr Hd Hnd Hlim; cbn [collect_len1].
  - exists g. split; [done|]. split; [done|]. split; [done|]. split; [set_solver|lia].
  - eapply returns_bind; [apply (map_try_emplace_rep m g); [done|apply Hkeys; rewrite kNoPrefix_val; lia|destruct Hd; simpl in Hlim; lia]|].
    intros [[m' w] ins] (Hr' & _ & ->). destruct Hd as [Hs Hdom]. specialize (Hdom (kNoPrefix, x)) as Hx. simpl in Hx.
    destruct (g !! (kNoPrefix, x)) as [c|] eqn:Eg.
    + rewrite bool_decide_eq_false_2 by done. simpl in Hr'. rewrite insert_id in Hr' by done.
      eapply returns_mono; [apply (IH m' g dict); [done|done|done|simpl in Hlim; lia]|].
      intros [m2 d2] (g2 & ? & ? & ? & Hel & Hl). exists g2. split; [done|]. split; [done|]. split; [done|].
      split; [|simpl; lia]. intros y. rewrite Hel, elem_of_cons. assert (x ∈ dict) by (by apply Hx). naive_solver.
    + rewrite bool_decide_eq_true_2 by done. simpl in Hr'.
      assert (x ∉ dict) as Hnx by (intros Hin; destruct (proj2 Hx) as [? ?]; done).
      eapply returns_mono; [apply (IH m' (<[(kNoPrefix, x) := 0]> g) (dict ++ [x])); [done| | |]|].
      * split; [rewrite map_size_insert_None, length_app by done; simpl; lia|]. intros [p y]. simpl.
        rewrite lookup_insert_is_Some, Hdom, elem_of_app, list_elem_of_singleton. simpl. split.
        -- intros [[= <- <-]|[_ [? ?]]]; auto.
        -- intros [-> [Hy| ->]]; [|by left]. destruct (decide (y = x)) as [->|]; [by left|]. right. split; [congruence|done].
      * apply NoDup_app. split; [done|]. split; [set_solver|apply NoDup_singleton].
      * rewrite length_app. simpl in *. lia.
      * intros [m2 d2] (g2 & ? & ? & ? & Hel & Hl). rewrite length_app in Hl. exists g2. split; [done|]. split; [done|]. split; [done|].
        split; [|simpl in *; lia]. intros y. rewrite Hel. set_solver.
Qed.

Lemma remap_spec m g dict out : map_rep m g → len1_map g dict → NoDup dict → Z.of_nat (length dict) < map_limit →
  Z.of_nat (length dict) ≤ 2 ^ 32 →
  returns (remap_len1 m dict out) (λ '(m', out'), out' = out ++ dict ∧ ∃ g', map_rep m' g' ∧ len1_map g' dict ∧
    ∀ i x, dict !! i = Some x → g' !! (kNoPrefix, x) = Some (Z.of_nat i)).
Proof.
  intros Hr Hd Hnd Hlim Hbig. unfold remap_len1.
  eapply returns_mono; [apply (returns_for_range (λ i '(m', out'), out' = out ++ take (Z.to_nat i) dict ∧
    ∃ g', map_rep m' g' ∧ len1_map g' dict ∧
      ∀ j x, Z.of_nat j < i → dict !! j = Some x → g' !! (kNoPrefix, x) = Some (Z.of_nat j))); [lia| |]|].
  - split; [by rewrite app_nil_r|]. exists g. split; [done|]. split; [done|lia].
  - intros i [m' out'] Hi (-> & g' & Hr' & [Hs Hdom] & Hg).
    eapply returns_bind; [apply returns_aget; [lia|]; intros x Hx; exact Hx|]. cbn beta. intros x Hx.
    eapply returns_bind; [apply (map_put_rep m' g'); [done|apply Hkeys; rewrite kNoPrefix_val; lia|lia]|]. cbn beta. intros m2 Hr2.
    rewrite cast_id in Hr2 by lia. assert (is_Some (g' !! (kNoPrefix, x))) as [c Hc].
    { apply Hdom. split; [done|]. apply list_elem_of_lookup. eauto. }
    cbn [returns]. split; [replace (Z.to_nat (i + 1)) with (S (Z.to_nat i)) by lia; by rewrite (take_S_r _ _ x), app_assoc|].
    exists (<[(kNoPrefix, x) := i]> g'). split; [done|]. split.
    + split; [by erewrite map_size_insert_Some|]. intros k. rewrite lookup_insert_is_Some, Hdom. split; [|intros ?; destruct (decide ((kNoPrefix, x) = k)); auto].
      intros [<-|[_ ?]]; [|done]. split; [done|]. apply list_elem_of_lookup. eauto.
    + intros j y Hj Hy. destruct (decide (j = Z.to_nat i)) as [->|Hne].
      * simplify_eq. rewrite lookup_insert_eq. f_equal. lia.
      * rewrite lookup_insert_ne; [apply Hg; [lia|done]|]. intros [= ->]. apply Hne. eapply NoDup_lookup; eauto.
  - cbn beta. intros [m' out'] (-> & g' & ? & ? & Hg). split; [by rewrite take_ge by lia|]. exists g'. split; [done|]. split; [done|].
    intros i x Hx. apply Hg; [|done]. apply lookup_lt_Some in Hx. lia.
Qed.

(** The main loop with the codes [cs] emitted and the match [m], which stand for
    the strings [ss] and [sm]. *)
Record enc_inv dict cs (ss : list (list Z)) (m : Z) (sm : list Z) g : Prop := {
  ei_valid : valid_codes dict (cs ++ [m]) (ss ++ [sm]);
  ei_size : size g = (length dict + length cs)%nat;
  ei_len1 x c : g !! (kNoPrefix, x) = Some c → 0 ≤ c ∧ dict !! Z.to_nat c = Some x;
  ei_ref p x c : p ≠ kNoPrefix → g !! (p, x) = Some c → ∃ j s, c = Z.of_nat (length dict) + Z.of_nat j ∧
    cs !! j = Some p ∧ (ss ++ [sm]) !! S j = Some (x :: s)
}.

Lemma enc_match dict cs ss m sm g : enc_inv dict cs ss m sm g → 0 ≤ m < Z.of_nat (length dict) + Z.of_nat (length cs).
Proof. intros [Hv _ _ _]. apply (vc_range _ _ _ Hv (length cs)). by apply list_lookup_middle. Qed.

Lemma enc_extend dict cs ss m sm g x c : enc_inv dict cs ss m sm g → m ≠ kNoPrefix → g !! (m, x) = Some c →
  enc_inv dict cs ss c (sm ++ [x]) g.
Proof.
  intros [Hv Hs Hl Hr] Hm Hc. destruct (Hr m x c Hm Hc) as (j & s & -> & Hj & Hx).
  destruct (valid_extend _ _ _ _ _ _ _ _ Hv Hj Hx) as [Hv' Hhd]. split; [done|done|done|].
  intros p y c' Hp Hc'. destruct (Hr p y c' Hp Hc') as (j' & s' & -> & Hj' & Hy). destruct (Hhd _ _ _ Hy) as [t Ht].
  by exists j', t.
Qed.

Lemma enc_emit dict cs ss m sm g x i : enc_inv dict cs ss m sm g → m ≠ kNoPrefix → g !! (m, x) = None →
  g !! (kNoPrefix, x) = Some i →
  enc_inv dict (cs ++ [m]) (ss ++ [sm]) i [x] (<[(m, x) := Z.of_nat (size g)]> g).
Proof.
  intros [Hv Hs Hl Hr] Hm Hn Hi. destruct (Hl x i Hi) as [Hi0 Hix]. pose proof (vc_len _ _ _ Hv) as Hlen.
  rewrite !length_app in Hlen. simpl in Hlen. split.
  - by apply valid_emit.
  - rewrite map_size_insert_None, length_app by done. simpl. lia.
  - intros y c. rewrite lookup_insert_ne by congruence. apply Hl.
  - intros p y c Hp. rewrite lookup_insert_Some. intros [[[= <- <-] <-]|[_ Hc]].
    + exists (length cs), []. split; [lia|]. split; [by apply list_lookup_middle|]. apply list_lookup_middle.
      rewrite length_app. simpl. lia.
    + destruct (Hr p y c Hp Hc) as (j & s & -> & Hj & Hy). exists j, s. split; [done|].
      split; by apply lookup_app_l_Some.
Qed.

Lemma encode_loop_spec input mp g dict cs ss m sm pre : map_rep mp g → enc_inv dict cs ss m sm g →
  (∀ x, x ∈ input → is_Some (g !! (kNoPrefix, x))) →
  Z.of_nat (length dict + length cs + length input) < Z.min map_limit kNoPrefix →
  returns (encode_loop mp m input (pre ++ cs)) (λ '(m', out), ∃ cs' ss', out = pre ++ cs' ∧
    valid_codes dict (cs' ++ [m']) ss' ∧ concat ss' = concat (ss ++ [sm]) ++ input ∧
    (length cs' ≤ length cs + length input)%nat).
Proof.
  revert mp g cs ss m sm. induction input as [|x input IH]; intros mp g cs ss m sm Hr Hi Hx Hlim; cbn [encode_loop].
  - exists cs, (ss ++ [sm]). split; [done|]. split; [apply Hi|]. split; [by rewrite app_nil_r|lia].
  - pose proof (enc_match _ _ _ _ _ _ Hi) as Hm. pose proof (ei_size _ _ _ _ _ _ Hi) as Hsz. cbn [length] in Hlim.
    assert (m ≠ kNoPrefix) as Hmk by lia. rewrite (map_len_rep mp g Hr).
    eapply returns_bind; [apply (map_try_emplace_rep mp g); [done|apply Hkeys; lia|lia]|].
    intros [[mp' w] ins] (Hr' & -> & ->). destruct (g !! (m, x)) as [c|] eqn:Eg; simpl in Hr'.
    + rewrite bool_decide_eq_false_2 by done. rewrite insert_id in Hr' by done. simpl.
      eapply returns_mono; [apply (IH mp' g cs ss c (sm ++ [x])); [done|by apply (enc_extend _ _ _ m)|set_solver|lia]|].
      intros [m' out] (cs' & ss' & -> & Hv & Hc & Hl). exists cs', ss'. split; [done|]. split; [done|]. split; [|lia].
      by rewrite Hc, !concat_app, !concat_cons, !concat_nil, !app_nil_r, <- !app_assoc.
    + rewrite bool_decide_eq_true_2 by done. destruct (Hx x) as [i Hi']; [set_solver|].
      eapply returns_bind; [apply (map_get_rep mp' _ (kNoPrefix, x) Hr'); apply Hkeys; rewrite kNoPrefix_val; lia|].
      cbn beta. intros p ->. rewrite lookup_insert_ne, Hi' by congruence. cbn [deref_value mbind result_bind].
      rewrite <- app_assoc. eapply returns_mono; [apply (IH mp' _ (cs ++ [m]) (ss ++ [sm]) i [x] Hr'); [by apply enc_emit| |]|].
      * intros y Hy. apply lookup_insert_is_Some'. right. apply Hx. set_solver.
      * rewrite length_app. cbn [length]. lia.
      * intros [m' out] (cs' & ss' & -> & Hv & Hc & Hl). rewrite length_app in Hl. simpl in Hl. exists cs', ss'. split; [done|].
        split; [done|]. split; [|cbn [length]; lia]. by rewrite Hc, !concat_app, !concat_cons, !concat_nil, !app_nil_r, <- !app_assoc.
Qed.

(** The output consists of machine words, and its length is at least of the order of
    the square root of that of the input. *)
Lemma LzwEncode_spec input : 2 * Z.of_nat (length input) < Z.min map_limit kNoPrefix →
  returns (LzwEncode (M:=M) input) (λ codes, LzwDecode codes = Ok input ∧
    (Forall (λ x, 0 ≤ x < 2 ^ 64) input → Forall (λ x, 0 ≤ x < 2 ^ 64) codes) ∧
    (2 * length input ≤ length codes * (length codes + 1))%nat).
Proof.
  intros Hlim. unfold LzwEncode. rewrite kNoPrefix_val in Hlim.
  eapply returns_bind; [apply (collect_len1_spec input map_new ∅ []); [apply map_new_rep| |constructor|cbn [length]; lia]|].
  { split; [by rewrite map_size_empty|]. intros k. rewrite lookup_empty. split; [by intros []|set_solver]. }
  intros [m1 d1] (g1 & Hr1 & Hd1 & Hnd1 & Hel & Hl1). cbn [length] in Hl1.
  eapply returns_bind; [apply (Sort_spec CompareLess d1); lia|]. intros d2 [Hp _].
  assert (length d2 = length d1) as Hl2 by (by apply Permutation_length).
  assert (len1_map g1 d2) as Hd2 by (destruct Hd1 as [? Hdom]; split; [lia|]; intros k; by rewrite Hdom, Hp).
  assert (NoDup d2) as Hnd2 by (by rewrite Hp).
  eapply returns_bind; [apply (remap_spec m1 g1 d2); [done|done|done|lia|lia]|]. intros [m2 out] (-> & g2 & Hr2 & [Hs2 Hdom2] & Hg2).
  rewrite (map_len_rep m2 g2 Hr2), Hs2, Z.eqb_refl. cbn [CHECK mbind result_bind].
  assert (∀ x, x ∈ input → ∃ i, d2 !! i = Some x ∧ g2 !! (kNoPrefix, x) = Some (Z.of_nat i)) as Hfind.
  { intros x Hx. assert (x ∈ d2) as [i Hi]%list_elem_of_lookup by (rewrite Hp; apply Hel; by right). eauto. }
  destruct input as [|x input].
  { cbn [returns]. assert (d2 = []) as ->; [|split; [done|]; split; [intros _; by constructor|simpl; lia]]. destruct d1 as [|y d1]; [by apply Permutation_nil_r in Hp|].
    destruct (proj1 (Hel y)) as [Hy|Hy]; [apply list_elem_of_here|by apply elem_of_nil in Hy..]. }
  eapply returns_bind; [apply (map_get_rep m2 g2 (kNoPrefix, x) Hr2); apply Hkeys; rewrite kNoPrefix_val; lia|]. cbn beta. intros p ->.
  destruct (Hfind x) as (i & Hi & ->); [apply list_elem_of_here|]. cbn [deref_value mbind result_bind].
  pose proof (lookup_lt_Some _ _ _ Hi). cbn [length] in Hlim, Hl1.
  eapply returns_bind.
  { rewrite <- (app_nil_r (_ ++ d2)). apply (encode_loop_spec input m2 g2 d2 [] [] (Z.of_nat i) [x] ([Z.of_nat (length d2)] ++ d2)).
    - done.
    - split; [apply (valid_snoc d2 [] []); [by split|simpl; lia|intros _; exists x; by rewrite Nat2Z.id|lia]|simpl; lia| |].
      + intros y c Hc. assert (y ∈ d2) as [j Hj]%list_elem_of_lookup by (apply (Hdom2 (kNoPrefix, y)); eauto).
        rewrite (Hg2 j y Hj) in Hc. simplify_eq. split; [lia|]. by rewrite Nat2Z.id.
      + intros p y c Hp' Hc. destruct (proj1 (Hdom2 (p, y))); [eauto|done].
    - intros y Hy. destruct (Hfind y) as (j & _ & ->); [by right|]. eauto.
    - rewrite kNoPrefix_val. cbn [length]. lia. }
  intros [m' out] (cs & ss & -> & Hv & Hc & Hl). cbn [returns]. cbn [length] in Hl. rewrite <- app_assoc, <- !app_assoc.
  split; [|split].
  - rewrite (LzwDecode_valid d2 (cs ++ [m']) ss Hv); [|rewrite length_app; cbn [length]; lia|by destruct cs].
    by rewrite Hc.
  - intros Hw. rewrite Forall_app, Forall_app. split; [repeat constructor; lia|]. split.
    + apply Forall_forall. intros y Hy. rewrite Hp, Hel in Hy. destruct Hy as [[]%elem_of_nil|Hy].
      by apply (proj1 (Forall_forall _ _) Hw).
    + apply Forall_lookup. intros k c Hk. pose proof (vc_range _ _ _ Hv k c Hk). apply lookup_lt_Some in Hk.
      rewrite length_app in Hk. cbn [length] in Hk. lia.
  - pose proof (vc_total _ _ _ Hv) as Ht. rewrite Hc in Ht. change (concat _ ++ input) with (x :: input) in Ht.
    rewrite !length_app in *. cbn [length] in *. nia.
Qed.

(** [C33] Decoding inverts encoding: [LzwEncode] terminates on every input of fewer
    than half as many items as the map can hold, and [LzwDecode] returns the input
    from its output. *)
Theorem lzw_roundtrip input : 2 * Z.of_nat (length input) < Z.min map_limit kNoPrefix →
  returns (LzwEncode (M:=M) input) (λ codes, LzwDecode codes = Ok input).
Proof. intros Hl. eapply returns_mono; [by apply LzwEncode_spec|]. by intros codes [? _]. Qed.

End EncodeFacts.

(** ** The instance: the hash table of [DenseMap.v], buckets of 24 bytes *)
#[export] Existing Instance SubstringInfo.
#[export] Instance SubstringInfo_laws : DenseMapInfoLaws Substring :=
  Info_pair_laws _ _ Info_unsigned_laws Info_ulong_laws.

Notation CodeMap := (DM.DenseMap Substring Z).
Definition code_map_ops : MapOps CodeMap Substring Z := DM.DenseMap_ops 4096 24 0 ((0, 0), 0).
Lemma bucket24 : 0 < 24 ≤ 4096.
Proof. lia. Qed.
Definition code_map_laws : @MapLaws CodeMap Substring Z _ _ code_map_ops :=
  DM.DenseMap_laws 4096 24 0 ((0, 0), 0) DM.page4k bucket24.

(** No code collides with the reserved keys of the table. *)
Lemma code_map_keys c x : 0 ≤ c ≤ kNoPrefix → map_key (MapLaws:=code_map_laws) (c, x).
Proof. intros Hc. change (DM.key_ok (c, x)). rewrite kNoPrefix_val in Hc. split; intros E; apply (f_equal fst) in E; vm_compute in E; lia. Qed.

Lemma lzw_roundtrip_witness :
  returns (LzwEncode (H:=code_map_ops) [5; 7; 5; 7; 5; 7; 7; 9]) (λ codes, LzwDecode codes = Ok [5; 7; 5; 7; 5; 7; 7; 9]).
Proof.
  apply (lzw_roundtrip (Hmap:=code_map_laws) code_map_keys [5; 7; 5; 7; 5; 7; 7; 9]).
  change (map_limit (MapLaws:=code_map_laws)) with (2 ^ 28). reflexivity.
Defined.

End LZW.
