(* ===== verification/StackStore.v ===== *)
(** * StackStore: the compressed store of stack traces

    Models [sanitizer_stack_store.h] and [sanitizer_stack_store.cpp].  Traces are
    appended to blocks of frames; a block that is complete can be packed with delta
    or LZW compression and is unpacked when a trace of it is asked for.  The
    memory a block points to is a value of [BlockData]: frames, with a flag for
    pages made read-only, or a packed image.  The block size and number are
    arguments (the source has [0x100000] frames and [0x1000] blocks), as are the page size
    and the map of the LZW encoder.  The mutex of a block guards each of its operations; the
    lock-free parts of [Store] are steps of their own in the interleaving semantics below. *)
From S2P Require Import Prelude Common Leb128 DenseMap Lzw.
Import Leb LZW.

Module Stacks.

(** ** Delta coding

    The encoder is the bytes written so far, the room left and the previous value. *)
Record SLeb128Encoder := mkEnc { enc_out : list Z; enc_room : nat; enc_previous : Z }.

Definition encoder_put (e : SLeb128Encoder) (v : Z) : result SLeb128Encoder :=
  let diff := signed 64 (u64 (v - enc_previous e)) in
  bs ← EncodeSLEB128 diff (enc_room e);
  Ok (mkEnc (enc_out e ++ bs) (enc_room e - length bs) v).

(** [for (...; ++encoder) *encoder = v]. *)
Fixpoint encode_all (e : SLeb128Encoder) (vs : list Z) : result SLeb128Encoder :=
  match vs with
  | [] => Ok e
  | v :: vs => e ← encoder_put e v; encode_all e vs
  end.

(** [*decoder]: the value, and the decoder after it.  [previous] stays undefined
    when the input ends inside a number. *)
Definition decoder_get (input : list Z) (previous : Z) : result (Z * list Z) :=
  '(rest, diff) ← DecodeSLEB128 input;
  match diff with
  | None => Fault BadAccess
  | Some diff => Ok (u64 (previous + diff), rest)
  end.

(** All values up to [end]; every value takes at least one byte. *)
Fixpoint decode_all (fuel : nat) (input : list Z) (previous : Z) : result (list Z) :=
  match input with
  | [] => Ok []
  | _ =>
      match fuel with
      | O => Fault OutOfFuel
      | S fuel =>
          '(v, rest) ← decoder_get input previous;
          vs ← decode_all fuel rest v;
          Ok (v :: vs)
      end
  end.

Definition CompressDelta (from : list Z) (room : nat) : result (list Z) :=
  e ← encode_all (mkEnc [] room 0) from; Ok (enc_out e).

Definition UncompressDelta (from : list Z) (n : Z) : result (list Z) :=
  to ← decode_all (length from) from 0;
  CHECK (Z.of_nat (length to) =? n);;
  Ok to.

Section Lzw.
Context {M : Type} `{MapOps M Substring Z}.

Definition CompressLzw (from : list Z) (room : nat) : result (list Z) :=
  vs ← LzwEncode (M:=M) from;
  e ← encode_all (mkEnc [] room 0) vs;
  Ok (enc_out e).

End Lzw.

Definition UncompressLzw (from : list Z) (n : Z) : result (list Z) :=
  vs ← decode_all (length from) from 0;
  to ← LzwDecode vs;
  CHECK (Z.of_nat (length to) =? n);;
  Ok to.

(** ** Traces *)
Record StackTrace := mkTrace { trace : list Z; size : Z; tag : Z }.
Definition no_trace : StackTrace := mkTrace [] 0 0.

Record StackTraceHeader := mkHeader { h_size : Z; h_tag : Z }.
Definition kStackSizeBits : Z := 8.

Definition header_of_trace (t : StackTrace) : result StackTraceHeader :=
  let h := mkHeader (u8 (Min (size t) (Z.shiftl 1 8 - 1))) (u8 (tag t)) in
  CHECK (tag t =? h_tag h);;
  Ok h.

Abbreviation header_of_uptr h := (mkHeader (u8 (Z.land h (Z.shiftl 1 kStackSizeBits - 1))) (u8 (Z.shiftr h kStackSizeBits))) (only parsing).

Abbreviation ToUptr h := (Z.lor (h_size h) (Z.shiftl (h_tag h) kStackSizeBits)) (only parsing).

(** ** Blocks *)
Inductive Compression := None_ | Delta | LZW.
Inductive State := Storing | Packed | Unpacked.

(** [sizeof(PackedHeader)] and the offset of its [data]. *)
Definition sizeof_PackedHeader : Z := 16.
Definition offsetof_data : Z := 9.

Inductive BlockData :=
  | Null
  | Frames (readonly : bool) (fs : list Z)
  | Image (p_size : Z) (p_type : Compression) (p_data : list Z).

Record BlockInfo := mkBlock { data_ : BlockData; stored_ : Z; state : State }.
Definition new_block : BlockInfo := mkBlock Null 0 Storing.

#[export] Instance Compression_eq_dec : EqDecision Compression.
Proof. solve_decision. Defined.
#[export] Instance State_eq_dec : EqDecision State.
Proof. solve_decision. Defined.
#[export] Instance BlockData_eq_dec : EqDecision BlockData.
Proof. solve_decision. Defined.

Definition set_data (b : BlockInfo) (d : BlockData) : BlockInfo := mkBlock d (stored_ b) (state b).
Definition set_state (b : BlockInfo) (s : State) : BlockInfo := mkBlock (data_ b) (stored_ b) s.

Section Ops.
Variables (kBlockSizeFrames kBlockCount PageSize : Z).
Context {M : Type} `{MapOps M Substring Z}.

Definition kBlockSizeBytes : Z := kBlockSizeFrames * 8.

Record StackStore := mkStore { total_frames_ : Z; allocated_ : Z; blocks_ : list BlockInfo }.
Implicit Types (st : StackStore) (b : BlockInfo).

Definition GetBlockIdx (frame_idx : Z) : Z := frame_idx / kBlockSizeFrames.
Definition GetInBlockIdx (frame_idx : Z) : Z := frame_idx mod kBlockSizeFrames.
Definition IdToOffset (id : Z) : result Z := CHECK (negb (id =? 0));; Ok (u32 (id - 1)).
Definition OffsetToId (id : Z) : Z := u32 (u32 id + 1).

Definition new_StackStore : StackStore := mkStore 0 0 (replicate (Z.to_nat kBlockCount) new_block).

Definition get_block st (i : Z) : result BlockInfo := aget (blocks_ st) i.
Definition put_block st (i : Z) b : result StackStore :=
  bs ← aset (blocks_ st) i b; Ok (mkStore (total_frames_ st) (allocated_ st) bs).
Definition Map st (sz : Z) : StackStore := mkStore (total_frames_ st) (u64 (allocated_ st + sz)) (blocks_ st).
Definition Unmap st (sz : Z) : StackStore := mkStore (total_frames_ st) (u64 (allocated_ st - sz)) (blocks_ st).

Definition Stored b (n : Z) : BlockInfo * bool :=
  (mkBlock (data_ b) (u32 (stored_ b + n)) (state b), u64 (n + stored_ b) =? kBlockSizeFrames).

(** [blocks_[i].Stored(n)], with the flag as the number it adds to [*pack]. *)
Definition block_Stored st (i n : Z) : result (StackStore * Z) :=
  b ← get_block st i;
  let '(b, done) := Stored b n in
  st ← put_block st i b;
  Ok (st, if done : bool then 1 else 0).

(** [GetOrCreate] and [Create]: fresh memory from [Map] is zero. *)
Definition GetOrCreate st (i : Z) : result StackStore :=
  b ← get_block st i;
  match data_ b with
  | Null =>
      put_block (Map st kBlockSizeBytes) i (set_data b (Frames false (replicate (Z.to_nat kBlockSizeFrames) 0)))
  | _ => Ok st
  end.

(** One attempt of [Alloc]: the start of the range. *)
Definition fetch_add st (count : Z) : StackStore * Z :=
  (mkStore (u64 (total_frames_ st + count)) (allocated_ st) (blocks_ st), total_frames_ st).

(** [Alloc]: the index of the first frame, and the number of blocks completed.
    A range that crosses a block boundary is given up; with blocks of at least
    [2 * count] frames the second attempt succeeds. *)
Fixpoint Alloc_loop (fuel : nat) st (count pack : Z) : result (StackStore * Z * Z) :=
  match fuel with
  | O => Fault OutOfFuel
  | S fuel =>
      let '(st, start) := fetch_add st count in
      let block_idx := GetBlockIdx start in
      let last_idx := GetBlockIdx (u64 (start + count - 1)) in
      if block_idx =? last_idx then
        CHECK (block_idx <? kBlockCount);;
        st ← GetOrCreate st block_idx;
        Ok (st, start, pack)
      else
        CHECK (count <=? kBlockSizeFrames);;
        let in_first := kBlockSizeFrames - GetInBlockIdx start in
        '(st, p1) ← block_Stored st block_idx in_first;
        '(st, p2) ← block_Stored st last_idx (count - in_first);
        Alloc_loop fuel st count (pack + p1 + p2)
  end.
Definition Alloc st (count : Z) : result (StackStore * Z * Z) := Alloc_loop 2 st count 0.

(** Writes words into the frames of a block. *)
Definition write_words (d : BlockData) (at_ : Z) (ws : list Z) : result BlockData :=
  match d with
  | Frames false fs =>
      fs ← for_range 0 (Z.of_nat (length ws)) (λ i fs, w ← aget ws i; aset fs (at_ + i) w) fs;
      Ok (Frames false fs)
  | Null => Fault NullDeref
  | _ => Fault BadAccess
  end.

(** The header and the frames [Store] writes. *)
Definition trace_words (t : StackTrace) (h : StackTraceHeader) : result (list Z) :=
  if h_size h <=? Z.of_nat (length (trace t)) then Ok (ToUptr h :: take (Z.to_nat (h_size h)) (trace t))
  else Fault OutOfBounds.

Definition write_trace st (idx : Z) (ws : list Z) : result StackStore :=
  b ← get_block st (GetBlockIdx idx);
  d ← write_words (data_ b) (GetInBlockIdx idx) ws;
  put_block st (GetBlockIdx idx) (set_data b d).

(** The result is the store, the id and [*pack]; [None] when the call leaves it alone. *)
Definition Store st (t : StackTrace) : result (StackStore * Z * option Z) :=
  if (size t =? 0) && (tag t =? 0) then Ok (st, 0, None)
  else
    h ← header_of_trace t;
    '(st, idx, pack) ← Alloc st (h_size h + 1);
    ws ← trace_words t h;
    st ← write_trace st idx ws;
    '(st, p) ← block_Stored st (GetBlockIdx idx) (h_size h + 1);
    Ok (st, OffsetToId idx, Some (pack + p)).

Definition uncompress (type : Compression) (data : list Z) : result (list Z) :=
  match type with
  | Delta => UncompressDelta data kBlockSizeFrames
  | LZW => UncompressLzw data kBlockSizeFrames
  | None_ => Fault CheckFailed
  end.

Definition compress (type : Compression) (fs : list Z) : result (list Z) :=
  let room := Z.to_nat (kBlockSizeBytes - offsetof_data) in
  match type with
  | Delta => CompressDelta fs room
  | LZW => CompressLzw (M:=M) fs room
  | None_ => Fault CheckFailed
  end.

(** [GetOrUnpack]: the memory of the block afterwards is what [Get] returns. *)
Definition GetOrUnpack st (i : Z) : result StackStore :=
  b ← get_block st i;
  match state b with
  | Storing => put_block st i (set_state b Unpacked)
  | Unpacked => Ok st
  | Packed =>
      match data_ b with
      | Null => Fault CheckFailed
      | Frames _ _ => Fault BadAccess
      | Image sz type data =>
          CHECK (sz <=? kBlockSizeBytes);;
          CHECK (sizeof_PackedHeader <=? sz);;
          packed_size_aligned ← RoundUpTo sz PageSize;
          let st := Map st kBlockSizeBytes in
          fs ← uncompress type data;
          CHECK (kBlockSizeFrames =? Z.of_nat (length fs));;
          let st := Unmap st packed_size_aligned in
          put_block st i (mkBlock (Frames true fs) (stored_ b) Unpacked)
      end
  end.

Definition Load st (id : Z) : result (StackStore * StackTrace) :=
  if id =? 0 then Ok (st, no_trace)
  else
    idx ← IdToOffset id;
    let block_idx := GetBlockIdx idx in
    CHECK (block_idx <? kBlockCount);;
    st ← GetOrUnpack st block_idx;
    b ← get_block st block_idx;
    match data_ b with
    | Null => Ok (st, no_trace)
    | Frames _ fs =>
        w ← aget fs (GetInBlockIdx idx);
        let h := header_of_uptr w in
        Ok (st, mkTrace (take (Z.to_nat (h_size h)) (drop (Z.to_nat (GetInBlockIdx idx + 1)) fs)) (h_size h) (h_tag h))
    | Image _ _ _ => Fault BadAccess
    end.

(** [BlockInfo::Pack]; the result is the number of released bytes. *)
Definition block_Pack st (type : Compression) (i : Z) : result (StackStore * Z) :=
  if bool_decide (type = None_) then Ok (st, 0)
  else
    b ← get_block st i;
    match state b with
    | Unpacked | Packed => Ok (st, 0)
    | Storing =>
        match data_ b with
        | Null => Ok (st, 0)
        | Image _ _ _ => Fault BadAccess
        | Frames ro fs =>
            let '(b, full) := Stored b 0 in
            if negb full then Ok (st, 0)
            else
              let st := Map st kBlockSizeBytes in
              packed ← compress type fs;
              let sz := offsetof_data + Z.of_nat (length packed) in
              if kBlockSizeBytes - sz <? kBlockSizeBytes / 8 then
                let st := Unmap st kBlockSizeBytes in
                st ← put_block st i (mkBlock (Frames true fs) (stored_ b) Unpacked);
                Ok (st, 0)
              else
                packed_size_aligned ← RoundUpTo sz PageSize;
                let st := Unmap st (kBlockSizeBytes - packed_size_aligned) in
                let st := Unmap st kBlockSizeBytes in
                st ← put_block st i (mkBlock (Image sz type packed) (stored_ b) Packed);
                Ok (st, kBlockSizeBytes - packed_size_aligned)
        end
    end.

Definition Pack st (type : Compression) : result (StackStore * Z) :=
  for_range 0 kBlockCount (λ i '(st, res),
    '(st, r) ← block_Pack st type i; Ok (st, u64 (res + r))) (st, 0).

Definition IsPacked b : bool := bool_decide (state b = Packed).

End Ops.

(** The constants of the source. *)
Abbreviation kBlockSizeFrames := (0x100000) (only parsing).
Abbreviation kBlockCount := (0x1000) (only parsing).

(** ** Delta coding is a round trip *)
Definition is_word (w : Z) : Prop := 0 ≤ w < 2 ^ 64.

Lemma signed_range x : - 2 ^ 63 ≤ signed 64 x < 2 ^ 63.
Proof.
  unfold signed. pose proof (cast_range 64 x ltac:(lia)). change (2 ^ (64 - 1)) with (2 ^ 63).
  destruct (Z.ltb_spec (u64 x) (2 ^ 63)); lia.
Qed.

Lemma previous_plus_diff prev v : is_word v → u64 (prev + signed 64 (u64 (v - prev))) = v.
Proof.
  intros Hv. unfold signed. rewrite cast_cast. set (d := u64 (v - prev)).
  assert (u64 (prev + d) = v) as Ed.
  { unfold d, cast. rewrite Zplus_mod_idemp_r. replace (prev + (v - prev)) with v by lia. by apply Z.mod_small. }
  destruct (d <? _); [done|]. rewrite <- Ed. unfold cast.
  replace (prev + (d - 2 ^ 64)) with (prev + d + (-1) * 2 ^ 64) by lia. apply Z_mod_plus_full.
Qed.

Lemma encode_all_spec vs prev : Forall is_word vs →
  ∃ bs, (length vs ≤ length bs)%nat ∧
    (∀ out room, ∃ e, encode_all (mkEnc out room prev) vs = Ok e ∧ enc_out e = out ++ take room bs) ∧
    (∀ fuel, (length bs ≤ fuel)%nat → decode_all fuel bs prev = Ok vs).
Proof.
  intros Hvs. revert prev. induction Hvs as [|v vs Hv Hvs IH]; intros prev.
  - exists []. split; [done|]. split; [|by intros []]. intros out room. eexists. split; [done|]. simpl.
    by rewrite take_nil, app_nil_r.
  - destruct (sleb128_spec (signed 64 (u64 (v - prev))) (signed_range _)) as (b1 & Henc & _ & _ & _ & Hdec & _).
    destruct (IH v) as (b2 & Hlen & Henc2 & Hdec2). exists (b1 ++ b2).
    assert (b1 ≠ []) as Hne by (intros ->; specialize (Hdec []); done).
    assert (0 < length b1)%nat by (destruct b1; [done|simpl; lia]).
    split; [rewrite length_app; simpl; lia|]. split.
    + intros out room. cbn [encode_all]. unfold encoder_put. cbn [enc_previous enc_room enc_out]. rewrite Henc. cbn [mbind result_bind].
      destruct (Henc2 (out ++ take room b1) (room - length (take room b1))%nat) as (e & -> & Ee).
      exists e. split; [done|]. rewrite Ee, take_app, <- app_assoc. do 3 f_equal. rewrite length_take. lia.
    + intros fuel Hf. rewrite length_app in Hf. destruct fuel as [|fuel]; [lia|]. cbn [decode_all].
      destruct (b1 ++ b2) as [|z l] eqn:El; [by destruct b1|]. rewrite <- El. unfold decoder_get. rewrite Hdec. cbn [mbind result_bind].
      rewrite previous_plus_diff by done. rewrite Hdec2 by lia. done.
Qed.

(** What a compression routine has to do for the store: with [room] bytes it writes
    the first [room] of a sequence of bytes from which the frames can be recovered. *)
Definition compresses (enc : nat → result (list Z)) (dec : list Z → result (list Z)) (fs : list Z) : Prop :=
  ∃ bs, (7 ≤ length bs)%nat ∧ (∀ room, enc room = Ok (take room bs)) ∧ dec bs = Ok fs.

Lemma CompressDelta_ok fs n : Forall is_word fs → n = Z.of_nat (length fs) → 7 ≤ n →
  compresses (CompressDelta fs) (λ bs, UncompressDelta bs n) fs.
Proof.
  intros Hw -> Hn. destruct (encode_all_spec fs 0 Hw) as (bs & Hlen & Henc & Hdec). exists bs. split; [lia|]. split.
  - intros room. unfold CompressDelta. destruct (Henc [] room) as (e & -> & Ee). cbn. by rewrite Ee.
  - unfold UncompressDelta. rewrite Hdec by done. cbn. by rewrite Z.eqb_refl.
Qed.

Section LzwCodec.
Context {M : Type} `{Hmap : MapLaws M Substring Z}.
Context (Hkeys : ∀ c x, 0 ≤ c ≤ kNoPrefix → map_key (c, x)).

Lemma CompressLzw_ok fs n : Forall is_word fs → n = Z.of_nat (length fs) → 32 ≤ n → 2 * n < Z.min map_limit kNoPrefix →
  compresses (CompressLzw (M:=M) fs) (λ bs, UncompressLzw bs n) fs.
Proof.
  intros Hw -> Hn Hlim. pose proof (LzwEncode_spec Hkeys fs Hlim) as He. unfold compresses, CompressLzw.
  destruct (LzwEncode fs) as [codes|]; [|done]. destruct He as (Hdec & Hcw & Hsq).
  destruct (encode_all_spec codes 0 (Hcw Hw)) as (bs & Hlen & Henc & Hdeca). exists bs.
  split; [nia|]. split.
  - intros room. cbn [mbind result_bind]. destruct (Henc [] room) as (e & -> & Ee). cbn. by rewrite Ee.
  - unfold UncompressLzw. rewrite Hdeca by done. cbn [mbind result_bind]. rewrite Hdec. cbn. by rewrite Z.eqb_refl.
Qed.

End LzwCodec.

(** ** Trace headers *)
Lemma header_roundtrip h : 0 ≤ h_size h < 256 → 0 ≤ h_tag h < 256 → header_of_uptr (ToUptr h) = h ∧ is_word (ToUptr h).
Proof.
  destruct h as [sz tg]. cbn [h_size h_tag]. intros Hs Ht. unfold kStackSizeBits. cbn [h_size h_tag].
  rewrite Z.shiftl_mul_pow2 by lia. rewrite (lor_shift_add 8) by lia. change (2 ^ 8) with 256.
  change (Z.shiftl 1 8 - 1) with (Z.ones 8). rewrite Z.land_ones, Z.shiftr_div_pow2 by lia. change (2 ^ 8) with 256.
  rewrite Z.mod_add, Z.mod_small, Z.div_add, Z.div_small, Z.add_0_l, !cast_id by lia. split; [done|].
  unfold is_word. lia.
Qed.

(** The part of a trace the store keeps: at most 255 frames. *)
Definition stored_size (t : StackTrace) : Z := Z.min (size t) 255.
Definition frames_of (t : StackTrace) : Z := stored_size t + 1.
Definition header_of (t : StackTrace) : StackTraceHeader := mkHeader (stored_size t) (tag t).
Definition words_of (t : StackTrace) : list Z := ToUptr (header_of t) :: take (Z.to_nat (stored_size t)) (trace t).
Definition loaded (t : StackTrace) : StackTrace := mkTrace (take (Z.to_nat (stored_size t)) (trace t)) (stored_size t) (tag t).

Record trace_ok (t : StackTrace) : Prop := {
  to_nonempty : ¬ (size t = 0 ∧ tag t = 0);
  to_size : 0 ≤ size t ≤ Z.of_nat (length (trace t));
  to_tag : 0 ≤ tag t < 256;
  to_words : Forall is_word (trace t)
}.

Section TraceFacts.
Context (t : StackTrace) (Ht : trace_ok t).

Lemma stored_size_range : 0 ≤ stored_size t < 256.
Proof. destruct Ht as [_ ? _ _]. unfold stored_size. lia. Qed.

Lemma header_of_trace_ok : header_of_trace t = Ok (header_of t).
Proof.
  pose proof stored_size_range as Hr. destruct Ht as [_ Hs Htag _]. unfold header_of_trace.
  assert (Min (size t) (Z.shiftl 1 8 - 1) = stored_size t) as ->.
  { unfold Min, stored_size. change (Z.shiftl 1 8 - 1) with 255. destruct (Z.ltb_spec (size t) 255); lia. }
  rewrite !cast_id by lia. cbn. by rewrite Z.eqb_refl.
Qed.

Lemma trace_words_ok : trace_words t (header_of t) = Ok (words_of t).
Proof.
  destruct Ht as [_ Hs _ _]. unfold trace_words. cbn [h_size header_of]. rewrite (proj2 (Z.leb_le _ _)); [done|].
  unfold stored_size. lia.
Qed.

Lemma words_length : Z.of_nat (length (words_of t)) = frames_of t.
Proof.
  pose proof stored_size_range. destruct Ht as [_ Hs _ _]. unfold words_of, frames_of. cbn [length]. rewrite length_take.
  unfold stored_size in *. lia.
Qed.

Lemma words_are_words : Forall is_word (words_of t).
Proof.
  constructor; [apply header_roundtrip; [apply stored_size_range|apply Ht]|]. apply Forall_take, Ht.
Qed.

(** Reading the words of a trace back. *)
Lemma words_loaded : header_of_uptr (ToUptr (header_of t)) = header_of t.
Proof. apply header_roundtrip; [apply stored_size_range|apply Ht]. Qed.

End TraceFacts.

(** ** Concurrent use

    The history of the ranges [fetch_add] has handed out, with what the thread that
    got one has done since: a range inside a block is written after its block exists
    and then counted as stored; the two parts of a range that crosses a boundary are
    only counted. *)
Inductive status := Reserved | Created | Written | Finished | GivenUp (first last : bool).
Record entry := mkEntry { e_start : Z; e_trace : StackTrace; e_status : status }.

Definition e_count (e : entry) : Z := frames_of (e_trace e).
Definition e_end (e : entry) : Z := e_start e + e_count e.
Definition with_status (e : entry) (s : status) : entry := mkEntry (e_start e) (e_trace e) s.

(** Writing a list of words into another. *)
Lemma slice_inserts_same {A} (l k : list A) i : (i + length k ≤ length l)%nat → take (length k) (drop i (list_inserts i k l)) = k.
Proof.
  intros Hl. apply list_eq. intros j. destruct (decide (j < length k)%nat) as [Hj|Hj].
  - rewrite lookup_take_lt, lookup_drop by done. rewrite list_lookup_inserts by lia. f_equal. lia.
  - rewrite lookup_take_ge by lia. symmetry. apply lookup_ge_None. lia.
Qed.

Lemma slice_inserts_other {A} (l k : list A) i j n : (j + n ≤ i ∨ i + length k ≤ j)%nat →
  take n (drop j (list_inserts i k l)) = take n (drop j l).
Proof.
  intros Hd. apply list_eq. intros x. destruct (decide (x < n)%nat) as [Hx|Hx].
  - rewrite !lookup_take_lt, !lookup_drop by done. destruct Hd; [apply list_lookup_inserts_lt; lia|apply list_lookup_inserts_ge; lia].
  - by rewrite !lookup_take_ge by lia.
Qed.

Lemma write_words_ok fs at_ ws : 0 ≤ at_ → at_ + Z.of_nat (length ws) ≤ Z.of_nat (length fs) →
  write_words (Frames false fs) at_ ws = Ok (Frames false (list_inserts (Z.to_nat at_) ws fs)).
Proof.
  intros Ha Hl. apply returns_eq. unfold write_words.
  rbind (apply (returns_for_range (λ i fs', fs' = list_inserts (Z.to_nat at_) (take (Z.to_nat i) ws) fs));
    [lia|done|]; intros i fs' Hi ->;
    destruct (lookup_lt_is_Some_2 ws (Z.to_nat i)) as [w Hw]; [lia|];
    rewrite (proj2 (aget_Ok ws i w)) by auto with lia; cbn [mbind result_bind];
    rewrite aset_Ok by (rewrite length_inserts; lia); cbn [returns];
    replace (Z.to_nat (i + 1)) with (S (Z.to_nat i)) by lia; rewrite (take_S_r _ _ w) by done;
    rewrite list_inserts_app_l, length_take; simpl; f_equal; lia).
  intros fs' ->. cbn [returns]. by rewrite Nat2Z.id, firstn_all.
Qed.

(** Sequences of calls: a trace is stored, the [k]-th id returned so far is loaded,
    the blocks are packed. *)
Inductive store_op := SStore (t : StackTrace) | SLoad (k : nat) | SPack (type : Compression).
Inductive store_out := OStored (pack : option Z) | OLoaded (t : StackTrace) | OReleased (bytes : Z) | ONone.

Definition loaded_trace (o : store_out) : option StackTrace := match o with OLoaded t => Some t | _ => None end.

(** What the loads must return: the first 255 frames of the [k]-th trace. *)
Fixpoint ref_ops (ts : list StackTrace) (ops : list store_op) : list (option StackTrace) :=
  match ops with
  | [] => []
  | SStore t :: ops => None :: ref_ops (ts ++ [t]) ops
  | SLoad k :: ops => (loaded <$> ts !! k) :: ref_ops ts ops
  | SPack _ :: ops => None :: ref_ops ts ops
  end.

(** The frames the calls may take. *)
Definition op_frames (op : store_op) : Z := match op with SStore t => 2 * frames_of t | _ => 0 end.

Definition op_ok (op : store_op) : Prop :=
  match op with SStore t => (size t = 0 ∧ tag t = 0) ∨ trace_ok t | _ => True end.

Section Calls.
Variables (K C PageSize : Z).
Context {M : Type} `{MapOps M Substring Z}.

Definition call st (ids : list Z) (op : store_op) : result (StackStore * list Z * store_out) :=
  match op with
  | SStore t => '(st, id, pack) ← Store K C st t; Ok (st, ids ++ [id], OStored pack)
  | SLoad k =>
      match ids !! k with
      | Some id => '(st, t) ← Load K C PageSize st id; Ok (st, ids, OLoaded t)
      | None => Ok (st, ids, ONone)
      end
  | SPack type => '(st, r) ← Pack (M:=M) K C PageSize st type; Ok (st, ids, OReleased r)
  end.

Fixpoint calls st (ids : list Z) (ops : list store_op) : result (StackStore * list store_out) :=
  match ops with
  | [] => Ok (st, [])
  | op :: ops =>
      '(st, ids, o) ← call st ids op;
      '(st, os) ← calls st ids ops;
      Ok (st, o :: os)
  end.

End Calls.

Section Concurrent.
Context (K C PageSize : Z) {M : Type} `{Hmap : MapLaws M Substring Z}.
Context (Hkeys : ∀ c x, 0 ≤ c ≤ kNoPrefix → map_key (c, x)).
Context (HK : 512 ≤ K ≤ 2 ^ 20) (HC : 0 < C) (HCK : C * K ≤ 2 ^ 32).
Context (Hpage : ∃ p, 12 ≤ p ≤ 16 ∧ PageSize = 2 ^ p) (Haligned : (PageSize | K * 8)).
Context (Hlimit : 2 * K < Z.min map_limit kNoPrefix).
Implicit Types (st : StackStore) (log : list entry) (e : entry) (b : BlockInfo).

Definition e_first e : Z := GetBlockIdx K (e_start e).
Definition e_last e : Z := GetBlockIdx K (e_end e - 1).

(** How much of [0, x) lies in block [i]. *)
Definition clamp (i x : Z) : Z := Z.min K (Z.max 0 (x - i * K)).
(** The frames of an entry in block [i], and those counted in its [stored_]. *)
Definition frames_in (i : Z) e : Z := clamp i (e_end e) - clamp i (e_start e).
Definition stored_in (i : Z) e : Z :=
  match e_status e with
  | Finished => frames_in i e
  | GivenUp first last =>
      (if first && (i =? e_first e) then frames_in i e else 0) + (if last && (i =? e_last e) then frames_in i e else 0)
  | _ => 0
  end.

(** The history from [s] to [total], without gaps. *)
Fixpoint contiguous (s : Z) log (total : Z) : Prop :=
  match log with
  | [] => s = total
  | e :: log => e_start e = s ∧ trace_ok (e_trace e) ∧
      (match e_status e with GivenUp _ _ => e_first e ≠ e_last e | _ => e_first e = e_last e end) ∧
      contiguous (e_end e) log total
  end.

Definition has_data (s : status) : Prop := s = Created ∨ s = Written ∨ s = Finished.
Definition has_words (s : status) : Prop := s = Written ∨ s = Finished.

(** The frames [fs] of block [i] contain the traces written to it. *)
Record frames_ok log (i : Z) (fs : list Z) : Prop := {
  fo_len : Z.of_nat (length fs) = K;
  fo_words : Forall is_word fs;
  fo_trace e : e ∈ log → e_first e = i → has_words (e_status e) →
    take (Z.to_nat (e_count e)) (drop (Z.to_nat (GetInBlockIdx K (e_start e))) fs) = words_of (e_trace e)
}.

Record block_ok log (i : Z) b : Prop := {
  bo_stored : stored_ b = sumZ (stored_in i) log;
  bo_data : match data_ b with
    | Null => state b ≠ Packed ∧ ∀ e, e ∈ log → e_first e = i → ¬ has_data (e_status e)
    | Frames ro fs => state b ≠ Packed ∧ (state b = Storing → ro = false) ∧ (ro = true → stored_ b = K) ∧ frames_ok log i fs
    | Image sz type data => state b = Packed ∧ stored_ b = K ∧ sz = offsetof_data + Z.of_nat (length data) ∧
        sizeof_PackedHeader ≤ sz ≤ K * 8 ∧ ∃ fs, uncompress K type data = Ok fs ∧ frames_ok log i fs
    end
}.

(** The memory a block has mapped. *)
Definition page_round (sz : Z) : Z := PageSize * ((sz + PageSize - 1) / PageSize).
Definition mapped b : Z :=
  match data_ b with Null => 0 | Frames _ _ => K * 8 | Image sz _ _ => page_round sz end.

(** The number of complete blocks. *)
Definition is_complete b : Z := if stored_ b =? K then 1 else 0.
Definition completed st : Z := sumZ is_complete (blocks_ st).

Record store_inv st log : Prop := {
  si_blocks : Z.of_nat (length (blocks_ st)) = C;
  si_log : contiguous 0 log (total_frames_ st);
  si_total : total_frames_ st ≤ C * K;
  si_block i b : blocks_ st !! i = Some b → block_ok log (Z.of_nat i) b;
  si_allocated : allocated_ st = sumZ mapped (blocks_ st)
}.

(** *** Ranges and blocks *)
Lemma block_idx_bounds x : 0 ≤ x → 0 ≤ GetBlockIdx K x ∧ GetBlockIdx K x * K ≤ x < (GetBlockIdx K x + 1) * K.
Proof.
  intros Hx. unfold GetBlockIdx. pose proof (Z.div_mod x K ltac:(lia)). pose proof (Z.mod_pos_bound x K ltac:(lia)).
  split; [apply Z.div_pos; lia|nia].
Qed.

Lemma in_block_idx x : GetInBlockIdx K x = x - GetBlockIdx K x * K.
Proof. unfold GetInBlockIdx, GetBlockIdx. pose proof (Z.div_mod x K ltac:(lia)). lia. Qed.

Lemma block_idx_lt x n : 0 ≤ x < n * K → GetBlockIdx K x < n.
Proof. intros Hx. unfold GetBlockIdx. apply Z.div_lt_upper_bound; nia. Qed.

Definition shape_ok e : Prop :=
  match e_status e with GivenUp _ _ => e_first e ≠ e_last e | _ => e_first e = e_last e end.

Section Entry.
Context (e : entry) (Hs : 0 ≤ e_start e) (Ht : trace_ok (e_trace e)).

Lemma e_count_range : 1 ≤ e_count e ≤ 256.
Proof. pose proof (stored_size_range _ Ht). unfold e_count, frames_of. lia. Qed.

Lemma clamp_mono j x y : x ≤ y → clamp j x ≤ clamp j y.
Proof. unfold clamp. lia. Qed.

Lemma frames_in_nonneg j : 0 ≤ frames_in j e.
Proof. pose proof e_count_range. unfold frames_in. pose proof (clamp_mono j (e_start e) (e_end e)). unfold e_end in *. lia. Qed.

Lemma e_last_cases : e_last e = e_first e ∨ e_last e = e_first e + 1.
Proof.
  pose proof e_count_range. unfold e_first, e_last.
  destruct (block_idx_bounds (e_start e)) as (?&?&?); [done|].
  destruct (block_idx_bounds (e_end e - 1)) as (?&?&?); unfold e_end in *; [lia|].
  set (a := GetBlockIdx K (e_start e)) in *. set (b := GetBlockIdx K (e_start e + e_count e - 1)) in *.
  assert (a < b + 1 ∧ b < a + 2) by (split; apply Z.mul_lt_mono_pos_r with K; lia). lia.
Qed.

Lemma frames_in_other j : j ≠ e_first e → j ≠ e_last e → frames_in j e = 0.
Proof.
  intros H1 H2. pose proof e_count_range. pose proof e_last_cases as Hl.
  destruct (block_idx_bounds (e_start e)) as (?&?&?); [done|].
  destruct (block_idx_bounds (e_end e - 1)) as (?&?&?); [unfold e_end; lia|]. fold (e_first e) (e_last e) in *.
  assert (j + 1 ≤ e_first e ∨ e_last e + 1 ≤ j) as [Hj|Hj] by lia; unfold frames_in, clamp.
  - assert ((j + 1) * K ≤ e_first e * K) by (apply Z.mul_le_mono_nonneg_r; lia). unfold e_end. lia.
  - assert ((e_last e + 1) * K ≤ j * K) by (apply Z.mul_le_mono_nonneg_r; lia). unfold e_end in *. lia.
Qed.

Lemma frames_in_single : e_first e = e_last e → frames_in (e_first e) e = e_count e ∧ GetInBlockIdx K (e_start e) + e_count e ≤ K.
Proof.
  intros Heq. destruct (block_idx_bounds (e_start e)) as (?&?&?); [done|].
  destruct (block_idx_bounds (e_end e - 1)) as (?&?&?); [pose proof e_count_range; unfold e_end; lia|].
  rewrite in_block_idx. fold (e_first e) (e_last e) in *. rewrite <- Heq in *. unfold frames_in, clamp, e_end in *. lia.
Qed.

Lemma frames_in_crossing : e_first e ≠ e_last e →
  frames_in (e_first e) e = K - GetInBlockIdx K (e_start e) ∧ frames_in (e_last e) e = e_count e - (K - GetInBlockIdx K (e_start e)).
Proof.
  intros Hne. pose proof e_count_range. destruct (block_idx_bounds (e_start e)) as (?&?&?); [done|].
  destruct (block_idx_bounds (e_end e - 1)) as (?&?&?); [unfold e_end; lia|].
  rewrite in_block_idx. destruct e_last_cases as [|Hl]; [congruence|]. fold (e_first e) (e_last e) in *. rewrite Hl in *.
  unfold frames_in, clamp, e_end in *. lia.
Qed.

Lemma stored_in_range j : shape_ok e → 0 ≤ stored_in j e ≤ frames_in j e.
Proof.
  intros Hsh. pose proof (frames_in_nonneg j). unfold stored_in, shape_ok in *. destruct (e_status e) as [| | | |[] []]; try lia; simpl;
    destruct (Z.eqb_spec j (e_first e)), (Z.eqb_spec j (e_last e)); try lia; congruence.
Qed.

End Entry.

(** *** The history *)
Lemma contiguous_app s l1 l2 T : contiguous s (l1 ++ l2) T ↔ ∃ m, contiguous s l1 m ∧ contiguous m l2 T.
Proof.
  revert s. induction l1 as [|e l1 IH]; intros s; simpl; [naive_solver|]. rewrite IH. naive_solver.
Qed.

Lemma contiguous_bounds s log T : 0 ≤ s → contiguous s log T →
  s ≤ T ∧ ∀ e, e ∈ log → s ≤ e_start e ∧ e_end e ≤ T ∧ trace_ok (e_trace e) ∧ shape_ok e.
Proof.
  revert s. induction log as [|e log IH]; intros s Hs; simpl; [intros ->; split; [lia|set_solver +]|].
  intros (<- & Ht & Hsh & Hc). pose proof (e_count_range e Ht). destruct (IH (e_end e)) as (HT & Hall); [unfold e_end; lia|done|].
  unfold e_end in *. split; [lia|]. intros e' [->|He']%elem_of_cons; [done|]. destruct (Hall e' He') as (?&?&?&?). split_and!; try done; lia.
Qed.

Lemma contiguous_disjoint s log T n n' e e' : 0 ≤ s → contiguous s log T → log !! n = Some e → log !! n' = Some e' →
  (n < n')%nat → e_end e ≤ e_start e'.
Proof.
  revert s n n'. induction log as [|x log IH]; intros s n n' Hs; [by rewrite lookup_nil|]. intros (<- & Ht & Hsh & Hc) Hn Hn' Hlt.
  pose proof (e_count_range x Ht). assert (0 ≤ e_end x) by (unfold e_end; lia).
  destruct n' as [|n']; [lia|]. destruct n as [|n]; simpl in *; simplify_eq.
  - by apply (contiguous_bounds (e_end e) log T) with (e := e'), list_elem_of_lookup_2 with n'.
  - eapply (IH (e_end x) n n'); eauto. lia.
Qed.

Lemma contiguous_update s log T n e e' : contiguous s log T → log !! n = Some e →
  e_start e' = e_start e → e_trace e' = e_trace e → shape_ok e' → contiguous s (<[n := e']> log) T.
Proof.
  intros Hc Hn Es Et Hsh. pose proof (lookup_lt_Some _ _ _ Hn). rewrite insert_take_drop by done.
  rewrite <- (take_drop_middle _ _ _ Hn) in Hc. apply contiguous_app in Hc as (m & Ha & Hb). apply contiguous_app.
  exists m. split; [done|]. simpl in *. unfold e_end, e_count in *. rewrite Es, Et. naive_solver.
Qed.

Lemma sum_frames_in i s log T : 0 ≤ i → 0 ≤ s → contiguous s log T → sumZ (frames_in i) log = clamp i T - clamp i s.
Proof.
  intros Hi. revert s. induction log as [|e log IH]; intros s Hs; simpl; [intros ->; lia|].
  intros (<- & Ht & _ & Hc). pose proof (e_count_range e Ht). rewrite (IH (e_end e)); [|unfold e_end; lia|done]. unfold frames_in. lia.
Qed.

Lemma sum_stored_le i log T : 0 ≤ i → contiguous 0 log T → 0 ≤ sumZ (stored_in i) log ≤ K.
Proof.
  intros Hi Hc. destruct (contiguous_bounds 0 log T) as (HT & Hall); [lia|done|]. split.
  - rewrite <- (sumZ_zero (λ _ : entry, 0) log) by done. apply sumZ_le. intros e He. destruct (Hall e He) as (?&?&?&?).
    by apply stored_in_range.
  - etransitivity; [apply sumZ_le with (g := frames_in i)|]; [|rewrite (sum_frames_in i 0 log T) by (done || lia); unfold clamp; nia].
    intros e He. destruct (Hall e He) as (?&?&?&?). by apply stored_in_range.
Qed.

(** A full block has no pending range. *)
Lemma full_no_pending i log T e : 0 ≤ i → contiguous 0 log T → sumZ (stored_in i) log = K → e ∈ log →
  stored_in i e = frames_in i e.
Proof.
  intros Hi Hc HKs He. destruct (contiguous_bounds 0 log T) as (HT & Hall); [lia|done|].
  apply (sumZ_tight (stored_in i) (frames_in i) log); [| |done].
  - intros e' He'. destruct (Hall e' He') as (?&?&?&?). by apply stored_in_range.
  - rewrite (sum_frames_in i 0 log T) by (done || lia). unfold clamp. nia.
Qed.

(** *** Steps keep the invariant *)
Lemma frames_ok_log log n e s i fs : frames_ok log i fs → log !! n = Some e →
  (has_words s → e_first e = i → has_words (e_status e)) → frames_ok (<[n := with_status e s]> log) i fs.
Proof.
  intros [Hlen Hw Ht] Hn Hs. split; [done|done|]. intros e' He' Hf Hst.
  apply list_elem_of_lookup_1 in He' as [m Hm]. apply list_lookup_insert_Some in Hm as [(_ & <- & _)|(_ & Hm)].
  - apply (Ht e); [by eapply list_elem_of_lookup_2|done|by apply Hs].
  - apply Ht; [by eapply list_elem_of_lookup_2|done|done].
Qed.

Lemma block_ok_log log n e s i b : block_ok log i b → log !! n = Some e →
  stored_in i (with_status e s) = stored_in i e →
  (has_words s → e_first e = i → has_words (e_status e)) →
  (data_ b = Null → has_data s → e_first e = i → has_data (e_status e)) →
  block_ok (<[n := with_status e s]> log) i b.
Proof.
  intros [Hst Hd] Hn Hsi Hw Hdt. split; [rewrite (sumZ_insert _ _ _ e) by done; lia|].
  destruct (data_ b) as [|ro fs|sz type data].
  - destruct Hd as [? Hd]. split; [done|]. intros e' He' Hf Hs.
    apply list_elem_of_lookup_1 in He' as [m Hm]. apply list_lookup_insert_Some in Hm as [(_ & <- & _)|(_ & Hm)].
    + apply (Hd e); [by eapply list_elem_of_lookup_2|done|by apply Hdt].
    + apply (Hd e'); [by eapply list_elem_of_lookup_2|done|done].
  - naive_solver eauto using frames_ok_log.
  - destruct Hd as (?&?&?&?&fs&?&?). do 4 (split; [done|]). exists fs. eauto using frames_ok_log.
Qed.

(** The block [i] and the status of an entry of it change, nothing else. *)
Lemma inv_update st log n e s (i : nat) b b' alloc : store_inv st log → log !! n = Some e → blocks_ st !! i = Some b →
  shape_ok (with_status e s) →
  (∀ j, j ≠ Z.of_nat i → stored_in j (with_status e s) = stored_in j e) →
  (has_data s → e_first e = Z.of_nat i) →
  block_ok (<[n := with_status e s]> log) (Z.of_nat i) b' →
  alloc = allocated_ st - mapped b + mapped b' →
  store_inv (mkStore (total_frames_ st) alloc (<[i := b']> (blocks_ st))) (<[n := with_status e s]> log).
Proof.
  intros [Hbs Hlog Htot Hblk Hal] Hn Hi Hsh Hoth Hdat Hb' ->.
  assert (∀ j, has_words s → e_first e = j → j = Z.of_nat i) as Hw by (intros ? [->| ->] <-; apply Hdat; unfold has_data; auto).
  split; cbn [blocks_ total_frames_ allocated_]; [by rewrite length_insert|by eapply contiguous_update|done| |].
  - intros j c Hj. apply list_lookup_insert_Some in Hj as [(<- & <- & _)|(Hne & Hj)]; [done|].
    apply block_ok_log; [by apply Hblk|done|apply Hoth; lia|intros Hs1 Hf|intros _ Hs1 Hf].
    + specialize (Hw _ Hs1 Hf). lia.
    + specialize (Hdat Hs1). lia.
  - rewrite (sumZ_insert _ _ _ b) by done. lia.
Qed.

(** Only the block [i] changes. *)
Lemma inv_block st log (i : nat) b b' alloc : store_inv st log → blocks_ st !! i = Some b →
  block_ok log (Z.of_nat i) b' → alloc = allocated_ st - mapped b + mapped b' →
  store_inv (mkStore (total_frames_ st) alloc (<[i := b']> (blocks_ st))) log.
Proof.
  intros [Hbs Hlog Htot Hblk Hal] Hi Hb' ->. split; cbn [blocks_ total_frames_ allocated_]; [by rewrite length_insert|done|done| |].
  - intros j c Hj. apply list_lookup_insert_Some in Hj as [(<- & <- & _)|(Hne & Hj)]; [done|by apply Hblk].
  - rewrite (sumZ_insert _ _ _ b) by done. lia.
Qed.

Lemma page_round_bounds sz : 0 ≤ sz ≤ K * 8 → RoundUpTo sz PageSize = Ok (page_round sz) ∧ 0 ≤ page_round sz ≤ K * 8.
Proof.
  destruct Hpage as (p & Hp & Ep). intros Hs. assert (0 < PageSize ≤ 2 ^ 16) by (rewrite Ep; split; [lia|apply Z.pow_le_mono_r; lia]).
  split; [unfold page_round; rewrite Ep; apply RoundUpTo_pow2; lia|]. unfold page_round. destruct Haligned as [q Eq].
  pose proof (Z.div_pos (sz + PageSize - 1) PageSize). split; [nia|]. rewrite Eq in *.
  assert ((sz + PageSize - 1) / PageSize < q + 1); [apply Z.div_lt_upper_bound; nia|nia].
Qed.

Lemma mapped_bounds log i b : block_ok log i b → 0 ≤ mapped b ≤ K * 8.
Proof.
  intros [_ Hd]. unfold mapped. destruct (data_ b) as [|?|sz type data]; [lia|lia|].
  destruct Hd as (_ & _ & Hsz & Hr & _). apply page_round_bounds. unfold offsetof_data in *. lia.
Qed.

Lemma allocated_bounds st log : store_inv st log → 0 ≤ allocated_ st ≤ 2 ^ 35.
Proof.
  intros [Hbs _ _ Hblk ->]. assert (∀ b, b ∈ blocks_ st → 0 ≤ mapped b ≤ K * 8) as Hall.
  { intros b [i Hi]%list_elem_of_lookup_1. by eapply mapped_bounds, Hblk. }
  assert (0 ≤ sumZ mapped (blocks_ st) ≤ Z.of_nat (length (blocks_ st)) * (K * 8)) as H'; [|rewrite Hbs in H'; nia].
  clear Hbs Hblk. induction (blocks_ st) as [|b bs IH]; cbn [sumZ length]; [lia|].
  pose proof (Hall b ltac:(set_solver +)). specialize (IH ltac:(set_solver + Hall)). nia.
Qed.

Lemma mapped_le_allocated st log i b : store_inv st log → blocks_ st !! i = Some b → mapped b ≤ allocated_ st.
Proof.
  intros [_ _ _ Hblk ->] Hi. eapply sumZ_elem; [|done]. intros c [j Hj]%list_elem_of_lookup_1. by eapply mapped_bounds, Hblk.
Qed.

Lemma completed_insert st i b b' T al : blocks_ st !! i = Some b → stored_ b' = stored_ b →
  completed (mkStore T al (<[i := b']> (blocks_ st))) = completed st.
Proof. intros Hb E. unfold completed. cbn [blocks_]. rewrite (sumZ_insert _ _ _ b) by done. unfold is_complete. rewrite E. lia. Qed.

Lemma get_block_ok st log i : store_inv st log → 0 ≤ i < C →
  ∃ b, get_block st i = Ok b ∧ blocks_ st !! Z.to_nat i = Some b ∧ block_ok log i b.
Proof.
  intros Hinv Hi. destruct (lookup_lt_is_Some_2 (blocks_ st) (Z.to_nat i)) as [b Hb]; [rewrite <- (si_blocks _ _ Hinv) in Hi; lia|].
  exists b. split; [unfold get_block; apply aget_Ok; auto with lia|]. split; [done|]. rewrite <- (Z2Nat.id i) by lia. by apply (si_block st).
Qed.

Lemma put_block_ok st log i b : store_inv st log → 0 ≤ i < C →
  ∀ alloc, put_block (mkStore (total_frames_ st) alloc (blocks_ st)) i b = Ok (mkStore (total_frames_ st) alloc (<[Z.to_nat i := b]> (blocks_ st))).
Proof. intros Hinv Hi alloc. unfold put_block. cbn [blocks_]. rewrite aset_Ok; [done|]. by rewrite (si_blocks _ _ Hinv). Qed.

Lemma log_entry st log n e : store_inv st log → log !! n = Some e →
  0 ≤ e_start e ∧ e_end e ≤ C * K ∧ trace_ok (e_trace e) ∧ shape_ok e ∧ 0 ≤ e_first e < C ∧ 0 ≤ e_last e < C.
Proof.
  intros Hinv Hn. destruct (contiguous_bounds 0 log _ ltac:(lia) (si_log _ _ Hinv)) as [_ Hall].
  destruct (Hall e) as (H1' & H2' & Ht & Hsh); [by eapply list_elem_of_lookup_2|]. pose proof (si_total _ _ Hinv).
  pose proof (e_count_range e Ht). assert (e_start e < C * K ∧ 0 ≤ e_end e - 1 < C * K) as [? ?] by (unfold e_end in *; lia).
  split_and!; try done; try lia; unfold e_first, e_last;
    try (by apply block_idx_lt); apply block_idx_bounds; lia.
Qed.

(** A block that a pending range belongs to is not full. *)
Lemma pending_not_full st log n e i b : store_inv st log → log !! n = Some e → 0 ≤ i → block_ok log i b →
  stored_in i e < frames_in i e → 0 ≤ stored_ b < K.
Proof.
  intros Hinv Hn Hi [-> _] Hlt. pose proof (sum_stored_le i log _ Hi (si_log _ _ Hinv)) as Hle.
  destruct (decide (sumZ (stored_in i) log = K)) as [Heq|]; [|lia].
  pose proof (full_no_pending i log _ e Hi (si_log _ _ Hinv) Heq ltac:(by eapply list_elem_of_lookup_2)). lia.
Qed.

Definition reserve_status (start : Z) (t : StackTrace) : status :=
  if GetBlockIdx K start =? GetBlockIdx K (start + frames_of t - 1) then Reserved else GivenUp false false.

Lemma inv_reserve st log t : store_inv st log → trace_ok t → total_frames_ st + frames_of t ≤ C * K →
  store_inv (fst (fetch_add st (frames_of t))) (log ++ [mkEntry (total_frames_ st) t (reserve_status (total_frames_ st) t)]).
Proof.
  intros [Hbs Hlog Htot Hblk Hal] Ht Hroom. set (e := mkEntry _ _ _). pose proof (e_count_range e Ht) as Hc.
  destruct (contiguous_bounds 0 log _ ltac:(lia) Hlog) as [H0' _]. unfold e_count in Hc. cbn [e_trace e] in Hc.
  assert (∀ j, stored_in j e = 0 ∧ ¬ has_data (e_status e) ∧ ¬ has_words (e_status e)) as He.
  { intros j. unfold stored_in, e, reserve_status, has_data, has_words. cbn [e_status]. destruct (_ =? _); naive_solver. }
  unfold fetch_add. cbn [fst]. rewrite cast_id by lia. split; cbn [blocks_ total_frames_ allocated_]; [done| |done| |done].
  - apply contiguous_app. exists (total_frames_ st). split; [done|]. cbn. split_and!; try done.
    unfold reserve_status, e_first, e_last, e_end, e_count. cbn [e_start e_trace e_status e]. by destruct (Z.eqb_spec (GetBlockIdx K (total_frames_ st)) (GetBlockIdx K (total_frames_ st + frames_of t - 1))).
  - intros i b Hi. destruct (Hblk i b Hi) as [Hst Hd]. destruct (He (Z.of_nat i)) as (Hz & Hnd & Hnw).
    assert (∀ fs, frames_ok log (Z.of_nat i) fs → frames_ok (log ++ [e]) (Z.of_nat i) fs) as Hfo.
    { intros fs [? ? Hft]. split; [done|done|]. intros e' [He'|He'%list_elem_of_singleton]%elem_of_app; [by apply Hft|subst; tauto]. }
    split; [rewrite sumZ_app; cbn [sumZ]; lia|]. destruct (data_ b); [|naive_solver..].
    destruct Hd as [? Hd]. split; [done|]. intros e' [He'|He'%list_elem_of_singleton]%elem_of_app; [by apply Hd|by subst].
Qed.

(** [Stored] on a block where the entry is not counted yet. *)
Lemma inv_stored st log n e s i : store_inv st log → log !! n = Some e → 0 ≤ i < C →
  shape_ok (with_status e s) →
  (∀ j, stored_in j (with_status e s) = stored_in j e + (if j =? i then frames_in i e else 0)) →
  stored_in i e = 0 → 0 < frames_in i e → (has_data s → s = Finished ∧ e_status e = Written ∧ e_first e = i) →
  returns (block_Stored K st i (frames_in i e)) (λ '(st', p), store_inv st' (<[n := with_status e s]> log) ∧
    total_frames_ st' = total_frames_ st ∧ completed st' = completed st + p).
Proof.
  intros Hinv Hn Hi Hsh Hsi Hz Hpos Hs. destruct (get_block_ok st log i Hinv Hi) as (b & Hget & Hb & Hok).
  pose proof (pending_not_full st log n e i b Hinv Hn ltac:(lia) Hok ltac:(lia)) as Hnf.
  assert (contiguous 0 (<[n := with_status e s]> log) (total_frames_ st)) as Hc' by (by eapply contiguous_update; [apply Hinv|..]).
  pose proof (sum_stored_le i _ _ ltac:(lia) Hc') as Hle. rewrite (sumZ_insert _ _ _ e) in Hle by done.
  pose proof (Hsi i) as Hii. rewrite Z.eqb_refl in Hii. pose proof (bo_stored _ _ _ Hok) as Hst.
  unfold block_Stored. rewrite Hget. cbn [mbind result_bind]. unfold Stored. rewrite (cast_id 32), (cast_id 64) by lia.
  replace st with (mkStore (total_frames_ st) (allocated_ st) (blocks_ st)) at 1 by (by destruct st).
  rewrite (put_block_ok st log) by done. cbn [mbind result_bind returns]. split; [|split; [done|]].
  2:{ unfold completed. cbn [blocks_]. rewrite (sumZ_insert _ _ _ b) by done. unfold is_complete. cbn [stored_].
      rewrite (proj2 (Z.eqb_neq (stored_ b) K)), (Z.add_comm (frames_in i e)) by lia. lia. }
  apply inv_update with b; try done; [intros j Hj; rewrite Hsi; destruct (Z.eqb_spec j i); lia|intros Hd; destruct (Hs Hd) as (_ & _ & ?); lia| |unfold mapped; cbn [data_]; lia].
  rewrite Z2Nat.id by lia. split; cbn [stored_ data_ state]; [rewrite (sumZ_insert _ _ _ e) by done; lia|].
  assert (∀ fs, frames_ok log i fs → frames_ok (<[n := with_status e s]> log) i fs) as Hfo.
  { intros fs Hf. apply frames_ok_log; [done|done|]. intros Hw _. destruct Hs as (_ & -> & _); [|by left]. destruct Hw as [->| ->]; unfold has_data; auto. }
  destruct Hok as [_ Hd]. destruct (data_ b) as [|ro fs|]; [|destruct Hd as (? & ? & Hro & ?); split_and!; try done; [intros ->; specialize (Hro eq_refl); lia|by apply Hfo]|lia].
  destruct Hd as [? Hd]. split; [done|]. intros e' He' Hf Hs1.
  apply list_elem_of_lookup_1 in He' as [m Hm]. apply list_lookup_insert_Some in Hm as [(_ & <- & _)|(_ & Hm)].
  - destruct (Hs Hs1) as (_ & Hw & Hfi). apply (Hd e); [by eapply list_elem_of_lookup_2|done|]. rewrite Hw. unfold has_data. auto.
  - apply (Hd e'); [by eapply list_elem_of_lookup_2|done|done].
Qed.

Lemma stored_in_with j e s : stored_in j (with_status e s) =
  match s with
  | Finished => frames_in j e
  | GivenUp first last =>
      (if first && (j =? e_first e) then frames_in j e else 0) + (if last && (j =? e_last e) then frames_in j e else 0)
  | _ => 0
  end.
Proof. done. Qed.

Lemma inv_finish st log n e : store_inv st log → log !! n = Some e → e_status e = Written →
  returns (block_Stored K st (e_first e) (e_count e)) (λ '(st', p), store_inv st' (<[n := with_status e Finished]> log) ∧
    total_frames_ st' = total_frames_ st ∧ completed st' = completed st + p).
Proof.
  intros Hinv Hn Hw. destruct (log_entry st log n e Hinv Hn) as (Hs & _ & Ht & Hsh & Hf & _).
  unfold shape_ok in Hsh. rewrite Hw in Hsh. destruct (frames_in_single e Hs Ht Hsh) as [<- _]. pose proof (frames_in_single e Hs Ht Hsh) as [E _].
  pose proof (e_count_range e Ht). apply inv_stored; try done; [|unfold stored_in; by rewrite Hw|lia].
  intros j. rewrite stored_in_with. unfold stored_in. rewrite Hw. destruct (Z.eqb_spec j (e_first e)) as [->|]; [done|].
  apply (frames_in_other e); [done|done|done|congruence].
Qed.

Lemma inv_mark_first st log n e l : store_inv st log → log !! n = Some e → e_status e = GivenUp false l →
  returns (block_Stored K st (e_first e) (K - GetInBlockIdx K (e_start e))) (λ '(st', p),
    store_inv st' (<[n := with_status e (GivenUp true l)]> log) ∧ total_frames_ st' = total_frames_ st ∧ completed st' = completed st + p).
Proof.
  intros Hinv Hn Hw. destruct (log_entry st log n e Hinv Hn) as (Hs & _ & Ht & Hsh & Hf & _).
  unfold shape_ok in Hsh. rewrite Hw in Hsh. destruct (frames_in_crossing e Hs Ht Hsh) as [<- _].
  apply inv_stored; try done.
  - intros j. rewrite stored_in_with. unfold stored_in. rewrite Hw. cbn [andb].
    destruct (Z.eqb_spec j (e_first e)) as [->|]; lia.
  - unfold stored_in. rewrite Hw. cbn [andb]. rewrite (proj2 (Z.eqb_neq _ _) Hsh). by destruct l.
  - destruct (frames_in_crossing e Hs Ht Hsh) as [-> _]. unfold GetInBlockIdx. pose proof (Z.mod_pos_bound (e_start e) K). lia.
  - by intros [|[|]].
Qed.

Lemma inv_mark_last st log n e f : store_inv st log → log !! n = Some e → e_status e = GivenUp f false →
  returns (block_Stored K st (e_last e) (e_count e - (K - GetInBlockIdx K (e_start e)))) (λ '(st', p),
    store_inv st' (<[n := with_status e (GivenUp f true)]> log) ∧ total_frames_ st' = total_frames_ st ∧ completed st' = completed st + p).
Proof.
  intros Hinv Hn Hw. destruct (log_entry st log n e Hinv Hn) as (Hs & _ & Ht & Hsh & _ & Hl).
  unfold shape_ok in Hsh. rewrite Hw in Hsh. destruct (frames_in_crossing e Hs Ht Hsh) as [_ <-].
  apply inv_stored; try done.
  - intros j. rewrite stored_in_with. unfold stored_in. rewrite Hw. cbn [andb].
    destruct (Z.eqb_spec j (e_last e)) as [->|]; lia.
  - unfold stored_in. rewrite Hw. cbn [andb]. rewrite (proj2 (Z.eqb_neq (e_last e) (e_first e))) by congruence. by destruct f.
  - destruct (block_idx_bounds (e_end e - 1)) as (_ & Hge & _); [pose proof (e_count_range e Ht); unfold e_end; lia|].
    destruct (frames_in_crossing e Hs Ht Hsh) as [_ ->]. rewrite in_block_idx. fold (e_last e) (e_first e) in *.
    destruct (e_last_cases e Hs Ht) as [|El]; [congruence|]. rewrite El in Hge. unfold e_end in Hge. lia.
  - by intros [|[|]].
Qed.

(** A step of a thread that leaves the memory alone. *)
Lemma inv_status st log n e s b : store_inv st log → log !! n = Some e → 0 ≤ e_first e < C → blocks_ st !! Z.to_nat (e_first e) = Some b →
  shape_ok (with_status e s) → (∀ j, stored_in j (with_status e s) = stored_in j e) → ¬ has_words s → data_ b ≠ Null →
  store_inv st (<[n := with_status e s]> log).
Proof.
  intros Hinv Hn Hf Hb Hsh Hsi Hnw Hd. pose proof (si_block _ _ Hinv _ _ Hb) as Hok. destruct st as [T al bs].
  rewrite <- (list_insert_id bs (Z.to_nat (e_first e)) b) by done.
  apply (inv_update (mkStore T al bs) log n e s _ b b al); cbn [allocated_]; try done; rewrite ?Z2Nat.id in * by lia; [done| |lia].
  apply block_ok_log; [done|done|done|tauto|congruence].
Qed.

Lemma inv_create st log n e : store_inv st log → log !! n = Some e → e_status e = Reserved →
  returns (GetOrCreate K st (e_first e)) (λ st', store_inv st' (<[n := with_status e Created]> log) ∧
    total_frames_ st' = total_frames_ st ∧ completed st' = completed st).
Proof.
  intros Hinv Hn Hr. destruct (log_entry st log n e Hinv Hn) as (Hs & _ & Ht & Hsh & Hf & _).
  destruct (get_block_ok st log _ Hinv Hf) as (b & Hget & Hb & Hok). pose proof (allocated_bounds _ _ Hinv).
  assert (∀ j, stored_in j (with_status e Created) = stored_in j e) as Hsi by (intros j; unfold stored_in; by rewrite Hr).
  assert (shape_ok (with_status e Created)) as Hsh' by (unfold shape_ok in *; by rewrite Hr in Hsh).
  assert (¬ has_words Created) as Hnw by (by intros [|]).
  unfold GetOrCreate. rewrite Hget. cbn [mbind result_bind]. destruct (data_ b) eqn:Ed; cbn [returns].
  - unfold Map, kBlockSizeBytes. rewrite (put_block_ok st log), cast_id by (done || lia). cbn [returns]. split; [|split; [done|by eapply completed_insert]].
    eapply inv_update; try done; rewrite ?Z2Nat.id by lia; [done| |unfold mapped; rewrite Ed; cbn [data_ set_data]; lia].
    destruct Hok as [Hst Hd]. rewrite Ed in Hd. destruct Hd as [Hp Hd]. split; cbn [stored_ data_ set_data state].
    { rewrite (sumZ_insert _ _ _ e), Hsi by done. lia. }
    split_and!; try done. apply frames_ok_log; [|done|tauto]. split; [rewrite length_replicate; lia|apply Forall_replicate; unfold is_word; lia|].
    intros e' He' Hfe [Hw|Hw]; destruct (Hd e' He' Hfe); rewrite Hw; unfold has_data; auto.
  - split; [|done]. apply (inv_status _ _ _ _ _ b); try done. congruence.
  - split; [|done]. apply (inv_status _ _ _ _ _ b); try done. congruence.
Qed.

(** The frames of a block with a range that is created but not stored are writable. *)
Lemma pending_frames st log n e b : store_inv st log → log !! n = Some e → block_ok log (e_first e) b →
  e_status e = Created ∨ e_status e = Written → ∃ fs, data_ b = Frames false fs ∧ frames_ok log (e_first e) fs.
Proof.
  intros Hinv Hn Hok He. destruct (log_entry st log n e Hinv Hn) as (Hs & _ & Ht & Hsh & Hf & _).
  assert (e_first e = e_last e) as Hfl by (unfold shape_ok in Hsh; by destruct He as [E|E]; rewrite E in Hsh).
  destruct (frames_in_single e Hs Ht Hfl) as [Hfi _]. pose proof (e_count_range e Ht).
  pose proof (pending_not_full st log n e (e_first e) b Hinv Hn ltac:(lia) Hok) as Hnf.
  assert (0 ≤ stored_ b < K) as Hlt by (apply Hnf; rewrite Hfi; unfold stored_in; destruct He as [E|E]; rewrite E; lia).
  destruct Hok as [_ Hd]. destruct (data_ b) as [|ro fs|]; [|exists fs|lia].
  - destruct Hd as [_ Hd]. destruct (Hd e); [by eapply list_elem_of_lookup_2|done|]. unfold has_data. tauto.
  - destruct Hd as (_ & _ & Hro & Hfo). split; [|done]. destruct ro; [specialize (Hro eq_refl); lia|done].
Qed.

(** Two different ranges in a block do not overlap. *)
Lemma ranges_disjoint st log n n' e e' : store_inv st log → log !! n = Some e → log !! n' = Some e' → n ≠ n' →
  e_end e ≤ e_start e' ∨ e_end e' ≤ e_start e.
Proof.
  intros Hinv Hn Hn' Hne. pose proof (si_log _ _ Hinv) as Hc. destruct (decide (n < n')%nat).
  - left. eapply (contiguous_disjoint 0 log); [lia|done..].
  - right. eapply (contiguous_disjoint 0 log _ n' n); [lia|done..|lia].
Qed.

Lemma frames_ok_write st log n e fs : store_inv st log → log !! n = Some e → e_first e = e_last e →
  frames_ok log (e_first e) fs →
  frames_ok (<[n := with_status e Written]> log) (e_first e)
    (list_inserts (Z.to_nat (GetInBlockIdx K (e_start e))) (words_of (e_trace e)) fs).
Proof.
  intros Hinv Hn Hfl [Hlen Hw Hft]. destruct (log_entry st log n e Hinv Hn) as (Hs & _ & Ht & Hsh & Hf & _).
  destruct (frames_in_single e Hs Ht Hfl) as [_ Hroom]. pose proof (words_length _ Ht) as Hwl. fold (e_count e) in Hwl.
  destruct (block_idx_bounds (e_start e) Hs) as (_ & Hb1 & Hb2). rewrite in_block_idx in *. fold (e_first e) in *.
  split; [by rewrite length_inserts|apply Forall_inserts; [done|by apply words_are_words]|].
  intros e' He' Hf' Hst. apply list_elem_of_lookup_1 in He' as [m Hm]. apply list_lookup_insert_Some in Hm as [(_ & <- & _)|(Hne & Hm)].
  - change (e_count (with_status e Written)) with (e_count e). change (e_trace (with_status e Written)) with (e_trace e).
    change (e_start (with_status e Written)) with (e_start e). rewrite in_block_idx. fold (e_first e).
    rewrite <- Hwl, Nat2Z.id. apply slice_inserts_same. lia.
  - destruct (log_entry st log m e' Hinv Hm) as (Hs' & _ & Ht' & _).
    rewrite slice_inserts_other; [apply Hft; [by eapply list_elem_of_lookup_2|done|done]|].
    destruct (block_idx_bounds (e_start e') Hs') as (_ & Hb1' & Hb2'). rewrite in_block_idx. fold (e_first e') in *. rewrite Hf' in *.
    pose proof (e_count_range e' Ht'). pose proof (e_count_range e Ht). destruct (ranges_disjoint st log n m e e') as [Hd|Hd]; try done; unfold e_end in Hd; lia.
Qed.

Lemma inv_write st log n e : store_inv st log → log !! n = Some e → e_status e = Created →
  returns (write_trace K st (e_start e) (words_of (e_trace e))) (λ st',
    store_inv st' (<[n := with_status e Written]> log) ∧ total_frames_ st' = total_frames_ st ∧ completed st' = completed st).
Proof.
  intros Hinv Hn Hr. destruct (log_entry st log n e Hinv Hn) as (Hs & _ & Ht & Hsh & Hf & _).
  unfold shape_ok in Hsh. rewrite Hr in Hsh. destruct (frames_in_single e Hs Ht Hsh) as [_ Hroom].
  destruct (get_block_ok st log _ Hinv Hf) as (b & Hget & Hb & Hok).
  destruct (pending_frames st log n e b Hinv Hn Hok (or_introl Hr)) as (fs & Hd & Hfo).
  pose proof (words_length _ Ht) as Hwl. fold (e_count e) in Hwl. destruct (block_idx_bounds (e_start e) Hs) as (_ & Hb1 & _).
  unfold write_trace. fold (e_first e) in *. rewrite Hget. cbn [mbind result_bind]. rewrite Hd.
  rewrite write_words_ok by (rewrite in_block_idx, ?(fo_len _ _ _ Hfo) in *; fold (e_first e) in *; lia). cbn [mbind result_bind].
  replace st with (mkStore (total_frames_ st) (allocated_ st) (blocks_ st)) at 1 by (by destruct st).
  rewrite (put_block_ok st log) by done. cbn [returns]. split; [|split; [done|by eapply completed_insert]].
  assert (∀ j, stored_in j (with_status e Written) = stored_in j e) as Hsi by (intros j; unfold stored_in; by rewrite Hr).
  eapply inv_update; try done; rewrite ?Z2Nat.id by lia; [done| |unfold mapped; rewrite Hd; cbn [data_ set_data]; lia].
  destruct Hok as [Hst Hd']. rewrite Hd in Hd'. destruct Hd' as (Hp & _ & _ & _). split; cbn [stored_ data_ set_data state].
  { rewrite (sumZ_insert _ _ _ e), Hsi by done. lia. }
  split_and!; try done. by eapply frames_ok_write.
Qed.

(** *** Loading and packing *)
Lemma GetOrUnpack_ok st log i : store_inv st log → 0 ≤ i < C →
  returns (GetOrUnpack K PageSize st i) (λ st', store_inv st' log ∧ total_frames_ st' = total_frames_ st ∧
    ∃ b, get_block st' i = Ok b ∧ block_ok log i b ∧ state b = Unpacked).
Proof.
  intros Hinv Hi. destruct (get_block_ok st log i Hinv Hi) as (b & Hget & Hb & Hok). pose proof (allocated_bounds _ _ Hinv) as Hal.
  unfold GetOrUnpack. rewrite Hget. cbn [mbind result_bind].
  assert (∀ st' b', store_inv st' log → blocks_ st' = <[Z.to_nat i := b']> (blocks_ st) → get_block st' i = Ok b') as Hnew.
  { intros st' b' _ E. unfold get_block. apply aget_Ok. split; [lia|]. rewrite E. apply list_lookup_insert_eq. by eapply lookup_lt_Some. }
  destruct (state b) eqn:Es.
  - replace st with (mkStore (total_frames_ st) (allocated_ st) (blocks_ st)) at 1 by (by destruct st).
    rewrite (put_block_ok st log) by done. cbn [returns].
    assert (block_ok log i (set_state b Unpacked)) as Hok'.
    { destruct Hok as [Hst Hd]. split; [done|]. cbn [data_ set_state state stored_]. destruct (data_ b) as [|ro fs|]; [|split_and!; try apply Hd; done|destruct Hd; congruence].
      split; [done|apply Hd]. }
    assert (store_inv (mkStore (total_frames_ st) (allocated_ st) (<[Z.to_nat i := set_state b Unpacked]> (blocks_ st))) log) as Hinv'.
    { eapply inv_block; try done; [by rewrite Z2Nat.id by lia|]. unfold mapped. cbn [data_ set_state]. lia. }
    split; [done|]. split; [done|]. exists (set_state b Unpacked). split; [by eapply Hnew|done].
  - destruct Hok as [Hst Hd]. destruct (data_ b) as [|ro fs|sz type data] eqn:Ed; [destruct Hd; congruence|destruct Hd; congruence|].
    destruct Hd as (_ & HKs & Esz & Hr & fs & Hun & Hfo). destruct (page_round_bounds sz) as [Hround Hpr]; [unfold offsetof_data in *; lia|].
    unfold kBlockSizeBytes. rewrite (proj2 (Z.leb_le sz _)), (proj2 (Z.leb_le _ sz)) by lia. cbn [CHECK mbind result_bind].
    rewrite Hround. cbn [mbind result_bind]. rewrite Hun. cbn [mbind result_bind]. rewrite (fo_len _ _ _ Hfo), Z.eqb_refl. cbn [CHECK mbind result_bind].
    unfold Map, Unmap. cbn [total_frames_ allocated_ blocks_]. rewrite !cast_id by (rewrite ?cast_id by lia; lia).
    rewrite (put_block_ok st log) by done. cbn [returns]. set (b' := mkBlock _ _ Unpacked).
    assert (block_ok log i b') as Hok' by (split; [done|]; cbn; split_and!; try done).
    assert (store_inv (mkStore (total_frames_ st) (allocated_ st + K * 8 - page_round sz) (<[Z.to_nat i := b']> (blocks_ st))) log) as Hinv'.
    { eapply inv_block; try done; [by rewrite Z2Nat.id by lia|]. unfold mapped. rewrite Ed. cbn [data_ b']. lia. }
    split; [done|]. split; [done|]. exists b'. split; [by eapply Hnew|done].
  - cbn [returns]. eauto 10.
Qed.

Lemma Load_ok st log n e : store_inv st log → log !! n = Some e → e_status e = Finished → OffsetToId (e_start e) ≠ 0 →
  returns (Load K C PageSize st (OffsetToId (e_start e))) (λ '(st', t), store_inv st' log ∧ total_frames_ st' = total_frames_ st ∧
    t = loaded (e_trace e)).
Proof.
  intros Hinv Hn He Hid. destruct (log_entry st log n e Hinv Hn) as (Hs & Hend & Ht & Hsh & Hf & _).
  unfold shape_ok in Hsh. rewrite He in Hsh. destruct (frames_in_single e Hs Ht Hsh) as [_ Hroom]. pose proof (e_count_range e Ht) as Hc.
  unfold Load. rewrite (proj2 (Z.eqb_neq _ _) Hid). unfold IdToOffset. rewrite (proj2 (Z.eqb_neq _ _) Hid). cbn [negb CHECK mbind result_bind].
  assert (u32 (OffsetToId (e_start e) - 1) = e_start e) as ->.
  { unfold OffsetToId in *. unfold e_end in Hend. rewrite (cast_id 32 (e_start e)) in * by lia.
    destruct (decide (e_start e + 1 = 2 ^ 32)) as [E|]; [rewrite E in Hid; by destruct Hid|]. rewrite (cast_id 32 (e_start e + 1)), cast_id; lia. }
  fold (e_first e). rewrite (proj2 (Z.ltb_lt _ _)) by lia. cbn [CHECK mbind result_bind].
  rbind (by apply GetOrUnpack_ok). intros st' (Hinv' & Htot & b & Hget & Hok & Hst). rewrite Hget. cbn [mbind result_bind].
  destruct Hok as [_ Hd]. assert (e ∈ log) as Hin by (by eapply list_elem_of_lookup_2). destruct (data_ b) as [|ro fs|]; [|clear Hst|destruct Hd; congruence].
  { destruct Hd as [_ Hd]. destruct (Hd e Hin eq_refl). unfold has_data. auto. }
  destruct Hd as (_ & _ & _ & Hfo). pose proof (fo_trace _ _ _ Hfo e Hin eq_refl (or_intror He)) as Hw.
  set (a := GetInBlockIdx K (e_start e)) in *. assert (0 ≤ a) by (apply Z.mod_pos_bound; lia).
  unfold words_of in Hw.
  assert (drop (Z.to_nat a) fs !! 0%nat = Some (ToUptr (header_of (e_trace e))) ∧
    take (Z.to_nat (stored_size (e_trace e))) (drop (Z.to_nat (a + 1)) fs) = take (Z.to_nat (stored_size (e_trace e))) (trace (e_trace e))) as [H1' H2'].
  { replace (Z.to_nat (e_count e)) with (S (Z.to_nat (stored_size (e_trace e)))) in Hw by (unfold e_count, frames_of in *; lia).
    replace (Z.to_nat (a + 1)) with (Z.to_nat a + 1)%nat by lia. rewrite <- drop_drop.
    destruct (drop (Z.to_nat a) fs) as [|w ws]; [done|]. cbn in Hw. injection Hw as -> Hws. done. }
  rewrite lookup_drop, Nat.add_0_r in H1'. rewrite (proj2 (aget_Ok fs a _)) by (split; [lia|exact H1']). cbn [mbind result_bind returns].
  rewrite words_loaded by done. cbn [h_size h_tag header_of]. rewrite H2'. done.
Qed.

Lemma compress_ok log i fs type : frames_ok log i fs → type ≠ None_ →
  ∃ bs, (7 ≤ length bs)%nat ∧ compress (M:=M) K type fs = Ok (take (Z.to_nat (K * 8 - offsetof_data)) bs) ∧ uncompress K type bs = Ok fs.
Proof.
  intros [Hlen Hw _] Ht. destruct type; [done| |].
  - destruct (CompressDelta_ok fs K Hw (eq_sym Hlen) ltac:(lia)) as (bs & ? & Henc & Hdec). exists bs. cbn [compress uncompress]. auto.
  - destruct (CompressLzw_ok Hkeys fs K Hw (eq_sym Hlen) ltac:(lia) ltac:(lia)) as (bs & ? & Henc & Hdec). exists bs. cbn [compress uncompress]. auto.
Qed.

Lemma block_Pack_ok st log type i : store_inv st log → 0 ≤ i < C →
  returns (block_Pack (M:=M) K PageSize st type i) (λ '(st', r), store_inv st' log ∧ total_frames_ st' = total_frames_ st ∧
    0 ≤ r ∧ allocated_ st' = allocated_ st - r).
Proof.
  intros Hinv Hi. unfold block_Pack. case_bool_decide as Ht; [cbn; split_and!; (done || lia)|].
  destruct (get_block_ok st log i Hinv Hi) as (b & Hget & Hb & Hok). pose proof (allocated_bounds _ _ Hinv) as Hal.
  rewrite Hget. cbn [mbind result_bind]. destruct (state b) eqn:Es; try (cbn; split_and!; (done || lia)).
  pose proof Hok as [Hst Hd]. destruct (data_ b) as [|ro fs|] eqn:Ed; [cbn; split_and!; (done || lia)| |destruct Hd; congruence].
  destruct Hd as (_ & Hro & _ & Hfo). specialize (Hro Es) as ->. pose proof (sum_stored_le i log _ ltac:(lia) (si_log _ _ Hinv)).
  pose proof (mapped_le_allocated _ _ _ _ Hinv Hb) as Hmb. unfold mapped in Hmb. rewrite Ed in Hmb.
  unfold Stored. rewrite Z.add_0_l, Z.add_0_r, !cast_id by lia. destruct (Z.eqb_spec (stored_ b) K) as [HKs|]; [|cbn; split_and!; (done || lia)].
  cbn [negb]. destruct (compress_ok log i fs type Hfo Ht) as (bs & Hbs & Hc & Hu). rewrite Hc. cbn [mbind result_bind stored_].
  set (sz := offsetof_data + _). assert (sz = offsetof_data + Z.min (K * 8 - offsetof_data) (Z.of_nat (length bs))) as Esz
    by (unfold sz; rewrite length_take; unfold offsetof_data; lia).
  unfold kBlockSizeBytes, Map, Unmap. cbn [total_frames_ allocated_ blocks_]. rewrite Z.div_mul by lia.
  destruct (Z.ltb_spec (K * 8 - sz) K) as [Hbig|Hsmall].
  - rewrite (cast_id 64 (_ + _)), cast_id, (put_block_ok st log) by (done || lia). cbn [mbind result_bind returns].
    split; [|cbn; split_and!; (done || lia)]. eapply inv_block; try done; [rewrite Z2Nat.id by lia|unfold mapped; rewrite Ed; cbn; lia].
    split; [done|]. cbn. split_and!; try done.
  - unfold offsetof_data in *. destruct (page_round_bounds sz) as [Hround Hpr]; [lia|]. rewrite Hround. cbn [mbind result_bind].
    rewrite (cast_id 64 (_ + K * 8)) by lia. rewrite (cast_id 64 (_ - (K * 8 - _))), cast_id by lia. rewrite (put_block_ok st log) by done.
    cbn [mbind result_bind returns]. split; [|cbn; split_and!; (done || lia)].
    eapply inv_block; try done; [rewrite Z2Nat.id by lia|unfold mapped; rewrite Ed; cbn; lia].
    rewrite take_ge by lia. split; [done|]. cbn [data_ state stored_]. split_and!; [done|done|unfold offsetof_data; lia|unfold sizeof_PackedHeader; lia|lia|by exists fs].
Qed.

(** [Pack] over all blocks: the memory released is what it reports. *)
Lemma Pack_ok st log type : store_inv st log →
  returns (Pack (M:=M) K C PageSize st type) (λ '(st', r), store_inv st' log ∧ total_frames_ st' = total_frames_ st ∧
    0 ≤ r ∧ allocated_ st' = allocated_ st - r).
Proof.
  intros Hinv. unfold Pack. pose proof (allocated_bounds _ _ Hinv).
  eapply returns_mono; [apply (returns_for_range (λ _ '(st', r), store_inv st' log ∧ total_frames_ st' = total_frames_ st ∧
    0 ≤ r ∧ allocated_ st' = allocated_ st - r)); [lia|split_and!; (done || lia)|]|done].
  intros i [st' r] Hi (Hinv' & Htot & Hr & Hal). rbind (by apply block_Pack_ok). intros [st'' r'] (Hinv'' & Htot' & Hr' & Hal').
  pose proof (allocated_bounds _ _ Hinv''). cbn [returns]. rewrite cast_id by lia. split_and!; try done; lia || congruence.
Qed.

(** *** [Store], one call at a time *)
Lemma insert_last {A} (l : list A) x y n : n = length l → <[n := y]> (l ++ [x]) = l ++ [y].
Proof. intros ->. by rewrite insert_app_r_alt, Nat.sub_diag by lia. Qed.

Lemma lookup_last {A} (l : list A) x : (l ++ [x]) !! length l = Some x.
Proof. by rewrite lookup_app_r, Nat.sub_diag by lia. Qed.

(** The attempt of [Alloc] at [start] succeeds, or its range is given up. *)
Lemma attempt_single st log t : store_inv st log → trace_ok t → total_frames_ st + frames_of t ≤ C * K →
  GetBlockIdx K (total_frames_ st) = GetBlockIdx K (total_frames_ st + frames_of t - 1) →
  GetBlockIdx K (total_frames_ st) < C ∧
  returns (GetOrCreate K (fst (fetch_add st (frames_of t))) (GetBlockIdx K (total_frames_ st))) (λ st',
    store_inv st' (log ++ [mkEntry (total_frames_ st) t Created]) ∧ total_frames_ st' = total_frames_ st + frames_of t ∧
    completed st' = completed st).
Proof.
  intros Hinv Ht Hroom Heq. pose proof (inv_reserve st log t Hinv Ht Hroom) as Hr. unfold reserve_status in Hr.
  rewrite (proj2 (Z.eqb_eq _ _) Heq) in Hr. pose proof (lookup_last log (mkEntry (total_frames_ st) t Reserved)) as Hl.
  destruct (log_entry _ _ _ _ Hr Hl) as (H0' & _ & _ & _ & Hf & _). split; [apply Hf|].
  pose proof (inv_create _ _ _ _ Hr Hl eq_refl) as Hc. change (e_first _) with (GetBlockIdx K (total_frames_ st)) in Hc.
  eapply returns_mono; [apply Hc|]. intros st' (Hst & Htot & Hcm). rewrite insert_last in Hst by done. split; [done|].
  split; [|done]. rewrite Htot. cbn [fst fetch_add total_frames_]. pose proof (stored_size_range t Ht). cbn in H0'.
  rewrite cast_id; unfold frames_of in *; lia.
Qed.

Lemma attempt_crossing st log t : store_inv st log → trace_ok t → total_frames_ st + frames_of t ≤ C * K →
  let start := total_frames_ st in
  GetBlockIdx K start ≠ GetBlockIdx K (start + frames_of t - 1) →
  returns (block_Stored K (fst (fetch_add st (frames_of t))) (GetBlockIdx K start) (K - GetInBlockIdx K start)) (λ '(st1, p1),
    returns (block_Stored K st1 (GetBlockIdx K (start + frames_of t - 1)) (frames_of t - (K - GetInBlockIdx K start))) (λ '(st2, p2),
      store_inv st2 (log ++ [mkEntry start t (GivenUp true true)]) ∧
      total_frames_ st2 = start + frames_of t ∧ completed st2 = completed st + p1 + p2)).
Proof.
  intros Hinv Ht Hroom start Hne. pose proof (inv_reserve st log t Hinv Ht Hroom) as Hr. unfold reserve_status in Hr. fold start in Hr.
  rewrite (proj2 (Z.eqb_neq _ _) Hne) in Hr. set (e := mkEntry start t (GivenUp false false)) in *.
  destruct (log_entry _ _ _ _ Hr (lookup_last log e)) as (H0' & _). cbn in H0'.
  eapply returns_mono; [apply (inv_mark_first _ _ _ e false Hr (lookup_last log e) eq_refl)|]. intros [st1 p1] (Hi1 & Ht1 & Hc1).
  rewrite insert_last in Hi1 by done.
  eapply returns_mono; [apply (inv_mark_last _ _ _ (with_status e (GivenUp true false)) true Hi1 (lookup_last log _) eq_refl)|].
  intros [st2 p2] (Hi2 & Ht2 & Hc2). rewrite insert_last in Hi2 by done. split; [exact Hi2|]. split; [|change (completed (fst (fetch_add st (frames_of t)))) with (completed st) in Hc1; lia].
  rewrite Ht2, Ht1. cbn [fst fetch_add total_frames_]. fold start. rewrite cast_id; pose proof (stored_size_range t Ht); unfold frames_of in *; lia.
Qed.

(** After a range that crosses a boundary the next one does not. *)
Lemma second_attempt st log start t : store_inv st (log ++ [mkEntry start t (GivenUp true true)]) → total_frames_ st = start + frames_of t →
  GetBlockIdx K (start + frames_of t) = GetBlockIdx K (start + frames_of t + frames_of t - 1).
Proof.
  intros Hinv Htot. destruct (log_entry _ _ _ _ Hinv (lookup_last _ _)) as (Hs & _ & Ht & Hsh & _). set (e := mkEntry _ _ _) in *.
  destruct (e_last_cases e Hs Ht) as [|El]; [by destruct Hsh|]. pose proof (e_count_range e Ht) as Hc.
  destruct (block_idx_bounds (e_start e) Hs) as (_ & _ & Hlt). destruct (block_idx_bounds (e_end e - 1)) as (_ & Hge & _); [unfold e_end; lia|].
  fold (e_first e) (e_last e) in *. unfold e_end, e_count in *. cbn [e_start e_trace e] in *.
  unfold GetBlockIdx. transitivity (e_last e).
  - symmetry. apply (Z.div_unique _ K _ (start + frames_of t - e_last e * K)); nia.
  - apply (Z.div_unique _ K _ (start + frames_of t + frames_of t - 1 - e_last e * K)); nia.
Qed.

Definition given_up e : Prop := e_status e = GivenUp true true.

Lemma Alloc_loop_step fuel st count pack : 0 ≤ total_frames_ st → 1 ≤ count → total_frames_ st + count < 2 ^ 64 →
  let start := total_frames_ st in let st1 := fst (fetch_add st count) in
  Alloc_loop K C (S fuel) st count pack =
    if GetBlockIdx K start =? GetBlockIdx K (start + count - 1) then
      CHECK (GetBlockIdx K start <? C);; st2 ← GetOrCreate K st1 (GetBlockIdx K start); Ok (st2, start, pack)
    else
      CHECK (count <=? K);;
      '(st2, p1) ← block_Stored K st1 (GetBlockIdx K start) (K - GetInBlockIdx K start);
      '(st3, p2) ← block_Stored K st2 (GetBlockIdx K (start + count - 1)) (count - (K - GetInBlockIdx K start));
      Alloc_loop K C fuel st3 count (pack + p1 + p2).
Proof. intros H1' H2' H3'. cbn [Alloc_loop fetch_add fst]. by rewrite (cast_id 64 (total_frames_ st + count - 1)) by lia. Qed.

Lemma Alloc_ok st log t : store_inv st log → trace_ok t → total_frames_ st + 2 * frames_of t ≤ C * K →
  returns (Alloc K C st (frames_of t)) (λ '(st', start, pack), ∃ skipped, Forall given_up skipped ∧
    store_inv st' (log ++ skipped ++ [mkEntry start t Created]) ∧ total_frames_ st' ≤ total_frames_ st + 2 * frames_of t ∧
    completed st' = completed st + pack).
Proof.
  intros Hinv Ht Hroom. pose proof (e_count_range (mkEntry 0 t Created) Ht) as Hc. unfold e_count in Hc. cbn [e_trace] in Hc.
  destruct (contiguous_bounds 0 log _ ltac:(lia) (si_log _ _ Hinv)) as [H0' _].
  unfold Alloc. rewrite Alloc_loop_step by lia. cbn zeta. destruct (Z.eqb_spec (GetBlockIdx K (total_frames_ st)) (GetBlockIdx K (total_frames_ st + frames_of t - 1))) as [Heq|Hne].
  - destruct (attempt_single st log t) as [Hlt Hcr]; [done|done|lia|done|]. rewrite (proj2 (Z.ltb_lt _ _)) by done. cbn [CHECK mbind result_bind].
    eapply returns_bind; [apply Hcr|]. intros st' (Hi & Htot & Hcm). cbn [returns]. exists []. cbn [app]. split_and!; [constructor|done|lia|lia].
  - rewrite (proj2 (Z.leb_le _ _)) by lia. cbn [CHECK mbind result_bind].
    eapply returns_bind; [apply (attempt_crossing st log t); try done; lia|]. intros [st1 p1] H1'.
    eapply returns_bind; [apply H1'|]. clear H1'. intros [st2 p2] (Hi2 & Htot2 & Hcm2). pose proof (second_attempt _ _ _ _ Hi2 Htot2) as Heq.
    rewrite <- Htot2 in Heq. rewrite Alloc_loop_step by lia. cbn zeta. rewrite (proj2 (Z.eqb_eq _ _) Heq).
    destruct (attempt_single st2 _ t Hi2 Ht) as [Hlt Hcr]; [lia|done|]. rewrite (proj2 (Z.ltb_lt _ _)) by done. cbn [CHECK mbind result_bind].
    eapply returns_bind; [apply Hcr|]. intros st' (Hi & Htot & Hcm). cbn [returns]. exists [mkEntry (total_frames_ st) t (GivenUp true true)].
    rewrite <- app_assoc in Hi. split_and!; [by repeat constructor|exact Hi|lia|lia].
Qed.

Lemma Store_ok st log t : store_inv st log → trace_ok t → total_frames_ st + 2 * frames_of t ≤ C * K →
  returns (Store K C st t) (λ '(st', id, pack), ∃ skipped start, Forall given_up skipped ∧
    store_inv st' (log ++ skipped ++ [mkEntry start t Finished]) ∧ id = OffsetToId start ∧
    total_frames_ st' ≤ total_frames_ st + 2 * frames_of t ∧ pack = Some (completed st' - completed st)).
Proof.
  intros Hinv Ht Hroom. unfold Store.
  assert ((size t =? 0) && (tag t =? 0) = false) as ->.
  { pose proof (to_nonempty _ Ht). destruct (Z.eqb_spec (size t) 0), (Z.eqb_spec (tag t) 0); tauto. }
  rewrite header_of_trace_ok by done. cbn [mbind result_bind]. change (h_size (header_of t) + 1) with (frames_of t).
  eapply returns_bind; [by apply (Alloc_ok st log t)|]. intros [[st1 start] pack] (skipped & Hgu & Hi1 & Htot1 & Hc1).
  rewrite trace_words_ok by done. cbn [mbind result_bind]. rewrite app_assoc in Hi1.
  eapply returns_bind; [apply (inv_write _ _ _ _ Hi1 (lookup_last _ _) eq_refl)|]. intros st2 (Hi2 & Htot2 & Hc2). rewrite insert_last in Hi2 by done.
  eapply returns_bind; [apply (inv_finish _ _ _ _ Hi2 (lookup_last _ _) eq_refl)|]. intros [st3 p] (Hi3 & Htot3 & Hc3). rewrite insert_last in Hi3 by done.
  cbn [returns]. exists skipped, start. rewrite <- app_assoc in Hi3. split_and!; [done|exact Hi3|done|lia|f_equal; lia].
Qed.

(** *** Sequences of calls *)
Lemma inv_new : store_inv (new_StackStore C) [].
Proof.
  unfold new_StackStore. split; cbn; [rewrite length_replicate; lia|done|nia| |].
  - intros i b Hb. apply lookup_replicate in Hb as [-> _]. split; [done|]. cbn. split; [done|]. intros e He. by apply elem_of_nil in He.
  - symmetry. apply sumZ_zero. intros b Hb. by apply elem_of_replicate in Hb as [-> _].
Qed.

(** The ids handed out for the traces. *)
Definition id_of log (id : Z) (t : StackTrace) : Prop :=
  (id = 0 ∧ size t = 0 ∧ tag t = 0) ∨
  ∃ n e, log !! n = Some e ∧ e_status e = Finished ∧ e_trace e = t ∧ id = OffsetToId (e_start e) ∧ id ≠ 0.

Lemma id_of_app log log' id t : id_of log id t → id_of (log ++ log') id t.
Proof. intros [?|(n & e & Hn & ?)]; [by left|]. right. exists n, e. split; [by apply lookup_app_l_Some|done]. Qed.

Lemma call_ok st log ids ts op : store_inv st log → Forall2 (id_of log) ids ts → op_ok op → total_frames_ st + op_frames op < C * K →
  returns (call (M:=M) K C PageSize st ids op) (λ '(st', ids', o), ∃ log' ts', store_inv st' log' ∧ Forall2 (id_of log') ids' ts' ∧
    total_frames_ st' ≤ total_frames_ st + op_frames op ∧ (∀ ops, ref_ops ts (op :: ops) = loaded_trace o :: ref_ops ts' ops)).
Proof.
  intros Hinv Hids Hop Hroom. destruct op as [t|k|type]; cbn [call op_frames op_ok ref_ops] in *.
  - destruct Hop as [[Ez Eg]|Ht].
    + unfold Store. rewrite Ez, Eg. cbn. exists log, (ts ++ [t]). split_and!; try done; [|unfold frames_of, stored_size; lia].
      apply Forall2_app; [done|]. constructor; [by left|constructor].
    + rbind (apply (Store_ok st log t); [done|done|lia]). intros [[st' id] pack] (skipped & start & _ & Hi & -> & Htot & _). cbn [returns].
      exists (log ++ skipped ++ [mkEntry start t Finished]), (ts ++ [t]). split_and!; [done| |done|done].
      apply Forall2_app; [eapply Forall2_impl; [done|]; intros; by apply id_of_app|]. constructor; [|constructor]. right.
      pose proof Hi as Hi'. rewrite app_assoc in Hi'. pose proof (lookup_last (log ++ skipped) (mkEntry start t Finished)) as Hl.
      eexists _, (mkEntry start t Finished). rewrite app_assoc. split; [exact Hl|]. split_and!; [done|done|done|].
      destruct (contiguous_bounds 0 _ _ ltac:(lia) (si_log _ _ Hi')) as [_ Hall].
      destruct (Hall _ (list_elem_of_lookup_2 _ _ _ Hl)) as (H1' & H2' & _). pose proof (e_count_range (mkEntry start t Finished) Ht).
      unfold e_end in H2'. cbn [e_start e_trace] in *. unfold OffsetToId. rewrite !cast_id by (rewrite ?cast_id by lia; lia). lia.
  - destruct (ids !! k) as [id|] eqn:Ek; cbn.
    + destruct (Forall2_lookup_l _ _ _ _ _ Hids Ek) as (t & Et & [(-> & Ez & Eg)|(n & e & Hn & He & Etr & -> & Hne)]).
      * cbn. exists log, ts. rewrite Et. cbn. unfold loaded, stored_size. rewrite Ez, Eg. split_and!; (done || lia).
      * rbind (by apply (Load_ok st log n e)). intros [st' t'] (Hi & Htot & ->). cbn [returns]. exists log, ts. rewrite Et, Etr.
        split_and!; (done || lia).
    + exists log, ts. split_and!; try (done || lia). intros ops. destruct (ts !! k) eqn:Et; [|done].
      apply lookup_ge_None in Ek. apply lookup_lt_Some in Et. rewrite <- (Forall2_length _ _ _ Hids) in Et. lia.
  - rbind (by apply (Pack_ok st log type)). intros [st' r] (Hi & Htot & _). cbn [returns]. exists log, ts. split_and!; (done || lia).
Qed.

Lemma calls_ok st log ids ts ops : store_inv st log → Forall2 (id_of log) ids ts → Forall op_ok ops →
  total_frames_ st + sumZ op_frames ops < C * K →
  returns (calls (M:=M) K C PageSize st ids ops) (λ '(st', os), loaded_trace <$> os = ref_ops ts ops ∧
    allocated_ st' = sumZ mapped (blocks_ st')).
Proof.
  intros Hinv Hids Hops. revert st log ids ts Hinv Hids. induction Hops as [|op ops Hop Hops IH]; intros st log ids ts Hinv Hids Hroom.
  { cbn. split; [done|apply Hinv]. }
  cbn [calls sumZ] in *. assert (0 ≤ sumZ op_frames ops).
  { rewrite <- (sumZ_zero (λ _ : store_op, 0) ops) by done. apply sumZ_le. intros [t| |] Hin; cbn; [|lia..].
    rewrite Forall_forall in Hops. destruct (Hops _ Hin) as [[E _]|Ht]; [unfold frames_of, stored_size; lia|]. pose proof (stored_size_range t Ht). unfold frames_of. lia. }
  rbind (apply (call_ok st log ids ts op); [done|done|done|lia]). intros [[st' ids'] o] (log' & ts' & Hi & Hids' & Htot & Href).
  rbind (apply (IH st' log' ids' ts'); [done|done|lia]). intros [st'' os] (Hos & Hal). cbn [returns fmap list_fmap]. rewrite Href, <- Hos. done.
Qed.

(** *** Interleaved calls

    The steps of the threads: [fetch_add] of [Alloc] ([LReserve]), [GetOrCreate], the
    loop of [Store] that writes the frames, [Stored] for a range inside a block or
    for the two parts of one that is given up, [Load], and [Pack] of one block. *)
Inductive label :=
  | LReserve (t : StackTrace) | LCreate (n : nat) | LWrite (n : nat) | LFinish (n : nat)
  | LMarkFirst (n : nat) | LMarkLast (n : nat) | LLoad (n : nat) | LPack (type : Compression) (i : Z).

Definition on_entry (st : StackStore) log n (s : status) (op : entry → result StackStore) : result (StackStore * list entry) :=
  match log !! n with
  | Some e => st ← op e; Ok (st, <[n := with_status e s]> log)
  | None => Fault OutOfBounds
  end.

Definition thread_step (c : StackStore * list entry) (l : label) : result (StackStore * list entry) :=
  let '(st, log) := c in
  match l with
  | LReserve t =>
      h ← header_of_trace t;
      let '(st, start) := fetch_add st (h_size h + 1) in
      Ok (st, log ++ [mkEntry start t (reserve_status start t)])
  | LCreate n => on_entry st log n Created (λ e, CHECK (e_first e <? C);; GetOrCreate K st (e_first e))
  | LWrite n => on_entry st log n Written (λ e,
      h ← header_of_trace (e_trace e); ws ← trace_words (e_trace e) h; write_trace K st (e_start e) ws)
  | LFinish n => on_entry st log n Finished (λ e,
      h ← header_of_trace (e_trace e); '(st, _) ← block_Stored K st (e_first e) (h_size h + 1); Ok st)
  | LMarkFirst n => on_entry st log n (GivenUp true false) (λ e,
      CHECK (e_count e <=? K);; '(st, _) ← block_Stored K st (e_first e) (K - GetInBlockIdx K (e_start e)); Ok st)
  | LMarkLast n => on_entry st log n (GivenUp true true) (λ e,
      '(st, _) ← block_Stored K st (e_last e) (e_count e - (K - GetInBlockIdx K (e_start e))); Ok st)
  | LLoad n =>
      match log !! n with
      | Some e => '(st, _) ← Load K C PageSize st (OffsetToId (e_start e)); Ok (st, log)
      | None => Fault OutOfBounds
      end
  | LPack type i => '(st, _) ← block_Pack (M:=M) K PageSize st type i; Ok (st, log)
  end.

Definition at_status log n (s : status) : Prop := ∃ e, log !! n = Some e ∧ e_status e = s.

(** The steps the program can take: each thread follows the order of [Store], only
    ids that were returned are loaded, and frames are reserved while there is room. *)
Definition enabled (c : StackStore * list entry) (l : label) : Prop :=
  let '(st, log) := c in
  match l with
  | LReserve t => trace_ok t ∧ total_frames_ st + frames_of t ≤ C * K
  | LCreate n => at_status log n Reserved
  | LWrite n => at_status log n Created
  | LFinish n => at_status log n Written
  | LMarkFirst n => at_status log n (GivenUp false false)
  | LMarkLast n => at_status log n (GivenUp true false)
  | LLoad n => ∃ e, log !! n = Some e ∧ e_status e = Finished ∧ OffsetToId (e_start e) ≠ 0
  | LPack _ i => 0 ≤ i < C
  end.

Inductive reachable_store : StackStore * list entry → Prop :=
  | reach_new : reachable_store (new_StackStore C, [])
  | reach_step c l c' : reachable_store c → enabled c l → thread_step c l = Ok c' → reachable_store c'.

Lemma thread_step_ok st log l : store_inv st log → enabled (st, log) l →
  returns (thread_step (st, log) l) (λ '(st', log'), store_inv st' log').
Proof.
  intros Hinv Hen. destruct l as [t|n|n|n|n|n|n|type i]; cbn [enabled] in Hen; cbn [thread_step]; unfold on_entry.
  1: { destruct Hen as [Ht Hroom]. rewrite header_of_trace_ok by done. cbn [mbind result_bind]. by apply inv_reserve. }
  all: try (destruct Hen as (e & Hn & He); rewrite Hn; destruct (log_entry st log n e Hinv Hn) as (_ & _ & Ht & _ & Hf & _);
    pose proof (e_count_range e Ht)).
  - rewrite (proj2 (Z.ltb_lt _ _)) by lia. cbn [CHECK mbind result_bind]. rbind (by eapply inv_create). by intros st' [? _].
  - rewrite header_of_trace_ok by done. cbn [mbind result_bind]. rewrite trace_words_ok by done. cbn [mbind result_bind].
    rbind (by eapply inv_write). by intros st' [? _].
  - rewrite header_of_trace_ok by done. cbn [mbind result_bind]. change (h_size _ + 1) with (e_count e).
    pose proof (inv_finish st log n e Hinv Hn He) as Hm. destruct (block_Stored _ _ _ _) as [[st' p]|]; [|done]. by destruct Hm.
  - rewrite (proj2 (Z.leb_le _ _)) by lia. cbn [CHECK mbind result_bind].
    pose proof (inv_mark_first st log n e _ Hinv Hn He) as Hm. destruct (block_Stored _ _ _ _) as [[st' p]|]; [|done]. by destruct Hm.
  - pose proof (inv_mark_last st log n e _ Hinv Hn He) as Hm. destruct (block_Stored _ _ _ _) as [[st' p]|]; [|done]. by destruct Hm.
  - destruct He as [He Hid]. rbind (by eapply Load_ok). by intros [st' t] [? _].
  - rbind (by apply (block_Pack_ok st log)). by intros [st' r] [? _].
Qed.

Lemma reachable_inv c : reachable_store c → store_inv c.1 c.2.
Proof.
  induction 1 as [|[st log] l [st' log'] _ IH Hen Hstep]; [apply inv_new|].
  pose proof (thread_step_ok st log l IH Hen) as Hok. by rewrite Hstep in Hok.
Qed.

(** [C7] In every interleaving of the steps of [Store], [Load] and [Pack], while
    the store has room, no step faults: no [CHECK] fails, no frame is written outside its block, to a
    packed or read-only block.  An id that was returned loads the trace it was
    returned for, cut to 255 frames, whatever was packed or unpacked meanwhile; and
    [allocated_] is the memory the blocks hold. *)
Theorem stack_store_concurrent c : reachable_store c →
  (∀ l, enabled c l → returns (thread_step c l) (λ _, True)) ∧
  (∀ n e, c.2 !! n = Some e → e_status e = Finished → OffsetToId (e_start e) ≠ 0 →
    returns (Load K C PageSize c.1 (OffsetToId (e_start e))) (λ '(_, t), t = loaded (e_trace e))) ∧
  allocated_ c.1 = sumZ mapped (blocks_ c.1).
Proof.
  intros Hr. apply reachable_inv in Hr. destruct c as [st log]. cbn [fst snd] in *. split_and!; [| |apply Hr].
  - intros l Hen. eapply returns_mono; [by apply thread_step_ok|done].
  - intros n e Hn He Hid. eapply returns_mono; [by apply (Load_ok st log n e)|]. by intros [st' t] (_ & _ & ->).
Qed.

(** Any sequence of calls that fits in the store runs without a fault, and
    loading the [k]-th id returns the [k]-th trace stored, cut to 255 frames, with
    any calls of [Pack] and [Load] in between. *)
Theorem stack_store_roundtrip ops : Forall op_ok ops → sumZ op_frames ops < C * K →
  returns (calls (M:=M) K C PageSize (new_StackStore C) [] ops) (λ '(_, os), loaded_trace <$> os = ref_ops [] ops).
Proof.
  intros Hops Hroom. eapply returns_mono; [by apply (calls_ok (new_StackStore C) [] [] []); [apply inv_new|constructor|..]|].
  by intros [st os] [? _].
Qed.

(** The numbers the calls report are exact: [Pack] returns the bytes by which
    [allocated_] drops, and [Store] sets [*pack] to the number of blocks it completes. *)
Theorem stack_store_accounting c : reachable_store c →
  (∀ type, returns (Pack (M:=M) K C PageSize c.1 type) (λ '(st', r), 0 ≤ r ∧ allocated_ st' = allocated_ c.1 - r)) ∧
  (∀ t, trace_ok t → total_frames_ c.1 + 2 * frames_of t ≤ C * K →
    returns (Store K C c.1 t) (λ '(st', _, pack), pack = Some (completed st' - completed c.1))).
Proof.
  intros Hr. apply reachable_inv in Hr. destruct c as [st log]. cbn [fst snd] in *. split.
  - intros type. eapply returns_mono; [by apply (Pack_ok st log)|]. by intros [st' r] (_ & _ & ? & ?).
  - intros t Ht Hroom. eapply returns_mono; [by apply (Store_ok st log)|]. intros [[st' id] pack] (? & ? & _ & _ & _ & _ & ?). done.
Qed.

End Concurrent.

(** When a range crosses the end of the last block, [Alloc] accesses
    [blocks_[kBlockCount]], outside the array, before the [CHECK_LT] of the next
    attempt could stop it. *)
Theorem Alloc_past_the_end K C st count : 0 < K ≤ 2 ^ 20 → 0 < C ≤ 2 ^ 12 → Z.of_nat (length (blocks_ st)) = C →
  1 ≤ count ≤ K → C * K - count < total_frames_ st < C * K → Alloc K C st count = Fault OutOfBounds.
Proof.
  intros HK HC Hlen Hcount Htot. assert (total_frames_ st / K = C - 1) as Hfirst.
  { symmetry. apply (Z.div_unique _ K _ (total_frames_ st - K * (C - 1))); nia. }
  assert ((total_frames_ st + count - 1) / K = C) as Hlast.
  { symmetry. apply (Z.div_unique _ K _ (total_frames_ st + count - 1 - K * C)); nia. }
  unfold Alloc. cbn [Alloc_loop fetch_add]. unfold GetBlockIdx. rewrite (cast_id 64 (total_frames_ st + count - 1)) by nia.
  rewrite Hfirst, Hlast, (proj2 (Z.eqb_neq _ _)), (proj2 (Z.leb_le _ _)) by lia. cbn [CHECK mbind result_bind].
  unfold block_Stored, get_block, put_block. cbn [blocks_ total_frames_ allocated_].
  destruct (lookup_lt_is_Some_2 (blocks_ st) (Z.to_nat (C - 1))) as [b Hb]; [lia|].
  rewrite (proj2 (aget_Ok _ (C - 1) b)) by auto with lia. cbn [mbind result_bind Stored]. rewrite aset_Ok by lia. cbn [mbind result_bind blocks_].
  rewrite aget_OutOfBounds; [done|]. rewrite length_insert. lia.
Qed.

Lemma Alloc_past_the_end_witness :
  Alloc 512 2 (mkStore 1023 0 [new_block; new_block]) 2 = Fault OutOfBounds.
Proof. apply (Alloc_past_the_end 512 2 (mkStore 1023 0 [new_block; new_block]) 2); cbn; lia. Defined.

(** ** The parameters of the source satisfy the hypotheses *)
Lemma source_frames : 512 ≤ kBlockSizeFrames ≤ 2 ^ 20.
Proof. lia. Qed.
Lemma source_count : 0 < kBlockCount.
Proof. done. Qed.
Lemma source_total : kBlockCount * kBlockSizeFrames ≤ 2 ^ 32.
Proof. done. Qed.
Lemma source_page : ∃ p, 12 ≤ p ≤ 16 ∧ 4096 = 2 ^ p.
Proof. exists 12. lia. Qed.
Lemma source_aligned : (4096 | kBlockSizeFrames * 8).
Proof. by exists 2048. Qed.
Lemma source_limit : 2 * kBlockSizeFrames < Z.min (map_limit (MapLaws:=code_map_laws)) kNoPrefix.
Proof. change (map_limit (MapLaws:=code_map_laws)) with (2 ^ 28). reflexivity. Qed.

Definition sample_trace : StackTrace := mkTrace [0x401000; 0x402000; 0x401000] 3 1.
Lemma sample_trace_ok : trace_ok sample_trace.
Proof. split; [cbn; lia|cbn; lia|cbn; lia|]. repeat (constructor; [unfold is_word; lia|]). constructor. Qed.

Definition sample_config : StackStore * list entry :=
  (fst (fetch_add (new_StackStore kBlockCount) 4), [mkEntry 0 sample_trace Reserved]).

Lemma sample_config_reachable : reachable_store (H0:=code_map_ops) kBlockSizeFrames kBlockCount 4096 sample_config.
Proof.
  apply (reach_step _ _ _ (new_StackStore kBlockCount, []) (LReserve sample_trace)); [constructor| |by vm_compute].
  split; [apply sample_trace_ok|]. vm_compute. discriminate.
Qed.

Lemma stack_store_concurrent_witness :
  (∀ l, enabled kBlockSizeFrames kBlockCount sample_config l →
    returns (thread_step (H0:=code_map_ops) kBlockSizeFrames kBlockCount 4096 sample_config l) (λ _, True)) ∧
  (∀ n e, sample_config.2 !! n = Some e → e_status e = Finished → OffsetToId (e_start e) ≠ 0 →
    returns (Load kBlockSizeFrames kBlockCount 4096 sample_config.1 (OffsetToId (e_start e))) (λ '(_, t), t = loaded (e_trace e))) ∧
  allocated_ sample_config.1 = sumZ (mapped kBlockSizeFrames 4096) (blocks_ sample_config.1).
Proof.
  apply (stack_store_concurrent kBlockSizeFrames kBlockCount 4096 (Hmap:=code_map_laws) code_map_keys
    source_frames source_count source_total source_page source_aligned source_limit sample_config sample_config_reachable).
Defined.

Definition sample_ops : list store_op := [SStore sample_trace; SPack LZW; SLoad 0; SStore (mkTrace [] 0 0); SLoad 1].

Lemma stack_store_roundtrip_witness :
  returns (calls (H:=code_map_ops) kBlockSizeFrames kBlockCount 4096 (new_StackStore kBlockCount) [] sample_ops)
    (λ '(_, os), loaded_trace <$> os = ref_ops [] sample_ops).
Proof.
  apply (stack_store_roundtrip kBlockSizeFrames kBlockCount 4096 (Hmap:=code_map_laws) code_map_keys
    source_frames source_count source_total source_page source_aligned source_limit sample_ops).
  - repeat (apply Forall_cons_2; [first [exact I | right; exact sample_trace_ok | left; split; reflexivity]|]). apply Forall_nil_2.
  - by vm_compute.
Defined.

Lemma stack_store_accounting_witness :
  (∀ type, returns (Pack (H:=code_map_ops) kBlockSizeFrames kBlockCount 4096 sample_config.1 type)
    (λ '(st', r), 0 ≤ r ∧ allocated_ st' = allocated_ sample_config.1 - r)) ∧
  (∀ t, trace_ok t → total_frames_ sample_config.1 + 2 * frames_of t ≤ kBlockCount * kBlockSizeFrames →
    returns (Store kBlockSizeFrames kBlockCount sample_config.1 t)
      (λ '(st', _, pack), pack = Some (completed kBlockSizeFrames st' - completed kBlockSizeFrames sample_config.1))).
Proof.
  apply (stack_store_accounting kBlockSizeFrames kBlockCount 4096 (Hmap:=code_map_laws) code_map_keys
    source_frames source_count source_total source_page source_aligned source_limit sample_config sample_config_reachable).
Defined.

End Stacks.
