(* ===== verification/Libc.v ===== *)
(** * Libc: the string and memory functions of [sanitizer_libc.cpp]

    Memory is a list of bytes and a pointer an index into it; an access outside the
    list is a fault, so a string without its terminating zero makes the functions
    that look for it fault.  Bytes are in [0, 255]; reading a [char] sign-extends.
    Loops without a bound run on fuel, one more than the size of the memory: before
    that many steps the scan leaves the memory. *)
From S2P Require Import Prelude Common.

Module Libc.

Notation memory := (list Z).
Notation ptr := Z.

Definition rd (m : memory) (p : ptr) : result Z := aget m p.
Definition wr (m : memory) (p : ptr) (c : Z) : result memory := aset m p (u8 c).

(** [char] is signed: the value of a byte in an expression of type [int]. *)
Definition schar (b : Z) : Z := signed 8 b.

Definition IsSpace (c : Z) : bool := (c =? 32) || (c =? 10) || (c =? 9) || (c =? 12) || (c =? 13) || (c =? 11).
Definition IsDigit (c : Z) : bool := (48 <=? c) && (c <=? 57).
Definition ToLower (c : Z) : Z := if (65 <=? c) && (c <=? 90) then c + 97 - 65 else c.

Definition scan_fuel (m : memory) : nat := S (length m).

Section Ops.
Implicit Types (m : memory) (s d : ptr).

(** ** Memory *)
Definition internal_memchr m s (c n : Z) : result (option ptr) :=
  find_range 0 n (λ i, b ← rd m (s + i); Ok (if schar b =? c then Some (s + i) else None)).

Definition internal_memrchr m s (c n : Z) : result (option ptr) :=
  for_range 0 n (λ i res, b ← rd m (s + i); Ok (if schar b =? c then Some (s + i) else res)) None.

Definition internal_memcmp m (s1 s2 : ptr) (n : Z) : result Z :=
  r ← find_range 0 n (λ i,
    b1 ← rd m (s1 + i);
    b2 ← rd m (s2 + i);
    Ok (if negb (schar b1 =? schar b2) then Some (if schar b1 <? schar b2 then -1 else 1) else None));
  Ok (default 0 r).

Definition internal_memcpy m d s (n : Z) : result memory :=
  for_range 0 n (λ i m, b ← rd m (s + i); wr m (d + i) b) m.

Definition internal_memmove m d s (n : Z) : result memory :=
  let signed_n := signed 64 n in
  CHECK (0 <=? signed_n);;
  if d <? s then for_range 0 signed_n (λ i m, b ← rd m (s + i); wr m (d + i) b) m
  else if (s <? d) && (0 <? signed_n) then
    for_down (Z.to_nat signed_n) (λ i m, b ← rd m (s + i); wr m (d + i) b) m
  else Ok m.

(** The bytes of a [u64] in memory (little endian). *)
Definition store_u64 m (p : ptr) (v : Z) : result memory :=
  for_range 0 8 (λ i m, wr m (p + i) (Z.shiftr v (8 * i))) m.

Definition load_u64 m (p : ptr) : result Z :=
  for_range 0 8 (λ i v, b ← rd m (p + i); Ok (Z.lor v (Z.shiftl b (8 * i)))) 0.

(** The value stored eight bytes at a time. *)
Definition memset_word (c : Z) : Z :=
  let v := u64 c in
  let v := Z.lor v (u64 (Z.shiftl v 8)) in
  let v := Z.lor v (u64 (Z.shiftl v 16)) in
  Z.lor v (u64 (Z.shiftl v 32)).

(** [base] is the address of the first byte of the memory. *)
Definition internal_memset (base : Z) m s (c n : Z) : result memory :=
  if IsAligned (base + s) 16 && (n mod 16 =? 0) then
    let v := memset_word c in
    for_range 0 (n / 16) (λ i m, m ← store_u64 m (s + 16 * i + 8) v; store_u64 m (s + 16 * i) v) m
  else
    for_range 0 n (λ i m, wr m (s + i) c) m.

(** ** Strings *)
Definition internal_strlen m s : result Z :=
  loop_from (scan_fuel m) 0 (λ i, b ← rd m (s + i); Ok (if b =? 0 then Some i else None)).

Definition internal_strnlen m s (maxlen : Z) : result Z :=
  loop_from (scan_fuel m) 0 (λ i,
    if i <? maxlen then b ← rd m (s + i); Ok (if b =? 0 then Some i else None) else Ok (Some i)).

Definition internal_strchr m s (c : Z) : result (option ptr) :=
  loop_from (scan_fuel m) 0 (λ i,
    b ← rd m (s + i);
    Ok (if schar b =? signed 8 c then Some (Some (s + i)) else if b =? 0 then Some None else None)).

Definition internal_strchrnul m s (c : Z) : result ptr :=
  res ← internal_strchr m s c;
  match res with Some p => Ok p | None => n ← internal_strlen m s; Ok (s + n) end.

Fixpoint strrchr_loop (fuel : nat) m s (c i : Z) (res : option ptr) : result (option ptr) :=
  match fuel with
  | O => Fault OutOfFuel
  | S fuel =>
      b ← rd m (s + i);
      if b =? 0 then Ok res
      else strrchr_loop fuel m s c (i + 1) (if schar b =? c then Some (s + i) else res)
  end.
Definition internal_strrchr m s (c : Z) : result (option ptr) := strrchr_loop (scan_fuel m) m s c 0 None.

Definition internal_strcspn m s (reject : ptr) : result Z :=
  loop_from (scan_fuel m) 0 (λ i,
    b ← rd m (s + i);
    if b =? 0 then Ok (Some i)
    else r ← internal_strchr m reject (schar b); Ok (match r with Some _ => Some i | None => None end)).

(** [unsigned c = *s] sign-extends the [char]. *)
Definition internal_strcmp m (s1 s2 : ptr) : result Z :=
  loop_from (scan_fuel m) 0 (λ i,
    b1 ← rd m (s1 + i);
    b2 ← rd m (s2 + i);
    let c1 := u32 (schar b1) in
    let c2 := u32 (schar b2) in
    Ok (if negb (c1 =? c2) then Some (if c1 <? c2 then -1 else 1) else if c1 =? 0 then Some 0 else None)).

Definition internal_strncmp m (s1 s2 : ptr) (n : Z) : result Z :=
  loop_from (scan_fuel m) 0 (λ i,
    if i <? n then
      b1 ← rd m (s1 + i);
      b2 ← rd m (s2 + i);
      let c1 := u32 (schar b1) in
      let c2 := u32 (schar b2) in
      Ok (if negb (c1 =? c2) then Some (if c1 <? c2 then -1 else 1) else if c1 =? 0 then Some 0 else None)
    else Ok (Some 0)).

(** [InternalAlloc(n)] returns memory with the contents [fresh n], placed after [m]. *)
Definition internal_strdup (fresh : Z → memory) m s : result (memory * ptr) :=
  len ← internal_strlen m s;
  let s2 := Z.of_nat (length m) in
  m ← internal_memcpy (m ++ fresh (len + 1)) s2 s len;
  m ← wr m (s2 + len) 0;
  Ok (m, s2).

Definition internal_strlcat m d s (maxlen : Z) : result (memory * Z) :=
  srclen ← internal_strlen m s;
  dstlen ← internal_strnlen m d maxlen;
  if dstlen =? maxlen then Ok (m, maxlen + srclen)
  else
    m ← (if srclen <? maxlen - dstlen then internal_memmove m (d + dstlen) s (srclen + 1)
         else
           m ← internal_memmove m (d + dstlen) s (maxlen - dstlen - 1);
           wr m (d + maxlen - 1) 0);
    Ok (m, dstlen + srclen).

Fixpoint strcopy_loop (fuel : nat) m d s (n i : Z) : result (memory * Z) :=
  match fuel with
  | O => Fault OutOfFuel
  | S fuel =>
      if i <? n then
        b ← rd m (s + i);
        if b =? 0 then Ok (m, i) else m ← wr m (d + i) b; strcopy_loop fuel m d s n (i + 1)
      else Ok (m, i)
  end.

Definition internal_strncat m d s (n : Z) : result memory :=
  len ← internal_strlen m d;
  '(m, i) ← strcopy_loop (scan_fuel m) m (d + len) s n 0;
  wr m (d + len + i) 0.

Definition internal_strlcpy m d s (maxlen : Z) : result (memory * Z) :=
  srclen ← internal_strlen m s;
  m ← (if srclen <? maxlen then internal_memmove m d s (srclen + 1)
       else if negb (maxlen =? 0) then
         m ← internal_memmove m d s (maxlen - 1);
         wr m (d + maxlen - 1) 0
       else Ok m);
  Ok (m, srclen).

Definition internal_strncpy (base : Z) m d s (n : Z) : result memory :=
  '(m, i) ← strcopy_loop (scan_fuel m) m d s n 0;
  internal_memset base m (d + i) 0 (n - i).

Definition internal_strstr m (haystack needle : ptr) : result (option ptr) :=
  len1 ← internal_strlen m haystack;
  len2 ← internal_strlen m needle;
  if len1 <? len2 then Ok None
  else find_range 0 (len1 - len2 + 1) (λ pos,
    r ← internal_memcmp m (haystack + pos) needle len2;
    Ok (if r =? 0 then Some (haystack + pos) else None)).

(** ** Numbers *)
Definition UINT64_MAX : Z := 2 ^ 64 - 1.
Definition INT64_MAX : Z := 2 ^ 63 - 1.
Definition INT64_MIN : Z := - 2 ^ 63.

Fixpoint digits_loop (fuel : nat) m (nptr : ptr) (res : Z) (have_digits : bool) : result (ptr * Z * bool) :=
  match fuel with
  | O => Fault OutOfFuel
  | S fuel =>
      b ← rd m nptr;
      if IsDigit (schar b) then
        let res := if res <=? UINT64_MAX / 10 then res * 10 else UINT64_MAX in
        let digit := schar b - 48 in
        let res := if res <=? UINT64_MAX - digit then res + digit else UINT64_MAX in
        digits_loop fuel m (nptr + 1) res true
      else Ok (nptr, res, have_digits)
  end.

(** The value and [*endptr]. *)
Definition internal_simple_strtoll m (nptr : ptr) (base : Z) : result (Z * ptr) :=
  CHECK (base =? 10);;
  n ← loop_from (scan_fuel m) 0 (λ i, b ← rd m (nptr + i); Ok (if IsSpace (schar b) then None else Some i));
  let nptr := nptr + n in
  let old_nptr := nptr in
  b ← rd m nptr;
  let '(sgn, nptr) :=
    if b =? 43 then (1, nptr + 1) else if b =? 45 then (-1, nptr + 1) else (1, nptr) in
  '(nptr, res, have_digits) ← digits_loop (scan_fuel m) m nptr 0 false;
  let endptr := if have_digits : bool then nptr else old_nptr in
  if 0 <? sgn then Ok (signed 64 (Min INT64_MAX res), endptr)
  else Ok (if INT64_MAX <? res then INT64_MIN else signed 64 res * -1, endptr).

Definition internal_atoll m (nptr : ptr) : result Z :=
  '(v, _) ← internal_simple_strtoll m nptr 10; Ok v.

(** [wchar_t] strings are lists of their own. *)
Definition internal_wcslen (ws : list Z) s : result Z :=
  loop_from (scan_fuel ws) 0 (λ i, c ← aget ws (s + i); Ok (if c =? 0 then Some i else None)).

Definition internal_wcsnlen (ws : list Z) s (maxlen : Z) : result Z :=
  loop_from (scan_fuel ws) 0 (λ i,
    if i <? maxlen then c ← aget ws (s + i); Ok (if c =? 0 then Some i else None) else Ok (Some i)).

Definition mem_is_zero (base : Z) m (beg size : Z) : result bool :=
  CHECK (size <=? 2 ^ 40);;
  let addr := base + beg in
  aligned_beg ← RoundUpTo addr 8;
  let aligned_end := RoundDownTo (addr + size) 8 in
  let end_ := addr + size in
  let byte mem all := b ← rd m (mem - base); Ok (Z.lor all (u64 (schar b))) in
  all ← for_range addr (Z.min aligned_beg end_) byte 0;
  all ← for_range 0 ((aligned_end - aligned_beg) / 8) (λ i all, v ← load_u64 m (aligned_beg + 8 * i - base); Ok (Z.lor all v)) all;
  all ← (if addr <=? aligned_end then for_range aligned_end end_ byte all else Ok all);
  Ok (all =? 0).

End Ops.

(** ** Facts about memory *)
Definition is_byte (b : Z) : Prop := 0 ≤ b < 256.

Definition slice (m : memory) (p : ptr) (n : Z) : list Z := take (Z.to_nat n) (drop (Z.to_nat p) m).
Definition put (m : memory) (p : ptr) (bs : list Z) : memory := list_inserts (Z.to_nat p) bs m.
(** The [n] bytes at [p] are in the memory. *)
Definition inside (m : memory) (p : ptr) (n : Z) : Prop := 0 ≤ p ∧ 0 ≤ n ∧ p + n ≤ Z.of_nat (length m).

Lemma schar_cases b : is_byte b → schar b = if b <? 128 then b else b - 256.
Proof. intros Hb. unfold schar, signed. rewrite cast_id by (unfold is_byte in Hb; lia). done. Qed.

Lemma schar_inj b c : is_byte b → is_byte c → (schar b =? schar c) = (b =? c).
Proof.
  unfold is_byte. intros Hb Hc. rewrite !schar_cases by done.
  destruct (Z.ltb_spec b 128), (Z.ltb_spec c 128), (Z.eqb_spec b c); rewrite ?Z.eqb_eq, ?Z.eqb_neq; lia.
Qed.

(** [unsigned c = *s] keeps the order of the bytes. *)
Lemma u32_schar_cases b : is_byte b → u32 (schar b) = if b <? 128 then b else 2 ^ 32 - 256 + b.
Proof.
  unfold is_byte. intros Hb. rewrite schar_cases by done. destruct (Z.ltb_spec b 128); [apply cast_id; lia|].
  unfold cast. replace (b - 256) with (2 ^ 32 - 256 + b + (-1) * 2 ^ 32) by lia. rewrite Z_mod_plus_full. apply Z.mod_small. lia.
Qed.

Lemma u32_schar_lt b c : is_byte b → is_byte c → (u32 (schar b) <? u32 (schar c)) = (b <? c).
Proof.
  unfold is_byte. intros Hb Hc. rewrite !u32_schar_cases by done.
  destruct (Z.ltb_spec b 128), (Z.ltb_spec c 128), (Z.ltb_spec b c); rewrite ?Z.ltb_lt, ?Z.ltb_ge; lia.
Qed.

Lemma u32_schar_eq b c : is_byte b → is_byte c → (u32 (schar b) =? u32 (schar c)) = (b =? c).
Proof.
  unfold is_byte. intros Hb Hc. rewrite !u32_schar_cases by done.
  destruct (Z.ltb_spec b 128), (Z.ltb_spec c 128), (Z.eqb_spec b c); rewrite ?Z.eqb_eq, ?Z.eqb_neq; lia.
Qed.

Lemma u8_byte b : is_byte b → u8 b = b.
Proof. intros Hb. apply cast_id. exact Hb. Qed.

Lemma length_slice m p n : inside m p n → Z.of_nat (length (slice m p n)) = n.
Proof. intros (?&?&?). unfold slice. rewrite length_take, length_drop. lia. Qed.

Lemma slice_lookup m p n (i : nat) : inside m p n → (i < Z.to_nat n)%nat → slice m p n !! i = m !! (Z.to_nat p + i)%nat.
Proof. intros _ Hi. unfold slice. by rewrite lookup_take_lt, lookup_drop by done. Qed.

Lemma rd_slice m p n i : inside m p n → 0 ≤ i < n → ∃ b, rd m (p + i) = Ok b ∧ slice m p n !! Z.to_nat i = Some b.
Proof.
  intros Hin Hi. destruct (lookup_lt_is_Some_2 m (Z.to_nat p + Z.to_nat i)) as [b Hb]; [destruct Hin; lia|].
  exists b. rewrite (slice_lookup m p n) by (done || lia). split; [|done]. apply aget_Ok. destruct Hin.
  split; [lia|]. by rewrite Z2Nat.inj_add by lia.
Qed.

Lemma length_put m p bs : length (put m p bs) = length m.
Proof. apply length_inserts. Qed.

Lemma put_lookup_out m p bs (i : nat) : 0 ≤ p → (Z.of_nat i < p ∨ p + Z.of_nat (length bs) ≤ Z.of_nat i) → put m p bs !! i = m !! i.
Proof. intros Hp [Hi|Hi]; [apply list_lookup_inserts_lt; lia|apply list_lookup_inserts_ge; lia]. Qed.

Lemma put_lookup_in m p bs (i : nat) : inside m p (Z.of_nat (length bs)) → (i < length bs)%nat → put m p bs !! (Z.to_nat p + i)%nat = bs !! i.
Proof. intros (?&?&?) Hi. unfold put. rewrite list_lookup_inserts by lia. f_equal. lia. Qed.

Lemma put_snoc m p bs b : 0 ≤ p → put m p (bs ++ [b]) = <[Z.to_nat (p + Z.of_nat (length bs)) := b]> (put m p bs).
Proof. intros. unfold put. rewrite list_inserts_app_l. cbn. f_equal. lia. Qed.

Lemma put_cons m p b bs : 0 ≤ p → put m p (b :: bs) = <[Z.to_nat p := b]> (put m (p + 1) bs).
Proof. intros. unfold put. cbn [list_inserts]. do 2 f_equal. lia. Qed.

Lemma wr_ok m p b : is_byte b → 0 ≤ p < Z.of_nat (length m) → wr m p b = Ok (<[Z.to_nat p := b]> m).
Proof. intros. unfold wr. by rewrite u8_byte, aset_Ok. Qed.

Lemma slice_bytes m p n : Forall is_byte m → Forall is_byte (slice m p n).
Proof. intros. by apply Forall_take, Forall_drop. Qed.

Lemma put_bytes m p bs : Forall is_byte m → Forall is_byte bs → Forall is_byte (put m p bs).
Proof. intros. by apply Forall_inserts. Qed.

(** ** Copying *)

(** One step of a copy from a place that was not written yet. *)
Lemma copy_step m m' d s n i : Forall is_byte m → inside m d n → inside m s n → 0 ≤ i < n →
  length m' = length m → m' !! Z.to_nat (s + i) = m !! Z.to_nat (s + i) →
  ∃ b, slice m s n !! Z.to_nat i = Some b ∧ is_byte b ∧ (b ← rd m' (s + i); wr m' (d + i) b) = Ok (<[Z.to_nat (d + i) := b]> m').
Proof.
  intros Hby Hd Hs Hi Hlen Heq. destruct (rd_slice m s n i Hs Hi) as (b & Hrd & Hsl). exists b.
  apply aget_Ok in Hrd as [H0 Hl]. assert (is_byte b) by (eapply Forall_lookup_1; eauto). split; [done|]. split; [done|].
  unfold rd. rewrite (proj2 (aget_Ok m' (s + i) b)) by (split; [lia|congruence]). cbn [mbind result_bind].
  apply wr_ok; [done|]. destruct Hd. lia.
Qed.

Lemma copy_up m d s n : Forall is_byte m → inside m d n → inside m s n → d < s ∨ s + n ≤ d →
  for_range 0 n (λ i m, b ← rd m (s + i); wr m (d + i) b) m = Ok (put m d (slice m s n)).
Proof.
  intros Hby Hd Hs Hdis. apply returns_eq. pose proof Hd as (?&?&?). pose proof Hs as (?&_&?).
  eapply returns_mono; [apply (returns_for_range (λ i m', m' = put m d (take (Z.to_nat i) (slice m s n)))); [lia|done|]|].
  - intros i m' Hi ->. pose proof (length_slice m s n Hs) as Hls.
    assert (length (take (Z.to_nat i) (slice m s n)) = Z.to_nat i) as Hlt by (rewrite length_take; lia).
    destruct (copy_step m (put m d (take (Z.to_nat i) (slice m s n))) d s n i) as (b & Hb & Hbb & ->); try done; [apply length_put| |].
    { apply put_lookup_out; [lia|]. rewrite Hlt. lia. }
    cbn [returns]. replace (Z.to_nat (i + 1)) with (S (Z.to_nat i)) by lia. rewrite (take_S_r _ _ b) by done.
    rewrite put_snoc by lia. do 2 f_equal. lia.
  - intros m' ->. f_equal. apply take_ge. pose proof (length_slice m s n Hs). lia.
Qed.

Lemma copy_down m d s n : Forall is_byte m → inside m d n → inside m s n → s < d →
  for_down (Z.to_nat n) (λ i m, b ← rd m (s + i); wr m (d + i) b) m = Ok (put m d (slice m s n)).
Proof.
  intros Hby Hd Hs Hlt. apply returns_eq. pose proof Hd as (?&?&?). pose proof Hs as (?&_&?). pose proof (length_slice m s n Hs) as Hls.
  eapply returns_mono; [apply (returns_for_down (λ i m', m' = put m (d + Z.of_nat i) (drop i (slice m s n))))|].
  - rewrite drop_ge by lia. done.
  - intros i m' Hi ->. destruct (copy_step m (put m (d + Z.of_nat (S i)) (drop (S i) (slice m s n))) d s n (Z.of_nat i)) as (b & Hb & Hbb & ->); try done; [lia|apply length_put| |].
    { apply put_lookup_out; lia. }
    cbn [returns]. rewrite Nat2Z.id in Hb. rewrite (drop_S (slice m s n) b i) by done. rewrite (put_cons _ _ b) by lia. do 2 f_equal. lia.
  - intros m' ->. f_equal. lia.
Qed.

Lemma memcpy_spec m d s n : Forall is_byte m → inside m d n → inside m s n → d < s ∨ s + n ≤ d →
  internal_memcpy m d s n = Ok (put m d (slice m s n)).
Proof. apply copy_up. Qed.

Lemma put_self m p n : inside m p n → put m p (slice m p n) = m.
Proof.
  intros Hin. pose proof (length_slice m p n Hin) as Hl. apply list_eq. intros i. pose proof Hin as (?&?&?).
  destruct (decide (Z.to_nat p ≤ i < Z.to_nat p + Z.to_nat n)%nat) as [Hi|Hi].
  - replace i with (Z.to_nat p + (i - Z.to_nat p))%nat by lia. rewrite put_lookup_in by (rewrite ?Hl; (done || lia)).
    apply slice_lookup; [done|lia].
  - apply put_lookup_out; lia.
Qed.

Lemma memmove_spec m d s n : Forall is_byte m → inside m d n → inside m s n → n < 2 ^ 63 →
  internal_memmove m d s n = Ok (put m d (slice m s n)).
Proof.
  intros Hby Hd Hs Hn. pose proof Hd as (_&?&_). unfold internal_memmove.
  assert (signed 64 n = n) as ->. { unfold signed. rewrite cast_id by lia. by rewrite (proj2 (Z.ltb_lt n _)) by lia. }
  rewrite (proj2 (Z.leb_le 0 n)) by lia. cbn [CHECK mbind result_bind].
  destruct (Z.ltb_spec d s); [apply copy_up; auto|]. destruct (Z.ltb_spec s d); cbn [andb].
  - destruct (Z.ltb_spec 0 n); [by apply copy_down|]. by replace n with 0 by lia.
  - assert (d = s) as -> by lia. by rewrite put_self.
Qed.

(** ** Filling *)
Lemma put_app_l m p a b : 0 ≤ p → put m p (a ++ b) = put (put m (p + Z.of_nat (length a)) b) p a.
Proof.
  revert p. induction a as [|x a IH]; intros p Hp; cbn [app length]; [by rewrite Z.add_0_r|].
  rewrite !put_cons, IH by lia. by replace (p + 1 + Z.of_nat (length a)) with (p + Z.of_nat (S (length a))) by lia.
Qed.

Lemma put_app_r m p a b : 0 ≤ p → put m p (a ++ b) = put (put m p a) (p + Z.of_nat (length a)) b.
Proof. intros. unfold put. rewrite list_inserts_app_l. f_equal. lia. Qed.

Lemma fill_up m p n c f : is_byte c → inside m p n → (∀ i, 0 ≤ i < n → u8 (f i) = c) →
  for_range 0 n (λ i m, wr m (p + i) (f i)) m = Ok (put m p (replicate (Z.to_nat n) c)).
Proof.
  intros Hc (?&?&?) Hf. apply returns_eq.
  apply (returns_for_range (λ i m', m' = put m p (replicate (Z.to_nat i) c))); [lia|done|]. intros i m' Hi ->.
  unfold wr. rewrite Hf by done. rewrite aset_Ok by (rewrite length_put; lia). cbn [returns].
  replace (Z.to_nat (i + 1)) with (Z.to_nat i + 1)%nat by lia. rewrite replicate_add. cbn [replicate].
  rewrite put_snoc, length_replicate by lia. do 2 f_equal. lia.
Qed.

Lemma memset_word_bytes c i : is_byte c ∨ c = -1 → 0 ≤ i < 8 → u8 (Z.shiftr (memset_word c) (8 * i)) = u8 c.
Proof.
  assert (forallb (λ c, forallb (λ i, u8 (Z.shiftr (memset_word c) (8 * i)) =? u8 c) (seqZ 0 8)) (seqZ (-1) 257) = true) as Hall by (by vm_compute).
  unfold is_byte. intros Hc Hi. rewrite forallb_forall in Hall. specialize (Hall c). rewrite forallb_forall in Hall. apply Z.eqb_eq, Hall.
  - apply list_elem_of_In, elem_of_seqZ. lia.
  - by apply list_elem_of_In, elem_of_seqZ.
Qed.

(** The values that [internal_memset] stores as a byte: a byte, -1, and any value when the range
    is not aligned, which is filled byte by byte. *)
Definition fills (base : Z) s (c n : Z) : Prop := is_byte c ∨ c = -1 ∨ ¬ ((base + s) mod 16 = 0 ∧ n mod 16 = 0).

Lemma IsAligned_16 a : IsAligned a 16 = true → a mod 16 = 0.
Proof. unfold IsAligned. change (u64 (16 - 1)) with (Z.ones 4). rewrite Z.land_ones by done. apply Z.eqb_eq. Qed.

Lemma memset_spec base m s c n : fills base s c n → inside m s n → internal_memset base m s c n = Ok (put m s (replicate (Z.to_nat n) (u8 c))).
Proof.
  intros Hc Hin. pose proof Hin as (?&?&?). assert (is_byte (u8 c)) as Hu by (apply cast_range; lia). unfold internal_memset.
  destruct (IsAligned _ _ && _) eqn:Efast; [|by apply fill_up]. apply andb_true_iff in Efast as [Hal Hmod%Z.eqb_eq].
  assert (is_byte c ∨ c = -1) as Hb. { destruct Hc as [?|[?|Hna]]; [by left|by right|]. exfalso. apply Hna. split; [by apply IsAligned_16|done]. }
  assert (n = 16 * (n / 16)) as Hn by (pose proof (Z.div_mod n 16); lia). apply returns_eq. cbn zeta.
  eapply returns_mono; [apply (returns_for_range (λ i m', m' = put m s (replicate (Z.to_nat (16 * i)) (u8 c)))); [lia|done|]|intros m' ->; by rewrite <- Hn].
  intros i m' Hi ->. assert (∀ k, 0 ≤ k < 8 → u8 (Z.shiftr (memset_word c) (8 * k)) = u8 c) as Hw by (intros; by apply memset_word_bytes).
  unfold store_u64. rewrite (fill_up _ (s + 16 * i + 8) 8 (u8 c)) by (done || unfold inside; rewrite ?length_put; lia). cbn [mbind result_bind].
  rewrite (fill_up _ (s + 16 * i) 8 (u8 c)) by (done || unfold inside; rewrite ?length_put; lia). cbn [returns].
  replace (Z.to_nat (16 * (i + 1))) with (Z.to_nat (16 * i) + (8 + 8))%nat by lia. rewrite replicate_add, put_app_r, length_replicate by lia.
  rewrite replicate_add, put_app_l, length_replicate by lia. by rewrite Z2Nat.id by lia.
Qed.

(** ** Strings *)

(** The C string [xs] at [p]. *)
Record cstr (m : memory) (p : ptr) (xs : list Z) : Prop := {
  cs_inside : inside m p (Z.of_nat (length xs) + 1);
  cs_bytes : Forall (λ b, 0 < b < 256) xs;
  cs_slice : slice m p (Z.of_nat (length xs) + 1) = xs ++ [0]
}.

Lemma cs_byte m p xs : cstr m p xs → Forall is_byte (xs ++ [0]).
Proof.
  intros [_ Hb _]. apply Forall_app. split; [|repeat constructor; done]. eapply Forall_impl; [done|]. unfold is_byte. intros; lia.
Qed.

Lemma cs_rd m p xs i : cstr m p xs → 0 ≤ i ≤ Z.of_nat (length xs) → ∃ b, rd m (p + i) = Ok b ∧ (xs ++ [0]) !! Z.to_nat i = Some b ∧ is_byte b ∧
  (b = 0 ↔ i = Z.of_nat (length xs)).
Proof.
  intros Hc Hi. destruct (rd_slice m p (Z.of_nat (length xs) + 1) i) as (b & Hb & Hl); [apply Hc|lia|]. rewrite (cs_slice _ _ _ Hc) in Hl.
  exists b. split; [done|]. split; [done|]. split; [eapply Forall_lookup_1; [by eapply cs_byte|done]|].
  destruct (decide (i = Z.of_nat (length xs))) as [->|Hne].
  - rewrite Nat2Z.id, lookup_app_r, Nat.sub_diag in Hl by lia. cbn in Hl. naive_solver.
  - rewrite lookup_app_l in Hl by lia. pose proof (proj1 (Forall_lookup _ _) (cs_bytes _ _ _ Hc) _ _ Hl). cbn in *. lia.
Qed.

Lemma cs_fuel m p xs : cstr m p xs → Z.of_nat (length xs) < Z.of_nat (scan_fuel m).
Proof. intros [(?&?&?) _ _]. unfold scan_fuel. lia. Qed.

Lemma strlen_spec m p xs : cstr m p xs → internal_strlen m p = Ok (Z.of_nat (length xs)).
Proof.
  intros Hc. pose proof (cs_fuel _ _ _ Hc). apply returns_eq, (returns_loop_from (λ _, True) _ _ _ _ (Z.of_nat (length xs))); [done|lia|].
  intros j Hj _. destruct (cs_rd m p xs j Hc Hj) as (b & -> & _ & _ & Hz). cbn. destruct (Z.eqb_spec b 0) as [E|E]; [tauto|].
  split; [|done]. destruct (decide (j = Z.of_nat (length xs))); [tauto|lia].
Qed.

Lemma strnlen_spec m p xs n : cstr m p xs → 0 ≤ n → internal_strnlen m p n = Ok (Z.min n (Z.of_nat (length xs))).
Proof.
  intros Hc Hn. pose proof (cs_fuel _ _ _ Hc). apply returns_eq, (returns_loop_from (λ _, True) _ _ _ _ (Z.min n (Z.of_nat (length xs)))); [done|lia|].
  intros j Hj _. destruct (Z.ltb_spec j n); [|cbn; lia]. destruct (cs_rd m p xs j Hc) as (b & -> & _ & _ & Hz); [lia|]. cbn.
  destruct (Z.eqb_spec b 0) as [E|E]; [|split; [|done]]; [apply Hz in E; lia|].
  destruct (decide (j = Z.of_nat (length xs))); [tauto|lia].
Qed.

(** *** Searching *)

(** The position of the first element that satisfies [f]. *)
Fixpoint first_index (f : Z → bool) (xs : list Z) : option Z :=
  match xs with
  | [] => None
  | x :: xs => if f x then Some 0 else Z.succ <$> first_index f xs
  end.

Lemma first_index_Some f xs k : first_index f xs = Some k ↔
  0 ≤ k ∧ (∃ x, xs !! Z.to_nat k = Some x ∧ f x = true) ∧ ∀ (j : nat) y, Z.of_nat j < k → xs !! j = Some y → f y = false.
Proof.
  revert k. induction xs as [|x xs IH]; intros k; cbn [first_index]; [split; [done|intros (_ & (y & Hy & _) & _); by rewrite lookup_nil in Hy]|].
  destruct (f x) eqn:Ef.
  - split; [intros [= <-]; split; [lia|]; split; [by exists x|lia]|]. intros (H0 & _ & Hmin). destruct (decide (k = 0)) as [->|]; [done|].
    specialize (Hmin 0%nat x ltac:(lia) eq_refl). congruence.
  - rewrite fmap_Some. split.
    + intros (k' & (H0 & (y & Hy & Hf) & Hmin)%IH & ->). split; [lia|]. split.
      * exists y. by rewrite Z2Nat.inj_succ by lia.
      * intros [|j] z Hj Hz; cbn in Hz; [congruence|]. eapply (Hmin j); [lia|done].
    + intros (H0 & (y & Hy & Hf) & Hmin). destruct (decide (k = 0)) as [->|]; [change (Some x = Some y) in Hy; congruence|].
      exists (k - 1). split; [|lia]. apply IH. split; [lia|]. split.
      * exists y. replace (Z.to_nat k) with (S (Z.to_nat (k - 1))) in Hy by lia. done.
      * intros j z Hj Hz. apply (Hmin (S j)); [lia|done].
Qed.

Lemma first_index_None f xs : first_index f xs = None ↔ ∀ x, x ∈ xs → f x = false.
Proof.
  induction xs as [|x xs IH]; cbn [first_index]; [set_solver|]. destruct (f x) eqn:Ef.
  - split; [done|]. intros H. specialize (H x ltac:(set_solver)). congruence.
  - rewrite fmap_None, IH. split; [intros H y [->|?]%elem_of_cons; auto|intros H y Hy; apply H; set_solver].
Qed.

Definition before (f : Z → bool) (xs : list Z) (j : Z) : Prop :=
  ∀ (k : nat) y, Z.of_nat k < j → xs !! k = Some y → f y = false.

Lemma before_step f xs j b : 0 ≤ j → before f xs j → xs !! Z.to_nat j = Some b → f b = false → before f xs (j + 1).
Proof.
  intros Hj Hbef Hb Hf k y Hk Hy. destruct (decide (Z.of_nat k = j)) as [E|]; [|apply (Hbef k); [lia|done]].
  replace k with (Z.to_nat j) in Hy by lia. congruence.
Qed.

Lemma strchr_spec m s xs c : cstr m s xs → internal_strchr m s c = Ok ((λ k, s + k) <$> first_index (λ x, x =? u8 c) (xs ++ [0])).
Proof.
  intros Hc. pose proof (cs_fuel _ _ _ Hc). apply returns_eq.
  apply (returns_loop_from (before (λ x, x =? u8 c) (xs ++ [0])) _ _ _ _ (Z.of_nat (length xs))); [intros k y Hk; lia|lia|].
  intros j Hj Hbef. destruct (cs_rd m s xs j Hc Hj) as (b & -> & Hb & Hbyte & Hz). cbn [mbind result_bind returns].
  assert ((schar b =? signed 8 c) = (b =? u8 c)) as ->.
  { rewrite <- (schar_inj b (u8 c)) by (done || apply cast_range; lia). f_equal. unfold schar, signed. by rewrite cast_cast. }
  destruct (Z.eqb_spec b (u8 c)) as [E|E].
  - symmetry. apply fmap_Some. exists j. split; [|done]. apply first_index_Some. split; [lia|]. split; [|done].
    exists b. split; [done|]. by apply Z.eqb_eq.
  - assert (before (λ x, x =? u8 c) (xs ++ [0]) (j + 1)) as Hbef' by (eapply before_step; eauto; [lia|by apply Z.eqb_neq]).
    destruct (Z.eqb_spec b 0) as [E0|E0]; [|split; [destruct (decide (j = Z.of_nat (length xs))); [tauto|lia]|done]].
    symmetry. apply fmap_None, first_index_None. intros x [k Hk]%list_elem_of_lookup_1. apply (Hbef' k); [|done].
    apply lookup_lt_Some in Hk. rewrite length_app in Hk. cbn in Hk. apply Hz in E0. lia.
Qed.

(** *** Comparing *)

(** The lexicographic order of byte strings. *)
Fixpoint lexcmp (xs ys : list Z) : Z :=
  match xs, ys with
  | [], [] => 0
  | [], _ => -1
  | _, [] => 1
  | x :: xs, y :: ys => if x =? y then lexcmp xs ys else if x <? y then -1 else 1
  end.

Lemma lexcmp_common zs xs ys : lexcmp (zs ++ xs) (zs ++ ys) = lexcmp xs ys.
Proof. induction zs as [|z zs IH]; [done|]. cbn. by rewrite Z.eqb_refl. Qed.

Lemma lexcmp_eq xs ys : lexcmp xs ys = 0 ↔ xs = ys.
Proof.
  revert ys. induction xs as [|x xs IH]; intros [|y ys]; cbn; try naive_solver lia. destruct (Z.eqb_spec x y) as [->|]; [rewrite IH; naive_solver|].
  destruct (x <? y); naive_solver lia.
Qed.

(** The strings with their terminators compare like the strings. *)
Lemma lexcmp_nul xs ys : Forall (λ b, 0 < b < 256) xs → Forall (λ b, 0 < b < 256) ys → lexcmp (xs ++ [0]) (ys ++ [0]) = lexcmp xs ys.
Proof.
  intros Hx. revert ys. induction Hx as [|x xs Hx _ IH]; intros [|y ys] Hy; cbn [app lexcmp]; try apply Forall_cons in Hy as [Hy Hys]; [done|..].
  - rewrite (proj2 (Z.eqb_neq 0 y)), (proj2 (Z.ltb_lt 0 y)) by lia. done.
  - rewrite (proj2 (Z.eqb_neq x 0)), (proj2 (Z.ltb_ge x 0)) by lia. done.
  - by rewrite IH.
Qed.

(** At the first difference after [j] equal elements. *)
Lemma lexcmp_at (j : nat) xs ys x y : take j xs = take j ys → xs !! j = Some x → ys !! j = Some y → x ≠ y →
  lexcmp xs ys = if x <? y then -1 else 1.
Proof.
  intros Ht Hx Hy Hne. rewrite <- (take_drop_middle _ _ _ Hx), <- (take_drop_middle _ _ _ Hy), Ht, lexcmp_common. cbn.
  by rewrite (proj2 (Z.eqb_neq x y)).
Qed.

Lemma take_eq_step (j : nat) (xs ys : list Z) b : take j xs = take j ys → xs !! j = Some b → ys !! j = Some b → take (S j) xs = take (S j) ys.
Proof. intros Ht Hx Hy. by rewrite (take_S_r _ _ _ Hx), (take_S_r _ _ _ Hy), Ht. Qed.

Lemma strcmp_spec m s1 s2 xs ys : cstr m s1 xs → cstr m s2 ys → internal_strcmp m s1 s2 = Ok (lexcmp xs ys).
Proof.
  intros H1 H2. pose proof (cs_fuel _ _ _ H1). rewrite <- lexcmp_nul by (apply H1 || apply H2). apply returns_eq.
  apply (returns_loop_from (λ j, j ≤ Z.of_nat (length ys) ∧ take (Z.to_nat j) (xs ++ [0]) = take (Z.to_nat j) (ys ++ [0])) _ _ _ _ (Z.of_nat (length xs))); [split; [lia|done]|lia|].
  intros j Hj [Hjy Ht]. destruct (cs_rd m s1 xs j H1 Hj) as (b1 & -> & Hb1 & By1 & Hz1).
  destruct (cs_rd m s2 ys j H2) as (b2 & -> & Hb2 & By2 & Hz2); [lia|]. cbn [mbind result_bind returns].
  rewrite u32_schar_eq, u32_schar_lt by done. destruct (Z.eqb_spec b1 b2) as [<-|Hne]; cbn [negb].
  - pose proof (take_eq_step _ _ _ _ Ht Hb1 Hb2) as Ht'. change 0 with (u32 (schar 0)) at 1. rewrite u32_schar_eq by done.
    destruct (Z.eqb_spec b1 0) as [E|E].
    + symmetry. apply lexcmp_eq. rewrite !take_ge in Ht'; [done|rewrite length_app; cbn; lia..].
    + split; [destruct (decide (j = Z.of_nat (length xs))); [tauto|lia]|]. split; [destruct (decide (j = Z.of_nat (length ys))); [tauto|lia]|].
      by replace (Z.to_nat (j + 1)) with (S (Z.to_nat j)) by lia.
  - symmetry. by apply lexcmp_at with (Z.to_nat j).
Qed.

Lemma memcmp_spec m s1 s2 n : Forall is_byte m → inside m s1 n → inside m s2 n →
  internal_memcmp m s1 s2 n = Ok (lexcmp (schar <$> slice m s1 n) (schar <$> slice m s2 n)).
Proof.
  intros Hby H1 H2. pose proof (length_slice _ _ _ H1) as L1. pose proof (length_slice _ _ _ H2) as L2. pose proof H1 as (_ & ? & _).
  apply returns_eq. unfold internal_memcmp. set (xs := schar <$> slice m s1 n). set (ys := schar <$> slice m s2 n).
  eapply returns_bind; [apply (returns_find_range (λ j, take (Z.to_nat j) xs = take (Z.to_nat j) ys) (λ r, default 0 r = lexcmp xs ys))|by intros r ->]; [lia|done| |].
  - intros j Hj Ht. destruct (rd_slice m s1 n j H1 Hj) as (b1 & -> & Hb1). destruct (rd_slice m s2 n j H2 Hj) as (b2 & -> & Hb2).
    cbn [mbind result_bind returns]. assert (xs !! Z.to_nat j = Some (schar b1)) as Hx by (unfold xs; by rewrite list_lookup_fmap, Hb1).
    assert (ys !! Z.to_nat j = Some (schar b2)) as Hy by (unfold ys; by rewrite list_lookup_fmap, Hb2).
    destruct (Z.eqb_spec (schar b1) (schar b2)) as [E|E]; cbn [negb].
    + replace (Z.to_nat (j + 1)) with (S (Z.to_nat j)) by lia. rewrite <- E in Hy. by apply take_eq_step with (schar b1).
    + cbn [default]. symmetry. by apply lexcmp_at with (Z.to_nat j).
  - intros Ht. symmetry. apply lexcmp_eq. rewrite !take_ge in Ht; [done|unfold ys; rewrite length_fmap; lia|unfold xs; rewrite length_fmap; lia].
Qed.

Lemma schar_map_inj xs ys : Forall is_byte xs → Forall is_byte ys → schar <$> xs = schar <$> ys → xs = ys.
Proof.
  intros Hx. revert ys. induction Hx as [|x xs Hx _ IH]; intros [|y ys] Hy; try done. apply Forall_cons in Hy as [Hy Hys].
  intros [= E1 E2]. f_equal; [|by apply IH]. apply Z.eqb_eq in E1. rewrite schar_inj in E1 by done. by apply Z.eqb_eq.
Qed.

Lemma memcmp_zero m s1 s2 n : Forall is_byte m → inside m s1 n → inside m s2 n →
  returns (internal_memcmp m s1 s2 n) (λ r, r = 0 ↔ slice m s1 n = slice m s2 n).
Proof.
  intros Hby H1 H2. rewrite memcmp_spec by done. cbn [returns]. rewrite lexcmp_eq.
  split; [apply schar_map_inj; by apply slice_bytes|by intros ->].
Qed.

Lemma cs_sub m p xs k n : cstr m p xs → 0 ≤ k → 0 ≤ n → k + n ≤ Z.of_nat (length xs) →
  inside m (p + k) n ∧ slice m (p + k) n = take (Z.to_nat n) (drop (Z.to_nat k) xs).
Proof.
  intros [Hin _ Hs] Hk Hn Hkn. pose proof Hin as (?&?&?). assert (inside m (p + k) n) as Hin' by (unfold inside; lia). split; [done|].
  apply list_eq. intros i. destruct (decide (i < Z.to_nat n)%nat) as [Hi|Hi].
  - rewrite slice_lookup, lookup_take_lt, lookup_drop by done.
    rewrite <- (lookup_app_l xs [0]), <- Hs, slice_lookup by (done || lia). f_equal. lia.
  - unfold slice. by rewrite !lookup_take_ge by lia.
Qed.

Definition occurs_at (ys xs : list Z) (k : nat) : Prop := ys `prefix_of` drop k xs.

Lemma occurs_take ys xs (k : nat) : occurs_at ys xs k ↔ take (length ys) (drop k xs) = ys.
Proof.
  unfold occurs_at. split; [intros [zs ->]; by rewrite take_app_length|]. intros E. exists (drop (length ys) (drop k xs)). by rewrite <- E at 1; rewrite take_drop.
Qed.

Lemma strstr_spec m h nd xs ys : Forall is_byte m → cstr m h xs → cstr m nd ys →
  returns (internal_strstr m h nd) (λ r,
    match r with
    | Some p => ∃ k : nat, p = h + Z.of_nat k ∧ occurs_at ys xs k ∧ ∀ j, (j < k)%nat → ¬ occurs_at ys xs j
    | None => ∀ j, ¬ occurs_at ys xs j
    end).
Proof.
  intros Hby Hh Hn. unfold internal_strstr. rewrite (strlen_spec _ _ _ Hh), (strlen_spec _ _ _ Hn). cbn [mbind result_bind].
  assert (∀ j, occurs_at ys xs j → (j + length ys ≤ length xs)%nat ∨ ys = []) as Hlen.
  { intros j [zs E]. apply (f_equal length) in E. rewrite length_drop, length_app in E. destruct ys; [by right|]. cbn in *. left. lia. }
  destruct (Z.ltb_spec (Z.of_nat (length xs)) (Z.of_nat (length ys))) as [Hlt|Hge].
  { cbn. intros j Hj. destruct (Hlen j Hj) as [?| ->]; [lia|cbn in Hlt; lia]. }
  apply (returns_find_range (λ j, ∀ i : nat, Z.of_nat i < j → ¬ occurs_at ys xs i)); [lia|lia| |].
  - intros j Hj Hbef. destruct (cs_sub m h xs j (Z.of_nat (length ys)) Hh) as [Hin Hsl]; [lia..|].
    destruct (cs_sub m nd ys 0 (Z.of_nat (length ys)) Hn) as [Hin' Hsl']; [lia..|]. rewrite Z.add_0_r in Hin', Hsl'. rewrite drop_0, take_ge in Hsl' by lia.
    pose proof (memcmp_zero m (h + j) nd _ Hby Hin Hin') as Hcmp. destruct (internal_memcmp m (h + j) nd _) as [r|]; [|done].
    cbn [mbind result_bind returns] in *. rewrite Hsl, Hsl', Nat2Z.id, <- occurs_take in Hcmp. destruct (Z.eqb_spec r 0) as [E|E].
    + exists (Z.to_nat j). split; [lia|]. split; [tauto|]. intros i Hi. apply Hbef. lia.
    + intros i Hi Hocc. destruct (decide (Z.of_nat i = j)) as [E'|]; [|by apply (Hbef i); [lia|]]. replace (Z.to_nat j) with i in Hcmp by lia. tauto.
  - intros Hbef j Hj. destruct (Hlen j Hj) as [?| ->]; [by apply (Hbef j); [lia|]|]. apply (Hbef 0%nat); [lia|]. by apply prefix_nil.
Qed.

(** *** Copying strings *)
Lemma slice_put m p bs : inside m p (Z.of_nat (length bs)) → slice (put m p bs) p (Z.of_nat (length bs)) = bs.
Proof.
  intros Hin. pose proof Hin as (?&?&?). apply list_eq. intros i. destruct (decide (i < length bs)%nat) as [Hi|Hi].
  - rewrite slice_lookup by (unfold inside; rewrite ?length_put; lia). by apply put_lookup_in.
  - unfold slice. rewrite lookup_take_ge by lia. symmetry. by apply lookup_ge_None_2, Nat.nlt_ge.
Qed.

(** A string written after another without its terminator extends it. *)
Lemma cstr_append m p xs ys : cstr m p xs → Forall (λ b, 0 < b < 256) ys → inside m (p + Z.of_nat (length xs)) (Z.of_nat (length ys) + 1) →
  cstr (put m (p + Z.of_nat (length xs)) (ys ++ [0])) p (xs ++ ys).
Proof.
  intros Hc Hy Hin. pose proof (cs_inside _ _ _ Hc) as (?&?&?). pose proof Hin as (_&_&?).
  assert (put m (p + Z.of_nat (length xs)) (ys ++ [0]) = put m p (xs ++ (ys ++ [0]))) as ->.
  { rewrite (put_app_r m p xs) by lia. destruct (cs_sub m p xs 0 (Z.of_nat (length xs)) Hc) as [Hi Hs]; [lia..|].
    rewrite Z.add_0_r in Hi, Hs. rewrite drop_0, take_ge in Hs by lia.
    assert (put m p xs = m) as -> by (rewrite <- Hs at 1; by rewrite put_self). done. }
  rewrite app_assoc. assert (Z.of_nat (length ((xs ++ ys) ++ [0])) = Z.of_nat (length (xs ++ ys)) + 1) as Hl by (rewrite !length_app; cbn; lia).
  split; [unfold inside; rewrite length_put, length_app; lia|apply Forall_app; split; [apply Hc|done]|].
  rewrite <- Hl. apply slice_put. unfold inside. rewrite !length_app. cbn. lia.
Qed.

Lemma cstr_put m p xs : Forall (λ b, 0 < b < 256) xs → inside m p (Z.of_nat (length xs) + 1) → cstr (put m p (xs ++ [0])) p xs.
Proof.
  intros Hx Hin. pose proof Hin as (?&?&?). assert (Z.of_nat (length (xs ++ [0])) = Z.of_nat (length xs) + 1) as Hl by (rewrite length_app; cbn; lia).
  split; [unfold inside; rewrite length_put; lia|done|]. rewrite <- Hl. apply slice_put. by rewrite Hl.
Qed.

(** The common part of [strlcpy] and [strlcat]: as much of [xs] as fits before a terminator. *)
Lemma copy_bounded m d s xs room : Forall is_byte m → cstr m s xs → inside m d room → 0 < room → Z.of_nat (length m) < 2 ^ 63 →
  (if Z.of_nat (length xs) <? room then internal_memmove m d s (Z.of_nat (length xs) + 1)
   else m ← internal_memmove m d s (room - 1); wr m (d + room - 1) 0) = Ok (put m d (take (Z.to_nat (room - 1)) xs ++ [0])).
Proof.
  intros Hby Hc Hd Hr Hm. pose proof Hd as (?&?&?). pose proof (cs_inside _ _ _ Hc) as Hin. pose proof Hin as (?&?&?).
  destruct (Z.ltb_spec (Z.of_nat (length xs)) room).
  - rewrite memmove_spec by (done || unfold inside; lia). by rewrite (cs_slice _ _ _ Hc), take_ge by lia.
  - destruct (cs_sub m s xs 0 (room - 1) Hc) as [Hi Hs]; [lia..|]. rewrite Z.add_0_r in Hi, Hs. rewrite drop_0 in Hs.
    rewrite memmove_spec by (done || unfold inside in *; lia). cbn [mbind result_bind]. rewrite Hs.
    rewrite wr_ok by (done || rewrite length_put; lia). rewrite put_snoc, length_take by lia. do 3 f_equal. lia.
Qed.

Lemma strlcpy_spec m d s xs n : Forall is_byte m → cstr m s xs → inside m d n → Z.of_nat (length m) < 2 ^ 63 →
  internal_strlcpy m d s n = Ok (if n =? 0 then m else put m d (take (Z.to_nat (n - 1)) xs ++ [0]), Z.of_nat (length xs)).
Proof.
  intros Hby Hc Hd Hm. pose proof Hd as (?&?&?). unfold internal_strlcpy. rewrite (strlen_spec _ _ _ Hc). cbn [mbind result_bind].
  destruct (Z.eqb_spec n 0) as [->|Hn]; cbn [negb]; [by rewrite (proj2 (Z.ltb_ge _ 0)) by lia|].
  rewrite (copy_bounded m d s xs n) by (done || lia). done.
Qed.

Lemma strlcat_spec m d s xs ys n : Forall is_byte m → cstr m s xs → cstr m d ys → inside m d n → Z.of_nat (length m) < 2 ^ 63 →
  internal_strlcat m d s n =
    if n <=? Z.of_nat (length ys) then Ok (m, n + Z.of_nat (length xs))
    else Ok (put m (d + Z.of_nat (length ys)) (take (Z.to_nat (n - Z.of_nat (length ys) - 1)) xs ++ [0]), Z.of_nat (length ys + length xs)).
Proof.
  intros Hby Hc Hcd Hd Hm. pose proof Hd as (?&?&?). unfold internal_strlcat. rewrite (strlen_spec _ _ _ Hc). cbn [mbind result_bind].
  rewrite (strnlen_spec m d ys n) by (done || lia). cbn [mbind result_bind]. destruct (Z.leb_spec n (Z.of_nat (length ys))).
  { rewrite Z.min_l, Z.eqb_refl by lia. done. }
  rewrite Z.min_r, (proj2 (Z.eqb_neq _ n)) by lia. replace (d + n - 1) with (d + Z.of_nat (length ys) + (n - Z.of_nat (length ys)) - 1) by lia.
  rewrite (copy_bounded m (d + Z.of_nat (length ys)) s xs (n - Z.of_nat (length ys))) by (done || unfold inside; lia).
  cbn [mbind result_bind]. by rewrite Nat2Z.inj_add.
Qed.

Lemma strcopy_loop_spec fuel m d s xs n i : Forall is_byte m → cstr m s xs → inside m d n → d + n ≤ s ∨ s + Z.of_nat (length xs) + 1 ≤ d →
  0 ≤ i ≤ Z.min n (Z.of_nat (length xs)) → Z.of_nat (length xs) - i < Z.of_nat fuel →
  strcopy_loop fuel (put m d (take (Z.to_nat i) xs)) d s n i = Ok (put m d (take (Z.to_nat n) xs), Z.min n (Z.of_nat (length xs))).
Proof.
  intros Hby Hc Hd Hdis. pose proof Hd as (?&?&?). revert i. induction fuel as [|fuel IH]; intros i Hi Hf; [lia|]. cbn [strcopy_loop].
  destruct (Z.ltb_spec i n) as [Hin|Hin]; [|replace i with n by lia; by rewrite Z.min_l by lia].
  destruct (cs_rd m s xs i Hc) as (b & Hrd & Hb & Hby' & Hz); [lia|]. apply aget_Ok in Hrd as [Hge Hl].
  unfold rd. rewrite (proj2 (aget_Ok _ (s + i) b)).
  2:{ split; [done|]. rewrite put_lookup_out; [done|lia|]. rewrite length_take. lia. }
  cbn [mbind result_bind]. destruct (Z.eqb_spec b 0) as [E|E].
  - apply Hz in E as ->. rewrite Z.min_r by lia. by rewrite !take_ge by lia.
  - assert (i ≠ Z.of_nat (length xs)) by tauto. rewrite lookup_app_l in Hb by lia.
    rewrite wr_ok by (done || rewrite length_put; lia). cbn [mbind result_bind].
    rewrite <- (IH (i + 1)) by lia. f_equal. replace (Z.to_nat (i + 1)) with (S (Z.to_nat i)) by lia. rewrite (take_S_r _ _ b) by done.
    rewrite put_snoc, length_take by lia. f_equal. lia.
Qed.

Lemma strncpy_spec base m d s xs n : Forall is_byte m → cstr m s xs → inside m d n → d + n ≤ s ∨ s + Z.of_nat (length xs) + 1 ≤ d →
  internal_strncpy base m d s n = Ok (put m d (take (Z.to_nat n) xs ++ replicate (Z.to_nat n - length xs) 0)).
Proof.
  intros Hby Hc Hd Hdis. pose proof Hd as (?&?&?). pose proof (cs_fuel _ _ _ Hc). unfold internal_strncpy.
  pose proof (strcopy_loop_spec (scan_fuel m) m d s xs n 0 Hby Hc Hd Hdis ltac:(lia) ltac:(lia)) as E. change (put m d (take (Z.to_nat 0) xs)) with m in E. rewrite E. cbn [mbind result_bind].
  rewrite memset_spec by (done || (left; done) || unfold inside; rewrite length_put; lia). change (u8 0) with 0. rewrite put_app_r, length_take by lia. do 3 f_equal; [|f_equal]; lia.
Qed.

(** *** Reading numbers *)
Definition decimal (ds : list Z) : Z := fold_left (λ v d, v * 10 + (d - 48)) ds 0.
Definition clamp64 (v : Z) : Z := Z.max INT64_MIN (Z.min INT64_MAX v).
Definition sat (v : Z) : Z := Z.min UINT64_MAX v.

Lemma schar_class b : is_byte b → IsDigit (schar b) = IsDigit b ∧ IsSpace (schar b) = IsSpace b.
Proof.
  assert (forallb (λ b, Bool.eqb (IsDigit (schar b)) (IsDigit b) && Bool.eqb (IsSpace (schar b)) (IsSpace b)) (seqZ 0 256) = true) as Hall by (by vm_compute).
  rewrite forallb_forall in Hall. intros Hb. specialize (Hall b ltac:(apply list_elem_of_In, elem_of_seqZ; unfold is_byte in Hb; lia)).
  apply andb_true_iff in Hall as [H1 H2]. split; by apply eqb_prop.
Qed.

Lemma IsDigit_range d : IsDigit d = true → 48 ≤ d ≤ 57.
Proof. unfold IsDigit. intros H. bool_prop. lia. Qed.

Lemma cs_at m p xs pre x post : cstr m p xs → xs ++ [0] = pre ++ x :: post → rd m (p + Z.of_nat (length pre)) = Ok x ∧ is_byte x.
Proof.
  intros Hc E. assert (length pre ≤ length xs)%nat by (apply (f_equal length) in E; rewrite !length_app in E; cbn in E; lia).
  destruct (cs_rd m p xs (Z.of_nat (length pre)) Hc ltac:(lia)) as (b & Hrd & Hl & Hb & _).
  rewrite E, Nat2Z.id, lookup_app_r, Nat.sub_diag in Hl by lia. cbn in Hl. by injection Hl as ->.
Qed.

Lemma sat_step v d : 0 ≤ v → 48 ≤ d ≤ 57 →
  (let res := if sat v <=? UINT64_MAX / 10 then sat v * 10 else UINT64_MAX in
   if res <=? UINT64_MAX - (d - 48) then res + (d - 48) else UINT64_MAX) = sat (v * 10 + (d - 48)).
Proof.
  intros Hv Hd. unfold sat. change (UINT64_MAX / 10) with 1844674407370955161. change UINT64_MAX with 18446744073709551615. cbv zeta.
  destruct (Z.leb_spec (Z.min 18446744073709551615 v) 1844674407370955161);
    match goal with |- context [?a <=? ?b] => destruct (Z.leb_spec a b) end; lia.
Qed.

Lemma digits_loop_spec fuel m p xs pre ds x post v hd : cstr m p xs → xs ++ [0] = pre ++ ds ++ x :: post →
  Forall (λ d, IsDigit d = true) ds → IsDigit x = false → 0 ≤ v → (length ds < fuel)%nat →
  digits_loop fuel m (p + Z.of_nat (length pre)) (sat v) hd =
    Ok (p + Z.of_nat (length pre + length ds), sat (fold_left (λ v d, v * 10 + (d - 48)) ds v), hd || negb (bool_decide (ds = []))).
Proof.
  intros Hc E Hds Hx. revert fuel pre v hd E. induction Hds as [|d ds Hd _ IH]; intros fuel pre v hd E Hv Hf; (destruct fuel as [|fuel]; [cbn in Hf; lia|]); cbn [digits_loop].
  - destruct (cs_at m p xs pre x post Hc E) as [-> Hb]. cbn [mbind result_bind]. rewrite (proj1 (schar_class x Hb)), Hx.
    rewrite Nat.add_0_r. cbn. by rewrite orb_false_r.
  - destruct (cs_at m p xs pre d (ds ++ x :: post) Hc E) as [-> Hb]. cbn [mbind result_bind]. rewrite (proj1 (schar_class d Hb)), Hd.
    apply IsDigit_range in Hd. rewrite schar_cases, (proj2 (Z.ltb_lt d 128)) by (done || lia). cbv zeta. rewrite sat_step by lia.
    replace (p + Z.of_nat (length pre) + 1) with (p + Z.of_nat (length (pre ++ [d]))) by (rewrite length_app; cbn; lia).
    rewrite (IH fuel (pre ++ [d])); [|by rewrite E, <- app_assoc|lia|cbn in Hf; lia].
    do 2 f_equal; [|by rewrite orb_true_r]. f_equal. f_equal. rewrite length_app. cbn [length]. lia.
Qed.

Lemma decimal_nonneg ds v : 0 ≤ v → Forall (λ d, IsDigit d = true) ds → 0 ≤ fold_left (λ v d, v * 10 + (d - 48)) ds v.
Proof.
  intros Hv Hds. revert v Hv. induction Hds as [|d ds Hd _ IH]; intros v Hv; cbn; [done|]. apply IsDigit_range in Hd. apply IH. lia.
Qed.

(** A sign, as it appears in the string. *)
Inductive sign := NoSign | Plus | Minus.
Definition sign_chars (sg : sign) : list Z := match sg with NoSign => [] | Plus => [43] | Minus => [45] end.
Definition sign_of (sg : sign) : Z := match sg with Minus => -1 | _ => 1 end.

(** The value of sign and saturated magnitude, as the code computes it. *)
Lemma strtoll_value sg v : 0 ≤ v →
  (if 0 <? sign_of sg then signed 64 (Min INT64_MAX (sat v)) else if INT64_MAX <? sat v then INT64_MIN else signed 64 (sat v) * -1) =
  clamp64 (sign_of sg * v).
Proof.
  intros Hv. unfold clamp64, sat, Min, signed, INT64_MAX, INT64_MIN, UINT64_MAX. change (2 ^ (64 - 1)) with (2 ^ 63).
  destruct sg; cbn [sign_of]; change (0 <? 1) with true; change (0 <? -1) with false; cbv iota;
    repeat match goal with |- context [?a <? ?b] => destruct (Z.ltb_spec a b) end; rewrite ?cast_id in * by lia; lia.
Qed.

Lemma strtoll_spec m p sp sg ds x post xs : cstr m p xs → xs ++ [0] = sp ++ sign_chars sg ++ ds ++ x :: post →
  Forall (λ c, IsSpace c = true) sp → Forall (λ d, IsDigit d = true) ds → IsDigit x = false →
  (sg = NoSign → ds = [] → IsSpace x = false ∧ x ≠ 43 ∧ x ≠ 45) →
  internal_simple_strtoll m p 10 = Ok (clamp64 (sign_of sg * decimal ds),
    p + Z.of_nat (length sp + (if bool_decide (ds = []) then 0 else length (sign_chars sg) + length ds))).
Proof.
  intros Hc E Hsp Hds Hx Hstart. unfold internal_simple_strtoll. cbn [Z.eqb Pos.eqb CHECK mbind result_bind].
  assert (∃ h t, sign_chars sg ++ ds ++ x :: post = h :: t ∧ IsSpace h = false ∧ (sg = NoSign → h ≠ 43 ∧ h ≠ 45)) as (h & t & Eh & Hh & Hh').
  { destruct sg; cbn [sign_chars app]; [|by eexists _, _..]. destruct ds as [|d ds]; [eexists _, _; split; [done|]; naive_solver|].
    apply Forall_cons in Hds as [Hd _]. apply IsDigit_range in Hd. eexists _, _. split; [done|]. split; [|intros _; lia]. unfold IsSpace.
    repeat rewrite (proj2 (Z.eqb_neq d _)) by lia. done. }
  pose proof (cs_fuel _ _ _ Hc) as Hfuel. assert (length sp + length ds + length (sign_chars sg) ≤ length xs)%nat as Hlen.
  { apply (f_equal length) in E. rewrite !length_app in E. cbn in E. lia. }
  assert (loop_from (scan_fuel m) 0 (λ i, b ← rd m (p + i); Ok (if IsSpace (schar b) then None else Some i)) = Ok (Z.of_nat (length sp))) as ->.
  { apply returns_eq, (returns_loop_from (λ _, True) _ _ _ _ (Z.of_nat (length sp))); [done|lia|]. intros j Hj _.
    destruct (decide (j = Z.of_nat (length sp))) as [->|Hne].
    - rewrite Eh in E. destruct (cs_at m p xs sp h t Hc E) as [-> Hb]. cbn [mbind result_bind returns]. by rewrite (proj2 (schar_class h Hb)), Hh.
    - destruct (cs_rd m p xs j Hc ltac:(lia)) as (b & -> & Hl & Hb & _). cbn [mbind result_bind returns]. rewrite E, lookup_app_l in Hl by lia.
      rewrite (proj2 (schar_class b Hb)), (Forall_lookup_1 _ _ _ _ Hsp Hl). split; [lia|done]. }
  cbn [mbind result_bind]. pose proof E as E'. rewrite Eh in E'. rewrite (proj1 (cs_at m p xs sp h t Hc E')). cbn [mbind result_bind].
  assert ((if h =? 43 then (1, p + Z.of_nat (length sp) + 1) else if h =? 45 then (-1, p + Z.of_nat (length sp) + 1) else (1, p + Z.of_nat (length sp))) =
    (sign_of sg, p + Z.of_nat (length (sp ++ sign_chars sg)))) as ->.
  { rewrite length_app. destruct sg; cbn [sign_chars sign_of app length] in *.
    - destruct (Hh' eq_refl). rewrite (proj2 (Z.eqb_neq h 43)), (proj2 (Z.eqb_neq h 45)) by done. f_equal. lia.
    - injection Eh as <- _. cbn. f_equal. lia.
    - injection Eh as <- _. cbn. f_equal. lia. }
  assert (xs ++ [0] = (sp ++ sign_chars sg) ++ ds ++ x :: post) as E2 by (by rewrite E, <- app_assoc).
  pose proof (digits_loop_spec (scan_fuel m) m p xs _ ds x post 0 false Hc E2 Hds Hx ltac:(lia) ltac:(lia)) as Hd.
  change (sat 0) with 0 in Hd. rewrite Hd.
  cbn [mbind result_bind]. fold (decimal ds). pose proof (decimal_nonneg ds 0 ltac:(lia) Hds) as Hnn. rewrite <- (strtoll_value sg (decimal ds) Hnn).
  cbn [orb]. rewrite length_app. destruct (0 <? sign_of sg); case_bool_decide; cbn [negb]; do 2 f_equal; lia.
Qed.

(** *** Testing for zeroes *)
Definition zero_on (m : memory) (lo hi : Z) : Prop := ∀ i, lo ≤ i < hi → m !! Z.to_nat i = Some 0.

Lemma zero_on_split m lo mid hi : lo ≤ mid ≤ hi → zero_on m lo hi ↔ zero_on m lo mid ∧ zero_on m mid hi.
Proof.
  intros Hm. split; [intros H; split; intros i Hi; apply H; lia|]. intros [H1 H2] i Hi. destruct (decide (i < mid)); [apply H1|apply H2]; lia.
Qed.

Lemma zero_on_one m i b : 0 ≤ i → m !! Z.to_nat i = Some b → zero_on m i (i + 1) ↔ b = 0.
Proof. intros Hi Hb. split; [intros H; specialize (H i ltac:(lia)); congruence|]. intros -> j Hj. by replace j with i by lia. Qed.

Lemma schar_zero b : is_byte b → u64 (schar b) = 0 ↔ b = 0.
Proof.
  unfold is_byte. intros Hb. rewrite schar_cases by done. destruct (Z.ltb_spec b 128); [rewrite cast_id by lia; done|].
  unfold cast. replace (b - 256) with (2 ^ 64 - 256 + b + (-1) * 2 ^ 64) by lia. rewrite Z_mod_plus_full, Z.mod_small by lia. lia.
Qed.

(** OR-ing values that are zero exactly on zero memory. *)
Lemma or_loop m (f : Z → Z → result Z) lo hi w off all lo0 : lo ≤ hi → 0 < w → lo0 ≤ off + w * lo →
  (∀ i a, lo ≤ i < hi → ∃ v, f i a = Ok (Z.lor a v) ∧ (v = 0 ↔ zero_on m (off + w * i) (off + w * (i + 1)))) →
  (all = 0 ↔ zero_on m lo0 (off + w * lo)) →
  returns (for_range lo hi f all) (λ all', all' = 0 ↔ zero_on m lo0 (off + w * hi)).
Proof.
  intros Hle Hw Hlo Hf Hall. apply (returns_for_range (λ i a, a = 0 ↔ zero_on m lo0 (off + w * i))); [done|done|].
  intros i a Hi Ha. destruct (Hf i a Hi) as (v & -> & Hv). cbn [returns]. rewrite Z.lor_eq_0_iff, Ha, Hv.
  symmetry. apply zero_on_split. nia.
Qed.

Lemma load_u64_zero m p : Forall is_byte m → inside m p 8 → returns (load_u64 m p) (λ v, v = 0 ↔ zero_on m p (p + 8)).
Proof.
  intros Hby Hin. pose proof Hin as (?&?&?). unfold load_u64.
  eapply returns_mono; [apply (or_loop m _ 0 8 1 p 0 p)|intros v; cbn beta; by replace (p + 1 * 8) with (p + 8) by lia]; [lia..| |].
  - intros i a Hi. destruct (rd_slice m p 8 i Hin Hi) as (b & Hrd & _). rewrite Hrd. apply aget_Ok in Hrd as [Hge Hl].
    exists (Z.shiftl b (8 * i)). split; [done|]. rewrite Z.shiftl_eq_0_iff by lia. replace (p + 1 * (i + 1)) with (p + i + 1) by lia.
    replace (p + 1 * i) with (p + i) by lia. rewrite (zero_on_one m (p + i) b) by done. done.
  - split; [intros _ i Hi; lia|done].
Qed.

Lemma mem_is_zero_spec base m beg size : Forall is_byte m → inside m beg size → size ≤ 2 ^ 40 → 0 ≤ base → base + Z.of_nat (length m) < 2 ^ 63 →
  returns (mem_is_zero base m beg size) (λ r, r = true ↔ zero_on m beg (beg + size)).
Proof.
  intros Hby Hin Hsz Hb0 Hb. pose proof Hin as (?&?&?). unfold mem_is_zero. rewrite (proj2 (Z.leb_le size (2 ^ 40))) by done. cbn [CHECK mbind result_bind].
  change (RoundUpTo (base + beg) 8) with (RoundUpTo (base + beg) (2 ^ 3)).
  change (RoundDownTo (base + beg + size) 8) with (RoundDownTo (base + beg + size) (2 ^ 3)).
  rewrite RoundUpTo_pow2, RoundDownTo_pow2 by lia. cbn [mbind result_bind]. change (2 ^ 3) with 8.
  set (ab := 8 * ((base + beg + 8 - 1) / 8)). set (ae := 8 * ((base + beg + size) / 8)).
  assert (base + beg ≤ ab < base + beg + 8 ∧ base + beg + size - 8 < ae ≤ base + beg + size) as Hr.
  { unfold ab, ae. pose proof (Z.div_mod (base + beg + 8 - 1) 8). pose proof (Z.mod_pos_bound (base + beg + 8 - 1) 8).
    pose proof (Z.div_mod (base + beg + size) 8). pose proof (Z.mod_pos_bound (base + beg + size) 8). lia. }
  assert (∃ q, ae - ab = 8 * q) as [q Hq] by (unfold ab, ae; exists ((base + beg + size) / 8 - (base + beg + 8 - 1) / 8); lia).
  assert ((ae - ab) / 8 = q) as -> by (rewrite Hq, Z.mul_comm; by apply Z.div_mul).
  assert (∀ i a, base + beg ≤ i < base + beg + size → ∃ v, (b ← rd m (i - base); Ok (Z.lor a (u64 (schar b)))) = Ok (Z.lor a v) ∧
    (v = 0 ↔ zero_on m (- base + 1 * i) (- base + 1 * (i + 1)))) as Hbyte.
  { intros i a Hi. destruct (rd_slice m beg size (i - base - beg) Hin) as (b & Hrd & _); [lia|]. replace (beg + (i - base - beg)) with (i - base) in Hrd by lia.
    rewrite Hrd. exists (u64 (schar b)). split; [done|]. apply aget_Ok in Hrd as [Hge Hl]. replace (- base + 1 * (i + 1)) with (i - base + 1) by lia.
    replace (- base + 1 * i) with (i - base) by lia. rewrite (zero_on_one m (i - base) b) by done. by apply schar_zero, (Forall_lookup_1 _ _ _ _ Hby Hl). }
  eapply returns_bind.
  { apply (or_loop m _ (base + beg) (Z.min ab (base + beg + size)) 1 (- base) 0 beg); [lia..| |split; [intros _ i Hi; lia|done]]. intros; apply Hbyte; lia. }
  intros all Hall. destruct (decide (0 ≤ q)) as [Hq0|Hq0].
  - eapply returns_bind.
    { apply (or_loop m _ 0 q 8 (ab - base) all beg); [lia..| |]; [|by replace (ab - base + 8 * 0) with (- base + 1 * Z.min ab (base + beg + size)) by lia].
      intros i a Hi. pose proof (load_u64_zero m (ab + 8 * i - base) Hby) as Hz. destruct (load_u64 m (ab + 8 * i - base)) as [v|]; cbn [returns] in Hz;
        [|destruct Hz; unfold inside; lia]. exists v. split; [done|]. rewrite Hz by (unfold inside; lia). f_equiv; lia. }
    intros all2 Hall2. rewrite (proj2 (Z.leb_le _ _)) by lia. eapply returns_bind.
    { apply (or_loop m _ ae (base + beg + size) 1 (- base) all2 beg); [lia..| |]; [intros; apply Hbyte; lia|].
      by replace (- base + 1 * ae) with (ab - base + 8 * q) by lia. }
    intros all3 Hall3. cbn [returns]. rewrite Z.eqb_eq, Hall3. by replace (- base + 1 * (base + beg + size)) with (beg + size) by lia.
  - rewrite (for_range_empty 0 q) by lia. cbn [mbind result_bind].
    rewrite (proj2 (Z.leb_gt (base + beg) ae)) by lia. cbn [mbind result_bind returns]. rewrite Z.eqb_eq, Hall.
    by replace (- base + 1 * Z.min ab (base + beg + size)) with (beg + size) by lia.
Qed.

Lemma memchr_spec m s c n : inside m s n →
  internal_memchr m s c n = Ok ((λ k, s + k) <$> first_index (λ b, schar b =? c) (slice m s n)).
Proof.
  intros Hin. pose proof (length_slice _ _ _ Hin) as Hl. pose proof Hin as (_ & ? & _). apply returns_eq.
  apply (returns_find_range (before (λ b, schar b =? c) (slice m s n))); [done|intros k y Hk; lia| |].
  - intros j Hj Hbef. destruct (rd_slice m s n j Hin Hj) as (b & -> & Hb). cbn [mbind result_bind returns].
    destruct (schar b =? c) eqn:E; [|by eapply before_step; eauto; lia].
    symmetry. apply fmap_Some. exists j. split; [|done]. apply first_index_Some. split; [lia|]. split; [by exists b|done].
  - intros Hbef. symmetry. apply fmap_None, first_index_None. intros x [k Hk]%list_elem_of_lookup_1. apply (Hbef k); [|done].
    apply lookup_lt_Some in Hk. lia.
Qed.

Lemma strncat_spec m d s xs ys n : Forall is_byte m → cstr m s xs → cstr m d ys → 0 ≤ n → inside m (d + Z.of_nat (length ys)) (n + 1) →
  d + Z.of_nat (length ys) + n ≤ s ∨ s + Z.of_nat (length xs) + 1 ≤ d + Z.of_nat (length ys) →
  internal_strncat m d s n = Ok (put m (d + Z.of_nat (length ys)) (take (Z.to_nat n) xs ++ [0])).
Proof.
  intros Hby Hs Hd Hn Hin Hdis. pose proof Hin as (?&?&?). pose proof (cs_fuel _ _ _ Hs). unfold internal_strncat.
  rewrite (strlen_spec _ _ _ Hd). cbn [mbind result_bind].
  pose proof (strcopy_loop_spec (scan_fuel m) m (d + Z.of_nat (length ys)) s xs n 0 Hby Hs ltac:(unfold inside; lia) Hdis ltac:(lia) ltac:(lia)) as E.
  change (put m _ (take (Z.to_nat 0) xs)) with m in E. rewrite E. cbn [mbind result_bind]. rewrite wr_ok by (done || rewrite length_put; lia).
  rewrite put_snoc, length_take by lia. do 3 f_equal. lia.
Qed.

Lemma strdup_spec fresh m s xs : Forall is_byte m → (∀ n, 0 ≤ n → Forall is_byte (fresh n) ∧ Z.of_nat (length (fresh n)) = n) → cstr m s xs →
  internal_strdup fresh m s = Ok (m ++ xs ++ [0], Z.of_nat (length m)).
Proof.
  intros Hby Hfr Hc. unfold internal_strdup. rewrite (strlen_spec _ _ _ Hc). cbn [mbind result_bind].
  destruct (Hfr (Z.of_nat (length xs) + 1) ltac:(lia)) as [Hfb Hfl]. pose proof (cs_inside _ _ _ Hc) as (?&?&?).
  set (m1 := m ++ fresh _). assert (Z.of_nat (length m1) = Z.of_nat (length m) + (Z.of_nat (length xs) + 1)) as Hl1 by (unfold m1; rewrite length_app; lia).
  rewrite memcpy_spec; [|apply Forall_app; done|unfold inside; lia|unfold inside; lia|lia]. cbn [mbind result_bind].
  assert (slice m1 s (Z.of_nat (length xs)) = xs) as ->.
  { destruct (cs_sub m s xs 0 (Z.of_nat (length xs)) Hc) as [_ Hsl]; [lia..|]. rewrite Z.add_0_r, drop_0 in Hsl. rewrite (take_ge xs) in Hsl by lia.
    rewrite <- Hsl at 2. unfold slice, m1. rewrite drop_app_le, take_app_le by (rewrite ?length_drop; lia). done. }
  rewrite wr_ok by (done || rewrite length_put; lia). cbn [mbind result_bind]. rewrite <- put_snoc by lia. do 2 f_equal.
  unfold put, m1. replace (Z.to_nat (Z.of_nat (length m))) with (length m + 0)%nat by lia. rewrite list_inserts_app_r. f_equal.
  rewrite <- (app_nil_r (fresh _)). rewrite list_inserts_0_r by (rewrite length_app; cbn; lia). by rewrite app_nil_r.
Qed.

(** ** The properties *)

(** [C36] [internal_memmove] copies as if through a buffer of its own, whatever the
    overlap; [internal_memset] fills its range with the value it is given, reduced to a byte, and
    does so by words when the range is aligned: for a value from 0 to 255 or -1, and for every other one if
    the address or the length is not a multiple of 16 (otherwise see [memset_wide]);
    neither touches another byte.  [mem_is_zero] decides whether a range is zero, reading
    words in its aligned part. *)
Theorem memory_functions_correct base m d s n c : Forall is_byte m → inside m d n → inside m s n → fills base d c n →
  0 ≤ base → base + Z.of_nat (length m) < 2 ^ 63 → n ≤ 2 ^ 40 →
  internal_memmove m d s n = Ok (put m d (slice m s n)) ∧
  internal_memset base m d c n = Ok (put m d (replicate (Z.to_nat n) (u8 c))) ∧
  returns (mem_is_zero base m s n) (λ r, r = true ↔ zero_on m s (s + n)).
Proof.
  intros Hby Hd Hs Hc H0 Hb Hn. split; [apply memmove_spec; (done || lia)|]. split; [by apply memset_spec|by apply mem_is_zero_spec].
Qed.

Lemma memory_functions_correct_witness :
  internal_memmove [1; 2; 3; 4; 5] 1 0 3 = Ok (put [1; 2; 3; 4; 5] 1 (slice [1; 2; 3; 4; 5] 0 3)) ∧
  internal_memset 4096 (replicate 16 9) 0 (-1) 16 = Ok (put (replicate 16 9) 0 (replicate (Z.to_nat 16) (u8 (-1)))).
Proof.
  split.
  - refine (proj1 (memory_functions_correct 4096 [1; 2; 3; 4; 5] 1 0 3 7 _ _ _ _ _ _ _)); unfold inside, fills, is_byte; cbn; try lia. repeat (apply Forall_cons_2; [lia|]). apply Forall_nil_2.
  - refine (proj1 (proj2 (memory_functions_correct 4096 (replicate 16 9) 0 0 16 (-1) _ _ _ _ _ _ _))); [by apply Forall_replicate|unfold inside; rewrite length_replicate; lia..|by right; left|lia|rewrite length_replicate; lia|lia].
Defined.

(** [internal_strlcpy] and [internal_strlcat] leave a terminated string in the
    destination, as much of the source as fits before [d + n], return the length they
    tried to create, and write nothing outside [d, d + n). *)
Theorem bounded_copy_correct m d s xs ys n : Forall is_byte m → cstr m s xs → cstr m d ys → inside m d n → Z.of_nat (length m) < 2 ^ 63 →
  (0 < n → returns (internal_strlcpy m d s n) (λ '(m', r), r = Z.of_nat (length xs) ∧ cstr m' d (take (Z.to_nat (n - 1)) xs) ∧
    ∀ i : nat, Z.of_nat i < d ∨ d + n ≤ Z.of_nat i → m' !! i = m !! i)) ∧
  (Z.of_nat (length ys) < n → returns (internal_strlcat m d s n) (λ '(m', r), r = Z.of_nat (length ys + length xs) ∧
    cstr m' d (ys ++ take (Z.to_nat (n - Z.of_nat (length ys) - 1)) xs) ∧
    ∀ i : nat, Z.of_nat i < d ∨ d + n ≤ Z.of_nat i → m' !! i = m !! i)).
Proof.
  intros Hby Hs Hd Hin Hm. pose proof Hin as (?&?&?). assert (∀ k, Forall (λ b, 0 < b < 256) (take k xs)) as Hx by (intros; apply Forall_take, Hs).
  split; intros Hn.
  - rewrite (strlcpy_spec m d s xs n) by done. cbn [returns]. rewrite (proj2 (Z.eqb_neq n 0)) by lia. split; [done|]. split.
    + apply cstr_put; [done|]. rewrite length_take. unfold inside. lia.
    + intros i Hi. apply put_lookup_out; [lia|]. rewrite length_app, length_take. cbn. lia.
  - rewrite (strlcat_spec m d s xs ys n) by done. rewrite (proj2 (Z.leb_gt _ _)) by lia. cbn [returns]. split; [done|]. split.
    + apply cstr_append; [done|done|]. rewrite length_take. unfold inside. lia.
    + intros i Hi. apply put_lookup_out; [lia|]. rewrite length_app, length_take. cbn. lia.
Qed.

Definition demo_mem : memory := [97; 98; 99; 0; 98; 0; 9; 9; 32; 45; 52; 50; 0].

Lemma demo_bytes : Forall is_byte demo_mem.
Proof. unfold demo_mem, is_byte. repeat (apply Forall_cons_2; [lia|]). apply Forall_nil_2. Qed.
Lemma demo_abc : cstr demo_mem 0 [97; 98; 99].
Proof. split; [unfold inside; cbn; lia| |done]. repeat (apply Forall_cons_2; [lia|]). apply Forall_nil_2. Qed.
Lemma demo_b : cstr demo_mem 4 [98].
Proof. split; [unfold inside; cbn; lia| |done]. repeat (apply Forall_cons_2; [lia|]). apply Forall_nil_2. Qed.
Lemma demo_number : cstr demo_mem 8 [32; 45; 52; 50].
Proof. split; [unfold inside; cbn; lia| |done]. repeat (apply Forall_cons_2; [lia|]). apply Forall_nil_2. Qed.

Lemma bounded_copy_correct_witness :
  (0 < 4 → returns (internal_strlcpy demo_mem 4 0 4) (λ '(m', r), r = Z.of_nat (length [97; 98; 99]) ∧ cstr m' 4 (take (Z.to_nat (4 - 1)) [97; 98; 99]) ∧
    ∀ i : nat, Z.of_nat i < 4 ∨ 4 + 4 ≤ Z.of_nat i → m' !! i = demo_mem !! i)) ∧
  (Z.of_nat (length [98]) < 4 → returns (internal_strlcat demo_mem 4 0 4) (λ '(m', r), r = Z.of_nat (length [98] + length [97; 98; 99]) ∧
    cstr m' 4 ([98] ++ take (Z.to_nat (4 - Z.of_nat (length [98]) - 1)) [97; 98; 99]) ∧
    ∀ i : nat, Z.of_nat i < 4 ∨ 4 + 4 ≤ Z.of_nat i → m' !! i = demo_mem !! i)).
Proof.
  apply (bounded_copy_correct demo_mem 4 0 [97; 98; 99] [98] 4 demo_bytes demo_abc demo_b); [unfold inside; cbn; lia|cbn; lia].
Defined.

(** On C strings [internal_strlen] returns the length, [internal_strcmp] the
    lexicographic comparison of the bytes as unsigned values, [internal_strchr] the
    first occurrence of the character (the terminator included) and
    [internal_strstr] the first occurrence of the other string. *)
Theorem string_functions_correct m s1 s2 xs ys c : Forall is_byte m → cstr m s1 xs → cstr m s2 ys →
  internal_strlen m s1 = Ok (Z.of_nat (length xs)) ∧
  internal_strcmp m s1 s2 = Ok (lexcmp xs ys) ∧
  internal_strchr m s1 c = Ok ((λ k, s1 + k) <$> first_index (λ x, x =? u8 c) (xs ++ [0])) ∧
  returns (internal_strstr m s1 s2) (λ r,
    match r with
    | Some p => ∃ k : nat, p = s1 + Z.of_nat k ∧ occurs_at ys xs k ∧ ∀ j, (j < k)%nat → ¬ occurs_at ys xs j
    | None => ∀ j, ¬ occurs_at ys xs j
    end).
Proof. intros Hby H1 H2. split; [by apply strlen_spec|]. split; [by apply strcmp_spec|]. split; [by apply strchr_spec|by apply strstr_spec]. Qed.

Lemma string_functions_correct_witness :
  internal_strlen demo_mem 0 = Ok (Z.of_nat (length [97; 98; 99])) ∧
  internal_strcmp demo_mem 0 4 = Ok (lexcmp [97; 98; 99] [98]) ∧
  internal_strchr demo_mem 0 98 = Ok ((λ k, 0 + k) <$> first_index (λ x, x =? u8 98) ([97; 98; 99] ++ [0])) ∧
  returns (internal_strstr demo_mem 0 4) (λ r,
    match r with
    | Some p => ∃ k : nat, p = 0 + Z.of_nat k ∧ occurs_at [98] [97; 98; 99] k ∧ ∀ j, (j < k)%nat → ¬ occurs_at [98] [97; 98; 99] j
    | None => ∀ j, ¬ occurs_at [98] [97; 98; 99] j
    end).
Proof. apply (string_functions_correct demo_mem 0 4 [97; 98; 99] [98] 98 demo_bytes demo_abc demo_b). Defined.

(** [internal_simple_strtoll] skips white space, reads an optional sign and the
    digits after it, and returns their value clamped to the range of [s64] whatever
    the number of digits, with [*endptr] after the last digit, or at the sign when
    there are no digits. *)
Theorem strtoll_correct m p sp sg ds x post xs : cstr m p xs → xs ++ [0] = sp ++ sign_chars sg ++ ds ++ x :: post →
  Forall (λ c, IsSpace c = true) sp → Forall (λ d, IsDigit d = true) ds → IsDigit x = false →
  (sg = NoSign → ds = [] → IsSpace x = false ∧ x ≠ 43 ∧ x ≠ 45) →
  internal_simple_strtoll m p 10 = Ok (clamp64 (sign_of sg * decimal ds),
    p + Z.of_nat (length sp + (if bool_decide (ds = []) then 0 else length (sign_chars sg) + length ds))).
Proof. apply strtoll_spec. Qed.

Lemma strtoll_correct_witness :
  internal_simple_strtoll demo_mem 8 10 = Ok (clamp64 (sign_of Minus * decimal [52; 50]),
    8 + Z.of_nat (length [32] + (if bool_decide ([52; 50] = []) then 0 else length (sign_chars Minus) + length [52; 50]))).
Proof.
  apply (strtoll_correct demo_mem 8 [32] Minus [52; 50] 0 [] [32; 45; 52; 50] demo_number); try done.
  - repeat (apply Forall_cons_2; [done|]). apply Forall_nil_2.
  - repeat (apply Forall_cons_2; [done|]). apply Forall_nil_2.
Defined.

(** The order of [internal_memcmp] is that of signed characters: a byte above 127
    comes before one below. *)
Example memcmp_signed : internal_memcmp [128; 1] 0 1 1 = Ok (-1) ∧ internal_strcmp [128; 0; 1; 0] 0 2 = Ok 1.
Proof. done. Qed.

(** [internal_memchr] does not convert its argument to [char]: a byte above 127 is not found. *)
Example memchr_no_conversion : internal_memchr [200] 0 200 1 = Ok None.
Proof. done. Qed.

(** A value outside [0, 255] can fill an aligned range with other bytes than an unaligned one. *)
Example memset_wide : internal_memset 0 (replicate 16 9) 0 256 16 ≠ internal_memset 1 (replicate 16 9) 0 256 16.
Proof. by vm_compute. Qed.

End Libc.
