(* ===== verification/Printf.v ===== *)
(** * Printf: the formatted output of [sanitizer_printf.cpp]

    A buffer is the bytes written so far together with its capacity without the
    terminator ([buff_end - buff]); each function that appends returns the number of
    characters it wanted to write, an [int] whose overflow is a fault.  A C string is the list of its
    characters without the terminator.  The specification is a grammar of formats, [spell], with the
    text that each directive stands for, [text_of]; neither uses the parser or the printers.
    [VSNPrintf] is proved to accept exactly the formats of the grammar, to write the prefix of their
    text that fits and to return its length. *)
From S2P Require Import Prelude Common Libc.
Import Libc.

Module Printf.

(** ** Output *)

(** A function that appends: from the capacity and the bytes written so far to the bytes
    and its result. *)
Definition printer : Type := Z → list Z → result (list Z * Z).

Definition AppendChar (c : Z) : printer := λ cap out,
  Ok (if Z.of_nat (length out) <? cap then out ++ [u8 c] else out, 1).

(** The statements of such a function: on the bytes and its variable [int result]. *)
Definition stmt : Type := Z → list Z * Z → result (list Z * Z).

(** [result += p;]. *)
Definition adds (p : printer) : stmt := λ cap '(out, result),
  '(out, n) ← p cap out;
  if result + n <? 2 ^ 31 then Ok (out, result + n) else Fault SignedOverflow.

Definition nothing : stmt := λ _ s, Ok s.
Definition seq (s1 s2 : stmt) : stmt := λ cap s, s ← s1 cap s; s2 cap s.
Infix ">>>" := seq (at level 45, right associativity) : san_scope.
Definition adds_if (b : bool) (p : printer) : stmt := if b then adds p else nothing.

(** A statement after a check or the fetch of an argument. *)
Definition after {A} (m : result A) (k : A → stmt) : stmt := λ cap s, a ← m; k a cap s.

(** [int result = 0; s; return result;]. *)
Definition body (s : stmt) : printer := λ cap out, s cap (out, 0).

(** ** Numbers *)
Abbreviation kMaxLen := (30) (only parsing).

(** [do num_buffer[pos++] = v % base, v /= base while (v > 0)]: least significant digit first. *)
Fixpoint num_buffer_loop (fuel : nat) (v base pos : Z) : result (list Z) :=
  match fuel with
  | O => Fault OutOfFuel
  | S fuel =>
      CHECK (pos <? kMaxLen);;
      q ← udiv v base;
      ds ← (if 0 <? q then num_buffer_loop fuel q base (pos + 1) else Ok []);
      Ok (v mod base :: ds)
  end.

(** The zeroes before the first digit; [ds] most significant first. *)
Fixpoint append_leading (pad_with_zero : bool) (ds : list Z) : stmt * list Z :=
  match ds with
  | d :: rest =>
      if d =? 0 then
        let '(p, ds) := append_leading pad_with_zero rest in
        (adds (AppendChar (if pad_with_zero || bool_decide (rest = []) then 48 else 32)) >>> p, ds)
      else (nothing, ds)
  | [] => (nothing, [])
  end.

Definition digit_char (uppercase : bool) (digit : Z) : Z :=
  if digit <? 10 then 48 + digit else (if uppercase then 65 else 97) + digit - 10.

Fixpoint append_digits (uppercase : bool) (ds : list Z) : stmt :=
  match ds with
  | [] => nothing
  | d :: ds => adds (AppendChar (digit_char uppercase d)) >>> append_digits uppercase ds
  end.

Definition AppendNumber (absolute_value base minimal_num_length : Z) (pad_with_zero negative uppercase : bool) : printer :=
  body (after (
    CHECK ((base =? 10) || (base =? 16));;
    CHECK ((base =? 10) || negb negative);;
    CHECK (negb (absolute_value =? 0) || negb negative);;
    CHECK (minimal_num_length <? kMaxLen)) (λ _,
  let minimal := if negative && negb (minimal_num_length =? 0) then minimal_num_length - 1 else minimal_num_length in
  adds_if (negative && pad_with_zero) (AppendChar 45) >>>
  after (num_buffer_loop (Z.to_nat kMaxLen) absolute_value base 0) (λ num_buffer,
  let num_buffer := num_buffer ++ replicate (Z.to_nat minimal - length num_buffer) 0 in
  let '(leading, digits) := append_leading pad_with_zero (reverse num_buffer) in
  leading >>> adds_if (negative && negb pad_with_zero) (AppendChar 45) >>> append_digits uppercase digits))).

Definition AppendUnsigned (num base minimal_num_length : Z) (pad_with_zero uppercase : bool) : printer :=
  AppendNumber num base minimal_num_length pad_with_zero false uppercase.

(** [-num] overflows for the least [s64]. *)
Definition AppendSignedDecimal (num minimal_num_length : Z) (pad_with_zero : bool) : printer := λ cap out,
  let negative := num <? 0 in
  absolute_value ← (if negative then if num =? INT64_MIN then Fault SignedOverflow else Ok (- num) else Ok num);
  AppendNumber absolute_value 10 minimal_num_length pad_with_zero negative false cap out.

(** ** Strings and pointers *)
Abbreviation null_string := ([60; 110; 117; 108; 108; 62]) (only parsing).

(** The characters of [*s], at most [max_chars] when it is not negative. *)
Fixpoint append_chars (max_chars : Z) (s : list Z) : stmt := λ cap '(out, result),
  match s with
  | [] => Ok (out, result)
  | c :: s =>
      if (0 <=? max_chars) && (max_chars <=? result) then Ok (out, result)
      else (adds (AppendChar c) >>> append_chars max_chars s) cap (out, result)
  end.

(** [while (width < -result) result += AppendChar(' ')]. *)
Fixpoint append_spaces (fuel : nat) (width : Z) : stmt := λ cap '(out, result),
  if width <? - result then
    match fuel with
    | O => Fault OutOfFuel
    | S fuel => (adds (AppendChar 32) >>> append_spaces fuel width) cap (out, result)
    end
  else Ok (out, result).

Definition AppendString (width max_chars : Z) (s : option (list Z)) : printer :=
  body (append_chars max_chars (default null_string s) >>> append_spaces (Z.to_nat (- width)) width).

Abbreviation SANITIZER_POINTER_FORMAT_LENGTH := (12) (only parsing).

Definition AppendPointer (ptr_value : Z) : printer :=
  body (adds (AppendString 0 (-1) (Some [48; 120])) >>> adds (AppendUnsigned ptr_value 16 SANITIZER_POINTER_FORMAT_LENGTH true false)).

(** ** Formats *)

(** The arguments: the 64 bits of an integer, or a pointer to a string. *)
Inductive arg := AInt (v : Z) | AStr (s : option (list Z)).

Definition va_int (args : list arg) : result (Z * list arg) :=
  match args with AInt v :: args => Ok (v, args) | _ => Fault BadAccess end.
Definition va_str (args : list arg) : result (option (list Z) * list arg) :=
  match args with AStr s :: args => Ok (s, args) | _ => Fault BadAccess end.

(** [width = width * 10 + *cur++ - '0'] while there are digits; the sum before the subtraction is an
    [int] as well. *)
Fixpoint parse_width (width : Z) (cur : list Z) : result (Z * list Z) :=
  match cur with
  | c :: rest =>
      if IsDigit c then
        if width * 10 + c <? 2 ^ 31 then parse_width (width * 10 + c - 48) rest else Fault SignedOverflow
      else Ok (width, cur)
  | [] => Ok (width, [])
  end.
Record directive := mkDir {
  left_justified : bool; have_width : bool; pad_with_zero : bool; width : Z; precision : Z;
  have_z : bool; have_l : bool; have_ll : bool; conversion : Z
}.

(** [cur] at the end of the format is the terminating zero. *)
Definition is_char (c : Z) (cur : list Z) : bool := hd 0 cur =? c.
Definition skip (b : bool) (n : nat) (cur : list Z) : list Z := if b then drop n cur else cur.

(** From the character after [%] to the conversion character, and the rest after it. *)
Definition parse_directive (cur : list Z) (args : list arg) : result (directive * list Z * list arg) :=
  let left_justified := is_char 45 cur in
  let cur := skip left_justified 1 cur in
  let have_width := IsDigit (hd 0 cur) in
  let pad_with_zero := is_char 48 cur in
  '(width, cur) ← (if have_width then parse_width 0 cur else Ok (0, cur));
  let have_precision := is_char 46 cur && is_char 42 (tail cur) in
  '(precision, args) ← (if have_precision then '(v, args) ← va_int args; Ok (signed 32 v, args) else Ok (-1, args));
  let cur := skip have_precision 2 cur in
  let have_z := is_char 122 cur in
  let cur := skip have_z 1 cur in
  let have_l := is_char 108 cur && negb (is_char 108 (tail cur)) in
  let cur := skip have_l 1 cur in
  let have_ll := is_char 108 cur && is_char 108 (tail cur) in
  let cur := skip have_ll 2 cur in
  let d := mkDir left_justified have_width pad_with_zero width precision have_z have_l have_ll (hd 0 cur) in
  CHECK (negb (((0 <=? precision) || left_justified) && negb (hd 0 cur =? 115)));;
  Ok (d, tail cur, args).

Abbreviation have_length d := (have_z d || have_l d || have_ll d) (only parsing).
Abbreviation have_flags d := (have_width d || have_length d) (only parsing).

(** The argument of [%d], and of [%u], [%x] and [%X]: [int] or 64 bits. *)
Definition va_signed (d : directive) (args : list arg) : result (Z * list arg) :=
  '(v, args) ← va_int args; Ok (signed (if have_length d then 64 else 32) v, args).
Definition va_unsigned (d : directive) (args : list arg) : result (Z * list arg) :=
  '(v, args) ← va_int args; Ok (cast (if have_length d then 64 else 32) v, args).

(** The [switch]: what is appended, and the arguments left. *)
Definition convert (d : directive) (args : list arg) : result (printer * list arg) :=
  let c := conversion d in
  if c =? 100 then
    '(v, args) ← va_signed d args;
    Ok (AppendSignedDecimal v (u8 (width d)) (pad_with_zero d), args)
  else if (c =? 117) || (c =? 120) || (c =? 88) then
    '(v, args) ← va_unsigned d args;
    Ok (AppendUnsigned v (if c =? 117 then 10 else 16) (u8 (width d)) (pad_with_zero d) (c =? 88), args)
  else if c =? 112 then
    CHECK (negb (have_flags d));;
    '(v, args) ← va_int args;
    Ok (AppendPointer (u64 v), args)
  else if c =? 115 then
    CHECK (negb (have_length d));;
    CHECK (negb (have_width d) || left_justified d);;
    '(s, args) ← va_str args;
    Ok (AppendString (if left_justified d then - width d else width d) (precision d) s, args)
  else if c =? 99 then
    CHECK (negb (have_flags d));;
    '(v, args) ← va_int args;
    Ok (AppendChar v, args)
  else if c =? 37 then
    CHECK (negb (have_flags d));;
    Ok (AppendChar 37, args)
  else Fault CheckFailed.

(** The loop over the format; each round consumes at least one character. *)
Fixpoint format_loop (fuel : nat) (cur : list Z) (args : list arg) : stmt :=
  match cur with
  | [] => nothing
  | c :: cur =>
      match fuel with
      | O => λ _ _, Fault OutOfFuel
      | S fuel =>
          if negb (c =? 37) then adds (AppendChar c) >>> format_loop fuel cur args
          else
            after (parse_directive cur args) (λ '(d, cur, args),
            after (convert d args) (λ '(p, args), adds p >>> format_loop fuel cur args))
      end
  end.

(** The buffer with its terminator, and the length of the text. *)
Definition VSNPrintf (buff_length : Z) (format : list Z) (args : list arg) : result (list Z * Z) :=
  CHECK (0 <? buff_length);;
  let cap := buff_length - 1 in
  '(out, result) ← body (format_loop (length format) format args) cap [];
  CHECK (Z.of_nat (length out) <=? cap);;
  '(out, _) ← AppendChar 0 (cap + 1) out;
  Ok (out, result).

(** [length] is a [usize], the parameter of [VSNPrintf] an [int]. *)
Definition internal_snprintf (length_ : Z) (format : list Z) (args : list arg) : result (list Z * Z) :=
  VSNPrintf (signed 32 length_) format args.

(** ** The formats and the text they stand for *)

(** The numeral of [v], most significant digit first, without leading zeroes. *)
Fixpoint to_digits (fuel : nat) (base v : Z) : list Z :=
  match fuel with
  | O => []
  | S fuel => if v <? base then [v] else to_digits fuel base (v / base) ++ [v mod base]
  end.
Definition digit (uppercase : bool) (d : Z) : Z :=
  if decide (d < 10) then 48 + d else if uppercase then 55 + d else 87 + d.
Definition numeral (base v : Z) (uppercase : bool) : list Z := digit uppercase <$> to_digits 64 base v.

(** Padded with zeroes after the sign, or with spaces before it. *)
Definition number_text (v base minimal : Z) (pad_with_zero negative uppercase : bool) : list Z :=
  let ds := numeral base v uppercase in
  let sign := if negative then [45] else [] in
  let n := (Z.to_nat minimal - length sign - length ds)%nat in
  if pad_with_zero then sign ++ replicate n 48 ++ ds else replicate n 32 ++ sign ++ ds.

(** The first [precision] characters, all of them if it is negative, and spaces up to [width]. *)
Definition string_text (width precision : Z) (s : option (list Z)) : list Z :=
  let cs := default null_string s in
  let t := if decide (precision < 0) then cs else take (Z.to_nat precision) cs in
  (cast 8 <$> t) ++ replicate (Z.to_nat width - length t) 32.

Definition pointer_text (v : Z) : list Z := [48; 120] ++ number_text v 16 SANITIZER_POINTER_FORMAT_LENGTH true false false.

(** A directive: [%], a minus sign, digits, [.*], [z], at most two [l] and a conversion character, each part
    but the first and the last optional. *)
Record syntax := Syntax { s_left : bool; s_width : list Z; s_star : bool; s_z : bool; s_l : nat; s_conv : Z }.

Definition spell (y : syntax) : list Z :=
  [37] ++ (if s_left y then [45] else []) ++ s_width y ++ (if s_star y then [46; 42] else []) ++ (if s_z y then [122] else []) ++
  replicate (s_l y) 108 ++ [s_conv y].

(** The conversions: d, u, x, X, p, s, c and %. *)
Definition conversions : list Z := [100; 117; 120; 88; 112; 115; 99; 37].
Definition well_formed (y : syntax) : Prop := Forall (λ c, 48 ≤ c ≤ 57) (s_width y) ∧ (s_l y ≤ 2)%nat ∧ s_conv y ∈ conversions.

(** The precision is an argument of type [int]. *)
Definition precision_of (y : syntax) (args : list arg) : option (Z * list arg) :=
  if s_star y then match args with AInt v :: args => Some (signed 32 v, args) | _ => None end else Some (-1, args).

(** The text of a directive and the arguments left, if the directive is supported and the arguments
    are of its types.  A width must be so small that reading it does not overflow; a number is padded to
    the width modulo 256, which must be less than 30; only strings can have a precision or be
    justified, and they can be padded on the right only. *)
Definition text_of (y : syntax) (args : list arg) : option (list Z * list arg) :=
  '(precision, args) ← precision_of y args;
  let width := decimal (s_width y) in
  let minimal := width mod 256 in
  let zeroes := bool_decide (head (s_width y) = Some 48) in
  let long := s_z y || bool_decide (s_l y ≠ O) in
  let bits := if long then 64 else 32 in
  if decide (s_width y ≠ [] ∧ 2 ^ 31 ≤ width + 48) then None
  else if decide (s_conv y = 115) then
    if decide (long = false ∧ (s_width y = [] ∨ s_left y = true)) then
      match args with AStr s :: args => Some (string_text width precision s, args) | _ => None end
    else None
  else if decide (0 ≤ precision ∨ s_left y = true) then None
  else if decide (s_conv y = 100) then
    match args with
    | AInt v :: args =>
        let v := signed bits v in
        if decide (minimal < 30 ∧ v ≠ - 2 ^ 63) then Some (number_text (Z.abs v) 10 minimal zeroes (bool_decide (v < 0)) false, args) else None
    | _ => None
    end
  else if decide (s_conv y ∈ [117; 120; 88]) then
    match args with
    | AInt v :: args =>
        let base := if decide (s_conv y = 117) then 10 else 16 in
        if decide (minimal < 30) then Some (number_text (v mod 2 ^ bits) base minimal zeroes false (bool_decide (s_conv y = 88)), args) else None
    | _ => None
    end
  else if decide (s_width y ≠ [] ∨ long = true) then None
  else if decide (s_conv y = 37) then Some ([37], args)
  else match args with
       | AInt v :: args => Some (if decide (s_conv y = 112) then pointer_text (v mod 2 ^ 64) else [v mod 256], args)
       | _ => None
       end.

(** [formats format args text]: the text of a format. *)
Inductive formats : list Z → list arg → list Z → Prop :=
  | formats_end args : formats [] args []
  | formats_char c format args text : c ≠ 37 → formats format args text → formats (c :: format) args (c mod 256 :: text)
  | formats_directive y format args args' text1 text2 : well_formed y → text_of y args = Some (text1, args') → formats format args' text2 →
      formats (spell y ++ format) args (text1 ++ text2).

(** ** Printers and the text they print *)

(** From the bytes [out] and the counter [n] the statement prints [t], as much of it as fits, and counts it,
    or the counter overflows. *)
Definition runs (s : stmt) (cap : Z) (out : list Z) (n : Z) (t : list Z) : Prop :=
  s cap (out, n) = if n + Z.of_nat (length t) <? 2 ^ 31 then Ok (take (Z.to_nat cap) (out ++ t), n + Z.of_nat (length t)) else Fault SignedOverflow.

Definition prints_stmt (s : stmt) (t : list Z) : Prop := ∀ cap out n, Z.of_nat (length out) ≤ cap → 0 ≤ n < 2 ^ 31 → runs s cap out n t.
Definition prints (p : printer) (t : list Z) : Prop := ∀ cap out, Z.of_nat (length out) ≤ cap →
  p cap out = if Z.of_nat (length t) <? 2 ^ 31 then Ok (take (Z.to_nat cap) (out ++ t), Z.of_nat (length t)) else Fault SignedOverflow.

Lemma take_more (cap : Z) (out t1 t2 : list Z) : take (Z.to_nat cap) (take (Z.to_nat cap) (out ++ t1) ++ t2) = take (Z.to_nat cap) (out ++ t1 ++ t2).
Proof.
  rewrite app_assoc. destruct (decide (length (out ++ t1) ≤ Z.to_nat cap)%nat); [by rewrite (take_ge (out ++ t1)) by lia|].
  rewrite take_app_le by (rewrite length_take; lia). rewrite take_take, Nat.min_id. by rewrite (take_app_le (out ++ t1)) by lia.
Qed.

Lemma runs_seq s1 s2 cap out n t1 t2 : Z.of_nat (length out) ≤ cap → 0 ≤ n → runs s1 cap out n t1 →
  (∀ out', Z.of_nat (length out') ≤ cap → n + Z.of_nat (length t1) < 2 ^ 31 → runs s2 cap out' (n + Z.of_nat (length t1)) t2) → runs (s1 >>> s2) cap out n (t1 ++ t2).
Proof.
  unfold runs. intros Hc Hn H1 H2. unfold seq. rewrite H1, length_app, Nat2Z.inj_add. destruct (Z.ltb_spec (n + Z.of_nat (length t1)) (2 ^ 31)) as [Hlt|Hge]; cbn [mbind result_bind].
  - rewrite H2 by (rewrite ?length_take; lia). rewrite Z.add_assoc. by rewrite take_more.
  - by rewrite (proj2 (Z.ltb_ge _ _)) by lia.
Qed.

Lemma prints_seq s1 s2 t1 t2 : prints_stmt s1 t1 → prints_stmt s2 t2 → prints_stmt (s1 >>> s2) (t1 ++ t2).
Proof. intros H1 H2 cap out n Hc Hn. apply runs_seq; [done|lia|by apply H1|]. intros out' Hc' Hlt. apply H2; [done|lia]. Qed.

Lemma prints_nothing : prints_stmt nothing [].
Proof. intros cap out n Hc Hn. unfold runs, nothing. cbn [length]. rewrite Z.add_0_r, (proj2 (Z.ltb_lt _ _)), app_nil_r, take_ge by lia. done. Qed.

Lemma prints_char c : prints (AppendChar c) [u8 c].
Proof.
  intros cap out H. unfold AppendChar. change (Z.of_nat (length [u8 c]) <? 2 ^ 31) with true. cbv iota. destruct (Z.ltb_spec (Z.of_nat (length out)) cap).
  - rewrite take_ge by (rewrite length_app; cbn; lia). done.
  - rewrite take_app_le, take_ge by lia. done.
Qed.

Lemma prints_byte c : u8 c = c → prints (AppendChar c) [c].
Proof. intros E. rewrite <- E at 2. apply prints_char. Qed.

Lemma prints_adds p t : prints p t → prints_stmt (adds p) t.
Proof.
  intros Hp cap out n Hc Hn. unfold runs, adds. rewrite Hp by done. destruct (Z.ltb_spec (Z.of_nat (length t)) (2 ^ 31)); cbn [mbind result_bind]; [done|].
  by rewrite (proj2 (Z.ltb_ge _ _)) by lia.
Qed.

Lemma prints_adds_if b p t : prints p t → prints_stmt (adds_if b p) (if b then t else []).
Proof. destruct b; [apply prints_adds|intros _; apply prints_nothing]. Qed.

Lemma prints_body s t : prints_stmt s t → prints (body s) t.
Proof. intros Hs cap out Hc. unfold body. by rewrite (Hs cap out 0) by lia. Qed.

Lemma prints_after {A} (m : result A) k a t : m = Ok a → prints_stmt (k a) t → prints_stmt (after m k) t.
Proof. by intros ->. Qed.

Create HintDb printing.
#[export] Hint Resolve prints_nothing prints_char prints_seq prints_adds prints_adds_if prints_body : printing.

(** *** Numbers *)
Lemma num_buffer_spec base k v pos fuel : 2 ≤ base → (1 ≤ k ≤ fuel)%nat → 0 ≤ v < base ^ Z.of_nat k → 0 ≤ pos → pos + Z.of_nat k ≤ kMaxLen →
  num_buffer_loop fuel v base pos = Ok (reverse (to_digits k base v)).
Proof.
  intros Hb. revert v pos fuel. induction k as [|k IH]; intros v pos fuel Hk Hv Hp Hpos; [lia|]. destruct fuel as [|fuel]; [lia|].
  cbn [num_buffer_loop to_digits]. rewrite (proj2 (Z.ltb_lt pos 30)) by lia. cbn [CHECK mbind result_bind].
  rewrite udiv_ok by lia. cbn [mbind result_bind]. pose proof (Z.div_mod v base). pose proof (Z.mod_pos_bound v base).
  rewrite Nat2Z.inj_succ, Z.pow_succ_r in Hv by lia. destruct (Z.ltb_spec v base) as [Hlt|Hge].
  - rewrite Z.div_small, Z.mod_small by lia. done.
  - assert (0 < v / base) by (apply Z.div_str_pos; lia). rewrite (proj2 (Z.ltb_lt 0 _)) by done.
    assert (v / base < base ^ Z.of_nat k) by (apply Z.div_lt_upper_bound; lia).
    rewrite IH; [|destruct k; cbn in *; lia|lia|lia|lia]. cbn [mbind result_bind]. by rewrite reverse_app.
Qed.

Lemma to_digits_facts base k v : 2 ≤ base → (1 ≤ k)%nat → 0 ≤ v < base ^ Z.of_nat k →
  Forall (λ d, 0 ≤ d < base) (to_digits k base v) ∧ (length (to_digits k base v) ≤ k)%nat ∧
  (∀ n, (k ≤ n)%nat → to_digits n base v = to_digits k base v) ∧
  fold_left (λ a d, a * base + d) (to_digits k base v) 0 = v ∧
  ∃ d ds, to_digits k base v = d :: ds ∧ (d = 0 → v = 0 ∧ ds = []).
Proof.
  intros Hb. revert v. induction k as [|k IH]; intros v Hk Hv; [lia|]. rewrite Nat2Z.inj_succ, Z.pow_succ_r in Hv by lia.
  pose proof (Z.div_mod v base). pose proof (Z.mod_pos_bound v base). cbn [to_digits]. destruct (Z.ltb_spec v base) as [Hlt|Hge].
  - split; [constructor; [lia|constructor]|]. split; [cbn; lia|]. split; [|split; [cbn; lia|by exists v, []]].
    intros [|n] Hn; [lia|]. cbn [to_digits]. by rewrite (proj2 (Z.ltb_lt v base)).
  - assert (0 < v / base) by (apply Z.div_str_pos; lia). assert (v / base < base ^ Z.of_nat k) by (apply Z.div_lt_upper_bound; lia).
    destruct (IH (v / base)) as (Hd & Hlen & Hm & Hf & d & ds & E & Hz); [destruct k; cbn in *; lia|lia|].
    split; [apply Forall_app; split; [done|constructor; [lia|constructor]]|]. split; [rewrite length_app; cbn; lia|]. split; [|split].
    + intros [|n] Hn; [lia|]. cbn [to_digits]. rewrite (proj2 (Z.ltb_ge v base)) by done. by rewrite Hm by lia.
    + rewrite fold_left_app, Hf. cbn. lia.
    + rewrite E. exists d, (ds ++ [v mod base]). split; [done|]. intros E0. destruct (Hz E0). lia.
Qed.

Lemma leading_digits pad n d ds : d ≠ 0 →
  ∃ p, append_leading pad (replicate n 0 ++ d :: ds) = (p, d :: ds) ∧ prints_stmt p (replicate n (if pad then 48 else 32)).
Proof.
  intros Hd. induction n as [|n (p & E & Hp)]; cbn [replicate app append_leading].
  - rewrite (proj2 (Z.eqb_neq d 0)) by done. eauto with printing.
  - cbn [Z.eqb]. rewrite E. eexists. split; [done|]. rewrite bool_decide_eq_false_2 by (by destruct n). rewrite orb_false_r.
    destruct pad; (apply (prints_seq _ _ [_]); [by apply prints_adds, prints_byte|done]).
Qed.

Lemma leading_zero pad n : ∃ p, append_leading pad (replicate n 0 ++ [0]) = (p, []) ∧ prints_stmt p (replicate n (if pad then 48 else 32) ++ [48]).
Proof.
  induction n as [|n (p & E & Hp)]; cbn [replicate app append_leading Z.eqb].
  - eexists. split; [done|]. rewrite orb_true_r. apply (prints_seq _ _ [48] []); [by apply prints_adds, prints_byte|apply prints_nothing].
  - rewrite E. eexists. split; [done|]. rewrite bool_decide_eq_false_2 by (by destruct n). rewrite orb_false_r.
    destruct pad; (apply (prints_seq _ _ [_]); [by apply prints_adds, prints_byte|done]).
Qed.

Lemma digit_char_spec up d : 0 ≤ d < 16 → digit_char up d = digit up d ∧ u8 (digit up d) = digit up d.
Proof. intros Hd. unfold digit_char, digit. destruct (Z.ltb_spec d 10), (decide (d < 10)), up; (split; [lia|apply cast_id; lia]). Qed.

Lemma prints_digits up ds : Forall (λ d, 0 ≤ d < 16) ds → prints_stmt (append_digits up ds) (digit up <$> ds).
Proof.
  induction 1 as [|d ds Hd _ IH]; cbn [append_digits fmap list_fmap]; [apply prints_nothing|].
  apply (prints_seq _ _ [_]); [|done]. destruct (digit_char_spec up d Hd) as [-> ?]. by apply prints_adds, prints_byte.
Qed.

Lemma prints_number v base minimal pad neg up : base = 10 ∨ base = 16 → 0 ≤ v < 2 ^ 64 → 0 ≤ minimal < kMaxLen → (neg = true → base = 10 ∧ v ≠ 0) →
  prints (AppendNumber v base minimal pad neg up) (number_text v base minimal pad neg up).
Proof.
  intros Hb Hv Hm Hn. apply prints_body. apply (prints_after _ _ tt).
  { assert ((base =? 10) || (base =? 16) = true) as -> by (by destruct Hb as [-> | ->]).
    assert ((base =? 10) || negb neg = true) as -> by (destruct neg; [by destruct Hn as [-> _]|by rewrite orb_true_r]).
    assert (negb (v =? 0) || negb neg = true) as -> by (destruct neg; [destruct Hn as [_ Hv0]; [done|]; by rewrite (proj2 (Z.eqb_neq v 0))|by rewrite orb_true_r]).
    by rewrite (proj2 (Z.ltb_lt _ _)) by lia. }
  cbv zeta. assert (0 ≤ v < base ^ Z.of_nat 20) as Hv20 by (destruct Hb as [-> | ->]; lia).
  assert (num_buffer_loop (Z.to_nat kMaxLen) v base 0 = Ok (reverse (to_digits 20 base v))) as Hbuf by (apply num_buffer_spec; lia).
  destruct (to_digits_facts base 20 v) as (Hd & _ & Hmore & _ & d & ds & Ed & Hz); [lia..|]. clear Hv Hv20.
  unfold number_text, numeral. rewrite (Hmore 64%nat) by lia. rewrite length_fmap.
  set (m := if neg && negb (minimal =? 0) then minimal - 1 else minimal). set (sign := if neg then [45] else []).
  assert (Z.to_nat m - length (to_digits 20 base v) = Z.to_nat minimal - length sign - length (to_digits 20 base v))%nat as En.
  { unfold m, sign. destruct neg; [|cbn; lia]. cbn [andb length]. destruct (Z.eqb_spec minimal 0); cbn [negb]; lia. }
  set (n := (Z.to_nat minimal - length sign - length (to_digits 20 base v))%nat) in *. assert (Forall (λ d, 0 ≤ d < 16) (d :: ds)) as Hds.
  { rewrite <- Ed. eapply Forall_impl; [done|]. cbn. intros. destruct Hb as [-> | ->]; lia. }
  assert (prints_stmt (let '(leading, digits) := append_leading pad (replicate n 0 ++ to_digits 20 base v) in
    leading >>> adds_if (neg && negb pad) (AppendChar 45) >>> append_digits up digits)
    (replicate n (if pad then 48 else 32) ++ (if neg && negb pad then [45] else []) ++ (digit up <$> to_digits 20 base v))) as Hrest.
  { rewrite Ed. destruct (decide (d = 0)) as [->|Hd0].
    - destruct (Hz eq_refl) as [-> ->]. destruct (leading_zero pad n) as (p & -> & Hp). destruct neg; [by destruct Hn|]. cbn [andb fmap list_fmap app] in *.
      rewrite <- (app_nil_r (_ ++ [digit up 0])). change (digit up 0) with 48. apply prints_seq; [done|]. apply (prints_seq _ _ [] []); apply prints_nothing.
    - destruct (leading_digits pad n d ds Hd0) as (p & -> & Hp). apply prints_seq; [done|]. apply prints_seq; [by apply prints_adds_if, prints_byte|by apply prints_digits]. }
  match goal with |- prints_stmt _ ?t => replace t with ((if neg && pad then [45] else []) ++ replicate n (if pad then 48 else 32) ++ (if neg && negb pad then [45] else []) ++ (digit up <$> to_digits 20 base v))
    by (unfold sign; by destruct neg, pad) end.
  apply prints_seq; [by apply prints_adds_if, prints_byte|]. apply (prints_after _ _ (reverse (to_digits 20 base v))); [by apply Hbuf|].
  by rewrite length_reverse, reverse_app, reverse_involutive, reverse_replicate, En.
Qed.

Lemma prints_signed v minimal pad : - 2 ^ 63 < v < 2 ^ 63 → 0 ≤ minimal < kMaxLen →
  prints (AppendSignedDecimal v minimal pad) (number_text (Z.abs v) 10 minimal pad (bool_decide (v < 0)) false).
Proof.
  intros Hv Hm cap out Hc. unfold AppendSignedDecimal, INT64_MIN. rewrite (proj2 (Z.eqb_neq v (- 2 ^ 63))) by lia.
  assert ((if v <? 0 then Ok (- v) else Ok v) = Ok (Z.abs v)) as -> by (destruct (Z.ltb_spec v 0); f_equal; lia).
  cbn [mbind result_bind]. assert ((v <? 0) = bool_decide (v < 0)) as -> by (destruct (Z.ltb_spec v 0); [by rewrite bool_decide_eq_true_2|by rewrite bool_decide_eq_false_2 by lia]).
  apply prints_number; [by left|lia|done| |done]. intros Hneg%bool_decide_eq_true. split; [done|lia].
Qed.

(** A printer that fails. *)
Definition fails (p : printer) : Prop := ∃ e, e ≠ OutOfFuel ∧ ∀ cap out, p cap out = Fault e.

Lemma number_fails v base minimal pad neg up : kMaxLen ≤ minimal → fails (AppendNumber v base minimal pad neg up).
Proof.
  intros Hm. exists CheckFailed. split; [done|]. intros cap out. unfold AppendNumber, body, after. rewrite (proj2 (Z.ltb_ge minimal _)) by lia.
  by destruct ((base =? 10) || (base =? 16)), ((base =? 10) || negb neg), (negb (v =? 0) || negb neg).
Qed.

Lemma signed_fails v minimal pad : v = - 2 ^ 63 ∨ kMaxLen ≤ minimal → fails (AppendSignedDecimal v minimal pad).
Proof.
  intros H. unfold AppendSignedDecimal, INT64_MIN. destruct (Z.eqb_spec v (- 2 ^ 63)) as [->|Hne]; [by exists SignedOverflow|].
  assert ((if v <? 0 then Ok (- v) else Ok v) = Ok (Z.abs v)) as -> by (destruct (Z.ltb_spec v 0); f_equal; lia). cbn [mbind result_bind]. apply number_fails. lia.
Qed.

(** *** Strings *)
Lemma runs_chars max s cap out n : Z.of_nat (length out) ≤ cap → 0 ≤ n < 2 ^ 31 →
  runs (append_chars max s) cap out n (cast 8 <$> (if decide (max < 0) then s else take (Z.to_nat (max - n)) s)).
Proof.
  revert out n. induction s as [|c s IH]; intros out n Hc Hn.
  { rewrite take_nil. destruct (decide (max < 0)); by apply prints_nothing. }
  unfold runs. cbn [append_chars]. destruct (decide (max < 0)).
  - rewrite (proj2 (Z.leb_gt 0 max)) by lia. cbn [andb]. apply (runs_seq _ _ _ _ _ [u8 c]); [done|lia|by apply prints_adds; [apply prints_char|..]|].
    intros out' Hc' Hlt. apply IH; [done|cbn in *; lia].
  - rewrite (proj2 (Z.leb_le 0 max)) by lia. cbn [andb]. destruct (Z.leb_spec max n).
    + replace (Z.to_nat (max - n)) with 0%nat by lia. by apply prints_nothing.
    + replace (Z.to_nat (max - n)) with (S (Z.to_nat (max - (n + 1)))) by lia. cbn [take]. apply (runs_seq _ _ _ _ _ [u8 c]); [done|lia|by apply prints_adds; [apply prints_char|..]|].
      intros out' Hc' Hlt. apply IH; [done|cbn in *; lia].
Qed.

Lemma runs_spaces fuel width cap out n : Z.of_nat (length out) ≤ cap → 0 ≤ n < 2 ^ 31 → (Z.to_nat (- width - n) ≤ fuel)%nat →
  runs (append_spaces fuel width) cap out n (replicate (Z.to_nat (- width - n)) 32).
Proof.
  revert out n. induction fuel as [|fuel IH]; intros out n Hc Hn Hf; unfold runs; cbn [append_spaces]; (destruct (Z.ltb_spec width (- n)); [|replace (Z.to_nat (- width - n)) with 0%nat by lia; by apply prints_nothing]).
  - lia.
  - replace (Z.to_nat (- width - n)) with (S (Z.to_nat (- width - (n + 1)))) by lia. apply (runs_seq _ _ _ _ _ [32]); [done|lia|by apply prints_adds; [apply prints_byte|..]|].
    intros out' Hc' Hlt. apply IH; [done|cbn in *; lia|cbn in *; lia].
Qed.

Lemma prints_string width precision s : 0 ≤ width → prints (AppendString (- width) precision s) (string_text width precision s).
Proof.
  intros Hw cap out Hc. unfold AppendString, body, string_text. rewrite Z.opp_involutive. apply (runs_seq _ _ cap out 0); [done|lia| |].
  - pose proof (runs_chars precision (default null_string s) cap out 0 Hc ltac:(lia)) as H. by rewrite Z.sub_0_r in H.
  - intros out' Hc' Hlt. rewrite length_fmap in *. set (t := if decide _ then _ else _) in *.
    replace (Z.to_nat width - length t)%nat with (Z.to_nat (- - width - (0 + Z.of_nat (length t)))) by lia. apply runs_spaces; [done|lia|lia].
Qed.

Lemma prints_pointer v : 0 ≤ v < 2 ^ 64 → prints (AppendPointer v) (pointer_text v).
Proof.
  intros Hv. apply prints_body, prints_seq; apply prints_adds.
  - apply (prints_string 0 (-1) (Some [48; 120])). lia.
  - apply prints_number; [by right|done|lia|done].
Qed.

(** *** Reading directives *)
Fixpoint span_digits (cur : list Z) : list Z * list Z :=
  match cur with
  | c :: rest => if IsDigit c then let '(ds, rest) := span_digits rest in (c :: ds, rest) else ([], cur)
  | [] => ([], [])
  end.

(** The directive at the beginning of a text, without its [%], and the rest. *)
Definition syntax_of (cur : list Z) : syntax * list Z :=
  let left := is_char 45 cur in
  let '(ds, cur) := span_digits (skip left 1 cur) in
  let star := is_char 46 cur && is_char 42 (tail cur) in
  let cur := skip star 2 cur in
  let z := is_char 122 cur in
  let cur := skip z 1 cur in
  let l := if is_char 108 cur then if is_char 108 (tail cur) then 2%nat else 1%nat else 0%nat in
  let cur := drop l cur in
  (Syntax left ds star z l (hd 0 cur), tail cur).

Definition directive_of (y : syntax) (precision : Z) : directive :=
  mkDir (s_left y) (bool_decide (s_width y ≠ [])) (bool_decide (head (s_width y) = Some 48)) (decimal (s_width y)) precision
    (s_z y) (bool_decide (s_l y = 1%nat)) (bool_decide (s_l y = 2%nat)) (s_conv y).

Abbreviation decimal_from w ds := (fold_left (λ v d, v * 10 + (d - 48)) ds w) (only parsing).

Lemma IsDigit_iff c : IsDigit c = true ↔ 48 ≤ c ≤ 57.
Proof. unfold IsDigit. rewrite andb_true_iff, !Z.leb_le. done. Qed.

Lemma decimal_from_le ds w : 0 ≤ w → Forall (λ c, 48 ≤ c ≤ 57) ds → w ≤ decimal_from w ds.
Proof.
  intros Hw Hds. revert w Hw. induction Hds as [|c ds Hc _ IH]; intros w Hw; cbn [fold_left]; [done|]. specialize (IH (w * 10 + (c - 48)) ltac:(lia)). lia.
Qed.

Lemma span_digits_spec cur ds rest : span_digits cur = (ds, rest) → cur = ds ++ rest ∧ Forall (λ c, 48 ≤ c ≤ 57) ds ∧ IsDigit (hd 0 rest) = false.
Proof.
  revert ds rest. induction cur as [|c cur IH]; cbn [span_digits]; intros ds rest E; [by injection E as <- <-|].
  destruct (IsDigit c) eqn:Hc; [|injection E as <- <-; done]. destruct (span_digits cur) as [ds' rest']. injection E as <- <-. destruct (IH _ _ eq_refl) as (-> & Hd & Hr).
  split; [done|]. split; [|done]. constructor; [by apply IsDigit_iff|done].
Qed.

Lemma span_digits_app ds rest : Forall (λ c, 48 ≤ c ≤ 57) ds → IsDigit (hd 0 rest) = false → span_digits (ds ++ rest) = (ds, rest).
Proof.
  intros Hds Hr. induction Hds as [|c ds Hc _ IH]; cbn [span_digits app].
  - destruct rest as [|c rest]; [done|]. cbn in *. by rewrite Hr.
  - by rewrite (proj2 (IsDigit_iff c) Hc), IH.
Qed.

(** The overflow in reading a width. *)
Lemma parse_width_spec w ds rest : 0 ≤ w → Forall (λ c, 48 ≤ c ≤ 57) ds → IsDigit (hd 0 rest) = false →
  parse_width w (ds ++ rest) = if decide (ds ≠ [] ∧ 2 ^ 31 ≤ decimal_from w ds + 48) then Fault SignedOverflow else Ok (decimal_from w ds, rest).
Proof.
  intros Hw Hds Hr. revert w Hw. induction Hds as [|c ds Hc Hds IH]; intros w Hw.
  - rewrite decide_False by tauto. cbn. destruct rest as [|c rest]; [done|]. cbn in *. by rewrite Hr.
  - cbn [parse_width app fold_left]. rewrite (proj2 (IsDigit_iff c) Hc). pose proof (decimal_from_le ds (w * 10 + (c - 48)) ltac:(lia) Hds) as Hle. destruct (Z.ltb_spec (w * 10 + c) (2 ^ 31)).
    + replace (w * 10 + c - 48) with (w * 10 + (c - 48)) by lia. rewrite IH by lia. destruct ds as [|c' ds].
      * cbn [fold_left] in *. rewrite !decide_False by (intros [? ?]; (done || lia)). done.
      * repeat case_decide; try done; exfalso; intuition congruence.
    + rewrite decide_True by (split; [done|lia]). done.
Qed.

Lemma is_char_true c cur : is_char c cur = true → c ≠ 0 → cur = c :: tail cur.
Proof. unfold is_char. intros E%Z.eqb_eq Hc. destruct cur; cbn in *; congruence. Qed.

Lemma skip_one b c cur : b = is_char c cur → c ≠ 0 → cur = (if b then [c] else []) ++ skip b 1 cur.
Proof. intros -> Hc. destruct (is_char c cur) eqn:E; [|done]. apply is_char_true in E; [|done]. by rewrite E. Qed.

(** What [syntax_of] returns is what is written. *)
Lemma syntax_of_spec cur y rest : syntax_of cur = (y, rest) → s_conv y ∈ conversions → well_formed y ∧ 37 :: cur = spell y ++ rest.
Proof.
  unfold syntax_of. destruct (span_digits (skip (is_char 45 cur) 1 cur)) as [ds c2] eqn:Es. apply span_digits_spec in Es as (E2 & Hds & _).
  set (star := is_char 46 c2 && is_char 42 (tail c2)). set (c3 := skip star 2 c2). set (z := is_char 122 c3). set (c4 := skip z 1 c3).
  set (l := if is_char 108 c4 then if is_char 108 (tail c4) then 2%nat else 1%nat else 0%nat). intros [= <- <-]. cbn [s_conv]. intros Hconv.
  assert (c2 = (if star then [46; 42] else []) ++ c3) as E3.
  { unfold c3. destruct star eqn:E; [|done]. unfold star in E. apply andb_true_iff in E as [H1 H2]. apply is_char_true in H1, H2; [|done..]. rewrite H1, H2. done. }
  assert (c3 = (if z then [122] else []) ++ c4) as E4 by (by apply skip_one).
  assert (c4 = replicate l 108 ++ drop l c4) as E5.
  { unfold l. destruct (is_char 108 c4) eqn:H1; [|done]. apply is_char_true in H1; [|done]. destruct (is_char 108 (tail c4)) eqn:H2; [apply is_char_true in H2; [|done]; rewrite H1, H2; done|by rewrite H1]. }
  assert (drop l c4 = hd 0 (drop l c4) :: tail (drop l c4)) as E6 by (destruct (drop l c4); [|done]; cbn in Hconv; vm_compute in Hconv; set_solver).
  split; [split; [done|]; split; [unfold l; repeat case_match; cbn; lia|done]|]. unfold spell. cbn [s_left s_width s_star s_z s_l s_conv app]. f_equal.
  rewrite (skip_one (is_char 45 cur) 45 cur) at 1 by done. rewrite E2, E3, E4, E5, E6 at 1. rewrite <- !app_assoc. done.
Qed.

(** No two directives are written alike. *)
Lemma syntax_of_spell y rest : well_formed y → syntax_of (tail (spell y) ++ rest) = (y, rest).
Proof.
  destruct y as [left ds star z l c]. intros (Hds & Hl & Hc). cbn [s_width s_l s_conv] in *. unfold spell. cbn [s_left s_width s_star s_z s_l s_conv app tail]. rewrite <- !app_assoc. cbn [app].
  set (c3 := (if star then [46; 42] else []) ++ (if z then [122] else []) ++ replicate l 108 ++ c :: rest).
  assert (IsDigit (hd 0 c3) = false ∧ is_char 45 c3 = false ∧ is_char 46 c3 && is_char 42 (tail c3) = star ∧ is_char 122 (skip star 2 c3) = z ∧
    let c5 := skip z 1 (skip star 2 c3) in c5 = replicate l 108 ++ c :: rest ∧ (if is_char 108 c5 then if is_char 108 (tail c5) then 2%nat else 1%nat else 0%nat) = l) as (H1 & H2 & H3 & H4 & H5 & H6).
  { unfold c3, conversions in *. destruct l as [|[|[|l]]]; [..|lia]; repeat (apply elem_of_cons in Hc as [->|Hc]); try (by apply not_elem_of_nil in Hc); destruct star, z; done. }
  assert (is_char 45 ((if left then [45] else []) ++ ds ++ c3) = left) as E1.
  { destruct left; [done|]. cbn [app]. destruct Hds as [|d ds Hd _]; [done|]. unfold is_char. cbn. apply Z.eqb_neq. lia. }
  unfold syntax_of. rewrite E1. assert (skip left 1 ((if left then [45] else []) ++ ds ++ c3) = ds ++ c3) as -> by (by destruct left).
  rewrite span_digits_app by done. rewrite H3, H4, H5. rewrite H5 in H6. rewrite H6. rewrite drop_app_length' by (by rewrite length_replicate). done.
Qed.

(** The parser, by the directive it reads. *)
Lemma parse_directive_spec cur args y rest : syntax_of cur = (y, rest) →
  parse_directive cur args =
    if decide (s_width y ≠ [] ∧ 2 ^ 31 ≤ decimal (s_width y) + 48) then Fault SignedOverflow
    else match precision_of y args with
         | None => Fault BadAccess
         | Some (p, args) => if decide (s_conv y ≠ 115 ∧ (0 ≤ p ∨ s_left y = true)) then Fault CheckFailed else Ok (directive_of y p, rest, args)
         end.
Proof.
  unfold syntax_of, parse_directive. destruct (span_digits (skip (is_char 45 cur) 1 cur)) as [ds c2] eqn:Es. set (c1 := skip (is_char 45 cur) 1 cur) in *. apply span_digits_spec in Es as (E1 & Hds & Hr).
  set (star := is_char 46 c2 && is_char 42 (tail c2)) in *. set (c3 := skip star 2 c2) in *. set (z := is_char 122 c3) in *. set (c4 := skip z 1 c3) in *. intros [= <- <-].
  unfold directive_of, precision_of. cbn [s_left s_width s_star s_z s_l s_conv].
  assert ((if IsDigit (hd 0 c1) then parse_width 0 c1 else Ok (0, c1)) = if decide (ds ≠ [] ∧ 2 ^ 31 ≤ decimal ds + 48) then Fault SignedOverflow else Ok (decimal ds, c2)) as ->.
  { rewrite E1. rewrite parse_width_spec by done. unfold decimal. destruct Hds as [|c ds Hc Hds]; cbn [hd app].
    - rewrite Hr, decide_False by tauto. done.
    - by rewrite (proj2 (IsDigit_iff c) Hc). }
  destruct (decide (ds ≠ [] ∧ 2 ^ 31 ≤ decimal ds + 48)); [done|]. cbn [mbind result_bind]. fold star.
  assert (IsDigit (hd 0 c1) = bool_decide (ds ≠ [])) as ->.
  { rewrite E1. destruct Hds as [|c ds Hc Hds]; cbn [hd app]; [by rewrite Hr|]. by rewrite (proj2 (IsDigit_iff c) Hc). }
  assert (is_char 48 c1 = bool_decide (head ds = Some 48)) as ->.
  { rewrite E1. unfold is_char. destruct Hds as [|c ds Hc Hds]; cbn [hd head app].
    - rewrite bool_decide_eq_false_2 by done. apply Z.eqb_neq. intros E. unfold IsDigit in Hr. by rewrite E in Hr.
    - destruct (Z.eqb_spec c 48) as [->|]; [by rewrite bool_decide_eq_true_2|rewrite bool_decide_eq_false_2; congruence]. }
  assert ((if star then '(v, args) ← va_int args; Ok (signed 32 v, args) else Ok (-1, args)) =
    match (if star then match args with AInt v :: args0 => Some (signed 32 v, args0) | _ => None end else Some (-1, args)) with Some x => Ok x | None => Fault BadAccess end) as ->
    by (destruct star; [|done]; by destruct args as [|[] ?]).
  destruct (if star then _ else _) as [[p args']|]; [|done]. cbn [mbind result_bind]. fold c3. fold z. fold c4.
  set (h1 := is_char 108 c4). set (h2 := is_char 108 (tail c4)). set (l := if h1 then if h2 then 2%nat else 1%nat else 0%nat).
  assert (skip (is_char 108 (skip (h1 && negb h2) 1 c4) && is_char 108 (tail (skip (h1 && negb h2) 1 c4))) 2 (skip (h1 && negb h2) 1 c4) = drop l c4 ∧
    (h1 && negb h2) = bool_decide (l = 1%nat) ∧ (is_char 108 (skip (h1 && negb h2) 1 c4) && is_char 108 (tail (skip (h1 && negb h2) 1 c4))) = bool_decide (l = 2%nat)) as (-> & -> & ->).
  { unfold l. destruct h1 eqn:H1, h2 eqn:H2; cbn [andb negb skip]; fold h1 h2; rewrite ?H1, ?H2; try done. assert (drop 1 c4 = tail c4) as -> by (by destruct c4). unfold h2 in H2. rewrite H2. done. }
  set (c := hd 0 (drop l c4)). unfold CHECK. destruct (Z.leb_spec 0 p), (is_char 45 cur), (Z.eqb_spec c 115); cbn [orb andb negb mbind result_bind]; case_decide; (done || naive_solver lia).
Qed.

(** *** The conversions *)
Lemma cast_mod w v : cast w v = v mod 2 ^ w.
Proof. done. Qed.

(** A directive prints its text, or fails if it has none. *)
Lemma convert_spec y args p args' : well_formed y → ¬ (s_width y ≠ [] ∧ 2 ^ 31 ≤ decimal (s_width y) + 48) → precision_of y args = Some (p, args') →
  ¬ (s_conv y ≠ 115 ∧ (0 ≤ p ∨ s_left y = true)) →
  match text_of y args with
  | Some (t, rest) => ∃ pr, convert (directive_of y p) args' = Ok (pr, rest) ∧ prints pr t
  | None => (∃ e, convert (directive_of y p) args' = Fault e ∧ e ≠ OutOfFuel) ∨ ∃ pr rest, convert (directive_of y p) args' = Ok (pr, rest) ∧ fails pr
  end.
Proof.
  intros (Hds & Hl & Hc) Hw Hp Hchk. unfold text_of. rewrite Hp. cbn [mbind option_bind]. rewrite (decide_False (P := s_width y ≠ [] ∧ _)) by done.
  assert (0 ≤ decimal (s_width y)) as Hdec by (by apply (decimal_from_le _ 0)). assert (s_width y = [] → decimal (s_width y) = 0) as Hdec0 by (by intros ->).
  unfold convert, directive_of, va_signed, va_unsigned. cbn [conversion have_z have_l have_ll have_width left_justified width precision pad_with_zero].
  assert (s_z y || bool_decide (s_l y = 1%nat) || bool_decide (s_l y = 2%nat) = s_z y || bool_decide (s_l y ≠ 0%nat)) as ->.
  { destruct (s_z y); [done|]. cbn. destruct (s_l y) as [|[|[|n]]]; [done..|lia]. }
  set (long := s_z y || bool_decide (s_l y ≠ 0%nat)). set (zeroes := bool_decide (head (s_width y) = Some 48)). set (w := decimal (s_width y)) in *. rewrite !(cast_mod 8).
  pose proof (Z.mod_pos_bound w 256 ltac:(lia)) as Hmin. change (2 ^ 8) with 256.
  unfold conversions in Hc. repeat (apply elem_of_cons in Hc as [Hc|Hc]); [..|by apply not_elem_of_nil in Hc]; rewrite Hc in *; cbn [Z.eqb Pos.eqb orb].
  all: repeat match goal with
    | |- context [decide (?a = ?b)] => first [rewrite (decide_True (P := a = b)) by done | rewrite (decide_False (P := a = b)) by done]
    | |- context [decide (?a ∈ [117; 120; 88])] => first [rewrite (decide_True (P := a ∈ [117; 120; 88])) by (by repeat constructor) | rewrite (decide_False (P := a ∈ [117; 120; 88])) by (rewrite !elem_of_cons, elem_of_nil; lia)]
    | H : ¬ (?a ∧ ?b) |- context [decide ?b] => rewrite (decide_False (P := b)) by (intros ?; by apply H)
    end.
  1: { destruct args' as [|[v|s] rest]; cbn [va_int mbind result_bind]; [by left; eauto| |by left; eauto]. pose proof (signed_bounds 64 v ltac:(lia)). pose proof (signed_bounds 32 v ltac:(lia)).
    set (sv := signed _ v). assert (- 2 ^ 63 ≤ sv < 2 ^ 63) by (unfold sv; destruct long; lia). case_decide as Hok.
    - eexists. split; [done|]. apply prints_signed; lia.
    - right. eexists _, _. split; [done|]. apply signed_fails. lia. }
  1-3: destruct args' as [|[v|s] rest]; cbn [va_int mbind result_bind]; [by left; eauto| |by left; eauto].
  1-3: set (uv := v mod _); assert (0 ≤ uv < 2 ^ 64) by (unfold uv; pose proof (Z.mod_pos_bound v (2 ^ 64) ltac:(lia)); pose proof (Z.mod_pos_bound v (2 ^ 32) ltac:(lia)); destruct long; lia).
  1-3: rewrite cast_mod; fold uv; case_decide as Hok; [eexists; split; [done|]; apply prints_number; [by (left + right)|done|lia|done]|right; eexists _, _; split; [done|]; apply number_fails; lia].
  2: { case_decide as Hok.
    - destruct Hok as [-> Hleft]. cbn [negb CHECK mbind result_bind]. assert (negb (bool_decide (s_width y ≠ [])) || s_left y = true) as ->.
      { destruct Hleft as [E| ->]; [by rewrite bool_decide_eq_false_2 by (intros H; by apply H)|by rewrite orb_true_r]. }
      cbn [CHECK mbind result_bind]. destruct args' as [|[v|s] rest]; cbn [va_str mbind result_bind]; [by left; eauto..|]. eexists. split; [done|].
      replace (if s_left y then - w else w) with (- w) by (destruct (s_left y); [done|]; destruct Hleft as [E|]; [rewrite (Hdec0 E); lia|done]). by apply prints_string.
    - left. destruct long; [by eexists|]. cbn [negb CHECK mbind result_bind]. rewrite bool_decide_eq_true_2 by tauto. destruct (s_left y); [tauto|]. by eexists. }
  all: case_decide as Hflags; [left; destruct Hflags as [Hf| ->]; [rewrite bool_decide_eq_true_2 by done|rewrite orb_true_r]; by eexists|].
  all: rewrite bool_decide_eq_false_2 by (intros H; apply Hflags; by left); assert (long = false) as -> by (destruct long; [|done]; exfalso; apply Hflags; by right); cbn [orb negb CHECK mbind result_bind].
  3: { eexists. split; [done|]. by apply prints_byte. }
  all: destruct args' as [|[v|s] rest]; cbn [va_int mbind result_bind]; [by left; eauto| |by left; eauto]; eexists; (split; [done|]).
  - apply prints_pointer, (cast_range 64). lia.
  - apply prints_char.
Qed.

(** *** The loop *)
Lemma formats_nil args t : formats [] args t ↔ t = [].
Proof. split; [|intros ->; constructor]. intros H. by inversion H. Qed.

Lemma formats_cons_char c cur args t : c ≠ 37 → formats (c :: cur) args t ↔ ∃ t', formats cur args t' ∧ t = c mod 256 :: t'.
Proof.
  intros Hc. split; [|intros (t' & H & ->); by constructor]. intros H. inversion H; subst; [eauto|done].
Qed.

Lemma formats_cons_directive cur args t y rest : syntax_of cur = (y, rest) →
  formats (37 :: cur) args t ↔ well_formed y ∧ ∃ t1 args' t2, text_of y args = Some (t1, args') ∧ formats rest args' t2 ∧ t = t1 ++ t2.
Proof.
  intros Hy. split.
  - intros H. inversion H as [| |y' cur' args0 args' t1 t2 Hwf Ht H' E]; [done|]. assert (cur = tail (spell y') ++ cur') as Ecur by (by rewrite <- E).
    rewrite Ecur, syntax_of_spell in Hy by done. injection Hy as <- <-. eauto 10.
  - intros (Hwf & t1 & args' & t2 & Ht & H & ->). destruct (syntax_of_spec cur y rest Hy (proj2 (proj2 Hwf))) as [_ ->]. by eapply formats_directive.
Qed.

Lemma text_of_none y args : s_width y ≠ [] ∧ 2 ^ 31 ≤ decimal (s_width y) + 48 ∨
  match precision_of y args with Some (p, _) => s_conv y ≠ 115 ∧ (0 ≤ p ∨ s_left y = true) | None => True end → text_of y args = None.
Proof.
  unfold text_of. destruct (precision_of y args) as [[p args']|]; [|done]. cbn [mbind option_bind]. intros [H|[H1 H2]]; [by rewrite decide_True|].
  case_decide; [done|]. rewrite decide_False by done. by rewrite decide_True.
Qed.

Lemma convert_other d args : conversion d ∉ conversions → convert d args = Fault CheckFailed.
Proof.
  unfold convert, conversions. rewrite !not_elem_of_cons. intros (H1 & H2 & H3 & H4 & H5 & H6 & H7 & H8 & _). by rewrite !(proj2 (Z.eqb_neq _ _)) by done.
Qed.

Definition stmt_fails (s : stmt) : Prop := ∀ cap out n, Z.of_nat (length out) ≤ cap → 0 ≤ n < 2 ^ 31 → ∃ e, e ≠ OutOfFuel ∧ s cap (out, n) = Fault e.

Lemma fails_after {A} (m : result A) k e : m = Fault e → e ≠ OutOfFuel → stmt_fails (after m k).
Proof. intros -> He cap out n _ _. by exists e. Qed.

Lemma fails_seq p t s : prints p t → stmt_fails s → stmt_fails (adds p >>> s).
Proof.
  intros Hp Hs cap out n Hc Hn. pose proof (prints_adds p t Hp cap out n Hc Hn) as H. unfold runs in H. unfold seq. rewrite H. destruct (Z.ltb_spec (n + Z.of_nat (length t)) (2 ^ 31)); cbn [mbind result_bind]; [|by exists SignedOverflow].
  apply Hs; [rewrite length_take; lia|lia].
Qed.

Lemma fails_adds p s : fails p → stmt_fails (adds p >>> s).
Proof. intros (e & He & Hp) cap out n _ _. exists e. split; [done|]. unfold seq, adds. by rewrite Hp. Qed.

(** A statement prints the one text of a format, or fails and the format has none. *)
Definition meets (s : stmt) (cur : list Z) (args : list arg) : Prop :=
  (∃ t, (∀ t', formats cur args t' ↔ t' = t) ∧ prints_stmt s t) ∨ ((∀ t', ¬ formats cur args t') ∧ stmt_fails s).

Lemma loop_char c s cur args : c ≠ 37 → meets s cur args → meets (adds (AppendChar c) >>> s) (c :: cur) args.
Proof.
  intros Hc [(t & Ht & Hp)|[Hn Hf]].
  - left. exists (c mod 256 :: t). split; [|apply (prints_seq _ _ [_]); [apply prints_adds, prints_char|done]].
    intros t'. rewrite formats_cons_char by done. split; [intros (t1 & ->%Ht & ->); done|]. intros ->. exists t. by rewrite Ht.
  - right. split; [intros t'; rewrite formats_cons_char by done; intros (t1 & H & _); by eapply Hn|]. eapply fails_seq; [apply prints_char|done].
Qed.

Lemma loop_directive (s : list Z → list arg → stmt) cur args : (∀ cur' args', (length cur' ≤ length cur)%nat → meets (s cur' args') cur' args') →
  meets (after (parse_directive cur args) (λ '(d, cur, args), after (convert d args) (λ '(p, args), adds p >>> s cur args))) (37 :: cur) args.
Proof.
  intros IH. destruct (syntax_of cur) as [y rest] eqn:Ey. pose proof (parse_directive_spec cur args y rest Ey) as Hparse. pose proof (λ t, formats_cons_directive cur args t y rest Ey) as Hfmt.
  destruct (decide (s_conv y ∈ conversions)) as [Hc|Hc].
  2: { right. split; [intros t' H%Hfmt; by destruct H as [(_ & _ & ?) _]|]. rewrite Hparse. case_decide; [by eapply fails_after|]. destruct (precision_of y args) as [[p args']|]; [|by eapply fails_after].
       case_decide; [by eapply fails_after|]. unfold after at 1. cbn [mbind result_bind]. intros cap out n _ _. exists CheckFailed. unfold after. by rewrite convert_other. }
  destruct (syntax_of_spec cur y rest Ey Hc) as [Hwf Esp]. assert (length rest ≤ length cur)%nat as Hlen by (apply (f_equal length) in Esp; unfold spell in Esp; cbn in Esp; rewrite !length_app in Esp; lia).
  assert (text_of y args = None → ∀ t', ¬ formats (37 :: cur) args t') as Hnone by (intros E t' H%Hfmt; destruct H as (_ & t1 & args' & t2 & E' & _); congruence).
  pose proof (text_of_none y args) as Htn. rewrite Hparse. case_decide as Hw; [right; split; [apply Hnone; auto|by eapply fails_after]|].
  destruct (precision_of y args) as [[p args1]|] eqn:Ep; [|right; split; [apply Hnone; auto|by eapply fails_after]].
  case_decide as Hchk; [right; split; [apply Hnone; auto|by eapply fails_after]|]. pose proof (convert_spec y args p args1 Hwf Hw Ep Hchk) as Hconv.
  unfold meets, prints_stmt, stmt_fails, runs, after at 1 3. cbn [mbind result_bind]. fold (prints_stmt). destruct (text_of y args) as [[t1 args2]|] eqn:Et.
  - destruct Hconv as (pr & -> & Hpr). destruct (IH rest args2 Hlen) as [(t2 & Ht2 & Hp)|[Hn Hf]].
    + left. exists (t1 ++ t2). split; [|exact (prints_seq _ _ _ _ (prints_adds _ _ Hpr) Hp)]. intros t'. rewrite Hfmt. split.
      * intros (_ & t1' & args' & t2' & [= <- <-] & ->%Ht2 & ->). done.
      * intros ->. split; [done|]. exists t1, args2, t2. by rewrite Ht2.
    + right. split; [|exact (fails_seq _ _ _ Hpr Hf)]. intros t' H%Hfmt. destruct H as (_ & t1' & args' & t2' & [= <- <-] & H & _). by eapply Hn.
  - right. split; [by apply Hnone|]. destruct Hconv as [(e & -> & He)|(pr & rest' & -> & Hf)]; [intros cap out n _ _; by exists e|exact (fails_adds _ _ Hf)].
Qed.

Lemma format_loop_spec fuel cur args : (length cur ≤ fuel)%nat → meets (format_loop fuel cur args) cur args.
Proof.
  revert cur args. induction fuel as [|fuel IH]; intros [|c cur] args Hl; cbn [length] in Hl; [|lia| |]; cbn [format_loop].
  1,2: left; exists []; split; [intros; apply formats_nil|apply prints_nothing].
  destruct (Z.eqb_spec c 37) as [->|Hc]; cbn [negb]; [apply (loop_directive (format_loop fuel)); intros; apply IH; lia|]. apply loop_char; [done|]. apply IH. lia.
Qed.

(** [VSNPrintf] by the text of the format. *)
Lemma VSNPrintf_spec n format args : 0 < n →
  (∃ t, (∀ t', formats format args t' ↔ t' = t) ∧
     VSNPrintf n format args = if Z.of_nat (length t) <? 2 ^ 31 then Ok (take (Z.to_nat (n - 1)) t ++ [0], Z.of_nat (length t)) else Fault SignedOverflow) ∨
  ((∀ t', ¬ formats format args t') ∧ ∃ e, e ≠ OutOfFuel ∧ VSNPrintf n format args = Fault e).
Proof.
  intros Hn. unfold VSNPrintf. rewrite (proj2 (Z.ltb_lt 0 n)) by done. cbn [CHECK mbind result_bind]. unfold body.
  destruct (format_loop_spec (length format) format args ltac:(done)) as [(t & Ht & Hp)|[Hno Hf]].
  - left. exists t. split; [done|]. rewrite (Hp (n - 1) [] 0) by (cbn; lia). rewrite Z.add_0_l, app_nil_l. destruct (Z.of_nat (length t) <? 2 ^ 31); [|done]. cbn [mbind result_bind].
    rewrite (proj2 (Z.leb_le _ _)) by (rewrite length_take; lia). cbn [CHECK mbind result_bind]. unfold AppendChar. by rewrite (proj2 (Z.ltb_lt _ _)) by (rewrite length_take; lia).
  - right. split; [done|]. destruct (Hf (n - 1) [] 0) as (e & He & ->); [cbn; lia|lia|]. by exists e.
Qed.

(** [C10] [VSNPrintf] returns on exactly the formats and arguments that have a text of less than [2^31]
    characters: those that are spelled by literal characters and supported directives, the arguments of
    the types that these need ([formats]).  It then writes the longest prefix of the text that fits with
    its terminator in the buffer, never more, and returns the length of the whole text, so
    that the text was cut exactly when the result is not below the size of the buffer.  On anything else it
    dies or overflows an [int], and it always ends. *)
Theorem VSNPrintf_correct n format args : 0 < n →
  (∀ out r, VSNPrintf n format args = Ok (out, r) ↔
     ∃ text, formats format args text ∧ Z.of_nat (length text) < 2 ^ 31 ∧ out = take (Z.to_nat (n - 1)) text ++ [0] ∧ r = Z.of_nat (length text)) ∧
  VSNPrintf n format args ≠ Fault OutOfFuel.
Proof.
  intros Hn. destruct (VSNPrintf_spec n format args Hn) as [(t & Ht & ->)|(Hno & e & He & ->)].
  - destruct (Z.ltb_spec (Z.of_nat (length t)) (2 ^ 31)); (split; [|done]); intros out r; split.
    + intros [= <- <-]. exists t. by rewrite Ht.
    + by intros (t' & ->%Ht & _ & -> & ->).
    + done.
    + intros (t' & ->%Ht & ? & _). lia.
  - split; [|congruence]. intros out r. split; [done|]. intros (t' & H & _). by destruct (Hno t').
Qed.

Ltac solve_well_formed := split; [cbn; repeat (apply Forall_cons_2; [lia|]); apply Forall_nil_2|split; [cbn; lia|by repeat constructor]].

(** "%s=%4d", a string and a number. *)
Definition demo_format : list Z := [37; 115; 61; 37; 52; 100].
Definition demo_args : list arg := [AStr (Some [97; 98; 99]); AInt (-7)].

Lemma demo_formats : formats demo_format demo_args [97; 98; 99; 61; 32; 32; 45; 55].
Proof.
  apply (formats_directive (Syntax false [] false false 0 115) [61; 37; 52; 100] _ [AInt (-7)] [97; 98; 99]); [solve_well_formed|vm_compute; reflexivity|].
  apply (formats_char 61); [done|]. apply (formats_directive (Syntax false [52] false false 0 100) [] _ [] [32; 32; 45; 55] []); [solve_well_formed|vm_compute; reflexivity|constructor].
Qed.

Lemma VSNPrintf_correct_witness : VSNPrintf 6 demo_format demo_args = Ok ([97; 98; 99; 61; 32; 0], 8) ∧ VSNPrintf 6 demo_format [] ≠ Fault OutOfFuel.
Proof.
  split; [|apply (VSNPrintf_correct 6 demo_format []); lia].
  apply (proj1 (VSNPrintf_correct 6 demo_format demo_args ltac:(lia))). exists [97; 98; 99; 61; 32; 32; 45; 55]. split; [apply demo_formats|]. split; [cbn; lia|]. by split.
Defined.

(** ** Reading back what was printed *)
Lemma decimal_numeral v : 0 ≤ v < 10 ^ 19 → Forall (λ d, IsDigit d = true) (numeral 10 v false) ∧ decimal (numeral 10 v false) = v ∧ numeral 10 v false ≠ [] ∧ (length (numeral 10 v false) ≤ 19)%nat.
Proof.
  intros Hv. destruct (to_digits_facts 10 19 v) as (Hd & Hlen & Hmore & Hf & d & ds & Ed & _); [lia..|]. unfold numeral. rewrite (Hmore 64%nat) by lia.
  assert (∀ d, 0 ≤ d < 10 → digit false d = 48 + d) as Hc by (intros c Hc; unfold digit; rewrite decide_True by lia; done).
  split; [|split; [|split; [by rewrite Ed|by rewrite length_fmap]]].
  - rewrite Forall_fmap. eapply Forall_impl; [exact Hd|]. intros c Hr. cbn beta in Hr. unfold compose. rewrite Hc by done. apply IsDigit_iff. lia.
  - rewrite <- Hf at 2. unfold decimal. clear Hlen Hmore Hf Ed. generalize 0 at 1 2. induction Hd as [|c l Hr _ IH]; intros a; [done|].
    cbn [fmap list_fmap fold_left]. rewrite Hc by done. replace (a * 10 + (48 + c - 48)) with (a * 10 + c) by lia. apply IH.
Qed.

(** "%lld". *)
Definition format_lld : list Z := [37; 108; 108; 100].

Lemma signed_64 v : - 2 ^ 63 ≤ v < 2 ^ 63 → signed 64 v = v.
Proof.
  intros Hv. unfold signed, cast. destruct (decide (0 ≤ v)); [rewrite Z.mod_small by lia; by rewrite (proj2 (Z.ltb_lt v _)) by lia|].
  rewrite <- (Z_mod_plus_full v 1), Z.mod_small by lia. rewrite (proj2 (Z.ltb_ge _ _)); lia.
Qed.

Definition lld_text (v : Z) : list Z := (if decide (v < 0) then [45] else []) ++ numeral 10 (Z.abs v) false.

Lemma formats_lld v : - 2 ^ 63 < v < 2 ^ 63 → formats format_lld [AInt v] (lld_text v).
Proof.
  intros Hv. rewrite <- (app_nil_r (lld_text v)). apply (formats_directive (Syntax false [] false false 2 100) [] _ []); [solve_well_formed| |constructor].
  unfold text_of. cbn [precision_of s_star mbind option_bind s_width s_conv s_left s_z s_l]. rewrite !(decide_False (P := _ = 115)), (decide_False (P := _ ∧ _)), (decide_False (P := _ ∨ _)), (decide_True (P := 100 = 100)) by (done || tauto || lia).
  change (if false || bool_decide _ then _ else _) with 64. rewrite signed_64 by lia. change (decimal [] mod 256) with 0. rewrite decide_True by lia. do 2 f_equal.
  unfold number_text, lld_text. change (bool_decide (head [] = Some 48)) with false. generalize (numeral 10 (Z.abs v) false). intros ds. destruct (decide (v < 0)); [rewrite bool_decide_eq_true_2 by done|rewrite bool_decide_eq_false_2 by done]; done.
Qed.

(** [C39] A number printed with [%lld] into a buffer of at least 21 bytes is read back by
    [internal_simple_strtoll]: for every [s64] but the least, whose negation overflows in
    [AppendSignedDecimal]. *)
Theorem printf_strtoll_roundtrip n v : 21 ≤ n < 2 ^ 31 → - 2 ^ 63 ≤ v < 2 ^ 63 →
  match internal_snprintf n format_lld [AInt v] with
  | Ok (buffer, len) => v ≠ - 2 ^ 63 ∧ ∃ text, buffer = text ++ [0] ∧ len = Z.of_nat (length text) ∧
      ∀ m p, cstr m p text → internal_simple_strtoll m p 10 = Ok (v, p + len)
  | Fault e => v = - 2 ^ 63 ∧ e = SignedOverflow
  end.
Proof.
  intros Hn Hv. assert (signed 32 n = n) as En by (unfold signed, cast; rewrite Z.mod_small by lia; by rewrite (proj2 (Z.ltb_lt n _)) by lia).
  unfold internal_snprintf. rewrite En. destruct (Z.eq_dec v (- 2 ^ 63)) as [->|Hne].
  { unfold VSNPrintf. rewrite (proj2 (Z.ltb_lt 0 n)) by lia. split; reflexivity. }
  destruct (VSNPrintf_spec n format_lld [AInt v] ltac:(lia)) as [(t & Ht & ->)|(Hno & _)]; [|destruct (Hno _ (formats_lld v ltac:(lia)))].
  assert (lld_text v = t) as <- by (apply Ht, formats_lld; lia). destruct (decimal_numeral (Z.abs v)) as (Hd & Hval & Hnn & Hlen); [lia|].
  assert (length (lld_text v) ≤ 20)%nat as Hl20 by (unfold lld_text; rewrite length_app; destruct (decide (v < 0)); cbn [length]; lia).
  rewrite (proj2 (Z.ltb_lt _ _)) by lia. split; [done|]. exists (lld_text v). rewrite take_ge by lia. split; [done|]. split; [done|]. intros m p Hc. unfold lld_text in *.
  set (ds := numeral 10 (Z.abs v) false) in *. destruct (decide (v < 0)); cbn [app] in *.
  - rewrite (strtoll_spec m p [] Minus ds 0 [] (45 :: ds)); try done. rewrite bool_decide_eq_false_2 by done. rewrite Hval.
    unfold clamp64, INT64_MIN, INT64_MAX. cbn [sign_of sign_chars length]. do 2 f_equal; lia.
  - rewrite (strtoll_spec m p [] NoSign ds 0 [] ds); try done. rewrite bool_decide_eq_false_2 by done. rewrite Hval.
    unfold clamp64, INT64_MIN, INT64_MAX. cbn [sign_of sign_chars length]. do 2 f_equal; lia.
Qed.

Lemma printf_strtoll_roundtrip_witness :
  match internal_snprintf 21 format_lld [AInt (-42)] with
  | Ok (buffer, len) => -42 ≠ - 2 ^ 63 ∧ ∃ text, buffer = text ++ [0] ∧ len = Z.of_nat (length text) ∧
      ∀ m p, cstr m p text → internal_simple_strtoll m p 10 = Ok (-42, p + len)
  | Fault e => -42 = - 2 ^ 63 ∧ e = SignedOverflow
  end.
Proof. apply (printf_strtoll_roundtrip 21 (-42)); lia. Defined.

End Printf.
