(* ===== verification/ThreadRegistry.v ===== *)
(** * ThreadRegistry: the life of threads

    Models [sanitizer_thread_registry.h] and [sanitizer_thread_registry.cpp].  A
    pointer to a thread context is its index in [threads_] (contexts are never
    freed); the two intrusive lists are lists of these, which [IntrusiveList.v] justifies; the map
    [live_] is any implementation of the interface of [DenseMap.v].  The virtual
    hooks of the contexts and the warnings of the registry are recorded in a log.  The
    mutex of the registry makes each operation atomic; one round of the loop of
    [JoinThread] is an operation, since the lock is released between rounds. *)
From S2P Require Import Prelude Common DenseMap Libc.
Import Libc.

Module Registry.

Inductive ThreadStatus := Invalid | Created | Running | Finished | Dead.
Inductive ThreadType := Regular | Worker | Fiber.

#[export] Instance ThreadStatus_eq_dec : EqDecision ThreadStatus.
Proof. solve_decision. Defined.

Abbreviation kInvalidTid := (2 ^ 32 - 1) (only parsing).
Abbreviation kMainTid := (0) (only parsing).
Abbreviation kNameSize := (64) (only parsing).

Record ThreadContextBase := mkCtx {
  tid : Z; unique_id : Z; reuse_count : Z; os_id : Z; user_id : Z; name : list Z;
  status : ThreadStatus; detached : bool; thread_type : ThreadType; parent_tid : Z; thread_destroyed : bool
}.
Implicit Types (c : ThreadContextBase).

(** The hooks that subclasses override, with the argument they are given, and the
    warnings about threads that do not exist. *)
Inductive event :=
  | OnDead (t : Z) | OnJoined (t arg : Z) | OnFinished (t : Z) | OnStarted (t arg : Z) | OnCreated (t arg : Z)
  | OnReset (t : Z) | OnDetached (t arg : Z) | DetachOfNonExistent (t : Z) | JoinOfNonExistent (t : Z).

Definition set_status c s := mkCtx (tid c) (unique_id c) (reuse_count c) (os_id c) (user_id c) (name c) s (detached c) (thread_type c) (parent_tid c) (thread_destroyed c).
Definition set_user c u := mkCtx (tid c) (unique_id c) (reuse_count c) (os_id c) u (name c) (status c) (detached c) (thread_type c) (parent_tid c) (thread_destroyed c).
Definition set_name c n := mkCtx (tid c) (unique_id c) (reuse_count c) (os_id c) (user_id c) n (status c) (detached c) (thread_type c) (parent_tid c) (thread_destroyed c).
Definition set_detached c b := mkCtx (tid c) (unique_id c) (reuse_count c) (os_id c) (user_id c) (name c) (status c) b (thread_type c) (parent_tid c) (thread_destroyed c).
Definition set_destroyed c b := mkCtx (tid c) (unique_id c) (reuse_count c) (os_id c) (user_id c) (name c) (status c) (detached c) (thread_type c) (parent_tid c) b.
Definition set_reuse c n := mkCtx (tid c) (unique_id c) n (os_id c) (user_id c) (name c) (status c) (detached c) (thread_type c) (parent_tid c) (thread_destroyed c).

(** ** Contexts *)
Definition new_context (t : Z) : ThreadContextBase :=
  mkCtx t 0 0 0 0 (replicate (Z.to_nat kNameSize) 0) Invalid false Regular 0 false.

(** The buffer and the new name, at the addresses 0 and 64 of a memory of their own. *)
Definition SetName c (new_name : option (list Z)) : result ThreadContextBase :=
  n ← aset (name c) 0 0;
  n ← match new_name with
      | Some s =>
          m ← internal_strncpy 0 (n ++ s ++ [0]) 0 kNameSize kNameSize;
          aset (take (Z.to_nat kNameSize) m) (kNameSize - 1) 0
      | None => Ok n
      end;
  Ok (set_name c n).

Definition SetDead c : result (ThreadContextBase * list event) :=
  CHECK (bool_decide (status c = Running) || bool_decide (status c = Finished));;
  Ok (set_user (set_status c Dead) 0, [OnDead (tid c)]).

Definition SetDestroyed c : ThreadContextBase := set_destroyed c true.
Abbreviation GetDestroyed c := (thread_destroyed c) (only parsing).

Definition SetJoined c (arg : Z) : result (ThreadContextBase * list event) :=
  CHECK (negb (detached c));;
  CHECK (bool_decide (status c = Finished));;
  Ok (set_user (set_status c Dead) 0, [OnJoined (tid c) arg]).

Definition SetFinished c : ThreadContextBase * list event :=
  (if negb (detached c) || bool_decide (status c = Created) then set_status c Finished else c, [OnFinished (tid c)]).

Definition SetStarted c (os : Z) (type : ThreadType) (arg : Z) : ThreadContextBase * list event :=
  (mkCtx (tid c) (unique_id c) (reuse_count c) os (user_id c) (name c) Running (detached c) type (parent_tid c) (thread_destroyed c),
   [OnStarted (tid c) arg]).

Definition SetCreated c (user unique : Z) (det : bool) (parent arg : Z) : ThreadContextBase * list event :=
  (mkCtx (tid c) unique (reuse_count c) (os_id c) user (name c) Created det (thread_type c)
     (if negb (tid c =? kMainTid) then parent else parent_tid c) (thread_destroyed c),
   [OnCreated (tid c) arg]).

Definition Reset c : result (ThreadContextBase * list event) :=
  c ← SetName (set_status c Invalid) None;
  Ok (set_destroyed c false, [OnReset (tid c)]).

(** ** The registry *)
Section Ops.
Context {M : Type} `{MapOps M Z Z}.

Record ThreadRegistry := mkReg {
  max_threads_ : Z; thread_quarantine_size_ : Z; max_reuse_ : Z;
  total_threads_ : Z; alive_threads_ : Z; max_alive_threads_ : Z; running_threads_ : Z;
  threads_ : list ThreadContextBase; dead_threads_ : list Z; invalid_threads_ : list Z;
  live_ : M; log_ : list event
}.
Implicit Types (r : ThreadRegistry).

Definition new_ThreadRegistry (max_threads thread_quarantine_size max_reuse : Z) : ThreadRegistry :=
  mkReg max_threads thread_quarantine_size max_reuse 0 0 0 0 [] [] [] map_new [].
(** The constructor with only a factory: no limits. *)
Abbreviation default_ThreadRegistry := (new_ThreadRegistry (2 ^ 32 - 1) (2 ^ 32 - 1) 0) (only parsing).

Definition set_counts r (total alive max_alive running : Z) : ThreadRegistry :=
  mkReg (max_threads_ r) (thread_quarantine_size_ r) (max_reuse_ r) total alive max_alive running
    (threads_ r) (dead_threads_ r) (invalid_threads_ r) (live_ r) (log_ r).
Definition set_lists r (ts : list ThreadContextBase) (dead invalid : list Z) (evs : list event) : ThreadRegistry :=
  mkReg (max_threads_ r) (thread_quarantine_size_ r) (max_reuse_ r) (total_threads_ r) (alive_threads_ r) (max_alive_threads_ r)
    (running_threads_ r) ts dead invalid (live_ r) (log_ r ++ evs).
Definition set_live r (m : M) : ThreadRegistry :=
  mkReg (max_threads_ r) (thread_quarantine_size_ r) (max_reuse_ r) (total_threads_ r) (alive_threads_ r) (max_alive_threads_ r)
    (running_threads_ r) (threads_ r) (dead_threads_ r) (invalid_threads_ r) m (log_ r).

Definition num_threads r : Z := Z.of_nat (length (threads_ r)).

(** [threads_[i]], and writing the context back. *)
Definition get_thread r (i : Z) : result ThreadContextBase := CHECK (i <? num_threads r);; aget (threads_ r) i.
Definition put_thread r (i : Z) (ce : ThreadContextBase * list event) : result ThreadRegistry :=
  ts ← aset (threads_ r) i ce.1; Ok (set_lists r ts (dead_threads_ r) (invalid_threads_ r) ce.2).

Definition GetThreadLocked r (t : Z) : result (option ThreadContextBase) :=
  match threads_ r with [] => Ok None | _ => c ← get_thread r t; Ok (Some c) end.
Definition NumThreadsLocked r : Z := u32 (num_threads r).

(** The three numbers: total, running and alive. *)
Definition GetNumberOfThreads r : Z * Z * Z := (num_threads r, running_threads_ r, alive_threads_ r).
Definition GetMaxAliveThreads r : Z := max_alive_threads_ r.

Definition QuarantinePush r (i : Z) : result ThreadRegistry :=
  c ← get_thread r i;
  if tid c =? 0 then Ok r
  else
    let r := set_lists r (threads_ r) (dead_threads_ r ++ [i]) (invalid_threads_ r) [] in
    if Z.of_nat (length (dead_threads_ r)) <=? thread_quarantine_size_ r then Ok r
    else
      match dead_threads_ r with
      | [] => Fault CheckFailed
      | j :: dead =>
          let r := set_lists r (threads_ r) dead (invalid_threads_ r) [] in
          c ← get_thread r j;
          CHECK (bool_decide (status c = Dead));;
          '(c, evs) ← Reset c;
          let c := set_reuse c (u32 (reuse_count c + 1)) in
          r ← put_thread r j (c, evs);
          if (0 <? max_reuse_ r) && (max_reuse_ r <=? reuse_count c) then Ok r
          else Ok (set_lists r (threads_ r) (dead_threads_ r) (invalid_threads_ r ++ [j]) [])
      end.

Definition QuarantinePop r : ThreadRegistry * option Z :=
  match invalid_threads_ r with
  | [] => (r, None)
  | i :: invalid => (set_lists r (threads_ r) (dead_threads_ r) invalid [], Some i)
  end.

(** A context to reuse or a new one; [Die()] when the limit is exceeded. *)
Definition pick_context r : result (ThreadRegistry * Z) :=
  let '(r, popped) := QuarantinePop r in
  match popped with
  | Some i => Ok (r, i)
  | None =>
      if num_threads r <? max_threads_ r then
        Ok (set_lists r (threads_ r ++ [new_context (u32 (num_threads r))]) (dead_threads_ r) (invalid_threads_ r) [], num_threads r)
      else Fault CheckFailed
  end.

Definition create_in r (i : Z) (user : Z) (det : bool) (parent arg : Z) : result (ThreadRegistry * Z) :=
  c ← get_thread r i;
  let t := tid c in
  CHECK (negb (t =? kInvalidTid));;
  CHECK (t <? max_threads_ r);;
  CHECK (bool_decide (status c = Invalid));;
  let alive := u64 (alive_threads_ r + 1) in
  max_alive ← (if max_alive_threads_ r <? alive then
                 let max_alive := u64 (max_alive_threads_ r + 1) in
                 CHECK (alive =? max_alive);; Ok max_alive
               else Ok (max_alive_threads_ r));
  live ← (if negb (user =? 0) then
            '(live, _, inserted) ← map_try_emplace (live_ r) user t;
            CHECK inserted;; Ok live
          else Ok (live_ r));
  let unique := total_threads_ r in
  let r := set_live (set_counts r (u64 (total_threads_ r + 1)) alive max_alive (running_threads_ r)) live in
  r ← put_thread r i (SetCreated c user unique det parent arg);
  Ok (r, t).

Definition CreateThread r (user : Z) (det : bool) (parent arg : Z) : result (ThreadRegistry * Z) :=
  '(r, i) ← pick_context r; create_in r i user det parent arg.

(** The callbacks are arguments: a step on a state of the caller, a test. *)
Definition RunCallbackForEachThreadLocked {S} r (cb : ThreadContextBase → S → S) (s : S) : result S :=
  for_range 0 (num_threads r) (λ t s, c ← get_thread r t; Ok (cb c s)) s.

Definition FindThread r (cb : ThreadContextBase → bool) : result Z :=
  res ← find_range 0 (num_threads r) (λ t, c ← get_thread r t; Ok (if cb c then Some (tid c) else None));
  Ok (default kInvalidTid res).

Definition FindThreadContextLocked r (cb : ThreadContextBase → bool) : result (option ThreadContextBase) :=
  find_range 0 (num_threads r) (λ t, c ← get_thread r t; Ok (if cb c then Some c else None)).

Definition FindThreadContextByOsIdCallback (os : Z) c : bool :=
  (os_id c =? os) && negb (bool_decide (status c = Invalid)) && negb (bool_decide (status c = Dead)).
Definition FindThreadContextByOsIDLocked r (os : Z) : result (option ThreadContextBase) :=
  FindThreadContextLocked r (FindThreadContextByOsIdCallback os).

Definition SetThreadName r (t : Z) (nm : option (list Z)) : result ThreadRegistry :=
  c ← get_thread r t;
  CHECK (bool_decide (status c = Running));;
  c ← SetName c nm;
  put_thread r t (c, []).

Definition SetThreadNameByUserId r (user : Z) (nm : option (list Z)) : result ThreadRegistry :=
  res ← map_get (live_ r) user;
  match res with
  | Some t => c ← get_thread r t; c ← SetName c nm; put_thread r t (c, [])
  | None => Ok r
  end.

(** [if (tctx->user_id) live_.erase(tctx->user_id)]. *)
Definition erase_user r c : result ThreadRegistry :=
  if negb (user_id c =? 0) then '(live, _) ← map_erase (live_ r) (user_id c); Ok (set_live r live) else Ok r.

Definition DetachThread r (t arg : Z) : result ThreadRegistry :=
  c ← get_thread r t;
  if bool_decide (status c = Invalid) then Ok (set_lists r (threads_ r) (dead_threads_ r) (invalid_threads_ r) [DetachOfNonExistent t])
  else
    r ← put_thread r t (c, [OnDetached (tid c) arg]);
    if bool_decide (status c = Finished) then
      r ← erase_user r c;
      ce ← SetDead c;
      r ← put_thread r t ce;
      QuarantinePush r t
    else put_thread r t (set_detached c true, []).

(** One round of the loop: [true] when it is the last. *)
Definition JoinThread r (t arg : Z) : result (ThreadRegistry * bool) :=
  c ← get_thread r t;
  if bool_decide (status c = Invalid) then Ok (set_lists r (threads_ r) (dead_threads_ r) (invalid_threads_ r) [JoinOfNonExistent t], true)
  else if GetDestroyed c then
    r ← erase_user r c;
    ce ← SetJoined c arg;
    r ← put_thread r t ce;
    r ← QuarantinePush r t;
    Ok (r, true)
  else Ok (r, false).

Definition FinishThread r (t : Z) : result (ThreadRegistry * ThreadStatus) :=
  CHECK (0 <? alive_threads_ r);;
  let r := set_counts r (total_threads_ r) (alive_threads_ r - 1) (max_alive_threads_ r) (running_threads_ r) in
  c ← get_thread r t;
  let prev_status := status c in
  '(r, dead) ← (if bool_decide (status c = Running) then
                  CHECK (0 <? running_threads_ r);;
                  Ok (set_counts r (total_threads_ r) (alive_threads_ r) (max_alive_threads_ r) (running_threads_ r - 1), detached c)
                else CHECK (bool_decide (status c = Created));; Ok (r, true));
  let '(c, evs) := SetFinished c in
  r ← put_thread r t (c, evs);
  r ← (if dead : bool then
         r ← erase_user r c;
         ce ← SetDead c;
         r ← put_thread r t ce;
         QuarantinePush r t
       else Ok r);
  c ← get_thread r t;
  r ← put_thread r t (SetDestroyed c, []);
  Ok (r, prev_status).

Definition StartThread r (t os : Z) (type : ThreadType) (arg : Z) : result ThreadRegistry :=
  let r := set_counts r (total_threads_ r) (alive_threads_ r) (max_alive_threads_ r) (u64 (running_threads_ r + 1)) in
  c ← get_thread r t;
  CHECK (bool_decide (status c = Created));;
  put_thread r t (SetStarted c os type arg).

Definition ConsumeThreadUserId r (user : Z) : result (ThreadRegistry * Z) :=
  '(live, res) ← map_take (live_ r) user;
  match res with
  | None => Fault CheckFailed
  | Some t =>
      let r := set_live r live in
      c ← get_thread r t;
      CHECK (user_id c =? user);;
      r ← put_thread r t (set_user c 0, []);
      Ok (r, t)
  end.

Definition SetThreadUserId r (t user : Z) : result ThreadRegistry :=
  c ← get_thread r t;
  CHECK (negb (bool_decide (status c = Invalid)));;
  CHECK (negb (bool_decide (status c = Dead)));;
  CHECK (user_id c =? 0);;
  r ← put_thread r t (set_user c user, []);
  '(live, _, inserted) ← map_try_emplace (live_ r) user (tid c);
  CHECK inserted;;
  Ok (set_live r live).

Definition OnFork r (t : Z) : result (ThreadRegistry * Z) :=
  r ← for_range 0 (num_threads r) (λ i r,
    c ← get_thread r i;
    if (tid c =? t) || (user_id c =? 0) then Ok r
    else
      '(live, erased) ← map_erase (live_ r) (user_id c);
      CHECK erased;;
      put_thread (set_live r live) i (set_user c 0, [])) r;
  Ok (r, u32 (alive_threads_ r)).

End Ops.
Arguments ThreadRegistry : clear implicits.

(** ** The invariant *)
Definition is_alive c : Z := match status c with Created | Running => 1 | _ => 0 end.
Definition is_running c : Z := match status c with Running => 1 | _ => 0 end.

(** What the status of a context says about its other fields. *)
Record ctx_ok c : Prop := {
  co_status : match status c with
    | Invalid => user_id c = 0 ∧ thread_destroyed c = false
    | Created | Running => thread_destroyed c = false
    | Finished => thread_destroyed c = true ∧ detached c = false
    | Dead => user_id c = 0
    end;
  co_name : Z.of_nat (length (name c)) = kNameSize ∧ Forall is_byte (name c)
}.

Section Invariant.
Implicit Types (ts : list ThreadContextBase) (g : gmap Z Z) (dead invalid : list Z) (X : gset Z).

Definition thread_at ts (i : Z) c : Prop := 0 ≤ i ∧ ts !! Z.to_nat i = Some c.

Definition tids_ok ts : Prop := ∀ i c, thread_at ts i c → tid c = i.

(** The map of user ids is exact. *)
Definition users_ok ts g : Prop := ∀ u t, g !! u = Some t ↔ u ≠ 0 ∧ ∃ c, thread_at ts t c ∧ user_id c = u.

(** A context that was reused as often as allowed. *)
Definition retired (max_reuse : Z) c : Prop := 0 < max_reuse ≤ reuse_count c.

(** The lists of the registry: the dead threads but the main one and those of [X],
    which are about to be pushed, and the contexts that can be reused. *)
Record lists_ok (max_reuse : Z) ts dead invalid X : Prop := {
  lo_dead_nodup : NoDup dead;
  lo_dead i : i ∈ dead ↔ 0 < i ∧ i ∉ X ∧ ∃ c, thread_at ts i c ∧ status c = Dead;
  lo_invalid_nodup : NoDup invalid;
  lo_invalid i : i ∈ invalid → ∃ c, thread_at ts i c ∧ status c = Invalid;
  lo_reusable i c : thread_at ts i c → status c = Invalid → i ∈ invalid ∨ retired max_reuse c
}.

Definition uniques_ok ts (total : Z) : Prop :=
  NoDup (unique_id <$> ts) ∧ ∀ c, c ∈ ts → 0 ≤ unique_id c < total.

Lemma thread_at_insert ts i c c' j d : thread_at ts i c →
  thread_at (<[Z.to_nat i := c']> ts) j d ↔ (j = i ∧ d = c') ∨ (j ≠ i ∧ thread_at ts j d).
Proof.
  intros [Hi Hc]. pose proof (lookup_lt_Some _ _ _ Hc). unfold thread_at. destruct (decide (j = i)) as [->|Hne].
  - rewrite list_lookup_insert_eq by done. naive_solver.
  - split.
    + intros [Hj Hd]. rewrite list_lookup_insert_ne in Hd by lia. auto.
    + intros [[? _]|[_ [Hj Hd]]]; [done|]. split; [done|]. rewrite list_lookup_insert_ne by lia. done.
Qed.

Lemma thread_at_fun ts i c d : thread_at ts i c → thread_at ts i d → c = d.
Proof. intros [_ H1] [_ H2]. congruence. Qed.

Lemma tids_insert ts i c c' : tids_ok ts → thread_at ts i c → tid c' = tid c → tids_ok (<[Z.to_nat i := c']> ts).
Proof. intros Ht Hc E j d Hj. apply (thread_at_insert _ _ _ _ _ _ Hc) in Hj as [[-> ->]|[_ Hj]]; [rewrite E|]; by apply Ht. Qed.

Lemma users_same ts g i c c' : users_ok ts g → thread_at ts i c → user_id c' = user_id c → users_ok (<[Z.to_nat i := c']> ts) g.
Proof.
  intros Hu Hc E u t. rewrite (Hu u t). f_equiv. split; intros (d & Hd & <-).
  - destruct (decide (t = i)) as [->|Hne].
    + rewrite (thread_at_fun _ _ _ _ Hd Hc). exists c'. split; [|done]. apply (thread_at_insert _ _ _ _ _ _ Hc). by left.
    + exists d. split; [|done]. apply (thread_at_insert _ _ _ _ _ _ Hc). by right.
  - apply (thread_at_insert _ _ _ _ _ _ Hc) in Hd as [[-> ->]|[_ Hd]]; [exists c|exists d]; done.
Qed.

Lemma users_clear ts g i c c' : users_ok ts g → thread_at ts i c → user_id c' = 0 → users_ok (<[Z.to_nat i := c']> ts) (delete (user_id c) g).
Proof.
  intros Hu Hc E u t. rewrite lookup_delete_Some, (Hu u t). split.
  - intros (Hne & Hu0 & d & Hd & <-). split; [done|]. exists d. split; [|done]. apply (thread_at_insert _ _ _ _ _ _ Hc). right. split; [|done].
    intros ->. by rewrite (thread_at_fun _ _ _ _ Hd Hc) in Hne.
  - intros (Hu0 & d & Hd & <-). apply (thread_at_insert _ _ _ _ _ _ Hc) in Hd as [[-> ->]|[Hne Hd]]; [done|]. split; [|by eauto].
    intros Eu. apply Hne. assert (g !! user_id d = Some t) as H1 by (apply Hu; eauto). assert (g !! user_id d = Some i) as H2; [|congruence].
    apply Hu. split; [done|]. exists c. auto.
Qed.

Lemma users_add ts g i c c' : users_ok ts g → thread_at ts i c → user_id c = 0 → user_id c' ≠ 0 → g !! user_id c' = None →
  users_ok (<[Z.to_nat i := c']> ts) (<[user_id c' := i]> g).
Proof.
  intros Hu Hc E0 Hne Hnone u t. rewrite lookup_insert_Some, (Hu u t). split.
  - intros [[<- <-]|(Hnu & Hu0 & d & Hd & <-)].
    + split; [done|]. exists c'. split; [|done]. apply (thread_at_insert _ _ _ _ _ _ Hc). by left.
    + split; [done|]. exists d. split; [|done]. apply (thread_at_insert _ _ _ _ _ _ Hc). right. split; [|done]. intros ->.
      by rewrite (thread_at_fun _ _ _ _ Hd Hc) in Hu0.
  - intros (Hu0 & d & Hd & <-). apply (thread_at_insert _ _ _ _ _ _ Hc) in Hd as [[-> ->]|[Hni Hd]]; [by left|].
    right. split; [|eauto]. intros Eu. rewrite Eu in Hnone. assert (g !! user_id d = Some t); [|congruence]. apply Hu. eauto.
Qed.

(** A context neither dead nor invalid before and after. *)
Lemma lists_other mr ts dead invalid X i c c' : lists_ok mr ts dead invalid X → thread_at ts i c →
  (status c' = Dead ↔ status c = Dead) → (status c' = Invalid ↔ status c = Invalid) → reuse_count c' = reuse_count c →
  lists_ok mr (<[Z.to_nat i := c']> ts) dead invalid X.
Proof.
  intros [Hdn Hd Hin Hi Hr] Hc ED EI Er. split; [done| |done| |].
  - intros j. rewrite Hd. do 2 f_equiv. split; intros (d & Hj & Es).
    + destruct (decide (j = i)) as [->|Hne].
      * exists c'. split; [apply (thread_at_insert _ _ _ _ _ _ Hc); by left|]. apply ED. by rewrite <- (thread_at_fun _ _ _ _ Hj Hc).
      * exists d. split; [apply (thread_at_insert _ _ _ _ _ _ Hc); by right|done].
    + apply (thread_at_insert _ _ _ _ _ _ Hc) in Hj as [[-> ->]|[_ Hj]]; [exists c; tauto|exists d; done].
  - intros j Hj. destruct (Hi j Hj) as (d & Hd' & Es). destruct (decide (j = i)) as [->|Hne].
    + exists c'. split; [apply (thread_at_insert _ _ _ _ _ _ Hc); by left|]. apply EI. by rewrite <- (thread_at_fun _ _ _ _ Hd' Hc).
    + exists d. split; [apply (thread_at_insert _ _ _ _ _ _ Hc); by right|done].
  - intros j d Hj Es. apply (thread_at_insert _ _ _ _ _ _ Hc) in Hj as [[-> ->]|[_ Hj]]; [|by apply Hr].
    unfold retired. rewrite Er. apply (Hr i c); tauto.
Qed.

(** A context that dies, before it is pushed. *)
Lemma lists_die mr ts dead invalid i c c' : lists_ok mr ts dead invalid ∅ → thread_at ts i c →
  status c ≠ Dead → status c ≠ Invalid → status c' = Dead → lists_ok mr (<[Z.to_nat i := c']> ts) dead invalid {[i]}.
Proof.
  intros [Hdn Hd Hin Hi Hr] Hc ED EI Ed. split; [done| |done| |].
  - intros j. rewrite Hd. split.
    + intros (Hj & _ & d & Hj' & Es). assert (j ≠ i) by (intros ->; by rewrite (thread_at_fun _ _ _ _ Hj' Hc) in Es).
      split; [done|]. split; [set_solver|]. exists d. split; [apply (thread_at_insert _ _ _ _ _ _ Hc); by right|done].
    + intros (Hj & Hx & d & Hj' & Es). apply (thread_at_insert _ _ _ _ _ _ Hc) in Hj' as [[-> ->]|[_ Hj']]; [set_solver|]. split; [done|]. split; [set_solver|]. eauto.
  - intros j Hj. destruct (Hi j Hj) as (d & Hd' & Es). exists d. split; [|done]. apply (thread_at_insert _ _ _ _ _ _ Hc). right. split; [|done].
    intros ->. by rewrite (thread_at_fun _ _ _ _ Hd' Hc) in Es.
  - intros j d Hj Es. apply (thread_at_insert _ _ _ _ _ _ Hc) in Hj as [[-> ->]|[_ Hj]]; [congruence|by apply Hr].
Qed.

Lemma uniques_same ts total i c c' : uniques_ok ts total → thread_at ts i c → unique_id c' = unique_id c → uniques_ok (<[Z.to_nat i := c']> ts) total.
Proof.
  intros [Hn Hr] [Hi Hc] E. split.
  - rewrite list_fmap_insert, E, list_insert_id; [done|]. by rewrite list_lookup_fmap, Hc.
  - intros d [k Hk]%list_elem_of_lookup_1. apply list_lookup_insert_Some in Hk as [(_ & <- & _)|(_ & Hk)]; [rewrite E; apply Hr; by eapply list_elem_of_lookup_2|].
    apply Hr. by eapply list_elem_of_lookup_2.
Qed.

(** A context gets an id that no other one had. *)
Lemma uniques_fresh ts total i c c' : uniques_ok ts total → thread_at ts i c → 0 ≤ total → unique_id c' = total → uniques_ok (<[Z.to_nat i := c']> ts) (total + 1).
Proof.
  intros [Hn Hr] [Hi Hc] Htot E. assert (total ∉ (unique_id <$> ts)) as Hfresh by (intros (d & Hd & Hin)%list_elem_of_fmap; apply Hr in Hin; lia).
  pose proof (lookup_lt_Some _ _ _ Hc). split.
  - rewrite list_fmap_insert, E, insert_take_drop by (rewrite length_fmap; lia).
    assert (unique_id <$> ts = take (Z.to_nat i) (unique_id <$> ts) ++ unique_id c :: drop (S (Z.to_nat i)) (unique_id <$> ts)) as Es.
    { symmetry. apply take_drop_middle. by rewrite list_lookup_fmap, Hc. }
    rewrite Es in Hn, Hfresh. rewrite elem_of_app, elem_of_cons in Hfresh. rewrite NoDup_app, NoDup_cons in Hn |- *.
    destruct Hn as (H1 & H2 & H3 & H4). split; [done|]. split; [|split; [naive_solver|done]].
    intros x Hx. rewrite elem_of_cons. intros [->|Hx']; [naive_solver|]. apply (H2 x Hx). rewrite elem_of_cons. by right.
  - intros d [k Hk]%list_elem_of_lookup_1. apply list_lookup_insert_Some in Hk as [(_ & <- & _)|(_ & Hk)]; [lia|].
    apply list_elem_of_lookup_2, Hr in Hk. lia.
Qed.

(** The front of the reusable contexts is taken. *)
Lemma lists_reuse mr ts dead i invalid c c' : lists_ok mr ts dead (i :: invalid) ∅ → thread_at ts i c → status c' ≠ Invalid → status c' ≠ Dead →
  lists_ok mr (<[Z.to_nat i := c']> ts) dead invalid ∅.
Proof.
  intros [Hdn Hd Hin Hi Hr] Hc NI ND. apply NoDup_cons in Hin as [Hni Hin].
  destruct (Hi i) as (c0 & Hc0 & Es); [apply list_elem_of_here|]. rewrite (thread_at_fun _ _ _ _ Hc0 Hc) in Es. split; [done| |done| |].
  - intros j. rewrite Hd. do 2 f_equiv. split; intros (d & Hj & Ed).
    + exists d. split; [|done]. apply (thread_at_insert _ _ _ _ _ _ Hc). right. split; [|done]. intros ->. rewrite (thread_at_fun _ _ _ _ Hj Hc) in Ed. congruence.
    + apply (thread_at_insert _ _ _ _ _ _ Hc) in Hj as [[-> ->]|[_ Hj]]; [done|eauto].
  - intros j Hj. destruct (Hi j) as (d & Hd' & Ed); [by apply list_elem_of_further|]. exists d. split; [|done].
    apply (thread_at_insert _ _ _ _ _ _ Hc). right. split; [by intros ->|done].
  - intros j d Hj Ed. apply (thread_at_insert _ _ _ _ _ _ Hc) in Hj as [[-> ->]|[Hne Hj]]; [done|].
    destruct (Hr j d Hj Ed) as [Hin'|]; [|by right]. apply elem_of_cons in Hin' as [|]; [done|by left].
Qed.

Lemma thread_at_app ts c j d : thread_at (ts ++ [c]) j d ↔ thread_at ts j d ∨ (j = Z.of_nat (length ts) ∧ d = c).
Proof.
  unfold thread_at. split.
  - intros [Hj Hd]. apply lookup_app_Some in Hd as [Hd|[Hl Hd]]; [by left|]. right. apply list_lookup_singleton_Some in Hd as [? ->]. split; [lia|done].
  - intros [[Hj Hd]|[-> ->]]; (split; [lia|]); [by apply lookup_app_l_Some|]. rewrite Nat2Z.id. by apply list_lookup_middle.
Qed.

End Invariant.

(** ** The life cycle *)
Inductive lifecycle : ThreadStatus → ThreadStatus → Prop :=
  | life_stay st : lifecycle st st
  | life_create : lifecycle Invalid Created
  | life_start : lifecycle Created Running
  | life_finish : lifecycle Running Finished
  | life_exit_detached : lifecycle Running Dead
  | life_never_started : lifecycle Created Dead
  | life_join : lifecycle Finished Dead
  | life_reset : lifecycle Dead Invalid.
#[export] Hint Constructors lifecycle : core.

(** Every thread stays or takes one step of its life; there may be new ones. *)
Definition moves (ts ts' : list ThreadContextBase) : Prop :=
  ∀ i c, thread_at ts i c → ∃ c', thread_at ts' i c' ∧ lifecycle (status c) (status c').

Lemma moves_same ts : moves ts ts.
Proof. intros i c Hc. exists c. auto. Qed.

Lemma moves_insert ts i c c' : thread_at ts i c → lifecycle (status c) (status c') → moves ts (<[Z.to_nat i := c']> ts).
Proof.
  intros Hc Hl j d Hj. destruct (decide (j = i)) as [->|Hne].
  - rewrite (thread_at_fun _ _ _ _ Hj Hc). exists c'. split; [apply (thread_at_insert _ _ _ _ _ _ Hc); by left|done].
  - exists d. split; [apply (thread_at_insert _ _ _ _ _ _ Hc); by right|done].
Qed.

Lemma moves_insert2 ts i c c' j d d' : thread_at ts i c → lifecycle (status c) (status c') → j ≠ i →
  thread_at (<[Z.to_nat i := c']> ts) j d → lifecycle (status d) (status d') → moves ts (<[Z.to_nat j := d']> (<[Z.to_nat i := c']> ts)).
Proof.
  intros Hc Hl Hne Hj Hl2 k e He. destruct (decide (k = j)) as [->|Hkj].
  - exists d'. split; [apply (thread_at_insert _ _ _ _ _ _ Hj); by left|].
    apply (thread_at_insert _ _ _ _ _ _ Hc) in Hj as [[-> _]|[_ Hj]]; [done|]. by rewrite (thread_at_fun _ _ _ _ He Hj).
  - destruct (moves_insert ts i c c' Hc Hl k e He) as (e' & He' & Hle). exists e'. split; [|done]. apply (thread_at_insert _ _ _ _ _ _ Hj). by right.
Qed.

(** ** Names *)
Definition name_ok (n : list Z) : Prop := Z.of_nat (length n) = kNameSize ∧ Forall is_byte n.
Definition is_name (nm : option (list Z)) : Prop := match nm with Some s => Forall (λ b, 0 < b < 256) s | None => True end.

Lemma SetName_ok c nm : name_ok (name c) → is_name nm → ∃ n, SetName c nm = Ok (set_name c n) ∧ name_ok n ∧
  ∀ s, nm = Some s → n = take 63 (s ++ replicate 63 0) ++ [0].
Proof.
  intros [Hl Hb] Hnm. unfold SetName in *. rewrite aset_Ok by lia. cbn [mbind result_bind]. set (n := <[_ := 0]> (name c)).
  assert (Z.of_nat (length n) = 64) as Hln by (unfold n; by rewrite length_insert).
  assert (Forall is_byte n) as Hbn by (unfold n; apply Forall_insert; [done|unfold is_byte; lia]).
  destruct nm as [s'|]; [|exists n; split; [done|]; split; [done|done]]. cbn [is_name] in Hnm.
  assert (Forall is_byte s') as Hbs by (eapply Forall_impl; [done|]; unfold is_byte; cbn; intros; lia).
  assert (Z.of_nat (length (n ++ s' ++ [0])) = 64 + Z.of_nat (length s') + 1) as Hlm by (rewrite !length_app; cbn; lia).
  assert (cstr (n ++ s' ++ [0]) 64 s') as Hcs.
  { split; [unfold inside; lia|done|]. unfold slice. rewrite drop_app_length' by lia. apply take_ge. rewrite length_app. cbn. lia. }
  rewrite (strncpy_spec 0 (n ++ s' ++ [0]) 0 64 s' 64); [|repeat (apply Forall_app; split); try done; repeat constructor; done|done|unfold inside; lia|lia].
  cbn [mbind result_bind]. set (new := take (Z.to_nat 64) s' ++ replicate (Z.to_nat 64 - length s') 0).
  assert (length new = 64%nat) as Hlnew by (unfold new; rewrite length_app, length_take, length_replicate; lia).
  assert (take (Z.to_nat 64) (put (n ++ s' ++ [0]) 0 new) = new) as ->.
  { pose proof (slice_put (n ++ s' ++ [0]) 0 new) as Hs. unfold slice in Hs. rewrite Hlnew in Hs. apply Hs. unfold inside. lia. }
  rewrite aset_Ok by lia. cbn [mbind result_bind]. eexists. split; [done|]. split.
  - split; [rewrite length_insert; lia|]. apply Forall_insert; [|unfold is_byte; lia]. apply Forall_app. split; [by apply Forall_take|].
    apply Forall_replicate. unfold is_byte. lia.
  - intros s [= <-]. change (Z.to_nat (64 - 1)) with 63%nat. rewrite insert_take_drop by lia. rewrite drop_ge by lia. f_equal.
    unfold new. change (Z.to_nat 64) with 64%nat. apply list_eq. intros k. destruct (decide (k < 63)%nat); [|by rewrite !lookup_take_ge by lia].
    rewrite !lookup_take_lt by done. destruct (decide (k < length s')%nat).
    + rewrite !lookup_app_l by (rewrite ?length_take; lia). by rewrite lookup_take_lt by lia.
    + rewrite !lookup_app_r by (rewrite ?length_take; lia). rewrite length_take. rewrite !lookup_replicate_2 by lia. done.
Qed.

(** Comparisons of known statuses. *)
Ltac statuses := repeat match goal with
  | |- context [bool_decide (?a = ?b :> ThreadStatus)] =>
      first [rewrite (bool_decide_true (a = b)) by done | rewrite (bool_decide_false (a = b)) by done]
  end; cbn [andb orb negb CHECK mbind result_bind fst snd].

(** ** The registry invariant *)
Section Registry.
Context {M : Type} {Hops : MapOps M Z Z} {Hmap : MapLaws M Z Z}.
Implicit Types (r : ThreadRegistry M) (g : gmap Z Z) (X : gset Z).

Record reg_inv r g X : Prop := {
  ri_tids : tids_ok (threads_ r);
  ri_len : num_threads r ≤ max_threads_ r ≤ 2 ^ 32 - 1;
  ri_ctx i c : thread_at (threads_ r) i c → ctx_ok c;
  ri_live : map_rep (live_ r) g;
  ri_users : users_ok (threads_ r) g;
  ri_keys u : is_Some (g !! u) → map_key u;
  ri_alive : alive_threads_ r = sumZ is_alive (threads_ r);
  ri_running : running_threads_ r = sumZ is_running (threads_ r);
  ri_max : alive_threads_ r ≤ max_alive_threads_ r ≤ num_threads r;
  ri_lists : lists_ok (max_reuse_ r) (threads_ r) (dead_threads_ r) (invalid_threads_ r) X;
  ri_quarantine : Z.of_nat (length (dead_threads_ r)) ≤ thread_quarantine_size_ r ∧ 1 ≤ thread_quarantine_size_ r;
  ri_unique : uniques_ok (threads_ r) (total_threads_ r) ∧ 0 ≤ total_threads_ r < 2 ^ 64
}.

(** The parameters do not change. *)
Definition same_limits r r' : Prop :=
  max_threads_ r' = max_threads_ r ∧ thread_quarantine_size_ r' = thread_quarantine_size_ r ∧ max_reuse_ r' = max_reuse_ r.

Lemma get_thread_at r i c : thread_at (threads_ r) i c → get_thread r i = Ok c.
Proof.
  intros [Hi Hc]. unfold get_thread, num_threads. pose proof (lookup_lt_Some _ _ _ Hc). rewrite (proj2 (Z.ltb_lt _ _)) by lia.
  cbn [CHECK mbind result_bind]. by apply aget_Ok.
Qed.

Lemma put_thread_at r i c ce : thread_at (threads_ r) i c →
  put_thread r i ce = Ok (set_lists r (<[Z.to_nat i := ce.1]> (threads_ r)) (dead_threads_ r) (invalid_threads_ r) ce.2).
Proof. intros [Hi Hc]. unfold put_thread. pose proof (lookup_lt_Some _ _ _ Hc). by rewrite aset_Ok by lia. Qed.

Lemma thread_exists r t : 0 ≤ t < num_threads r → ∃ c, thread_at (threads_ r) t c.
Proof. intros Ht. unfold num_threads in Ht. destruct (lookup_lt_is_Some_2 (threads_ r) (Z.to_nat t)) as [c Hc]; [lia|]. exists c. split; [lia|done]. Qed.

Lemma alive_le_length (ts : list ThreadContextBase) : 0 ≤ sumZ is_running ts ≤ sumZ is_alive ts ∧ sumZ is_alive ts ≤ Z.of_nat (length ts).
Proof.
  induction ts as [|c ts IH]; cbn [sumZ length]; [lia|].
  assert (0 ≤ is_running c ≤ is_alive c ∧ is_alive c ≤ 1) by (unfold is_running, is_alive; destruct (status c); lia). lia.
Qed.

(** A step that changes one context and possibly the live map. *)
Lemma inv_set r g X i c c' r' g' X' : reg_inv r g X → thread_at (threads_ r) i c →
  threads_ r' = <[Z.to_nat i := c']> (threads_ r) → same_limits r r' → tid c' = tid c → ctx_ok c' →
  map_rep (live_ r') g' → users_ok (threads_ r') g' → (∀ u, is_Some (g' !! u) → map_key u) →
  alive_threads_ r' = alive_threads_ r - is_alive c + is_alive c' → running_threads_ r' = running_threads_ r - is_running c + is_running c' →
  alive_threads_ r' ≤ max_alive_threads_ r' ≤ num_threads r →
  lists_ok (max_reuse_ r) (threads_ r') (dead_threads_ r') (invalid_threads_ r') X' →
  Z.of_nat (length (dead_threads_ r')) ≤ thread_quarantine_size_ r →
  uniques_ok (threads_ r') (total_threads_ r') ∧ 0 ≤ total_threads_ r' < 2 ^ 64 →
  reg_inv r' g' X'.
Proof.
  intros Hinv Hc Et (E1 & E2 & E3) Eid Hok Hl Hu Hk Ha Hr Hm Hls Hq Hun. pose proof Hc as [Hi Hlk].
  split; try done; rewrite ?E1, ?E2, ?E3; unfold num_threads in *; rewrite ?Et, ?length_insert; try apply Hinv; try done.
  - eapply tids_insert; [apply Hinv|done|done].
  - intros j d Hj. apply (thread_at_insert _ _ _ _ _ _ Hc) in Hj as [[-> ->]|[_ Hj]]; [done|by eapply (ri_ctx r)].
  - rewrite (sumZ_insert _ _ _ c) by done. rewrite Ha, (ri_alive _ _ _ Hinv). lia.
  - rewrite (sumZ_insert _ _ _ c) by done. rewrite Hr, (ri_running _ _ _ Hinv). lia.
  - by rewrite <- Et.
  - split; [done|apply Hinv].
Qed.

(** *** The quarantine *)
Definition same_counts r r' : Prop :=
  total_threads_ r' = total_threads_ r ∧ alive_threads_ r' = alive_threads_ r ∧
  max_alive_threads_ r' = max_alive_threads_ r ∧ running_threads_ r' = running_threads_ r.

(** What pushing may do to the contexts: reset another one that is dead. *)
Definition pushed (ts ts' : list ThreadContextBase) (i : Z) : Prop :=
  ts' = ts ∨ ∃ j d d', j ≠ i ∧ thread_at ts j d ∧ status d = Dead ∧ status d' = Invalid ∧ ts' = <[Z.to_nat j := d']> ts.

(** Invariants that differ only in the lists. *)
Lemma inv_lists r g X dead invalid X' evs : reg_inv r g X →
  lists_ok (max_reuse_ r) (threads_ r) dead invalid X' → Z.of_nat (length dead) ≤ thread_quarantine_size_ r →
  reg_inv (set_lists r (threads_ r) dead invalid evs) g X'.
Proof. intros [] Hl Hq. split; try done. split; [done|]. tauto. Qed.

Lemma lists_push_back mr ts dead invalid i c : lists_ok mr ts dead invalid {[i]} → 0 < i → thread_at ts i c → status c = Dead →
  lists_ok mr ts (dead ++ [i]) invalid ∅.
Proof.
  intros [Hdn Hd Hin Hi Hr] Hpos Hc Es. split; try done.
  - apply NoDup_app. split; [done|]. split; [|apply NoDup_singleton]. intros x Hx [= ->]%list_elem_of_singleton. apply Hd in Hx. set_solver.
  - intros x. rewrite elem_of_app, list_elem_of_singleton, Hd. split.
    + intros [(?&?&?)| ->]; [split; [done|]; split; [set_solver|done]|]. split; [done|]. split; [set_solver|]. eauto.
    + intros (?&_&?). destruct (decide (x = i)); [by right|left]. split; [done|]. split; [set_solver|done].
Qed.

(** The front of the quarantine is reset. *)
Lemma lists_reset mr ts j rest invalid d d' : lists_ok mr ts (j :: rest) invalid ∅ → thread_at ts j d → status d = Dead → status d' = Invalid →
  lists_ok mr (<[Z.to_nat j := d']> ts) rest (if bool_decide (retired mr d') then invalid else invalid ++ [j]) ∅.
Proof.
  intros [Hdn Hd Hin Hi Hr] Hj Es Es'. apply NoDup_cons in Hdn as [Hjr Hdn].
  assert (j ∉ invalid) as Hji by (intros (e & He & Ei)%Hi; rewrite (thread_at_fun _ _ _ _ He Hj) in Ei; congruence).
  assert (thread_at (<[Z.to_nat j := d']> ts) j d') as Hj' by (apply (thread_at_insert _ _ _ _ _ _ Hj); by left).
  assert (∀ x, x ∈ invalid → ∃ e, thread_at (<[Z.to_nat j := d']> ts) x e ∧ status e = Invalid) as Hi'.
  { intros x Hx. destruct (Hi x Hx) as (e & He & Ei). exists e. split; [|done]. apply (thread_at_insert _ _ _ _ _ _ Hj). right. split; [by intros ->|done]. }
  split; [done| | | |].
  - intros x. split.
    + intros Hx. destruct (proj1 (Hd x) ltac:(set_solver)) as (Hx0 & _ & e & He & Ee). split; [done|]. split; [set_solver|].
      exists e. split; [|done]. apply (thread_at_insert _ _ _ _ _ _ Hj). right. split; [by intros ->|done].
    + intros (Hx0 & _ & e & He & Ee). apply (thread_at_insert _ _ _ _ _ _ Hj) in He as [[-> ->]|[Hne He]]; [congruence|].
      assert (x ∈ j :: rest) as Hx by (apply Hd; split; [done|]; split; [set_solver|eauto]). apply elem_of_cons in Hx as [|]; done.
  - case_bool_decide; [done|]. apply NoDup_app. split; [done|]. split; [|apply NoDup_singleton]. intros x Hx ->%list_elem_of_singleton. done.
  - case_bool_decide; [done|]. intros x [Hx| ->%list_elem_of_singleton]%elem_of_app; [by apply Hi'|eauto].
  - intros x e He Ei. apply (thread_at_insert _ _ _ _ _ _ Hj) in He as [[-> ->]|[Hne He]].
    + case_bool_decide; [by right|left; set_solver].
    + destruct (Hr x e He Ei) as [Hx|]; [|by right]. left. case_bool_decide; set_solver.
Qed.

Lemma QuarantinePush_ok r g i c : reg_inv r g {[i]} → thread_at (threads_ r) i c → status c = Dead →
  returns (QuarantinePush r i) (λ r', reg_inv r' g ∅ ∧ same_limits r r' ∧ same_counts r r' ∧ pushed (threads_ r) (threads_ r') i).
Proof.
  intros Hinv Hc Es. unfold QuarantinePush. rewrite (get_thread_at _ _ _ Hc). cbn [mbind result_bind]. rewrite (ri_tids _ _ _ Hinv _ _ Hc).
  destruct (Z.eqb_spec i 0) as [->|Hi0].
  { cbn. split; [|by split; [|split; [|left]]]. destruct Hinv as []. split; try done. destruct ri_lists0 as [? Hd]. split; try done.
    intros x. rewrite Hd. split; intros (?&?&?); (split; [done|split; [|done]]); [apply not_elem_of_empty|rewrite not_elem_of_singleton; lia]. }
  assert (0 < i) as Hpos by (destruct Hc; lia). pose proof (lists_push_back _ _ _ _ _ _ (ri_lists _ _ _ Hinv) Hpos Hc Es) as Hl.
  cbn [dead_threads_ set_lists thread_quarantine_size_]. destruct (Z.leb_spec (Z.of_nat (length (dead_threads_ r ++ [i]))) (thread_quarantine_size_ r)) as [Hle|Hgt].
  { cbn [returns]. split; [by eapply inv_lists|]. split; [done|]. split; [done|by left]. }
  destruct (ri_quarantine _ _ _ Hinv) as [Hq1 Hq2]. rewrite length_app in Hgt. cbn [length] in Hgt.
  destruct (dead_threads_ r) as [|j rest0] eqn:Ed; [cbn in *; lia|]. cbn [app] in *. set (rest := rest0 ++ [i]) in *.
  destruct (proj1 (lo_dead _ _ _ _ _ (ri_lists _ _ _ Hinv) j)) as (Hj0 & Hjx & d & Hj & Ejd); [rewrite Ed; apply list_elem_of_here|].
  assert (j ≠ i) as Hji by (intros ->; by apply Hjx, elem_of_singleton). cbn [threads_ set_lists invalid_threads_ live_].
  match goal with |- context [get_thread ?r0 j] => rewrite (get_thread_at r0 j d Hj) end. cbn [mbind result_bind].
  rewrite bool_decide_eq_true_2 by done. cbn [CHECK mbind result_bind]. pose proof (ri_ctx _ _ _ Hinv _ _ Hj) as Hokd.
  destruct (SetName_ok (set_status d Invalid) None) as (n & En & Hn & _); [apply Hokd|done|]. unfold Reset. rewrite En. cbn [mbind result_bind].
  set (d' := set_reuse _ _). match goal with |- context [put_thread ?r0 j ?ce] => rewrite (put_thread_at r0 j d ce Hj) end. cbn [mbind result_bind fst snd].
  cbn [set_lists threads_ max_reuse_ dead_threads_ invalid_threads_]. assert (status d' = Invalid) as Ed' by done.
  pose proof (lists_reset _ _ _ _ _ d d' Hl Hj Ejd Ed') as Hl'.
  assert (((0 <? max_reuse_ r) && (max_reuse_ r <=? reuse_count d')) = bool_decide (retired (max_reuse_ r) d')) as ->.
  { unfold retired. destruct (Z.ltb_spec 0 (max_reuse_ r)), (Z.leb_spec (max_reuse_ r) (reuse_count d')); cbn [andb]; symmetry;
      [apply bool_decide_eq_true_2|apply bool_decide_eq_false_2..]; lia. }
  assert (∀ inv evs, inv = (if bool_decide (retired (max_reuse_ r) d') then invalid_threads_ r else invalid_threads_ r ++ [j]) →
    ∀ r', r' = mkReg (max_threads_ r) (thread_quarantine_size_ r) (max_reuse_ r) (total_threads_ r) (alive_threads_ r) (max_alive_threads_ r)
      (running_threads_ r) (<[Z.to_nat j := d']> (threads_ r)) rest inv (live_ r) evs →
    reg_inv r' g ∅ ∧ same_limits r r' ∧ same_counts r r' ∧ pushed (threads_ r) (threads_ r') i) as Hfin.
  { intros inv evs -> r' ->. split; [|split; [done|split; [done|]]]; [|right; exists j, d, d'; done].
    destruct Hokd as [Hst Hnm]. rewrite Ejd in Hst.
    apply (inv_set r g {[i]} j d d'); [exact Hinv|exact Hj|done|done|done| |apply Hinv| |apply (ri_keys r g _ Hinv)| | |apply Hinv|exact Hl'| |].
    - split; [split; [exact Hst|done]|exact Hn].
    - eapply users_same; [apply Hinv|exact Hj|done].
    - unfold is_alive. rewrite Ejd. cbn. lia.
    - unfold is_running. rewrite Ejd. cbn. lia.
    - cbn [dead_threads_]. unfold rest. rewrite length_app. cbn in *. lia.
    - split; [|apply Hinv]. eapply uniques_same; [apply Hinv|exact Hj|done]. }
  case_bool_decide; cbn [returns]; eapply Hfin; cbn [set_lists]; rewrite ?app_nil_r; reflexivity.
Qed.

(** *** Steps on one context *)
Lemma users_zero ts g : users_ok ts g → g !! 0 = None.
Proof. intros Hu. apply eq_None_not_Some. intros [t Ht]. by apply Hu in Ht as [? _]. Qed.

(** The registry [r'] is [r] with another context at [i]. *)
Record changed r r' (i : Z) c' : Prop := {
  ch_threads : threads_ r' = <[Z.to_nat i := c']> (threads_ r);
  ch_limits : same_limits r r';
  ch_dead : dead_threads_ r' = dead_threads_ r;
  ch_invalid : invalid_threads_ r' = invalid_threads_ r;
  ch_total : total_threads_ r' = total_threads_ r;
  ch_max : max_alive_threads_ r' = max_alive_threads_ r
}.

(** A context keeps its identity. *)
Definition same_identity c c' : Prop :=
  tid c' = tid c ∧ unique_id c' = unique_id c ∧ reuse_count c' = reuse_count c ∧ name_ok (name c').

(** The context stays on or off both lists. *)
Definition same_lists c c' : Prop := (status c' = Dead ↔ status c = Dead) ∧ (status c' = Invalid ↔ status c = Invalid).

Lemma inv_change r g i c c' r' g' : reg_inv r g ∅ → thread_at (threads_ r) i c → changed r r' i c' →
  same_identity c c' → same_lists c c' → ctx_ok c' →
  map_rep (live_ r') g' → users_ok (threads_ r') g' → (∀ u, is_Some (g' !! u) → map_key u) →
  alive_threads_ r' = alive_threads_ r → is_alive c' = is_alive c →
  running_threads_ r' = running_threads_ r - is_running c + is_running c' → reg_inv r' g' ∅.
Proof.
  intros Hinv Hc [Et El Ed Ei Eto Em] (I1 & I2 & I3 & I4) [LD LI] Hok Hlive Hu Hk Ea Eal Er.
  apply (inv_set r g ∅ i c c'); try done; rewrite ?Ed, ?Ei, ?Eto, ?Em, ?Ea; [lia|apply Hinv| |apply Hinv|split; [|apply Hinv]]; rewrite ?Et.
  - eapply lists_other; [apply Hinv|done|done|done|done].
  - eapply uniques_same; [apply Hinv|done|done].
Qed.

(** A context with a user id dies: it leaves the map and waits to be pushed. *)
Lemma inv_die r g i c c' r' : reg_inv r g ∅ → thread_at (threads_ r) i c → changed r r' i c' →
  same_identity c c' → status c ≠ Dead → status c ≠ Invalid → status c' = Dead → user_id c' = 0 →
  map_rep (live_ r') (delete (user_id c) g) →
  alive_threads_ r' = alive_threads_ r - is_alive c → running_threads_ r' = running_threads_ r - is_running c →
  reg_inv r' (delete (user_id c) g) {[i]}.
Proof.
  intros Hinv Hc [Et El Ed Ei Eto Em] (I1 & I2 & I3 & I4) ND NI SD U0 Hlive Ea Er.
  assert (is_alive c' = 0 ∧ is_running c' = 0) as [A0 R0] by (unfold is_alive, is_running; by rewrite SD).
  apply (inv_set r g ∅ i c c'); try done; rewrite ?Ed, ?Ei, ?Eto, ?Em, ?Et; try lia.
  - split; [by rewrite SD|done].
  - by apply users_clear; [apply Hinv|..].
  - intros u [t Ht]. apply lookup_delete_Some in Ht as [_ Ht]. apply (ri_keys _ _ _ Hinv). eauto.
  - pose proof (ri_max _ _ _ Hinv). assert (0 ≤ is_alive c) by (unfold is_alive; destruct (status c); lia). lia.
  - eapply lists_die; [apply Hinv|done..].
  - apply Hinv.
  - split; [|apply Hinv]. eapply uniques_same; [apply Hinv|done|done].
Qed.

Lemma erase_user_ok r g X i c c0 : reg_inv r g X → thread_at (threads_ r) i c0 → user_id c = user_id c0 → ∀ r1, live_ r1 = live_ r →
  returns (erase_user r1 c) (λ r', ∃ live', r' = set_live r1 live' ∧ map_rep live' (delete (user_id c) g)).
Proof.
  intros Hinv Hc Eu r1 El. unfold erase_user. destruct (Z.eqb_spec (user_id c) 0) as [E0|E0]; cbn [negb].
  - cbn. exists (live_ r1). rewrite E0, delete_id by (eapply users_zero, Hinv). split; [by destruct r1|]. rewrite El. apply Hinv.
  - assert (is_Some (g !! user_id c)) as Hs by (exists i; apply Hinv; split; [done|]; exists c0; done).
    rbind (apply (map_erase_rep (live_ r1) g); [rewrite El; apply Hinv|by apply (ri_keys _ _ _ Hinv)]). intros [live' b] [Hl _]. cbn. eauto.
Qed.

(** The end of a thread: from a registry [r] whose counters no longer count it. *)
Lemma kill_ok r0 g i c0 r c c' evs : reg_inv r0 g ∅ → thread_at (threads_ r0) i c0 → changed r0 r i c → live_ r = live_ r0 →
  alive_threads_ r = alive_threads_ r0 - is_alive c0 → running_threads_ r = running_threads_ r0 - is_running c0 →
  user_id c = user_id c0 → same_identity c0 c' → status c0 ≠ Dead → status c0 ≠ Invalid → status c' = Dead → user_id c' = 0 →
  returns (r ← erase_user r c; r ← put_thread r i (c', evs); QuarantinePush r i) (λ r',
    ∃ g', reg_inv r' g' ∅ ∧ same_limits r0 r' ∧ pushed (<[Z.to_nat i := c']> (threads_ r0)) (threads_ r') i).
Proof.
  intros Hinv Hc Hch El Ea Er Eu Hid ND NI SD U0. rbind (by apply (erase_user_ok r0 g ∅ i c c0)). intros r1 (live' & -> & Hl).
  assert (thread_at (threads_ r) i c) as Hc1 by (rewrite (ch_threads _ _ _ _ Hch); apply (thread_at_insert _ _ _ _ _ _ Hc); by left).
  rewrite (put_thread_at _ i c) by done. cbn [mbind result_bind fst snd]. set (r2 := set_lists _ _ _ _ _).
  assert (threads_ r2 = <[Z.to_nat i := c']> (threads_ r0)) as Et2 by (unfold r2; cbn; rewrite (ch_threads _ _ _ _ Hch); apply list_insert_insert_eq).
  assert (reg_inv r2 (delete (user_id c0) g) {[i]}) as Hinv2.
  { rewrite Eu in Hl. destruct Hch as [Et Hlim Ed Ei Eto Em]. by apply (inv_die r0 g i c0 c'). }
  assert (thread_at (threads_ r2) i c') as Hc2 by (rewrite Et2; apply (thread_at_insert _ _ _ _ _ _ Hc); by left).
  eapply returns_mono; [by apply (QuarantinePush_ok r2 (delete (user_id c0) g) i c')|]. intros r' (Hinv' & Hlim & _ & Hp). rewrite Et2 in Hp.
  exists (delete (user_id c0) g). split; [done|]. split; [|done]. destruct (ch_limits _ _ _ _ Hch) as (E1 & E2 & E3), Hlim as (F1 & F2 & F3). cbn in F1, F2, F3. unfold same_limits. split_and!; congruence.
Qed.

(** The threads of a killed one: each takes one step. *)
Lemma moves_pushed ts i c c' ts' : thread_at ts i c → lifecycle (status c) (status c') → pushed (<[Z.to_nat i := c']> ts) ts' i → moves ts ts'.
Proof.
  intros Hc Hl [->|(j & d & d' & Hji & Hj & Ed & Ed' & ->)]; [by eapply moves_insert|].
  eapply moves_insert2; try done. rewrite Ed, Ed'. constructor.
Qed.

(** ** Operations *)
Implicit Types (u t arg os parent : Z).

(** The outcome of an operation: the invariant, and a step of the life of each thread. *)
Definition good r r' : Prop := (∃ g', reg_inv r' g' ∅) ∧ same_limits r r' ∧ moves (threads_ r) (threads_ r').

(** A context whose status does not change. *)
Lemma quiet_identity c c' : ctx_ok c' → tid c' = tid c → unique_id c' = unique_id c → reuse_count c' = reuse_count c → same_identity c c'.
Proof. intros [_ Hn] E1 E2 E3. done. Qed.

Lemma inv_quiet r g i c c' r' g' : reg_inv r g ∅ → thread_at (threads_ r) i c → changed r r' i c' → ctx_ok c' →
  tid c' = tid c → unique_id c' = unique_id c → reuse_count c' = reuse_count c → status c' = status c →
  alive_threads_ r' = alive_threads_ r → running_threads_ r' = running_threads_ r →
  map_rep (live_ r') g' → users_ok (threads_ r') g' → (∀ u, is_Some (g' !! u) → map_key u) → reg_inv r' g' ∅ ∧ moves (threads_ r) (threads_ r').
Proof.
  intros Hinv Hc Hch Hok E1 E2 E3 Es Ea Er Hl Hu Hk. split.
  - apply (inv_change r g i c c'); try done; unfold same_lists, is_alive, is_running; rewrite ?Es; [by apply quiet_identity|done|done|lia].
  - rewrite (ch_threads _ _ _ _ Hch). eapply moves_insert; [done|]. rewrite Es. constructor.
Qed.

Lemma StartThread_ok r g t c os ty arg : reg_inv r g ∅ → thread_at (threads_ r) t c → status c = Created →
  returns (StartThread r t os ty arg) (λ r', good r r' ∧ ∃ c', thread_at (threads_ r') t c' ∧ status c' = Running ∧ os_id c' = os ∧ thread_type c' = ty ∧
    user_id c' = user_id c ∧ unique_id c' = unique_id c).
Proof.
  intros Hinv Hc Es. unfold StartThread. rewrite (get_thread_at _ t c) by done. cbn [mbind result_bind]. rewrite bool_decide_true by done.
  cbn [CHECK mbind result_bind]. rewrite (put_thread_at _ t c) by done. cbn [returns]. set (c' := (SetStarted c os ty arg).1).
  destruct (ri_ctx _ _ _ Hinv _ _ Hc) as [Hcs Hcn]. rewrite Es in Hcs.
  pose proof (ri_running _ _ _ Hinv). pose proof (alive_le_length (threads_ r)). pose proof (ri_len _ _ _ Hinv). unfold num_threads in *.
  split; [split; [exists g; apply (inv_change r g t c c')|split; [done|eapply moves_insert; [done|]; rewrite Es; constructor]]|].
  - done.
  - done.
  - done.
  - by split.
  - unfold same_lists. rewrite Es. by split.
  - by split.
  - apply Hinv.
  - by apply users_same with c; [apply Hinv|..].
  - apply Hinv.
  - done.
  - unfold is_alive. by rewrite Es.
  - cbn. unfold is_running at 1. rewrite Es. cbn -[cast]. rewrite Z.sub_0_r. apply cast_id. lia.
  - exists c'. split; [apply (thread_at_insert _ _ _ _ _ _ Hc); by left|done].
Qed.

Lemma set_name_ok r g t c n evs : reg_inv r g ∅ → thread_at (threads_ r) t c → name_ok n →
  good r (set_lists r (<[Z.to_nat t := set_name c n]> (threads_ r)) (dead_threads_ r) (invalid_threads_ r) evs).
Proof.
  intros Hinv Hc Hn. destruct (inv_quiet r g t c (set_name c n) (set_lists r (<[Z.to_nat t := set_name c n]> (threads_ r)) (dead_threads_ r) (invalid_threads_ r) evs) g) as [H1 H2]; try done.
  - destruct (ri_ctx _ _ _ Hinv _ _ Hc). by split.
  - apply Hinv.
  - by apply users_same with c; [apply Hinv|..].
  - apply Hinv.
  - split; [by exists g|done].
Qed.

Lemma SetThreadName_ok r g t c nm : reg_inv r g ∅ → thread_at (threads_ r) t c → status c = Running → is_name nm →
  returns (SetThreadName r t nm) (λ r', good r r' ∧ ∃ n, thread_at (threads_ r') t (set_name c n) ∧ ∀ s, nm = Some s → n = take 63 (s ++ replicate 63 0) ++ [0]).
Proof.
  intros Hinv Hc Es Hnm. unfold SetThreadName. rewrite (get_thread_at _ t c) by done. cbn [mbind result_bind]. rewrite bool_decide_true by done.
  destruct (SetName_ok c nm) as (n & -> & Hn & Hs); [apply (ri_ctx _ _ _ Hinv _ _ Hc)|done|]. cbn [CHECK mbind result_bind].
  rewrite (put_thread_at _ t c) by done. split; [by eapply set_name_ok|]. exists n. split; [apply (thread_at_insert _ _ _ _ _ _ Hc); by left|done].
Qed.

Lemma SetThreadNameByUserId_ok r g u nm : reg_inv r g ∅ → map_key u → is_name nm →
  returns (SetThreadNameByUserId r u nm) (good r).
Proof.
  intros Hinv Hk Hnm. unfold SetThreadNameByUserId. rbind (apply (map_get_rep (live_ r) g u); [apply Hinv|done]). intros res ->.
  destruct (g !! u) as [t|] eqn:E; [|cbn; split; [by exists g|split; [done|apply moves_same]]].
  apply Hinv in E as (_ & c & Hc & Eu). rewrite (get_thread_at _ t c) by done. cbn [mbind result_bind].
  destruct (SetName_ok c nm) as (n & -> & Hn & _); [apply (ri_ctx _ _ _ Hinv _ _ Hc)|done|]. cbn [mbind result_bind].
  rewrite (put_thread_at _ t c) by done. by eapply set_name_ok.
Qed.

(** A registry of which only the log changes. *)
Lemma good_log r g evs : reg_inv r g ∅ → good r (set_lists r (threads_ r) (dead_threads_ r) (invalid_threads_ r) evs).
Proof. intros Hinv. split; [exists g; apply (inv_lists r g ∅); apply Hinv|]. split; [done|apply moves_same]. Qed.

Lemma pushed_keeps ts ts' i c : pushed ts ts' i → thread_at ts i c → thread_at ts' i c.
Proof. intros [->|(j & d & d' & Hji & Hj & _ & _ & ->)] Hc; [done|]. apply (thread_at_insert _ _ _ _ _ _ Hj). by right. Qed.

(** A thread that is killed where it stands. *)
Lemma kill_good r g t c r1 c' evs : reg_inv r g ∅ → thread_at (threads_ r) t c → status c = Finished →
  threads_ r1 = threads_ r → same_limits r r1 → same_counts r r1 → dead_threads_ r1 = dead_threads_ r → invalid_threads_ r1 = invalid_threads_ r →
  live_ r1 = live_ r → c' = set_user (set_status c Dead) 0 →
  returns (r ← erase_user r1 c; r ← put_thread r t (c', evs); QuarantinePush r t) (λ r', good r r' ∧ thread_at (threads_ r') t c').
Proof.
  intros Hinv Hc Es Et Hlim (E1 & E2 & E3 & E4) Ed Ei El ->. destruct (ri_ctx _ _ _ Hinv _ _ Hc) as [_ Hcn].
  eapply returns_mono; [apply (kill_ok r g t c r1 c); try done|].
  - split; try done. rewrite Et. symmetry. apply list_insert_id, Hc.
  - rewrite E2. unfold is_alive. rewrite Es. lia.
  - rewrite E4. unfold is_running. rewrite Es. lia.
  - by rewrite Es.
  - by rewrite Es.
  - intros r' (g' & Hinv' & Hlim' & Hp). split; [split; [eauto|split; [done|]]|].
    + eapply moves_pushed; [done| |done]. rewrite Es. constructor.
    + eapply pushed_keeps; [done|]. apply (thread_at_insert _ _ _ _ _ _ Hc). by left.
Qed.

(** The same, before other steps. *)
Lemma kill_then {B} r g t c r1 evs (k : ThreadRegistry M → result B) (Q : B → Prop) : reg_inv r g ∅ → thread_at (threads_ r) t c → status c = Finished →
  threads_ r1 = threads_ r → same_limits r r1 → same_counts r r1 → dead_threads_ r1 = dead_threads_ r → invalid_threads_ r1 = invalid_threads_ r →
  live_ r1 = live_ r → (∀ r', good r r' → thread_at (threads_ r') t (set_user (set_status c Dead) 0) → returns (k r') Q) →
  returns (r ← erase_user r1 c; r ← put_thread r t (set_user (set_status c Dead) 0, evs); r ← QuarantinePush r t; k r) Q.
Proof.
  intros Hinv Hc Es Et Hlim Hcn Ed Ei El Hk. set (c' := set_user _ _) in *.
  pose proof (kill_good r g t c r1 c' evs Hinv Hc Es Et Hlim Hcn Ed Ei El eq_refl) as HK.
  destruct (erase_user r1 c) as [r2|]; [|done]. cbn [mbind result_bind] in *. destruct (put_thread r2 t (c', evs)) as [r3|]; [|done]. cbn [mbind result_bind] in *.
  destruct (QuarantinePush r3 t) as [r4|]; [|done]. by apply Hk; apply HK.
Qed.

Lemma DetachThread_ok r g t c arg : reg_inv r g ∅ → thread_at (threads_ r) t c →
  returns (DetachThread r t arg) (λ r', good r r' ∧ ∃ c', thread_at (threads_ r') t c' ∧
    (status c = Finished → status c' = Dead) ∧ (status c ≠ Finished → status c' = status c ∧ (status c ≠ Invalid → detached c' = true))).
Proof.
  intros Hinv Hc. unfold DetachThread. rewrite (get_thread_at _ t c) by done. cbn [mbind result_bind].
  case_bool_decide as Ei; [split; [by eapply good_log|]; exists c; split; [done|]; rewrite Ei; split; [done|]; intros _; split; [done|by intros []]|].
  rewrite (put_thread_at _ t c) by done. cbn [mbind result_bind fst snd]. rewrite list_insert_id by apply Hc.
  destruct (ri_ctx _ _ _ Hinv _ _ Hc) as [Hcs Hcn]. case_bool_decide as Ef.
  - unfold SetDead. rewrite Ef. cbn [bool_decide orb CHECK mbind result_bind]. eapply returns_mono; [by eapply (kill_good r g t c)|].
    intros r' [Hg Ht]. split; [done|]. eexists. split; [done|]. done.
  - set (r1 := set_lists _ _ _ _ _). rewrite (put_thread_at r1 t c) by done.
    destruct (inv_quiet r g t c (set_detached c true) (set_lists r1 (<[Z.to_nat t := set_detached c true]> (threads_ r1)) (dead_threads_ r1) (invalid_threads_ r1) []) g) as [H1 H2]; try done.
    + split; [|done]. cbn. by destruct (status c).
    + apply Hinv.
    + by apply users_same with c; [apply Hinv|..].
    + apply Hinv.
    + split; [split; [by exists g|done]|]. eexists. split; [apply (thread_at_insert _ _ _ _ _ _ Hc); by left|]. done.
Qed.

(** A round of [JoinThread] is the last one when the thread has finished. *)
Lemma JoinThread_ok r g t c arg : reg_inv r g ∅ → thread_at (threads_ r) t c → status c ≠ Dead →
  returns (JoinThread r t arg) (λ '(r', last), good r r' ∧ (last = true ↔ status c = Finished ∨ status c = Invalid) ∧
    ∃ c', thread_at (threads_ r') t c' ∧ (if decide (status c = Finished) then status c' = Dead ∧ user_id c' = 0 else c' = c)).
Proof.
  intros Hinv Hc Hnd. unfold JoinThread. rewrite (get_thread_at _ t c) by done. cbn [mbind result_bind].
  case_bool_decide as Ei; [split; [by eapply good_log|]; split; [by split; auto|]; exists c; rewrite Ei; done|].
  destruct (ri_ctx _ _ _ Hinv _ _ Hc) as [Hcs Hcn]. unfold SetJoined. destruct (status c) eqn:Es; try done; cbn in Hcs; rewrite ?Hcs.
  1,2: cbn; split; [split; [by exists g|split; [done|apply moves_same]]|]; split; [naive_solver|]; exists c; by rewrite Es.
  destruct Hcs as [-> Hd]. rewrite Hd. cbn [negb bool_decide CHECK mbind result_bind].
  eapply (kill_then r g t c); try done. intros r' Hg Ht. cbn. split; [done|]. split; [by split; auto|]. eexists. split; [done|]. by rewrite decide_True.
Qed.

Lemma moves_quiet ts ts' i c c' : moves ts ts' → thread_at ts' i c → status c' = status c → moves ts (<[Z.to_nat i := c']> ts').
Proof.
  intros Hm Hc Es j d Hj. destruct (Hm j d Hj) as (d' & Hj' & Hl). destruct (decide (j = i)) as [->|Hne].
  - exists c'. split; [apply (thread_at_insert _ _ _ _ _ _ Hc); by left|]. by rewrite Es, <- (thread_at_fun _ _ _ _ Hj' Hc).
  - exists d'. split; [apply (thread_at_insert _ _ _ _ _ _ Hc); by right|done].
Qed.

(** Marking a finished or dead context as destroyed. *)
Lemma SetDestroyed_good r r' g' t c evs : reg_inv r' g' ∅ → same_limits r r' → moves (threads_ r) (threads_ r') → thread_at (threads_ r') t c →
  status c = Dead → good r (set_lists r' (<[Z.to_nat t := SetDestroyed c]> (threads_ r')) (dead_threads_ r') (invalid_threads_ r') evs).
Proof.
  intros Hinv Hlim Hm Hc Es. destruct (ri_ctx _ _ _ Hinv _ _ Hc) as [Hcs Hcn].
  destruct (inv_quiet r' g' t c (SetDestroyed c) (set_lists r' (<[Z.to_nat t := SetDestroyed c]> (threads_ r')) (dead_threads_ r') (invalid_threads_ r') evs) g') as [H1 _]; try done.
  - split; [|done]. cbn. rewrite Es in *. done.
  - apply Hinv.
  - by apply users_same with c; [apply Hinv|..].
  - apply Hinv.
  - split; [by exists g'|]. split; [done|]. by eapply moves_quiet.
Qed.

(** The end of [FinishThread] for a thread that nobody joins. *)
Lemma finish_dead r g t c r1 c1 evs : reg_inv r g ∅ → thread_at (threads_ r) t c → status c = Running ∨ status c = Created →
  changed r r1 t c1 → live_ r1 = live_ r → alive_threads_ r1 = alive_threads_ r - is_alive c → running_threads_ r1 = running_threads_ r - is_running c →
  user_id c1 = user_id c → same_identity c c1 →
  returns (r ← erase_user r1 c1; r ← put_thread r t (set_user (set_status c1 Dead) 0, evs); QuarantinePush r t) (λ r',
    (∃ g', reg_inv r' g' ∅) ∧ same_limits r r' ∧ moves (threads_ r) (threads_ r') ∧ thread_at (threads_ r') t (set_user (set_status c1 Dead) 0)).
Proof.
  intros Hinv Hc Hs Hch El Ea Er Eu Hid. eapply returns_mono; [apply (kill_ok r g t c r1 c1); try done|].
  - by destruct Hs as [-> | ->].
  - by destruct Hs as [-> | ->].
  - intros r' (g' & Hinv' & Hlim & Hp). split; [eauto|]. split; [done|]. split; [eapply moves_pushed; [done| |done]; destruct Hs as [-> | ->]; constructor|].
    eapply pushed_keeps; [done|]. apply (thread_at_insert _ _ _ _ _ _ Hc). by left.
Qed.

Lemma finish_tail r g t c r1 c1 evs (st : ThreadStatus) : reg_inv r g ∅ → thread_at (threads_ r) t c → status c = Running ∨ status c = Created →
  changed r r1 t c1 → live_ r1 = live_ r → alive_threads_ r1 = alive_threads_ r - is_alive c → running_threads_ r1 = running_threads_ r - is_running c →
  user_id c1 = user_id c → same_identity c c1 →
  returns (r ← (r ← erase_user r1 c1; r ← put_thread r t (set_user (set_status c1 Dead) 0, evs); QuarantinePush r t);
           c ← get_thread r t; r ← put_thread r t (SetDestroyed c, []); Ok (r, st)) (λ '(r', prev), good r r' ∧ prev = st ∧
    ∃ c', thread_at (threads_ r') t c' ∧ status c' = Dead ∧ thread_destroyed c' = true).
Proof.
  intros. rbind (by eapply (finish_dead r g t c)). intros r2 ([g2 Hinv2] & Hlim & Hm & Hc2). rewrite (get_thread_at _ _ _ Hc2). cbn [mbind result_bind].
  rewrite (put_thread_at _ _ _ _ Hc2). cbn [mbind result_bind returns fst snd]. split; [by eapply SetDestroyed_good|]. split; [done|].
  eexists. split; [apply (thread_at_insert _ _ _ _ _ _ Hc2); by left|done].
Qed.

Definition finish_status c : ThreadStatus := if bool_decide (status c = Running) && negb (detached c) then Finished else Dead.

(** A thread that finishes and will be joined. *)
Lemma registry_finish_inv r g t c r' : reg_inv r g ∅ → thread_at (threads_ r) t c → status c = Running → detached c = false →
  changed r r' t (SetDestroyed (set_status c Finished)) → live_ r' = live_ r →
  alive_threads_ r' = alive_threads_ r - 1 → running_threads_ r' = running_threads_ r - 1 → reg_inv r' g ∅.
Proof.
  intros Hinv Hc Es Ed [Et El Edd Ei Eto Em] Elive Ea Er. destruct (ri_ctx _ _ _ Hinv _ _ Hc) as [_ Hcn]. set (c' := SetDestroyed _) in *.
  apply (inv_set r g ∅ t c c'); try done; rewrite ?Edd, ?Ei, ?Eto, ?Em, ?Ea, ?Er, ?Elive, ?Et.
  - apply Hinv.
  - by apply users_same with c; [apply Hinv|..].
  - apply Hinv.
  - unfold is_alive. rewrite Es. cbn. lia.
  - unfold is_running. rewrite Es. cbn. lia.
  - pose proof (ri_max _ _ _ Hinv). lia.
  - eapply lists_other; [apply Hinv|done|by rewrite Es|by rewrite Es|done].
  - apply Hinv.
  - split; [|apply Hinv]. by eapply uniques_same; [apply Hinv|..].
Qed.

Lemma FinishThread_ok r g t c : reg_inv r g ∅ → thread_at (threads_ r) t c → status c = Running ∨ status c = Created →
  returns (FinishThread r t) (λ '(r', prev), good r r' ∧ prev = status c ∧
    ∃ c', thread_at (threads_ r') t c' ∧ status c' = finish_status c ∧ thread_destroyed c' = true).
Proof.
  intros Hinv Hc Hs. destruct (ri_ctx _ _ _ Hinv _ _ Hc) as [_ Hcn].
  assert (is_alive c = 1) as Hal by (unfold is_alive; by destruct Hs as [-> | ->]).
  assert (is_running c ≤ running_threads_ r ∧ 1 ≤ alive_threads_ r) as [Hru Hal1].
  { rewrite (ri_running _ _ _ Hinv), (ri_alive _ _ _ Hinv). destruct Hc as [_ Hlk].
    assert (∀ f : ThreadContextBase → Z, (∀ x, 0 ≤ f x) → f c ≤ sumZ f (threads_ r)) as Hf by (intros f Hf; apply (sumZ_elem f (threads_ r) (Z.to_nat t)); done).
    rewrite <- Hal. split; apply Hf; intros d; unfold is_alive, is_running; destruct (status d); lia. }
  unfold FinishThread. rewrite (proj2 (Z.ltb_lt 0 (alive_threads_ r))) by lia. cbn [CHECK mbind result_bind].
  rewrite (get_thread_at _ t c) by done. cbn [mbind result_bind]. unfold SetFinished, SetDead, finish_status.
  assert (∀ c1, thread_at (<[Z.to_nat t := c1]> (threads_ r)) t c1) as Hput by (intros; apply (thread_at_insert _ _ _ _ _ _ Hc); by left).
  destruct Hs as [Es|Es]; unfold is_running in Hru; rewrite Es in *; statuses.
  - cbn [running_threads_ set_counts]. rewrite (proj2 (Z.ltb_lt 0 (running_threads_ r))) by lia. statuses.
    destruct (detached c) eqn:Ed; statuses; rewrite (put_thread_at _ t c) by done; cbn [mbind result_bind fst snd threads_ set_lists set_counts].
    + rewrite ?Es. statuses. eapply (finish_tail r g t c); try done; [by left|cbn; lia|cbn; unfold is_running; rewrite Es; lia].
    + rewrite (get_thread_at _ t (set_status c Finished)) by apply Hput. cbn [mbind result_bind].
      rewrite (put_thread_at _ t (set_status c Finished)) by apply Hput. cbn [mbind result_bind fst snd threads_ set_lists set_counts]. rewrite list_insert_insert_eq.
      split; [|split; [done|eexists; split; [apply Hput|done]]]. split; [exists g; apply (registry_finish_inv r g t c)|]; try done. split; [done|]. eapply moves_insert; [done|]. rewrite Es. constructor.
  - rewrite orb_true_r. statuses. rewrite (put_thread_at _ t c) by done. cbn [mbind result_bind fst snd threads_ set_lists set_counts status set_status]. statuses.
    eapply (finish_tail r g t c); try done; [by right|cbn; lia|cbn; unfold is_running; rewrite Es; lia].
Qed.

(** *** Creation *)
Definition unused r u : Prop := ∀ i c, thread_at (threads_ r) i c → user_id c ≠ u.
Definition can_add r u : Prop := u ≠ 0 ∧ map_key u ∧ unused r u ∧ map_len (live_ r) < map_limit.

Definition add_user (g : gmap Z Z) u t : gmap Z Z := if decide (u = 0) then g else <[u := t]> g.

Lemma unused_None r g X u : reg_inv r g X → unused r u → g !! u = None.
Proof. intros Hinv Hu. apply eq_None_not_Some. intros [t Ht]. apply Hinv in Ht as (_ & c & Hc & Eu). by eapply Hu. Qed.

Lemma add_keys g u t : (∀ v, is_Some (g !! v) → map_key v) → (u = 0 ∨ map_key u) → ∀ v, is_Some (add_user g u t !! v) → map_key v.
Proof.
  intros Hk Hu v. unfold add_user. destruct (decide (u = 0)); [apply Hk|]. intros [w [[<- _]|[_ Hw]]%lookup_insert_Some]; [naive_solver|].
  apply Hk. eauto.
Qed.

Lemma create_in_ok r g i c u det parent arg : thread_at (threads_ r) i c → tid c = i → status c = Invalid → i < max_threads_ r ≤ 2 ^ 32 - 1 →
  0 ≤ alive_threads_ r ≤ max_alive_threads_ r → max_alive_threads_ r < 2 ^ 64 - 1 → map_rep (live_ r) g →
  u = 0 ∨ (map_key u ∧ g !! u = None ∧ map_len (live_ r) < map_limit) →
  returns (create_in r i u det parent arg) (λ '(r', t), t = i ∧ ∃ live' evs, map_rep live' (add_user g u i) ∧
    r' = set_lists (set_live (set_counts r (u64 (total_threads_ r + 1)) (alive_threads_ r + 1) (max_alive_threads_ r `max` (alive_threads_ r + 1))
           (running_threads_ r)) live') (<[Z.to_nat i := (SetCreated c u (total_threads_ r) det parent arg).1]> (threads_ r))
           (dead_threads_ r) (invalid_threads_ r) evs).
Proof.
  intros Hc Ht Es Hi Ha Hm Hl Hu. unfold create_in. rewrite (get_thread_at _ i c) by done. cbn [mbind result_bind].
  rewrite Ht, Es. rewrite (proj2 (Z.eqb_neq i (2 ^ 32 - 1))) by lia. rewrite (proj2 (Z.ltb_lt i (max_threads_ r))) by lia. statuses.
  rewrite (cast_id 64 (alive_threads_ r + 1)) by lia. rewrite (cast_id 64 (max_alive_threads_ r + 1)) by lia.
  apply returns_bind with (P := λ m, m = max_alive_threads_ r `max` (alive_threads_ r + 1)).
  { destruct (Z.ltb_spec (max_alive_threads_ r) (alive_threads_ r + 1)); [|cbn; lia].
    rewrite (proj2 (Z.eqb_eq (alive_threads_ r + 1) (max_alive_threads_ r + 1))) by lia. cbn. lia. }
  intros m ->. apply returns_bind with (P := λ live', map_rep live' (add_user g u i)).
  { unfold add_user. destruct (Z.eqb_spec u 0) as [->|Hu0]; cbn [negb]; [by rewrite decide_True|]. rewrite decide_False by done.
    destruct Hu as [|(Hk & Hnone & Hlen)]; [done|]. rewrite (map_len_rep _ _ Hl) in Hlen.
    rbind (by apply (map_try_emplace_rep (live_ r) g)). intros [[live' w] ins] (Hl' & _ & ->). rewrite Hnone in *. rewrite bool_decide_true by done. done. }
  intros live' Hl'. rewrite (put_thread_at _ i c) by done. cbn [mbind result_bind returns]. split; [done|]. eauto.
Qed.

(** A registry with one more context, which is on no list. *)
Definition phantom t unique : ThreadContextBase := mkCtx t unique 0 0 0 (replicate (Z.to_nat kNameSize) 0) Finished false Regular 0 true.
Definition grown r : ThreadRegistry M :=
  let ts := threads_ r ++ [phantom (num_threads r) (total_threads_ r)] in
  set_lists (set_counts r (total_threads_ r + 1) (alive_threads_ r) (max_alive_threads_ r) (running_threads_ r)) ts (dead_threads_ r) (invalid_threads_ r) [].

Lemma grown_lists mr (ts : list ThreadContextBase) dead invalid c : lists_ok mr ts dead invalid ∅ → status c = Finished → lists_ok mr (ts ++ [c]) dead invalid ∅.
Proof.
  intros [Hdn Hd Hin Hi Hr] Es. split; [done| |done| |].
  - intros j. rewrite Hd. do 2 f_equiv. split; intros (d & Hj & Ed).
    + exists d. split; [|done]. apply thread_at_app. by left.
    + apply thread_at_app in Hj as [Hj|[_ ->]]; [eauto|congruence].
  - intros j (d & Hj & Ed)%Hi. exists d. split; [|done]. apply thread_at_app. by left.
  - intros j d [Hj|[_ ->]]%thread_at_app Ed; [eauto|congruence].
Qed.

Lemma inv_grown r g : reg_inv r g ∅ → num_threads r < max_threads_ r → total_threads_ r + 1 < 2 ^ 64 → reg_inv (grown r) g ∅.
Proof.
  intros [] Hn Htot. unfold num_threads in *. split; cbn; try done; unfold num_threads; cbn; rewrite ?length_app; cbn [length]; try lia.
  - intros j d [Hj|[-> ->]]%thread_at_app; [by apply ri_tids0|done].
  - intros j d [Hj|[-> ->]]%thread_at_app; [by eapply ri_ctx0|]. split; [done|]. split; [done|]. apply Forall_replicate. unfold is_byte. lia.
  - intros u t. rewrite (ri_users0 u t). split; intros (Hu0 & d & Hd & Eu); (split; [done|]).
    + exists d. split; [|done]. apply thread_at_app. by left.
    + apply thread_at_app in Hd as [Hd|[_ ->]]; [eauto|by cbn in Eu].
  - rewrite sumZ_app. cbn. lia.
  - rewrite sumZ_app. cbn. lia.
  - by apply grown_lists.
  - destruct ri_unique0 as [[Hnd Hr] H0]. split; [split|lia].
    + rewrite fmap_app. apply NoDup_app. split; [done|]. split; [|apply NoDup_singleton]. intros x (d & -> & Hd)%list_elem_of_fmap [= E]%list_elem_of_singleton.
      apply Hr in Hd. lia.
    + intros d [Hd| ->%list_elem_of_singleton]%elem_of_app; [apply Hr in Hd; lia|cbn; lia].
Qed.

(** The context of a new thread. *)
Definition created c u det parent unique : Prop :=
  status c = Created ∧ user_id c = u ∧ detached c = det ∧ unique_id c = unique ∧ (tid c ≠ kMainTid → parent_tid c = parent).

Lemma SetCreated_created c u unique det parent arg : created (SetCreated c u unique det parent arg).1 u det parent unique.
Proof.
  unfold created, SetCreated. cbn. split_and!; try done. intros Ht. by rewrite (proj2 (Z.eqb_neq _ _) Ht).
Qed.

Lemma users_create (ts : list ThreadContextBase) g i c c' : users_ok ts g → thread_at ts i c → user_id c = 0 → g !! user_id c' = None →
  users_ok (<[Z.to_nat i := c']> ts) (add_user g (user_id c') i).
Proof.
  intros Hu Hc E0 Hnone. unfold add_user. destruct (decide (user_id c' = 0)) as [E|E]; [apply (users_same _ _ _ c); [done|done|congruence]|by apply (users_add _ _ _ c)].
Qed.

(** From a context that is not alive. *)
Lemma inv_created r g i c c' r' : reg_inv r g ∅ → thread_at (threads_ r) i c → user_id c = 0 → is_alive c = 0 →
  threads_ r' = <[Z.to_nat i := c']> (threads_ r) → same_limits r r' → tid c' = tid c → ctx_ok c' → status c' = Created →
  map_rep (live_ r') (add_user g (user_id c') i) → user_id c' = 0 ∨ (map_key (user_id c') ∧ g !! user_id c' = None) →
  alive_threads_ r' = alive_threads_ r + 1 → running_threads_ r' = running_threads_ r →
  max_alive_threads_ r' = max_alive_threads_ r `max` (alive_threads_ r + 1) → dead_threads_ r' = dead_threads_ r →
  lists_ok (max_reuse_ r) (threads_ r') (dead_threads_ r') (invalid_threads_ r') ∅ →
  uniques_ok (threads_ r') (total_threads_ r') ∧ 0 ≤ total_threads_ r' < 2 ^ 64 → reg_inv r' (add_user g (user_id c') i) ∅.
Proof.
  intros Hinv Hc Hu0 Hna Et Hlim Eid Hok Es Hl Hu Ea Er Em Ed Hls Hun.
  assert (is_alive c' = 1 ∧ is_running c' = 0 ∧ is_running c = 0) as (A1 & R1 & R2).
  { unfold is_alive, is_running in *. rewrite Es. by destruct (status c). }
  assert (g !! user_id c' = None) as Hnone by (destruct Hu as [->|[_ ?]]; [eapply users_zero, Hinv|done]).
  pose proof (ri_max _ _ _ Hinv) as Hm. pose proof (ri_alive _ _ _ Hinv) as Hal.
  pose proof (alive_le_length (<[Z.to_nat i := c']> (threads_ r))) as [_ Hle]. rewrite length_insert in Hle.
  rewrite (sumZ_insert _ _ _ c) in Hle by apply Hc. unfold num_threads in *.
  apply (inv_set r g ∅ i c c'); try done; rewrite ?Ea, ?Er, ?Em, ?Ed; try lia.
  - rewrite Et. by apply users_create with c; [apply Hinv|..].
  - apply add_keys; [apply Hinv|]. naive_solver.
  - unfold num_threads. lia.
  - apply Hinv.
Qed.

Lemma new_user r g X u : reg_inv r g X → u = 0 ∨ can_add r u → u = 0 ∨ (map_key u ∧ g !! u = None ∧ map_len (live_ r) < map_limit).
Proof. intros Hinv [->|(Hu0 & Hk & Hun & Hlen)]; [by left|]. right. split_and!; try done. by eapply unused_None. Qed.

Lemma create_reuse r g i invalid u det parent arg : reg_inv r g ∅ → invalid_threads_ r = i :: invalid → total_threads_ r + 1 < 2 ^ 64 →
  u = 0 ∨ can_add r u →
  returns (create_in (set_lists r (threads_ r) (dead_threads_ r) invalid []) i u det parent arg) (λ '(r', t), good r r' ∧
    (∀ c, thread_at (threads_ r) t c → status c = Invalid) ∧ ∃ c', thread_at (threads_ r') t c' ∧ created c' u det parent (total_threads_ r)).
Proof.
  intros Hinv Ei Htot Hu. set (r1 := set_lists _ _ _ _ _). destruct (ri_unique _ _ _ Hinv) as [Hun Ht0].
  destruct (lo_invalid _ _ _ _ _ (ri_lists _ _ _ Hinv) i) as (c & Hc & Es); [rewrite Ei; apply list_elem_of_here|].
  pose proof (ri_max _ _ _ Hinv) as Hm. pose proof (ri_len _ _ _ Hinv) as Hn. pose proof (alive_le_length (threads_ r)) as Ha.
  pose proof (ri_alive _ _ _ Hinv) as Hal. destruct (ri_ctx _ _ _ Hinv _ _ Hc) as [Hcs Hcn]. rewrite Es in Hcs. destruct Hcs as [Hu0 Hds].
  pose proof (lookup_lt_Some _ _ _ (proj2 Hc)) as Hlt. assert (0 ≤ i) as Hi0 by apply Hc.
  unfold num_threads in *. pose proof (new_user _ _ _ _ Hinv Hu) as Hnu.
  eapply returns_mono; [apply (create_in_ok r1 g i c); cbn; try done; [by apply (ri_tids _ _ _ Hinv)|lia|lia|lia|apply Hinv]|].
  intros [r' t] (-> & live' & evs & Hl & ->). set (c' := (SetCreated _ _ _ _ _ _).1). rewrite (cast_id 64) by (cbn; lia).
  pose proof (SetCreated_created c u (total_threads_ r) det parent arg) as Hcr. fold c' in Hcr. split; [split|].
  - exists (add_user g u i). apply (inv_created r g i c c'); try done; cbn.
    + unfold is_alive. by rewrite Es.
    + naive_solver.
    + eapply lists_reuse; [rewrite <- Ei; apply Hinv|done|done|done].
    + split; [|lia]. by eapply uniques_fresh; [|done|lia|].
  - split; [done|]. eapply moves_insert; [done|]. rewrite Es. constructor.
  - split; [intros d Hd; by rewrite (thread_at_fun _ _ _ _ Hd Hc)|]. exists c'. split; [apply (thread_at_insert _ _ _ _ _ _ Hc); by left|done].
Qed.

Lemma create_new r g u det parent arg : reg_inv r g ∅ → num_threads r < max_threads_ r → total_threads_ r + 1 < 2 ^ 64 →
  u = 0 ∨ can_add r u →
  returns (create_in (set_lists r (threads_ r ++ [new_context (num_threads r)]) (dead_threads_ r) (invalid_threads_ r) []) (num_threads r) u det parent arg)
    (λ '(r', t), good r r' ∧
    (∀ c, thread_at (threads_ r) t c → status c = Invalid) ∧ ∃ c', thread_at (threads_ r') t c' ∧ created c' u det parent (total_threads_ r)).
Proof.
  intros Hinv Hn1 Htot Hu. set (n := num_threads r) in *. set (c := new_context n). set (r1 := set_lists _ _ _ _ _).
  assert (∀ d, thread_at (threads_ r ++ [d]) n d) as Hd by (intros; apply thread_at_app; by right).
  assert (Z.to_nat n = length (threads_ r)) as En by (unfold n, num_threads; lia).
  pose proof (ri_max _ _ _ Hinv) as Hm. pose proof (ri_len _ _ _ Hinv) as Hn. pose proof (alive_le_length (threads_ r)) as Ha.
  pose proof (ri_alive _ _ _ Hinv) as Hal. pose proof (new_user _ _ _ _ Hinv Hu) as Hnu. pose proof (inv_grown r g Hinv Hn1 Htot) as Hg.
  eapply returns_mono; [apply (create_in_ok r1 g n c); cbn; try done; [lia|lia|lia|apply Hinv]|].
  intros [r' t] (-> & live' & evs & Hl & ->). set (c' := (SetCreated _ _ _ _ _ _).1).
  pose proof (SetCreated_created c u (total_threads_ r) det parent arg) as Hcr. fold c' in Hcr.
  destruct (ri_unique _ _ _ Hg) as [Hun Ht0]. cbn in Ht0. rewrite (cast_id 64) by (cbn; lia).
  assert (∀ d, <[Z.to_nat n := c']> (threads_ r ++ [d]) = threads_ r ++ [c']) as Eins by (intros; rewrite En; by rewrite insert_app_r_alt, Nat.sub_diag by lia).
  assert (threads_ (grown r) = threads_ r ++ [phantom n (total_threads_ r)]) as Eg by done.
  assert (<[Z.to_nat n := c']> (threads_ r1) = <[Z.to_nat n := c']> (threads_ (grown r))) as E1 by (rewrite Eg, Eins; apply Eins). split; [split|].
  - exists (add_user g u n). apply (inv_created (grown r) g n (phantom n (total_threads_ r)) c'); try done;
      cbn [threads_ set_lists set_live set_counts dead_threads_ invalid_threads_ total_threads_ max_reuse_].
    + rewrite Eg. apply Hd.
    + split; [done|]. apply (ri_ctx _ _ _ Hg n (phantom n (total_threads_ r))). by rewrite Eg.
    + naive_solver.
    + rewrite E1. eapply lists_other; [apply Hg|by rewrite Eg|done|done|done].
    + split; [|done]. rewrite E1. by eapply uniques_same; [|rewrite Eg|].
  - split; [done|]. cbn [threads_ set_lists set_live set_counts r1]. rewrite Eins. intros j d Hj. exists d. split; [apply thread_at_app; by left|constructor].
  - split; [intros d [_ Hlk]; rewrite En in Hlk; apply lookup_lt_Some in Hlk; lia|]. exists c'. split; [|done]. apply (thread_at_insert _ _ c); [apply Hd|by left].
Qed.

Lemma CreateThread_ok r g u det parent arg : reg_inv r g ∅ → invalid_threads_ r ≠ [] ∨ num_threads r < max_threads_ r → total_threads_ r + 1 < 2 ^ 64 →
  u = 0 ∨ can_add r u →
  returns (CreateThread r u det parent arg) (λ '(r', t), good r r' ∧
    (∀ c, thread_at (threads_ r) t c → status c = Invalid) ∧ ∃ c', thread_at (threads_ r') t c' ∧ created c' u det parent (total_threads_ r)).
Proof.
  intros Hinv Hroom Htot Hu. unfold CreateThread, pick_context, QuarantinePop. pose proof (ri_len _ _ _ Hinv) as Hn.
  destruct (invalid_threads_ r) as [|i invalid] eqn:Ei; cbn [mbind result_bind]; [|by eapply create_reuse].
  destruct Hroom as [|Hroom]; [done|]. rewrite (proj2 (Z.ltb_lt _ _) Hroom). cbn [mbind result_bind].
  rewrite (cast_id 32) by (unfold num_threads in *; lia). by eapply create_new.
Qed.

(** *** User ids *)
Lemma ConsumeThreadUserId_ok r g u t c : reg_inv r g ∅ → u ≠ 0 → thread_at (threads_ r) t c → user_id c = u →
  returns (ConsumeThreadUserId r u) (λ '(r', t'), good r r' ∧ t' = t ∧ thread_at (threads_ r') t (set_user c 0)).
Proof.
  intros Hinv Hu0 Hc Eu. assert (g !! u = Some t) as Hg by (apply Hinv; eauto). unfold ConsumeThreadUserId.
  rbind (apply (map_take_rep (live_ r) g u); [apply Hinv|apply (ri_keys _ _ _ Hinv); eauto]). intros [live' res] [Hl ->]. rewrite Hg.
  rewrite (get_thread_at _ t c) by done. cbn [mbind result_bind]. rewrite Eu, Z.eqb_refl. cbn [CHECK mbind result_bind]. rewrite (put_thread_at _ t c) by done.
  cbn [mbind result_bind fst snd]. set (r' := set_lists _ _ _ _ _). destruct (ri_ctx _ _ _ Hinv _ _ Hc) as [Hcs Hcn].
  destruct (inv_quiet r g t c (set_user c 0) r' (delete u g)) as [H1 H2]; try done.
  - split; [|done]. cbn. destruct (status c); tauto.
  - rewrite <- Eu. by apply users_clear; [apply Hinv|..].
  - intros v [w Hw]. apply lookup_delete_Some in Hw as [_ Hw]. apply (ri_keys _ _ _ Hinv). eauto.
  - split; [split; [by eexists|done]|]. split; [done|]. apply (thread_at_insert _ _ _ _ _ _ Hc). by left.
Qed.

Lemma SetThreadUserId_ok r g u t c : reg_inv r g ∅ → thread_at (threads_ r) t c → status c ≠ Invalid → status c ≠ Dead → user_id c = 0 → can_add r u →
  returns (SetThreadUserId r t u) (λ r', good r r' ∧ thread_at (threads_ r') t (set_user c u)).
Proof.
  intros Hinv Hc NI ND E0 Hu. destruct (new_user _ _ _ _ Hinv (or_intror Hu)) as [->|(Hk & Hnone & Hlen)]; [by destruct Hu|]. destruct Hu as [Hu0 _].
  unfold SetThreadUserId. rewrite (get_thread_at _ t c) by done. cbn [mbind result_bind]. rewrite !bool_decide_false by done. rewrite E0. cbn [negb CHECK mbind result_bind Z.eqb].
  rewrite (put_thread_at _ t c) by done. cbn [mbind result_bind fst snd live_ set_lists]. rewrite (map_len_rep _ _ (ri_live _ _ _ Hinv)) in Hlen.
  rbind (apply (map_try_emplace_rep (live_ r) g); [apply Hinv|done|done]). intros [[live' w] ins] (Hl & _ & ->). rewrite Hnone in *. rewrite bool_decide_true by done.
  cbn [CHECK mbind result_bind returns default] in *. rewrite (ri_tids _ _ _ Hinv _ _ Hc) in Hl. set (r' := set_live _ _). destruct (ri_ctx _ _ _ Hinv _ _ Hc) as [Hcs Hcn].
  destruct (inv_quiet r g t c (set_user c u) r' (<[u := t]> g)) as [H1 H2]; try done.
  - split; [|done]. cbn. by destruct (status c).
  - by apply (users_add (threads_ r) g t c (set_user c u)); [apply Hinv|..].
  - intros v [w' [[<- _]|[_ Hw]]%lookup_insert_Some]; [done|]. apply (ri_keys _ _ _ Hinv). eauto.
  - split; [split; [by eexists|done]|]. apply (thread_at_insert _ _ _ _ _ _ Hc). by left.
Qed.

(** After a fork only the forking thread [t] is left; [j] threads have been visited. *)
Definition forked r t j r' : Prop := num_threads r' = num_threads r ∧
  ∀ i c, thread_at (threads_ r) i c → thread_at (threads_ r') i (if bool_decide (i < j ∧ i ≠ t) then set_user c 0 else c).

Lemma forked_next r t j r' c0 c' : forked r t j r' → thread_at (threads_ r) j c0 → j ≠ t → c' = set_user c0 0 → ∀ r'',
  threads_ r'' = <[Z.to_nat j := c']> (threads_ r') → forked r t (j + 1) r''.
Proof.
  intros [Hn Hf] Hc0 Hjt -> r'' Et. pose proof (Hf j c0 Hc0) as Hj. rewrite bool_decide_false in Hj by lia. split; [unfold num_threads in *; by rewrite Et, length_insert|].
  intros i c Hc. rewrite Et. apply (thread_at_insert _ _ _ _ _ _ Hj). destruct (decide (i = j)) as [->|Hne].
  - left. split; [done|]. rewrite bool_decide_true by lia. by rewrite (thread_at_fun _ _ _ _ Hc Hc0).
  - right. split; [done|]. apply Hf in Hc. rewrite (bool_decide_ext _ (i < j ∧ i ≠ t)) by lia. done.
Qed.

Lemma forked_skip r t j r' c0 : forked r t j r' → thread_at (threads_ r) j c0 → j = t ∨ user_id c0 = 0 → forked r t (j + 1) r'.
Proof.
  intros [Hn Hf] Hc0 Hor. split; [done|]. intros i c Hc. pose proof (Hf i c Hc) as Hi. destruct (decide (i = j)) as [->|Hne].
  - rewrite (thread_at_fun _ _ _ _ Hc Hc0) in *. rewrite bool_decide_false in Hi by lia. case_bool_decide; [|done]. destruct Hor as [|E0]; [lia|].
    assert (set_user c0 0 = c0) as -> by (rewrite <- E0; by destruct c0). done.
  - by rewrite (bool_decide_ext _ (i < j ∧ i ≠ t)) by lia.
Qed.

Lemma forked_moves r t j r' : forked r t j r' → moves (threads_ r) (threads_ r').
Proof. intros [_ Hf] i c Hc. eexists. split; [by apply Hf|]. case_bool_decide; constructor. Qed.

Lemma OnFork_ok r g t : reg_inv r g ∅ →
  returns (OnFork r t) (λ '(r', alive), good r r' ∧ alive = alive_threads_ r ∧ forked r t (num_threads r) r').
Proof.
  intros Hinv. unfold OnFork. apply returns_bind with (P := λ r', (∃ g', reg_inv r' g' ∅) ∧ same_limits r r' ∧ alive_threads_ r' = alive_threads_ r ∧ forked r t (num_threads r) r').
  2: { intros r' (Hinv' & Hlim & Ha & Hf). split; [split; [done|split; [done|by eapply forked_moves]]|]. split; [|done]. rewrite Ha. apply cast_id.
    pose proof (ri_alive _ _ _ Hinv). pose proof (alive_le_length (threads_ r)). pose proof (ri_len _ _ _ Hinv). unfold num_threads in *. lia. }
  apply (returns_for_range (λ j r', (∃ g', reg_inv r' g' ∅) ∧ same_limits r r' ∧ alive_threads_ r' = alive_threads_ r ∧ forked r t j r')); [unfold num_threads; lia| |].
  { split; [eauto|]. split; [done|]. split; [done|]. split; [done|]. intros i c Hc. rewrite bool_decide_false; [done|]. destruct Hc; lia. }
  intros j r' Hj ([g' Hinv'] & Hlim & Ha & Hf). destruct (thread_exists r j Hj) as [c Hc]. pose proof (proj2 Hf j c Hc) as Hc'. rewrite bool_decide_false in Hc' by lia.
  rewrite (get_thread_at _ _ _ Hc'). cbn [mbind result_bind]. rewrite (ri_tids _ _ _ Hinv' _ _ Hc').
  destruct (Z.eqb_spec j t) as [->|Hjt]; cbn [orb]; [cbn; split_and!; eauto; eapply forked_skip; eauto|].
  destruct (Z.eqb_spec (user_id c) 0) as [E0|E0]; [cbn; split_and!; eauto; eapply forked_skip; eauto|].
  assert (g' !! user_id c = Some j) as Hg by (apply Hinv'; eauto).
  rbind (apply (map_erase_rep (live_ r') g'); [apply Hinv'|apply (ri_keys _ _ _ Hinv'); eauto]). intros [live' er] [Hl ->]. rewrite Hg, bool_decide_true by eauto.
  cbn [CHECK mbind result_bind]. rewrite (put_thread_at _ _ c) by done. cbn [returns fst snd]. set (r'' := set_lists _ _ _ _ _). destruct (ri_ctx _ _ _ Hinv' _ _ Hc') as [Hcs Hcn].
  destruct (inv_quiet r' g' j c (set_user c 0) r'' (delete (user_id c) g')) as [H1 _]; try done.
  - split; [|done]. cbn. destruct (status c); tauto.
  - by apply users_clear; [apply Hinv'|..].
  - intros v [w Hw]. apply lookup_delete_Some in Hw as [_ Hw]. apply (ri_keys _ _ _ Hinv'). eauto.
  - split; [by eexists|]. split; [done|]. split; [done|]. by eapply forked_next.
Qed.

(** ** Histories of the registry *)
Inductive op :=
  | Create (user : Z) (det : bool) (parent arg : Z)
  | Start (t os : Z) (type : ThreadType) (arg : Z)
  | Finish (t : Z)
  | Detach (t arg : Z)
  | JoinRound (t arg : Z)
  | Name (t : Z) (nm : option (list Z))
  | NameByUser (user : Z) (nm : option (list Z))
  | Consume (user : Z)
  | SetUser (t user : Z)
  | Fork (t : Z).

Definition run r (o : op) : result (ThreadRegistry M) :=
  match o with
  | Create u det parent arg => fst <$> CreateThread r u det parent arg
  | Start t os type arg => StartThread r t os type arg
  | Finish t => fst <$> FinishThread r t
  | Detach t arg => DetachThread r t arg
  | JoinRound t arg => fst <$> JoinThread r t arg
  | Name t nm => SetThreadName r t nm
  | NameByUser u nm => SetThreadNameByUserId r u nm
  | Consume u => fst <$> ConsumeThreadUserId r u
  | SetUser t u => SetThreadUserId r t u
  | Fork t => fst <$> OnFork r t
  end.

Definition has_status r t (P : ThreadStatus → Prop) : Prop := ∃ c, thread_at (threads_ r) t c ∧ P (status c).

(** The calls the registry accepts. *)
Definition enabled r (o : op) : Prop :=
  match o with
  | Create u _ _ _ => (invalid_threads_ r ≠ [] ∨ num_threads r < max_threads_ r) ∧ total_threads_ r + 1 < 2 ^ 64 ∧ (u = 0 ∨ can_add r u)
  | Start t _ _ _ => has_status r t (λ st, st = Created)
  | Finish t => has_status r t (λ st, st = Running ∨ st = Created)
  | Detach t _ => has_status r t (λ _, True)
  | JoinRound t _ => has_status r t (λ st, st ≠ Dead)
  | Name t nm => has_status r t (λ st, st = Running) ∧ is_name nm
  | NameByUser u nm => map_key u ∧ is_name nm
  | Consume u => u ≠ 0 ∧ ∃ t c, thread_at (threads_ r) t c ∧ user_id c = u
  | SetUser t u => (∃ c, thread_at (threads_ r) t c ∧ status c ≠ Invalid ∧ status c ≠ Dead ∧ user_id c = 0) ∧ can_add r u
  | Fork t => True
  end.

Lemma returns_fst {A B} (m : result (A * B)) (P : A → Prop) : returns m (λ '(a, _), P a) → returns (fst <$> m) P.
Proof. by destruct m as [[a b]|]. Qed.

Lemma run_ok r g o : reg_inv r g ∅ → enabled r o → returns (run r o) (good r).
Proof.
  intros Hinv. destruct o; cbn [enabled run].
  - intros (H1 & H2 & H3). apply returns_fst. eapply returns_mono; [by apply (CreateThread_ok r g)|]. intros [] []. done.
  - intros (c & Hc & Es). eapply returns_mono; [by apply (StartThread_ok r g t c)|]. intros ? []. done.
  - intros (c & Hc & Es). apply returns_fst. eapply returns_mono; [by apply (FinishThread_ok r g t c)|]. intros [] []. done.
  - intros (c & Hc & _). eapply returns_mono; [by apply (DetachThread_ok r g t c)|]. intros ? []. done.
  - intros (c & Hc & Es). apply returns_fst. eapply returns_mono; [by apply (JoinThread_ok r g t c)|]. intros [] []. done.
  - intros [(c & Hc & Es) Hn]. eapply returns_mono; [by apply (SetThreadName_ok r g t c)|]. intros ? []. done.
  - intros [Hk Hn]. by apply (SetThreadNameByUserId_ok r g).
  - intros (Hu & t & c & Hc & Eu). apply returns_fst. eapply returns_mono; [by apply (ConsumeThreadUserId_ok r g _ t c)|]. intros [] []. done.
  - intros [(c & Hc & NI & ND & E0) Hu]. eapply returns_mono; [by apply (SetThreadUserId_ok r g _ t c)|]. intros ? []. done.
  - intros _. apply returns_fst. eapply returns_mono; [by apply (OnFork_ok r g)|]. intros [] []. done.
Qed.

(** The registries with a quarantine of [q] threads that a program can reach. *)
Inductive reachable (q : Z) : ThreadRegistry M → Prop :=
  | reach_new max_threads max_reuse : 0 ≤ max_threads < 2 ^ 32 → 0 ≤ q < 2 ^ 32 → reachable q (new_ThreadRegistry max_threads q max_reuse)
  | reach_step r o r' : reachable q r → enabled r o → run r o = Ok r' → reachable q r'.

Lemma registry_new_inv max_threads qsize max_reuse : 0 ≤ max_threads < 2 ^ 32 → 1 ≤ qsize < 2 ^ 32 → reg_inv (new_ThreadRegistry max_threads qsize max_reuse) ∅ ∅.
Proof.
  intros Hm Hq. assert (∀ i c, ¬ thread_at [] i c) as Hno by (by intros i c []).
  split; cbn; unfold num_threads; cbn; try lia; try done.
  - by intros i c ?%Hno.
  - by intros i c ?%Hno.
  - apply map_new_rep.
  - intros u t. rewrite lookup_empty. split; [done|]. by intros (_ & c & ?%Hno & _).
  - intros u. rewrite lookup_empty. by intros [? ?].
  - split; try apply NoDup_nil_2; try done.
    + intros i. split; [by intros ?%not_elem_of_nil|]. by intros (_ & _ & c & ?%Hno & _).
    + by intros i ?%not_elem_of_nil.
    + by intros i c ?%Hno.
  - split; [|lia]. split; [apply NoDup_nil_2|]. by intros c ?%not_elem_of_nil.
Qed.

Lemma registry_reachable_inv q r : 1 ≤ q → reachable q r → ∃ g, reg_inv r g ∅.
Proof.
  intros H1. induction 1 as [m k Hm Hq|r o r' _ [g Hinv] Hen Hrun]; [exists ∅; apply registry_new_inv; [done|lia]|].
  pose proof (run_ok r g o Hinv Hen) as Hr. rewrite Hrun in Hr. apply Hr.
Qed.

(** ** Theorems *)

(** [C9] A program that calls a registry with a quarantine of at least one thread as allowed
    never fails one of its checks (no thread limit, double start, wrong user id, corrupt
    counter), and each operation moves every thread at most one step along its life
    cycle: invalid, created, running, finished, dead, invalid again.  The constructor also
    accepts a quarantine of no threads, for which this does not hold: see
    [no_quarantine_bug]. *)
Theorem registry_safe q r o : 1 ≤ q → reachable q r → enabled r o → ∃ r', run r o = Ok r' ∧ reachable q r' ∧ moves (threads_ r) (threads_ r').
Proof.
  intros Hq Hr Hen. destruct (registry_reachable_inv q r Hq Hr) as [g Hinv]. pose proof (run_ok r g o Hinv Hen) as Hok.
  destruct (run r o) as [r'|] eqn:E; [|done]. exists r'. split; [done|]. split; [by eapply reach_step|apply Hok].
Qed.

(** In every reachable registry with a quarantine the counters are exact, the map from user ids
    finds precisely the contexts that have them, a tid is the index of its context, unique
    ids are distinct, and the quarantine is the bounded list of the dead threads. *)
Theorem registry_invariant q r : 1 ≤ q → reachable q r →
  alive_threads_ r = sumZ is_alive (threads_ r) ∧ running_threads_ r = sumZ is_running (threads_ r) ∧ alive_threads_ r ≤ GetMaxAliveThreads r ≤ num_threads r ∧
  (∀ u t, map_key u → returns (map_get (live_ r) u) (λ res, res = Some t ↔ u ≠ 0 ∧ ∃ c, thread_at (threads_ r) t c ∧ user_id c = u)) ∧
  (∀ i c, thread_at (threads_ r) i c → tid c = i) ∧ NoDup (unique_id <$> threads_ r) ∧
  NoDup (dead_threads_ r) ∧ Z.of_nat (length (dead_threads_ r)) ≤ thread_quarantine_size_ r ∧
  (∀ i, i ∈ dead_threads_ r ↔ 0 < i ∧ ∃ c, thread_at (threads_ r) i c ∧ status c = Dead).
Proof.
  intros Hq Hr. destruct (registry_reachable_inv q r Hq Hr) as [g Hinv]. split; [apply Hinv|]. split; [apply Hinv|]. split; [apply Hinv|]. split; [|split_and!; try apply Hinv].
  - intros u t Hk. eapply returns_mono; [apply (map_get_rep _ g); [apply Hinv|done]|]. intros ? ->. apply Hinv.
  - intros i. rewrite (lo_dead _ _ _ _ _ (ri_lists _ _ _ Hinv) i). split; [by intros (? & _ & ?)|]. intros [? ?]. split; [done|]. split; [apply not_elem_of_empty|done].
Qed.

(** [CreateThread] returns the tid of a context that was not in use, now created with
    the arguments of the call; its unique id is the number of threads created
    before, which no context has had. *)
Theorem CreateThread_correct q r u det parent arg : 1 ≤ q → reachable q r → enabled r (Create u det parent arg) →
  returns (CreateThread r u det parent arg) (λ '(r', t),
    (∀ c, thread_at (threads_ r) t c → status c = Invalid) ∧
    (∃ c', thread_at (threads_ r') t c' ∧ created c' u det parent (total_threads_ r)) ∧
    ∀ c, c ∈ threads_ r → unique_id c ≠ total_threads_ r).
Proof.
  intros Hq Hr (H1 & H2 & H3). destruct (registry_reachable_inv q r Hq Hr) as [g Hinv]. eapply returns_mono; [by apply (CreateThread_ok r g)|].
  intros [r' t] (_ & Hold & Hnew). split; [done|]. split; [done|]. intros c Hc. destruct (ri_unique _ _ _ Hinv) as [[_ Hu] _]. specialize (Hu c Hc). lia.
Qed.

(** Joining waits for the end of the thread, and no longer: while the thread is
    running a round of [JoinThread] changes nothing and is not the last one; after
    [FinishThread] the next round is the last, and it leaves the thread dead, its user
    id free for another one. *)
Theorem join_waits_for_finish q r t c arg : 1 ≤ q → reachable q r → thread_at (threads_ r) t c → status c = Running → detached c = false →
  JoinThread r t arg = Ok (r, false) ∧
  returns (FinishThread r t) (λ '(r', _), returns (JoinThread r' t arg) (λ '(r'', last), last = true ∧
    ∃ c', thread_at (threads_ r'') t c' ∧ status c' = Dead ∧ user_id c' = 0)).
Proof.
  intros Hq Hr Hc Es Hd. destruct (registry_reachable_inv q r Hq Hr) as [g Hinv]. split.
  - destruct (ri_ctx _ _ _ Hinv _ _ Hc) as [Hcs _]. rewrite Es in Hcs. unfold JoinThread. rewrite (get_thread_at _ _ _ Hc). cbn [mbind result_bind].
    rewrite Es, Hcs. by statuses.
  - eapply returns_mono; [apply (FinishThread_ok r g t c); auto|]. intros [r' prev] (([g' Hinv'] & _) & _ & c' & Hc' & Es' & _).
    unfold finish_status in Es'. rewrite Es, Hd in Es'. cbn in Es'. eapply returns_mono; [apply (JoinThread_ok r' g' t c'); [done..|by rewrite Es']|].
    intros [r'' last] (_ & Hlast & c'' & Hc'' & Hd''). split; [apply Hlast; auto|]. rewrite decide_True in Hd'' by done. eauto.
Qed.

End Registry.

(** ** The instance: the hash table of [DenseMap.v] with keys of type [uptr] *)
#[local] Existing Instance Info_ulong.
#[local] Existing Instance Info_ulong_laws.

Notation UserMap := (DM.DenseMap Z Z).
Lemma user_bucket : 0 < 16 ≤ 4096.
Proof. lia. Qed.
#[local] Instance user_map_ops : MapOps UserMap Z Z := DM.DenseMap_ops 4096 16 0 (0, 0).
#[local] Instance user_map_laws : MapLaws UserMap Z Z := DM.DenseMap_laws 4096 16 0 (0, 0) DM.page4k user_bucket.

Definition demo_step (r : ThreadRegistry UserMap) (o : op) : ThreadRegistry UserMap := from_result r (run r o).
Definition demo0 : ThreadRegistry UserMap := new_ThreadRegistry 8 2 0.
Definition demo1 := demo_step demo0 (Create 77 false 0 5).
Definition demo2 := demo_step demo1 (Start 0 1234 Regular 6).

Lemma demo1_enabled : enabled demo0 (Create 77 false 0 5).
Proof.
  split; [right; vm_compute; reflexivity|]. split; [vm_compute; reflexivity|]. right. split; [lia|]. split; [split; vm_compute; discriminate|].
  split; [by intros i c []|vm_compute; reflexivity].
Qed.

Lemma demo2_reachable : reachable 2 demo2.
Proof.
  apply (reach_step 2 demo1 (Start 0 1234 Regular 6)); [apply (reach_step 2 demo0 (Create 77 false 0 5)); [by apply reach_new|apply demo1_enabled|vm_compute; reflexivity]| |vm_compute; reflexivity].
  eexists. split; [split; [lia|vm_compute; reflexivity]|reflexivity].
Qed.

Lemma registry_safe_witness : ∃ r', run demo0 (Create 77 false 0 5) = Ok r' ∧ reachable 2 r' ∧ moves (threads_ demo0) (threads_ r').
Proof. apply (registry_safe 2 demo0 (Create 77 false 0 5)); [lia|by apply reach_new|apply demo1_enabled]. Defined.

Lemma registry_invariant_witness : alive_threads_ demo2 = sumZ is_alive (threads_ demo2).
Proof. exact (proj1 (registry_invariant 2 demo2 ltac:(lia) demo2_reachable)). Defined.

Lemma CreateThread_correct_witness : returns (CreateThread demo0 77 false 0 5) (λ '(r', t),
    (∀ c, thread_at (threads_ demo0) t c → status c = Invalid) ∧
    (∃ c', thread_at (threads_ r') t c' ∧ created c' 77 false 0 (total_threads_ demo0)) ∧
    ∀ c, c ∈ threads_ demo0 → unique_id c ≠ total_threads_ demo0).
Proof. apply (CreateThread_correct 2 demo0 77 false 0 5); [lia|by apply reach_new|apply demo1_enabled]. Defined.

Lemma join_waits_for_finish_witness : JoinThread demo2 0 9 = Ok (demo2, false).
Proof.
  assert (∃ c, thread_at (threads_ demo2) 0 c ∧ status c = Running ∧ detached c = false) as (c & Hc & Es & Hd)
    by (eexists; split; [split; [lia|vm_compute; reflexivity]|split; reflexivity]).
  exact (proj1 (join_waits_for_finish 2 demo2 0 c 9 ltac:(lia) demo2_reachable Hc Es Hd)).
Defined.

(** Without a quarantine ([thread_quarantine_size] = 0) a detached thread that finishes
    is reset at once and its context can be reused, but [FinishThread] then marks it as
    destroyed: the thread created next in it counts as finished while it runs,
    and joining it fails the check of [SetJoined]. *)
Example no_quarantine_bug :
  (r ← run (new_ThreadRegistry 8 0 0 : ThreadRegistry UserMap) (Create 0 false 0 0);
   r ← run r (Create 5 true 0 0); r ← run r (Start 1 100 Regular 0); r ← run r (Finish 1);
   r ← run r (Create 6 false 0 0); r ← run r (Start 1 101 Regular 0);
   JoinThread r 1 0) = Fault CheckFailed.
Proof. vm_compute. reflexivity. Qed.

End Registry.
