(* ===== verification/Mutex.v ===== *)
(** * Mutex: the locks of the runtime

    Models [Mutex] (the reader-writer lock), [Semaphore] and [StaticSpinMutex] of
    [sanitizer_mutex.h] and [sanitizer_mutex.cpp].  Any number of threads below [2^20] call
    the operations; a thread is the point of the code at which it is, with its local
    variables, and a step performs one atomic operation.  Steps interleave
    arbitrarily (sequential consistency).  A weak compare-exchange may fail for no reason.  The
    futex calls are those of the operating system: [FutexWait] returns at once when the value
    has changed and otherwise sleeps until it is woken, or for no reason; [FutexWake]
    wakes as many sleeping threads as it is told, or all of them.  The debug checks ([DCHECK]) are
    included; the hierarchy checks of [CheckedMutex] are in [CheckedMutex.v]. *)
From S2P Require Import Prelude Common.

Module Mutex.

(** ** The state word *)
Abbreviation kCounterWidth := (20) (only parsing).
Abbreviation kReaderLockShift := (0) (only parsing).
Abbreviation kReaderLockInc := (Z.shiftl 1 kReaderLockShift) (only parsing).
Abbreviation kReaderLockMask := (Z.shiftl (Z.shiftl 1 kCounterWidth - 1) kReaderLockShift) (only parsing).
Abbreviation kWaitingReaderShift := (kCounterWidth) (only parsing).
Abbreviation kWaitingReaderInc := (Z.shiftl 1 kWaitingReaderShift) (only parsing).
Abbreviation kWaitingReaderMask := (Z.shiftl (Z.shiftl 1 kCounterWidth - 1) kWaitingReaderShift) (only parsing).
Abbreviation kWaitingWriterShift := (2 * kCounterWidth) (only parsing).
Abbreviation kWaitingWriterInc := (Z.shiftl 1 kWaitingWriterShift) (only parsing).
Abbreviation kWaitingWriterMask := (Z.shiftl (Z.shiftl 1 kCounterWidth - 1) kWaitingWriterShift) (only parsing).
Abbreviation kWriterLock := (Z.shiftl 1 (3 * kCounterWidth)) (only parsing).
Abbreviation kWriterSpinWait := (Z.shiftl 1 (3 * kCounterWidth + 1)) (only parsing).
Abbreviation kReaderSpinWait := (Z.shiftl 1 (3 * kCounterWidth + 2)) (only parsing).
Abbreviation kMaxSpinIters := (1500) (only parsing).

(** [~x] on [u64]. *)
Definition not64 (x : Z) : Z := u64 (Z.lnot x).
Definition has (state mask : Z) : bool := negb (Z.land state mask =? 0).

(** ** Threads *)
Inductive sem := Writers | Readers.

#[export] Instance sem_eq_dec : EqDecision sem.
Proof. solve_decision. Defined.

(** The atomic variables: [state_], and [state_] of the two semaphores. *)
Record shared := mkShared { word : Z; writers_ : Z; readers_ : Z }.
Implicit Types (m : shared).

Definition count_of m (s : sem) : Z := match s with Writers => writers_ m | Readers => readers_ m end.
Definition set_word m (w : Z) : shared := mkShared w (writers_ m) (readers_ m).
Definition set_count m (s : sem) (c : Z) : shared :=
  match s with Writers => mkShared (word m) c (readers_ m) | Readers => mkShared (word m) (writers_ m) c end.

(** Where a thread is: outside, in the loop of an operation with its local variables (and
    before the reload at its end), holding the lock, or inside a semaphore. *)
Inductive pc :=
  | Idle
  | LockLoop (state reset_mask spin_iters : Z)
  | LockAgain (spin_iters : Z)
  | TryLoop (state : Z)
  | WriteHeld
  | UnlockLoop (state : Z)
  | ReadLoop (state reset_mask spin_iters : Z)
  | ReadAgain (spin_iters : Z)
  | ReadHeld
  | ReadUnlockLoop (state : Z)
  | SemLoad (s : sem)
  | SemTry (s : sem) (count : Z)
  | SemSleep (s : sem)
  | SemPost (s : sem) (count : Z)
  | SemWake (s : sem) (count : Z).
Implicit Types (p q : pc).

(** What the environment decides: the operation an idle thread calls, and
    whether a weak compare-exchange may succeed. *)
Inductive call := Lock | TryLock | ReadLock.
Definition choice : Type := call * bool.

(** [atomic_compare_exchange_weak]: on failure the expected value is updated. *)
Definition cas (ok : bool) m (state new_state : Z) (done : pc) (again : Z → pc) : shared * pc :=
  if ok && (word m =? state) then (set_word m new_state, done) else (m, again (word m)).

(** ** Writers *)
(** The round of the loop of [Lock]: the new state to try, if any. *)
Definition lock_new_state (state reset_mask spin_iters : Z) : option Z :=
  if negb (has state (Z.lor kWriterLock kReaderLockMask)) then Some (Z.land (Z.lor state kWriterLock) reset_mask)
  else if kMaxSpinIters <? spin_iters then Some (Z.land (u64 (state + kWaitingWriterInc)) reset_mask)
  else if Z.land state kWriterSpinWait =? 0 then Some (Z.lor state kWriterSpinWait)
  else None.

Definition lock_round (ok : bool) m (state reset_mask spin_iters : Z) : shared * pc :=
  let next := u64 (spin_iters + 1) in
  match lock_new_state state reset_mask spin_iters with
  | None => (m, LockLoop (word m) reset_mask next)
  | Some new_state =>
      cas ok m state new_state
        (if negb (has state (Z.lor kWriterLock kReaderLockMask)) then WriteHeld
         else if kMaxSpinIters <? spin_iters then SemLoad Writers
         else LockAgain spin_iters)
        (λ state, LockLoop state reset_mask next)
  end.

(** After waiting or announcing itself the thread is responsible for [kWriterSpinWait]. *)
Definition lock_again m (spin_iters : Z) : result (shared * pc) :=
  let state := word m in
  CHECK (has state kWriterSpinWait);;
  Ok (m, LockLoop state (not64 kWriterSpinWait) (u64 (spin_iters + 1))).

Definition try_round (ok : bool) m (state : Z) : shared * pc :=
  if has state (Z.lor kWriterLock kReaderLockMask) then (m, Idle)
  else cas ok m state (Z.lor state kWriterLock) WriteHeld TryLoop.

(** The new state, whether to wake a writer, and how many readers to wake. *)
Definition unlock_new_state (state : Z) : Z * bool * Z :=
  let new_state := Z.land state (not64 kWriterLock) in
  let wake_writer := negb (has state (Z.lor kWriterSpinWait kReaderSpinWait)) && has state kWaitingWriterMask in
  let new_state := if wake_writer then Z.lor (u64 (new_state - kWaitingWriterInc)) kWriterSpinWait else new_state in
  let wake_readers := if wake_writer || has state kWriterSpinWait then 0
                      else Z.shiftr (Z.land state kWaitingReaderMask) kWaitingReaderShift in
  let new_state := if negb (wake_readers =? 0) then Z.lor (Z.land new_state (not64 kWaitingReaderMask)) kReaderSpinWait else new_state in
  (new_state, wake_writer, wake_readers).

Definition unlock_round (ok : bool) m (state : Z) : result (shared * pc) :=
  CHECK (has state kWriterLock);;
  CHECK (negb (has state kReaderLockMask));;
  let '(new_state, wake_writer, wake_readers) := unlock_new_state state in
  Ok (cas ok m state new_state
        (if wake_writer then SemPost Writers 1
         else if negb (wake_readers =? 0) then SemPost Readers (u32 wake_readers) else Idle)
        UnlockLoop).

(** ** Readers *)
Definition read_new_state (state reset_mask spin_iters : Z) : option Z :=
  if negb (has state kWriterLock) then Some (Z.land (u64 (state + kReaderLockInc)) reset_mask)
  else if kMaxSpinIters <? spin_iters then Some (Z.land (u64 (state + kWaitingReaderInc)) reset_mask)
  else if Z.land state kReaderSpinWait =? 0 then Some (Z.lor state kReaderSpinWait)
  else None.

Definition read_round (ok : bool) m (state reset_mask spin_iters : Z) : shared * pc :=
  let next := u64 (spin_iters + 1) in
  match read_new_state state reset_mask spin_iters with
  | None => (m, ReadLoop (word m) reset_mask next)
  | Some new_state =>
      cas ok m state new_state
        (if negb (has state kWriterLock) then ReadHeld
         else if kMaxSpinIters <? spin_iters then SemLoad Readers
         else ReadAgain spin_iters)
        (λ state, ReadLoop state reset_mask next)
  end.

Definition read_again m (spin_iters : Z) : shared * pc :=
  (m, ReadLoop (word m) (not64 kReaderSpinWait) (u64 (spin_iters + 1))).

Definition read_unlock_new_state (state : Z) : Z * bool :=
  let new_state := u64 (state - kReaderLockInc) in
  let wake := negb (has new_state (Z.lor (Z.lor kReaderLockMask kWriterSpinWait) kReaderSpinWait)) && has new_state kWaitingWriterMask in
  (if wake then Z.lor (u64 (new_state - kWaitingWriterInc)) kWriterSpinWait else new_state, wake).

Definition read_unlock_round (ok : bool) m (state : Z) : result (shared * pc) :=
  CHECK (has state kReaderLockMask);;
  CHECK (negb (has state kWriterLock));;
  let '(new_state, wake) := read_unlock_new_state state in
  Ok (cas ok m state new_state (if wake then SemPost Writers 1 else Idle) ReadUnlockLoop).

Abbreviation CheckWriteLocked m := (CHECK (has (word m) kWriterLock)) (only parsing).
Abbreviation CheckReadLocked m := (CHECK (has (word m) kReaderLockMask)) (only parsing).

(** ** Semaphores *)
(** Where [Mutex] continues after [Wait]. *)
Definition after_wait (s : sem) : pc := match s with Writers => LockAgain 0 | Readers => ReadAgain 0 end.

Definition wait_round (ok : bool) m (s : sem) (count : Z) : shared * pc :=
  if count =? 0 then (m, if count_of m s =? 0 then SemSleep s else SemLoad s)
  else if ok && (count_of m s =? count) then (set_count m s (u32 (count - 1)), after_wait s)
  else (m, SemTry s (count_of m s)).

Definition Post m (s : sem) (count : Z) : result (shared * pc) :=
  CHECK (negb (count =? 0));;
  Ok (set_count m s (u32 (count_of m s + count)), SemWake s count).

(** ** One step of a thread

    A sleeping thread that runs has been woken for no reason; the effect of [FutexWake] on other
    threads is part of [step]. *)
Definition exec (c : choice) m p : result (shared * pc) :=
  let ok := c.2 in
  match p with
  | Idle => Ok (m, match c.1 with
                   | Lock => LockLoop (word m) (2 ^ 64 - 1) 0
                   | TryLock => TryLoop (word m)
                   | ReadLock => ReadLoop (word m) (2 ^ 64 - 1) 0
                   end)
  | LockLoop state reset_mask spin_iters => Ok (lock_round ok m state reset_mask spin_iters)
  | LockAgain spin_iters => lock_again m spin_iters
  | TryLoop state => Ok (try_round ok m state)
  | WriteHeld => Ok (m, UnlockLoop (word m))
  | UnlockLoop state => unlock_round ok m state
  | ReadLoop state reset_mask spin_iters => Ok (read_round ok m state reset_mask spin_iters)
  | ReadAgain spin_iters => Ok (read_again m spin_iters)
  | ReadHeld => Ok (m, ReadUnlockLoop (word m))
  | ReadUnlockLoop state => read_unlock_round ok m state
  | SemLoad s => Ok (m, SemTry s (count_of m s))
  | SemTry s count => Ok (wait_round ok m s count)
  | SemSleep s => Ok (m, SemLoad s)
  | SemPost s count => Post m s count
  | SemWake s count => Ok (m, Idle)
  end.

(** [n] when the semaphores are the same. *)
Definition on (s s' : sem) (n : Z) : Z := match s, s' with Writers, Writers | Readers, Readers => n | _, _ => 0 end.
Definition asleep (s : sem) p : Z := match p with SemSleep s' => on s s' 1 | _ => 0 end.

(** Waking the threads of a list. *)
Definition FutexWake (s : sem) (ws : list nat) (ts : list pc) : list pc := foldr (λ j ts, <[j := SemLoad s]> ts) ts ws.

Record sys := mkSys { mem : shared; threads : list pc }.

Inductive step : sys → sys → Prop :=
  | step_run m ts i p c m' q : ts !! i = Some p → (∀ s n, p ≠ SemWake s n) → exec c m p = Ok (m', q) →
      step (mkSys m ts) (mkSys m' (<[i := q]> ts))
  | step_wake m ts i s n ws : ts !! i = Some (SemWake s n) → NoDup ws → Forall (λ j, ts !! j = Some (SemSleep s)) ws →
      Z.of_nat (length ws) = n `min` sumZ (asleep s) ts →
      step (mkSys m ts) (mkSys m (FutexWake s ws (<[i := Idle]> ts))).

(** [n] threads and a new mutex. *)
Definition init (n : nat) : sys := mkSys (mkShared 0 0 0) (replicate n Idle).

(** ** Fields of an integer *)
Lemma cat_testbit lo a y i : 0 ≤ a → 0 ≤ lo < 2 ^ a → 0 ≤ i → Z.testbit (lo + 2 ^ a * y) i = if i <? a then Z.testbit lo i else Z.testbit y (i - a).
Proof.
  intros Ha Hlo Hi. destruct (Z.ltb_spec i a).
  - rewrite <- (Z.mod_pow2_bits_low (lo + 2 ^ a * y) a) by lia. rewrite (Z.mul_comm (2 ^ a)), Z_mod_plus_full. by rewrite Z.mod_small.
  - replace i with ((i - a) + a) at 1 by lia. rewrite <- Z.div_pow2_bits by lia. rewrite (Z.mul_comm (2 ^ a)), Z.div_add by lia. by rewrite Z.div_small.
Qed.

Lemma field_testbit lo a x l hi i : 0 ≤ a → 0 ≤ l → 0 ≤ lo < 2 ^ a → 0 ≤ x < 2 ^ l → 0 ≤ i →
  Z.testbit (lo + 2 ^ a * (x + 2 ^ l * hi)) i =
    if i <? a then Z.testbit lo i else if i <? a + l then Z.testbit x (i - a) else Z.testbit hi (i - a - l).
Proof.
  intros. rewrite cat_testbit by done. destruct (Z.ltb_spec i a); [done|]. rewrite cat_testbit by lia.
  destruct (Z.ltb_spec (i - a) l), (Z.ltb_spec i (a + l)); try lia; done.
Qed.

Lemma mask_testbit a l i : 0 ≤ a → 0 ≤ l → 0 ≤ i → Z.testbit (Z.shiftl (Z.ones l) a) i = (a <=? i) && (i <? a + l).
Proof.
  intros. rewrite Z.shiftl_spec by done. destruct (Z.leb_spec a i); cbn [andb].
  - destruct (Z.ltb_spec i (a + l)); [rewrite Z.ones_spec_low by lia|rewrite Z.ones_spec_high by lia]; done.
  - by rewrite Z.testbit_neg_r by lia.
Qed.

Section Field.
Variables (lo a x l hi : Z).
Hypotheses (Ha : 0 ≤ a) (Hl : 0 ≤ l) (Hlo : 0 ≤ lo < 2 ^ a) (Hx : 0 ≤ x < 2 ^ l).
Notation word := (lo + 2 ^ a * (x + 2 ^ l * hi)).
Notation mask := (Z.shiftl (Z.ones l) a).

Lemma field_get : Z.land word mask = 2 ^ a * x.
Proof using All.
  apply Z.bits_inj'. intros i Hi. rewrite Z.land_spec, field_testbit, mask_testbit by done.
  replace (2 ^ a * x) with (0 + 2 ^ a * x) by lia. rewrite cat_testbit by lia.
  destruct (Z.ltb_spec i a), (Z.leb_spec a i), (Z.ltb_spec i (a + l)); try lia; cbn [andb]; rewrite ?andb_true_r, ?andb_false_r, ?Z.testbit_0_l; try done.
  symmetry. apply (testbit_high l); lia.
Qed.

Lemma field_zero : (Z.land word mask =? 0) = (x =? 0).
Proof using All. rewrite field_get. destruct (Z.eqb_spec x 0) as [->|]; [by rewrite Z.mul_0_r|]. apply Z.eqb_neq. lia. Qed.

Lemma field_clear : 0 ≤ word < 2 ^ 64 → Z.land word (not64 mask) = lo + 2 ^ a * (0 + 2 ^ l * hi).
Proof using All.
  intros Hw. apply Z.bits_inj'. intros i Hi. unfold not64. rewrite Z.land_spec, cast_testbit by lia. rewrite Z.lnot_spec by done.
  rewrite (field_testbit lo a 0) by lia. rewrite mask_testbit by done. destruct (Z.ltb_spec i 64) as [H64|H64].
  - rewrite field_testbit by done. rewrite Z.testbit_0_l.
    destruct (Z.ltb_spec i a), (Z.leb_spec a i), (Z.ltb_spec i (a + l)); try lia; cbn; by rewrite ?andb_true_r, ?andb_false_r.
  - pose proof (testbit_high 64 word i Hw H64) as Hh. rewrite field_testbit in Hh by done. rewrite field_testbit by done. rewrite Z.testbit_0_l.
    destruct (Z.ltb_spec i a), (Z.ltb_spec i (a + l)); rewrite ?Hh, ?andb_false_r; done.
Qed.

Lemma field_set : Z.lor word mask = lo + 2 ^ a * (Z.ones l + 2 ^ l * hi).
Proof using All.
  apply Z.bits_inj'. intros i Hi. pose proof (Z.pow_pos_nonneg 2 l ltac:(lia) Hl). assert (0 ≤ Z.ones l < 2 ^ l) by (rewrite Z.ones_equiv; lia).
  rewrite Z.lor_spec, (field_testbit lo a x), (field_testbit lo a (Z.ones l)), mask_testbit by done.
  destruct (Z.ltb_spec i a), (Z.leb_spec a i), (Z.ltb_spec i (a + l)); try lia; cbn; rewrite ?orb_true_r, ?orb_false_r; try done.
  symmetry. apply Z.ones_spec_low. lia.
Qed.
End Field.

(** ** The word as a record *)
Definition enc (r wr ww wl ws rs : Z) : Z := r + 2 ^ 20 * wr + 2 ^ 40 * ww + 2 ^ 60 * wl + 2 ^ 61 * ws + 2 ^ 62 * rs.
Record valid (r wr ww wl ws rs : Z) : Prop := {
  va_r : 0 ≤ r < 2 ^ 20; va_wr : 0 ≤ wr < 2 ^ 20; va_ww : 0 ≤ ww < 2 ^ 20; va_wl : 0 ≤ wl ≤ 1; va_ws : 0 ≤ ws ≤ 1; va_rs : 0 ≤ rs ≤ 1
}.

Lemma has_lor s a b : has s (Z.lor a b) = has s a || has s b.
Proof.
  unfold has. rewrite Z.land_lor_distr_r. destruct (Z.eqb_spec (Z.land s a) 0) as [E|E], (Z.eqb_spec (Z.land s b) 0) as [E2|E2]; cbn [negb orb].
  - by rewrite E, E2.
  - by rewrite E, Z.lor_0_l, (proj2 (Z.eqb_neq _ _) E2).
  - by rewrite E2, Z.lor_0_r, (proj2 (Z.eqb_neq _ _) E).
  - rewrite (proj2 (Z.eqb_neq _ 0)); [done|]. intros H. apply Z.lor_eq_0_iff in H. tauto.
Qed.

Section Enc.
Context {r wr ww wl ws rs : Z} (V : valid r wr ww wl ws rs).
Notation w := (enc r wr ww wl ws rs).

Lemma enc_range : 0 ≤ w < 2 ^ 64.
Proof using V. destruct V. unfold enc. lia. Qed.

(** The word split around each field. *)
Lemma at_r : w = 0 + 2 ^ 0 * (r + 2 ^ 20 * (wr + 2 ^ 20 * ww + 2 ^ 40 * wl + 2 ^ 41 * ws + 2 ^ 42 * rs)).
Proof using. unfold enc. lia. Qed.
Lemma at_wr : w = r + 2 ^ 20 * (wr + 2 ^ 20 * (ww + 2 ^ 20 * wl + 2 ^ 21 * ws + 2 ^ 22 * rs)).
Proof using. unfold enc. lia. Qed.
Lemma at_ww : w = (r + 2 ^ 20 * wr) + 2 ^ 40 * (ww + 2 ^ 20 * (wl + 2 * ws + 4 * rs)).
Proof using. unfold enc. lia. Qed.
Lemma at_wl : w = (r + 2 ^ 20 * wr + 2 ^ 40 * ww) + 2 ^ 60 * (wl + 2 ^ 1 * (ws + 2 * rs)).
Proof using. unfold enc. lia. Qed.
Lemma at_ws : w = (r + 2 ^ 20 * wr + 2 ^ 40 * ww + 2 ^ 60 * wl) + 2 ^ 61 * (ws + 2 ^ 1 * rs).
Proof using. unfold enc. lia. Qed.
Lemma at_rs : w = (r + 2 ^ 20 * wr + 2 ^ 40 * ww + 2 ^ 60 * wl + 2 ^ 61 * ws) + 2 ^ 62 * (rs + 2 ^ 1 * 0).
Proof using. unfold enc. lia. Qed.

Lemma has_r : has w kReaderLockMask = negb (r =? 0).
Proof using V. unfold has. rewrite at_r. change kReaderLockMask with (Z.shiftl (Z.ones 20) 0). destruct V. rewrite field_zero by lia. done. Qed.
Lemma has_ww : has w kWaitingWriterMask = negb (ww =? 0).
Proof using V. unfold has. rewrite at_ww. change kWaitingWriterMask with (Z.shiftl (Z.ones 20) 40). destruct V. rewrite field_zero by lia. done. Qed.
Lemma has_wl : has w kWriterLock = negb (wl =? 0).
Proof using V. unfold has. rewrite at_wl. change kWriterLock with (Z.shiftl (Z.ones 1) 60). destruct V. rewrite field_zero by lia. done. Qed.
Lemma has_ws : has w kWriterSpinWait = negb (ws =? 0).
Proof using V. unfold has. rewrite at_ws. change kWriterSpinWait with (Z.shiftl (Z.ones 1) 61). destruct V. rewrite field_zero by lia. done. Qed.
Lemma has_rs : has w kReaderSpinWait = negb (rs =? 0).
Proof using V. unfold has. rewrite at_rs. change kReaderSpinWait with (Z.shiftl (Z.ones 1) 62). destruct V. rewrite field_zero by lia. done. Qed.
Lemma get_wr : Z.shiftr (Z.land w kWaitingReaderMask) kWaitingReaderShift = wr.
Proof using V.
  rewrite at_wr. change kWaitingReaderMask with (Z.shiftl (Z.ones 20) 20). destruct V. rewrite field_get by lia.
  change kWaitingReaderShift with 20. rewrite Z.shiftr_div_pow2 by lia. rewrite Z.mul_comm. by apply Z.div_mul.
Qed.

Lemma set_wl : Z.lor w kWriterLock = enc r wr ww 1 ws rs.
Proof using V. rewrite at_wl. change kWriterLock with (Z.shiftl (Z.ones 1) 60). destruct V. rewrite field_set by lia. unfold enc. change (Z.ones 1) with 1. lia. Qed.
Lemma set_ws : Z.lor w kWriterSpinWait = enc r wr ww wl 1 rs.
Proof using V. rewrite at_ws. change kWriterSpinWait with (Z.shiftl (Z.ones 1) 61). destruct V. rewrite field_set by lia. unfold enc. change (Z.ones 1) with 1. lia. Qed.
Lemma set_rs : Z.lor w kReaderSpinWait = enc r wr ww wl ws 1.
Proof using V. rewrite at_rs. change kReaderSpinWait with (Z.shiftl (Z.ones 1) 62). destruct V. rewrite field_set by lia. unfold enc. change (Z.ones 1) with 1. lia. Qed.
Lemma clear_wl : Z.land w (not64 kWriterLock) = enc r wr ww 0 ws rs.
Proof using V.
  pose proof enc_range as Hr. rewrite at_wl in *. change kWriterLock with (Z.shiftl (Z.ones 1) 60). destruct V. rewrite field_clear by lia. unfold enc. lia.
Qed.
Lemma clear_ws : Z.land w (not64 kWriterSpinWait) = enc r wr ww wl 0 rs.
Proof using V.
  pose proof enc_range as Hr. rewrite at_ws in *. change kWriterSpinWait with (Z.shiftl (Z.ones 1) 61). destruct V. rewrite field_clear by lia. unfold enc. lia.
Qed.
Lemma clear_rs : Z.land w (not64 kReaderSpinWait) = enc r wr ww wl ws 0.
Proof using V.
  pose proof enc_range as Hr. rewrite at_rs in *. change kReaderSpinWait with (Z.shiftl (Z.ones 1) 62). destruct V. rewrite field_clear by lia. unfold enc. lia.
Qed.
Lemma clear_wr : Z.land w (not64 kWaitingReaderMask) = enc r 0 ww wl ws rs.
Proof using V.
  pose proof enc_range as Hr. rewrite at_wr in *. change kWaitingReaderMask with (Z.shiftl (Z.ones 20) 20). destruct V. rewrite field_clear by lia. unfold enc. lia.
Qed.
Lemma clear_none : Z.land w (2 ^ 64 - 1) = w.
Proof using V. pose proof enc_range as Hr. change (2 ^ 64 - 1) with (Z.ones 64). rewrite Z.land_ones by lia. by apply Z.mod_small. Qed.
End Enc.

(** ** The invariant *)
Definition reading p : Z := match p with ReadHeld | ReadUnlockLoop _ => 1 | _ => 0 end.
Definition writing p : Z := match p with WriteHeld | UnlockLoop _ => 1 | _ => 0 end.
Definition waiting (s : sem) p : Z := match p with SemLoad s' | SemTry s' _ | SemSleep s' => on s s' 1 | _ => 0 end.
Definition awake (s : sem) p : Z := match p with SemLoad s' | SemTry s' _ => on s s' 1 | _ => 0 end.
Definition posting (s : sem) p : Z := match p with SemPost s' n => on s s' n | _ => 0 end.
Definition waking (s : sem) p : Z := match p with SemWake s' n => on s s' n | _ => 0 end.
(** Threads that will clear a spin bit. *)
Definition owning (s : sem) p : Z :=
  match p with
  | LockLoop _ mask _ => if mask =? 2 ^ 64 - 1 then 0 else on s Writers 1
  | LockAgain _ => on s Writers 1
  | ReadLoop _ mask _ => if mask =? 2 ^ 64 - 1 then 0 else on s Readers 1
  | ReadAgain _ => on s Readers 1
  | _ => 0
  end.

Definition pc_ok p : Prop :=
  match p with
  | LockLoop _ mask _ => mask = 2 ^ 64 - 1 ∨ mask = not64 kWriterSpinWait
  | ReadLoop _ mask _ => mask = 2 ^ 64 - 1 ∨ mask = not64 kReaderSpinWait
  | UnlockLoop state => has state kWriterLock = true ∧ has state kReaderLockMask = false
  | ReadUnlockLoop state => has state kReaderLockMask = true ∧ has state kWriterLock = false
  | SemTry _ count => 0 ≤ count
  | SemPost _ n | SemWake _ n => 0 < n < 2 ^ 20
  | _ => True
  end.

Abbreviation total := sumZ.

(** The word counts the threads; a waiting thread has a token or is counted;
    whoever is counted as waiting will be woken by the owner of the lock or of a spin bit. *)
Record inv m (ts : list pc) (r wr ww wl ws rs : Z) : Prop := {
  i_word : word m = enc r wr ww wl ws rs;
  i_r : r = total reading ts;
  i_wl : wl = total writing ts;
  i_excl : 0 < wl → wl = 1 ∧ r = 0;
  i_ww : total (waiting Writers) ts = ww + total (posting Writers) ts + writers_ m;
  i_wr : total (waiting Readers) ts = wr + total (posting Readers) ts + readers_ m;
  i_ws : ws = total (owning Writers) ts + total (posting Writers) ts + writers_ m ∧ ws ≤ 1;
  i_rs : 0 ≤ rs ≤ 1 ∧ rs ≤ total (owning Readers) ts + total (posting Readers) ts + readers_ m;
  i_counts : 0 ≤ wr ∧ 0 ≤ ww ∧ 0 ≤ writers_ m ∧ 0 ≤ readers_ m;
  i_writers_wake : 0 < ww → 0 < wl + r + ws + rs;
  i_readers_wake : 0 < wr → 0 < wl + ws + ww;
  i_sleepW : 0 < total (asleep Writers) ts → writers_ m ≤ total (awake Writers) ts + total (waking Writers) ts;
  i_sleepR : 0 < total (asleep Readers) ts → readers_ m ≤ total (awake Readers) ts + total (waking Readers) ts;
  i_len : Z.of_nat (length ts) < 2 ^ 20;
  i_pc i p : ts !! i = Some p → pc_ok p
}.

Lemma total_bounds (f : pc → Z) (ts : list pc) : (∀ p, 0 ≤ f p ≤ 1) → 0 ≤ total f ts ≤ Z.of_nat (length ts).
Proof. intros Hf. induction ts as [|p ts IH]; cbn [total length]; [lia|]. specialize (Hf p). lia. Qed.

Lemma total_room (f : pc → Z) (ts : list pc) i p : (∀ q, 0 ≤ f q ≤ 1) → ts !! i = Some p → f p = 0 → total f ts + 1 ≤ Z.of_nat (length ts).
Proof.
  intros Hf. revert i. induction ts as [|q ts IH]; intros i Hi Hp; [done|]. cbn [total length]. destruct i as [|i].
  - injection Hi as ->. pose proof (total_bounds f ts Hf). lia.
  - pose proof (Hf q). specialize (IH i Hi Hp). lia.
Qed.

Lemma total_pos (f : pc → Z) (ts : list pc) : (∀ i p, ts !! i = Some p → 0 ≤ f p) → 0 ≤ total f ts.
Proof.
  induction ts as [|p ts IH]; intros Hf; cbn [total]; [lia|]. pose proof (Hf 0%nat p eq_refl). specialize (IH (λ i q Hq, Hf (S i) q Hq)). lia.
Qed.

Lemma on_bounds s s' : 0 ≤ on s s' 1 ≤ 1.
Proof. destruct s, s'; cbn; lia. Qed.

Lemma unit_bounds p s : 0 ≤ reading p ≤ 1 ∧ 0 ≤ writing p ≤ 1 ∧ 0 ≤ waiting s p ≤ 1 ∧ 0 ≤ asleep s p ≤ 1 ∧ 0 ≤ awake s p ≤ 1 ∧ 0 ≤ owning s p ≤ 1.
Proof.
  unfold reading, writing, waiting, asleep, awake, owning. destruct p; repeat match goal with |- context [on ?a ?b 1] => pose proof (on_bounds a b); generalize dependent (on a b 1); intros end;
  try destruct (_ =? _); lia.
Qed.

Lemma posting_pos s p : pc_ok p → 0 ≤ posting s p ∧ 0 ≤ waking s p.
Proof. destruct p, s; cbn; try lia; destruct s0; cbn; lia. Qed.

Definition good m (ts : list pc) : Prop := ∃ r wr ww wl ws rs, inv m ts r wr ww wl ws rs.

Record bounds m (ts : list pc) : Prop := {
  b_reading : 0 ≤ total reading ts ≤ Z.of_nat (length ts);
  b_writing : 0 ≤ total writing ts;
  b_waiting s : 0 ≤ total (waiting s) ts ≤ Z.of_nat (length ts);
  b_asleep s : 0 ≤ total (asleep s) ts ≤ total (waiting s) ts;
  b_awake s : 0 ≤ total (awake s) ts;
  b_owning s : 0 ≤ total (owning s) ts;
  b_posting s : 0 ≤ total (posting s) ts;
  b_waking s : 0 ≤ total (waking s) ts
}.

Lemma inv_bounds m ts r wr ww wl ws rs : inv m ts r wr ww wl ws rs → bounds m ts.
Proof.
  intros Hinv. split; intros; try (apply total_bounds; intros p; apply (unit_bounds p Writers)).
  - apply total_bounds. intros p. apply (unit_bounds p s).
  - split; [apply total_bounds; intros p; apply (unit_bounds p s)|]. apply sumZ_le. intros p _. destruct p; cbn; try lia; destruct s, s0; cbn; lia.
  - apply total_bounds. intros p. apply (unit_bounds p s).
  - apply total_bounds. intros p. apply (unit_bounds p s).
  - apply total_pos. intros i p Hp. apply posting_pos, (i_pc _ _ _ _ _ _ _ _ Hinv _ _ Hp).
  - apply total_pos. intros i p Hp. apply posting_pos, (i_pc _ _ _ _ _ _ _ _ Hinv _ _ Hp).
Qed.

Lemma inv_valid m ts r wr ww wl ws rs : inv m ts r wr ww wl ws rs → valid r wr ww wl ws rs.
Proof.
  intros Hinv. destruct (inv_bounds _ _ _ _ _ _ _ _ Hinv). destruct Hinv.
  pose proof (b_waiting0 Writers). pose proof (b_waiting0 Readers). pose proof (b_posting0 Writers). pose proof (b_posting0 Readers).
  pose proof (b_owning0 Writers). split; lia.
Qed.

(** Each thread contributes to the sums. *)
Lemma inv_parts m ts r wr ww wl ws rs i p : inv m ts r wr ww wl ws rs → ts !! i = Some p →
  reading p ≤ total reading ts ∧ writing p ≤ total writing ts ∧
  ∀ s, waiting s p ≤ total (waiting s) ts ∧ posting s p ≤ total (posting s) ts ∧ owning s p ≤ total (owning s) ts ∧ asleep s p ≤ total (asleep s) ts ∧ awake s p ≤ total (awake s) ts ∧
    waking s p ≤ total (waking s) ts.
Proof.
  intros Hinv Hi. assert (∀ q, q ∈ ts → pc_ok q) as Hok by (intros q [j Hj]%list_elem_of_lookup_1; by eapply i_pc).
  split_and!; [..|intros s; split_and!]; eapply sumZ_elem; try done; intros q Hq; try apply (unit_bounds q Writers); try apply (unit_bounds q s); by apply posting_pos, Hok.
Qed.

(** The arithmetic facts of an invariant. *)
Ltac facts Hinv Hi :=
  let B := fresh "B" in let P1 := fresh "P" in let P2 := fresh "P" in let P3 := fresh "P" in
  pose proof (inv_bounds _ _ _ _ _ _ _ _ Hinv) as B; pose proof (inv_parts _ _ _ _ _ _ _ _ _ _ Hinv Hi) as (P1 & P2 & P3);
  pose proof (P3 Writers); pose proof (P3 Readers);
  pose proof (b_reading _ _ B); pose proof (b_writing _ _ B); pose proof (b_waiting _ _ B Writers); pose proof (b_waiting _ _ B Readers);
  pose proof (b_asleep _ _ B Writers); pose proof (b_asleep _ _ B Readers); pose proof (b_awake _ _ B Writers); pose proof (b_awake _ _ B Readers); pose proof (b_owning _ _ B Writers); pose proof (b_owning _ _ B Readers);
  pose proof (b_posting _ _ B Writers); pose proof (b_posting _ _ B Readers); pose proof (b_waking _ _ B Writers); pose proof (b_waking _ _ B Readers);
  clear B P3; cbn [reading writing waiting posting waking owning asleep awake on] in *.

(** The thread [i] moves from [p] to [q]: the sums change by the difference. *)
Ltac sums Hi := rewrite ?(sumZ_insert _ _ _ _ _ Hi); cbn [word writers_ readers_ set_word set_count reading writing waiting posting waking owning asleep awake on].

Lemma pcs_insert (ts : list pc) i q : (∀ j p, ts !! j = Some p → pc_ok p) → pc_ok q → ∀ j p, <[i := q]> ts !! j = Some p → pc_ok p.
Proof. intros Hts Hq j p [(_ & <- & _)|(_ & Hj)]%list_lookup_insert_Some; [done|eauto]. Qed.

(** What a thread contributes to the sums. *)
Definition same_part p q : Prop := reading p = reading q ∧ writing p = writing q ∧
  ∀ s, waiting s p = waiting s q ∧ posting s p = posting s q ∧ waking s p = waking s q ∧ owning s p = owning s q ∧ asleep s p = asleep s q ∧ awake s p = awake s q.

Lemma mutex_quiet m ts r wr ww wl ws rs i p q : inv m ts r wr ww wl ws rs → ts !! i = Some p → same_part p q → pc_ok q →
  inv m (<[i := q]> ts) r wr ww wl ws rs.
Proof.
  intros Hinv Hi (E1 & E2 & E3) Hq. pose proof (E3 Writers) as (W1 & W2 & W3 & W4 & W5 & W6). pose proof (E3 Readers) as (R1 & R2 & R3 & R4 & R5 & R6).
  destruct Hinv. split; rewrite ?length_insert, ?(sumZ_insert _ _ _ _ _ Hi); try lia; try done; (apply pcs_insert; [done|first [done|cbn [pc_ok]; lia]]).
Qed.

Lemma mask_full : (2 ^ 64 - 1 =? 2 ^ 64 - 1) = true.
Proof. done. Qed.
Lemma mask_writer : (not64 kWriterSpinWait =? 2 ^ 64 - 1) = false.
Proof. done. Qed.
Lemma mask_reader : (not64 kReaderSpinWait =? 2 ^ 64 - 1) = false.
Proof. done. Qed.

(** The invariant after a step, from the facts about the state before it. *)
Ltac new_inv Hi := split; sums Hi; rewrite ?length_insert, ?mask_full, ?mask_writer, ?mask_reader; try lia; try done; (apply pcs_insert; [done|first [done|cbn [pc_ok]; lia]]).

(** *** Writers *)
Lemma lock_free_inv m ts r wr ww wl ws rs i st mask sp : inv m ts r wr ww wl ws rs → ts !! i = Some (LockLoop st mask sp) →
  r = 0 → wl = 0 → good (set_word m (Z.land (Z.lor (word m) kWriterLock) mask)) (<[i := WriteHeld]> ts).
Proof.
  intros Hinv Hi -> ->. pose proof (inv_valid _ _ _ _ _ _ _ _ Hinv) as V. pose proof (i_pc _ _ _ _ _ _ _ _ Hinv _ _ Hi) as Hm. cbn in Hm.
  rewrite (i_word _ _ _ _ _ _ _ _ Hinv), (set_wl V). assert (valid 0 wr ww 1 ws rs) as V' by (destruct V; split; lia).
  facts Hinv Hi. destruct Hm as [-> | ->]; [rewrite (clear_none V')|rewrite (clear_ws V')]; rewrite ?mask_full, ?mask_writer in *.
  - exists 0, wr, ww, 1, ws, rs. destruct Hinv. new_inv Hi.
  - exists 0, wr, ww, 1, 0, rs. destruct Hinv. new_inv Hi.
Qed.

Lemma enc_inc_ww r wr ww wl ws rs : valid r wr (ww + 1) wl ws rs → u64 (enc r wr ww wl ws rs + kWaitingWriterInc) = enc r wr (ww + 1) wl ws rs.
Proof. intros V. pose proof (enc_range V). change kWaitingWriterInc with (2 ^ 40). unfold enc in *. rewrite cast_id; lia. Qed.

(** Fewer than [2^20] threads: one that is not counted yet can be. *)
Lemma count_writer m ts r wr ww wl ws rs i p : inv m ts r wr ww wl ws rs → ts !! i = Some p → waiting Writers p = 0 → ww + 1 < 2 ^ 20.
Proof.
  intros Hinv Hi Hp. pose proof (inv_bounds _ _ _ _ _ _ _ _ Hinv) as B. pose proof (b_posting _ _ B Writers).
  assert (total (waiting Writers) ts + 1 ≤ Z.of_nat (length ts)) by (eapply total_room; [intros q; apply (unit_bounds q Writers)|done|done]). destruct Hinv. lia.
Qed.

Lemma lock_block_inv m ts r wr ww wl ws rs i st mask sp : inv m ts r wr ww wl ws rs → ts !! i = Some (LockLoop st mask sp) →
  0 < wl + r → good (set_word m (Z.land (u64 (word m + kWaitingWriterInc)) mask)) (<[i := SemLoad Writers]> ts).
Proof.
  intros Hinv Hi Hl. pose proof (inv_valid _ _ _ _ _ _ _ _ Hinv) as V. pose proof (i_pc _ _ _ _ _ _ _ _ Hinv _ _ Hi) as Hm. cbn in Hm.
  pose proof (count_writer _ _ _ _ _ _ _ _ _ _ Hinv Hi eq_refl) as Hc. assert (valid r wr (ww + 1) wl ws rs) as V' by (destruct V; split; lia).
  rewrite (i_word _ _ _ _ _ _ _ _ Hinv), (enc_inc_ww _ _ _ _ _ _ V').
  facts Hinv Hi. destruct Hm as [-> | ->]; [rewrite (clear_none V')|rewrite (clear_ws V')]; rewrite ?mask_full, ?mask_writer in *.
  - exists r, wr, (ww + 1), wl, ws, rs. destruct Hinv. new_inv Hi.
  - exists r, wr, (ww + 1), wl, 0, rs. destruct Hinv. new_inv Hi.
Qed.

Lemma lock_announce_inv m ts r wr ww wl ws rs i st mask sp : inv m ts r wr ww wl ws rs → ts !! i = Some (LockLoop st mask sp) →
  ws = 0 → good (set_word m (Z.lor (word m) kWriterSpinWait)) (<[i := LockAgain sp]> ts).
Proof.
  intros Hinv Hi ->. pose proof (inv_valid _ _ _ _ _ _ _ _ Hinv) as V. rewrite (i_word _ _ _ _ _ _ _ _ Hinv), (set_ws V). facts Hinv Hi.
  exists r, wr, ww, wl, 1, rs. destruct (mask =? 2 ^ 64 - 1) eqn:Em.
  - destruct Hinv. split; sums Hi; rewrite ?length_insert, ?Em; try lia; try done; (apply pcs_insert; [done|first [done|cbn [pc_ok]; lia]]).
  - destruct Hinv. lia.
Qed.

(** A compare-exchange succeeds on the current word, or changes nothing. *)
Lemma cas_cases ok m st new done again (Q : shared * pc → Prop) :
  (word m = st → Q (set_word m new, done)) → Q (m, again (word m)) → Q (cas ok m st new done again).
Proof. intros H1 H2. unfold cas. destruct ok; cbn [andb]; [|done]. destruct (Z.eqb_spec (word m) st); auto. Qed.

Lemma locked_enc r wr ww wl ws rs : valid r wr ww wl ws rs → has (enc r wr ww wl ws rs) (Z.lor kWriterLock kReaderLockMask) = (0 <? wl + r).
Proof. intros V. rewrite has_lor, (has_wl V), (has_r V). destruct V. destruct (Z.eqb_spec wl 0), (Z.eqb_spec r 0), (Z.ltb_spec 0 (wl + r)); try lia; done. Qed.

Lemma lock_round_inv m ts r wr ww wl ws rs i ok st mask sp : inv m ts r wr ww wl ws rs → ts !! i = Some (LockLoop st mask sp) →
  let '(m', q) := lock_round ok m st mask sp in good m' (<[i := q]> ts).
Proof.
  intros Hinv Hi. pose proof (inv_valid _ _ _ _ _ _ _ _ Hinv) as V. pose proof (i_pc _ _ _ _ _ _ _ _ Hinv _ _ Hi) as Hm.
  assert (∀ st' sp', good m (<[i := LockLoop st' mask sp']> ts)) as Hquiet.
  { intros st' sp'. exists r, wr, ww, wl, ws, rs. by apply (mutex_quiet _ _ _ _ _ _ _ _ _ (LockLoop st mask sp)). }
  unfold lock_round. destruct (lock_new_state st mask sp) as [new|] eqn:En; [|apply Hquiet].
  apply (cas_cases _ _ _ _ _ _ (λ '(m', q), good m' (<[i := q]> ts))); [|apply Hquiet]. intros Ew. unfold lock_new_state in En. subst st.
  rewrite (i_word _ _ _ _ _ _ _ _ Hinv), (locked_enc _ _ _ _ _ _ V) in *. rewrite <- (i_word _ _ _ _ _ _ _ _ Hinv) in *.
  destruct (Z.ltb_spec 0 (wl + r)) as [Hl|Hl]; cbn [negb] in *.
  - destruct (kMaxSpinIters <? sp); [injection En as <-; by eapply lock_block_inv|].
    destruct (Z.land (word m) kWriterSpinWait =? 0) eqn:Es; [|done]. injection En as <-. eapply lock_announce_inv; [done|done|].
    pose proof (has_ws V) as Hs. unfold has in Hs. rewrite <- (i_word _ _ _ _ _ _ _ _ Hinv), Es in Hs. destruct (Z.eqb_spec ws 0); done.
  - injection En as <-. destruct V. apply (lock_free_inv m ts r wr ww wl ws rs i (word m) mask sp); [done|done|lia|lia].
Qed.

Lemma lock_again_inv m ts r wr ww wl ws rs i sp : inv m ts r wr ww wl ws rs → ts !! i = Some (LockAgain sp) →
  returns (lock_again m sp) (λ '(m', q), good m' (<[i := q]> ts)).
Proof.
  intros Hinv Hi. unfold lock_again. pose proof (inv_valid _ _ _ _ _ _ _ _ Hinv) as V. facts Hinv Hi. rewrite (i_word _ _ _ _ _ _ _ _ Hinv), (has_ws V).
  destruct (Z.eqb_spec ws 0) as [E|_]; [destruct Hinv; lia|]. cbn [CHECK negb mbind result_bind returns].
  exists r, wr, ww, wl, ws, rs. apply (mutex_quiet _ _ _ _ _ _ _ _ _ _ _ Hinv Hi); [done|by right].
Qed.

Lemma try_round_inv m ts r wr ww wl ws rs i ok st : inv m ts r wr ww wl ws rs → ts !! i = Some (TryLoop st) →
  let '(m', q) := try_round ok m st in good m' (<[i := q]> ts).
Proof.
  intros Hinv Hi. pose proof (inv_valid _ _ _ _ _ _ _ _ Hinv) as V. assert (∀ q, same_part (TryLoop st) q → pc_ok q → good m (<[i := q]> ts)) as Hquiet.
  { intros q Hs Hq. exists r, wr, ww, wl, ws, rs. by eapply mutex_quiet. }
  unfold try_round. destruct (has st _) eqn:Eh; [by apply Hquiet|].
  apply (cas_cases _ _ _ _ _ _ (λ '(m', q), good m' (<[i := q]> ts))); [|by apply Hquiet]. intros <-.
  rewrite (i_word _ _ _ _ _ _ _ _ Hinv), (locked_enc _ _ _ _ _ _ V) in Eh. apply Z.ltb_ge in Eh.
  rewrite (i_word _ _ _ _ _ _ _ _ Hinv), (set_wl V). exists r, wr, ww, 1, ws, rs. facts Hinv Hi. destruct Hinv, V. new_inv Hi.
Qed.

Lemma enc_dec_ww r wr ww wl ws rs : valid r wr ww wl ws rs → 0 < ww → u64 (enc r wr ww wl ws rs - kWaitingWriterInc) = enc r wr (ww - 1) wl ws rs.
Proof. intros V Hw. pose proof (enc_range V). change kWaitingWriterInc with (2 ^ 40). destruct V. unfold enc in *. rewrite cast_id; lia. Qed.

(** Whom [Unlock] wakes. *)
Lemma unlock_new_state_enc wr ww ws rs : valid 0 wr ww 1 ws rs → unlock_new_state (enc 0 wr ww 1 ws rs) =
  if (ws =? 0) && (rs =? 0) && (0 <? ww) then (enc 0 wr (ww - 1) 0 1 0, true, 0)
  else if (ws =? 0) && (0 <? wr) then (enc 0 0 ww 0 ws 1, false, wr) else (enc 0 wr ww 0 ws rs, false, 0).
Proof.
  intros V. assert (valid 0 wr ww 0 ws rs) as V0 by (destruct V; split; lia). unfold unlock_new_state. rewrite has_lor, (has_ws V), (has_rs V), (has_ww V), (get_wr V), (clear_wl V).
  assert (valid 0 0 ww 0 ws rs) as V1 by (destruct V; split; lia).
  destruct (Z.eqb_spec ws 0) as [->|Hs]; cbn [negb orb andb].
  - destruct (Z.eqb_spec rs 0) as [->|Hr]; cbn [negb orb andb].
    + destruct (Z.eqb_spec ww 0) as [Hw|Hw], (Z.ltb_spec 0 ww); try (destruct V; lia); cbn [negb orb andb].
      * destruct (Z.eqb_spec wr 0) as [Ewr|Ewr], (Z.ltb_spec 0 wr); try (destruct V; lia); [by subst|by rewrite (clear_wr V0), (set_rs V1)].
      * assert (valid 0 wr (ww - 1) 0 0 0) as V2 by (destruct V; split; lia). by rewrite (enc_dec_ww _ _ _ _ _ _ V0), (set_ws V2).
    + destruct (Z.eqb_spec wr 0) as [Ewr|Ewr], (Z.ltb_spec 0 wr); try (destruct V; lia); [by subst|by rewrite (clear_wr V0), (set_rs V1)].
  - destruct (rs =? 0); done.
Qed.

Lemma unlock_round_inv m ts r wr ww wl ws rs i ok st : inv m ts r wr ww wl ws rs → ts !! i = Some (UnlockLoop st) →
  returns (unlock_round ok m st) (λ '(m', q), good m' (<[i := q]> ts)).
Proof.
  intros Hinv Hi. destruct (i_pc _ _ _ _ _ _ _ _ Hinv _ _ Hi) as [Hw Hr]. unfold unlock_round. rewrite Hw, Hr. cbn [CHECK negb mbind result_bind].
  pose proof (inv_valid _ _ _ _ _ _ _ _ Hinv) as V. facts Hinv Hi.
  assert (wl = 1 ∧ r = 0) as [-> ->] by (destruct Hinv; lia). destruct (unlock_new_state st) as [[new ww'] wr'] eqn:En. cbn [returns].
  apply (cas_cases _ _ _ _ _ _ (λ '(m', q), good m' (<[i := q]> ts))).
  2: { exists 0, wr, ww, 1, ws, rs. apply (mutex_quiet _ _ _ _ _ _ _ _ _ _ _ Hinv Hi); [done|]. cbn. rewrite (i_word _ _ _ _ _ _ _ _ Hinv), (has_wl V), (has_r V). done. }
  intros <-. rewrite (i_word _ _ _ _ _ _ _ _ Hinv), (unlock_new_state_enc _ _ _ _ V) in En.
  destruct ((ws =? 0) && (rs =? 0) && (0 <? ww)) eqn:E1; [|destruct ((ws =? 0) && (0 <? wr)) eqn:E2]; injection En as <- <- <-; cbn [negb Z.eqb].
  - exists 0, wr, (ww - 1), 0, 1, 0. destruct Hinv, V. new_inv Hi.
  - rewrite (proj2 (Z.eqb_neq wr 0)) by lia. cbn [negb]. destruct V as [_ Vwr _ _ _ _]. rewrite (cast_id 32 wr) by lia.
    exists 0, 0, ww, 0, ws, 1. destruct Hinv. new_inv Hi.
  - exists 0, wr, ww, 0, ws, rs. destruct Hinv, V. new_inv Hi.
Qed.

(** *** Readers *)
Lemma enc_inc_r r wr ww wl ws rs : valid (r + 1) wr ww wl ws rs → u64 (enc r wr ww wl ws rs + kReaderLockInc) = enc (r + 1) wr ww wl ws rs.
Proof. intros V. pose proof (enc_range V). change kReaderLockInc with 1. unfold enc in *. rewrite cast_id; lia. Qed.
Lemma enc_dec_r r wr ww wl ws rs : valid r wr ww wl ws rs → 0 < r → u64 (enc r wr ww wl ws rs - kReaderLockInc) = enc (r - 1) wr ww wl ws rs.
Proof. intros V Hr. pose proof (enc_range V). change kReaderLockInc with 1. destruct V. unfold enc in *. rewrite cast_id; lia. Qed.
Lemma enc_inc_wr r wr ww wl ws rs : valid r (wr + 1) ww wl ws rs → u64 (enc r wr ww wl ws rs + kWaitingReaderInc) = enc r (wr + 1) ww wl ws rs.
Proof. intros V. pose proof (enc_range V). change kWaitingReaderInc with (2 ^ 20). unfold enc in *. rewrite cast_id; lia. Qed.

Lemma count_reader m ts r wr ww wl ws rs i p : inv m ts r wr ww wl ws rs → ts !! i = Some p → waiting Readers p = 0 → reading p = 0 →
  wr + 1 < 2 ^ 20 ∧ r + 1 < 2 ^ 20.
Proof.
  intros Hinv Hi Hp Hr. pose proof (inv_bounds _ _ _ _ _ _ _ _ Hinv) as B. pose proof (b_posting _ _ B Readers).
  assert (total (waiting Readers) ts + 1 ≤ Z.of_nat (length ts)) by (eapply total_room; [intros q; apply (unit_bounds q Readers)|done|done]).
  assert (total reading ts + 1 ≤ Z.of_nat (length ts)) by (eapply total_room; [intros q; apply (unit_bounds q Readers)|done|done]). destruct Hinv. lia.
Qed.

Lemma read_round_inv m ts r wr ww wl ws rs i ok st mask sp : inv m ts r wr ww wl ws rs → ts !! i = Some (ReadLoop st mask sp) →
  let '(m', q) := read_round ok m st mask sp in good m' (<[i := q]> ts).
Proof.
  intros Hinv Hi. pose proof (inv_valid _ _ _ _ _ _ _ _ Hinv) as V. pose proof (i_pc _ _ _ _ _ _ _ _ Hinv _ _ Hi) as Hm.
  pose proof (i_word _ _ _ _ _ _ _ _ Hinv) as Ew. destruct (count_reader _ _ _ _ _ _ _ _ _ _ Hinv Hi eq_refl eq_refl) as [C1 C2].
  assert (∀ st' sp', good m (<[i := ReadLoop st' mask sp']> ts)) as Hquiet.
  { intros st' sp'. exists r, wr, ww, wl, ws, rs. by apply (mutex_quiet _ _ _ _ _ _ _ _ _ (ReadLoop st mask sp)). }
  unfold read_round, read_new_state. destruct (has st kWriterLock) eqn:Eh; cbn [negb].
  - destruct (kMaxSpinIters <? sp); [|destruct (Z.land st kReaderSpinWait =? 0) eqn:Es; [|apply Hquiet]];
      (apply (cas_cases _ _ _ _ _ _ (λ '(m', q), good m' (<[i := q]> ts))); [|apply Hquiet]); intros <-; rewrite Ew, (has_wl V) in *; facts Hinv Hi.
    + assert (valid r (wr + 1) ww wl ws rs) as V' by (destruct V; split; lia). rewrite (enc_inc_wr _ _ _ _ _ _ V').
      destruct Hm as [-> | ->]; [rewrite (clear_none V')|rewrite (clear_rs V')]; rewrite ?mask_full, ?mask_reader in *.
      * exists r, (wr + 1), ww, wl, ws, rs. destruct Hinv. new_inv Hi.
      * exists r, (wr + 1), ww, wl, ws, 0. destruct Hinv. new_inv Hi.
    + rewrite (set_rs V). exists r, wr, ww, wl, ws, 1. destruct (mask =? 2 ^ 64 - 1) eqn:Em; destruct Hinv;
        (split; sums Hi; rewrite ?length_insert, ?Em; try lia; try done; (apply pcs_insert; [done|first [done|cbn [pc_ok]; lia]])).
  - apply (cas_cases _ _ _ _ _ _ (λ '(m', q), good m' (<[i := q]> ts))); [|apply Hquiet]. intros <-. rewrite Ew, (has_wl V) in *. facts Hinv Hi.
    assert (valid (r + 1) wr ww wl ws rs) as V' by (destruct V; split; lia). rewrite (enc_inc_r _ _ _ _ _ _ V').
    destruct Hm as [-> | ->]; [rewrite (clear_none V')|rewrite (clear_rs V')]; rewrite ?mask_full, ?mask_reader in *.
    + exists (r + 1), wr, ww, wl, ws, rs. destruct Hinv. new_inv Hi.
    + exists (r + 1), wr, ww, wl, ws, 0. destruct Hinv. new_inv Hi.
Qed.

(** Whom [ReadUnlock] wakes. *)
Lemma read_unlock_new_state_enc r wr ww ws rs : valid r wr ww 0 ws rs → 0 < r → read_unlock_new_state (enc r wr ww 0 ws rs) =
  if (r =? 1) && (ws =? 0) && (rs =? 0) && (0 <? ww) then (enc 0 wr (ww - 1) 0 1 0, true) else (enc (r - 1) wr ww 0 ws rs, false).
Proof.
  intros V Hr. assert (valid (r - 1) wr ww 0 ws rs) as V1 by (destruct V; split; lia). unfold read_unlock_new_state. rewrite (enc_dec_r _ _ _ _ _ _ V Hr), !has_lor, (has_r V1), (has_ws V1), (has_rs V1), (has_ww V1).
  destruct (Z.eqb_spec (r - 1) 0), (Z.eqb_spec r 1); try lia; cbn [negb orb andb]; [|done].
  destruct (Z.eqb_spec ws 0) as [->|], (Z.eqb_spec rs 0) as [->|]; cbn [negb orb andb]; try done.
  destruct (Z.eqb_spec ww 0), (Z.ltb_spec 0 ww); try (destruct V; lia); cbn [negb]; [done|].
  rewrite (enc_dec_ww _ _ _ _ _ _ V1) by done. assert (valid (r - 1) wr (ww - 1) 0 0 0) as V2 by (destruct V; split; lia). rewrite (set_ws V2). subst r. done.
Qed.

Lemma read_unlock_round_inv m ts r wr ww wl ws rs i ok st : inv m ts r wr ww wl ws rs → ts !! i = Some (ReadUnlockLoop st) →
  returns (read_unlock_round ok m st) (λ '(m', q), good m' (<[i := q]> ts)).
Proof.
  intros Hinv Hi. destruct (i_pc _ _ _ _ _ _ _ _ Hinv _ _ Hi) as [Hr Hw]. unfold read_unlock_round. rewrite Hw, Hr. cbn [CHECK negb mbind result_bind].
  pose proof (inv_valid _ _ _ _ _ _ _ _ Hinv) as V. facts Hinv Hi.
  assert (wl = 0 ∧ 0 < r) as [-> Hpos] by (destruct Hinv, V; lia). destruct (read_unlock_new_state st) as [new wake] eqn:En. cbn [returns].
  apply (cas_cases _ _ _ _ _ _ (λ '(m', q), good m' (<[i := q]> ts))).
  2: { exists r, wr, ww, 0, ws, rs. apply (mutex_quiet _ _ _ _ _ _ _ _ _ _ _ Hinv Hi); [done|]. cbn [pc_ok]. rewrite (i_word _ _ _ _ _ _ _ _ Hinv), (has_wl V), (has_r V).
    rewrite (proj2 (Z.eqb_neq r 0)) by lia. done. }
  intros <-. rewrite (i_word _ _ _ _ _ _ _ _ Hinv), (read_unlock_new_state_enc _ _ _ _ _ V Hpos) in En.
  destruct ((r =? 1) && (ws =? 0) && (rs =? 0) && (0 <? ww)) eqn:E1; injection En as <- <-.
  - exists 0, wr, (ww - 1), 0, 1, 0. destruct Hinv, V. new_inv Hi.
  - exists (r - 1), wr, ww, 0, ws, rs. destruct Hinv, V. new_inv Hi.
Qed.

(** *** Semaphores *)
Lemma wait_round_inv m ts r wr ww wl ws rs i ok s count : inv m ts r wr ww wl ws rs → ts !! i = Some (SemTry s count) →
  let '(m', q) := wait_round ok m s count in good m' (<[i := q]> ts).
Proof.
  intros Hinv Hi. pose proof (i_pc _ _ _ _ _ _ _ _ Hinv _ _ Hi) as Hc. cbn [pc_ok] in Hc.
  assert (0 ≤ count_of m s) as Hs by (destruct Hinv, s; cbn; lia).
  assert (∀ q, same_part (SemTry s count) q → pc_ok q → good m (<[i := q]> ts)) as Hquiet.
  { intros q Hq Hok. exists r, wr, ww, wl, ws, rs. by eapply mutex_quiet. }
  unfold wait_round. destruct (Z.eqb_spec count 0) as [->|Hc0].
  - destruct (Z.eqb_spec (count_of m s) 0) as [E0|_]; [|by apply Hquiet]. exists r, wr, ww, wl, ws, rs. facts Hinv Hi. destruct s; cbn [count_of] in E0; destruct Hinv; new_inv Hi.
  - destruct ok; cbn [andb]; [|by apply Hquiet]. destruct (Z.eqb_spec (count_of m s) count) as [E|_]; [|by apply Hquiet].
    exists r, wr, ww, wl, ws, rs. facts Hinv Hi. assert (u32 (count - 1) = count - 1) as Ecast by (apply cast_id; destruct s; cbn [count_of] in E; destruct Hinv; lia).
    rewrite Ecast. destruct s; cbn [count_of after_wait] in *; destruct Hinv; new_inv Hi.
Qed.

Lemma sleep_inv m ts r wr ww wl ws rs i s : inv m ts r wr ww wl ws rs → ts !! i = Some (SemSleep s) → inv m (<[i := SemLoad s]> ts) r wr ww wl ws rs.
Proof. intros Hinv Hi. facts Hinv Hi. destruct s, Hinv; new_inv Hi. Qed.

Lemma Post_inv m ts r wr ww wl ws rs i s n : inv m ts r wr ww wl ws rs → ts !! i = Some (SemPost s n) →
  returns (Post m s n) (λ '(m', q), good m' (<[i := q]> ts)).
Proof.
  intros Hinv Hi. pose proof (i_pc _ _ _ _ _ _ _ _ Hinv _ _ Hi) as Hn. cbn [pc_ok] in Hn. unfold Post. rewrite (proj2 (Z.eqb_neq n 0)) by lia.
  cbn [negb CHECK mbind result_bind returns]. exists r, wr, ww, wl, ws, rs. facts Hinv Hi.
  assert (u32 (count_of m s + n) = count_of m s + n) as -> by (apply cast_id; destruct s, Hinv; cbn [count_of on] in *; lia).
  destruct s; cbn [count_of]; destruct Hinv; new_inv Hi.
Qed.

(** Waking changes threads that sleep into threads that look again. *)
Lemma wake_lookup s ws (ts : list pc) j : FutexWake s ws ts !! j = if bool_decide (j ∈ ws ∧ (j < length ts)%nat) then Some (SemLoad s) else ts !! j.
Proof.
  induction ws as [|w ws IH]; cbn [FutexWake foldr]; [by rewrite bool_decide_false by set_solver|]. fold (FutexWake s ws ts).
  assert (length (FutexWake s ws ts) = length ts) as Hlen by (clear; induction ws; cbn; [done|]; by rewrite length_insert).
  destruct (decide (j = w)) as [->|Hne].
  - destruct (decide (w < length ts)%nat).
    + rewrite list_lookup_insert_eq by lia. rewrite bool_decide_true; [done|]. split; [apply list_elem_of_here|done].
    + rewrite list_insert_ge by lia. rewrite IH. rewrite !bool_decide_false by tauto. done.
  - rewrite list_lookup_insert_ne by done. rewrite IH. apply (f_equal (λ b : bool, if b then _ else _)). apply bool_decide_ext. rewrite elem_of_cons. naive_solver.
Qed.

Lemma wake_total (f : pc → Z) s ws (ts : list pc) : NoDup ws → Forall (λ j, ts !! j = Some (SemSleep s)) ws →
  total f (FutexWake s ws ts) = total f ts + Z.of_nat (length ws) * (f (SemLoad s) - f (SemSleep s)).
Proof.
  intros Hn Hf. induction ws as [|w ws IH]; [cbn; lia|]. apply NoDup_cons in Hn as [Hw Hn]. apply Forall_cons in Hf as [Hlw Hf]. cbn [FutexWake foldr].
  fold (FutexWake s ws ts). rewrite (sumZ_insert _ _ w (SemSleep s)); [rewrite (IH Hn Hf); cbn [length]; lia|].
  rewrite wake_lookup, bool_decide_false by tauto. done.
Qed.

Lemma wake_inv m ts r wr ww wl ws rs i s n ks : inv m ts r wr ww wl ws rs → ts !! i = Some (SemWake s n) → NoDup ks →
  Forall (λ j, ts !! j = Some (SemSleep s)) ks → Z.of_nat (length ks) = n `min` total (asleep s) ts →
  inv m (FutexWake s ks (<[i := Idle]> ts)) r wr ww wl ws rs.
Proof.
  intros Hinv Hi Hn Hf Hlen. facts Hinv Hi. pose proof (i_pc _ _ _ _ _ _ _ _ Hinv _ _ Hi) as Hok. cbn [pc_ok] in Hok.
  assert (Forall (λ j, <[i := Idle]> ts !! j = Some (SemSleep s)) ks) as Hf'.
  { eapply Forall_impl; [done|]. intros j Hj. cbn in Hj |- *. rewrite list_lookup_insert_ne; [done|]. intros ->. congruence. }
  destruct Hinv. split; rewrite ?(wake_total _ _ _ _ Hn Hf'); rewrite ?(sumZ_insert _ _ _ _ _ Hi); cbn [reading writing waiting posting waking owning asleep awake on]; try done; try (destruct s; cbn [on] in *; lia).
  - assert (length (FutexWake s ks (<[i:=Idle]> ts)) = length ts) as ->; [|done]. clear. induction ks; cbn; rewrite ?length_insert; done.
  - intros j q Hj. rewrite wake_lookup in Hj. case_bool_decide; [by injection Hj as <-|]. by eapply pcs_insert in Hj.
Qed.

(** *** Every step *)
Lemma exec_inv c m ts r wr ww wl ws rs i p : inv m ts r wr ww wl ws rs → ts !! i = Some p → (∀ s n, p ≠ SemWake s n) →
  returns (exec c m p) (λ '(m', q), good m' (<[i := q]> ts)).
Proof.
  intros Hinv Hi Hw. pose proof (inv_valid _ _ _ _ _ _ _ _ Hinv) as V. pose proof (i_pc _ _ _ _ _ _ _ _ Hinv _ _ Hi) as Hok.
  assert (∀ q, same_part p q → pc_ok q → good m (<[i := q]> ts)) as Hquiet by (intros q Hq Hq'; exists r, wr, ww, wl, ws, rs; by eapply mutex_quiet).
  destruct c as [c ok]. destruct p; cbn [exec fst snd].
  - destruct c; apply Hquiet; try done; by left.
  - pose proof (lock_round_inv _ _ _ _ _ _ _ _ _ ok _ _ _ Hinv Hi). by destruct (lock_round _ _ _ _ _).
  - by eapply lock_again_inv.
  - pose proof (try_round_inv _ _ _ _ _ _ _ _ _ ok _ Hinv Hi). by destruct (try_round _ _ _).
  - apply Hquiet; [done|]. cbn [pc_ok]. facts Hinv Hi. rewrite (i_word _ _ _ _ _ _ _ _ Hinv), (has_wl V), (has_r V).
    assert (wl = 1 ∧ r = 0) as [-> ->] by (destruct Hinv; lia). done.
  - by eapply unlock_round_inv.
  - pose proof (read_round_inv _ _ _ _ _ _ _ _ _ ok _ _ _ Hinv Hi). by destruct (read_round _ _ _ _ _).
  - apply Hquiet; [done|by right].
  - apply Hquiet; [done|]. cbn [pc_ok]. facts Hinv Hi. rewrite (i_word _ _ _ _ _ _ _ _ Hinv), (has_wl V), (has_r V).
    assert (wl = 0 ∧ 0 < r) as [-> Hr] by (destruct Hinv, V; lia). rewrite (proj2 (Z.eqb_neq r 0)) by lia. done.
  - by eapply read_unlock_round_inv.
  - apply Hquiet; [done|]. destruct Hinv, s; cbn; lia.
  - pose proof (wait_round_inv _ _ _ _ _ _ _ _ _ ok _ _ Hinv Hi). by destruct (wait_round _ _ _ _).
  - exists r, wr, ww, wl, ws, rs. by apply sleep_inv.
  - by eapply Post_inv.
  - by destruct (Hw s count).
Qed.

Inductive reachable (n : nat) : sys → Prop :=
  | reach_init : reachable n (init n)
  | reach_step s s' : reachable n s → step s s' → reachable n s'.

Lemma init_inv n : Z.of_nat n < 2 ^ 20 → inv (mem (init n)) (threads (init n)) 0 0 0 0 0 0.
Proof.
  intros Hn. assert (∀ f : pc → Z, f Idle = 0 → total f (replicate n Idle) = 0) as Hz.
  { intros f Hf. apply sumZ_zero. intros q [-> _]%elem_of_replicate. done. }
  split; cbn; rewrite ?Hz by done; try lia; try done; [by rewrite length_replicate|]. intros i q [-> _]%lookup_replicate. done.
Qed.

Lemma reachable_good n s : Z.of_nat n < 2 ^ 20 → reachable n s → good (mem s) (threads s).
Proof.
  intros Hn. induction 1 as [|s s' _ (r & wr & ww & wl & ws & rs & Hinv) Hstep]; [do 6 eexists; by apply init_inv|].
  destruct Hstep as [m ts i p c m' q Hi Hw Hex|m ts i sm k ks Hi Hnd Hf Hlen]; cbn [mem threads] in *.
  - pose proof (exec_inv c _ _ _ _ _ _ _ _ _ _ Hinv Hi Hw) as H. by rewrite Hex in H.
  - exists r, wr, ww, wl, ws, rs. by eapply wake_inv.
Qed.

(** ** Theorems *)

(** [C11] The reader-writer lock excludes: in every interleaving of any number of threads
    below [2^20], while a thread holds the lock for writing no other thread holds it;
    [CheckWriteLocked] and [CheckReadLocked] pass for a thread that holds it; the word counts the readers exactly, and no check of the code fails. *)
Theorem mutex_exclusion n s : Z.of_nat n < 2 ^ 20 → reachable n s →
  (∀ i j p q, i ≠ j → threads s !! i = Some p → threads s !! j = Some q → writing p = 1 → writing q = 0 ∧ reading q = 0) ∧
  (∀ i p, threads s !! i = Some p → (writing p = 1 → CheckWriteLocked (mem s) = Ok tt) ∧ (reading p = 1 → CheckReadLocked (mem s) = Ok tt)) ∧
  Z.land (word (mem s)) kReaderLockMask = total reading (threads s) ∧
  ∀ i p c, threads s !! i = Some p → returns (exec c (mem s) p) (λ _, True).
Proof.
  intros Hn Hr. destruct (reachable_good n s Hn Hr) as (r & wr & ww & wl & ws & rs & Hinv). pose proof (inv_valid _ _ _ _ _ _ _ _ Hinv) as V. split; [|split; [|split]].
  - intros i j p q Hij Hp Hq Hw. facts Hinv Hp. pose proof (inv_parts _ _ _ _ _ _ _ _ _ _ Hinv Hq) as (Q1 & _ & _).
    assert (writing q ≤ total writing (<[i := Idle]> (threads s))) as Hq'.
    { apply (sumZ_elem writing _ j); [intros x _; apply (unit_bounds x Writers)|]. by rewrite list_lookup_insert_ne. }
    rewrite (sumZ_insert _ _ _ _ _ Hp) in Hq'. cbn [writing] in Hq'. pose proof (unit_bounds q Writers). destruct Hinv. lia.
  - intros i p Hi. facts Hinv Hi. rewrite (i_word _ _ _ _ _ _ _ _ Hinv), (has_wl V), (has_r V).
    split; intros E; [rewrite (proj2 (Z.eqb_neq wl 0))|rewrite (proj2 (Z.eqb_neq r 0))]; try done; destruct Hinv; lia.
  - rewrite (i_word _ _ _ _ _ _ _ _ Hinv), at_r. change kReaderLockMask with (Z.shiftl (Z.ones 20) 0). destruct V. rewrite field_get by lia.
    rewrite <- (i_r _ _ _ _ _ _ _ _ Hinv). lia.
  - intros i p c Hi. assert ((∃ sm k, p = SemWake sm k) ∨ ∀ sm k, p ≠ SemWake sm k) as [(sm & k & ->)|Hw] by (destruct p; eauto); [done|].
    eapply returns_mono; [by eapply exec_inv|]. done.
Qed.

(** A thread in the middle of an operation that does not sleep, or one that holds the lock. *)
Definition active p : Prop := match p with Idle | SemSleep _ => False | _ => True end.

Lemma total_active (f : pc → Z) (ts : list pc) : (∀ p, 0 < f p → active p) → 0 < total f ts → ∃ i p, ts !! i = Some p ∧ active p.
Proof.
  intros Hf. induction ts as [|p ts IH]; cbn [total]; [lia|]. intros Ht. destruct (decide (0 < f p)).
  - exists 0%nat, p. split; [done|auto].
  - destruct IH as (i & q & Hq & Ha); [lia|]. by exists (S i), q.
Qed.

Lemma total_waiting s (ts : list pc) : total (waiting s) ts = total (awake s) ts + total (asleep s) ts.
Proof. induction ts as [|p ts IH]; cbn [total]; [done|]. assert (waiting s p = awake s p + asleep s p) by (destruct p; cbn; lia). lia. Qed.

(** [C16] No wake-up is lost: whenever a thread sleeps in a semaphore of the lock, some
    thread holds the lock or is awake in the middle of an operation, so the lock never
    gets stuck with sleeping threads only. *)
Theorem mutex_no_lost_wakeup n s i sm : Z.of_nat n < 2 ^ 20 → reachable n s → threads s !! i = Some (SemSleep sm) →
  ∃ j p, threads s !! j = Some p ∧ active p.
Proof.
  intros Hn Hr Hi. destruct (reachable_good n s Hn Hr) as (r & wr & ww & wl & ws & rs & Hinv). facts Hinv Hi. set (ts := threads s) in *.
  pose proof (total_waiting Writers ts). pose proof (total_waiting Readers ts).
  assert (0 < total (asleep Writers) ts ∨ 0 < total (asleep Readers) ts) as Hs by (destruct sm; cbn [on] in *; lia).
  assert (0 < total writing ts ∨ 0 < total reading ts ∨ 0 < total (posting Writers) ts ∨ 0 < total (posting Readers) ts ∨ 0 < total (owning Writers) ts ∨
    0 < total (owning Readers) ts ∨ 0 < total (awake Writers) ts ∨ 0 < total (awake Readers) ts ∨ 0 < total (waking Writers) ts ∨ 0 < total (waking Readers) ts) as Hor
    by (destruct Hinv; lia).
  destruct Hor as [Ht|[Ht|[Ht|[Ht|[Ht|[Ht|[Ht|[Ht|[Ht|Ht]]]]]]]]]; (eapply total_active; [|exact Ht]); by intros [].
Qed.

(** ** Schedules *)

(** Runs threads by turns, without [FutexWake]. *)
Fixpoint run_schedule (sched : list (nat * choice)) (s : sys) : result sys :=
  match sched with
  | [] => Ok s
  | (i, c) :: sched =>
      match threads s !! i with
      | None => Fault OutOfBounds
      | Some (SemWake _ _) => Fault BadAccess
      | Some p => '(m, q) ← exec c (mem s) p; run_schedule sched (mkSys m (<[i := q]> (threads s)))
      end
  end.

Lemma run_schedule_reachable n sched s s' : reachable n s → run_schedule sched s = Ok s' → reachable n s'.
Proof.
  revert s. induction sched as [|[i c] sched IH]; intros s Hr; cbn [run_schedule]; [by intros [= <-]|].
  destruct (threads s !! i) as [p|] eqn:Hi; [|done]. destruct (exec c (mem s) p) as [[m q]|] eqn:He; [|by destruct p].
  destruct p; try done; cbn [mbind result_bind]; apply IH, (reach_step _ _ _ Hr); destruct s as [m0 ts]; by eapply step_run.
Qed.

(** Thread 0 locks; a writer (1) and a reader (2) spin and go to sleep. *)
Definition contended : list (nat * choice) :=
  replicate 2 (0%nat, (Lock, true)) ++ replicate 1509 (1%nat, (Lock, true)) ++ replicate 1509 (2%nat, (ReadLock, true)).
Definition contended_sys : sys := from_result (init 3) (run_schedule contended (init 3)).

Lemma contended_reachable : reachable 3 contended_sys.
Proof. apply (run_schedule_reachable 3 contended (init 3)); [apply reach_init|]. vm_compute. reflexivity. Qed.

Lemma contended_sleeping : threads contended_sys = [WriteHeld; SemSleep Writers; SemSleep Readers].
Proof. vm_compute. reflexivity. Qed.

Lemma mutex_exclusion_witness : Z.land (word (mem contended_sys)) kReaderLockMask = total reading (threads contended_sys).
Proof. exact (proj1 (proj2 (proj2 (mutex_exclusion 3 contended_sys ltac:(lia) contended_reachable)))). Defined.

Lemma mutex_no_lost_wakeup_witness : ∃ j p, threads contended_sys !! j = Some p ∧ active p.
Proof. apply (mutex_no_lost_wakeup 3 contended_sys 1 Writers ltac:(lia) contended_reachable). rewrite contended_sleeping. reflexivity. Defined.

(** The comment on the counters says that the mutex is write-locked when there are waiting
    readers.  After [Unlock] wakes the writer, the reader still waits and the mutex
    is not locked. *)
Example waiting_reader_unlocked :
  let s := from_result contended_sys (run_schedule [(0%nat, (Lock, true)); (0%nat, (Lock, true))] contended_sys) in
  has (word (mem s)) kWaitingReaderMask = true ∧ has (word (mem s)) kWriterLock = false.
Proof. vm_compute. split; reflexivity. Qed.

End Mutex.

(** ** The spin lock *)
Module SpinMutex.

(** A thread outside, in the loop of [LockSlow] before the load or before the exchange, or
    holding the lock. *)
Inductive spin_pc := Idle | Slow | SlowExchange | Held.
Implicit Types (state : Z) (p : spin_pc).

Definition TryLock state : Z * bool := (1, state =? 0).
Definition Lock state : Z * spin_pc := let '(state, got) := TryLock state in (state, if got then Held else Slow).
Definition LockSlow_load state : spin_pc := if state =? 0 then SlowExchange else Slow.
Definition LockSlow_exchange state : Z * spin_pc := (1, if state =? 0 then Held else Slow).
Definition Unlock state : Z := 0.
Abbreviation CheckLocked state := (CHECK (state =? 1)) (only parsing).

(** An idle thread calls [Lock], or [TryLock] if [try]. *)
Definition spin_exec (try : bool) state p : Z * spin_pc :=
  match p with
  | Idle => if try then let '(st, got) := TryLock state in (st, if got then Held else Idle) else Lock state
  | Slow => (state, LockSlow_load state)
  | SlowExchange => LockSlow_exchange state
  | Held => (Unlock state, Idle)
  end.

Inductive spin_reachable (n : nat) : Z → list spin_pc → Prop :=
  | reach_init : spin_reachable n 0 (replicate n Idle)
  | reach_step st ts i p try st' q : spin_reachable n st ts → ts !! i = Some p → spin_exec try st p = (st', q) → spin_reachable n st' (<[i := q]> ts).

Definition held p : Z := match p with Held => 1 | _ => 0 end.

Lemma spin_inv n st ts : spin_reachable n st ts → sumZ held ts = st ∧ (st = 0 ∨ st = 1).
Proof.
  induction 1 as [|st ts i p try st' q _ [Hs Hor] Hi He].
  - split; [|by left]. apply sumZ_zero. intros q [-> _]%elem_of_replicate. done.
  - rewrite (sumZ_insert _ _ _ _ _ Hi), Hs.
    assert (held p ≤ st) as Hp by (rewrite <- Hs; apply (sumZ_elem held _ i); [intros x _; by destruct x|done]).
    unfold spin_exec, Lock, TryLock, LockSlow_load, LockSlow_exchange, Unlock in He.
    destruct p, try; cbn [held] in Hp; destruct (Z.eqb_spec st 0); injection He as <- <-; cbn [held]; lia.
Qed.

(** At most one thread holds the spin lock, and while one does [CheckLocked] passes. *)
Theorem spin_mutex_exclusion n st ts i j : spin_reachable n st ts → ts !! i = Some Held →
  CheckLocked st = Ok tt ∧ (ts !! j = Some Held → i = j).
Proof.
  intros Hr Hi. destruct (spin_inv n st ts Hr) as [Hs Hor].
  assert (∀ l k, l !! k = Some Held → 1 ≤ sumZ held l) as Hone by (intros l k Hk; apply (sumZ_elem held l k Held); [by intros []|done]).
  pose proof (Hone ts i Hi). split; [by assert (st = 1) as -> by lia|]. intros Hj. destruct (decide (i = j)); [done|].
  assert (1 ≤ sumZ held (<[i := Idle]> ts)) as H1 by (apply (Hone _ j); by rewrite list_lookup_insert_ne).
  rewrite (sumZ_insert _ _ _ _ _ Hi) in H1. cbn [held] in H1. lia.
Qed.

Lemma spin_mutex_exclusion_witness : CheckLocked 1 = Ok tt ∧ ([Held; Slow] !! 1%nat = Some Held → 0%nat = 1%nat).
Proof.
  apply (spin_mutex_exclusion 2 1 [Held; Slow] 0 1); [|reflexivity].
  apply (reach_step 2 1 [Held; Idle] 1 Idle false 1 Slow); [|reflexivity|reflexivity].
  apply (reach_step 2 0 [Idle; Idle] 0 Idle false 1 Held); [apply (reach_init 2)|reflexivity|reflexivity].
Defined.

End SpinMutex.
