(* ===== verification/CheckedMutex.v ===== *)
(** * CheckedMutex: the mutex hierarchy of the runtime

    Models the debug-mode checks of [sanitizer_mutex.cpp]: [DebugMutexInit] builds, from the
    table [mutex_meta] of a tool, the relation of what mutex types can be locked under what
    others and checks that it is acyclic; [InternalDeadlockDetector] checks every lock of a
    thread against it.  The table is an argument (a tool defines it); a null name is [None].
    The theorems show that an accepted table is acyclic and that threads whose locks pass the
    checks cannot wait for each other in a cycle, but for one over a single [MutexMulti] type. *)
From stdpp Require Import relations.
From S2P Require Import Prelude Common.

Module Checked.

Abbreviation MutexInvalid := (0) (only parsing).
Abbreviation MutexUnchecked := (-1) (only parsing).
Abbreviation MutexLeaf := (-1) (only parsing).
Abbreviation MutexMulti := (-3) (only parsing).
Abbreviation kMutexTypeMax := (20) (only parsing).
(** [ARRAY_SIZE(can_lock)]. *)
Abbreviation kCanLockSize := (10) (only parsing).

Record MutexMeta := mkMeta { type : Z; name : option (list Z); can_lock : list Z }.

(** The static variables. *)
Record globals := mkGlobals { mutex_type_count : Z; mutex_can_lock : list (list bool); mutex_multi : list bool }.
Implicit Types (g : globals).

Definition falses : list bool := replicate (Z.to_nat kMutexTypeMax) false.
Definition zero_globals : globals := mkGlobals (-1) (replicate (Z.to_nat kMutexTypeMax) falses) falses.

Definition set_type_count g (t : Z) : globals := mkGlobals t (mutex_can_lock g) (mutex_multi g).
Definition get_can_lock g (t z : Z) : result bool := row ← aget (mutex_can_lock g) t; aget row z.
Definition add_can_lock g (t z : Z) : result globals :=
  row ← aget (mutex_can_lock g) t;
  row ← aset row z true;
  rows ← aset (mutex_can_lock g) t row;
  Ok (mkGlobals (mutex_type_count g) rows (mutex_multi g)).
Definition add_multi g (t : Z) : result globals :=
  ms ← aset (mutex_multi g) t true; Ok (mkGlobals (mutex_type_count g) (mutex_can_lock g) ms).

(** ** Building the relation *)
(** The local arrays [leaf] and [cnt] with the globals. *)
Definition build : Type := globals * list bool * list Z.

(** The entries of one type. *)
Fixpoint init_can_lock (t : Z) (zs : list Z) (b : build) : result build :=
  match zs with
  | [] => Ok b
  | z :: zs =>
      let '(g, leaf, cnt) := b in
      if z =? MutexInvalid then Ok b
      else if z =? MutexLeaf then
        l ← aget leaf t;
        CHECK (negb l);;
        leaf ← aset leaf t true;
        init_can_lock t zs (g, leaf, cnt)
      else if z =? MutexMulti then
        g ← add_multi g t;
        init_can_lock t zs (g, leaf, cnt)
      else
        CHECK (z <? kMutexTypeMax);;
        c ← get_can_lock g t z;
        CHECK (negb c);;
        g ← add_can_lock g t z;
        n ← aget cnt t;
        cnt ← aset cnt t (n + 1);
        init_can_lock t zs (g, leaf, cnt)
  end.

(** The loop over the table, [n] types left. *)
Fixpoint init_types (meta : list MutexMeta) (n : nat) (t : Z) (b : build) : result build :=
  match n with
  | O => Ok b
  | S n =>
      let '(g, leaf, cnt) := b in
      let b := (set_type_count g t, leaf, cnt) in
      mm ← aget meta t;
      match name mm with
      | None => Ok b
      | Some _ =>
          CHECK (t =? type mm);;
          b ← init_can_lock t (can_lock mm) b;
          init_types meta n (t + 1) b
      end
  end.

(** Leaf mutexes can be locked under any other type. *)
Definition add_leaf (leaf : list bool) (cnt : list Z) (t : Z) g : result globals :=
  l ← aget leaf t;
  if negb l then Ok g
  else
    n ← aget cnt t;
    CHECK (n =? 0);;
    for_range 0 (mutex_type_count g) (λ z g,
      lz ← aget leaf z;
      if (z =? MutexInvalid) || (t =? z) || lz then Ok g
      else
        c ← get_can_lock g z t;
        CHECK (negb c);;
        add_can_lock g z t) g.

(** ** The transitive closure, as rows of bits *)
Definition trans_row g (i : Z) (row : Z) : result Z :=
  for_range 0 (mutex_type_count g) (λ j row,
    c ← get_can_lock g i j;
    if c : bool then b ← shl 32 1 j; Ok (Z.lor row b) else Ok row) row.

Definition trans_init g : result (list Z) :=
  for_range 0 (mutex_type_count g) (λ i trans,
    row ← aget trans i;
    row ← trans_row g i row;
    aset trans i row) (replicate (Z.to_nat kMutexTypeMax) 0).

Definition trans_close g (trans : list Z) : result (list Z) :=
  for_range 0 (mutex_type_count g) (λ k trans,
    for_range 0 (mutex_type_count g) (λ i trans,
      ri ← aget trans i;
      b ← shl 32 1 k;
      if negb (Z.land ri b =? 0) then rk ← aget trans k; aset trans i (Z.lor ri rk) else Ok trans) trans) trans.

(** [Die()] on a cycle. *)
Definition trans_check g (trans : list Z) : result unit :=
  for_range 0 (mutex_type_count g) (λ i _,
    ri ← aget trans i;
    b ← shl 32 1 i;
    CHECK (Z.land ri b =? 0)) tt.

Definition DebugMutexInit (meta : list MutexMeta) g : result globals :=
  '(g, leaf, cnt) ← init_types meta (Z.to_nat kMutexTypeMax) 0 (g, falses, replicate (Z.to_nat kMutexTypeMax) 0);
  CHECK (mutex_type_count g <? kMutexTypeMax);;
  g ← for_range 0 (mutex_type_count g) (λ t g, add_leaf leaf cnt t g) g;
  trans ← trans_init g;
  trans ← trans_close g trans;
  trans_check g trans;;
  Ok g.

(** ** The per-thread checks *)
Record LockDesc := mkDesc { seq : Z; pc : Z; recursion : Z }.
Record InternalDeadlockDetector := mkDet { initialized : Z; sequence : Z; locked : list LockDesc }.
Implicit Types (d : InternalDeadlockDetector).

Definition new_detector : InternalDeadlockDetector := mkDet 0 0 (replicate (Z.to_nat kMutexTypeMax) (mkDesc 0 0 0)).

Definition Initialize (meta : list MutexMeta) g d (type : Z) : result (globals * InternalDeadlockDetector * bool) :=
  if (type =? MutexUnchecked) || (type =? MutexInvalid) then Ok (g, d, false)
  else
    CHECK (MutexInvalid <? type);;
    if negb (initialized d =? 0) then Ok (g, d, 0 <? initialized d)
    else
      g ← (if mutex_type_count g <? 0 then DebugMutexInit meta g else Ok g);
      let init := if negb (mutex_type_count g =? 0) then 1 else -1 in
      Ok (g, mkDet init (sequence d) (locked d), 0 <? init).

(** The last locked type: its sequence number and the type. *)
Definition last_locked g d : result (Z * Z) :=
  for_range 0 (mutex_type_count g) (λ i '(max_seq, max_idx),
    l ← aget (locked d) i;
    if seq l =? 0 then Ok (max_seq, max_idx)
    else
      CHECK (negb (seq l =? max_seq));;
      Ok (if max_seq <? seq l then (seq l, i) else (max_seq, max_idx))) (0, MutexInvalid).

Definition detector_lock g d (type caller_pc : Z) : result InternalDeadlockDetector :=
  CHECK (type <? mutex_type_count g);;
  '(max_seq, max_idx) ← last_locked g d;
  multi ← (if max_idx =? type then aget (mutex_multi g) type else Ok false);
  if multi : bool then
    l ← aget (locked d) type;
    CHECK (seq l =? max_seq);;
    CHECK (negb (pc l =? 0));;
    recursion' ← (if recursion l + 1 <? 2 ^ 31 then Ok (recursion l + 1) else Fault SignedOverflow);
    ls ← aset (locked d) type (mkDesc (seq l) (pc l) recursion');
    Ok (mkDet (initialized d) (sequence d) ls)
  else
    ok ← (if negb (max_idx =? MutexInvalid) then get_can_lock g max_idx type else Ok true);
    CHECK ok;;
    let sequence := u64 (sequence d + 1) in
    ls ← aset (locked d) type (mkDesc sequence caller_pc 1);
    Ok (mkDet (initialized d) sequence ls).

Definition detector_unlock g d (type : Z) : result InternalDeadlockDetector :=
  CHECK (type <? mutex_type_count g);;
  l ← aget (locked d) type;
  CHECK (negb (seq l =? 0));;
  CHECK (0 <? recursion l);;
  let rec := recursion l - 1 in
  ls ← aset (locked d) type (if negb (rec =? 0) then mkDesc (seq l) (pc l) rec else mkDesc 0 0 rec);
  Ok (mkDet (initialized d) (sequence d) ls).

Definition LockImpl (meta : list MutexMeta) g d (type caller_pc : Z) : result (globals * InternalDeadlockDetector) :=
  '(g, d, on) ← Initialize meta g d type;
  if negb on then Ok (g, d) else d ← detector_lock g d type caller_pc; Ok (g, d).

Definition UnlockImpl (meta : list MutexMeta) g d (type : Z) : result (globals * InternalDeadlockDetector) :=
  '(g, d, on) ← Initialize meta g d type;
  if negb on then Ok (g, d) else d ← detector_unlock g d type; Ok (g, d).

Definition CheckNoLocks g d : result unit :=
  for_range 0 (mutex_type_count g) (λ i _, l ← aget (locked d) i; CHECK (recursion l =? 0)) tt.

(** ** The closure is exact *)
Record wf_globals g : Prop := {
  wg_count : 0 ≤ mutex_type_count g < kMutexTypeMax;
  wg_rows : Z.of_nat (length (mutex_can_lock g)) = kMutexTypeMax;
  wg_row r : r ∈ mutex_can_lock g → Z.of_nat (length r) = kMutexTypeMax;
  wg_multi : Z.of_nat (length (mutex_multi g)) = kMutexTypeMax
}.

(** [z] can be locked under [t]. *)
Definition under g (t z : Z) : Prop := 0 ≤ t < mutex_type_count g ∧ 0 ≤ z < mutex_type_count g ∧ get_can_lock g t z = Ok true.
Definition acyclic g : Prop := ∀ t, ¬ tc (under g) t t.

Lemma get_can_lock_ok g t z : wf_globals g → 0 ≤ t < kMutexTypeMax → 0 ≤ z < kMutexTypeMax → ∃ b, get_can_lock g t z = Ok b.
Proof.
  intros W Ht Hz. unfold get_can_lock. destruct (lookup_lt_is_Some_2 (mutex_can_lock g) (Z.to_nat t)) as [row Hrow]; [pose proof (wg_rows _ W); lia|].
  rewrite (proj2 (aget_Ok _ _ row)) by (split; [lia|done]). cbn [mbind result_bind]. pose proof (wg_row _ W row (list_elem_of_lookup_2 _ _ _ Hrow)) as Hl.
  destruct (lookup_lt_is_Some_2 row (Z.to_nat z)) as [b Hb]; [lia|]. exists b. apply aget_Ok. split; [lia|done].
Qed.

(** Paths with all inner nodes below [k]. *)
Inductive via g (k : Z) : Z → Z → Prop :=
  | via_edge i j : under g i j → via g k i j
  | via_node i l j : l < k → via g k i l → via g k l j → via g k i j.

Lemma via_mono g k i j : via g k i j → via g (k + 1) i j.
Proof. induction 1 as [|i l j Hl _ IH1 _ IH2]; [by constructor|]. eapply via_node; [|done..]. lia. Qed.

Lemma via_split g k i j : via g (k + 1) i j → via g k i j ∨ (via g k i k ∧ via g k k j).
Proof.
  induction 1 as [i j He|i l j Hl _ IH1 _ IH2]; [left; by constructor|]. destruct (decide (l = k)) as [->|Hne]; [right; tauto|].
  assert (l < k) as Hlk by lia. destruct IH1 as [H1|[H1 H2]], IH2 as [H3|[H3 H4]].
  - left. by eapply via_node.
  - right. split; [by eapply via_node|done].
  - right. split; [done|by eapply via_node].
  - by right.
Qed.

Lemma via_succ g k i j : via g (k + 1) i j ↔ via g k i j ∨ (via g k i k ∧ via g k k j).
Proof. split; [apply via_split|]. intros [H|[H1 H2]]; [by apply via_mono|]. eapply via_node; [|by apply via_mono..]. lia. Qed.

Lemma via_row g k j : via g (k + 1) k j ↔ via g k k j.
Proof. rewrite via_succ. tauto. Qed.

Lemma via_zero g i j : via g 0 i j → (∀ x y, under g x y → 0 ≤ x) → under g i j.
Proof.
  intros H Hpos. assert (0 ≤ i) as _ by (induction H; eauto). induction H as [|i l j Hl _ _ H2 IH]; [done|].
  exfalso. assert (0 ≤ l); [|lia]. clear - H2 Hpos. induction H2; eauto.
Qed.

Lemma via_tc g i j : via g (mutex_type_count g) i j ↔ tc (under g) i j.
Proof.
  split.
  - induction 1 as [|i l j _ _ IH1 _ IH2]; [by apply tc_once|]. by eapply tc_transitive.
  - induction 1 as [i j H|i l j H _ IH]; [by constructor|]. eapply via_node; [|by constructor|done]. destruct H as (_ & Hl & _). lia.
Qed.

(** Row [i] of the bit matrix holds the relation [P i]. *)
Definition row_is (trans : list Z) (i : Z) (P : Z → Prop) : Prop := ∃ row, trans !! Z.to_nat i = Some row ∧ ∀ j, 0 ≤ j → Z.testbit row j = true ↔ P j.
Definition rows_are g (trans : list Z) (P : Z → Z → Prop) : Prop :=
  Z.of_nat (length trans) = kMutexTypeMax ∧ ∀ i, 0 ≤ i < mutex_type_count g → row_is trans i (P i).

Lemma row_insert (trans : list Z) i row (P : Z → Prop) : 0 ≤ i < Z.of_nat (length trans) → (∀ j, 0 ≤ j → Z.testbit row j = true ↔ P j) →
  row_is (<[Z.to_nat i := row]> trans) i P.
Proof. intros Hi HP. exists row. split; [apply list_lookup_insert_eq; lia|done]. Qed.

Lemma row_insert_ne (trans : list Z) i j row (P : Z → Prop) : 0 ≤ i → 0 ≤ j → i ≠ j → row_is trans j P → row_is (<[Z.to_nat i := row]> trans) j P.
Proof. intros Hi Hj Hne (r & Hr & HP). exists r. split; [|done]. rewrite list_lookup_insert_ne by lia. done. Qed.

Lemma row_ext trans i (P Q : Z → Prop) : row_is trans i P → (∀ j, P j ↔ Q j) → row_is trans i Q.
Proof. intros (r & Hr & HP) HPQ. exists r. split; [done|]. intros j Hj. by rewrite HP, HPQ. Qed.

Lemma bit_of k i : 0 ≤ k < kMutexTypeMax → 0 ≤ i → shl 32 1 k = Ok (2 ^ k) ∧ Z.testbit (2 ^ k) i = (i =? k).
Proof.
  intros Hk Hi. unfold shl. rewrite (proj2 (Z.leb_le 0 k)), (proj2 (Z.ltb_lt k 32)) by lia. cbn [andb].
  rewrite Z.shiftl_1_l. split; [|apply pow2_testbit; lia]. rewrite cast_id; [done|]. split; [lia|]. apply Z.pow_lt_mono_r; lia.
Qed.

Lemma land_bit row k : 0 ≤ k → (Z.land row (2 ^ k) =? 0) = negb (Z.testbit row k).
Proof.
  intros Hk. destruct (Z.testbit row k) eqn:E; cbn [negb].
  - apply Z.eqb_neq. intros H. assert (Z.testbit (Z.land row (2 ^ k)) k = true) as Hb by (rewrite Z.land_spec, E, pow2_testbit, Z.eqb_refl by lia; done). by rewrite H, Z.testbit_0_l in Hb.
  - apply Z.eqb_eq, Z.bits_inj'. intros j Hj. rewrite Z.land_spec, pow2_testbit, Z.testbit_0_l by lia. destruct (Z.eqb_spec j k) as [->|]; [by rewrite E|by rewrite andb_false_r].
Qed.

Section Closure.
Context {g : globals} (W : wf_globals g).
Notation n := (mutex_type_count g).

Lemma trans_row_spec i : 0 ≤ i < n → returns (trans_row g i 0) (λ row, ∀ j, 0 ≤ j → Z.testbit row j = true ↔ under g i j).
Proof using W.
  intros Hi. pose proof (wg_count _ W) as Hn. unfold trans_row.
  eapply returns_mono; [apply (returns_for_range (λ k row, ∀ j, 0 ≤ j → Z.testbit row j = true ↔ j < k ∧ under g i j)); [lia| |]|].
  - intros j Hj. rewrite Z.testbit_0_l. split; [done|lia].
  - intros k row Hk Hrow. destruct (get_can_lock_ok g i k W) as [b Hb]; [lia..|]. rewrite Hb. cbn [mbind result_bind]. destruct b.
    + rewrite (proj1 (bit_of k 0 ltac:(lia) ltac:(lia))). cbn. intros j Hj. rewrite Z.lor_spec, (proj2 (bit_of k j ltac:(lia) Hj)), orb_true_iff, Hrow by done. rewrite Z.eqb_eq.
      split; [|destruct (decide (j = k)); [by right|left; split; [lia|tauto]]].
      intros [[? ?]| ->]; [split; [lia|done]|]. split; [lia|]. split; [done|]. split; [lia|done].
    + cbn. intros j Hj. rewrite Hrow by done. split; [intros [? ?]; split; [lia|done]|]. intros [Hjk Hu]. split; [|done].
      destruct (decide (j = k)) as [->|]; [|lia]. destruct Hu as (_ & _ & Hu). congruence.
  - cbn. intros row Hrow j Hj. rewrite Hrow by done. split; [tauto|]. intros Hu. split; [|done]. destruct Hu as (_ & ? & _). lia.
Qed.

Lemma trans_init_spec : returns (trans_init g) (λ tr, rows_are g tr (via g 0)).
Proof using W.
  pose proof (wg_count _ W) as Hn. unfold trans_init.
  eapply returns_mono; [apply (returns_for_range (λ k tr, Z.of_nat (length tr) = kMutexTypeMax ∧ (∀ i, 0 ≤ i < k → row_is tr i (under g i)) ∧
    ∀ i, k ≤ i < n → tr !! Z.to_nat i = Some 0)); [lia| |]|].
  - split; [done|]. split; [lia|]. intros i Hi. apply lookup_replicate_2. lia.
  - intros k tr Hk (Hl & Hlo & Hhi). rewrite (proj2 (aget_Ok tr k 0)) by (split; [lia|apply Hhi; lia]). cbn [mbind result_bind].
    rbind (by apply trans_row_spec). intros row Hrow. rewrite aset_Ok by lia. cbn. split; [by rewrite length_insert|]. split.
    + intros i Hi. destruct (decide (i = k)) as [->|]; [by apply row_insert; [lia|]|]. apply row_insert_ne; [lia..|]. apply Hlo. lia.
    + intros i Hi. rewrite list_lookup_insert_ne by lia. apply Hhi. lia.
  - cbn. intros tr (Hl & Hrows & _). split; [done|]. intros i Hi. eapply row_ext; [by apply Hrows|]. intros j. split; [by constructor|].
    intros H. apply via_zero; [done|]. by intros x y (? & _); lia.
Qed.

(** One round of Warshall's algorithm. *)
Lemma close_round_spec k tr : 0 ≤ k < n → rows_are g tr (via g k) →
  returns (for_range 0 n (λ i trans,
      ri ← aget trans i;
      b ← shl 32 1 k;
      if negb (Z.land ri b =? 0) then rk ← aget trans k; aset trans i (Z.lor ri rk) else Ok trans) tr) (λ tr', rows_are g tr' (via g (k + 1))).
Proof using W.
  intros Hk [Hl Hrows]. pose proof (wg_count _ W) as Hn.
  eapply returns_mono; [apply (returns_for_range (λ c tr, Z.of_nat (length tr) = kMutexTypeMax ∧
    ∀ i, 0 ≤ i < n → row_is tr i (via g (if i <? c then k + 1 else k) i))); [lia| |]|].
  - split; [done|]. intros i Hi. rewrite (proj2 (Z.ltb_ge i 0)) by lia. by apply Hrows.
  - intros c tr' Hc [Hl' Hr']. destruct (Hr' c Hc) as (ri & Hri & HPi). destruct (Hr' k Hk) as (rk & Hrk & HPk).
    rewrite (proj2 (Z.ltb_ge c c)) in HPi by lia. assert (∀ j, 0 ≤ j → Z.testbit rk j = true ↔ via g k k j) as HPk'.
    { intros j Hj. rewrite HPk by done. destruct (k <? c); [apply via_row|done]. }
    rewrite (proj2 (aget_Ok tr' c ri)) by (split; [lia|done]). cbn [mbind result_bind]. rewrite (proj1 (bit_of k 0 ltac:(lia) ltac:(lia))). cbn [mbind result_bind].
    rewrite land_bit, negb_involutive by lia. destruct (Z.testbit ri k) eqn:Eb.
    + rewrite (proj2 (aget_Ok tr' k rk)) by (split; [lia|done]). cbn [mbind result_bind]. rewrite aset_Ok by lia. cbn. split; [by rewrite length_insert|].
      intros i Hi. destruct (decide (i = c)) as [->|Hne].
      * rewrite (proj2 (Z.ltb_lt c (c + 1))) by lia. apply row_insert; [lia|]. intros j Hj. rewrite Z.lor_spec, orb_true_iff, HPi, HPk', via_succ by done.
        apply HPi in Eb; [tauto|lia].
      * apply row_insert_ne; [lia..|]. eapply row_ext; [by apply Hr'|]. intros j. by destruct (Z.ltb_spec i c), (Z.ltb_spec i (c + 1)); try lia.
    + cbn. split; [done|]. intros i Hi. destruct (decide (i = c)) as [->|Hne].
      * rewrite (proj2 (Z.ltb_lt c (c + 1))) by lia. exists ri. split; [done|]. intros j Hj. rewrite HPi, via_succ by done. split; [tauto|]. intros [|[H _]]; [done|].
        apply HPi in H; [congruence|lia].
      * eapply row_ext; [by apply Hr'|]. intros j. by destruct (Z.ltb_spec i c), (Z.ltb_spec i (c + 1)); try lia.
  - cbn. intros tr' [Hl' Hr']. split; [done|]. intros i Hi. specialize (Hr' i Hi). by rewrite (proj2 (Z.ltb_lt i n)) in Hr' by lia.
Qed.

Lemma trans_close_spec tr : rows_are g tr (via g 0) → returns (trans_close g tr) (λ tr', rows_are g tr' (tc (under g))).
Proof using W.
  intros Htr. pose proof (wg_count _ W) as Hn. unfold trans_close.
  eapply returns_mono; [apply (returns_for_range (λ k tr, rows_are g tr (via g k))); [lia|done|]|].
  - intros k tr' Hk Hr. by apply close_round_spec.
  - cbn. intros tr' [Hl Hr]. split; [done|]. intros i Hi. eapply row_ext; [by apply Hr|]. intros j. apply via_tc.
Qed.

(** The check accepts acyclic relations only. *)
Lemma trans_check_acyclic tr u : rows_are g tr (tc (under g)) → trans_check g tr = Ok u → acyclic g.
Proof using W.
  intros [Hl Hr] Hc. pose proof (wg_count _ W) as Hn. assert (∀ t, 0 ≤ t < n → ¬ tc (under g) t t) as Hno.
  { revert Hc. unfold trans_check. apply (for_range_inv (λ k (_ : unit), ∀ t, 0 ≤ t < k → ¬ tc (under g) t t)); [lia|lia|].
    intros k [] [] Hk Hlo. destruct (Hr k Hk) as (row & Hrow & HP). rewrite (proj2 (aget_Ok tr k row)) by (split; [lia|done]). cbn [mbind result_bind].
    rewrite (proj1 (bit_of k 0 ltac:(lia) ltac:(lia))). cbn [mbind result_bind]. rewrite land_bit by lia. destruct (Z.testbit row k) eqn:Eb; [done|]. intros _ t Ht.
    destruct (decide (t = k)) as [->|]; [|apply Hlo; lia]. intros H. apply HP in H; [congruence|lia]. }
  assert (∀ x y, tc (under g) x y → 0 ≤ x < n) as Hx by (by intros x y [? ? (? & _)|? ? ? (? & _) _]). intros t Ht. by apply (Hno t), Ht; eapply Hx.
Qed.

(** It accepts every acyclic relation. *)
Lemma trans_check_ok tr : rows_are g tr (tc (under g)) → acyclic g → returns (trans_check g tr) (λ _, True).
Proof using W.
  intros [Hl Hr] Ha. pose proof (wg_count _ W) as Hn. unfold trans_check. apply (returns_for_range (λ _ _, True)); [lia|done|].
  intros k [] Hk _. destruct (Hr k Hk) as (row & Hrow & HP). rewrite (proj2 (aget_Ok tr k row)) by (split; [lia|done]). cbn [mbind result_bind].
  rewrite (proj1 (bit_of k 0 ltac:(lia) ltac:(lia))). cbn [mbind result_bind]. rewrite land_bit by lia.
  destruct (Z.testbit row k) eqn:Eb; [|done]. apply HP in Eb; [by apply Ha in Eb|lia].
Qed.
End Closure.

(** ** What [DebugMutexInit] accepts *)
(** The arrays have their sizes. *)
Definition shape g : Prop := Z.of_nat (length (mutex_can_lock g)) = kMutexTypeMax ∧
  (∀ r, r ∈ mutex_can_lock g → Z.of_nat (length r) = kMutexTypeMax) ∧ Z.of_nat (length (mutex_multi g)) = kMutexTypeMax.

Lemma aset_inv {A} (l : list A) i a l' : aset l i a = Ok l' → 0 ≤ i < Z.of_nat (length l) ∧ l' = <[Z.to_nat i := a]> l.
Proof. unfold aset. destruct (Z.leb_spec 0 i), (Z.ltb_spec i (Z.of_nat (length l))); cbn [andb]; try done. intros [= <-]. done. Qed.

Lemma add_can_lock_shape g t z g' : shape g → add_can_lock g t z = Ok g' → shape g' ∧ mutex_type_count g' = mutex_type_count g.
Proof.
  intros (H1 & H2 & H3) H. unfold add_can_lock in H. destruct (aget (mutex_can_lock g) t) as [row|] eqn:E1; [|done]. cbn [mbind result_bind] in H.
  destruct (aset row z true) as [row'|] eqn:E2; [|done]. cbn [mbind result_bind] in H. destruct (aset (mutex_can_lock g) t row') as [rows|] eqn:E3; [|done].
  injection H as <-. apply aget_Ok in E1 as [_ E1]. apply aset_inv in E2 as [_ ->]. apply aset_inv in E3 as [_ ->]. split; [|done].
  split; cbn; [by rewrite length_insert|]. split; [|done]. intros r [k Hk]%list_elem_of_lookup_1.
  apply list_lookup_insert_Some in Hk as [(_ & <- & _)|(_ & Hk)]; [rewrite length_insert|]; eapply H2, list_elem_of_lookup_2; eassumption.
Qed.

Lemma add_multi_shape g t g' : shape g → add_multi g t = Ok g' → shape g' ∧ mutex_type_count g' = mutex_type_count g.
Proof.
  intros (H1 & H2 & H3) H. unfold add_multi in H. destruct (aset (mutex_multi g) t true) as [ms|] eqn:E; [|done]. injection H as <-. apply aset_inv in E as [_ ->].
  split; [|done]. split; [done|]. split; [done|]. cbn. by rewrite length_insert.
Qed.

(** Inversion of a sequence of fallible steps. *)
Ltac step_ok H := repeat match type of H with
  | (?m ≫= _) = Ok _ => let E := fresh "E" in let v := fresh "v" in destruct m as [v|] eqn:E; [cbn [mbind result_bind] in H|done]
  end.

Lemma init_can_lock_shape t zs g leaf cnt g' leaf' cnt' : shape g → init_can_lock t zs (g, leaf, cnt) = Ok (g', leaf', cnt') →
  shape g' ∧ mutex_type_count g' = mutex_type_count g.
Proof.
  revert g leaf cnt. induction zs as [|z zs IH]; intros g leaf cnt Hg; cbn [init_can_lock]; [by intros [= <- _ _]|].
  destruct (z =? MutexInvalid); [by intros [= <- _ _]|]. destruct (z =? MutexLeaf); [|destruct (z =? MutexMulti)]; intros H; step_ok H.
  - by apply IH in H.
  - apply add_multi_shape in E as [Hs Ec]; [|done]. apply IH in H as [? ?]; [|done]. split; [done|congruence].
  - apply add_can_lock_shape in E2 as [Hs Ec]; [|done]. apply IH in H as [? ?]; [|done]. split; [done|congruence].
Qed.

Lemma init_types_shape meta n t g leaf cnt g' leaf' cnt' : shape g → 0 ≤ t → mutex_type_count g = t - 1 → init_types meta n t (g, leaf, cnt) = Ok (g', leaf', cnt') →
  shape g' ∧ t - 1 ≤ mutex_type_count g' ∧ ((0 < n)%nat → t ≤ mutex_type_count g') ∧ mutex_type_count g' < t + Z.of_nat n.
Proof.
  revert t g leaf cnt. induction n as [|n IH]; intros t g leaf cnt Hg Ht Hc; cbn [init_types]; [intros [= <- _ _]; split; [done|]; lia|].
  intros H. step_ok H. destruct (name v).
  - step_ok H. destruct v1 as [[g1 leaf1] cnt1]. apply init_can_lock_shape in E1 as [Hs1 Hc1]; [|done]. cbn in Hc1.
    apply IH in H as (Hs & H1 & _ & H2); [|done|lia|lia]. split; [done|]. lia.
  - injection H as <- _ _. split; [done|]. cbn. lia.
Qed.

Lemma add_leaf_shape leaf cnt t g g' : shape g → 0 ≤ mutex_type_count g → add_leaf leaf cnt t g = Ok g' → shape g' ∧ mutex_type_count g' = mutex_type_count g.
Proof.
  intros Hg Hc H. unfold add_leaf in H. step_ok H. destruct (negb v); [by injection H as <-|]. step_ok H.
  revert H. apply (for_range_inv (λ _ g', shape g' ∧ mutex_type_count g' = mutex_type_count g)); [done|done|].
  intros z g1 g2 _ [Hs1 Hc1] H. step_ok H. destruct (_ || _); [by injection H as <-|]. step_ok H. apply add_can_lock_shape in H as [? ?]; [|done]. split; [done|congruence].
Qed.

Lemma zero_shape : shape zero_globals.
Proof. split; [done|]. split; [|done]. intros r [-> _]%elem_of_replicate. done. Qed.

Lemma DebugMutexInit_inv meta g g' : shape g → mutex_type_count g = -1 → DebugMutexInit meta g = Ok g' → wf_globals g' ∧ acyclic g'.
Proof.
  intros Hg Hc H. unfold DebugMutexInit in H. destruct (init_types _ _ _ _) as [[[g1 leaf] cnt]|] eqn:E1; [|done]. cbn [mbind result_bind] in H. step_ok H. injection H as <-.
  apply init_types_shape in E1 as (Hs1 & H1 & H2 & H3); [|done|lia|lia]. assert (0 ≤ mutex_type_count g1 < kMutexTypeMax) as Hc1 by lia.
  assert (shape v0 ∧ mutex_type_count v0 = mutex_type_count g1) as [Hs2 Hc2].
  { revert E0. apply (for_range_inv (λ _ g', shape g' ∧ mutex_type_count g' = mutex_type_count g1)); [lia|done|].
    intros t g2 g3 _ [Hs Hc'] H. apply add_leaf_shape in H as [? ?]; [|done|lia]. split; [done|congruence]. }
  assert (wf_globals v0) as W by (destruct Hs2 as (? & ? & ?); split; [lia|done..]). split; [done|].
  pose proof (trans_init_spec W) as Hi. rewrite E2 in Hi. pose proof (trans_close_spec W v1 Hi) as Hcl. rewrite E3 in Hcl. by eapply trans_check_acyclic.
Qed.

(** ** Locks of a thread *)
Definition lock_at d (i : Z) (l : LockDesc) : Prop := 0 ≤ i ∧ locked d !! Z.to_nat i = Some l.
Definition held d (i : Z) : Prop := ∃ l, lock_at d i l ∧ seq l ≠ 0.
(** The type locked last. *)
Definition last_is d (i : Z) : Prop := ∃ l, lock_at d i l ∧ seq l ≠ 0 ∧ ∀ j lj, lock_at d j lj → seq lj ≤ seq l.

(** The locks of a thread form a chain of the hierarchy, in the order of their sequence numbers. *)
Record det_ok g d : Prop := {
  do_len : Z.of_nat (length (locked d)) = kMutexTypeMax;
  do_seq : 0 ≤ sequence d < 2 ^ 64;
  do_desc i l : lock_at d i l → 0 ≤ seq l ≤ sequence d ∧ (seq l ≠ 0 → 0 < i < mutex_type_count g ∧ 0 < recursion l < 2 ^ 31 ∧ pc l ≠ 0);
  do_chain i j li lj : lock_at d i li → lock_at d j lj → seq li ≠ 0 → seq li ≤ seq lj → i = j ∨ tc (under g) i j
}.

Lemma new_det_ok g : det_ok g new_detector.
Proof.
  assert (∀ i l, lock_at new_detector i l → l = mkDesc 0 0 0) as Hz by (by intros i l [_ [-> _]%lookup_replicate]).
  split; [done|cbn; lia| |].
  - intros i l ->%Hz. cbn. lia.
  - intros i j li lj ->%Hz _. done.
Qed.

Section Detector.
Context {g : globals} (W : wf_globals g) (Hac : acyclic g).

Lemma lock_at_exists d i : det_ok g d → 0 ≤ i < kMutexTypeMax → ∃ l, lock_at d i l.
Proof using. intros D Hi. destruct (lookup_lt_is_Some_2 (locked d) (Z.to_nat i)) as [l Hl]; [pose proof (do_len _ _ D); lia|]. exists l. split; [lia|done]. Qed.

Lemma lock_at_get d i l : lock_at d i l → aget (locked d) i = Ok l.
Proof using. intros. by apply aget_Ok. Qed.

Lemma lock_at_insert d i l0 init sq l j l' : lock_at d i l0 → lock_at (mkDet init sq (<[Z.to_nat i := l]> (locked d))) j l' ↔ (j = i ∧ l' = l) ∨ (j ≠ i ∧ lock_at d j l').
Proof using.
  intros [Hi Hl]. pose proof (lookup_lt_Some _ _ _ Hl). unfold lock_at. cbn [locked]. destruct (decide (j = i)) as [->|Hne].
  - rewrite list_lookup_insert_eq by done. naive_solver.
  - split; [intros [? H1]; rewrite list_lookup_insert_ne in H1 by lia; auto|]. intros [[? _]|[_ [? H1]]]; [done|]. split; [done|]. by rewrite list_lookup_insert_ne by lia.
Qed.

(** Two types never have the same sequence number. *)
Lemma chain_distinct d i j li lj : det_ok g d → lock_at d i li → lock_at d j lj → seq li ≠ 0 → seq li = seq lj → i = j.
Proof using Hac.
  intros D Hi Hj H0 E. destruct (do_chain _ _ D _ _ _ _ Hi Hj H0 ltac:(lia)) as [|H1]; [done|].
  destruct (do_chain _ _ D _ _ _ _ Hj Hi ltac:(lia) ltac:(lia)) as [|H2]; [done|]. exfalso. apply (Hac i). by eapply tc_transitive.
Qed.

Lemma last_locked_spec d : det_ok g d → returns (last_locked g d) (λ '(ms, mi),
  (ms = 0 ∧ mi = 0 ∧ ∀ i, ¬ held d i) ∨ (last_is d mi ∧ ∃ l, lock_at d mi l ∧ seq l = ms ∧ 0 < mi < mutex_type_count g)).
Proof using W Hac.
  intros D. pose proof (wg_count _ W) as Hn. unfold last_locked.
  eapply returns_mono; [apply (returns_for_range (λ k '(ms, mi), (ms = 0 ∧ mi = 0 ∧ ∀ j lj, j < k → lock_at d j lj → seq lj = 0) ∨
    (mi < k ∧ ∃ l, lock_at d mi l ∧ seq l = ms ∧ 0 < ms ∧ ∀ j lj, j < k → lock_at d j lj → seq lj ≤ ms))); [lia| |]|].
  - left. split; [done|]. split; [done|]. intros j lj Hj [? _]. lia.
  - intros k [ms mi] Hk Hms. destruct (lock_at_exists d k D ltac:(lia)) as [l Hl]. rewrite (lock_at_get _ _ _ Hl). cbn [mbind result_bind].
    destruct (do_desc _ _ D _ _ Hl) as [Hs _].
    assert (∀ j lj, j < k + 1 → lock_at d j lj → lj = l ∨ j < k) as Hcase.
    { intros j lj Hj Hlj. destruct (decide (j = k)) as [->|]; [left; destruct Hl, Hlj; congruence|right; lia]. }
    destruct (Z.eqb_spec (seq l) 0) as [E0|E0].
    + destruct Hms as [(-> & -> & Hz)|(Hmi & l' & Hl' & E' & Hpos & Hle)]; [left|right].
      * split; [done|]. split; [done|]. intros j lj Hj Hlj. destruct (Hcase j lj Hj Hlj) as [->|]; [done|eauto].
      * split; [lia|]. exists l'. split; [done|]. split; [done|]. split; [done|]. intros j lj Hj Hlj. destruct (Hcase j lj Hj Hlj) as [->|]; [lia|eauto].
    + assert (seq l ≠ ms) as Hne.
      { destruct Hms as [(-> & _)|(Hmi & l' & Hl' & E' & _)]; [done|]. intros E. assert (mi = k); [|lia]. apply (chain_distinct d mi k l' l D Hl' Hl); lia. }
      rewrite (proj2 (Z.eqb_neq _ _) Hne). cbn [negb CHECK mbind result_bind returns].
      destruct (Z.ltb_spec ms (seq l)) as [Hlt|Hge]; right.
      * split; [lia|]. exists l. split; [done|]. split; [done|]. split; [lia|]. intros j lj Hj Hlj. destruct (Hcase j lj Hj Hlj) as [->|]; [lia|].
        destruct Hms as [(_ & _ & Hz)|(_ & _ & _ & _ & _ & Hle)]; [rewrite (Hz j lj) by done; lia|]. specialize (Hle j lj ltac:(done) Hlj). lia.
      * destruct Hms as [(-> & _)|(Hmi & l' & Hl' & E' & Hpos & Hle)]; [lia|]. split; [lia|]. exists l'. split; [done|]. split; [done|]. split; [done|].
        intros j lj Hj Hlj. destruct (Hcase j lj Hj Hlj) as [->|]; [lia|eauto].
  - intros [ms mi] Hms. assert (∀ j lj, lock_at d j lj → seq lj ≠ 0 → j < mutex_type_count g) as Hrange by (intros j lj Hlj H0; apply (do_desc _ _ D) in Hlj as [_ Hlj]; specialize (Hlj H0); lia).
    destruct Hms as [(-> & -> & Hz)|(Hmi & l & Hl & <- & Hpos & Hle)]; [left|right].
    + split; [done|]. split; [done|]. intros i (l & Hl & H0). apply H0, (Hz i); [by eapply Hrange|done].
    + pose proof (do_desc _ _ D _ _ Hl) as [_ Hr]. split; [|exists l; split; [done|]; split; [done|]; apply Hr; lia]. exists l. split; [done|]. split; [lia|]. intros j lj Hlj.
      destruct (decide (seq lj = 0)) as [->|H0]; [lia|]. apply (Hle j lj); [by eapply Hrange|done].
Qed.

Lemma last_above d L t : det_ok g d → last_is d L → under g L t → ∀ i, held d i → tc (under g) i t.
Proof using.
  intros D (l & Hl & H0 & Hle) Hu i (li & Hli & Hi0). destruct (do_chain _ _ D _ _ _ _ Hli Hl Hi0 (Hle _ _ Hli)) as [->|H]; [by apply tc_once|].
  eapply tc_transitive; [done|by apply tc_once].
Qed.

Lemma last_unique d L L' : det_ok g d → last_is d L → last_is d L' → L = L'.
Proof using Hac.
  intros D (l & Hl & H0 & Hle) (l' & Hl' & H0' & Hle'). apply (chain_distinct d _ _ _ _ D Hl Hl' H0). specialize (Hle _ _ Hl'). specialize (Hle' _ _ Hl). lia.
Qed.

(** A new lock at the end of the chain. *)
Lemma det_push d t caller_pc init : det_ok g d → 0 < t < mutex_type_count g → (∀ i, held d i → tc (under g) i t) → caller_pc ≠ 0 → sequence d + 1 < 2 ^ 64 →
  det_ok g (mkDet init (sequence d + 1) (<[Z.to_nat t := mkDesc (sequence d + 1) caller_pc 1]> (locked d))).
Proof using W.
  intros D Ht Habove Hpc Hseq. pose proof (wg_count _ W) as Hn. destruct (lock_at_exists d t D ltac:(lia)) as [l0 Hl0]. pose proof (do_seq _ _ D) as Hs. split; cbn [locked sequence].
  - rewrite length_insert. apply D.
  - lia.
  - intros i l [[-> ->]|[_ Hl]]%(lock_at_insert _ _ _ _ _ _ _ _ Hl0); [cbn; lia|]. destruct (do_desc _ _ D _ _ Hl). split; [lia|done].
  - intros i j li lj [[-> ->]|[Hi Hli]]%(lock_at_insert _ _ _ _ _ _ _ _ Hl0) [[-> ->]|[Hj Hlj]]%(lock_at_insert _ _ _ _ _ _ _ _ Hl0); cbn [seq].
    + by left.
    + apply (do_desc _ _ D) in Hlj. lia.
    + intros H0 _. right. apply Habove. by exists li.
    + by apply (do_chain _ _ D).
Qed.

(** The counter of a lock changes. *)
Lemma det_recount d t l init rec : det_ok g d → lock_at d t l → seq l ≠ 0 → 0 < rec < 2 ^ 31 →
  det_ok g (mkDet init (sequence d) (<[Z.to_nat t := mkDesc (seq l) (pc l) rec]> (locked d))).
Proof using.
  intros D Hl H0 Hrec. pose proof (do_desc _ _ D _ _ Hl) as [Hs Hd]. split; cbn [locked sequence].
  - rewrite length_insert. apply D.
  - apply D.
  - intros i l' [[-> ->]|[_ Hl']]%(lock_at_insert _ _ _ _ _ _ _ _ Hl); [cbn; naive_solver|by apply D].
  - intros i j li lj [[-> ->]|[Hi Hli]]%(lock_at_insert _ _ _ _ _ _ _ _ Hl) [[-> ->]|[Hj Hlj]]%(lock_at_insert _ _ _ _ _ _ _ _ Hl); cbn [seq].
    + by left.
    + by apply (do_chain _ _ D).
    + by apply (do_chain _ _ D).
    + by apply (do_chain _ _ D).
Qed.

(** A lock is released. *)
Lemma det_release d t l init : det_ok g d → lock_at d t l → det_ok g (mkDet init (sequence d) (<[Z.to_nat t := mkDesc 0 0 0]> (locked d))).
Proof using.
  intros D Hl. pose proof (do_seq _ _ D) as Hs. split; cbn [locked sequence].
  - rewrite length_insert. apply D.
  - done.
  - intros i l' [[-> ->]|[_ Hl']]%(lock_at_insert _ _ _ _ _ _ _ _ Hl); [cbn; lia|by apply D].
  - intros i j li lj [[-> ->]|[Hi Hli]]%(lock_at_insert _ _ _ _ _ _ _ _ Hl) [[-> ->]|[Hj Hlj]]%(lock_at_insert _ _ _ _ _ _ _ _ Hl); cbn [seq]; try done.
    + apply (do_desc _ _ D) in Hli. lia.
    + by apply (do_chain _ _ D).
Qed.

(** What a thread may lock. *)
Definition may_lock d t : Prop :=
  (∀ i, ¬ held d i) ∨ ∃ L, last_is d L ∧ (under g L t ∨ (L = t ∧ aget (mutex_multi g) t = Ok true)).

Lemma multi_total t : 0 ≤ t < mutex_type_count g → ∃ b, aget (mutex_multi g) t = Ok b.
Proof using W.
  intros Ht. pose proof (wg_count _ W). pose proof (wg_multi _ W). destruct (lookup_lt_is_Some_2 (mutex_multi g) (Z.to_nat t)) as [b Hb]; [lia|].
  exists b. apply aget_Ok. split; [lia|done].
Qed.

(** The outcome of a check: the recursive case, the ordinary one, or a failure. *)
Lemma detector_lock_cases d t caller_pc : det_ok g d → 0 < t < mutex_type_count g → sequence d + 1 < 2 ^ 64 →
  let pushed := mkDet (initialized d) (sequence d + 1) (<[Z.to_nat t := mkDesc (sequence d + 1) caller_pc 1]> (locked d)) in
  ((∀ i, ¬ held d i) ∧ detector_lock g d t caller_pc = Ok pushed) ∨
  ∃ L, last_is d L ∧
    ((L = t ∧ aget (mutex_multi g) t = Ok true ∧ ∃ l, lock_at d t l ∧ seq l ≠ 0 ∧ detector_lock g d t caller_pc =
        if recursion l + 1 <? 2 ^ 31 then Ok (mkDet (initialized d) (sequence d) (<[Z.to_nat t := mkDesc (seq l) (pc l) (recursion l + 1)]> (locked d))) else Fault SignedOverflow) ∨
     (¬ (L = t ∧ aget (mutex_multi g) t = Ok true) ∧ (under g L t ∧ detector_lock g d t caller_pc = Ok pushed ∨ ¬ under g L t ∧ detector_lock g d t caller_pc = Fault CheckFailed))).
Proof using W Hac.
  intros D Ht Hseq pushed. pose proof (wg_count _ W) as Hn. destruct (lock_at_exists d t D ltac:(lia)) as [l0 Hl0].
  assert (∀ l, aset (locked d) t l = Ok (<[Z.to_nat t := l]> (locked d))) as Hset by (intros; apply aset_Ok; pose proof (do_len _ _ D); lia).
  assert (u64 (sequence d + 1) = sequence d + 1) as Eu by (apply cast_id; pose proof (do_seq _ _ D); lia).
  pose proof (last_locked_spec d D) as Hll. unfold detector_lock. rewrite (proj2 (Z.ltb_lt t _)) by lia. cbn [CHECK mbind result_bind].
  destruct (last_locked g d) as [[ms mi]|]; [|done]. cbn [returns mbind result_bind] in *. destruct Hll as [(-> & -> & Hno)|(Hlast & l & Hl & Es & Hmi)].
  - left. split; [done|]. rewrite (proj2 (Z.eqb_neq 0 t)) by lia. cbn [mbind result_bind Z.eqb negb CHECK]. rewrite Hset, Eu. done.
  - right. exists mi. split; [done|]. assert (seq l ≠ 0 ∧ pc l ≠ 0) as [H0 Hpc].
    { destruct Hlast as (l' & Hl' & H0 & _). assert (l' = l) as -> by (destruct Hl, Hl'; congruence). split; [done|]. apply (do_desc _ _ D) in Hl as [_ Hl]. naive_solver. }
    destruct (multi_total t ltac:(lia)) as [b Hb]. rewrite (proj2 (Z.eqb_neq mi MutexInvalid)) by lia. cbn [negb].
    destruct (get_can_lock_ok g mi t W) as [c Hc]; [lia..|]. destruct (Z.eqb_spec mi t) as [->|Hne].
    + rewrite Hb. destruct b; cbn [mbind result_bind].
      * left. split; [done|]. split; [done|]. exists l. split; [done|]. split; [done|]. rewrite (lock_at_get _ _ _ Hl). cbn [mbind result_bind].
        rewrite Es, Z.eqb_refl. cbn [CHECK mbind result_bind]. rewrite (proj2 (Z.eqb_neq _ _) Hpc). cbn [negb CHECK mbind result_bind].
        destruct (recursion l + 1 <? 2 ^ 31); [|done]. cbn [mbind result_bind]. by rewrite Hset.
      * right. split; [naive_solver|]. right. split; [intros H; apply (Hac t); by apply tc_once|]. rewrite Hc. cbn [mbind result_bind].
        destruct c; [|done]. exfalso. apply (Hac t), tc_once. split; [lia|]. split; [lia|done].
    + cbn [mbind result_bind]. right. split; [naive_solver|]. rewrite Hc. cbn [mbind result_bind]. destruct c; [left|right]; cbn [CHECK mbind result_bind].
      * split; [split; [lia|]; split; [lia|done]|]. by rewrite Hset, Eu.
      * split; [|done]. intros (_ & _ & H). congruence.
Qed.

Lemma detector_lock_inv d t caller_pc d' : det_ok g d → 0 < t < mutex_type_count g → caller_pc ≠ 0 → sequence d + 1 < 2 ^ 64 → detector_lock g d t caller_pc = Ok d' →
  det_ok g d' ∧ may_lock d t ∧ ∀ i, held d i → tc (under g) i t ∨ (i = t ∧ aget (mutex_multi g) t = Ok true).
Proof using W Hac.
  intros D Ht Hpc Hseq H. destruct (detector_lock_cases d t caller_pc D Ht Hseq) as [[Hno E]|(L & Hlast & [(-> & Hm & l & Hl & H0 & E)|(Hnm & [[Hu E]|[_ E]])])]; rewrite H in E.
  - injection E as ->. split; [|split; [by left|intros i Hi; by apply Hno in Hi]]. apply det_push; try done. intros i Hi. by apply Hno in Hi.
  - destruct (Z.ltb_spec (recursion l + 1) (2 ^ 31)) as [Hr|]; [|done]. injection E as ->. split; [|split; [right; exists t; split; [done|by right]|]].
    2: { destruct Hlast as (lt & Hlt & H0t & Hle). intros i (li & Hli & Hi0). destruct (do_chain _ _ D _ _ _ _ Hli Hlt Hi0 (Hle _ _ Hli)) as [->|?]; [by right|by left]. }
    apply det_recount; [done|done|done|]. apply (do_desc _ _ D) in Hl as [_ Hl]. specialize (Hl H0). lia.
  - injection E as ->. pose proof (last_above d L t D Hlast Hu) as Habove. split; [by apply det_push|]. split; [right; exists L; split; [done|by left]|]. intros i Hi. left. by apply Habove.
  - done.
Qed.

Lemma detector_unlock_ok d t : det_ok g d → held d t → returns (detector_unlock g d t) (det_ok g).
Proof using.
  intros D (l & Hl & H0). destruct (do_desc _ _ D _ _ Hl) as [_ Hd]. destruct (Hd H0) as (Ht & Hr & _). unfold detector_unlock. rewrite (proj2 (Z.ltb_lt t _)) by lia. cbn [CHECK mbind result_bind].
  rewrite (lock_at_get _ _ _ Hl). cbn [mbind result_bind]. rewrite (proj2 (Z.eqb_neq _ _) H0). cbn [negb CHECK mbind result_bind]. rewrite (proj2 (Z.ltb_lt 0 _)) by lia. cbn [CHECK mbind result_bind].
  destruct Hl as [Hi Hlk]. pose proof (lookup_lt_Some _ _ _ Hlk). rewrite aset_Ok by lia. cbn [mbind result_bind returns]. destruct (Z.eqb_spec (recursion l - 1) 0) as [E|E]; cbn [negb].
  - rewrite E. by apply (det_release d t l).
  - apply (det_recount d t l); [done|done|done|lia].
Qed.

(** The states of a thread whose locks and unlocks passed the checks. *)
Inductive thread_reach : InternalDeadlockDetector → Prop :=
  | tr_new init : thread_reach (mkDet init 0 (locked new_detector))
  | tr_lock d t caller_pc d' : thread_reach d → 0 < t < mutex_type_count g → caller_pc ≠ 0 → sequence d + 1 < 2 ^ 64 →
      detector_lock g d t caller_pc = Ok d' → thread_reach d'
  | tr_unlock d t d' : thread_reach d → detector_unlock g d t = Ok d' → thread_reach d'.

Lemma unlock_held d t d' : 0 ≤ t → detector_unlock g d t = Ok d' → held d t.
Proof using.
  intros Ht H. unfold detector_unlock in H. step_ok H. apply aget_Ok in E0 as [_ E0]. exists v0. split; [by split|]. unfold CHECK in E1. by destruct (Z.eqb_spec (seq v0) 0).
Qed.

Lemma unlock_nonneg d t d' : detector_unlock g d t = Ok d' → 0 ≤ t.
Proof using. intros H. unfold detector_unlock in H. step_ok H. by apply aget_Ok in E0 as [? _]. Qed.

Lemma thread_reach_ok d : thread_reach d → det_ok g d.
Proof using W Hac.
  induction 1 as [init|d t p d' _ IH Ht Hpc Hs Hl|d t d' _ IH Hu].
  - destruct (new_det_ok g). by split.
  - by eapply detector_lock_inv.
  - pose proof (detector_unlock_ok d t IH) as Hok. rewrite Hu in Hok. apply Hok. eapply unlock_held; [by eapply unlock_nonneg|done].
Qed.
End Detector.

(** ** Theorems *)

(** A thread in state [d] asks for a mutex of type [t] and passes the check. *)
Definition asks g (w : InternalDeadlockDetector * Z) : Prop := thread_reach (g:=g) w.1 ∧ 0 < w.2 < mutex_type_count g ∧
  ∃ caller_pc d', caller_pc ≠ 0 ∧ sequence w.1 + 1 < 2 ^ 64 ∧ detector_lock g w.1 w.2 caller_pc = Ok d'.

(** Each thread asks for a mutex of a type that the next one holds, the last one for one that the first holds. *)
Definition waiting_cycle (ws : list (InternalDeadlockDetector * Z)) : Prop :=
  ∀ i w w', ws !! i = Some w → ws !! ((i + 1) mod length ws)%nat = Some w' → held w'.1 w.2.

(** A cycle of steps along an acyclic relation or in place only has steps in place. *)
Lemma cycle_steps (R : Z → Z → Prop) (Q : Z → Prop) (ts : list Z) : (∀ t, ¬ tc R t t) →
  (∀ i t t', ts !! i = Some t → ts !! ((i + 1) mod length ts)%nat = Some t' → tc R t t' ∨ (t = t' ∧ Q t')) →
  ∀ i t t', ts !! i = Some t → ts !! ((i + 1) mod length ts)%nat = Some t' → t = t' ∧ Q t'.
Proof.
  intros Hac Hstep i t t' Hi Hi'. pose proof (lookup_lt_Some _ _ _ Hi) as Hlt. destruct (Hstep i t t' Hi Hi') as [Htc|?]; [exfalso|done].
  assert (∀ k x, ts !! ((i + 1 + k) mod length ts)%nat = Some x → t' = x ∨ tc R t' x) as Hk.
  { induction k as [|k IH]; intros x Hx; [rewrite Nat.add_0_r in Hx; left; congruence|]. destruct (lookup_lt_is_Some_2 ts ((i + 1 + k) mod length ts)) as [y Hy]; [apply Nat.mod_upper_bound; lia|].
    assert (tc R y x ∨ (y = x ∧ Q x)) as Hyx by (apply (Hstep _ y x Hy); rewrite Nat.Div0.add_mod_idemp_l; by replace (i + 1 + k + 1)%nat with (i + 1 + S k)%nat by lia).
    destruct (IH y Hy) as [->|H1], Hyx as [H2|[-> _]]; auto. right. by eapply tc_transitive. }
  destruct (Hk (length ts - 1)%nat t) as [->|H].
  - replace (i + 1 + (length ts - 1))%nat with (i + 1 * length ts)%nat by lia. rewrite Nat.Div0.mod_add, Nat.mod_small by lia. done.
  - by apply (Hac t).
  - apply (Hac t). by eapply tc_transitive.
Qed.

(** All steps in place: one point. *)
Lemma cycle_constant (ts : list Z) t0 : head ts = Some t0 → (∀ i t t', ts !! i = Some t → ts !! ((i + 1) mod length ts)%nat = Some t' → t = t') → Forall (λ t, t = t0) ts.
Proof.
  intros Hh Hstep. apply Forall_lookup. intros k. induction k as [|k IH]; intros t Ht; [by destruct ts; cbn in *; simplify_eq|].
  pose proof (lookup_lt_Some _ _ _ Ht). destruct (lookup_lt_is_Some_2 ts k) as [y Hy]; [lia|]. rewrite <- (IH y Hy). symmetry. apply (Hstep k y t Hy). rewrite Nat.mod_small by lia. by rewrite Nat.add_1_r.
Qed.

(** [C15] Threads that pass the checks of their mutexes deadlock on one type at most, and only on
    one marked [MutexMulti]: when [DebugMutexInit] accepts the table of a tool and every thread
    passes its checks, then in a cycle of threads of which each asks for a mutex of a type
    that the next one holds, all of them ask for the same type, and the table marks
    it [MutexMulti], which makes the checks accept it under itself.  A cycle in which some thread
    asks for an ordinary type does not exist. *)
Theorem checked_mutex_no_deadlock meta g (ws : list (InternalDeadlockDetector * Z)) : DebugMutexInit meta zero_globals = Ok g → ws ≠ [] → Forall (asks g) ws → waiting_cycle ws →
  ∃ t, aget (mutex_multi g) t = Ok true ∧ Forall (λ w, w.2 = t) ws.
Proof.
  intros Hinit Hne Hasks Hcyc. destruct (DebugMutexInit_inv meta zero_globals g zero_shape eq_refl Hinit) as [W Hac]. rewrite Forall_lookup in Hasks.
  pose proof (cycle_steps (under g) (λ t, aget (mutex_multi g) t = Ok true) (snd <$> ws) Hac) as Hall. destruct ws as [|w0 ws0] eqn:Ews; [done|]. rewrite <- Ews in *. exists w0.2.
  assert (∀ i t t', (snd <$> ws) !! i = Some t → (snd <$> ws) !! ((i + 1) mod length (snd <$> ws))%nat = Some t' → t = t' ∧ aget (mutex_multi g) t' = Ok true) as Hin.
  { apply Hall. intros i t t' Hi Hj. rewrite length_fmap in Hj. rewrite list_lookup_fmap in Hi, Hj. apply fmap_Some in Hi as (w & Hw & ->). apply fmap_Some in Hj as (w' & Hw' & ->).
    pose proof (Hcyc i w w' Hw Hw') as Hheld. destruct (Hasks _ _ Hw') as (Hr & Ht & p & d' & Hp & Hs & Hl). by apply (detector_lock_inv W Hac w'.1 w'.2 p d' (thread_reach_ok W Hac _ Hr) Ht Hp Hs Hl). }
  split.
  - destruct (lookup_lt_is_Some_2 (snd <$> ws) (1 mod length (snd <$> ws))) as [t' Ht']; [apply Nat.mod_upper_bound; by rewrite Ews|]. destruct (Hin 0%nat w0.2 t') as [-> ?]; [by rewrite Ews|done|done].
  - assert (Forall (λ t, t = w0.2) (snd <$> ws)) as Hc by (apply cycle_constant; [by rewrite Ews|]; intros; by eapply Hin). by rewrite Forall_fmap in Hc.
Qed.

(** The check of a lock is exact: a thread that holds no mutex passes; otherwise it
    passes iff the type can be locked under the type it locked last, or is that type
    again and marked [MutexMulti]; any other lock fails the check. *)
Theorem detector_lock_correct meta g d t caller_pc : DebugMutexInit meta zero_globals = Ok g → thread_reach (g:=g) d → 0 < t < mutex_type_count g → caller_pc ≠ 0 →
  sequence d + 1 < 2 ^ 64 → (∀ i l, lock_at d i l → recursion l + 1 < 2 ^ 31) →
  (may_lock (g:=g) d t → returns (detector_lock g d t caller_pc) (λ d', held d' t)) ∧
  (¬ may_lock (g:=g) d t → detector_lock g d t caller_pc = Fault CheckFailed).
Proof.
  intros Hinit Hr Ht Hp Hs Hrec. destruct (DebugMutexInit_inv meta zero_globals g zero_shape eq_refl Hinit) as [W Hac]. pose proof (thread_reach_ok W Hac d Hr) as D.
  pose proof (do_seq _ _ D) as Hs0. destruct (lock_at_exists d t D ltac:(pose proof (wg_count _ W); lia)) as [l0 Hl0].
  assert (∀ init sq l, seq l ≠ 0 → held (mkDet init sq (<[Z.to_nat t := l]> (locked d))) t) as Hheld.
  { intros init sq l Hl. exists l. split; [|done]. apply (lock_at_insert d t l0); [done|by left]. }
  destruct (detector_lock_cases W Hac d t caller_pc D Ht ltac:(lia)) as [[Hno ->]|(L & Hlast & [(-> & Hm & l & Hl & H0 & ->)|(Hnm & [[Hu ->]|[Hnu ->]])])].
  - split; [intros _; cbn; apply Hheld; cbn; lia|]. intros Hn. by destruct Hn; left.
  - rewrite (proj2 (Z.ltb_lt _ _)) by (by eapply Hrec). split; [intros _; cbn; by apply Hheld|]. intros Hn. destruct Hn. right. exists t. split; [done|by right].
  - split; [intros _; cbn; apply Hheld; cbn; lia|]. intros Hn. destruct Hn. right. exists L. split; [done|by left].
  - split; [|done]. intros [Hno|(L' & Hl' & Hor)].
    + exfalso. destruct Hlast as (l & Hl & H0 & _). apply (Hno L). by exists l.
    + exfalso. rewrite (last_unique Hac d L' L D Hl' Hlast) in Hor. tauto.
Qed.

(** ** An example table: 1 above 2, leaf type 3, 2 may be locked repeatedly *)
Definition demo_meta : list MutexMeta :=
  let m t cl := mkMeta t (Some []) cl in
  [m 0 []; m 1 [2]; m 2 [MutexMulti]; m 3 [MutexLeaf]] ++ replicate 16 (mkMeta 0 None []).
Definition demo_globals : globals := from_result zero_globals (DebugMutexInit demo_meta zero_globals).
Definition demo_d1 : InternalDeadlockDetector := from_result new_detector (detector_lock demo_globals new_detector 1 77).

Lemma demo_init : DebugMutexInit demo_meta zero_globals = Ok demo_globals.
Proof. vm_compute. reflexivity. Qed.

Lemma demo_reach : thread_reach (g:=demo_globals) demo_d1.
Proof. apply (tr_lock new_detector 1 77); [apply tr_new|vm_compute; done|done|done|vm_compute; reflexivity]. Qed.

Definition demo_d2 : InternalDeadlockDetector := from_result new_detector (detector_lock demo_globals new_detector 2 77).

Lemma demo_reach2 : thread_reach (g:=demo_globals) demo_d2.
Proof. apply (tr_lock new_detector 2 77); [apply tr_new|vm_compute; done|done|done|vm_compute; reflexivity]. Qed.

(** Two threads that each hold a mutex of the type 2 and ask for another one, and no cycle with the types 1 and 3. *)
Lemma checked_mutex_no_deadlock_witness : waiting_cycle [(demo_d2, 2); (demo_d2, 2)] ∧
  (∃ t, aget (mutex_multi demo_globals) t = Ok true ∧ Forall (λ w, w.2 = t) [(demo_d2, 2); (demo_d2, 2)]) ∧ ¬ waiting_cycle [(demo_d1, 3)].
Proof.
  assert (waiting_cycle [(demo_d2, 2); (demo_d2, 2)]) as Hcyc.
  { intros [|[|i]] w w' Hw Hw'; cbn in Hw, Hw'; simplify_eq; (eexists; split; [split; [done|vm_compute; reflexivity]|done]). }
  split; [done|]. split.
  - apply (checked_mutex_no_deadlock demo_meta demo_globals [(demo_d2, 2); (demo_d2, 2)] demo_init ltac:(done)); [|done].
    do 2 (constructor; [split; [apply demo_reach2|]; split; [vm_compute; done|]; exists 78, (from_result demo_d2 (detector_lock demo_globals demo_d2 2 78)); split; [done|]; split; [done|]; vm_compute; reflexivity|]). constructor.
  - intros Hc. destruct (checked_mutex_no_deadlock demo_meta demo_globals [(demo_d1, 3)] demo_init ltac:(done)) as (t & Hm & Ht); [|done|].
    + constructor; [|constructor]. split; [apply demo_reach|]. split; [vm_compute; done|]. exists 78, (from_result demo_d1 (detector_lock demo_globals demo_d1 3 78)). split; [done|]. split; [done|]. vm_compute. reflexivity.
    + apply Forall_cons_1 in Ht as [<- _]. vm_compute in Hm. discriminate.
Defined.

Lemma detector_lock_correct_witness :
  (may_lock (g:=demo_globals) new_detector 2 → returns (detector_lock demo_globals new_detector 2 5) (λ d', held d' 2)) ∧
  (¬ may_lock (g:=demo_globals) new_detector 2 → detector_lock demo_globals new_detector 2 5 = Fault CheckFailed).
Proof.
  apply (detector_lock_correct demo_meta demo_globals new_detector 2 5 demo_init); [apply tr_new|vm_compute; done|done|done|].
  intros i l [_ [-> _]%lookup_replicate]. done.
Defined.

(** The table has room for [kMutexTypeMax] types with the terminator; a table without one is
    meant to fail the check on [mutex_type_count], but the loop leaves the index of its last
    entry there: the table is accepted, and its last type is dropped. *)
Example unterminated_table :
  mutex_type_count (from_result zero_globals (DebugMutexInit ((λ t, mkMeta (Z.of_nat t) (Some []) []) <$> List.seq 0 20) zero_globals)) = 19.
Proof. vm_compute. reflexivity. Qed.

End Checked.
