(* ===== verification/PageRelease.v ===== *)
(** * PageRelease: returning the memory of free chunks

    Models the part of [sanitizer_allocator_primary64.h] that gives pages back to the system:
    [PackedCounterArray], [FreePagesRangeTracker], [MemoryMapper] and
    [ReleaseFreeMemoryToOS].  Offsets in a region are in units of [2^kCompactPtrScale] bytes.  The
    page size and the beginning of the region are arguments; the calls of
    [ReleaseMemoryPagesToOS] are recorded in a log.  The buffer of the counters is fresh zeroed memory.
    The theorem: a page is released iff all chunks that touch it are free. *)
From S2P Require Import Prelude Common.

Module Release.

Abbreviation kCompactPtrScale := (4) (only parsing).

(** ** Packed counters *)
Record PackedCounterArray := mkPCA {
  n : Z; counter_size_bits_log : Z; counter_mask : Z; packing_ratio_log : Z; bit_offset_mask : Z; buffer : list Z
}.
Implicit Types (c : PackedCounterArray).

Abbreviation kMaxCounterBits := (64) (only parsing).

Definition new_PackedCounterArray (num_counters max_value : Z) : result PackedCounterArray :=
  CHECK (0 <? num_counters);;
  CHECK (0 <? max_value);;
  msb ← MostSignificantSetBitIndex max_value;
  counter_size_bits ← RoundUpToPowerOfTwo (msb + 1);
  CHECK (counter_size_bits <=? kMaxCounterBits);;
  bits_log ← Log2 counter_size_bits;
  mask ← shr 64 (2 ^ 64 - 1) (kMaxCounterBits - counter_size_bits);
  packing_ratio ← shr 64 kMaxCounterBits bits_log;
  CHECK (0 <? packing_ratio);;
  ratio_log ← Log2 packing_ratio;
  unit ← shl 64 1 ratio_log;
  rounded ← RoundUpTo num_counters unit;
  len ← shr 64 rounded ratio_log;
  Ok (mkPCA num_counters bits_log mask ratio_log (packing_ratio - 1) (replicate (Z.to_nat len) 0)).

Definition Get c (i : Z) : result Z :=
  CHECK (i <? n c);;
  index ← shr 64 i (packing_ratio_log c);
  bit_offset ← shl 64 (Z.land i (bit_offset_mask c)) (counter_size_bits_log c);
  w ← aget (buffer c) index;
  v ← shr 64 w bit_offset;
  Ok (Z.land v (counter_mask c)).

Definition Inc c (i : Z) : result PackedCounterArray :=
  v ← Get c i;
  CHECK (v <? counter_mask c);;
  index ← shr 64 i (packing_ratio_log c);
  bit_offset ← shl 64 (Z.land i (bit_offset_mask c)) (counter_size_bits_log c);
  w ← aget (buffer c) index;
  one ← shl 64 1 bit_offset;
  b ← aset (buffer c) index (u64 (w + one));
  Ok (mkPCA (n c) (counter_size_bits_log c) (counter_mask c) (packing_ratio_log c) (bit_offset_mask c) b).

Definition IncRange c (from to : Z) : result PackedCounterArray :=
  CHECK (from <=? to);;
  for_range from (to + 1) (λ i c, Inc c i) c.

(** ** Released ranges *)
(** The counters of [MemoryMapper], and the ranges released. *)
Record MemoryMapper := mkMapper { released_ranges_count_ : Z; released_bytes_ : Z; released_ : list (Z * Z) }.
Implicit Types (mm : MemoryMapper).

Abbreviation new_MemoryMapper := (mkMapper 0 0 []) (only parsing).

Definition GetAndResetStats mm : MemoryMapper * Z * Z * bool :=
  (mkMapper 0 0 (released_ mm), released_ranges_count_ mm, released_bytes_ mm, negb (released_ranges_count_ mm =? 0)).

Definition CompactPtrToPointer (base ptr32 : Z) : Z := u64 (base + u64 (Z.shiftl ptr32 kCompactPtrScale)).

Record FreePagesRangeTracker := mkTracker { in_the_range : bool; current_page : Z; current_range_start_page : Z }.
Implicit Types (tr : FreePagesRangeTracker).

Abbreviation new_tracker := (mkTracker false 0 0) (only parsing).

Section Ops.
(** [GetPageSizeCached()] and [GetRegionBeginBySizeClass(class_id)]. *)
Variables (page_size region_base : Z).

Definition ReleasePageRangeToOS mm (from to : Z) : MemoryMapper :=
  let from_page := CompactPtrToPointer region_base (u32 from) in
  let to_page := CompactPtrToPointer region_base (u32 to) in
  mkMapper (u64 (released_ranges_count_ mm + 1)) (u64 (released_bytes_ mm + u64 (to_page - from_page))) (released_ mm ++ [(from_page, to_page)]).

Definition CloseOpenedRange (page_size_scaled_log : Z) tr mm : result (FreePagesRangeTracker * MemoryMapper) :=
  if in_the_range tr then
    from ← shl 64 (current_range_start_page tr) page_size_scaled_log;
    to ← shl 64 (current_page tr) page_size_scaled_log;
    Ok (mkTracker false (current_page tr) (current_range_start_page tr), ReleasePageRangeToOS mm from to)
  else Ok (tr, mm).

Definition NextPage (page_size_scaled_log : Z) (freed : bool) tr mm : result (FreePagesRangeTracker * MemoryMapper) :=
  '(tr, mm) ← (if freed then
                 Ok (if negb (in_the_range tr) then mkTracker true (current_page tr) (current_page tr) else tr, mm)
               else CloseOpenedRange page_size_scaled_log tr mm);
  Ok (mkTracker (in_the_range tr) (u64 (current_page tr + 1)) (current_range_start_page tr), mm).

(** The largest number of chunks on a page, and whether all pages have the same. *)
Definition chunks_on_pages (chunk_size : Z) : Z * bool :=
  if (chunk_size <=? page_size) && (page_size mod chunk_size =? 0) then (page_size / chunk_size, true)
  else if (chunk_size <=? page_size) && negb (page_size mod chunk_size =? 0) && (chunk_size mod (page_size mod chunk_size) =? 0) then
    (page_size / chunk_size + 1, true)
  else if chunk_size <=? page_size then (page_size / chunk_size + 2, false)
  else if chunk_size mod page_size =? 0 then (1, true)
  else (2, false).

(** Counts, for each page, the free chunks on it. *)
Definition count_free (free_array : list Z) (free_array_count chunk_size page_size_scaled_log : Z) c : result PackedCounterArray :=
  let chunk_size_scaled := Z.shiftr chunk_size kCompactPtrScale in
  if (chunk_size <=? page_size) && (page_size mod chunk_size =? 0) then
    for_range 0 free_array_count (λ i c,
      f ← aget free_array i;
      from ← shr 64 f page_size_scaled_log;
      Inc c from) c
  else
    for_range 0 free_array_count (λ i c,
      f ← aget free_array i;
      from ← shr 64 f page_size_scaled_log;
      to ← shr 64 (u64 (f + chunk_size_scaled - 1)) page_size_scaled_log;
      IncRange c from to) c.

(** The number of chunks on the page that begins at [prev_page_boundary], and the end of
    the last of them. *)
Definition chunks_on_page (chunk_size_scaled page_size_scaled pn pnc prev_page_boundary current_boundary : Z) : Z * Z :=
  let page_boundary := u64 (prev_page_boundary + page_size_scaled) in
  if current_boundary <? page_boundary then
    let chunks_per_page := if prev_page_boundary <? current_boundary then pn + 1 else pn in
    let current_boundary := u64 (current_boundary + pnc) in
    if current_boundary <? page_boundary then (chunks_per_page + 1, u64 (current_boundary + chunk_size_scaled))
    else (chunks_per_page, current_boundary)
  else (pn, current_boundary).

Definition ReleaseFreeMemoryToOS (free_array : list Z) (free_array_count chunk_size allocated_pages_count : Z) mm : result MemoryMapper :=
  let '(full_pages_chunk_count_max, same_chunk_count_per_page) := chunks_on_pages chunk_size in
  counters ← new_PackedCounterArray allocated_pages_count full_pages_chunk_count_max;
  let chunk_size_scaled := Z.shiftr chunk_size kCompactPtrScale in
  let page_size_scaled := Z.shiftr page_size kCompactPtrScale in
  page_size_scaled_log ← Log2 page_size_scaled;
  counters ← count_free free_array free_array_count chunk_size page_size_scaled_log counters;
  '(tr, mm) ←
    (if same_chunk_count_per_page : bool then
       for_range 0 (n counters) (λ i '(tr, mm),
         v ← Get counters i;
         NextPage page_size_scaled_log (v =? full_pages_chunk_count_max) tr mm) (new_tracker, mm)
     else
       pn ← (if chunk_size <? page_size then udiv page_size_scaled chunk_size_scaled else Ok 1);
       let pnc := u64 (pn * chunk_size_scaled) in
       '(tr, mm, _, _) ←
         for_range 0 (n counters) (λ i '(tr, mm, prev_page_boundary, current_boundary),
           let '(chunks_per_page, current_boundary) := chunks_on_page chunk_size_scaled page_size_scaled pn pnc prev_page_boundary current_boundary in
           v ← Get counters i;
           '(tr, mm) ← NextPage page_size_scaled_log (v =? chunks_per_page) tr mm;
           Ok (tr, mm, u64 (prev_page_boundary + page_size_scaled), current_boundary)) (new_tracker, mm, 0, 0);
       Ok (tr, mm));
  '(_, mm) ← CloseOpenedRange page_size_scaled_log tr mm;
  Ok mm.

End Ops.

(** ** The counters are an array *)
(** Field [j] of [b] bits of a word. *)
Definition field (w b j : Z) : Z := w / 2 ^ (b * j) mod 2 ^ b.

Lemma field_shift w b j : 0 ≤ b → 0 ≤ j → Z.land (Z.shiftr w (b * j)) (2 ^ b - 1) = field w b j.
Proof.
  intros Hb Hj. unfold field. rewrite Z.shiftr_div_pow2 by lia. replace (2 ^ b - 1) with (Z.ones b) by (rewrite Z.ones_equiv; lia). by apply Z.land_ones.
Qed.

(** Adding to a field that is not full changes nothing else. *)
Lemma field_inc w b j : 0 ≤ w → 0 < b → 0 ≤ j → field w b j < 2 ^ b - 1 →
  field (w + 2 ^ (b * j)) b j = field w b j + 1 ∧ (∀ k, 0 ≤ k → k ≠ j → field (w + 2 ^ (b * j)) b k = field w b k) ∧
  (w + 2 ^ (b * j)) / 2 ^ (b * (j + 1)) = w / 2 ^ (b * (j + 1)).
Proof.
  intros Hw Hb Hj Hf. unfold field in *. set (P := 2 ^ (b * j)) in *. assert (0 < P) as HP by (apply Z.pow_pos_nonneg; lia). assert (0 < 2 ^ b) as HB by (apply Z.pow_pos_nonneg; lia).
  assert (2 ^ (b * (j + 1)) = P * 2 ^ b) as Ej1 by (unfold P; rewrite <- Z.pow_add_r by lia; f_equal; lia).
  assert ((w + P) / P = w / P + 1) as Ed by (replace (w + P) with (w + 1 * P) by lia; rewrite Z.div_add by lia; lia).
  pose proof (Z.div_mod (w / P) (2 ^ b) ltac:(lia)) as Hdm. pose proof (Z.mod_pos_bound (w / P) (2 ^ b) ltac:(lia)) as Hm.
  assert ((w / P + 1) / 2 ^ b = w / P / 2 ^ b) as Eh.
  { symmetry. apply (Z.div_unique_pos _ _ _ ((w / P) mod 2 ^ b + 1)); lia. }
  assert ((w + P) / 2 ^ (b * (j + 1)) = w / 2 ^ (b * (j + 1))) as Eup by (rewrite Ej1, <- !Z.div_div by lia; by rewrite Ed).
  split; [|split; [|done]].
  - rewrite Ed. symmetry. apply (Z.mod_unique_pos _ _ (w / P / 2 ^ b)); lia.
  - intros k Hk Hne. destruct (decide (k < j)) as [Hlt|Hge].
    + assert (P = 2 ^ (b * k) * (2 ^ b * 2 ^ (b * (j - k - 1)))) as -> by (unfold P; rewrite <- !Z.pow_add_r by nia; f_equal; lia).
      rewrite (Z.mul_comm (2 ^ (b * k))), Z.div_add by (apply Z.pow_nonzero; nia). rewrite (Z.mul_comm (2 ^ b)). apply Z_mod_plus_full.
    + assert (2 ^ (b * k) = 2 ^ (b * (j + 1)) * 2 ^ (b * (k - j - 1))) as -> by (rewrite <- Z.pow_add_r by nia; f_equal; lia).
      rewrite <- !Z.div_div by (try apply Z.pow_nonzero; try apply Z.pow_pos_nonneg; nia). by rewrite Eup.
Qed.

(** Eight divides sixty-four: the counters do not cross words. *)
Record rep c (cs : list Z) : Prop := {
  re_n : n c = Z.of_nat (length cs);
  re_log : 0 ≤ counter_size_bits_log c ≤ 6;
  re_mask : counter_mask c = 2 ^ (2 ^ counter_size_bits_log c) - 1;
  re_ratio : packing_ratio_log c = 6 - counter_size_bits_log c;
  re_bmask : bit_offset_mask c = 2 ^ (6 - counter_size_bits_log c) - 1;
  re_word w : w ∈ buffer c → 0 ≤ w < 2 ^ 64;
  re_get i v : 0 ≤ i → cs !! Z.to_nat i = Some v →
    ∃ w, buffer c !! Z.to_nat (i / 2 ^ (6 - counter_size_bits_log c)) = Some w ∧
      field w (2 ^ counter_size_bits_log c) (i mod 2 ^ (6 - counter_size_bits_log c)) = v
}.

Lemma rep_facts c cs : rep c cs → let b := 2 ^ counter_size_bits_log c in let r := 2 ^ (6 - counter_size_bits_log c) in 0 < b ∧ 0 < r ∧ b * r = 64.
Proof.
  intros R. pose proof (re_log _ _ R). cbn. split; [apply Z.pow_pos_nonneg; lia|]. split; [apply Z.pow_pos_nonneg; lia|]. rewrite <- Z.pow_add_r by lia.
  replace (counter_size_bits_log c + (6 - counter_size_bits_log c)) with 6 by lia. done.
Qed.

(** The index and the bit offset of a counter. *)
Lemma rep_index c cs i : rep c cs → 0 ≤ i < 2 ^ 63 →
  shr 64 i (packing_ratio_log c) = Ok (i / 2 ^ (6 - counter_size_bits_log c)) ∧
  shl 64 (Z.land i (bit_offset_mask c)) (counter_size_bits_log c) = Ok (2 ^ counter_size_bits_log c * (i mod 2 ^ (6 - counter_size_bits_log c))) ∧
  0 ≤ 2 ^ counter_size_bits_log c * (i mod 2 ^ (6 - counter_size_bits_log c)) ∧
  2 ^ counter_size_bits_log c * (i mod 2 ^ (6 - counter_size_bits_log c)) + 2 ^ counter_size_bits_log c ≤ 64.
Proof.
  intros R Hi. pose proof (re_log _ _ R) as Hlog. destruct (rep_facts c cs R) as (Hb & Hr & Hbr). rewrite (re_ratio _ _ R), (re_bmask _ _ R).
  pose proof (Z.mod_pos_bound i (2 ^ (6 - counter_size_bits_log c)) Hr) as Hm.
  split; [rewrite shr_ok by lia; by rewrite Z.shiftr_div_pow2 by lia|]. split; [|nia].
  replace (2 ^ (6 - counter_size_bits_log c) - 1) with (Z.ones (6 - counter_size_bits_log c)) by (rewrite Z.ones_equiv; lia). rewrite Z.land_ones by lia.
  rewrite shl_ok by lia. rewrite Z.shiftl_mul_pow2 by lia. rewrite cast_id; [f_equal; lia|]. nia.
Qed.

Lemma Get_spec c cs i v : rep c cs → 0 ≤ i < 2 ^ 63 → cs !! Z.to_nat i = Some v → Get c i = Ok v.
Proof.
  intros R Hi Hv. destruct (rep_index c cs i R Hi) as (E1 & E2 & H1 & H2). destruct (re_get _ _ R i v ltac:(lia) Hv) as (w & Hw & Hf). destruct (rep_facts c cs R) as (Hb & Hr & _). cbn in Hb, Hr.
  unfold Get. rewrite (re_n _ _ R), (proj2 (Z.ltb_lt i _)) by (apply lookup_lt_Some in Hv; lia). cbn [CHECK mbind result_bind]. rewrite E1, E2. cbn [mbind result_bind].
  rewrite (proj2 (aget_Ok _ _ w)) by (split; [apply Z.div_pos; lia|done]). cbn [mbind result_bind]. rewrite shr_ok by lia. cbn [mbind result_bind]. f_equal.
  rewrite (re_mask _ _ R), field_shift; [done|lia|]. apply Z.mod_pos_bound. by apply rep_facts in R as (_ & ? & _).
Qed.

(** The word after an increment. *)
Lemma inc_word w b r j : 0 ≤ w < 2 ^ 64 → 0 < b → 0 < r → b * r = 64 → 0 ≤ j < r → field w b j < 2 ^ b - 1 → w + 2 ^ (b * j) < 2 ^ 64.
Proof.
  intros Hw Hb Hr Hbr Hj Hf. destruct (field_inc w b j ltac:(lia) Hb ltac:(lia) Hf) as (_ & _ & Eup).
  assert (2 ^ 64 = 2 ^ (b * (j + 1)) * 2 ^ (b * (r - j - 1))) as E by (rewrite <- Z.pow_add_r by nia; f_equal; lia).
  assert (0 < 2 ^ (b * (j + 1))) as HP by (apply Z.pow_pos_nonneg; nia). apply Z.nle_gt. intros Hle.
  assert (2 ^ 64 / 2 ^ (b * (j + 1)) ≤ (w + 2 ^ (b * j)) / 2 ^ (b * (j + 1))) as H1 by (apply Z.div_le_mono; lia). rewrite Eup, E, Z.mul_comm, Z.div_mul in H1 by lia.
  assert (w / 2 ^ (b * (j + 1)) < 2 ^ (b * (r - j - 1))) as H2 by (apply Z.div_lt_upper_bound; lia). lia.
Qed.

Lemma Inc_spec c cs i v : rep c cs → 0 ≤ i < 2 ^ 63 → cs !! Z.to_nat i = Some v → v < counter_mask c →
  returns (Inc c i) (λ c', rep c' (<[Z.to_nat i := v + 1]> cs) ∧ counter_mask c' = counter_mask c).
Proof.
  intros R Hi Hv Hlt. unfold Inc. rewrite (Get_spec _ _ _ _ R Hi Hv). cbn [mbind result_bind]. rewrite (proj2 (Z.ltb_lt v _) Hlt). cbn [CHECK mbind result_bind].
  destruct (rep_index c cs i R Hi) as (-> & -> & H1 & H2). cbn [mbind result_bind]. destruct (re_get _ _ R i v ltac:(lia) Hv) as (w & Hw & Hf). destruct (rep_facts c cs R) as (Hb & Hr & Hbr). cbn in Hb, Hr, Hbr.
  set (b := 2 ^ counter_size_bits_log c) in *. set (r := 2 ^ (6 - counter_size_bits_log c)) in *. pose proof (Z.mod_pos_bound i r Hr) as Hm.
  assert (0 ≤ i / r) as Hd by (apply Z.div_pos; lia). pose proof (lookup_lt_Some _ _ _ Hw) as Hl.
  rewrite (proj2 (aget_Ok _ _ w)) by done. cbn [mbind result_bind]. rewrite shl_1_64 by lia. cbn [mbind result_bind].
  pose proof (re_word _ _ R w (list_elem_of_lookup_2 _ _ _ Hw)) as Hwr. assert (field w b (i mod r) < 2 ^ b - 1) as Hlt' by (rewrite Hf; pose proof (re_mask _ _ R) as Hmask; fold b in Hmask; lia).
  pose proof (inc_word w b r (i mod r) Hwr Hb Hr Hbr Hm Hlt') as Hov. destruct (field_inc w b (i mod r) ltac:(lia) Hb ltac:(lia) Hlt') as (F1 & F2 & _).
  assert (0 ≤ 2 ^ (b * (i mod r))) by (apply Z.pow_nonneg; lia). rewrite cast_id by lia. rewrite aset_Ok by lia. cbn [mbind result_bind returns]. split; [|done].
  destruct R as [Rn Rl Rm Rr Rb Rw Rg]. split; cbn; try done; [by rewrite length_insert| |].
  - intros w' [k Hk]%list_elem_of_lookup_1. apply list_lookup_insert_Some in Hk as [(_ & <- & _)|(_ & Hk)]; [lia|]. by eapply Rw, list_elem_of_lookup_2.
  - intros k v' Hk Hkv. fold r b. fold r b in Rg. destruct (decide (k = i)) as [->|Hne].
    + rewrite list_lookup_insert_eq in Hkv by (by eapply lookup_lt_Some). injection Hkv as <-. eexists. split; [apply list_lookup_insert_eq; lia|]. by rewrite F1, Hf.
    + rewrite list_lookup_insert_ne in Hkv by lia. destruct (Rg k v' Hk Hkv) as (w' & Hw' & Hf'). assert (0 ≤ k / r) by (apply Z.div_pos; lia). destruct (decide (k / r = i / r)) as [E|E].
      * rewrite E in *. assert (w' = w) as -> by congruence. eexists. split; [apply list_lookup_insert_eq; lia|]. rewrite F2; [done|apply Z.mod_pos_bound; lia|].
        intros E'. apply Hne. rewrite (Z.div_mod k r), (Z.div_mod i r) by lia. congruence.
      * exists w'. split; [|done]. rewrite list_lookup_insert_ne by lia. done.
Qed.

Lemma Log2_pow2 k : 0 ≤ k < 64 → Log2 (2 ^ k) = Ok k.
Proof.
  intros Hk. unfold Log2, LeastSignificantSetBitIndex. rewrite IsPowerOfTwo_pow2 by done. pose proof (Z.pow_pos_nonneg 2 k ltac:(lia) ltac:(lia)).
  rewrite (proj2 (Z.eqb_neq (2 ^ k) 0)) by lia. cbn [CHECK negb mbind result_bind]. f_equal. destruct (builtin_ctzl_spec (2 ^ k) ltac:(lia)) as (_ & Hc & _).
  rewrite pow2_testbit in Hc by lia. by apply Z.eqb_eq in Hc.
Qed.

(** The width of a counter: the least power of two that holds the maximum. *)
Lemma counter_width max : 0 < max < 2 ^ 63 → ∃ L, 0 ≤ L ≤ 6 ∧ RoundUpToPowerOfTwo (Z.log2 max + 1) = Ok (2 ^ L) ∧ max ≤ 2 ^ (2 ^ L) - 1.
Proof.
  intros Hmax. assert (0 ≤ Z.log2 max < 63) as Hlog by (split; [apply Z.log2_nonneg|apply Z.log2_lt_pow2; lia]).
  pose proof (RoundUpToPowerOfTwo_spec (Z.log2 max + 1) ltac:(lia)) as Hr. destruct (RoundUpToPowerOfTwo _) as [v|e]; [|lia].
  destruct Hr as (_ & L & HL & -> & Hle & Hleast). exists L. assert (L ≤ 6) as HL6.
  { specialize (Hleast 6 ltac:(lia) ltac:(lia)). apply Z.nlt_ge. intros Hlt. apply (Z.pow_lt_mono_r 2 6 L) in Hlt; lia. }
  split; [lia|]. split; [done|]. pose proof (Z.log2_spec max ltac:(lia)) as [_ Hs]. assert (2 ^ Z.succ (Z.log2 max) ≤ 2 ^ (2 ^ L)); [|lia]. apply Z.pow_le_mono_r; lia.
Qed.

Lemma new_spec num max : 0 < num < 2 ^ 58 → 0 < max < 2 ^ 63 →
  returns (new_PackedCounterArray num max) (λ c, rep c (replicate (Z.to_nat num) 0) ∧ max ≤ counter_mask c ∧ n c = num).
Proof.
  intros Hnum Hmax. destruct (counter_width max Hmax) as (L & HL & Hbits & Hle). unfold new_PackedCounterArray.
  rewrite (proj2 (Z.ltb_lt 0 num)), (proj2 (Z.ltb_lt 0 max)) by lia. cbn [CHECK mbind result_bind]. rewrite MostSignificantSetBitIndex_log2 by lia. cbn [mbind result_bind].
  rewrite Hbits. cbn [mbind result_bind]. assert (0 < 2 ^ L) by (apply Z.pow_pos_nonneg; lia). assert (2 ^ L * 2 ^ (6 - L) = 64) as E64.
  { rewrite <- Z.pow_add_r by lia. replace (L + (6 - L)) with 6 by lia. done. }
  assert (0 < 2 ^ (6 - L)) as Hr by (apply Z.pow_pos_nonneg; lia). rewrite (proj2 (Z.leb_le (2 ^ L) 64)) by nia. cbn [CHECK mbind result_bind].
  rewrite Log2_pow2 by lia. cbn [mbind result_bind]. rewrite (shr_ok 64 _ (64 - 2 ^ L)) by nia. cbn [mbind result_bind]. rewrite (shr_ok 64 64 L) by lia. cbn [mbind result_bind].
  assert (Z.shiftr 64 L = 2 ^ (6 - L)) as -> by (rewrite Z.shiftr_div_pow2, <- E64, Z.mul_comm, Z.div_mul by lia; done).
  rewrite (proj2 (Z.ltb_lt 0 _)) by lia. cbn [CHECK mbind result_bind]. rewrite Log2_pow2 by lia. cbn [mbind result_bind]. rewrite shl_1_64 by lia. cbn [mbind result_bind].
  assert (2 ^ (6 - L) ≤ 64) by nia. rewrite RoundUpTo_pow2 by lia. cbn [mbind result_bind]. rewrite shr_ok by lia. cbn [mbind result_bind returns].
  assert (Z.shiftr (2 ^ 64 - 1) (64 - 2 ^ L) = 2 ^ (2 ^ L) - 1) as Emask.
  { replace (2 ^ 64 - 1) with (Z.ones 64) by done. rewrite Z.shiftr_div_pow2, Z.ones_div_pow2 by nia. rewrite Z.ones_equiv. replace (64 - (64 - 2 ^ L)) with (2 ^ L) by lia. lia. }
  rewrite Emask. split; [|done]. set (len := Z.shiftr (2 ^ (6 - L) * _) _).
  assert (len = (num + 2 ^ (6 - L) - 1) / 2 ^ (6 - L)) as Elen by (unfold len; rewrite Z.shiftr_div_pow2, Z.mul_comm, Z.div_mul by lia; done).
  split; cbn; try done; try lia.
  - rewrite length_replicate. lia.
  - intros w [-> _]%elem_of_replicate. lia.
  - intros i v Hi [-> Hlt]%lookup_replicate. exists 0. split; [|unfold field; by rewrite Z.div_0_l, Z.mod_0_l by (apply Z.pow_nonzero; [lia|apply Z.mul_nonneg_nonneg; [lia|apply Z.mod_pos_bound; lia]] || (apply Z.pow_nonzero; lia))].
    apply lookup_replicate_2. assert (i / 2 ^ (6 - L) < len); [|assert (0 ≤ i / 2 ^ (6 - L)) by (apply Z.div_pos; lia); lia].
    rewrite Elen. apply Z.div_lt_upper_bound; [lia|]. pose proof (Z.mul_succ_div_gt (num + 2 ^ (6 - L) - 1) (2 ^ (6 - L)) Hr). lia.
Qed.

(** ** Chunks and pages *)
(** Chunk [k] of [cs] units touches page [j] of [ps] units. *)
Definition touches (cs ps k j : Z) : Prop := k * cs < (j + 1) * ps ∧ j * ps < (k + 1) * cs.
Definition cdiv (x y : Z) : Z := (x + y - 1) / y.
(** The chunks on page [j] are [first_chunk j], ..., [end_chunk j - 1]. *)
Definition first_chunk (cs ps j : Z) : Z := j * ps / cs.
Definition end_chunk (cs ps j : Z) : Z := cdiv ((j + 1) * ps) cs.

Lemma cdiv_spec x y : 0 < y → x ≤ y * cdiv x y ∧ y * cdiv x y < x + y.
Proof. intros Hy. unfold cdiv. pose proof (Z.div_mod (x + y - 1) y ltac:(lia)). pose proof (Z.mod_pos_bound (x + y - 1) y Hy). lia. Qed.

Lemma floor_spec x y : 0 < y → y * (x / y) ≤ x ∧ x < y * (x / y) + y.
Proof. intros Hy. pose proof (Z.div_mod x y ltac:(lia)). pose proof (Z.mod_pos_bound x y Hy). lia. Qed.

Lemma touches_iff cs ps k j : 0 < cs → touches cs ps k j ↔ first_chunk cs ps j ≤ k < end_chunk cs ps j.
Proof.
  intros Hcs. unfold touches, first_chunk, end_chunk. pose proof (floor_spec (j * ps) cs Hcs). pose proof (cdiv_spec ((j + 1) * ps) cs Hcs). split; intros; nia.
Qed.

#[export] Instance touches_dec cs ps k j : Decision (touches cs ps k j).
Proof. unfold touches. apply _. Defined.

(** Distinct elements of an interval: their number is at most its length, with equality iff they are all of it. *)
Lemma count_interval (ks : list Z) lo hi : NoDup ks → lo ≤ hi → let l := filter (λ k, lo ≤ k < hi) ks in
  Z.of_nat (length l) ≤ hi - lo ∧ (Z.of_nat (length l) = hi - lo ↔ ∀ k, lo ≤ k < hi → k ∈ ks).
Proof.
  intros Hn Hle l. assert (NoDup l) as Hl by (by apply NoDup_filter). assert (l ⊆+ seqZ lo (hi - lo)) as Hsub.
  { apply NoDup_submseteq; [done|]. intros k [Hk _]%list_elem_of_filter. apply elem_of_seqZ. lia. }
  pose proof (submseteq_length _ _ Hsub) as Hlen. rewrite length_seqZ in Hlen. split; [lia|]. split.
  - intros E k Hk. assert (l ≡ₚ seqZ lo (hi - lo)) as Hp by (apply submseteq_length_Permutation; [done|rewrite length_seqZ; lia]).
    assert (k ∈ l) as Hin by (rewrite Hp; apply elem_of_seqZ; lia). by apply list_elem_of_filter in Hin as [_ ?].
  - intros Hall. assert (seqZ lo (hi - lo) ⊆+ l) as Hsub'.
    { apply NoDup_submseteq; [apply NoDup_seqZ|]. intros k Hk%elem_of_seqZ. apply list_elem_of_filter. split; [lia|]. apply Hall. lia. }
    apply submseteq_length in Hsub'. rewrite length_seqZ in Hsub'. lia.
Qed.

(** Free chunks on a page. *)
Definition free_on (cs ps : Z) (ks : list Z) (j : Z) : Z := Z.of_nat (length (filter (λ k, touches cs ps k j) ks)).
Definition chunks_of (cs ps j : Z) : Z := end_chunk cs ps j - first_chunk cs ps j.

Lemma chunks_of_pos cs ps j : 0 < cs → 0 < ps → 0 < chunks_of cs ps j.
Proof.
  intros Hcs Hps. unfold chunks_of, end_chunk, first_chunk. pose proof (floor_spec (j * ps) cs Hcs). pose proof (cdiv_spec ((j + 1) * ps) cs Hcs). nia.
Qed.

Lemma free_on_spec cs ps ks j : 0 < cs → 0 < ps → NoDup ks →
  0 ≤ free_on cs ps ks j ≤ chunks_of cs ps j ∧ (free_on cs ps ks j = chunks_of cs ps j ↔ ∀ k, touches cs ps k j → k ∈ ks).
Proof.
  intros Hcs Hps Hn. pose proof (chunks_of_pos cs ps j Hcs Hps) as Hpos. unfold chunks_of in *.
  destruct (count_interval ks (first_chunk cs ps j) (end_chunk cs ps j) Hn ltac:(lia)) as [H1 H2]. unfold free_on.
  rewrite (list_filter_iff _ (λ k, first_chunk cs ps j ≤ k < end_chunk cs ps j)) by (intros; by apply touches_iff). split; [lia|]. rewrite H2.
  split; intros H k Hk; apply H; [by apply touches_iff|by apply touches_iff].
Qed.

Lemma free_on_cons cs ps k ks j : free_on cs ps (k :: ks) j = free_on cs ps ks j + (if decide (touches cs ps k j) then 1 else 0).
Proof. unfold free_on. rewrite filter_cons. destruct (decide (touches cs ps k j)); cbn [length]; lia. Qed.

Lemma floor_unique x y q r : x = y * q + r → 0 ≤ r < y → x / y = q.
Proof. intros E Hr. symmetry. apply (Z.div_unique_pos x y q r); lia. Qed.
Lemma cdiv_unique x y q r : x = y * q + r → 0 < r ≤ y → cdiv x y = q + 1.
Proof. intros E Hr. unfold cdiv. symmetry. apply (Z.div_unique_pos _ y _ (r - 1)); lia. Qed.

(** The page [j] begins [a] units into the chunk [f] and ends [b] units into the chunk [e]. *)
Lemma chunks_of_unique cs ps j f a e b : j * ps = cs * f + a → 0 ≤ a < cs → (j + 1) * ps = cs * e + b → 0 < b ≤ cs → chunks_of cs ps j = e + 1 - f.
Proof. intros E1 Ha E2 Hb. unfold chunks_of, end_chunk, first_chunk. rewrite (floor_unique _ _ f a), (cdiv_unique _ _ e b) by done. lia. Qed.

Lemma scale_div a b : 0 < b → 16 * a / (16 * b) = a / b.
Proof. intros. apply Z.div_mul_cancel_l; lia. Qed.
Lemma scale_mod a b : 0 < b → (16 * a) mod (16 * b) = 16 * (a mod b).
Proof. intros. apply Z.mul_mod_distr_l; lia. Qed.

Lemma chunks_on_pages_spec ps cs : 0 < ps → 0 < cs → let '(max, same) := chunks_on_pages (16 * ps) (16 * cs) in
  (0 < max ≤ ps / cs + 2) ∧ ∀ j, 0 ≤ j → chunks_of cs ps j ≤ max ∧ (same = true → chunks_of cs ps j = max).
Proof.
  intros Hps Hcs. unfold chunks_on_pages. rewrite !scale_div, !scale_mod by done. assert (0 ≤ ps / cs) as Hq by (apply Z.div_pos; lia).
  pose proof (Z.div_mod ps cs ltac:(lia)) as Hdm. pose proof (Z.mod_pos_bound ps cs Hcs) as Hr. set (q := ps / cs) in *. set (r := ps mod cs) in *.
  destruct (Z.leb_spec (16 * cs) (16 * ps)) as [Hle|Hgt]; cbn [andb].
  - assert (1 ≤ q) by (unfold q; apply Z.div_le_lower_bound; lia). destruct (Z.eqb_spec (16 * r) 0) as [Er|Er]; cbn [negb andb].
    { split; [lia|]. intros j Hj. rewrite (chunks_of_unique cs ps j (j * q) 0 ((j + 1) * q - 1) cs) by nia. lia. }
    assert (0 < r) as Hr0 by lia. rewrite scale_mod by done. pose proof (Z.div_mod cs r ltac:(lia)) as Hdm2. pose proof (Z.mod_pos_bound cs r Hr0). set (m := cs / r) in *.
    destruct (Z.eqb_spec (16 * (cs mod r)) 0) as [Em|Em].
    + assert (0 < m) as Hm by (unfold m; apply Z.div_str_pos; lia). split; [lia|]. intros j Hj. pose proof (Z.div_mod j m ltac:(lia)) as Hj1. pose proof (Z.mod_pos_bound j m Hm) as Hj2.
      set (d := j / m) in *. set (rem := j mod m) in *. assert (cs = r * m) as Ecs by lia. assert (j * r = cs * d + rem * r) as Ejr by (rewrite Ecs, Hj1; lia).
      assert (0 ≤ rem * r ∧ rem * r + r ≤ cs) as Hrr by (rewrite Ecs; nia).
      rewrite (chunks_of_unique cs ps j (j * q + d) (rem * r) ((j + 1) * q + d) (rem * r + r)) by (rewrite ?Hdm; lia). lia.
    + split; [lia|]. intros j Hj. split; [|done]. unfold chunks_of, end_chunk, first_chunk. pose proof (floor_spec (j * ps) cs Hcs). pose proof (cdiv_spec ((j + 1) * ps) cs Hcs). nia.
  - rewrite scale_mod by done. pose proof (Z.div_mod cs ps ltac:(lia)) as Hdm2. pose proof (Z.mod_pos_bound cs ps Hps). set (m := cs / ps) in *.
    destruct (Z.eqb_spec (16 * (cs mod ps)) 0) as [Em|Em].
    + assert (0 < m) as Hm by (unfold m; apply Z.div_str_pos; lia). split; [lia|]. intros j Hj. pose proof (Z.div_mod j m ltac:(lia)) as Hj1. pose proof (Z.mod_pos_bound j m Hm) as Hj2.
      set (d := j / m) in *. set (rem := j mod m) in *. assert (cs = ps * m) as Ecs by lia. assert (j * ps = cs * d + rem * ps) as Ejr by (rewrite Ecs, Hj1; lia).
      assert (0 ≤ rem * ps ∧ rem * ps + ps ≤ cs) as Hrr by (rewrite Ecs; nia).
      rewrite (chunks_of_unique cs ps j d (rem * ps) d (rem * ps + ps)) by lia. lia.
    + split; [lia|]. intros j Hj. split; [|done]. unfold chunks_of, end_chunk, first_chunk. pose proof (floor_spec (j * ps) cs Hcs). pose proof (cdiv_spec ((j + 1) * ps) cs Hcs). nia.
Qed.

(** One page of the slow path: the end of its last chunk is the first boundary after it. *)
Lemma chunks_on_page_spec cs ps j : 0 < cs → 0 < ps → cs ≠ ps → 0 ≤ j → (j + 1) * ps + 2 * ps + 3 * cs < 2 ^ 64 →
  let pn := if 16 * cs <? 16 * ps then ps / cs else 1 in
  chunks_on_page cs ps pn (u64 (pn * cs)) (j * ps) (cs * cdiv (j * ps) cs) = (chunks_of cs ps j, cs * cdiv ((j + 1) * ps) cs).
Proof.
  intros Hcs Hps Hne Hj Hov pn. set (C := cdiv (j * ps) cs). pose proof (cdiv_spec (j * ps) cs Hcs) as HC. fold C in HC.
  assert (0 < pn ∧ pn * cs ≤ Z.max ps cs ∧ (cs < ps → ps < pn * cs + cs) ∧ (ps < cs → pn = 1)) as (Hpn & Hpnc & Hpn1 & Hpn2).
  { unfold pn. destruct (Z.ltb_spec (16 * cs) (16 * ps)); [|lia]. pose proof (floor_spec ps cs Hcs). assert (0 < ps / cs) by (apply Z.div_str_pos; lia). nia. }
  assert (0 ≤ j * ps) by nia. unfold chunks_on_page. replace (j * ps + ps) with ((j + 1) * ps) by lia.
  rewrite (cast_id 64 (pn * cs)), (cast_id 64 ((j + 1) * ps)), (cast_id 64 (cs * C + pn * cs)), (cast_id 64 (cs * C + pn * cs + cs)) by lia.
  unfold chunks_of, end_chunk, first_chunk. fold C. pose proof (floor_spec (j * ps) cs Hcs) as HF. set (F := j * ps / cs) in *.
  assert (F ≤ C ≤ F + 1) as HFC by nia.
  assert ((j * ps < cs * C → C = F + 1) ∧ (cs * C ≤ j * ps → C = F)) as [HF1 HF2] by (split; nia).
  destruct (Z.ltb_spec (cs * C) ((j + 1) * ps)) as [H1|H1].
  - destruct (Z.ltb_spec (cs * C + pn * cs) ((j + 1) * ps)) as [H2|H2].
    + assert (cdiv ((j + 1) * ps) cs = C + pn + 1) as -> by (apply (cdiv_unique _ _ _ ((j + 1) * ps - cs * (C + pn))); nia).
      destruct (Z.ltb_spec (j * ps) (cs * C)); f_equal; lia.
    + assert (cdiv ((j + 1) * ps) cs = C + pn) as ->.
      { replace (C + pn) with ((C + pn - 1) + 1) by lia. apply (cdiv_unique _ _ _ ((j + 1) * ps - cs * (C + pn - 1))); nia. }
      destruct (Z.ltb_spec (j * ps) (cs * C)); f_equal; lia.
  - assert (cdiv ((j + 1) * ps) cs = C) as ->.
    { replace C with ((C - 1) + 1) by lia. apply (cdiv_unique _ _ _ ((j + 1) * ps - cs * (C - 1))); nia. }
    assert (pn = 1) as -> by (apply Hpn2; nia). assert (C = F + 1) by (apply HF1; nia). f_equal; lia.
Qed.

(** ** Counting *)
(** The counters hold the function [f] on [0, N). *)
Definition counts_are c (N : Z) (f : Z → Z) : Prop := ∃ cs, rep c cs ∧ Z.of_nat (length cs) = N ∧ ∀ i, 0 ≤ i < N → cs !! Z.to_nat i = Some (f i).

Lemma counts_ext c N f f' : counts_are c N f → (∀ i, 0 ≤ i < N → f i = f' i) → counts_are c N f'.
Proof. intros (cs & R & Hl & Hf) E. exists cs. split; [done|]. split; [done|]. intros i Hi. rewrite <- E by done. auto. Qed.

Lemma counts_get c N f i : counts_are c N f → 0 ≤ i < N → N < 2 ^ 63 → Get c i = Ok (f i).
Proof. intros (cs & R & Hl & Hf) Hi HN. apply (Get_spec c cs); [done|lia|auto]. Qed.

Lemma counts_inc c N f i : counts_are c N f → 0 ≤ i < N → N < 2 ^ 63 → f i < counter_mask c →
  returns (Inc c i) (λ c', counts_are c' N (λ j, if decide (j = i) then f j + 1 else f j) ∧ counter_mask c' = counter_mask c).
Proof.
  intros (cs & R & Hl & Hf) Hi HN Hlt. eapply returns_mono; [apply (Inc_spec c cs i (f i)); [done|lia|auto|done]|]. intros c' [R' Hm]. split; [|done].
  exists (<[Z.to_nat i := f i + 1]> cs). split; [done|]. split; [by rewrite length_insert|]. intros j Hj. destruct (decide (j = i)) as [->|Hne].
  - apply list_lookup_insert_eq. lia.
  - rewrite list_lookup_insert_ne by lia. auto.
Qed.

Lemma IncRange_spec c N f from to : counts_are c N f → 0 ≤ from ≤ to → to < N → N < 2 ^ 63 → (∀ i, from ≤ i ≤ to → f i < counter_mask c) →
  returns (IncRange c from to) (λ c', counts_are c' N (λ j, f j + (if decide (from ≤ j ≤ to) then 1 else 0)) ∧ counter_mask c' = counter_mask c).
Proof.
  intros Hc Hft Hto HN Hlt. unfold IncRange. rewrite (proj2 (Z.leb_le from to)) by lia. cbn [CHECK mbind result_bind].
  eapply returns_mono; [apply (returns_for_range (λ i c', counts_are c' N (λ j, f j + (if decide (from ≤ j < i) then 1 else 0)) ∧ counter_mask c' = counter_mask c)); [lia| |]|].
  - split; [|done]. eapply counts_ext; [done|]. intros j Hj. destruct (decide (from ≤ j < from)); lia.
  - intros i c' Hi [Hc' Hm]. eapply returns_mono; [apply (counts_inc c' N _ i Hc'); [lia|done|]|].
    + rewrite Hm. destruct (decide (from ≤ i < i)); [lia|]. rewrite Z.add_0_r. apply Hlt. lia.
    + intros c2 [Hc2 Hm2]. split; [|congruence]. eapply counts_ext; [done|]. intros j Hj. cbn. destruct (decide (j = i)) as [->|].
      * rewrite decide_False, decide_True by lia. lia.
      * destruct (decide (from ≤ j < i)), (decide (from ≤ j < i + 1)); lia.
  - cbn. intros c' [Hc' Hm]. split; [|done]. eapply counts_ext; [done|]. intros j Hj. cbn. destruct (decide (from ≤ j < to + 1)), (decide (from ≤ j ≤ to)); lia.
Qed.

(** The pages of a chunk. *)
Lemma chunk_pages cs ps k j : 0 < cs → 0 < ps → touches cs ps k j ↔ k * cs / ps ≤ j ≤ (k * cs + cs - 1) / ps.
Proof.
  intros Hcs Hps. unfold touches. pose proof (floor_spec (k * cs) ps Hps). pose proof (floor_spec (k * cs + cs - 1) ps Hps). split; intros; nia.
Qed.

Lemma free_on_snoc cs ps ds k j : free_on cs ps (ds ++ [k]) j = free_on cs ps (k :: ds) j.
Proof. rewrite free_on_cons. unfold free_on. rewrite filter_app, length_app, filter_cons. destruct (decide (touches cs ps k j)); cbn; lia. Qed.

Lemma scaled z : Z.shiftr (16 * z) kCompactPtrScale = z.
Proof. rewrite Z.shiftr_div_pow2 by lia. change (2 ^ 4) with 16. rewrite Z.mul_comm. by apply Z.div_mul. Qed.

Section Run.
Variables (L cs count : Z) (ks : list Z) (base : Z).
Notation ps := (2 ^ L).
Hypotheses (HL : 0 ≤ L ≤ 28) (Hcs : 0 < cs < 2 ^ 28) (Hcount : 0 < count) (Hcps : count * ps < 2 ^ 32).
Hypotheses (Hks : NoDup ks) (Hrange : ∀ k, k ∈ ks → 0 ≤ k ∧ (k + 1) * cs ≤ count * ps).

Lemma ps_pos : 0 < ps.
Proof using HL. apply Z.pow_pos_nonneg; lia. Qed.

(** One free chunk is counted. *)
Lemma count_one c ds k : counts_are c count (free_on cs ps ds) → NoDup (k :: ds) → k ∈ ks → (∀ j, 0 ≤ j → chunks_of cs ps j ≤ counter_mask c) →
  returns (from ← shr 64 (k * cs) L;
           if (16 * cs <=? 16 * ps) && ((16 * ps) mod (16 * cs) =? 0) then Inc c from
           else to ← shr 64 (u64 (k * cs + cs - 1)) L; IncRange c from to)
    (λ c', counts_are c' count (free_on cs ps (k :: ds)) ∧ counter_mask c' = counter_mask c).
Proof using HL Hcs Hcount Hcps Hrange.
  intros Hc Hn Hk Hmask. pose proof ps_pos as Hps. destruct (Hrange k Hk) as [Hk0 Hk1]. assert (count < 2 ^ 63) as HN by nia.
  rewrite (shr_ok 64 (k * cs) L) by lia. cbn [mbind result_bind]. rewrite Z.shiftr_div_pow2 by lia. pose proof (floor_spec (k * cs) ps Hps) as H1. pose proof (floor_spec (k * cs + cs - 1) ps Hps) as H2.
  assert (0 ≤ k * cs) as Hkcs by nia. assert (0 ≤ k * cs / ps) as Hf0 by (apply Z.div_pos; lia).
  assert (k * cs / ps ≤ (k * cs + cs - 1) / ps) as Hft by (apply Z.div_le_mono; lia). assert ((k * cs + cs - 1) / ps < count) as Hto by (apply Z.div_lt_upper_bound; lia).
  assert (∀ i, k * cs / ps ≤ i ≤ (k * cs + cs - 1) / ps → free_on cs ps ds i < counter_mask c) as Hlt.
  { intros i Hi. pose proof (free_on_spec cs ps (k :: ds) i ltac:(lia) Hps Hn) as [Hle _]. rewrite free_on_cons in Hle.
    rewrite decide_True in Hle by (apply chunk_pages; lia). specialize (Hmask i ltac:(lia)). lia. }
  assert (∀ j, free_on cs ps ds j + (if decide (k * cs / ps ≤ j ≤ (k * cs + cs - 1) / ps) then 1 else 0) = free_on cs ps (k :: ds) j) as Hnew.
  { intros j. rewrite free_on_cons. f_equal. by apply decide_ext; rewrite chunk_pages by lia. }
  destruct (Z.leb_spec (16 * cs) (16 * ps)) as [Hle|Hgt], (Z.eqb_spec ((16 * ps) mod (16 * cs)) 0) as [E|E]; cbn [andb].
  1: { assert ((k * cs + cs - 1) / ps = k * cs / ps) as Esame.
       { rewrite scale_mod in E by lia. pose proof (Z.div_mod ps cs ltac:(lia)) as Hdm. set (q := ps / cs) in *. assert (0 < q) by (unfold q; apply Z.div_str_pos; lia).
         pose proof (Z.div_mod k q ltac:(lia)) as Hkq. pose proof (Z.mod_pos_bound k q ltac:(lia)). symmetry. apply (Z.div_unique_pos _ _ _ ((k mod q) * cs + cs - 1)); [nia|].
         rewrite (floor_unique (k * cs) ps (k / q) ((k mod q) * cs)); nia. }
       eapply returns_mono; [apply counts_inc; [done|lia|done|apply Hlt; lia]|]. intros c' [Hc' Hm]. split; [|done]. eapply counts_ext; [done|]. intros j Hj. cbn. rewrite <- Hnew, Esame.
       destruct (decide (j = k * cs / ps)), (decide (k * cs / ps ≤ j ≤ k * cs / ps)); lia. }
  all: rewrite cast_id by lia; rewrite shr_ok by lia; cbn [mbind result_bind]; rewrite Z.shiftr_div_pow2 by lia;
    (eapply returns_mono; [apply IncRange_spec; [done|lia|lia|done|done]|]); intros c' [Hc' Hm]; (split; [|done]); (eapply counts_ext; [done|]); intros j Hj; apply Hnew.
Qed.

Lemma count_free_spec c free_array : counts_are c count (λ _, 0) → (∀ j, 0 ≤ j → chunks_of cs ps j ≤ counter_mask c) →
  (∀ i k, ks !! i = Some k → free_array !! i = Some (k * cs)) →
  returns (count_free (16 * ps) free_array (Z.of_nat (length ks)) (16 * cs) L c) (λ c', counts_are c' count (free_on cs ps ks)).
Proof using All.
  intros Hc Hmask Hfree.
  assert (count_free (16 * ps) free_array (Z.of_nat (length ks)) (16 * cs) L c =
    for_range 0 (Z.of_nat (length ks)) (λ i c, f ← aget free_array i; from ← shr 64 f L;
      if (16 * cs <=? 16 * ps) && ((16 * ps) mod (16 * cs) =? 0) then Inc c from
      else to ← shr 64 (u64 (f + cs - 1)) L; IncRange c from to) c) as -> by (unfold count_free; rewrite scaled; by destruct (_ && _)).
  eapply returns_mono; [apply (returns_for_range (λ i c', counts_are c' count (free_on cs ps (take (Z.to_nat i) ks)) ∧ counter_mask c' = counter_mask c)); [lia| |]|].
  - split; [|done]. eapply counts_ext; [done|]. intros j Hj. done.
  - intros i c' Hi [Hc' Hm]. destruct (lookup_lt_is_Some_2 ks (Z.to_nat i)) as [k Hk]; [lia|]. rewrite (proj2 (aget_Ok _ _ (k * cs))) by (split; [lia|auto]). cbn [mbind result_bind].
    replace (Z.to_nat (i + 1)) with (S (Z.to_nat i)) by lia. rewrite (take_S_r _ _ k) by done.
    assert (NoDup (k :: take (Z.to_nat i) ks)) as Hn.
    { pose proof Hks as Hks'. rewrite <- (take_drop_middle _ _ _ Hk) in Hks'. apply NoDup_app in Hks' as (H1 & H2 & _). apply NoDup_cons. split; [|done]. intros Hin. apply (H2 k Hin). apply list_elem_of_here. }
    eapply returns_mono; [apply (count_one c' (take (Z.to_nat i) ks) k Hc' Hn); [by eapply list_elem_of_lookup_2|by rewrite Hm]|].
    intros c2 [Hc2 Hm2]. split; [|congruence]. eapply counts_ext; [done|]. intros j Hj. symmetry. apply free_on_snoc.
  - cbn. intros c' [Hc' _]. rewrite Nat2Z.id, firstn_all in Hc'. done.
Qed.

(** ** Ranges of pages *)
(** The address range of the pages [a, b). *)
Definition page_range (ab : Z * Z) : Z * Z := (base + 16 * ps * ab.1, base + 16 * ps * ab.2).
Definition in_ranges (ranges : list (Z * Z)) (j : Z) : Prop := ∃ ab, ab ∈ ranges ∧ ab.1 ≤ j < ab.2.

(** After the pages before [i], of which [freed] are free. *)
Record tracks (freed : Z → bool) (mm0 : MemoryMapper) (i : Z) (ranges : list (Z * Z)) tr mm : Prop := {
  tk_page : current_page tr = i;
  tk_log : released_ mm = released_ mm0 ++ (page_range <$> ranges);
  tk_bounds ab : ab ∈ ranges → 0 ≤ ab.1 < ab.2 ∧ ab.2 ≤ i;
  tk_open : in_the_range tr = true → 0 ≤ current_range_start_page tr < i;
  tk_freed j : 0 ≤ j < i → freed j = true ↔ in_ranges ranges j ∨ (in_the_range tr = true ∧ current_range_start_page tr ≤ j)
}.

Hypothesis Hbase : 0 ≤ base ∧ base + 2 ^ 36 < 2 ^ 64.

Lemma release_addr a : 0 ≤ a ≤ count → shl 64 a L = Ok (a * ps) ∧ CompactPtrToPointer base (u32 (a * ps)) = base + 16 * ps * a.
Proof using All.
  intros Ha. pose proof ps_pos. assert (0 ≤ a * ps < 2 ^ 32) as Hr by nia. split.
  - rewrite shl_ok by lia. rewrite Z.shiftl_mul_pow2, cast_id by lia. done.
  - rewrite (cast_id 32) by lia. unfold CompactPtrToPointer. rewrite Z.shiftl_mul_pow2 by lia. change (2 ^ 4) with 16. rewrite (cast_id 64 (a * ps * 16)) by lia. rewrite cast_id; lia.
Qed.

Lemma CloseOpenedRange_spec freed mm0 i ranges tr mm : tracks freed mm0 i ranges tr mm → 0 ≤ i ≤ count →
  returns (CloseOpenedRange base L tr mm) (λ '(tr', mm'), in_the_range tr' = false ∧ ∃ ranges', tracks freed mm0 i ranges' tr' mm').
Proof using All.
  intros T Hi. unfold CloseOpenedRange. destruct (in_the_range tr) eqn:Eo; [|cbn; eauto].
  pose proof (tk_open _ _ _ _ _ _ T Eo) as Hs. destruct (release_addr (current_range_start_page tr) ltac:(lia)) as [-> Ha]. destruct (release_addr (current_page tr)) as [-> Hb]; [rewrite (tk_page _ _ _ _ _ _ T); lia|].
  cbn [mbind result_bind returns]. split; [done|]. exists (ranges ++ [(current_range_start_page tr, i)]). split; cbn.
  - apply T.
  - rewrite (tk_log _ _ _ _ _ _ T), fmap_app, <- app_assoc. cbn. unfold page_range at 2. cbn. rewrite Ha, Hb, (tk_page _ _ _ _ _ _ T). done.
  - intros ab [Hab| ->%list_elem_of_singleton]%elem_of_app; [by apply T|cbn; lia].
  - done.
  - intros j Hj. rewrite (tk_freed _ _ _ _ _ _ T j Hj). unfold in_ranges. split.
    + intros [(ab & Hab & Hr)|[_ Hle]]; left; [exists ab; set_solver|]. exists (current_range_start_page tr, i). split; [set_solver|cbn; lia].
    + intros [(ab & [Hab| ->%list_elem_of_singleton]%elem_of_app & Hr)|[? _]]; [left; by exists ab|right; cbn in Hr; split; [done|lia]|done].
Qed.

Lemma NextPage_spec freed mm0 i ranges tr mm : tracks freed mm0 i ranges tr mm → 0 ≤ i < count →
  returns (NextPage base L (freed i) tr mm) (λ '(tr', mm'), ∃ ranges', tracks freed mm0 (i + 1) ranges' tr' mm').
Proof using All.
  intros T Hi. unfold NextPage. pose proof ps_pos. assert (u64 (i + 1) = i + 1) as Ei by (apply cast_id; nia).
  assert (∀ j, 0 ≤ j < i + 1 → j < i ∨ j = i) as Hj by lia.
  destruct (freed i) eqn:Ef.
  - cbn [mbind result_bind returns]. exists ranges. destruct (in_the_range tr) eqn:Eo; cbn [negb].
    + pose proof (tk_open _ _ _ _ _ _ T Eo) as Hs. split; cbn; rewrite ?(tk_page _ _ _ _ _ _ T); try done; [apply T|intros ab Hab; apply T in Hab; lia|lia|].
      intros j Hjr. destruct (Hj j Hjr) as [Hlt| ->]; [by apply T; lia|]. rewrite Eo. split; [intros _; right; split; [done|lia]|done].
    + split; cbn; rewrite ?(tk_page _ _ _ _ _ _ T); try done; [apply T|intros ab Hab; apply T in Hab; lia|lia|].
      intros j Hjr. destruct (Hj j Hjr) as [Hlt| ->]; [|split; [intros _; right; split; [done|lia]|done]].
      rewrite (tk_freed _ _ _ _ _ _ T j) by lia. split; [intros [|[? _]]; [by left|congruence]|]. intros [|[_ ?]]; [by left|lia].
  - rbind (by apply (CloseOpenedRange_spec freed mm0 i ranges); [|lia]). intros [tr' mm'] [Eo (ranges' & T')]. cbn [mbind result_bind returns]. exists ranges'.
    split; cbn; rewrite ?(tk_page _ _ _ _ _ _ T'), ?Eo; try done; [apply T'|intros ab Hab; apply T' in Hab; lia|].
    intros j Hjr. destruct (Hj j Hjr) as [Hlt| ->].
    + rewrite (tk_freed _ _ _ _ _ _ T' j) by lia. rewrite Eo. done.
    + rewrite Ef. split; [done|]. intros [(ab & Hab & Hr)|[? _]]; [apply T' in Hab; lia|done].
Qed.

(** The pages all of whose chunks are free. *)
Definition all_free (j : Z) : bool := free_on cs ps ks j =? chunks_of cs ps j.

Lemma tracks_start mm : tracks all_free mm 0 [] new_tracker mm.
Proof using Type. split; [done|by rewrite app_nil_r|by intros ab ?%not_elem_of_nil|done|lia]. Qed.

Lemma same_pass c mm max : counts_are c count (free_on cs ps ks) → (∀ j, 0 ≤ j → chunks_of cs ps j = max) →
  returns (for_range 0 count (λ i '(tr, mm), v ← Get c i; NextPage base L (v =? max) tr mm) (new_tracker, mm))
    (λ '(tr', mm'), ∃ ranges, tracks all_free mm count ranges tr' mm').
Proof using All.
  intros Hc Hmax. pose proof ps_pos as Hps. assert (count < 2 ^ 63) as HN by nia.
  eapply returns_mono; [apply (returns_for_range (λ i '(tr', mm'), ∃ ranges, tracks all_free mm i ranges tr' mm')); [lia| |]|].
  - exists []. apply tracks_start.
  - intros i [tr' mm'] Hi (ranges & T). rewrite (counts_get _ _ _ i Hc) by lia. cbn [mbind result_bind].
    replace (_ =? max) with (all_free i) by (unfold all_free; by rewrite Hmax by lia). by apply (NextPage_spec all_free mm i ranges); [|lia].
  - done.
Qed.

Lemma boundary_pass c mm : counts_are c count (free_on cs ps ks) → cs ≠ ps →
  let pn := if 16 * cs <? 16 * ps then ps / cs else 1 in
  returns (for_range 0 count (λ i '(tr, mm, prev_page_boundary, current_boundary),
             let '(chunks_per_page, current_boundary) := chunks_on_page cs ps pn (u64 (pn * cs)) prev_page_boundary current_boundary in
             v ← Get c i;
             '(tr, mm) ← NextPage base L (v =? chunks_per_page) tr mm;
             Ok (tr, mm, u64 (prev_page_boundary + ps), current_boundary)) (new_tracker, mm, 0, 0))
    (λ '(tr', mm', _, _), ∃ ranges, tracks all_free mm count ranges tr' mm').
Proof using All.
  intros Hc Hne pn. pose proof ps_pos as Hps. assert (count < 2 ^ 63) as HN by nia. assert (ps ≤ 2 ^ 28) as HpL by (apply Z.pow_le_mono_r; lia).
  eapply returns_mono; [apply (returns_for_range (λ i '(tr', mm', p, b), p = i * ps ∧ b = cs * cdiv (i * ps) cs ∧ ∃ ranges, tracks all_free mm i ranges tr' mm')); [lia| |]|].
  - split; [lia|]. split; [|exists []; apply tracks_start]. unfold cdiv. rewrite Z.mul_0_l. rewrite (Z.div_small (0 + cs - 1)) by lia. lia.
  - intros i [[[tr' mm'] p] b] Hi (-> & -> & ranges & T). assert ((i + 1) * ps ≤ count * ps) by nia. unfold pn at 1 2. rewrite (chunks_on_page_spec cs ps i) by lia.
    rewrite (counts_get _ _ _ i Hc) by lia. cbn [mbind result_bind]. fold (all_free i). rbind (by apply (NextPage_spec all_free mm i ranges); [|lia]).
    intros [tr2 mm2] T2. cbn [returns]. split; [rewrite cast_id; nia|]. done.
  - intros [[[tr' mm'] p] b]. cbn. tauto.
Qed.

Lemma chunks_on_pages_same : chunks_on_pages (16 * ps) (16 * ps) = (1, true).
Proof using HL.
  pose proof ps_pos. unfold chunks_on_pages. rewrite Z.leb_refl, Z_mod_same_full, Z_div_same_full by lia. done.
Qed.

Lemma release_spec free_array mm : (∀ i k, ks !! i = Some k → free_array !! i = Some (k * cs)) →
  returns (ReleaseFreeMemoryToOS (16 * ps) base free_array (Z.of_nat (length ks)) (16 * cs) count mm) (λ mm', ∃ ranges,
    released_ mm' = released_ mm ++ (page_range <$> ranges) ∧ (∀ ab, ab ∈ ranges → 0 ≤ ab.1 < ab.2 ∧ ab.2 ≤ count) ∧
    ∀ j, 0 ≤ j < count → in_ranges ranges j ↔ ∀ k, touches cs ps k j → k ∈ ks).
Proof using All.
  intros Hfree. pose proof ps_pos as Hps. assert (count < 2 ^ 32) as HN by nia. assert (ps ≤ 2 ^ 28) as HpL by (apply Z.pow_le_mono_r; lia).
  unfold ReleaseFreeMemoryToOS. pose proof (chunks_on_pages_spec ps cs Hps ltac:(lia)) as Hcp. destruct (chunks_on_pages (16 * ps) (16 * cs)) as [max same] eqn:Ecp. destruct Hcp as [Hmax Hof].
  assert (ps / cs ≤ ps) as Hd by (apply Z.div_le_upper_bound; nia).
  rbind (by apply new_spec; lia). intros c (R & Hm & En). rewrite !scaled, Log2_pow2 by lia. cbn [mbind result_bind].
  assert (counts_are c count (λ _, 0)) as Hc0.
  { exists (replicate (Z.to_nat count) 0). split; [done|]. rewrite length_replicate. split; [lia|]. intros i Hi. apply lookup_replicate. lia. }
  rbind (apply (count_free_spec c free_array Hc0); [|done]; intros j Hj; destruct (Hof j Hj); lia). intros c' Hc'. assert (n c' = count) as -> by (destruct Hc' as (l & R' & Hl & _); rewrite (re_n _ _ R'); lia).
  eapply (returns_bind _ _ (λ '(tr', mm'), ∃ ranges, tracks all_free mm count ranges tr' mm')).
  - destruct same.
    + apply same_pass; [done|]. intros j Hj. by apply Hof.
    + assert (cs ≠ ps) as Hne by (intros E; rewrite E, chunks_on_pages_same in Ecp; congruence).
      replace (if 16 * cs <? 16 * ps then udiv ps cs else Ok 1) with (Ok (if 16 * cs <? 16 * ps then ps / cs else 1)) by (rewrite udiv_ok by lia; by case_match). cbn [mbind result_bind].
      rbind (by apply boundary_pass). intros [[[tr' mm'] p] b] T. done.
  - intros [tr' mm'] (ranges & T). rbind (by apply (CloseOpenedRange_spec all_free mm count ranges); [|lia]). intros [tr2 mm2] [Eo (ranges' & T')]. cbn [returns]. exists ranges'. split; [apply T'|]. split; [apply T'|].
    intros j Hj. rewrite <- (proj2 (free_on_spec cs ps ks j ltac:(lia) Hps Hks)). pose proof (tk_freed _ _ _ _ _ _ T' j Hj) as Hf. unfold all_free in Hf. rewrite Eo, Z.eqb_eq in Hf. rewrite Hf. split; [by left|]. intros [|[? _]]; done.
Qed.
End Run.

(** [C18] The page-release pass of the 64-bit primary allocator is exact.  With [ks] the
    distinct indices of the free chunks of a region, as the free array lists them
    (compacted), a page size that is a power of two and a chunk size that need not divide
    it, [ReleaseFreeMemoryToOS] returns without a fault: the packed counters neither
    overflow into each other nor leave their buffer.  What it releases is a list of
    non-empty page ranges inside the allocated pages, and a page is released exactly when
    every chunk that touches it, those crossing its borders included, is free. *)
Theorem ReleaseFreeMemoryToOS_correct (L cs count base : Z) (ks free_array : list Z) mm :
  0 ≤ L ≤ 28 → 0 < cs < 2 ^ 28 → 0 < count → count * 2 ^ L < 2 ^ 32 → 0 ≤ base ∧ base + 2 ^ 36 < 2 ^ 64 →
  NoDup ks → (∀ k, k ∈ ks → 0 ≤ k ∧ (k + 1) * cs ≤ count * 2 ^ L) → (∀ i k, ks !! i = Some k → free_array !! i = Some (k * cs)) →
  returns (ReleaseFreeMemoryToOS (16 * 2 ^ L) base free_array (Z.of_nat (length ks)) (16 * cs) count mm) (λ mm', ∃ ranges,
    released_ mm' = released_ mm ++ (page_range L base <$> ranges) ∧ (∀ ab, ab ∈ ranges → 0 ≤ ab.1 < ab.2 ∧ ab.2 ≤ count) ∧
    ∀ j, 0 ≤ j < count → in_ranges ranges j ↔ ∀ k, touches cs (2 ^ L) k j → k ∈ ks).
Proof. intros HL Hcs Hcount Hcps Hbase Hks Hrange Hfree. by apply release_spec. Qed.

Lemma ReleaseFreeMemoryToOS_correct_witness :
  returns (ReleaseFreeMemoryToOS (16 * 2 ^ 8) 65536 ((λ k, k * 24) <$> seqZ 0 11) 11 (16 * 24) 2 new_MemoryMapper) (λ mm', ∃ ranges,
    released_ mm' = (page_range 8 65536 <$> ranges) ∧ (∀ ab, ab ∈ ranges → 0 ≤ ab.1 < ab.2 ∧ ab.2 ≤ 2) ∧
    ∀ j, 0 ≤ j < 2 → in_ranges ranges j ↔ ∀ k, touches 24 (2 ^ 8) k j → k ∈ seqZ 0 11).
Proof.
  refine (ReleaseFreeMemoryToOS_correct 8 24 2 65536 (seqZ 0 11) ((λ k, k * 24) <$> seqZ 0 11) new_MemoryMapper _ _ _ _ _ _ _ _); try lia.
  - apply NoDup_seqZ.
  - intros k Hk%elem_of_seqZ. lia.
  - intros i k Hk. rewrite list_lookup_fmap, Hk. done.
Defined.

(** Eleven chunks of 384 bytes: the first page is released, the second, which the last of
    them only touches, is not. *)
Example release_first_page :
  ReleaseFreeMemoryToOS 4096 65536 ((λ k, k * 24) <$> seqZ 0 11) 11 384 2 new_MemoryMapper = Ok (mkMapper 1 4096 [(65536, 69632)]).
Proof. vm_compute. reflexivity. Qed.

End Release.
