(* ===== verification/Allocator64.v ===== *)
(** * Allocator64: the primary allocator for 64-bit targets

    Models [SizeClassAllocator64] of [sanitizer_allocator_primary64.h], its per-thread cache
    [SizeClassAllocator64LocalCache] of [sanitizer_allocator_local_cache.h] and
    [RandomShuffle] of [sanitizer_allocator.h].

    The allocator is the list of its [RegionInfo]s; a region carries the mapped cells of
    its free array, so that an access to memory that is not mapped is a fault.  The mutex of
    a region makes [GetFromAllocator] and [ReturnToAllocator] atomic, and a cache belongs to
    one thread: an execution is a sequence of operations of the caches.
    [ReservedAddressRange::Map] and the readings of the clock are the fields of an
    environment, which each operation gets afresh.  The callback of the mappings is not
    modelled. *)
From stdpp Require Import functions.
From S2P Require Import Prelude Common SizeClassMap PageRelease.
Import SizeClass.

Module Primary.

(** ** Random shuffle *)
Abbreviation Rand state := (let state := u32 (state * 1103515245 + 12345) in (state, Z.shiftr state 16)) (only parsing).

Definition RandN (state n : Z) : Z * Z := let '(state, r) := Rand state in (state, r mod n).

(** On the [n] elements from [off]. *)
Definition RandomShuffle (a : list Z) (off n rand_state : Z) : result (list Z * Z) :=
  if n <=? 1 then Ok (a, rand_state)
  else for_down (Z.to_nat (n - 1)) (λ i '(a, state),
    let '(state, j) := RandN state (u32 (i + 1 + 1)) in
    a ← aswap a (off + (i + 1)) (off + j);
    Ok (a, state)) (a, rand_state).

(** ** The template parameters and the constants of the class *)
Record Params := mkParams {
  kSpaceBeg : Z;
  kSpaceSize : Z;
  kMetadataSize : Z;
  kRandomShuffleChunks : bool;
  SCM : SizeClassMap
}.

Section Constants.
Variable P : Params.

Definition kRegionSize : Z := kSpaceSize P / kNumClassesRounded (SCM P).
Definition kFreeArraySize : Z := kRegionSize / 8.
Definition kUsingConstantSpaceBeg : bool := negb (kSpaceBeg P =? 2 ^ 64 - 1).
Definition CanAllocate (size alignment : Z) : bool := (size <=? kMaxSize (SCM P)) && (alignment <=? kMaxSize (SCM P)).

End Constants.

(** [kUserMapSize], [kMetaMapSize] and [kFreeArrayMapSize]. *)
Abbreviation kMapSize := (Z.shiftl 1 16) (only parsing).

(** ** State *)
Record Stats := mkStats { n_allocated : Z; n_freed : Z }.
Record ReleaseToOsInfo := mkRtoi { n_freed_at_last_release : Z; num_releases : Z; last_release_at_ns : Z; last_released_bytes : Z }.

(** [free_array]: the mapped cells at [GetFreeArray(region_beg)]. *)
Record RegionInfo := mkRegion {
  num_freed_chunks : Z;
  mapped_free_array : Z;
  allocated_user : Z;
  allocated_meta : Z;
  mapped_user : Z;
  mapped_meta : Z;
  rand_state : Z;
  exhausted : bool;
  stats : Stats;
  rtoi : ReleaseToOsInfo;
  free_array : list Z
}.
Implicit Types (r : RegionInfo).

Definition set_num_freed_chunks v r := mkRegion v (mapped_free_array r) (allocated_user r) (allocated_meta r) (mapped_user r) (mapped_meta r) (rand_state r) (exhausted r) (stats r) (rtoi r) (free_array r).
Definition set_mapped_free_array v cells r := mkRegion (num_freed_chunks r) v (allocated_user r) (allocated_meta r) (mapped_user r) (mapped_meta r) (rand_state r) (exhausted r) (stats r) (rtoi r) cells.
Definition set_allocated v w r := mkRegion (num_freed_chunks r) (mapped_free_array r) v w (mapped_user r) (mapped_meta r) (rand_state r) (exhausted r) (stats r) (rtoi r) (free_array r).
Definition set_mapped_user v r := mkRegion (num_freed_chunks r) (mapped_free_array r) (allocated_user r) (allocated_meta r) v (mapped_meta r) (rand_state r) (exhausted r) (stats r) (rtoi r) (free_array r).
Definition set_mapped_meta v r := mkRegion (num_freed_chunks r) (mapped_free_array r) (allocated_user r) (allocated_meta r) (mapped_user r) v (rand_state r) (exhausted r) (stats r) (rtoi r) (free_array r).
Definition set_rand_state v r := mkRegion (num_freed_chunks r) (mapped_free_array r) (allocated_user r) (allocated_meta r) (mapped_user r) (mapped_meta r) v (exhausted r) (stats r) (rtoi r) (free_array r).
Definition set_exhausted v r := mkRegion (num_freed_chunks r) (mapped_free_array r) (allocated_user r) (allocated_meta r) (mapped_user r) (mapped_meta r) (rand_state r) v (stats r) (rtoi r) (free_array r).
Definition set_stats v r := mkRegion (num_freed_chunks r) (mapped_free_array r) (allocated_user r) (allocated_meta r) (mapped_user r) (mapped_meta r) (rand_state r) (exhausted r) v (rtoi r) (free_array r).
Definition set_rtoi v r := mkRegion (num_freed_chunks r) (mapped_free_array r) (allocated_user r) (allocated_meta r) (mapped_user r) (mapped_meta r) (rand_state r) (exhausted r) (stats r) v (free_array r).
Definition set_free_array v r := mkRegion (num_freed_chunks r) (mapped_free_array r) (allocated_user r) (allocated_meta r) (mapped_user r) (mapped_meta r) (rand_state r) (exhausted r) (stats r) (rtoi r) v.

Ltac region_cbn := cbn [num_freed_chunks mapped_free_array allocated_user allocated_meta mapped_user mapped_meta rand_state exhausted stats rtoi free_array
  set_num_freed_chunks set_mapped_free_array set_allocated set_mapped_user set_mapped_meta set_rand_state set_exhausted set_stats set_rtoi set_free_array CHECK mbind result_bind returns returns_or].

Record SizeClassAllocator64 := mkAllocator {
  NonConstSpaceBeg : Z;
  PremappedHeap : bool;
  release_to_os_interval_ms_ : Z;
  RegionInfos : list RegionInfo
}.
Implicit Types (a : SizeClassAllocator64).

Definition set_region class_id r a := mkAllocator (NonConstSpaceBeg a) (PremappedHeap a) (release_to_os_interval_ms_ a) (<[Z.to_nat class_id := r]> (RegionInfos a)).

(** The statistics of a cache: bytes allocated and bytes mapped. *)
Record AllocatorStats := mkAStats { StatAllocated : Z; StatMapped : Z }.

(** [Map beg size]: what [address_range.Map] returns; [now] and [later]: the readings of
    [MonotonicNanoTime()] in an operation. *)
Record Env := mkEnv { Map : Z → Z → Z; now : Z; later : Z }.
Implicit Types (e : Env).

Section Ops.
Variables (P : Params) (page_size : Z).

(** ** Address computations *)
Definition SpaceBeg a : Z := if kUsingConstantSpaceBeg P then kSpaceBeg P else NonConstSpaceBeg a.
Definition SpaceEnd a : Z := u64 (SpaceBeg a + kSpaceSize P).

Definition PointerToCompactPtr (base ptr : Z) : Z := u32 (Z.shiftr (u64 (ptr - base)) Release.kCompactPtrScale).

Definition PointerIsMine a (p : Z) : bool :=
  if kUsingConstantSpaceBeg P && (kSpaceBeg P mod kSpaceSize P =? 0) then p / kSpaceSize P =? kSpaceBeg P / kSpaceSize P
  else (SpaceBeg a <=? p) && (p <? SpaceEnd a).

Definition GetRegionBegin a (p : Z) : Z :=
  if kUsingConstantSpaceBeg P then RoundDownTo p (kRegionSize P)
  else u64 (RoundDownTo (u64 (p - SpaceBeg a)) (kRegionSize P) + SpaceBeg a).

Definition GetRegionBeginBySizeClass a (class_id : Z) : Z := u64 (SpaceBeg a + u64 (kRegionSize P * class_id)).

Definition GetSizeClass a (p : Z) : Z :=
  if kUsingConstantSpaceBeg P && (kSpaceBeg P mod kSpaceSize P =? 0) then (p / kRegionSize P) mod kNumClassesRounded (SCM P)
  else (u64 (p - SpaceBeg a) / kRegionSize P) mod kNumClassesRounded (SCM P).

Definition ClassIdToSize (class_id : Z) : result Z := Size (SCM P) class_id.

Definition GetMetadataEnd (region_beg : Z) : Z := u64 (region_beg + kRegionSize P - kFreeArraySize P).

Definition GetChunkIdx a (chunk size : Z) : result Z :=
  let chunk := if negb (kUsingConstantSpaceBeg P) then u64 (chunk - SpaceBeg a) else chunk in
  let offset := chunk mod kRegionSize P in
  hi ← shr 64 offset (SANITIZER_WORDSIZE / 2);
  if negb (hi =? 0) then udiv offset size else udiv (u32 offset) (u32 size).

Definition GetRegionInfo a (class_id : Z) : result RegionInfo :=
  CHECK (class_id <? kNumClasses (SCM P));;
  aget (RegionInfos a) class_id.

(** [None] is [nullptr]. *)
Definition GetBlockBegin a (p : Z) : result (option Z) :=
  let class_id := GetSizeClass a p in
  if kNumClasses (SCM P) <=? class_id then Ok None
  else
    size ← ClassIdToSize class_id;
    if size =? 0 then Ok None
    else
      chunk_idx ← GetChunkIdx a p size;
      let reg_beg := GetRegionBegin a p in
      let beg := u64 (chunk_idx * size) in
      let next_beg := u64 (beg + size) in
      region ← GetRegionInfo a class_id;
      if next_beg <=? mapped_user region then Ok (Some (u64 (reg_beg + beg))) else Ok None.

Definition GetMetaData a (p : Z) : result (option Z) :=
  CHECK (negb (kMetadataSize P =? 0));;
  let class_id := GetSizeClass a p in
  size ← ClassIdToSize class_id;
  if size =? 0 then Ok None
  else
    chunk_idx ← GetChunkIdx a p size;
    let region_beg := GetRegionBeginBySizeClass a class_id in
    Ok (Some (u64 (GetMetadataEnd region_beg - u64 ((1 + chunk_idx) * kMetadataSize P)))).

Definition GetActuallyAllocatedSize a (p : Z) : result Z :=
  CHECK (PointerIsMine a p);;
  ClassIdToSize (GetSizeClass a p).

Definition TotalMemoryUsed a : result Z :=
  for_range 0 (kNumClasses (SCM P)) (λ i res, region ← GetRegionInfo a i; Ok (u64 (res + allocated_user region))) 0.

(** ** Mapping memory *)
Definition MapWithCallback a e (beg size : Z) : result bool :=
  if PremappedHeap a then Ok ((NonConstSpaceBeg a <=? beg) && (u64 (beg + size) <=? u64 (NonConstSpaceBeg a + kSpaceSize P)))
  else
    let mapped := Map e beg size in
    if mapped =? 0 then Ok false
    else CHECK (beg =? mapped);; Ok true.

(** New cells of the free array are zero. *)
Definition EnsureFreeArraySpace a e r (region_beg num_freed_chunks : Z) : result (RegionInfo * bool) :=
  let needed_space := u64 (num_freed_chunks * 4) in
  if mapped_free_array r <? needed_space then
    new_mapped_free_array ← RoundUpTo needed_space kMapSize;
    CHECK (new_mapped_free_array <=? kFreeArraySize P);;
    let current_map_end := u64 (GetMetadataEnd region_beg + mapped_free_array r) in
    let new_map_size := u64 (new_mapped_free_array - mapped_free_array r) in
    ok ← MapWithCallback a e current_map_end new_map_size;
    if negb ok then Ok (r, false)
    else Ok (set_mapped_free_array new_mapped_free_array (free_array r ++ replicate (Z.to_nat (new_map_size / 4)) 0) r, true)
  else Ok (r, true).

Definition IsRegionExhausted r (additional_map_size : Z) : RegionInfo * bool :=
  if u64 (mapped_user r + mapped_meta r + additional_map_size) <=? u64 (kRegionSize P - kFreeArraySize P) then (r, false)
  else (if negb (exhausted r) then set_exhausted true r else r, true).

(** The first part of [PopulateFreeArray]: more space for chunks. *)
Definition map_user a e (stat : AllocatorStats) r (region_beg total_user_bytes : Z) : result (RegionInfo * AllocatorStats * bool) :=
  if mapped_user r <? total_user_bytes then
    let r :=
      if mapped_user r =? 0 then
        let r := if negb (kUsingConstantSpaceBeg P) && kRandomShuffleChunks P then set_rand_state (u32 (Z.shiftr region_beg 12)) r else r in
        if 0 <=? release_to_os_interval_ms_ a then
          set_rtoi (mkRtoi (n_freed_at_last_release (rtoi r)) (num_releases (rtoi r)) (now e) (last_released_bytes (rtoi r))) r
        else r
      else r in
    user_map_size ← RoundUpTo (u64 (total_user_bytes - mapped_user r)) kMapSize;
    let '(r, full) := IsRegionExhausted r user_map_size in
    if full : bool then Ok (r, stat, false)
    else
      ok ← MapWithCallback a e (u64 (region_beg + mapped_user r)) user_map_size;
      if negb ok then Ok (r, stat, false)
      else Ok (set_mapped_user (u64 (mapped_user r + user_map_size)) r, mkAStats (StatAllocated stat) (u64 (StatMapped stat + user_map_size)), true)
  else Ok (r, stat, true).

(** The second part: space for their metadata. *)
Definition map_meta a e r (region_beg new_chunks_count : Z) : result (RegionInfo * bool) :=
  if negb (kMetadataSize P =? 0) then
    let total_meta_bytes := u64 (allocated_meta r + u64 (new_chunks_count * kMetadataSize P)) in
    meta_map_size ← (if mapped_meta r <? total_meta_bytes then RoundUpTo (u64 (total_meta_bytes - mapped_meta r)) kMapSize else Ok 0);
    if negb (meta_map_size =? 0) then
      let '(r, full) := IsRegionExhausted r meta_map_size in
      if full : bool then Ok (r, false)
      else
        ok ← MapWithCallback a e (u64 (GetMetadataEnd region_beg - mapped_meta r - meta_map_size)) meta_map_size;
        if negb ok then Ok (r, false) else Ok (set_mapped_meta (u64 (mapped_meta r + meta_map_size)) r, true)
    else Ok (r, true)
  else Ok (r, true).

(** The last part: the new chunks enter the free array. *)
Definition add_chunks r (size new_chunks_count total_freed_chunks : Z) : result RegionInfo :=
  '(cells, _) ← for_range 0 new_chunks_count (λ i '(cells, chunk),
    cells ← aset cells (u64 (total_freed_chunks - 1 - i)) (PointerToCompactPtr 0 chunk);
    Ok (cells, u64 (chunk + size))) (free_array r, allocated_user r);
  '(cells, rs) ← (if kRandomShuffleChunks P then RandomShuffle cells (num_freed_chunks r) (u32 new_chunks_count) (rand_state r)
                  else Ok (cells, rand_state r));
  let r := set_rand_state rs (set_free_array cells r) in
  let r := set_num_freed_chunks (u64 (num_freed_chunks r + new_chunks_count)) r in
  let r := set_allocated (u64 (allocated_user r + u64 (new_chunks_count * size))) (allocated_meta r) r in
  CHECK (allocated_user r <=? mapped_user r);;
  let r := set_allocated (allocated_user r) (u64 (allocated_meta r + u64 (new_chunks_count * kMetadataSize P))) r in
  CHECK (allocated_meta r <=? mapped_meta r);;
  Ok (set_exhausted false r).

Definition PopulateFreeArray a e (stat : AllocatorStats) (class_id : Z) r (requested_count : Z) : result (RegionInfo * AllocatorStats * bool) :=
  let region_beg := GetRegionBeginBySizeClass a class_id in
  size ← ClassIdToSize class_id;
  let total_user_bytes := u64 (allocated_user r + u64 (requested_count * size)) in
  '(r, stat, ok) ← map_user a e stat r region_beg total_user_bytes;
  if negb ok then Ok (r, stat, false)
  else
    new_chunks_count ← udiv (u64 (mapped_user r - allocated_user r)) size;
    '(r, ok) ← map_meta a e r region_beg new_chunks_count;
    if negb ok then Ok (r, stat, false)
    else
      let total_freed_chunks := u64 (num_freed_chunks r + new_chunks_count) in
      '(r, ok) ← EnsureFreeArraySpace a e r region_beg total_freed_chunks;
      if negb ok then Ok (r, stat, false)
      else
        r ← add_chunks r size new_chunks_count total_freed_chunks;
        Ok (r, stat, true).

(** ** Initialisation *)
(** The [RegionInfo]s are fresh zeroed memory. *)
Definition zero_region : RegionInfo := mkRegion 0 0 0 0 0 0 0 false (mkStats 0 0) (mkRtoi 0 0 0 0) [].

(** [reserved]: what [address_range.Init] or [InitAligned] returns; [mapped]: where
    [MapOrDie] puts the [RegionInfo]s. *)
Definition Init (release_to_os_interval_ms heap_start reserved mapped : Z) : result SizeClassAllocator64 :=
  let regions := replicate (Z.to_nat (kNumClasses (SCM P))) zero_region in
  if negb (heap_start =? 0) then
    CHECK (negb (kUsingConstantSpaceBeg P));;
    CHECK (negb (reserved =? 2 ^ 64 - 1));;
    CHECK (reserved =? mapped);;
    Ok (mkAllocator heap_start true release_to_os_interval_ms regions)
  else
    a ← (if kUsingConstantSpaceBeg P then
           CHECK (IsAligned (kSpaceBeg P) (kMaxSize (SCM P)));;
           CHECK (kSpaceBeg P =? reserved);;
           Ok (mkAllocator 0 false release_to_os_interval_ms regions)
         else
           CHECK (negb (reserved =? 2 ^ 64 - 1));;
           Ok (mkAllocator reserved false release_to_os_interval_ms regions));
    CHECK (SpaceEnd a =? mapped);;
    Ok a.

(** ** Releasing memory *)
Definition MaybeReleaseToOS a e (mm : Release.MemoryMapper) (class_id : Z) (force : bool) : result (SizeClassAllocator64 * Release.MemoryMapper) :=
  region ← GetRegionInfo a class_id;
  chunk_size ← ClassIdToSize class_id;
  let n := num_freed_chunks region in
  if u64 (n * chunk_size) <? page_size then Ok (a, mm)
  else if u64 (u64 (n_freed (stats region) - n_freed_at_last_release (rtoi region)) * chunk_size) <? page_size then Ok (a, mm)
  else
    let interval_ms := release_to_os_interval_ms_ a in
    if negb force && ((interval_ms <? 0) || (now e <? u64 (last_release_at_ns (rtoi region) + u64 (interval_ms * 1000000)))) then Ok (a, mm)
    else
      rounded ← RoundUpTo (allocated_user region) page_size;
      mm ← Release.ReleaseFreeMemoryToOS page_size (GetRegionBeginBySizeClass a class_id) (free_array region) n chunk_size (rounded / page_size) mm;
      let '(mm, ranges, bytes, any) := Release.GetAndResetStats mm in
      let i := rtoi region in
      let i := if any : bool then mkRtoi (n_freed (stats region)) (u64 (num_releases i + ranges)) (last_release_at_ns i) bytes else i in
      let i := mkRtoi (n_freed_at_last_release i) (num_releases i) (later e) (last_released_bytes i) in
      Ok (set_region class_id (set_rtoi i region) a, mm).

Definition ForceReleaseToOS a e : result (SizeClassAllocator64 * Release.MemoryMapper) :=
  for_range 1 (kNumClasses (SCM P)) (λ class_id '(a, mm), MaybeReleaseToOS a e mm class_id true) (a, Release.new_MemoryMapper).

(** ** Chunks from and to the free array *)
(** [chunks + off] holds the chunks; [Die()] when the free array cannot grow. *)
Definition ReturnToAllocator a e (mm : Release.MemoryMapper) (class_id : Z) (chunks : list Z) (off n_chunks : Z) : result (SizeClassAllocator64 * Release.MemoryMapper) :=
  region ← GetRegionInfo a class_id;
  let region_beg := GetRegionBeginBySizeClass a class_id in
  let old_num_chunks := num_freed_chunks region in
  let new_num_freed_chunks := u64 (old_num_chunks + n_chunks) in
  '(region, ok) ← EnsureFreeArraySpace a e region region_beg new_num_freed_chunks;
  CHECK ok;;
  cells ← for_range 0 n_chunks (λ i cells, v ← aget chunks (off + i); aset cells (old_num_chunks + i) v) (free_array region);
  let region := set_num_freed_chunks new_num_freed_chunks (set_free_array cells region) in
  let region := set_stats (mkStats (n_allocated (stats region)) (u64 (n_freed (stats region) + n_chunks))) region in
  MaybeReleaseToOS (set_region class_id region a) e mm class_id false.

(** The chunks are written to the array [chunks]. *)
Definition GetFromAllocator a e (stat : AllocatorStats) (class_id : Z) (chunks : list Z) (n_chunks : Z) : result (SizeClassAllocator64 * AllocatorStats * list Z * bool) :=
  region ← GetRegionInfo a class_id;
  '(region, stat, ok) ←
    (if num_freed_chunks region <? n_chunks then
       '(region, stat, ok) ← PopulateFreeArray a e stat class_id region (u64 (n_chunks - num_freed_chunks region));
       CHECK (negb ok || (n_chunks <=? num_freed_chunks region));;
       Ok (region, stat, ok)
     else Ok (region, stat, true));
  if negb ok then Ok (set_region class_id region a, stat, chunks, false)
  else
    let region := set_num_freed_chunks (u64 (num_freed_chunks region - n_chunks)) region in
    let base_idx := num_freed_chunks region in
    chunks ← for_range 0 n_chunks (λ i chunks, v ← aget (free_array region) (base_idx + i); aset chunks i v) chunks;
    let region := set_stats (mkStats (u64 (n_allocated (stats region) + n_chunks)) (n_freed (stats region))) region in
    Ok (set_region class_id region a, stat, chunks, true).

End Ops.

(** ** Lists of cells *)
(** A loop that copies [n] elements. *)
Lemma copy_cells {A} (src dst : list A) (so d n : Z) (body : Z → list A → result (list A)) :
  0 ≤ so → 0 ≤ d → 0 ≤ n → so + n ≤ Z.of_nat (length src) → d + n ≤ Z.of_nat (length dst) →
  (∀ i dst, body i dst = (v ← aget src (so + i); aset dst (d + i) v)) →
  for_range 0 n body dst = Ok (take (Z.to_nat d) dst ++ take (Z.to_nat n) (drop (Z.to_nat so) src) ++ drop (Z.to_nat (d + n)) dst).
Proof.
  intros Hso Hd Hn Hsrc Hdst Hbody. apply returns_eq.
  eapply returns_mono; [apply (returns_for_range (λ i dst', dst' = take (Z.to_nat d) dst ++ take (Z.to_nat i) (drop (Z.to_nat so) src) ++ drop (Z.to_nat (d + i)) dst)); [lia| |]|].
  - rewrite Z.add_0_r. symmetry. apply take_drop.
  - intros i dst' Hi ->. rewrite Hbody. destruct (lookup_lt_is_Some_2 src (Z.to_nat (so + i))) as [v Hv]; [lia|].
    rewrite (proj2 (aget_Ok _ _ v)) by (split; [lia|done]). cbn [mbind result_bind].
    destruct (lookup_lt_is_Some_2 dst (Z.to_nat (d + i))) as [w Hw]; [lia|].
    assert (drop (Z.to_nat (d + i)) dst = w :: drop (Z.to_nat (d + (i + 1))) dst) as -> by (rewrite (drop_S _ w) by done; do 2 f_equal; lia).
    assert (take (Z.to_nat (i + 1)) (drop (Z.to_nat so) src) = take (Z.to_nat i) (drop (Z.to_nat so) src) ++ [v]) as ->.
    { replace (Z.to_nat (i + 1)) with (S (Z.to_nat i)) by lia. apply take_S_r. rewrite lookup_drop. rewrite <- Hv. f_equal. lia. }
    rewrite aset_Ok by (rewrite !length_app, length_cons, !length_take, !length_drop; lia). cbn [returns].
    rewrite insert_app_r_alt by (rewrite length_take; lia). f_equal. rewrite insert_app_r_alt by (rewrite !length_take, length_drop; lia).
    replace (_ - _ - _)%nat with 0%nat by (rewrite !length_take, length_drop; lia). cbn. by rewrite <- app_assoc.
  - done.
Qed.

(** Swapping two elements of a segment. *)
Lemma aswap_segment (A B C : list Z) i j : 0 ≤ i < Z.of_nat (length B) → 0 ≤ j < Z.of_nat (length B) →
  returns (aswap (A ++ B ++ C) (Z.of_nat (length A) + i) (Z.of_nat (length A) + j)) (λ l, ∃ B', l = A ++ B' ++ C ∧ B' ≡ₚ B).
Proof.
  intros Hi Hj. destruct (lookup_lt_is_Some_2 B (Z.to_nat i)) as [x Hx]; [lia|]. destruct (lookup_lt_is_Some_2 B (Z.to_nat j)) as [y Hy]; [lia|].
  assert (∀ k z (B' : list Z), 0 ≤ k → B' !! Z.to_nat k = Some z → (A ++ B' ++ C) !! Z.to_nat (Z.of_nat (length A) + k) = Some z) as Hl.
  { intros k z B' Hk HB. rewrite lookup_app_r by lia. rewrite lookup_app_l; [|apply lookup_lt_Some in HB; lia]. rewrite <- HB. f_equal. lia. }
  assert (∀ k z (B' : list Z), 0 ≤ k < Z.of_nat (length B') → <[Z.to_nat (Z.of_nat (length A) + k) := z]> (A ++ B' ++ C) = A ++ <[Z.to_nat k := z]> B' ++ C) as Hins.
  { intros k z B' Hk. rewrite insert_app_r_alt by lia. f_equal. rewrite insert_app_l by lia. f_equal. f_equal. lia. }
  unfold aswap. rewrite (proj2 (aget_Ok _ (Z.of_nat (length A) + i) x)) by (split; [lia|apply (Hl i x B); [lia|done]]). rewrite (proj2 (aget_Ok _ (Z.of_nat (length A) + j) y)) by (split; [lia|apply (Hl j y B); [lia|done]]). cbn [mbind result_bind].
  rewrite aset_Ok by (rewrite !length_app; lia). cbn [mbind result_bind]. rewrite Hins by lia. rewrite aset_Ok by (rewrite !length_app, length_insert; lia). rewrite Hins by (rewrite length_insert; lia).
  cbn [returns]. eexists. split; [done|]. by apply Permutation_insert_swap.
Qed.

Lemma RandN_range state n : 0 < n → 0 ≤ (RandN state n).2 < n.
Proof. intros Hn. unfold RandN. cbn. by apply Z.mod_pos_bound. Qed.

(** The shuffle permutes its segment and nothing else. *)
Lemma RandomShuffle_spec (A B C : list Z) state : Z.of_nat (length B) < 2 ^ 32 →
  returns (RandomShuffle (A ++ B ++ C) (Z.of_nat (length A)) (Z.of_nat (length B)) state) (λ '(l, _), ∃ B', l = A ++ B' ++ C ∧ B' ≡ₚ B).
Proof.
  intros HB. unfold RandomShuffle. destruct (Z.leb_spec (Z.of_nat (length B)) 1); [by exists B|].
  apply (returns_for_down (λ _ '(l, _), ∃ B', l = A ++ B' ++ C ∧ B' ≡ₚ B)); [by exists B|]. intros i [l st] Hi (B' & -> & HBp).
  rewrite cast_id by lia. pose proof (RandN_range st (Z.of_nat i + 1 + 1) ltac:(lia)) as Hr. destruct (RandN st (Z.of_nat i + 1 + 1)) as [st' j]. cbn [snd] in Hr.
  pose proof (Permutation_length HBp) as Hlen. rbind (apply (aswap_segment A B' C (Z.of_nat i + 1) j); lia). intros l' (B2 & -> & HB2). cbn [returns]. exists B2. split; [done|]. by rewrite HB2.
Qed.

(** ** Valid parameters

    What the class checks at compile time (the size of a region), that all size classes
    are multiples of the unit of a compact pointer, that a cache holds less than [2^25] chunks
    of a class (so that the chunks of a class other than the first fit its free array), and that a
    constant beginning of the space is aligned to a region. *)
Class ValidParams (P : Params) : Prop := {
  vp_size c : 1 ≤ c < kNumClasses (SCM P) → ∃ cs h, Size (SCM P) c = Ok (16 * cs) ∧ 0 < cs < 2 ^ 28 ∧
    MaxCachedHint (SCM P) (16 * cs) = Ok h ∧ 1 ≤ h ≤ kMaxNumCachedHint (SCM P);
  vp_hint : kMaxNumCachedHint (SCM P) < 2 ^ 25;
  vp_classes : 1 < kNumClasses (SCM P) ≤ kNumClassesRounded (SCM P) ∧ kNumClassesRounded (SCM P) ≤ 256;
  vp_region : ∃ g, 32 ≤ g ≤ 36 ∧ kRegionSize P = 2 ^ g;
  vp_space : kSpaceSize P = kRegionSize P * kNumClassesRounded (SCM P);
  vp_meta : 0 ≤ kMetadataSize P < 2 ^ 16;
  vp_const : kUsingConstantSpaceBeg P = true → kSpaceBeg P mod kRegionSize P = 0
}.

(** Mapping at a fixed address gives that address or fails. *)
Definition env_ok e : Prop := ∀ beg size, Map e beg size = beg ∨ Map e beg size = 0.
(** Some mapping fails. *)
Definition map_fails a e : Prop := PremappedHeap a = false ∧ ∃ beg size, Map e beg size = 0.

Section Facts.
Context (P : Params) {V : ValidParams P}.
Notation R := (kRegionSize P).
Notation F := (kFreeArraySize P).

Lemma region_facts : 2 ^ 32 ≤ R ≤ 2 ^ 36 ∧ R = 8 * F ∧ 2 ^ 29 ≤ F.
Proof using V.
  destruct vp_region as (g & Hg & E). assert (R = 8 * 2 ^ (g - 3)) as E8 by (rewrite E; replace g with (3 + (g - 3)) at 1 by lia; rewrite Z.pow_add_r by lia; done).
  assert (F = 2 ^ (g - 3)) as EF by (unfold kFreeArraySize; rewrite E8, Z.mul_comm; by apply Z.div_mul).
  assert (2 ^ 29 ≤ 2 ^ (g - 3) ≤ 2 ^ 33) by (split; apply Z.pow_le_mono_r; lia). rewrite EF, E8. lia.
Qed.

Lemma free_array_pages : ∃ f, F = 2 ^ 16 * f.
Proof using V.
  destruct vp_region as (g & Hg & E). exists (2 ^ (g - 19)). unfold kFreeArraySize. rewrite E, <- Z.pow_add_r by lia. change 8 with (2 ^ 3). rewrite <- Z.pow_sub_r by lia. f_equal. lia.
Qed.

(** The space lies in the addresses of a process, away from zero and from the end. *)
Record heap_ok a : Prop := {
  ho_beg : 0 < SpaceBeg P a;
  ho_end : SpaceBeg P a + kSpaceSize P + 2 ^ 36 < 2 ^ 64;
  ho_premapped : PremappedHeap a = true → kUsingConstantSpaceBeg P = false;
  ho_regions : Z.of_nat (length (RegionInfos a)) = kNumClasses (SCM P)
}.

Lemma region_beg a class_id : heap_ok a → 0 ≤ class_id < kNumClasses (SCM P) →
  GetRegionBeginBySizeClass P a class_id = SpaceBeg P a + R * class_id ∧ SpaceBeg P a + R * class_id + R ≤ SpaceBeg P a + kSpaceSize P.
Proof using V.
  intros [Hb He _ _] Hc. pose proof region_facts. pose proof vp_space. pose proof vp_classes. unfold GetRegionBeginBySizeClass. assert (R * class_id + R ≤ kSpaceSize P) by nia.
  rewrite (cast_id 64 (R * class_id)) by nia. rewrite cast_id by nia. lia.
Qed.

Lemma MapWithCallback_spec a e beg size : heap_ok a → env_ok e → 0 ≤ size → SpaceBeg P a ≤ beg → beg + size ≤ SpaceBeg P a + kSpaceSize P →
  ∃ ok, MapWithCallback P a e beg size = Ok ok ∧ (ok = false → map_fails a e).
Proof using Type.
  intros [Hb He Hp _] Henv Hs H1 H2. unfold MapWithCallback. destruct (PremappedHeap a) eqn:Ep.
  - assert (SpaceBeg P a = NonConstSpaceBeg a) as E by (unfold SpaceBeg; by rewrite Hp). rewrite E in *. rewrite (cast_id 64 (beg + size)), (cast_id 64 (_ + kSpaceSize P)) by lia.
    rewrite (proj2 (Z.leb_le _ _) H1), (proj2 (Z.leb_le _ _) H2). by exists true.
  - destruct (Z.eqb_spec (Map e beg size) 0) as [E|E]; [exists false; split; [done|]; intros _; split; [done|by eexists _, _]|].
    destruct (Henv beg size) as [E'|]; [|done]. rewrite E', Z.eqb_refl. by exists true.
Qed.

Lemma round_map x : 0 ≤ x < 2 ^ 63 → ∃ y, RoundUpTo x kMapSize = Ok y ∧ x ≤ y < x + 2 ^ 16 ∧ (y / 4) * 4 = y ∧ ∃ q, y = 2 ^ 16 * q.
Proof using Type.
  intros Hx. change kMapSize with (2 ^ 16). rewrite RoundUpTo_pow2 by lia. eexists. split; [done|]. pose proof (Z.div_mod (x + 2 ^ 16 - 1) (2 ^ 16) ltac:(lia)). pose proof (Z.mod_pos_bound (x + 2 ^ 16 - 1) (2 ^ 16) ltac:(lia)).
  split; [lia|]. set (q := (_ / 2 ^ 16)). split; [|by exists q]. replace (2 ^ 16 * q) with (2 ^ 14 * q * 4) by lia. by rewrite Z.div_mul.
Qed.

(** ** The invariant of a region

    [N] chunks of [16 * cs] bytes have been made; their memory, their metadata and the free
    array are mapped and do not meet.  Little more memory is mapped than the chunks need: what a
    request that failed half-way asked for. *)
Definition array_ok r : Prop := mapped_free_array r = 4 * Z.of_nat (length (free_array r)) ∧ mapped_free_array r ≤ F.

Record region_ok (cs N : Z) r : Prop := {
  ro_N : 0 ≤ N;
  ro_user : allocated_user r = 16 * cs * N ∧ allocated_user r ≤ mapped_user r;
  ro_meta : allocated_meta r = N * kMetadataSize P ∧ allocated_meta r ≤ mapped_meta r;
  ro_slack : mapped_user r ≤ 16 * cs * (N + 2 ^ 25) + 2 ^ 16;
  ro_space : mapped_user r + mapped_meta r ≤ R - F;
  ro_array : array_ok r;
  ro_num : 0 ≤ num_freed_chunks r ≤ N ∧ num_freed_chunks r ≤ Z.of_nat (length (free_array r))
}.

Lemma ro_bounds cs N r : region_ok cs N r → 0 < cs → 16 * cs * N ≤ R - F ∧ 0 ≤ mapped_user r ∧ 0 ≤ mapped_meta r ∧ 0 ≤ mapped_free_array r ∧ N < 2 ^ 32.
Proof using V. intros [HN Hu Hm _ Hs [Ha1 Ha2] Hn] Hcs. pose proof region_facts. pose proof vp_meta. assert (0 ≤ N * kMetadataSize P) by nia. split_and!; nia. Qed.

(** The check fails only if the chunks need more than the free array can have, and the array does
    not grow only if it has to and a mapping fails. *)
Lemma EnsureFreeArraySpace_spec a e r cs N base num : heap_ok a → env_ok e → array_ok r → 0 < cs → 0 ≤ num ≤ N → 16 * cs * N ≤ R - F →
  SpaceBeg P a ≤ base → base + R ≤ SpaceBeg P a + kSpaceSize P →
  returns_or (F < 4 * num) (EnsureFreeArraySpace P a e r base num) (λ '(r', ok), ∃ m pad,
    r' = set_mapped_free_array m (free_array r ++ pad) r ∧ array_ok r' ∧
    (if ok : bool then num ≤ Z.of_nat (length (free_array r')) else r' = r ∧ mapped_free_array r < 4 * num ∧ map_fails a e)).
Proof using V.
  intros Hh Henv [Ha1 Ha2] Hcs Hnum HN Hb1 Hb2. pose proof region_facts as (HR & EF & HF). pose proof (ho_end _ Hh). pose proof (ho_beg _ Hh).
  unfold EnsureFreeArraySpace. assert (N < 2 ^ 32) by nia. rewrite (cast_id 64 (num * 4)) by lia. destruct (Z.ltb_spec (mapped_free_array r) (num * 4)) as [Hlt|Hge].
  2: { exists (mapped_free_array r), []. rewrite app_nil_r. split; [by destruct r|]. split; [done|]. lia. }
  destruct (round_map (num * 4)) as (y & -> & Hy & Hy4 & q & Eq); [lia|]. cbn [mbind result_bind]. eapply returns_or_bind; [apply (returns_or_CHECK _ _ (λ _, y ≤ F)); [|apply Z.leb_le]|].
  { intros Hf%Z.leb_gt. destruct free_array_pages as [f Ef]. lia. }
  cbn beta. intros _ HyF. unfold GetMetadataEnd. rewrite (cast_id 64 (base + R - F)) by lia. rewrite (cast_id 64 (base + R - F + _)) by lia. rewrite (cast_id 64 (y - _)) by lia.
  destruct (MapWithCallback_spec a e (base + R - F + mapped_free_array r) (y - mapped_free_array r)) as (ok & -> & Hok); [done|done|lia|lia|lia|]. cbn [mbind result_bind].
  destruct ok; cbn [negb returns_or].
  - eexists y, _. split; [done|]. assert (Z.of_nat (length (free_array r ++ replicate (Z.to_nat ((y - mapped_free_array r) / 4)) 0)) * 4 = y) as Elen.
    { rewrite length_app, length_replicate. rewrite Ha1. replace (y - 4 * _) with (y / 4 * 4 - Z.of_nat (length (free_array r)) * 4) by lia. rewrite <- Z.mul_sub_distr_r, Z.div_mul by lia. lia. }
    split; [split; cbn; lia|]. cbn; lia.
  - exists (mapped_free_array r), []. rewrite app_nil_r. split; [by destruct r|]. split; [done|]. split; [done|]. split; [lia|auto].
Qed.

(** The fields the invariant is about. *)
Definition core r := (num_freed_chunks r, mapped_free_array r, allocated_user r, allocated_meta r, mapped_user r, mapped_meta r, free_array r).
Definition same_chunks r r' : Prop := free_array r' = free_array r ∧ num_freed_chunks r' = num_freed_chunks r.

Lemma region_ok_core cs N r r' : core r' = core r → region_ok cs N r → region_ok cs N r'.
Proof using Type.
  unfold core. intros [= E1 E2 E3 E4 E5 E6 E7] [HN Hu Hm Hsl Hs Ha Hn]. unfold array_ok in *. by split; unfold array_ok; rewrite ?E1, ?E2, ?E3, ?E4, ?E5, ?E6, ?E7.
Qed.

Lemma IsRegionExhausted_spec cs N r x : region_ok cs N r → 0 < cs → 0 ≤ x < 2 ^ 63 →
  let '(r', full) := IsRegionExhausted P r x in core r' = core r ∧
    (if full : bool then exhausted r' = true else r' = r ∧ mapped_user r + mapped_meta r + x ≤ R - F).
Proof using V.
  intros Hr Hcs Hx. pose proof (ro_bounds _ _ _ Hr Hcs). pose proof (ro_space _ _ _ Hr). pose proof region_facts. unfold IsRegionExhausted. rewrite (cast_id 64 (_ + _ + x)), (cast_id 64 (R - F)) by lia.
  destruct (Z.leb_spec (mapped_user r + mapped_meta r + x) (R - F)); [done|]. destruct (exhausted r) eqn:E; done.
Qed.

Lemma map_user_spec a e stat r cs N base req : heap_ok a → env_ok e → region_ok cs N r → 0 < cs < 2 ^ 28 → 0 ≤ req < 2 ^ 25 →
  SpaceBeg P a ≤ base → base + R ≤ SpaceBeg P a + kSpaceSize P →
  returns (map_user P a e stat r base (16 * cs * (N + req))) (λ '(r', stat', ok), region_ok cs N r' ∧ same_chunks r r' ∧
    (if ok : bool then 16 * cs * (N + req) ≤ mapped_user r' else exhausted r' = true ∨ map_fails a e)).
Proof using V.
  intros Hh Henv Hr Hcs Hreq Hb1 Hb2. pose proof region_facts. pose proof (ho_end _ Hh). pose proof (ho_beg _ Hh). pose proof (ro_bounds _ _ _ Hr ltac:(lia)). pose proof (ro_N _ _ _ Hr). unfold map_user.
  destruct (Z.ltb_spec (mapped_user r) (16 * cs * (N + req))) as [Hlt|Hge]; [|done].
  set (r1 := if mapped_user r =? 0 then _ else r). cbv zeta. assert (core r1 = core r) as E1 by (unfold r1; repeat case_match; done).
  pose proof (region_ok_core _ _ _ _ E1 Hr) as Hr1. assert (mapped_user r1 = mapped_user r ∧ same_chunks r r1) as [Em Hsame] by (unfold core in E1; by injection E1). clearbody r1.
  assert (16 * cs * (N + req) < 2 ^ 62) by nia. rewrite cast_id by lia. destruct (round_map (16 * cs * (N + req) - mapped_user r1)) as (y & -> & Hy & _); [lia|]. cbn [mbind result_bind].
  pose proof (IsRegionExhausted_spec cs N r1 y Hr1 ltac:(lia) ltac:(lia)) as Hex. destruct (IsRegionExhausted P r1 y) as [r2 full]. destruct Hex as [E2 Hex]. destruct full.
  { cbn [returns]. split; [by eapply region_ok_core|]. split; [|by left]. unfold core in E2. injection E2 as ?????? ?. destruct Hsame. split; congruence. }
  destruct Hex as [-> Hfit]. pose proof (ro_bounds _ _ _ Hr1 ltac:(lia)). rewrite (cast_id 64 (base + _)) by lia.
  destruct (MapWithCallback_spec a e (base + mapped_user r1) y) as (ok & -> & Hok); [done|done|lia|lia|lia|]. cbn [mbind result_bind]. destruct ok; cbn [negb returns]; [|auto].
  rewrite cast_id by lia. split; [|split; [done|cbn; lia]]. destruct Hr1 as [HN [Hu Hu'] Hm Hsl Hs Ha Hn]. assert (16 * cs * (N + req) ≤ 16 * cs * (N + 2 ^ 25)) by (apply Z.mul_le_mono_nonneg_l; lia). split; cbn; try done; lia.
Qed.

Lemma map_meta_spec a e r cs N base new : heap_ok a → env_ok e → region_ok cs N r → 0 < cs < 2 ^ 28 → 0 ≤ new < 2 ^ 32 →
  SpaceBeg P a ≤ base → base + R ≤ SpaceBeg P a + kSpaceSize P →
  returns (map_meta P a e r base new) (λ '(r', ok), region_ok cs N r' ∧ same_chunks r r' ∧ mapped_user r' = mapped_user r ∧
    (if ok : bool then (N + new) * kMetadataSize P ≤ mapped_meta r' else exhausted r' = true ∨ map_fails a e)).
Proof using V.
  intros Hh Henv Hr Hcs Hnew Hb1 Hb2. pose proof region_facts. pose proof (ho_end _ Hh). pose proof (ho_beg _ Hh). pose proof (ro_bounds _ _ _ Hr ltac:(lia)). pose proof (ro_N _ _ _ Hr). pose proof vp_meta. unfold map_meta.
  pose proof (ro_meta _ _ _ Hr) as [Em Hm]. destruct (Z.eqb_spec (kMetadataSize P) 0) as [E0|E0]; cbn [negb]; [rewrite E0; cbn [returns]; split; [done|]; split; [done|]; split; [done|]; lia|].
  assert (0 ≤ new * kMetadataSize P < 2 ^ 48) by nia. assert (0 ≤ N * kMetadataSize P < 2 ^ 48) by nia. rewrite (cast_id 64 (new * _)) by lia. rewrite Em. rewrite (cast_id 64 (N * _ + _)) by lia.
  destruct (Z.ltb_spec (mapped_meta r) (N * kMetadataSize P + new * kMetadataSize P)) as [Hlt|Hge].
  2: { cbn. split; [done|]. split; [done|]. split; [done|]. lia. }
  rewrite cast_id by lia. destruct (round_map (N * kMetadataSize P + new * kMetadataSize P - mapped_meta r)) as (y & -> & Hy & _); [lia|]. cbn [mbind result_bind].
  rewrite (proj2 (Z.eqb_neq y 0)) by lia. cbn [negb]. pose proof (IsRegionExhausted_spec cs N r y Hr ltac:(lia) ltac:(lia)) as Hex. destruct (IsRegionExhausted P r y) as [r2 full]. destruct Hex as [E2 Hex]. destruct full.
  { cbn [returns]. split; [by eapply region_ok_core|]. unfold core in E2. injection E2 as ?????? ?. by split_and!; [..|left]. }
  destruct Hex as [-> Hfit]. unfold GetMetadataEnd. rewrite (cast_id 64 (base + R - F)) by lia. rewrite (cast_id 64 (base + R - F - mapped_meta r - y)) by lia.
  destruct (MapWithCallback_spec a e (base + R - F - mapped_meta r - y) y) as (ok & -> & Hok); [done|done|lia|lia|lia|]. cbn [mbind result_bind]. destruct ok; cbn [negb returns]; [|by split_and!; [..|right; apply Hok]].
  rewrite cast_id by lia. split_and!; [|done|done|cbn; lia]. destruct Hr as [HN Hu [Hm1 Hm2] Hsl Hs Ha Hn]. split; cbn; try done; lia.
Qed.

(** ** Chunks *)
(** The free chunks of a region, and the chunks [lo .. lo + n - 1] of a class, as compact pointers. *)
Definition freed r : list Z := take (Z.to_nat (num_freed_chunks r)) (free_array r).
Definition compacts (cs lo n : Z) : list Z := (λ k, k * cs) <$> seqZ lo n.

Lemma compact_chunk cs k base : 0 < cs → 0 ≤ k → 16 * cs * k < 2 ^ 36 → 0 ≤ base → base + 2 ^ 36 < 2 ^ 64 →
  PointerToCompactPtr base (base + 16 * cs * k) = k * cs ∧ Release.CompactPtrToPointer base (k * cs) = base + 16 * cs * k.
Proof using Type.
  intros Hcs Hk Hlt Hb1 Hb2. unfold PointerToCompactPtr, Release.CompactPtrToPointer. assert (0 ≤ k * cs) by nia. split.
  - replace (base + 16 * cs * k - base) with (k * cs * 16) by ring. rewrite (cast_id 64) by lia. rewrite Z.shiftr_div_pow2 by lia. change (2 ^ 4) with 16. rewrite Z.div_mul by lia. apply cast_id. lia.
  - rewrite Z.shiftl_mul_pow2 by lia. change (2 ^ 4) with 16. rewrite (cast_id 64 (k * cs * 16)) by lia. rewrite cast_id by lia. ring.
Qed.

Lemma compacts_snoc cs lo i : 0 ≤ i → compacts cs lo (i + 1) = compacts cs lo i ++ [(lo + i) * cs].
Proof using Type. intros Hi. unfold compacts. rewrite seqZ_app by lia. rewrite fmap_app. f_equal. Qed.

Lemma compacts_app cs n m : 0 ≤ n → 0 ≤ m → compacts cs 0 (n + m) = compacts cs 0 n ++ compacts cs n m.
Proof using Type. intros Hn Hm. unfold compacts. by rewrite seqZ_app, fmap_app by lia. Qed.

Lemma compacts_length cs lo n : 0 ≤ n → Z.of_nat (length (compacts cs lo n)) = n.
Proof using Type. intros Hn. unfold compacts. rewrite length_fmap, length_seqZ. lia. Qed.

(** The loop that writes the new chunks. *)
Lemma fill_loop cells0 total N new cs : 0 < cs → 0 ≤ N → 0 ≤ new ≤ total → total ≤ Z.of_nat (length cells0) → total < 2 ^ 64 → 16 * cs * (N + new) < 2 ^ 36 →
  returns (for_range 0 new (λ i '(cells, chunk),
             cells ← aset cells (u64 (total - 1 - i)) (PointerToCompactPtr 0 chunk);
             Ok (cells, u64 (chunk + 16 * cs))) (cells0, 16 * cs * N))
    (λ '(cells, _), cells = take (Z.to_nat (total - new)) cells0 ++ reverse (compacts cs N new) ++ drop (Z.to_nat total) cells0).
Proof using Type.
  intros Hcs HN Hnew Htot Ht64 Hfit. eapply returns_mono; [apply (returns_for_range (λ i '(cells, chunk), chunk = 16 * cs * (N + i) ∧
    cells = take (Z.to_nat (total - i)) cells0 ++ reverse (compacts cs N i) ++ drop (Z.to_nat total) cells0)); [lia| |]|].
  - split; [lia|]. rewrite Z.sub_0_r. symmetry. apply take_drop.
  - intros i [cells chunk] Hi [-> ->]. rewrite (cast_id 64 (total - 1 - i)) by lia. destruct (compact_chunk cs (N + i) 0) as [Ec _]; [lia|lia|nia|lia|lia|]. rewrite Z.add_0_l in Ec. rewrite Ec.
    destruct (lookup_lt_is_Some_2 cells0 (Z.to_nat (total - 1 - i))) as [v Hv]; [lia|].
    assert (take (Z.to_nat (total - i)) cells0 = take (Z.to_nat (total - (i + 1))) cells0 ++ [v]) as -> by (replace (Z.to_nat (total - i)) with (S (Z.to_nat (total - 1 - i))) by lia; rewrite (take_S_r _ _ v) by done; do 2 f_equal; lia).
    rewrite <- app_assoc. rewrite aset_Ok by (rewrite !length_app, !length_take, length_drop, length_reverse; cbn [length]; lia). cbn [mbind result_bind returns]. split; [rewrite cast_id; nia|].
    rewrite insert_app_r_alt by (rewrite length_take; lia). f_equal. replace (_ - _)%nat with 0%nat by (rewrite length_take; lia). rewrite compacts_snoc, reverse_snoc by lia. done.
  - intros [cells chunk]. cbn. tauto.
Qed.

Lemma add_chunks_spec r cs N new : 0 < cs → region_ok cs N r → 0 ≤ new → 16 * cs * (N + new) ≤ mapped_user r → (N + new) * kMetadataSize P ≤ mapped_meta r →
  num_freed_chunks r + new ≤ Z.of_nat (length (free_array r)) →
  returns (add_chunks P r (16 * cs) new (num_freed_chunks r + new)) (λ r', region_ok cs (N + new) r' ∧ ∃ B, freed r' = freed r ++ B ∧ B ≡ₚ compacts cs N new).
Proof using V.
  intros Hcs Hr Hnew Hu Hm Hl. pose proof region_facts as HR. pose proof vp_meta as Hmeta. pose proof (ro_bounds _ _ _ Hr Hcs) as Hb. destruct Hr as [HN [Eu Hu'] [Em Hm'] Hsl Hs [Ha1 Ha2] [Hn1 Hn2]].
  assert (N + new < 2 ^ 32) as H32 by nia. unfold add_chunks. rewrite Eu. rbind (apply fill_loop; [lia|lia|lia|lia|lia|nia]). intros [cells x] ->. replace (num_freed_chunks r + new - new) with (num_freed_chunks r) by lia.
  fold (freed r). set (rest := drop _ (free_array r)). assert (Z.of_nat (length (freed r)) = num_freed_chunks r) as Ef by (unfold freed; rewrite length_take; lia).
  assert (Z.of_nat (length (reverse (compacts cs N new))) = new) as Ec by (rewrite length_reverse; by apply compacts_length).
  eapply (returns_bind _ _ (λ '(cells, _), ∃ B, cells = freed r ++ B ++ rest ∧ B ≡ₚ compacts cs N new)).
  { destruct (kRandomShuffleChunks P); [|eexists; split; [done|apply reverse_Permutation]]. rewrite cast_id by lia. rewrite <- Ec at 2. rewrite <- Ef. eapply returns_mono; [apply RandomShuffle_spec; lia|].
    intros [l st] (B & -> & HB). exists B. split; [done|]. rewrite HB. apply reverse_Permutation. }
  intros [cells' rs] (B & -> & HB). region_cbn. rewrite (cast_id 64 (num_freed_chunks r + new)), (cast_id 64 (new * _)) by nia. rewrite Eu, (cast_id 64 (_ + new * (16 * cs))) by nia. rewrite (proj2 (Z.leb_le (16 * cs * N + new * (16 * cs)) _)) by lia.
  rewrite (cast_id 64 (new * _)) by nia. rewrite Em, cast_id by nia. rewrite (proj2 (Z.leb_le (N * _ + _) _)) by lia. region_cbn. pose proof (Permutation_length HB) as HlB. pose proof (compacts_length cs N new Hnew) as HlC.
  assert (Z.of_nat (length (freed r ++ B ++ rest)) = Z.of_nat (length (free_array r))) as El by (rewrite !length_app; unfold rest; rewrite length_drop; lia).
  assert (16 * cs * (N + 2 ^ 25) ≤ 16 * cs * (N + new + 2 ^ 25)) by (apply Z.mul_le_mono_nonneg_l; lia). split; [split; region_cbn; [lia|lia|lia|lia|lia|split; region_cbn; lia|lia]|]. exists B. split; [|done]. unfold freed at 1. region_cbn. rewrite app_assoc. apply take_app_length'. rewrite length_app. lia.
Qed.

(** The free array never gets too small here: few chunks are made at a time. *)
Lemma PopulateFreeArray_spec a e stat class_id r cs N req : heap_ok a → env_ok e → 1 ≤ class_id < kNumClasses (SCM P) → Size (SCM P) class_id = Ok (16 * cs) →
  0 < cs < 2 ^ 28 → region_ok cs N r → 0 ≤ req → num_freed_chunks r + req < 2 ^ 25 →
  returns (PopulateFreeArray P a e stat class_id r req) (λ '(r', stat', ok), ∃ new B, 0 ≤ new ∧ region_ok cs (N + new) r' ∧
    freed r' = freed r ++ B ∧ B ≡ₚ compacts cs N new ∧ (if ok : bool then req ≤ new else new = 0 ∧ (exhausted r' = true ∨ map_fails a e))).
Proof using V.
  intros Hh Henv Hc Hsz Hcs Hr Hreq Hfew. pose proof (ro_num _ _ _ Hr) as Hnum. pose proof region_facts as HR. destruct (region_beg a class_id Hh ltac:(lia)) as [Ebeg Hend]. pose proof (ro_N _ _ _ Hr) as HN. pose proof (ro_bounds _ _ _ Hr ltac:(lia)) as Hb.
  assert (∀ r', region_ok cs N r' → same_chunks r r' → (exhausted r' = true ∨ map_fails a e) → ∃ new B, 0 ≤ new ∧ region_ok cs (N + new) r' ∧
    freed r' = freed r ++ B ∧ B ≡ₚ compacts cs N new ∧ new = 0 ∧ (exhausted r' = true ∨ map_fails a e)) as Hfail.
  { intros r' Hr' [E1 E2] Hx. exists 0, []. rewrite Z.add_0_r. split_and!; [done|done| |done|done|done]. unfold freed. by rewrite E1, E2, app_nil_r. }
  unfold PopulateFreeArray, ClassIdToSize. rewrite Hsz, Ebeg, (proj1 (ro_user _ _ _ Hr)). cbn [mbind result_bind]. rewrite (cast_id 64 (req * _)) by nia. rewrite (cast_id 64 (_ + _)) by nia.
  replace (16 * cs * N + req * (16 * cs)) with (16 * cs * (N + req)) by lia. assert (0 ≤ R * class_id) as Hrc by nia.
  rbind (apply map_user_spec; [done|done|done|lia|lia|lia|lia]). intros [[r1 stat1] ok1] (Hr1 & Hs1 & Hk1). destruct ok1; cbn [negb]; [|cbn [returns]; by apply Hfail].
  pose proof (ro_bounds _ _ _ Hr1 ltac:(lia)) as Hb1. pose proof (ro_space _ _ _ Hr1) as Hsp1. destruct (ro_user _ _ _ Hr1) as [Eu1 Hu1]. rewrite Eu1, cast_id, udiv_ok by lia. cbn [mbind result_bind]. set (new := (mapped_user r1 - 16 * cs * N) / (16 * cs)).
  pose proof (Release.floor_spec (mapped_user r1 - 16 * cs * N) (16 * cs) ltac:(lia)) as Hf. fold new in Hf. assert (req ≤ new) as Hnew by nia. assert (new < 2 ^ 32) as Hn32 by nia.
  rbind (apply map_meta_spec; [done|done|done|lia|lia|lia|lia]). intros [r2 ok2] (Hr2 & Hs2 & Em2 & Hk2).
  assert (same_chunks r r2) as Hs02 by (destruct Hs1, Hs2; split; congruence). destruct ok2; cbn [negb]; [|cbn [returns]; by apply Hfail].
  destruct (ro_user _ _ _ Hr2) as [Eu2 Hu2]. destruct (ro_meta _ _ _ Hr2) as [Emt2 Hmt2]. destruct (ro_num _ _ _ Hr2) as [Hn2 Hl2]. rewrite (cast_id 64 (num_freed_chunks r2 + new)) by lia. assert (new ≤ 2 ^ 25 + 2 ^ 12) as Hnew'.
  { pose proof (ro_slack _ _ _ Hr1) as Hsl. apply Z.nlt_ge. intros Hlt. assert (16 * cs * (2 ^ 25 + 2 ^ 12 + 1) ≤ 16 * cs * new) by (apply Z.mul_le_mono_nonneg_l; lia). lia. }
  pose proof (proj2 Hs02) as En2.
  rbind (eapply returns_or_False; [|apply (EnsureFreeArraySpace_spec a e r2 cs (N + new)); [done|done|apply Hr2|lia|lia|nia|lia|lia]]; lia). intros [r3 ok3] (m & pad & -> & Ha3 & Hk3).
  destruct ok3; cbn [negb]; [|cbn [returns]; destruct Hk3 as (-> & _ & ?); apply Hfail; auto].
  match goal with |- context [add_chunks P ?x] => set (r3 := x) in * end.
  assert (region_ok cs N r3) as Hr3 by (destruct Hr2; split; try done; cbn in *; rewrite length_app; lia).
  rbind (apply (add_chunks_spec r3 cs N new); [lia|done|lia|cbn; lia|done|done]). intros r4 (Hr4 & B & EB & HB). cbn. exists new, B. split_and!; try done; [lia|].
  rewrite EB. f_equal. unfold freed, r3. cbn. rewrite take_app_le by lia. destruct Hs02 as [-> ->]. done.
Qed.

(** ** The invariant of the allocator

    [used c]: the chunks of class [c] that are not in its free array.  Every chunk made is
    in the free array or in use, once. *)
Record class_ok a (used : Z → list Z) (c cs N : Z) r : Prop := {
  co_size : Size (SCM P) c = Ok (16 * cs);
  co_cs : 0 < cs < 2 ^ 28;
  co_region : RegionInfos a !! Z.to_nat c = Some r;
  co_ok : region_ok cs N r;
  co_chunks : freed r ++ used c ≡ₚ compacts cs 0 N
}.

Definition alloc_ok a (used : Z → list Z) : Prop := heap_ok a ∧ ∀ c, 1 ≤ c < kNumClasses (SCM P) → ∃ cs N r, class_ok a used c cs N r.

(** What no operation changes. *)
Definition same_heap a a' : Prop :=
  NonConstSpaceBeg a' = NonConstSpaceBeg a ∧ PremappedHeap a' = PremappedHeap a ∧ release_to_os_interval_ms_ a' = release_to_os_interval_ms_ a.

(** The size class of 16 bytes. *)
Definition smallest (c : Z) : Prop := Size (SCM P) c = Ok 16.

Lemma GetRegionInfo_ok a used c cs N r : class_ok a used c cs N r → 1 ≤ c < kNumClasses (SCM P) → GetRegionInfo P a c = Ok r.
Proof using Type. intros H Hc. unfold GetRegionInfo. rewrite (proj2 (Z.ltb_lt _ _)) by lia. cbn [CHECK mbind result_bind]. apply aget_Ok. split; [lia|apply H]. Qed.

Lemma alloc_ok_set a used c cs N r u : alloc_ok a used → 1 ≤ c < kNumClasses (SCM P) → Size (SCM P) c = Ok (16 * cs) → 0 < cs < 2 ^ 28 →
  region_ok cs N r → freed r ++ u ≡ₚ compacts cs 0 N → alloc_ok (set_region c r a) (<[c := u]> used) ∧ same_heap a (set_region c r a) ∧ RegionInfos (set_region c r a) !! Z.to_nat c = Some r.
Proof using Type.
  intros [Hh Ha] Hc Hsz Hcs Hr Hu. pose proof (ho_regions _ Hh) as Hlen. assert (RegionInfos (set_region c r a) !! Z.to_nat c = Some r) as Hc' by (cbn; apply list_lookup_insert_eq; lia).
  split; [|done]. split.
  - destruct Hh as [H1 H2 H3 H4]. split; try done. cbn. by rewrite length_insert.
  - intros c' Hcr. destruct (decide (c' = c)) as [->|Hne].
    + exists cs, N, r. split; try done. by rewrite fn_lookup_insert.
    + destruct (Ha c' Hcr) as (cs' & N' & r' & [H1 H2 H3 H4 H5]). exists cs', N', r'. split; try done; [|by rewrite fn_lookup_insert_ne]. cbn. rewrite list_lookup_insert_ne by lia. done.
Qed.

Lemma alloc_ok_same a used c cs N r : alloc_ok a used → 1 ≤ c < kNumClasses (SCM P) → Size (SCM P) c = Ok (16 * cs) → 0 < cs < 2 ^ 28 →
  region_ok cs N r → freed r ++ used c ≡ₚ compacts cs 0 N → alloc_ok (set_region c r a) used ∧ same_heap a (set_region c r a) ∧ RegionInfos (set_region c r a) !! Z.to_nat c = Some r.
Proof using Type.
  intros Ha Hc Hsz Hcs Hr Hu. destruct (alloc_ok_set a used c cs N r (used c) Ha Hc Hsz Hcs Hr Hu) as ([Hh H1] & H2). split; [|done]. split; [done|]. intros c' Hc'. destruct (H1 c' Hc') as (cs' & N' & r' & [G1 G2 G3 G4 G5]).
  exists cs', N', r'. split; try done. destruct (decide (c' = c)) as [->|Hne]; [by rewrite fn_lookup_insert in G5|by rewrite fn_lookup_insert_ne in G5].
Qed.

(** The order of the chunks in use does not matter. *)
Lemma alloc_ok_perm a used used' : (∀ c, 1 ≤ c < kNumClasses (SCM P) → used c ≡ₚ used' c) → alloc_ok a used → alloc_ok a used'.
Proof using Type.
  intros Hu [Hh Ha]. split; [done|]. intros c Hc. destruct (Ha c Hc) as (cs & N & r & [H1 H2 H3 H4 H5]). exists cs, N, r. split; try done. by rewrite <- Hu.
Qed.

#[export] Instance alloc_ok_proper a : Proper (pointwise_relation Z (≡ₚ) ==> iff) (alloc_ok a).
Proof using Type. intros u u' Hu. split; apply alloc_ok_perm; intros c _; [apply Hu|symmetry; apply Hu]. Qed.

Lemma freed_length cs N r : region_ok cs N r → Z.of_nat (length (freed r)) = num_freed_chunks r.
Proof using Type. intros Hr. pose proof (ro_num _ _ _ Hr). unfold freed. rewrite length_take. lia. Qed.

(** The free array of class [c] cannot take [n] more chunks: it has to grow for them, and they are
    more than fit the part of the region for the array, which only the class of 16 bytes
    can have, or a mapping fails. *)
Definition array_stuck a e (c n : Z) : Prop := ∃ r, RegionInfos a !! Z.to_nat c = Some r ∧ mapped_free_array r < 4 * (num_freed_chunks r + n) ∧
  (smallest c ∧ F < 4 * (num_freed_chunks r + n) ∨ map_fails a e).

Lemma array_full a used c cs N r e n : class_ok a used c cs N r → num_freed_chunks r + n ≤ N → F < 4 * (num_freed_chunks r + n) → array_stuck a e c n.
Proof using V.
  intros [Hsz Hcs Hreg Hr _] Hn HF. pose proof (ro_bounds _ _ _ Hr ltac:(lia)) as Hb. destruct (ro_array _ _ _ Hr) as [_ Ha]. pose proof region_facts.
  exists r. split; [done|]. split; [lia|]. left. split; [|done]. unfold smallest. rewrite Hsz. f_equal. assert (¬ 2 ≤ cs); [|lia]. intros H2. assert (2 * N ≤ cs * N) by (apply Z.mul_le_mono_nonneg_r; lia). lia.
Qed.

(** Only the region of class [c] changes. *)
Definition changes_only (c : Z) a a' : Prop := ∀ c', 0 ≤ c' → c' ≠ c → RegionInfos a' !! Z.to_nat c' = RegionInfos a !! Z.to_nat c'.

Lemma changes_only_set c r a : 0 ≤ c → changes_only c a (set_region c r a).
Proof using Type. intros Hc c' Hc' Hne. cbn. by rewrite list_lookup_insert_ne by lia. Qed.

Lemma changes_only_trans c a b d : changes_only c a b → changes_only c b d → changes_only c a d.
Proof using Type. intros H1 H2 c' Hc Hne. by rewrite H2, H1. Qed.

(** Chunks leave the free array. *)
Lemma GetFromAllocator_spec a e stat used c chunks n : alloc_ok a used → env_ok e → 1 ≤ c < kNumClasses (SCM P) → 0 ≤ n < 2 ^ 25 → n ≤ Z.of_nat (length chunks) →
  returns (GetFromAllocator P a e stat c chunks n) (λ '(a', stat', chunks', ok), same_heap a a' ∧
    if ok : bool then ∃ got, Z.of_nat (length got) = n ∧ chunks' = got ++ drop (Z.to_nat n) chunks ∧ alloc_ok a' (<[c := got ++ used c]> used)
    else chunks' = chunks ∧ alloc_ok a' used ∧ (map_fails a e ∨ ∃ r', RegionInfos a' !! Z.to_nat c = Some r' ∧ exhausted r' = true)).
Proof using V.
  intros [Hh Ha] Henv Hc Hn Hlen. destruct (Ha c Hc) as (cs & N & r & Hcl). pose proof Hcl as [Hsz Hcs Hreg Hr Hch]. unfold GetFromAllocator. rewrite (GetRegionInfo_ok _ _ _ _ _ _ Hcl Hc). cbn [mbind result_bind].
  eapply (returns_bind _ _ (λ '(r', stat', ok), ∃ new B, 0 ≤ new ∧ region_ok cs (N + new) r' ∧ freed r' = freed r ++ B ∧ B ≡ₚ compacts cs N new ∧
    (if ok : bool then n ≤ num_freed_chunks r' else new = 0 ∧ (exhausted r' = true ∨ map_fails a e)))).
  { pose proof (ro_num _ _ _ Hr) as Hnum. destruct (Z.ltb_spec (num_freed_chunks r) n) as [Hlt|Hge].
    - rewrite cast_id by lia. rbind (apply (PopulateFreeArray_spec a e stat c r cs N); [done|done|done|done|done|done|lia|lia]).
      intros [[r' stat'] ok] (new & B & Hnew & Hr' & Ef & HB & Hok). destruct ok; cbn [negb orb].
      + pose proof (freed_length _ _ _ Hr) as L1. pose proof (freed_length _ _ _ Hr') as L2. rewrite Ef, length_app, HB in L2. pose proof (compacts_length cs N new Hnew). rewrite (proj2 (Z.leb_le _ _)) by lia. region_cbn. exists new, B. split_and!; try done. lia.
      + region_cbn. by exists new, B.
    - cbn. exists 0, []. rewrite Z.add_0_r, app_nil_r. by split_and!. }
  intros [[r' stat'] ok] (new & B & Hnew & Hr' & Ef & HB & Hok). destruct ok; cbn [negb].
  2: { destruct Hok as [-> Hfail]. rewrite Z.add_0_r in Hr'. assert (B = []) as -> by (by apply Permutation_nil_r in HB). rewrite app_nil_r in Ef.
       destruct (alloc_ok_same a used c cs N r') as (H1 & H2 & H3); [done|done|done|done|done|by rewrite Ef|]. cbn [returns]. split_and!; try done. destruct Hfail as [?|?]; [right; eauto|by left]. }
  destruct (ro_num _ _ _ Hr') as [Hn1 Hn2]. region_cbn. pose proof (ro_bounds _ _ _ Hr' ltac:(lia)). rewrite !(cast_id 64 (num_freed_chunks r' - n)) by lia. set (idx := num_freed_chunks r' - n).
  erewrite (copy_cells (free_array r') chunks idx 0 n); [|lia|lia|lia|lia|lia|done]. rewrite Z.add_0_l. region_cbn. set (got := take (Z.to_nat n) (drop (Z.to_nat idx) (free_array r'))).
  set (r'' := set_stats _ _). assert (freed r'' ++ got = freed r') as Esplit.
  { unfold freed, r'', got. region_cbn. rewrite take_take_drop. f_equal. lia. }
  destruct (alloc_ok_set a used c cs (N + new) r'' (got ++ used c)) as (H1 & H2 & _); [done|done|done|done| |rewrite app_assoc, Esplit, Ef, (Permutation_app_comm (freed r)), <- app_assoc, Hch, HB; rewrite compacts_app by (try apply Hr; lia); apply Permutation_app_comm|].
  { destruct Hr'. split; try done. unfold r''. region_cbn. lia. }
  split; [done|]. exists got. split; [unfold got; rewrite length_take, length_drop; lia|]. split; [done|]. done.
Qed.

(** ** Addresses *)
Lemma div_shift x d o : 0 < d → 0 ≤ o < d → (d * x + o) / d = x ∧ (d * x + o) mod d = o.
Proof using Type. intros Hd Ho. split; symmetry; [apply (Z.div_unique_pos _ _ _ o)|apply (Z.mod_unique_pos _ _ x)]; lia. Qed.

(** An address of the region of class [c], from its offset. *)
Lemma region_address a c o : heap_ok a → 0 ≤ c < kNumClasses (SCM P) → 0 ≤ o < R → let q := SpaceBeg P a + R * c + o in
  PointerIsMine P a q = true ∧ GetSizeClass P a q = c ∧ GetRegionBegin P a q = SpaceBeg P a + R * c ∧
  (if negb (kUsingConstantSpaceBeg P) then u64 (q - SpaceBeg P a) else q) mod R = o.
Proof using V.
  intros [Hb He Hp _] Hc Ho q. pose proof region_facts as HR. pose proof vp_space as Esp. pose proof vp_classes as [Hk Hk256]. set (K := kNumClassesRounded (SCM P)) in *. destruct vp_region as (g & Hg & Eg).
  assert (R * c + R ≤ kSpaceSize P) as Hfit by nia. assert (0 ≤ R * c) as Hrc by nia. assert (q < 2 ^ 64 ∧ 0 ≤ q) as Hq by (unfold q; lia).
  assert (u64 (q - SpaceBeg P a) = R * c + o) as Eoff by (unfold q; rewrite cast_id by lia; lia). destruct (div_shift c R o ltac:(lia) Ho) as [D1 D2]. assert (c mod K = c) as Ec by (apply Z.mod_small; lia).
  assert (kUsingConstantSpaceBeg P = true → ∃ m, SpaceBeg P a = R * m ∧ kSpaceBeg P = R * m) as Hconst.
  { intros E. pose proof (vp_const E) as H0. exists (kSpaceBeg P / R). unfold SpaceBeg. rewrite E. pose proof (Z.div_mod (kSpaceBeg P) R ltac:(lia)). lia. }
  assert (kUsingConstantSpaceBeg P && (kSpaceBeg P mod kSpaceSize P =? 0) = true → ∃ m, SpaceBeg P a = kSpaceSize P * m ∧ kSpaceBeg P = kSpaceSize P * m) as Hconst2.
  { intros [E H0]%andb_true_iff. apply Z.eqb_eq in H0. exists (kSpaceBeg P / kSpaceSize P). unfold SpaceBeg. rewrite E. pose proof (Z.div_mod (kSpaceBeg P) (kSpaceSize P) ltac:(lia)). lia. }
  split; [|split; [|split]].
  - unfold PointerIsMine, SpaceEnd. destruct (_ && _) eqn:E; [|rewrite cast_id by lia; unfold q; rewrite (proj2 (Z.leb_le _ _)), (proj2 (Z.ltb_lt _ _)) by lia; done].
    destruct (Hconst2 eq_refl) as (m & E1 & E2). unfold q. rewrite E1, E2. rewrite <- Z.add_assoc, (proj1 (div_shift m (kSpaceSize P) (R * c + o) ltac:(lia) ltac:(lia))). rewrite Z.mul_comm, Z.div_mul by lia. by rewrite Z.eqb_refl.
  - unfold GetSizeClass. destruct (_ && _) eqn:E; [|by rewrite Eoff, D1]. destruct (Hconst2 eq_refl) as (m & E1 & _). unfold q. rewrite E1, Esp. fold K. replace (R * K * m + R * c + o) with (R * (c + m * K) + o) by ring.
    rewrite (proj1 (div_shift _ R o ltac:(lia) Ho)). by rewrite Z_mod_plus_full.
  - unfold GetRegionBegin. destruct (kUsingConstantSpaceBeg P) eqn:E.
    + destruct (Hconst eq_refl) as (m & E1 & _). rewrite Eg, RoundDownTo_pow2, <- Eg by lia. unfold q. rewrite E1. rewrite <- Z.mul_add_distr_l, (proj1 (div_shift _ R o ltac:(lia) Ho)). done.
    + rewrite Eoff, Eg, RoundDownTo_pow2, <- Eg by lia. rewrite D1, cast_id by lia. lia.
  - destruct (kUsingConstantSpaceBeg P) eqn:E; cbn [negb]; [|by rewrite Eoff]. destruct (Hconst eq_refl) as (m & E1 & _). unfold q. rewrite E1, <- Z.mul_add_distr_l. apply (div_shift (m + c) R o); lia.
Qed.

Lemma GetChunkIdx_spec a c cs k d : heap_ok a → 0 ≤ c < kNumClasses (SCM P) → 0 < cs < 2 ^ 28 → 0 ≤ k → 0 ≤ d < 16 * cs → 16 * cs * k + d < R →
  GetChunkIdx P a (SpaceBeg P a + R * c + (16 * cs * k + d)) (16 * cs) = Ok k.
Proof using V.
  intros Hh Hc Hcs Hk Hd Hfit. pose proof region_facts. assert (0 ≤ 16 * cs * k) by nia. destruct (region_address a c (16 * cs * k + d) Hh Hc ltac:(lia)) as (_ & _ & _ & Eo). unfold GetChunkIdx. rewrite Eo. unfold SANITIZER_WORDSIZE. change (64 / 2) with 32. rewrite shr_ok by lia. cbn [mbind result_bind].
  destruct (div_shift k (16 * cs) d ltac:(lia) Hd) as [Ek _]. destruct (Z.eqb_spec (Z.shiftr (16 * cs * k + d) 32) 0) as [E|E]; cbn [negb]; [|rewrite udiv_ok by lia; by rewrite Ek].
  rewrite Z.shiftr_div_pow2 in E by lia. apply Z.div_small_iff in E; [|lia]. rewrite (cast_id 32 (16 * cs)), (cast_id 32) by lia. rewrite udiv_ok by lia. by rewrite Ek.
Qed.

(** A chunk in use. *)
Lemma used_chunk a used c q : alloc_ok a used → 1 ≤ c < kNumClasses (SCM P) → q ∈ used c → ∃ cs i N r, class_ok a used c cs N r ∧ q = i * cs ∧ 0 ≤ i < N ∧
  PointerToCompactPtr (SpaceBeg P a + R * c) (SpaceBeg P a + R * c + 16 * q) = q ∧ Release.CompactPtrToPointer (SpaceBeg P a + R * c) q = SpaceBeg P a + R * c + 16 * q.
Proof using V.
  intros [Hh Ha] Hc Hq. destruct (Ha c Hc) as (cs & N & r & Hcl). pose proof Hcl as [Hsz Hcs Hreg Hr Hch]. pose proof (ro_bounds _ _ _ Hr ltac:(lia)). pose proof region_facts. destruct (region_beg a c Hh ltac:(lia)) as [_ Hend]. pose proof (ho_end _ Hh). pose proof (ho_beg _ Hh).
  assert (q ∈ compacts cs 0 N) as Hin by (rewrite <- Hch; apply elem_of_app; by right). apply list_elem_of_fmap in Hin as (i & -> & Hi%elem_of_seqZ). exists cs, i, N, r. split; [done|]. split; [done|]. split; [lia|].
  assert (0 ≤ R * c) by nia. assert (16 * cs * i ≤ 16 * cs * N) by nia. replace (16 * (i * cs)) with (16 * cs * i) by ring. apply (compact_chunk cs i (SpaceBeg P a + R * c)); lia.
Qed.

(** Blocks of different chunks do not meet. *)
Lemma used_disjoint a used c c' q q' cs cs' : alloc_ok a used → 1 ≤ c < kNumClasses (SCM P) → 1 ≤ c' < kNumClasses (SCM P) → q ∈ used c → q' ∈ used c' → (c, q) ≠ (c', q') →
  Size (SCM P) c = Ok (16 * cs) → Size (SCM P) c' = Ok (16 * cs') → let p := SpaceBeg P a + R * c + 16 * q in let p' := SpaceBeg P a + R * c' + 16 * q' in
  p + 16 * cs ≤ p' ∨ p' + 16 * cs' ≤ p.
Proof using V.
  intros Ha Hc Hc' Hq Hq' Hne Hsz Hsz'. destruct (used_chunk a used c q Ha Hc Hq) as (cs1 & i & N & r & [S1 C1 _ Hr _] & -> & Hi & _). destruct (used_chunk a used c' q' Ha Hc' Hq') as (cs2 & i' & N' & r' & [S2 C2 _ Hr' _] & -> & Hi' & _).
  assert (cs1 = cs) as -> by (rewrite Hsz in S1; injection S1; lia). assert (cs2 = cs') as -> by (rewrite Hsz' in S2; injection S2; lia). pose proof (ro_bounds _ _ _ Hr ltac:(lia)). pose proof (ro_bounds _ _ _ Hr' ltac:(lia)). pose proof region_facts. cbv zeta.
  assert (cs * (i + 1) ≤ cs * N) by (apply Z.mul_le_mono_nonneg_l; lia). assert (cs' * (i' + 1) ≤ cs' * N') by (apply Z.mul_le_mono_nonneg_l; lia). assert (0 ≤ i * cs) by (apply Z.mul_nonneg_nonneg; lia). assert (0 ≤ i' * cs') by (apply Z.mul_nonneg_nonneg; lia).
  destruct (Z.lt_trichotomy c c') as [Hlt|[->|Hgt]].
  - assert (R * (c + 1) ≤ R * c') by (apply Z.mul_le_mono_nonneg_l; lia). lia.
  - assert (cs' = cs) as -> by (rewrite Hsz in Hsz'; injection Hsz'; lia). assert (i ≠ i') as Hii by congruence. destruct (Z.lt_trichotomy i i') as [Hl|[?|Hl]]; [|done|].
    + assert ((i + 1) * cs ≤ i' * cs) by (apply Z.mul_le_mono_nonneg_r; lia). lia.
    + assert ((i' + 1) * cs ≤ i * cs) by (apply Z.mul_le_mono_nonneg_r; lia). lia.
  - assert (R * (c' + 1) ≤ R * c) by (apply Z.mul_le_mono_nonneg_l; lia). lia.
Qed.

(** ** Released pages *)
(** The ranges [rs] lie in the region of class [c] and meet no chunk in use. *)
Definition spares a (used : Z → list Z) (c : Z) (rs : list (Z * Z)) : Prop := ∀ xy, xy ∈ rs →
  let base := SpaceBeg P a + R * c in base ≤ xy.1 ∧ xy.2 ≤ base + R ∧
  ∀ p cs, p ∈ used c → Size (SCM P) c = Ok (16 * cs) → base + 16 * p + 16 * cs ≤ xy.1 ∨ xy.2 ≤ base + 16 * p.

Lemma compacts_NoDup cs lo n : 0 < cs → NoDup (compacts cs lo n).
Proof using Type. intros Hcs. apply NoDup_fmap_2_strong; [|apply NoDup_seqZ]. intros x y _ _ H. nia. Qed.

(** The free chunks as indices. *)
Lemma freed_indices cs N fs us : 0 < cs → fs ++ us ≡ₚ compacts cs 0 N → ∃ ks, fs = (λ k, k * cs) <$> ks ∧ NoDup ks ∧
  (∀ k, k ∈ ks → 0 ≤ k < N) ∧ ∀ p, p ∈ us → ∃ k, p = k * cs ∧ 0 ≤ k < N ∧ k ∉ ks.
Proof using V.
  intros Hcs Hp. assert (∀ p, p ∈ fs ++ us → ∃ k, p = k * cs ∧ 0 ≤ k < N) as Hall.
  { intros p. rewrite Hp. unfold compacts. intros (k & -> & Hk%elem_of_seqZ)%list_elem_of_fmap. exists k. split; [done|lia]. }
  assert (NoDup (fs ++ us)) as Hnd by (rewrite Hp; by apply compacts_NoDup). apply NoDup_app in Hnd as (Hn1 & Hn2 & _).
  exists ((λ x, x / cs) <$> fs). assert (fs = (λ k, k * cs) <$> ((λ x, x / cs) <$> fs)) as Efs.
  { rewrite <- list_fmap_compose. rewrite <- (list_fmap_id fs) at 1. apply list_fmap_ext. intros i x Hx%list_elem_of_lookup_2. destruct (Hall x) as (k & -> & _); [set_solver|]. cbn. rewrite Z.div_mul by lia. done. }
  split_and!; [done| | |].
  - apply (NoDup_fmap_1 (λ k, k * cs)). by rewrite <- Efs.
  - intros k (x & -> & Hx)%list_elem_of_fmap. destruct (Hall x) as (k & -> & Hk); [set_solver|]. rewrite Z.div_mul by lia. done.
  - intros p Hpu. destruct (Hall p) as (k & -> & Hk); [set_solver|]. exists k. split_and!; [done|lia|lia|]. intros Hin. apply (Hn2 (k * cs)); [|done]. rewrite Efs. by apply (list_elem_of_fmap_2 (λ k, k * cs)).
Qed.

(** A chunk that meets a range of pages touches one of them. *)
Lemma range_touches cs ps k x y : 0 < cs → 0 < ps → x < y → k * cs < y * ps → x * ps < (k + 1) * cs → ∃ j, x ≤ j < y ∧ Release.touches cs ps k j.
Proof using Type.
  intros Hcs Hps Hxy H1 H2. pose proof (Release.floor_spec (k * cs) ps Hps). exists (x `max` (k * cs / ps)). unfold Release.touches. destruct (Z.max_spec x (k * cs / ps)) as [[? ->]|[? ->]]; split; nia.
Qed.

(** Every range lies in the region of a class and meets none of its chunks in use. *)
Definition spares_all a (used : Z → list Z) (rs : list (Z * Z)) : Prop := ∀ xy, xy ∈ rs → ∃ c, 1 ≤ c < kNumClasses (SCM P) ∧ spares a used c [xy].

Lemma spares_spares_all a used c rs : 1 ≤ c < kNumClasses (SCM P) → spares a used c rs → spares_all a used rs.
Proof using Type. intros Hc Hs xy Hxy. exists c. split; [done|]. intros xy' ->%list_elem_of_singleton. by apply Hs. Qed.

Lemma spares_same a a' used c rs : same_heap a a' → spares a' used c rs → spares a used c rs.
Proof using Type. intros (E & _) Hs. unfold spares, SpaceBeg in *. by rewrite E in Hs. Qed.

Lemma spares_mono a used used' c rs : (∀ p, p ∈ used' c → p ∈ used c) → spares a used c rs → spares a used' c rs.
Proof using Type. intros Hu Hs xy Hxy. destruct (Hs xy Hxy) as (H1 & H2 & H3). split; [done|]. split; [done|]. intros p cs Hp. by apply H3, Hu. Qed.

Lemma same_heap_trans a b c : same_heap a b → same_heap b c → same_heap a c.
Proof using Type. unfold same_heap. intuition congruence. Qed.

Context (L : Z) (HL : 0 ≤ L ≤ 12).
Notation page_size := (16 * 2 ^ L).

Lemma pages_of_region N cs : 0 < cs → 0 < N → 16 * cs * N ≤ R - F →
  ∃ count, RoundUpTo (16 * cs * N) page_size = Ok (count * page_size) ∧ 0 < count ∧ cs * N ≤ count * 2 ^ L ∧ 16 * (count * 2 ^ L) < R.
Proof using V HL.
  intros Hcs HN Hfit. pose proof region_facts. assert (2 ^ L ≤ 2 ^ 12) by (apply Z.pow_le_mono_r; lia). assert (0 < 2 ^ L) by lia. assert (page_size = 2 ^ (4 + L)) as E by (rewrite Z.pow_add_r by lia; done).
  assert (0 < 16 * cs * N) by nia. rewrite E, RoundUpTo_pow2 by lia. exists ((16 * cs * N + 2 ^ (4 + L) - 1) / 2 ^ (4 + L)). rewrite <- E. pose proof (Release.floor_spec (16 * cs * N + page_size - 1) page_size ltac:(lia)).
  split; [f_equal; ring|]. split; [apply Z.div_str_pos; lia|]. set (q := _ / page_size) in *. nia.
Qed.

Lemma MaybeReleaseToOS_spec a e mm used c force : alloc_ok a used → 1 ≤ c < kNumClasses (SCM P) →
  returns (MaybeReleaseToOS P page_size a e mm c force) (λ '(a', mm'), alloc_ok a' used ∧ same_heap a a' ∧ changes_only c a a' ∧ ∃ rs, Release.released_ mm' = Release.released_ mm ++ rs ∧ spares a used c rs).
Proof using V HL.
  intros [Hh Ha] Hc. destruct (Ha c Hc) as (cs & N & r & Hcl). pose proof Hcl as [Hsz Hcs Hreg Hr Hch]. pose proof region_facts as HR. pose proof (ro_bounds _ _ _ Hr ltac:(lia)) as Hb. pose proof (ro_num _ _ _ Hr) as Hnum.
  assert (0 < 2 ^ L) as Hps by lia. unfold MaybeReleaseToOS. rewrite (GetRegionInfo_ok _ _ _ _ _ _ Hcl Hc). unfold ClassIdToSize. rewrite Hsz. cbn [mbind result_bind]. rewrite (cast_id 64 (num_freed_chunks r * _)) by nia.
  assert (alloc_ok a used ∧ same_heap a a ∧ changes_only c a a ∧ ∃ rs, Release.released_ mm = Release.released_ mm ++ rs ∧ spares a used c rs) as Hskip.
  { split; [done|]. split; [done|]. split; [done|]. exists []. rewrite app_nil_r. split; [done|]. by intros xy ?%not_elem_of_nil. }
  destruct (Z.ltb_spec (num_freed_chunks r * (16 * cs)) page_size) as [|Hn]; [done|]. destruct (_ <? page_size); [done|]. destruct (negb force && _); [done|].
  assert (0 < N) as HN by nia. rewrite (proj1 (ro_user _ _ _ Hr)). destruct (pages_of_region N cs) as (count & -> & Hcount & Hcov & Hfit); [lia|lia|lia|]. cbn [mbind result_bind]. rewrite Z.div_mul by lia.
  destruct (region_beg a c Hh ltac:(lia)) as [-> Hend]. pose proof (ho_end _ Hh). pose proof (ho_beg _ Hh). assert (0 ≤ R * c) by nia.
  destruct (freed_indices cs N (freed r) (used c)) as (ks & Eks & Hnd & Hrng & Hused); [lia|done|]. pose proof (freed_length _ _ _ Hr) as Hfl. rewrite Eks, length_fmap in Hfl. rewrite <- Hfl.
  assert (∀ i k, ks !! i = Some k → free_array r !! i = Some (k * cs)) as Hcells.
  { intros i k Hk. rewrite <- (lookup_take_lt _ (Z.to_nat (num_freed_chunks r))) by (apply lookup_lt_Some in Hk; lia). fold (freed r). by rewrite Eks, list_lookup_fmap, Hk. }
  rbind (apply (Release.release_spec L cs count ks (SpaceBeg P a + R * c)); [lia|lia|lia|lia|done|intros k Hk%Hrng; split; [lia|]; transitivity (cs * N); [rewrite (Z.mul_comm cs); apply Z.mul_le_mono_nonneg_r; lia|done]|lia|done]).
  intros mm' (ranges & Hlog & Hbounds & Hpages). unfold Release.GetAndResetStats. set (r' := set_rtoi _ r). cbn [returns]. destruct (alloc_ok_same a used c cs N r') as (Ha1 & Ha2 & _); [done..|by apply (region_ok_core cs N r)|done|].
  split; [done|]. split; [done|]. split; [apply changes_only_set; lia|]. eexists. split; [exact Hlog|]. intros xy ([x y] & -> & Hxy)%list_elem_of_fmap. destruct (Hbounds _ Hxy) as [Hx Hy]. cbn in Hx, Hy. unfold Release.page_range. cbn [fst snd].
  assert (y * 2 ^ L ≤ count * 2 ^ L) by (apply Z.mul_le_mono_nonneg_r; lia). assert (0 ≤ x * 2 ^ L) by (apply Z.mul_nonneg_nonneg; lia). split; [lia|]. split; [lia|]. intros p cs' Hp Hsz'. assert (cs' = cs) as -> by (rewrite Hsz in Hsz'; injection Hsz'; lia).
  destruct (Hused p Hp) as (k & -> & Hk & Hnk). destruct (decide (k * cs < y * 2 ^ L ∧ x * 2 ^ L < (k + 1) * cs)) as [[O1 O2]|Hno]; [|lia].
  destruct (range_touches cs (2 ^ L) k x y) as (j & Hj & Ht); [lia|lia|lia|done|done|]. exfalso. apply Hnk. eapply Hpages; [|by exists (x, y)|done]. lia.
Qed.

(** Chunks return to the free array. *)
Lemma ReturnToAllocator_spec a e mm used c chunks off n rest : alloc_ok a used → env_ok e → 1 ≤ c < kNumClasses (SCM P) →
  0 ≤ off → 0 ≤ n → off + n ≤ Z.of_nat (length chunks) → used c ≡ₚ take (Z.to_nat n) (drop (Z.to_nat off) chunks) ++ rest →
  returns_or (array_stuck a e c n) (ReturnToAllocator P page_size a e mm c chunks off n) (λ '(a', mm'),
    alloc_ok a' (<[c := rest]> used) ∧ same_heap a a' ∧ changes_only c a a' ∧ ∃ rs, Release.released_ mm' = Release.released_ mm ++ rs ∧ spares a (<[c := rest]> used) c rs).
Proof using V HL.
  intros [Hh Ha] Henv Hc Hoff Hn Hlen Hused. destruct (Ha c Hc) as (cs & N & r & Hcl). pose proof Hcl as [Hsz Hcs Hreg Hr Hch]. pose proof (ro_bounds _ _ _ Hr ltac:(lia)) as Hb.
  pose proof (freed_length _ _ _ Hr) as Hfl. set (sl := take (Z.to_nat n) (drop (Z.to_nat off) chunks)) in *. assert (Z.of_nat (length sl) = n) as Hsl by (unfold sl; rewrite length_take, length_drop; lia).
  assert (num_freed_chunks r + n ≤ N) as Hfits.
  { pose proof (Permutation_length Hch) as E. rewrite Hused, !length_app in E. pose proof (compacts_length cs 0 N (ro_N _ _ _ Hr)). lia. }
  destruct (ro_num _ _ _ Hr) as [Hn1 Hn2]. unfold ReturnToAllocator. rewrite (GetRegionInfo_ok _ _ _ _ _ _ Hcl Hc). cbn [mbind result_bind]. destruct (region_beg a c Hh ltac:(lia)) as [-> Hend]. rewrite (cast_id 64 (_ + n)) by lia. pose proof region_facts. assert (0 ≤ R * c) by nia.
  robind (eapply returns_or_mono; [apply (EnsureFreeArraySpace_spec a e r cs N); [done|done|apply Hr|lia|lia|lia|lia|lia]|by apply (array_full a used c cs N r)|intros ? Hx; exact Hx]).
  intros [r1 ok] (m & pad & -> & Harr & Hok). robind (apply (returns_or_CHECK _ _ (λ _, ok = true)); [intros ->; destruct Hok as (_ & ? & ?); exists r; auto|done]). intros _ ->. region_cbn. cbn [free_array set_mapped_free_array] in Hok.
  erewrite (copy_cells chunks (free_array r ++ pad) off (num_freed_chunks r) n); [|lia|lia|lia|lia|lia|done]. fold sl. cbn [mbind result_bind]. rewrite take_app_le by lia. fold (freed r). set (back := drop _ (free_array r ++ pad)). set (r2 := set_stats _ _).
  assert (freed r2 = freed r ++ sl) as Ef by (unfold freed at 1, r2; region_cbn; rewrite app_assoc; apply take_app_length'; rewrite length_app; lia).
  assert (Z.of_nat (length (freed r ++ sl ++ back)) = Z.of_nat (length (free_array r ++ pad))) as El by (rewrite app_assoc, length_app; unfold back; rewrite length_drop, length_app; lia).
  assert (region_ok cs N r2) as Hr2.
  { destruct Hr as [G1 G2 G3 G4 G5 G6], Harr as [A1 A2]. unfold r2. split; region_cbn; try done; [|lia]. cbn [mapped_free_array free_array set_mapped_free_array] in A1, A2. split; region_cbn; lia. }
  destruct (alloc_ok_set a used c cs N r2 rest) as (Ha2 & Hs2 & _); [done|done|done|done|done|by rewrite Ef, <- app_assoc, <- Hused|].
  apply returns_or_returns. eapply returns_mono; [by apply MaybeReleaseToOS_spec|]. intros [a' mm'] (Ha' & Hs' & Hco & rs & Hrs & Hsp). split; [done|]. split; [unfold same_heap in *; cbn in *; intuition congruence|].
  split; [eapply changes_only_trans; [|exact Hco]; apply changes_only_set; lia|]. by exists rs.
Qed.

Lemma ForceReleaseToOS_spec a e used : alloc_ok a used →
  returns (ForceReleaseToOS P page_size a e) (λ '(a', mm'), alloc_ok a' used ∧ same_heap a a' ∧ spares_all a used (Release.released_ mm')).
Proof using V HL.
  intros Ha. pose proof vp_classes. unfold ForceReleaseToOS.
  eapply returns_mono; [apply (returns_for_range (λ _ '(a', mm'), alloc_ok a' used ∧ same_heap a a' ∧ spares_all a used (Release.released_ mm'))); [lia| |]|by intros [a' mm']].
  - split; [done|]. split; [done|]. by intros xy ?%not_elem_of_nil.
  - intros c [a' mm'] Hc (Ha' & Hs & Hsp). eapply returns_mono; [by apply MaybeReleaseToOS_spec|]. intros [a2 mm2] (Ha2 & Hs2 & _ & rs & Hrs & Hsp2). split; [done|]. split; [by eapply same_heap_trans|].
    rewrite Hrs. intros xy [Hx|Hx]%elem_of_app; [by apply Hsp|]. eapply spares_spares_all; [exact Hc| |exact Hx]. by eapply spares_same.
Qed.

End Facts.
End Primary.
