(* ===== verification/LocalCache.v ===== *)
(** * LocalCache: the per-thread cache of the 64-bit allocator

    Models [SizeClassAllocator64LocalCache] of [sanitizer_allocator_local_cache.h] over the
    allocator of [Allocator64], and executions of any number of threads, each with a cache.  A
    cache is memory that starts as zeros.  The theorems: every chunk is at all times in
    exactly one of the free array of its region, one cache, or the hands of the program; the
    blocks handed out are mapped and disjoint; and no page of a block in use is given back to
    the system. *)
From stdpp Require Import functions.
From S2P Require Import Prelude Common SizeClassMap PageRelease Allocator64.
Import SizeClass Primary.

Module Local.

Record PerClass := mkPerClass { count : Z; max_count : Z; class_size : Z; chunks : list Z }.
Record Cache := mkCache { per_class_ : list PerClass; stats_ : AllocatorStats }.
Implicit Types (k : Cache) (a : SizeClassAllocator64) (e : Env).

Section Ops.
Variables (P : Params) (page_size : Z).
Notation K := (kNumClasses (SCM P)).

(** Zeroed memory, and [Init]. *)
Definition new_cache : Cache :=
  mkCache (replicate (Z.to_nat K) (mkPerClass 0 0 0 (replicate (Z.to_nat (2 * kMaxNumCachedHint (SCM P))) 0))) (mkAStats 0 0).

Definition InitCache k (class_id : Z) : result Cache :=
  c ← aget (per_class_ k) class_id;
  if negb (max_count c =? 0) then Ok k
  else
    pcs ← for_range 1 K (λ i pcs,
      c ← aget pcs i;
      size ← ClassIdToSize P i;
      hint ← MaxCachedHint (SCM P) size;
      aset pcs i (mkPerClass (count c) (u32 (2 * hint)) size (chunks c))) (per_class_ k);
    c ← aget pcs class_id;
    CHECK (negb (max_count c =? 0));;
    Ok (mkCache pcs (stats_ k)).

Definition Refill a e k (class_id : Z) : result (SizeClassAllocator64 * Cache * bool) :=
  k ← InitCache k class_id;
  c ← aget (per_class_ k) class_id;
  let num_requested_chunks := max_count c / 2 in
  '(a, stat, cells, ok) ← GetFromAllocator P a e (stats_ k) class_id (chunks c) num_requested_chunks;
  pcs ← aset (per_class_ k) class_id (mkPerClass (if ok : bool then u32 num_requested_chunks else count c) (max_count c) (class_size c) cells);
  Ok (a, mkCache pcs stat, ok).

Definition Drain a e mm k (class_id n : Z) : result (SizeClassAllocator64 * Release.MemoryMapper * Cache) :=
  c ← aget (per_class_ k) class_id;
  CHECK (n <=? count c);;
  let first_idx_to_drain := count c - n in
  pcs ← aset (per_class_ k) class_id (mkPerClass (u32 (count c - n)) (max_count c) (class_size c) (chunks c));
  '(a, mm) ← ReturnToAllocator P page_size a e mm class_id (chunks c) first_idx_to_drain n;
  Ok (a, mm, mkCache pcs (stats_ k)).

Definition DrainHalfMax a e k (class_id : Z) : result (SizeClassAllocator64 * Release.MemoryMapper * Cache) :=
  c ← aget (per_class_ k) class_id;
  Drain a e Release.new_MemoryMapper k class_id (max_count c / 2).

(** [while (c->count > 0) Drain(..., c->count)]. *)
Fixpoint drain_class (fuel : nat) a e mm k (class_id : Z) : result (SizeClassAllocator64 * Release.MemoryMapper * Cache) :=
  match fuel with
  | O => Fault OutOfFuel
  | S fuel =>
      c ← aget (per_class_ k) class_id;
      if 0 <? count c then '(a, mm, k) ← Drain a e mm k class_id (count c); drain_class fuel a e mm k class_id
      else Ok (a, mm, k)
  end.

Definition DrainAll a e k : result (SizeClassAllocator64 * Release.MemoryMapper * Cache) :=
  for_range 1 K (λ i '(a, mm, k), drain_class 2 a e mm k i) (a, Release.new_MemoryMapper, k).

(** [None] is [nullptr]. *)
Definition Allocate a e k (class_id : Z) : result (SizeClassAllocator64 * Cache * option Z) :=
  CHECK (negb (class_id =? 0));;
  CHECK (class_id <? K);;
  c ← aget (per_class_ k) class_id;
  '(a, k, ok) ←
    (if count c =? 0 then
       '(a, k, ok) ← Refill a e k class_id;
       c ← aget (per_class_ k) class_id;
       CHECK (negb ok || (0 <? count c));;
       Ok (a, k, ok)
     else Ok (a, k, true));
  if negb ok then Ok (a, k, None)
  else
    c ← aget (per_class_ k) class_id;
    chunk ← aget (chunks c) (count c - 1);
    pcs ← aset (per_class_ k) class_id (mkPerClass (u32 (count c - 1)) (max_count c) (class_size c) (chunks c));
    let s := stats_ k in
    Ok (a, mkCache pcs (mkAStats (u64 (StatAllocated s + class_size c)) (StatMapped s)),
        Some (Release.CompactPtrToPointer (GetRegionBeginBySizeClass P a class_id) chunk)).

Definition Deallocate a e k (class_id p : Z) : result (SizeClassAllocator64 * Release.MemoryMapper * Cache) :=
  CHECK (negb (class_id =? 0));;
  CHECK (class_id <? K);;
  k ← InitCache k class_id;
  c ← aget (per_class_ k) class_id;
  '(a, mm, k) ← (if count c =? max_count c then DrainHalfMax a e k class_id else Ok (a, Release.new_MemoryMapper, k));
  c ← aget (per_class_ k) class_id;
  let chunk := PointerToCompactPtr (GetRegionBeginBySizeClass P a class_id) p in
  cells ← aset (chunks c) (count c) chunk;
  pcs ← aset (per_class_ k) class_id (mkPerClass (u32 (count c + 1)) (max_count c) (class_size c) cells);
  let s := stats_ k in
  Ok (a, mm, mkCache pcs (mkAStats (u64 (StatAllocated s - class_size c)) (StatMapped s))).

End Ops.

(** ** The invariant of a cache *)
Section Facts.
Context (P : Params) {V : ValidParams P}.
Notation K := (kNumClasses (SCM P)).
Notation hint := (kMaxNumCachedHint (SCM P)).

Record pc_ok (c : Z) (pc : PerClass) : Prop := {
  pc_cells : Z.of_nat (length (chunks pc)) = 2 * hint;
  pc_count : 0 ≤ count pc ≤ max_count pc;
  pc_max : max_count pc = 0 ∨ ∃ cs h, Size (SCM P) c = Ok (16 * cs) ∧ MaxCachedHint (SCM P) (16 * cs) = Ok h ∧ 1 ≤ h ≤ hint ∧ max_count pc = 2 * h ∧ class_size pc = 16 * cs
}.

Definition cache_ok k : Prop := Z.of_nat (length (per_class_ k)) = K ∧ ∀ c, 1 ≤ c < K → ∃ pc, per_class_ k !! Z.to_nat c = Some pc ∧ pc_ok c pc.

Definition contents (pc : PerClass) : list Z := take (Z.to_nat (count pc)) (chunks pc).
(** The chunks of a class in a cache. *)
Definition cached k (c : Z) : list Z := match per_class_ k !! Z.to_nat c with Some pc => contents pc | None => [] end.

Lemma aget_class (pcs : list PerClass) c pc : 1 ≤ c → pcs !! Z.to_nat c = Some pc → aget pcs c = Ok pc.
Proof using Type. intros Hc Hpc. apply aget_Ok. split; [lia|done]. Qed.

Lemma pc_bounds c pc : pc_ok c pc → 0 ≤ count pc ≤ max_count pc ∧ max_count pc ≤ 2 * hint ∧ 2 * hint < 2 ^ 26.
Proof using V. intros [H1 H2 H3]. pose proof vp_hint. destruct H3 as [?|(cs & h & _ & _ & ? & ? & _)]; lia. Qed.

(** Replacing one class. *)
Lemma set_class k c pc' s : cache_ok k → 1 ≤ c < K → pc_ok c pc' →
  ∃ pcs, aset (per_class_ k) c pc' = Ok pcs ∧ cache_ok (mkCache pcs s) ∧ pcs !! Z.to_nat c = Some pc' ∧ ∀ c', cached (mkCache pcs s) c' = (<[c := contents pc']> (cached k)) c'.
Proof using Type.
  intros [Hlen Hk] Hc Hpc. rewrite aset_Ok by lia. eexists. split; [done|]. assert (<[Z.to_nat c := pc']> (per_class_ k) !! Z.to_nat c = Some pc') as Hsame by (apply list_lookup_insert_eq; lia).
  split; [|split; [done|]].
  - split; cbn; [by rewrite length_insert|]. intros c' Hc'. destruct (decide (c' = c)) as [->|Hne]; [by exists pc'|]. rewrite list_lookup_insert_ne by lia. by apply Hk.
  - intros c'. unfold cached at 1. cbn. destruct (decide (c' = c)) as [->|Hne]; [by rewrite Hsame, fn_lookup_insert|]. rewrite list_lookup_insert_ne by lia. by rewrite fn_lookup_insert_ne.
Qed.

Lemma InitCache_spec k c : cache_ok k → 1 ≤ c < K →
  returns (InitCache P k c) (λ k', cache_ok k' ∧ (∀ c', cached k' c' = cached k c') ∧ ∃ pc, per_class_ k' !! Z.to_nat c = Some pc ∧ pc_ok c pc ∧ max_count pc ≠ 0).
Proof using V.
  intros Hk Hc. destruct (proj2 Hk c Hc) as (pc & Hpc & Hpok). unfold InitCache. rewrite (aget_class _ _ _ (proj1 Hc) Hpc). cbn [mbind result_bind].
  destruct (Z.eqb_spec (max_count pc) 0) as [E|E]; cbn [negb]; [|split; [done|]; split; [done|]; by exists pc].
  eapply (returns_bind _ _ (λ pcs, cache_ok (mkCache pcs (stats_ k)) ∧ (∀ c', cached (mkCache pcs (stats_ k)) c' = cached k c') ∧
    ∀ c' pc, 1 ≤ c' < K → pcs !! Z.to_nat c' = Some pc → max_count pc ≠ 0)).
  - apply (returns_for_range (λ i pcs, cache_ok (mkCache pcs (stats_ k)) ∧ (∀ c', cached (mkCache pcs (stats_ k)) c' = cached k c') ∧
      ∀ c' pc, 1 ≤ c' < i → pcs !! Z.to_nat c' = Some pc → max_count pc ≠ 0)); [lia| |].
    + destruct k; cbn. split; [done|]. split; [done|lia].
    + intros i pcs Hi (Hok & Hsame & Hset). destruct (proj2 Hok i Hi) as (pi & Hpi & [Q1 Q2 Q3]). cbn [per_class_] in Hpi. rewrite (aget_class pcs i pi) by (lia || done). cbn [mbind result_bind].
      destruct (vp_size i Hi) as (cs & h & Hsz & Hcs & Hh & Hhr). pose proof vp_hint. unfold ClassIdToSize. rewrite Hsz. cbn [mbind result_bind]. rewrite Hh. cbn [mbind result_bind]. rewrite cast_id by lia.
      destruct (set_class (mkCache pcs (stats_ k)) i (mkPerClass (count pi) (2 * h) (16 * cs) (chunks pi)) (stats_ k)) as (pcs' & Ea & Hok' & Hl' & Hc'); [done|done| |].
      { split; cbn; [done| |right; exists cs, h; done]. destruct Q3 as [?|(cs' & h' & Hsz' & Hh' & ? & ? & _)]; [lia|]. assert (cs' = cs) as -> by (rewrite Hsz in Hsz'; injection Hsz'; lia). rewrite Hh in Hh'. injection Hh' as ->. lia. }
      cbn in Ea. rewrite Ea. cbn [returns]. split; [done|]. split.
      * intros c'. rewrite Hc'. destruct (decide (c' = i)) as [->|Hne]; [|by rewrite fn_lookup_insert_ne]. rewrite fn_lookup_insert, <- Hsame. unfold cached. cbn. by rewrite Hpi.
      * intros c' pc' Hr Hl. destruct (decide (c' = i)) as [->|Hne]; [rewrite Hl' in Hl; injection Hl as <-; cbn; lia|]. apply (Hset c'); [lia|]. rewrite aset_Ok in Ea by (destruct Hok as [Hlen _]; cbn in Hlen; lia). injection Ea as <-. by rewrite list_lookup_insert_ne in Hl by lia.
  - intros pcs (Hok & Hsame & Hset). destruct (proj2 Hok c Hc) as (pc' & Hpc' & Hpok'). rewrite (aget_class pcs c pc') by (lia || done). cbn [mbind result_bind]. pose proof (Hset c pc' Hc Hpc') as Hne.
    rewrite (proj2 (Z.eqb_neq _ _) Hne). cbn. split; [done|]. split; [done|]. by exists pc'.
Qed.

(** ** The operations

    [others c]: the chunks of class [c] in use outside this cache. *)
Notation in_use k others := (λ c, cached k c ++ others c).

Lemma in_use_same k k' others a : (∀ c, cached k' c = cached k c) → alloc_ok P a (in_use k others) → alloc_ok P a (in_use k' others).
Proof using Type. intros H. apply alloc_ok_perm. intros c _. by rewrite H. Qed.

Lemma contents_split n pc c : pc_ok c pc → 0 ≤ n ≤ count pc → Z.of_nat (length (contents pc)) = count pc ∧
  contents pc = take (Z.to_nat n) (chunks pc) ++ take (Z.to_nat (count pc - n)) (drop (Z.to_nat n) (chunks pc)).
Proof using V.
  intros Hpc Hn. pose proof (pc_bounds _ _ Hpc) as Hb. pose proof (pc_cells _ _ Hpc). unfold contents. rewrite length_take. split; [lia|]. rewrite take_take_drop. f_equal. lia.
Qed.

(** The number of chunks of a class in a cache. *)
Definition cached_count k (c : Z) : Z := Z.of_nat (length (cached k c)).

Lemma cached_count_eq k c pc : per_class_ k !! Z.to_nat c = Some pc → pc_ok c pc → cached_count k c = count pc.
Proof using V. intros Hpc Hok. unfold cached_count, cached. rewrite Hpc. apply (contents_split 0 pc c Hok). pose proof (pc_count _ _ Hok). lia. Qed.

(** Only class [c] of the cache changes. *)
Definition caches_only (c : Z) k k' : Prop := ∀ c', c' ≠ c → cached k' c' = cached k c'.

(** Why a refill can fail. *)
Definition out_of_memory a e a' (c : Z) : Prop := map_fails a e ∨ ∃ r', RegionInfos a' !! Z.to_nat c = Some r' ∧ exhausted r' = true.

Lemma Refill_spec a e k c others : alloc_ok P a (in_use k others) → env_ok e → cache_ok k → 1 ≤ c < K → cached k c = [] →
  returns (Refill P a e k c) (λ '(a', k', ok), same_heap a a' ∧ cache_ok k' ∧ alloc_ok P a' (in_use k' others) ∧
    ∃ pc, per_class_ k' !! Z.to_nat c = Some pc ∧ if ok : bool then 0 < count pc else out_of_memory a e a' c).
Proof using V.
  intros Ha Henv Hk Hc Hnil. unfold Refill. rbind (by apply InitCache_spec). intros k1 (Hk1 & Hsame & pc & Hpc & Hpok & Hne).
  rewrite (aget_class _ _ _ (proj1 Hc) Hpc). cbn [mbind result_bind]. pose proof (pc_bounds _ _ Hpok) as Hb. destruct Hpok as [Q1 Q2 [?|(cs & h & Hsz & Hh & Hhr & Em & Ecs)]]; [done|]. rewrite Em.
  assert (2 * h / 2 = h) as -> by (rewrite Z.mul_comm; by apply Z.div_mul).
  rbind (apply (GetFromAllocator_spec P a e (stats_ k1) (in_use k1 others) c (chunks pc) h); [by eapply in_use_same|done|done|lia|lia]).
  intros [[[a' stat] cells] ok] (Hs & Hok). destruct ok.
  - destruct Hok as (got & Hgl & -> & Ha'). rewrite cast_id by lia.
    destruct (set_class k1 c (mkPerClass h (2 * h) (class_size pc) (got ++ drop (Z.to_nat h) (chunks pc))) stat) as (pcs & -> & Hk' & Hl & Hc'); [done|done| |].
    { split; cbn; [rewrite length_app, length_drop; lia|lia|right; exists cs, h; done]. }
    cbn. split; [done|]. split; [done|]. split; [|eexists; split; [done|cbn; lia]]. revert Ha'. apply alloc_ok_perm. intros c' _. rewrite Hc'. destruct (decide (c' = c)) as [->|Hd].
    + rewrite !fn_lookup_insert, Hsame, Hnil. unfold contents. cbn. rewrite take_app_length' by lia. done.
    + by rewrite !fn_lookup_insert_ne.
  - destruct Hok as (-> & Ha' & Hwhy). destruct (set_class k1 c (mkPerClass (count pc) (2 * h) (class_size pc) (chunks pc)) stat) as (pcs & -> & Hk' & Hl & Hc'); [done|done| |].
    { split; cbn; [done|lia|right; exists cs, h; done]. }
    cbn. split; [done|]. split; [done|]. split; [|by eexists]. eapply in_use_same; [|exact Ha']. intros c'. rewrite Hc'. destruct (decide (c' = c)) as [->|Hd]; [|by rewrite fn_lookup_insert_ne]. rewrite fn_lookup_insert. unfold cached. by rewrite Hpc.
Qed.

Lemma Allocate_spec a e k c others : alloc_ok P a (in_use k others) → env_ok e → cache_ok k → 1 ≤ c < K →
  returns (Allocate P a e k c) (λ '(a', k', p), same_heap a a' ∧ cache_ok k' ∧
    match p with
    | Some p => ∃ q, p = Release.CompactPtrToPointer (GetRegionBeginBySizeClass P a c) q ∧ alloc_ok P a' (in_use k' (<[c := q :: others c]> others))
    | None => alloc_ok P a' (in_use k' others) ∧ out_of_memory a e a' c
    end).
Proof using V.
  intros Ha Henv Hk Hc. unfold Allocate. rewrite (proj2 (Z.eqb_neq c 0)), (proj2 (Z.ltb_lt c K)) by lia. cbn [CHECK negb mbind result_bind].
  destruct (proj2 Hk c Hc) as (pc & Hpc & Hpok). rewrite (aget_class _ _ _ (proj1 Hc) Hpc). cbn [mbind result_bind].
  eapply (returns_bind _ _ (λ '(a', k', ok), same_heap a a' ∧ cache_ok k' ∧ alloc_ok P a' (in_use k' others) ∧
    ∃ pc, per_class_ k' !! Z.to_nat c = Some pc ∧ if ok : bool then 0 < count pc else out_of_memory a e a' c)).
  { pose proof (pc_count _ _ Hpok). destruct (Z.eqb_spec (count pc) 0) as [E|E]; [|cbn; split; [done|]; split; [done|]; split; [done|]; exists pc; split; [done|lia]].
    rbind (apply Refill_spec; [done|done|done|done|unfold cached; rewrite Hpc; unfold contents; by rewrite E]). intros [[a' k'] ok] (Hs & Hk' & Ha' & pc' & Hpc' & Hok). rewrite (aget_class _ _ _ (proj1 Hc) Hpc'). cbn [mbind result_bind].
    destruct ok; cbn [negb orb]; [rewrite (proj2 (Z.ltb_lt 0 _) Hok)|]; cbn; eauto 10. }
  intros [[a' k'] ok] (Hs & Hk' & Ha' & pc' & Hpc' & Hok). destruct ok; cbn [negb]; [|done].
  rewrite (aget_class _ _ _ (proj1 Hc) Hpc'). cbn [mbind result_bind]. destruct (proj2 Hk' c Hc) as (pc2 & Hpc2 & Hpok'). rewrite Hpc' in Hpc2. injection Hpc2 as <-.
  pose proof (pc_bounds _ _ Hpok') as Hb. destruct (contents_split (count pc' - 1) pc' c Hpok' ltac:(lia)) as [_ Hsplit]. pose proof (pc_cells _ _ Hpok') as Hcells. destruct (lookup_lt_is_Some_2 (chunks pc') (Z.to_nat (count pc' - 1))) as [q Hq]; [lia|].
  rewrite (proj2 (aget_Ok _ _ q)) by (split; [lia|done]). cbn [mbind result_bind]. rewrite (cast_id 32) by lia.
  destruct (set_class k' c (mkPerClass (count pc' - 1) (max_count pc') (class_size pc') (chunks pc')) (mkAStats (u64 (StatAllocated (stats_ k') + class_size pc')) (StatMapped (stats_ k')))) as (pcs & -> & Hk2 & Hl & Hc'); [done|done| |].
  { destruct Hpok' as [Q1 Q2 Q3]. split; cbn; [done|lia|done]. }
  cbn [mbind result_bind returns]. split; [done|]. split; [done|]. exists q. split.
  { unfold GetRegionBeginBySizeClass, SpaceBeg. destruct Hs as (-> & _). done. }
  revert Ha'. apply alloc_ok_perm. intros c' _. rewrite Hc'. destruct (decide (c' = c)) as [->|Hd]; [|by rewrite !fn_lookup_insert_ne]. rewrite !fn_lookup_insert. unfold cached. rewrite Hpc', Hsplit.
  replace (count pc' - (count pc' - 1)) with 1 by lia. rewrite (drop_S _ q) by done. unfold contents. cbn. rewrite <- app_assoc. done.
Qed.

Context (L : Z) (HL : 0 ≤ L ≤ 12).
Notation page_size := (16 * 2 ^ L).

Lemma cache_Drain_spec a e mm k c pc n others : alloc_ok P a (in_use k others) → env_ok e → cache_ok k → 1 ≤ c < K → per_class_ k !! Z.to_nat c = Some pc → 0 ≤ n ≤ count pc →
  returns_or (array_stuck P a e c n) (Drain P page_size a e mm k c n) (λ '(a', mm', k'), same_heap a a' ∧ changes_only c a a' ∧ caches_only c k k' ∧ cache_ok k' ∧ alloc_ok P a' (in_use k' others) ∧
    (∃ rs, Release.released_ mm' = Release.released_ mm ++ rs ∧ spares P a (in_use k' others) c rs) ∧
    per_class_ k' !! Z.to_nat c = Some (mkPerClass (count pc - n) (max_count pc) (class_size pc) (chunks pc))).
Proof using V HL.
  intros Ha Henv Hk Hc Hpc Hn. destruct (proj2 Hk c Hc) as (pc' & Hpc' & Hpok). rewrite Hpc in Hpc'. injection Hpc' as <-. pose proof (pc_bounds _ _ Hpok) as Hb. pose proof (pc_cells _ _ Hpok) as Hcells.
  unfold Drain. rewrite (aget_class _ _ _ (proj1 Hc) Hpc). cbn [mbind result_bind]. rewrite (proj2 (Z.leb_le n _)) by lia. cbn [CHECK mbind result_bind]. rewrite cast_id by lia.
  destruct (set_class k c (mkPerClass (count pc - n) (max_count pc) (class_size pc) (chunks pc)) (stats_ k)) as (pcs & -> & Hk' & Hl & Hc'); [done|done| |].
  { destruct Hpok as [Q1 Q2 Q3]. split; cbn; [done|lia|done]. }
  cbn [mbind result_bind]. destruct (contents_split (count pc - n) pc c Hpok ltac:(lia)) as [_ Hsplit]. replace (count pc - (count pc - n)) with n in Hsplit by lia. set (keep := take (Z.to_nat (count pc - n)) (chunks pc)) in *.
  robind (apply (ReturnToAllocator_spec P L HL a e mm (in_use k others) c (chunks pc) (count pc - n) n (keep ++ others c)); [done|done|done|lia|lia|lia|]; unfold cached; rewrite Hpc, Hsplit; rewrite (Permutation_app_comm keep), <- app_assoc; done).
  intros [a' mm'] (Ha' & Hs & Hco & rs & Hrs & Hsp). cbn [returns_or].
  assert (∀ c', (<[c := keep ++ others c]> (in_use k others)) c' = cached (mkCache pcs (stats_ k)) c' ++ others c') as Hu.
  { intros c'. rewrite Hc'. destruct (decide (c' = c)) as [->|Hd]; [by rewrite !fn_lookup_insert|by rewrite !fn_lookup_insert_ne]. }
  split; [done|]. split; [done|]. split; [intros c' Hne; rewrite Hc'; by rewrite fn_lookup_insert_ne|]. split; [done|]. split; [revert Ha'; apply alloc_ok_perm; intros c' _; by rewrite Hu|]. split; [|done]. exists rs. split; [done|]. revert Hsp. apply spares_mono. intros p. by rewrite Hu.
Qed.

Lemma drain_class_spec a e mm k c others : alloc_ok P a (in_use k others) → env_ok e → cache_ok k → 1 ≤ c < K →
  returns_or (array_stuck P a e c (cached_count k c)) (drain_class P page_size 2 a e mm k c) (λ '(a', mm', k'), same_heap a a' ∧ changes_only c a a' ∧ caches_only c k k' ∧ cache_ok k' ∧ alloc_ok P a' (in_use k' others) ∧
    ∃ rs, Release.released_ mm' = Release.released_ mm ++ rs ∧ spares P a others c rs).
Proof using V HL.
  intros Ha Henv Hk Hc. destruct (proj2 Hk c Hc) as (pc & Hpc & Hpok). pose proof (pc_count _ _ Hpok) as Hcount. cbn [drain_class]. rewrite (aget_class _ _ _ (proj1 Hc) Hpc). cbn [mbind result_bind].
  destruct (Z.ltb_spec 0 (count pc)) as [Hpos|Hz].
  2: { cbn. split; [done|]. split; [done|]. split; [done|]. split; [done|]. split; [done|]. exists []. rewrite app_nil_r. split; [done|]. by intros xy ?%not_elem_of_nil. }
  rewrite (cached_count_eq k c pc Hpc Hpok). robind (apply (cache_Drain_spec a e mm k c pc (count pc) others); [done|done|done|done|done|lia]). intros [[a' mm'] k'] (Hs & Hco & Hno & Hk' & Ha' & (rs & Hrs & Hsp) & Hpc').
  rewrite (aget_class _ _ _ (proj1 Hc) Hpc'). cbn [mbind result_bind count]. rewrite Z.sub_diag. cbn. split; [done|]. split; [done|]. split; [done|]. split; [done|]. split; [done|]. exists rs. split; [done|]. revert Hsp. apply spares_mono. intros p Hp. apply elem_of_app. by right.
Qed.

Lemma stuck_same a a' e c n : same_heap a a' → RegionInfos a' !! Z.to_nat c = RegionInfos a !! Z.to_nat c → array_stuck P a' e c n → array_stuck P a e c n.
Proof using Type. intros (_ & Hp & _) Er (r & Hr & Hlt & Hwhy). exists r. rewrite <- Er. split; [done|]. split; [done|]. unfold map_fails in *. by rewrite <- Hp. Qed.

Lemma DrainAll_spec a e k others : alloc_ok P a (in_use k others) → env_ok e → cache_ok k →
  returns_or (∃ c, 1 ≤ c < K ∧ array_stuck P a e c (cached_count k c)) (DrainAll P page_size a e k) (λ '(a', mm', k'), same_heap a a' ∧ cache_ok k' ∧ alloc_ok P a' (in_use k' others) ∧
    spares_all P a others (Release.released_ mm')).
Proof using V HL.
  intros Ha Henv Hk. pose proof vp_classes as [HK _]. unfold DrainAll.
  eapply returns_or_mono; [apply (returns_or_for_range _ (λ i '(a', mm', k'), (same_heap a a' ∧ cache_ok k' ∧ alloc_ok P a' (in_use k' others) ∧ spares_all P a others (Release.released_ mm')) ∧
    ∀ c, i ≤ c → RegionInfos a' !! Z.to_nat c = RegionInfos a !! Z.to_nat c ∧ cached k' c = cached k c)); [lia| |]|done|intros [[a' mm'] k'] [H _]; exact H].
  - split; [|done]. split; [done|]. split; [done|]. split; [done|]. by intros xy ?%not_elem_of_nil.
  - intros c [[a' mm'] k'] Hc [(Hs & Hk' & Ha' & Hsp) Hrest]. destruct (Hrest c ltac:(lia)) as [Er Ek]. eapply returns_or_mono; [by apply drain_class_spec| |].
    + intros Hst. exists c. split; [done|]. unfold cached_count in *. rewrite Ek in Hst. by apply (stuck_same a a').
    + intros [[a2 mm2] k2] (Hs2 & Hco & Hno & Hk2 & Ha2 & rs & Hrs & Hsp2). split.
      * split; [by eapply same_heap_trans|]. split; [done|]. split; [done|]. rewrite Hrs. intros xy [Hx|Hx]%elem_of_app; [by apply Hsp|].
        eapply spares_spares_all; [exact Hc| |exact Hx]. by eapply spares_same.
      * intros c' Hc'. destruct (Hrest c' ltac:(lia)) as [Er' Ek']. rewrite Hco, Hno by lia. done.
Qed.

Lemma Deallocate_spec a e k c p q others : alloc_ok P a (in_use k (<[c := q :: others c]> others)) → env_ok e → cache_ok k → 1 ≤ c < K →
  PointerToCompactPtr (GetRegionBeginBySizeClass P a c) p = q →
  returns_or (∃ pc, per_class_ k !! Z.to_nat c = Some pc ∧ 0 < count pc ∧ count pc = max_count pc ∧ array_stuck P a e c (count pc / 2)) (Deallocate P page_size a e k c p) (λ '(a', mm', k'), same_heap a a' ∧ cache_ok k' ∧ alloc_ok P a' (in_use k' others) ∧
    spares_all P a others (Release.released_ mm')).
Proof using V HL.
  intros Ha Henv Hk Hc Hq. set (more := <[c := q :: others c]> others) in *. unfold Deallocate. rewrite (proj2 (Z.eqb_neq c 0)), (proj2 (Z.ltb_lt c K)) by lia. cbn [CHECK negb mbind result_bind].
  destruct (proj2 Hk c Hc) as (pc0 & Hpc0 & Hpok0). robind (by apply returns_or_returns, InitCache_spec). intros k1 (Hk1 & Hsame & pc & Hpc & Hpok & Hne). rewrite (aget_class _ _ _ (proj1 Hc) Hpc). cbn [mbind result_bind].
  apply (in_use_same k k1 more a Hsame) in Ha. pose proof (pc_bounds _ _ Hpok) as Hb.
  eapply (returns_or_bind _ _ _ (λ '(a', mm', k'), same_heap a a' ∧ cache_ok k' ∧ alloc_ok P a' (in_use k' more) ∧ spares_all P a others (Release.released_ mm') ∧
    ∃ pc, per_class_ k' !! Z.to_nat c = Some pc ∧ count pc < max_count pc)).
  { destruct (Z.eqb_spec (count pc) (max_count pc)) as [E|E].
    2: { cbn. split; [done|]. split; [done|]. split; [done|]. split; [by intros xy ?%not_elem_of_nil|]. exists pc. split; [done|lia]. }
    unfold DrainHalfMax. rewrite (aget_class _ _ _ (proj1 Hc) Hpc). cbn [mbind result_bind]. destruct (pc_max _ _ Hpok) as [?|(cs & h & Hsz & Hh0 & Hh & Em & _)]; [done|].
    assert (array_stuck P a e c h → ∃ pc, per_class_ k !! Z.to_nat c = Some pc ∧ 0 < count pc ∧ count pc = max_count pc ∧ array_stuck P a e c (count pc / 2)) as Hfull.
    { intros Hst. exists pc0. pose proof (cached_count_eq k c pc0 Hpc0 Hpok0) as E0. pose proof (cached_count_eq k1 c pc Hpc Hpok) as E1. unfold cached_count in E0, E1. rewrite Hsame in E1.
      split; [done|]. split; [lia|]. assert (count pc0 = 2 * h) as -> by lia. split; [|by rewrite Z.mul_comm, Z.div_mul].
      destruct (pc_max _ _ Hpok0) as [?|(cs' & h' & Hsz' & Hh' & _ & -> & _)]; [pose proof (pc_count _ _ Hpok0); lia|]. rewrite Hsz in Hsz'. injection Hsz' as Ecs. assert (cs' = cs) as -> by lia. rewrite Hh0 in Hh'. by injection Hh' as ->. }
    rewrite Em. replace (2 * h / 2) with h by (rewrite Z.mul_comm; by rewrite Z.div_mul).
    eapply returns_or_mono; [apply (cache_Drain_spec a e _ k1 c pc h more); [done|done|done|done|done|lia]|by apply Hfull|]. intros [[a' mm'] k'] (Hs & _ & _ & Hk' & Ha' & (rs & Hrs & Hsp) & Hpc'). split; [done|]. split; [done|]. split; [done|].
    split; [|eexists; split; [done|cbn; lia]]. rewrite Hrs. cbn. eapply spares_spares_all; [done|]. revert Hsp. apply spares_mono. intros x Hx. apply elem_of_app. right. unfold more. rewrite fn_lookup_insert. by right. }
  intros [[a' mm'] k'] (Hs & Hk' & Ha' & Hsp & pc' & Hpc' & Hlt). rewrite (aget_class _ _ _ (proj1 Hc) Hpc'). cbn [mbind result_bind].
  assert (GetRegionBeginBySizeClass P a' c = GetRegionBeginBySizeClass P a c) as -> by (unfold GetRegionBeginBySizeClass, SpaceBeg; by destruct Hs as (-> & _)). rewrite Hq.
  destruct (proj2 Hk' c Hc) as (pc2 & Hpc2 & Hpok'). rewrite Hpc' in Hpc2. injection Hpc2 as <-. pose proof (pc_bounds _ _ Hpok') as Hb'. pose proof (pc_cells _ _ Hpok') as Hcells'. rewrite aset_Ok by lia. cbn [mbind result_bind]. rewrite (cast_id 32) by lia.
  destruct (set_class k' c (mkPerClass (count pc' + 1) (max_count pc') (class_size pc') (<[Z.to_nat (count pc') := q]> (chunks pc'))) (mkAStats (u64 (StatAllocated (stats_ k') - class_size pc')) (StatMapped (stats_ k')))) as (pcs & -> & Hk2 & Hl & Hc'); [done|done| |].
  { destruct Hpok' as [Q1 Q2 Q3]. split; cbn; [by rewrite length_insert|lia|done]. }
  cbn [mbind result_bind returns_or]. split; [done|]. split; [done|]. split; [|done]. revert Ha'. apply alloc_ok_perm. intros c' _. rewrite Hc'. unfold more. destruct (decide (c' = c)) as [->|Hd]; [|by rewrite !fn_lookup_insert_ne]. rewrite !fn_lookup_insert. unfold cached. rewrite Hpc'. unfold contents. cbn.
  replace (Z.to_nat (count pc' + 1)) with (S (Z.to_nat (count pc'))) by lia. rewrite (take_S_r _ _ q) by (apply list_lookup_insert_eq; lia). rewrite take_insert_ge by lia. by rewrite <- app_assoc.
Qed.

End Facts.

(** ** Executions

    Threads with their caches over one allocator; [live]: the blocks, as class and
    address, that the program holds. *)
Record System := mkSystem { alloc : SizeClassAllocator64; caches : list Cache; live : list (Z * Z) }.
Implicit Types (s : System).

(** Without the first occurrence. *)
Definition remove_one (x : Z * Z) (l : list (Z * Z)) : list (Z * Z) :=
  match list_find (λ y, y = x) l with Some (i, _) => delete i l | None => l end.

Lemma remove_one_perm x l : x ∈ l → l ≡ₚ x :: remove_one x l.
Proof.
  intros Hx. unfold remove_one. destruct (list_find (λ y, y = x) l) as [[i y]|] eqn:E.
  - apply list_find_Some in E as (Hy & -> & _). by apply delete_Permutation.
  - rewrite list_find_None in E. rewrite Forall_forall in E. by destruct (E x).
Qed.

Lemma delete_insert_same {A} (l : list A) i x : delete i (<[i := x]> l) = delete i l.
Proof. revert i. induction l as [|y l IH]; intros [|i]; cbn; [done|done|done|]. f_equal. apply IH. Qed.

Inductive op := OpAllocate (t : nat) (class_id : Z) | OpDeallocate (t : nat) (class_id p : Z) | OpDrain (t : nat) | OpForceRelease.

Section Exec.
Variables (P : Params) (page_size : Z).

(** An operation: the new state, the address returned and the ranges released. *)
Definition step e (o : op) s : result (System * option Z * list (Z * Z)) :=
  match o with
  | OpAllocate t c =>
      k ← aget (caches s) (Z.of_nat t);
      '(a, k, p) ← Allocate P (alloc s) e k c;
      Ok (mkSystem a (<[t := k]> (caches s)) (match p with Some p => (c, p) :: live s | None => live s end), p, [])
  | OpDeallocate t c p =>
      k ← aget (caches s) (Z.of_nat t);
      '(a, mm, k) ← Deallocate P page_size (alloc s) e k c p;
      Ok (mkSystem a (<[t := k]> (caches s)) (remove_one (c, p) (live s)), None, Release.released_ mm)
  | OpDrain t =>
      k ← aget (caches s) (Z.of_nat t);
      '(a, mm, k) ← DrainAll P page_size (alloc s) e k;
      Ok (mkSystem a (<[t := k]> (caches s)) (live s), None, Release.released_ mm)
  | OpForceRelease =>
      '(a, mm) ← ForceReleaseToOS P page_size (alloc s) e;
      Ok (mkSystem a (caches s) (live s), None, Release.released_ mm)
  end.

(** The program allocates from a class and frees what it holds. *)
Definition legal s (o : op) : Prop :=
  match o with
  | OpAllocate t c => (t < length (caches s))%nat ∧ 1 ≤ c < kNumClasses (SCM P)
  | OpDeallocate t c p => (t < length (caches s))%nat ∧ (c, p) ∈ live s
  | OpDrain t => (t < length (caches s))%nat
  | OpForceRelease => True
  end.

(** The space that the system reserves lies in the addresses of a process. *)
Definition good_space a : Prop := 0 < SpaceBeg P a ∧ SpaceBeg P a + kSpaceSize P + 2 ^ 36 < 2 ^ 64.

Inductive reachable : System → Prop :=
  | reach_init interval heap_start reserved mapped a threads : Init P interval heap_start reserved mapped = Ok a → good_space a →
      reachable (mkSystem a (replicate threads (new_cache P)) [])
  | reach_step e o s s' p rs : reachable s → env_ok e → legal s o → step e o s = Ok (s', p, rs) → reachable s'.

End Exec.

Section System.
Context (P : Params) {V : ValidParams P} (L : Z) (HL : 0 ≤ L ≤ 12).
Notation K := (kNumClasses (SCM P)).
Notation R := (kRegionSize P).
Notation page_size := (16 * 2 ^ L).

(** The chunks of a class that the program holds, and all that are not in the free array. *)
Definition live_chunks s (c : Z) : list Z :=
  omap (λ '(c', p), if decide (c' = c) then Some (PointerToCompactPtr (SpaceBeg P (alloc s) + R * c) p) else None) (live s).
Definition cached_by (ks : list Cache) (c : Z) : list Z := k ← ks; cached k c.
Definition used s (c : Z) : list Z := cached_by (caches s) c ++ live_chunks s c.

Record sys_ok s : Prop := {
  so_alloc : alloc_ok P (alloc s) (used s);
  so_caches k : k ∈ caches s → cache_ok P k;
  so_live c p : (c, p) ∈ live s → 1 ≤ c < K ∧ p = SpaceBeg P (alloc s) + R * c + 16 * PointerToCompactPtr (SpaceBeg P (alloc s) + R * c) p
}.

(** Everything but the cache of one thread. *)
Definition others s (t : nat) (c : Z) : list Z := cached_by (delete t (caches s)) c ++ live_chunks s c.

Lemma cached_by_thread ks t k c : ks !! t = Some k → cached_by ks c ≡ₚ cached k c ++ cached_by (delete t ks) c.
Proof using Type. intros Hk. unfold cached_by. change (cached k c ++ _) with ((k :: delete t ks) ≫= λ k, cached k c). apply bind_Permutation. by apply delete_Permutation. Qed.

Lemma cached_by_set ks t k k' c : ks !! t = Some k → cached_by (<[t := k']> ks) c ≡ₚ cached k' c ++ cached_by (delete t ks) c.
Proof using Type.
  intros Hk. rewrite (cached_by_thread _ t k') by (apply list_lookup_insert_eq; by eapply lookup_lt_Some). by rewrite delete_insert_same.
Qed.

(** ** What the allocator promises *)
(** The blocks do not meet. *)
Definition apart (c p c' p' : Z) : Prop := ∀ n n', Size (SCM P) c = Ok n → Size (SCM P) c' = Ok n' → p + n ≤ p' ∨ p' + n' ≤ p.
(** The block is a chunk of the mapped memory of its class. *)
Definition mapped_block s (c p : Z) : Prop := ∃ r n i, RegionInfos (alloc s) !! Z.to_nat c = Some r ∧ Size (SCM P) c = Ok n ∧ 0 < n ∧ 0 ≤ i ∧
  p = SpaceBeg P (alloc s) + R * c + n * i ∧ n * (i + 1) ≤ mapped_user r ∧ mapped_user r < R.
(** No range meets a block the program holds. *)
Definition avoids s (rs : list (Z * Z)) : Prop := ∀ xy c p n, xy ∈ rs → (c, p) ∈ live s → Size (SCM P) c = Ok n → p + n ≤ xy.1 ∨ xy.2 ≤ p.

(** The specification of an operation: the blocks held are a set to which an allocation
    adds a block that meets none of them, and from which a deallocation takes one. *)
Definition spec e s (o : op) s' (p : option Z) (rs : list (Z * Z)) : Prop := avoids s' rs ∧
  match o with
  | OpAllocate t c =>
      match p with
      | Some p => live s' = (c, p) :: live s ∧ (∀ c' p', (c', p') ∈ live s → apart c p c' p') ∧ mapped_block s' c p
      | None => live s' = live s ∧ out_of_memory (alloc s) e (alloc s') c
      end
  | OpDeallocate t c p0 => p = None ∧ live s ≡ₚ (c, p0) :: live s'
  | _ => p = None ∧ live s' = live s
  end.

(** When the runtime may die: half of a full cache, or all of the cache that is drained, goes
    back to a free array that cannot take so many chunks. *)
Definition may_die e s (o : op) : Prop :=
  match o with
  | OpAllocate _ _ | OpForceRelease => False
  | OpDeallocate t c _ => ∃ k pc, caches s !! t = Some k ∧ per_class_ k !! Z.to_nat c = Some pc ∧ 0 < count pc ∧ count pc = max_count pc ∧
      array_stuck P (alloc s) e c (count pc / 2)
  | OpDrain t => ∃ k c, caches s !! t = Some k ∧ 1 ≤ c < K ∧ array_stuck P (alloc s) e c (cached_count k c)
  end.

Lemma live_used s c p : sys_ok s → (c, p) ∈ live s → PointerToCompactPtr (SpaceBeg P (alloc s) + R * c) p ∈ live_chunks s c.
Proof using Type. intros Hs Hp. apply list_elem_of_omap. exists (c, p). split; [done|]. by rewrite decide_True. Qed.

Lemma live_apart s c p c' p' : sys_ok s → (c, p) ∈ live s → (c', p') ∈ live s → (c, p) ≠ (c', p') → apart c p c' p'.
Proof using V.
  intros Hs Hp Hp' Hne n n' Hn Hn'. destruct (so_live _ Hs c p Hp) as [Hc Ep]. destruct (so_live _ Hs c' p' Hp') as [Hc' Ep']. pose proof (live_used _ _ _ Hs Hp) as Hu. pose proof (live_used _ _ _ Hs Hp') as Hu'.
  set (q := PointerToCompactPtr _ p) in *. set (q' := PointerToCompactPtr _ p') in *. destruct (vp_size c Hc) as (cs & h & Hsz & _). destruct (vp_size c' Hc') as (cs' & h' & Hsz' & _). rewrite Hsz in Hn. rewrite Hsz' in Hn'. injection Hn as <-. injection Hn' as <-.
  rewrite Ep, Ep'. apply (used_disjoint P (alloc s) (used s) c c' q q'); [apply Hs|done|done|apply elem_of_app; by right|apply elem_of_app; by right| |done|done]. intros [= -> Eq]. apply Hne. congruence.
Qed.

Lemma live_mapped s c p : sys_ok s → (c, p) ∈ live s → mapped_block s c p.
Proof using V.
  intros Hs Hp. destruct (so_live _ Hs c p Hp) as [Hc Ep]. pose proof (live_used _ _ _ Hs Hp) as Hu. destruct (used_chunk P (alloc s) (used s) c _ (so_alloc _ Hs) Hc ltac:(apply elem_of_app; by right)) as (cs & i & N & r & [Hsz Hcs Hreg Hr _] & Eq & Hi & _).
  pose proof (ro_bounds P _ _ _ Hr ltac:(lia)). pose proof (ro_user P _ _ _ Hr). pose proof (ro_space P _ _ _ Hr). pose proof (region_facts P). exists r, (16 * cs), i. assert (cs * (i + 1) ≤ cs * N) by (apply Z.mul_le_mono_nonneg_l; lia). split_and!; try done; [lia|lia|rewrite Ep, Eq; lia|lia|lia].
Qed.

Lemma spares_avoids s a oth rs : sys_ok s → same_heap a (alloc s) → (∀ c q, q ∈ live_chunks s c → q ∈ oth c) → spares_all P a oth rs → avoids s rs.
Proof using V.
  intros Hs Hh Hoth Hsp xy c p n Hxy Hp Hn. destruct (Hsp xy Hxy) as (c0 & Hc0 & Hsp0). destruct (Hsp0 xy ltac:(by apply list_elem_of_singleton)) as (H1 & H2 & H3). destruct (so_live _ Hs c p Hp) as [Hc Ep].
  assert (SpaceBeg P a = SpaceBeg P (alloc s)) as Ea by (unfold SpaceBeg; by destruct Hh as (-> & _)). rewrite Ea in *.
  destruct (vp_size c Hc) as (cs & h & Hsz & _). rewrite Hsz in Hn. injection Hn as <-. destruct (decide (c = c0)) as [->|Hne].
  - rewrite Ep. apply H3; [by apply Hoth, live_used|done].
  - destruct (live_mapped s c p Hs Hp) as (r & n & i & _ & Hn & Hn0 & Hi & Ep' & Hm & HR). rewrite Hsz in Hn. injection Hn as <-. pose proof (region_facts P). assert (0 ≤ 16 * cs * i) by (apply Z.mul_nonneg_nonneg; lia).
    destruct (Z.lt_ge_cases c c0) as [Hlt|Hge]; [assert (R * (c + 1) ≤ R * c0) by (apply Z.mul_le_mono_nonneg_l; lia)|assert (R * (c0 + 1) ≤ R * c) by (apply Z.mul_le_mono_nonneg_l; lia)]; lia.
Qed.

(** One thread and the rest. *)
Lemma thread_view s t k : sys_ok s → caches s !! t = Some k → alloc_ok P (alloc s) (λ c, cached k c ++ others s t c) ∧ cache_ok P k.
Proof using Type.
  intros Hs Hk. split; [|apply Hs; by eapply list_elem_of_lookup_2]. eapply alloc_ok_perm; [|apply Hs]. intros c _. unfold used, others. rewrite (cached_by_thread _ t k) by done. by rewrite app_assoc.
Qed.

Lemma thread_back s t k a' k' live' oth : sys_ok s → caches s !! t = Some k → same_heap (alloc s) a' → cache_ok P k' → let s' := mkSystem a' (<[t := k']> (caches s)) live' in
  alloc_ok P a' (λ c, cached k' c ++ oth c) → (∀ c, 1 ≤ c < K → oth c ≡ₚ cached_by (delete t (caches s)) c ++ live_chunks s' c) →
  (∀ c p, (c, p) ∈ live' → 1 ≤ c < K ∧ p = SpaceBeg P (alloc s) + R * c + 16 * PointerToCompactPtr (SpaceBeg P (alloc s) + R * c) p) → sys_ok s'.
Proof using Type.
  intros Hs Hk Hheap Hk' s' Ha Hoth Hlive. split; cbn.
  - revert Ha. apply alloc_ok_perm. intros c Hc. unfold used, s'. cbn [caches]. rewrite (cached_by_set _ t k) by done. rewrite (Hoth c Hc). by rewrite app_assoc.
  - intros k0 Hin. apply list_elem_of_lookup in Hin as (j & Hj). destruct (decide (j = t)) as [->|Hne]; [rewrite list_lookup_insert_eq in Hj by (by eapply lookup_lt_Some); by injection Hj as <-|].
    rewrite list_lookup_insert_ne in Hj by done. apply Hs. by eapply list_elem_of_lookup_2.
  - intros c p Hp. destruct Hheap as (E & _). unfold SpaceBeg in *. rewrite E. by apply Hlive.
Qed.

Lemma live_chunks_same s s' : same_heap (alloc s) (alloc s') → live s' = live s → ∀ c, live_chunks s' c = live_chunks s c.
Proof using Type. intros (E & _) El c. unfold live_chunks, SpaceBeg. by rewrite El, E. Qed.

Lemma others_same s t a' cs' : same_heap (alloc s) a' → ∀ c, others s t c ≡ₚ cached_by (delete t (caches s)) c ++ live_chunks (mkSystem a' cs' (live s)) c.
Proof using Type. intros Hh c. unfold others. by rewrite (live_chunks_same s (mkSystem a' cs' (live s))). Qed.

Lemma aget_thread s (t : nat) k : caches s !! t = Some k → aget (caches s) (Z.of_nat t) = Ok k.
Proof using Type. intros Hk. by apply aget_lookup. Qed.

Lemma step_Allocate e s t c : sys_ok s → env_ok e → legal P s (OpAllocate t c) →
  returns (step P page_size e (OpAllocate t c) s) (λ '(s', p, rs), sys_ok s' ∧ spec e s (OpAllocate t c) s' p rs).
Proof using V.
  intros Hs Henv [Ht Hc]. destruct (lookup_lt_is_Some_2 _ _ Ht) as [k Hk]. cbn [step]. rewrite (aget_thread _ _ _ Hk). cbn [mbind result_bind]. destruct (thread_view s t k Hs Hk) as [Ha Hkok].
  rbind (by apply (Allocate_spec P _ e k c (others s t))). intros [[a' k'] p] (Hh & Hk' & Hp). cbn [returns]. pose proof (so_alloc _ Hs) as [Hho _].
  destruct (region_beg P (alloc s) c Hho ltac:(lia)) as [Ebeg _]. destruct p as [p|].
  - destruct Hp as (q & Ep & Ha'). rewrite Ebeg in Ep. assert (SpaceBeg P a' = SpaceBeg P (alloc s)) as Esb by (unfold SpaceBeg; by destruct Hh as (-> & _)).
    destruct (used_chunk P a' _ c q Ha' Hc) as (_ & _ & _ & _ & _ & _ & _ & E1 & E2); [apply elem_of_app; right; rewrite fn_lookup_insert; left|]. rewrite Esb in E1, E2. rewrite E2 in Ep.
    set (s' := mkSystem a' (<[t := k']> (caches s)) ((c, p) :: live s)).
    assert (sys_ok s') as Hs'.
    { eapply (thread_back s t k); [done..| |].
      - intros c' _. unfold live_chunks. cbn. rewrite Esb. destruct (decide (c = c')) as [<-|Hne].
        + rewrite fn_lookup_insert. cbn. rewrite Ep, E1. unfold others. rewrite <- Permutation_middle. done.
        + rewrite fn_lookup_insert_ne by done. unfold others, live_chunks. done.
      - intros c' p' [[= -> ->]|Hp']%elem_of_cons; [split; [done|]; by rewrite Ep, E1|by apply Hs]. }
    split; [done|]. split; [by intros xy ??? ?%not_elem_of_nil|]. split; [done|]. split; [|apply live_mapped; [done|left]].
    intros c' p' Hp'. apply (live_apart s'); [done|left|by right|]. intros [= <- <-].
    (* the new chunk was not held *)
    assert (NoDup (used s' c)) as Hnd. { destruct (so_alloc _ Hs') as [_ Hall]. destruct (Hall c Hc) as (cs & N & r & Hcl). apply (NoDup_app (freed r)). rewrite (co_chunks _ _ _ _ _ _ _ Hcl). apply compacts_NoDup. apply Hcl. }
    unfold used in Hnd. apply NoDup_app in Hnd as (_ & _ & Hnd). unfold live_chunks in Hnd. cbn in Hnd. rewrite decide_True in Hnd by done. apply NoDup_cons in Hnd as [Hnin _]. apply Hnin. rewrite Esb. by apply live_used.
  - destruct Hp as [Ha' Hoom]. split; [|split; [by intros xy ??? ?%not_elem_of_nil|done]]. eapply (thread_back s t k); [done..| |apply Hs]. intros c' _. by apply others_same.
Qed.

Lemma step_Deallocate e s t c p : sys_ok s → env_ok e → legal P s (OpDeallocate t c p) →
  returns_or (may_die e s (OpDeallocate t c p)) (step P page_size e (OpDeallocate t c p) s) (λ '(s', p', rs), sys_ok s' ∧ spec e s (OpDeallocate t c p) s' p' rs).
Proof using V HL.
  intros Hs Henv [Ht Hp]. destruct (lookup_lt_is_Some_2 _ _ Ht) as [k Hk]. cbn [step]. rewrite (aget_thread _ _ _ Hk). cbn [mbind result_bind]. destruct (thread_view s t k Hs Hk) as [Ha Hkok]. destruct (so_live _ Hs c p Hp) as [Hc Ep]. pose proof (so_alloc _ Hs) as [Hho _].
  destruct (region_beg P (alloc s) c Hho ltac:(lia)) as [Ebeg _]. set (q := PointerToCompactPtr (SpaceBeg P (alloc s) + R * c) p) in *. pose proof (remove_one_perm _ _ Hp) as Hrem. set (live' := remove_one (c, p) (live s)) in *.
  set (oth := λ c', cached_by (delete t (caches s)) c' ++ live_chunks (mkSystem (alloc s) (caches s) live') c').
  assert (∀ c', others s t c' ≡ₚ (<[c := q :: oth c]> oth) c') as Hoth.
  { intros c'. unfold others, live_chunks at 1. rewrite Hrem. cbn. destruct (decide (c = c')) as [<-|Hne]; [rewrite fn_lookup_insert; fold q; unfold oth; rewrite <- Permutation_middle; done|by rewrite fn_lookup_insert_ne]. }
  eapply returns_or_bind; [eapply returns_or_mono; [apply (Deallocate_spec P L HL (alloc s) e k c p q oth); [|done|done|done|by rewrite Ebeg]|intros (pc & Hpc & Hfull); by exists k, pc|intros ? Hx; exact Hx]|].
  { revert Ha. apply alloc_ok_perm. intros c' _. by rewrite Hoth. }
  intros [[a' mm] k'] (Hh & Hk' & Ha' & Hsp). cbn [returns_or]. set (s' := mkSystem a' (<[t := k']> (caches s)) live').
  assert (∀ c', live_chunks s' c' = live_chunks (mkSystem (alloc s) (caches s) live') c') as Elc by (intros c'; by apply live_chunks_same).
  assert (sys_ok s') as Hs'.
  { eapply (thread_back s t k); [done..| |]; [intros c' _; unfold oth; by rewrite Elc|]. intros c' p' Hp'. apply Hs. rewrite Hrem. by right. }
  split; [done|]. split; [|split; done]. eapply spares_avoids; [done|done| |done]. intros c0 x. rewrite Elc. intros Hx. apply elem_of_app. by right.
Qed.

Lemma step_Drain e s t : sys_ok s → env_ok e → legal P s (OpDrain t) →
  returns_or (may_die e s (OpDrain t)) (step P page_size e (OpDrain t) s) (λ '(s', p', rs), sys_ok s' ∧ spec e s (OpDrain t) s' p' rs).
Proof using V HL.
  intros Hs Henv Ht. destruct (lookup_lt_is_Some_2 _ _ Ht) as [k Hk]. cbn [step]. rewrite (aget_thread _ _ _ Hk). cbn [mbind result_bind]. destruct (thread_view s t k Hs Hk) as [Ha Hkok].
  eapply returns_or_bind; [eapply returns_or_mono; [by apply (DrainAll_spec P L HL (alloc s) e k (others s t))|intros (c & Hc & Hst); by exists k, c|intros ? Hx; exact Hx]|].
  intros [[a' mm] k'] (Hh & Hk' & Ha' & Hsp). cbn [returns_or]. set (s' := mkSystem a' (<[t := k']> (caches s)) (live s)).
  assert (sys_ok s') as Hs' by (eapply (thread_back s t k); [done..| |apply Hs]; intros c' _; by apply others_same).
  split; [done|]. split; [|done]. eapply spares_avoids; [done|done| |done]. intros c0 x. rewrite (live_chunks_same s s') by done. intros Hx. apply elem_of_app. by right.
Qed.

Lemma step_ForceRelease e s : sys_ok s → returns (step P page_size e OpForceRelease s) (λ '(s', p', rs), sys_ok s' ∧ spec e s OpForceRelease s' p' rs).
Proof using V HL.
  intros Hs. cbn [step]. rbind (apply (ForceReleaseToOS_spec P L HL), Hs). intros [a' mm] (Ha' & Hh & Hsp). cbn [returns]. set (s' := mkSystem a' (caches s) (live s)).
  assert (sys_ok s') as Hs'.
  { split; [|apply Hs|]. - revert Ha'. apply alloc_ok_perm. intros c _. unfold used. by rewrite (live_chunks_same s s'). - intros c p Hp. destruct Hh as (E & _). unfold s', SpaceBeg; cbn [alloc]; rewrite E. by apply Hs. }
  split; [done|]. split; [|done]. eapply spares_avoids; [done|done| |done]. intros c0 x. rewrite (live_chunks_same s s') by done. intros Hx. apply elem_of_app. by right.
Qed.

(** ** Initial states *)
Lemma Init_spec interval heap_start reserved mapped a : Init P interval heap_start reserved mapped = Ok a → good_space P a →
  heap_ok P a ∧ RegionInfos a = replicate (Z.to_nat K) zero_region.
Proof using V.
  intros Hi [Hg1 Hg2]. pose proof vp_classes as [HK _]. assert (RegionInfos a = replicate (Z.to_nat K) zero_region ∧ (PremappedHeap a = true → kUsingConstantSpaceBeg P = false)) as [Er Hp].
  { unfold Init in Hi. destruct (negb (heap_start =? 0)).
    - destruct (kUsingConstantSpaceBeg P); [done|]. cbn in Hi. destruct (negb (reserved =? _)); [|done]. cbn in Hi. destruct (reserved =? mapped); [|done]. by injection Hi as <-.
    - destruct (kUsingConstantSpaceBeg P).
      + destruct (IsAligned _ _); [|done]. cbn in Hi. destruct (kSpaceBeg P =? reserved); [|done]. cbn in Hi. destruct (_ =? mapped); [|done]. by injection Hi as <-.
      + destruct (negb (reserved =? _)); [|done]. cbn in Hi. destruct (_ =? mapped); [|done]. by injection Hi as <-. }
  split; [|done]. split; [done|done|done|]. rewrite Er, length_replicate. lia.
Qed.

Lemma new_cache_spec : cache_ok P (new_cache P) ∧ ∀ c, cached (new_cache P) c = [].
Proof using V.
  pose proof vp_classes as [HK _]. split.
  - split; cbn; [rewrite length_replicate; lia|]. intros c Hc. eexists. rewrite lookup_replicate. split; [split; [done|lia]|]. destruct (vp_size c Hc) as (_ & h & _ & _ & _ & Hh). split; cbn; [rewrite length_replicate; lia|lia|by left].
  - intros c. unfold cached. destruct (per_class_ (new_cache P) !! Z.to_nat c) as [pc|] eqn:E; [|done]. apply lookup_replicate in E as [-> _]. done.
Qed.

Lemma init_ok interval heap_start reserved mapped a threads : Init P interval heap_start reserved mapped = Ok a → good_space P a →
  sys_ok (mkSystem a (replicate threads (new_cache P)) []).
Proof using V.
  intros Hi Hg. destruct (Init_spec _ _ _ _ _ Hi Hg) as [Hh Er]. destruct new_cache_spec as [Hk Hnil]. pose proof (region_facts P). split; cbn.
  - split; [done|]. intros c Hc. destruct (vp_size c Hc) as (cs & h & Hsz & Hcs & _). exists cs, 0, zero_region. split; [done|done|rewrite Er; apply lookup_replicate; split; [done|lia]| |].
    + split; cbn; [lia|lia|lia|lia|lia|split; cbn; lia|lia].
    + unfold freed, used, live_chunks, compacts. cbn. rewrite app_nil_r. induction threads as [|n IH]; cbn; [done|]. by rewrite Hnil.
  - intros k Hin%elem_of_replicate. by destruct Hin as [-> _].
  - by intros c p ?%not_elem_of_nil.
Qed.

Lemma step_spec e s o : sys_ok s → env_ok e → legal P s o → returns_or (may_die e s o) (step P page_size e o s) (λ '(s', p, rs), sys_ok s' ∧ spec e s o s' p rs).
Proof using V HL.
  intros Hs He Ho. destruct o; [by apply returns_or_returns, step_Allocate|by apply step_Deallocate|by apply step_Drain|by apply returns_or_returns, step_ForceRelease].
Qed.

Lemma reachable_ok s : reachable P page_size s → sys_ok s.
Proof using V HL.
  intros Hr. induction Hr as [|e o s s' p rs Hr IH He Ho Hstep]; [by eapply init_ok|]. pose proof (step_spec e s o IH He Ho) as H. rewrite Hstep in H. apply H.
Qed.


(** [C17] Conservation of chunks: in every reachable state the chunks of a class that were
    ever made, [0 .. N - 1], are a permutation of those in the free array, those in
    the caches of the threads and those the program holds.  The memory for chunks is mapped
    from the beginning of the region, the metadata down from where the free array begins, at
    [R - kFreeArraySize], and the free array up from there: the three do not overlap. *)
Theorem chunks_conserved s c : reachable P page_size s → 1 ≤ c < K → ∃ cs N r, Size (SCM P) c = Ok (16 * cs) ∧ RegionInfos (alloc s) !! Z.to_nat c = Some r ∧
  freed r ++ cached_by (caches s) c ++ live_chunks s c ≡ₚ compacts cs 0 N ∧ allocated_user r = 16 * cs * N ∧ allocated_meta r = N * kMetadataSize P ∧
  16 * cs * N ≤ mapped_user r ∧ N * kMetadataSize P ≤ mapped_meta r ∧ mapped_user r + mapped_meta r ≤ R - kFreeArraySize P ∧ mapped_free_array r ≤ kFreeArraySize P.
Proof using V HL.
  intros Hr Hc. destruct (so_alloc _ (reachable_ok s Hr)) as [_ Ha]. destruct (Ha c Hc) as (cs & N & r & [Hsz Hcs Hreg Hok Hch]). pose proof (region_facts P). destruct Hok as [HN [Hu1 Hu2] [Hm1 Hm2] _ Hs [Ha1 Ha2] Hn].
  exists cs, N, r. split_and!; try done; lia.
Qed.

(** The blocks that the program holds are distinct, pairwise disjoint and each of them a
    chunk of mapped memory. *)
Theorem live_blocks_disjoint s : reachable P page_size s → NoDup (live s) ∧ (∀ c p, (c, p) ∈ live s → mapped_block s c p) ∧
  ∀ c p c' p', (c, p) ∈ live s → (c', p') ∈ live s → (c, p) ≠ (c', p') → apart c p c' p'.
Proof using V HL.
  intros Hr%reachable_ok. split; [|split; [intros c p; by apply live_mapped|intros c p c' p'; by apply live_apart]].
  assert (∀ c, 1 ≤ c < K → NoDup (live_chunks s c)) as Hnd.
  { intros c Hc. destruct (so_alloc _ Hr) as [_ Ha]. destruct (Ha c Hc) as (cs & N & r & Hcl). assert (NoDup (freed r ++ used s c)) as H by (rewrite (co_chunks _ _ _ _ _ _ _ Hcl); apply compacts_NoDup, Hcl). apply NoDup_app in H as (_ & _ & H). by apply NoDup_app in H as (_ & _ & H). }
  pose proof (λ c p, so_live _ Hr c p) as Hl. unfold live_chunks in Hnd. induction (live s) as [|[c p] l IH]; [constructor|]. apply NoDup_cons. split.
  - intros Hin. destruct (Hl c p ltac:(left)) as [Hc _]. specialize (Hnd c Hc). cbn in Hnd. rewrite decide_True in Hnd by done. apply NoDup_cons in Hnd as [Hnin _]. apply Hnin. apply list_elem_of_omap. exists (c, p). split; [done|]. by rewrite decide_True.
  - apply IH; [|intros c' p' Hp'; apply Hl; by right]. intros c' Hc'. specialize (Hnd c' Hc'). cbn in Hnd. case_decide; [by apply NoDup_cons in Hnd as [_ Hnd]|done].
Qed.

(** [C21] Interior pointers: in a reachable state, any address inside a block that the program
    holds belongs to the allocator, maps to the size class and the beginning of its block,
    and, when the parameters have metadata, its slot lies in the mapped metadata of its region,
    where the index of the chunk determines it. *)
Theorem interior_pointers s c p n d : reachable P page_size s → (c, p) ∈ live s → Size (SCM P) c = Ok n → 0 ≤ d < n →
  PointerIsMine P (alloc s) (p + d) = true ∧ GetSizeClass P (alloc s) (p + d) = c ∧ GetActuallyAllocatedSize P (alloc s) (p + d) = Ok n ∧ GetBlockBegin P (alloc s) (p + d) = Ok (Some p) ∧
  (kMetadataSize P ≠ 0 → ∃ i r, p = SpaceBeg P (alloc s) + R * c + n * i ∧ RegionInfos (alloc s) !! Z.to_nat c = Some r ∧
    let last := SpaceBeg P (alloc s) + R * c + R - kFreeArraySize P in
    GetMetaData P (alloc s) (p + d) = Ok (Some (last - (i + 1) * kMetadataSize P)) ∧ (i + 1) * kMetadataSize P ≤ mapped_meta r).
Proof using V HL.
  intros Hr%reachable_ok Hp Hn Hd. pose proof (so_alloc _ Hr) as [Hh Ha]. destruct (so_live _ Hr c p Hp) as [Hc Ep]. pose proof (live_used _ _ _ Hr Hp) as Hu.
  destruct (used_chunk P (alloc s) (used s) c _ (so_alloc _ Hr) Hc ltac:(apply elem_of_app; by right)) as (cs & i & N & r & Hcl & Eq & Hi & _). pose proof Hcl as [Hsz Hcs Hreg Hrok _]. rewrite Hsz in Hn. injection Hn as <-.
  rewrite Eq in Ep. clear Eq Hu Hp. pose proof (ro_bounds P _ _ _ Hrok ltac:(lia)) as Hb. pose proof (region_facts P) as HR. destruct (ro_user P _ _ _ Hrok) as [Hu1 Hu2]. destruct (ro_meta P _ _ _ Hrok) as [Hm1 Hm2]. pose proof (ro_space P _ _ _ Hrok). pose proof vp_meta as Hmeta.
  assert (16 * cs * (i + 1) ≤ 16 * cs * N) by (apply Z.mul_le_mono_nonneg_l; lia). assert (0 ≤ 16 * cs * i) by (apply Z.mul_nonneg_nonneg; lia). assert ((i + 1) * kMetadataSize P ≤ N * kMetadataSize P) by (apply Z.mul_le_mono_nonneg_r; lia). assert (0 ≤ (i + 1) * kMetadataSize P) by (apply Z.mul_nonneg_nonneg; lia).
  destruct (region_beg P (alloc s) c Hh ltac:(lia)) as [Ebeg Hend]. pose proof (ho_end P _ Hh). pose proof (ho_beg P _ Hh). assert (0 ≤ R * c) by (apply Z.mul_nonneg_nonneg; lia).
  assert (p + d = SpaceBeg P (alloc s) + R * c + (16 * cs * i + d)) as Epd by lia. destruct (region_address P (alloc s) c (16 * cs * i + d) Hh ltac:(lia) ltac:(lia)) as (A1 & A2 & A3 & _). pose proof (GetChunkIdx_spec P (alloc s) c cs i d Hh ltac:(lia) Hcs ltac:(lia) Hd ltac:(lia)) as A4. rewrite <- Epd in *.
  split; [done|]. split; [done|]. split; [unfold GetActuallyAllocatedSize; rewrite A1, A2; cbn; done|]. split.
  - unfold GetBlockBegin, ClassIdToSize. rewrite A2, Hsz. rewrite (proj2 (Z.leb_gt K c)) by lia. cbn [mbind result_bind]. rewrite (proj2 (Z.eqb_neq (16 * cs) 0)) by lia. rewrite A4, A3. cbn [mbind result_bind]. rewrite (GetRegionInfo_ok P _ _ _ _ _ _ Hcl Hc). cbn [mbind result_bind].
    rewrite (cast_id 64 (i * (16 * cs))) by lia. rewrite (cast_id 64 (i * (16 * cs) + _)) by lia. rewrite (proj2 (Z.leb_le _ _)) by lia. do 2 f_equal. rewrite cast_id by lia. lia.
  - intros Hm0. exists i, r. split; [lia|]. split; [done|]. split; [|lia]. unfold GetMetaData, ClassIdToSize. rewrite (proj2 (Z.eqb_neq _ 0) Hm0). cbn [negb CHECK mbind result_bind]. rewrite A2, Hsz. cbn [mbind result_bind]. rewrite (proj2 (Z.eqb_neq (16 * cs) 0)) by lia. rewrite A4. cbn [mbind result_bind]. do 2 f_equal.
    unfold GetMetadataEnd. rewrite Ebeg. rewrite (cast_id 64 ((1 + i) * _)) by lia. rewrite (cast_id 64 (_ + R - _)) by lia. rewrite cast_id by lia. lia.
Qed.

End System.

(** ** The parameters of LeakSanitizer *)
Definition AP64 : Params := mkParams 0x600000000000 0x40000000000 16 false DefaultSizeClassMap.

(** Whether a size class fulfils [vp_size]. *)
Definition size_checked (m : SizeClassMap) (c : Z) : bool :=
  match Size m c with
  | Ok n => (n mod 16 =? 0) && (0 <? n) && (n <? 2 ^ 32) && match MaxCachedHint m n with Ok h => (1 <=? h) && (h <=? kMaxNumCachedHint m) | Fault _ => false end
  | Fault _ => false
  end.

Lemma sizes_checked m : forallb (size_checked m) (seqZ 1 (kNumClasses m - 1)) = true → ∀ c, 1 ≤ c < kNumClasses m →
  ∃ cs h, Size m c = Ok (16 * cs) ∧ 0 < cs < 2 ^ 28 ∧ MaxCachedHint m (16 * cs) = Ok h ∧ 1 ≤ h ≤ kMaxNumCachedHint m.
Proof.
  intros Hall c Hc. assert (size_checked m c = true) as H by (eapply forallb_forall; [exact Hall|]; apply list_elem_of_In, elem_of_seqZ; lia).
  unfold size_checked in H. destruct (Size m c) as [n|]; [|done]. destruct (MaxCachedHint m n) as [h|] eqn:E; [|by rewrite andb_false_r in H]. bool_prop. assert (n = 16 * (n / 16)) as En by (pose proof (Z.div_mod n 16 ltac:(lia)); lia).
  exists (n / 16), h. rewrite <- En. split; [done|]. split; [lia|]. split; [done|lia].
Qed.

#[export] Instance AP64_valid : ValidParams AP64.
Proof.
  split; [apply sizes_checked; vm_compute; reflexivity|vm_compute; done|vm_compute; intuition congruence|exists 36; vm_compute; intuition congruence|vm_compute; done|vm_compute; intuition congruence|done].
Qed.

(** Two threads, and mappings that succeed. *)
Definition allocator0 : SizeClassAllocator64 := mkAllocator 0 false 5000 (replicate 54 zero_region).
Definition system0 : System := mkSystem allocator0 (replicate 2 (new_cache AP64)) [].
Definition env0 : Env := mkEnv (λ beg _, beg) 0 0.

Lemma system0_reachable : reachable AP64 (16 * 2 ^ 8) system0.
Proof.
  apply (reach_init AP64 (16 * 2 ^ 8) 5000 0 0x600000000000 0x640000000000 allocator0 2); [vm_compute; reflexivity|]. split; vm_compute; reflexivity.
Qed.


(** The state after an operation. *)
Definition after (P : Params) (page_size : Z) e o s : System := from_result s (fst <$> (fst <$> step P page_size e o s)).

Lemma after_reachable P page_size e o s : reachable P page_size s → env_ok e → legal P s o → reachable P page_size (after P page_size e o s).
Proof. intros Hr He Ho. unfold after. destruct (step P page_size e o s) as [[[s' p] rs]|f] eqn:E; [by eapply reach_step|done]. Qed.

(** The second thread allocates from class 52, the largest, of 128 KB. *)
Definition system1 : System := after AP64 (16 * 2 ^ 8) env0 (OpAllocate 1 52) system0.

Lemma system1_facts : live system1 = [(52, 0x634000000000)].
Proof. vm_compute. reflexivity. Qed.

Lemma system1_reachable : reachable AP64 (16 * 2 ^ 8) system1.
Proof. apply after_reachable; [exact system0_reachable|intros beg size; by left|]. split; [cbn; lia|]. vm_compute. intuition congruence. Qed.

Lemma chunks_conserved_witness : ∃ cs N r, Size DefaultSizeClassMap 52 = Ok (16 * cs) ∧ RegionInfos (alloc system1) !! 52%nat = Some r ∧
  freed r ++ cached_by (caches system1) 52 ++ live_chunks AP64 system1 52 ≡ₚ compacts cs 0 N ∧ allocated_user r = 16 * cs * N ∧ allocated_meta r = N * 16 ∧
  16 * cs * N ≤ mapped_user r ∧ N * 16 ≤ mapped_meta r ∧ mapped_user r + mapped_meta r ≤ kRegionSize AP64 - kFreeArraySize AP64 ∧ mapped_free_array r ≤ kFreeArraySize AP64.
Proof. refine (chunks_conserved AP64 8 _ system1 52 system1_reachable _); [lia|]. vm_compute. intuition congruence. Defined.

Lemma live_blocks_disjoint_witness : NoDup (live system1) ∧ (∀ c p, (c, p) ∈ live system1 → mapped_block AP64 system1 c p) ∧
  ∀ c p c' p', (c, p) ∈ live system1 → (c', p') ∈ live system1 → (c, p) ≠ (c', p') → apart AP64 c p c' p'.
Proof. refine (live_blocks_disjoint AP64 8 _ system1 system1_reachable). lia. Defined.

Lemma interior_pointers_witness : GetBlockBegin AP64 (alloc system1) (0x634000000000 + 100000) = Ok (Some 0x634000000000).
Proof.
  refine (proj1 (proj2 (proj2 (proj2 (interior_pointers AP64 8 _ system1 52 0x634000000000 131072 100000 system1_reachable _ _ _))))); [lia| |reflexivity|lia]. rewrite system1_facts. left.
Defined.

End Local.
