(* ===== verification/IntDiv.v ===== *)
(** * IntDiv: integer division in the builtins

    Models the division routines of [src/lib/builtins] that the compiler calls where the
    target has no instruction: [int_div_impl.inc] for any width, [udivmoddi4.c] on
    32-bit words, [udivmodti4.c] with Knuth's algorithm on 64-bit words, and the signed
    functions built on them.  Unsigned operands are integers below [2^N], signed ones lie
    between [- 2^(N-1)] and [2^(N-1)].  The right shift of a negative number is arithmetic, as
    [int_lib.h] assumes.  [udiv128by64to64] is the portable version; on x86-64 it is a single
    instruction.  The theorems: all of them compute quotient and remainder. *)
From S2P Require Import Prelude Common.

Module IntDiv.

(** [__builtin_clz] on [w] bits, for [x <> 0], and the halves of a double word. *)
Definition clz (w x : Z) : Z := w - 1 - Z.log2 x.
Definition lo (w x : Z) : Z := x mod 2 ^ w.
Definition hi (w x : Z) : Z := x / 2 ^ w.
Definition all (w h l : Z) : Z := h * 2 ^ w + l.

(** ** Shift and subtract *)
Section Generic.
(** [sizeof(fixuint_t) * CHAR_BIT]. *)
Variable N : Z.

(** The comparison without a branch: [carry] and the new [r]. *)
Definition compare_subtract (d r : Z) : Z * Z :=
  let s := Z.shiftr (signed N (cast N (d - r - 1))) (N - 1) in
  (Z.land s 1, cast N (r - Z.land d (cast N s))).

Definition udiv_round (d : Z) (st : Z * Z * Z) : Z * Z * Z :=
  let '(r, n, carry) := st in
  let r := Z.lor (cast N (Z.shiftl r 1)) (Z.shiftr n (N - 1)) in
  let n := Z.lor (cast N (Z.shiftl n 1)) carry in
  let '(carry, r) := compare_subtract d r in
  (r, n, carry).

Definition udiv_shift (n d : Z) : Z := u32 ((if d =? 0 then N else clz N d) - (if n =? 0 then N else clz N n)).

Definition udivXi3 (n d : Z) : result Z :=
  let sr := udiv_shift n d in
  if N - 1 <? sr then Ok 0
  else if sr =? N - 1 then Ok n
  else
    let sr := sr + 1 in
    r ← shr N n sr;
    n ← shl N n (N - sr);
    let '(r, n, carry) := Nat.iter (Z.to_nat sr) (udiv_round d) (r, n, 0) in
    Ok (Z.lor (cast N (Z.shiftl n 1)) carry).

Definition umodXi3 (n d : Z) : result Z :=
  let sr := udiv_shift n d in
  if N - 1 <? sr then Ok n
  else if sr =? N - 1 then Ok 0
  else
    let sr := sr + 1 in
    r ← shr N n sr;
    n ← shl N n (N - sr);
    let '(r, n, carry) := Nat.iter (Z.to_nat sr) (udiv_round d) (r, n, 0) in
    Ok r.

(** [COMPUTE_UDIV] and [ASSIGN_UMOD] are a routine that gives quotient and remainder. *)
Variable udivmod : Z → Z → result (Z * Z).

Definition divXi3 (a b : Z) : result Z :=
  let s_a := Z.shiftr a (N - 1) in
  let s_b := Z.shiftr b (N - 1) in
  let a_u := cast N (cast N (Z.lxor a s_a) + cast N (- s_a)) in
  let b_u := cast N (cast N (Z.lxor b s_b) + cast N (- s_b)) in
  let s_a := Z.lxor s_a s_b in
  '(q, _) ← udivmod a_u b_u;
  Ok (signed N (cast N (Z.lxor q (cast N s_a) + cast N (- s_a)))).

Definition modXi3 (a b : Z) : result Z :=
  let s := Z.shiftr b (N - 1) in
  let b_u := cast N (cast N (Z.lxor b s) + cast N (- s)) in
  let s := Z.shiftr a (N - 1) in
  let a_u := cast N (cast N (Z.lxor a s) + cast N (- s)) in
  '(_, res) ← udivmod a_u b_u;
  Ok (signed N (cast N (Z.lxor res (cast N s) + cast N (- s)))).

(** A difference of signed numbers. *)
Definition ssub (x y : Z) : result Z := if bool_decide (- 2 ^ (N - 1) ≤ x - y < 2 ^ (N - 1)) then Ok (x - y) else Fault SignedOverflow.

(** [__divmoddi4] and [__divmodti4]. *)
Definition divmodXi4 (a b : Z) : result (Z * Z) :=
  let s_a := Z.shiftr a (N - 1) in
  let s_b := Z.shiftr b (N - 1) in
  a ← ssub (Z.lxor a s_a) s_a;
  b ← ssub (Z.lxor b s_b) s_b;
  let s_b := Z.lxor s_b s_a in
  '(u, r) ← udivmod (cast N a) (cast N b);
  let q := signed N (cast N (Z.lxor u (cast N s_b) - cast N s_b)) in
  Ok (q, signed N (cast N (Z.lxor r (cast N s_a) - cast N s_a))).

End Generic.

(** ** Words of 32 bits *)
(** [n] is a non-zero double word: [r = n >> sr] and [q = n << (64 - sr)]. *)
Definition di_round (d : Z) (st : Z * Z * Z * Z * Z) : Z * Z * Z * Z * Z :=
  let '(rh, rl, qh, ql, carry) := st in
  let rh := Z.lor (u32 (Z.shiftl rh 1)) (Z.shiftr rl 31) in
  let rl := Z.lor (u32 (Z.shiftl rl 1)) (Z.shiftr qh 31) in
  let qh := Z.lor (u32 (Z.shiftl qh 1)) (Z.shiftr ql 31) in
  let ql := Z.lor (u32 (Z.shiftl ql 1)) carry in
  let '(carry, r) := compare_subtract 64 d (all 32 rh rl) in
  (hi 32 r, lo 32 r, qh, ql, carry).

(** The loop and what follows it. *)
Definition di_loop (d sr : Z) (rh rl qh ql : Z) : Z * Z :=
  let '(rh, rl, qh, ql, carry) := Nat.iter (Z.to_nat sr) (di_round d) (rh, rl, qh, ql, 0) in
  (Z.lor (u64 (Z.shiftl (all 32 qh ql) 1)) carry, all 32 rh rl).

(** [n] split at [sr < 32] bits. *)
Definition di_split (nh nl sr : Z) : result (Z * Z * Z * Z) :=
  qh ← shl 32 nl (32 - sr);
  rh ← shr 32 nh sr;
  a ← shl 32 nh (32 - sr);
  b ← shr 32 nl sr;
  Ok (rh, Z.lor a b, qh, 0).

(** Quotient and remainder. *)
Definition udivmoddi4 (a b : Z) : result (Z * Z) :=
  let nh := hi 32 a in let nl := lo 32 a in
  let dh := hi 32 b in let dl := lo 32 b in
  if nh =? 0 then
    if dh =? 0 then q ← udiv nl dl; Ok (q, nl mod dl) else Ok (0, nl)
  else if dl =? 0 then
    if dh =? 0 then q ← udiv nh dl; Ok (q, nh mod dl)
    else if nl =? 0 then Ok (nh / dh, all 32 (nh mod dh) 0)
    else if Z.land dh (u32 (dh - 1)) =? 0 then
      q ← shr 32 nh (builtin_ctzl dh);
      Ok (q, all 32 (Z.land nh (u32 (dh - 1))) nl)
    else
      let sr := u32 (clz 32 dh - clz 32 nh) in
      if 30 <? sr then Ok (0, a)
      else
        let sr := sr + 1 in
        '(rh, rl, qh, ql) ← di_split nh nl sr;
        Ok (di_loop b sr rh rl qh ql)
  else if dh =? 0 then
    if Z.land dl (u32 (dl - 1)) =? 0 then
      let rem := Z.land nl (u32 (dl - 1)) in
      if dl =? 1 then Ok (a, rem)
      else
        let sr := builtin_ctzl dl in
        qh ← shr 32 nh sr;
        x ← shl 32 nh (32 - sr);
        y ← shr 32 nl sr;
        Ok (all 32 qh (Z.lor x y), rem)
    else
      let sr := u32 (1 + 32 + clz 32 dl - clz 32 nh) in
      if sr =? 32 then Ok (di_loop b sr 0 nh nl 0)
      else if sr <? 32 then
        '(rh, rl, qh, ql) ← di_split nh nl sr;
        Ok (di_loop b sr rh rl qh ql)
      else
        ql ← shl 32 nl (64 - sr);
        x ← shl 32 nh (64 - sr);
        y ← shr 32 nl (sr - 32);
        rl ← shr 32 nh (sr - 32);
        Ok (di_loop b sr 0 rl (Z.lor x y) ql)
  else
    let sr := u32 (clz 32 dh - clz 32 nh) in
    if 31 <? sr then Ok (0, a)
    else
      let sr := sr + 1 in
      if sr =? 32 then Ok (di_loop b sr 0 nh nl 0)
      else
        '(rh, rl, qh, ql) ← di_split nh nl sr;
        Ok (di_loop b sr rh rl qh ql).

(** [__udivmodsi4], from the division of one word. *)
Definition udivmodsi4 (a b : Z) : result (Z * Z) :=
  d ← udivXi3 32 a b;
  let d := signed 32 d in
  Ok (u32 d, u32 (a - u32 (u32 d * b))).

(** ** Words of 64 bits: Knuth's algorithm D *)
(** The correction of a digit of the quotient. *)
Fixpoint qhat_loop (fuel : nat) (q rhat vn1 vn0 un : Z) : result Z :=
  match fuel with
  | O => Fault OutOfFuel
  | S fuel =>
      let b := 2 ^ 32 in
      if (b <=? q) || (u64 (b * rhat + un) <? u64 (q * vn0)) then
        let q := u64 (q - 1) in
        let rhat := u64 (rhat + vn1) in
        if b <=? rhat then Ok q else qhat_loop fuel q rhat vn1 vn0 un
      else Ok q
  end.

Definition udiv128by64to64default (u1 u0 v : Z) : result (Z * Z) :=
  let b := 2 ^ 32 in
  let s := clz 64 v in
  '(v, un64, un10) ←
    (if 0 <? s then
       v' ← shl 64 v s; x ← shl 64 u1 s; y ← shr 64 u0 (64 - s); un10 ← shl 64 u0 s;
       Ok (v', Z.lor x y, un10)
     else Ok (v, u1, u0));
  let vn1 := Z.shiftr v 32 in
  let vn0 := Z.land v (2 ^ 32 - 1) in
  let un1 := Z.shiftr un10 32 in
  let un0 := Z.land un10 (2 ^ 32 - 1) in
  q1 ← udiv un64 vn1;
  q1 ← qhat_loop 2 q1 (u64 (un64 - u64 (q1 * vn1))) vn1 vn0 un1;
  let un21 := u64 (un64 * b + un1 - q1 * v) in
  q0 ← udiv un21 vn1;
  q0 ← qhat_loop 2 q0 (u64 (un21 - u64 (q0 * vn1))) vn1 vn0 un0;
  r ← shr 64 (u64 (un21 * b + un0 - q0 * v)) s;
  Ok (u64 (q1 * b + q0), r).

(** One round of the last loop: the low word of the quotient, dividend and divisor. *)
Definition ti_round (st : Z * Z * Z) : Z * Z * Z :=
  let '(q, dividend, divisor) := st in
  let q := u64 (Z.shiftl q 1) in
  let '(c, dividend) := compare_subtract 128 divisor dividend in
  (Z.lor q c, dividend, Z.shiftr divisor 1).

Definition udivmodti4 (a b : Z) : result (Z * Z) :=
  if a <? b then Ok (0, a)
  else
    let ah := hi 64 a in let al := lo 64 a in
    let bh := hi 64 b in let bl := lo 64 b in
    if bh =? 0 then
      if ah <? bl then
        '(q, r) ← udiv128by64to64default ah al bl;
        Ok (q, r)
      else
        qh ← udiv ah bl;
        '(ql, r) ← udiv128by64to64default (ah mod bl) al bl;
        Ok (all 64 qh ql, r)
    else
      let shift := clz 64 bh - clz 64 ah in
      divisor ← shl 128 b shift;
      let '(q, dividend, _) := Nat.iter (Z.to_nat (shift + 1)) ti_round (0, a, divisor) in
      Ok (q, dividend).

(** ** Arithmetic of the loops *)
Lemma lor_low x c : (c = 0 ∨ c = 1) → Z.lor (2 * x) c = 2 * x + c.
Proof. intros Hc. rewrite Z.lor_comm, (Z.mul_comm 2 x). change 2 with (2 ^ 1). rewrite lor_shift_add by lia. lia. Qed.

Lemma lor_high s x y : 0 ≤ s → 0 ≤ y < 2 ^ s → Z.lor (x * 2 ^ s) y = x * 2 ^ s + y.
Proof. intros Hs Hy. rewrite Z.lor_comm, lor_shift_add by lia. lia. Qed.

Lemma pow2_split N s : 0 ≤ s ≤ N → 2 ^ N = 2 ^ s * 2 ^ (N - s).
Proof. intros Hs. rewrite <- Z.pow_add_r by lia. f_equal. lia. Qed.

Lemma pow2_half N : 0 < N → 2 ^ N = 2 * 2 ^ (N - 1).
Proof. intros HN. rewrite <- Z.pow_succ_r by lia. f_equal. lia. Qed.

Lemma div_unique x y q r : x = y * q + r → 0 ≤ r < y → x / y = q ∧ x mod y = r.
Proof. intros E Hr. split; symmetry; [apply (Z.div_unique_pos _ _ _ r)|apply (Z.mod_unique_pos _ _ q)]; lia. Qed.

Lemma compare_subtract_spec N d r : 0 < N → 0 ≤ d < 2 ^ N → 0 ≤ r < 2 ^ N → - 2 ^ (N - 1) ≤ d - r - 1 < 2 ^ (N - 1) →
  compare_subtract N d r = if d <=? r then (1, r - d) else (0, r).
Proof.
  intros HN Hd Hr Hz. unfold compare_subtract. rewrite signed_cast by lia. rewrite Z.shiftr_div_pow2 by lia. pose proof (pow2_half N HN). assert (0 < 2 ^ (N - 1)) by lia.
  destruct (Z.leb_spec d r).
  - assert ((d - r - 1) / 2 ^ (N - 1) = -1) as -> by (symmetry; apply (Z.div_unique_pos _ _ _ (d - r - 1 + 2 ^ (N - 1))); lia).
    assert (cast N (-1) = Z.ones N) as -> by (unfold cast; rewrite Z.ones_equiv; symmetry; apply (Z.mod_unique_pos _ _ (-1)); lia). rewrite Z.land_ones by lia. rewrite Z.mod_small by lia. rewrite cast_id by lia. done.
  - rewrite Z.div_small by lia. unfold cast at 2. rewrite Z.mod_0_l by lia. rewrite Z.land_0_r, Z.sub_0_r, cast_id by lia. done.
Qed.

(** The state after [i] of [sr] rounds: [r] and the quotient bits of the dividend's upper part. *)
Record udiv_inv (N n0 d sr i : Z) (st : Z * Z * Z) (prev : Z) : Prop := {
  ui_r : st.1.1 = n0 / 2 ^ (sr - i) mod d;
  ui_n : st.1.2 = n0 mod 2 ^ (sr - i) * 2 ^ (N - sr + i) + prev;
  ui_q : n0 / 2 ^ (sr - i) / d = 2 * prev + st.2;
  ui_prev : 0 ≤ prev < 2 ^ (N - sr + i);
  ui_carry : st.2 = 0 ∨ st.2 = 1
}.

(** One more bit of the dividend. *)
Lemma next_bit n0 j : 0 ≤ n0 → 0 < j → let b := n0 mod 2 ^ j / 2 ^ (j - 1) in
  (b = 0 ∨ b = 1) ∧ n0 / 2 ^ (j - 1) = 2 * (n0 / 2 ^ j) + b ∧ n0 mod 2 ^ j = b * 2 ^ (j - 1) + n0 mod 2 ^ (j - 1).
Proof.
  intros Hn Hj b. pose proof (pow2_half j Hj) as E. assert (0 < 2 ^ (j - 1)) by lia. pose proof (Z.mod_pos_bound n0 (2 ^ j) ltac:(lia)) as Hm. pose proof (Z.div_mod n0 (2 ^ j) ltac:(lia)) as Hd.
  pose proof (Z.div_mod (n0 mod 2 ^ j) (2 ^ (j - 1)) ltac:(lia)) as Hd2. pose proof (Z.mod_pos_bound (n0 mod 2 ^ j) (2 ^ (j - 1)) ltac:(lia)) as Hm2. fold b in Hd2.
  assert (b = 0 ∨ b = 1) as Hb by (assert (0 ≤ b < 2); [|lia]; split; [apply Z.div_pos; lia|apply Z.div_lt_upper_bound; lia]).
  destruct (div_unique n0 (2 ^ (j - 1)) (2 * (n0 / 2 ^ j) + b) (n0 mod 2 ^ j mod 2 ^ (j - 1))) as [E1 E2]; [lia|lia|]. split; [done|]. split; [done|]. rewrite E2. lia.
Qed.

Lemma udiv_round_spec N n0 d sr i st prev : 0 < N → 0 ≤ n0 < 2 ^ N → 0 < d < 2 ^ N → 0 ≤ i < sr → sr ≤ N →
  (d ≤ 2 ^ (N - 1) ∨ (i + 1 = sr ∧ 2 ^ (N - 1) ≤ n0)) → n0 / 2 ^ (sr - i) < 2 ^ (N - 1) →
  udiv_inv N n0 d sr i st prev → ∃ prev', udiv_inv N n0 d sr (i + 1) (udiv_round N d st) prev'.
Proof.
  intros HN Hn Hd Hi Hsr Hbig Hsmall [Hr Hq Hdiv Hp Hc]. destruct st as [[r n] carry]. cbn [fst snd] in *. exists (2 * prev + carry). destruct (next_bit n0 (sr - i) ltac:(lia) ltac:(lia)) as (Hb & Em & El).
  replace (sr - i - 1) with (sr - (i + 1)) in * by lia. set (j := sr - (i + 1)) in *. set (b := n0 mod 2 ^ (sr - i) / 2 ^ j) in *. set (m := n0 / 2 ^ (sr - i)) in *. set (W := 2 ^ (N - sr + i)) in *.
  assert (2 ^ (N - sr + (i + 1)) = 2 * W) as EW by (unfold W; rewrite <- Z.pow_succ_r by lia; f_equal; lia). assert (2 ^ (N - 1) = 2 ^ j * W) as EN by (unfold W; rewrite <- Z.pow_add_r by lia; f_equal; lia).
  pose proof (pow2_half N HN) as Eh. assert (0 < W) by (unfold W; lia). assert (0 < 2 ^ j) by lia. pose proof (Z.mod_pos_bound m d ltac:(lia)) as Hmd. pose proof (Z.div_mod m d ltac:(lia)) as Hdm. assert (0 ≤ m) by (unfold m; apply Z.div_pos; lia). pose proof (Z.mod_pos_bound n0 (2 ^ j) ltac:(lia)) as Hmj. set (l := n0 mod 2 ^ j) in *.
  assert (n = b * 2 ^ (N - 1) + (l * W + prev)) as En by (rewrite Hq, El, EN; ring). assert (0 ≤ l * W + prev < 2 ^ (N - 1)) as Hlow by (rewrite EN; nia).
  assert (Z.shiftr n (N - 1) = b) as Etop by (rewrite Z.shiftr_div_pow2 by lia; apply (div_unique _ _ _ (l * W + prev)); lia).
  assert (cast N (Z.shiftl n 1) = 2 * (l * W + prev)) as Eshl by (rewrite Z.shiftl_mul_pow2 by lia; unfold cast; apply (div_unique _ _ b); lia).
  assert (m mod d ≤ m) as Hle by (apply Z.mod_le; lia). assert (cast N (Z.shiftl r 1) = 2 * r) as Er by (rewrite Z.shiftl_mul_pow2 by lia; rewrite cast_id; lia).
  unfold udiv_round. rewrite Etop, Eshl, Er, !lor_low by done. set (r' := 2 * r + b).
  assert (n0 / 2 ^ j = d * (2 * (m / d)) + r') as Em' by (rewrite Em; unfold r'; lia).
  rewrite compare_subtract_spec; [|lia|lia|unfold r'; lia|]. 2: { destruct Hbig as [?|[Ei Hge]]; [unfold r'; lia|]. assert (r' ≤ n0 / 2 ^ j) by nia. assert (j = 0) as Ej by lia. rewrite Ej, Z.div_1_r in *. assert (r' = n0 - d * (2 * (m / d))) by lia. assert (m / d = 0 ∨ 0 < m / d) as [E0|Hpos] by (pose proof (Z.div_pos m d); lia); [rewrite E0 in *; lia|]. nia. }
  destruct (Z.leb_spec d r') as [Hle'|Hlt'].
  - destruct (div_unique (n0 / 2 ^ j) d (2 * (m / d) + 1) (r' - d)) as [D1 D2]; [lia|unfold r'; lia|]. split; cbn [fst snd]; fold j; [done|rewrite EW; unfold l; lia|rewrite D1; lia|rewrite EW; lia|by right].
  - destruct (div_unique (n0 / 2 ^ j) d (2 * (m / d)) r') as [D1 D2]; [lia|unfold r'; lia|]. split; cbn [fst snd]; fold j; [done|rewrite EW; unfold l; lia|rewrite D1; lia|rewrite EW; lia|by left].
Qed.

(** The whole loop: quotient bits and remainder. *)
Lemma udiv_loop_spec N n0 d sr : 0 < N → 0 ≤ n0 < 2 ^ N → 0 < d < 2 ^ N → 1 ≤ sr ≤ N → n0 / 2 ^ sr < d → (d ≤ 2 ^ (N - 1) ∨ (sr = 1 ∧ 2 ^ (N - 1) ≤ n0)) →
  let '(r, n, carry) := Nat.iter (Z.to_nat sr) (udiv_round N d) (n0 / 2 ^ sr, n0 mod 2 ^ sr * 2 ^ (N - sr), 0) in
  r = n0 mod d ∧ Z.lor (cast N (Z.shiftl n 1)) carry = n0 / d ∧ 0 ≤ n < 2 ^ N.
Proof.
  intros HN Hn Hd Hsr Hlt Hbig. pose proof (pow2_half N HN) as Eh.
  assert (∀ i : nat, Z.of_nat i ≤ sr → ∃ prev, udiv_inv N n0 d sr (Z.of_nat i) (Nat.iter i (udiv_round N d) (n0 / 2 ^ sr, n0 mod 2 ^ sr * 2 ^ (N - sr), 0)) prev) as Hall.
  { induction i as [|i IH]; intros Hi.
    - exists 0. cbn [Nat.iter nat_rect]. rewrite Nat2Z.inj_0. assert (0 ≤ n0 / 2 ^ sr) by (apply Z.div_pos; lia). split; cbn [fst snd]; rewrite ?Z.sub_0_r, ?Z.add_0_r; [rewrite Z.mod_small by lia; done|done|rewrite Z.div_small; lia|lia|by left].
    - destruct (IH ltac:(lia)) as (prev & Hinv). rewrite Nat.iter_succ. rewrite Nat2Z.inj_succ. unfold Z.succ. eapply udiv_round_spec; [lia|lia|lia|lia|lia|destruct Hbig; [by left|right; lia]| |exact Hinv].
      apply Z.div_lt_upper_bound; [lia|]. apply (Z.lt_le_trans _ (2 ^ N)); [lia|]. rewrite <- Z.pow_add_r by lia. apply Z.pow_le_mono_r; lia. }
  destruct (Hall (Z.to_nat sr) ltac:(lia)) as (prev & [Hr Hq Hdiv Hp Hc]). rewrite Z2Nat.id in Hr, Hq, Hdiv, Hp by lia. destruct (Nat.iter _ _ _) as [[r n] carry]. cbn [fst snd] in *.
  rewrite Z.sub_diag in *. change (2 ^ 0) with 1 in *. rewrite Z.div_1_r in *. rewrite Z.mod_1_r in Hq. replace (N - sr + sr) with N in * by lia.
  assert (n = prev) as -> by lia. split; [done|]. split; [|lia]. assert (n0 / d ≤ n0) by (apply Z.div_le_upper_bound; nia). rewrite Z.shiftl_mul_pow2 by lia. rewrite cast_id by lia. change (2 ^ 1) with 2. rewrite Z.mul_comm, lor_low by done. lia.
Qed.

(** Where a number lies, from its leading zeros. *)
Lemma clz_range w x : 0 < x < 2 ^ w → 0 ≤ clz w x ≤ w - 1 ∧ 2 ^ (w - 1 - clz w x) ≤ x < 2 ^ (w - clz w x).
Proof.
  intros Hx. unfold clz. pose proof (Z.log2_spec x ltac:(lia)) as Hl. pose proof (Z.log2_nonneg x). assert (Z.log2 x < w) by (apply Z.log2_lt_pow2; lia). split; [lia|].
  replace (w - 1 - (w - 1 - Z.log2 x)) with (Z.log2 x) by lia. replace (w - (w - 1 - Z.log2 x)) with (Z.succ (Z.log2 x)) by lia. done.
Qed.

(** [r] and [n] before the loop. *)
Lemma udiv_start N n sr : 0 ≤ n < 2 ^ N → 1 ≤ sr < N → shr N n sr = Ok (n / 2 ^ sr) ∧ shl N n (N - sr) = Ok (n mod 2 ^ sr * 2 ^ (N - sr)).
Proof.
  intros Hn Hsr. rewrite shr_ok, shl_ok by lia. rewrite Z.shiftr_div_pow2, Z.shiftl_mul_pow2 by lia. split; [done|]. f_equal. unfold cast. rewrite (pow2_split N sr) by lia. rewrite Z.mul_mod_distr_r by (apply Z.pow_nonzero; lia). done.
Qed.

Lemma udiv_cases N n d : 1 < N < 2 ^ 31 → 0 ≤ n < 2 ^ N → 0 < d < 2 ^ N →
  (N - 1 < udiv_shift N n d ∧ n < d) ∨ (udiv_shift N n d = N - 1 ∧ d = 1) ∨
  (0 ≤ udiv_shift N n d < N - 1 ∧ n / 2 ^ (udiv_shift N n d + 1) < d ∧ (d ≤ 2 ^ (N - 1) ∨ (udiv_shift N n d + 1 = 1 ∧ 2 ^ (N - 1) ≤ n))).
Proof.
  intros HN Hn Hd. unfold udiv_shift. rewrite (proj2 (Z.eqb_neq d 0)) by lia. destruct (clz_range N d Hd) as [Hc1 Hc2]. destruct (Z.eqb_spec n 0) as [->|Hn0].
  { left. split; [|lia]. unfold cast. replace (clz N d - N) with (-1 * 2 ^ 32 + (2 ^ 32 + clz N d - N)) by lia. rewrite Z.add_comm, Z_mod_plus_full, Z.mod_small by lia. lia. }
  destruct (clz_range N n ltac:(lia)) as [Hk1 Hk2]. set (cd := clz N d) in *. set (cn := clz N n) in *. destruct (Z.lt_ge_cases cd cn) as [Hlt|Hge].
  - left. split.
    + unfold cast. replace (cd - cn) with (-1 * 2 ^ 32 + (2 ^ 32 + cd - cn)) by lia. rewrite Z.add_comm, Z_mod_plus_full, Z.mod_small by lia. lia.
    + assert (2 ^ (N - cn) ≤ 2 ^ (N - 1 - cd)) by (apply Z.pow_le_mono_r; lia). lia.
  - right. rewrite cast_id by lia. destruct (decide (cd - cn = N - 1)) as [E|E].
    + left. split; [done|]. replace (N - cd) with 1 in Hc2 by lia. lia.
    + right. split; [lia|]. split.
      * apply Z.div_lt_upper_bound; [apply Z.pow_pos_nonneg; lia|]. apply (Z.lt_le_trans _ (2 ^ (N - cn))); [lia|]. apply (Z.le_trans _ (2 ^ (cd - cn + 1) * 2 ^ (N - 1 - cd))); [rewrite <- Z.pow_add_r by lia; apply Z.pow_le_mono_r; lia|]. apply Z.mul_le_mono_nonneg_l; lia.
      * destruct (decide (cd = 0)) as [E0|E0]; [right; split; [lia|]; replace (N - 1 - cn) with (N - 1) in Hk2 by lia; lia|]. left. apply (Z.le_trans _ (2 ^ (N - cd))); [lia|]. apply Z.pow_le_mono_r; lia.
Qed.

Lemma udivXi3_spec N n d : 1 < N < 2 ^ 31 → 0 ≤ n < 2 ^ N → 0 < d < 2 ^ N → udivXi3 N n d = Ok (n / d) ∧ umodXi3 N n d = Ok (n mod d).
Proof.
  intros HN Hn Hd. unfold udivXi3, umodXi3. destruct (udiv_cases N n d HN Hn Hd) as [[Hs Hlt]|[[Hs ->]|(Hs & Hr & Hbig)]].
  - rewrite (proj2 (Z.ltb_lt _ _) Hs), Z.div_small, Z.mod_small by lia. done.
  - rewrite Hs, Z.ltb_irrefl, Z.eqb_refl, Z.div_1_r, Z.mod_1_r. done.
  - rewrite (proj2 (Z.ltb_ge _ _)), (proj2 (Z.eqb_neq _ _)) by lia. destruct (udiv_start N n (udiv_shift N n d + 1) Hn ltac:(lia)) as [-> ->]. cbn [mbind result_bind].
    pose proof (udiv_loop_spec N n d (udiv_shift N n d + 1) ltac:(lia) Hn Hd ltac:(lia) Hr Hbig) as H. destruct (Nat.iter _ _ _) as [[r n'] carry]. destruct H as (-> & -> & _). done.
Qed.

(** ** Words of 32 bits *)
Definition word (w x : Z) : Prop := 0 ≤ x < 2 ^ w.

Lemma halves w x : 0 < w → 0 ≤ x < 2 ^ (2 * w) → x = all w (hi w x) (lo w x) ∧ word w (hi w x) ∧ word w (lo w x).
Proof.
  intros Hw Hx. unfold all, hi, lo, word. assert (0 < 2 ^ w) by lia. pose proof (Z.div_mod x (2 ^ w) ltac:(lia)). pose proof (Z.mod_pos_bound x (2 ^ w) ltac:(lia)). split; [lia|]. split; [|lia].
  split; [apply Z.div_pos; lia|]. apply Z.div_lt_upper_bound; [lia|]. rewrite <- Z.pow_add_r by lia. replace (w + w) with (2 * w) by lia. lia.
Qed.

(** Both words shifted by one, as one double word. *)
Lemma shift_words h l c : word 32 h → word 32 l → (c = 0 ∨ c = 1) →
  let h' := Z.lor (u32 (Z.shiftl h 1)) (Z.shiftr l 31) in let l' := Z.lor (u32 (Z.shiftl l 1)) c in
  all 32 h' l' = Z.lor (u64 (Z.shiftl (all 32 h l) 1)) c ∧ word 32 h' ∧ word 32 l'.
Proof.
  unfold word, all. intros Hh Hl Hc. cbv zeta. rewrite !Z.shiftl_mul_pow2, Z.shiftr_div_pow2 by lia. unfold cast. change (2 ^ 1) with 2.
  assert (∀ w x, 0 < w → (x * 2) mod 2 ^ w = 2 * (x mod 2 ^ (w - 1))) as E by (intros w x Hw; rewrite (pow2_half w) by done; rewrite (Z.mul_comm x), Z.mul_mod_distr_l; lia).
  rewrite !E by lia. change (2 ^ (32 - 1)) with (2 ^ 31). change (2 ^ (64 - 1)) with (2 ^ 63). assert (l / 2 ^ 31 = 0 ∨ l / 2 ^ 31 = 1) as Hb by (Z.div_mod_to_equations; lia).
  rewrite !lor_low by done. Z.div_mod_to_equations. lia.
Qed.

Definition words_of (st : Z * Z * Z * Z * Z) (st' : Z * Z * Z) : Prop :=
  let '(rh, rl, qh, ql, c) := st in
  word 32 rh ∧ word 32 rl ∧ word 32 qh ∧ word 32 ql ∧ (c = 0 ∨ c = 1) ∧ st' = (all 32 rh rl, all 32 qh ql, c).

Lemma di_round_words d st st' : words_of st st' → words_of (di_round d st) (udiv_round 64 d st').
Proof.
  destruct st as [[[[rh rl] qh] ql] c]. intros (Hrh & Hrl & Hqh & Hql & Hc & ->). unfold di_round, udiv_round. change (64 - 1) with 63. assert (Z.shiftr (all 32 qh ql) 63 = Z.shiftr qh 31) as Et by (unfold all, word in *; rewrite !Z.shiftr_div_pow2 by lia; Z.div_mod_to_equations; lia).
  assert (Z.shiftr qh 31 = 0 ∨ Z.shiftr qh 31 = 1) as Hb by (unfold word in *; rewrite Z.shiftr_div_pow2 by lia; Z.div_mod_to_equations; lia).
  destruct (shift_words rh rl _ Hrh Hrl Hb) as (E1 & H1 & H2). destruct (shift_words qh ql _ Hqh Hql Hc) as (E2 & H3 & H4). rewrite Et, <- E1, <- E2. clear E1 E2 Et. unfold compare_subtract. set (r := all 32 (Z.lor (u32 (Z.shiftl rh 1)) _) _). set (s := Z.shiftr (signed _ _) _).
  assert (Z.land s 1 = 0 ∨ Z.land s 1 = 1) as Hs by (assert (Z.land s 1 = s mod 2) as -> by exact (Z.land_ones s 1 ltac:(lia)); pose proof (Z.mod_pos_bound s 2); lia). destruct (halves 32 (u64 (r - Z.land d (u64 s)))) as (E & Hh & Hl); [lia|apply cast_range; lia|].
  split_and!; try done. by rewrite <- E.
Qed.

Lemma di_loop_spec n d sr rh rl qh ql : word 64 n → 0 < d < 2 ^ 64 → 1 ≤ sr ≤ 64 → n / 2 ^ sr < d → (d ≤ 2 ^ 63 ∨ (sr = 1 ∧ 2 ^ 63 ≤ n)) →
  word 32 rh → word 32 rl → word 32 qh → word 32 ql → all 32 rh rl = n / 2 ^ sr → all 32 qh ql = n mod 2 ^ sr * 2 ^ (64 - sr) →
  di_loop d sr rh rl qh ql = (n / d, n mod d).
Proof.
  intros Hn Hd Hsr Hlt Hbig Hrh Hrl Hqh Hql Er Eq. pose proof (udiv_loop_spec 64 n d sr ltac:(lia) Hn Hd Hsr Hlt Hbig) as H. unfold di_loop. rewrite <- Er, <- Eq in H.
  assert (∀ k, words_of (Nat.iter k (di_round d) (rh, rl, qh, ql, 0)) (Nat.iter k (udiv_round 64 d) (all 32 rh rl, all 32 qh ql, 0))) as Hw.
  { induction k as [|k IH]; [cbn [Nat.iter nat_rect]; split_and!; auto|]. rewrite !Nat.iter_succ. by apply di_round_words. }
  specialize (Hw (Z.to_nat sr)). destruct (Nat.iter _ (di_round d) _) as [[[[rh' rl'] qh'] ql'] c']. destruct Hw as (_ & _ & _ & _ & _ & Ew). rewrite Ew in H. destruct H as (-> & -> & _). done.
Qed.

(** The double word shifted right by [k] bits, and what falls out. *)
Lemma split_words w h l k : 0 ≤ k ≤ w → word w h → word w l →
  let y := h mod 2 ^ k * 2 ^ (w - k) + l / 2 ^ k in
  all w (h / 2 ^ k) y = all w h l / 2 ^ k ∧ word w (h / 2 ^ k) ∧ word w y ∧ Z.lor (h mod 2 ^ k * 2 ^ (w - k)) (l / 2 ^ k) = y ∧ all w h l mod 2 ^ k = l mod 2 ^ k ∧ word w (l mod 2 ^ k * 2 ^ (w - k)).
Proof.
  intros Hk Hh Hl. cbv zeta. unfold word in *. pose proof (pow2_split w k Hk) as E. set (K := 2 ^ k) in *. set (M := 2 ^ (w - k)) in *. assert (0 < K ∧ 0 < M) as [HK HM] by (unfold K, M; split; apply Z.pow_pos_nonneg; lia).
  pose proof (Z.mod_pos_bound h K ltac:(lia)) as Hm. pose proof (Z.mod_pos_bound l K ltac:(lia)) as Hn. pose proof (Z.div_mod h K ltac:(lia)) as Dh. pose proof (Z.div_mod l K ltac:(lia)) as Dl.
  assert (0 ≤ l / K < M) as Hlk by (split; [apply Z.div_pos; lia|apply Z.div_lt_upper_bound; lia]). assert (0 ≤ h / K < M) as Hhk by (split; [apply Z.div_pos; lia|apply Z.div_lt_upper_bound; lia]).
  assert (∀ x, 0 ≤ x < K → 0 ≤ x * M ≤ (K - 1) * M) as Hx by (intros x Hx; nia). pose proof (Hx _ Hm). pose proof (Hx _ Hn). assert (0 ≤ M * (K - 1)) by nia.
  destruct (div_unique (all w h l) K (h * M + l / K) (l mod K)) as [Ed Em]; [unfold all; rewrite E; lia|lia|]. split_and!; try lia; [unfold all in *; rewrite Ed, E; nia|]. unfold M. rewrite lor_high; [done|lia|done].
Qed.

Lemma di_split_spec nh nl sr : 1 ≤ sr < 32 → word 32 nh → word 32 nl → ∃ rh rl qh,
  di_split nh nl sr = Ok (rh, rl, qh, 0) ∧ word 32 rh ∧ word 32 rl ∧ word 32 qh ∧ all 32 rh rl = all 32 nh nl / 2 ^ sr ∧ all 32 qh 0 = all 32 nh nl mod 2 ^ sr * 2 ^ (64 - sr).
Proof.
  intros Hsr Hh Hl. destruct (split_words 32 nh nl sr ltac:(lia) Hh Hl) as (E1 & H1 & H2 & E2 & E3 & H3). unfold di_split. destruct (udiv_start 32 nh sr Hh Hsr) as [-> ->]. destruct (udiv_start 32 nl sr Hl Hsr) as [-> ->]. cbn [mbind result_bind]. rewrite E2.
  eexists _, _, _. split; [done|]. split_and!; try done. rewrite E3. unfold all. rewrite Z.add_0_r, <- Z.mul_assoc, <- Z.pow_add_r by lia. do 2 f_equal. lia.
Qed.

Lemma log2_high w h l : 0 ≤ w → 0 < h → word w l → Z.log2 (all w h l) = w + Z.log2 h.
Proof.
  intros Hw Hh Hl. unfold word, all in *. pose proof (Z.log2_nonneg h). apply Z.log2_unique; [lia|]. pose proof (Z.log2_spec h Hh) as Hs. unfold Z.succ in *. rewrite <- Z.add_assoc, !(Z.pow_add_r 2 w) by lia. nia.
Qed.

(** The position of the divisor's leading bit against the dividend's. *)
Lemma udiv_shift_high nh nl dh dl : 0 < nh → 0 < dh → word 32 nl → word 32 dl → udiv_shift 64 (all 32 nh nl) (all 32 dh dl) = u32 (clz 32 dh - clz 32 nh).
Proof.
  intros Hn Hd Hnl Hdl. assert (0 < all 32 nh nl ∧ 0 < all 32 dh dl) by (unfold all, word in *; lia). unfold udiv_shift. rewrite !(proj2 (Z.eqb_neq _ 0)) by lia. unfold clz. rewrite !log2_high by (done || lia). f_equal. lia.
Qed.

Lemma udiv_shift_low nh nl dl : 0 < nh → word 32 nl → 0 < dl → udiv_shift 64 (all 32 nh nl) dl = u32 (32 + clz 32 dl - clz 32 nh).
Proof.
  intros Hn Hnl Hd. assert (0 < all 32 nh nl) by (unfold all, word in *; lia). unfold udiv_shift. rewrite !(proj2 (Z.eqb_neq _ 0)) by lia. unfold clz. rewrite log2_high by (done || lia). f_equal. lia.
Qed.

Lemma power_of_two x : 0 < x < 2 ^ 32 → Z.land x (u32 (x - 1)) = 0 → let k := builtin_ctzl x in 0 ≤ k < 32 ∧ x = 2 ^ k ∧ ∀ y, Z.land y (u32 (x - 1)) = y mod 2 ^ k.
Proof.
  intros Hx E. cbv zeta. rewrite (cast_id 32 (x - 1)) in * by lia. destruct (proj1 (IsPowerOfTwo_iff x ltac:(lia))) as [->|(k & Hk & ->)]; [unfold IsPowerOfTwo; rewrite (cast_id 64 (x - 1)) by lia; by apply Z.eqb_eq|lia|].
  assert (k < 32) by (apply (Z.pow_lt_mono_r_iff 2); lia). destruct (builtin_ctzl_spec (2 ^ k) ltac:(lia)) as (Hc & Ht & _). rewrite pow2_testbit in Ht by lia. apply Z.eqb_eq in Ht. assert (builtin_ctzl (2 ^ k) = k) as -> by lia. split; [lia|]. split; [done|]. intros y. rewrite Z.sub_1_r, <- Z.ones_equiv. apply Z.land_ones. lia.
Qed.

Section Double.
Context (nh nl d : Z) (Hnh : word 32 nh) (Hnl : word 32 nl) (Hd : 0 < d < 2 ^ 64).
Let n := all 32 nh nl.

Definition ready (n d sr : Z) : Prop := 1 ≤ sr ≤ 63 ∧ n / 2 ^ sr < d ∧ (d ≤ 2 ^ 63 ∨ (sr = 1 ∧ 2 ^ 63 ≤ n)).

Lemma n_word : word 64 n.
Proof using Hnh Hnl. unfold n, all, word in *. lia. Qed.

Lemma loop_below sr : ready n d sr → sr < 32 → ('(rh, rl, qh, ql) ← di_split nh nl sr; Ok (di_loop d sr rh rl qh ql)) = Ok (n / d, n mod d).
Proof using Hnh Hnl Hd.
  intros (Hsr & Hlt & Hbig) Hs. destruct (di_split_spec nh nl sr ltac:(lia) Hnh Hnl) as (rh & rl & qh & -> & H1 & H2 & H3 & E1 & E2). cbn [mbind result_bind]. f_equal. apply di_loop_spec; try done; apply n_word || lia.
Qed.

Lemma loop_at : ready n d 32 → di_loop d 32 0 nh nl 0 = (n / d, n mod d).
Proof using Hnh Hnl Hd.
  intros (Hsr & Hlt & Hbig). destruct (div_unique n (2 ^ 32) nh nl) as [E1 E2]; [unfold n, all; lia|unfold word in *; lia|]. apply di_loop_spec; try done; [apply n_word|rewrite E2; unfold all; change (64 - 32) with 32; lia].
Qed.

Lemma loop_above sr : ready n d sr → 32 < sr →
  (ql ← shl 32 nl (64 - sr); x ← shl 32 nh (64 - sr); y ← shr 32 nl (sr - 32); rl ← shr 32 nh (sr - 32); Ok (di_loop d sr 0 rl (Z.lor x y) ql)) = Ok (n / d, n mod d).
Proof using Hnh Hnl Hd.
  intros (Hsr & Hlt & Hbig) Hs. set (k := sr - 32). replace (64 - sr) with (32 - k) by lia. destruct (split_words 32 nh nl k ltac:(lia) Hnh Hnl) as (E1 & H1 & H2 & E2 & E3 & H3). destruct (udiv_start 32 nh k Hnh ltac:(lia)) as [-> ->]. destruct (udiv_start 32 nl k Hnl ltac:(lia)) as [-> ->]. cbn [mbind result_bind]. rewrite E2. f_equal.
  assert (2 ^ sr = 2 ^ 32 * 2 ^ k) as Es by (rewrite <- Z.pow_add_r by lia; f_equal; lia). assert (0 < 2 ^ k) by lia. pose proof (Z.div_mod nh (2 ^ k) ltac:(lia)). pose proof (Z.mod_pos_bound nh (2 ^ k) ltac:(lia)). pose proof (Z.div_mod nl (2 ^ k) ltac:(lia)) as Dl. pose proof (pow2_split 32 k ltac:(lia)) as Ek.
  destruct (div_unique n (2 ^ sr) (nh / 2 ^ k) (nh mod 2 ^ k * 2 ^ 32 + nl)) as [D1 D2]; [rewrite Es; unfold n, all; lia|rewrite Es; unfold word in *; lia|].
  apply di_loop_spec; try done; [apply n_word|lia|]. rewrite D2. replace (64 - sr) with (32 - k) by lia. unfold all. assert (nl * 2 ^ (32 - k) = nl / 2 ^ k * 2 ^ 32 + nl mod 2 ^ k * 2 ^ (32 - k)) by (rewrite Dl at 1; rewrite Ek; ring). lia.
Qed.

Lemma ready_or_less : 0 < nh → n < d ∨ d = 1 ∨ ready n d (udiv_shift 64 n d + 1).
Proof using Hnh Hnl Hd. intros Hp. destruct (udiv_cases 64 n d ltac:(lia) n_word Hd) as [[_ ?]|[[_ ?]|(? & ? & ?)]]; [auto|auto|]. right; right. split; [lia|]. auto. Qed.

End Double.

(** The divisor's high word alone, a power of two. *)
Lemma div_high_pow2 nh nl dh : word 32 nh → word 32 nl → 0 < dh < 2 ^ 32 → Z.land dh (u32 (dh - 1)) = 0 →
  (q ← shr 32 nh (builtin_ctzl dh); Ok (q, all 32 (Z.land nh (u32 (dh - 1))) nl)) = Ok (all 32 nh nl / all 32 dh 0, all 32 nh nl mod all 32 dh 0).
Proof.
  intros Hnh Hnl Hdh E. destruct (power_of_two dh Hdh E) as (Hk & Ed & El). rewrite shr_ok, El by lia. cbn [mbind result_bind]. rewrite Z.shiftr_div_pow2 by lia. rewrite <- Ed. pose proof (Z.div_mod nh dh ltac:(lia)). pose proof (Z.mod_pos_bound nh dh ltac:(lia)).
  destruct (div_unique (all 32 nh nl) (all 32 dh 0) (nh / dh) (all 32 (nh mod dh) nl)) as [-> ->]; [unfold all; lia|unfold all, word in *; lia|done].
Qed.

(** The divisor's low word alone, a power of two. *)
Lemma div_low_pow2 nh nl dl : word 32 nh → word 32 nl → 1 < dl < 2 ^ 32 → Z.land dl (u32 (dl - 1)) = 0 → let sr := builtin_ctzl dl in
  (qh ← shr 32 nh sr; x ← shl 32 nh (32 - sr); y ← shr 32 nl sr; Ok (all 32 qh (Z.lor x y), Z.land nl (u32 (dl - 1)))) = Ok (all 32 nh nl / dl, all 32 nh nl mod dl).
Proof.
  intros Hnh Hnl Hdl E. cbv zeta. destruct (power_of_two dl ltac:(lia) E) as (Hk & Ed & El). set (k := builtin_ctzl dl) in *. assert (k ≠ 0) by (intros E0; rewrite E0 in Ed; change (2 ^ 0) with 1 in Ed; lia).
  destruct (split_words 32 nh nl k ltac:(lia) Hnh Hnl) as (E1 & _ & _ & E2 & E3 & _). destruct (udiv_start 32 nh k Hnh ltac:(lia)) as [-> ->]. destruct (udiv_start 32 nl k Hnl ltac:(lia)) as [-> _]. cbn [mbind result_bind]. rewrite El, E2, E1, Ed, E3. done.
Qed.

(** The leading bits of both high words. *)
Lemma div_high nh nl dh dl : word 32 nh → word 32 nl → word 32 dl → 0 < nh → 0 < dh < 2 ^ 32 → let sr := u32 (clz 32 dh - clz 32 nh) in let n := all 32 nh nl in let d := all 32 dh dl in
  (31 < sr ∧ n < d) ∨ (0 ≤ sr ≤ 31 ∧ ready n d (sr + 1) ∧ (dh ≠ 1 → sr < 31)).
Proof.
  intros Hnh Hnl Hdl Hp Hdh. cbv zeta. pose proof (udiv_shift_high nh nl dh dl Hp ltac:(lia) Hnl Hdl) as E. destruct (clz_range 32 dh Hdh) as [Hc Hc2]. destruct (clz_range 32 nh) as [Hk Hk2]; [unfold word in *; lia|].
  assert (0 < all 32 dh dl < 2 ^ 64) as Hd by (unfold all, word in *; lia). assert (word 64 (all 32 nh nl)) as Hn by (unfold all, word in *; lia). destruct (udiv_cases 64 _ _ ltac:(lia) Hn Hd) as [[H1 H2]|[[_ H1]|(H1 & H2 & H3)]]; [left; lia|unfold all, word in *; lia|].
  right. rewrite <- E. assert (udiv_shift 64 (all 32 nh nl) (all 32 dh dl) ≤ clz 32 dh - clz 32 nh).
  { rewrite E in *. destruct (Z.le_gt_cases (clz 32 nh) (clz 32 dh)); [rewrite cast_id; lia|]. unfold cast in H1. replace (clz 32 dh - clz 32 nh) with (2 ^ 32 + (clz 32 dh - clz 32 nh) + -1 * 2 ^ 32) in H1 by lia. rewrite Z_mod_plus_full, Z.mod_small in H1 by lia. lia. }
  split; [lia|]. split; [split; [lia|auto]|]. intros Hne. assert (clz 32 dh ≠ 31); [|lia]. intros E31. rewrite E31 in Hc2. change (2 ^ (32 - 1 - 31)) with 1 in Hc2. change (2 ^ (32 - 31)) with 2 in Hc2. lia.
Qed.

Lemma div_low nh nl dl : word 32 nh → word 32 nl → 0 < nh → 1 < dl < 2 ^ 32 → let sr := u32 (1 + 32 + clz 32 dl - clz 32 nh) in ready (all 32 nh nl) dl sr.
Proof.
  intros Hnh Hnl Hp Hdl. cbv zeta. pose proof (udiv_shift_low nh nl dl Hp Hnl ltac:(lia)) as E. destruct (clz_range 32 dl ltac:(lia)) as [Hc Hc2]. destruct (clz_range 32 nh) as [Hk Hk2]; [unfold word in *; lia|].
  assert (word 64 (all 32 nh nl)) as Hn by (unfold all, word in *; lia). rewrite (cast_id 32 (1 + _ + _ - _)) by lia. rewrite cast_id in E by lia. destruct (ready_or_less nh nl dl Hnh Hnl ltac:(lia) Hp) as [?|[?|H]]; [unfold all, word in *; lia|lia|]. rewrite E in H. by replace (1 + 32 + clz 32 dl - clz 32 nh) with (32 + clz 32 dl - clz 32 nh + 1) by lia.
Qed.

Lemma udivmoddi4_spec a b : 0 ≤ a < 2 ^ 64 → 0 < b < 2 ^ 64 → udivmoddi4 a b = Ok (a / b, a mod b).
Proof.
  intros Ha Hb. unfold udivmoddi4. destruct (halves 32 a ltac:(lia) Ha) as (Ea & Hnh & Hnl). destruct (halves 32 b ltac:(lia) ltac:(lia)) as (Eb & Hdh & Hdl). cbv zeta. revert Ea Eb Hnh Hnl Hdh Hdl. generalize (hi 32 a) (lo 32 a) (hi 32 b) (lo 32 b). intros nh nl dh dl -> -> Hnh Hnl Hdh Hdl.
  destruct (Z.eqb_spec nh 0) as [->|Hn0].
  { unfold all at 1 4. cbn [Z.mul Z.add]. destruct (Z.eqb_spec dh 0) as [->|]; [|rewrite Z.div_small, Z.mod_small by (unfold all, word in *; lia); done]. unfold all in *. rewrite udiv_ok by lia. done. }
  assert (0 < nh) as Hp by (unfold word in *; lia). destruct (Z.eqb_spec dl 0) as [->|Hdl0].
  - assert (0 < dh < 2 ^ 32) as Hdh' by (unfold all, word in *; lia). rewrite (proj2 (Z.eqb_neq dh 0)) by lia. destruct (Z.eqb_spec nl 0) as [->|].
    { pose proof (Z.div_mod nh dh ltac:(lia)). pose proof (Z.mod_pos_bound nh dh ltac:(lia)). destruct (div_unique (all 32 nh 0) (all 32 dh 0) (nh / dh) (all 32 (nh mod dh) 0)) as [-> ->]; [unfold all; lia|unfold all; lia|done]. }
    destruct (Z.eqb_spec (Z.land dh (u32 (dh - 1))) 0); [by apply div_high_pow2|]. destruct (div_high nh nl dh 0 Hnh Hnl Hdl Hp Hdh') as [[H1 H2]|(H1 & H2 & H3)].
    + rewrite (proj2 (Z.ltb_lt _ _)), Z.div_small, Z.mod_small by (unfold all, word in *; lia). done.
    + assert (dh ≠ 1) as Hne by (intros ->; done). specialize (H3 Hne). rewrite (proj2 (Z.ltb_ge _ _)) by lia. apply loop_below; (done || lia).
  - destruct (Z.eqb_spec dh 0) as [->|Hdh0].
    + replace (all 32 0 dl) with dl in * by (unfold all; lia). destruct (Z.eqb_spec (Z.land dl (u32 (dl - 1))) 0) as [El|El].
      { destruct (Z.eqb_spec dl 1) as [->|]; [rewrite Z.div_1_r, Z.mod_1_r, cast_id, Z.land_0_r by lia; done|]. apply div_low_pow2; (done || unfold word in *; lia). }
      assert (dl ≠ 1) by (intros ->; done). pose proof (div_low nh nl dl Hnh Hnl Hp ltac:(unfold word in *; lia)) as Hr. set (sr := u32 (1 + 32 + clz 32 dl - clz 32 nh)) in *. destruct (Z.eqb_spec sr 32) as [->|]; [f_equal; by apply loop_at|]. destruct (Z.ltb_spec sr 32); [by apply loop_below|]. apply loop_above; (done || lia).
    + destruct (div_high nh nl dh dl Hnh Hnl Hdl Hp ltac:(unfold word in *; lia)) as [[H1 H2]|(H1 & H2 & _)].
      * rewrite (proj2 (Z.ltb_lt _ _)), Z.div_small, Z.mod_small by (unfold all, word in *; lia). done.
      * rewrite (proj2 (Z.ltb_ge _ _)) by lia. destruct (Z.eqb_spec (u32 (clz 32 dh - clz 32 nh) + 1) 32) as [E|]; [rewrite E in *; f_equal; by apply loop_at|]. apply loop_below; (done || lia).
Qed.

Lemma cast_signed w x : cast w (signed w x) = cast w x.
Proof.
  unfold signed. case_match; [apply cast_cast|]. replace (cast w x - 2 ^ w) with (cast w x + -1 * 2 ^ w) by lia. unfold cast at 1. rewrite Z_mod_plus_full. apply cast_cast.
Qed.

Lemma udivmodsi4_spec a b : 0 ≤ a < 2 ^ 32 → 0 < b < 2 ^ 32 → udivmodsi4 a b = Ok (a / b, a mod b).
Proof.
  intros Ha Hb. unfold udivmodsi4. rewrite (proj1 (udivXi3_spec 32 a b ltac:(lia) Ha Hb)). cbn [mbind result_bind]. pose proof (Z.div_mod a b ltac:(lia)). pose proof (Z.mod_pos_bound a b ltac:(lia)). assert (0 ≤ a / b ≤ a) by (split; [apply Z.div_pos; lia|apply Z.div_le_upper_bound; nia]).
  rewrite cast_signed, (cast_id 32 (a / b)) by lia.
  rewrite (cast_id 32 (a / b * b)) by nia. rewrite cast_id by nia. do 2 f_equal. lia.
Qed.

(** ** Words of 64 bits *)
(** A digit of the quotient: [u] is below the divisor, [un] is the next digit of the dividend. *)
Lemma qhat_loop_spec fuel : ∀ q rhat vn1 vn0 un u, let B := 2 ^ 32 in let v := vn1 * B + vn0 in
  0 < vn1 < B → 0 ≤ vn0 < B → 0 ≤ un < B → 0 ≤ u < v → 0 ≤ q ≤ B + 1 → rhat = u - q * vn1 → 0 ≤ rhat < B → (u * B + un) / v ≤ q → B ≤ rhat + Z.of_nat fuel * vn1 →
  qhat_loop fuel q rhat vn1 vn0 un = Ok ((u * B + un) / v).
Proof.
  induction fuel as [|fuel IH]; intros q rhat vn1 vn0 un u B v Hv1 Hv0 Hun Hu Hq Er Hr HQ Hf; [lia|]. cbn [qhat_loop]. fold B. unfold v in *. set (V := vn1 * B + vn0) in *. set (U := u * B + un) in *. assert (0 < V) by (unfold V; nia).
  pose proof (Z.div_mod U V ltac:(lia)) as Hd. pose proof (Z.mod_pos_bound U V ltac:(lia)) as Hm. set (Q := U / V) in *. assert (0 ≤ Q) by (apply Z.div_pos; unfold U; nia). assert (Q < B) by (apply Z.div_lt_upper_bound; unfold U, V in *; nia).
  assert (q * V - U = q * vn0 - (B * rhat + un)) as Eqv by (unfold V, U; rewrite Er; ring). assert (0 ≤ q * vn0 < 2 ^ 64) by (split; [lia|]; apply (Z.le_lt_trans _ ((B + 1) * (B - 1))); [apply Z.mul_le_mono_nonneg; lia|unfold B; lia]).
  rewrite (cast_id 64 (B * rhat + un)) by (unfold B in *; lia). rewrite (cast_id 64 (q * vn0)) by done. destruct (Z.leb_spec B q); cbn [orb]; [|destruct (Z.ltb_spec (B * rhat + un) (q * vn0))].
  3: { f_equal. assert (q * V < (Q + 1) * V) by lia. assert (q < Q + 1) by (apply (Z.mul_lt_mono_pos_r V); lia). lia. }
  all: assert (Q < q) by (lia || (apply (Z.mul_lt_mono_pos_r V); lia)).
  all: rewrite (cast_id 64 (q - 1)), (cast_id 64 (rhat + vn1)) by (unfold B in *; lia); destruct (Z.leb_spec B (rhat + vn1)).
  all: try (apply (IH (q - 1) (rhat + vn1) vn1 vn0 un u); fold B; fold V; fold U; fold Q; lia).
  all: f_equal; assert ((q - 1) * V < (Q + 1) * V); [|assert (q - 1 < Q + 1) by (apply (Z.mul_lt_mono_pos_r V); lia); lia].
  all: assert ((q - 1) * V - U = (q - 1) * vn0 - (B * (rhat + vn1) + un)) by (unfold V, U; rewrite Er; ring); assert ((q - 1) * vn0 ≤ B * (B - 1)) by (apply Z.mul_le_mono_nonneg; lia); assert (B * B ≤ B * (rhat + vn1)) by (apply Z.mul_le_mono_nonneg_l; lia); lia.
Qed.

(** One step of the long division, remainder included. *)
Lemma qhat_digit u un v : let B := 2 ^ 32 in 2 ^ 63 ≤ v < 2 ^ 64 → 0 ≤ un < B → 0 ≤ u < v →
  (∃ q, udiv u (Z.shiftr v 32) = Ok q ∧ qhat_loop 2 q (u64 (u - u64 (q * Z.shiftr v 32))) (Z.shiftr v 32) (Z.land v (2 ^ 32 - 1)) un = Ok ((u * B + un) / v)) ∧
  u64 (u * B + un - (u * B + un) / v * v) = (u * B + un) mod v.
Proof.
  intros B Hv Hun Hu. rewrite Z.shiftr_div_pow2 by lia. replace (2 ^ 32 - 1) with (Z.ones 32) by done. rewrite Z.land_ones by lia. fold B. set (vn1 := v / B). set (vn0 := v mod B).
  assert (v = vn1 * B + vn0) as Ev by (pose proof (Z.div_mod v B ltac:(done)); unfold vn1, vn0; lia). assert (0 ≤ vn0 < B) as Hv0 by (apply Z.mod_pos_bound; done). assert (2 ^ 31 ≤ vn1 < B) as Hv1 by (unfold B in *; lia).
  pose proof (Z.div_mod u vn1 ltac:(lia)) as Hd. pose proof (Z.mod_pos_bound u vn1 ltac:(lia)) as Hm. assert (0 ≤ u / vn1) by (apply Z.div_pos; lia). split.
  - exists (u / vn1). split; [apply udiv_ok; lia|]. rewrite (cast_id 64 (u / vn1 * vn1)) by lia. rewrite (cast_id 64 (u - _)) by lia. rewrite Ev.
    assert (u / vn1 < B + 2) by (apply Z.div_lt_upper_bound; unfold B in *; lia). apply qhat_loop_spec; fold B; try lia. apply Z.lt_succ_r. apply Z.div_lt_upper_bound; [lia|]. unfold B in *. nia.
  - pose proof (Z.div_mod (u * B + un) v ltac:(lia)). pose proof (Z.mod_pos_bound (u * B + un) v ltac:(lia)). rewrite cast_id; lia.
Qed.

(** The operands shifted until the divisor's top bit is set. *)
Lemma normalise u1 u0 v : 0 ≤ u1 < v → 0 ≤ u0 < 2 ^ 64 → v < 2 ^ 64 → let s := clz 64 v in ∃ un64 un10,
  (if 0 <? s then v' ← shl 64 v s; x ← shl 64 u1 s; y ← shr 64 u0 (64 - s); un10 ← shl 64 u0 s; Ok (v', Z.lor x y, un10) else Ok (v, u1, u0)) = Ok (v * 2 ^ s, un64, un10) ∧
  0 ≤ s < 64 ∧ 2 ^ 63 ≤ v * 2 ^ s < 2 ^ 64 ∧ 0 ≤ un64 < v * 2 ^ s ∧ 0 ≤ un10 < 2 ^ 64 ∧ un64 * 2 ^ 64 + un10 = (u1 * 2 ^ 64 + u0) * 2 ^ s.
Proof.
  intros Hu1 Hu0 Hv. cbv zeta. destruct (clz_range 64 v ltac:(lia)) as [Hs Hr]. set (s := clz 64 v) in *. assert (0 < 2 ^ s) by lia. assert (2 ^ 64 = 2 ^ (64 - s) * 2 ^ s) as E by (rewrite <- Z.pow_add_r by lia; f_equal; lia). assert (2 ^ 63 = 2 ^ (64 - 1 - s) * 2 ^ s) as E' by (rewrite <- Z.pow_add_r by lia; f_equal; lia).
  assert (2 ^ 63 ≤ v * 2 ^ s < 2 ^ 64) as Hv' by (rewrite E', E; split; [apply Z.mul_le_mono_nonneg_r; lia|apply Z.mul_lt_mono_pos_r; lia]).
  destruct (Z.ltb_spec 0 s) as [Hp|Hz].
  - rewrite (shl_ok 64 v), (shl_ok 64 u1) by lia. destruct (udiv_start 64 u0 (64 - s) Hu0 ltac:(lia)) as [-> Es]. replace (64 - (64 - s)) with s in Es by lia. rewrite Es. cbn [mbind result_bind]. rewrite !Z.shiftl_mul_pow2 by lia.
    assert (u1 * 2 ^ s ≤ (v - 1) * 2 ^ s) by (apply Z.mul_le_mono_nonneg_r; lia). rewrite (cast_id 64 (v * _)), (cast_id 64 (u1 * _)) by lia. assert (0 ≤ u0 / 2 ^ (64 - s) < 2 ^ s) as Hy by (split; [apply Z.div_pos; lia|apply Z.div_lt_upper_bound; lia]). rewrite lor_high by lia.
    eexists _, _. split; [done|]. pose proof (Z.div_mod u0 (2 ^ (64 - s)) ltac:(lia)) as Hd. pose proof (Z.mod_pos_bound u0 (2 ^ (64 - s)) ltac:(lia)) as Hm. split_and!; try lia; [rewrite E; apply Z.mul_lt_mono_pos_r; lia|]. assert (u0 * 2 ^ s = u0 / 2 ^ (64 - s) * 2 ^ 64 + u0 mod 2 ^ (64 - s) * 2 ^ s) by (rewrite Hd at 1; rewrite E; ring). lia.
  - assert (s = 0) as -> by lia. exists u1, u0. change (2 ^ 0) with 1. split; [do 3 f_equal; lia|]. lia.
Qed.

Lemma udiv128by64to64default_spec u1 u0 v : 0 ≤ u1 < v → 0 ≤ u0 < 2 ^ 64 → v < 2 ^ 64 → let u := all 64 u1 u0 in udiv128by64to64default u1 u0 v = Ok (u / v, u mod v).
Proof.
  intros Hu1 Hu0 Hv. cbv zeta. unfold udiv128by64to64default, all. destruct (normalise u1 u0 v Hu1 Hu0 Hv) as (un64 & un10 & -> & Hs & Hv' & H64 & H10 & E). cbn [mbind result_bind]. set (s := clz 64 v) in *. set (v' := v * 2 ^ s) in *. set (B := 2 ^ 32).
  replace (Z.shiftr un10 32) with (un10 / B) by (rewrite Z.shiftr_div_pow2; done). replace (Z.land un10 (B - 1)) with (un10 mod B) by (symmetry; apply (Z.land_ones un10 32); lia). set (n1 := un10 / B). set (n0 := un10 mod B).
  assert (0 ≤ n1 < B ∧ 0 ≤ n0 < B ∧ un10 = n1 * B + n0) as (Hn1 & Hn0 & E10) by (unfold n1, n0, B; Z.div_mod_to_equations; lia).
  destruct (qhat_digit un64 n1 v' Hv' Hn1 H64) as [(q1 & -> & Eq1) Er1]. cbn [mbind result_bind]. fold B in Eq1, Er1. rewrite Eq1. cbn [mbind result_bind]. rewrite Er1. set (q1' := (un64 * B + n1) / v') in *. set (u21 := (un64 * B + n1) mod v') in *.
  assert (0 ≤ u21 < v') as H21 by (apply Z.mod_pos_bound; lia). pose proof (Z.div_mod (un64 * B + n1) v' ltac:(lia)) as D1. fold q1' u21 in D1.
  destruct (qhat_digit u21 n0 v' Hv' Hn0 H21) as [(q0 & -> & Eq0) Er0]. cbn [mbind result_bind]. fold B in Eq0, Er0. rewrite Eq0. cbn [mbind result_bind]. rewrite Er0. set (q0' := (u21 * B + n0) / v') in *. set (r' := (u21 * B + n0) mod v') in *.
  assert (0 ≤ r' < v') as Hr' by (apply Z.mod_pos_bound; lia). pose proof (Z.div_mod (u21 * B + n0) v' ltac:(lia)) as D0. fold q0' r' in D0.
  destruct (div_unique ((u1 * 2 ^ 64 + u0) * 2 ^ s) v' (q1' * B + q0') r') as [Dq Dr]; [rewrite <- E, E10; change (2 ^ 64) with (B * B); lia|done|].
  unfold v' in Dq, Dr. rewrite Z.div_mul_cancel_r in Dq by lia. rewrite Z.mul_mod_distr_r in Dr by lia. assert (0 ≤ (u1 * 2 ^ 64 + u0) / v < 2 ^ 64) by (split; [apply Z.div_pos; lia|apply Z.div_lt_upper_bound; nia]).
  rewrite (cast_id 64 (q1' * B + q0')) by lia. rewrite <- Dq, <- Dr. rewrite shr_ok by lia. cbn [mbind result_bind]. rewrite Z.shiftr_div_pow2, Z.div_mul by lia. done.
Qed.

Lemma ti_round_spec a q dv D : 0 ≤ a < 2 ^ 128 → 2 ^ 64 ≤ D < 2 ^ 128 → 0 ≤ q → 0 ≤ dv < 2 * D → D - dv - 1 < 2 ^ 127 → a = q * (2 * D) + dv →
  ∃ q' dv', ti_round (q, dv, D) = (q', dv', D / 2) ∧ 0 ≤ q' ∧ 0 ≤ dv' < D ∧ a = q' * D + dv'.
Proof.
  intros Ha HD Hq Hdv Hbig E. assert (q < 2 ^ 63) by nia. assert (dv ≤ a) by nia. unfold ti_round. rewrite compare_subtract_spec by lia. rewrite Z.shiftl_mul_pow2, Z.shiftr_div_pow2 by lia. rewrite (cast_id 64 (q * 2 ^ 1)) by lia. change (2 ^ 1) with 2. rewrite (Z.mul_comm q 2).
  destruct (Z.leb_spec D dv); rewrite lor_low by auto; eexists _, _; (split; [done|lia]).
Qed.

Lemma ti_loop_spec a b (k : nat) : ∀ q dv, 0 ≤ a < 2 ^ 128 → 2 ^ 64 ≤ b → b * 2 ^ Z.of_nat k < 2 ^ 128 → 0 ≤ q → 0 ≤ dv < 2 * (b * 2 ^ Z.of_nat k) → b * 2 ^ Z.of_nat k - dv - 1 < 2 ^ 127 →
  a = q * (2 * (b * 2 ^ Z.of_nat k)) + dv → ∃ D, Nat.iter (S k) ti_round (q, dv, b * 2 ^ Z.of_nat k) = (a / b, a mod b, D).
Proof.
  induction k as [|k IH]; intros q dv Ha Hb HD Hq Hdv Hbig E.
  - rewrite Nat2Z.inj_0 in *. change (2 ^ 0) with 1 in *. rewrite Z.mul_1_r in *. destruct (ti_round_spec a q dv b) as (q' & dv' & Er & Hq' & Hdv' & E'); try done; [lia..|]. cbn [Nat.iter nat_rect]. rewrite Er. destruct (div_unique a b q' dv') as [-> ->]; [lia|lia|]. by eexists.
  - rewrite Nat2Z.inj_succ, Z.pow_succ_r in * by lia. set (K := 2 ^ Z.of_nat k) in *. assert (0 < K) by (unfold K; lia). replace (b * (2 * K)) with (2 * (b * K)) in * by lia. assert (b ≤ b * K) by nia. destruct (ti_round_spec a q dv (2 * (b * K))) as (q' & dv' & Er & Hq' & Hdv' & E'); try done; [lia..|].
    rewrite Nat.iter_succ_r, Er. rewrite Z.mul_comm, Z.div_mul by lia. apply IH; fold K; try done; lia.
Qed.

Lemma udivmodti4_spec a b : 0 ≤ a < 2 ^ 128 → 0 < b < 2 ^ 128 → udivmodti4 a b = Ok (a / b, a mod b).
Proof.
  intros Ha Hb. unfold udivmodti4. destruct (Z.ltb_spec a b); [rewrite Z.div_small, Z.mod_small by lia; done|]. destruct (halves 64 a ltac:(lia) Ha) as (Ea & Hah & Hal). destruct (halves 64 b ltac:(lia) ltac:(lia)) as (Eb & Hbh & Hbl). cbv zeta. unfold word in *.
  revert Ea Eb Hah Hal Hbh Hbl. generalize (hi 64 a) (lo 64 a) (hi 64 b) (lo 64 b). intros ah al bh bl Ea Eb Hah Hal Hbh Hbl. destruct (Z.eqb_spec bh 0) as [->|Hbh0].
  - assert (b = bl) as <- by (unfold all in Eb; lia). clear Eb. destruct (Z.ltb_spec ah b).
    + rewrite udiv128by64to64default_spec by lia. cbn [mbind result_bind]. by subst a.
    + rewrite udiv_ok by lia. cbn [mbind result_bind]. pose proof (Z.mod_pos_bound ah b ltac:(lia)) as Hm. rewrite udiv128by64to64default_spec by lia. cbn [mbind result_bind]. pose proof (Z.div_mod ah b ltac:(lia)) as D1. pose proof (Z.div_mod (all 64 (ah mod b) al) b ltac:(lia)) as D2. pose proof (Z.mod_pos_bound (all 64 (ah mod b) al) b ltac:(lia)).
      destruct (div_unique a b (all 64 (ah / b) (all 64 (ah mod b) al / b)) (all 64 (ah mod b) al mod b)) as [-> ->]; [unfold all in *; lia|done|done].
  - assert (0 < bh) by lia. assert (0 < ah) by (unfold all in *; lia). pose proof (log2_high 64 ah al ltac:(lia) ltac:(lia) Hal) as La. pose proof (log2_high 64 bh bl ltac:(lia) ltac:(lia) Hbl) as Lb. rewrite <- Ea in La. rewrite <- Eb in Lb.
    assert (Z.log2 b ≤ Z.log2 a) by (by apply Z.log2_le_mono). assert (clz 64 bh - clz 64 ah = Z.log2 a - Z.log2 b) as -> by (unfold clz; lia). set (k := Z.log2 a - Z.log2 b).
    pose proof (Z.log2_nonneg bh). assert (Z.log2 a < 128) by (apply Z.log2_lt_pow2; lia). pose proof (Z.log2_spec a ltac:(lia)) as Sa. pose proof (Z.log2_spec b ltac:(lia)) as Sb. unfold Z.succ in *.
    assert (2 ^ Z.log2 a = 2 ^ Z.log2 b * 2 ^ k) as Ek by (rewrite <- Z.pow_add_r by lia; f_equal; lia). assert (2 ^ (Z.log2 a + 1) ≤ 2 ^ 128) by (apply Z.pow_le_mono_r; lia). rewrite Z.pow_add_r in * by lia. change (2 ^ 1) with 2 in *. assert (0 < 2 ^ k) by (apply Z.pow_pos_nonneg; lia).
    assert (2 ^ Z.log2 a ≤ b * 2 ^ k < 2 * 2 ^ Z.log2 a) as HD by (rewrite Ek; nia). rewrite shl_ok by lia. cbn [mbind result_bind]. rewrite Z.shiftl_mul_pow2 by lia. rewrite (cast_id 128 (b * _)) by lia.
    destruct (ti_loop_spec a b (Z.to_nat k) 0 a) as (D & Ei); rewrite ?Z2Nat.id by lia; try lia; [unfold all in *; lia|]. rewrite Z2Nat.id in Ei by lia. replace (Z.to_nat (k + 1)) with (S (Z.to_nat k)) by lia. rewrite Ei. done.
Qed.

(** ** Signed division *)
(** What the signed functions rely on. *)
Class DivMod (N : Z) (udivmod : Z → Z → result (Z * Z)) : Prop :=
  divmod_ok a b : 0 ≤ a < 2 ^ N → 0 < b < 2 ^ N → udivmod a b = Ok (a / b, a mod b).

Definition in_int (N a : Z) : Prop := - 2 ^ (N - 1) ≤ a < 2 ^ (N - 1).

Section Signed.
Context (N : Z) (udivmod : Z → Z → result (Z * Z)) {D : DivMod N udivmod} (HN : 1 < N).

Lemma sign_shift a : in_int N a → Z.shiftr a (N - 1) = if a <? 0 then -1 else 0.
Proof using HN.
  intros Ha. rewrite Z.shiftr_div_pow2 by lia. unfold in_int in Ha. destruct (Z.ltb_spec a 0); [|apply Z.div_small; lia]. symmetry. apply (Z.div_unique_pos _ _ _ (a + 2 ^ (N - 1))); lia.
Qed.

Lemma lxor_m1 q : Z.lxor q (-1) = - q - 1.
Proof using Type. rewrite Z.lxor_m1_r. unfold Z.lnot. lia. Qed.

Lemma cast_m1 : cast N (-1) = 2 ^ N - 1.
Proof using HN. unfold cast. symmetry. assert (1 < 2 ^ N) by (apply Z.pow_gt_1; lia). apply (Z.mod_unique_pos _ _ (-1)); lia. Qed.

Lemma cast_congr x y k : x = y + k * 2 ^ N → cast N x = cast N y.
Proof using Type. intros ->. unfold cast. apply Z_mod_plus_full. Qed.

(** The magnitude, as an unsigned number. *)
Lemma magnitude a : in_int N a → let s := Z.shiftr a (N - 1) in cast N (cast N (Z.lxor a s) + cast N (- s)) = Z.abs a.
Proof using HN.
  intros Ha. cbv zeta. rewrite sign_shift by done. unfold in_int in Ha. pose proof (pow2_half N ltac:(lia)). assert (1 ≤ 2 ^ (N - 1)) by lia. destruct (Z.ltb_spec a 0).
  - rewrite lxor_m1. rewrite !cast_id; [lia| | |]; rewrite ?cast_id; lia.
  - rewrite Z.lxor_0_r. rewrite !cast_id; [lia| | |]; rewrite ?cast_id; lia.
Qed.

(** The result with its sign. *)
Lemma negate_if s q : (s = 0 ∨ s = -1) → 0 ≤ q < 2 ^ N → let x := if s =? 0 then q else - q in
  cast N (Z.lxor q (cast N s) + cast N (- s)) = cast N x ∧ cast N (Z.lxor q (cast N s) - cast N s) = cast N x.
Proof using HN.
  intros Hs Hq. cbv zeta. assert (1 < 2 ^ N) by (apply Z.pow_gt_1; lia). destruct Hs as [->| ->]; cbn [Z.eqb].
  - rewrite Z.opp_0. rewrite (cast_id N 0) by lia. rewrite Z.lxor_0_r. split; f_equal; lia.
  - rewrite cast_m1. assert (Z.lxor q (2 ^ N - 1) = 2 ^ N - 1 - q) as ->.
    { assert (2 ^ N - 1 = Z.ones N) as -> by (rewrite Z.ones_equiv; lia). apply (bits_eq N); [|rewrite Z.ones_equiv; lia|].
      - apply bits_range; [lia|apply Z.lxor_nonneg; rewrite Z.ones_equiv; lia|]. intros j Hj. rewrite Z.lxor_spec, (testbit_high N q j) by lia. rewrite Z.ones_spec_high by lia. done.
      - intros j Hj. rewrite Z.lxor_spec, Z.ones_spec_low by lia. rewrite xorb_true_r. rewrite Z.ones_equiv. replace (Z.pred (2 ^ N) - q) with (Z.lnot q + 1 * 2 ^ N) by (unfold Z.lnot; lia).
        rewrite <- (Z.mod_pow2_bits_low (Z.lnot q + 1 * 2 ^ N) N) by lia. rewrite Z_mod_plus_full, Z.mod_pow2_bits_low by lia. by rewrite Z.lnot_spec by lia. }
    split; [apply (cast_congr _ _ 1); change (- -1) with 1; rewrite cast_id; lia|apply (cast_congr _ _ 0); lia].
Qed.

Lemma sign_xor a b : in_int N a → in_int N b → let s := Z.lxor (Z.shiftr a (N - 1)) (Z.shiftr b (N - 1)) in (s = 0 ∨ s = -1) ∧ (s =? 0) = eqb (a <? 0) (b <? 0).
Proof using HN. intros Ha Hb. cbv zeta. rewrite !sign_shift by done. destruct (a <? 0), (b <? 0); cbn; auto. Qed.

Lemma quot_abs a b : b ≠ 0 → Z.quot a b = if eqb (a <? 0) (b <? 0) then Z.abs a / Z.abs b else - (Z.abs a / Z.abs b).
Proof using Type.
  intros Hb. rewrite Z.quot_div by done. destruct (Z.ltb_spec a 0), (Z.ltb_spec b 0); cbn [eqb]; rewrite ?(Z.sgn_neg a), ?(Z.sgn_neg b), ?(Z.sgn_pos b) by lia; try lia.
  all: destruct (decide (a = 0)) as [->|]; [rewrite Z.abs_0, Z.div_0_l by lia; lia|]; rewrite (Z.sgn_pos a) by lia; lia.
Qed.

Lemma rem_abs a b : b ≠ 0 → Z.rem a b = if a <? 0 then - (Z.abs a mod Z.abs b) else Z.abs a mod Z.abs b.
Proof using Type.
  intros Hb. rewrite Z.rem_mod by done. destruct (Z.ltb_spec a 0); [rewrite (Z.sgn_neg a) by lia; lia|]. destruct (decide (a = 0)) as [->|]; [by rewrite Z.abs_0, Z.mod_0_l by lia|]. rewrite (Z.sgn_pos a) by lia. lia.
Qed.

Lemma unsigned_ok a b : in_int N a → in_int N b → b ≠ 0 → udivmod (Z.abs a) (Z.abs b) = Ok (Z.abs a / Z.abs b, Z.abs a mod Z.abs b) ∧
  0 ≤ Z.abs a / Z.abs b < 2 ^ N ∧ 0 ≤ Z.abs a mod Z.abs b < 2 ^ (N - 1).
Proof using D HN.
  intros Ha Hb Hb0. unfold in_int in *. pose proof (pow2_half N ltac:(lia)). split; [apply D; lia|]. pose proof (Z.mod_pos_bound (Z.abs a) (Z.abs b) ltac:(lia)). pose proof (Z.div_pos (Z.abs a) (Z.abs b) ltac:(lia) ltac:(lia)).
  assert (Z.abs a / Z.abs b ≤ Z.abs a) by (apply Z.div_le_upper_bound; nia). lia.
Qed.

Lemma divXi3_spec a b : in_int N a → in_int N b → b ≠ 0 → divXi3 N udivmod a b = Ok (signed N (cast N (Z.quot a b))).
Proof using D HN.
  intros Ha Hb Hb0. unfold divXi3. rewrite (magnitude a Ha), (magnitude b Hb). destruct (unsigned_ok a b Ha Hb Hb0) as (-> & Hq & _). cbn [mbind result_bind]. destruct (sign_xor a b Ha Hb) as [Hs Es]. rewrite (proj1 (negate_if _ _ Hs Hq)). rewrite Es, quot_abs by done. done.
Qed.

Lemma quot_fits a b m : - m ≤ a < m → b ≠ 0 → (a ≠ - m ∨ b ≠ -1) → - m ≤ Z.quot a b < m.
Proof using Type.
  intros Ha Hb Hor. assert (0 < m) by lia. rewrite quot_abs by done. assert (0 ≤ Z.abs a / Z.abs b) by (apply Z.div_pos; lia). assert (Z.abs a / Z.abs b ≤ Z.abs a) by (apply Z.div_le_upper_bound; nia).
  destruct (decide (Z.abs a < m)); [destruct (eqb _ _); lia|]. assert (a = - m) as -> by lia. destruct (Z.ltb_spec (- m) 0); [|lia]. destruct (Z.ltb_spec b 0); cbn [eqb]; [|lia]. assert (Z.abs (- m) / Z.abs b < m) by (apply Z.div_lt_upper_bound; nia). lia.
Qed.

(** Only the minimum divided by -1 does not fit. *)
Lemma quot_wrap a b : in_int N a → in_int N b → b ≠ 0 → signed N (cast N (Z.quot a b)) = if (a =? - 2 ^ (N - 1)) && (b =? -1) then - 2 ^ (N - 1) else Z.quot a b.
Proof using HN.
  intros Ha Hb Hb0. unfold in_int in *. pose proof (pow2_half N ltac:(lia)) as Eh. assert (0 < 2 ^ (N - 1)) by lia. destruct (Z.eqb_spec a (- 2 ^ (N - 1))) as [->|Hne]; cbn [andb]; [destruct (Z.eqb_spec b (-1)) as [->|]|].
  - assert (Z.quot (- 2 ^ (N - 1)) (-1) = 2 ^ (N - 1)) as -> by (change (-1) with (- (1)); rewrite Z.quot_opp_opp by lia; apply Z.quot_1_r). rewrite (cast_congr _ (- 2 ^ (N - 1)) 1) by lia. apply signed_cast; lia.
  - apply signed_cast; [lia|]. apply quot_fits; lia.
  - apply signed_cast; [lia|]. apply quot_fits; lia.
Qed.

Lemma sign_values a : in_int N a → Z.shiftr a (N - 1) = 0 ∨ Z.shiftr a (N - 1) = -1.
Proof using HN. intros Ha. rewrite sign_shift by done. case_match; auto. Qed.

Lemma modXi3_spec a b : in_int N a → in_int N b → b ≠ 0 → modXi3 N udivmod a b = Ok (Z.rem a b).
Proof using D HN.
  intros Ha Hb Hb0. unfold modXi3. rewrite (magnitude a Ha), (magnitude b Hb). destruct (unsigned_ok a b Ha Hb Hb0) as (-> & _ & Hr). cbn [mbind result_bind]. pose proof (pow2_half N ltac:(lia)).
  rewrite (proj1 (negate_if _ (Z.abs a mod Z.abs b) (sign_values a Ha) ltac:(lia))). rewrite (sign_shift a Ha), rem_abs by done. do 2 f_equal. rewrite signed_cast; [by destruct (a <? 0)|lia|destruct (a <? 0); cbn [Z.eqb]; lia].
Qed.

Lemma ssub_sign a : in_int N a → ssub N (Z.lxor a (Z.shiftr a (N - 1))) (Z.shiftr a (N - 1)) = if a =? - 2 ^ (N - 1) then Fault SignedOverflow else Ok (Z.abs a).
Proof using HN.
  intros Ha. rewrite sign_shift by done. unfold in_int in Ha. assert (0 < 2 ^ (N - 1)) by lia. unfold ssub. destruct (Z.ltb_spec a 0); [rewrite lxor_m1|rewrite Z.lxor_0_r].
  - destruct (Z.eqb_spec a (- 2 ^ (N - 1))); [rewrite bool_decide_false by lia; done|]. rewrite bool_decide_true by lia. f_equal. lia.
  - rewrite (proj2 (Z.eqb_neq _ _)) by lia. rewrite bool_decide_true by lia. f_equal. lia.
Qed.

Lemma divmodXi4_spec a b : in_int N a → in_int N b → b ≠ 0 →
  divmodXi4 N udivmod a b = if (a =? - 2 ^ (N - 1)) || (b =? - 2 ^ (N - 1)) then Fault SignedOverflow else Ok (Z.quot a b, Z.rem a b).
Proof using D HN.
  intros Ha Hb Hb0. unfold divmodXi4. rewrite (ssub_sign a Ha), (ssub_sign b Hb). destruct (Z.eqb_spec a (- 2 ^ (N - 1))); [done|]. cbn [mbind result_bind orb]. destruct (Z.eqb_spec b (- 2 ^ (N - 1))); [done|]. cbn [mbind result_bind].
  pose proof (pow2_half N ltac:(lia)). destruct (unsigned_ok a b Ha Hb Hb0) as (Eu & Hq & Hr). rewrite (cast_id N (Z.abs a)), (cast_id N (Z.abs b)) by (unfold in_int in *; lia). rewrite Eu. cbn [mbind result_bind]. destruct (sign_xor b a Hb Ha) as [Hs Es].
  rewrite (proj2 (negate_if _ _ Hs Hq)), (proj2 (negate_if _ (Z.abs a mod Z.abs b) (sign_values a Ha) ltac:(lia))). rewrite Es, (sign_shift a Ha), quot_abs, rem_abs by done. unfold in_int in *.
  assert (Z.abs a / Z.abs b ≤ Z.abs a) by (apply Z.div_le_upper_bound; nia). rewrite !signed_cast; [|lia|destruct (a <? 0); cbn [Z.eqb]; lia|lia|destruct (eqb _ _); lia]. destruct (a <? 0), (b <? 0); done.
Qed.

End Signed.

#[export] Instance udivmodsi4_DivMod : DivMod 32 udivmodsi4 := udivmodsi4_spec.
#[export] Instance udivmoddi4_DivMod : DivMod 64 udivmoddi4 := udivmoddi4_spec.
#[export] Instance udivmodti4_DivMod : DivMod 128 udivmodti4 := udivmodti4_spec.

(** ** The theorems *)
(** The shift-and-subtract division of any word size returns the quotient, its twin the
    remainder: the shift counts stay below the width, the loop restores the dividend's bits one by one
    and the comparison by sign bit agrees with the unsigned one, for operands of any size. *)
Theorem udivXi3_correct N n d : 1 < N < 2 ^ 31 → 0 ≤ n < 2 ^ N → 0 < d < 2 ^ N → udivXi3 N n d = Ok (n / d) ∧ umodXi3 N n d = Ok (n mod d).
Proof. apply udivXi3_spec. Qed.

Lemma udivXi3_correct_witness : udivXi3 32 (2 ^ 32 - 1) 10 = Ok 429496729 ∧ umodXi3 32 (2 ^ 32 - 1) 10 = Ok 5.
Proof. apply (udivXi3_correct 32 (2 ^ 32 - 1) 10); lia. Defined.

(** 64-bit division on 32-bit words: every branch of [__udivmoddi4] returns quotient and
    remainder of its operands, and only a zero divisor reaches a division by zero. *)
Lemma udivmoddi4_correct a b : 0 ≤ a < 2 ^ 64 → 0 ≤ b < 2 ^ 64 → udivmoddi4 a b = if b =? 0 then Fault DivByZero else Ok (a / b, a mod b).
Proof.
  intros Ha Hb. destruct (Z.eqb_spec b 0) as [->|]; [|apply udivmoddi4_spec; lia]. unfold udivmoddi4, hi, lo. rewrite Z.div_0_l, Z.mod_0_l by lia. cbn [Z.eqb]. by case_match.
Qed.

Example udivmoddi4_example : udivmoddi4 (2 ^ 64 - 1) (2 ^ 32 + 1) = Ok (2 ^ 32 - 1, 0).
Proof. apply (udivmoddi4_correct (2 ^ 64 - 1) (2 ^ 32 + 1)); lia. Defined.

(** 128-bit division: Knuth's two-digit division with at most two corrections of each digit
    when the divisor fits in a word, shift and subtract otherwise, always give quotient and remainder;
    a zero divisor is the only operand that divides by zero. *)
Lemma udivmodti4_correct a b : 0 ≤ a < 2 ^ 128 → 0 ≤ b < 2 ^ 128 → udivmodti4 a b = if b =? 0 then Fault DivByZero else Ok (a / b, a mod b).
Proof.
  intros Ha Hb. destruct (Z.eqb_spec b 0) as [->|]; [|apply udivmodti4_spec; lia]. unfold udivmodti4, hi, lo. rewrite (proj2 (Z.ltb_ge _ _)), Z.div_0_l, Z.mod_0_l by lia. cbn [Z.eqb]. by rewrite (proj2 (Z.ltb_ge _ _)) by (apply Z.div_pos; lia).
Qed.

Example udivmodti4_example : udivmodti4 (2 ^ 128 - 1) (2 ^ 64 - 1) = Ok (2 ^ 64 + 1, 0).
Proof. apply (udivmodti4_correct (2 ^ 128 - 1) (2 ^ 64 - 1)); lia. Defined.

(** [C13] Unsigned division: shift and subtract at any width, 64-bit division on 32-bit words, and 128-bit
    division (Knuth's two-digit division with at most two corrections of each digit when the divisor
    fits in a word, shift and subtract otherwise) give quotient and remainder on every branch, and only
    a zero divisor reaches a division by zero. *)
Theorem unsigned_division_correct :
  (∀ N n d, 1 < N < 2 ^ 31 → 0 ≤ n < 2 ^ N → 0 < d < 2 ^ N → udivXi3 N n d = Ok (n / d) ∧ umodXi3 N n d = Ok (n mod d)) ∧
  (∀ a b, 0 ≤ a < 2 ^ 64 → 0 ≤ b < 2 ^ 64 → udivmoddi4 a b = if b =? 0 then Fault DivByZero else Ok (a / b, a mod b)) ∧
  (∀ a b, 0 ≤ a < 2 ^ 128 → 0 ≤ b < 2 ^ 128 → udivmodti4 a b = if b =? 0 then Fault DivByZero else Ok (a / b, a mod b)).
Proof. split_and!; [apply udivXi3_spec|apply udivmoddi4_correct|apply udivmodti4_correct]. Qed.

(** [C27] The signed functions over any unsigned division that is right: [__divXi3] truncates towards
    zero and wraps only for the minimum divided by -1, [__modXi3] takes the sign of the dividend, and
    [__divmodXi4] gives both, but overflows when an operand is the minimum. *)
Theorem signed_division_correct N udivmod `{!DivMod N udivmod} a b : 1 < N → in_int N a → in_int N b → b ≠ 0 → let min := - 2 ^ (N - 1) in
  divXi3 N udivmod a b = Ok (if (a =? min) && (b =? -1) then min else Z.quot a b) ∧
  modXi3 N udivmod a b = Ok (Z.rem a b) ∧
  divmodXi4 N udivmod a b = if (a =? min) || (b =? min) then Fault SignedOverflow else Ok (Z.quot a b, Z.rem a b).
Proof.
  intros HN Ha Hb Hb0 min. split; [|split; [by apply modXi3_spec|by apply divmodXi4_spec]]. rewrite divXi3_spec by done. f_equal. by apply quot_wrap.
Qed.

Lemma signed_division_correct_witness : divXi3 64 udivmoddi4 (-7) 2 = Ok (-3) ∧ modXi3 64 udivmoddi4 (-7) 2 = Ok (-1) ∧ divmodXi4 64 udivmoddi4 (-7) 2 = Ok (-3, -1).
Proof. apply (signed_division_correct 64 udivmoddi4 (-7) 2); unfold in_int; lia. Defined.

End IntDiv.
