(* ===== verification/IntMul.v ===== *)
(** * IntMul: integer multiplication and overflow checks in the builtins

    Models the multiplication of double words from half words ([muldi3.c], [multi3.c]), the
    multiplication that reports overflow ([int_mulo_impl.inc]) and the operations that abort on
    overflow ([int_mulv_impl.inc], [addvdi3.c], [subvdi3.c], [negvdi2.c], [absvdi2.c] and their
    other widths), for any word size.  What a compiler makes of a signed product out of range is an
    argument of [muloXi4]: [strict_mul] takes it as undefined, [wrap_mul] as wrapping. *)
From S2P Require Import Prelude Common IntDiv.

Module IntMul.
Import IntDiv.

(** ** Multiplication *)
(** [__muldsi3] ([W = 32]) and [__mulddi3] ([W = 64]): the bits of the double word. *)
Definition muldsi3 (W a b : Z) : Z :=
  let bits_in_word_2 := W / 2 in
  let lower_mask := Z.shiftr (2 ^ W - 1) bits_in_word_2 in
  let low := cast W (Z.land a lower_mask * Z.land b lower_mask) in
  let t := Z.shiftr low bits_in_word_2 in
  let low := Z.land low lower_mask in
  let t := cast W (t + cast W (Z.shiftr a bits_in_word_2 * Z.land b lower_mask)) in
  let low := cast W (low + cast W (Z.shiftl (Z.land t lower_mask) bits_in_word_2)) in
  let high := Z.shiftr t bits_in_word_2 in
  let t := Z.shiftr low bits_in_word_2 in
  let low := Z.land low lower_mask in
  let t := cast W (t + cast W (Z.shiftr b bits_in_word_2 * Z.land a lower_mask)) in
  let low := cast W (low + cast W (Z.shiftl (Z.land t lower_mask) bits_in_word_2)) in
  let high := cast W (high + Z.shiftr t bits_in_word_2) in
  let high := cast W (high + cast W (Z.shiftr a bits_in_word_2 * Z.shiftr b bits_in_word_2)) in
  all W high low.

(** [__muldi3] and [__multi3]. *)
Definition muldi3 (W a b : Z) : Z :=
  let x := cast (2 * W) a in
  let y := cast (2 * W) b in
  let r := muldsi3 W (lo W x) (lo W y) in
  let high := cast W (hi W r + cast W (cast W (hi W x * lo W y) + cast W (lo W x * hi W y))) in
  signed (2 * W) (all W high (lo W r)).

(** ** Overflow *)
Section Checked.
Variable N : Z.

Let MIN : Z := - 2 ^ (N - 1).
Let MAX : Z := 2 ^ (N - 1) - 1.

Definition fits (x : Z) : bool := bool_decide (in_int N x).

Definition strict_mul (a b : Z) : result Z := if fits (a * b) then Ok (a * b) else Fault SignedOverflow.
Definition wrap_mul (a b : Z) : result Z := Ok (signed N (cast N (a * b))).

(** The result and the overflow flag. *)
Definition muloXi4 (mul : Z → Z → result Z) (a b : Z) : result (Z * Z) :=
  res ← mul a b;
  if a =? MIN then Ok (res, if negb (b =? 0) && negb (b =? 1) then 1 else 0)
  else if b =? MIN then Ok (res, if negb (a =? 0) && negb (a =? 1) then 1 else 0)
  else
    let sa := Z.shiftr a (N - 1) in
    abs_a ← ssub N (Z.lxor a sa) sa;
    let sb := Z.shiftr b (N - 1) in
    abs_b ← ssub N (Z.lxor b sb) sb;
    if (abs_a <? 2) || (abs_b <? 2) then Ok (res, 0)
    else if sa =? sb then Ok (res, if Z.quot MAX abs_b <? abs_a then 1 else 0)
    else Ok (res, if Z.quot MIN (- abs_b) <? abs_a then 1 else 0).

Definition mulvXi3 (a b : Z) : result Z :=
  if a =? MIN then if (b =? 0) || (b =? 1) then strict_mul a b else Fault CheckFailed
  else if b =? MIN then if (a =? 0) || (a =? 1) then strict_mul a b else Fault CheckFailed
  else
    let sa := Z.shiftr a (N - 1) in
    abs_a ← ssub N (Z.lxor a sa) sa;
    let sb := Z.shiftr b (N - 1) in
    abs_b ← ssub N (Z.lxor b sb) sb;
    if (abs_a <? 2) || (abs_b <? 2) then strict_mul a b
    else if sa =? sb then if Z.quot MAX abs_b <? abs_a then Fault CheckFailed else strict_mul a b
    else if Z.quot MIN (- abs_b) <? abs_a then Fault CheckFailed else strict_mul a b.

Definition addvXi3 (a b : Z) : result Z :=
  let s := signed N (cast N (cast N a + cast N b)) in
  if 0 <=? b then if s <? a then Fault CheckFailed else Ok s
  else if a <=? s then Fault CheckFailed else Ok s.

Definition subvXi3 (a b : Z) : result Z :=
  let s := signed N (cast N (cast N a - cast N b)) in
  if 0 <=? b then if a <? s then Fault CheckFailed else Ok s
  else if s <=? a then Fault CheckFailed else Ok s.

Definition negvXi2 (a : Z) : result Z := if a =? MIN then Fault CheckFailed else ssub N 0 a.

Definition absvXi2 (a : Z) : result Z :=
  if a =? MIN then Fault CheckFailed
  else let t := Z.shiftr a (N - 1) in ssub N (Z.lxor a t) t.

End Checked.

(** ** Proofs *)
Lemma cast_high W z l : 0 < W → word W l → cast (2 * W) (z * 2 ^ W + l) = cast W z * 2 ^ W + l.
Proof.
  intros HW Hl. unfold cast, word in *. replace (2 ^ (2 * W)) with (2 ^ W * 2 ^ W) by (rewrite <- Z.pow_add_r by lia; f_equal; lia). set (P := 2 ^ W) in *. assert (0 < P) by (unfold P; lia). pose proof (Z.div_mod z P ltac:(lia)). pose proof (Z.mod_pos_bound z P ltac:(lia)).
  symmetry. apply (Z.mod_unique_pos _ _ (z / P)); nia.
Qed.

Lemma cast_split w x : 0 ≤ w → ∃ j, cast w x = x + j * 2 ^ w.
Proof. intros Hw. exists (- (x / 2 ^ w)). unfold cast. rewrite Z.mod_eq by lia. ring. Qed.

Lemma signed_of_cast w x : signed w (cast w x) = signed w x.
Proof. unfold signed. by rewrite !cast_cast. Qed.

(** A digit times a digit. *)
Lemma digit_product H x y : 0 ≤ x < H → 0 ≤ y < H → 0 ≤ x * y ≤ (H - 1) * (H - 1).
Proof. intros Hx Hy. split; [lia|]. apply Z.mul_le_mono_nonneg; lia. Qed.

Lemma muldsi3_spec k a b : 0 < k → word (2 * k) a → word (2 * k) b → muldsi3 (2 * k) a b = a * b.
Proof.
  intros Hk Ha Hb. unfold muldsi3. rewrite (Z.mul_comm 2 k), Z.div_mul by lia. rewrite !Z.shiftr_div_pow2, !Z.shiftl_mul_pow2 by lia. unfold word in *. rewrite (Z.mul_comm 2 k) in *. set (H := 2 ^ k). assert (2 ^ (k * 2) = H * H) as EH by (unfold H; rewrite <- Z.pow_add_r by lia; f_equal; lia). assert (1 < H) as HH by (apply Z.pow_gt_1; lia).
  assert ((2 ^ (k * 2) - 1) / H = Z.ones k) as -> by (rewrite EH, Z.ones_equiv; fold H; symmetry; apply (Z.div_unique_pos _ _ _ (H - 1)); lia). rewrite !Z.land_ones by lia. fold H. rewrite EH in *.
  assert (∀ x, 0 ≤ x < H * H → cast (k * 2) x = x) as Hc by (intros x Hx; apply cast_id; lia). assert (∀ x, 0 ≤ x < H * H → x = H * (x / H) + x mod H ∧ 0 ≤ x mod H < H ∧ 0 ≤ x / H < H) as Hs.
  { intros x Hx. split; [apply Z.div_mod; lia|]. split; [apply Z.mod_pos_bound; lia|]. split; [apply Z.div_pos; lia|apply Z.div_lt_upper_bound; lia]. }
  destruct (Hs a Ha) as (Ea & Ha0 & Ha1). destruct (Hs b Hb) as (Eb & Hb0 & Hb1). set (a0 := a mod H) in *. set (a1 := a / H) in *. set (b0 := b mod H) in *. set (b1 := b / H) in *. clearbody a0 a1 b0 b1.
  pose proof (digit_product H a0 b0 Ha0 Hb0) as P00. pose proof (digit_product H a1 b0 Ha1 Hb0) as P10. pose proof (digit_product H b1 a0 Hb1 Ha0) as P01. pose proof (digit_product H a1 b1 Ha1 Hb1) as P11.
  set (p00 := a0 * b0) in *. set (p10 := a1 * b0) in *. set (p01 := b1 * a0) in *. set (p11 := a1 * b1) in *. assert (a * b = p11 * (H * H) + (p10 + p01) * H + p00) as -> by (unfold p00, p01, p10, p11; rewrite Ea, Eb; ring). clearbody p00 p10 p01 p11. clear Ea Eb.
  rewrite (Hc p00), (Hc p10), (Hc p01), (Hc p11) by lia. destruct (Hs p00 ltac:(lia)) as (E1 & B1 & C1). set (l1 := p00 mod H) in *. set (t1 := p00 / H) in *. clearbody l1 t1.
  rewrite (Hc (t1 + p10)) by lia. destruct (Hs (t1 + p10) ltac:(lia)) as (E2 & B2 & C2). set (l2 := (t1 + p10) mod H) in *. set (h2 := (t1 + p10) / H) in *. clearbody l2 h2.
  assert (0 ≤ l2 * H ≤ (H - 1) * H) by (split; [lia|apply Z.mul_le_mono_nonneg_r; lia]). rewrite (Hc (l2 * H)), (Hc (l1 + l2 * H)) by lia.
  destruct (div_unique (l1 + l2 * H) H l2 l1) as [-> ->]; [lia|lia|]. rewrite (Hc (l2 + p01)) by lia. destruct (Hs (l2 + p01) ltac:(lia)) as (E3 & B3 & C3). set (l3 := (l2 + p01) mod H) in *. set (h3 := (l2 + p01) / H) in *. clearbody l3 h3.
  assert (0 ≤ l3 * H ≤ (H - 1) * H) by (split; [lia|apply Z.mul_le_mono_nonneg_r; lia]). rewrite (Hc (l3 * H)), (Hc (l1 + l3 * H)) by lia.
  assert (h2 + h3 ≤ 2 * H - 2) by lia. assert (2 * H ≤ H * H) by (apply Z.mul_le_mono_nonneg_r; lia). rewrite (Hc (h2 + h3)) by lia. rewrite (Hc (h2 + h3 + p11)) by lia. unfold all. rewrite EH, E1.
  assert (p10 = H * h2 + l2 - t1) as -> by lia. assert (p01 = H * h3 + l3 - l2) as -> by lia. ring.
Qed.

Lemma muldi3_spec k a b W : 0 < k → W = 2 * k → muldi3 W a b = signed (2 * W) (cast (2 * W) (a * b)).
Proof.
  intros Hk EW. unfold muldi3. assert (2 ^ (2 * W) = 2 ^ W * 2 ^ W) as EP by (rewrite <- Z.pow_add_r by lia; f_equal; lia). destruct (halves W (cast (2 * W) a) ltac:(lia) ltac:(apply cast_range; lia)) as (Ea & Ha1 & Ha0). destruct (halves W (cast (2 * W) b) ltac:(lia) ltac:(apply cast_range; lia)) as (Eb & Hb1 & Hb0).
  destruct (cast_split (2 * W) a ltac:(lia)) as (ja & Ja). destruct (cast_split (2 * W) b ltac:(lia)) as (jb & Jb). set (x := cast (2 * W) a) in *. set (y := cast (2 * W) b) in *. assert (muldsi3 W (lo W x) (lo W y) = lo W x * lo W y) as -> by (rewrite EW in *; by apply muldsi3_spec).
  assert (0 ≤ lo W x * lo W y < 2 ^ (2 * W)) as Hr by (unfold word in *; rewrite EP; nia). destruct (halves W (lo W x * lo W y) ltac:(lia) Hr) as (Er & Hr1 & Hr0). set (r := lo W x * lo W y) in *.
  rewrite <- (signed_of_cast (2 * W)). unfold all at 1. rewrite <- cast_high by (done || lia). rewrite cast_cast. f_equal. destruct (cast_split W (hi W x * lo W y) ltac:(lia)) as (j1 & ->). destruct (cast_split W (lo W x * hi W y) ltac:(lia)) as (j2 & ->). destruct (cast_split W (hi W x * lo W y + j1 * 2 ^ W + (lo W x * hi W y + j2 * 2 ^ W)) ltac:(lia)) as (j3 & ->).
  set (x1 := hi W x) in *. set (x0 := lo W x) in *. set (y1 := hi W y) in *. set (y0 := lo W y) in *. clearbody x1 x0 y1 y0 x y. apply (cast_congr _ _ _ (j1 + j2 + j3 - x1 * y1 + ja * b + x * jb)). unfold all in *. rewrite EP in *. assert (a = x - ja * (2 ^ W * 2 ^ W)) as -> by lia. assert (b = y - jb * (2 ^ W * 2 ^ W)) as -> by lia.
  assert (lo W r = x0 * y0 - hi W r * 2 ^ W) as -> by (unfold r in *; lia). subst x y. ring.
Qed.

Section CheckedProofs.
Context (N : Z) (HN : 1 < N).

Lemma fits_spec x : reflect (in_int N x) (fits N x).
Proof using Type. unfold fits. apply bool_decide_reflect. Qed.

(** The test on magnitudes. *)
Lemma magnitudes_overflow a b : in_int N a → in_int N b → a ≠ - 2 ^ (N - 1) → b ≠ - 2 ^ (N - 1) →
  (Z.abs a < 2 ∨ Z.abs b < 2 → fits N (a * b) = true) ∧
  (2 ≤ Z.abs b → Z.shiftr a (N - 1) = Z.shiftr b (N - 1) → (Z.quot (2 ^ (N - 1) - 1) (Z.abs b) <? Z.abs a) = negb (fits N (a * b))) ∧
  (2 ≤ Z.abs b → Z.shiftr a (N - 1) ≠ Z.shiftr b (N - 1) → (Z.quot (- 2 ^ (N - 1)) (- Z.abs b) <? Z.abs a) = negb (fits N (a * b))).
Proof using HN.
  intros Ha Hb Ha' Hb'. rewrite !(sign_shift N HN) by done. unfold fits, in_int in *. set (M := 2 ^ (N - 1)) in *. assert (0 < M) by (unfold M; lia). assert (Z.abs (a * b) = Z.abs a * Z.abs b) as Eab by apply Z.abs_mul. split_and!.
  - intros Hs. rewrite bool_decide_true; [done|]. assert (Z.abs a * Z.abs b < M) by (destruct Hs; [assert (Z.abs a = 0 ∨ Z.abs a = 1) as [-> | ->] by lia|assert (Z.abs b = 0 ∨ Z.abs b = 1) as [-> | ->] by lia]; lia). lia.
  - intros H2 Hsame. assert (a * b = Z.abs a * Z.abs b) as -> by (destruct (Z.ltb_spec a 0), (Z.ltb_spec b 0); nia). rewrite Z.quot_div_nonneg by lia. pose proof (Z.div_mod (M - 1) (Z.abs b) ltac:(lia)). pose proof (Z.mod_pos_bound (M - 1) (Z.abs b) ltac:(lia)).
    destruct (Z.ltb_spec ((M - 1) / Z.abs b) (Z.abs a)); [rewrite bool_decide_false|rewrite bool_decide_true]; try done; nia.
  - intros H2 Hdiff. assert (a * b = - (Z.abs a * Z.abs b)) as -> by (destruct (Z.ltb_spec a 0), (Z.ltb_spec b 0); lia || nia). rewrite Z.quot_opp_opp, Z.quot_div_nonneg by lia. pose proof (Z.div_mod M (Z.abs b) ltac:(lia)). pose proof (Z.mod_pos_bound M (Z.abs b) ltac:(lia)).
    destruct (Z.ltb_spec (M / Z.abs b) (Z.abs a)); [rewrite bool_decide_false|rewrite bool_decide_true]; try done; nia.
Qed.

(** The minimum times anything but 0 and 1 is out of range. *)
Lemma minimum_overflow b : in_int N b → fits N (- 2 ^ (N - 1) * b) = (b =? 0) || (b =? 1).
Proof using HN.
  intros Hb. unfold fits, in_int in *. set (M := 2 ^ (N - 1)) in *. assert (0 < M) by (unfold M; lia). destruct (Z.eqb_spec b 0) as [->|]; [apply bool_decide_true; lia|]. destruct (Z.eqb_spec b 1) as [->|]; [apply bool_decide_true; lia|]. apply bool_decide_false. nia.
Qed.

Lemma muloXi4_spec mul a b : in_int N a → in_int N b → muloXi4 N mul a b = (res ← mul a b; Ok (res, if fits N (a * b) then 0 else 1)).
Proof using HN.
  intros Ha Hb. unfold muloXi4. destruct (mul a b) as [res|]; [|done]. cbn [mbind result_bind]. destruct (Z.eqb_spec a (- 2 ^ (N - 1))) as [->|Ha']; [rewrite minimum_overflow by done; by destruct (b =? 0), (b =? 1)|].
  destruct (Z.eqb_spec b (- 2 ^ (N - 1))) as [->|Hb']; [rewrite Z.mul_comm, minimum_overflow by done; by destruct (a =? 0), (a =? 1)|]. rewrite !(ssub_sign N HN) by done. rewrite !(proj2 (Z.eqb_neq _ (- 2 ^ (N - 1)))) by done. cbn [mbind result_bind].
  destruct (magnitudes_overflow a b Ha Hb Ha' Hb') as (H1 & H2 & H3). destruct (Z.ltb_spec (Z.abs a) 2); [by rewrite H1 by auto|]. destruct (Z.ltb_spec (Z.abs b) 2); [by rewrite H1 by auto|]. cbn [orb]. destruct (Z.eqb_spec (Z.shiftr a (N - 1)) (Z.shiftr b (N - 1))); [rewrite H2 by done|rewrite H3 by done]; by destruct (fits N (a * b)).
Qed.

Lemma mulvXi3_spec a b : in_int N a → in_int N b → mulvXi3 N a b = if fits N (a * b) then Ok (a * b) else Fault CheckFailed.
Proof using HN.
  intros Ha Hb. unfold mulvXi3, strict_mul. destruct (Z.eqb_spec a (- 2 ^ (N - 1))) as [->|Ha']; [rewrite minimum_overflow by done; by destruct (b =? 0), (b =? 1)|].
  destruct (Z.eqb_spec b (- 2 ^ (N - 1))) as [->|Hb']; [rewrite Z.mul_comm, minimum_overflow by done; by destruct (a =? 0), (a =? 1)|]. rewrite !(ssub_sign N HN) by done. rewrite !(proj2 (Z.eqb_neq _ (- 2 ^ (N - 1)))) by done. cbn [mbind result_bind].
  destruct (magnitudes_overflow a b Ha Hb Ha' Hb') as (H1 & H2 & H3). destruct (Z.ltb_spec (Z.abs a) 2); [by rewrite H1 by auto|]. destruct (Z.ltb_spec (Z.abs b) 2); [by rewrite H1 by auto|]. cbn [orb]. destruct (Z.eqb_spec (Z.shiftr a (N - 1)) (Z.shiftr b (N - 1))); [rewrite H2 by done|rewrite H3 by done]; by destruct (fits N (a * b)).
Qed.

(** A sum of two signed numbers, wrapped. *)
Lemma wrapped_sum x : - 2 ^ N ≤ x < 2 ^ N → signed N (cast N x) = if fits N x then x else if x <? 0 then x + 2 ^ N else x - 2 ^ N.
Proof using HN.
  intros Hx. pose proof (pow2_half N ltac:(lia)). destruct (fits_spec x) as [Hf|Hf]; [apply signed_cast; unfold in_int in Hf; lia|]. unfold in_int in Hf. destruct (Z.ltb_spec x 0); [rewrite (cast_congr N x (x + 2 ^ N) (-1)) by lia|rewrite (cast_congr N x (x - 2 ^ N) 1) by lia]; apply signed_cast; lia.
Qed.

Lemma addvXi3_spec a b : in_int N a → in_int N b → addvXi3 N a b = if fits N (a + b) then Ok (a + b) else Fault CheckFailed.
Proof using HN.
  intros Ha Hb. unfold addvXi3. destruct (cast_split N a ltac:(lia)) as (j1 & ->). destruct (cast_split N b ltac:(lia)) as (j2 & ->). rewrite (cast_congr N _ (a + b) (j1 + j2)) by lia. unfold in_int in *. pose proof (pow2_half N ltac:(lia)). assert (0 < 2 ^ (N - 1)) by lia. rewrite wrapped_sum by lia.
  destruct (fits_spec (a + b)) as [Hf|Hf]; unfold in_int in Hf; destruct (Z.leb_spec 0 b); [rewrite (proj2 (Z.ltb_ge _ _)) by lia; done|rewrite (proj2 (Z.leb_gt _ _)) by lia; done|rewrite (proj2 (Z.ltb_ge _ 0)), (proj2 (Z.ltb_lt _ _)) by lia; done|rewrite (proj2 (Z.ltb_lt _ 0)), (proj2 (Z.leb_le _ _)) by lia; done].
Qed.

Lemma subvXi3_spec a b : in_int N a → in_int N b → subvXi3 N a b = if fits N (a - b) then Ok (a - b) else Fault CheckFailed.
Proof using HN.
  intros Ha Hb. unfold subvXi3. destruct (cast_split N a ltac:(lia)) as (j1 & ->). destruct (cast_split N b ltac:(lia)) as (j2 & ->). rewrite (cast_congr N _ (a - b) (j1 - j2)) by lia. unfold in_int in *. pose proof (pow2_half N ltac:(lia)). assert (0 < 2 ^ (N - 1)) by lia. rewrite wrapped_sum by lia.
  destruct (fits_spec (a - b)) as [Hf|Hf]; unfold in_int in Hf; destruct (Z.leb_spec 0 b); [rewrite (proj2 (Z.ltb_ge _ _)) by lia; done|rewrite (proj2 (Z.leb_gt _ _)) by lia; done|rewrite (proj2 (Z.ltb_lt _ 0)), (proj2 (Z.ltb_lt _ _)) by lia; done|rewrite (proj2 (Z.ltb_ge _ 0)), (proj2 (Z.leb_le _ _)) by lia; done].
Qed.

Lemma negvXi2_spec a : in_int N a → negvXi2 N a = if fits N (- a) then Ok (- a) else Fault CheckFailed.
Proof using HN.
  intros Ha. unfold negvXi2, ssub. unfold in_int in *. destruct (Z.eqb_spec a (- 2 ^ (N - 1))), (fits_spec (- a)) as [Hf|Hf]; unfold in_int in Hf; try (done || lia). by rewrite bool_decide_true by lia.
Qed.

Lemma absvXi2_spec a : in_int N a → absvXi2 N a = if fits N (Z.abs a) then Ok (Z.abs a) else Fault CheckFailed.
Proof using HN.
  intros Ha. unfold absvXi2. rewrite (ssub_sign N HN) by done. unfold in_int in *. destruct (Z.eqb_spec a (- 2 ^ (N - 1))), (fits_spec (Z.abs a)) as [Hf|Hf]; unfold in_int in Hf; done || lia.
Qed.

End CheckedProofs.

(** ** The theorems *)
(** Double-word multiplication from half-word products: the cross products and their carries
    add up to the exact product of two words, and the product of two signed double words is right modulo
    the double word, for 64-bit numbers on 32-bit words and for 128-bit numbers on 64-bit words. *)
Theorem multiplication_correct W : W = 32 ∨ W = 64 →
  (∀ a b, word W a → word W b → muldsi3 W a b = a * b) ∧ (∀ a b, muldi3 W a b = signed (2 * W) (cast (2 * W) (a * b))).
Proof.
  intros HW. assert (∃ k, 0 < k ∧ W = 2 * k) as (k & Hk & EW) by (destruct HW as [-> | ->]; [by exists 16|by exists 32]). split; [|intros a b; by apply (muldi3_spec k)]. intros a b. rewrite EW. by apply muldsi3_spec.
Qed.

Lemma multiplication_correct_witness : muldsi3 32 (2 ^ 32 - 1) (2 ^ 32 - 1) = (2 ^ 32 - 1) * (2 ^ 32 - 1) ∧ muldi3 32 (-3) 5 = -15.
Proof. destruct (multiplication_correct 32 (or_introl eq_refl)) as [H1 H2]. split; [apply H1; unfold word; lia|exact (H2 (-3) 5)]. Defined.

(** [C28] The overflow checks: the flag of [__muloXi4] is set exactly when the product is out of
    range, provided the product itself wraps, while a compiler that takes signed overflow as undefined
    meets it before the flag is ever set; multiplication, addition, subtraction, negation and absolute
    value with a trap abort exactly when the result is out of range and never overflow themselves. *)
Theorem overflow_checks_correct N a b : 1 < N → in_int N a → in_int N b →
  let trap x := if fits N x then Ok x else Fault CheckFailed in
  muloXi4 N (wrap_mul N) a b = Ok (signed N (cast N (a * b)), if fits N (a * b) then 0 else 1) ∧
  muloXi4 N (strict_mul N) a b = (if fits N (a * b) then Ok (a * b, 0) else Fault SignedOverflow) ∧
  mulvXi3 N a b = trap (a * b) ∧ addvXi3 N a b = trap (a + b) ∧ subvXi3 N a b = trap (a - b) ∧ negvXi2 N a = trap (- a) ∧ absvXi2 N a = trap (Z.abs a).
Proof.
  intros HN Ha Hb trap. rewrite !muloXi4_spec by done. split_and!; [done|unfold strict_mul; by destruct (fits N (a * b))|by apply mulvXi3_spec|by apply addvXi3_spec|by apply subvXi3_spec|by apply negvXi2_spec|by apply absvXi2_spec].
Qed.

Lemma overflow_checks_correct_witness : muloXi4 64 (wrap_mul 64) (2 ^ 62) 2 = Ok (- 2 ^ 63, 1) ∧ mulvXi3 64 (2 ^ 62) 2 = Fault CheckFailed ∧ addvXi3 64 (2 ^ 62) 2 = Ok (2 ^ 62 + 2).
Proof. destruct (overflow_checks_correct 64 (2 ^ 62) 2) as (H1 & _ & H3 & H4 & _); [lia|unfold in_int; lia..|]. split; [exact H1|split; [exact H3|exact H4]]. Defined.

End IntMul.
