(* ===== verification/SoftFloat.v ===== *)
(** * SoftFloat: floating-point arithmetic in the builtins

    Models what the software floating point of [src/lib/builtins] shares: the formats and the
    word operations of [fp_lib.h].  A floating-point number is its representation, an integer below
    [2^typeWidth]; a format is one of the precisions that the files are instantiated at.

    The specification is the one of IEEE 754.  [mag] is the magnitude of a representation without its
    sign, as a multiple of the smallest subnormal number; infinity stands where the next binade
    would begin.  [nearest x k r] says that no representation is nearer to [x] than [r], and that
    [r] is even when another is as near.  The lemmas: representations are ordered like the numbers
    they stand for, and rounding within a binade rounds to the nearest of all numbers. *)
From S2P Require Import Prelude Common IntDiv.

Module SoftFloat.
Import IntDiv.

(** ** Formats *)
(** The parameters of a precision. *)
Record Format := { typeWidth : Z; significandBits : Z }.

Abbreviation exponentBits F := (typeWidth F - significandBits F - 1) (only parsing).
Abbreviation maxExponent F := (2 ^ exponentBits F - 1) (only parsing).
Abbreviation exponentBias F := (Z.shiftr (maxExponent F) 1) (only parsing).
Abbreviation implicitBit F := (2 ^ significandBits F) (only parsing).
Abbreviation significandMask F := (implicitBit F - 1) (only parsing).
Abbreviation signBit F := (2 ^ (significandBits F + exponentBits F)) (only parsing).
Abbreviation absMask F := (signBit F - 1) (only parsing).
Abbreviation infRep F := (Z.lxor (absMask F) (significandMask F)) (only parsing).
Abbreviation quietBit F := (Z.shiftr (implicitBit F) 1) (only parsing).
Abbreviation qnanRep F := (Z.lor (infRep F) (quietBit F)) (only parsing).
Abbreviation rep_clz F := (clz (typeWidth F)) (only parsing).

(** [wideMultiply] of single and of double precision: high and low word. *)
Definition wideMultiply32 (a b : Z) : Z * Z :=
  let product := u64 (a * b) in (u32 (Z.shiftr product 32), u32 product).

Definition wideMultiply64 (a b : Z) : Z * Z :=
  let loWord x := Z.land x (2 ^ 32 - 1) in
  let hiWord x := Z.shiftr x 32 in
  let plolo := u64 (loWord a * loWord b) in
  let plohi := u64 (loWord a * hiWord b) in
  let philo := u64 (hiWord a * loWord b) in
  let phihi := u64 (hiWord a * hiWord b) in
  let r0 := loWord plolo in
  let r1 := u64 (hiWord plolo + loWord plohi + loWord philo) in
  (u64 (hiWord plohi + hiWord philo + hiWord r1 + phihi), u64 (r0 + u64 (Z.shiftl r1 32))).

Definition single : Format := {| typeWidth := 32; significandBits := 23 |}.
Definition double : Format := {| typeWidth := 64; significandBits := 52 |}.
Definition quad : Format := {| typeWidth := 128; significandBits := 112 |}.

Section Operations.
Variable F : Format.

(** The exponent and the new significand. *)
Definition normalize (significand : Z) : result (Z * Z) :=
  let shift := rep_clz F significand - rep_clz F (implicitBit F) in
  significand ← shl (typeWidth F) significand shift;
  Ok (1 - shift, significand).

Definition wideLeftShift (hi lo count : Z) : result (Z * Z) :=
  x ← shl (typeWidth F) hi count;
  y ← shr (typeWidth F) lo (typeWidth F - count);
  lo ← shl (typeWidth F) lo count;
  Ok (Z.lor x y, lo).

Definition wideRightShiftWithSticky (hi lo count : Z) : result (Z * Z) :=
  let w := typeWidth F in
  if count <? w then
    s ← shl w lo (w - count);
    x ← shl w hi (w - count);
    y ← shr w lo count;
    hi ← shr w hi count;
    Ok (hi, Z.lor (Z.lor x y) (Z.b2z (negb (s =? 0))))
  else if count <? 2 * w then
    s ← shl w hi (2 * w - count);
    x ← shr w hi (count - w);
    Ok (0, Z.lor x (Z.b2z (negb (Z.lor s lo =? 0))))
  else Ok (0, Z.b2z (negb (Z.lor hi lo =? 0))).

End Operations.

(** ** The specification *)
(** The magnitude of a representation without its sign, in units of the smallest subnormal. *)
Definition mag (F : Format) (r : Z) : Z :=
  let e := r / implicitBit F in
  let f := r mod implicitBit F in
  if e =? 0 then f else (implicitBit F + f) * 2 ^ (e - 1).

Definition negative (F : Format) (rep : Z) : bool := 2 ^ (typeWidth F - 1) <=? rep.
Definition value (F : Format) (rep : Z) : Z :=
  let r := rep mod 2 ^ (typeWidth F - 1) in if negative F rep then - mag F r else mag F r.

Definition finite (F : Format) (rep : Z) : Prop := word (typeWidth F) rep ∧ rep mod 2 ^ (typeWidth F - 1) < infRep F.
Definition is_inf (F : Format) (rep : Z) : Prop := word (typeWidth F) rep ∧ rep mod 2 ^ (typeWidth F - 1) = infRep F.
Definition is_nan (F : Format) (rep : Z) : Prop := word (typeWidth F) rep ∧ infRep F < rep mod 2 ^ (typeWidth F - 1).
(** A NaN whose quiet bit, the most significant one of the significand, is set. *)
Definition is_quiet (F : Format) (rep : Z) : Prop := is_nan F rep ∧ Z.testbit rep (significandBits F - 1) = true.

(** [r] is nearest to the quotient of [x] and [n]; ties to even. *)
Definition nearest_ratio (F : Format) (x n r : Z) : Prop :=
  let d s := Z.abs (mag F s * n - x) in
  0 ≤ r ≤ infRep F ∧ ∀ r', 0 ≤ r' ≤ infRep F → d r ≤ d r' ∧ (d r' = d r → r' = r ∨ Z.even r = true).

(** [r] is nearest to [x], which counts in units [2^k] times smaller; ties to even. *)
Definition nearest (F : Format) (x k r : Z) : Prop := nearest_ratio F x (2 ^ k) r.

(** The number with sign [neg] and magnitude [r]. *)
Definition signed_rep (F : Format) (neg : bool) (r : Z) : Z := if neg then r + 2 ^ (typeWidth F - 1) else r.

Class ValidFormat (F : Format) : Prop := {
  vf_significand : 2 ≤ significandBits F;
  vf_width : significandBits F + 5 ≤ typeWidth F ≤ 2 ^ 16;
  vf_exponent : 3 ≤ exponentBits F ≤ 30
}.

(** What multiplication relies on. *)
Class WideMultiply (F : Format) (wideMultiply : Z → Z → Z * Z) : Prop := {
  wm_word : 32 ≤ typeWidth F;
  wm_product : ∀ a b, word (typeWidth F) a → word (typeWidth F) b → wideMultiply a b = (a * b / 2 ^ typeWidth F, a * b mod 2 ^ typeWidth F)
}.

(** ** Rounding *)
Section Rounding.
Context {F : Format} {V : ValidFormat F}.
Local Abbreviation m := (significandBits F).
Local Abbreviation w := (typeWidth F).


Lemma implicit_pos : 4 ≤ 2 ^ m.
Proof using V. destruct V. change 4 with (2 ^ 2). apply Z.pow_le_mono_r; lia. Qed.

Lemma infRep_eq : infRep F = maxExponent F * 2 ^ m ∧ infRep F = 2 ^ (w - 1) - 2 ^ m.
Proof using V.
  destruct V. assert (infRep F = Z.shiftl (Z.ones (exponentBits F)) m) as ->.
  { replace (m + exponentBits F) with (w - 1) by lia. replace (2 ^ (w - 1) - 1) with (Z.ones (w - 1)) by (rewrite Z.ones_equiv; lia). replace (2 ^ m - 1) with (Z.ones m) by (rewrite Z.ones_equiv; lia). apply Z.bits_inj'. intros i Hi. rewrite Z.lxor_spec, Z.shiftl_spec by lia.
    destruct (Z.lt_ge_cases i m); [rewrite !(Z.ones_spec_low), Z.testbit_neg_r by lia; done|]. rewrite (Z.ones_spec_high m) by lia. rewrite xorb_false_r. destruct (Z.lt_ge_cases i (w - 1)); [rewrite !Z.ones_spec_low by lia; done|rewrite !Z.ones_spec_high by lia; done]. }
  rewrite Z.shiftl_mul_pow2, Z.ones_equiv by lia. split; [lia|]. replace (w - 1) with (exponentBits F + m) by lia. rewrite Z.pow_add_r by lia. lia.
Qed.

Lemma mag_small r : 0 ≤ r < 2 ^ m → mag F r = r.
Proof using Type. intros Hr. unfold mag. by rewrite Z.div_small, Z.mod_small by lia. Qed.

Lemma mag_split e f : 1 ≤ e → 0 ≤ f < 2 ^ m → mag F (e * 2 ^ m + f) = (2 ^ m + f) * 2 ^ (e - 1).
Proof using Type.
  intros He Hf. unfold mag. destruct (div_unique (e * 2 ^ m + f) (2 ^ m) e f) as [-> ->]; [lia|lia|]. by rewrite (proj2 (Z.eqb_neq e 0)) by lia.
Qed.

(** The representations of a binade. *)
Lemma mag_index e r : 1 ≤ e → (e = 1 ∨ 2 ^ m ≤ r) → 0 ≤ r ≤ 2 * 2 ^ m → mag F ((e - 1) * 2 ^ m + r) = r * 2 ^ (e - 1).
Proof using V.
  intros He Hor Hr. pose proof implicit_pos. destruct (Z.lt_ge_cases r (2 ^ m)); [assert (e = 1) as -> by lia; rewrite mag_small by lia; lia|]. destruct (decide (r = 2 * 2 ^ m)) as [->|].
  - replace ((e - 1) * 2 ^ m + 2 * 2 ^ m) with ((e + 1) * 2 ^ m + 0) by lia. rewrite mag_split by lia. replace (e + 1 - 1) with (Z.succ (e - 1)) by lia. rewrite Z.pow_succ_r by lia. lia.
  - replace ((e - 1) * 2 ^ m + r) with (e * 2 ^ m + (r - 2 ^ m)) by lia. rewrite mag_split by lia. f_equal. lia.
Qed.

Lemma index_split i : 0 ≤ i → (i < 2 ^ m ∧ mag F i = i) ∨ ∃ e f, 1 ≤ e ∧ 0 ≤ f < 2 ^ m ∧ i = e * 2 ^ m + f ∧ mag F i = (2 ^ m + f) * 2 ^ (e - 1).
Proof using V.
  intros Hi. pose proof implicit_pos. destruct (Z.lt_ge_cases i (2 ^ m)); [left; split; [done|apply mag_small; lia]|]. right. exists (i / 2 ^ m), (i mod 2 ^ m). pose proof (Z.div_mod i (2 ^ m) ltac:(lia)). pose proof (Z.mod_pos_bound i (2 ^ m) ltac:(lia)).
  assert (1 ≤ i / 2 ^ m) by (apply Z.div_le_lower_bound; lia). split_and!; [done|lia|lia|lia|]. rewrite <- mag_split by done. f_equal. lia.
Qed.

Lemma mag_mono i j : 0 ≤ i < j → mag F i < mag F j.
Proof using V.
  intros Hij. pose proof implicit_pos. destruct (index_split i ltac:(lia)) as [[Hi ->]|(e & f & He & Hf & -> & ->)], (index_split j ltac:(lia)) as [[Hj ->]|(e' & f' & He' & Hf' & -> & ->)]; [lia| |nia|].
  - assert (1 ≤ 2 ^ (e' - 1)) by lia. nia.
  - assert (e < e' ∨ e = e') as [Hlt|<-] by nia; [|apply Z.mul_lt_mono_pos_r; lia]. assert (2 * 2 ^ (e - 1) ≤ 2 ^ (e' - 1)) by (rewrite <- Z.pow_succ_r by lia; apply Z.pow_le_mono_r; lia). assert (0 < 2 ^ (e - 1)) by lia. nia.
Qed.

Lemma mag_mono_le i j : 0 ≤ i ≤ j → mag F i ≤ mag F j.
Proof using V. intros Hij. destruct (decide (i = j)) as [->|]; [lia|]. apply Z.lt_le_incl, mag_mono. lia. Qed.

(** The nearest multiple of [U]. *)
Lemma nearest_multiple X U q r n : 0 < U → q * U ≤ X < (q + 1) * U → r = q + Z.b2z ((U <? 2 * (X - q * U)) || ((U =? 2 * (X - q * U)) && Z.odd q)) →
  Z.abs (r * U - X) ≤ Z.abs (n * U - X) ∧ (Z.abs (n * U - X) = Z.abs (r * U - X) → n = r ∨ Z.even r = true).
Proof using Type.
  intros HU HX ->. assert (n ≤ q ∨ q + 1 ≤ n) as Hn by lia. assert (n * U ≤ q * U ∨ (q + 1) * U ≤ n * U) as Hn' by (destruct Hn; [left|right]; apply Z.mul_le_mono_nonneg_r; lia). assert (n * U = q * U → n = q) as Eq by (intros E; apply (Z.mul_cancel_r _ _ U); lia). assert (n * U = (q + 1) * U → n = q + 1) as Eq1 by (intros E; apply (Z.mul_cancel_r _ _ U); lia).
  destruct (Z.ltb_spec U (2 * (X - q * U))); cbn [orb]; [cbn [Z.b2z]; split; [lia|intros E; left; lia]|]. destruct (Z.eqb_spec U (2 * (X - q * U))); cbn [andb].
  - rewrite <- Z.negb_even. destruct (Z.even q) eqn:Ev; cbn [negb Z.b2z]; [rewrite Z.add_0_r; split; [lia|by right]|]. split; [lia|]. right. by rewrite Z.even_add, Ev.
  - cbn [Z.b2z]. rewrite Z.add_0_r. split; [lia|intros E; left; lia].
Qed.

Lemma bias_eq : maxExponent F = 2 * exponentBias F + 1 ∧ 3 ≤ exponentBias F < 2 ^ 30.
Proof using V.
  destruct V as [Hm Hw Hx]. assert (8 ≤ 2 ^ exponentBits F ≤ 2 ^ 30) by (split; [change 8 with (2 ^ 3)|]; apply Z.pow_le_mono_r; lia). pose proof (pow2_half (exponentBits F) ltac:(lia)). rewrite Z.shiftr_div_pow2 by lia. change (2 ^ 1) with 2. destruct (div_unique (maxExponent F) 2 (2 ^ (exponentBits F - 1) - 1) 1) as [-> _]; lia.
Qed.

(** Rounding within a binade gives the nearest of all numbers. *)
Lemma round_ratio X D e q r : 0 < D → 1 ≤ e < maxExponent F → 0 ≤ q < 2 * 2 ^ m → (e = 1 ∨ 2 ^ m ≤ q) → let U := 2 ^ (e - 1) * D in
  q * U ≤ X < (q + 1) * U → r = q + Z.b2z ((U <? 2 * (X - q * U)) || ((U =? 2 * (X - q * U)) && Z.odd q)) → nearest_ratio F X D ((e - 1) * 2 ^ m + r).
Proof using V.
  intros HD He Hq Hor U HX Er. pose proof implicit_pos as Hp. destruct infRep_eq as [Ei _]. assert (0 < U) as HU by (apply Z.mul_pos_pos; lia). assert (q ≤ r ≤ q + 1) as Hr by (rewrite Er; destruct (_ || _); cbn [Z.b2z]; lia). assert ((e - 1) * 2 ^ m + 2 * 2 ^ m ≤ infRep F) as Htop by (rewrite Ei; nia).
  assert (∀ n, (e = 1 ∨ 2 ^ m ≤ n) → 0 ≤ n ≤ 2 * 2 ^ m → mag F ((e - 1) * 2 ^ m + n) * D = n * U) as Hmag by (intros n H1 H2; rewrite mag_index by (done || lia); unfold U; ring).
  assert (0 ≤ (e - 1) * 2 ^ m) as H0 by nia. split; [lia|]. intros r' Hr'. rewrite (Hmag r) by lia. destruct (Z.lt_ge_cases ((e - 1) * 2 ^ m + 2 * 2 ^ m) r') as [Habove|Hle].
  { pose proof (mag_mono ((e - 1) * 2 ^ m + 2 * 2 ^ m) r' ltac:(lia)) as Hm. apply (Z.mul_lt_mono_pos_r D) in Hm; [|lia]. rewrite Hmag in Hm by lia. destruct (nearest_multiple X U q r (2 * 2 ^ m) HU HX Er) as [Hd _]. assert ((q + 1) * U ≤ 2 * 2 ^ m * U) by (apply Z.mul_le_mono_nonneg_r; lia). lia. }
  destruct (decide (e = 1 ∨ (e - 1) * 2 ^ m + 2 ^ m ≤ r')) as [Hin|Hout].
  - set (n := r' - (e - 1) * 2 ^ m). assert (0 ≤ n ≤ 2 * 2 ^ m ∧ (e = 1 ∨ 2 ^ m ≤ n)) as [Hn Hn'] by (unfold n; destruct Hin as [->|]; lia). replace r' with ((e - 1) * 2 ^ m + n) by (unfold n; lia). rewrite Hmag by done. destruct (nearest_multiple X U q r n HU HX Er) as [Hd He']. split; [done|]. intros E. destruct (He' E) as [->|Hev]; [by left|right]. rewrite Z.even_add, Hev, Z.even_mul. rewrite (Z.even_pow 2 m) by (destruct V; lia). by rewrite orb_true_r.
  - pose proof (mag_mono r' ((e - 1) * 2 ^ m + 2 ^ m) ltac:(lia)) as Hm. apply (Z.mul_lt_mono_pos_r D) in Hm; [|lia]. rewrite Hmag in Hm by lia. destruct (nearest_multiple X U q r (2 ^ m) HU HX Er) as [Hd _]. assert (2 ^ m * U ≤ q * U) by (apply Z.mul_le_mono_nonneg_r; lia). lia.
Qed.

Lemma round_nearest X k e q r : 0 ≤ k → 1 ≤ e < maxExponent F → 0 ≤ q < 2 * 2 ^ m → (e = 1 ∨ 2 ^ m ≤ q) → let U := 2 ^ (e - 1 + k) in
  q * U ≤ X < (q + 1) * U → r = q + Z.b2z ((U <? 2 * (X - q * U)) || ((U =? 2 * (X - q * U)) && Z.odd q)) → nearest F X k ((e - 1) * 2 ^ m + r).
Proof using V. intros Hk He Hq Hor. cbv zeta. rewrite Z.pow_add_r by lia. apply round_ratio; done || lia. Qed.

(** From the next binade after the largest finite number on, infinity is nearest. *)
Lemma overflow_ratio X D : 0 < D → 2 ^ m * 2 ^ (maxExponent F - 1) * D ≤ X → nearest_ratio F X D (infRep F).
Proof using V.
  intros HD HX. pose proof implicit_pos. destruct infRep_eq as [Ei _]. assert (8 ≤ 2 ^ exponentBits F) by (destruct V; change 8 with (2 ^ 3); apply Z.pow_le_mono_r; lia). assert (mag F (infRep F) * D ≤ X) as Hm by (rewrite Ei, <- (Z.add_0_r (_ * 2 ^ m)), mag_split by lia; by rewrite Z.add_0_r).
  assert (0 ≤ infRep F) by nia. split; [lia|]. intros r' Hr'. destruct (decide (r' = infRep F)) as [->|Hne]; [split; [lia|by left]|]. pose proof (mag_mono r' (infRep F) ltac:(lia)) as Hlt. apply (Z.mul_lt_mono_pos_r D) in Hlt; lia.
Qed.

Lemma overflow_nearest X k : 0 ≤ k → 2 ^ m * 2 ^ (maxExponent F - 1 + k) ≤ X → nearest F X k (infRep F).
Proof using V.
  intros Hk HX. assert (8 ≤ 2 ^ exponentBits F) by (destruct V; change 8 with (2 ^ 3); apply Z.pow_le_mono_r; lia). rewrite Z.pow_add_r in HX by lia. apply overflow_ratio; lia.
Qed.

(** A number that is represented is nearest to itself. *)
Lemma ratio_exact D r : 0 < D → 0 ≤ r ≤ infRep F → nearest_ratio F (mag F r * D) D r.
Proof using V.
  intros HD Hr. split; [done|]. intros r' Hr'. cbv zeta. rewrite Z.sub_diag. split; [lia|]. intros E. left. assert (mag F r' = mag F r) as E' by (apply (Z.mul_cancel_r _ _ D); lia). destruct (Z.lt_trichotomy r' r) as [Hlt|[->|Hlt]]; [pose proof (mag_mono r' r ltac:(lia)); lia|done|pose proof (mag_mono r r' ltac:(lia)); lia].
Qed.

Lemma lor_b2z x (c : bool) : Z.lor x (Z.b2z c) = if c then 2 * (x / 2) + 1 else x.
Proof using Type.
  destruct c; cbn [Z.b2z]; [|apply Z.lor_0_r]. pose proof (Z.div_mod x 2 ltac:(lia)) as E. pose proof (Z.mod_pos_bound x 2 ltac:(lia)) as Hb. assert (x mod 2 = 0 ∨ x mod 2 = 1) as [E0|E1] by lia; rewrite ?E0, ?E1 in E.
  - rewrite E at 1. rewrite Z.add_0_r. by rewrite lor_low by auto.
  - rewrite E at 1. rewrite <- (lor_low (x / 2) 1) by auto. by rewrite <- Z.lor_assoc.
Qed.

Lemma signBit_eq : 2 ^ (m + exponentBits F) = 2 ^ (w - 1).
Proof using Type. f_equal. lia. Qed.

Lemma sign_even : ∃ c, 2 ^ (w - 1) = 2 * 2 ^ m * c ∧ 0 < c.
Proof using V. destruct V. exists (2 ^ (w - 1 - m - 1)). split; [|lia]. rewrite <- Z.pow_succ_r, <- Z.pow_add_r by lia. f_equal. lia. Qed.

(** Fields side by side. *)
Lemma fields x e neg : 0 ≤ x < 2 ^ m → 0 ≤ e ≤ maxExponent F → let sg := signed_rep F neg 0 in
  Z.lor (Z.lor x (e * 2 ^ m)) sg = x + e * 2 ^ m + sg ∧ 0 ≤ x + e * 2 ^ m < 2 ^ (w - 1).
Proof using V.
  intros Hx He. cbv zeta. destruct V. assert (x + e * 2 ^ m < 2 ^ (w - 1)) as Hlt by (replace (w - 1) with (exponentBits F + m) by lia; rewrite Z.pow_add_r by lia; assert (e * 2 ^ m ≤ maxExponent F * 2 ^ m) by (apply Z.mul_le_mono_nonneg_r; lia); lia).
  assert (0 ≤ e * 2 ^ m) by nia. split; [|lia]. rewrite lor_shift_add by lia. unfold signed_rep. destruct neg; [|by rewrite Z.lor_0_r, Z.add_0_r]. replace (0 + 2 ^ (w - 1)) with (1 * 2 ^ (w - 1)) by lia. rewrite lor_shift_add by lia. lia.
Qed.

Lemma land_1 x : Z.land x 1 = Z.b2z (Z.odd x).
Proof using Type. change 1 with (Z.ones 1). rewrite Z.land_ones by lia. change (2 ^ 1) with 2. rewrite Zmod_odd. by destruct (Z.odd x). Qed.

Lemma signed_rep_add neg r : signed_rep F neg r = r + signed_rep F neg 0.
Proof using Type. unfold signed_rep. destruct neg; lia. Qed.

(** Rounding the representation rounds the number. *)
Lemma assemble X k e q neg (up tie : bool) : 0 ≤ k → 1 ≤ e < maxExponent F → 0 ≤ q < 2 * 2 ^ m → (e = 1 ∨ 2 ^ m ≤ q) → let U := 2 ^ (e - 1 + k) in q * U ≤ X < (q + 1) * U →
  up = (U <? 2 * (X - q * U)) → tie = (U =? 2 * (X - q * U)) → let res := (e - 1) * 2 ^ m + q + signed_rep F neg 0 in
  ∃ r, cast w (res + (if up then 1 else if tie then Z.land res 1 else 0)) = signed_rep F neg r ∧ nearest F X k r.
Proof using V.
  intros Hk He Hq Hor U HX Hup Htie res. pose proof implicit_pos as Hp. destruct infRep_eq as [Ei1 Ei2]. set (inc := Z.b2z (up || tie && Z.odd q)). assert (0 ≤ inc ≤ 1) as Hinc by (unfold inc; destruct (_ || _); cbn [Z.b2z]; lia). exists ((e - 1) * 2 ^ m + (q + inc)). split; [|apply (round_nearest X k e q); try done; unfold inc; by rewrite Hup, Htie].
  assert (Z.odd res = Z.odd q) as Hodd.
  { unfold res. destruct sign_even as (c & Ec & _). rewrite !Z.odd_add, Z.odd_mul, (Z.odd_pow 2 m) by (destruct V; lia). rewrite andb_false_r, xorb_false_l. unfold signed_rep. destruct neg; [|by rewrite xorb_false_r]. rewrite Z.add_0_l, Ec, !Z.odd_mul. cbn [Z.odd andb]. by rewrite xorb_false_r. }
  rewrite land_1, Hodd. assert ((if up then 1 else if tie then Z.b2z (Z.odd q) else 0) = inc) as -> by (unfold inc; destruct up, tie, (Z.odd q); done). rewrite (signed_rep_add neg (_ + (q + inc))). assert ((e - 1) * 2 ^ m + (q + inc) ≤ infRep F) by (rewrite Ei1; nia). assert (0 ≤ (e - 1) * 2 ^ m) by nia. unfold res. rewrite cast_id; [lia|]. pose proof (pow2_half w ltac:(destruct V; lia)). unfold signed_rep. destruct neg; lia.
Qed.

(** *** Fields of a representation *)
Lemma rep_split rep : word w rep → let r := rep mod 2 ^ (w - 1) in rep = signed_rep F (negative F rep) r ∧ 0 ≤ r < 2 ^ (w - 1).
Proof using V.
  unfold word, signed_rep, negative. intros Hr. cbv zeta. assert (0 < 2 ^ (w - 1)) by (destruct V; apply Z.pow_pos_nonneg; lia). pose proof (pow2_half w ltac:(destruct V; lia)). split; [|apply Z.mod_pos_bound; lia].
  destruct (Z.leb_spec (2 ^ (w - 1)) rep); [|by rewrite Z.mod_small by lia]. destruct (div_unique rep (2 ^ (w - 1)) 1 (rep - 2 ^ (w - 1))) as [_ ->]; lia.
Qed.

Lemma land_pow2 x n : 0 ≤ n → Z.land x (2 ^ n) = if Z.testbit x n then 2 ^ n else 0.
Proof using Type.
  intros Hn. apply Z.bits_inj'. intros i Hi. rewrite Z.land_spec, pow2_testbit by done. destruct (Z.eqb_spec i n) as [->|]; [|rewrite andb_false_r; destruct (Z.testbit x n); [rewrite pow2_testbit by done; symmetry; by apply Z.eqb_neq|by rewrite Z.bits_0]]. destruct (Z.testbit x n); [rewrite pow2_testbit by done; by rewrite Z.eqb_refl|by rewrite Z.bits_0].
Qed.

Section Fields.
Context (neg : bool) (r : Z) (Hr : 0 ≤ r < 2 ^ (w - 1)).

Lemma rep_abs : Z.land (signed_rep F neg r) (absMask F) = r.
Proof using V Hr.
  rewrite signBit_eq. replace (2 ^ (w - 1) - 1) with (Z.ones (w - 1)) by (rewrite Z.ones_equiv; lia). rewrite Z.land_ones by (destruct V; lia). unfold signed_rep. destruct neg; [|apply Z.mod_small; lia]. destruct (div_unique (r + 2 ^ (w - 1)) (2 ^ (w - 1)) 1 r) as [_ ->]; lia.
Qed.

Lemma rep_sign_bit : Z.testbit (signed_rep F neg r) (w - 1) = neg.
Proof using V Hr.
  assert (0 ≤ w - 1) by (destruct V; lia). rewrite Z.testbit_odd, Z.shiftr_div_pow2 by lia. unfold signed_rep. destruct neg; [|by rewrite Z.div_small by lia]. destruct (div_unique (r + 2 ^ (w - 1)) (2 ^ (w - 1)) 1 r) as [-> _]; [lia|lia|done].
Qed.

Lemma rep_word : word w (signed_rep F neg r).
Proof using V Hr. unfold word, signed_rep. pose proof (pow2_half w ltac:(destruct V; lia)). destruct neg; lia. Qed.

Lemma rep_mod : signed_rep F neg r mod 2 ^ (w - 1) = r ∧ negative F (signed_rep F neg r) = neg.
Proof using Hr.
  unfold signed_rep, negative. destruct neg; [|by rewrite Z.mod_small, (proj2 (Z.leb_gt _ _)) by lia]. rewrite (proj2 (Z.leb_le _ _)) by lia. split; [|done]. destruct (div_unique (r + 2 ^ (w - 1)) (2 ^ (w - 1)) 1 r) as [_ ->]; lia.
Qed.

Lemma rep_exponent : Z.land (Z.shiftr (signed_rep F neg r) m) (maxExponent F) = r / 2 ^ m.
Proof using V Hr.
  pose proof implicit_pos. destruct V. assert (2 ^ (w - 1) = 2 ^ exponentBits F * 2 ^ m) as E by (rewrite <- Z.pow_add_r by lia; f_equal; lia). replace (2 ^ exponentBits F - 1) with (Z.ones (exponentBits F)) by (rewrite Z.ones_equiv; lia). rewrite Z.land_ones, Z.shiftr_div_pow2 by lia.
  assert (0 ≤ r / 2 ^ m < 2 ^ exponentBits F) by (split; [apply Z.div_pos; lia|apply Z.div_lt_upper_bound; lia]). unfold signed_rep. destruct neg; [|apply Z.mod_small; lia]. rewrite E, Z.div_add by lia. rewrite <- (Z.mul_1_l (2 ^ exponentBits F)) at 1. rewrite Z_mod_plus_full. apply Z.mod_small. lia.
Qed.

Lemma rep_significand : Z.land (signed_rep F neg r) (significandMask F) = r mod 2 ^ m.
Proof using V Hr.
  pose proof implicit_pos. destruct sign_even as (c & Ec & _). replace (2 ^ m - 1) with (Z.ones m) by (rewrite Z.ones_equiv; lia). rewrite Z.land_ones by (destruct V; lia). unfold signed_rep. destruct neg; [|done]. rewrite Ec. replace (r + 2 * 2 ^ m * c) with (r + 2 * c * 2 ^ m) by ring. apply Z_mod_plus_full.
Qed.

Lemma rep_sign : Z.land (signed_rep F neg r) (signBit F) = signed_rep F neg 0.
Proof using V Hr. rewrite signBit_eq, land_pow2, rep_sign_bit by (destruct V; lia). unfold signed_rep. destruct neg; lia. Qed.

End Fields.

Lemma rep_subtraction n1 n2 r1 r2 : 0 ≤ r1 < 2 ^ (w - 1) → 0 ≤ r2 < 2 ^ (w - 1) → negb (Z.land (Z.lxor (signed_rep F n1 r1) (signed_rep F n2 r2)) (signBit F) =? 0) = xorb n1 n2.
Proof using V.
  intros H1 H2. rewrite signBit_eq, land_pow2 by (destruct V; lia). rewrite Z.lxor_spec, !rep_sign_bit by done. assert (0 < 2 ^ (w - 1)) by lia. destruct (xorb n1 n2); [by rewrite (proj2 (Z.eqb_neq _ _)) by lia|done].
Qed.

Lemma lor_implicit s : (0 ≤ s < 2 ^ m → Z.lor s (2 ^ m) = s + 2 ^ m) ∧ (2 ^ m ≤ s < 2 * 2 ^ m → Z.lor s (2 ^ m) = s).
Proof using V.
  assert (0 ≤ m) by (destruct V; lia). assert (∀ x, 0 ≤ x < 2 ^ m → Z.lor x (2 ^ m) = x + 2 ^ m) as H0 by (intros x Hx; rewrite <- (Z.mul_1_l (2 ^ m)) at 1; rewrite lor_shift_add by lia; lia). split; [apply H0|]. intros Hs. replace s with (s - 2 ^ m + 2 ^ m) at 1 by lia. rewrite <- H0 by lia. rewrite <- Z.lor_assoc, Z.lor_diag, H0 by lia. lia.
Qed.

Lemma ratio_scale X D c r : 0 < c → nearest_ratio F (X * c) (D * c) r → nearest_ratio F X D r.
Proof using Type.
  intros Hc [Hr Hn]. assert (∀ s, Z.abs (mag F s * (D * c) - X * c) = Z.abs (mag F s * D - X) * c) as E by (intros s; replace (mag F s * (D * c) - X * c) with ((mag F s * D - X) * c) by ring; rewrite Z.abs_mul; lia).
  split; [done|]. intros r' Hr'. specialize (Hn r' Hr'). cbv zeta in Hn. rewrite !E in Hn. destruct Hn as [H1 H2]. split; [by apply (Z.mul_le_mono_pos_r _ _ c)|]. intros E'. apply H2. by rewrite E'.
Qed.

Lemma ratio_proportional X D X' D' r : 0 < D → 0 < D' → X * D' = X' * D → nearest_ratio F X D r → nearest_ratio F X' D' r.
Proof using Type.
  intros HD HD' E [Hr Hn]. apply (ratio_scale X' D' D); [done|]. rewrite <- E, (Z.mul_comm D' D). split; [done|]. assert (∀ s, Z.abs (mag F s * (D * D') - X * D') = Z.abs (mag F s * D - X) * D') as E' by (intros s; replace (mag F s * (D * D') - X * D') with ((mag F s * D - X) * D') by ring; rewrite Z.abs_mul; lia).
  intros r' Hr'. cbv zeta. rewrite !E'. destruct (Hn r' Hr') as [H1 H2]. split; [by apply Z.mul_le_mono_nonneg_r; [lia|]|]. intros H. apply H2. apply (Z.mul_cancel_r _ _ D'); lia.
Qed.

Lemma nearest_scale X k j r : 0 ≤ k → 0 ≤ j → nearest F (X * 2 ^ j) (k + j) r → nearest F X k r.
Proof using Type. intros Hk Hj. unfold nearest. rewrite Z.pow_add_r by lia. apply ratio_scale. lia. Qed.

Lemma nearest_exact r : 0 ≤ r ≤ infRep F → nearest F (mag F r) 0 r.
Proof using V. intros Hr. pose proof (ratio_exact 1 r ltac:(lia) Hr) as H. by rewrite Z.mul_1_r in H. Qed.

Lemma signed_rep_lxor neg r : 0 ≤ r < 2 ^ (w - 1) → signed_rep F neg r = Z.lxor r (signed_rep F neg 0).
Proof using V.
  intros Hr. unfold signed_rep. destruct neg; [|by rewrite Z.lxor_0_r]. rewrite Z.add_0_l. apply Z.add_nocarry_lxor. assert (0 ≤ w - 1) by (destruct V; lia). by rewrite land_pow2, (testbit_high (w - 1)) by lia.
Qed.

Lemma mag_pos r : 0 < r → 0 < mag F r.
Proof using V. intros Hr. pose proof (mag_mono 0 r ltac:(lia)) as H. pose proof implicit_pos. by rewrite (mag_small 0) in H by lia. Qed.

Lemma mag_nonneg r : 0 ≤ r → 0 ≤ mag F r.
Proof using V. intros Hr. pose proof implicit_pos. pose proof (mag_mono_le 0 r ltac:(lia)). rewrite mag_small in * by lia. lia. Qed.

Lemma value_signed neg r : 0 ≤ r < 2 ^ (w - 1) → value F (signed_rep F neg r) = if neg then - mag F r else mag F r.
Proof using Type. intros Hr. unfold value. by destruct (rep_mod neg r Hr) as [-> ->]. Qed.

Lemma finite_split a : finite F a → ∃ neg r, a = signed_rep F neg r ∧ 0 ≤ r < infRep F.
Proof using V. intros [Ha Hf]. destruct (rep_split a Ha) as [E Hr]. exists (negative F a), (a mod 2 ^ (w - 1)). split; [done|lia]. Qed.

Lemma lor_sign neg r : 0 ≤ r < 2 ^ (w - 1) → Z.lor r (signed_rep F neg 0) = signed_rep F neg r.
Proof using V.
  intros Hr. unfold signed_rep. destruct neg; [|apply Z.lor_0_r]. rewrite Z.add_0_l, <- (Z.mul_1_l (2 ^ (w - 1))) at 1. rewrite lor_shift_add by (destruct V; lia). lia.
Qed.

Lemma product_sign n1 r1 n2 r2 : 0 ≤ r1 < 2 ^ (w - 1) → 0 ≤ r2 < 2 ^ (w - 1) → Z.land (Z.lxor (signed_rep F n1 r1) (signed_rep F n2 r2)) (signBit F) = signed_rep F (xorb n1 n2) 0.
Proof using V. intros H1 H2. rewrite signBit_eq, land_pow2 by (destruct V; lia). rewrite Z.lxor_spec, !rep_sign_bit by done. unfold signed_rep. by destruct (xorb n1 n2). Qed.

End Rounding.

(** ** Instances *)
Lemma wideMultiply32_spec a b : word 32 a → word 32 b → wideMultiply32 a b = (a * b / 2 ^ 32, a * b mod 2 ^ 32).
Proof.
  unfold word, wideMultiply32. intros Ha Hb. rewrite (cast_id 64 (a * b)) by nia. rewrite Z.shiftr_div_pow2 by lia. rewrite (cast_id 32 (a * b / 2 ^ 32)) by (split; [apply Z.div_pos; lia|apply Z.div_lt_upper_bound; nia]). done.
Qed.

Lemma wideMultiply64_spec a b : word 64 a → word 64 b → wideMultiply64 a b = (a * b / 2 ^ 64, a * b mod 2 ^ 64).
Proof.
  intros Ha Hb. unfold wideMultiply64. assert (∀ x, Z.land x (2 ^ 32 - 1) = x mod 2 ^ 32) as Hlo by (intros x; apply (Z.land_ones x 32); lia). rewrite !Hlo, !Z.shiftr_div_pow2, Z.shiftl_mul_pow2 by lia. unfold word in *. set (H := 2 ^ 32). assert (2 ^ 64 = H * H) as EH by done. rewrite EH in *.
  assert (∀ x, 0 ≤ x < H * H → u64 x = x) as Hc by (intros x Hx; apply cast_id; lia). assert (1 < H ∧ 3 * H ≤ H * H) as [HH HH3] by done. assert (∀ x, 0 ≤ x < H * H → x = H * (x / H) + x mod H ∧ 0 ≤ x mod H < H ∧ 0 ≤ x / H < H) as Hs.
  { intros x Hx. split; [apply Z.div_mod; lia|]. split; [apply Z.mod_pos_bound; lia|]. split; [apply Z.div_pos; lia|apply Z.div_lt_upper_bound; lia]. }
  assert (∀ x y, 0 ≤ x < H → 0 ≤ y < H → 0 ≤ x * y ≤ (H - 1) * (H - 1)) as Hp by (intros x y Hx Hy; split; [lia|apply Z.mul_le_mono_nonneg; lia]). clearbody H.
  destruct (Hs a Ha) as (Ea & Ha0 & Ha1). destruct (Hs b Hb) as (Eb & Hb0 & Hb1). set (a0 := a mod H) in *. set (a1 := a / H) in *. set (b0 := b mod H) in *. set (b1 := b / H) in *. clearbody a0 a1 b0 b1.
  pose proof (Hp a0 b0 Ha0 Hb0). pose proof (Hp a0 b1 Ha0 Hb1). pose proof (Hp a1 b0 Ha1 Hb0). pose proof (Hp a1 b1 Ha1 Hb1). set (p00 := a0 * b0) in *. set (p01 := a0 * b1) in *. set (p10 := a1 * b0) in *. set (p11 := a1 * b1) in *.
  assert (a * b = p11 * (H * H) + (p10 + p01) * H + p00) as -> by (unfold p00, p01, p10, p11; rewrite Ea, Eb; ring). clearbody p00 p10 p01 p11. clear Ea Eb. rewrite (Hc p00), (Hc p01), (Hc p10), (Hc p11) by lia.
  destruct (Hs p00 ltac:(lia)) as (E0 & B0 & C0). destruct (Hs p01 ltac:(lia)) as (E1 & B1 & C1). destruct (Hs p10 ltac:(lia)) as (E2 & B2 & C2). set (l0 := p00 mod H) in *. set (h0 := p00 / H) in *. set (l1 := p01 mod H) in *. set (h1 := p01 / H) in *. set (l2 := p10 mod H) in *. set (h2 := p10 / H) in *. clearbody l0 h0 l1 h1 l2 h2.
  rewrite (Hc (h0 + l1 + l2)) by lia. set (r1 := h0 + l1 + l2). assert (0 ≤ r1 < 3 * H) by (unfold r1; lia). destruct (Hs r1 ltac:(lia)) as (E3 & B3 & C3). set (l3 := r1 mod H) in *. set (h3 := r1 / H) in *.
  assert (u64 (r1 * H) = l3 * H) as -> by (unfold cast; rewrite EH, Z.mul_mod_distr_r by lia; done). assert (0 ≤ l3 * H ≤ (H - 1) * H) by (split; [lia|apply Z.mul_le_mono_nonneg_r; lia]). rewrite (Hc (l0 + l3 * H)) by lia. assert (h3 < 3) by (apply (Z.mul_lt_mono_pos_l H); lia). assert (h1 < H - 1) by (apply (Z.mul_lt_mono_pos_l H); lia). assert (h2 < H - 1) by (apply (Z.mul_lt_mono_pos_l H); lia).
  assert (p11 * (H * H) + (p10 + p01) * H + p00 = H * H * (h1 + h2 + h3 + p11) + (l0 + l3 * H)) as ET by (rewrite E0, E1, E2; replace (h0) with (H * h3 + l3 - l1 - l2) by (unfold r1 in *; lia); ring).
  destruct (div_unique _ _ _ _ ET ltac:(lia)) as [-> ->]. rewrite Hc; [done|lia].
Qed.

#[export] Instance single_valid : ValidFormat single.
Proof. split; cbn; lia. Qed.

#[export] Instance double_valid : ValidFormat double.
Proof. split; cbn; lia. Qed.

#[export] Instance quad_valid : ValidFormat quad.
Proof. split; cbn; lia. Qed.

#[export] Instance single_wide : WideMultiply single wideMultiply32.
Proof. split; cbn; [lia|apply wideMultiply32_spec]. Qed.

#[export] Instance double_wide : WideMultiply double wideMultiply64.
Proof. split; cbn; [lia|apply wideMultiply64_spec]. Qed.

End SoftFloat.
