(* ===== verification/SoftAdd.v ===== *)
(** * SoftAdd: floating-point addition

    Models [fp_add_impl.inc]: the special cases, the alignment of the smaller operand with a sticky
    bit, the sum or difference of the significands, the return to the format and the rounding in the
    current mode.  The theorems: in the default mode the sum of finite numbers is the exact sum rounded
    to nearest even, through cancellation, subnormal numbers and overflow, with the signs of zero that
    the standard prescribes, and infinities and NaNs are handled as it says. *)
From S2P Require Import Prelude Common IntDiv SoftFloat.

Module SoftAdd.
Import IntDiv SoftFloat.

Inductive CRT_FE_ROUND_MODE := CRT_FE_TONEAREST | CRT_FE_DOWNWARD | CRT_FE_UPWARD | CRT_FE_TOWARDZERO.

Section Operations.
Variable F : Format.

(** Zero, infinity and NaN. *)
Definition add_special (a b : Z) : option Z :=
  let aAbs := Z.land a (absMask F) in
  let bAbs := Z.land b (absMask F) in
  let special x := infRep F - 1 <=? cast (typeWidth F) (x - 1) in
  if special aAbs || special bAbs then
    if infRep F <? aAbs then Some (Z.lor a (quietBit F))
    else if infRep F <? bAbs then Some (Z.lor b (quietBit F))
    else if aAbs =? infRep F then
      if Z.lxor a b =? signBit F then Some (qnanRep F) else Some a
    else if bAbs =? infRep F then Some b
    else if aAbs =? 0 then
      if bAbs =? 0 then Some (Z.land a b) else Some b
    else if bAbs =? 0 then Some a
    else None
  else None.

(** Exponent and significand, normalized. *)
Definition unpack (rep : Z) : result (Z * Z) :=
  let exponent := Z.land (Z.shiftr rep (significandBits F)) (maxExponent F) in
  let significand := Z.land rep (significandMask F) in
  if exponent =? 0 then normalize F significand else Ok (exponent, significand).

(** A shift to the right with a sticky bottom bit. *)
Definition shift_sticky (significand n : Z) : result Z :=
  s ← shl (typeWidth F) significand (typeWidth F - n);
  x ← shr (typeWidth F) significand n;
  Ok (Z.lor x (Z.b2z (negb (s =? 0)))).

(** The significand of the smaller operand at the exponent of the larger one. *)
Definition align_significand (bSignificand align : Z) : result Z :=
  if align =? 0 then Ok bSignificand
  else if align <? typeWidth F then shift_sticky bSignificand align
  else Ok 1.

(** The sum of the significands and its exponent; [None] when they cancel. *)
Definition add_significands (subtraction : bool) (aExponent aSignificand bSignificand : Z) : result (option (Z * Z)) :=
  let w := typeWidth F in
  if subtraction then
    let aSignificand := cast w (aSignificand - bSignificand) in
    if aSignificand =? 0 then Ok None
    else if aSignificand <? Z.shiftl (implicitBit F) 3 then
      let shift := rep_clz F aSignificand - rep_clz F (Z.shiftl (implicitBit F) 3) in
      aSignificand ← shl w aSignificand shift;
      Ok (Some (aExponent - shift, aSignificand))
    else Ok (Some (aExponent, aSignificand))
  else
    let aSignificand := cast w (aSignificand + bSignificand) in
    if negb (Z.land aSignificand (Z.shiftl (implicitBit F) 4) =? 0) then
      Ok (Some (aExponent + 1, Z.lor (Z.shiftr aSignificand 1) (Z.land aSignificand 1)))
    else Ok (Some (aExponent, aSignificand)).

(** The increment of the rounding mode. *)
Definition round_increment (mode : CRT_FE_ROUND_MODE) (resultSign roundGuardSticky result : Z) : Z :=
  match mode with
  | CRT_FE_TONEAREST =>
      if 4 <? roundGuardSticky then 1 else if roundGuardSticky =? 4 then Z.land result 1 else 0
  | CRT_FE_DOWNWARD => Z.b2z (negb (resultSign =? 0) && negb (roundGuardSticky =? 0))
  | CRT_FE_UPWARD => Z.b2z ((resultSign =? 0) && negb (roundGuardSticky =? 0))
  | CRT_FE_TOWARDZERO => 0
  end.

(** Range check, subnormal results and rounding. *)
Definition pack (mode : CRT_FE_ROUND_MODE) (resultSign aExponent aSignificand : Z) : result Z :=
  if maxExponent F <=? aExponent then Ok (Z.lor (infRep F) resultSign)
  else
    '(aExponent, aSignificand) ←
      (if aExponent <=? 0 then s ← shift_sticky aSignificand (1 - aExponent); Ok (0, s)
       else Ok (aExponent, aSignificand));
    let roundGuardSticky := Z.land aSignificand 7 in
    let result := Z.land (Z.shiftr aSignificand 3) (significandMask F) in
    e ← shl (typeWidth F) aExponent (significandBits F);
    let result := Z.lor (Z.lor result e) resultSign in
    Ok (cast (typeWidth F) (result + round_increment mode resultSign roundGuardSticky result)).

(** The sum of two finite numbers, the first with the larger magnitude. *)
Definition add_finite (mode : CRT_FE_ROUND_MODE) (aRep bRep : Z) : result Z :=
  '(aExponent, aSignificand) ← unpack aRep;
  '(bExponent, bSignificand) ← unpack bRep;
  let resultSign := Z.land aRep (signBit F) in
  let subtraction := negb (Z.land (Z.lxor aRep bRep) (signBit F) =? 0) in
  aSignificand ← shl (typeWidth F) (Z.lor aSignificand (implicitBit F)) 3;
  bSignificand ← shl (typeWidth F) (Z.lor bSignificand (implicitBit F)) 3;
  bSignificand ← align_significand bSignificand (u32 (aExponent - bExponent));
  s ← add_significands subtraction aExponent aSignificand bSignificand;
  match s with
  | None => Ok 0
  | Some (aExponent, aSignificand) => pack mode resultSign aExponent aSignificand
  end.

Definition addXf3 (mode : CRT_FE_ROUND_MODE) (a b : Z) : result Z :=
  match add_special a b with
  | Some r => Ok r
  | None => if Z.land a (absMask F) <? Z.land b (absMask F) then add_finite mode b a else add_finite mode a b
  end.

End Operations.

(** 1.5 + 2.25 = 3.75 and 2^24 + 1 = 2^24 in single precision. *)
Example add_single : addXf3 single CRT_FE_TONEAREST 0x3FC00000 0x40100000 = Ok 0x40700000 ∧ addXf3 single CRT_FE_TONEAREST 0x4B800000 0x3F800000 = Ok 0x4B800000.
Proof. split; vm_compute; reflexivity. Qed.

(** ** Proofs *)
(** [c] is the sum of [a] and [b], rounded, with the right sign when it is zero. *)
Definition sum_rounded (F : Format) (a b c : Z) : Prop :=
  let x := value F a + value F b in
  (x = 0 → c = signed_rep F (negative F a && negative F b) 0) ∧ (x ≠ 0 → ∃ r, nearest F (Z.abs x) 0 r ∧ c = signed_rep F (x <? 0) r).

Section Addition.
Context {F : Format} {V : ValidFormat F}.
Local Abbreviation m := (significandBits F).
Local Abbreviation w := (typeWidth F).

(** *** Sticky significands *)
(** [S] stands for [X] in units of [U], its lowest bit for whatever was lost. *)
Definition sticky (S X U : Z) : Prop := S * U = X ∨ (Z.odd S = true ∧ (S - 1) * U < X < (S + 1) * U).

(** One exact bit less. *)
Definition loose (S X U : Z) : Prop := sticky S X U ∨ ∃ S0, S = 2 * S0 ∧ sticky S0 X (2 * U).

Lemma shift_sticky_value S n : word w S → 0 < n < w → shift_sticky F S n = Ok (if S mod 2 ^ n =? 0 then S / 2 ^ n else 2 * (S / 2 ^ n / 2) + 1).
Proof using V.
  intros HS Hn. unfold shift_sticky. destruct (udiv_start w S n HS ltac:(lia)) as [-> ->]. cbn [mbind result_bind]. rewrite lor_b2z. pose proof (Z.pow_pos_nonneg 2 (w - n) ltac:(lia) ltac:(lia)). destruct (Z.eqb_spec (S mod 2 ^ n) 0) as [->|Hne]; [by rewrite Z.mul_0_l|]. rewrite (proj2 (Z.eqb_neq _ 0)) by nia. done.
Qed.

(** Shifting to the right with a sticky bit. *)
Lemma sticky_shift S X U n : 0 ≤ S → 0 < U → 0 < n → sticky S X U → let S' := if S mod 2 ^ n =? 0 then S / 2 ^ n else 2 * (S / 2 ^ n / 2) + 1 in sticky S' X (U * 2 ^ n).
Proof using Type.
  intros HS HU Hn Hst. cbv zeta. assert (0 < 2 ^ n) as HP by lia. pose proof (Z.div_mod S (2 ^ n) ltac:(lia)) as E. pose proof (Z.mod_pos_bound S (2 ^ n) ltac:(lia)) as Hb. set (q := S / 2 ^ n) in *. set (r := S mod 2 ^ n) in *. destruct (Z.eqb_spec r 0) as [E0|Hne].
  - left. destruct Hst as [<-|[Hodd _]]; [rewrite E, E0; ring|]. exfalso. rewrite E, E0, Z.add_0_r, Z.odd_mul in Hodd. rewrite (Z.odd_pow 2 n) in Hodd by lia. done.
  - right. pose proof (Z.div_mod q 2 ltac:(lia)) as E2. pose proof (Z.mod_pos_bound q 2 ltac:(lia)). split; [rewrite Z.add_1_r, Z.odd_succ, Z.even_mul; done|]. assert (q * (U * 2 ^ n) < X < (q + 1) * (U * 2 ^ n)) as HX.
    { assert (q * (U * 2 ^ n) = (S - r) * U) as -> by (rewrite E; ring). assert ((q + 1) * (U * 2 ^ n) = (S - r + 2 ^ n) * U) as -> by (rewrite E at 1; ring). assert (0 < r * U) by nia. assert (r * U ≤ (2 ^ n - 1) * U) by (apply Z.mul_le_mono_nonneg_r; lia). assert (U ≤ r * U) by nia. destruct Hst as [<-|[_ HX]]; lia. }
    assert (0 < U * 2 ^ n) by nia. set (T := U * 2 ^ n) in *. assert (2 * (q / 2) * T ≤ q * T) by (apply Z.mul_le_mono_nonneg_r; lia). assert ((q + 1) * T ≤ (2 * (q / 2) + 2) * T) by (apply Z.mul_le_mono_nonneg_r; lia). lia.
Qed.

(** The three low bits of a significand decide like the exact value. *)
Lemma loose_round S X U : 0 < U → loose S X U → let q := S / 8 in let g := S mod 8 in
  q * (8 * U) ≤ X < (q + 1) * (8 * U) ∧ (4 <? g) = (8 * U <? 2 * (X - q * (8 * U))) ∧ (g =? 4) = (8 * U =? 2 * (X - q * (8 * U))).
Proof using Type.
  intros HU Hl. cbv zeta. pose proof (Z.div_mod S 8 ltac:(lia)) as E. pose proof (Z.mod_pos_bound S 8 ltac:(lia)) as Hg. set (q := S / 8) in *. set (g := S mod 8) in *. clearbody q g. assert (q * (8 * U) = 8 * (q * U)) as -> by ring. assert ((q + 1) * (8 * U) = 8 * (q * U) + 8 * U) as -> by ring. set (Q := q * U) in *.
  assert (∃ t, X = 8 * Q + t ∧ ((g = 0 ∧ t = 0) ∨ (g = 4 ∧ t = 4 * U) ∨ (0 < g < 4 ∧ 0 < t < 4 * U) ∨ (4 < g ∧ 4 * U < t < 8 * U))) as (t & -> & Ht).
  { exists (X - 8 * Q). split; [lia|]. assert (S * U = 8 * Q + g * U) as ES by (rewrite E; unfold Q; ring). destruct Hl as [[Hx|[Ho Hx]]|(S0 & E0 & [Hx|[Ho Hx]])].
    - assert (X - 8 * Q = g * U) as -> by lia. assert (g = 0 ∨ g = 1 ∨ g = 2 ∨ g = 3 ∨ g = 4 ∨ g = 5 ∨ g = 6 ∨ g = 7) as Hg8 by lia. clear - Hg8 HU. lia.
    - assert (Z.odd g = true) as Hog by (rewrite E, Z.odd_add, Z.odd_mul in Ho; by rewrite andb_false_l, xorb_false_l in Ho). assert (g = 1 ∨ g = 3 ∨ g = 5 ∨ g = 7) as Hg4 by (assert (g = 0 ∨ g = 1 ∨ g = 2 ∨ g = 3 ∨ g = 4 ∨ g = 5 ∨ g = 6 ∨ g = 7) as Hg8 by lia; repeat destruct Hg8 as [Hg8|Hg8]; subst g; try discriminate Hog; auto).
      assert ((S - 1) * U = 8 * Q + g * U - U) as E1 by lia. assert ((S + 1) * U = 8 * Q + g * U + U) as E2 by lia. rewrite E1, E2 in Hx. clear - Hg4 HU Hx. lia.
    - assert (S0 * (2 * U) = S * U) as E1 by (rewrite E0; ring). assert (X - 8 * Q = g * U) as -> by lia. assert (g = 0 ∨ g = 1 ∨ g = 2 ∨ g = 3 ∨ g = 4 ∨ g = 5 ∨ g = 6 ∨ g = 7) as Hg8 by lia. clear - Hg8 HU. lia.
    - pose proof (Zodd_ex S0 (proj1 (Zodd_bool_iff S0) Ho)) as (j & Ej). assert (g = 2 ∨ g = 6) as Hg2 by lia. assert ((S0 - 1) * (2 * U) = 8 * Q + g * U - 2 * U) as E1 by (rewrite <- ES, E0 by lia; ring || lia). assert ((S0 + 1) * (2 * U) = 8 * Q + g * U + 2 * U) as E2 by lia. rewrite E1, E2 in Hx. clear - Hg2 HU Hx. lia. }
  clear - Ht HU. split; [lia|]. split; [destruct (Z.ltb_spec 4 g), (Z.ltb_spec (8 * U) (2 * (8 * Q + t - 8 * Q))); done || lia|destruct (Z.eqb_spec g 4), (Z.eqb_spec (8 * U) (2 * (8 * Q + t - 8 * Q))); done || lia].
Qed.

Lemma loose_lower S X U j : 1 < j → 0 < U → loose S X U → 2 ^ j ≤ S → 2 ^ j * U ≤ X.
Proof using Type.
  intros Hj HU Hl HS. assert (∃ c, 2 ^ j = 4 * c) as (c & Ec) by (exists (2 ^ (j - 2)); change 4 with (2 ^ 2); rewrite <- Z.pow_add_r by lia; f_equal; lia). rewrite Ec in *. destruct Hl as [[<-|[Ho Hx]]|(S0 & -> & [<-|[Ho Hx]])].
  - apply Z.mul_le_mono_nonneg_r; lia.
  - pose proof (Zodd_ex S (proj1 (Zodd_bool_iff S) Ho)) as (i & Ei). assert (4 * c * U ≤ (S - 1) * U) by (apply Z.mul_le_mono_nonneg_r; lia). lia.
  - rewrite (Z.mul_comm 2 S0) in HS. assert (4 * c * U ≤ S0 * 2 * U) by (apply Z.mul_le_mono_nonneg_r; lia). lia.
  - pose proof (Zodd_ex S0 (proj1 (Zodd_bool_iff S0) Ho)) as (i & Ei). assert (4 * c * U ≤ (2 * S0 - 2) * U) by (apply Z.mul_le_mono_nonneg_r; lia). lia.
Qed.

(** The last lines of [fp_add_impl.inc]. *)
Lemma pack_round X k e ef S neg : 3 ≤ k → 1 ≤ e < maxExponent F → 0 ≤ S < 16 * 2 ^ m → ((ef = e ∧ 8 * 2 ^ m ≤ S) ∨ (ef = 0 ∧ e = 1 ∧ S < 8 * 2 ^ m)) → loose S X (2 ^ (e - 1 + k - 3)) →
  ∃ r, (let roundGuardSticky := Z.land S 7 in let res := Z.land (Z.shiftr S 3) (significandMask F) in x ← shl w ef m; let res := Z.lor (Z.lor res x) (signed_rep F neg 0) in
     Ok (cast w (res + round_increment CRT_FE_TONEAREST (signed_rep F neg 0) roundGuardSticky res))) = Ok (signed_rep F neg r) ∧ nearest F X k r.
Proof using V.
  intros Hk He HS Hef Hl. pose proof implicit_pos as Hp. destruct infRep_eq as [Ei1 Ei2]. cbv zeta. change 7 with (Z.ones 3). replace (2 ^ m - 1) with (Z.ones m) by (rewrite Z.ones_equiv; lia). assert (0 ≤ m < w) as Hmw by (destruct V; lia). rewrite !Z.land_ones, Z.shiftr_div_pow2 by lia. change (2 ^ 3) with 8.
  set (U := 2 ^ (e - 1 + k - 3)) in *. assert (0 < U) as HU by (apply Z.pow_pos_nonneg; lia). assert (8 * U = 2 ^ (e - 1 + k)) as EU by (unfold U; change 8 with (2 ^ 3); rewrite <- Z.pow_add_r by lia; f_equal; lia). destruct (loose_round S X U HU Hl) as (HX & H4 & H4').
  pose proof (Z.div_mod S 8 ltac:(lia)) as ES. pose proof (Z.mod_pos_bound S 8 ltac:(lia)) as Hg. set (q := S / 8) in *. set (g := S mod 8) in *. assert (q mod 2 ^ m + ef * 2 ^ m = (e - 1) * 2 ^ m + q) as Eidx.
  { destruct Hef as [[-> H8]|(-> & -> & H8)]; [|rewrite Z.mod_small; lia]. destruct (div_unique q (2 ^ m) 1 (q - 2 ^ m)) as [_ ->]; lia. }
  assert (0 ≤ ef ≤ maxExponent F) as Hef' by lia. destruct (fields (q mod 2 ^ m) ef neg (Z.mod_pos_bound q (2 ^ m) ltac:(lia)) Hef') as [Ef Hf]. assert (0 ≤ ef * 2 ^ m < 2 ^ w) as Hsh by (pose proof (pow2_half w ltac:(lia)); pose proof (Z.mod_pos_bound q (2 ^ m) ltac:(lia)); nia).
  rewrite shl_ok by lia. rewrite Z.shiftl_mul_pow2, (cast_id w (ef * 2 ^ m)) by lia. cbn [mbind result_bind]. rewrite Ef, Eidx. rewrite EU in HX, H4, H4'. destruct (assemble X k e q neg _ _ ltac:(lia) He ltac:(lia) ltac:(lia) HX H4 H4') as (r & Er & Hn). exists r. split; [|done]. f_equal. exact Er.
Qed.

Lemma loose_shift S X U n : 0 ≤ S → 0 < U → 0 < n → loose S X U → let S' := if S mod 2 ^ n =? 0 then S / 2 ^ n else 2 * (S / 2 ^ n / 2) + 1 in sticky S' X (U * 2 ^ n).
Proof using Type.
  intros HS HU Hn [Hst|(S0 & E & Hst)]; [by apply sticky_shift|]. cbv zeta. rewrite E. rewrite (pow2_half n) by lia. assert (0 < 2 ^ (n - 1)) by (apply Z.pow_pos_nonneg; lia). rewrite Z.div_mul_cancel_l, Z.mul_mod_distr_l by lia. assert ((2 * (S0 mod 2 ^ (n - 1)) =? 0) = (S0 mod 2 ^ (n - 1) =? 0)) as -> by (apply Bool.eq_iff_eq_true; rewrite !Z.eqb_eq; lia).
  replace (U * (2 * 2 ^ (n - 1))) with (2 * U * 2 ^ (n - 1)) by ring. destruct (decide (n = 1)) as [->|]; [change (2 ^ (1 - 1)) with 1; rewrite Z.mod_1_r, Z.div_1_r, Z.mul_1_r; done|]. apply (sticky_shift S0); lia || done.
Qed.

Lemma pack_spec X k e S neg : 3 ≤ k → 0 ≤ e + k - 4 → 1 - e < w → 8 * 2 ^ m ≤ S < 16 * 2 ^ m → loose S X (2 ^ (e + k - 4)) →
  ∃ r, pack F CRT_FE_TONEAREST (signed_rep F neg 0) e S = Ok (signed_rep F neg r) ∧ nearest F X k r.
Proof using V.
  intros Hk Hek He HS Hl. pose proof implicit_pos as Hp. destruct infRep_eq as [Ei1 Ei2]. assert (8 ≤ 2 ^ exponentBits F) by (destruct V; change 8 with (2 ^ 3); apply Z.pow_le_mono_r; lia). assert (16 * 2 ^ m = 2 ^ (m + 4)) as E16 by (rewrite Z.pow_add_r by (destruct V; lia); lia). assert (8 * 2 ^ m = 2 ^ (m + 3)) as E8 by (rewrite Z.pow_add_r by (destruct V; lia); lia).
  assert (word w S) as Hw by (assert (2 ^ (m + 4) ≤ 2 ^ w) by (destruct V; apply Z.pow_le_mono_r; lia); unfold word; lia). unfold pack. destruct (Z.leb_spec (maxExponent F) e).
  - exists (infRep F). split.
    + destruct (fields 0 (maxExponent F) neg) as [Ef _]; [lia|lia|]. rewrite Z.lor_0_l, Z.add_0_l, <- Ei1 in Ef. by rewrite Ef, <- signed_rep_add.
    + apply overflow_nearest; [lia|]. pose proof (loose_lower S X (2 ^ (e + k - 4)) (m + 3) ltac:(destruct V; lia) ltac:(apply Z.pow_pos_nonneg; lia) Hl ltac:(lia)) as HX. rewrite <- Z.pow_add_r in HX by (destruct V; lia). apply (Z.le_trans _ (2 ^ (m + 3 + (e + k - 4)))); [|done]. rewrite <- Z.pow_add_r by (destruct V; lia). apply Z.pow_le_mono_r; lia.
  - destruct (Z.leb_spec e 0).
    + rewrite shift_sticky_value by (done || lia). cbn [mbind result_bind]. set (n := 1 - e) in *. pose proof (loose_shift S X (2 ^ (e + k - 4)) n ltac:(lia) (Z.pow_pos_nonneg 2 (e + k - 4) ltac:(lia) ltac:(lia)) ltac:(lia) Hl) as Hst. cbv zeta in Hst. set (S' := if S mod 2 ^ n =? 0 then _ else _) in *. rewrite <- Z.pow_add_r in Hst by lia. replace (e + k - 4 + n) with (1 - 1 + k - 3) in Hst by lia.
      assert (0 ≤ S / 2 ^ n < 8 * 2 ^ m) as Hd. { split; [apply Z.div_pos; lia|]. apply Z.div_lt_upper_bound; [lia|]. assert (2 ^ 1 ≤ 2 ^ n) by (apply Z.pow_le_mono_r; lia). nia. }
      assert (0 ≤ S' < 8 * 2 ^ m) as HS' by (unfold S'; destruct (_ =? 0); [lia|]; pose proof (Z.div_mod (S / 2 ^ n) 2 ltac:(lia)); pose proof (Z.mod_pos_bound (S / 2 ^ n) 2 ltac:(lia)); lia).
      apply (pack_round X k 1 0 S' neg); [lia|lia|lia|right; lia|by left].
    + cbn [mbind result_bind]. apply (pack_round X k e e S neg); [lia|lia|lia|left; lia|]. by replace (e - 1 + k - 3) with (e + k - 4) by lia.
Qed.

(** Exponent and significand of a finite number, normalized. *)
Lemma unpack_spec neg r : 0 < r < infRep F → ∃ e s, unpack F (signed_rep F neg r) = Ok (e, s) ∧ let s' := Z.lor s (2 ^ m) in
  2 ^ m ≤ s' < 2 * 2 ^ m ∧ 1 - m ≤ e < maxExponent F ∧ mag F r * 2 ^ m = s' * 2 ^ (e - 1 + m).
Proof using V.
  intros Hr. pose proof implicit_pos as Hp. destruct infRep_eq as [Ei1 Ei2]. assert (0 ≤ r < 2 ^ (w - 1)) as Hr' by lia. unfold unpack. rewrite rep_exponent, rep_significand by done. assert (2 ≤ m ∧ m < w) as [Hm Hmw] by (destruct V; lia).
  destruct (index_split r ltac:(lia)) as [[Hs ->]|(e & f & He & Hf & E & ->)].
  - rewrite Z.div_small, Z.mod_small by lia. cbn [Z.eqb]. unfold normalize, clz. rewrite Z.log2_pow2 by lia. replace (w - 1 - Z.log2 r - (w - 1 - m)) with (m - Z.log2 r) by lia. pose proof (Z.log2_spec r ltac:(lia)) as Hl. pose proof (Z.log2_nonneg r). assert (Z.log2 r < m) by (apply Z.log2_lt_pow2; lia). unfold Z.succ in Hl. rewrite Z.pow_add_r in Hl by lia.
    assert (2 ^ m = 2 ^ Z.log2 r * 2 ^ (m - Z.log2 r)) as Em by (rewrite <- Z.pow_add_r by lia; f_equal; lia). set (n := m - Z.log2 r) in *. assert (0 < 2 ^ n) by (apply Z.pow_pos_nonneg; lia). assert (2 ^ m ≤ r * 2 ^ n < 2 * 2 ^ m) as Hs' by (rewrite Em; nia). rewrite shl_ok by lia. rewrite Z.shiftl_mul_pow2 by lia.
    assert (2 * 2 ^ m ≤ 2 ^ w) by (rewrite <- Z.pow_succ_r by lia; apply Z.pow_le_mono_r; lia). rewrite cast_id by lia. cbn [mbind result_bind]. eexists _, _. split; [done|]. rewrite (proj2 (lor_implicit _) Hs'). split; [done|]. split; [split; [lia|]|replace (1 - n - 1 + m) with (Z.log2 r) by lia; rewrite Em; ring]. assert (8 ≤ 2 ^ exponentBits F) by (destruct V; change 8 with (2 ^ 3); apply Z.pow_le_mono_r; lia). lia.
  - destruct (div_unique r (2 ^ m) e f) as [-> ->]; [lia|lia|]. rewrite (proj2 (Z.eqb_neq e 0)) by lia. eexists _, _. split; [done|]. rewrite (proj1 (lor_implicit _) Hf). split; [lia|]. split; [nia|]. rewrite Z.pow_add_r by lia. ring.
Qed.

Lemma sticky_add c T X W : Z.even c = true → sticky T X W → sticky (c + T) (c * W + X) W.
Proof using Type.
  intros Hc [<-|[Ho Hx]]; [left; ring|right]. split; [by rewrite Z.odd_add, <- Z.negb_even, Hc, Ho|]. replace ((c + T - 1) * W) with (c * W + (T - 1) * W) by ring. replace ((c + T + 1) * W) with (c * W + (T + 1) * W) by ring. lia.
Qed.

Lemma sticky_opp T X W : sticky T X W → sticky (- T) (- X) W.
Proof using Type. intros [<-|[Ho Hx]]; [left; ring|right]. split; [by rewrite Z.odd_opp|]. replace ((- T - 1) * W) with (- ((T + 1) * W)) by ring. replace ((- T + 1) * W) with (- ((T - 1) * W)) by ring. lia. Qed.

Lemma even_8 x : Z.even (8 * x) = true.
Proof using Type. by rewrite Z.even_mul. Qed.

(** *** The sum of two significands *)
Section Sum.
Context (ea A eb B : Z) (HA : 2 ^ m ≤ A < 2 * 2 ^ m) (HB : 2 ^ m ≤ B < 2 * 2 ^ m) (Hea : 1 - m ≤ ea < maxExponent F) (Heb : 1 - m ≤ eb) (Hle : eb ≤ ea).
Let U := 2 ^ (ea - 1 + m).
Let Xb := 8 * B * 2 ^ (eb - 1 + m).

Lemma U_pos : 0 < U.
Proof using Hea. clear - Hea. apply Z.pow_pos_nonneg; lia. Qed.

Lemma align_spec : ∃ S, align_significand F (8 * B) (u32 (ea - eb)) = Ok S ∧ sticky S Xb U ∧ 0 < S < 16 * 2 ^ m ∧ (S * U = Xb ∨ (2 ≤ ea - eb ∧ S ≤ 4 * 2 ^ m)).
Proof using V HB Hea Heb Hle.
  pose proof implicit_pos as Hp. pose proof U_pos as HU. destruct V as [Hm Hw Hx]. assert (2 ^ exponentBits F ≤ 2 ^ 30) by (apply Z.pow_le_mono_r; lia). rewrite cast_id by lia. unfold align_significand. set (n := ea - eb). assert (U = 2 ^ (eb - 1 + m) * 2 ^ n) as EU by (unfold U; rewrite <- Z.pow_add_r by lia; f_equal; lia). set (P := 2 ^ (eb - 1 + m)) in *. assert (0 < P) by (apply Z.pow_pos_nonneg; lia).
  assert (word w (8 * B)) as HwB by (assert (2 ^ (m + 4) ≤ 2 ^ w) by (apply Z.pow_le_mono_r; lia); rewrite Z.pow_add_r in * by lia; unfold word; lia). destruct (Z.eqb_spec n 0) as [E0|Hn0].
  { exists (8 * B). split; [done|]. assert (8 * B * U = Xb) as Ex by (rewrite EU, E0; unfold Xb; fold P; ring). split; [by left|]. split; [lia|by left]. }
  assert (0 < 2 ^ n) by (apply Z.pow_pos_nonneg; lia). destruct (Z.ltb_spec n w).
  - rewrite shift_sticky_value by (done || lia). eexists. split; [done|]. pose proof (sticky_shift (8 * B) Xb P n ltac:(lia) ltac:(lia) ltac:(lia) ltac:(by left)) as Hst. cbv zeta in Hst. rewrite <- EU in Hst. split; [done|]. destruct (decide (n = 1)) as [E1|Hn1].
    + rewrite E1 in *. change (2 ^ 1) with 2 in *. replace (8 * B) with (4 * B * 2) in * by ring. rewrite Z.mod_mul, Z.div_mul in * by lia. cbn [Z.eqb] in *. split; [lia|]. left. rewrite EU. unfold Xb. fold P. ring.
    + assert (0 ≤ 8 * B / 2 ^ n < 4 * 2 ^ m) as Hd. { split; [apply Z.div_pos; lia|]. apply Z.div_lt_upper_bound; [lia|]. assert (2 ^ 2 ≤ 2 ^ n) by (apply Z.pow_le_mono_r; lia). nia. }
      pose proof (Z.div_mod (8 * B / 2 ^ n) 2 ltac:(lia)). pose proof (Z.mod_pos_bound (8 * B / 2 ^ n) 2 ltac:(lia)). pose proof (Z.div_mod (8 * B) (2 ^ n) ltac:(lia)). destruct (Z.eqb_spec (8 * B mod 2 ^ n) 0) as [Ez|]; [|split; [lia|right; lia]]. assert (0 < 8 * B / 2 ^ n) by nia. split; [lia|right; lia].
  - exists 1. split; [done|]. assert (16 * 2 ^ m ≤ 2 ^ n) by (change 16 with (2 ^ 4); rewrite <- Z.pow_add_r by lia; apply Z.pow_le_mono_r; lia). assert (0 < Xb < U) by (unfold Xb; fold P; rewrite EU; nia). split; [right; split; [done|lia]|]. split; [lia|right; lia].
Qed.

Context (S : Z) (HS : sticky S Xb U) (HSr : 0 < S < 16 * 2 ^ m).

Lemma sum_spec : ∃ e T, add_significands F false ea (8 * A) S = Ok (Some (e, T)) ∧ 8 * 2 ^ m ≤ T < 16 * 2 ^ m ∧ ea ≤ e ∧ sticky T (8 * A * U + Xb) (2 ^ (e - 1 + m)).
Proof using V HA Hea Heb HS HSr.
  pose proof implicit_pos as Hp. pose proof U_pos as HU. destruct V as [Hm Hw Hx]. pose proof (sticky_add (8 * A) S Xb U (even_8 A) HS) as Hst. assert (32 * 2 ^ m ≤ 2 ^ w) as H32 by (change 32 with (2 ^ 5); rewrite <- Z.pow_add_r by lia; apply Z.pow_le_mono_r; lia). unfold add_significands. rewrite (cast_id w (8 * A + S)) by lia.
  rewrite Z.shiftl_mul_pow2 by lia. assert (2 ^ m * 2 ^ 4 = 2 ^ (m + 4)) as E4 by (rewrite Z.pow_add_r by lia; done). rewrite E4, land_pow2 by lia. assert (Z.testbit (8 * A + S) (m + 4) = bool_decide (16 * 2 ^ m ≤ 8 * A + S)) as ->.
  { rewrite Z.testbit_odd, Z.shiftr_div_pow2 by lia. rewrite <- E4. case_bool_decide; [destruct (div_unique (8 * A + S) (2 ^ m * 2 ^ 4) 1 (8 * A + S - 2 ^ m * 2 ^ 4)) as [-> _]; [lia|lia|done]|by rewrite Z.div_small by lia]. }
  case_bool_decide.
  - rewrite (proj2 (Z.eqb_neq _ 0)) by lia. cbn [negb]. eexists _, _. split; [done|]. rewrite land_1, lor_b2z, Z.shiftr_div_pow2 by lia. pose proof (sticky_shift (8 * A + S) _ U 1 ltac:(lia) HU ltac:(lia) Hst) as Hst'. cbv zeta in Hst'. change (2 ^ 1) with 2 in *. rewrite Zmod_odd in Hst'. pose proof (Z.div_mod (8 * A + S) 2 ltac:(lia)). pose proof (Z.mod_pos_bound (8 * A + S) 2 ltac:(lia)). pose proof (Z.div_mod ((8 * A + S) / 2) 2 ltac:(lia)). pose proof (Z.mod_pos_bound ((8 * A + S) / 2) 2 ltac:(lia)).
    assert (U * 2 = 2 ^ (ea + 1 - 1 + m)) as EU by (unfold U; rewrite Z.mul_comm, <- Z.pow_succ_r by lia; f_equal; lia). rewrite EU in Hst'. destruct (Z.odd (8 * A + S)); cbn [Z.eqb] in Hst'; (split; [lia|split; [lia|done]]).
  - cbn [Z.eqb negb]. exists ea, (8 * A + S). split; [done|]. split; [lia|]. split; [lia|done].
Qed.

Context (Hexact : S * U = Xb ∨ (2 ≤ ea - eb ∧ S ≤ 4 * 2 ^ m)).
Let X := 8 * A * U - Xb.
Context (HX : X = 0 ∨ 8 * 2 ^ m ≤ X).

Lemma diff_sticky : sticky (8 * A - S) X U ∧ 0 ≤ 8 * A - S.
Proof using HS HX HA Hea Heb HSr.
  pose proof U_pos as HU. split; [unfold X; rewrite <- Z.add_opp_r; apply sticky_add, sticky_opp, HS; apply even_8|]. assert (0 ≤ X) as HX' by (pose proof (Z.pow_nonneg 2 m ltac:(lia)); lia). unfold X in HX'. clear - HX' HS HU. destruct HS as [E|[_ Hb]]; [rewrite <- E in HX'; nia|]. assert ((S - 1) * U < 8 * A * U) by lia. assert (S - 1 < 8 * A) by (apply (Z.mul_lt_mono_pos_r U); done). lia.
Qed.

Lemma diff_spec : (X = 0 ∧ add_significands F true ea (8 * A) S = Ok None) ∨
  (0 < X ∧ ∃ e T, add_significands F true ea (8 * A) S = Ok (Some (e, T)) ∧ 8 * 2 ^ m ≤ T < 16 * 2 ^ m ∧ 1 - m ≤ e ∧ loose T X (2 ^ (e - 1 + m))).
Proof using V HA Hea Heb Hle HS HSr Hexact HX.
  pose proof implicit_pos as Hp. pose proof U_pos as HU. destruct diff_sticky as [Hst Hnn]. destruct V as [Hm Hw Hx]. set (T := 8 * A - S) in *. assert (16 * 2 ^ m ≤ 2 ^ w) as H16 by (change 16 with (2 ^ 4); rewrite <- Z.pow_add_r by lia; apply Z.pow_le_mono_r; lia). unfold add_significands. fold T. rewrite (cast_id w T) by lia.
  destruct (Z.eqb_spec T 0) as [E0|Hne]; [left; split; [|done]; destruct Hst as [<-|[Ho _]]; [rewrite E0; lia|rewrite E0 in Ho; done]|]. right. assert (0 < X) as Hpos. { destruct HX as [E|]; [|lia]. rewrite E in Hst. destruct Hst as [E'|[_ Hb]]; nia. } split; [done|].
  rewrite Z.shiftl_mul_pow2 by lia. assert (2 ^ m * 2 ^ 3 = 2 ^ (m + 3)) as E3 by (rewrite Z.pow_add_r by lia; done). rewrite E3. destruct (Z.ltb_spec T (2 ^ (m + 3))).
  2: { exists ea, T. split; [done|]. split; [lia|]. split; [lia|by left]. }
  unfold clz. rewrite Z.log2_pow2 by lia. replace (w - 1 - Z.log2 T - (w - 1 - (m + 3))) with (m + 3 - Z.log2 T) by lia. pose proof (Z.log2_spec T ltac:(lia)) as Hl. unfold Z.succ in Hl. pose proof (Z.log2_nonneg T). assert (Z.log2 T < m + 3) by (apply Z.log2_lt_pow2; lia). rewrite Z.pow_add_r in Hl by lia. change (2 ^ 1) with 2 in Hl.
  set (n := m + 3 - Z.log2 T) in *. assert (0 < 2 ^ n) by (apply Z.pow_pos_nonneg; lia). assert (2 ^ (m + 3) = 2 ^ Z.log2 T * 2 ^ n) as En by (rewrite <- Z.pow_add_r by lia; f_equal; lia). assert (2 ^ (m + 3) ≤ T * 2 ^ n < 2 * 2 ^ (m + 3)) as HT by (rewrite En; nia).
  rewrite shl_ok by lia. rewrite Z.shiftl_mul_pow2, (cast_id w (T * 2 ^ n)) by lia. cbn [mbind result_bind]. exists (ea - n), (T * 2 ^ n). split; [done|]. split; [lia|].
  assert (1 - m ≤ ea - n → U = 2 ^ n * 2 ^ (ea - n - 1 + m)) as EU by (intros He; unfold U; rewrite <- Z.pow_add_r by lia; f_equal; lia). destruct Hexact as [Ex|[Hal HS4]].
  - assert (T * U = X) as EX by (unfold T, X; rewrite <- Ex; ring). assert (1 - m ≤ ea - n) as He. { assert (2 ^ (m + 3) < 2 ^ (Z.log2 T + 1 + (ea - 1 + m))) as Hlt by (rewrite (Z.pow_add_r 2 (Z.log2 T + 1) (ea - 1 + m)), (Z.pow_add_r 2 (Z.log2 T) 1) by lia; fold U; assert (T * U < 2 ^ Z.log2 T * 2 * U) by (apply Z.mul_lt_mono_pos_r; lia); lia). apply Z.pow_lt_mono_r_iff in Hlt; lia. }
    split; [done|]. left; left. rewrite <- EX, (EU He). ring.
  - assert (Z.log2 T = m + 2) as El by (apply Z.log2_unique; [lia|]; unfold Z.succ; replace (m + 2 + 1) with (m + 3) by lia; split; [|done]; rewrite Z.pow_add_r by lia; lia). assert (n = 1) as E1 by lia. split; [lia|]. right. exists T. rewrite E1 in *. change (2 ^ 1) with 2 in *. split; [ring|]. rewrite <- EU by lia. done.
Qed.

End Sum.

(** The exponents are ordered like the numbers. *)
Lemma exponent_order ea A eb B x y : 2 ^ m ≤ A < 2 * 2 ^ m → 2 ^ m ≤ B < 2 * 2 ^ m → 1 - m ≤ ea → 1 - m ≤ eb → x = A * 2 ^ (ea - 1 + m) → y = B * 2 ^ (eb - 1 + m) → y ≤ x → eb ≤ ea.
Proof using V.
  intros HA HB Hea Heb -> -> Hle. pose proof implicit_pos. destruct (Z.le_gt_cases eb ea) as [|Hgt]; [done|]. exfalso. assert (2 * 2 ^ (ea - 1 + m) ≤ 2 ^ (eb - 1 + m)) by (rewrite <- Z.pow_succ_r by lia; apply Z.pow_le_mono_r; lia). assert (0 < 2 ^ (ea - 1 + m)) by (apply Z.pow_pos_nonneg; lia). nia.
Qed.

Lemma add_finite_spec n1 r1 n2 r2 : 0 < r2 ≤ r1 → r1 < infRep F → let X := if xorb n1 n2 then mag F r1 - mag F r2 else mag F r1 + mag F r2 in
  let res := add_finite F CRT_FE_TONEAREST (signed_rep F n1 r1) (signed_rep F n2 r2) in
  (X = 0 ∧ res = Ok 0) ∨ (0 < X ∧ ∃ r, res = Ok (signed_rep F n1 r) ∧ nearest F X 0 r).
Proof using V.
  intros H21 H1. cbv zeta. pose proof implicit_pos as Hp. destruct infRep_eq as [_ Ei]. assert (2 ≤ m ∧ m + 5 ≤ w) as [Hm Hw] by (destruct V; lia). destruct (unpack_spec n1 r1 ltac:(lia)) as (ea & sa & Ea & HA & Hea & EA). destruct (unpack_spec n2 r2 ltac:(lia)) as (eb & sb & Eb & HB & Heb & EB). pose proof (mag_mono_le r2 r1 ltac:(lia)) as Hmag. pose proof (mag_mono 0 r2 ltac:(lia)) as Hmag0. rewrite (mag_small (F := F) 0) in Hmag0 by lia.
  unfold add_finite. rewrite Ea, Eb. cbn [mbind result_bind]. rewrite rep_sign, rep_subtraction by lia. set (A := Z.lor sa (2 ^ m)) in *. set (B := Z.lor sb (2 ^ m)) in *. assert (16 * 2 ^ m ≤ 2 ^ w) as H16 by (change 16 with (2 ^ 4); rewrite <- Z.pow_add_r by lia; apply Z.pow_le_mono_r; lia).
  assert (∀ x, 2 ^ m ≤ x < 2 * 2 ^ m → shl w x 3 = Ok (8 * x)) as Hshl by (intros x Hx; rewrite shl_ok by lia; rewrite Z.shiftl_mul_pow2, cast_id by lia; f_equal; lia). rewrite !Hshl by done. cbn [mbind result_bind].
  pose proof (exponent_order ea A eb B (mag F r1 * 2 ^ m) (mag F r2 * 2 ^ m) HA HB ltac:(lia) ltac:(lia) EA EB ltac:(apply Z.mul_le_mono_nonneg_r; lia)) as Hle. destruct (align_spec ea eb B HB Hea ltac:(lia) Hle) as (S & -> & HS & HSr & Hex). cbn [mbind result_bind].
  assert (∀ X e T, 0 < X → 8 * 2 ^ m ≤ T < 16 * 2 ^ m → 1 - m ≤ e → loose T (X * 2 ^ (m + 3)) (2 ^ (e - 1 + m)) → ∃ r, pack F CRT_FE_TONEAREST (signed_rep F n1 0) e T = Ok (signed_rep F n1 r) ∧ nearest F X 0 r) as Hpack.
  { intros X e T HX HT He Hl. destruct (pack_spec (X * 2 ^ (m + 3)) (m + 3) e T n1) as (r & Er & Hr); [lia|lia|lia|done|by replace (e + (m + 3) - 4) with (e - 1 + m) by lia|]. exists r. split; [done|]. apply (nearest_scale X 0 (m + 3)); [lia|lia|done]. }
  assert (∀ x y, x * 2 ^ m = y → x * 2 ^ (m + 3) = 8 * y) as H8 by (intros x y <-; rewrite Z.pow_add_r by lia; ring). destruct (xorb n1 n2).
  - assert ((mag F r1 - mag F r2) * 2 ^ (m + 3) = 8 * A * 2 ^ (ea - 1 + m) - 8 * B * 2 ^ (eb - 1 + m)) as EX by (rewrite Z.mul_sub_distr_r, (H8 _ _ EA), (H8 _ _ EB); ring). assert (2 ^ (m + 3) = 8 * 2 ^ m) as E3 by (rewrite Z.pow_add_r by lia; lia).
    set (D := mag F r1 - mag F r2) in *. assert (D = 0 ∨ 1 ≤ D) as HD by lia. assert (D = 0 ∨ 8 * 2 ^ m ≤ D * 2 ^ (m + 3)) as HD' by (destruct HD as [|HD]; [by left|right]; rewrite E3, <- (Z.mul_1_l (8 * 2 ^ m)) at 1; apply Z.mul_le_mono_nonneg_r; lia).
    destruct (diff_spec ea A eb B HA Hea ltac:(lia) Hle S HS HSr Hex) as [[E0 ->]|(Hpos & e & T & -> & HT & He & Hl)]; [rewrite <- EX; destruct HD' as [->|]; [by left|by right]|left; split; [|done]; rewrite <- EX in E0; lia|]. right. rewrite <- EX in Hpos, Hl. assert (0 < D) by (destruct HD as [E|]; [rewrite E in Hpos|]; lia). split; [done|]. by apply Hpack.
  - right. split; [lia|]. destruct (sum_spec ea A eb B HA Hea ltac:(lia) S HS HSr) as (e & T & -> & HT & He & Hl). apply Hpack; [lia|done|lia|left]. by rewrite Z.mul_add_distr_r, (H8 _ _ EA), (H8 _ _ EB), !Z.mul_assoc.
Qed.

Lemma special_test r : 0 ≤ r < 2 ^ (w - 1) → (infRep F - 1 <=? cast w (r - 1)) = (r =? 0) || (infRep F <=? r).
Proof using V.
  intros Hr. pose proof implicit_pos. destruct infRep_eq as [_ Ei]. pose proof (pow2_half w ltac:(destruct V; lia)). destruct (Z.eqb_spec r 0) as [->|]; cbn [orb].
  - apply Z.leb_le. unfold cast. destruct (div_unique (0 - 1) (2 ^ w) (-1) (2 ^ w - 1)) as [_ ->]; lia.
  - rewrite cast_id by lia. apply Bool.eq_iff_eq_true. rewrite !Z.leb_le. lia.
Qed.

Lemma opposite_infinities n1 r1 n2 r2 : 0 ≤ r1 < 2 ^ (w - 1) → 0 ≤ r2 < 2 ^ (w - 1) → r1 = infRep F →
  (Z.lxor (signed_rep F n1 r1) (signed_rep F n2 r2) =? signBit F) = (r2 =? infRep F) && xorb n1 n2.
Proof using V.
  intros H1 H2 E1. assert (0 ≤ w - 1) by (destruct V; lia). rewrite <- E1, signBit_eq, (signed_rep_lxor n1 r1 H1), (signed_rep_lxor n2 r2 H2). assert (0 ≤ Z.lxor r1 r2 < 2 ^ (w - 1)) as Hl.
  { apply bits_range; [lia|apply Z.lxor_nonneg; lia|]. intros i Hi. by rewrite Z.lxor_spec, (testbit_high (w - 1) r1 i), (testbit_high (w - 1) r2 i) by lia. }
  assert (Z.lxor (Z.lxor r1 (signed_rep F n1 0)) (Z.lxor r2 (signed_rep F n2 0)) = signed_rep F (xorb n1 n2) (Z.lxor r1 r2)) as ->.
  { rewrite (signed_rep_lxor (xorb n1 n2)) by done. rewrite !Z.lxor_assoc, (Z.lxor_comm (signed_rep F n1 0)), <- Z.lxor_assoc, !Z.lxor_assoc. do 2 f_equal. unfold signed_rep. destruct n1, n2; cbn [xorb]; by rewrite ?Z.lxor_nilpotent, ?Z.lxor_0_r. }
  unfold signed_rep. destruct (xorb n1 n2); [|rewrite andb_false_r; apply Z.eqb_neq; lia]. rewrite andb_true_r. apply Bool.eq_iff_eq_true. rewrite !Z.eqb_eq. split; intros E; [|rewrite E, Z.lxor_nilpotent; lia]. symmetry. apply Z.lxor_eq. lia.
Qed.

Lemma add_special_spec n1 r1 n2 r2 : 0 ≤ r1 < 2 ^ (w - 1) → 0 ≤ r2 < 2 ^ (w - 1) → let a := signed_rep F n1 r1 in let b := signed_rep F n2 r2 in
  add_special F a b = if infRep F <? r1 then Some (Z.lor a (quietBit F)) else if infRep F <? r2 then Some (Z.lor b (quietBit F))
    else if r1 =? infRep F then if (r2 =? infRep F) && xorb n1 n2 then Some (qnanRep F) else Some a
    else if r2 =? infRep F then Some b
    else if r1 =? 0 then if r2 =? 0 then Some (signed_rep F (n1 && n2) 0) else Some b
    else if r2 =? 0 then Some a else None.
Proof using V.
  intros H1 H2. cbv zeta. pose proof implicit_pos. destruct infRep_eq as [_ Ei]. destruct sign_even as (c & Ec & Hc). unfold add_special. rewrite !rep_abs, !special_test by done. assert (0 < infRep F) by (rewrite Ei, Ec; nia). destruct (Z.ltb_spec (infRep F) r1).
  { by rewrite (proj2 (Z.leb_le _ r1)), orb_true_r by lia. }
  destruct (Z.ltb_spec (infRep F) r2); [by rewrite (proj2 (Z.leb_le _ r2)), !orb_true_r by lia|]. destruct (Z.eqb_spec r1 (infRep F)) as [E1|].
  { rewrite (proj2 (Z.leb_le _ r1)), orb_true_r by lia. cbn [orb]. by rewrite opposite_infinities by done. }
  rewrite (proj2 (Z.leb_gt _ r1)), orb_false_r by lia. destruct (Z.eqb_spec r2 (infRep F)) as [E2|]; [by rewrite (proj2 (Z.leb_le _ r2)), !orb_true_r by lia|]. rewrite (proj2 (Z.leb_gt _ r2)), orb_false_r by lia.
  destruct (Z.eqb_spec r1 0) as [->|]; cbn [orb].
  - destruct (Z.eqb_spec r2 0) as [->|]; [|done]. f_equal. unfold signed_rep. destruct n1, n2; cbn [andb]; rewrite ?Z.land_diag, ?Z.land_0_r, ?Z.land_0_l; done.
  - by destruct (Z.eqb_spec r2 0) as [->|].
Qed.

Lemma sum_ordered n1 r1 n2 r2 c : 0 < r2 ≤ r1 → r1 < infRep F → add_finite F CRT_FE_TONEAREST (signed_rep F n1 r1) (signed_rep F n2 r2) = Ok c →
  sum_rounded F (signed_rep F n1 r1) (signed_rep F n2 r2) c.
Proof using V.
  intros H21 H1 E. destruct infRep_eq as [_ Ei]. pose proof implicit_pos. unfold sum_rounded. rewrite !value_signed by lia. destruct (rep_mod (F := F) n1 r1 ltac:(lia)) as [_ ->]. destruct (rep_mod (F := F) n2 r2 ltac:(lia)) as [_ ->]. pose proof (mag_mono_le r2 r1 ltac:(lia)). pose proof (mag_pos r2 ltac:(lia)).
  destruct (add_finite_spec n1 r1 n2 r2 H21 H1) as [[EX Er]|(Hpos & r & Er & Hn)]; rewrite Er in E; injection E as <-.
  - destruct n1, n2; cbn [xorb andb] in *; split; intros; lia || done.
  - split; [destruct n1, n2; cbn [xorb] in *; lia|]. intros Hne. exists r. destruct n1, n2; cbn [xorb] in *; (split; [match type of Hn with nearest _ ?y _ _ => match goal with |- nearest _ ?x _ _ => replace x with y by lia; exact Hn end end|f_equal; symmetry; (apply Z.ltb_lt; lia) || (apply Z.ltb_ge; lia)]).
Qed.

Lemma sum_rounded_sym a b c : sum_rounded F a b c → sum_rounded F b a c.
Proof using Type. unfold sum_rounded. by rewrite Z.add_comm, andb_comm. Qed.

Lemma sum_zero neg n2 r : 0 < r < infRep F → sum_rounded F (signed_rep F neg 0) (signed_rep F n2 r) (signed_rep F n2 r).
Proof using V.
  intros Hr. destruct infRep_eq as [_ Ei]. pose proof implicit_pos. unfold sum_rounded. rewrite !value_signed by lia. rewrite (mag_small (F := F) 0) by lia. pose proof (mag_pos r ltac:(lia)). split; [destruct neg, n2; lia|]. intros _. exists r.
  assert (Z.abs ((if neg then -0 else 0) + (if n2 then - mag F r else mag F r)) = mag F r) as -> by (destruct neg, n2; lia). split; [apply nearest_exact; lia|]. f_equal. symmetry. destruct n2; [apply Z.ltb_lt|apply Z.ltb_ge]; destruct neg; lia.
Qed.

Lemma addXf3_finite a b : finite F a → finite F b → ∃ c, addXf3 F CRT_FE_TONEAREST a b = Ok c ∧ sum_rounded F a b c.
Proof using V.
  intros Ha Hb. destruct (finite_split a Ha) as (n1 & r1 & -> & H1). destruct (finite_split b Hb) as (n2 & r2 & -> & H2). destruct infRep_eq as [_ Ei]. pose proof implicit_pos. unfold addXf3. rewrite add_special_spec, !rep_abs by lia.
  rewrite !(proj2 (Z.ltb_ge (infRep F) _)), !(proj2 (Z.eqb_neq _ (infRep F))) by lia. destruct (Z.eqb_spec r1 0) as [->|]; destruct (Z.eqb_spec r2 0) as [->|].
  - eexists. split; [done|]. unfold sum_rounded. rewrite !value_signed by lia. destruct (rep_mod (F := F) n1 0 ltac:(lia)) as [_ ->]. destruct (rep_mod (F := F) n2 0 ltac:(lia)) as [_ ->]. rewrite (mag_small (F := F)) by lia. split; [done|]. destruct n1, n2; lia.
  - eexists. split; [done|]. apply sum_zero. lia.
  - eexists. split; [done|]. apply sum_rounded_sym, sum_zero. lia.
  - assert (∀ n1 r1 n2 r2, 0 < r2 ≤ r1 → r1 < infRep F → ∃ c, add_finite F CRT_FE_TONEAREST (signed_rep F n1 r1) (signed_rep F n2 r2) = Ok c) as Hok by (clear - V; intros n1 r1 n2 r2 H21 H1; destruct (add_finite_spec n1 r1 n2 r2 H21 H1) as [[_ ->]|(_ & r & -> & _)]; eauto).
    destruct (Z.ltb_spec r1 r2); [destruct (Hok n2 r2 n1 r1) as (c & Ec)|destruct (Hok n1 r1 n2 r2) as (c & Ec)]; try lia; exists c; (split; [done|]); [apply sum_rounded_sym|]; apply sum_ordered; done || lia.
Qed.

End Addition.

(** ** The theorem *)
(** [C4] The sum of two finite numbers, in the default rounding mode, is the exact sum rounded to
    nearest even: no representable number is nearer, a tie goes to the even one, and beyond the range
    the result is infinity.  The sign is the sign of the exact sum; an exact zero is negative only when both
    operands are. *)
Theorem addXf3_correct F `{!ValidFormat F} a b : finite F a → finite F b → ∃ c, addXf3 F CRT_FE_TONEAREST a b = Ok c ∧ sum_rounded F a b c.
Proof. apply addXf3_finite. Qed.

Lemma addXf3_correct_witness : ∃ c, addXf3 single CRT_FE_TONEAREST 0x4B800000 0xBF800001 = Ok c ∧ sum_rounded single 0x4B800000 0xBF800001 c.
Proof. apply (addXf3_correct single 0x4B800000 0xBF800001); (split; [unfold word; cbn; lia|vm_compute; reflexivity]). Defined.

End SoftAdd.
