(* ===== verification/SoftMul.v ===== *)
(** * SoftMul: floating-point multiplication

    Models [fp_mul_impl.inc]: the special cases, the product of the normalized significands in
    two words, its return to the format and the rounding.  The theorems: the product of finite numbers is
    the exact product rounded to nearest even, through subnormal operands and results, underflow
    and overflow, and infinities and NaNs are handled as the standard says. *)
From S2P Require Import Prelude Common IntDiv SoftFloat SoftAdd.

Module SoftMul.
Import IntDiv SoftFloat SoftAdd.

Section Operations.
Variable F : Format.
(** The [wideMultiply] of the precision. *)
Variable wideMultiply : Z → Z → Z * Z.

(** NaN, infinity and zero. *)
Definition mul_special (a b productSign : Z) : option Z :=
  let aAbs := Z.land a (absMask F) in
  let bAbs := Z.land b (absMask F) in
  if infRep F <? aAbs then Some (Z.lor a (quietBit F))
  else if infRep F <? bAbs then Some (Z.lor b (quietBit F))
  else if aAbs =? infRep F then
    if negb (bAbs =? 0) then Some (Z.lor aAbs productSign) else Some (qnanRep F)
  else if bAbs =? infRep F then
    if negb (aAbs =? 0) then Some (Z.lor bAbs productSign) else Some (qnanRep F)
  else if aAbs =? 0 then Some productSign
  else if bAbs =? 0 then Some productSign
  else None.

(** The final rounding. *)
Definition mul_round (productSign productHi productLo : Z) : result Z :=
  let productHi := Z.lor productHi productSign in
  let productHi := if signBit F <? productLo then cast (typeWidth F) (productHi + 1) else productHi in
  let productHi := if productLo =? signBit F then cast (typeWidth F) (productHi + Z.land productHi 1) else productHi in
  Ok productHi.

(** Range check and subnormal results. *)
Definition mul_pack (productSign productExponent productHi productLo : Z) : result Z :=
  let w := typeWidth F in
  if maxExponent F <=? productExponent then Ok (Z.lor (infRep F) productSign)
  else if productExponent <=? 0 then
    let shift := u32 (cast w (1 - u32 productExponent)) in
    if w <=? shift then Ok productSign
    else
      '(productHi, productLo) ← wideRightShiftWithSticky F productHi productLo shift;
      mul_round productSign productHi productLo
  else
    e ← shl w productExponent (significandBits F);
    mul_round productSign (Z.lor (Z.land productHi (significandMask F)) e) productLo.

Definition mulXf3 (a b : Z) : result Z :=
  let w := typeWidth F in
  let aExponent := Z.land (Z.shiftr a (significandBits F)) (maxExponent F) in
  let bExponent := Z.land (Z.shiftr b (significandBits F)) (maxExponent F) in
  let productSign := Z.land (Z.lxor a b) (signBit F) in
  let aSignificand := Z.land a (significandMask F) in
  let bSignificand := Z.land b (significandMask F) in
  let special := (maxExponent F - 1 <=? u32 (aExponent - 1)) || (maxExponent F - 1 <=? u32 (bExponent - 1)) in
  match if special then mul_special a b productSign else None with
  | Some r => Ok r
  | None =>
      '(aScale, aSignificand) ←
        (if special && (Z.land a (absMask F) <? implicitBit F) then normalize F aSignificand else Ok (0, aSignificand));
      '(bScale, bSignificand) ←
        (if special && (Z.land b (absMask F) <? implicitBit F) then normalize F bSignificand else Ok (0, bSignificand));
      bSignificand ← shl w (Z.lor bSignificand (implicitBit F)) (exponentBits F);
      let '(productHi, productLo) := wideMultiply (Z.lor aSignificand (implicitBit F)) bSignificand in
      let productExponent := signed 32 (u32 (aExponent + bExponent - exponentBias F + (aScale + bScale))) in
      if negb (Z.land productHi (implicitBit F) =? 0) then mul_pack productSign (productExponent + 1) productHi productLo
      else
        '(productHi, productLo) ← wideLeftShift F productHi productLo 1;
        mul_pack productSign productExponent productHi productLo
  end.

End Operations.

(** 1.5 * 2.25 = 3.375, and the smallest subnormal times a half is a tie that goes to zero. *)
Example mul_single : mulXf3 single wideMultiply32 0x3FC00000 0x40100000 = Ok 0x40580000 ∧ mulXf3 single wideMultiply32 1 0x3F000000 = Ok 0.
Proof. split; vm_compute; reflexivity. Qed.

(** ** Proofs *)
(** [c] is the product of [a] and [b], rounded; it counts in units [2^(exponentBias + significandBits - 1)] times smaller. *)
Definition product_rounded (F : Format) (a b c : Z) : Prop :=
  ∃ r, nearest F (Z.abs (value F a * value F b)) (exponentBias F + significandBits F - 1) r ∧ c = signed_rep F (xorb (negative F a) (negative F b)) r.

Section Multiplication.
Context {F : Format} {V : ValidFormat F}.
Local Abbreviation m := (significandBits F).
Local Abbreviation w := (typeWidth F).

Lemma mul_round_spec X k e q lo neg : 0 ≤ k → 1 ≤ e < maxExponent F → 0 ≤ q < 2 * 2 ^ m → (e = 1 ∨ 2 ^ m ≤ q) → let U := 2 ^ (e - 1 + k) in q * U ≤ X < (q + 1) * U →
  (2 ^ (w - 1) <? lo) = (U <? 2 * (X - q * U)) → (lo =? 2 ^ (w - 1)) = (U =? 2 * (X - q * U)) →
  ∃ r, mul_round F (signed_rep F neg 0) ((e - 1) * 2 ^ m + q) lo = Ok (signed_rep F neg r) ∧ nearest F X k r.
Proof using V.
  intros Hk He Hq Hor U HX Hup Htie. pose proof implicit_pos as Hp. destruct infRep_eq as [Ei1 Ei2]. destruct (assemble X k e q neg _ _ Hk He Hq Hor HX Hup Htie) as (r & Er & Hn). exists r. split; [|done]. assert (0 ≤ (e - 1) * 2 ^ m + q < 2 ^ (w - 1)) as Hidx by (assert ((e - 1) * 2 ^ m + q < infRep F) by (rewrite Ei1; nia); nia).
  unfold mul_round. rewrite signBit_eq, lor_sign by done. f_equal. rewrite <- Er. rewrite (signed_rep_add neg (_ + q)). destruct (Z.ltb_spec (2 ^ (w - 1)) lo); [rewrite (proj2 (Z.eqb_neq lo _)) by lia; done|]. destruct (Z.eqb_spec lo (2 ^ (w - 1))); [done|]. rewrite Z.add_0_r, <- signed_rep_add, cast_id; [done|]. by apply rep_word.
Qed.

(** The high word and the low word of [T] divided by [2^n], with a sticky bit. *)
Lemma wide_shift_spec hi lo n : word w hi → word w lo → 0 < n < w → let T := hi * 2 ^ w + lo in ∃ lo',
  wideRightShiftWithSticky F hi lo n = Ok (T / 2 ^ (w + n), lo') ∧ (2 ^ (w - 1) <? lo') = (2 ^ (w + n) <? 2 * (T mod 2 ^ (w + n))) ∧ (lo' =? 2 ^ (w - 1)) = (2 ^ (w + n) =? 2 * (T mod 2 ^ (w + n))).
Proof using V.
  intros Hh Hl Hn T. unfold wideRightShiftWithSticky. rewrite (proj2 (Z.ltb_lt n w)) by lia. destruct (split_words w hi lo n ltac:(lia) Hh Hl) as (E1 & H1 & H2 & E2 & E3 & H3). destruct (udiv_start w hi n Hh ltac:(lia)) as [-> ->]. destruct (udiv_start w lo n Hl ltac:(lia)) as [-> ->]. cbn [mbind result_bind]. rewrite E2, lor_b2z.
  set (y := hi mod 2 ^ n * 2 ^ (w - n) + lo / 2 ^ n) in *. unfold all in E1. fold T in E1. assert (0 < 2 ^ n ∧ 0 < 2 ^ (w - n)) as [HP HQ] by (split; apply Z.pow_pos_nonneg; lia). pose proof (Z.pow_add_r 2 w n ltac:(lia) ltac:(lia)) as Ewn. unfold word in *. pose proof (Z.div_mod T (2 ^ n) ltac:(lia)) as ET. unfold all in E3. fold T in E3. pose proof (Z.mod_pos_bound T (2 ^ n) ltac:(lia)) as Hm. rewrite <- E1 in ET.
  set (z := T mod 2 ^ n) in *. destruct (div_unique T (2 ^ (w + n)) (hi / 2 ^ n) (y * 2 ^ n + z)) as [ED EM]; [rewrite Ewn; rewrite ET at 1; ring|rewrite Ewn; assert (y * 2 ^ n ≤ (2 ^ w - 1) * 2 ^ n) by (apply Z.mul_le_mono_nonneg_r; lia); nia|]. eexists. split; [rewrite ED; done|]. rewrite EM, Ewn. pose proof (pow2_half w ltac:(destruct V; lia)) as Eh. set (H := 2 ^ (w - 1)) in *.
  assert (2 ^ w * 2 ^ n = 2 * (H * 2 ^ n)) as -> by (rewrite Eh; ring). rewrite <- E3. fold z. assert ((z * 2 ^ (w - n) =? 0) = (z =? 0)) as -> by (apply Bool.eq_iff_eq_true; rewrite !Z.eqb_eq; nia). assert (∃ c, H = 2 * c) as (c & Ec) by (exists (2 ^ (w - 2)); unfold H; rewrite <- Z.pow_succ_r by (destruct V; lia); f_equal; lia).
  pose proof (Z.div_mod y 2 ltac:(lia)). pose proof (Z.mod_pos_bound y 2 ltac:(lia)). assert (∀ x, (y < x → y * 2 ^ n + 2 ^ n ≤ x * 2 ^ n) ∧ (x ≤ y → x * 2 ^ n ≤ y * 2 ^ n)) as Hx by (intros x; split; intros; nia). destruct (Hx H) as [Ha Hb]. destruct (Hx (H + 1)) as [Hc Hd].
  split; apply Bool.eq_iff_eq_true; rewrite ?Z.ltb_lt, ?Z.eqb_eq; destruct (Z.eqb_spec z 0); cbn [negb]; lia.
Qed.

Lemma mul_shift pe : - 2 ^ 31 < pe ≤ 0 → u32 (cast w (1 - u32 pe)) = 1 - pe ∨ w < 32.
Proof using V.
  intros Hpe. destruct (Z.lt_ge_cases w 32); [by right|left]. unfold cast. assert (pe mod 2 ^ 32 = if pe =? 0 then 0 else pe + 2 ^ 32) as -> by (destruct (Z.eqb_spec pe 0) as [->|]; [done|]; destruct (div_unique pe (2 ^ 32) (-1) (pe + 2 ^ 32)) as [_ ->]; lia).
  pose proof (Z.pow_le_mono_r 2 32 w ltac:(lia) ltac:(lia)) as Hw. assert (∃ c, 2 ^ w = 2 ^ 32 * c) as (c & Ec) by (exists (2 ^ (w - 32)); rewrite <- Z.pow_add_r by lia; f_equal; lia). destruct (Z.eqb_spec pe 0) as [->|]; [rewrite (Z.mod_small (1 - 0) (2 ^ w)) by lia; done|].
  assert ((1 - (pe + 2 ^ 32)) mod 2 ^ w = 1 - (pe + 2 ^ 32) + 2 ^ w) as -> by (destruct (div_unique (1 - (pe + 2 ^ 32)) (2 ^ w) (-1) (1 - (pe + 2 ^ 32) + 2 ^ w)) as [_ ->]; lia). rewrite Ec. replace (1 - (pe + 2 ^ 32) + 2 ^ 32 * c) with (1 - pe + (c - 1) * 2 ^ 32) by lia. rewrite Z_mod_plus_full. apply Z.mod_small. lia.
Qed.

Lemma mul_pack_spec X k pe hi lo neg : 32 ≤ w → 0 ≤ k → 0 ≤ pe - 1 + k - w → - 2 ^ 31 < pe → 2 ^ m ≤ hi < 2 * 2 ^ m → word w lo → X = (hi * 2 ^ w + lo) * 2 ^ (pe - 1 + k - w) →
  ∃ r, mul_pack F (signed_rep F neg 0) pe hi lo = Ok (signed_rep F neg r) ∧ nearest F X k r.
Proof using V.
  intros Hw32 Hk Hpk Hpe Hhi Hlo EX. pose proof implicit_pos as Hp. destruct infRep_eq as [Ei1 Ei2]. assert (8 ≤ 2 ^ exponentBits F) by (destruct V; change 8 with (2 ^ 3); apply Z.pow_le_mono_r; lia). assert (2 ≤ m ∧ m + 5 ≤ w) as [Hm Hw] by (destruct V; lia). set (P := 2 ^ (pe - 1 + k - w)) in *. assert (0 < P) as HP by (apply Z.pow_pos_nonneg; lia). unfold word in Hlo. assert (2 ^ m * 2 ^ w ≤ hi * 2 ^ w + lo < 2 * 2 ^ m * 2 ^ w) as HT by (assert (2 ^ m * 2 ^ w ≤ hi * 2 ^ w) by (apply Z.mul_le_mono_nonneg_r; lia); assert (hi * 2 ^ w ≤ (2 * 2 ^ m - 1) * 2 ^ w) by (apply Z.mul_le_mono_nonneg_r; lia); lia). unfold mul_pack. destruct (Z.leb_spec (maxExponent F) pe).
  { exists (infRep F). split; [by rewrite lor_sign by (rewrite Ei1 at 1; nia)|]. apply overflow_nearest; [lia|]. rewrite EX. apply (Z.le_trans _ (2 ^ m * 2 ^ w * P)); [|apply Z.mul_le_mono_nonneg_r; lia]. unfold P. rewrite <- !Z.pow_add_r by lia. apply Z.pow_le_mono_r; lia. }
  destruct (Z.leb_spec pe 0).
  - destruct (mul_shift pe ltac:(lia)) as [->|]; [|lia]. set (n := 1 - pe). destruct (Z.leb_spec w n).
    + exists 0. split; [done|]. assert (2 * X < 2 ^ (1 - 1 + k)) as HX.
      { apply (Z.lt_le_trans _ (2 ^ (1 + (m + 1 + (w + (pe - 1 + k - w)))))); [|apply Z.pow_le_mono_r; lia]. rewrite !(Z.pow_add_r 2) by lia. fold P. rewrite EX. change (2 ^ 1) with 2. assert ((hi * 2 ^ w + lo) * P < 2 * 2 ^ m * 2 ^ w * P) by (apply Z.mul_lt_mono_pos_r; lia). lia. }
      apply (round_nearest X k 1 0 0); [lia|lia|lia|by left|assert (0 ≤ X) by (rewrite EX; apply Z.mul_nonneg_nonneg; nia); lia|]. rewrite (proj2 (Z.ltb_ge _ _)), (proj2 (Z.eqb_neq _ _)) by lia. done.
    + destruct (wide_shift_spec hi lo n) as (lo' & -> & Hup & Htie); [assert (2 * 2 ^ m ≤ 2 ^ w) by (rewrite <- Z.pow_succ_r by lia; apply Z.pow_le_mono_r; lia); unfold word; lia|done|lia|]. cbn [mbind result_bind]. set (T := hi * 2 ^ w + lo) in *. assert (2 ^ (1 - 1 + k) = 2 ^ (w + n) * P) as EU by (unfold P; rewrite <- Z.pow_add_r by lia; f_equal; lia). set (W := 2 ^ (w + n)) in *. assert (0 < W) by (apply Z.pow_pos_nonneg; lia).
      pose proof (Z.div_mod T W ltac:(lia)) as ET. pose proof (Z.mod_pos_bound T W ltac:(lia)) as Hm'. set (q := T / W) in *. set (z := T mod W) in *. assert (X - q * (W * P) = z * P) as Ez by (rewrite EX, ET; ring). destruct (mul_round_spec X k 1 q lo' neg) as (r & Er & Hn); [lia|lia| |by left| | | |].
      * split; [apply Z.div_pos; lia|]. apply Z.div_lt_upper_bound; [done|]. assert (2 ^ w * 2 ≤ W) by (unfold W; rewrite Z.pow_add_r by lia; apply Z.mul_le_mono_nonneg_l; [lia|]; apply (Z.pow_le_mono_r 2 1 n); lia). assert (2 * 2 ^ m * 2 ^ w ≤ 2 ^ m * W) by (replace (2 * 2 ^ m * 2 ^ w) with (2 ^ m * (2 ^ w * 2)) by ring; apply Z.mul_le_mono_nonneg_l; lia). assert (2 ^ m * W ≤ W * (2 * 2 ^ m)) by (rewrite (Z.mul_comm W); apply Z.mul_le_mono_nonneg_r; lia). lia.
      * rewrite EU. nia.
      * rewrite EU, Ez, Hup. apply Bool.eq_iff_eq_true. rewrite !Z.ltb_lt. split; intros; nia.
      * rewrite EU, Ez, Htie. apply Bool.eq_iff_eq_true. rewrite !Z.eqb_eq. split; intros; nia.
      * exists r. split; [|done]. by rewrite <- Er.
  - rewrite shl_ok by lia. assert (pe * 2 ^ m < 2 ^ (w - 1)) by nia. pose proof (pow2_half w ltac:(lia)). rewrite Z.shiftl_mul_pow2, cast_id by nia. cbn [mbind result_bind]. replace (2 ^ m - 1) with (Z.ones m) by (rewrite Z.ones_equiv; lia). rewrite Z.land_ones by lia. destruct (div_unique hi (2 ^ m) 1 (hi - 2 ^ m)) as [_ ->]; [lia|lia|]. rewrite lor_shift_add by lia. replace (hi - 2 ^ m + pe * 2 ^ m) with ((pe - 1) * 2 ^ m + hi) by ring.
    assert (2 ^ (pe - 1 + k) = 2 ^ w * P) as EU by (unfold P; rewrite <- Z.pow_add_r by lia; f_equal; lia). assert (X - hi * (2 ^ w * P) = lo * P) as Ez by (rewrite EX; ring). apply mul_round_spec; [lia|lia|lia|right; lia| | |]; rewrite EU, ?Ez; [nia| |]; apply Bool.eq_iff_eq_true; rewrite ?Z.ltb_lt, ?Z.eqb_eq; split; intros; nia.
Qed.

Lemma wide_left_1 hi lo : word w lo → 0 ≤ hi < 2 ^ (w - 1) → let T := hi * 2 ^ w + lo in ∃ hi' lo', wideLeftShift F hi lo 1 = Ok (hi', lo') ∧ word w lo' ∧ hi' * 2 ^ w + lo' = 2 * T ∧ 2 * hi ≤ hi' ≤ 2 * hi + 1.
Proof using V.
  intros Hlo Hhi T. assert (6 < w) by (destruct V; lia). pose proof (pow2_half w ltac:(lia)) as Eh. unfold wideLeftShift. rewrite (shl_ok w hi), (shr_ok w lo), (shl_ok w lo) by lia. cbn [mbind result_bind]. rewrite !Z.shiftl_mul_pow2, Z.shiftr_div_pow2 by lia. change (2 ^ 1) with 2. unfold word in *. rewrite (cast_id w (hi * 2)) by lia.
  pose proof (Z.div_mod lo (2 ^ (w - 1)) ltac:(lia)) as El. pose proof (Z.mod_pos_bound lo (2 ^ (w - 1)) ltac:(lia)) as Hm. assert (lo / 2 ^ (w - 1) = 0 ∨ lo / 2 ^ (w - 1) = 1) as Hb by (assert (0 ≤ lo / 2 ^ (w - 1) < 2); [split; [apply Z.div_pos; lia|apply Z.div_lt_upper_bound; lia]|lia]). rewrite (Z.mul_comm hi 2), lor_low by done.
  eexists _, _. split; [done|]. assert (cast w (lo * 2) = 2 * (lo mod 2 ^ (w - 1))) as -> by (unfold cast; apply (div_unique _ _ (lo / 2 ^ (w - 1))); lia). split; [lia|]. split; [|lia]. unfold T. rewrite El at 3. rewrite Eh. ring.
Qed.

Lemma unpack_scaled neg r (special : bool) : 0 < r < infRep F → (r < 2 ^ m → special = true) → ∃ e s, unpack F (signed_rep F neg r) = Ok (e, s) ∧
  (if special && (Z.land (signed_rep F neg r) (absMask F) <? 2 ^ m) then normalize F (Z.land (signed_rep F neg r) (significandMask F)) else Ok (0, Z.land (signed_rep F neg r) (significandMask F))) = Ok (e - r / 2 ^ m, s).
Proof using V.
  intros Hr Hs. destruct infRep_eq as [_ Ei]. pose proof implicit_pos. destruct (unpack_spec neg r Hr) as (e & s & E & _). exists e, s. split; [done|]. unfold unpack in E. rewrite rep_abs by lia. rewrite rep_exponent, rep_significand in * by lia. destruct (Z.ltb_spec r (2 ^ m)).
  - rewrite Hs by done. cbn [andb]. rewrite (Z.div_small r) in * by lia. cbn [Z.eqb] in E. by rewrite Z.sub_0_r.
  - rewrite andb_false_r. assert (1 ≤ r / 2 ^ m) by (apply Z.div_le_lower_bound; lia). rewrite (proj2 (Z.eqb_neq _ 0)) in E by lia. injection E as <- <-. by rewrite Z.sub_diag.
Qed.

(** Product of normalized significands, packed. *)
Lemma mul_core neg X ea A eb B : 32 ≤ w → 2 ^ m ≤ A < 2 * 2 ^ m → 2 ^ m ≤ B < 2 * 2 ^ m → 1 - m ≤ ea < maxExponent F → 1 - m ≤ eb < maxExponent F → X * 2 ^ (2 * m) = A * B * 2 ^ (ea + eb - 2 + 2 * m) →
  let T := A * (B * 2 ^ exponentBits F) in let hi := T / 2 ^ w in let lo := T mod 2 ^ w in let pe := ea + eb - exponentBias F in
  ∃ r, (if negb (Z.land hi (implicitBit F) =? 0) then mul_pack F (signed_rep F neg 0) (pe + 1) hi lo
        else '(hi, lo) ← wideLeftShift F hi lo 1; mul_pack F (signed_rep F neg 0) pe hi lo) = Ok (signed_rep F neg r) ∧ nearest F X (exponentBias F + m - 1) r.
Proof using V.
  intros Hw32 HA HB Hea Heb EX T hi lo pe. pose proof implicit_pos as Hp. assert (2 ≤ m ∧ m + 5 ≤ w ≤ 2 ^ 16 ∧ 3 ≤ exponentBits F ≤ 30) as (Hm & Hw & Hx) by (destruct V; lia). assert (8 ≤ 2 ^ exponentBits F ≤ 2 ^ 30) as Hmax by (split; [change 8 with (2 ^ 3)|]; apply Z.pow_le_mono_r; lia). assert (0 ≤ exponentBias F < 2 ^ 30) as Hbias by (rewrite Z.shiftr_div_pow2 by lia; change (2 ^ 1) with 2; Z.div_mod_to_equations; lia). set (bias := exponentBias F) in *. clearbody bias.
  assert (2 ^ w = 2 ^ m * (2 * 2 ^ exponentBits F)) as Ew by (rewrite <- Z.pow_succ_r, <- Z.pow_add_r by lia; f_equal; lia). pose proof (Z.div_mod T (2 ^ w) ltac:(lia)) as ET. pose proof (Z.mod_pos_bound T (2 ^ w) ltac:(lia)) as Hlo. fold hi lo in ET, Hlo. set (E := 2 ^ exponentBits F) in *.
  assert (2 ^ m * 2 ^ m ≤ A * B < 4 * (2 ^ m * 2 ^ m)) as HAB by nia. assert (2 * hi < 4 * 2 ^ m ∧ 2 ^ m ≤ 2 * hi + 1) as [Hhi1 Hhi2].
  { assert (T = A * B * E) as ET' by (unfold T; ring). assert (2 ^ m * 2 ^ m * E ≤ T) by (rewrite ET'; apply Z.mul_le_mono_nonneg_r; lia). assert (T < 4 * (2 ^ m * 2 ^ m) * E) by (rewrite ET'; apply Z.mul_lt_mono_pos_r; lia). rewrite Ew in ET, Hlo. split; nia. }
  assert (0 ≤ hi) by lia. rewrite land_pow2 by lia. assert (Z.testbit hi m = (2 ^ m <=? hi)) as ->.
  { rewrite Z.testbit_odd, Z.shiftr_div_pow2 by lia. destruct (Z.leb_spec (2 ^ m) hi); [destruct (div_unique hi (2 ^ m) 1 (hi - 2 ^ m)) as [-> _]; [lia|lia|done]|by rewrite Z.div_small by lia]. }
  set (j := 2 * m + w). assert (∀ p T', 0 ≤ p → T' * 2 ^ p = T * 2 ^ (ea + eb + 3 * m - 1) → X * 2 ^ j = T' * 2 ^ p) as HX.
  { intros p T' Hp' ->. unfold j. rewrite Z.pow_add_r, Z.mul_assoc, EX by lia. unfold T. replace (A * (B * E) * 2 ^ (ea + eb + 3 * m - 1)) with (A * B * (E * 2 ^ (ea + eb + 3 * m - 1))) by ring. unfold E. rewrite <- Z.mul_assoc, <- !Z.pow_add_r by lia. do 2 f_equal. lia. }
  assert (∀ r, nearest F (X * 2 ^ j) (bias + m - 1 + j) r → nearest F X (bias + m - 1) r) as Hsc by (intros r; apply nearest_scale; lia). destruct (Z.leb_spec (2 ^ m) hi).
  - rewrite (proj2 (Z.eqb_neq _ 0)) by lia. cbn [negb]. destruct (mul_pack_spec (X * 2 ^ j) (bias + m - 1 + j) (pe + 1) hi lo neg) as (r & Er & Hn); [lia|lia|lia|lia|lia|done| |exists r; auto]. apply HX; [lia|]. rewrite (Z.mul_comm hi), <- ET. do 2 f_equal. lia.
  - cbn [Z.eqb negb]. destruct (wide_left_1 hi lo Hlo) as (hi' & lo' & -> & Hlo' & ET' & Hhi'); [split; [lia|]; assert (2 ^ m ≤ 2 ^ (w - 1)) by (apply Z.pow_le_mono_r; lia); lia|]. cbn [mbind result_bind]. destruct (mul_pack_spec (X * 2 ^ j) (bias + m - 1 + j) pe hi' lo' neg) as (r & Er & Hn); [lia|lia|lia|lia|assert (∃ c, 2 ^ m = 2 * c) as (c & Ec) by (exists (2 ^ (m - 1)); apply pow2_half; lia); lia|done| |exists r; auto].
    apply HX; [lia|]. rewrite ET', (Z.mul_comm hi), <- ET, (Z.mul_comm 2 T), <- Z.mul_assoc, <- Z.pow_succ_r by lia. do 2 f_equal. lia.
Qed.


Lemma mul_special_test r : 0 ≤ r < 2 ^ (w - 1) → (maxExponent F - 1 <=? u32 (r / 2 ^ m - 1)) = (r <? 2 ^ m) || (infRep F <=? r).
Proof using V.
  intros Hr. pose proof implicit_pos. destruct infRep_eq as [Ei1 Ei2]. assert (2 ^ exponentBits F ≤ 2 ^ 30) by (destruct V; apply Z.pow_le_mono_r; lia). assert (8 ≤ 2 ^ exponentBits F) by (destruct V; change 8 with (2 ^ 3); apply Z.pow_le_mono_r; lia). pose proof (Z.div_mod r (2 ^ m) ltac:(lia)) as E. pose proof (Z.mod_pos_bound r (2 ^ m) ltac:(lia)) as Hm. set (e := r / 2 ^ m) in *. assert (0 ≤ e) by (apply Z.div_pos; lia).
  destruct (Z.ltb_spec r (2 ^ m)); cbn [orb].
  - assert (e = 0) as -> by (apply Z.div_small; lia). apply Z.leb_le. change (u32 (0 - 1)) with (2 ^ 32 - 1). lia.
  - assert (1 ≤ e) by (apply Z.div_le_lower_bound; lia). assert (e < 2 ^ exponentBits F) by (apply Z.div_lt_upper_bound; lia). rewrite cast_id by lia. rewrite Ei1. apply Bool.eq_iff_eq_true. rewrite !Z.leb_le. split; intros Hle.
    + assert (maxExponent F * 2 ^ m ≤ e * 2 ^ m) by (apply Z.mul_le_mono_nonneg_r; lia). lia.
    + assert (maxExponent F ≤ e) by (apply Z.div_le_lower_bound; lia). lia.
Qed.

Lemma nearest_zero k : 0 ≤ k → nearest F 0 k 0.
Proof using V.
  intros Hk. pose proof implicit_pos. destruct infRep_eq as [Ei _]. assert (8 ≤ 2 ^ exponentBits F) by (destruct V; change 8 with (2 ^ 3); apply Z.pow_le_mono_r; lia). split; [rewrite Ei; nia|]. intros r' Hr'. cbv zeta. rewrite (mag_small (F := F) 0) by lia. split; [lia|]. intros E. left. destruct (decide (r' = 0)) as [|Hne]; [done|]. pose proof (mag_pos (F := F) r' ltac:(lia)). assert (0 < 2 ^ k) by lia. nia.
Qed.

Context {wide : Z → Z → Z * Z}.

(** *** Infinities and NaNs *)
Lemma quiet_eq : quietBit F = 2 ^ (m - 1) ∧ 0 < quietBit F < 2 ^ m.
Proof using V. assert (2 ≤ m) by (destruct V; lia). rewrite Z.shiftr_div_pow2 by lia. change (2 ^ 1) with 2. rewrite (pow2_half m) by lia. rewrite (Z.mul_comm 2), Z.div_mul by lia. assert (0 < 2 ^ (m - 1)) by lia. lia. Qed.

(** Setting the quiet bit leaves a NaN. *)
Lemma quiet_nan neg r : infRep F ≤ r < 2 ^ (w - 1) → is_nan F (Z.lor (signed_rep F neg r) (quietBit F)).
Proof using V.
  intros Hr. pose proof implicit_pos. destruct infRep_eq as [Ei1 Ei2]. destruct quiet_eq as [Eq Hq]. assert (2 ^ m ≤ 2 ^ (w - 1)) by (destruct V; apply Z.pow_le_mono_r; lia). assert (0 ≤ r < 2 ^ (w - 1)) as Hr' by lia. assert (0 ≤ Z.lor r (quietBit F) < 2 ^ (w - 1)) as Hl.
  { apply bits_range; [destruct V; lia|apply Z.lor_nonneg; lia|]. intros i Hi. by rewrite Z.lor_spec, (testbit_high (w - 1) r i), (testbit_high (w - 1) (quietBit F) i) by lia. }
  assert (Z.lor (signed_rep F neg r) (quietBit F) = signed_rep F neg (Z.lor r (quietBit F))) as -> by (rewrite <- (lor_sign neg r), <- (lor_sign neg (Z.lor _ _)) by done; rewrite <- !Z.lor_assoc; f_equal; apply Z.lor_comm). split; [by apply rep_word|]. destruct (rep_mod (F := F) neg _ Hl) as [-> _].
  (* [lor] is at least each operand; it differs from infinity in a low bit. *)
  pose proof (Z.land_nonneg r (quietBit F)) as Hland. pose proof (Z.add_lor_land r (quietBit F)) as Hadd. assert (Z.land r (quietBit F) ≤ quietBit F) as Hle by (rewrite Eq, land_pow2 by (destruct V; lia); destruct (Z.testbit r (m - 1)); lia). assert (r ≤ Z.lor r (quietBit F)) by lia. destruct (decide (r = infRep F)) as [E|]; [|lia].
  assert (Z.land r (quietBit F) = 0) as E0; [|lia]. rewrite Eq, land_pow2 by (destruct V; lia). rewrite E, Ei1. rewrite Z.mul_pow2_bits_low by (destruct V; lia). done.
Qed.

(** The most significant bit of the significand marks a NaN as quiet. *)
Lemma quiet_set neg r : infRep F ≤ r < 2 ^ (w - 1) → is_quiet F (Z.lor (signed_rep F neg r) (quietBit F)).
Proof using V. intros Hr. split; [by apply quiet_nan|]. destruct quiet_eq as [-> _]. rewrite Z.lor_spec, Z.pow2_bits_true by (destruct V; lia). apply orb_true_r. Qed.

Lemma qnan_quiet : is_quiet F (qnanRep F).
Proof using V. destruct infRep_eq as [_ Ei]. pose proof implicit_pos. apply (quiet_set false (infRep F)). lia. Qed.

Lemma nan_split a : word w a → ∃ neg r, a = signed_rep F neg r ∧ 0 ≤ r < 2 ^ (w - 1) ∧ r = a mod 2 ^ (w - 1) ∧ neg = negative F a.
Proof using V. intros Ha. destruct (rep_split a Ha) as [E Hr]. eauto 10. Qed.

Lemma nan_quiet a : is_nan F a → is_quiet F (Z.lor a (quietBit F)).
Proof using V. intros [Ha Hn]. destruct (nan_split a Ha) as (n & r & -> & Hr & E & _). apply quiet_set. lia. Qed.

(** The NaN operand, the first one if both are, made quiet. *)
Lemma addXf3_nan mode a b c : word w a → word w b → is_nan F a ∧ c = a ∨ ¬ is_nan F a ∧ is_nan F b ∧ c = b →
  addXf3 F mode a b = Ok (Z.lor c (quietBit F)) ∧ mulXf3 F wide a b = Ok (Z.lor c (quietBit F)).
Proof using V.
  intros Ha Hb Hn. destruct (nan_split a Ha) as (n1 & r1 & Ea & H1 & E1 & _). destruct (nan_split b Hb) as (n2 & r2 & Eb & H2 & E2 & _). unfold is_nan in Hn. rewrite <- E1, <- E2 in Hn. rewrite Ea, Eb in *. clear Ea Eb.
  destruct infRep_eq as [Ei1 Ei2]. unfold addXf3. rewrite add_special_spec by done. unfold mulXf3. rewrite product_sign, !rep_exponent, !mul_special_test by done. unfold mul_special. rewrite !rep_abs by done.
  destruct Hn as [[[_ Hn] ->]|(Hn1 & [_ Hn] & ->)].
  - rewrite (proj2 (Z.ltb_lt (infRep F) r1)), (proj2 (Z.leb_le (infRep F) r1)), orb_true_r by lia. done.
  - rewrite (proj2 (Z.ltb_ge (infRep F) r1)) by (destruct (Z.le_gt_cases r1 (infRep F)); [done|exfalso; apply Hn1; auto]). rewrite (proj2 (Z.ltb_lt (infRep F) r2)), (proj2 (Z.leb_le (infRep F) r2)), !orb_true_r by lia. done.
Qed.

Lemma infinities mode a b : is_inf F a → is_inf F b → addXf3 F mode a b = Ok (if eqb (negative F a) (negative F b) then a else qnanRep F) ∧ mulXf3 F wide a b = Ok (signed_rep F (xorb (negative F a) (negative F b)) (infRep F)).
Proof using V.
  intros [Ha Ea] [Hb Eb]. destruct (nan_split a Ha) as (n1 & r1 & -> & H1 & E1 & <-). destruct (nan_split b Hb) as (n2 & r2 & -> & H2 & E2 & <-). rewrite <- E1 in Ea. rewrite <- E2 in Eb. pose proof implicit_pos. destruct infRep_eq as [Ei1 Ei2]. assert (8 ≤ 2 ^ exponentBits F) by (destruct V; change 8 with (2 ^ 3); apply Z.pow_le_mono_r; lia).
  unfold addXf3. rewrite add_special_spec by done. unfold mulXf3. rewrite product_sign, !rep_exponent, !mul_special_test by done. unfold mul_special. rewrite !rep_abs by done. rewrite Ea, Eb, Z.ltb_irrefl, Z.leb_refl, Z.eqb_refl, orb_true_r. cbn [orb andb]. assert (infRep F ≠ 0) by nia. rewrite (proj2 (Z.eqb_neq (infRep F) 0)) by done. cbn [negb]. rewrite lor_sign by lia. by destruct n1, n2.
Qed.

Lemma infinity_finite mode a b : is_inf F a → finite F b → let inf := signed_rep F (xorb (negative F a) (negative F b)) (infRep F) in
  addXf3 F mode a b = Ok a ∧ addXf3 F mode b a = Ok a ∧
  mulXf3 F wide a b = Ok (if value F b =? 0 then qnanRep F else inf) ∧ mulXf3 F wide b a = Ok (if value F b =? 0 then qnanRep F else inf).
Proof using V.
  intros [Ha Ea] Hb. destruct (finite_split b Hb) as (n2 & r2 & -> & H2). destruct (nan_split a Ha) as (n1 & r1 & -> & H1 & E1 & <-). rewrite <- E1 in Ea. pose proof implicit_pos. destruct infRep_eq as [Ei1 Ei2]. destruct (rep_mod (F := F) n2 r2 ltac:(lia)) as [_ ->]. rewrite value_signed by lia. assert (0 < infRep F) by lia.
  assert (((if n2 then - mag F r2 else mag F r2) =? 0) = (r2 =? 0)) as ->. { apply Bool.eq_iff_eq_true. rewrite !Z.eqb_eq. destruct (decide (r2 = 0)) as [->|]; [rewrite (mag_small (F := F) 0) by lia; by destruct n2|]. pose proof (mag_pos (F := F) r2 ltac:(lia)). destruct n2; lia. }
  unfold addXf3. rewrite !add_special_spec by lia. unfold mulXf3. rewrite !product_sign, !rep_exponent, !mul_special_test by lia. unfold mul_special. rewrite !rep_abs by lia. rewrite Ea, (xorb_comm n2 n1), !Z.ltb_irrefl, Z.leb_refl, !Z.eqb_refl, !(proj2 (Z.ltb_ge (infRep F) r2)), !(proj2 (Z.eqb_neq r2 (infRep F))) by lia. rewrite !orb_true_r. cbn [orb andb]. rewrite lor_sign by lia. by destruct (r2 =? 0).
Qed.

(** *** Finite products *)
Context {W : WideMultiply F wide}.

Lemma mulXf3_nonzero n1 r1 n2 r2 : 0 < r1 < infRep F → 0 < r2 < infRep F →
  ∃ r, mulXf3 F wide (signed_rep F n1 r1) (signed_rep F n2 r2) = Ok (signed_rep F (xorb n1 n2) r) ∧ nearest F (mag F r1 * mag F r2) (exponentBias F + m - 1) r.
Proof using V W.
  intros H1 H2. pose proof implicit_pos as Hp. destruct infRep_eq as [Ei1 Ei2]. assert (2 ≤ m ∧ m + 5 ≤ w ∧ w ≤ 2 ^ 16 ∧ 32 ≤ w ∧ 3 ≤ exponentBits F ≤ 30) as (Hm & Hw & Hw16 & Hw32 & Hx) by (destruct V, W; lia). unfold mulXf3. rewrite product_sign by lia. rewrite !rep_exponent by lia. rewrite !mul_special_test by lia. rewrite !(proj2 (Z.leb_gt (infRep F) _)), !orb_false_r by lia. set (special := (r1 <? 2 ^ m) || (r2 <? 2 ^ m)).
  assert ((if special then mul_special F (signed_rep F n1 r1) (signed_rep F n2 r2) (signed_rep F (xorb n1 n2) 0) else None) = None) as ->.
  { destruct special; [|done]. unfold mul_special. rewrite !rep_abs by lia. rewrite !(proj2 (Z.ltb_ge (infRep F) _)), !(proj2 (Z.eqb_neq _ (infRep F))), !(proj2 (Z.eqb_neq _ 0)) by lia. done. }
  destruct (unpack_scaled n1 r1 special ltac:(lia)) as (ea & sa & Ea & ->); [intros Hlt; unfold special; by rewrite (proj2 (Z.ltb_lt r1 _) Hlt)|]. cbn [mbind result_bind]. destruct (unpack_scaled n2 r2 special ltac:(lia)) as (eb & sb & Eb & ->); [intros Hlt; unfold special; by rewrite (proj2 (Z.ltb_lt r2 _) Hlt), orb_true_r|]. cbn [mbind result_bind].
  destruct (unpack_spec n1 r1 H1) as (ea' & sa' & Ea' & HA & Hea & EA). rewrite Ea in Ea'. injection Ea' as <- <-. destruct (unpack_spec n2 r2 H2) as (eb' & sb' & Eb' & HB & Heb & EB). rewrite Eb in Eb'. injection Eb' as <- <-. set (A := Z.lor sa (2 ^ m)) in *. set (B := Z.lor sb (2 ^ m)) in *.
  assert (2 ^ w = 2 * 2 ^ m * 2 ^ exponentBits F) as Ew by (rewrite <- Z.pow_succ_r, <- Z.pow_add_r by lia; f_equal; lia). assert (0 ≤ B * 2 ^ exponentBits F < 2 ^ w) as HBw by (rewrite Ew; split; [apply Z.mul_nonneg_nonneg; lia|apply Z.mul_lt_mono_pos_r; lia]). rewrite shl_ok by lia. rewrite Z.shiftl_mul_pow2, (cast_id w (B * _)) by lia. cbn [mbind result_bind].
  assert (2 ^ exponentBits F ≤ 2 ^ 30) by (apply Z.pow_le_mono_r; lia). assert (0 ≤ exponentBias F < 2 ^ 30) as Hbias by (rewrite Z.shiftr_div_pow2 by lia; assert (8 ≤ 2 ^ exponentBits F) by (change 8 with (2 ^ 3); apply Z.pow_le_mono_r; lia); change (2 ^ 1) with 2; Z.div_mod_to_equations; lia).
  rewrite (wm_product A (B * 2 ^ exponentBits F)); [|assert (2 * 2 ^ m ≤ 2 ^ w) by (rewrite <- Z.pow_succ_r by lia; apply Z.pow_le_mono_r; lia); unfold word; lia|done]. replace (r1 / 2 ^ m + r2 / 2 ^ m - exponentBias F + (ea - r1 / 2 ^ m + (eb - r2 / 2 ^ m))) with (ea + eb - exponentBias F) by lia. rewrite signed_cast by lia.
  apply mul_core; try done. replace (2 ^ (2 * m)) with (2 ^ m * 2 ^ m) by (rewrite <- Z.pow_add_r by lia; f_equal; lia). replace (mag F r1 * mag F r2 * (2 ^ m * 2 ^ m)) with (mag F r1 * 2 ^ m * (mag F r2 * 2 ^ m)) by ring. rewrite EA, EB. replace (ea + eb - 2 + 2 * m) with (ea - 1 + m + (eb - 1 + m)) by lia. rewrite (Z.pow_add_r 2 (ea - 1 + m)) by lia. ring.
Qed.

Lemma mulXf3_finite a b : finite F a → finite F b → ∃ c, mulXf3 F wide a b = Ok c ∧ product_rounded F a b c.
Proof using V W.
  intros Ha Hb. destruct (finite_split a Ha) as (n1 & r1 & -> & H1). destruct (finite_split b Hb) as (n2 & r2 & -> & H2). destruct infRep_eq as [_ Ei]. pose proof implicit_pos. unfold product_rounded. rewrite !value_signed by lia. destruct (rep_mod (F := F) n1 r1 ltac:(lia)) as [_ ->]. destruct (rep_mod (F := F) n2 r2 ltac:(lia)) as [_ ->].
  assert (∀ r, 0 ≤ r → 0 ≤ mag F r) as Hnn by (intros r Hr; destruct (decide (r = 0)) as [->|]; [rewrite mag_small by lia; lia|]; pose proof (mag_pos (F := F) r ltac:(lia)); lia). assert (Z.abs ((if n1 then - mag F r1 else mag F r1) * (if n2 then - mag F r2 else mag F r2)) = mag F r1 * mag F r2) as -> by (rewrite Z.abs_mul; pose proof (Hnn r1 ltac:(lia)); pose proof (Hnn r2 ltac:(lia)); destruct n1, n2; rewrite ?Z.abs_opp, !Z.abs_eq; lia).
  destruct (decide (0 < r1 ∧ 0 < r2)) as [[Hp1 Hp2]|Hz]; [destruct (mulXf3_nonzero n1 r1 n2 r2 ltac:(lia) ltac:(lia)) as (r & Er & Hn); eauto|]. exists (signed_rep F (xorb n1 n2) 0). split.
  - unfold mulXf3. rewrite product_sign by lia. rewrite !rep_exponent by lia. rewrite !mul_special_test by lia. rewrite !(proj2 (Z.leb_gt (infRep F) _)), !orb_false_r by lia. assert ((r1 <? 2 ^ m) || (r2 <? 2 ^ m) = true) as -> by (apply orb_true_iff; rewrite !Z.ltb_lt; lia).
    unfold mul_special. rewrite !rep_abs by lia. rewrite !(proj2 (Z.ltb_ge (infRep F) _)), !(proj2 (Z.eqb_neq _ (infRep F))) by lia. destruct (Z.eqb_spec r1 0); [done|]. by rewrite (proj2 (Z.eqb_eq r2 0)) by lia.
  - exists 0. split; [|done]. assert (mag F r1 * mag F r2 = 0) as -> by (assert (r1 = 0 ∨ r2 = 0) as [-> | ->] by lia; rewrite (mag_small (F := F) 0) by lia; lia). apply nearest_zero. assert (8 ≤ 2 ^ exponentBits F) by (destruct V; change 8 with (2 ^ 3); apply Z.pow_le_mono_r; lia). rewrite Z.shiftr_div_pow2 by lia. pose proof (Z.div_pos (maxExponent F) (2 ^ 1) ltac:(lia) ltac:(lia)). destruct V. lia.
Qed.

End Multiplication.

(** ** The theorems *)
(** [C5] In a format whose [wideMultiply] computes the exact product, as those of single and double precision
    do ([WideMultiply]), the product of two finite numbers is the exact product rounded to nearest even,
    whether operands or result are normal, subnormal or too small to represent, and infinity beyond
    the range; its sign is the product of the signs.  The quadruple [wideMultiply] loses a carry: see [QuadMul]. *)
Theorem mulXf3_correct F wide `{!ValidFormat F, !WideMultiply F wide} a b : finite F a → finite F b → ∃ c, mulXf3 F wide a b = Ok c ∧ product_rounded F a b c.
Proof. apply mulXf3_finite. Qed.

Lemma mulXf3_correct_witness : ∃ c, mulXf3 double wideMultiply64 0x3FF8000000000000 0x0000000000000003 = Ok c ∧ product_rounded double 0x3FF8000000000000 0x0000000000000003 c.
Proof. apply (mulXf3_correct double wideMultiply64 0x3FF8000000000000 0x0000000000000003); (split; [unfold word; cbn; lia|vm_compute; reflexivity]). Defined.

(** [C24] Infinities and NaNs, in any rounding mode and precision: a NaN operand, the first one if both are, is the
    result of both operations with its quiet bit set; infinities of opposite sign add to a quiet NaN,
    infinity times zero is a quiet NaN, and otherwise an infinite operand gives infinity with the right sign. *)
Theorem special_values_correct F wide `{!ValidFormat F} mode a b : word (typeWidth F) a → word (typeWidth F) b →
  let inf := signed_rep F (xorb (negative F a) (negative F b)) (infRep F) in
  (is_nan F a → addXf3 F mode a b = Ok (Z.lor a (quietBit F)) ∧ mulXf3 F wide a b = Ok (Z.lor a (quietBit F)) ∧ is_quiet F (Z.lor a (quietBit F))) ∧
  (¬ is_nan F a → is_nan F b → addXf3 F mode a b = Ok (Z.lor b (quietBit F)) ∧ mulXf3 F wide a b = Ok (Z.lor b (quietBit F)) ∧ is_quiet F (Z.lor b (quietBit F))) ∧
  (is_inf F a → is_inf F b → addXf3 F mode a b = Ok (if eqb (negative F a) (negative F b) then a else qnanRep F) ∧ mulXf3 F wide a b = Ok inf) ∧
  (is_inf F a → finite F b → addXf3 F mode a b = Ok a ∧ addXf3 F mode b a = Ok a ∧
     mulXf3 F wide a b = Ok (if value F b =? 0 then qnanRep F else inf) ∧ mulXf3 F wide b a = Ok (if value F b =? 0 then qnanRep F else inf)) ∧
  is_quiet F (qnanRep F).
Proof.
  intros Ha Hb inf. split_and!; [| |by apply infinities|by apply infinity_finite|apply qnan_quiet].
  - intros Hn. destruct (addXf3_nan (wide := wide) mode a b a Ha Hb) as [-> ->]; [by left|]. by split_and!; [..|apply nan_quiet].
  - intros Hn Hn'. destruct (addXf3_nan (wide := wide) mode a b b Ha Hb) as [-> ->]; [by right|]. by split_and!; [..|apply nan_quiet].
Qed.

(** A signalling NaN, and infinities of opposite sign. *)
Lemma special_values_correct_witness : mulXf3 single wideMultiply32 0x3F800000 0xFF800001 = Ok 0xFFC00001 ∧ addXf3 single CRT_FE_TONEAREST 0x7F800000 0xFF800000 = Ok 0x7FC00000 ∧ is_quiet single 0x7FC00000.
Proof.
  split.
  - destruct (special_values_correct single wideMultiply32 CRT_FE_TONEAREST 0x3F800000 0xFF800001) as (_ & H & _); [unfold word; cbn; lia..|]. apply H; [intros [_ Hn]; vm_compute in Hn; discriminate|split; [unfold word; cbn; lia|vm_compute; reflexivity]].
  - destruct (special_values_correct single wideMultiply32 CRT_FE_TONEAREST 0x7F800000 0xFF800000) as (_ & _ & H & _ & Hn); [unfold word; cbn; lia..|]. split; [apply H; (split; [unfold word; cbn; lia|vm_compute; reflexivity])|exact Hn].
Defined.

End SoftMul.
