(* ===== verification/QuadMul.v ===== *)
(** * QuadMul: the wide product of quadruple precision

    Models [wideMultiply] of [fp_lib.h] for quadruple precision, which multiplies 128-bit words by schoolbook
    multiplication of 32-bit digits, and its use by [multf3].  The theorems: the low word of the product
    is right, the high word is one too small exactly when the carry out of the low word's sum is
    lost; [multf3] rounds correctly where no carry is lost, and is off by one unit in the last place on a concrete
    pair of numbers where it is. *)
From S2P Require Import Prelude Common IntDiv SoftFloat SoftAdd SoftMul.

Module QuadMul.
Import IntDiv SoftFloat SoftAdd SoftMul.

Local Abbreviation u128 := (cast 128).
Local Abbreviation Word_LoMask := (2 ^ 32 - 1) (only parsing).
Local Abbreviation Word_HiMask := ((2 ^ 32 - 1) * 2 ^ 32) (only parsing).
Local Abbreviation Word_FullMask := (2 ^ 64 - 1) (only parsing).
Local Abbreviation Word_1 a := (Z.land (Z.shiftr a 96) Word_LoMask).
Local Abbreviation Word_2 a := (Z.land (Z.shiftr a 64) Word_LoMask).
Local Abbreviation Word_3 a := (Z.land (Z.shiftr a 32) Word_LoMask).
Local Abbreviation Word_4 a := (Z.land a Word_LoMask).

(** The high word and the low word. *)
Definition wideMultiply128 (a b : Z) : Z * Z :=
  let product11 := u64 (Word_1 a * Word_1 b) in
  let product12 := u64 (Word_1 a * Word_2 b) in
  let product13 := u64 (Word_1 a * Word_3 b) in
  let product14 := u64 (Word_1 a * Word_4 b) in
  let product21 := u64 (Word_2 a * Word_1 b) in
  let product22 := u64 (Word_2 a * Word_2 b) in
  let product23 := u64 (Word_2 a * Word_3 b) in
  let product24 := u64 (Word_2 a * Word_4 b) in
  let product31 := u64 (Word_3 a * Word_1 b) in
  let product32 := u64 (Word_3 a * Word_2 b) in
  let product33 := u64 (Word_3 a * Word_3 b) in
  let product34 := u64 (Word_3 a * Word_4 b) in
  let product41 := u64 (Word_4 a * Word_1 b) in
  let product42 := u64 (Word_4 a * Word_2 b) in
  let product43 := u64 (Word_4 a * Word_3 b) in
  let product44 := u64 (Word_4 a * Word_4 b) in
  let sum0 := product44 in
  let sum1 := u128 (product34 + product43) in
  let sum2 := u128 (product24 + product33 + product42) in
  let sum3 := u128 (product14 + product23 + product32 + product41) in
  let sum4 := u128 (product13 + product22 + product31) in
  let sum5 := u128 (product12 + product21) in
  let sum6 := product11 in
  let r0 := u128 (Z.land sum0 Word_FullMask + u128 (Z.shiftl (Z.land sum1 Word_LoMask) 32)) in
  let r1 := u128 (Z.shiftr sum0 64 + Z.land (Z.shiftr sum1 32) Word_FullMask + Z.land sum2 Word_FullMask + Z.land (u128 (Z.shiftl sum3 32)) Word_HiMask) in
  (u128 (Z.shiftr r1 64 + Z.shiftr sum1 96 + Z.shiftr sum2 64 + Z.shiftr sum3 32 + sum4 + u128 (Z.shiftl sum5 32) + u128 (Z.shiftl sum6 64)),
   u128 (r0 + u128 (Z.shiftl r1 64))).

(** The sum that makes up the low word of the product runs over, and its carry is lost. *)
Definition lost_carry (a b : Z) : bool :=
  let d x i := x / 2 ^ (32 * i) mod 2 ^ 32 in
  let r0 := d a 0 * d b 0 + (d a 1 * d b 0 + d a 0 * d b 1) mod 2 ^ 32 * 2 ^ 32 in
  (2 ^ 64 <=? r0) && (a * b mod 2 ^ 128 <? 2 ^ 64).

(** ** Proofs *)
(** Seven overlapping sums, the way the code collects them in two words. *)
Lemma collect s0 s1 s2 s3 s4 s5 s6 : let p := 2 ^ 32 in let q := 2 ^ 64 in
  let P := s0 + s1 * p + s2 * q + s3 * (p * q) + s4 * (q * q) + s5 * (q * q * p) + s6 * (q * q * q) in
  let r0 := s0 + s1 mod p * p in let r1 := s1 / p + s2 mod q + s3 mod p * p in
  let H := s2 / q + s3 / p + s4 + s5 * p + s6 * q in
  P = r0 + r1 * q + H * (q * q).
Proof.
  intros p q P r0 r1 H. subst P r0 r1 H. change q with (p * p). pose proof (Z.div_mod s1 p ltac:(done)). pose proof (Z.div_mod s2 (p * p) ltac:(done)). pose proof (Z.div_mod s3 p ltac:(done)). set (a := s1 / p) in *. set (b := s1 mod p) in *. set (c := s2 / (p * p)) in *. set (d := s2 mod (p * p)) in *. set (e := s3 / p) in *. set (f := s3 mod p) in *. clearbody a b c d e f. subst s1 s2 s3. ring.
Qed.

(** The carry from the low word to the high word. *)
Lemma low_carry r0 r1 H q : 0 < q → 0 ≤ r0 < 2 * q → 0 ≤ r1 → let P := r0 + r1 * q + H * (q * q) in
  (r0 + r1 * q) mod (q * q) = P mod (q * q) ∧ r1 / q + H = P / (q * q) - Z.b2z ((q <=? r0) && (P mod (q * q) <? q)).
Proof.
  intros Hq Hr0 Hr1 P. unfold P. rewrite Z_mod_plus_full, Z.div_add by nia. split; [done|]. pose proof (Z.div_mod r1 q ltac:(lia)) as E. pose proof (Z.mod_pos_bound r1 q Hq) as Hm. set (h := r1 / q) in *. set (l := r1 mod q) in *. clearbody h l. destruct (Z.lt_ge_cases (r0 + l * q) (q * q)) as [Hlt|Hge].
  - destruct (div_unique (r0 + r1 * q) (q * q) h (r0 + l * q)) as [-> ->]; [rewrite E; ring|nia|]. destruct (Z.leb_spec q r0), (Z.ltb_spec (r0 + l * q) q); cbn [andb Z.b2z]; nia.
  - assert (l = q - 1) as -> by nia. destruct (div_unique (r0 + r1 * q) (q * q) (h + 1) (r0 - q)) as [-> ->]; [rewrite E; ring|nia|]. rewrite (proj2 (Z.leb_le q r0)), (proj2 (Z.ltb_lt (r0 - q) q)) by nia. cbn [andb Z.b2z]. lia.
Qed.

Local Abbreviation digit x i := (x / 2 ^ (32 * i) mod 2 ^ 32).

Lemma digits a : word 128 a → a = digit a 0 + digit a 1 * 2 ^ 32 + digit a 2 * 2 ^ 64 + digit a 3 * (2 ^ 32 * 2 ^ 64).
Proof.
  unfold word. intros Ha. change (2 ^ (32 * 0)) with 1. change (2 ^ (32 * 1)) with (2 ^ 32). change (2 ^ (32 * 2)) with (2 ^ 32 * 2 ^ 32). change (2 ^ (32 * 3)) with (2 ^ 32 * 2 ^ 32 * 2 ^ 32). rewrite Z.div_1_r, <- !Z.div_div by done. set (p := 2 ^ 32). change (2 ^ 64) with (p * p). assert (0 ≤ a / p / p / p < p) as H3 by (rewrite !Z.div_div by done; split; [apply Z.div_pos; done || lia|apply Z.div_lt_upper_bound; [done|exact (proj2 Ha)]]). rewrite (Z.mod_small (a / p / p / p)) by done.
  pose proof (Z.div_mod a p ltac:(done)). pose proof (Z.div_mod (a / p) p ltac:(done)). pose proof (Z.div_mod (a / p / p) p ltac:(done)). nia.
Qed.

Lemma product_bound x y : 0 ≤ x < 2 ^ 32 → 0 ≤ y < 2 ^ 32 → 0 ≤ x * y ≤ (2 ^ 32 - 1) * (2 ^ 32 - 1).
Proof. intros Hx Hy. split; [lia|]. apply Z.mul_le_mono_nonneg; lia. Qed.

Lemma sum_bound x1 x2 x3 x4 : let M := (2 ^ 32 - 1) * (2 ^ 32 - 1) in 0 ≤ x1 ≤ M → 0 ≤ x2 ≤ M → 0 ≤ x3 ≤ M → 0 ≤ x4 ≤ M →
  0 ≤ x1 < 2 ^ 64 ∧ 0 ≤ x1 + x2 < 2 ^ 65 ∧ 0 ≤ x1 + x2 + x3 < 2 ^ 66 ∧ 0 ≤ x1 + x2 + x3 + x4 < 2 ^ 66.
Proof. cbv zeta. lia. Qed.

(** Masks and shifts of the code as quotients and remainders. *)
Lemma masked x n : 0 ≤ n → Z.land x (2 ^ n - 1) = x mod 2 ^ n.
Proof. intros Hn. replace (2 ^ n - 1) with (Z.ones n) by (rewrite Z.ones_equiv; lia). by apply Z.land_ones. Qed.

Lemma masked_high x : 0 ≤ x < 2 ^ 96 → Z.land (u128 (Z.shiftl x 32)) Word_HiMask = x mod 2 ^ 32 * 2 ^ 32.
Proof.
  intros Hx. rewrite cast_id by (rewrite Z.shiftl_mul_pow2 by lia; lia). rewrite <- (Z.shiftl_mul_pow2 (2 ^ 32 - 1) 32), <- Z.shiftl_land, masked, Z.shiftl_mul_pow2 by lia. done.
Qed.

Lemma sum_words s0 s1 s2 s3 s4 s5 s6 :
  0 ≤ s0 < 2 ^ 64 → 0 ≤ s1 < 2 ^ 65 → 0 ≤ s2 < 2 ^ 66 → 0 ≤ s3 < 2 ^ 66 → 0 ≤ s4 < 2 ^ 66 → 0 ≤ s5 < 2 ^ 65 → 0 ≤ s6 < 2 ^ 64 →
  let P := s0 + s1 * 2 ^ 32 + s2 * 2 ^ 64 + s3 * (2 ^ 32 * 2 ^ 64) + s4 * (2 ^ 64 * 2 ^ 64) + s5 * (2 ^ 64 * 2 ^ 64 * 2 ^ 32) + s6 * (2 ^ 64 * 2 ^ 64 * 2 ^ 64) in P < 2 ^ 128 * 2 ^ 128 →
  let r0 := u128 (s0 mod 2 ^ 64 + u128 (Z.shiftl (s1 mod 2 ^ 32) 32)) in
  let r1 := u128 (s0 / 2 ^ 64 + s1 / 2 ^ 32 mod 2 ^ 64 + s2 mod 2 ^ 64 + Z.land (u128 (Z.shiftl s3 32)) Word_HiMask) in
  (u128 (r1 / 2 ^ 64 + s1 / 2 ^ 96 + s2 / 2 ^ 64 + s3 / 2 ^ 32 + s4 + u128 (Z.shiftl s5 32) + u128 (Z.shiftl s6 64)), u128 (r0 + u128 (Z.shiftl r1 64))) =
  (P / 2 ^ 128 - Z.b2z ((2 ^ 64 <=? s0 + s1 mod 2 ^ 32 * 2 ^ 32) && (P mod 2 ^ 128 <? 2 ^ 64)), P mod 2 ^ 128).
Proof.
  intros H0 H1 H2 H3 H4 H5 H6 P HP. cbv zeta. rewrite masked_high by lia. rewrite (Z.div_small s0), (Z.div_small s1 (2 ^ 96)), (Z.mod_small s0) by lia. assert (0 ≤ s1 / 2 ^ 32 < 2 ^ 33) as Hs1 by (split; [apply Z.div_pos; lia|apply Z.div_lt_upper_bound; lia]). rewrite (Z.mod_small (s1 / 2 ^ 32)) by lia. pose proof (Z.mod_pos_bound s1 (2 ^ 32) ltac:(done)). pose proof (Z.mod_pos_bound s2 (2 ^ 64) ltac:(done)). pose proof (Z.mod_pos_bound s3 (2 ^ 32) ltac:(done)).
  rewrite !Z.shiftl_mul_pow2 by lia. rewrite (cast_id 128 (s5 * _)), (cast_id 128 (s6 * _)), (cast_id 128 (s1 mod _ * _)) by lia. rewrite (cast_id 128 (s0 + _)), (cast_id 128 (0 + _ + _ + _)) by lia. pose proof (collect s0 s1 s2 s3 s4 s5 s6) as E. cbv zeta in E. fold P in E. clearbody P. rewrite Z.add_0_l.
  set (r0 := s0 + _) in *. set (r1 := s1 / 2 ^ 32 + _ + _) in *. assert (0 ≤ s2 / 2 ^ 64 ∧ 0 ≤ s3 / 2 ^ 32) as [Hq2 Hq3] by (split; apply Z.div_pos; lia). set (G := s2 / 2 ^ 64 + s3 / 2 ^ 32 + s4 + s5 * 2 ^ 32 + s6 * 2 ^ 64) in *. assert (0 ≤ r0 < 2 * 2 ^ 64 ∧ 0 ≤ r1 < 2 ^ 128) as [Hr0 Hr1] by (unfold r0, r1; lia). destruct (low_carry r0 r1 G (2 ^ 64) ltac:(done) Hr0 (proj1 Hr1)) as [El Eh]. rewrite <- E in El, Eh. change (2 ^ 64 * 2 ^ 64) with (2 ^ 128) in *.
  f_equal; [|rewrite <- El; unfold cast; by rewrite Zplus_mod_idemp_r]. rewrite <- Eh. assert (r1 / 2 ^ 64 + 0 + s2 / 2 ^ 64 + s3 / 2 ^ 32 + s4 + s5 * 2 ^ 32 + s6 * 2 ^ 64 = r1 / 2 ^ 64 + G) as -> by (unfold G; ring). apply cast_id. split; [assert (0 ≤ r1 / 2 ^ 64) by (apply Z.div_pos; lia); unfold G; lia|]. rewrite Eh. assert (P / 2 ^ 128 < 2 ^ 128) by (apply Z.div_lt_upper_bound; lia). destruct (_ && _); cbn [Z.b2z]; lia.
Qed.

Lemma wideMultiply128_spec a b : word 128 a → word 128 b → wideMultiply128 a b = (a * b / 2 ^ 128 - Z.b2z (lost_carry a b), a * b mod 2 ^ 128).
Proof.
  intros Ha Hb. unfold wideMultiply128, lost_carry. rewrite !masked, !Z.shiftr_div_pow2 by lia. pose proof (digits a Ha) as Ea. pose proof (digits b Hb) as Eb. change (2 ^ (32 * 0)) with 1 in *. change (2 ^ (32 * 1)) with (2 ^ 32) in *. change (2 ^ (32 * 2)) with (2 ^ 64) in *. change (2 ^ (32 * 3)) with (2 ^ 96) in *. rewrite !Z.div_1_r in *.
  assert (∀ x, 0 ≤ x mod 2 ^ 32 < 2 ^ 32) as Hd by (intros; apply Z.mod_pos_bound; done). pose proof (Hd a) as A0. pose proof (Hd (a / 2 ^ 32)) as A1. pose proof (Hd (a / 2 ^ 64)) as A2. pose proof (Hd (a / 2 ^ 96)) as A3. pose proof (Hd b) as B0. pose proof (Hd (b / 2 ^ 32)) as B1. pose proof (Hd (b / 2 ^ 64)) as B2. pose proof (Hd (b / 2 ^ 96)) as B3. clear Hd.
  set (a0 := a mod 2 ^ 32) in *. set (a1 := a / 2 ^ 32 mod 2 ^ 32) in *. set (a2 := a / 2 ^ 64 mod 2 ^ 32) in *. set (a3 := a / 2 ^ 96 mod 2 ^ 32) in *. set (b0 := b mod 2 ^ 32) in *. set (b1 := b / 2 ^ 32 mod 2 ^ 32) in *. set (b2 := b / 2 ^ 64 mod 2 ^ 32) in *. set (b3 := b / 2 ^ 96 mod 2 ^ 32) in *. clearbody a0 a1 a2 a3 b0 b1 b2 b3.
  assert (0 ≤ a * b < 2 ^ 128 * 2 ^ 128) as Hab by (unfold word in *; split; [lia|apply Z.mul_lt_mono_nonneg; lia]).
  pose proof (product_bound a0 b0 A0 B0). pose proof (product_bound a0 b1 A0 B1). pose proof (product_bound a0 b2 A0 B2). pose proof (product_bound a0 b3 A0 B3). pose proof (product_bound a1 b0 A1 B0). pose proof (product_bound a1 b1 A1 B1). pose proof (product_bound a1 b2 A1 B2). pose proof (product_bound a1 b3 A1 B3). pose proof (product_bound a2 b0 A2 B0). pose proof (product_bound a2 b1 A2 B1). pose proof (product_bound a2 b2 A2 B2). pose proof (product_bound a2 b3 A2 B3). pose proof (product_bound a3 b0 A3 B0). pose proof (product_bound a3 b1 A3 B1). pose proof (product_bound a3 b2 A3 B2). pose proof (product_bound a3 b3 A3 B3).
  assert (a * b = a0 * b0 + (a1 * b0 + a0 * b1) * 2 ^ 32 + (a2 * b0 + a1 * b1 + a0 * b2) * 2 ^ 64 + (a3 * b0 + a2 * b1 + a1 * b2 + a0 * b3) * (2 ^ 32 * 2 ^ 64) + (a3 * b1 + a2 * b2 + a1 * b3) * (2 ^ 64 * 2 ^ 64) + (a3 * b2 + a2 * b3) * (2 ^ 64 * 2 ^ 64 * 2 ^ 32) + a3 * b3 * (2 ^ 64 * 2 ^ 64 * 2 ^ 64)) as E by (rewrite Ea, Eb; ring).
  rewrite !(cast_id 64) by lia. rewrite E in Hab |- *. clear Ea Eb E Ha Hb. set (s0 := a0 * b0) in *. set (s1 := a1 * b0 + a0 * b1) in *. set (s2 := a2 * b0 + a1 * b1 + a0 * b2) in *. set (s3 := a3 * b0 + a2 * b1 + a1 * b2 + a0 * b3) in *. set (s4 := a3 * b1 + a2 * b2 + a1 * b3) in *. set (s5 := a3 * b2 + a2 * b3) in *. set (s6 := a3 * b3) in *.
  assert (0 ≤ s0 < 2 ^ 64 ∧ 0 ≤ s1 < 2 ^ 65 ∧ 0 ≤ s2 < 2 ^ 66 ∧ 0 ≤ s3 < 2 ^ 66 ∧ 0 ≤ s4 < 2 ^ 66 ∧ 0 ≤ s5 < 2 ^ 65 ∧ 0 ≤ s6 < 2 ^ 64) as (S0 & S1 & S2 & S3 & S4 & S5 & S6) by (split_and?; [eapply sum_bound..]; eassumption).
  clearbody s0 s1 s2 s3 s4 s5 s6. rewrite !(cast_id 128 s1), !(cast_id 128 s2), !(cast_id 128 s3), (cast_id 128 s4), (cast_id 128 s5) by lia. apply sum_words; lia || apply Hab.
Qed.

(** An exact wide product, to compare with. *)
Definition exact_product (a b : Z) : Z * Z := (a * b / 2 ^ 128, a * b mod 2 ^ 128).

#[export] Instance quad_exact : WideMultiply quad exact_product.
Proof. split; [done|]. done. Qed.

Definition normal (F : Format) (a : Z) : Prop := word (typeWidth F) a ∧ implicitBit F ≤ a mod 2 ^ (typeWidth F - 1) < infRep F.
(** The significand of a normal number. *)
Definition full_significand (F : Format) (a : Z) : Z := implicitBit F + a mod implicitBit F.

Lemma normal_significand F `{!ValidFormat F} n r : 0 ≤ r < 2 ^ (typeWidth F - 1) → Z.lor (Z.land (signed_rep F n r) (significandMask F)) (implicitBit F) = full_significand F (signed_rep F n r).
Proof.
  intros Hr. pose proof (implicit_pos (F := F)). unfold full_significand. rewrite masked by (destruct ValidFormat0; lia). rewrite (proj1 (lor_implicit (F := F) _)) by (apply Z.mod_pos_bound; lia). lia.
Qed.

(** Normal numbers are not normalized: the wide product is the only difference. *)
Lemma mulXf3_product F `{!ValidFormat F} W W' n1 r1 n2 r2 : 32 ≤ typeWidth F → implicitBit F ≤ r1 < infRep F → implicitBit F ≤ r2 < infRep F → let a := signed_rep F n1 r1 in let b := signed_rep F n2 r2 in
  let A := full_significand F a in let B := full_significand F b * 2 ^ exponentBits F in W A B = W' A B → mulXf3 F W a b = mulXf3 F W' a b.
Proof.
  intros Hw32 H1 H2 a b A B E. destruct (infRep_eq (F := F)) as [Ei1 Ei2]. pose proof (implicit_pos (F := F)). unfold mulXf3, a, b. rewrite product_sign, !rep_exponent, !mul_special_test, !rep_abs by lia. rewrite !(proj2 (Z.leb_gt (infRep F) _)), !(proj2 (Z.ltb_ge _ (implicitBit F))) by lia. cbn [orb andb mbind result_bind]. rewrite !(normal_significand F n1 r1), !(normal_significand F n2 r2) by lia. fold a b. fold A.
  assert (shl (typeWidth F) (full_significand F b) (exponentBits F) = Ok B) as ->.
  { destruct ValidFormat0 as [V1 V2 V3]. rewrite shl_ok, Z.shiftl_mul_pow2 by lia. fold B. rewrite cast_id; [done|]. assert (2 ^ typeWidth F = 2 * 2 ^ significandBits F * 2 ^ exponentBits F) as -> by (rewrite <- Z.pow_succ_r, <- Z.pow_add_r by lia; f_equal; lia). unfold B, full_significand. pose proof (Z.mod_pos_bound b (implicitBit F) ltac:(lia)). assert (0 < 2 ^ exponentBits F) by (apply Z.pow_pos_nonneg; lia). split; [apply Z.mul_nonneg_nonneg; lia|apply Z.mul_lt_mono_pos_r; lia]. }
  cbn [mbind result_bind]. by rewrite E.
Qed.

Lemma normal_split F `{!ValidFormat F} a : normal F a → ∃ n r, a = signed_rep F n r ∧ implicitBit F ≤ r < infRep F.
Proof. intros [Ha Hr]. destruct (rep_split a Ha) as [E _]. eauto. Qed.

Lemma normal_finite F `{!ValidFormat F} a : normal F a → finite F a.
Proof. intros [Ha Hr]. split; [done|lia]. Qed.

(** ** The theorems *)
(** The wide product of quadruple precision has the right low word; its high word is one too small
    when the sum of the low words carries into it, and right otherwise. *)
Theorem wideMultiply128_correct a b : word 128 a → word 128 b → wideMultiply128 a b = (a * b / 2 ^ 128 - Z.b2z (lost_carry a b), a * b mod 2 ^ 128).
Proof. apply wideMultiply128_spec. Qed.

Lemma wideMultiply128_correct_witness : wideMultiply128 (2 ^ 128 - 1) (2 ^ 128 - 1) = (2 ^ 128 - 3, 1).
Proof. rewrite (wideMultiply128_correct (2 ^ 128 - 1) (2 ^ 128 - 1)); [vm_compute; reflexivity|unfold word; lia..]. Defined.

(** [C22] The product of two normal numbers of quadruple precision is the exact product rounded to nearest even,
    provided that the wide product of their significands loses no carry. *)
Theorem multf3_correct a b : normal quad a → normal quad b → lost_carry (full_significand quad a) (full_significand quad b * 2 ^ 15) = false →
  ∃ c, mulXf3 quad wideMultiply128 a b = Ok c ∧ product_rounded quad a b c.
Proof.
  intros Ha Hb Hc. destruct (mulXf3_finite (wide := exact_product) a b) as (c & Ec & Hr); [by apply normal_finite..|]. exists c. split; [|done]. rewrite <- Ec. destruct (normal_split quad a Ha) as (n1 & r1 & -> & H1). destruct (normal_split quad b Hb) as (n2 & r2 & -> & H2). apply mulXf3_product; [done..|]. change (exponentBits quad) with 15. rewrite wideMultiply128_spec, Hc by (unfold word, full_significand; pose proof (Z.mod_pos_bound (signed_rep quad n1 r1) (implicitBit quad) ltac:(done)); pose proof (Z.mod_pos_bound (signed_rep quad n2 r2) (implicitBit quad) ltac:(done)); cbn [significandBits quad] in *; lia). by rewrite Z.sub_0_r.
Qed.

Lemma multf3_correct_witness : ∃ c, mulXf3 quad wideMultiply128 0x3FFF8000000000000000000000000000 0x4000C000000000000000000000000001 = Ok c ∧ product_rounded quad 0x3FFF8000000000000000000000000000 0x4000C000000000000000000000000001 c.
Proof. apply (multf3_correct 0x3FFF8000000000000000000000000000 0x4000C000000000000000000000000001); [split; [unfold word; cbn; lia|vm_compute; split; [discriminate|reflexivity]]..|vm_compute; reflexivity]. Defined.

(** [C23] On two concrete normal numbers the carry is lost and the product is off by one unit in the last place. *)
Theorem multf3_off_by_one : let a := 0x3FFF97553A902931CD447E35B8B6D8FF in let b := 0x3FFFA49C513F326D07E234571E3FE3FA in
  lost_carry (full_significand quad a) (full_significand quad b * 2 ^ 15) = true ∧ mulXf3 quad wideMultiply128 a b = Ok 0x40004EA046A55C95FB72D94709207836 ∧ ¬ product_rounded quad a b 0x40004EA046A55C95FB72D94709207836 ∧ product_rounded quad a b 0x40004EA046A55C95FB72D94709207837.
Proof.
  split; [vm_compute; reflexivity|]. split; [vm_compute; reflexivity|]. split.
  - intros (r & [_ Hn] & Er). vm_compute in Er. subst r. destruct (Hn 0x40004EA046A55C95FB72D94709207837) as [Hd _]; [split; vm_compute; discriminate|]. vm_compute in Hd. by apply Hd.
  - destruct (mulXf3_finite (wide := exact_product) 0x3FFF97553A902931CD447E35B8B6D8FF 0x3FFFA49C513F326D07E234571E3FE3FA) as (c & Ec & Hr); [split; [unfold word; cbn; lia|vm_compute; reflexivity]..|]. assert (mulXf3 quad exact_product 0x3FFF97553A902931CD447E35B8B6D8FF 0x3FFFA49C513F326D07E234571E3FE3FA = Ok 0x40004EA046A55C95FB72D94709207837) as E by (vm_compute; reflexivity). rewrite E in Ec. injection Ec as <-. exact Hr.
Qed.

End QuadMul.
