(* ===== verification/SoftCompare.v ===== *)
(** * SoftCompare: floating-point comparison

    Models [fp_compare_impl.inc]: the three comparisons behind [__lesf2], [__gesf2], [__unordsf2] and
    their other precisions and names.  The theorem: they order numbers by value, infinities included,
    with both zeros equal, and NaN is unordered. *)
From S2P Require Import Prelude Common IntDiv SoftFloat.

Module SoftCompare.
Import IntDiv SoftFloat.

Section Operations.
Variable F : Format.

Definition leXf2 (a b : Z) : Z :=
  let aInt := signed (typeWidth F) a in
  let bInt := signed (typeWidth F) b in
  let aAbs := Z.land aInt (absMask F) in
  let bAbs := Z.land bInt (absMask F) in
  if (infRep F <? aAbs) || (infRep F <? bAbs) then 1
  else if Z.lor aAbs bAbs =? 0 then 0
  else if 0 <=? Z.land aInt bInt then if aInt <? bInt then -1 else if aInt =? bInt then 0 else 1
  else if bInt <? aInt then -1 else if aInt =? bInt then 0 else 1.

Definition geXf2 (a b : Z) : Z :=
  let aInt := signed (typeWidth F) a in
  let bInt := signed (typeWidth F) b in
  let aAbs := Z.land aInt (absMask F) in
  let bAbs := Z.land bInt (absMask F) in
  if (infRep F <? aAbs) || (infRep F <? bAbs) then -1
  else if Z.lor aAbs bAbs =? 0 then 0
  else if 0 <=? Z.land aInt bInt then if aInt <? bInt then -1 else if aInt =? bInt then 0 else 1
  else if bInt <? aInt then -1 else if aInt =? bInt then 0 else 1.

Definition unordXf2 (a b : Z) : Z :=
  let aAbs := Z.land a (absMask F) in
  let bAbs := Z.land b (absMask F) in
  Z.b2z ((infRep F <? aAbs) || (infRep F <? bAbs)).

End Operations.

(** ** Proofs *)
Definition compare_sign (x y : Z) : Z := match Z.compare x y with Lt => -1 | Eq => 0 | Gt => 1 end.

Section Compare.
Context {F : Format} {V : ValidFormat F}.
Local Abbreviation w := (typeWidth F).

Lemma signed_int (neg : bool) r : 0 ≤ r < 2 ^ (w - 1) → signed w (signed_rep F neg r) = (if neg then r - 2 ^ (w - 1) else r) ∧ Z.land (if neg then r - 2 ^ (w - 1) else r) (absMask F) = r.
Proof using V.
  intros Hr. pose proof (pow2_half w ltac:(destruct V; lia)) as Eh. pose proof (rep_word neg r Hr) as Hw. split.
  - unfold signed. rewrite cast_id by done. unfold signed_rep. destruct neg; [rewrite (proj2 (Z.ltb_ge _ _)) by lia; lia|by rewrite (proj2 (Z.ltb_lt _ _)) by lia].
  - rewrite signBit_eq. replace (2 ^ (w - 1) - 1) with (Z.ones (w - 1)) by (rewrite Z.ones_equiv; lia). rewrite Z.land_ones by (destruct V; lia). destruct neg; [|apply Z.mod_small; lia]. destruct (div_unique (r - 2 ^ (w - 1)) (2 ^ (w - 1)) (-1) r) as [_ ->]; lia.
Qed.

(** The comparison of the integers, sense flipped when both are negative. *)
Lemma compare_ints (n1 : bool) r1 (n2 : bool) r2 : 0 ≤ r1 < 2 ^ (w - 1) → 0 ≤ r2 < 2 ^ (w - 1) → let x := if n1 then r1 - 2 ^ (w - 1) else r1 in let y := if n2 then r2 - 2 ^ (w - 1) else r2 in
  (if Z.lor r1 r2 =? 0 then 0 else if 0 <=? Z.land x y then if x <? y then -1 else if x =? y then 0 else 1 else if y <? x then -1 else if x =? y then 0 else 1) =
  compare_sign (if n1 then - mag F r1 else mag F r1) (if n2 then - mag F r2 else mag F r2).
Proof using V.
  intros H1 H2. cbv zeta. pose proof (implicit_pos (F := F)) as Hp. assert (mag F 0 = 0) as E0 by (apply mag_small; lia). unfold compare_sign. destruct (Z.eqb_spec (Z.lor r1 r2) 0) as [E|Hne].
  { apply Z.lor_eq_0_iff in E as [-> ->]. rewrite E0. by destruct n1, n2. }
  assert (0 < r1 ∨ 0 < r2) as Hpos by (destruct (decide (r1 = 0)) as [->|]; [rewrite Z.lor_0_l in Hne|]; lia). assert (∀ r, 0 ≤ r → 0 ≤ mag F r ∧ (0 < r → 0 < mag F r)) as Hm by (intros r Hr; split; [pose proof (mag_mono_le (F := F) 0 r ltac:(lia)); lia|apply mag_pos]).
  destruct (Hm r1 ltac:(lia)) as [Ha Ha']. destruct (Hm r2 ltac:(lia)) as [Hb Hb']. assert ((0 <=? Z.land (if n1 then r1 - 2 ^ (w - 1) else r1) (if n2 then r2 - 2 ^ (w - 1) else r2)) = negb (n1 && n2)) as ->.
  { destruct (n1 && n2) eqn:En; cbn [negb]; [apply Z.leb_gt, Z.land_neg; destruct n1, n2; try done; lia|apply Z.leb_le, Z.land_nonneg; destruct n1, n2; try done; lia]. }
  destruct n1, n2; cbn [andb negb].
  - destruct (Z.lt_trichotomy r1 r2) as [Hlt|[->|Hlt]]; [|by rewrite Z.ltb_irrefl, Z.eqb_refl, Z.compare_refl|].
    + pose proof (mag_mono (F := F) r1 r2 ltac:(lia)). rewrite (proj2 (Z.ltb_ge _ _)), (proj2 (Z.eqb_neq _ _)), (proj2 (Z.compare_gt_iff _ _)) by lia. done.
    + pose proof (mag_mono (F := F) r2 r1 ltac:(lia)). rewrite (proj2 (Z.ltb_lt _ _)), (proj2 (Z.compare_lt_iff _ _)) by lia. done.
  - rewrite (proj2 (Z.ltb_lt _ _)), (proj2 (Z.compare_lt_iff _ _)) by lia. done.
  - rewrite (proj2 (Z.ltb_ge _ _)), (proj2 (Z.eqb_neq _ _)), (proj2 (Z.compare_gt_iff _ _)) by lia. done.
  - destruct (Z.lt_trichotomy r1 r2) as [Hlt|[->|Hlt]]; [|by rewrite Z.ltb_irrefl, Z.eqb_refl, Z.compare_refl|].
    + pose proof (mag_mono (F := F) r1 r2 ltac:(lia)). rewrite (proj2 (Z.ltb_lt _ _)), (proj2 (Z.compare_lt_iff _ _)) by lia. done.
    + pose proof (mag_mono (F := F) r2 r1 ltac:(lia)). rewrite (proj2 (Z.ltb_ge _ _)), (proj2 (Z.eqb_neq _ _)), (proj2 (Z.compare_gt_iff _ _)) by lia. done.
Qed.

Lemma compare_spec a b : word w a → word w b → let nan := (infRep F <? a mod 2 ^ (w - 1)) || (infRep F <? b mod 2 ^ (w - 1)) in
  leXf2 F a b = (if nan then 1 else compare_sign (value F a) (value F b)) ∧ geXf2 F a b = (if nan then -1 else compare_sign (value F a) (value F b)) ∧ unordXf2 F a b = Z.b2z nan.
Proof using V.
  intros Ha Hb. destruct (rep_split a Ha) as [Ea H1]. destruct (rep_split b Hb) as [Eb H2]. set (r1 := a mod 2 ^ (w - 1)) in *. set (r2 := b mod 2 ^ (w - 1)) in *. set (n1 := negative F a) in *. set (n2 := negative F b) in *. clearbody r1 r2 n1 n2. subst a b. cbv zeta. unfold leXf2, geXf2, unordXf2. rewrite !rep_abs by done. destruct (signed_int n1 r1 H1) as [-> ->]. destruct (signed_int n2 r2 H2) as [-> ->]. rewrite (compare_ints n1 r1 n2 r2 H1 H2). by rewrite !value_signed by done.
Qed.

End Compare.

(** ** The theorem *)
(** [C29] The comparisons of two representations, neither of them NaN, have the sign of the difference
    of their values, so that both zeros are equal and infinities are at the ends; when one is NaN,
    [__le] answers greater, [__ge] less and [__unord] true. *)
Theorem comparison_correct F `{!ValidFormat F} a b : word (typeWidth F) a → word (typeWidth F) b →
  (is_nan F a ∨ is_nan F b → leXf2 F a b = 1 ∧ geXf2 F a b = -1 ∧ unordXf2 F a b = 1) ∧
  (¬ is_nan F a → ¬ is_nan F b → leXf2 F a b = compare_sign (value F a) (value F b) ∧ geXf2 F a b = compare_sign (value F a) (value F b) ∧ unordXf2 F a b = 0).
Proof.
  intros Ha Hb. destruct (compare_spec (F := F) a b Ha Hb) as (-> & -> & ->). unfold is_nan. split.
  - intros Hn. assert ((infRep F <? a mod 2 ^ (typeWidth F - 1)) || (infRep F <? b mod 2 ^ (typeWidth F - 1)) = true) as -> by (apply orb_true_iff; rewrite !Z.ltb_lt; naive_solver). done.
  - intros Hna Hnb. rewrite !(proj2 (Z.ltb_ge _ _)) by (apply Z.nlt_ge; naive_solver). done.
Qed.

Lemma comparison_correct_witness : leXf2 single 0x80000000 0x00000000 = 0 ∧ leXf2 single 0xFF800000 0x3F800000 = -1.
Proof.
  split; [apply (comparison_correct single 0x80000000 0x00000000)|apply (comparison_correct single 0xFF800000 0x3F800000)]; first [unfold word; cbn; lia|intros [_ H]; vm_compute in H; discriminate].
Defined.

End SoftCompare.
