(* ===== verification/SoftConvert.v ===== *)
(** * SoftConvert: floating-point conversions

    Models the conversions between formats ([fp_extend_impl.inc], [fp_trunc_impl.inc]) and to
    integers ([fp_fixint_impl.inc], [fp_fixuint_impl.inc]).  Integers are [N] bits wide; a signed shift
    out of range is undefined.  The theorems: widening is exact; narrowing rounds to nearest
    even between formats whose exponent ranges are far enough apart, and is wrong for every zero and
    subnormal number from single precision to bfloat; conversion to unsigned integers truncates and
    saturates; conversion to signed integers truncates, but saturates one binade late. *)
From S2P Require Import Prelude Common IntDiv SoftFloat SoftAdd.

Module SoftConvert.
Import IntDiv SoftFloat SoftAdd.

(** The two narrow formats. *)
Definition half : Format := {| typeWidth := 16; significandBits := 10 |}.
Definition bfloat : Format := {| typeWidth := 16; significandBits := 7 |}.

Section Widths.
Variable S D : Format.

Let srcBits := typeWidth S.
Let srcSigBits := significandBits S.
Let dstBits := typeWidth D.
Let dstSigBits := significandBits D.

Definition extendXfYf2 (a : Z) : result Z :=
  let srcMinNormal := implicitBit S in
  let srcInfinity := Z.shiftl (maxExponent S) srcSigBits in
  let srcQNaN := 2 ^ (srcSigBits - 1) in
  let srcNaNCode := srcQNaN - 1 in
  let aAbs := Z.land a (absMask S) in
  let sign := Z.land a (signBit S) in
  absResult ←
    (if cast srcBits (aAbs - srcMinNormal) <? srcInfinity - srcMinNormal then
       x ← shl dstBits aAbs (dstSigBits - srcSigBits);
       y ← shl dstBits (exponentBias D - exponentBias S) dstSigBits;
       Ok (cast dstBits (x + y))
     else if srcInfinity <=? aAbs then
       i ← shl dstBits (maxExponent D) dstSigBits;
       x ← shl dstBits (Z.land aAbs srcQNaN) (dstSigBits - srcSigBits);
       y ← shl dstBits (Z.land aAbs srcNaNCode) (dstSigBits - srcSigBits);
       Ok (Z.lor (Z.lor i x) y)
     else if negb (aAbs =? 0) then
       let scale := clz srcBits aAbs - clz srcBits srcMinNormal in
       x ← shl dstBits aAbs (dstSigBits - srcSigBits + scale);
       let resultExponent := exponentBias D - exponentBias S - scale + 1 in
       e ← shl dstBits resultExponent dstSigBits;
       Ok (Z.lor (Z.lxor x (implicitBit D)) e)
     else Ok 0);
  s ← shl dstBits sign (dstBits - srcBits);
  Ok (Z.lor absResult s).

(** Rounding to nearest, ties to even. *)
Definition trunc_round (absResult roundBits : Z) : Z :=
  let halfway := 2 ^ (srcSigBits - dstSigBits - 1) in
  if halfway <? roundBits then cast dstBits (absResult + 1)
  else if roundBits =? halfway then cast dstBits (absResult + Z.land absResult 1)
  else absResult.

Definition truncXfYf2 (a : Z) : result Z :=
  let srcMinNormal := implicitBit S in
  let srcInfinity := Z.shiftl (maxExponent S) srcSigBits in
  let roundMask := 2 ^ (srcSigBits - dstSigBits) - 1 in
  let srcNaNCode := 2 ^ (srcSigBits - 1) - 1 in
  let underflowExponent := exponentBias S + 1 - exponentBias D in
  let overflowExponent := exponentBias S + maxExponent D - exponentBias D in
  let underflow := Z.shiftl underflowExponent srcSigBits in
  let overflow := Z.shiftl overflowExponent srcSigBits in
  let dstQNaN := 2 ^ (dstSigBits - 1) in
  let dstNaNCode := dstQNaN - 1 in
  let aAbs := Z.land a (absMask S) in
  let sign := Z.land a (signBit S) in
  absResult ←
    (if cast srcBits (aAbs - underflow) <? cast srcBits (aAbs - overflow) then
       x ← shr srcBits aAbs (srcSigBits - dstSigBits);
       y ← shl dstBits (exponentBias S - exponentBias D) dstSigBits;
       Ok (trunc_round (cast dstBits (cast dstBits x - y)) (Z.land aAbs roundMask))
     else if srcInfinity <? aAbs then
       i ← shl dstBits (maxExponent D) dstSigBits;
       n ← shr srcBits (Z.land aAbs srcNaNCode) (srcSigBits - dstSigBits);
       Ok (Z.lor (Z.lor i dstQNaN) (Z.land n dstNaNCode))
     else if overflow <=? aAbs then shl dstBits (maxExponent D) dstSigBits
     else
       let aExp := Z.shiftr aAbs srcSigBits in
       let shift := exponentBias S - exponentBias D - aExp + 1 in
       let significand := Z.lor (Z.land a (significandMask S)) srcMinNormal in
       if srcSigBits <? shift then Ok 0
       else
         denormalizedSignificand ← shift_sticky S significand shift;
         x ← shr srcBits denormalizedSignificand (srcSigBits - dstSigBits);
         Ok (trunc_round (cast dstBits x) (Z.land denormalizedSignificand roundMask)));
  s ← shr srcBits sign (srcBits - dstBits);
  Ok (Z.lor absResult s).

End Widths.

Section Integers.
Variable F : Format.
Variable N : Z.

(** [(fixint_t)x << n]. *)
Definition sshl (x n : Z) : result Z := if bool_decide (in_int N (Z.shiftl x n)) then Ok (Z.shiftl x n) else Fault SignedOverflow.

Definition fixint (a : Z) : result Z :=
  let aAbs := Z.land a (absMask F) in
  let sign := if negb (Z.land a (signBit F) =? 0) then -1 else 1 in
  let exponent := Z.shiftr aAbs (significandBits F) - exponentBias F in
  let significand := Z.lor (Z.land aAbs (significandMask F)) (implicitBit F) in
  if exponent <? 0 then Ok 0
  else if N <=? exponent then Ok (if sign =? 1 then 2 ^ (N - 1) - 1 else - 2 ^ (N - 1))
  else if exponent <? significandBits F then
    x ← shr (typeWidth F) significand (significandBits F - exponent);
    Ok (signed N (cast N (sign * x)))
  else
    x ← sshl significand (exponent - significandBits F);
    Ok (sign * x).

Definition fixuint (a : Z) : result Z :=
  let aAbs := Z.land a (absMask F) in
  let sign := if negb (Z.land a (signBit F) =? 0) then -1 else 1 in
  let exponent := Z.shiftr aAbs (significandBits F) - exponentBias F in
  let significand := Z.lor (Z.land aAbs (significandMask F)) (implicitBit F) in
  if (sign =? -1) || (exponent <? 0) then Ok 0
  else if N <=? exponent then Ok (2 ^ N - 1)
  else if exponent <? significandBits F then
    x ← shr (typeWidth F) significand (significandBits F - exponent);
    Ok (cast N x)
  else shl N (cast N significand) (exponent - significandBits F).

End Integers.

(** 0.1 from double to single precision, and zero from single precision to bfloat. *)
Example trunc_examples : truncXfYf2 double single 0x3FB999999999999A = Ok 0x3DCCCCCD ∧ truncXfYf2 single bfloat 0 = Ok 0x40 ∧ extendXfYf2 half single 1 = Ok 0x33800000.
Proof. split_and!; vm_compute; reflexivity. Qed.

(** 2^31 and -3000000000 to 32 bits. *)
Example fixint_examples : fixint double 32 0x41E0000000000000 = Ok (- 2 ^ 31) ∧ fixint double 32 0xC1E65A0BC0000000 = Ok 1294967296 ∧ fixuint double 32 0x41E0000000000000 = Ok (2 ^ 31).
Proof. split_and!; vm_compute; reflexivity. Qed.

(** ** Conversion to integers *)
(** The number without its fraction. *)
Definition integer_part (F : Format) (a : Z) : Z := Z.quot (value F a) (2 ^ (exponentBias F + significandBits F - 1)).

Section FixProofs.
Context {F : Format} {V : ValidFormat F}.
Local Abbreviation m := (significandBits F).
Local Abbreviation w := (typeWidth F).
Local Abbreviation bias := (exponentBias F).

Lemma integer_magnitude r : 0 ≤ r → let x := r / 2 ^ m - bias in let s := 2 ^ m + r mod 2 ^ m in let t := mag F r / 2 ^ (bias + m - 1) in
  (x < 0 → t = 0) ∧ (0 ≤ x < m → s / 2 ^ (m - x) = t) ∧ (m ≤ x → s * 2 ^ (x - m) = t) ∧ (0 ≤ x → 2 ^ x ≤ t < 2 * 2 ^ x).
Proof using V.
  intros Hr. cbv zeta. pose proof (implicit_pos (F := F)) as Hp. destruct bias_eq as [_ Hb]. assert (2 ≤ m) as Hm by (destruct V; lia). set (b := bias) in *. clearbody b. assert (0 < 2 ^ (b + m - 1)) by (apply Z.pow_pos_nonneg; lia). destruct (index_split (F := F) r Hr) as [[Hs Em]|(e & f & He & Hf & E & Em)].
  - rewrite Em, (Z.div_small r (2 ^ m)) by lia. assert (2 ^ m ≤ 2 ^ (b + m - 1)) by (apply Z.pow_le_mono_r; lia). split_and!; try lia. intros _. apply Z.div_small. lia.
  - rewrite Em. destruct (div_unique r (2 ^ m) e f) as [-> ->]; [lia|lia|]. set (s := 2 ^ m + f). assert (2 ^ m ≤ s < 2 * 2 ^ m) as Hs by (unfold s; lia). assert (b ≤ e → s * 2 ^ (e - 1) / 2 ^ (b + m - 1) = s * 2 ^ (e - b) / 2 ^ m) as Et.
    { intros Hbe. replace (2 ^ (e - 1)) with (2 ^ (e - b) * 2 ^ (b - 1)) by (rewrite <- Z.pow_add_r by lia; f_equal; lia). replace (2 ^ (b + m - 1)) with (2 ^ m * 2 ^ (b - 1)) by (rewrite <- Z.pow_add_r by lia; f_equal; lia). rewrite Z.mul_assoc. apply Z.div_mul_cancel_r; lia. }
    split_and!.
    + intros Hx. apply Z.div_small. split; [nia|]. replace (2 ^ (b + m - 1)) with (2 ^ m * 2 ^ (b - 1)) by (rewrite <- Z.pow_add_r by lia; f_equal; lia). assert (2 * 2 ^ (e - 1) ≤ 2 ^ (b - 1)) by (rewrite <- Z.pow_succ_r by lia; apply Z.pow_le_mono_r; lia). nia.
    + intros Hx. rewrite Et by lia. replace (2 ^ m) with (2 ^ (m - (e - b)) * 2 ^ (e - b)) by (rewrite <- Z.pow_add_r by lia; f_equal; lia). symmetry. apply Z.div_mul_cancel_r; lia.
    + intros Hx. rewrite Et by lia. replace (2 ^ (e - b)) with (2 ^ (e - b - m) * 2 ^ m) by (rewrite <- Z.pow_add_r by lia; f_equal; lia). rewrite Z.mul_assoc, Z.div_mul by lia. done.
    + intros Hx. rewrite Et by lia. assert (0 < 2 ^ (e - b)) by lia. split; [apply Z.div_le_lower_bound; nia|apply Z.div_lt_upper_bound; nia].
Qed.

Lemma integer_part_signed neg r : 0 ≤ r < 2 ^ (w - 1) → integer_part F (signed_rep F neg r) = let t := mag F r / 2 ^ (bias + m - 1) in if neg then - t else t.
Proof using V.
  intros Hr. unfold integer_part. rewrite value_signed by done. destruct bias_eq as [_ Hb]. assert (0 ≤ mag F r) by (pose proof (mag_mono_le (F := F) 0 r ltac:(lia)) as H; pose proof (implicit_pos (F := F)); rewrite (mag_small (F := F) 0) in H; lia). assert (0 < 2 ^ (bias + m - 1)) by (apply Z.pow_pos_nonneg; destruct V; lia). cbv zeta. destruct neg; [rewrite Z.quot_opp_l by lia|]; rewrite Z.quot_div_nonneg by lia; done.
Qed.

(** What both functions compute from the representation. *)
Lemma fix_fields neg r : 0 ≤ r < 2 ^ (w - 1) → Z.shiftr r m = r / 2 ^ m ∧ Z.lor (Z.land r (significandMask F)) (implicitBit F) = 2 ^ m + r mod 2 ^ m ∧ negb (Z.land (signed_rep F neg r) (signBit F) =? 0) = neg.
Proof using V.
  intros Hr. pose proof (implicit_pos (F := F)). assert (0 ≤ m) by (destruct V; lia). rewrite Z.shiftr_div_pow2 by lia. split; [done|]. replace (2 ^ m - 1) with (Z.ones m) by (rewrite Z.ones_equiv; lia). rewrite Z.land_ones by lia. rewrite (proj1 (lor_implicit (F := F) _)) by (apply Z.mod_pos_bound; lia). split; [lia|]. rewrite rep_sign by done. unfold signed_rep. assert (0 < 2 ^ (w - 1)) by lia. destruct neg; [|done]. by rewrite (proj2 (Z.eqb_neq _ 0)) by lia.
Qed.

Lemma fixuint_spec N a : 0 < N → word w a → fixuint F N a = Ok (Z.max 0 (Z.min (integer_part F a) (2 ^ N - 1))).
Proof using V.
  intros HN Ha. destruct (rep_split a Ha) as [E Hr]. rewrite E. set (r := a mod 2 ^ (w - 1)) in *. set (neg := negative F a). clearbody r neg. rewrite integer_part_signed by done. unfold fixuint. rewrite rep_abs by done. destruct (fix_fields neg r Hr) as (-> & -> & ->). destruct (integer_magnitude r ltac:(lia)) as (H1 & H2 & H3 & H4). assert (2 ≤ m < w) as Hm by (destruct V; lia).
  set (t := mag F r / 2 ^ (bias + m - 1)) in *. assert (0 ≤ t) by (destruct (Z.lt_ge_cases (r / 2 ^ m - bias) 0); [rewrite H1 by done; lia|]; pose proof (H4 ltac:(lia)); pose proof (Z.pow_nonneg 2 (r / 2 ^ m - bias) ltac:(lia)); lia). set (x := r / 2 ^ m - bias) in *. set (s := 2 ^ m + r mod 2 ^ m) in *. assert (1 < 2 ^ N) by (apply Z.pow_gt_1; lia).
  destruct neg; cbn [orb Z.eqb]; [f_equal; lia|]. destruct (Z.ltb_spec x 0); [rewrite H1 by done; f_equal; lia|]. specialize (H4 ltac:(lia)). destruct (Z.leb_spec N x).
  { assert (2 ^ N ≤ 2 ^ x) by (apply Z.pow_le_mono_r; lia). f_equal. lia. }
  assert (2 * 2 ^ x ≤ 2 ^ N) by (rewrite <- Z.pow_succ_r by lia; apply Z.pow_le_mono_r; lia). destruct (Z.ltb_spec x m).
  - rewrite shr_ok by lia. cbn [mbind result_bind]. rewrite Z.shiftr_div_pow2, H2, cast_id by lia. f_equal. lia.
  - pose proof (implicit_pos (F := F)). pose proof (Z.mod_pos_bound r (2 ^ m) ltac:(lia)). assert (s < 2 ^ N) by (assert (2 * 2 ^ m ≤ 2 ^ N) by (rewrite <- Z.pow_succ_r by lia; apply Z.pow_le_mono_r; lia); unfold s; lia). rewrite (cast_id N s) by (unfold s in *; lia). rewrite shl_ok by lia. rewrite Z.shiftl_mul_pow2, H3, cast_id by lia. f_equal. lia.
Qed.

Lemma fixint_spec N a : 1 < N → word w a → let t := integer_part F a in
  fixint F N a = if Z.abs t <? 2 ^ (N - 1) then Ok t else if 2 ^ N <=? Z.abs t then Ok (if t <? 0 then - 2 ^ (N - 1) else 2 ^ (N - 1) - 1)
                 else if N <=? m then Ok (signed N (cast N t)) else Fault SignedOverflow.
Proof using V.
  intros HN Ha. destruct (rep_split a Ha) as [E Hr]. rewrite E. set (r := a mod 2 ^ (w - 1)) in *. set (neg := negative F a). clearbody r neg. cbv zeta. rewrite integer_part_signed by done. cbv zeta. unfold fixint. rewrite rep_abs by done. destruct (fix_fields neg r Hr) as (-> & -> & ->). destruct (integer_magnitude r ltac:(lia)) as (H1 & H2 & H3 & H4). assert (2 ≤ m < w) as Hm by (destruct V; lia).
  set (t := mag F r / 2 ^ (bias + m - 1)) in *. set (x := r / 2 ^ m - bias) in *. set (s := 2 ^ m + r mod 2 ^ m) in *. pose proof (pow2_half N ltac:(lia)) as EN. assert (0 < 2 ^ (N - 1)) by (apply Z.pow_pos_nonneg; lia).
  destruct (Z.ltb_spec x 0); [rewrite H1 by done; rewrite (proj2 (Z.ltb_lt _ _)) by (destruct neg; lia); by destruct neg|]. specialize (H4 ltac:(lia)). assert (0 < 2 ^ x) by lia. assert (Z.abs (if neg then - t else t) = t) as -> by (destruct neg; lia). assert (((if neg then - t else t) <? 0) = neg) as -> by (destruct neg; [apply Z.ltb_lt|apply Z.ltb_ge]; lia).
  destruct (Z.leb_spec N x).
  { assert (2 ^ N ≤ 2 ^ x) by (apply Z.pow_le_mono_r; lia). rewrite (proj2 (Z.ltb_ge _ _)), (proj2 (Z.leb_le _ _)) by lia. by destruct neg. }
  assert (2 * 2 ^ x ≤ 2 ^ N) by (rewrite <- Z.pow_succ_r by lia; apply Z.pow_le_mono_r; lia). rewrite (proj2 (Z.leb_gt (2 ^ N) t)) by lia. assert ((if neg then -1 else 1) * t = if neg then - t else t) as Esg by (destruct neg; lia). destruct (Z.ltb_spec x m).
  - rewrite shr_ok by lia. cbn [mbind result_bind]. rewrite Z.shiftr_div_pow2, H2, Esg by lia. destruct (Z.ltb_spec t (2 ^ (N - 1))) as [Hlt|Hge]; [f_equal; apply signed_cast; [lia|destruct neg; lia]|]. rewrite (proj2 (Z.leb_le N m)); [done|]. assert (2 ^ (N - 1) < 2 ^ (x + 1)) as Hp by (rewrite Z.pow_add_r by lia; lia). apply Z.pow_lt_mono_r_iff in Hp; lia.
  - unfold sshl, in_int. rewrite Z.shiftl_mul_pow2, H3 by lia. destruct (Z.ltb_spec t (2 ^ (N - 1))).
    + rewrite bool_decide_true by lia. cbn [mbind result_bind]. by rewrite Esg.
    + rewrite bool_decide_false by lia. rewrite (proj2 (Z.leb_gt N m)); [done|lia].
Qed.

End FixProofs.

(** ** Widening *)
(** [D] has room for every number of [S], subnormal ones as normal numbers. *)
Class Wider (S D : Format) : Prop := {
  wd_significand : significandBits S < significandBits D;
  wd_width : typeWidth S < typeWidth D;
  wd_exponent : exponentBits S < exponentBits D;
  wd_bias : significandBits S ≤ exponentBias D - exponentBias S
}.

Section Widening.
Context {S D : Format} {VS : ValidFormat S} {VD : ValidFormat D} {W : Wider S D}.
Local Abbreviation m := (significandBits S).
Local Abbreviation m' := (significandBits D).
Local Abbreviation w := (typeWidth S).
Local Abbreviation w' := (typeWidth D).
Local Abbreviation b := (exponentBias S).
Local Abbreviation b' := (exponentBias D).

Lemma infinity_shift (F : Format) `{!ValidFormat F} : Z.shiftl (maxExponent F) (significandBits F) = infRep F.
Proof using Type. destruct (infRep_eq (F := F)) as [-> _]. apply Z.shiftl_mul_pow2. destruct (_ : ValidFormat F). lia. Qed.

(** A representation shifted to the position of the wider format. *)
Lemma wide_room x : 0 ≤ x < 2 ^ (w - 1) → 0 ≤ x * 2 ^ (m' - m) < 2 ^ (w' - 1) ∧ shl w' x (m' - m) = Ok (x * 2 ^ (m' - m)).
Proof using VS VD W.
  intros Hx. destruct VS, VD, W. assert (2 ^ (w' - 1) = 2 ^ (w - 1) * 2 ^ (m' - m) * 2 ^ (exponentBits D - exponentBits S)) as E by (rewrite <- !Z.pow_add_r by lia; f_equal; lia). assert (0 < 2 ^ (m' - m) ∧ 0 < 2 ^ (exponentBits D - exponentBits S)) as [Hp Hq] by (split; apply Z.pow_pos_nonneg; lia). assert (x * 2 ^ (m' - m) < 2 ^ (w - 1) * 2 ^ (m' - m)) as Hlt by (apply Z.mul_lt_mono_pos_r; lia). assert (0 ≤ x * 2 ^ (m' - m) < 2 ^ (w' - 1)) as Hr by (split; [apply Z.mul_nonneg_nonneg; lia|]; apply (Z.lt_le_trans _ _ _ Hlt); rewrite E, <- (Z.mul_1_r (_ * 2 ^ (m' - m))) at 1; apply Z.mul_le_mono_nonneg_l; [apply Z.mul_nonneg_nonneg|]; lia). split; [done|]. pose proof (pow2_half w' ltac:(lia)). rewrite shl_ok by lia. rewrite Z.shiftl_mul_pow2, cast_id by lia. done.
Qed.

Lemma wide_exponent e : 0 ≤ e ≤ maxExponent D → 0 ≤ e * 2 ^ m' < 2 ^ (w' - 1) ∧ shl w' e m' = Ok (e * 2 ^ m').
Proof using VD.
  intros He. destruct (infRep_eq (F := D)) as [Ei1 Ei2]. pose proof (implicit_pos (F := D)). assert (e * 2 ^ m' ≤ maxExponent D * 2 ^ m') by (apply Z.mul_le_mono_nonneg_r; lia). destruct VD. pose proof (pow2_half w' ltac:(lia)). assert (0 ≤ e * 2 ^ m') by (apply Z.mul_nonneg_nonneg; lia). split; [lia|]. rewrite shl_ok by lia. rewrite Z.shiftl_mul_pow2, cast_id by lia. done.
Qed.

Lemma normal_test r : 0 ≤ r < 2 ^ (w - 1) → (cast w (r - 2 ^ m) <? infRep S - 2 ^ m) = (2 ^ m <=? r) && (r <? infRep S).
Proof using VS.
  intros Hr. pose proof (implicit_pos (F := S)). destruct (infRep_eq (F := S)) as [Ei1 Ei2]. pose proof (pow2_half w ltac:(destruct VS; lia)) as Eh. assert (2 ^ m ≤ 2 ^ (w - 1)) by (destruct VS; apply Z.pow_le_mono_r; lia). destruct (Z.leb_spec (2 ^ m) r); cbn [andb].
  - rewrite cast_id by lia. apply Bool.eq_iff_eq_true. rewrite !Z.ltb_lt. lia.
  - unfold cast. destruct (div_unique (r - 2 ^ m) (2 ^ w) (-1) (r - 2 ^ m + 2 ^ w)) as [_ ->]; [lia|lia|]. apply Z.ltb_ge. lia.
Qed.

Lemma nan_payload r : 0 ≤ r → Z.lor (Z.land r (2 ^ (m - 1)) * 2 ^ (m' - m)) (Z.land r (2 ^ (m - 1) - 1) * 2 ^ (m' - m)) = r mod 2 ^ m * 2 ^ (m' - m).
Proof using VS W.
  intros Hr. assert (2 ≤ m ∧ m < m') as [Hm Hmm] by (destruct VS, W; lia). rewrite <- !Z.shiftl_mul_pow2 by lia. rewrite <- Z.shiftl_lor, <- Z.land_lor_distr_r. f_equal. replace (2 ^ (m - 1) - 1) with (Z.ones (m - 1)) by (rewrite Z.ones_equiv; lia). rewrite Z.lor_comm, <- (Z.mul_1_l (2 ^ (m - 1))), lor_shift_add by (rewrite ?Z.ones_equiv; lia). rewrite Z.ones_equiv. replace (Z.pred (2 ^ (m - 1)) + 1 * 2 ^ (m - 1)) with (Z.ones m) by (rewrite Z.ones_equiv, (pow2_half m) by lia; lia). apply Z.land_ones. lia.
Qed.

Definition widened (r r' : Z) : Prop :=
  0 ≤ r' < 2 ^ (w' - 1) ∧ (r < infRep S → r' < infRep D ∧ mag D r' = mag S r * 2 ^ (b' + m' - b - m)) ∧ (r = infRep S → r' = infRep D) ∧ (infRep S < r → infRep D < r').

Lemma widen_normal e f : 1 ≤ e < maxExponent S → 0 ≤ f < 2 ^ m → widened (e * 2 ^ m + f) ((e + (b' - b)) * 2 ^ m' + f * 2 ^ (m' - m)).
Proof using VS VD W.
  intros He Hf. destruct (bias_eq (F := S)) as [Eb Hb]. destruct (bias_eq (F := D)) as [Eb' Hb']. destruct (infRep_eq (F := D)) as [Ei1' Ei2']. destruct (infRep_eq (F := S)) as [Ei1 Ei2]. pose proof (implicit_pos (F := D)). assert (m < m' ∧ m ≤ b' - b ∧ 2 ≤ m) as (Hm & Hbb & Hm2) by (destruct W, VS; lia). assert (2 ^ m' = 2 ^ m * 2 ^ (m' - m)) as Em by (rewrite <- Z.pow_add_r by lia; f_equal; lia). assert (0 < 2 ^ (m' - m)) by (apply Z.pow_pos_nonneg; lia). assert (0 ≤ f * 2 ^ (m' - m) < 2 ^ m') as Hf' by (rewrite Em; nia).
  assert ((e + (b' - b) + 1) * 2 ^ m' ≤ maxExponent D * 2 ^ m') by (apply Z.mul_le_mono_nonneg_r; lia). assert ((e + (b' - b)) * 2 ^ m' + f * 2 ^ (m' - m) < infRep D) by lia. assert (0 ≤ (e + (b' - b)) * 2 ^ m') by (apply Z.mul_nonneg_nonneg; lia). assert ((e + 1) * 2 ^ m ≤ maxExponent S * 2 ^ m) by (apply Z.mul_le_mono_nonneg_r; lia). assert (e * 2 ^ m + f < infRep S) by lia. split; [lia|]. split; [|split; intros; lia]. intros _. split; [done|]. rewrite !mag_split by lia. replace (2 ^ m' + f * 2 ^ (m' - m)) with ((2 ^ m + f) * 2 ^ (m' - m)) by (rewrite Em; ring). rewrite <- !Z.mul_assoc, <- !Z.pow_add_r by lia. do 2 f_equal. lia.
Qed.

Lemma widen_subnormal r : 0 < r < 2 ^ m → let n := m' - Z.log2 r in let e := b' - b - (m - Z.log2 r) + 1 in
  2 ^ m' ≤ r * 2 ^ n < 2 * 2 ^ m' ∧ 1 ≤ e < maxExponent D ∧ widened r (r * 2 ^ n - 2 ^ m' + e * 2 ^ m').
Proof using VS VD W.
  intros Hr. cbv zeta. destruct (bias_eq (F := D)) as [Eb' Hb']. destruct (bias_eq (F := S)) as [_ Hb]. destruct (infRep_eq (F := D)) as [Ei1' Ei2']. destruct (infRep_eq (F := S)) as [Ei1 Ei2]. pose proof (implicit_pos (F := D)). assert (m < m' ∧ m ≤ b' - b ∧ 2 ≤ m) as (Hm & Hbb & Hm2) by (destruct W, VS; lia). pose proof (Z.log2_spec r ltac:(lia)) as Hl. unfold Z.succ in Hl. pose proof (Z.log2_nonneg r). assert (Z.log2 r < m) by (apply Z.log2_lt_pow2; lia). rewrite Z.pow_add_r in Hl by lia. change (2 ^ 1) with 2 in Hl.
  set (k := Z.log2 r) in *. assert (2 ^ m' = 2 ^ k * 2 ^ (m' - k)) as Em by (rewrite <- Z.pow_add_r by lia; f_equal; lia). set (P := 2 ^ (m' - k)) in *. assert (0 < P) by (apply Z.pow_pos_nonneg; lia). assert (2 ^ m' ≤ r * P < 2 * 2 ^ m') as HP by (rewrite Em; split; [apply Z.mul_le_mono_nonneg_r; lia|rewrite Z.mul_assoc; apply Z.mul_lt_mono_pos_r; lia]). set (e := b' - b - (m - k) + 1) in *. assert (1 ≤ e < maxExponent D) as He by lia. split; [done|]. split; [done|].
  assert ((e + 1) * 2 ^ m' ≤ maxExponent D * 2 ^ m') by (apply Z.mul_le_mono_nonneg_r; lia). assert (2 ^ m' ≤ e * 2 ^ m') by (rewrite <- (Z.mul_1_l (2 ^ m')) at 1; apply Z.mul_le_mono_nonneg_r; lia). assert (2 ^ m ≤ infRep S) by (assert (8 ≤ 2 ^ exponentBits S) by (destruct VS; change 8 with (2 ^ 3); apply Z.pow_le_mono_r; lia); rewrite Ei1; rewrite <- (Z.mul_1_l (2 ^ m)) at 1; apply Z.mul_le_mono_nonneg_r; lia). split; [lia|]. split; [|split; intros; lia]. intros _. split; [lia|].
  rewrite (Z.add_comm _ (e * 2 ^ m')), mag_split by lia. rewrite (mag_small (F := S) r) by lia. replace (2 ^ m' + (r * P - 2 ^ m')) with (r * P) by ring. unfold P. rewrite <- Z.mul_assoc, <- Z.pow_add_r by lia. do 2 f_equal. lia.
Qed.

Lemma widen_nan r : infRep S ≤ r < 2 ^ (w - 1) → widened r (infRep D + r mod 2 ^ m * 2 ^ (m' - m)).
Proof using VS VD W.
  intros Hr. destruct (infRep_eq (F := D)) as [Ei1' Ei2']. destruct (infRep_eq (F := S)) as [Ei1 Ei2]. pose proof (implicit_pos (F := D)). pose proof (implicit_pos (F := S)). assert (m < m') by (destruct W; lia). destruct (div_unique r (2 ^ m) (maxExponent S) (r - infRep S)) as [_ ->]; [lia|lia|]. assert (0 ≤ m) by (destruct VS; lia). assert (2 ^ m' = 2 ^ m * 2 ^ (m' - m)) as Em by (rewrite <- Z.pow_add_r by lia; f_equal; lia). set (P := 2 ^ (m' - m)) in *. assert (0 < P) by (apply Z.pow_pos_nonneg; lia). assert ((r - infRep S) * P < 2 ^ m * P) by (apply Z.mul_lt_mono_pos_r; lia).
  assert (0 ≤ (r - infRep S) * P) by (apply Z.mul_nonneg_nonneg; lia). assert (2 ^ m' ≤ 2 ^ (w' - 1)) by (destruct VD; apply Z.pow_le_mono_r; lia). split; [lia|]. split; [lia|]. split; [intros ->; lia|]. intros Hlt. assert (0 < (r - infRep S) * P) by (apply Z.mul_pos_pos; lia). lia.
Qed.

Lemma lxor_implicit (x : Z) : 2 ^ m' ≤ x < 2 * 2 ^ m' → Z.lxor x (2 ^ m') = x - 2 ^ m'.
Proof using VD.
  intros Hx. assert (0 ≤ m') by (destruct VD; lia). replace x with ((x - 2 ^ m') + 2 ^ m') at 1 by lia. rewrite Z.add_nocarry_lxor by (rewrite land_pow2 by done; rewrite (testbit_high m' (x - 2 ^ m')) by lia; done). by rewrite Z.lxor_assoc, Z.lxor_nilpotent, Z.lxor_0_r.
Qed.

(** The sign moves to the top of the wider format. *)
Lemma wide_sign neg r' : 0 ≤ r' < 2 ^ (w' - 1) → (s ← shl w' (signed_rep S neg 0) (w' - w); Ok (Z.lor r' s)) = Ok (signed_rep D neg r').
Proof using VS VD W.
  intros Hr. assert (w < w' ∧ 0 ≤ w - 1) as [Hw Hw1] by (destruct W, VS; lia). assert (shl w' (signed_rep S neg 0) (w' - w) = Ok (signed_rep D neg 0)) as ->; [|cbn [mbind result_bind]; by rewrite lor_sign]. rewrite shl_ok by lia. unfold signed_rep. f_equal. destruct neg; [|by rewrite Z.shiftl_0_l, cast_id by lia]. rewrite !Z.add_0_l, Z.shiftl_mul_pow2 by lia. rewrite <- Z.pow_add_r by lia. replace (w - 1 + (w' - w)) with (w' - 1) by lia. apply cast_id. pose proof (pow2_half w' ltac:(lia)). lia.
Qed.

Lemma extend_spec neg r : 0 ≤ r < 2 ^ (w - 1) → ∃ r', extendXfYf2 S D (signed_rep S neg r) = Ok (signed_rep D neg r') ∧ widened r r'.
Proof using VS VD W.
  intros Hr. destruct (bias_eq (F := D)) as [Eb' Hb']. destruct (bias_eq (F := S)) as [Eb Hb]. destruct (infRep_eq (F := D)) as [Ei1' Ei2']. destruct (infRep_eq (F := S)) as [Ei1 Ei2]. pose proof (implicit_pos (F := S)). assert (m < m' ∧ m ≤ b' - b ∧ 2 ≤ m ∧ m + 5 ≤ w ∧ m' + 5 ≤ w') as (Hm & Hbb & Hm2 & Hw & Hw') by (destruct W, VS, VD; lia). unfold extendXfYf2. rewrite rep_abs, rep_sign, (infinity_shift S), normal_test by done.
  destruct (index_split (F := S) r ltac:(lia)) as [[Hs _]|(e & f & He & Hf & E & _)].
  - rewrite (proj2 (Z.leb_gt _ r)) by lia. cbn [andb]. assert (r < infRep S) by (assert (8 ≤ 2 ^ exponentBits S) by (destruct VS; change 8 with (2 ^ 3); apply Z.pow_le_mono_r; lia); assert (2 ^ m ≤ infRep S) by (rewrite Ei1; rewrite <- (Z.mul_1_l (2 ^ m)) at 1; apply Z.mul_le_mono_nonneg_r; lia); lia). rewrite (proj2 (Z.leb_gt (infRep S) r)) by lia. destruct (Z.eqb_spec r 0) as [->|Hr0]; cbn [negb].
    + cbn [mbind result_bind]. exists 0. rewrite wide_sign by lia. split; [done|]. assert (0 < infRep D) by (assert (8 ≤ 2 ^ exponentBits D) by (destruct VD; change 8 with (2 ^ 3); apply Z.pow_le_mono_r; lia); rewrite Ei1'; apply Z.mul_pos_pos; lia). split; [lia|]. split; [|split; intros; lia]. intros _. split; [done|]. pose proof (implicit_pos (F := D)). rewrite (mag_small (F := D) 0), (mag_small (F := S) 0) by lia. lia.
    + destruct (widen_subnormal r ltac:(lia)) as (Hx & He & Hwd). unfold clz. rewrite Z.log2_pow2 by lia. replace (w - 1 - Z.log2 r - (w - 1 - m)) with (m - Z.log2 r) by lia. replace (m' - m + (m - Z.log2 r)) with (m' - Z.log2 r) by lia. pose proof (Z.log2_nonneg r). assert (Z.log2 r < m) by (apply Z.log2_lt_pow2; lia). rewrite (shl_ok w' r) by lia. assert (2 * 2 ^ m' ≤ 2 ^ w') by (rewrite <- Z.pow_succ_r by lia; apply Z.pow_le_mono_r; lia). rewrite (Z.shiftl_mul_pow2 r), (cast_id w' (r * _)) by lia. cbn [mbind result_bind].
      destruct (wide_exponent (b' - b - (m - Z.log2 r) + 1) ltac:(lia)) as [_ ->]. cbn [mbind result_bind]. rewrite lxor_implicit by done. rewrite lor_shift_add by lia. eexists. rewrite wide_sign by apply Hwd. split; [done|exact Hwd].
  - assert (2 ^ m ≤ r) by nia. rewrite (proj2 (Z.leb_le _ r)) by done. cbn [andb]. destruct (wide_room r Hr) as [Hx Ex]. destruct (Z.ltb_spec r (infRep S)).
    + assert (e < maxExponent S) by nia. rewrite Ex. destruct (wide_exponent (b' - b) ltac:(lia)) as [Hy Ey]. rewrite Ey. cbn [mbind result_bind]. pose proof (widen_normal e f ltac:(lia) Hf) as Hwd. assert (r * 2 ^ (m' - m) + (b' - b) * 2 ^ m' = (e + (b' - b)) * 2 ^ m' + f * 2 ^ (m' - m)) as Es. { assert (2 ^ m' = 2 ^ m * 2 ^ (m' - m)) as -> by (rewrite <- Z.pow_add_r by lia; f_equal; lia). rewrite E. ring. }
      rewrite Es. rewrite cast_id by (pose proof (pow2_half w' ltac:(lia)); destruct Hwd as [? _]; lia). eexists. rewrite wide_sign by apply Hwd. split; [done|]. by rewrite E.
    + rewrite (proj2 (Z.leb_le (infRep S) r)) by lia. destruct (wide_exponent (maxExponent D) ltac:(lia)) as [_ ->]. destruct (wide_room (Z.land r (2 ^ (m - 1)))) as [_ ->]; [split; [apply Z.land_nonneg; lia|]; rewrite land_pow2 by lia; assert (2 ^ (m - 1) < 2 ^ m) by (apply Z.pow_lt_mono_r; lia); destruct (Z.testbit r (m - 1)); lia|].
      destruct (wide_room (Z.land r (2 ^ (m - 1) - 1))) as [_ ->]; [replace (2 ^ (m - 1) - 1) with (Z.ones (m - 1)) by (rewrite Z.ones_equiv; lia); rewrite Z.land_ones by lia; pose proof (Z.mod_pos_bound r (2 ^ (m - 1)) ltac:(lia)); assert (2 ^ (m - 1) < 2 ^ m) by (apply Z.pow_lt_mono_r; lia); lia|]. cbn [mbind result_bind]. rewrite <- Z.lor_assoc, nan_payload by lia. pose proof (widen_nan r ltac:(lia)) as Hwd.
      rewrite Z.lor_comm, lor_shift_add; [|lia|]. 2: { pose proof (Z.mod_pos_bound r (2 ^ m) ltac:(lia)). assert (2 ^ m' = 2 ^ m * 2 ^ (m' - m)) as -> by (rewrite <- Z.pow_add_r by lia; f_equal; lia). assert (0 < 2 ^ (m' - m)) by (apply Z.pow_pos_nonneg; lia). split; [apply Z.mul_nonneg_nonneg; lia|apply Z.mul_lt_mono_pos_r; lia]. }
      rewrite <- Ei1', Z.add_comm. eexists. rewrite wide_sign by apply Hwd. split; [done|exact Hwd].
Qed.

End Widening.

(** ** Narrowing *)
(** [D] drops at least two bits, and every subnormal number of [S] is far below the smallest of [D]. *)
Class Narrower (S D : Format) : Prop := {
  nr_significand : significandBits D + 2 ≤ significandBits S;
  nr_width : typeWidth D < typeWidth S;
  nr_bias : significandBits S < exponentBias S - exponentBias D
}.

Section Narrowing.
Context {S D : Format} {VS : ValidFormat S} {VD : ValidFormat D} {W : Narrower S D}.
Local Abbreviation m := (significandBits S).
Local Abbreviation m' := (significandBits D).
Local Abbreviation w := (typeWidth S).
Local Abbreviation w' := (typeWidth D).
Local Abbreviation b := (exponentBias S).
Local Abbreviation b' := (exponentBias D).
Local Abbreviation d := (m - m').
(** A magnitude of [D] counts [2^K] times as much. *)
Local Abbreviation K := (b - b' + d).

Lemma trunc_round_spec X k e q g : 0 ≤ k → 1 ≤ e < maxExponent D → 0 ≤ q < 2 * 2 ^ m' → (e = 1 ∨ 2 ^ m' ≤ q) → let U := 2 ^ (e - 1 + k) in q * U ≤ X < (q + 1) * U →
  (2 ^ (d - 1) <? g) = (U <? 2 * (X - q * U)) → (g =? 2 ^ (d - 1)) = (U =? 2 * (X - q * U)) →
  nearest D X k (trunc_round S D ((e - 1) * 2 ^ m' + q) g).
Proof using VD.
  intros Hk He Hq Hor U HX Hup Htie. destruct (infRep_eq (F := D)) as [Ei1 Ei2]. pose proof (implicit_pos (F := D)). destruct (assemble (F := D) X k e q false _ _ Hk He Hq Hor HX Hup Htie) as (r & Er & Hn). cbn [signed_rep] in Er. rewrite Z.add_0_r in Er. unfold trunc_round. assert (0 ≤ (e - 1) * 2 ^ m') by (apply Z.mul_nonneg_nonneg; lia). assert ((e + 1) * 2 ^ m' ≤ maxExponent D * 2 ^ m') by (apply Z.mul_le_mono_nonneg_r; lia). assert (2 ≤ w') by (destruct VD; lia). pose proof (pow2_half w' ltac:(lia)).
  destruct (2 ^ (d - 1) <? g); [by rewrite Er|]. destruct (g =? 2 ^ (d - 1)); [by rewrite Er|]. rewrite Z.add_0_r, cast_id in Er by lia. by rewrite Er.
Qed.

(** The low bits of a sticky significand decide like the exact value. *)
Lemma sticky_round T X P n : 2 ≤ n → 0 < P → 0 ≤ T → sticky T X P → let q := T / 2 ^ n in let g := T mod 2 ^ n in let U := 2 ^ n * P in
  q * U ≤ X < (q + 1) * U ∧ (2 ^ (n - 1) <? g) = (U <? 2 * (X - q * U)) ∧ (g =? 2 ^ (n - 1)) = (U =? 2 * (X - q * U)).
Proof using Type.
  intros Hn HP HT Hst. cbv zeta. pose proof (pow2_half n ltac:(lia)) as En. assert (∃ c, 2 ^ (n - 1) = 2 * c ∧ 0 < c) as (c & Ec & Hc) by (exists (2 ^ (n - 1 - 1)); split; [apply pow2_half; lia|apply Z.pow_pos_nonneg; lia]). set (h := 2 ^ (n - 1)) in *. rewrite En. pose proof (Z.div_mod T (2 * h) ltac:(lia)) as ET. pose proof (Z.mod_pos_bound T (2 * h) ltac:(lia)) as Hg. set (q := T / (2 * h)) in *. set (g := T mod (2 * h)) in *. clearbody q g.
  assert (∃ t, X = q * (2 * h * P) + t ∧ ((t = g * P) ∨ (g ≠ h ∧ (g - 1) * P < t < (g + 1) * P ∧ 1 ≤ g ∧ (g < h → g + 1 ≤ h) ∧ g + 1 ≤ 2 * h))) as (t & -> & Ht).
  { exists (X - q * (2 * h * P)). split; [lia|]. destruct Hst as [<-|[Ho Hx]]; [left; rewrite ET; ring|right]. assert (Z.odd g = true) as Hog by (rewrite ET, Z.odd_add, !Z.odd_mul in Ho; by rewrite !andb_false_l, xorb_false_l in Ho). pose proof (Zodd_ex g (proj1 (Zodd_bool_iff g) Hog)) as (i & Ei). replace ((T - 1) * P) with (q * (2 * h * P) + (g - 1) * P) in Hx by (rewrite ET; ring). replace ((T + 1) * P) with (q * (2 * h * P) + (g + 1) * P) in Hx by (rewrite ET; ring). lia. }
  replace (q * (2 * h * P) + t - q * (2 * h * P)) with t by ring. replace ((q + 1) * (2 * h * P)) with (q * (2 * h * P) + 2 * (h * P)) by ring. replace (2 * h * P) with (2 * (h * P)) in * by ring. assert (∀ x y, x ≤ y → x * P ≤ y * P) as Hmul by (intros; apply Z.mul_le_mono_nonneg_r; lia).
  assert (0 ≤ t < 2 * (h * P) ∧ (h < g → h * P < t) ∧ (g < h → t < h * P) ∧ (g = h → t = h * P)) as (H1 & H2 & H3 & H4).
  { destruct Ht as [->|(Hne & Hx & Hg1 & Hlt & Hg2)]; [assert (∀ x y, x < y → x * P < y * P) as Hm by (intros; apply Z.mul_lt_mono_pos_r; lia); pose proof (Hm g (2 * h)); split_and!; [apply Z.mul_nonneg_nonneg; lia|lia|apply Hm|apply Hm|by intros ->]|]. pose proof (Hmul 0 (g - 1)). pose proof (Hmul (g + 1) (2 * h)). split_and!; [lia|lia|intros; pose proof (Hmul h (g - 1)); lia|intros; pose proof (Hmul (g + 1) h); lia|lia]. }
  split; [lia|]. split; apply Bool.eq_iff_eq_true; rewrite ?Z.ltb_lt, ?Z.eqb_eq; lia.
Qed.

(** Nothing of a number below half the smallest subnormal is left. *)
Lemma tiny_nearest X k : 0 ≤ k → 0 ≤ X → 2 * X < 2 ^ k → nearest D X k 0.
Proof using VD.
  intros Hk HX Hlt. assert (8 ≤ 2 ^ exponentBits D) by (destruct VD; change 8 with (2 ^ 3); apply Z.pow_le_mono_r; lia). pose proof (implicit_pos (F := D)). apply (round_nearest (F := D) X k 1 0 0); [lia|lia|lia|by left|replace (1 - 1 + k) with k by lia; lia|]. replace (1 - 1 + k) with k by lia. rewrite (proj2 (Z.ltb_ge _ _)), (proj2 (Z.eqb_neq _ _)) by lia. done.
Qed.

Lemma range_test r u o : 0 ≤ r < 2 ^ w → 0 ≤ u ≤ o → o < 2 ^ w → (cast w (r - u) <? cast w (r - o)) = (u <=? r) && (r <? o).
Proof using Type.
  intros Hr Hu Ho. assert (∀ x, 0 ≤ x < 2 ^ w → cast w (r - x) = if x <=? r then r - x else r - x + 2 ^ w) as Hc.
  { intros x Hx. destruct (Z.leb_spec x r); [apply cast_id; lia|]. unfold cast. destruct (div_unique (r - x) (2 ^ w) (-1) (r - x + 2 ^ w)) as [_ ->]; lia. }
  rewrite !Hc by lia. destruct (Z.leb_spec u r), (Z.leb_spec o r), (Z.ltb_spec r o); cbn [andb]; first [apply Z.ltb_lt|apply Z.ltb_ge]; lia.
Qed.

Lemma cast_diff x y : cast w' (cast w' x - cast w' y) = cast w' (x - y).
Proof using Type. unfold cast. by rewrite Zminus_mod_idemp_l, Zminus_mod_idemp_r. Qed.

Lemma narrow_sign neg r' : w' < w → 0 ≤ r' < 2 ^ (w' - 1) → (s ← shr w (signed_rep S neg 0) (w - w'); Ok (Z.lor r' s)) = Ok (signed_rep D neg r').
Proof using VS VD.
  intros Hw Hr. assert (1 ≤ w') as Hw1 by (destruct VD; lia). rewrite shr_ok by lia. cbn [mbind result_bind]. assert (Z.shiftr (signed_rep S neg 0) (w - w') = signed_rep D neg 0) as ->; [|by rewrite lor_sign]. unfold signed_rep. destruct neg; [|apply Z.shiftr_0_l]. rewrite !Z.add_0_l, Z.shiftr_div_pow2 by lia. replace (2 ^ (w - 1)) with (2 ^ (w' - 1) * 2 ^ (w - w')) by (rewrite <- Z.pow_add_r by lia; f_equal; lia). apply Z.div_mul. apply Z.pow_nonzero; lia.
Qed.

(** The number is normal in the narrower format. *)
Lemma narrow_normal e f : b - b' < e < b + b' + 1 → 0 ≤ f < 2 ^ m → let r := e * 2 ^ m + f in
  (x ← shr w r d; y ← shl w' (b - b') m'; Ok (trunc_round S D (cast w' (cast w' x - y)) (Z.land r (2 ^ d - 1)))) = Ok (trunc_round S D ((e - (b - b') - 1) * 2 ^ m' + (2 ^ m + f) / 2 ^ d) ((2 ^ m + f) mod 2 ^ d)) ∧
  nearest D (mag S r) K (trunc_round S D ((e - (b - b') - 1) * 2 ^ m' + (2 ^ m + f) / 2 ^ d) ((2 ^ m + f) mod 2 ^ d)).
Proof using VS VD W.
  intros He Hf. cbv zeta. destruct (bias_eq (F := D)) as [Eb' Hb']. destruct (bias_eq (F := S)) as [Eb Hb]. destruct (infRep_eq (F := D)) as [Ei1' Ei2']. assert (m' + 2 ≤ m ∧ m < b - b' ∧ 2 ≤ m' ∧ m + 5 ≤ w ∧ m' + 5 ≤ w') as (Hm & Hbb & Hm2 & Hw & Hw') by (destruct W, VS, VD; lia). pose proof (implicit_pos (F := D)). set (e1 := e - (b - b')) in *. assert (2 ^ m = 2 ^ m' * 2 ^ d) as Em by (rewrite <- Z.pow_add_r by lia; f_equal; lia). assert (0 < 2 ^ d) by (apply Z.pow_pos_nonneg; lia).
  pose proof (Z.div_mod f (2 ^ d) ltac:(lia)) as Df. pose proof (Z.mod_pos_bound f (2 ^ d) ltac:(lia)) as Hg. assert (0 ≤ f / 2 ^ d < 2 ^ m') as Hq by (split; [apply Z.div_pos; lia|apply Z.div_lt_upper_bound; lia]). destruct (div_unique (2 ^ m + f) (2 ^ d) (2 ^ m' + f / 2 ^ d) (f mod 2 ^ d)) as [ET EG]; [lia|lia|]. destruct (div_unique (e * 2 ^ m + f) (2 ^ d) (e * 2 ^ m' + f / 2 ^ d) (f mod 2 ^ d)) as [ER EG']; [rewrite Em; lia|lia|]. split.
  - rewrite shr_ok, shl_ok by lia. cbn [mbind result_bind]. rewrite Z.shiftr_div_pow2, Z.shiftl_mul_pow2 by lia. rewrite cast_diff, ER, ET, EG. replace (2 ^ d - 1) with (Z.ones d) by (rewrite Z.ones_equiv; lia). rewrite Z.land_ones, EG' by lia. assert ((e1 + 1) * 2 ^ m' ≤ maxExponent D * 2 ^ m') by (apply Z.mul_le_mono_nonneg_r; lia). assert (0 ≤ e1 * 2 ^ m') by (apply Z.mul_nonneg_nonneg; lia). pose proof (pow2_half w' ltac:(lia)). do 2 f_equal. rewrite cast_id; unfold e1 in *; lia.
  - set (X := mag S (e * 2 ^ m + f)). assert (X = (2 ^ m + f) * 2 ^ (e - 1)) as EX by (unfold X; apply mag_split; lia). destruct (sticky_round (2 ^ m + f) X (2 ^ (e - 1)) d ltac:(lia) ltac:(apply Z.pow_pos_nonneg; lia) ltac:(lia) ltac:(left; lia)) as (HX & Hup & Htie). assert (2 ^ d * 2 ^ (e - 1) = 2 ^ (e1 - 1 + K)) as EU by (rewrite <- Z.pow_add_r by lia; f_equal; lia). rewrite EU in *. apply trunc_round_spec; try done; [lia|lia|rewrite ET; lia|right; rewrite ET; lia].
Qed.

(** The number is subnormal in the narrower format. *)
Lemma narrow_subnormal e f : 1 ≤ e ≤ b - b' → 0 ≤ f < 2 ^ m → let shift := b - b' - e + 1 in let X := mag S (e * 2 ^ m + f) in
  ∃ r', (if m <? shift then Ok 0 else y ← shift_sticky S (2 ^ m + f) shift; x ← shr w y d; Ok (trunc_round S D (cast w' x) (Z.land y (2 ^ d - 1)))) = Ok r' ∧ nearest D X K r'.
Proof using VS VD W.
  intros He Hf. cbv zeta. destruct (bias_eq (F := D)) as [Eb' Hb']. destruct (bias_eq (F := S)) as [Eb Hb]. assert (m' + 2 ≤ m ∧ m < b - b' ∧ 2 ≤ m' ∧ m + 5 ≤ w ∧ m' + 5 ≤ w') as (Hm & Hbb & Hm2 & Hw & Hw') by (destruct W, VS, VD; lia). pose proof (implicit_pos (F := D)). set (X := mag S (e * 2 ^ m + f)). assert (X = (2 ^ m + f) * 2 ^ (e - 1)) as EX by (unfold X; apply mag_split; lia). set (n := b - b' - e + 1). assert (0 < 2 ^ (e - 1)) by (apply Z.pow_pos_nonneg; lia). destruct (Z.ltb_spec m n).
  - exists 0. split; [done|]. apply tiny_nearest; [lia|rewrite EX; apply Z.mul_nonneg_nonneg; lia|]. assert (2 ^ (m + 2 + (e - 1)) ≤ 2 ^ K) by (apply Z.pow_le_mono_r; lia). rewrite !Z.pow_add_r in * by lia. rewrite EX. assert ((2 ^ m + f) * 2 ^ (e - 1) < 2 * 2 ^ m * 2 ^ (e - 1)) by (apply Z.mul_lt_mono_pos_r; lia). lia.
  - assert (2 * 2 ^ m ≤ 2 ^ w) by (rewrite <- Z.pow_succ_r by lia; apply Z.pow_le_mono_r; lia). rewrite shift_sticky_value by (unfold word; lia). cbn [mbind result_bind]. pose proof (sticky_shift (2 ^ m + f) X (2 ^ (e - 1)) n ltac:(lia) ltac:(lia) ltac:(lia) ltac:(left; lia)) as Hst. cbv zeta in Hst. set (y := if _ =? 0 then _ else _) in *. rewrite <- Z.pow_add_r in Hst by lia.
    assert (2 ^ 1 ≤ 2 ^ n) by (apply Z.pow_le_mono_r; lia). assert (0 ≤ (2 ^ m + f) / 2 ^ n < 2 ^ m) as Hd by (split; [apply Z.div_pos; lia|apply Z.div_lt_upper_bound; [lia|]; assert (2 * 2 ^ m ≤ 2 ^ n * 2 ^ m) by (apply Z.mul_le_mono_nonneg_r; lia); lia]). assert (∃ c, 2 ^ m = 2 * c) as (c & Ec) by (exists (2 ^ (m - 1)); apply pow2_half; lia). assert (0 ≤ y < 2 ^ m) as Hy by (unfold y; destruct (_ =? 0); [lia|]; pose proof (Z.div_mod ((2 ^ m + f) / 2 ^ n) 2 ltac:(lia)); pose proof (Z.mod_pos_bound ((2 ^ m + f) / 2 ^ n) 2 ltac:(lia)); lia).
    rewrite shr_ok by lia. cbn [mbind result_bind]. rewrite Z.shiftr_div_pow2 by lia. assert (2 ^ m = 2 ^ m' * 2 ^ d) as Em by (rewrite <- Z.pow_add_r by lia; f_equal; lia). assert (0 < 2 ^ d) by (apply Z.pow_pos_nonneg; lia). assert (0 ≤ y / 2 ^ d < 2 ^ m') as Hq by (split; [apply Z.div_pos; lia|apply Z.div_lt_upper_bound; lia]). assert (2 ^ m' ≤ 2 ^ w') by (apply Z.pow_le_mono_r; lia). rewrite cast_id by lia. replace (2 ^ d - 1) with (Z.ones d) by (rewrite Z.ones_equiv; lia). rewrite Z.land_ones by lia. eexists. split; [done|].
    destruct (sticky_round y X (2 ^ (e - 1 + n)) d ltac:(lia) ltac:(apply Z.pow_pos_nonneg; lia) ltac:(lia) Hst) as (HX & Hup & Htie). assert (2 ^ d * 2 ^ (e - 1 + n) = 2 ^ (1 - 1 + K)) as EU by (rewrite <- Z.pow_add_r by lia; f_equal; lia). rewrite EU in *. pose proof (trunc_round_spec X K 1 (y / 2 ^ d) (y mod 2 ^ d) ltac:(lia) ltac:(lia) ltac:(lia) ltac:(by left) HX Hup Htie) as Hn. rewrite Z.sub_diag, Z.mul_0_l, Z.add_0_l in Hn. exact Hn.
Qed.

Lemma grid_le P a e f : 0 ≤ f < P → (a * P ≤ e * P + f ↔ a ≤ e).
Proof using Type.
  clear. intros Hf. split; intros H; [|assert (a * P ≤ e * P) by (apply Z.mul_le_mono_nonneg_r; lia); lia]. apply Z.nlt_ge. intros Hlt. assert ((e + 1) * P ≤ a * P) by (apply Z.mul_le_mono_nonneg_r; lia). lia.
Qed.

Definition narrowed (r r' : Z) : Prop :=
  0 ≤ r' < 2 ^ (w' - 1) ∧ (r < infRep S → nearest D (mag S r) K r') ∧ (r = infRep S → r' = infRep D) ∧ (infRep S < r → infRep D < r').

Lemma narrow_infinity : shl w' (maxExponent D) m' = Ok (infRep D) ∧ 0 ≤ infRep D < 2 ^ (w' - 1).
Proof using VD.
  destruct (infRep_eq (F := D)) as [E1 E2]. pose proof (implicit_pos (F := D)). destruct (bias_eq (F := D)) as [Eb Hb]. assert (2 ≤ m' ∧ m' + 5 ≤ w') as [Hm Hw] by (destruct VD; lia). assert (0 ≤ maxExponent D * 2 ^ m') by (apply Z.mul_nonneg_nonneg; lia). pose proof (pow2_half w' ltac:(lia)). split; [|lia]. rewrite shl_ok, Z.shiftl_mul_pow2, cast_id by lia. by rewrite <- E1.
Qed.

Lemma narrow_nan n : 0 ≤ n → infRep D < Z.lor (Z.lor (infRep D) (2 ^ (m' - 1))) (Z.land n (2 ^ (m' - 1) - 1)) < 2 ^ (w' - 1).
Proof using VD.
  intros Hn. destruct (infRep_eq (F := D)) as [Ei1' Ei2']. pose proof (implicit_pos (F := D)). assert (2 ≤ m' ∧ m' + 5 ≤ w') as [Hm Hw] by (destruct VD; lia). pose proof (pow2_half m' ltac:(lia)) as Eh. replace (2 ^ (m' - 1) - 1) with (Z.ones (m' - 1)) by (rewrite Z.ones_equiv; lia). rewrite Z.land_ones by lia. pose proof (Z.mod_pos_bound n (2 ^ (m' - 1)) ltac:(lia)) as Hmod. rewrite Ei1' at 2 3. rewrite (Z.lor_comm (maxExponent D * 2 ^ m')), (lor_shift_add m') by lia. replace (2 ^ (m' - 1) + maxExponent D * 2 ^ m') with ((1 + 2 * maxExponent D) * 2 ^ (m' - 1)) by (rewrite Eh; ring). rewrite Z.lor_comm, lor_shift_add by lia. assert (maxExponent D * 2 ^ m' = 2 * maxExponent D * 2 ^ (m' - 1)) by (rewrite Eh; ring). lia.
Qed.

Lemma trunc_spec neg r : 0 ≤ r < 2 ^ (w - 1) → ∃ r', truncXfYf2 S D (signed_rep S neg r) = Ok (signed_rep D neg r') ∧ narrowed r r'.
Proof using VS VD W.
  intros Hr. destruct (bias_eq (F := D)) as [Eb' Hb']. destruct (bias_eq (F := S)) as [Eb Hb]. destruct (infRep_eq (F := D)) as [Ei1' Ei2']. destruct (infRep_eq (F := S)) as [Ei1 Ei2]. assert (m' + 2 ≤ m ∧ m < b - b' ∧ 2 ≤ m' ∧ m + 5 ≤ w ∧ m' + 5 ≤ w') as (Hm & Hbb & Hm2 & Hw & Hw') by (destruct W, VS, VD; lia). pose proof (implicit_pos (F := S)). pose proof (implicit_pos (F := D)). pose proof (pow2_half w ltac:(lia)) as Ew.
  assert (∀ r', 0 ≤ r' ≤ infRep D → nearest D (mag S r) K r' → r < infRep S → 0 ≤ r' < 2 ^ (w' - 1) ∧ narrowed r r') as Hfin by (intros r' H' Hn Hlt; split; [lia|]; split; [lia|]; split; [done|]; split; intros; lia).
  destruct narrow_infinity as [Hinf Hinf']. unfold truncXfYf2. rewrite rep_abs, rep_sign, rep_significand, (infinity_shift S) by done. rewrite !(Z.shiftl_mul_pow2 _ m) by lia. rewrite (Z.shiftr_div_pow2 r) by lia. replace (b + maxExponent D - b') with (b + b' + 1) by lia. assert ((b + b' + 1) * 2 ^ m ≤ maxExponent S * 2 ^ m) as Hoi by (apply Z.mul_le_mono_nonneg_r; lia). assert (0 ≤ (b + 1 - b') * 2 ^ m ≤ (b + b' + 1) * 2 ^ m) as Huo by (split; [apply Z.mul_nonneg_nonneg; lia|apply Z.mul_le_mono_nonneg_r; lia]). rewrite range_test by lia.
  assert (∀ x : result Z, (∃ r', x = Ok r' ∧ narrowed r r') → ∃ r', (absResult ← x; s ← shr w (signed_rep S neg 0) (w - w'); Ok (Z.lor absResult s)) = Ok (signed_rep D neg r') ∧ narrowed r r') as Hsign.
  { intros x (r' & -> & Hn). exists r'. cbn [mbind result_bind]. rewrite narrow_sign by first [apply nr_width|apply Hn]. done. }
  apply Hsign. clear Hsign. destruct (Z.leb_spec ((b + 1 - b') * 2 ^ m) r) as [Hu|Hu]; cbn [andb]; [destruct (Z.ltb_spec r ((b + b' + 1) * 2 ^ m)) as [Ho|Ho]|].
  - destruct (index_split (F := S) r ltac:(lia)) as [[Hs _]|(e & f & He & Hf & E & _)]; [assert (1 * 2 ^ m ≤ (b + 1 - b') * 2 ^ m) by (apply Z.mul_le_mono_nonneg_r; lia); lia|]. assert (b - b' < e < b + b' + 1) as He'. { pose proof (grid_le (2 ^ m) (b + 1 - b') e f Hf). pose proof (grid_le (2 ^ m) (b + b' + 1) e f Hf). lia. } destruct (narrow_normal e f He' Hf) as [Ex Hn]. rewrite <- E in Ex, Hn. rewrite Ex. eexists. split; [done|]. apply Hfin; [apply Hn|done|lia].
  - destruct (Z.ltb_spec (infRep S) r) as [Hnan|Hni].
    + rewrite Hinf. rewrite shr_ok by lia. cbn [mbind result_bind]. eexists. split; [done|]. pose proof (narrow_nan (Z.shiftr (Z.land r (2 ^ (m - 1) - 1)) d) ltac:(apply Z.shiftr_nonneg, Z.land_nonneg; lia)) as Hn. split; [lia|]. split_and!; [lia|lia|lia].
    + rewrite (proj2 (Z.leb_le _ r)) by lia. rewrite Hinf. eexists. split; [done|]. split; [lia|]. split_and!; [|done|lia]. intros Hlt.
      destruct (index_split (F := S) r ltac:(lia)) as [[Hs _]|(e & f & He & Hf & E & Em)]; [assert (1 * 2 ^ m ≤ (b + b' + 1) * 2 ^ m) by (apply Z.mul_le_mono_nonneg_r; lia); lia|]. pose proof (grid_le (2 ^ m) (b + b' + 1) e f Hf). assert (b + b' + 1 ≤ e) by lia. apply (overflow_nearest (F := D)); [lia|]. rewrite Em, <- Z.pow_add_r by lia. apply (Z.le_trans _ (2 ^ m * 2 ^ (e - 1))); [rewrite <- Z.pow_add_r by lia; apply Z.pow_le_mono_r; lia|apply Z.mul_le_mono_nonneg_r; lia].
  - assert (r < infRep S) by lia. rewrite (proj2 (Z.ltb_ge (infRep S) r)), (proj2 (Z.leb_gt _ r)) by lia. destruct (index_split (F := S) r ltac:(lia)) as [[Hs Em]|(e & f & He & Hf & E & Em)].
    + rewrite (Z.div_small r (2 ^ m)) by lia. rewrite (proj2 (Z.ltb_lt _ _)) by lia. exists 0. split; [done|]. assert (nearest D (mag S r) K 0) as Hn. { rewrite Em. apply tiny_nearest; [lia|lia|]. assert (2 * 2 ^ m ≤ 2 ^ K) by (rewrite <- Z.pow_succ_r by lia; apply Z.pow_le_mono_r; lia). lia. } apply Hfin; [apply Hn|done|done].
    + destruct (div_unique r (2 ^ m) e f) as [-> ->]; [lia|lia|]. rewrite (proj1 (lor_implicit (F := S) f) Hf), (Z.add_comm f). pose proof (grid_le (2 ^ m) (b + 1 - b') e f Hf). assert (e ≤ b - b') as Heb by lia. destruct (narrow_subnormal e f ltac:(lia) Hf) as (r' & Ex & Hn). rewrite <- E in Hn. exists r'. split; [exact Ex|]. apply Hfin; [apply Hn|done|done].
Qed.

End Narrowing.

(** ** Both directions *)
#[export] Instance half_valid : ValidFormat half.
Proof. split; cbn; lia. Qed.

#[export] Instance bfloat_valid : ValidFormat bfloat.
Proof. split; cbn; lia. Qed.

(** The pairs the library instantiates. *)
Ltac pair_of_formats := split; vm_compute; (reflexivity || discriminate).

#[export] Instance half_single : Wider half single.
Proof. pair_of_formats. Qed.
#[export] Instance half_quad : Wider half quad.
Proof. pair_of_formats. Qed.
#[export] Instance single_double : Wider single double.
Proof. pair_of_formats. Qed.
#[export] Instance single_quad : Wider single quad.
Proof. pair_of_formats. Qed.
#[export] Instance double_quad : Wider double quad.
Proof. pair_of_formats. Qed.

#[export] Instance double_single : Narrower double single.
Proof. pair_of_formats. Qed.
#[export] Instance double_half : Narrower double half.
Proof. pair_of_formats. Qed.
#[export] Instance double_bfloat : Narrower double bfloat.
Proof. pair_of_formats. Qed.
#[export] Instance single_half : Narrower single half.
Proof. pair_of_formats. Qed.
#[export] Instance quad_double : Narrower quad double.
Proof. pair_of_formats. Qed.
#[export] Instance quad_single : Narrower quad single.
Proof. pair_of_formats. Qed.
#[export] Instance quad_half : Narrower quad half.
Proof. pair_of_formats. Qed.

(** What one unit of [S] is in units of [D], as a power of two, for the wider [D]. *)
Definition unit_ratio (S D : Format) : Z := exponentBias D + significandBits D - exponentBias S - significandBits S.

Lemma nearest_unique F `{!ValidFormat F} k r r' : 0 ≤ k → 0 ≤ r < infRep F → nearest F (mag F r * 2 ^ k) k r' → r' = r.
Proof.
  intros Hk Hr [Hr' Hn]. destruct (Hn r ltac:(lia)) as [Hd _]. rewrite Z.sub_diag in Hd. assert (mag F r' = mag F r) as E by (apply (Z.mul_cancel_r _ _ (2 ^ k)); lia). destruct (Z.lt_trichotomy r r') as [Hlt|[->|Hlt]]; [pose proof (mag_mono (F := F) r r' ltac:(lia)); lia|done|pose proof (mag_mono (F := F) r' r ltac:(lia)); lia].
Qed.

(** ** Single precision to bfloat *)
Lemma sfbf2_spec neg r : 0 ≤ r < 2 ^ 23 → ∃ r', truncXfYf2 single bfloat (signed_rep single neg r) = Ok (signed_rep bfloat neg r') ∧ 0x40 ≤ r' ≤ 0x80.
Proof.
  intros Hr. assert (0 ≤ r < 2 ^ (typeWidth single - 1)) as Hr' by (cbn; lia). unfold truncXfYf2. rewrite rep_abs, rep_sign, rep_significand by done.
  assert (Z.shiftl (exponentBias single + 1 - exponentBias bfloat) (significandBits single) = 2 ^ 23) as -> by (vm_compute; reflexivity). assert (Z.shiftl (exponentBias single + maxExponent bfloat - exponentBias bfloat) (significandBits single) = 255 * 2 ^ 23) as -> by (vm_compute; reflexivity). assert (Z.shiftl (maxExponent single) (significandBits single) = 255 * 2 ^ 23) as -> by (vm_compute; reflexivity).
  rewrite (range_test (S := single)) by (cbn [typeWidth single]; lia). rewrite (proj2 (Z.leb_gt (2 ^ 23) r)), (proj2 (Z.ltb_ge _ r)), (proj2 (Z.leb_gt _ r)) by lia. cbn [andb]. rewrite (Z.shiftr_div_pow2 r) by (cbn; lia). change (significandBits single) with 23 at 1. rewrite (Z.div_small r), (Z.mod_small r) by (cbn; lia). assert (exponentBias single - exponentBias bfloat - 0 + 1 = 1) as -> by (vm_compute; reflexivity). cbn [significandBits single typeWidth bfloat].
  change (23 <? 1) with false. cbn iota. assert (Z.lor r (2 ^ 23) = r + 2 ^ 23) as -> by (apply (lor_implicit (F := single)); cbn; lia). rewrite shift_sticky_value by (unfold word; cbn; lia). cbn [mbind result_bind significandBits single]. set (T := if _ : bool then _ else _).
  assert (2 ^ 22 ≤ T < 2 ^ 23) as HT by (subst T; change (2 ^ 1) with 2; destruct (_ =? _); Z.to_euclidean_division_equations; lia). clearbody T. rewrite (shr_ok 32 T), Z.shiftr_div_pow2 by lia. cbn [mbind result_bind]. change (23 - 7) with 16. assert (64 ≤ T / 2 ^ 16 < 128) as Hq by (Z.to_euclidean_division_equations; lia). rewrite (cast_id 16) by lia. set (res := trunc_round _ _ _ _).
  assert (64 ≤ res ≤ 128) as Hres by (subst res; unfold trunc_round; cbn [typeWidth bfloat]; rewrite land_1; destruct (Z.odd (T / 2 ^ 16)); cbn [Z.b2z]; rewrite !cast_id by lia; repeat case_match; lia). exists res. rewrite (narrow_sign (S := single) (D := bfloat)) by (cbn; lia). done.
Qed.

(** ** The theorems *)
(** [C26] Widening is exact: a finite number keeps its value, subnormal ones included, an infinity becomes an
    infinity, a NaN a NaN, and the sign is kept. *)
Theorem extension_exact S D `{!ValidFormat S, !ValidFormat D, !Wider S D} a : word (typeWidth S) a → ∃ c, extendXfYf2 S D a = Ok c ∧ word (typeWidth D) c ∧ negative D c = negative S a ∧
  (finite S a → finite D c ∧ value D c = value S a * 2 ^ unit_ratio S D) ∧ (is_inf S a → is_inf D c) ∧ (is_nan S a → is_nan D c).
Proof.
  intros Ha. destruct (rep_split a Ha) as [E Hr]. destruct (extend_spec (negative S a) _ Hr) as (r' & Ex & Hr' & Hf & Hi & Hn). rewrite <- E in Ex. exists (signed_rep D (negative S a) r'). destruct (rep_mod (F := D) (negative S a) r' Hr') as [E1 E2]. pose proof (rep_word (F := D) (negative S a) r' Hr') as Hw. split_and!; [done|done|done| | |]; unfold finite, is_inf, is_nan; rewrite E1.
  - intros [_ Hlt]. destruct (Hf Hlt) as [Hlt' Em]. split; [done|]. rewrite value_signed by done. rewrite Em. unfold value, unit_ratio. cbv zeta. destruct (negative S a); ring.
  - intros [_ Hinf]. by split; [|apply Hi].
  - intros [_ Hnan]. by split; [|apply Hn].
Qed.

Lemma extension_exact_witness : extendXfYf2 half single 0x0001 = Ok 0x33800000 ∧ value single 0x33800000 = 1 * 2 ^ unit_ratio half single.
Proof. destruct (extension_exact half single 0x0001) as (c & E & _ & _ & Hf & _); [unfold word; cbn; lia|]. vm_compute in E. injection E as <-. split; [vm_compute; reflexivity|]. apply Hf. split; [unfold word; cbn; lia|vm_compute; reflexivity]. Defined.

(** [C12] Narrowing to a format with a smaller range of exponents ([Narrower]: double to single, half and bfloat, single to half,
    quadruple to double, single and half) rounds a finite number to the nearest one of the narrower format, ties to
    even, infinity beyond its range and subnormal numbers included; an infinity becomes an infinity, a NaN a
    NaN, and the sign is kept.  Single precision to bfloat, whose exponents have the same range, is not among
    them: [truncsfbf2.c] is wrong for zeros and subnormal numbers. *)
Theorem truncation_correct S D `{!ValidFormat S, !ValidFormat D, !Narrower S D} a : word (typeWidth S) a → ∃ c, truncXfYf2 S D a = Ok c ∧ word (typeWidth D) c ∧ negative D c = negative S a ∧
  (finite S a → nearest D (Z.abs (value S a)) (unit_ratio D S) (c mod 2 ^ (typeWidth D - 1))) ∧ (is_inf S a → is_inf D c) ∧ (is_nan S a → is_nan D c).
Proof.
  intros Ha. destruct (rep_split a Ha) as [E Hr]. destruct (trunc_spec (negative S a) _ Hr) as (r' & Ex & Hr' & Hf & Hi & Hn). rewrite <- E in Ex. exists (signed_rep D (negative S a) r'). destruct (rep_mod (F := D) (negative S a) r' Hr') as [E1 E2]. pose proof (rep_word (F := D) (negative S a) r' Hr') as Hw. split_and!; [done|done|done| | |]; unfold is_inf, is_nan; rewrite E1.
  - intros [_ Hlt]. specialize (Hf Hlt). pose proof (mag_nonneg (F := S) _ (proj1 Hr)). unfold unit_ratio, value. cbv zeta. match type of Hf with nearest _ _ ?k _ => match goal with |- nearest _ _ ?k' _ => replace k' with k by lia end end. match goal with |- nearest _ ?x _ _ => replace x with (mag S (a mod 2 ^ (typeWidth S - 1))) by (destruct (negative S a); lia) end. done.
  - intros [_ Hinf]. by split; [|apply Hi].
  - intros [_ Hnan]. by split; [|apply Hn].
Qed.

Lemma truncation_correct_witness : truncXfYf2 double single 0x36A0000000000001 = Ok 1 ∧ nearest single (Z.abs (value double 0x36A0000000000001)) (unit_ratio single double) (1 mod 2 ^ 31).
Proof. destruct (truncation_correct double single 0x36A0000000000001) as (c & E & _ & _ & Hf & _); [unfold word; cbn; lia|]. assert (truncXfYf2 double single 0x36A0000000000001 = Ok 1) as E' by (vm_compute; reflexivity). rewrite E' in E. injection E as <-. split; [done|]. apply Hf. split; [unfold word; cbn; lia|vm_compute; reflexivity]. Defined.

(** Widening a number that is not a NaN and narrowing the result gives the number back, for every pair of
    formats the library converts in both directions. *)
Theorem extension_truncation S D `{!ValidFormat S, !ValidFormat D, !Wider S D, !Narrower D S} a : word (typeWidth S) a → ¬ is_nan S a → (c ← extendXfYf2 S D a; truncXfYf2 D S c) = Ok a.
Proof.
  intros Ha Hnan. destruct (rep_split a Ha) as [E Hr]. set (r := a mod 2 ^ (typeWidth S - 1)) in *. assert (r ≤ infRep S) as Hle by (apply Z.nlt_ge; intros Hlt; by apply Hnan). destruct (extend_spec (negative S a) r Hr) as (r' & Ex & Hr' & Hf & Hi & _). destruct (trunc_spec (S := D) (D := S) (negative S a) r' Hr') as (r'' & Ex' & Hr'' & Hf' & Hi' & _). rewrite <- E in Ex. rewrite Ex. cbn [mbind result_bind]. rewrite Ex'. rewrite E at 2. do 2 f_equal.
  destruct (decide (r = infRep S)) as [E0|Hne]; [rewrite E0; auto|]. destruct (Hf ltac:(lia)) as [Hlt' Em]. specialize (Hf' Hlt'). rewrite Em in Hf'. replace (exponentBias D + significandBits D - exponentBias S - significandBits S) with (exponentBias D - exponentBias S + (significandBits D - significandBits S)) in Hf' by lia. apply (nearest_unique S) in Hf'; [done| |lia]. match goal with W : Wider S D |- _ => destruct W end. destruct (bias_eq (F := S)). assert (0 ≤ significandBits S) by (match goal with V : ValidFormat S |- _ => destruct V end; lia). lia.
Qed.

Lemma extension_truncation_witness : (c ← extendXfYf2 single double 0x807FFFFF; truncXfYf2 double single c) = Ok 0x807FFFFF.
Proof. apply (extension_truncation single double 0x807FFFFF); [unfold word; cbn; lia|]. intros [_ H]. vm_compute in H. discriminate H. Defined.

(** [C40] From single precision to bfloat, whose exponent ranges are the same, narrowing is wrong for every zero and subnormal
    number: the implicit bit is set although the number has none, so the magnitude of the result is
    at least [0x40]. *)
Theorem truncsfbf2_subnormal neg r : 0 ≤ r < 2 ^ 23 → ∃ r', truncXfYf2 single bfloat (signed_rep single neg r) = Ok (signed_rep bfloat neg r') ∧ 0x40 ≤ r' ≤ 0x80.
Proof. intros Hr. by apply sfbf2_spec. Qed.

Lemma truncsfbf2_subnormal_witness : ∃ r', truncXfYf2 single bfloat (signed_rep single false 0) = Ok (signed_rep bfloat false r') ∧ 0x40 ≤ r' ≤ 0x80.
Proof. apply (truncsfbf2_subnormal false 0). lia. Defined.

(** [C30] Conversion to an [N]-bit integer drops the fraction.  The unsigned conversion saturates at both
    ends of its range.  The signed one is exact below [2^(N-1)] and saturates from [2^N] on; in the binade
    between, whose numbers are out of range as well, it wraps around or shifts out of range.  Infinity
    and NaN count as the numbers their representations would stand for. *)
Theorem conversion_to_integer F `{!ValidFormat F} N a : 1 < N → word (typeWidth F) a → let t := integer_part F a in
  fixuint F N a = Ok (Z.max 0 (Z.min t (2 ^ N - 1))) ∧
  fixint F N a = if Z.abs t <? 2 ^ (N - 1) then Ok t else if 2 ^ N <=? Z.abs t then Ok (if t <? 0 then - 2 ^ (N - 1) else 2 ^ (N - 1) - 1)
                 else if N <=? significandBits F then Ok (signed N (cast N t)) else Fault SignedOverflow.
Proof. intros HN Ha. split; [apply fixuint_spec; (done || lia)|by apply fixint_spec]. Qed.

Lemma conversion_to_integer_witness : fixuint double 32 0x41E0000000000000 = Ok (2 ^ 31) ∧ fixint double 32 0x41E0000000000000 = Ok (- 2 ^ 31).
Proof. destruct (conversion_to_integer double 32 0x41E0000000000000) as [H1 H2]; [lia|unfold word; cbn; lia|]. split; [rewrite H1|rewrite H2]; vm_compute; reflexivity. Defined.

End SoftConvert.
