(* ===== verification/SoftDiv.v ===== *)
(** * SoftDiv: floating-point division

    Models [fp_div_impl.inc] as [divsf3.c] and [divdf3.c] instantiate it: the special cases, the
    approximation of the reciprocal of the divisor by Newton-Raphson iterations, of full width for single
    precision and of half width with one emulated full iteration for double precision, the
    quotient, its residual and the rounding.  The theorems: the error of the reciprocal stays within a bound that
    one correction of the quotient makes up for, the quotient of two finite numbers is the exact
    quotient rounded to nearest even, and special operands give what the standard asks for. *)
From S2P Require Import Prelude Common IntDiv SoftFloat SoftAdd SoftMul.

Module SoftDiv.
Import IntDiv SoftFloat SoftAdd SoftMul.

(** One iteration on words of [W] bits: [x * (2 - x * b)]. *)
Definition newton (W b_UQ1 x_UQ0 : Z) : Z :=
  let corr_UQ1 := cast W (0 - Z.shiftr (x_UQ0 * b_UQ1) W) in
  cast W (Z.shiftr (x_UQ0 * corr_UQ1) (W - 1)).

Section Operations.
Variable F : Format.
Local Abbreviation W := (typeWidth F).

(** The reciprocal of a significand by native full-width iterations. *)
Definition reciprocal_full (iterations : nat) (RECIPROCAL_PRECISION bSignificand : Z) : Z :=
  let b_UQ1 := cast W (Z.shiftl bSignificand (W - significandBits F - 1)) in
  let C := cast W (Z.shiftl 0x7504F333 (W - 32)) in
  let x_UQ0 := cast W (C - b_UQ1) in
  let x_UQ0 := Nat.iter iterations (newton W b_UQ1) x_UQ0 in
  let x_UQ0 := cast W (x_UQ0 - 2) in
  cast W (x_UQ0 - RECIPROCAL_PRECISION).

(** By half-width iterations and one emulated full-width iteration. *)
Definition reciprocal_half (iterations : nat) (RECIPROCAL_PRECISION bSignificand : Z) : Z :=
  let HW := W / 2 in
  let loMask := 2 ^ HW - 1 in
  let b_UQ1 := cast W (Z.shiftl bSignificand (W - significandBits F - 1)) in
  let b_UQ1_hw := cast HW (Z.shiftr bSignificand (significandBits F + 1 - HW)) in
  let C_hw := cast HW (Z.shiftl 0x7504F333 (HW - 32)) in
  let x_UQ0_hw := cast HW (C_hw - b_UQ1_hw) in
  let x_UQ0_hw := Nat.iter iterations (newton HW b_UQ1_hw) x_UQ0_hw in
  let x_UQ0_hw := cast HW (x_UQ0_hw - 1) in
  let blo := Z.land b_UQ1 loMask in
  let corr_UQ1 := cast W (0 - (cast W (x_UQ0_hw * b_UQ1_hw) + Z.shiftr (cast W (x_UQ0_hw * blo)) HW - 1)) in
  let lo_corr := Z.land corr_UQ1 loMask in
  let hi_corr := Z.shiftr corr_UQ1 HW in
  let x_UQ0 := cast W (cast W (Z.shiftl (cast W (x_UQ0_hw * hi_corr)) 1) + Z.shiftr (cast W (x_UQ0_hw * lo_corr)) (HW - 1) - 2) in
  let x_UQ0 := cast W (x_UQ0 - 1) in
  let x_UQ0 := cast W (x_UQ0 - 2) in
  cast W (x_UQ0 - RECIPROCAL_PRECISION).

(** NaN, infinity and zero. *)
Definition div_special (a b quotientSign : Z) : option Z :=
  let aAbs := Z.land a (absMask F) in
  let bAbs := Z.land b (absMask F) in
  if infRep F <? aAbs then Some (Z.lor a (quietBit F))
  else if infRep F <? bAbs then Some (Z.lor b (quietBit F))
  else if aAbs =? infRep F then
    if bAbs =? infRep F then Some (qnanRep F) else Some (Z.lor aAbs quotientSign)
  else if bAbs =? infRep F then Some quotientSign
  else if aAbs =? 0 then
    if bAbs =? 0 then Some (qnanRep F) else Some quotientSign
  else if bAbs =? 0 then Some (Z.lor (infRep F) quotientSign)
  else None.

(** The final rounding. *)
Definition div_round (quotientSign absResult residualLo bSignificand : Z) : Z :=
  let residualLo := cast W (residualLo + Z.land absResult 1) in
  let absResult := cast W (absResult + Z.b2z (bSignificand <? residualLo)) in
  Z.lor absResult quotientSign.

(** Range check and subnormal results. *)
Definition div_pack (quotientSign writtenExponent quotient_UQ1 residualLo aSignificand bSignificand : Z) : result Z :=
  if maxExponent F <=? writtenExponent then Ok (Z.lor (infRep F) quotientSign)
  else if 0 <? writtenExponent then
    e ← shl W writtenExponent (significandBits F);
    residualLo ← shl W residualLo 1;
    Ok (div_round quotientSign (Z.lor (Z.land quotient_UQ1 (significandMask F)) e) residualLo bSignificand)
  else if significandBits F + writtenExponent <? 0 then Ok quotientSign
  else
    absResult ← shr W quotient_UQ1 (- writtenExponent + 1);
    x ← shl W aSignificand (significandBits F + writtenExponent);
    y ← shl W (cast W (absResult * bSignificand)) 1;
    Ok (div_round quotientSign absResult (cast W (x - y)) bSignificand).

Variable wideMultiply : Z → Z → Z * Z.
(** The reciprocal the precision is configured for. *)
Variable reciprocal : Z → Z.

Definition divXf3 (a b : Z) : result Z :=
  let aExponent := Z.land (Z.shiftr a (significandBits F)) (maxExponent F) in
  let bExponent := Z.land (Z.shiftr b (significandBits F)) (maxExponent F) in
  let quotientSign := Z.land (Z.lxor a b) (signBit F) in
  let aSignificand := Z.land a (significandMask F) in
  let bSignificand := Z.land b (significandMask F) in
  let special := (maxExponent F - 1 <=? u32 (aExponent - 1)) || (maxExponent F - 1 <=? u32 (bExponent - 1)) in
  match if special then div_special a b quotientSign else None with
  | Some r => Ok r
  | None =>
      '(aScale, aSignificand) ←
        (if special && (Z.land a (absMask F) <? implicitBit F) then normalize F aSignificand else Ok (0, aSignificand));
      '(bScale, bSignificand) ←
        (if special && (Z.land b (absMask F) <? implicitBit F) then normalize F bSignificand else Ok (0, bSignificand));
      let aSignificand := Z.lor aSignificand (implicitBit F) in
      let bSignificand := Z.lor bSignificand (implicitBit F) in
      let writtenExponent := signed 32 (u32 (aExponent - bExponent + (aScale - bScale) + exponentBias F)) in
      twice_a ← shl W aSignificand 1;
      let '(quotient_UQ1, _) := wideMultiply (reciprocal bSignificand) twice_a in
      two ← shl W (implicitBit F) 1;
      if quotient_UQ1 <? two then
        x ← shl W aSignificand (significandBits F + 1);
        let residualLo := cast W (x - cast W (quotient_UQ1 * bSignificand)) in
        aSignificand ← shl W aSignificand 1;
        div_pack quotientSign (writtenExponent - 1) quotient_UQ1 residualLo aSignificand bSignificand
      else
        let quotient_UQ1 := Z.shiftr quotient_UQ1 1 in
        x ← shl W aSignificand (significandBits F);
        let residualLo := cast W (x - cast W (quotient_UQ1 * bSignificand)) in
        div_pack quotientSign writtenExponent quotient_UQ1 residualLo aSignificand bSignificand
  end.

End Operations.

Definition divsf3 : Z → Z → result Z := divXf3 single wideMultiply32 (reciprocal_full single 3 10).
Definition divdf3 : Z → Z → result Z := divXf3 double wideMultiply64 (reciprocal_half double 3 220).

(** 1 / 3 in both precisions, and the smallest subnormal divided by two is a tie that goes to zero. *)
Example div_examples : divsf3 0x3F800000 0x40400000 = Ok 0x3EAAAAAB ∧ divdf3 0x3FF0000000000000 0x4008000000000000 = Ok 0x3FD5555555555555 ∧ divsf3 1 0x40000000 = Ok 0 ∧ divsf3 3 0x40000000 = Ok 2 ∧ divsf3 0x3F800000 0 = Ok 0x7F800000.
Proof. split_and!; vm_compute; reflexivity. Qed.

(** ** The specification *)
(** [c] is the quotient of [a] and [b], rounded; both count in units of the smallest number, so the quotient counts
    in units [2^(exponentBias + significandBits - 1)] times larger. *)
Definition quotient_rounded (F : Format) (a b c : Z) : Prop :=
  ∃ r, nearest_ratio F (Z.abs (value F a) * 2 ^ (exponentBias F + significandBits F - 1)) (Z.abs (value F b)) r ∧ c = signed_rep F (xorb (negative F a) (negative F b)) r.

(** ** The reciprocal *)
(** With [p = 2^(W-1)], divisors [B] from [p] to [2 * p] stand for numbers from 1 to 2, and [2 * p * p / B] is
    the reciprocal in units of the last place. *)
Section Newton.
Context (p B : Z) (Hp : 4 ≤ p) (HB : p ≤ B < 2 * p).
Local Abbreviation K := (2 * p * p).

(** The error of one exact step: quadratic, but for two truncations. *)
Lemma step_error X : let P := X * B in let c := P / (2 * p) in let Y := X * (2 * p - c) / p in
  B * K * Y = K * K - (P - K) * (P - K) + P * (P mod (2 * p)) - 2 * p * B * ((X * (2 * p - c)) mod p).
Proof using Hp.
  intros P c Y. pose proof (Z.div_mod P (2 * p) ltac:(lia)) as E1. pose proof (Z.div_mod (X * (2 * p - c)) p ltac:(lia)) as E2. fold c in E1. fold Y in E2. set (r1 := P mod (2 * p)) in *. set (r2 := (X * (2 * p - c)) mod p) in *.
  assert (B * K * Y = 2 * p * B * (p * Y)) as -> by ring. assert (p * Y = X * (2 * p - c) - r2) as -> by lia. replace (2 * p * B * (X * (2 * p - c) - r2)) with (P * (2 * p * (2 * p - c)) - 2 * p * B * r2) by (unfold P; ring). replace (2 * p * (2 * p - c)) with (2 * K - P + r1) by lia. ring.
Qed.

Lemma step_bounds u u' X : 0 ≤ X < 2 * p → 0 ≤ u → K - u * B ≤ X * B ≤ K + u * B → u * u ≤ (u' - 1) * p → let Y := X * (2 * p - X * B / (2 * p)) / p in
  K - u' * B ≤ Y * B ≤ K + 2 * B ∧ Y ≤ 2 * p.
Proof using Hp HB.
  intros HX Hu HP Hu' Y. pose proof (step_error X) as E. cbv zeta in E. fold Y in E. pose proof (Z.mod_pos_bound (X * B) (2 * p) ltac:(lia)) as H1. pose proof (Z.mod_pos_bound (X * (2 * p - X * B / (2 * p))) p ltac:(lia)) as H2. set (r1 := (X * B) mod (2 * p)) in *. set (r2 := (X * _) mod p) in *. set (d := X * B - K) in *.
  assert (0 ≤ d * d ≤ (u * B) * (u * B)) as Hd by (split; [apply Z.square_nonneg|]; assert (0 ≤ (u * B - d) * (u * B + d)) by (apply Z.mul_nonneg_nonneg; lia); lia). assert ((u * B) * (u * B) ≤ (u' - 1) * K * B) as Hu2. { assert (u * u * B ≤ (u' - 1) * p * (2 * p)) by (apply Z.mul_le_mono_nonneg; nia). replace ((u * B) * (u * B)) with (u * u * B * B) by ring. replace ((u' - 1) * K * B) with ((u' - 1) * p * (2 * p) * B) by ring. apply Z.mul_le_mono_nonneg_r; lia. }
  assert (0 < 2 * p * B) as HpB by (apply Z.mul_pos_pos; lia). assert (0 ≤ 2 * p * B * r2 ≤ K * B) as Hr2 by (split; [apply Z.mul_nonneg_nonneg; lia|replace (K * B) with (2 * p * B * p) by ring; apply Z.mul_le_mono_nonneg_l; lia]). assert (0 ≤ X * r1 ≤ (2 * p - 1) * (2 * p - 1)) as HXr by (split; [lia|apply Z.mul_le_mono_nonneg; lia]). replace (X * B * r1) with (X * r1 * B) in E by ring. assert (0 ≤ X * r1 * B ≤ (2 * K - 4 * p + 1) * B) as Hr1 by (split; [lia|apply Z.mul_le_mono_nonneg_r; lia]).
  assert (0 < K) as HK by lia. assert (0 ≤ (4 * p - 1) * B) as H4 by (apply Z.mul_nonneg_nonneg; lia). assert (0 < K * (p - 1)) as Hp1 by (apply Z.mul_pos_pos; lia). split; [split|].
  - apply (Z.mul_le_mono_pos_l _ _ K); lia.
  - apply (Z.mul_le_mono_pos_l _ _ K); lia.
  - apply Z.nlt_ge. intros HY. assert (K * ((2 * p + 1) * B) ≤ B * K * Y) as HYB by (replace (B * K * Y) with (K * (Y * B)) by ring; apply Z.mul_le_mono_nonneg_l; [lia|]; apply Z.mul_le_mono_nonneg_r; lia). destruct (decide (B = p)) as [->|HBp].
    + assert (r1 ≤ p) as Hr1p. { unfold r1. rewrite (Z.mul_comm 2 p), (Z.mul_comm X p), Zmult_mod_distr_l. pose proof (Z.mod_pos_bound X 2 ltac:(lia)). nia. } assert (X * r1 * p ≤ (2 * p - 1) * p * p) by (apply Z.mul_le_mono_nonneg_r; [lia|]; apply Z.mul_le_mono_nonneg; lia). lia.
    + assert (K * ((2 * p - 1) * (p + 1)) ≤ K * ((2 * p - 1) * B)) by (apply Z.mul_le_mono_nonneg_l; [lia|]; apply Z.mul_le_mono_nonneg_l; lia). lia.
Qed.

(** The iterate is within [lo] below and [hi] above the reciprocal; or it is [2 * p], which wraps to 0 and stays so. *)
Definition near (lo hi X : Z) : Prop := (0 ≤ X < 2 * p ∧ K - lo * B ≤ X * B ≤ K + hi * B) ∨ (X = 0 ∧ 2 * p * B ≤ K + 2 * B).

Lemma newton_near W u u' X : 1 ≤ W → p = 2 ^ (W - 1) → 0 ≤ u → 2 * u ≤ p → u * u ≤ (u' - 1) * p → near u u X → near u' 2 (newton W B X).
Proof using Hp HB.
  intros HW Ep Hu0 Hu Hu' HX. assert (2 ^ W = 2 * p) as EW by (rewrite Ep, <- Z.pow_succ_r by lia; f_equal; lia). unfold newton. rewrite !Z.shiftr_div_pow2, EW, <- Ep by lia. destruct HX as [[HX HP]|[-> Hw]]; [|right; split; [|done]; by rewrite Z.mul_0_l, Z.div_0_l by lia].
  destruct (step_bounds u u' X HX Hu0 HP Hu') as [HY HY2]. set (c := X * B / (2 * p)) in *. assert (1 ≤ c < 2 * p) as Hc. { assert (u * B ≤ p * p) by (assert (u * B ≤ u * (2 * p)) by (apply Z.mul_le_mono_nonneg_l; lia); assert (2 * u * p ≤ p * p) by (apply Z.mul_le_mono_nonneg_r; lia); lia). assert (4 * p ≤ p * p) by (apply Z.mul_le_mono_nonneg_r; lia). split; [apply Z.div_le_lower_bound; lia|apply Z.div_lt_upper_bound; [lia|]; apply Z.mul_lt_mono_nonneg; lia]. }
  assert (cast W (0 - c) = 2 * p - c) as ->. { unfold cast. rewrite EW. destruct (div_unique (0 - c) (2 * p) (-1) (2 * p - c)) as [_ ->]; lia. } assert (0 ≤ X * (2 * p - c) / p) by (apply Z.div_pos; [apply Z.mul_nonneg_nonneg; lia|lia]). set (Y := X * (2 * p - c) / p) in *. destruct (decide (Y = 2 * p)) as [EY|]; [|left; rewrite cast_id by lia; lia].
  right. rewrite EY in *. split; [|lia]. unfold cast. rewrite EW. apply Z.mod_same. lia.
Qed.

Lemma near_weaken lo hi hi' X : hi ≤ hi' → near lo hi X → near lo hi' X.
Proof using Hp HB. intros Hle [[HX HP]|H]; [|by right]. left. split; [done|]. assert (hi * B ≤ hi' * B) by (apply Z.mul_le_mono_nonneg_r; lia). lia. Qed.

Lemma near_value lo X : 0 ≤ lo → near lo 2 X → ∃ Y, X = Y mod (2 * p) ∧ K - lo * B ≤ Y * B ≤ K + 2 * B ∧ Y ≤ 2 * p ∧ p ≤ Y + lo.
Proof using Hp HB.
  intros Hlo H. assert (∀ Y, K - lo * B ≤ Y * B → p ≤ Y + lo) as Hlow. { intros Y HY. apply Z.nlt_ge. intros Hlt. assert ((Y + lo) * B ≤ (p - 1) * B) by (apply Z.mul_le_mono_nonneg_r; lia). assert ((p - 1) * B ≤ (p - 1) * (2 * p)) by (apply Z.mul_le_mono_nonneg_l; lia). lia. }
  destruct H as [[HX HP]|[-> HP]]; [exists X; rewrite Z.mod_small by lia; split_and!; try done; try lia; apply Hlow; lia|]. exists (2 * p). assert (K - lo * B ≤ 2 * p * B) by (assert (2 * p * p ≤ 2 * p * B) by (apply Z.mul_le_mono_nonneg_l; lia); nia). rewrite Z.mod_same by lia. split_and!; try done; try lia; by apply Hlow.
Qed.

End Newton.

(** Three iterations from the linear estimate, on 32-bit words. *)
Lemma newton_32 B : 2 ^ 31 ≤ B < 2 * 2 ^ 31 → near (2 ^ 31) B 8 2 (Nat.iter 3 (newton 32 B) (u32 (0x7504F333 - B))).
Proof.
  intros HB. assert (near (2 ^ 31) B 184224974 184224974 (u32 (0x7504F333 - B))) as H0.
  { assert (u32 (0x7504F333 - B) = 0x7504F333 + 2 ^ 32 - B) as -> by (unfold cast; destruct (div_unique (0x7504F333 - B) (2 ^ 32) (-1) (0x7504F333 + 2 ^ 32 - B)) as [_ ->]; lia). left. split; [lia|]. assert (0 ≤ (B - 2 ^ 31) * (2 ^ 32 - B)) by (apply Z.mul_nonneg_nonneg; lia). pose proof (Z.square_nonneg (2 * B - (0x7504F333 + 2 ^ 32 - 184224974))). lia. }
  apply (newton_near (2 ^ 31) B ltac:(lia) HB 32 _ 15804006) in H0; [|lia..]. apply (near_weaken (2 ^ 31) B ltac:(lia) HB _ _ 15804006) in H0; [|lia]. apply (newton_near (2 ^ 31) B ltac:(lia) HB 32 _ 116308) in H0; [|lia..]. apply (near_weaken (2 ^ 31) B ltac:(lia) HB _ _ 116308) in H0; [|lia]. apply (newton_near (2 ^ 31) B ltac:(lia) HB 32 _ 8) in H0; [|lia..]. exact H0.
Qed.

(** What the division needs of the reciprocal: it is below the exact one, and near enough that the quotient
    is at most one and two fifths too small. *)
Class Reciprocal (F : Format) (reciprocal : Z → Z) : Prop := {
  rc_bound : ∃ E, 5 * (2 ^ (significandBits F + 2) * E) ≤ 2 * 2 ^ typeWidth F ∧
    ∀ S, implicitBit F ≤ S < 2 * implicitBit F → let X := reciprocal S in
      0 ≤ X < 2 ^ typeWidth F ∧ X * S < 2 ^ (typeWidth F + significandBits F) ≤ (X + E) * S
}.

Lemma cast_sub w x a b : cast w (cast w (x - a) - b) = cast w (x - (a + b)).
Proof. unfold cast. rewrite Zminus_mod_idemp_l. f_equal. lia. Qed.

Lemma cast_mod_sub w x a : cast w (x mod 2 ^ w - a) = cast w (x - a).
Proof. unfold cast. by rewrite Zminus_mod_idemp_l. Qed.

Lemma single_error S : implicitBit single ≤ S < 2 * implicitBit single → let X := reciprocal_full single 3 10 S in 0 ≤ X < 2 ^ 32 ∧ X * S < 2 ^ 55 ≤ (X + 20) * S.
Proof.
  intros HS. cbn [significandBits single] in HS. unfold reciprocal_full. cbn [typeWidth significandBits single]. change (32 - 23 - 1) with 8. rewrite Z.shiftl_mul_pow2, (cast_id 32 (S * 2 ^ 8)) by lia. change (u32 (Z.shiftl 0x7504F333 (32 - 32))) with 0x7504F333. set (B := S * 2 ^ 8).
  destruct (near_value (2 ^ 31) B ltac:(lia) ltac:(lia) 8 _ ltac:(lia) (newton_32 B ltac:(lia))) as (Y & -> & HY & HY2 & HY3). cbv zeta. rewrite cast_sub. change (2 * 2 ^ 31) with (2 ^ 32) in *. rewrite cast_mod_sub, cast_id by lia. split; [lia|]. unfold B in *. lia.
Qed.

(** The emulated full-width iteration: as [step_error], with a correction that is one unit larger. *)
Lemma emulated_error B X : let P := X * B in let corr := 2 ^ 64 - P / 2 ^ 32 + 1 in let Z := X * corr / 2 ^ 31 in
  B * 2 ^ 63 * Z = 2 ^ 190 - (P - 2 ^ 95) * (P - 2 ^ 95) + X * (P mod 2 ^ 32 + 2 ^ 32) * B - 2 ^ 32 * B * ((X * corr) mod 2 ^ 31).
Proof.
  intros P corr Z. pose proof (Z.div_mod P (2 ^ 32) ltac:(done)) as E1. pose proof (Z.div_mod (X * corr) (2 ^ 31) ltac:(done)) as E2. fold Z in E2. set (r1 := P mod 2 ^ 32) in *. set (r2 := (X * corr) mod 2 ^ 31) in *. assert (2 ^ 32 * corr = 2 ^ 96 - P + r1 + 2 ^ 32) as E3 by (unfold corr; lia).
  assert (B * 2 ^ 63 * Z = 2 ^ 32 * B * (X * corr - r2)) as -> by (rewrite E2; ring). replace (2 ^ 32 * B * (X * corr - r2)) with (P * (2 ^ 32 * corr) - 2 ^ 32 * B * r2) by (unfold P; ring). rewrite E3. unfold P. ring.
Qed.

Lemma emulated_bounds b blo X : 2 ^ 31 ≤ b < 2 ^ 32 → 0 ≤ blo < 2 ^ 32 → 0 ≤ X < 2 ^ 32 → 2 ^ 63 - 9 * b ≤ X * b ≤ 2 ^ 63 + b → let B := b * 2 ^ 32 + blo in let G := X * B / 2 ^ 32 in let Z := X * (2 ^ 64 - G + 1) / 2 ^ 31 in
  2 ≤ G ≤ 2 ^ 64 ∧ 2 ^ 127 - 163 * B ≤ Z * B ∧ Z * B < 2 ^ 127 + 4 * B.
Proof.
  intros Hb Hlo HX HP B G Z. assert (0 ≤ X * blo ≤ 2 ^ 64) as HXl by (split; [lia|]; change (2 ^ 64) with (2 ^ 32 * 2 ^ 32); apply Z.mul_le_mono_nonneg; lia). assert (2 ^ 63 ≤ B < 2 ^ 64) as HB by (unfold B; lia). assert (2 ^ 95 - 9 * B ≤ X * B ≤ 2 ^ 95 + 3 * B) as HPB by (unfold B in *; lia).
  split. { assert (X * B ≤ 2 ^ 32 * 2 ^ 64) by (apply Z.mul_le_mono_nonneg; lia). split; [apply Z.div_le_lower_bound; lia|apply Z.div_le_upper_bound; lia]. }
  pose proof (emulated_error B X) as E. cbv zeta in E. fold G in E. fold Z in E. pose proof (Z.mod_pos_bound (X * B) (2 ^ 32) ltac:(done)) as H1. pose proof (Z.mod_pos_bound (X * (2 ^ 64 - G + 1)) (2 ^ 31) ltac:(done)) as H2. set (r1 := (X * B) mod 2 ^ 32) in *. set (r2 := (X * _) mod 2 ^ 31) in *. set (d := X * B - 2 ^ 95) in *. clearbody Z r1 r2.
  assert (0 ≤ d * d ≤ 9 * B * (9 * B)) as Hd by (split; [apply Z.square_nonneg|]; assert (0 ≤ (9 * B - d) * (9 * B + d)) by (apply Z.mul_nonneg_nonneg; lia); lia). assert (B * B ≤ 2 ^ 64 * B) by (apply Z.mul_le_mono_nonneg_r; lia). assert (0 ≤ B * r2 ≤ B * 2 ^ 31) by (split; [lia|apply Z.mul_le_mono_nonneg_l; lia]). assert (0 ≤ X * (r1 + 2 ^ 32) < 2 ^ 32 * 2 ^ 33) as HXr by (split; [lia|apply Z.mul_lt_mono_nonneg; lia]). assert (X * (r1 + 2 ^ 32) * B < 2 ^ 32 * 2 ^ 33 * B) by (apply Z.mul_lt_mono_pos_r; lia). assert (0 ≤ X * (r1 + 2 ^ 32) * B) by (apply Z.mul_nonneg_nonneg; lia). lia.
Qed.

Lemma emulated_value b blo X : 2 ^ 31 ≤ b < 2 ^ 32 → 0 ≤ blo < 2 ^ 32 → 0 ≤ X < 2 ^ 32 → let G := X * (b * 2 ^ 32 + blo) / 2 ^ 32 in 2 ≤ G ≤ 2 ^ 64 →
  let corr := u64 (0 - (u64 (X * b) + Z.shiftr (u64 (X * blo)) 32 - 1)) in
  u64 (u64 (Z.shiftl (u64 (X * Z.shiftr corr 32)) 1) + Z.shiftr (u64 (X * Z.land corr (2 ^ 32 - 1))) 31 - 2) = u64 (X * (2 ^ 64 - G + 1) / 2 ^ 31 - 2).
Proof.
  intros Hb Hlo HX G HG corr. assert (∀ x, 0 ≤ x < 2 ^ 32 → 0 ≤ X * x < 2 ^ 64) as Hm by (intros x Hx; split; [lia|]; change (2 ^ 64) with (2 ^ 32 * 2 ^ 32); apply Z.mul_lt_mono_nonneg; lia). assert (corr = 2 ^ 64 - G + 1) as ->.
  { unfold corr. rewrite (cast_id 64 (X * b)), (cast_id 64 (X * blo)), Z.shiftr_div_pow2 by (apply Hm || lia; lia). assert (X * b + X * blo / 2 ^ 32 = G) as -> by (unfold G; rewrite <- Z.div_add_l by done; f_equal; ring). unfold cast. destruct (div_unique (0 - (G - 1)) (2 ^ 64) (-1) (2 ^ 64 - G + 1)) as [_ ->]; lia. }
  set (c := 2 ^ 64 - G + 1). assert (0 ≤ c < 2 ^ 64) as Hc by (unfold c; lia). clearbody c. change (2 ^ 32 - 1) with (Z.ones 32). rewrite Z.land_ones, Z.shiftl_mul_pow2, !Z.shiftr_div_pow2 by lia. pose proof (Z.div_mod c (2 ^ 32) ltac:(done)) as Ec. pose proof (Z.mod_pos_bound c (2 ^ 32) ltac:(done)) as Hcm. assert (0 ≤ c / 2 ^ 32 < 2 ^ 32) as Hcd by (split; [apply Z.div_pos; lia|apply Z.div_lt_upper_bound; lia]). rewrite (cast_id 64 (X * (c / _))), (cast_id 64 (X * (c mod _))) by by apply Hm.
  assert (X * c / 2 ^ 31 = X * (c / 2 ^ 32) * 2 ^ 1 + X * (c mod 2 ^ 32) / 2 ^ 31) as ->. { rewrite <- Z.div_add_l by done. f_equal. rewrite Ec at 1. ring. } unfold cast. replace (X * (c / 2 ^ 32) * 2 ^ 1 + X * (c mod 2 ^ 32) / 2 ^ 31 - 2) with (X * (c / 2 ^ 32) * 2 ^ 1 + (X * (c mod 2 ^ 32) / 2 ^ 31 - 2)) by ring. rewrite <- Zplus_mod_idemp_l. f_equal. ring.
Qed.

Lemma double_error S : implicitBit double ≤ S < 2 * implicitBit double → let X := reciprocal_half double 3 220 S in 0 ≤ X < 2 ^ 64 ∧ X * S < 2 ^ 116 ≤ (X + 388) * S.
Proof.
  intros HS. cbn [significandBits double] in HS. unfold reciprocal_half. cbn [typeWidth significandBits double]. change (64 / 2) with 32. change (64 - 52 - 1) with 11. change (52 + 1 - 32) with 21. change (32 - 1) with 31. change (u32 (Z.shiftl 0x7504F333 (32 - 32))) with 0x7504F333. rewrite (Z.shiftl_mul_pow2 S), (cast_id 64 (S * 2 ^ 11)) by lia.
  pose proof (Z.div_mod S (2 ^ 21) ltac:(done)) as ES. pose proof (Z.mod_pos_bound S (2 ^ 21) ltac:(done)) as HSm. rewrite (Z.shiftr_div_pow2 S) by lia. set (b := S / 2 ^ 21) in *. set (blo := S mod 2 ^ 21 * 2 ^ 11). assert (2 ^ 31 ≤ b < 2 ^ 32) as Hb by lia. rewrite (cast_id 32 b) by lia. assert (Z.land (S * 2 ^ 11) (2 ^ 32 - 1) = blo) as ->.
  { change (2 ^ 32 - 1) with (Z.ones 32). rewrite Z.land_ones by lia. destruct (div_unique (S * 2 ^ 11) (2 ^ 32) b blo) as [_ ->]; unfold blo; lia. }
  assert (S * 2 ^ 11 = b * 2 ^ 32 + blo) as EB by (unfold blo; lia). assert (0 ≤ blo < 2 ^ 32) as Hlo by (unfold blo; lia). clearbody b blo.
  destruct (near_value (2 ^ 31) b ltac:(lia) ltac:(lia) 8 _ ltac:(lia) (newton_32 b ltac:(lia))) as (Y & -> & HY & HY2 & HY3). change (2 * 2 ^ 31) with (2 ^ 32) in *. rewrite cast_mod_sub, (cast_id 32 (Y - 1)) by lia. set (X := Y - 1). assert (0 ≤ X < 2 ^ 32) as HX by lia.
  destruct (emulated_bounds b blo X Hb Hlo HX) as (HG & Hl & Hu); [unfold X; lia|]. cbv zeta. rewrite (emulated_value b blo X Hb Hlo HX HG). rewrite <- EB in *. set (Z := X * (_ - _ + 1) / 2 ^ 31) in *. clearbody Z. rewrite !cast_sub. assert (225 ≤ Z) by (apply Z.nlt_ge; intros Hlt; assert (Z * (S * 2 ^ 11) ≤ 224 * (S * 2 ^ 11)) by (apply Z.mul_le_mono_nonneg_r; lia); lia). assert (Z ≤ 2 ^ 64 + 4) by (apply Z.nlt_ge; intros Hlt; assert ((2 ^ 64 + 5) * (S * 2 ^ 11) ≤ Z * (S * 2 ^ 11)) by (apply Z.mul_le_mono_nonneg_r; lia); lia). rewrite cast_id by lia. lia.
Qed.

#[export] Instance single_reciprocal : Reciprocal single (reciprocal_full single 3 10).
Proof. split. exists 20. split; [done|apply single_error]. Qed.

#[export] Instance double_reciprocal : Reciprocal double (reciprocal_half double 3 220).
Proof. split. exists 388. split; [done|apply double_error]. Qed.

(** ** The quotient *)
Section Division.
Context {F : Format} {V : ValidFormat F}.
Local Abbreviation m := (significandBits F).
Local Abbreviation w := (typeWidth F).

(** The quotient is at most one and two fifths below [A * 2^(m+1) / S]. *)
Lemma quotient_bounds reciprocal `{!Reciprocal F reciprocal} A S : 2 ^ m ≤ A < 2 * 2 ^ m → 2 ^ m ≤ S < 2 * 2 ^ m → let N := A * (2 * 2 ^ m) in let Q := reciprocal S * (2 * A) / 2 ^ w in
  word w (reciprocal S) ∧ Q * S ≤ N ∧ 5 * N < (5 * Q + 7) * S ∧ 2 ^ m ≤ Q < 4 * 2 ^ m.
Proof using V.
  intros HA HS N Q. destruct (rc_bound (F := F)) as (E & HE & HR). destruct (HR S HS) as (HX & Hlt & Hge). cbv zeta in Hlt, Hge. set (X := reciprocal S) in *. pose proof (implicit_pos (F := F)) as Hp. assert (0 ≤ m ∧ 0 ≤ w) as [Hm Hw] by (destruct V; lia). rewrite Z.pow_add_r in Hlt, Hge, HE by lia. change (2 ^ 2) with 4 in HE. set (i := 2 ^ m) in *. set (t := 2 ^ w) in *. assert (0 < t) as Ht by lia.
  pose proof (Z.div_mod (X * (2 * A)) t ltac:(lia)) as EQ. pose proof (Z.mod_pos_bound (X * (2 * A)) t Ht) as HQ. fold Q in EQ. set (r := (X * (2 * A)) mod t) in *. assert (0 < E) as HE0 by (apply Z.nle_gt; intros H; assert (E * S ≤ 0) by (apply Z.mul_nonpos_nonneg; lia); lia).
  assert (Q * S ≤ N) as H1. { apply (Z.mul_le_mono_pos_l _ _ t); [done|]. assert (2 * A * (X * S) ≤ 2 * A * (t * i)) by (apply Z.mul_le_mono_nonneg_l; lia). assert (0 ≤ r * S) by (apply Z.mul_nonneg_nonneg; lia). assert (t * Q * S = X * (2 * A) * S - r * S) by (rewrite EQ; ring). unfold N. lia. }
  assert (5 * N < (5 * Q + 7) * S) as H2. { apply (Z.mul_lt_mono_pos_l t); [done|]. assert (2 * A * (t * i) ≤ 2 * A * ((X + E) * S)) by (apply Z.mul_le_mono_nonneg_l; lia). assert (5 * (2 * A * E) ≤ 2 * t) by (assert (2 * A * E ≤ i * 4 * E) by (apply Z.mul_le_mono_nonneg_r; lia); lia). assert (5 * (2 * A * E) * S ≤ 2 * t * S) by (apply Z.mul_le_mono_nonneg_r; lia). assert (r * S < t * S) by (apply Z.mul_lt_mono_pos_r; lia). assert (X * (2 * A) * S = t * Q * S + r * S) by (rewrite EQ; ring). unfold N. lia. }
  split; [exact HX|]. split; [done|]. split; [done|]. unfold N in *. split.
  - apply Z.nlt_ge. intros H. assert ((5 * Q + 7) * S ≤ (5 * i + 2) * S) by (apply Z.mul_le_mono_nonneg_r; lia). assert ((5 * i + 2) * S ≤ (5 * i + 2) * (2 * i - 1)) by (apply Z.mul_le_mono_nonneg_l; lia). assert (i * (2 * i) ≤ A * (2 * i)) by (apply Z.mul_le_mono_nonneg_r; lia). lia.
  - apply Z.nle_gt. intros H. assert (4 * i * i ≤ Q * S) by (apply Z.mul_le_mono_nonneg; lia). assert (A * (2 * i) < 2 * i * (2 * i)) by (apply Z.mul_lt_mono_pos_r; lia). lia.
Qed.

(** Rounding a quotient that may be one too small. *)
Lemma off_by_one X D e q : 0 < D → 1 ≤ e < maxExponent F → 0 ≤ q < 2 * 2 ^ m → (e = 1 ∨ 2 ^ m ≤ q) → let U := 2 ^ (e - 1) * D in q * U ≤ X → 5 * X < (5 * q + 7) * U → X ≤ 2 * 2 ^ m * U →
  let inc := Z.b2z ((U <? 2 * (X - q * U)) || ((U =? 2 * (X - q * U)) && Z.odd q)) in (e - 1) * 2 ^ m + (q + inc) ≤ infRep F ∧ nearest_ratio F X D ((e - 1) * 2 ^ m + (q + inc)).
Proof using V.
  intros HD He Hq Hor U Hlo Hhi Htop inc. destruct (infRep_eq (F := F)) as [Ei _]. pose proof (implicit_pos (F := F)) as Hp. assert (0 < U) as HU by (apply Z.mul_pos_pos; lia). assert (0 ≤ inc ≤ 1) as Hinc by (unfold inc; destruct (_ || _); cbn [Z.b2z]; lia). assert ((e - 1) * 2 ^ m + 2 * 2 ^ m ≤ infRep F) as Hinf by (rewrite Ei; replace ((e - 1) * 2 ^ m + 2 * 2 ^ m) with ((e + 1) * 2 ^ m) by ring; apply Z.mul_le_mono_nonneg_r; lia). split; [lia|].
  destruct (Z.lt_ge_cases X ((q + 1) * U)) as [Hlt|Hge]; [by apply (round_ratio X D e q)|]. assert (inc = 1) as -> by (unfold inc; rewrite (proj2 (Z.ltb_lt U _)) by lia; done). destruct (Z.lt_ge_cases (q + 1) (2 * 2 ^ m)) as [Hq1|Hq1].
  - apply (round_ratio X D e (q + 1)); [done|done|lia|lia|fold U; lia|fold U]. rewrite (proj2 (Z.ltb_ge U _)), (proj2 (Z.eqb_neq U _)) by lia. cbn [orb andb Z.b2z]. lia.
  - assert (q + 1 = 2 * 2 ^ m) as E by lia. rewrite E in *. assert (X = mag F ((e - 1) * 2 ^ m + 2 * 2 ^ m) * D) as -> by (rewrite mag_index by lia; unfold U in *; lia). apply ratio_exact; [done|]. assert (0 ≤ (e - 1) * 2 ^ m) by (apply Z.mul_nonneg_nonneg; lia). lia.
Qed.

(** The comparison of the residual with the divisor decides the rounding. *)
Lemma div_round_spec neg e q S R c X : 1 ≤ e → 0 ≤ q → 0 < c → 0 ≤ R < 2 ^ w - 1 → let U := c * S in c * R = 2 * (X - q * U) → let inc := Z.b2z ((U <? 2 * (X - q * U)) || ((U =? 2 * (X - q * U)) && Z.odd q)) in
  (e - 1) * 2 ^ m + (q + inc) ≤ infRep F → div_round F (signed_rep F neg 0) ((e - 1) * 2 ^ m + q) R S = signed_rep F neg ((e - 1) * 2 ^ m + (q + inc)).
Proof using V.
  intros He Hq Hc HR U E inc Hinc. destruct (infRep_eq (F := F)) as [_ Ei]. pose proof (implicit_pos (F := F)). assert (0 ≤ (e - 1) * 2 ^ m) by (apply Z.mul_nonneg_nonneg; lia). unfold div_round. rewrite land_1, Z.odd_add, Z.odd_mul, (Z.odd_pow 2 m), andb_false_r, xorb_false_l by (destruct V; lia).
  assert (0 ≤ Z.b2z (Z.odd q) ≤ 1) by (destruct (Z.odd q); cbn; lia). rewrite (cast_id w (R + _)) by lia. assert (Z.b2z (S <? R + Z.b2z (Z.odd q)) = inc) as ->.
  { unfold inc. f_equal. rewrite <- E. unfold U. apply Bool.eq_iff_eq_true. rewrite orb_true_iff, andb_true_iff, !Z.ltb_lt, Z.eqb_eq. rewrite <- Z.mul_lt_mono_pos_l, Z.mul_cancel_l by lia. destruct (Z.odd q); cbn [Z.b2z]; split; intros; try lia; by destruct_or?; destruct_and?. }
  assert (0 ≤ inc) by (unfold inc; destruct (_ || _); cbn; lia). assert (2 ^ (w - 1) ≤ 2 ^ w) by (apply Z.pow_le_mono_r; lia). rewrite <- Z.add_assoc, cast_id by lia. apply lor_sign. lia.
Qed.

Section Pack.
Context (neg : bool) (q A S : Z) (HA : 0 < A < 4 * 2 ^ m) (HS : 2 ^ m ≤ S < 2 * 2 ^ m) (Hq : 2 ^ m ≤ q < 2 * 2 ^ m).
Local Abbreviation N := (A * 2 ^ m).
Context (Hlo : q * S ≤ N) (Hhi : 5 * N < (5 * q + 7) * S) (Htop : N ≤ 2 * 2 ^ m * S).

Lemma widths : 2 ≤ m ∧ m + 5 ≤ w ∧ 32 * 2 ^ m ≤ 2 ^ w ∧ 2 ^ w = 2 * 2 ^ (w - 1).
Proof using V. clear HA HS Hq Hlo Hhi Htop. assert (2 ≤ m ∧ m + 5 ≤ w) as [H1 H2] by (destruct V; lia). split_and!; [done|done| |apply pow2_half; lia]. change 32 with (2 ^ 5). rewrite <- Z.pow_add_r by lia. apply Z.pow_le_mono_r; lia. Qed.

Lemma pack_normal e : 1 ≤ e < maxExponent F → ∃ r, div_pack F (signed_rep F neg 0) e q (N - q * S) A S = Ok (signed_rep F neg r) ∧ nearest_ratio F (N * 2 ^ (e - 1)) S r.
Proof using V HA HS Hq Hlo Hhi Htop.
  intros He. destruct (infRep_eq (F := F)) as [Ei1 Ei2]. pose proof (implicit_pos (F := F)) as Hp. destruct widths as (Hm & Hmw & H32 & Ew). unfold div_pack. rewrite (proj2 (Z.leb_gt _ e)), (proj2 (Z.ltb_lt 0 e)) by lia. assert (0 ≤ e * 2 ^ m ≤ infRep F) as Heb by (rewrite Ei1; split; [apply Z.mul_nonneg_nonneg; lia|apply Z.mul_le_mono_nonneg_r; lia]). rewrite !shl_ok by lia. cbn [mbind result_bind]. rewrite !Z.shiftl_mul_pow2 by lia. rewrite (cast_id w (e * _)), (cast_id w (_ * 2 ^ 1)) by lia.
  assert (Z.lor (Z.land q (significandMask F)) (e * 2 ^ m) = (e - 1) * 2 ^ m + q) as ->. { replace (2 ^ m - 1) with (Z.ones m) by (rewrite Z.ones_equiv; lia). rewrite Z.land_ones by lia. destruct (div_unique q (2 ^ m) 1 (q - 2 ^ m)) as [_ ->]; [lia|lia|]. rewrite lor_shift_add by lia. lia. }
  assert (0 < 2 ^ (e - 1)) as Hc by (apply Z.pow_pos_nonneg; lia). destruct (off_by_one (N * 2 ^ (e - 1)) S e q) as [Hinf Hn]; [lia|done|lia|lia|replace (q * (2 ^ (e - 1) * S)) with (q * S * 2 ^ (e - 1)) by ring; apply Z.mul_le_mono_nonneg_r; lia|replace (5 * (N * 2 ^ (e - 1))) with (5 * N * 2 ^ (e - 1)) by ring; replace ((5 * q + 7) * (2 ^ (e - 1) * S)) with ((5 * q + 7) * S * 2 ^ (e - 1)) by ring; apply Z.mul_lt_mono_pos_r; lia|replace (2 * 2 ^ m * (2 ^ (e - 1) * S)) with (2 * 2 ^ m * S * 2 ^ (e - 1)) by ring; apply Z.mul_le_mono_nonneg_r; lia|].
  eexists. split; [|exact Hn]. f_equal. apply (div_round_spec neg e q S _ (2 ^ (e - 1)) (N * 2 ^ (e - 1))); [lia|lia|done|lia|ring|done].
Qed.

Lemma pack_subnormal e : e ≤ 0 → ∃ r, div_pack F (signed_rep F neg 0) e q (N - q * S) A S = Ok (signed_rep F neg r) ∧ nearest_ratio F N (S * 2 ^ (1 - e)) r.
Proof using V HA HS Hq Hlo Hhi Htop.
  intros He. destruct (infRep_eq (F := F)) as [Ei1 Ei2]. pose proof (implicit_pos (F := F)) as Hp. destruct widths as (Hm & Hmw & H32 & Ew). assert (8 ≤ 2 ^ exponentBits F) by (destruct V; change 8 with (2 ^ 3); apply Z.pow_le_mono_r; lia). unfold div_pack. rewrite (proj2 (Z.leb_gt _ e)), (proj2 (Z.ltb_ge 0 e)) by lia. set (k := 1 - e). assert (0 < 2 ^ k) as Hk by (apply Z.pow_pos_nonneg; lia). destruct (Z.ltb_spec (m + e) 0) as [Hu|Hu].
  - exists 0. split; [done|]. assert (4 * 2 ^ m ≤ 2 ^ k) as Hk4 by (change 4 with (2 ^ 2); rewrite <- Z.pow_add_r by lia; apply Z.pow_le_mono_r; lia). assert (S * (4 * 2 ^ m) ≤ S * 2 ^ k) by (apply Z.mul_le_mono_nonneg_l; lia). assert (0 < S * 2 ^ k) by (apply Z.mul_pos_pos; lia). apply (round_ratio N (S * 2 ^ k) 1 0); [done|lia|lia|by left|rewrite Z.mul_1_l; assert (0 ≤ N) by lia; lia|]. change (2 ^ (1 - 1)) with 1. rewrite (proj2 (Z.ltb_ge _ _)) by lia. by rewrite andb_false_r.
  - replace (- e + 1) with k by lia. rewrite shr_ok by lia. cbn [mbind result_bind]. rewrite Z.shiftr_div_pow2 by lia. pose proof (Z.div_mod q (2 ^ k) ltac:(lia)) as Eq. pose proof (Z.mod_pos_bound q (2 ^ k) Hk) as Hr. assert (0 ≤ q / 2 ^ k ≤ q) as Ha by (split; [apply Z.div_pos; lia|apply Z.div_le_upper_bound; nia]). assert (2 ≤ 2 ^ k) as Hk2 by (change 2 with (2 ^ 1) at 1; apply Z.pow_le_mono_r; lia). set (a := q / 2 ^ k) in *. set (r := q mod 2 ^ k) in *. clearbody a r. rewrite !shl_ok by lia. cbn [mbind result_bind]. rewrite !Z.shiftl_mul_pow2 by lia.
    set (R := A * 2 ^ (m + e) - a * S * 2). assert (2 ^ k * R = 2 * (N - a * (2 ^ k * S))) as ER. { unfold R. replace (2 ^ k * (A * 2 ^ (m + e) - a * S * 2)) with (A * (2 ^ k * 2 ^ (m + e)) - a * 2 ^ k * S * 2) by ring. rewrite <- Z.pow_add_r by lia. replace (k + (m + e)) with (Z.succ m) by lia. rewrite Z.pow_succ_r by lia. ring. }
    assert (a * (2 ^ k * S) ≤ N) as H1 by (assert (0 ≤ r * S) by (apply Z.mul_nonneg_nonneg; lia); assert (q * S = a * (2 ^ k * S) + r * S) by (rewrite Eq; ring); lia). assert (5 * N < (5 * a + 7) * (2 ^ k * S)) as H2. { assert ((5 * q + 7) * S ≤ (5 * a + 7) * 2 ^ k * S) by (apply Z.mul_le_mono_nonneg_r; lia). lia. }
    assert (0 ≤ R) as HR0 by (apply (Z.mul_le_mono_pos_l _ _ (2 ^ k)); lia). assert (R < 3 * S) as HR1 by (apply (Z.mul_lt_mono_pos_l (2 ^ k)); lia). assert (cast w (cast w (A * 2 ^ (m + e)) - cast w (cast w (a * S) * 2 ^ 1)) = R) as ->. { unfold cast. rewrite Zmult_mod_idemp_l, Zminus_mod_idemp_l, Zminus_mod_idemp_r. apply Z.mod_small. unfold R in *. lia. }
    assert (2 * 2 ^ m * S ≤ 2 * 2 ^ m * (2 ^ k * S)) as H3 by (apply Z.mul_le_mono_nonneg_l; [lia|]; assert (1 * S ≤ 2 ^ k * S) by (apply Z.mul_le_mono_nonneg_r; lia); lia). destruct (off_by_one N (S * 2 ^ k) 1 a) as [Hinf Hn]; [apply Z.mul_pos_pos; lia|lia|lia|by left|rewrite Z.mul_1_l, (Z.mul_comm S); lia..|]. eexists. split; [|exact Hn]. f_equal. change (2 ^ (1 - 1)) with 1 in *. rewrite Z.mul_1_l, (Z.mul_comm S) in *. apply (div_round_spec neg 1 a S R (2 ^ k) N); done || lia.
Qed.

End Pack.

(** A quotient is proportional to the one of the significands. *)
Definition scaled_quotient (A S e : Z) (r : Z) : Prop := nearest_ratio F (A * 2 ^ m * 2 ^ Z.max 0 (e - 1)) (S * 2 ^ Z.max 0 (1 - e)) r.

Lemma div_pack_spec neg q A S e : 0 < A < 4 * 2 ^ m → 2 ^ m ≤ S < 2 * 2 ^ m → 2 ^ m ≤ q < 2 * 2 ^ m → q * S ≤ A * 2 ^ m → 5 * (A * 2 ^ m) < (5 * q + 7) * S → A * 2 ^ m ≤ 2 * 2 ^ m * S →
  ∃ r, div_pack F (signed_rep F neg 0) e q (A * 2 ^ m - q * S) A S = Ok (signed_rep F neg r) ∧ scaled_quotient A S e r.
Proof using V.
  intros HA HS Hq Hlo Hhi Htop. unfold scaled_quotient. destruct (Z.le_gt_cases e 0) as [He|He]; [rewrite Z.max_l, Z.max_r by lia; change (2 ^ 0) with 1; rewrite Z.mul_1_r; by apply pack_subnormal|]. rewrite Z.max_r, Z.max_l by lia. change (2 ^ 0) with 1. rewrite Z.mul_1_r. destruct (Z.lt_ge_cases e (maxExponent F)); [apply pack_normal; done || lia|].
  pose proof (implicit_pos (F := F)). destruct (infRep_eq (F := F)) as [Ei1 Ei2]. destruct (bias_eq (F := F)). exists (infRep F). unfold div_pack. rewrite (proj2 (Z.leb_le _ e)) by lia. split; [f_equal; apply lor_sign; split; [rewrite Ei1; apply Z.mul_nonneg_nonneg; lia|lia]|]. apply overflow_ratio; [lia|]. assert (2 ^ (maxExponent F - 1) ≤ 2 ^ (e - 1)) by (apply Z.pow_le_mono_r; lia). replace (2 ^ m * 2 ^ (maxExponent F - 1) * S) with (2 ^ m * S * 2 ^ (maxExponent F - 1)) by ring. apply Z.mul_le_mono_nonneg; [lia| |lia|done]. assert (2 ^ m * S ≤ q * S) by (apply Z.mul_le_mono_nonneg_r; lia). lia.
Qed.

Lemma half_quotient A S e r : 0 < S → scaled_quotient (2 * A) S (e - 1) r → scaled_quotient A S e r.
Proof using V.
  intros HS. unfold scaled_quotient. assert (0 ≤ m) by (destruct V; lia). apply ratio_proportional; [apply Z.mul_pos_pos; [done|apply Z.pow_pos_nonneg; lia]..|].
  replace (2 * A * 2 ^ m * 2 ^ Z.max 0 (e - 1 - 1) * (S * 2 ^ Z.max 0 (1 - e))) with (A * S * 2 ^ m * (2 ^ 1 * 2 ^ Z.max 0 (e - 1 - 1) * 2 ^ Z.max 0 (1 - e))) by (change (2 ^ 1) with 2; ring). replace (A * 2 ^ m * 2 ^ Z.max 0 (e - 1) * (S * 2 ^ Z.max 0 (1 - (e - 1)))) with (A * S * 2 ^ m * (2 ^ Z.max 0 (e - 1) * 2 ^ Z.max 0 (1 - (e - 1)))) by ring.
  f_equal. rewrite <- !Z.pow_add_r by lia. f_equal. lia.
Qed.

Context {wide : Z → Z → Z * Z} {WM : WideMultiply F wide} {reciprocal : Z → Z} {RC : Reciprocal F reciprocal}.

(** A residual computed modulo the word size. *)
Lemma residual_word x n q S : 0 ≤ n → 0 ≤ x * 2 ^ n - q * S < 2 ^ w → cast w (cast w (Z.shiftl x n) - cast w (q * S)) = x * 2 ^ n - q * S.
Proof using Type. intros Hn H. rewrite Z.shiftl_mul_pow2 by done. unfold cast. rewrite Zminus_mod_idemp_l, Zminus_mod_idemp_r. by apply Z.mod_small. Qed.

Lemma div_core neg e A S : 2 ^ m ≤ A < 2 * 2 ^ m → 2 ^ m ≤ S < 2 * 2 ^ m → ∃ r,
  (twice_a ← shl w A 1;
   let '(quotient_UQ1, _) := wide (reciprocal S) twice_a in
   two ← shl w (2 ^ m) 1;
   if quotient_UQ1 <? two then
     x ← shl w A (m + 1); let residualLo := cast w (x - cast w (quotient_UQ1 * S)) in a2 ← shl w A 1;
     div_pack F (signed_rep F neg 0) (e - 1) quotient_UQ1 residualLo a2 S
   else
     let quotient_UQ1 := Z.shiftr quotient_UQ1 1 in x ← shl w A m; let residualLo := cast w (x - cast w (quotient_UQ1 * S)) in
     div_pack F (signed_rep F neg 0) e quotient_UQ1 residualLo A S) = Ok (signed_rep F neg r) ∧ scaled_quotient A S e r.
Proof using V WM RC.
  intros HA HS. pose proof (implicit_pos (F := F)) as Hp. destruct widths as (Hm & Hmw & H32 & Ew). destruct (quotient_bounds reciprocal A S HA HS) as (HX & Hlo & Hhi & HQ). rewrite !shl_ok by lia. cbn [mbind result_bind]. assert (cast w (Z.shiftl A 1) = 2 * A) as -> by (rewrite Z.shiftl_mul_pow2, cast_id by lia; lia). assert (cast w (Z.shiftl (2 ^ m) 1) = 2 * 2 ^ m) as -> by (rewrite Z.shiftl_mul_pow2, cast_id by lia; lia). rewrite wm_product by (done || (unfold word; lia)). set (Q := reciprocal S * (2 * A) / 2 ^ w) in *. clearbody Q.
  assert (2 ^ (m + 1) = 2 * 2 ^ m) as Em1 by (rewrite Z.add_1_r, Z.pow_succ_r; lia). destruct (Z.ltb_spec Q (2 * 2 ^ m)) as [Hlt|Hge].
  - rewrite residual_word by (rewrite ?Em1; lia). rewrite Em1. assert (A ≤ S) as HAS. { apply Z.nlt_ge. intros H. assert ((S + 1) * (2 * 2 ^ m) ≤ A * (2 * 2 ^ m)) by (apply Z.mul_le_mono_nonneg_r; lia). assert ((5 * Q + 7) * S ≤ (5 * (2 * 2 ^ m) + 2) * S) by (apply Z.mul_le_mono_nonneg_r; lia). lia. }
    assert (A * 2 ^ m ≤ S * 2 ^ m) by (apply Z.mul_le_mono_nonneg_r; lia). destruct (div_pack_spec neg Q (2 * A) S (e - 1)) as (r & Er & Hr); [lia..|]. exists r. split; [|apply half_quotient; [lia|done]]. rewrite <- Er. f_equal. ring.
  - rewrite Z.shiftr_div_pow2 by lia. change (2 ^ 1) with 2. pose proof (Z.div_mod Q 2 ltac:(lia)) as EQ. pose proof (Z.mod_pos_bound Q 2 ltac:(lia)) as HQ2. set (q := Q / 2) in *. set (b := Q mod 2) in *. clearbody q b. subst Q. assert (0 ≤ b * S ≤ S) by (split; [apply Z.mul_nonneg_nonneg; lia|assert (b * S ≤ 1 * S) by (apply Z.mul_le_mono_nonneg_r; lia); lia]). rewrite residual_word by lia. apply div_pack_spec; try lia. assert (A * 2 ^ m ≤ 2 * 2 ^ m * 2 ^ m) by (apply Z.mul_le_mono_nonneg_r; lia). assert (2 * 2 ^ m * 2 ^ m ≤ 2 * 2 ^ m * S) by (apply Z.mul_le_mono_nonneg_l; lia). lia.
Qed.

Lemma divXf3_nonzero n1 r1 n2 r2 : 0 < r1 < infRep F → 0 < r2 < infRep F →
  ∃ r, divXf3 F wide reciprocal (signed_rep F n1 r1) (signed_rep F n2 r2) = Ok (signed_rep F (xorb n1 n2) r) ∧ nearest_ratio F (mag F r1 * 2 ^ (exponentBias F + m - 1)) (mag F r2) r.
Proof using V WM RC.
  intros H1 H2. pose proof implicit_pos as Hp. destruct infRep_eq as [Ei1 Ei2]. destruct (widths) as (Hm & Hmw & _). destruct (bias_eq (F := F)) as [Eb Hb]. unfold divXf3. rewrite product_sign, !rep_exponent, !mul_special_test by lia. rewrite !(proj2 (Z.leb_gt (infRep F) _)), !orb_false_r by lia. set (special := _ || _).
  assert ((if special then div_special F (signed_rep F n1 r1) (signed_rep F n2 r2) (signed_rep F (xorb n1 n2) 0) else None) = None) as ->.
  { destruct special; [|done]. unfold div_special. rewrite !rep_abs by lia. rewrite !(proj2 (Z.ltb_ge (infRep F) _)), !(proj2 (Z.eqb_neq _ (infRep F))), !(proj2 (Z.eqb_neq _ 0)) by lia. done. }
  destruct (unpack_scaled (F := F) n1 r1 special H1) as (ea & sa & Ea & ->); [intros Hlt; unfold special; by rewrite (proj2 (Z.ltb_lt r1 _) Hlt)|]. cbn [mbind result_bind]. destruct (unpack_scaled (F := F) n2 r2 special H2) as (eb & sb & Eb' & ->); [intros Hlt; unfold special; by rewrite (proj2 (Z.ltb_lt r2 _) Hlt), orb_true_r|]. cbn [mbind result_bind].
  destruct (unpack_spec n1 r1 H1) as (ea' & sa' & Ea' & HA & Hea & EA). rewrite Ea in Ea'. injection Ea' as <- <-. destruct (unpack_spec n2 r2 H2) as (eb' & sb' & Eb'' & HS & Heb & ES). rewrite Eb' in Eb''. injection Eb'' as <- <-. set (A := Z.lor sa (2 ^ m)) in *. set (S := Z.lor sb (2 ^ m)) in *.
  replace (r1 / 2 ^ m - r2 / 2 ^ m + (ea - r1 / 2 ^ m - (eb - r2 / 2 ^ m)) + exponentBias F) with (ea - eb + exponentBias F) by lia. assert (w ≤ 2 ^ 16) by (destruct V; lia). assert (2 ^ exponentBits F ≤ 2 ^ 30) by (destruct V; apply Z.pow_le_mono_r; lia). rewrite signed_cast by lia. destruct (div_core (xorb n1 n2) (ea - eb + exponentBias F) A S HA HS) as (r & Er & Hr). exists r. split; [exact Er|].
  revert Hr. unfold scaled_quotient. pose proof (mag_pos (F := F) r2 ltac:(lia)). set (e := ea - eb + exponentBias F). apply ratio_proportional; [apply Z.mul_pos_pos; [lia|apply Z.pow_pos_nonneg; lia]|done|]. apply (Z.mul_cancel_r _ _ (2 ^ m * 2 ^ m)); [lia|].
  replace (A * 2 ^ m * 2 ^ Z.max 0 (e - 1) * mag F r2 * (2 ^ m * 2 ^ m)) with (A * 2 ^ m * 2 ^ m * 2 ^ Z.max 0 (e - 1) * (mag F r2 * 2 ^ m)) by ring. replace (mag F r1 * 2 ^ (exponentBias F + m - 1) * (S * 2 ^ Z.max 0 (1 - e)) * (2 ^ m * 2 ^ m)) with (S * 2 ^ m * 2 ^ (exponentBias F + m - 1) * 2 ^ Z.max 0 (1 - e) * (mag F r1 * 2 ^ m)) by ring. rewrite EA, ES.
  replace (A * 2 ^ m * 2 ^ m * 2 ^ Z.max 0 (e - 1) * (S * 2 ^ (eb - 1 + m))) with (A * S * 2 ^ m * (2 ^ m * 2 ^ Z.max 0 (e - 1) * 2 ^ (eb - 1 + m))) by ring. replace (S * 2 ^ m * 2 ^ (exponentBias F + m - 1) * 2 ^ Z.max 0 (1 - e) * (A * 2 ^ (ea - 1 + m))) with (A * S * 2 ^ m * (2 ^ (exponentBias F + m - 1) * 2 ^ Z.max 0 (1 - e) * 2 ^ (ea - 1 + m))) by ring. f_equal. rewrite <- !Z.pow_add_r by lia. f_equal. lia.
Qed.

Lemma abs_value n r : 0 ≤ r < infRep F → Z.abs (value F (signed_rep F n r)) = mag F r ∧ negative F (signed_rep F n r) = n.
Proof using V.
  intros Hr. destruct (infRep_eq (F := F)) as [_ Ei]. pose proof (implicit_pos (F := F)). rewrite value_signed by lia. pose proof (mag_nonneg (F := F) r ltac:(lia)). destruct (rep_mod (F := F) n r ltac:(lia)) as [_ ->]. split; [destruct n; lia|done].
Qed.

Lemma divXf3_finite a b : finite F a → finite F b → value F b ≠ 0 → ∃ c, divXf3 F wide reciprocal a b = Ok c ∧ quotient_rounded F a b c.
Proof using V WM RC.
  intros Ha Hb Hnz. destruct (finite_split a Ha) as (n1 & r1 & -> & H1). destruct (finite_split b Hb) as (n2 & r2 & -> & H2). destruct infRep_eq as [_ Ei]. pose proof (implicit_pos (F := F)). unfold quotient_rounded. destruct (abs_value n1 r1 H1) as [-> ->]. destruct (abs_value n2 r2 H2) as [E ->]. assert (0 < r2) as Hr2. { destruct (decide (r2 = 0)) as [->|]; [|lia]. rewrite (mag_small (F := F) 0) in E by lia. lia. } rewrite E. clear E Hnz.
  destruct (decide (r1 = 0)) as [->|]; [|destruct (divXf3_nonzero n1 r1 n2 r2 ltac:(lia) ltac:(lia)) as (r & Er & Hn); eauto]. exists (signed_rep F (xorb n1 n2) 0). split.
  - unfold divXf3. rewrite product_sign, !rep_exponent, !mul_special_test by lia. rewrite (proj2 (Z.ltb_lt 0 _)) by lia. cbn [orb]. unfold div_special. rewrite !rep_abs by lia. rewrite !(proj2 (Z.ltb_ge (infRep F) _)), !(proj2 (Z.eqb_neq _ (infRep F))), (proj2 (Z.eqb_neq r2 0)) by lia. done.
  - exists 0. split; [|done]. rewrite (mag_small (F := F) 0), Z.mul_0_l by lia. pose proof (ratio_exact (F := F) (mag F r2) 0 (mag_pos r2 Hr2) ltac:(lia)) as Hx. by rewrite (mag_small (F := F) 0), Z.mul_0_l in Hx by lia.
Qed.

Lemma value_zero n r : 0 ≤ r < infRep F → value F (signed_rep F n r) = 0 ↔ r = 0.
Proof using V.
  intros Hr. destruct (abs_value n r Hr) as [E _]. split; [intros H; destruct (decide (r = 0)); [done|]; pose proof (mag_pos (F := F) r ltac:(lia)); lia|]. intros ->. rewrite (mag_small (F := F) 0) in E; [lia|]. pose proof (implicit_pos (F := F)). lia.
Qed.

Lemma divXf3_special n1 r1 n2 r2 c : 0 ≤ r1 < 2 ^ (w - 1) → 0 ≤ r2 < 2 ^ (w - 1) → (r1 = 0 ∨ infRep F ≤ r1) ∨ (r2 = 0 ∨ infRep F ≤ r2) →
  div_special F (signed_rep F n1 r1) (signed_rep F n2 r2) (signed_rep F (xorb n1 n2) 0) = Some c → divXf3 F wide reciprocal (signed_rep F n1 r1) (signed_rep F n2 r2) = Ok c.
Proof using V.
  intros H1 H2 Hs E. pose proof (implicit_pos (F := F)). unfold divXf3. rewrite product_sign, !rep_exponent, !mul_special_test by lia. assert ((r1 <? 2 ^ m) || (infRep F <=? r1) || ((r2 <? 2 ^ m) || (infRep F <=? r2)) = true) as ->; [|by rewrite E]. rewrite !orb_true_iff, !Z.ltb_lt, !Z.leb_le. lia.
Qed.

Lemma div_special_spec n1 r1 n2 r2 s : 0 ≤ r1 < 2 ^ (w - 1) → 0 ≤ r2 < 2 ^ (w - 1) → div_special F (signed_rep F n1 r1) (signed_rep F n2 r2) (signed_rep F s 0) =
  if infRep F <? r1 then Some (Z.lor (signed_rep F n1 r1) (quietBit F)) else if infRep F <? r2 then Some (Z.lor (signed_rep F n2 r2) (quietBit F))
  else if r1 =? infRep F then Some (if r2 =? infRep F then qnanRep F else signed_rep F s (infRep F)) else if r2 =? infRep F then Some (signed_rep F s 0)
  else if r1 =? 0 then Some (if r2 =? 0 then qnanRep F else signed_rep F s 0) else if r2 =? 0 then Some (signed_rep F s (infRep F)) else None.
Proof using V.
  intros H1 H2. destruct (infRep_eq (F := F)) as [Ei1 Ei2]. pose proof (implicit_pos (F := F)). destruct (bias_eq (F := F)). assert (0 ≤ infRep F) by (rewrite Ei1; apply Z.mul_nonneg_nonneg; lia). unfold div_special. rewrite !rep_abs by done. rewrite (lor_sign s (infRep F)) by lia. repeat (destruct (Z.eqb_spec r1 (infRep F)) as [->|]; [rewrite (lor_sign s (infRep F)) by lia|]). all: repeat case_match; done.
Qed.

End Division.

(** *** Special operands *)
(** The error of the reciprocal, in units of its last place: it is never above the exact reciprocal, and less than 20 below it
    in single precision and 388 in double precision, which is what one correction of the quotient can absorb. *)
Lemma reciprocal_error : (∀ S, 2 ^ 23 ≤ S < 2 ^ 24 → let X := reciprocal_full single 3 10 S in X * S < 2 ^ 55 ≤ (X + 20) * S) ∧ ∀ S, 2 ^ 52 ≤ S < 2 ^ 53 → let X := reciprocal_half double 3 220 S in X * S < 2 ^ 116 ≤ (X + 388) * S.
Proof. split; intros S HS; [apply single_error|apply double_error]; cbn; lia. Qed.

(** ** Theorems *)
(** [C6] The quotient of two finite numbers, the divisor not zero, is the exact quotient rounded to nearest even: through
    subnormal operands and results, zero below half the smallest number and infinity beyond the range, for
    every format with a reciprocal that meets [Reciprocal]. *)
Theorem divXf3_correct F wide reciprocal `{!ValidFormat F, !WideMultiply F wide, !Reciprocal F reciprocal} a b : finite F a → finite F b → value F b ≠ 0 →
  ∃ c, divXf3 F wide reciprocal a b = Ok c ∧ quotient_rounded F a b c.
Proof. apply divXf3_finite. Qed.

Lemma divXf3_correct_witness : (∃ c, divsf3 0x3F800000 0x00000003 = Ok c ∧ quotient_rounded single 0x3F800000 0x00000003 c) ∧ ∃ c, divdf3 0x8000000000000001 0x4008000000000000 = Ok c ∧ quotient_rounded double 0x8000000000000001 0x4008000000000000 c.
Proof.
  split; [apply (divXf3_correct single wideMultiply32 (reciprocal_full single 3 10) 0x3F800000 0x00000003)|apply (divXf3_correct double wideMultiply64 (reciprocal_half double 3 220) 0x8000000000000001 0x4008000000000000)]; first [split; [unfold word; cbn; lia|vm_compute; reflexivity]|vm_compute; discriminate].
Defined.

(** [C25] Special operands of the division, in any precision: a NaN operand, the first one if both are, is the result with its
    quiet bit set; infinity divided by infinity and zero by zero give a quiet NaN; infinity divided by a finite
    number and a number divided by zero are infinite, a finite number divided by infinity is
    zero, each with the sign of the quotient. *)
Theorem division_special F wide reciprocal `{!ValidFormat F} a b : word (typeWidth F) a → word (typeWidth F) b → let neg := xorb (negative F a) (negative F b) in let res := divXf3 F wide reciprocal a b in
  (is_nan F a → res = Ok (Z.lor a (quietBit F)) ∧ is_quiet F (Z.lor a (quietBit F))) ∧
  (¬ is_nan F a → is_nan F b → res = Ok (Z.lor b (quietBit F)) ∧ is_quiet F (Z.lor b (quietBit F))) ∧ (is_inf F a → is_inf F b → res = Ok (qnanRep F)) ∧
  (is_inf F a → finite F b → res = Ok (signed_rep F neg (infRep F))) ∧ (finite F a → is_inf F b → res = Ok (signed_rep F neg 0)) ∧
  (finite F a → finite F b → value F b = 0 → res = Ok (if value F a =? 0 then qnanRep F else signed_rep F neg (infRep F))) ∧ is_quiet F (qnanRep F).
Proof.
  intros Ha Hb neg res. destruct (infRep_eq (F := F)) as [Ei1 Ei2]. pose proof (implicit_pos (F := F)) as Hp. destruct (bias_eq (F := F)) as [Ebias Hbias]. assert (0 < infRep F) as Hi by (rewrite Ei1; apply Z.mul_pos_pos; lia). assert (is_quiet F (qnanRep F)) as Hq by apply qnan_quiet.
  destruct (nan_split a Ha) as (n1 & r1 & -> & H1 & E1 & N1). destruct (nan_split b Hb) as (n2 & r2 & -> & H2 & E2 & N2). unfold is_nan, is_inf, finite. unfold neg, res. rewrite <- E1, <- E2, <- N1, <- N2. pose proof (div_special_spec n1 r1 n2 r2 (xorb n1 n2) H1 H2) as E.
  assert (∀ c, (r1 = 0 ∨ infRep F ≤ r1) ∨ (r2 = 0 ∨ infRep F ≤ r2) → div_special F (signed_rep F n1 r1) (signed_rep F n2 r2) (signed_rep F (xorb n1 n2) 0) = Some c → divXf3 F wide reciprocal (signed_rep F n1 r1) (signed_rep F n2 r2) = Ok c) as Hdiv by (intros c; by apply divXf3_special). rewrite E in Hdiv. clear E. split_and!.
  - intros [_ Hn]. rewrite (proj2 (Z.ltb_lt (infRep F) r1)) in Hdiv by lia. split; [apply Hdiv; [lia|done]|apply quiet_set; lia].
  - intros Hn [_ Hn']. assert (r1 ≤ infRep F) by (apply Z.nlt_ge; intros Hlt; by apply Hn). rewrite (proj2 (Z.ltb_ge (infRep F) r1)), (proj2 (Z.ltb_lt (infRep F) r2)) in Hdiv by lia. split; [apply Hdiv; [lia|done]|apply quiet_set; lia].
  - intros [_ R1] [_ R2]. apply Hdiv; [lia|]. by rewrite R1, R2, Z.ltb_irrefl, Z.eqb_refl.
  - intros [_ R1] [_ R2]. apply Hdiv; [lia|]. by rewrite R1, Z.ltb_irrefl, (proj2 (Z.ltb_ge (infRep F) r2)), Z.eqb_refl, (proj2 (Z.eqb_neq r2 _)) by lia.
  - intros [_ R1] [_ R2]. apply Hdiv; [lia|]. by rewrite R2, Z.ltb_irrefl, (proj2 (Z.ltb_ge (infRep F) r1)), Z.eqb_refl, (proj2 (Z.eqb_neq r1 _)) by lia.
  - intros [_ R1] [_ R2] Hz. apply value_zero in Hz; [|lia]. apply Hdiv; [lia|]. rewrite Hz. rewrite !(proj2 (Z.ltb_ge (infRep F) _)), !(proj2 (Z.eqb_neq _ (infRep F))) by lia. cbn [Z.eqb]. destruct (Z.eqb_spec r1 0) as [R0|R0]; [rewrite (proj2 (Z.eqb_eq (value F _) 0)) by (apply value_zero; lia); done|]. rewrite (proj2 (Z.eqb_neq (value F _) 0)); [done|]. rewrite value_zero by lia. done.
  - apply Hq.
Qed.

Lemma division_special_witness : divsf3 0x3F800000 0x80000000 = Ok 0xFF800000 ∧ divsf3 0x7F800001 0x3F800000 = Ok 0x7FC00001 ∧ is_quiet single (qnanRep single).
Proof.
  destruct (division_special single wideMultiply32 (reciprocal_full single 3 10) 0x3F800000 0x80000000) as (_ & _ & _ & _ & _ & H & Hn); [unfold word; cbn; lia..|].
  destruct (division_special single wideMultiply32 (reciprocal_full single 3 10) 0x7F800001 0x3F800000) as (Hq & _); [unfold word; cbn; lia..|].
  split; [|split; [|exact Hn]]; [apply H; [split; [unfold word; cbn; lia|vm_compute; reflexivity]..|vm_compute; reflexivity]|]. apply Hq. split; [unfold word; cbn; lia|vm_compute; reflexivity].
Defined.

End SoftDiv.
