(* ===== verification/IntBits.v ===== *)
(** * IntBits: bits, bytes and shifts of integers in the builtins

    Models the functions of [src/lib/builtins] on the bits of one integer: leading and trailing
    zeros, population count, parity, byte order, shifts and comparisons of integers of two words.
    An argument of a signed type is an integer in its range; [h] is the width of a word, 32 for
    the functions named [di] and 64 for those named [ti].

    The theorems: the counts agree with their definitions by bits, also where they work on several
    fields of a word at once; reversing the bytes twice is the identity; shifts and comparisons
    by words are those of the integers, provided a signed shift to the left wraps around, which the
    language leaves undefined. *)
From S2P Require Import Prelude Common IntDiv.

Module IntBits.
Import IntDiv.

(** ** Leading and trailing zeros *)
Definition clzsi2 (a : Z) : result Z :=
  let x := u32 a in
  let t := Z.shiftl (Z.b2z (Z.land x 0xFFFF0000 =? 0)) 4 in
  x ← shr 32 x (16 - t);
  let r := t in
  let t := Z.shiftl (Z.b2z (Z.land x 0xFF00 =? 0)) 3 in
  x ← shr 32 x (8 - t);
  let r := u32 (r + t) in
  let t := Z.shiftl (Z.b2z (Z.land x 0xF0 =? 0)) 2 in
  x ← shr 32 x (4 - t);
  let r := u32 (r + t) in
  let t := Z.shiftl (Z.b2z (Z.land x 0xC =? 0)) 1 in
  x ← shr 32 x (2 - t);
  let r := u32 (r + t) in
  Ok (u32 (r + Z.land (u32 (2 - x)) (u32 (- Z.b2z (Z.land x 2 =? 0))))).

Definition ctzsi2 (a : Z) : result Z :=
  let x := u32 a in
  let t := Z.shiftl (Z.b2z (Z.land x 0xFFFF =? 0)) 4 in
  x ← shr 32 x t;
  let r := t in
  let t := Z.shiftl (Z.b2z (Z.land x 0xFF =? 0)) 3 in
  x ← shr 32 x t;
  let r := u32 (r + t) in
  let t := Z.shiftl (Z.b2z (Z.land x 0xF =? 0)) 2 in
  x ← shr 32 x t;
  let r := u32 (r + t) in
  let t := Z.shiftl (Z.b2z (Z.land x 0x3 =? 0)) 1 in
  x ← shr 32 x t;
  let x := Z.land x 3 in
  let r := u32 (r + t) in
  Ok (u32 (r + Z.land (u32 (2 - Z.shiftr x 1)) (u32 (- Z.b2z (Z.land x 1 =? 0))))).

Section Words.
Variable h : Z.

(** The words of an integer: the high one is signed. *)
Abbreviation high_of a := (signed h (Z.shiftr a h)) (only parsing).
Abbreviation low_of a := (cast h a) (only parsing).

Definition clzXi2 (a : Z) : Z :=
  let f := - Z.b2z (high_of a =? 0) in
  clz h (cast h (Z.lor (Z.land (high_of a) (Z.lnot f)) (Z.land (low_of a) f))) + Z.land f h.

Definition ctzXi2 (a : Z) : Z :=
  let f := - Z.b2z (low_of a =? 0) in
  builtin_ctzl (cast h (Z.lor (Z.land (high_of a) f) (Z.land (low_of a) (Z.lnot f)))) + Z.land f h.

Definition ffsXi2 (a : Z) : Z :=
  if low_of a =? 0 then if high_of a =? 0 then 0 else builtin_ctzl (cast h (high_of a)) + (1 + h)
  else builtin_ctzl (low_of a) + 1.

(** ** Shifts and comparisons *)
(** [x << n] on signed words: undefined when it overflows or [x] is negative, or wrapping around. *)
Definition strict_shl (x n : Z) : result Z := if (0 <=? x) && (Z.shiftl x n <? 2 ^ (h - 1)) then Ok (Z.shiftl x n) else Fault SignedOverflow.
Definition wrap_shl (x n : Z) : result Z := Ok (signed h (cast h (Z.shiftl x n))).

Variable sshl : Z → Z → result Z.

Definition ashlXi3 (a b : Z) : result Z :=
  if negb (Z.land b h =? 0) then
    high ← shl h (low_of a) (b - h);
    Ok (signed (2 * h) (all h high 0))
  else if b =? 0 then Ok a
  else
    low ← shl h (low_of a) b;
    x ← sshl (high_of a) b;
    y ← shr h (low_of a) (h - b);
    Ok (signed (2 * h) (all h (Z.lor (cast h x) y) low)).

Definition ashrXi3 (a b : Z) : result Z :=
  if negb (Z.land b h =? 0) then
    high ← shr h (high_of a) (h - 1);
    low ← shr h (high_of a) (b - h);
    Ok (signed (2 * h) (all h high (cast h low)))
  else if b =? 0 then Ok a
  else
    high ← shr h (high_of a) b;
    x ← sshl (high_of a) (h - b);
    y ← shr h (low_of a) b;
    Ok (signed (2 * h) (all h high (Z.lor (cast h x) y))).

Definition lshrXi3 (a b : Z) : result Z :=
  if negb (Z.land b h =? 0) then
    low ← shr h (cast h (Z.shiftr a h)) (b - h);
    Ok (signed (2 * h) low)
  else if b =? 0 then Ok a
  else
    high ← shr h (cast h (Z.shiftr a h)) b;
    x ← shl h (cast h (Z.shiftr a h)) (h - b);
    y ← shr h (low_of a) b;
    Ok (signed (2 * h) (all h high (Z.lor x y))).

Definition cmpXi2 (a b : Z) : Z :=
  if high_of a <? high_of b then 0
  else if high_of b <? high_of a then 2
  else if low_of a <? low_of b then 0
  else if low_of b <? low_of a then 2
  else 1.

Definition ucmpXi2 (a b : Z) : Z :=
  if hi h a <? hi h b then 0
  else if hi h b <? hi h a then 2
  else if lo h a <? lo h b then 0
  else if lo h b <? lo h a then 2
  else 1.

End Words.

Definition ffssi2 (a : Z) : Z := if a =? 0 then 0 else builtin_ctzl (u32 a) + 1.

(** ** Population count and parity *)
Definition popcountsi2 (a : Z) : Z :=
  let x := u32 a in
  let x := u32 (x - Z.land (Z.shiftr x 1) 0x55555555) in
  let x := u32 (Z.land (Z.shiftr x 2) 0x33333333 + Z.land x 0x33333333) in
  let x := Z.land (u32 (x + Z.shiftr x 4)) 0x0F0F0F0F in
  let x := u32 (x + Z.shiftr x 16) in
  Z.land (u32 (x + Z.shiftr x 8)) 0x3F.

Definition popcountdi2 (a : Z) : Z :=
  let x2 := u64 a in
  let x2 := u64 (x2 - Z.land (Z.shiftr x2 1) 0x5555555555555555) in
  let x2 := u64 (Z.land (Z.shiftr x2 2) 0x3333333333333333 + Z.land x2 0x3333333333333333) in
  let x2 := Z.land (u64 (x2 + Z.shiftr x2 4)) 0x0F0F0F0F0F0F0F0F in
  let x := u32 (u64 (x2 + Z.shiftr x2 32)) in
  let x := u32 (x + Z.shiftr x 16) in
  Z.land (u32 (x + Z.shiftr x 8)) 0x7F.

Definition popcountti2 (a : Z) : Z :=
  let u128 := cast 128 in
  let twice c := Z.lor (u128 (Z.shiftl c 64)) c in
  let x3 := u128 a in
  let x3 := u128 (x3 - Z.land (Z.shiftr x3 1) (twice 0x5555555555555555)) in
  let x3 := u128 (Z.land (Z.shiftr x3 2) (twice 0x3333333333333333) + Z.land x3 (twice 0x3333333333333333)) in
  let x3 := Z.land (u128 (x3 + Z.shiftr x3 4)) (twice 0x0F0F0F0F0F0F0F0F) in
  let x2 := u64 (u128 (x3 + Z.shiftr x3 64)) in
  let x := u32 (u64 (x2 + Z.shiftr x2 32)) in
  let x := u32 (x + Z.shiftr x 16) in
  Z.land (u32 (x + Z.shiftr x 8)) 0xFF.

Definition paritysi2 (a : Z) : Z :=
  let x := u32 a in
  let x := Z.lxor x (Z.shiftr x 16) in
  let x := Z.lxor x (Z.shiftr x 8) in
  let x := Z.lxor x (Z.shiftr x 4) in
  Z.land (Z.shiftr 0x6996 (Z.land x 0xF)) 1.

Definition paritydi2 (a : Z) : Z :=
  let x2 := Z.lxor (u32 (Z.shiftr a 32)) (u32 a) in
  let x2 := Z.lxor x2 (Z.shiftr x2 16) in
  let x2 := Z.lxor x2 (Z.shiftr x2 8) in
  let x2 := Z.lxor x2 (Z.shiftr x2 4) in
  Z.land (Z.shiftr 0x6996 (Z.land x2 0xF)) 1.

Definition parityti2 (a : Z) : Z :=
  let x2 := Z.lxor (u64 (Z.shiftr a 64)) (u64 a) in
  let x3 := Z.lxor (u32 (Z.shiftr x2 32)) (u32 x2) in
  let x3 := Z.lxor x3 (Z.shiftr x3 16) in
  let x3 := Z.lxor x3 (Z.shiftr x3 8) in
  let x3 := Z.lxor x3 (Z.shiftr x3 4) in
  Z.land (Z.shiftr 0x6996 (Z.land x3 0xF)) 1.

(** ** Byte order *)
Definition bswapsi2 (u : Z) : Z :=
  Z.lor (Z.lor (Z.lor (Z.shiftr (Z.land u 0xff000000) 24) (Z.shiftr (Z.land u 0x00ff0000) 8))
               (u32 (Z.shiftl (Z.land u 0x0000ff00) 8))) (u32 (Z.shiftl (Z.land u 0x000000ff) 24)).

Definition bswapdi2 (u : Z) : Z :=
  Z.lor (Z.lor (Z.lor (Z.lor (Z.lor (Z.lor (Z.lor
    (Z.shiftr (Z.land u 0xff00000000000000) 56) (Z.shiftr (Z.land u 0x00ff000000000000) 40))
    (Z.shiftr (Z.land u 0x0000ff0000000000) 24)) (Z.shiftr (Z.land u 0x000000ff00000000) 8))
    (u64 (Z.shiftl (Z.land u 0x00000000ff000000) 8))) (u64 (Z.shiftl (Z.land u 0x0000000000ff0000) 24)))
    (u64 (Z.shiftl (Z.land u 0x000000000000ff00) 40))) (u64 (Z.shiftl (Z.land u 0x00000000000000ff) 56)).

Example bits_examples : clzsi2 1 = Ok 31 ∧ ctzsi2 (- 2 ^ 31) = Ok 31 ∧ clzXi2 32 (-5) = 0 ∧ ctzXi2 64 (2 ^ 100) = 100 ∧ ffsXi2 32 (2 ^ 40) = 41 ∧
  popcountsi2 (-1) = 32 ∧ popcountdi2 (-1) = 64 ∧ popcountti2 (-1) = 128 ∧ parityti2 (2 ^ 100 + 3) = 1 ∧ bswapdi2 0x0102030405060708 = 0x0807060504030201 ∧
  ashrXi3 32 (wrap_shl 32) (-1) 1 = Ok (-1) ∧ ashrXi3 32 (strict_shl 32) (-1) 1 = Fault SignedOverflow ∧ lshrXi3 32 (-1) 40 = Ok (2 ^ 24 - 1) ∧ ashlXi3 32 (wrap_shl 32) (-3) 33 = Ok (-3 * 2 ^ 33).
Proof. vm_compute. repeat split. Qed.

(** ** Leading and trailing zeros, proved *)
(** Casts of small numbers, the innermost ones first. *)
Ltac small_casts :=
  repeat match goal with |- context [cast ?w ?e] => lazymatch e with context [cast] => fail | _ => rewrite (cast_id w e) by lia end end.

(** [x] as a high and a low part. *)
Lemma testbit_parts n a c i : 0 ≤ n → 0 ≤ a < 2 ^ n → 0 ≤ i → Z.testbit (a + c * 2 ^ n) i = if i <? n then Z.testbit a i else Z.testbit c (i - n).
Proof.
  intros Hn Ha Hi. rewrite <- lor_shift_add, Z.lor_spec by lia. destruct (Z.ltb_spec i n); [rewrite Z.mul_pow2_bits_low by lia; by rewrite orb_false_r|]. by rewrite Z.mul_pow2_bits, (testbit_high n a) by lia.
Qed.

Lemma land_parts n a b c d : 0 ≤ n → 0 ≤ a < 2 ^ n → 0 ≤ b < 2 ^ n → Z.land (a + c * 2 ^ n) (b + d * 2 ^ n) = Z.land a b + Z.land c d * 2 ^ n.
Proof.
  intros Hn Ha Hb. assert (0 ≤ Z.land a b < 2 ^ n) as Hl.
  { split; [apply Z.land_nonneg; lia|]. rewrite <- (Z.mod_small a (2 ^ n)), <- (Z.mod_small b (2 ^ n)), <- !Z.land_ones by lia. replace (Z.land (Z.land a (Z.ones n)) (Z.land b (Z.ones n))) with (Z.land (Z.land a b) (Z.ones n)) by (apply Z.bits_inj'; intros; rewrite !Z.land_spec; by destruct (Z.testbit a _), (Z.testbit b _), (Z.testbit (Z.ones n) _)). rewrite Z.land_ones by lia. apply Z.mod_pos_bound. lia. }
  apply Z.bits_inj'. intros i Hi. rewrite Z.land_spec, !testbit_parts by done. destruct (i <? n); by rewrite Z.land_spec.
Qed.

Lemma high_mask k mask x : mask = (2 ^ k - 1) * 2 ^ k → 0 < k → 0 ≤ x < 2 ^ (2 * k) → (Z.land x mask =? 0) = (x <? 2 ^ k).
Proof.
  intros -> Hk Hx. replace (2 * k) with (k + k) in Hx by lia. rewrite Z.pow_add_r in Hx by lia. assert (0 < 2 ^ k) by lia. pose proof (Z.div_mod x (2 ^ k) ltac:(lia)) as E. pose proof (Z.mod_pos_bound x (2 ^ k) ltac:(lia)). assert (0 ≤ x / 2 ^ k < 2 ^ k) by (split; [apply Z.div_pos; lia|apply Z.div_lt_upper_bound; lia]).
  assert (x = x mod 2 ^ k + x / 2 ^ k * 2 ^ k) as E' by lia. rewrite E' at 1. rewrite <- (Z.add_0_l ((2 ^ k - 1) * _)). rewrite land_parts by lia. rewrite Z.land_0_r. replace (2 ^ k - 1) with (Z.ones k) by (rewrite Z.ones_equiv; lia). rewrite Z.land_ones, Z.mod_small by lia. apply Bool.eq_iff_eq_true. rewrite Z.eqb_eq, Z.ltb_lt. set (q := x / 2 ^ k) in *. split; intros; assert (q = 0) by nia; lia.
Qed.

Lemma flag_shift (b : bool) j : Z.shiftl (Z.b2z b) j = if b then 2 ^ j else 0.
Proof. destruct b; [by rewrite Z.shiftl_1_l|by rewrite Z.shiftl_0_l]. Qed.

(** The flags of the two searches. *)
Lemma high_flag k j mask x : mask = (2 ^ k - 1) * 2 ^ k → k = 2 ^ j → 0 < k → 0 ≤ x < 2 ^ (2 * k) → Z.shiftl (Z.b2z (Z.land x mask =? 0)) j = if x <? 2 ^ k then k else 0.
Proof. intros Hmask Hj Hk Hx. rewrite (high_mask k), flag_shift, <- Hj by done. done. Qed.

Lemma low_mask k mask x : mask = 2 ^ k - 1 → 0 ≤ k → Z.land x mask = x mod 2 ^ k.
Proof. intros -> Hk. replace (2 ^ k - 1) with (Z.ones k) by (rewrite Z.ones_equiv; lia). by apply Z.land_ones. Qed.

Lemma low_flag k j mask x : mask = 2 ^ k - 1 → k = 2 ^ j → 0 < k → Z.shiftl (Z.b2z (Z.land x mask =? 0)) j = if x mod 2 ^ k =? 0 then k else 0.
Proof. intros Hmask Hj Hk. rewrite (low_mask k), flag_shift, <- Hj by lia. done. Qed.

(** One step of the search for the highest bit among [2k]. *)
Lemma clz_step k x : 0 < k ≤ 16 → 0 < x < 2 ^ (2 * k) → let t := if x <? 2 ^ k then k else 0 in
  ∃ x', shr 32 x (k - t) = Ok x' ∧ 0 < x' < 2 ^ k ∧ clz (2 * k) x = t + clz k x'.
Proof.
  intros Hk Hx t. unfold clz. replace (2 * k) with (k + k) in * by lia. rewrite Z.pow_add_r in Hx by lia. unfold t. destruct (Z.ltb_spec x (2 ^ k)).
  - exists x. rewrite Z.sub_diag, shr_ok by lia. rewrite Z.shiftr_0_r. split; [done|]. lia.
  - exists (x / 2 ^ k). rewrite shr_ok by lia. rewrite Z.sub_0_r, Z.shiftr_div_pow2 by lia. split; [done|]. assert (0 < 2 ^ k) by lia. split; [split; [apply Z.div_str_pos; lia|apply Z.div_lt_upper_bound; lia]|]. rewrite <- Z.shiftr_div_pow2, Z.log2_shiftr by lia. assert (k ≤ Z.log2 x) by (apply Z.log2_le_pow2; lia). lia.
Qed.

Lemma clzsi2_spec a : u32 a ≠ 0 → clzsi2 a = Ok (clz 32 (u32 a)).
Proof.
  intros Ha. unfold clzsi2. pose proof (Z.mod_pos_bound a (2 ^ 32) ltac:(lia)) as Hx. fold (u32 a) in Hx. set (x := u32 a) in *. clearbody x.
  rewrite (high_flag 16 4 0xFFFF0000 x) by (done || lia). destruct (clz_step 16 x ltac:(lia) ltac:(lia)) as (x1 & -> & H1 & E1). cbn [mbind result_bind]. rewrite (high_flag 8 3 0xFF00 x1) by (done || lia). destruct (clz_step 8 x1 ltac:(lia) ltac:(lia)) as (x2 & -> & H2 & E2). cbn [mbind result_bind]. rewrite (high_flag 4 2 0xF0 x2) by (done || lia). destruct (clz_step 4 x2 ltac:(lia) ltac:(lia)) as (x3 & -> & H3 & E3). cbn [mbind result_bind].
  rewrite (high_flag 2 1 0xC x3) by (done || lia). destruct (clz_step 2 x3 ltac:(lia) ltac:(lia)) as (x4 & -> & H4 & E4). cbn [mbind result_bind]. f_equal. change (2 * 16) with 32 in E1. change (2 * 8) with 16 in E2. change (2 * 4) with 8 in E3. change (2 * 2) with 4 in E4. assert (Z.land (u32 (2 - x4)) (u32 (- Z.b2z (Z.land x4 2 =? 0))) = clz 2 x4 ∧ 0 ≤ clz 2 x4 ≤ 1) as [-> Hc] by (assert (x4 = 1 ∨ x4 = 2 ∨ x4 = 3) as [->|[->| ->]] by lia; vm_compute; repeat split; discriminate).
  destruct (x <? _), (x1 <? _), (x2 <? _), (x3 <? _); small_casts; lia.
Qed.

(** The lowest bit that is set. *)
Definition lowest (x k : Z) : Prop := 0 ≤ k ∧ Z.testbit x k = true ∧ ∀ i, 0 ≤ i < k → Z.testbit x i = false.

Lemma lowest_unique x k k' : lowest x k → lowest x k' → k = k'.
Proof. intros (H0 & H1 & H2) (H0' & H1' & H2'). destruct (Z.lt_trichotomy k k') as [?|[?|?]]; [rewrite H2' in H1 by lia; done|done|rewrite H2 in H1' by lia; done]. Qed.

Lemma builtin_ctz_lowest x : 0 < x → lowest x (builtin_ctzl x).
Proof. apply builtin_ctzl_spec. Qed.

Lemma lowest_shift x t k : 0 ≤ t → x mod 2 ^ t = 0 → lowest (x / 2 ^ t) k → lowest x (t + k).
Proof.
  intros Ht Hx (H0 & H1 & H2). assert (∀ i, 0 ≤ i → Z.testbit x i = if i <? t then false else Z.testbit (x / 2 ^ t) (i - t)) as Hb.
  { intros i Hi. pose proof (Z.div_mod x (2 ^ t) ltac:(lia)) as E. rewrite E at 1. rewrite Hx, Z.add_0_r, Z.mul_comm. destruct (Z.ltb_spec i t); [by apply Z.mul_pow2_bits_low|by rewrite Z.mul_pow2_bits by lia]. }
  split; [lia|]. split; [rewrite Hb by lia; rewrite (proj2 (Z.ltb_ge _ _)) by lia; by replace (t + k - t) with k by lia|]. intros i Hi. rewrite Hb by lia. destruct (Z.ltb_spec i t); [done|]. apply H2. lia.
Qed.

(** One step of the search for the lowest bit among [2k]. *)
Lemma ctz_step k x : 0 < k ≤ 16 → 0 ≤ x < 2 ^ 32 → x mod 2 ^ (2 * k) ≠ 0 → let t := if x mod 2 ^ k =? 0 then k else 0 in
  ∃ x', shr 32 x t = Ok x' ∧ 0 ≤ x' < 2 ^ 32 ∧ x' mod 2 ^ k ≠ 0 ∧ ∀ j, lowest x' j → lowest x (t + j).
Proof.
  intros Hk Hx Hm t. replace (2 * k) with (k + k) in Hm by lia. rewrite Z.pow_add_r, Z.rem_mul_r in Hm by lia. assert (0 < 2 ^ k) by lia. unfold t. destruct (Z.eqb_spec (x mod 2 ^ k) 0) as [E|Hne].
  - exists (x / 2 ^ k). rewrite shr_ok, Z.shiftr_div_pow2 by lia. split; [done|]. split; [split; [apply Z.div_pos; lia|apply Z.div_lt_upper_bound; nia]|]. split; [nia|]. intros j. apply lowest_shift; lia.
  - exists x. rewrite shr_ok by lia. rewrite Z.shiftr_0_r. split; [done|]. split; [done|]. by split.
Qed.

Lemma ctzsi2_spec a : u32 a ≠ 0 → ctzsi2 a = Ok (builtin_ctzl (u32 a)).
Proof.
  intros Ha. unfold ctzsi2. pose proof (Z.mod_pos_bound a (2 ^ 32) ltac:(lia)) as Hx. fold (u32 a) in Hx. set (x := u32 a) in *. clearbody x.
  rewrite (low_flag 16 4 0xFFFF x) by (done || lia). destruct (ctz_step 16 x ltac:(lia) Hx) as (x1 & -> & Hx1 & H1 & L1); [by rewrite Z.mod_small by lia|]. cbn [mbind result_bind]. rewrite (low_flag 8 3 0xFF x1) by (done || lia). destruct (ctz_step 8 x1 ltac:(lia) Hx1 H1) as (x2 & -> & Hx2 & H2 & L2). cbn [mbind result_bind]. rewrite (low_flag 4 2 0xF x2) by (done || lia). destruct (ctz_step 4 x2 ltac:(lia) Hx2 H2) as (x3 & -> & Hx3 & H3 & L3). cbn [mbind result_bind].
  rewrite (low_flag 2 1 0x3 x3) by (done || lia). destruct (ctz_step 2 x3 ltac:(lia) Hx3 H3) as (x4 & -> & Hx4 & H4 & L4). cbn [mbind result_bind]. rewrite (low_mask 2 3 x4) by (done || lia). f_equal. assert (∃ c, Z.land (u32 (2 - Z.shiftr (x4 mod 2 ^ 2) 1)) (u32 (- Z.b2z (Z.land (x4 mod 2 ^ 2) 1 =? 0))) = c ∧ 0 ≤ c ≤ 1 ∧ lowest x4 c) as (c & -> & Hc & Lc).
  { pose proof (Z.mod_pos_bound x4 (2 ^ 2) ltac:(lia)). assert (∀ i, 0 ≤ i < 2 → Z.testbit x4 i = Z.testbit (x4 mod 2 ^ 2) i) as Ht by (intros; by rewrite Z.mod_pow2_bits_low by lia). unfold lowest. assert (x4 mod 2 ^ 2 = 1 ∨ x4 mod 2 ^ 2 = 2 ∨ x4 mod 2 ^ 2 = 3) as Hm by lia.
    destruct Hm as [E|[E|E]]; rewrite E in *; [exists 0|exists 1|exists 0]; (split; [done|]; split; [lia|]; split; [lia|]; split; [by rewrite Ht by lia|intros i Hi]); [lia|assert (i = 0) as -> by lia; by rewrite Ht by lia|lia]. }
  apply (lowest_unique x); [|apply builtin_ctz_lowest; lia]. apply L4, L3, L2, L1 in Lc. clear L1 L2 L3 L4. destruct (x mod _ =? 0), (x1 mod _ =? 0), (x2 mod _ =? 0), (x3 mod _ =? 0); small_casts; match goal with Hl : lowest x ?p |- lowest x ?q => replace q with p by lia; exact Hl end.
Qed.

(** ** Integers of two words *)
Section Double.
Context {h : Z} (Hh : 1 < h) (a : Z) (Ha : - 2 ^ (2 * h - 1) ≤ a < 2 ^ (2 * h - 1)).
Local Abbreviation top := (a / 2 ^ h).
Local Abbreviation bot := (a mod 2 ^ h).

Lemma double_pow : 2 ^ (2 * h) = 2 ^ h * 2 ^ h ∧ 2 ^ h = 2 * 2 ^ (h - 1) ∧ 2 ^ (2 * h - 1) = 2 ^ (h - 1) * 2 ^ h ∧ 0 < 2 ^ (h - 1).
Proof using Hh. rewrite <- !Z.pow_add_r by lia. split_and!; [f_equal; lia|apply pow2_half; lia|f_equal; lia|apply Z.pow_pos_nonneg; lia]. Qed.

Lemma word_parts : a = top * 2 ^ h + bot ∧ 0 ≤ bot < 2 ^ h ∧ - 2 ^ (h - 1) ≤ top < 2 ^ (h - 1).
Proof using Hh Ha.
  destruct double_pow as (E1 & E2 & E3 & E4). rewrite E3 in Ha. pose proof (Z.div_mod a (2 ^ h) ltac:(lia)). split; [lia|]. split; [apply Z.mod_pos_bound; lia|]. split; [apply Z.div_le_lower_bound; lia|apply Z.div_lt_upper_bound; lia].
Qed.

Lemma high_of_eq : signed h (Z.shiftr a h) = top.
Proof using Hh Ha. destruct word_parts as (_ & _ & HH). rewrite Z.shiftr_div_pow2 by lia. rewrite <- (signed_cast h top) at 2 by lia. unfold signed. by rewrite cast_cast. Qed.

(** The words of the unsigned integer. *)
Lemma unsigned_parts : cast (2 * h) a = all h (cast h top) bot ∧ 0 ≤ cast h top < 2 ^ h.
Proof using Hh.
  destruct double_pow as (E1 & E2 & E3 & E4). unfold cast, all. rewrite E1, Z.rem_mul_r by lia. split; [lia|apply Z.mod_pos_bound; lia].
Qed.

Lemma high_zero : (cast h top =? 0) = (top =? 0).
Proof using Hh Ha.
  destruct word_parts as (_ & _ & HH). destruct double_pow as (_ & E2 & _ & E4). apply Bool.eq_iff_eq_true. rewrite !Z.eqb_eq. split; [|by intros ->; rewrite cast_id by lia]. intros E. rewrite <- (signed_cast h top) by lia. rewrite E. unfold signed. rewrite cast_id by lia. by rewrite (proj2 (Z.ltb_lt _ _)) by lia.
Qed.

Lemma clzXi2_spec : cast (2 * h) a ≠ 0 → clzXi2 h a = clz (2 * h) (cast (2 * h) a).
Proof using Hh Ha.
  destruct unsigned_parts as [-> Hu]. destruct word_parts as (_ & HL & _). intros Hne. unfold clzXi2. rewrite high_of_eq. pose proof high_zero as Hz. change (cast h a) with bot. destruct (Z.eqb_spec top 0) as [E|HneH]; cbn [Z.b2z].
  - rewrite E, Z.land_0_l, Z.lor_0_l in *. change (- (1)) with (-1). rewrite !Z.land_m1_r, Z.land_m1_l. rewrite !cast_id in * by lia. unfold clz, all in *. rewrite Z.mul_0_l, Z.add_0_l in *. lia.
  - apply Z.eqb_neq in Hz. change (- (0)) with 0. rewrite Z.land_0_r, Z.lor_0_r, Z.land_0_l, Z.add_0_r. change (Z.lnot 0) with (-1). rewrite Z.land_m1_r. unfold clz. rewrite log2_high by (unfold word; lia). lia.
Qed.

Lemma lowest_parts : cast (2 * h) a ≠ 0 → lowest (cast (2 * h) a) (if bot =? 0 then h + builtin_ctzl (cast h top) else builtin_ctzl bot).
Proof using Hh Ha.
  destruct unsigned_parts as [-> Hu]. destruct word_parts as (_ & HL & _). unfold all. intros Hne. assert (0 < 2 ^ h) by lia. destruct (Z.eqb_spec bot 0) as [E|HneL].
  - rewrite E in *. rewrite Z.add_0_r in *. apply lowest_shift; [lia|by apply Z.mod_mul; lia|]. rewrite Z.div_mul by lia. apply builtin_ctz_lowest. lia.
  - destruct (builtin_ctz_lowest bot ltac:(lia)) as (H0 & H1 & H2). assert (builtin_ctzl bot < h) as Hlt by (destruct (Z.lt_ge_cases (builtin_ctzl bot) h); [done|rewrite (testbit_high h bot) in H1 by lia; done]). rewrite Z.add_comm. split; [done|]. split; [by rewrite testbit_parts, (proj2 (Z.ltb_lt _ _)) by lia|]. intros i Hi. rewrite testbit_parts, (proj2 (Z.ltb_lt _ _)) by lia. by apply H2.
Qed.

Lemma ctzXi2_spec : cast (2 * h) a ≠ 0 → ctzXi2 h a = builtin_ctzl (cast (2 * h) a).
Proof using Hh Ha.
  intros Hne. destruct word_parts as (_ & HL & _). pose proof (Z.mod_pos_bound a (2 ^ (2 * h)) ltac:(lia)) as Hc. fold (cast (2 * h) a) in Hc. rewrite (lowest_unique _ _ _ (builtin_ctz_lowest (cast (2 * h) a) ltac:(lia)) (lowest_parts Hne)). unfold ctzXi2. rewrite high_of_eq. change (cast h a) with bot. destruct (Z.eqb_spec bot 0) as [E|HneL]; cbn [Z.b2z].
  - rewrite E, Z.land_0_l, Z.lor_0_r. change (- (1)) with (-1). rewrite Z.land_m1_r, Z.land_m1_l. lia.
  - change (- (0)) with 0. rewrite !Z.land_0_r, Z.lor_0_l, Z.land_0_l. change (Z.lnot 0) with (-1). rewrite Z.land_m1_r, cast_id by lia. lia.
Qed.

Lemma unsigned_nonzero : a ≠ 0 → cast (2 * h) a ≠ 0.
Proof using Hh Ha.
  intros Hne E. destruct word_parts as (Ea & HL & HH). pose proof high_zero as Hz. destruct unsigned_parts as [Eu Hu]. assert (0 < 2 ^ h) by lia. rewrite Eu in E. unfold all in E. assert (cast h top = 0) as E0 by nia. rewrite E0 in Hz. symmetry in Hz. apply Z.eqb_eq in Hz. rewrite Hz in Ea. lia.
Qed.

Lemma ffsXi2_spec : ffsXi2 h a = if a =? 0 then 0 else builtin_ctzl (cast (2 * h) a) + 1.
Proof using Hh Ha.
  unfold ffsXi2. rewrite high_of_eq. change (cast h a) with bot. destruct word_parts as (Ea & HL & HH). pose proof unsigned_nonzero as Hne. assert (0 < 2 ^ h) by lia. pose proof (cast_range (2 * h) a ltac:(lia)) as Hc. destruct (Z.eqb_spec a 0) as [->|Hne0]; [by rewrite Z.mod_0_l, Z.div_0_l by lia|]. specialize (Hne Hne0).
  rewrite (lowest_unique _ _ _ (builtin_ctz_lowest (cast (2 * h) a) ltac:(lia)) (lowest_parts Hne)). destruct (Z.eqb_spec bot 0) as [EL|]; [|done]. destruct (Z.eqb_spec top 0) as [EH|]; [rewrite EL, EH in Ea; lia|]. lia.
Qed.

(** *** Shifts *)
Context (b : Z) (Hb : 0 ≤ b < 2 * h).

Lemma word_bit j : 0 ≤ j → h = 2 ^ j → negb (Z.land b h =? 0) = (h <=? b).
Proof using Hh Hb.
  intros Hj E. pose proof (Z.div_mod b h ltac:(lia)) as Ed. pose proof (Z.mod_pos_bound b h ltac:(lia)). assert (Z.land b h = Z.land (b / h) 1 * h) as ->.
  { pose proof (land_parts j (b mod 2 ^ j) 0 (b / 2 ^ j) 1 Hj) as Hp. rewrite <- E, Z.land_0_r, !Z.add_0_l, Z.mul_1_l in Hp. rewrite <- Hp by lia. f_equal. lia. }
  assert (b / h = 0 ∨ b / h = 1) as [E0|E1] by nia; [rewrite E0 in *|rewrite E1 in *]; [change (Z.land 0 1) with 0; by rewrite (proj2 (Z.leb_gt _ _)) by lia|change (Z.land 1 1) with 1; rewrite (proj2 (Z.leb_le _ _)) by lia; by rewrite (proj2 (Z.eqb_neq _ _)) by lia].
Qed.

(** Words of a shift to the right, by less than a word. *)
Lemma shift_right_parts x l : 0 < b < h → 0 ≤ l < 2 ^ h → (x * 2 ^ h + l) / 2 ^ b = x / 2 ^ b * 2 ^ h + (x mod 2 ^ b * 2 ^ (h - b) + l / 2 ^ b) ∧
  0 ≤ x mod 2 ^ b * 2 ^ (h - b) + l / 2 ^ b < 2 ^ h ∧ 0 ≤ l / 2 ^ b < 2 ^ (h - b).
Proof using Type.
  clear Hh Ha Hb. intros Hb' Hl. pose proof (pow2_split h b ltac:(lia)) as E. assert (0 < 2 ^ b) by lia. assert (0 < 2 ^ (h - b)) by (apply Z.pow_pos_nonneg; lia). pose proof (Z.div_mod x (2 ^ b) ltac:(lia)) as Ex. pose proof (Z.mod_pos_bound x (2 ^ b) ltac:(lia)) as Hx. assert (0 ≤ l / 2 ^ b < 2 ^ (h - b)) as Hd by (split; [apply Z.div_pos; lia|apply Z.div_lt_upper_bound; lia]).
  split; [|split; [|done]]; [|rewrite E; assert (x mod 2 ^ b * 2 ^ (h - b) ≤ (2 ^ b - 1) * 2 ^ (h - b)) by (apply Z.mul_le_mono_nonneg_r; lia); lia]. replace (x * 2 ^ h + l) with (l + x * 2 ^ (h - b) * 2 ^ b) by (rewrite E; ring). rewrite Z.div_add by lia. rewrite Ex at 1. rewrite E. ring.
Qed.

Lemma lor_parts x y n : 0 ≤ n → 0 ≤ y < 2 ^ n → Z.lor (x * 2 ^ n) y = x * 2 ^ n + y.
Proof using Type. clear Hh Ha Hb. intros. rewrite Z.lor_comm, lor_shift_add by lia. lia. Qed.

(** A shift to the left that drops what leaves the word. *)
Lemma drop_left x n : 0 ≤ n < h → cast h (Z.shiftl x n) = x mod 2 ^ (h - n) * 2 ^ n.
Proof using Type.
  clear Hh Ha Hb. intros Hn. rewrite Z.shiftl_mul_pow2 by lia. unfold cast. rewrite (pow2_split h n) by lia. rewrite (Z.mul_comm (2 ^ n)), Z.mul_mod_distr_r by lia. done.
Qed.

(** [sshl] shifts, if it returns. *)
Context (sshl : Z → Z → result Z) (Hsshl : ∀ x n v, sshl x n = Ok v → cast h v = cast h (Z.shiftl x n)).

Definition guarded (x n v : Z) : result Z := if (0 <? b) && (b <? h) then _ ← sshl x n; Ok v else Ok v.

Lemma ashlXi3_spec j : 0 ≤ j → h = 2 ^ j → ashlXi3 h sshl a b = guarded top b (signed (2 * h) (Z.shiftl a b)).
Proof using Hh Ha Hb Hsshl.
  intros Hj E. destruct word_parts as (Ea & HL & HH). destruct double_pow as (E1 & E2 & E3 & E4). unfold ashlXi3, guarded. rewrite (word_bit j Hj E), high_of_eq. change (cast h a) with bot. assert (∀ x y k, x = y + k * 2 ^ (2 * h) → signed (2 * h) x = signed (2 * h) y) as Hs by (intros x y k Ex; unfold signed; by rewrite (cast_congr (2 * h) x y k Ex)). rewrite (Z.shiftl_mul_pow2 a) by lia. destruct (Z.leb_spec h b) as [Hge|Hlt].
  - rewrite (proj2 (Z.ltb_ge b h)), andb_false_r by lia. rewrite shl_ok by lia. cbn [mbind result_bind]. f_equal. rewrite drop_left by lia. pose proof (Z.div_mod bot (2 ^ (h - (b - h))) ltac:(pose proof (Z.pow_pos_nonneg 2 (h - (b - h))); lia)) as Ed. assert (2 ^ b = 2 ^ (b - h) * 2 ^ h) as Eb by (rewrite <- Z.pow_add_r by lia; f_equal; lia). pose proof (pow2_split h (b - h) ltac:(lia)) as Es. unfold all.
    apply (Hs _ _ (- top * 2 ^ (b - h) - bot / 2 ^ (h - (b - h)))). rewrite E1, Eb. set (t := top) in *. set (l := bot) in *. set (Q := 2 ^ (h - (b - h))) in *. set (l1 := l / Q) in *. set (l0 := l mod Q) in *. clearbody l1 l0. clearbody t l. rewrite Ea, Ed, Es. ring.
  - rewrite (proj2 (Z.ltb_lt b h)), andb_true_r by lia. destruct (Z.eqb_spec b 0) as [->|Hb0]; [cbn; rewrite Z.mul_1_r; f_equal; rewrite <- (signed_cast (2 * h) a) at 1 by lia; unfold signed; by rewrite cast_cast|]. rewrite (proj2 (Z.ltb_lt 0 b)) by lia. rewrite shl_ok by lia. cbn [mbind result_bind]. destruct (sshl top b) as [v|] eqn:Ev; [|done]. cbn [mbind result_bind]. rewrite shr_ok by lia. cbn [mbind result_bind]. f_equal. rewrite (Hsshl _ _ _ Ev), !drop_left, Z.shiftr_div_pow2 by lia.
    pose proof (pow2_split h b ltac:(lia)) as Es. assert (0 < 2 ^ b) by lia. assert (0 < 2 ^ (h - b)) by (apply Z.pow_pos_nonneg; lia). rewrite lor_parts by (lia || (split; [apply Z.div_pos; lia|apply Z.div_lt_upper_bound; lia])). pose proof (Z.div_mod top (2 ^ (h - b)) ltac:(lia)) as Et. pose proof (Z.div_mod bot (2 ^ (h - b)) ltac:(lia)) as Ed. unfold all.
    apply (Hs _ _ (- (top / 2 ^ (h - b)))). rewrite E1. set (t := top) in *. set (l := bot) in *. set (Q := 2 ^ (h - b)) in *. set (t1 := t / Q) in *. set (t0 := t mod Q) in *. set (l1 := l / Q) in *. set (l0 := l mod Q) in *. clearbody t1 t0 l1 l0. clearbody t l. rewrite Ea, Et, Ed, Es. ring.
Qed.

Lemma signed_double x : - 2 ^ (2 * h - 1) ≤ x < 2 ^ (2 * h - 1) → signed (2 * h) x = x.
Proof using Hh. intros Hx. rewrite <- (signed_cast (2 * h) x) at 2 by lia. unfold signed. by rewrite cast_cast. Qed.

Lemma shifted_range : - 2 ^ (2 * h - 1) ≤ a / 2 ^ b < 2 ^ (2 * h - 1).
Proof using Hh Ha Hb. assert (0 < 2 ^ b) by lia. split; [apply Z.div_le_lower_bound; nia|apply Z.div_lt_upper_bound; nia]. Qed.

Lemma ashrXi3_spec j : 0 ≤ j → h = 2 ^ j → ashrXi3 h sshl a b = guarded top (h - b) (Z.shiftr a b).
Proof using Hh Ha Hb Hsshl.
  intros Hj E. destruct word_parts as (Ea & HL & HH). destruct double_pow as (E1 & E2 & E3 & E4). pose proof shifted_range as Hr. unfold ashrXi3, guarded. rewrite (word_bit j Hj E), high_of_eq. change (cast h a) with bot. rewrite (Z.shiftr_div_pow2 a) by lia. destruct (Z.leb_spec h b) as [Hge|Hlt].
  - rewrite (proj2 (Z.ltb_ge b h)), andb_false_r by lia. rewrite !shr_ok by lia. cbn [mbind result_bind]. f_equal. rewrite !Z.shiftr_div_pow2 by lia. assert (a / 2 ^ b = top / 2 ^ (b - h)) as -> by (rewrite Z.div_div by (pose proof (Z.pow_pos_nonneg 2 (b - h)); lia); f_equal; rewrite <- Z.pow_add_r by lia; f_equal; lia). set (v := top / 2 ^ (b - h)) in *.
    assert (- 2 ^ (h - 1) ≤ v < 2 ^ (h - 1) ∧ (0 ≤ v ↔ 0 ≤ top)) as [Hv Hs].
    { assert (0 < 2 ^ (b - h)) by (apply Z.pow_pos_nonneg; lia). split; [split; [apply Z.div_le_lower_bound; nia|apply Z.div_lt_upper_bound; nia]|]. split; intros; [apply Z.nlt_ge; intros Hn; assert (v < 0) by (apply Z.div_lt_upper_bound; lia); lia|apply Z.div_pos; lia]. }
    assert (all h (top / 2 ^ (h - 1)) (cast h v) = v) as ->; [|apply signed_double; rewrite E3; nia]. unfold all. destruct (Z.lt_ge_cases top 0) as [Hn|Hn]; [|rewrite Z.div_small, cast_id by lia; lia]. assert (top / 2 ^ (h - 1) = -1) as -> by (symmetry; apply (Z.div_unique_pos _ _ _ (top + 2 ^ (h - 1))); lia). rewrite (cast_congr h v (v + 2 ^ h) (-1)), cast_id by lia. lia.
  - rewrite (proj2 (Z.ltb_lt b h)), andb_true_r by lia. destruct (Z.eqb_spec b 0) as [->|Hb0]; [cbn; by rewrite Z.div_1_r|]. rewrite (proj2 (Z.ltb_lt 0 b)) by lia. rewrite !shr_ok by lia. cbn [mbind result_bind]. destruct (sshl top (h - b)) as [v|] eqn:Ev; [|done]. cbn [mbind result_bind]. f_equal. rewrite (Hsshl _ _ _ Ev), drop_left, !Z.shiftr_div_pow2 by lia. replace (h - (h - b)) with b by lia.
    destruct (shift_right_parts top bot ltac:(lia) HL) as (Es & H1 & H2). rewrite lor_parts by lia. unfold all. rewrite <- Es, <- Ea. by apply signed_double.
Qed.

Lemma lshrXi3_spec j : 0 ≤ j → h = 2 ^ j → lshrXi3 h a b = Ok (if b =? 0 then a else Z.shiftr (cast (2 * h) a) b).
Proof using Hh Ha Hb.
  intros Hj E. destruct word_parts as (Ea & HL & HH). destruct double_pow as (E1 & E2 & E3 & E4). destruct unsigned_parts as [Eu Hu]. unfold lshrXi3. rewrite (word_bit j Hj E). rewrite Z.shiftr_div_pow2 by lia. change (cast h a) with bot. rewrite Eu, Z.shiftr_div_pow2 by lia. set (u := cast h top) in *. assert (0 < b → 0 ≤ all h u bot / 2 ^ b < 2 ^ (2 * h - 1)) as Hr.
  { intros H0. assert (0 < 2 ^ b) by lia. unfold all. assert (0 ≤ u * 2 ^ h + bot < 2 ^ (2 * h)) by nia. assert (2 ^ (2 * h) = 2 * 2 ^ (2 * h - 1)) as E5 by (apply pow2_half; lia). assert (2 ≤ 2 ^ b) by (change 2 with (2 ^ 1) at 1; apply Z.pow_le_mono_r; lia). split; [apply Z.div_pos; lia|apply Z.div_lt_upper_bound; nia]. }
  destruct (Z.leb_spec h b) as [Hge|Hlt].
  - rewrite shr_ok by lia. cbn [mbind result_bind]. rewrite (proj2 (Z.eqb_neq b 0)) by lia. f_equal. specialize (Hr ltac:(lia)). rewrite Z.shiftr_div_pow2 by lia. assert (all h u bot / 2 ^ b = u / 2 ^ (b - h)) as Eq; [|rewrite Eq in *; apply signed_double; lia]. replace (2 ^ b) with (2 ^ h * 2 ^ (b - h)) by (rewrite <- Z.pow_add_r by lia; f_equal; lia). assert (0 < 2 ^ (b - h)) by (apply Z.pow_pos_nonneg; lia). rewrite <- Z.div_div by lia. f_equal. unfold all. rewrite Z.div_add_l, Z.div_small by lia. lia.
  - destruct (Z.eqb_spec b 0) as [->|Hb0]; [done|]. rewrite shr_ok by lia. cbn [mbind result_bind]. rewrite shl_ok by lia. cbn [mbind result_bind]. rewrite shr_ok by lia. cbn [mbind result_bind]. f_equal. rewrite drop_left, !Z.shiftr_div_pow2 by lia. replace (h - (h - b)) with b by lia. destruct (shift_right_parts u bot ltac:(lia) HL) as (Es & H1 & H2). rewrite lor_parts by lia. unfold all in *. rewrite <- Es. apply signed_double. specialize (Hr ltac:(lia)). lia.
Qed.

End Double.

(** *** Comparisons *)
Definition order_code (c : comparison) : Z := match c with Lt => 0 | Eq => 1 | Gt => 2 end.

Lemma compare_parts P x x0 y y0 : 0 ≤ x0 < P → 0 ≤ y0 < P → (if x <? y then 0 else if y <? x then 2 else if x0 <? y0 then 0 else if y0 <? x0 then 2 else 1) = order_code (x * P + x0 ?= y * P + y0).
Proof.
  intros Hx Hy. assert (∀ u v, u < v → u * P + P ≤ v * P) as Hm by (intros; nia). destruct (Z.ltb_spec x y) as [Hxy|Hxy]; [pose proof (Hm _ _ Hxy); by rewrite (proj2 (Z.compare_lt_iff _ _)) by lia|]. destruct (Z.ltb_spec y x) as [Hyx|Hyx]; [pose proof (Hm _ _ Hyx); by rewrite (proj2 (Z.compare_gt_iff _ _)) by lia|]. assert (x = y) as -> by lia.
  destruct (Z.ltb_spec x0 y0); [by rewrite (proj2 (Z.compare_lt_iff _ _)) by lia|]. destruct (Z.ltb_spec y0 x0); [by rewrite (proj2 (Z.compare_gt_iff _ _)) by lia|]. by rewrite (proj2 (Z.compare_eq_iff _ _)) by lia.
Qed.

Lemma cmpXi2_spec h a b : 1 < h → - 2 ^ (2 * h - 1) ≤ a < 2 ^ (2 * h - 1) → - 2 ^ (2 * h - 1) ≤ b < 2 ^ (2 * h - 1) → cmpXi2 h a b = order_code (a ?= b).
Proof.
  intros Hh Ha Hb. unfold cmpXi2. rewrite !high_of_eq by done. unfold cast. destruct (word_parts Hh a Ha) as (Ea & La & _). destruct (word_parts Hh b Hb) as (Eb & Lb & _). etrans; [by apply (compare_parts (2 ^ h))|]. by rewrite <- Ea, <- Eb.
Qed.

Lemma ucmpXi2_spec h a b : 0 < h → 0 ≤ a < 2 ^ (2 * h) → 0 ≤ b < 2 ^ (2 * h) → ucmpXi2 h a b = order_code (a ?= b).
Proof.
  intros Hh Ha Hb. destruct (halves h a Hh Ha) as (Ea & _ & La). destruct (halves h b Hh Hb) as (Eb & _ & Lb). etrans; [by apply (compare_parts (2 ^ h))|]. unfold all in Ea, Eb. by rewrite <- Ea, <- Eb.
Qed.

(** ** Population count, proved *)
(** The number whose digits of [k] bits are [l], the lowest first. *)
Fixpoint digits (k : Z) (l : list Z) : Z := match l with [] => 0 | d :: l => d + digits k l * 2 ^ k end.
Fixpoint total (l : list Z) : Z := match l with [] => 0 | d :: l => d + total l end.
Fixpoint bits (n : nat) (x : Z) : list Z := match n with O => [] | S n => x mod 2 :: bits n (x / 2) end.

(** The specification: how many of the [n] low bits are set. *)
Definition popcount (n : nat) (x : Z) : Z := total (bits n x).

Definition bounded (B : Z) (l : list Z) : Prop := Forall (λ d, 0 ≤ d ≤ B) l.

Fixpoint pairs (l : list Z) : list Z := match l with a :: b :: l => a + b :: pairs l | _ => [] end.
Fixpoint lows (l : list Z) : list Z := match l with a :: _ :: l => a :: lows l | _ => [] end.
Fixpoint highs (l : list Z) : list Z := match l with _ :: b :: l => b :: highs l | _ => [] end.

Lemma total_pairs n l : length l = (2 * n)%nat → total (pairs l) = total l ∧ length (pairs l) = n.
Proof. revert l. induction n as [|n IH]; intros [|a [|b l]] Hl; cbn in Hl; try done || lia. destruct (IH l ltac:(lia)) as [E1 E2]. cbn. lia. Qed.

Lemma bounded_pairs n B l : length l = (2 * n)%nat → bounded B l → bounded (2 * B) (pairs l).
Proof.
  revert l. induction n as [|n IH]; intros [|a [|b l]] Hl Hb; cbn in Hl; [apply Forall_nil_2|lia|lia|lia|lia|]. inversion Hb as [|?? Ha Hb']; inversion Hb' as [|?? Hb'' Hl']; subst. constructor; [lia|]. apply IH; [lia|done].
Qed.

Lemma digits_bound k l B : 0 ≤ k → B < 2 ^ k → bounded B l → 0 ≤ digits k l < 2 ^ (k * Z.of_nat (length l)).
Proof.
  intros Hk HB. induction l as [|d l IH]; intros Hl; cbn [digits length]; [rewrite Z.mul_0_r; done|]. inversion Hl as [|?? Hd Hl']; subst. specialize (IH Hl'). replace (k * Z.of_nat (S (length l))) with (k + k * Z.of_nat (length l)) by lia. rewrite Z.pow_add_r by lia. nia.
Qed.

Lemma bits_value n x : digits 1 (bits n x) = x mod 2 ^ Z.of_nat n ∧ length (bits n x) = n ∧ bounded 1 (bits n x).
Proof.
  revert x. induction n as [|n IH]; intros x; [cbn; rewrite Z.mod_1_r; repeat constructor|]. destruct (IH (x / 2)) as (E & El & Hb). cbn [bits digits length]. rewrite E, El. split; [|split; [done|constructor; [pose proof (Z.mod_pos_bound x 2); lia|done]]]. rewrite Nat2Z.inj_succ, Z.pow_succ_r, Z.rem_mul_r by lia. change (2 ^ 1) with 2. lia.
Qed.

(** Every second digit. *)
Lemma select_lows k B n l : 0 ≤ k → B < 2 ^ k → length l = (2 * n)%nat → bounded B l → Z.land (digits k l) (digits (2 * k) (replicate n (2 ^ k - 1))) = digits (2 * k) (lows l).
Proof.
  intros Hk HB. revert l. induction n as [|n IH]; intros [|a [|b l]] Hl Hb; cbn in Hl; try done || lia. inversion Hb as [|?? Ha Hb']; inversion Hb' as [|?? Hb'' Hl']; subst. cbn [digits lows replicate]. rewrite <- (IH l) by (lia || done). replace (2 * k) with (k + k) by lia. replace (a + (b + digits k l * 2 ^ k) * 2 ^ k) with (a + b * 2 ^ k + digits k l * 2 ^ (k + k)) by (rewrite Z.pow_add_r by lia; ring).
  assert (2 ^ (k + k) = 2 ^ k * 2 ^ k) as E by (apply Z.pow_add_r; lia). rewrite land_parts by nia. f_equal. rewrite (low_mask k) by lia. rewrite Z_mod_plus_full. apply Z.mod_small. lia.
Qed.

Lemma select_highs k B n l : 0 ≤ k → B < 2 ^ k → length l = (2 * n)%nat → bounded B l → Z.land (Z.shiftr (digits k l) k) (digits (2 * k) (replicate n (2 ^ k - 1))) = digits (2 * k) (highs l).
Proof.
  intros Hk HB. revert l. induction n as [|n IH]; intros [|a [|b l]] Hl Hb; cbn in Hl; try lia; [by rewrite Z.land_0_r|]. inversion Hb as [|?? Ha Hb']; inversion Hb' as [|?? Hb'' Hl']; subst. cbn [digits highs replicate]. rewrite <- (IH l) by (lia || done). replace (2 * k) with (k + k) by lia. assert (2 ^ (k + k) = 2 ^ k * 2 ^ k) as E by (apply Z.pow_add_r; lia). set (D := digits k l). rewrite !Z.shiftr_div_pow2, Z.div_add, Z.div_small by lia. rewrite Z.add_0_l.
  pose proof (Z.div_mod D (2 ^ k) ltac:(lia)) as ED. pose proof (Z.mod_pos_bound D (2 ^ k) ltac:(lia)). replace (b + D * 2 ^ k) with (b + D mod 2 ^ k * 2 ^ k + D / 2 ^ k * 2 ^ (k + k)) by (rewrite E; rewrite ED at 3; ring). rewrite land_parts by nia. f_equal. rewrite (low_mask k) by lia. rewrite Z_mod_plus_full. apply Z.mod_small. lia.
Qed.

Lemma lows_highs k n l : length l = (2 * n)%nat → digits k (lows l) + digits k (highs l) = digits k (pairs l).
Proof. revert l. induction n as [|n IH]; intros [|a [|b l]] Hl; cbn in Hl; try done || lia. cbn [lows highs pairs digits]. rewrite <- (IH l) by lia. ring. Qed.

Lemma digits_pairs k n l : 0 ≤ k → length l = (2 * n)%nat → digits k l = digits (2 * k) (lows l) + digits (2 * k) (highs l) * 2 ^ k.
Proof.
  intros Hk. revert l. induction n as [|n IH]; intros [|a [|b l]] Hl; cbn in Hl; try done || lia. cbn [lows highs digits]. rewrite (IH l) by lia. replace (2 * k) with (k + k) by lia. rewrite Z.pow_add_r by lia. ring.
Qed.

(** Sums of neighbouring digits. *)
Fixpoint adjacent (l : list Z) : list Z := match l with [] => [] | a :: l => a + hd 0 l :: adjacent l end.

Lemma digits_adjacent k l B : 0 ≤ k → B < 2 ^ k → bounded B l → digits k (adjacent l) = digits k l + Z.shiftr (digits k l) k.
Proof.
  intros Hk HB Hl. assert (Z.shiftr (digits k l) k = digits k (tl l)) as ->.
  { destruct l as [|d l]; [apply Z.shiftr_0_l|]. inversion Hl; subst. cbn [digits tl]. rewrite Z.shiftr_div_pow2, Z.div_add, Z.div_small by lia. lia. }
  clear Hl. induction l as [|a l IH]; [done|]. cbn [adjacent digits tl]. rewrite IH. destruct l; cbn [hd tl digits]; ring.
Qed.

Lemma bounded_adjacent B l : 0 ≤ B → bounded B l → bounded (2 * B) (adjacent l) ∧ length (adjacent l) = length l.
Proof.
  intros HB. induction l as [|a l IH]; intros Hl; [split; [apply Forall_nil_2|done]|]. inversion Hl as [|?? Ha Hl']; subst. destruct (IH Hl') as [H1 H2]. cbn [adjacent length]. rewrite H2. split; [|done]. constructor; [|done]. destruct Hl'; cbn [hd]; lia.
Qed.

Lemma lows_adjacent n l : length l = (2 * n)%nat → lows (adjacent l) = pairs l.
Proof. revert l. induction n as [|n IH]; intros [|a [|b l]] Hl; cbn in Hl; try done || lia. cbn [adjacent lows pairs hd]. by rewrite IH by lia. Qed.

(** The first three steps leave the number of bits of each byte in that byte. *)
Lemma byte_counts n a m1 m2 m3 : let w := 8 * Z.of_nat n in m1 = digits 2 (replicate (4 * n) 1) → m2 = digits 4 (replicate (2 * n) 3) → m3 = digits 8 (replicate n 15) →
  let x := cast w a in let x := cast w (x - Z.land (Z.shiftr x 1) m1) in let x := cast w (Z.land (Z.shiftr x 2) m2 + Z.land x m2) in
  ∃ l, Z.land (cast w (x + Z.shiftr x 4)) m3 = digits 8 l ∧ length l = n ∧ bounded 8 l ∧ total l = popcount (8 * n) a.
Proof.
  intros w -> -> ->. cbv zeta. destruct (bits_value (8 * n) a) as (E0 & L0 & B0). set (l0 := bits (8 * n) a) in *. replace (Z.of_nat (8 * n)) with w in E0 by (unfold w; lia). fold (cast w a) in E0. rewrite <- E0. clear E0.
  destruct (total_pairs (4 * n) l0 ltac:(lia)) as [T1 L1]. pose proof (bounded_pairs (4 * n) 1 l0 ltac:(lia) B0) as B1. set (l1 := pairs l0) in *. destruct (total_pairs (2 * n) l1 ltac:(lia)) as [T2 L2]. pose proof (bounded_pairs (2 * n) 2 l1 ltac:(lia) B1) as B2. set (l2 := pairs l1) in *. destruct (total_pairs n l2 ltac:(lia)) as [T3 L3]. pose proof (bounded_pairs n 4 l2 ltac:(lia) B2) as B3.
  assert (digits 1 l0 - Z.land (Z.shiftr (digits 1 l0) 1) (digits 2 (replicate (4 * n) 1)) = digits 2 l1) as ->.
  { pose proof (select_highs 1 1 (4 * n) l0 ltac:(lia) ltac:(lia) ltac:(lia) B0) as Es. change (2 * 1) with 2 in Es. change (2 ^ 1 - 1) with 1 in Es. rewrite Es. rewrite (digits_pairs 1 (4 * n) l0) by lia. unfold l1; rewrite <- (lows_highs 2 (4 * n)) by lia. change (2 * 1) with 2. lia. }
  rewrite (cast_id w (digits 2 l1)) by (pose proof (digits_bound 2 l1 2 ltac:(lia) ltac:(lia) B1) as Hd; rewrite L1 in Hd; replace w with (2 * Z.of_nat (4 * n)) by (unfold w; lia); done).
  assert (Z.land (Z.shiftr (digits 2 l1) 2) (digits 4 (replicate (2 * n) 3)) + Z.land (digits 2 l1) (digits 4 (replicate (2 * n) 3)) = digits 4 l2) as ->.
  { pose proof (select_highs 2 2 (2 * n) l1 ltac:(lia) ltac:(lia) ltac:(lia) B1) as Eh. pose proof (select_lows 2 2 (2 * n) l1 ltac:(lia) ltac:(lia) ltac:(lia) B1) as El. change (2 * 2) with 4 in Eh, El. change (2 ^ 2 - 1) with 3 in Eh, El. rewrite Eh, El. rewrite Z.add_comm. apply (lows_highs 4 (2 * n)). lia. }
  rewrite (cast_id w (digits 4 l2)) by (pose proof (digits_bound 4 l2 4 ltac:(lia) ltac:(lia) B2) as Hd; rewrite L2 in Hd; replace w with (4 * Z.of_nat (2 * n)) by (unfold w; lia); done).
  destruct (bounded_adjacent 4 l2 ltac:(lia) B2) as [Ba La]. rewrite <- (digits_adjacent 4 l2 4) by (lia || done). rewrite cast_id by (pose proof (digits_bound 4 _ 8 ltac:(lia) ltac:(lia) Ba) as Hd; rewrite La, L2 in Hd; replace w with (4 * Z.of_nat (2 * n)) by (unfold w; lia); done).
  exists (pairs l2). split; [|split; [done|split; [done|unfold popcount; fold l0; lia]]]. rewrite <- (lows_adjacent n) by lia. apply (select_lows 4 8 n); [lia|lia|lia|done].
Qed.

(** Adding the high half of the bytes to the low half. *)
Lemma fold_half n l B w : B < 128 → length l = (2 * n)%nat → bounded B l → w = 8 * Z.of_nat n → ∃ l', cast w (digits 8 l + Z.shiftr (digits 8 l) w) = digits 8 l' ∧ length l' = n ∧ bounded (2 * B) l' ∧ total l' = total l.
Proof.
  intros HB Hl Hb ->. rewrite <- (take_drop n l) in Hb |- *. apply Forall_app in Hb as [H1 H2]. assert (length (take n l) = n ∧ length (drop n l) = n) as [E1 E2] by (rewrite length_take, length_drop; lia). set (l1 := take n l) in *. set (l2 := drop n l) in *. clearbody l1 l2. clear Hl l.
  assert (∀ k l1 l2, 0 ≤ k → digits k (l1 ++ l2) = digits k l1 + digits k l2 * 2 ^ (k * Z.of_nat (length l1)) ∧ total (l1 ++ l2) = total l1 + total l2) as Happ.
  { clear. intros k l1 l2 Hk. induction l1 as [|d l1 [IH1 IH2]]; cbn [digits total length app]; [rewrite Z.mul_0_r; lia|]. rewrite IH1, IH2. replace (k * Z.of_nat (S (length l1))) with (k * Z.of_nat (length l1) + k) by lia. rewrite (Z.pow_add_r 2 _ k) by lia. split; ring. }
  destruct (Happ 8 l1 l2 ltac:(lia)) as [-> ->]. rewrite E1. pose proof (digits_bound 8 l1 B ltac:(lia) ltac:(lia) H1) as D1. rewrite E1 in D1. rewrite Z.shiftr_div_pow2, Z.div_add, Z.div_small by lia. rewrite Z.add_0_l. exists (zip_with Z.add l1 l2).
  assert (digits 8 (zip_with Z.add l1 l2) = digits 8 l1 + digits 8 l2 ∧ total (zip_with Z.add l1 l2) = total l1 + total l2 ∧ bounded (2 * B) (zip_with Z.add l1 l2) ∧ length (zip_with Z.add l1 l2) = n) as (Z1 & Z2 & Z3 & Z4).
  { clear Happ D1. revert l1 l2 E1 E2 H1 H2. induction n as [|n IH]; intros [|a l1] [|b l2] E1 E2 H1 H2; try discriminate; [split_and!; [done|done|apply Forall_nil_2|done]|]. inversion H1; inversion H2; subst. destruct (IH l1 l2) as (Z1 & Z2 & Z3 & Z4); [by injection E1|by injection E2|done|done|]. cbn [zip_with digits total length]. rewrite Z1, Z2, Z4. split; [ring|]. split; [ring|]. split; [constructor; [lia|done]|done]. }
  split; [|done]. pose proof (digits_bound 8 _ (2 * B) ltac:(lia) ltac:(lia) Z3) as D3. rewrite Z4, Z1 in D3. rewrite Z1. rewrite (cast_congr _ _ (digits 8 l1 + digits 8 l2) (digits 8 l2)) by ring. by apply cast_id.
Qed.

(** The last two steps add four bytes. *)
Lemma gather l B j mask : length l = 4%nat → 0 ≤ B ≤ 32 → bounded B l → mask = 2 ^ j - 1 → 0 ≤ j ≤ 8 → 4 * B < 2 ^ j → let x := digits 8 l in let x := u32 (x + Z.shiftr x 16) in Z.land (u32 (x + Z.shiftr x 8)) mask = total l.
Proof.
  intros Hl HB Hb Hmask Hj Hs. destruct l as [|d0 [|d1 [|d2 [|d3 [|]]]]]; try done. do 4 (inversion Hb as [|?? ? Hb']; subst; clear Hb; rename Hb' into Hb). clear Hb. cbn [digits total]. cbv zeta. rewrite (low_mask j) by lia. rewrite !Z.shiftr_div_pow2 by lia.
  set (x := d0 + (d1 + (d2 + (d3 + 0 * 2 ^ 8) * 2 ^ 8) * 2 ^ 8) * 2 ^ 8). destruct (div_unique x (2 ^ 16) (d2 + d3 * 2 ^ 8) (d0 + d1 * 2 ^ 8)) as [-> _]; [unfold x; lia|lia|]. rewrite (cast_id 32 (x + (d2 + d3 * 2 ^ 8))) by (unfold x; lia). destruct (div_unique (x + (d2 + d3 * 2 ^ 8)) (2 ^ 8) (d1 + d3 + d2 * 2 ^ 8 + d3 * 2 ^ 16) (d0 + d2)) as [-> _]; [unfold x; lia|lia|].
  rewrite cast_id by (unfold x; lia). assert (2 ^ 8 = 2 ^ j * 2 ^ (8 - j)) as E8 by (rewrite <- Z.pow_add_r by lia; f_equal; lia). set (y := d1 + d2 * 2 ^ 8 + d3 * 2 ^ 16 + d3 + d2 + d3 * 2 ^ 8). replace (x + (d2 + d3 * 2 ^ 8) + (d1 + d3 + d2 * 2 ^ 8 + d3 * 2 ^ 16)) with (d0 + d1 + d2 + d3 + y * 2 ^ 8) by (unfold x, y; ring). rewrite E8.
  replace (y * (2 ^ j * 2 ^ (8 - j))) with (y * 2 ^ (8 - j) * 2 ^ j) by ring. rewrite Z_mod_plus_full, Z.mod_small; lia.
Qed.

Lemma cast_narrow w v x : 0 ≤ w ≤ v → cast w (cast v x) = cast w x.
Proof. intros Hw. unfold cast. rewrite (pow2_split v w), Z.rem_mul_r by lia. rewrite (Z.mul_comm (2 ^ w) (_ mod _)), Z_mod_plus_full. apply Z.mod_mod. lia. Qed.

Lemma popcountsi2_spec a : popcountsi2 a = popcount 32 a.
Proof.
  destruct (byte_counts 4 a 0x55555555 0x33333333 0x0F0F0F0F) as (l & E & Hl & Hb & Et); [reflexivity..|]. cbv zeta in E. change (8 * Z.of_nat 4) with 32 in E. change (8 * 4)%nat with 32%nat in Et. rewrite <- Et. unfold popcountsi2. rewrite E. by apply (gather l 8 6).
Qed.

Lemma popcountdi2_spec a : popcountdi2 a = popcount 64 a.
Proof.
  destruct (byte_counts 8 a 0x5555555555555555 0x3333333333333333 0x0F0F0F0F0F0F0F0F) as (l & E & Hl & Hb & Et); [reflexivity..|]. cbv zeta in E. change (8 * Z.of_nat 8) with 64 in E. change (8 * 8)%nat with 64%nat in Et. rewrite <- Et. unfold popcountdi2. rewrite E. rewrite cast_narrow by lia.
  destruct (fold_half 4 l 8 32 ltac:(lia) Hl Hb eq_refl) as (l' & -> & Hl' & Hb' & <-). by apply (gather l' 16 7).
Qed.

Lemma popcountti2_spec a : popcountti2 a = popcount 128 a.
Proof.
  destruct (byte_counts 16 a 0x55555555555555555555555555555555 0x33333333333333333333333333333333 0x0F0F0F0F0F0F0F0F0F0F0F0F0F0F0F0F) as (l & E & Hl & Hb & Et); [reflexivity..|]. cbv zeta in E. change (8 * Z.of_nat 16) with 128 in E. change (8 * 16)%nat with 128%nat in Et. rewrite <- Et. unfold popcountti2. cbv zeta. assert (∀ c d, d = Z.lor (cast 128 (Z.shiftl c 64)) c → Z.lor (cast 128 (Z.shiftl c 64)) c = d) as Hd by done.
  rewrite (Hd 0x5555555555555555 0x55555555555555555555555555555555 eq_refl), (Hd 0x3333333333333333 0x33333333333333333333333333333333 eq_refl), (Hd 0x0F0F0F0F0F0F0F0F 0x0F0F0F0F0F0F0F0F0F0F0F0F0F0F0F0F eq_refl), E. rewrite !cast_narrow by lia.
  destruct (fold_half 8 l 8 64 ltac:(lia) Hl Hb eq_refl) as (l1 & -> & H1 & B1 & <-). destruct (fold_half 4 l1 16 32 ltac:(lia) H1 B1 eq_refl) as (l2 & -> & H2 & B2 & <-). by apply (gather l2 32 8).
Qed.

(** ** Parity, proved *)
(** Whether an odd number of the [n] low bits is set. *)
Fixpoint odd_bits (n : nat) (x : Z) : bool := match n with O => false | S n => xorb (Z.odd x) (odd_bits n (x / 2)) end.

Lemma odd_bits_popcount n x : Z.odd (popcount n x) = odd_bits n x.
Proof.
  revert x. induction n as [|n IH]; intros x; [done|]. unfold popcount. cbn [bits total odd_bits]. rewrite Z.odd_add. fold (popcount n (x / 2)). rewrite IH. f_equal. rewrite Zmod_odd. by destruct (Z.odd x).
Qed.

Lemma odd_bits_lxor n x y : odd_bits n (Z.lxor x y) = xorb (odd_bits n x) (odd_bits n y).
Proof.
  revert x y. induction n as [|n IH]; intros x y; [done|]. cbn [odd_bits]. rewrite <- !Z.div2_div, <- !Z.bit0_odd, !Z.div2_spec, Z.lxor_spec, Z.shiftr_lxor, IH. by destruct (Z.testbit x 0), (Z.testbit y 0), (odd_bits n (Z.shiftr x 1)), (odd_bits n (Z.shiftr y 1)).
Qed.

Lemma odd_bits_add n k x : odd_bits (n + k) x = xorb (odd_bits n x) (odd_bits k (Z.shiftr x (Z.of_nat n))).
Proof.
  revert x. induction n as [|n IH]; intros x; [change (Z.of_nat 0) with 0; rewrite Z.shiftr_0_r; change (0 + k)%nat with k; by destruct (odd_bits k x)|]. cbn [odd_bits Nat.add]. rewrite IH, <- Z.div2_div, Z.div2_spec, Z.shiftr_shiftr, xorb_assoc by lia. by replace (1 + Z.of_nat n) with (Z.of_nat (S n)) by lia.
Qed.

(** Folding a word onto its half keeps the parity. *)
Lemma odd_bits_fold n x : odd_bits n (Z.lxor x (Z.shiftr x (Z.of_nat n))) = odd_bits (n + n) x.
Proof. by rewrite odd_bits_lxor, odd_bits_add. Qed.

Lemma odd_bits_mod n x : odd_bits n (x mod 2 ^ Z.of_nat n) = odd_bits n x.
Proof.
  revert x. induction n as [|n IH]; intros x; [done|]. cbn [odd_bits]. rewrite Nat2Z.inj_succ, Z.pow_succ_r, Z.rem_mul_r by lia. pose proof (Z.mod_pos_bound x 2). assert ((x mod 2 + 2 * ((x / 2) mod 2 ^ Z.of_nat n)) / 2 = (x / 2) mod 2 ^ Z.of_nat n) as -> by (rewrite Z.mul_comm, Z.div_add, Z.div_small by lia; lia). rewrite IH. f_equal. rewrite Z.odd_add_mul_2, Zmod_odd. by destruct (Z.odd x).
Qed.

(** The table in the constant. *)
Lemma parity_table x : Z.land (Z.shiftr 0x6996 (Z.land x 0xF)) 1 = Z.b2z (odd_bits 4 x).
Proof.
  rewrite (low_mask 4 0xF x) by (done || lia). rewrite <- (odd_bits_mod 4 x). change (Z.of_nat 4) with 4. pose proof (Z.mod_pos_bound x (2 ^ 4) ltac:(lia)) as Hx. change (2 ^ 4) with 16 in *. set (y := x mod 16) in *. clearbody y.
  assert (y = 0 ∨ y = 1 ∨ y = 2 ∨ y = 3 ∨ y = 4 ∨ y = 5 ∨ y = 6 ∨ y = 7 ∨ y = 8 ∨ y = 9 ∨ y = 10 ∨ y = 11 ∨ y = 12 ∨ y = 13 ∨ y = 14 ∨ y = 15) as Hy by lia. clear Hx. repeat (destruct Hy as [->|Hy]; [vm_compute; reflexivity|]). subst y. vm_compute. reflexivity.
Qed.

(** The last steps, on 32 bits. *)
Lemma parity_word x : let x1 := Z.lxor x (Z.shiftr x 16) in let x2 := Z.lxor x1 (Z.shiftr x1 8) in let x3 := Z.lxor x2 (Z.shiftr x2 4) in Z.land (Z.shiftr 0x6996 (Z.land x3 0xF)) 1 = Z.b2z (odd_bits 32 x).
Proof. cbv zeta. rewrite parity_table. f_equal. etrans; [apply (odd_bits_fold 4)|]. etrans; [apply (odd_bits_fold 8)|]. apply (odd_bits_fold 16). Qed.

Lemma odd_bits_cast n w x : w = Z.of_nat n → odd_bits n (cast w x) = odd_bits n x.
Proof. intros ->. apply odd_bits_mod. Qed.

Lemma odd_bits_halves n w x : w = Z.of_nat n → odd_bits n (Z.lxor (cast w (Z.shiftr x w)) (cast w x)) = odd_bits (n + n) x.
Proof. intros Hw. rewrite odd_bits_lxor, !odd_bits_cast by done. rewrite odd_bits_add, Hw. apply xorb_comm. Qed.

Lemma parity_spec a : paritysi2 a = Z.b2z (odd_bits 32 a) ∧ paritydi2 a = Z.b2z (odd_bits 64 a) ∧ parityti2 a = Z.b2z (odd_bits 128 a).
Proof.
  unfold paritysi2, paritydi2, parityti2. split_and!; rewrite parity_word; f_equal; [by apply odd_bits_cast|by apply (odd_bits_halves 32)|]. etrans; [by apply (odd_bits_halves 32)|]. by apply (odd_bits_halves 64).
Qed.

(** ** Byte order, proved *)
Fixpoint bytes (n : nat) (u : Z) : list Z := match n with O => [] | S n => u mod 2 ^ 8 :: bytes n (u / 2 ^ 8) end.

Lemma bytes_value n u : digits 8 (bytes n u) = u mod 2 ^ (8 * Z.of_nat n) ∧ length (bytes n u) = n ∧ bounded 255 (bytes n u).
Proof.
  revert u. induction n as [|n IH]; intros u; [cbn; rewrite Z.mod_1_r; repeat constructor|]. destruct (IH (u / 2 ^ 8)) as (E & El & Hb). cbn [bytes digits length]. rewrite E, El. split; [|split; [done|constructor; [pose proof (Z.mod_pos_bound u (2 ^ 8)); lia|done]]]. replace (8 * Z.of_nat (S n)) with (8 + 8 * Z.of_nat n) by lia. rewrite Z.pow_add_r, Z.rem_mul_r by lia. lia.
Qed.

Lemma bytes_digits l : bounded 255 l → bytes (length l) (digits 8 l) = l.
Proof.
  induction l as [|d l IH]; intros Hl; [done|]. inversion Hl as [|?? Hd Hl']; subst. cbn [digits length bytes]. rewrite Z_mod_plus_full, Z.mod_small, Z.div_add, Z.div_small by lia. rewrite Z.add_0_l. by rewrite IH.
Qed.

Lemma byte_field u n mask : 0 ≤ n → mask = 255 * 2 ^ n → Z.land u mask = (u / 2 ^ n) mod 2 ^ 8 * 2 ^ n.
Proof.
  intros Hn ->. assert (0 < 2 ^ n) by lia. pose proof (Z.div_mod u (2 ^ n) ltac:(lia)). pose proof (Z.mod_pos_bound u (2 ^ n) ltac:(lia)). assert (u = u mod 2 ^ n + u / 2 ^ n * 2 ^ n) as E by lia. rewrite E at 1. rewrite <- (Z.add_0_l (255 * _)). rewrite land_parts by lia. rewrite Z.land_0_r. f_equal. by rewrite (low_mask 8 255) by (done || lia).
Qed.

(** A byte moved down, and moved up. *)
Lemma byte_down u n s e mask : e = n - s → 0 ≤ s ≤ n → mask = 255 * 2 ^ n → Z.shiftr (Z.land u mask) s = (u / 2 ^ n) mod 2 ^ 8 * 2 ^ e.
Proof.
  intros -> Hs Hm. rewrite (byte_field u n) by (done || lia). rewrite Z.shiftr_div_pow2 by lia. assert (2 ^ n = 2 ^ (n - s) * 2 ^ s) as -> by (rewrite <- Z.pow_add_r by lia; f_equal; lia). rewrite Z.mul_assoc, Z.div_mul by lia. done.
Qed.

Lemma byte_up u n s e mask w : e = n + s → 0 ≤ n → 0 ≤ s → n + s + 8 ≤ w → mask = 255 * 2 ^ n → cast w (Z.shiftl (Z.land u mask) s) = (u / 2 ^ n) mod 2 ^ 8 * 2 ^ e.
Proof.
  intros -> Hn Hs Hw Hm. rewrite (byte_field u n) by done. rewrite Z.shiftl_mul_pow2, <- Z.mul_assoc, <- Z.pow_add_r by lia. apply cast_id. pose proof (Z.mod_pos_bound (u / 2 ^ n) (2 ^ 8) ltac:(lia)). assert (0 < 2 ^ (n + s)) by (apply Z.pow_pos_nonneg; lia). split; [lia|]. assert (2 ^ 8 * 2 ^ (n + s) ≤ 2 ^ w) by (rewrite <- Z.pow_add_r by lia; apply Z.pow_le_mono_r; lia). nia.
Qed.

Lemma byte_range u n : 0 ≤ (u / 2 ^ n) mod 2 ^ 8 < 2 ^ 8.
Proof. apply Z.mod_pos_bound. lia. Qed.

(** Fields side by side, the innermost ones first. *)
Ltac side_by_side := repeat match goal with |- context [Z.lor ?a (?b * 2 ^ ?s)] => lazymatch a with context [Z.lor] => fail | _ => rewrite (lor_shift_add s a b) by lia end end.

Lemma bswapsi2_spec u : bswapsi2 u = digits 8 (reverse (bytes 4 u)).
Proof.
  unfold bswapsi2. rewrite (byte_down u 24 24 0), (byte_down u 16 8 8), (byte_up u 8 8 16), (byte_up u 0 24 24) by (done || lia). pose proof (byte_range u) as Hr. pose proof (Hr 0). pose proof (Hr 8). pose proof (Hr 16). pose proof (Hr 24). clear Hr. cbn [bytes]. rewrite !Z.div_div by lia. cbv [reverse rev_append digits].
  change (2 ^ 8 * 2 ^ 8 * 2 ^ 8) with (2 ^ 24). change (2 ^ 8 * 2 ^ 8) with (2 ^ 16). change (u / 2 ^ 0) with (u / 1) in *. rewrite Z.div_1_r in *. set (b0 := u mod 2 ^ 8) in *. set (b1 := (u / 2 ^ 8) mod 2 ^ 8) in *. set (b2 := (u / 2 ^ 16) mod 2 ^ 8) in *. set (b3 := (u / 2 ^ 24) mod 2 ^ 8) in *. clearbody b0 b1 b2 b3. side_by_side. lia.
Qed.

Lemma bswapdi2_spec u : bswapdi2 u = digits 8 (reverse (bytes 8 u)).
Proof.
  unfold bswapdi2. rewrite (byte_down u 56 56 0), (byte_down u 48 40 8), (byte_down u 40 24 16), (byte_down u 32 8 24), (byte_up u 24 8 32), (byte_up u 16 24 40), (byte_up u 8 40 48), (byte_up u 0 56 56) by (done || lia). pose proof (byte_range u) as Hr. pose proof (Hr 0). pose proof (Hr 8). pose proof (Hr 16). pose proof (Hr 24). pose proof (Hr 32). pose proof (Hr 40). pose proof (Hr 48). pose proof (Hr 56). clear Hr. cbn [bytes]. rewrite !Z.div_div by lia. cbv [reverse rev_append digits].
  change (2 ^ 8 * 2 ^ 8 * 2 ^ 8 * 2 ^ 8 * 2 ^ 8 * 2 ^ 8 * 2 ^ 8) with (2 ^ 56). change (2 ^ 8 * 2 ^ 8 * 2 ^ 8 * 2 ^ 8 * 2 ^ 8 * 2 ^ 8) with (2 ^ 48). change (2 ^ 8 * 2 ^ 8 * 2 ^ 8 * 2 ^ 8 * 2 ^ 8) with (2 ^ 40). change (2 ^ 8 * 2 ^ 8 * 2 ^ 8 * 2 ^ 8) with (2 ^ 32). change (2 ^ 8 * 2 ^ 8 * 2 ^ 8) with (2 ^ 24). change (2 ^ 8 * 2 ^ 8) with (2 ^ 16). change (u / 2 ^ 0) with (u / 1) in *. rewrite Z.div_1_r in *.
  set (b0 := u mod 2 ^ 8) in *. set (b1 := (u / 2 ^ 8) mod 2 ^ 8) in *. set (b2 := (u / 2 ^ 16) mod 2 ^ 8) in *. set (b3 := (u / 2 ^ 24) mod 2 ^ 8) in *. set (b4 := (u / 2 ^ 32) mod 2 ^ 8) in *. set (b5 := (u / 2 ^ 40) mod 2 ^ 8) in *. set (b6 := (u / 2 ^ 48) mod 2 ^ 8) in *. set (b7 := (u / 2 ^ 56) mod 2 ^ 8) in *. clearbody b0 b1 b2 b3 b4 b5 b6 b7. side_by_side. lia.
Qed.

Lemma reverse_twice n u : 0 ≤ u < 2 ^ (8 * Z.of_nat n) → digits 8 (reverse (bytes n (digits 8 (reverse (bytes n u))))) = u.
Proof.
  intros Hu. destruct (bytes_value n u) as (E & El & Hb). assert (bytes n (digits 8 (reverse (bytes n u))) = reverse (bytes n u)) as ->; [|rewrite reverse_involutive, E; by apply Z.mod_small]. rewrite <- (bytes_digits (reverse (bytes n u))) at 2 by (unfold bounded; by rewrite Forall_reverse). by rewrite length_reverse, El.
Qed.

(** ** Theorems *)
(** [C19] The functions on bits: leading zeros, trailing zeros and the first set bit of every integer
    that is not zero, in one word and in two, and the first set bit of zero, which is 0; the population count of 32, 64 and 128 bits, by sums
    of fields, and the parity, by folding and a table, against the count of bits one by one; the
    reversal of bytes, which undoes itself. *)
Theorem bit_functions_correct :
  (∀ a, u32 a ≠ 0 → clzsi2 a = Ok (clz 32 (u32 a)) ∧ ∃ k, ctzsi2 a = Ok k ∧ ffssi2 a = k + 1 ∧ lowest (u32 a) k) ∧
  (∀ h a, h = 32 ∨ h = 64 → in_int (2 * h) a → a ≠ 0 → clzXi2 h a = clz (2 * h) (cast (2 * h) a) ∧ lowest (cast (2 * h) a) (ctzXi2 h a) ∧ ffsXi2 h a = ctzXi2 h a + 1) ∧
  (ffssi2 0 = 0 ∧ ffsXi2 32 0 = 0 ∧ ffsXi2 64 0 = 0) ∧
  (∀ a, popcountsi2 a = popcount 32 a ∧ popcountdi2 a = popcount 64 a ∧ popcountti2 a = popcount 128 a) ∧
  (∀ a, paritysi2 a = popcount 32 a mod 2 ∧ paritydi2 a = popcount 64 a mod 2 ∧ parityti2 a = popcount 128 a mod 2) ∧
  (∀ u, bswapsi2 u = digits 8 (reverse (bytes 4 u)) ∧ bswapdi2 u = digits 8 (reverse (bytes 8 u))) ∧
  (∀ u, (word 32 u → bswapsi2 (bswapsi2 u) = u) ∧ (word 64 u → bswapdi2 (bswapdi2 u) = u)).
Proof.
  split_and!.
  - intros a Ha. split; [by apply clzsi2_spec|]. exists (builtin_ctzl (u32 a)). pose proof (cast_range 32 a ltac:(lia)). split; [by apply ctzsi2_spec|]. split; [|apply builtin_ctz_lowest; lia]. unfold ffssi2. by destruct (Z.eqb_spec a 0) as [->|].
  - intros h a Hh Ha Hne. assert (1 < h) as Hh1 by lia. pose proof (unsigned_nonzero Hh1 a Ha Hne) as Hc. pose proof (cast_range (2 * h) a ltac:(lia)). rewrite clzXi2_spec, ffsXi2_spec, ctzXi2_spec, (proj2 (Z.eqb_neq a 0)) by done. split; [done|]. split; [apply builtin_ctz_lowest; lia|done].
  - done.
  - done.
  - done.
  - intros a. auto using popcountsi2_spec, popcountdi2_spec, popcountti2_spec.
  - intros a. destruct (parity_spec a) as (-> & -> & ->). rewrite <- !odd_bits_popcount, !Zmod_odd. by destruct (Z.odd (popcount 32 a)), (Z.odd (popcount 64 a)), (Z.odd (popcount 128 a)).
  - intros u. by rewrite bswapsi2_spec, bswapdi2_spec.
  - intros u. rewrite !bswapsi2_spec, !bswapdi2_spec. split; intros Hu; [by apply (reverse_twice 4)|by apply (reverse_twice 8)].
Qed.

(** [C32] Shifts and comparisons of integers of two words agree with those of the integers when a signed
    shift to the left wraps around.  Read strictly, a shift by less than a word is undefined
    for every negative integer. *)
Theorem double_word_correct h a b : h = 32 ∨ h = 64 → in_int (2 * h) a →
  (0 ≤ b < 2 * h → ashlXi3 h (wrap_shl h) a b = Ok (signed (2 * h) (Z.shiftl a b)) ∧ ashrXi3 h (wrap_shl h) a b = Ok (Z.shiftr a b) ∧ lshrXi3 h a b = Ok (if b =? 0 then a else Z.shiftr (cast (2 * h) a) b)) ∧
  (0 < b < h → a < 0 → ashlXi3 h (strict_shl h) a b = Fault SignedOverflow ∧ ashrXi3 h (strict_shl h) a b = Fault SignedOverflow) ∧
  (in_int (2 * h) b → cmpXi2 h a b = order_code (a ?= b)) ∧ (∀ x y, word (2 * h) x → word (2 * h) y → ucmpXi2 h x y = order_code (x ?= y)).
Proof.
  intros Hh Ha. assert (1 < h) as Hh1 by lia. assert (∃ j, 0 ≤ j ∧ h = 2 ^ j) as (j & Hj & Ej) by (destruct Hh as [->| ->]; [exists 5|exists 6]; done). assert (∀ x n v, wrap_shl h x n = Ok v → cast h v = cast h (Z.shiftl x n)) as Hw by (intros x n v [= <-]; by rewrite cast_signed, cast_cast). assert (∀ x n v, strict_shl h x n = Ok v → cast h v = cast h (Z.shiftl x n)) as Hs by (unfold strict_shl; intros x n v E; case_match; by inversion E). split_and!.
  - intros Hb. rewrite (ashlXi3_spec Hh1 a Ha b Hb _ Hw j Hj Ej), (ashrXi3_spec Hh1 a Ha b Hb _ Hw j Hj Ej), (lshrXi3_spec Hh1 a Ha b Hb j Hj Ej). unfold guarded, wrap_shl. by destruct (_ && _).
  - intros Hb Hneg. rewrite (ashlXi3_spec Hh1 a Ha b ltac:(lia) _ Hs j Hj Ej), (ashrXi3_spec Hh1 a Ha b ltac:(lia) _ Hs j Hj Ej). unfold guarded, strict_shl. rewrite !(proj2 (Z.ltb_lt _ _)) by lia. assert (a / 2 ^ h < 0) by (apply Z.div_lt_upper_bound; lia). by rewrite (proj2 (Z.leb_gt 0 (a / 2 ^ h))) by lia.
  - intros Hb. by apply cmpXi2_spec.
  - intros x y Hx Hy. apply ucmpXi2_spec; [lia|done|done].
Qed.

Lemma double_word_correct_witness : ashrXi3 32 (wrap_shl 32) (- 5) 1 = Ok (- 3).
Proof. destruct (double_word_correct 32 (- 5) 1) as (H & _); [by left|unfold in_int; lia|]. destruct H as (_ & H & _); [lia|]. exact H. Defined.

End IntBits.
