(* ===== verification/IntFloat.v ===== *)
(** * IntFloat: integers to floating-point numbers

    Models the conversions of [src/lib/builtins] whose names begin with [float], for integers of
    32, 64 and 128 bits and the three precisions.  They come in three kinds: a shift into the
    significand with the exponent and the sign around it; counting the significant digits and
    rounding by the last three of them; and, for 64 bits to double precision, two operations of the
    hardware on the halves, placed as significands of powers of two.  The arithmetic of the hardware is
    the class [DoubleArithmetic]; the software functions are an instance.

    The theorems: every conversion rounds to nearest even, without undefined shifts; the least
    integer overflows its type wherever the code negates in that type; converting to a
    floating-point number and back is the identity on integers of the significand's width. *)
From S2P Require Import Prelude Common IntDiv IntMul SoftFloat SoftAdd SoftMul SoftConvert.

Module IntFloat.
Import IntDiv IntMul SoftFloat SoftAdd SoftMul SoftConvert.

(** ** Shifting into the significand *)
Section Shifting.
Variable F : Format.
(** The width of the integer. *)
Variable aWidth : Z.

Definition float_shifted (a exponent : Z) : result Z :=
  let shift := significandBits F - exponent in
  x ← shl (typeWidth F) a shift;
  Ok (Z.lxor x (implicitBit F)).

Definition float_rounded (a exponent : Z) : result Z :=
  if exponent <=? significandBits F then
    let shift := significandBits F - exponent in
    x ← shl (typeWidth F) a shift;
    Ok (Z.lxor x (implicitBit F))
  else
    let shift := exponent - significandBits F in
    x ← shr (typeWidth F) a shift;
    let result := Z.lxor x (implicitBit F) in
    round ← shl (typeWidth F) a (typeWidth F - shift);
    let result := if signBit F <? round then cast (typeWidth F) (result + 1) else result in
    Ok (if round =? signBit F then cast (typeWidth F) (result + Z.land result 1) else result).

(** [significand] is one of the two above. *)
Variable significand : Z → Z → result Z.

Definition float_insert (a : Z) : result Z :=
  let exponent := aWidth - 1 - clz aWidth a in
  result ← significand a exponent;
  x ← shl (typeWidth F) (exponent + exponentBias F) (significandBits F);
  Ok (cast (typeWidth F) (result + x)).

Definition floatunsX (a : Z) : result Z := if a =? 0 then Ok 0 else float_insert a.

(** [-a] in the signed type, or in the unsigned one. *)
Definition negate_signed (a : Z) : result Z := ssub aWidth 0 a.
Definition negate_unsigned (a : Z) : result Z := Ok (cast aWidth (Z.lxor (cast aWidth a) (2 ^ aWidth - 1) + 1)).

Definition floatX (negate : Z → result Z) (a : Z) : result Z :=
  if a =? 0 then Ok 0
  else
    '(sign, a) ← (if a <? 0 then aAbs ← negate a; Ok (signBit F, aAbs) else Ok (0, cast aWidth a));
    result ← float_insert a;
    Ok (Z.lor result sign).

End Shifting.

(** ** Counting significant digits *)
Section Digits.
Variable F : Format.
Variable N : Z.

Abbreviation MANT_DIG := (significandBits F + 1) (only parsing).

(** [MANT_DIG] digits, two more, and whether anything follows them. *)
Definition digits_shift (a sd : Z) : result Z :=
  if sd =? MANT_DIG + 1 then shl N a 1
  else if sd =? MANT_DIG + 2 then Ok a
  else
    x ← shr N a (sd - (MANT_DIG + 2));
    mask ← shr N (2 ^ N - 1) (N + MANT_DIG + 2 - sd);
    Ok (Z.lor x (Z.b2z (negb (Z.land a mask =? 0)))).

(** The significand with [MANT_DIG] digits, and the exponent. *)
Definition digits_round (a sd : Z) : result (Z * Z) :=
  let e := sd - 1 in
  if MANT_DIG <? sd then
    a ← digits_shift a sd;
    let a := Z.lor a (Z.b2z (negb (Z.land a 4 =? 0))) in
    let a := cast N (a + 1) in
    a ← shr N a 2;
    carry ← shl N 1 MANT_DIG;
    if negb (Z.land a carry =? 0) then Ok (Z.shiftr a 1, e + 1) else Ok (a, e)
  else
    a ← shl N a (MANT_DIG - sd);
    Ok (a, e).

(** The fields in one word, and in a high and a low one; [s] is all ones or, always for unsigned
    integers, zero. *)
Definition fields_word (s e a : Z) : result Z :=
  x ← shl (typeWidth F) (e + exponentBias F) (significandBits F);
  Ok (Z.lor (Z.lor (Z.land (cast (typeWidth F) s) (2 ^ (typeWidth F - 1))) x) (Z.land (cast (typeWidth F) a) (significandMask F))).

Definition fields_halves (s e a : Z) : result Z :=
  let h := typeWidth F / 2 in
  x ← shl h (e + exponentBias F) (significandBits F - h);
  let high := Z.lor (Z.lor (Z.land (cast h s) (2 ^ (h - 1))) x) (Z.land (cast h (Z.shiftr a h)) (2 ^ (significandBits F - h) - 1)) in
  Ok (all h high (cast h a)).

(** [fields] is one of the two above. *)
Variable fields : Z → Z → Z → result Z.

Definition floatun_digits (a : Z) : result Z :=
  if a =? 0 then Ok 0
  else
    let sd := N - clz N a in
    '(a, e) ← digits_round a sd;
    fields 0 e a.

Definition float_digits (a : Z) : result Z :=
  if a =? 0 then Ok 0
  else
    let s := Z.shiftr a (N - 1) in
    a ← ssub N (Z.lxor a s) s;
    let sd := N - clz N a in
    '(a, e) ← digits_round a sd;
    fields s e a.

End Digits.

(** ** The functions *)
Definition floatunsisf : Z → result Z := floatunsX single 32 (float_rounded single).
Definition floatunsidf : Z → result Z := floatunsX double 32 (float_shifted double).
Definition floatunsitf : Z → result Z := floatunsX quad 32 (float_shifted quad).
Definition floatunditf : Z → result Z := floatunsX quad 64 (float_shifted quad).
Definition floatsisf : Z → result Z := floatX single 32 (float_rounded single) (negate_signed 32).
Definition floatsidf : Z → result Z := floatX double 32 (float_shifted double) (negate_signed 32).
Definition floatsitf : Z → result Z := floatX quad 32 (float_shifted quad) (negate_unsigned 32).
Definition floatditf : Z → result Z := floatX quad 64 (float_shifted quad) (negate_unsigned 64).

Definition floatundisf : Z → result Z := floatun_digits single 64 (fields_word single).
Definition floatuntisf : Z → result Z := floatun_digits single 128 (fields_word single).
Definition floatundidf : Z → result Z := floatun_digits double 64 (fields_halves double).
Definition floatuntidf : Z → result Z := floatun_digits double 128 (fields_halves double).
Definition floatuntitf : Z → result Z := floatun_digits quad 128 (fields_halves quad).
Definition floatdisf : Z → result Z := float_digits single 64 (fields_word single).
Definition floattisf : Z → result Z := float_digits single 128 (fields_word single).
Definition floatdidf : Z → result Z := float_digits double 64 (fields_halves double).
Definition floattidf : Z → result Z := float_digits double 128 (fields_halves double).
Definition floattitf : Z → result Z := float_digits quad 128 (fields_halves quad).

(** ** With the arithmetic of the hardware *)
Record DoubleOps := { dadd : Z → Z → Z; dsub : Z → Z → Z; dmul : Z → Z → Z; dint : Z → Z }.

Abbreviation twop32 := (0x41F0000000000000) (only parsing).
Abbreviation twop52 := (0x4330000000000000) (only parsing).
Abbreviation twop84 := (0x4530000000000000) (only parsing).
Abbreviation twop84_plus_twop52 := (0x4530000000100000) (only parsing).

Definition floatdidf_hard (O : DoubleOps) (a : Z) : Z :=
  let high := dmul O (dint O (signed 32 (Z.shiftr a 32))) twop32 in
  let low := Z.lor twop52 (Z.land a (2 ^ 32 - 1)) in
  dadd O (dsub O high twop52) low.

Definition floatundidf_hard (O : DoubleOps) (a : Z) : Z :=
  let high := Z.lor twop84 (Z.shiftr a 32) in
  let low := Z.lor twop52 (Z.land a (2 ^ 32 - 1)) in
  dadd O (dsub O high twop84_plus_twop52) low.

(** 2^24 + 1 and 2^24 + 3 lie between two numbers of single precision; 2^128 - 1 rounds up to infinity. *)
Example float_examples : floatunsisf 0x1000001 = Ok 0x4B800000 ∧ floatdisf (- 0x1000003) = Ok 0xCB800002 ∧ floatuntisf (2 ^ 128 - 1) = Ok 0x7F800000 ∧ floattidf (- 3) = Ok 0xC008000000000000 ∧ floatditf (- 2 ^ 63) = Ok 0xC03E0000000000000000000000000000 ∧ floatsisf (- 2 ^ 31) = Fault SignedOverflow.
Proof. split_and!; vm_compute; reflexivity. Qed.

(** ** Proofs *)
(** [c] is the integer [x], rounded. *)
Definition integer_rounded (F : Format) (x c : Z) : Prop :=
  ∃ r, nearest F (Z.abs x * 2 ^ (exponentBias F + significandBits F - 1)) 0 r ∧ c = signed_rep F (x <? 0) r.

Section Conversion.
Context {F : Format} {V : ValidFormat F}.
Local Abbreviation m := (significandBits F).
Local Abbreviation w := (typeWidth F).
Local Abbreviation bias := (exponentBias F).

Section Positive.
Context (a : Z) (Ha : 0 < a) (Hx : Z.log2 a ≤ bias).
Local Abbreviation x := (Z.log2 a).
Local Abbreviation X := (a * 2 ^ (bias + m - 1)).

Lemma exponent_range : 0 ≤ x ∧ 2 ^ x ≤ a < 2 * 2 ^ x ∧ 1 ≤ x + bias < maxExponent F.
Proof using V Ha Hx.
  pose proof (Z.log2_nonneg a). pose proof (Z.log2_spec a Ha) as Hl. rewrite Z.pow_succ_r in Hl by lia. destruct (bias_eq (F := F)) as [E Hb]. lia.
Qed.

(** No digit is lost. *)
Lemma shifted_nearest : x ≤ m → let q := a * 2 ^ (m - x) in 2 ^ m ≤ q < 2 * 2 ^ m ∧ nearest F X 0 ((x + bias - 1) * 2 ^ m + q).
Proof using V Ha Hx.
  intros Hm. cbv zeta. destruct exponent_range as (H0 & Hl & He). destruct (bias_eq (F := F)) as [_ Hb]. assert (2 ^ m = 2 ^ x * 2 ^ (m - x)) as Em by (rewrite <- Z.pow_add_r by lia; f_equal; lia). assert (0 < 2 ^ (m - x)) by (apply Z.pow_pos_nonneg; lia).
  assert (2 ^ m ≤ a * 2 ^ (m - x) < 2 * 2 ^ m) as Hq by (rewrite Em, Z.mul_assoc; split; [apply Z.mul_le_mono_nonneg_r; lia|apply Z.mul_lt_mono_pos_r; lia]). split; [done|]. set (q := a * 2 ^ (m - x)) in *. assert (q * 2 ^ (x + bias - 1 + 0) = X) as EX by (unfold q; rewrite <- Z.mul_assoc, <- Z.pow_add_r by lia; do 2 f_equal; lia).
  assert (0 < 2 ^ (x + bias - 1 + 0)) by (apply Z.pow_pos_nonneg; lia). apply (round_nearest X 0 (x + bias) q q); [done|done|lia|lia|lia|]. rewrite EX, Z.sub_diag. rewrite (proj2 (Z.ltb_ge _ _)), (proj2 (Z.eqb_neq _ _)) by lia. cbn [orb andb Z.b2z]. lia.
Qed.

(** Digits beyond the significand decide the rounding. *)
Lemma rounded_nearest : m < x → let P := 2 ^ (x - m) in let q := a / P in let g := a mod P in 2 ^ m ≤ q < 2 * 2 ^ m ∧ 0 ≤ g < P ∧
  nearest F X 0 ((x + bias - 1) * 2 ^ m + (q + Z.b2z ((P <? 2 * g) || ((P =? 2 * g) && Z.odd q)))).
Proof using V Ha Hx.
  intros Hm. cbv zeta. destruct exponent_range as (H0 & Hl & He). destruct (bias_eq (F := F)) as [_ Hb]. assert (2 ≤ m) as Hm2 by (destruct V; lia). assert (2 ^ x = 2 ^ m * 2 ^ (x - m)) as Em by (rewrite <- Z.pow_add_r by lia; f_equal; lia). assert (0 < 2 ^ (x - m)) as HP by (apply Z.pow_pos_nonneg; lia).
  assert (2 ^ (x + bias - 1 + 0) = 2 ^ (x - m) * 2 ^ (bias + m - 1)) as EU by (rewrite <- Z.pow_add_r by lia; f_equal; lia). set (P := 2 ^ (x - m)) in *. set (Q := 2 ^ (bias + m - 1)) in *. assert (0 < Q) as HQ by (apply Z.pow_pos_nonneg; lia). pose proof (Z.div_mod a P ltac:(lia)) as E. pose proof (Z.mod_pos_bound a P ltac:(lia)) as Hg. set (q := a / P) in *. set (g := a mod P) in *.
  assert (2 ^ m ≤ q < 2 * 2 ^ m) as Hq by (split; [apply Z.div_le_lower_bound; lia|apply Z.div_lt_upper_bound; lia]). clearbody P Q q g. split; [done|]. split; [done|]. pose proof (round_nearest (F := F) (a * Q) 0 (x + bias) q) as H. cbv zeta in H. rewrite EU in H. replace (a * Q - q * (P * Q)) with (g * Q) in H by (rewrite E; ring).
  assert (∀ b c, (b * Q <? c * Q) = (b <? c) ∧ (b * Q =? c * Q) = (b =? c)) as Hc.
  { intros b c. split; apply Bool.eq_iff_eq_true; rewrite ?Z.ltb_lt, ?Z.eqb_eq; [symmetry; by apply Z.mul_lt_mono_pos_r|apply Z.mul_cancel_r; lia]. }
  replace (2 * (g * Q)) with (2 * g * Q) in H by ring. destruct (Hc P (2 * g)) as [Hlt Heq]. rewrite Hlt, Heq in H. apply H; [lia|done|lia|lia| |done]. rewrite E. assert (g * Q < P * Q) by (apply Z.mul_lt_mono_pos_r; lia). assert (0 ≤ g * Q) by (apply Z.mul_nonneg_nonneg; lia). lia.
Qed.

(** What the two forms leave of the significand: the exponent makes up for the implicit bit. *)
Definition significand_of (y : Z) : Prop := 0 ≤ y ≤ 2 ^ m ∧ nearest F X 0 ((x + bias) * 2 ^ m + y).

Lemma insert_exponent y : significand_of y → (e ← shl w (x + bias) m; Ok (cast w (y + e))) = Ok ((x + bias) * 2 ^ m + y) ∧ 0 ≤ (x + bias) * 2 ^ m + y ≤ infRep F.
Proof using V Ha Hx.
  intros [Hy [Hr _]]. destruct exponent_range as (H0 & Hl & He). destruct infRep_eq as [_ Ei]. pose proof implicit_pos. pose proof (pow2_half w ltac:(destruct V; lia)). split; [|done]. assert (0 ≤ (x + bias) * 2 ^ m) by (apply Z.mul_nonneg_nonneg; lia). rewrite shl_ok by (destruct V; lia). rewrite Z.shiftl_mul_pow2 by (destruct V; lia). rewrite cast_id by lia. cbn [mbind result_bind]. f_equal. rewrite cast_id; lia.
Qed.

Lemma significand_exact q : 2 ^ m ≤ q < 2 * 2 ^ m → nearest F X 0 ((x + bias - 1) * 2 ^ m + q) → significand_of (q - 2 ^ m).
Proof using Type. intros Hq Hn. split; [lia|]. by replace ((x + bias) * 2 ^ m + (q - 2 ^ m)) with ((x + bias - 1) * 2 ^ m + q) by ring. Qed.

Lemma float_shifted_spec : x ≤ m → ∃ y, float_shifted F a x = Ok y ∧ significand_of y.
Proof using V Ha Hx.
  intros Hm. destruct (shifted_nearest Hm) as [Hq Hn]. destruct exponent_range as (H0 & Hl & He). unfold float_shifted. pose proof (pow2_half w ltac:(destruct V; lia)). assert (2 ^ m ≤ 2 ^ (w - 1)) by (destruct V; apply Z.pow_le_mono_r; lia). rewrite shl_ok by (destruct V; lia). rewrite Z.shiftl_mul_pow2 by lia. rewrite cast_id by lia. cbn [mbind result_bind]. rewrite lxor_implicit by done. eauto using significand_exact.
Qed.

Lemma float_rounded_spec : a < 2 ^ w → ∃ y, float_rounded F a x = Ok y ∧ significand_of y.
Proof using V Ha Hx.
  intros Hw. unfold float_rounded. destruct (Z.leb_spec x m) as [Hm|Hm]; [exact (float_shifted_spec Hm)|]. destruct (rounded_nearest Hm) as (Hq & Hg & Hn). destruct exponent_range as (H0 & Hl & He). assert (2 ≤ m ∧ m + 5 ≤ w) as [Hm2 Hmw] by (destruct V; lia). assert (x < w) as Hxw by (apply Z.log2_lt_pow2; lia). destruct (udiv_start w a (x - m) ltac:(lia) ltac:(lia)) as [-> ->]. cbn [mbind result_bind]. rewrite signBit_eq, lxor_implicit by done.
  set (P := 2 ^ (x - m)) in *. set (q := a / P) in *. set (g := a mod P) in *. assert (2 ^ (w - 1) * 2 = P * 2 ^ (w - (x - m))) as Ew by (unfold P; rewrite <- Z.pow_add_r, Z.mul_comm by lia; rewrite <- (pow2_half w) by lia; f_equal; lia). set (R := 2 ^ (w - (x - m))) in *. assert (0 < R) as HR by (apply Z.pow_pos_nonneg; lia). assert (2 ^ m < 2 ^ (w - 1)) by (apply Z.pow_lt_mono_r; lia). pose proof (pow2_half w ltac:(lia)).
  assert ((2 ^ (w - 1) <? g * R) = (P <? 2 * g) ∧ (g * R =? 2 ^ (w - 1)) = (P =? 2 * g)) as [-> ->].
  { split; apply Bool.eq_iff_eq_true; rewrite ?Z.ltb_lt, ?Z.eqb_eq; [rewrite (Z.mul_lt_mono_pos_r R P) by done; lia|rewrite <- (Z.mul_cancel_r P _ R) by lia; lia]. }
  clearbody P q g R. eexists. split; [done|]. assert (Z.odd (q - 2 ^ m) = Z.odd q) as Hodd by (rewrite Z.odd_sub, (Z.odd_pow 2 m) by lia; apply xorb_false_r). destruct (Z.ltb_spec P (2 * g)) as [Hlt|Hge]; cbn [orb] in Hn.
  - rewrite (proj2 (Z.eqb_neq _ _)) by lia. rewrite cast_id by lia. split; [lia|]. cbn [Z.b2z] in Hn. by replace ((x + bias) * 2 ^ m + (q - 2 ^ m + 1)) with ((x + bias - 1) * 2 ^ m + (q + 1)) by ring.
  - destruct (Z.eqb_spec P (2 * g)); cbn [andb] in Hn; [|rewrite Z.add_0_r in Hn; by apply significand_exact]. rewrite land_1, Hodd. rewrite cast_id by (destruct (Z.odd q); cbn [Z.b2z]; lia). split; [destruct (Z.odd q); cbn [Z.b2z]; lia|]. by replace ((x + bias) * 2 ^ m + (q - 2 ^ m + Z.b2z (Z.odd q))) with ((x + bias - 1) * 2 ^ m + (q + Z.b2z (Z.odd q))) by ring.
Qed.

(** The digits that are left, with what follows them in the lowest bit. *)
Lemma digits_shift_spec N : m + 4 ≤ N → a < 2 ^ N → m < x → ∃ T P, digits_shift F N a (x + 1) = Ok T ∧ 0 < P ∧ 4 * P = 2 ^ (x + bias - 1) ∧ sticky T X P ∧ 4 * 2 ^ m ≤ T < 8 * 2 ^ m.
Proof using V Ha Hx.
  intros HN Hw Hm. destruct exponent_range as (H0 & Hl & He). destruct (bias_eq (F := F)) as [_ Hb]. assert (2 ≤ m) as Hm2 by (destruct V; lia). assert (2 ^ (m + 3) = 8 * 2 ^ m) as E3 by (rewrite Z.pow_add_r by lia; lia). assert (2 ^ (m + 3) < 2 ^ N) by (apply Z.pow_lt_mono_r; lia). set (P := 2 ^ (x + bias - 3)). assert (0 < P) as HP by (apply Z.pow_pos_nonneg; lia). assert (4 * P = 2 ^ (x + bias - 1)) as E4 by (unfold P; change 4 with (2 ^ 2); rewrite <- Z.pow_add_r by lia; f_equal; lia).
  assert (∀ k, x = m + k → 0 ≤ k → 2 ^ x = 2 ^ k * 2 ^ m ∧ P * 2 ^ 2 = 2 ^ k * 2 ^ (bias + m - 1)) as Hk by (intros k Ek Hk; unfold P; rewrite <- !Z.pow_add_r by lia; split; f_equal; lia). unfold digits_shift. destruct (Z.eqb_spec (x + 1) (m + 1 + 1)) as [E1|H1]; [|destruct (Z.eqb_spec (x + 1) (m + 1 + 2)) as [E2|H2]].
  - destruct (Hk 1 ltac:(lia) ltac:(lia)) as [Ex EP]. exists (2 * a), P. rewrite shl_ok by lia. rewrite Z.shiftl_mul_pow2 by lia. change (2 ^ 1) with 2 in *. rewrite cast_id by lia. split; [f_equal; lia|]. split; [done|]. split; [done|]. split; [left; replace (2 ^ (bias + m - 1)) with (2 * P) by lia; ring|lia].
  - destruct (Hk 2 ltac:(lia) ltac:(lia)) as [Ex EP]. exists a, P. change (2 ^ 2) with 4 in *. split; [done|]. split; [done|]. split; [done|]. split; [left; f_equal; lia|lia].
  - set (n := x - m - 2). destruct (Hk (n + 2) ltac:(lia) ltac:(lia)) as [Ex EP]. assert (x < N) as HxN by (apply Z.log2_lt_pow2; lia). rewrite !shr_ok by lia. cbn [mbind result_bind]. replace (x + 1 - (m + 1 + 2)) with n by lia. replace (N + (m + 1) + 2 - (x + 1)) with (N - n) by lia. replace (2 ^ N - 1) with (Z.ones N) by (rewrite Z.ones_equiv; lia).
    assert (Z.shiftr (Z.ones N) (N - n) = Z.ones n) as -> by (rewrite Z.shiftr_div_pow2, Z.ones_div_pow2 by lia; f_equal; lia). rewrite Z.land_ones, Z.shiftr_div_pow2, lor_b2z by lia. rewrite Z.pow_add_r in Ex, EP by lia. set (D := 2 ^ n) in *. assert (0 < D) as HD by (apply Z.pow_pos_nonneg; lia). change (2 ^ 2) with 4 in *.
    exists (if a mod D =? 0 then a / D else 2 * (a / D / 2) + 1), P. split; [by destruct (a mod D =? 0)|]. split; [done|]. split; [done|]. assert (4 * 2 ^ m ≤ a / D < 8 * 2 ^ m) as Hd by (split; [apply Z.div_le_lower_bound; lia|apply Z.div_lt_upper_bound; lia]). split; [|pose proof (Z.div_mod (a / D) 2 ltac:(lia)); pose proof (Z.mod_pos_bound (a / D) 2 ltac:(lia)); destruct (a mod D =? 0); lia].
    replace P with (2 ^ (bias + m - 1) * D) by lia. apply (sticky_shift a); [lia|apply Z.pow_pos_nonneg; lia|lia|by left].
Qed.

(** Rounding by the last two digits. *)
Lemma last_digits T : 0 ≤ T → (Z.lor T (Z.b2z (negb (Z.land T 4 =? 0))) + 1) / 4 = let q := T / 4 in q + Z.b2z ((2 <? T mod 4) || ((T mod 4 =? 2) && Z.odd q)).
Proof using F.
  intros HT. cbv zeta. change 4 with (2 ^ 2) at 1. rewrite land_pow2, Z.testbit_odd, Z.shiftr_div_pow2, lor_b2z by lia. change (2 ^ 2) with 4. pose proof (Z.div_mod T 4 ltac:(lia)) as E. pose proof (Z.mod_pos_bound T 4 ltac:(lia)) as Hg. set (q := T / 4) in *. set (g := T mod 4) in *. clearbody q g. subst T.
  assert ((4 * q + g) / 2 = 2 * q + g / 2) as -> by (replace (4 * q + g) with (g + 2 * q * 2) by ring; rewrite Z.div_add by lia; lia). assert (g = 0 ∨ g = 1 ∨ g = 2 ∨ g = 3) as Hg4 by lia. clear Hg HT.
  destruct (Z.odd q); cbn [negb Z.eqb]; destruct Hg4 as [->|[->|[->| ->]]]; change (0 / 2) with 0; change (1 / 2) with 0; change (2 / 2) with 1; change (3 / 2) with 1; cbn [Z.ltb Z.compare Z.eqb Pos.eqb orb andb Z.b2z Pos.compare Pos.compare_cont]; symmetry; first [apply (Z.div_unique_pos _ _ _ 0); lia | apply (Z.div_unique_pos _ _ _ 1); lia | apply (Z.div_unique_pos _ _ _ 2); lia | apply (Z.div_unique_pos _ _ _ 3); lia].
Qed.

Lemma digits_round_spec N : m + 4 ≤ N → a < 2 ^ N → ∃ a' e, digits_round F N a (x + 1) = Ok (a', e) ∧ 2 ^ m ≤ a' < 2 * 2 ^ m ∧ 1 ≤ e + bias ≤ maxExponent F ∧ nearest F X 0 ((e + bias - 1) * 2 ^ m + a').
Proof using V Ha Hx.
  intros HN Hw. destruct exponent_range as (H0 & Hl & He). assert (2 ≤ m) as Hm2 by (destruct V; lia). assert (2 ^ (m + 3) = 8 * 2 ^ m) as E3 by (rewrite Z.pow_add_r by lia; lia). assert (2 ^ (m + 3) < 2 ^ N) by (apply Z.pow_lt_mono_r; lia). unfold digits_round. replace (x + 1 - 1) with x by lia. destruct (Z.ltb_spec (m + 1) (x + 1)) as [Hm|Hm].
  - destruct (digits_shift_spec N HN Hw ltac:(lia)) as (T & P & -> & HP & EP & Hst & HT). cbn [mbind result_bind]. destruct (sticky_round T X P 2 ltac:(lia) HP ltac:(lia) Hst) as (Hq & Hup & Htie). change (2 ^ 2) with 4 in *. change (2 ^ (2 - 1)) with 2 in *. rewrite EP in Hq, Hup, Htie. pose proof (last_digits T ltac:(lia)) as Ed. cbv zeta in Ed. set (inc := Z.b2z ((2 <? T mod 4) || ((T mod 4 =? 2) && Z.odd (T / 4)))) in *. assert (2 ^ m ≤ T / 4 < 2 * 2 ^ m) as Hd by (split; [apply Z.div_le_lower_bound; lia|apply Z.div_lt_upper_bound; lia]).
    assert (nearest F X 0 ((x + bias - 1) * 2 ^ m + (T / 4 + inc))) as Hn by (apply (round_nearest (F := F) X 0 (x + bias) (T / 4)); rewrite ?Z.add_0_r; try done || lia; unfold inc; by rewrite Hup, Htie). assert (0 ≤ inc ≤ 1) by (unfold inc; destruct (_ || _); cbn [Z.b2z]; lia). assert (0 ≤ Z.lor T (Z.b2z (negb (Z.land T 4 =? 0))) + 1 < 2 ^ N) as HL by (rewrite lor_b2z; pose proof (Z.div_mod T 2 ltac:(lia)); pose proof (Z.mod_pos_bound T 2 ltac:(lia)); destruct (negb _); lia).
    rewrite (cast_id N (_ + 1)) by done. rewrite shr_ok by lia. cbn [mbind result_bind]. rewrite shl_ok by lia. cbn [mbind result_bind]. rewrite Z.shiftr_div_pow2, Z.shiftl_1_l by lia. change (2 ^ 2) with 4. rewrite Ed. set (r := T / 4 + inc) in *. assert (2 ^ (m + 1) = 2 * 2 ^ m) as E1 by (rewrite Z.pow_add_r by lia; lia). rewrite (cast_id N (2 ^ (m + 1))) by lia. rewrite land_pow2 by lia. destruct (decide (r = 2 ^ (m + 1))) as [->|Hne].
    + rewrite Z.pow2_bits_true by lia. rewrite (proj2 (Z.eqb_neq (2 ^ (m + 1)) 0)) by lia. cbn [negb]. exists (2 ^ m), (x + 1). rewrite Z.shiftr_div_pow2, E1 by lia. change (2 ^ 1) with 2. rewrite Z.mul_comm, Z.div_mul by lia. split; [done|]. split; [lia|]. split; [lia|]. by replace ((x + 1 + bias - 1) * 2 ^ m + 2 ^ m) with ((x + bias - 1) * 2 ^ m + 2 ^ (m + 1)) by (rewrite E1; ring).
    + rewrite (testbit_high (m + 1)) by lia. cbn [negb Z.eqb]. exists r, x. split; [done|]. split; [lia|]. split; [lia|done].
  - destruct (shifted_nearest ltac:(lia)) as [Hq Hn]. rewrite shl_ok by lia. rewrite Z.shiftl_mul_pow2 by lia. replace (m + 1 - (x + 1)) with (m - x) by lia. rewrite cast_id by lia. exists (a * 2 ^ (m - x)), x. cbn [mbind result_bind]. split; [done|]. split; [done|]. split; [lia|done].
Qed.

End Positive.

(** ** Interfaces *)
(** What [float_insert] needs of the significand. *)
Class Significand (N : Z) (significand : Z → Z → result Z) : Prop := {
  sg_width : 1 < N;
  sg_range : N - 1 ≤ bias;
  sg_ok a : 0 < a < 2 ^ N → ∃ y, significand a (Z.log2 a) = Ok y ∧ significand_of a y
}.

(** What the other conversions need of the fields. *)
Class Fields (fields : Z → Z → Z → result Z) : Prop :=
  fields_ok s e a : (s = 0 ∨ s = -1) → 2 ^ m ≤ a < 2 * 2 ^ m → 1 ≤ e + bias ≤ maxExponent F → fields s e a = Ok (signed_rep F (s <? 0) ((e + bias - 1) * 2 ^ m + a)).

Lemma log2_bound N a : N - 1 ≤ bias → 0 < a < 2 ^ N → Z.log2 a ≤ bias.
Proof using Type. intros HN Ha. assert (Z.log2 a < N) by (apply Z.log2_lt_pow2; lia). lia. Qed.

Lemma zero_rounded : integer_rounded F 0 0.
Proof using V.
  exists 0. split; [|done]. pose proof implicit_pos. destruct infRep_eq as [_ Ei]. assert (2 ^ m ≤ 2 ^ (w - 1)) by (destruct V; apply Z.pow_le_mono_r; lia). pose proof (nearest_exact (F := F) 0 ltac:(lia)) as Hn. by rewrite mag_small in Hn by lia.
Qed.

(** A rounded magnitude with its sign. *)
Lemma rounded_sign a r : nearest F (Z.abs a * 2 ^ (bias + m - 1)) 0 r → integer_rounded F a (Z.lor r (signed_rep F (a <? 0) 0)).
Proof using V. intros Hn. exists r. split; [done|]. destruct infRep_eq as [_ Ei]. pose proof implicit_pos. apply lor_sign. destruct Hn as [Hr _]. lia. Qed.

Section Shift.
Context {N : Z} {significand : Z → Z → result Z} {SG : Significand N significand}.

Lemma float_insert_spec a : 0 < a < 2 ^ N → ∃ r, float_insert F N significand a = Ok r ∧ nearest F (a * 2 ^ (bias + m - 1)) 0 r.
Proof using V SG.
  intros Ha. destruct SG as [H1 HN Hok]. pose proof (log2_bound N a HN Ha) as Hb. destruct (Hok a Ha) as (y & Ey & Hy). unfold float_insert, clz. replace (N - 1 - (N - 1 - Z.log2 a)) with (Z.log2 a) by lia. rewrite Ey. cbn [mbind result_bind]. destruct (insert_exponent a ltac:(lia) Hb y Hy) as [-> _]. destruct Hy. eauto.
Qed.

Lemma floatunsX_spec a : word N a → ∃ c, floatunsX F N significand a = Ok c ∧ integer_rounded F a c.
Proof using V SG.
  unfold word, floatunsX. intros Ha. destruct (Z.eqb_spec a 0) as [->|Hne]; [eauto using zero_rounded|]. destruct (float_insert_spec a ltac:(lia)) as (r & Er & Hn). exists r. split; [done|]. exists r. rewrite Z.abs_eq, (proj2 (Z.ltb_ge a 0)) by lia. done.
Qed.

Lemma floatX_spec negate a : in_int N a → (a < 0 → negate a = Ok (- a)) → ∃ c, floatX F N significand negate a = Ok c ∧ integer_rounded F a c.
Proof using V SG.
  unfold in_int, floatX. intros Ha Hneg. assert (1 < N) as HN by (by destruct SG). pose proof (pow2_half N ltac:(lia)). destruct (Z.eqb_spec a 0) as [->|Hne]; [eauto using zero_rounded|]. destruct (float_insert_spec (Z.abs a) ltac:(lia)) as (r & Er & Hn). pose proof (rounded_sign a r Hn) as Hs. destruct (Z.ltb_spec a 0) as [Hlt|Hge].
  - rewrite (Hneg Hlt). cbn [mbind result_bind]. rewrite Z.abs_neq in Er by lia. rewrite Er. cbn [mbind result_bind]. rewrite signBit_eq. eauto.
  - cbn [mbind result_bind]. rewrite cast_id by lia. rewrite Z.abs_eq in Er by lia. rewrite Er. cbn [mbind result_bind]. eauto.
Qed.

End Shift.

Section Count.
Context {N : Z} (HN : m + 4 ≤ N) (Hb : N - 1 ≤ bias) {fields : Z → Z → Z → result Z} {FO : Fields fields}.

Lemma digits_fields a s : 0 < a < 2 ^ N → (s = 0 ∨ s = -1) → ∃ r, ('(a, e) ← digits_round F N a (N - clz N a); fields s e a) = Ok (signed_rep F (s <? 0) r) ∧ nearest F (a * 2 ^ (bias + m - 1)) 0 r.
Proof using V FO HN Hb.
  intros Ha Hs. unfold clz. replace (N - (N - 1 - Z.log2 a)) with (Z.log2 a + 1) by lia. destruct (digits_round_spec a ltac:(lia) (log2_bound N a Hb Ha) N HN ltac:(lia)) as (a' & e & -> & Ha' & He & Hn). cbn [mbind result_bind]. rewrite fields_ok by done. eauto.
Qed.

Lemma floatun_digits_spec a : word N a → ∃ c, floatun_digits F N fields a = Ok c ∧ integer_rounded F a c.
Proof using V FO HN Hb.
  unfold word, floatun_digits. intros Ha. destruct (Z.eqb_spec a 0) as [->|Hne]; [eauto using zero_rounded|]. destruct (digits_fields a 0 ltac:(lia) ltac:(by left)) as (r & -> & Hn). eexists. split; [done|]. exists r. rewrite Z.abs_eq, (proj2 (Z.ltb_ge a 0)) by lia. done.
Qed.

Lemma float_digits_spec a : in_int N a → a ≠ - 2 ^ (N - 1) → ∃ c, float_digits F N fields a = Ok c ∧ integer_rounded F a c.
Proof using V FO HN Hb.
  intros Hi Hmin. unfold float_digits. assert (2 ≤ m) by (destruct V; lia). rewrite (ssub_sign N ltac:(lia)) by done. rewrite (proj2 (Z.eqb_neq a (- 2 ^ (N - 1)))) by done. destruct (Z.eqb_spec a 0) as [->|Hne]; [eauto using zero_rounded|]. cbn [mbind result_bind]. rewrite (sign_shift N ltac:(lia)) by done. unfold in_int in Hi. pose proof (pow2_half N ltac:(lia)).
  destruct (digits_fields (Z.abs a) (if a <? 0 then -1 else 0) ltac:(lia) ltac:(destruct (a <? 0); auto)) as (r & -> & Hn). eexists. split; [done|]. exists r. split; [done|]. by destruct (a <? 0).
Qed.

End Count.

(** ** Implementations *)
Lemma shifted_significand N : 1 < N → N - 1 ≤ bias → N - 1 ≤ m → Significand N (float_shifted F).
Proof using V.
  intros H1 Hb Hm. split; [done|done|]. intros a Ha. assert (Z.log2 a < N) by (apply Z.log2_lt_pow2; lia). apply float_shifted_spec; lia.
Qed.

Lemma rounded_significand N : 1 < N → N - 1 ≤ bias → N ≤ w → Significand N (float_rounded F).
Proof using V.
  intros H1 Hb Hw. split; [done|done|]. intros a Ha. assert (2 ^ N ≤ 2 ^ w) by (apply Z.pow_le_mono_r; lia). apply float_rounded_spec; [lia|by apply (log2_bound N)|lia].
Qed.

(** The sign, the exponent and the significand side by side. *)
Lemma side_by_side s E f : (s = 0 ∨ s = -1) → 0 ≤ f < 2 ^ m → 0 ≤ E ≤ maxExponent F →
  shl w E m = Ok (E * 2 ^ m) ∧ Z.lor (Z.lor (Z.land (cast w s) (2 ^ (w - 1))) (E * 2 ^ m)) f = f + E * 2 ^ m + signed_rep F (s <? 0) 0.
Proof using V.
  intros Hs Hf HE. destruct (SoftFloat.fields (F := F) f E (s <? 0) Hf HE) as [Ef Hlt]. assert (5 ≤ w ∧ 0 ≤ m < w) as [Hw Hm] by (destruct V; lia). pose proof (pow2_half w ltac:(lia)). assert (0 ≤ E * 2 ^ m) by (apply Z.mul_nonneg_nonneg; lia). split; [rewrite shl_ok by lia; rewrite Z.shiftl_mul_pow2 by lia; by rewrite cast_id by lia|].
  assert (Z.land (cast w s) (2 ^ (w - 1)) = signed_rep F (s <? 0) 0) as ->; [|by rewrite (Z.lor_comm _ f), (Z.lor_comm (signed_rep F _ 0)), Z.lor_assoc]. destruct Hs as [->| ->]; [by rewrite cast_id, Z.land_0_l by lia|]. replace (cast w (-1)) with (Z.ones w) by (rewrite (cast_congr w (-1) (2 ^ w - 1) (-1)) by lia; rewrite cast_id, Z.ones_equiv by lia; lia).
  rewrite Z.land_comm, Z.land_ones, Z.mod_small by lia. done.
Qed.

#[export] Instance word_fields : Fields (fields_word F).
Proof using V.
  intros s e a Hs Ha He. unfold fields_word. pose proof implicit_pos. assert (2 * 2 ^ m ≤ 2 ^ w) by (rewrite <- Z.pow_succ_r by (destruct V; lia); apply Z.pow_le_mono_r; destruct V; lia). rewrite (cast_id w a) by lia. replace (2 ^ m - 1) with (Z.ones m) by (rewrite Z.ones_equiv; lia). rewrite Z.land_ones by (destruct V; lia). destruct (div_unique a (2 ^ m) 1 (a - 2 ^ m)) as [_ ->]; [lia|lia|].
  destruct (side_by_side s (e + bias) (a - 2 ^ m) Hs ltac:(lia) ltac:(lia)) as [-> H2]. cbn [mbind result_bind]. rewrite H2, (signed_rep_add (F := F) _ (_ + a)). f_equal. ring.
Qed.

End Conversion.

(** The high word is a number of half the width. *)
Abbreviation half_format F := ({| typeWidth := typeWidth F / 2; significandBits := significandBits F - typeWidth F / 2 |}).

Class Halves (F : Format) : Prop := {
  hv_even : typeWidth F = 2 * (typeWidth F / 2);
  hv_valid :: ValidFormat (half_format F)
}.

#[export] Instance double_halves : Halves double.
Proof. split; [done|]. split; cbn; change (64 / 2) with 32; lia. Qed.

#[export] Instance quad_halves : Halves quad.
Proof. split; [done|]. split; cbn; change (128 / 2) with 64; lia. Qed.

#[export] Instance halves_fields F `{!ValidFormat F, H : !Halves F} : Fields (F := F) (fields_halves F).
Proof.
  intros s e a Hs Ha He. destruct H as [Hw VH]. unfold fields_halves. assert (exponentBits F = exponentBits (half_format F)) as Ex by (cbn; lia). rewrite Ex in *. clear Ex. cbn in *. set (h := typeWidth F / 2) in *. set (m := significandBits F) in *. assert (2 ≤ m - h ∧ 0 < h) as [Hm Hh] by (destruct VH as [H1 H2 _]; cbn in *; lia).
  assert (2 ^ m = 2 ^ h * 2 ^ (m - h)) as Em by (rewrite <- Z.pow_add_r by lia; f_equal; lia). assert (0 < 2 ^ h) by lia. assert (0 < 2 ^ (m - h)) by lia. assert (0 ≤ a / 2 ^ h < 2 * 2 ^ (m - h)) by (split; [apply Z.div_pos; lia|apply Z.div_lt_upper_bound; lia]). rewrite Z.shiftr_div_pow2 by lia. rewrite (cast_id h (a / 2 ^ h)) by (assert (2 * 2 ^ (m - h) ≤ 2 ^ h) by (rewrite <- Z.pow_succ_r by lia; apply Z.pow_le_mono_r; destruct VH as [_ H2 _]; cbn in *; lia); lia).
  replace (2 ^ (m - h) - 1) with (Z.ones (m - h)) by (rewrite Z.ones_equiv; lia). rewrite Z.land_ones by lia. pose proof (Z.mod_pos_bound (a / 2 ^ h) (2 ^ (m - h)) ltac:(lia)) as Hf.
  set (E := e + Z.shiftr (2 ^ (h - (m - h) - 1) - 1) 1) in *. destruct (side_by_side (F := {| typeWidth := h; significandBits := m - h |}) s E _ Hs Hf ltac:(cbn; lia)) as [E1 E2]. cbn in E1, E2. rewrite E1. cbn [mbind result_bind]. rewrite E2. unfold all, cast. f_equal.
  pose proof (Z.rem_mul_r a (2 ^ h) (2 ^ (m - h)) ltac:(lia) ltac:(lia)) as Er. rewrite <- Em in Er. destruct (div_unique a (2 ^ m) 1 (a - 2 ^ m)) as [_ E3]; [lia|lia|]. rewrite E3 in Er. assert (2 ^ (typeWidth F - 1) = 2 ^ h * 2 ^ (h - 1)) as E4 by (rewrite <- Z.pow_add_r by lia; f_equal; lia). unfold signed_rep. cbn. rewrite E4. destruct Hs as [->| ->]; cbn; nia.
Qed.

(** ** The arithmetic of the hardware *)
(** Operations of double precision round to nearest even. *)
Class DoubleArithmetic (O : DoubleOps) : Prop := {
  da_add a b : finite double a → finite double b → sum_rounded double a b (dadd O a b);
  da_sub a b : finite double a → finite double b → sum_rounded double a (Z.lxor b (2 ^ 63)) (dsub O a b);
  da_mul a b : finite double a → finite double b → product_rounded double a b (dmul O a b);
  da_int x : in_int 32 x → integer_rounded double x (dint O x)
}.

Section Hardware.
Local Abbreviation bias := (exponentBias double).
(** One, in units of the smallest subnormal number. *)
Definition one : Z := 2 ^ 1074.

(** A number of double precision with the value [x]. *)
Definition stands_for (c x : Z) : Prop := finite double c ∧ value double c = x.

Lemma one_pos : 0 < one.
Proof. unfold one. apply Z.pow_pos_nonneg; lia. Qed.

Lemma stands_for_rep neg r x : 0 ≤ r < infRep double → mag double r = Z.abs x → (x < 0 → neg = true) → (0 < x → neg = false) → stands_for (signed_rep double neg r) x.
Proof.
  intros Hr Em Hn Hp. destruct (infRep_eq (F := double)) as [_ Ei]. cbn in Hr, Ei. assert (0 ≤ r < 2 ^ (64 - 1)) as Hr' by lia. split; [split; [by apply (rep_word (F := double))|destruct (rep_mod (F := double) neg r Hr') as [-> _]; cbn; lia]|]. rewrite value_signed by done. rewrite Em. destruct (Z.lt_trichotomy x 0) as [Hlt|[->|Hlt]]; [rewrite (Hn Hlt); lia|by destruct neg|rewrite (Hp Hlt); lia].
Qed.

(** Multiples of a power of two with few digits are represented. *)
Lemma representable x j : 0 ≤ j < 64 → Z.abs x < 2 ^ 53 → ∃ r, 0 ≤ r < infRep double ∧ mag double r = Z.abs (x * 2 ^ j * one).
Proof.
  intros Hj Hx. destruct (infRep_eq (F := double)) as [Ei _]. rewrite Ei. clear Ei. cbn. pose proof one_pos. assert (0 < 2 ^ j) by lia. rewrite !Z.abs_mul, (Z.abs_eq one), (Z.abs_eq (2 ^ j)) by lia. set (s := Z.abs x) in *. destruct (Z.eq_dec s 0) as [->|Hne]; [exists 0; split; [lia|done]|]. assert (0 < s) as Hs by lia. pose proof (Z.log2_spec s Hs) as Hl. pose proof (Z.log2_nonneg s). assert (Z.log2 s < 53) by (apply Z.log2_lt_pow2; lia). rewrite Z.pow_succ_r in Hl by lia. set (l := Z.log2 s) in *.
  assert (2 ^ 52 = 2 ^ l * 2 ^ (52 - l)) as E by (rewrite <- Z.pow_add_r by lia; f_equal; lia). assert (0 < 2 ^ (52 - l)) as HP by (apply Z.pow_pos_nonneg; lia). set (q := s * 2 ^ (52 - l)). assert (2 ^ 52 ≤ q < 2 * 2 ^ 52) as Hq by (unfold q; rewrite E, Z.mul_assoc; split; [apply Z.mul_le_mono_nonneg_r; lia|apply Z.mul_lt_mono_pos_r; lia]).
  exists ((l + j + 1023 - 1) * 2 ^ 52 + q). split; [lia|]. pose proof (mag_index (F := double) (l + j + 1023) q) as Em. cbn [significandBits double] in Em. rewrite Em by lia. unfold q, one. rewrite <- !Z.mul_assoc, <- !Z.pow_add_r by lia. do 2 f_equal. lia.
Qed.

(** Rounding keeps what is represented. *)
Lemma exact_sum a b x j : 0 ≤ j < 64 → Z.abs x < 2 ^ 53 → value double a + value double b = x * 2 ^ j * one → ∀ c, sum_rounded double a b c → stands_for c (x * 2 ^ j * one).
Proof.
  intros Hj Hx E c [H0 H1]. rewrite E in H0, H1. destruct (representable x j Hj Hx) as (r & Hr & Em). set (y := x * 2 ^ j * one) in *. clearbody y. destruct (Z.eq_dec y 0) as [->|Hne]; [rewrite (H0 eq_refl); apply stands_for_rep; [split; [lia|done]|done|lia|lia]|].
  destruct (H1 Hne) as (r' & Hn & ->). assert (r' = r) as -> by (apply (nearest_unique double 0); [lia|done|by rewrite Em, Z.mul_1_r]). apply stands_for_rep; [done|done|intros; by apply Z.ltb_lt|intros; apply Z.ltb_ge; lia].
Qed.

Lemma exact_int x c : in_int 32 x → integer_rounded double x c → stands_for c (x * 2 ^ 0 * one).
Proof.
  intros Hx (r' & Hn & ->). unfold in_int in Hx. destruct (representable x 0 ltac:(lia) ltac:(lia)) as (r & Hr & Em). assert (r' = r) as ->; [apply (nearest_unique double 0); [lia|done|]; rewrite Em, Z.mul_1_r, Z.mul_1_r, Z.abs_mul, (Z.abs_eq one) by (pose proof one_pos; lia); exact Hn|]. pose proof one_pos. apply stands_for_rep; [done|done|intros; apply Z.ltb_lt; nia|intros; apply Z.ltb_ge; nia].
Qed.

(** A significand placed below a power of two. *)
Lemma placed e f : 1 ≤ e < 2047 → 0 ≤ f < 2 ^ 52 → stands_for (Z.lor (e * 2 ^ 52) f) ((2 ^ 52 + f) * 2 ^ (e - 1)).
Proof.
  intros He Hf. rewrite Z.lor_comm, lor_shift_add, Z.add_comm by lia. destruct (infRep_eq (F := double)) as [Ei _]. assert (0 < (2 ^ 52 + f) * 2 ^ (e - 1)) by (apply Z.mul_pos_pos; [lia|apply Z.pow_pos_nonneg; lia]). apply (stands_for_rep false (e * 2 ^ 52 + f)); [rewrite Ei; cbn [typeWidth significandBits double]; lia| |intros; lia|done]. rewrite (mag_split (F := double)) by (lia || exact Hf). cbn [significandBits double]. rewrite Z.abs_eq by lia. done.
Qed.

Lemma exact_scaled a x c : Z.abs x < 2 ^ 53 → stands_for a (x * one) → product_rounded double a twop32 c → stands_for c (x * 2 ^ 32 * one).
Proof.
  intros Hx [_ Ea] (r' & Hn & ->). destruct (representable x 32 ltac:(lia) Hx) as (r & Hr & Em). assert (value double twop32 = 2 ^ 32 * one) as Et by (vm_compute; reflexivity). rewrite Ea, Et in Hn. change (exponentBias double + significandBits double - 1) with 1074 in Hn. assert (r' = r) as ->.
  { apply (nearest_unique double 1074); [lia|done|]. rewrite Em. fold one. replace (Z.abs (x * 2 ^ 32 * one) * one) with (Z.abs (x * one * (2 ^ 32 * one))); [done|]. pose proof one_pos. rewrite <- (Z.abs_eq one) at 4 by lia. rewrite <- Z.abs_mul. f_equal. ring. }
  change (negative double twop32) with false. rewrite xorb_false_r. pose proof one_pos. apply stands_for_rep; [done|done| |].
  - intros Hlt. destruct (negative double a) eqn:En; [done|]. exfalso. unfold value in Ea. rewrite En in Ea. pose proof (mag_nonneg (F := double) (a mod 2 ^ (64 - 1)) ltac:(apply Z.mod_pos_bound; lia)). cbn [typeWidth double] in Ea. nia.
  - intros Hlt. destruct (negative double a) eqn:En; [|done]. exfalso. unfold value in Ea. rewrite En in Ea. pose proof (mag_nonneg (F := double) (a mod 2 ^ (64 - 1)) ltac:(apply Z.mod_pos_bound; lia)). cbn [typeWidth double] in Ea. nia.
Qed.

Context (O : DoubleOps) `{!DoubleArithmetic O}.

(** Subtracting the powers of two leaves the high word, adding the low word rounds once. *)
Lemma high_and_low high c y h l : stands_for high y → stands_for c (- y + (h - 2 ^ 20) * 2 ^ 32 * one) → Z.abs (h - 2 ^ 20) < 2 ^ 53 → 0 ≤ l < 2 ^ 32 → ∀ d, sum_rounded double high c d → integer_rounded double (h * 2 ^ 32 + l) (dadd O d (Z.lor twop52 l)).
Proof using DoubleArithmetic0.
  intros [Hh Eh] [Hc Ec] Hb Hl d Hd. destruct (exact_sum high c (h - 2 ^ 20) 32 ltac:(lia) Hb ltac:(lia) d Hd) as [Hf Ed]. destruct (placed 1075 l ltac:(lia) ltac:(lia)) as [Hw Ew]. change (1075 * 2 ^ 52) with twop52 in *. change (2 ^ (1075 - 1)) with one in Ew. destruct (da_add d (Z.lor twop52 l) Hf Hw) as [H0 H1]. assert (value double d + value double (Z.lor twop52 l) = (h * 2 ^ 32 + l) * one) as E by (rewrite Ed, Ew; ring). rewrite E in H0, H1. clear E. pose proof one_pos. set (x := h * 2 ^ 32 + l) in *. destruct (Z.eq_dec x 0) as [E0|Hne].
  - rewrite E0 in *. rewrite (H0 eq_refl). assert (negative double (Z.lor twop52 l) = false) as ->; [|rewrite andb_false_r; apply (zero_rounded (F := double))]. unfold negative. apply Z.leb_gt. rewrite Z.lor_comm. change twop52 with (1075 * 2 ^ 52). rewrite lor_shift_add by lia. cbn. lia.
  - destruct (H1 ltac:(nia)) as (r & Hn & ->). exists r. rewrite Z.abs_mul, (Z.abs_eq one) in Hn by lia. split; [exact Hn|]. f_equal. apply Bool.eq_iff_eq_true. rewrite !Z.ltb_lt. nia.
Qed.

Lemma negated_constant r x : 0 ≤ r < infRep double → mag double r = x * one → 0 < x → finite double r ∧ stands_for (Z.lxor r (2 ^ 63)) (- x * one).
Proof.
  intros Hr Em Hx. pose proof one_pos. destruct (infRep_eq (F := double)) as [_ Ei]. cbn in Ei. split; [apply (stands_for_rep false r (x * one)); nia || done|]. rewrite <- (Z.add_0_l (2 ^ 63)). change (0 + 2 ^ 63) with (signed_rep double true 0). rewrite <- signed_rep_lxor by (cbn in *; lia). apply stands_for_rep; nia || done.
Qed.

Lemma split_low a : Z.land a (2 ^ 32 - 1) = a mod 2 ^ 32 ∧ 0 ≤ a mod 2 ^ 32 < 2 ^ 32 ∧ a = Z.shiftr a 32 * 2 ^ 32 + a mod 2 ^ 32.
Proof. split; [apply (Z.land_ones a 32); lia|]. rewrite Z.shiftr_div_pow2 by lia. pose proof (Z.div_mod a (2 ^ 32) ltac:(lia)). pose proof (Z.mod_pos_bound a (2 ^ 32) ltac:(lia)). lia. Qed.

Lemma floatdidf_hard_spec a : in_int 64 a → integer_rounded double a (floatdidf_hard O a).
Proof using DoubleArithmetic0.
  unfold in_int. intros Ha. unfold floatdidf_hard. destruct (split_low a) as (-> & Hl & E). set (h := Z.shiftr a 32) in *. set (l := a mod 2 ^ 32) in *. assert (- 2 ^ 31 ≤ h < 2 ^ 31) as Hh by lia. assert (signed 32 h = h) as -> by (rewrite <- (signed_cast 32 h) at 2 by lia; unfold signed; by rewrite cast_cast). clearbody h l. rewrite E. destruct (exact_int h _ Hh (da_int h Hh)) as [Hi Ei]. rewrite Z.mul_1_r in Ei.
  pose proof (exact_scaled _ h (dmul O (dint O h) twop32) ltac:(lia) (conj Hi Ei)) as Hs. lapply Hs; [clear Hs; intros Hs|apply da_mul; [done|by split]]. destruct (negated_constant twop52 (2 ^ 52)) as [Hf Hc]; [split; [done|vm_compute; reflexivity]|vm_compute; reflexivity|lia|]. apply (high_and_low (dmul O (dint O h) twop32) (Z.lxor twop52 (2 ^ 63)) (h * 2 ^ 32 * one)); [done| |lia|done|apply da_sub; [by destruct Hs|done]]. replace (- (h * 2 ^ 32 * one) + (h - 2 ^ 20) * 2 ^ 32 * one) with (- 2 ^ 52 * one) by ring. done.
Qed.

Lemma floatundidf_hard_spec a : word 64 a → integer_rounded double a (floatundidf_hard O a).
Proof using DoubleArithmetic0.
  unfold word. intros Ha. unfold floatundidf_hard. destruct (split_low a) as (-> & Hl & E). set (h := Z.shiftr a 32) in *. set (l := a mod 2 ^ 32) in *. assert (0 ≤ h < 2 ^ 32) as Hh by lia. clearbody h l. rewrite E. pose proof (placed 1107 h ltac:(lia) ltac:(lia)) as Hp. change (1107 * 2 ^ 52) with twop84 in Hp. change (2 ^ (1107 - 1)) with (2 ^ 32 * one) in Hp.
  destruct (negated_constant twop84_plus_twop52 (2 ^ 84 + 2 ^ 52)) as [Hf Hc]; [split; [done|vm_compute; reflexivity]|vm_compute; reflexivity|lia|]. apply (high_and_low (Z.lor twop84 h) (Z.lxor twop84_plus_twop52 (2 ^ 63)) ((2 ^ 52 + h) * (2 ^ 32 * one))); [done| |lia|done|apply da_sub; [by destruct Hp|done]]. replace (- ((2 ^ 52 + h) * (2 ^ 32 * one)) + (h - 2 ^ 20) * 2 ^ 32 * one) with (- (2 ^ 84 + 2 ^ 52) * one) by ring. done.
Qed.

End Hardware.

(** The software functions are such an arithmetic. *)
Definition soft_double : DoubleOps := {|
  dadd a b := from_result 0 (addXf3 double CRT_FE_TONEAREST a b);
  dsub a b := from_result 0 (addXf3 double CRT_FE_TONEAREST a (Z.lxor b (2 ^ 63)));
  dmul a b := from_result 0 (mulXf3 double wideMultiply64 a b);
  dint x := from_result 0 (floatX double 32 (float_shifted double) (negate_unsigned 32) x)
|}.

Lemma negate_unsigned_spec N a : 1 < N → in_int N a → a < 0 → negate_unsigned N a = Ok (- a).
Proof.
  unfold in_int, negate_unsigned. intros HN Ha Hneg. f_equal. pose proof (pow2_half N ltac:(lia)). rewrite (cast_congr N a (a + 2 ^ N) (-1)), (cast_id N (a + _)) by lia. replace (2 ^ N - 1) with (Z.ones N) by (rewrite Z.ones_equiv; lia).
  assert (Z.lxor (a + 2 ^ N) (Z.ones N) = Z.ones N - (a + 2 ^ N)) as ->; [|rewrite Z.ones_equiv, cast_id; lia]. rewrite Z.sub_nocarry_ldiff by (apply Z.ldiff_ones_r_low; [lia|apply Z.log2_lt_pow2; lia]). apply Z.bits_inj'. intros i Hi. rewrite Z.lxor_spec, Z.ldiff_spec. destruct (Z.lt_ge_cases i N); [rewrite Z.ones_spec_low by lia; by destruct (Z.testbit _ _)|rewrite Z.ones_spec_high, (testbit_high N) by lia; done].
Qed.

Lemma negate_signed_spec N a : 1 < N → in_int N a → a ≠ - 2 ^ (N - 1) → a < 0 → negate_signed N a = Ok (- a).
Proof. unfold in_int, negate_signed, ssub. intros HN Ha Hmin Hneg. rewrite bool_decide_true by lia. done. Qed.

Lemma finite_negate b : finite double b → finite double (Z.lxor b (2 ^ 63)).
Proof.
  intros Hb. destruct (finite_split (F := double) b Hb) as (neg & r & -> & Hr). destruct (infRep_eq (F := double)) as [_ Ei]. cbn in Hr, Ei. assert (Z.lxor (signed_rep double neg r) (2 ^ 63) = signed_rep double (negb neg) r) as ->; [|apply (stands_for_rep _ r (if neg then mag double r else - mag double r)); [done| | |]; pose proof (mag_nonneg (F := double) r); destruct neg; cbn; lia].
  rewrite (signed_rep_lxor (F := double) neg), (signed_rep_lxor (F := double) (negb neg)) by (cbn; lia). rewrite Z.lxor_assoc. f_equal. by destruct neg.
Qed.

#[export] Instance soft_double_arithmetic : DoubleArithmetic soft_double.
Proof.
  split.
  - intros a b Ha Hb. cbn [dadd soft_double]. by destruct (addXf3_finite a b Ha Hb) as (c & -> & Hc).
  - intros a b Ha Hb. cbn [dsub soft_double]. by destruct (addXf3_finite a _ Ha (finite_negate b Hb)) as (c & -> & Hc).
  - intros a b Ha Hb. cbn [dmul soft_double]. by destruct (mulXf3_finite (wide := wideMultiply64) a b Ha Hb) as (c & -> & Hc).
  - intros x Hx. cbn [dint soft_double]. assert (Significand (F := double) 32 (float_shifted double)) by (apply shifted_significand; vm_compute; done). destruct (floatX_spec (F := double) (N := 32) (negate_unsigned 32) x Hx) as (c & -> & Hc); [|done]. intros. by apply negate_unsigned_spec.
Qed.

(** ** The conversions by type *)
Definition unsigned_conversions : list (Format * Z * (Z → result Z)) :=
  [(single, 32, floatunsisf); (double, 32, floatunsidf); (quad, 32, floatunsitf); (quad, 64, floatunditf); (single, 64, floatundisf);
   (single, 128, floatuntisf); (double, 64, floatundidf); (double, 128, floatuntidf); (quad, 128, floatuntitf)].

(** Those that negate in the unsigned type, and in the signed one. *)
Definition wrapping_conversions : list (Format * Z * (Z → result Z)) := [(quad, 32, floatsitf); (quad, 64, floatditf)].
Definition overflowing_conversions : list (Format * Z * (Z → result Z)) :=
  [(single, 32, floatsisf); (double, 32, floatsidf); (single, 64, floatdisf); (single, 128, floattisf); (double, 64, floatdidf); (double, 128, floattidf); (quad, 128, floattitf)].

Definition rounds (F : Format) (f : Z → result Z) (a : Z) : Prop := ∃ c, f a = Ok c ∧ integer_rounded F a c.

(** The formats and widths that occur. *)
Definition sized (F : Format) (N : Z) : Prop := ValidFormat F ∧ 1 < N ∧ N - 1 ≤ exponentBias F.

Ltac solve_sized := split; [apply _|split; vm_compute; (done || reflexivity)].
Ltac solve_significand := first [apply shifted_significand | apply rounded_significand]; vm_compute; (done || reflexivity).

Lemma unsigned_rounds : Forall (λ '(F, N, f), ∀ a, word N a → rounds F f a) unsigned_conversions.
Proof.
  unfold unsigned_conversions. repeat apply Forall_cons_2; [.. |apply Forall_nil_2]; intros a Ha;
    first [unshelve eapply (floatun_digits_spec (F := _)); [..|exact Ha]; try apply _; vm_compute; (done || reflexivity) | refine (floatunsX_spec (SG := _) a Ha); solve_significand].
Qed.

Lemma signed_rounds : Forall (λ '(F, N, f), sized F N ∧ ∀ a, in_int N a → a ≠ - 2 ^ (N - 1) → rounds F f a) (wrapping_conversions ++ overflowing_conversions).
Proof.
  unfold wrapping_conversions, overflowing_conversions, app. repeat apply Forall_cons_2; [.. |apply Forall_nil_2]; (split; [solve_sized|]); intros a Ha Hmin;
    first [unshelve eapply (float_digits_spec (F := _)); [..|exact Ha|exact Hmin]; try apply _; vm_compute; (done || reflexivity)
          | refine (floatX_spec (SG := _) _ a Ha _); [solve_significand|intros; first [by apply negate_signed_spec | by apply negate_unsigned_spec]]].
Qed.

Lemma wrapping_rounds : Forall (λ '(F, N, f), ∀ a, in_int N a → rounds F f a) wrapping_conversions.
Proof.
  unfold wrapping_conversions. repeat apply Forall_cons_2; [.. |apply Forall_nil_2]; intros a Ha; (refine (floatX_spec (SG := _) _ a Ha _); [solve_significand|intros; by apply negate_unsigned_spec]).
Qed.

(** Two nearest numbers are the same. *)
Lemma nearest_deterministic F `{!ValidFormat F} x k r r' : 0 ≤ k → nearest F x k r → nearest F x k r' → r = r'.
Proof.
  intros Hk. assert (∀ r r', r < r' → nearest F x k r → nearest F x k r' → False) as Hlt; [|intros H H'; destruct (Z.lt_trichotomy r r') as [?|[->|?]]; [by destruct (Hlt r r')|done|by destruct (Hlt r' r)]].
  clear r r'. intros r r' Hrr [Hr Hn] [Hr' Hn']. destruct (Hn r' Hr') as [H1 H2]. destruct (Hn' r Hr) as [H3 H4]. cbv zeta in *. assert (Z.abs (mag F r * 2 ^ k - x) = Z.abs (mag F r' * 2 ^ k - x)) as Eq by (apply Z.le_antisymm; done). destruct (H2 (eq_sym Eq)) as [->|He]; [lia|]. destruct (H4 Eq) as [->|He']; [lia|]. assert (r + 1 ≠ r') as Hne by (intros <-; rewrite Z.even_add, He in He'; done).
  destruct (Hn (r + 1) ltac:(lia)) as [H5 _]. assert (0 < 2 ^ k) by lia. pose proof (mag_mono (F := F) r (r + 1) ltac:(lia)) as M1. pose proof (mag_mono (F := F) (r + 1) r' ltac:(lia)) as M2. apply (Z.mul_lt_mono_pos_r (2 ^ k)) in M1, M2; lia.
Qed.

Lemma integer_rounded_unique F `{!ValidFormat F} x c c' : integer_rounded F x c → integer_rounded F x c' → c = c'.
Proof. intros (r & Hn & ->) (r' & Hn' & ->). by rewrite (nearest_deterministic F _ 0 r r' ltac:(lia) Hn Hn'). Qed.

Section Back.
Context {F : Format}.
Local Abbreviation m := (significandBits F).

(** An integer that fits the significand is converted exactly, and converted back. *)
Lemma integer_back N a c : sized F N → in_int N a → a ≠ - 2 ^ (N - 1) → Z.abs a < 2 * 2 ^ m → integer_rounded F a c → fixint F N c = Ok a.
Proof.
  intros (V & HN & Hb) Ha Hmin Hm Hc. unfold in_int in Ha. destruct (bias_eq (F := F)) as [_ Hbias]. assert (2 ≤ m) as Hm2 by (destruct V; lia). assert (∃ r, 0 ≤ r < infRep F ∧ mag F r = Z.abs a * 2 ^ (exponentBias F + m - 1)) as (r & Hr & Em).
  { destruct (Z.eq_dec a 0) as [->|Hne]; [exists 0; destruct (infRep_eq (F := F)) as [_ Ei]; assert (2 ^ m < 2 ^ (typeWidth F - 1)) by (destruct V; apply Z.pow_lt_mono_r; lia); split; [lia|rewrite mag_small by lia; done]|]. pose proof (pow2_half N ltac:(lia)). assert (Z.log2 (Z.abs a) ≤ m) by (assert (Z.log2 (Z.abs a) < m + 1) by (apply Z.log2_lt_pow2; [lia|rewrite Z.pow_add_r by lia; lia]); lia). assert (Z.log2 (Z.abs a) < N - 1) by (apply Z.log2_lt_pow2; lia).
    destruct (shifted_nearest (F := F) (Z.abs a) ltac:(lia) ltac:(lia) ltac:(done)) as [Hq [Hr _]]. destruct (exponent_range (F := F) (Z.abs a) ltac:(lia) ltac:(lia)) as (Hx0 & Hl & He). set (q := Z.abs a * 2 ^ (m - Z.log2 (Z.abs a))) in *. eexists. split; [split; [exact (proj1 Hr)|]|rewrite mag_index by lia; unfold q; rewrite <- Z.mul_assoc, <- Z.pow_add_r by lia; do 2 f_equal; lia].
    destruct (infRep_eq (F := F)) as [-> _]. assert ((Z.log2 (Z.abs a) + exponentBias F + 1) * 2 ^ m ≤ maxExponent F * 2 ^ m) by (apply Z.mul_le_mono_nonneg_r; lia). lia. }
  destruct Hc as (r' & Hn & ->). assert (r' = r) as -> by (apply (nearest_unique F 0); [lia|done|by rewrite Em, Z.mul_1_r]). destruct (infRep_eq (F := F)) as [_ Ei]. assert (0 < 2 ^ significandBits F) by (apply Z.pow_pos_nonneg; lia). assert (0 ≤ r < 2 ^ (typeWidth F - 1)) as Hr' by lia.
  pose proof (fixint_spec (F := F) N (signed_rep F (a <? 0) r) HN (rep_word (F := F) _ _ Hr')) as Hf. cbv zeta in Hf. rewrite integer_part_signed in Hf by done. rewrite Em, Z.div_mul in Hf by (pose proof (Z.pow_pos_nonneg 2 (exponentBias F + m - 1)); lia). cbv zeta in Hf. assert ((if a <? 0 then - Z.abs a else Z.abs a) = a) as Ea by (destruct (Z.ltb_spec a 0); lia). rewrite Ea in Hf. rewrite (proj2 (Z.ltb_lt (Z.abs a) (2 ^ (N - 1)))) in Hf by lia. done.
Qed.

End Back.

(** ** Theorems *)
(** [C14] Every conversion of an integer to a floating-point number gives the number nearest to the
    integer, ties to even, with its sign: all unsigned conversions and those to quadruple precision
    that negate in the unsigned type for every integer, the others for every integer but the
    least of the type, for which the negation overflows. *)
Theorem int_to_float_correct :
  Forall (λ '(F, N, f), ∀ a, word N a → rounds F f a) unsigned_conversions ∧
  Forall (λ '(F, N, f), ∀ a, in_int N a → rounds F f a) wrapping_conversions ∧
  Forall (λ '(F, N, f), ∀ a, in_int N a → if a =? - 2 ^ (N - 1) then f a = Fault SignedOverflow else rounds F f a) overflowing_conversions.
Proof.
  split; [apply unsigned_rounds|]. split; [apply wrapping_rounds|]. pose proof (proj2 (proj1 (Forall_app _ _ _) signed_rounds)) as H. assert (Forall (λ '(F, N, f), f (- 2 ^ (N - 1)) = Fault SignedOverflow) overflowing_conversions) as Hmin by (repeat apply Forall_cons_2; [.. |apply Forall_nil_2]; vm_compute; reflexivity).
  apply Forall_forall. intros [[F N] f] Hin a Ha. pose proof (proj1 (Forall_forall _ _) H _ Hin) as [_ Hf]. pose proof (proj1 (Forall_forall _ _) Hmin _ Hin) as Hm. cbn in Hm. destruct (Z.eqb_spec a (- 2 ^ (N - 1))) as [->|Hne]; [done|auto].
Qed.

(** [C20] With arithmetic that rounds to nearest even, the conversions of 64-bit integers to double
    precision by two operations of the hardware agree with the ones that count digits, except that
    they also convert the least integer. *)
Theorem hardware_conversion O `{!DoubleArithmetic O} :
  (∀ a, in_int 64 a → a ≠ - 2 ^ 63 → floatdidf a = Ok (floatdidf_hard O a)) ∧ (∀ a, word 64 a → floatundidf a = Ok (floatundidf_hard O a)) ∧ integer_rounded double (- 2 ^ 63) (floatdidf_hard O (- 2 ^ 63)).
Proof.
  assert (Fields (F := double) (fields_halves double)) as HF by apply _. split_and!.
  - intros a Ha Hmin. destruct (float_digits_spec (F := double) (N := 64) ltac:(done) ltac:(vm_compute; done) (FO := HF) a Ha Hmin) as (c & Ec & Hc). unfold floatdidf. rewrite Ec. f_equal. apply (integer_rounded_unique double a); [done|by apply floatdidf_hard_spec].
  - intros a Ha. destruct (floatun_digits_spec (F := double) (N := 64) ltac:(done) ltac:(vm_compute; done) (FO := HF) a Ha) as (c & Ec & Hc). unfold floatundidf. rewrite Ec. f_equal. apply (integer_rounded_unique double a); [done|by apply floatundidf_hard_spec].
  - apply floatdidf_hard_spec; [apply _|]. unfold in_int. lia.
Qed.

Lemma hardware_conversion_witness : floatdidf (2 ^ 53 + 1) = Ok (floatdidf_hard soft_double (2 ^ 53 + 1)).
Proof. destruct (hardware_conversion soft_double) as (H & _ & _). apply H; [unfold in_int; lia|lia]. Defined.

(** [C31] An integer whose magnitude fits the significand survives the conversion to a
    floating-point number and back, for every signed type and precision: the conversions that
    negate in the unsigned type with no exception, the others with that of the
    least integer of the type, for which the negation overflows. *)
Theorem integer_roundtrip :
  Forall (λ '(F, N, f), ∀ a, in_int N a → Z.abs a < 2 * implicitBit F → (c ← f a; fixint F N c) = Ok a) wrapping_conversions ∧
  Forall (λ '(F, N, f), ∀ a, in_int N a → Z.abs a < 2 * implicitBit F → (c ← f a; fixint F N c) = if a =? - 2 ^ (N - 1) then Fault SignedOverflow else Ok a) overflowing_conversions.
Proof.
  assert (Forall (λ '(F, N, f), ∀ a, in_int N a → a ≠ - 2 ^ (N - 1) → Z.abs a < 2 * implicitBit F → (c ← f a; fixint F N c) = Ok a) (wrapping_conversions ++ overflowing_conversions)) as Hall.
  { eapply Forall_impl; [apply signed_rounds|]. intros [[F N] f] [Hs Hf] a Ha Hmin Hm. destruct (Hf a Ha Hmin) as (c & -> & Hc). by apply (integer_back N). }
  assert (Forall (λ '(F, N, f), (c ← f (- 2 ^ (N - 1)); fixint F N c) = Ok (- 2 ^ (N - 1))) wrapping_conversions) as Hwrap by (repeat apply Forall_cons_2; [.. |apply Forall_nil_2]; vm_compute; reflexivity).
  assert (Forall (λ '(F, N, f), (c ← f (- 2 ^ (N - 1)); fixint F N c) = Fault SignedOverflow) overflowing_conversions) as Hover by (repeat apply Forall_cons_2; [.. |apply Forall_nil_2]; vm_compute; reflexivity).
  apply Forall_app in Hall as [H1 H2]. rewrite !Forall_forall in *. split; intros [[F N] f] Hin a Ha Hm.
  - destruct (Z.eq_dec a (- 2 ^ (N - 1))) as [->|Hne]; [exact (Hwrap _ Hin)|]. exact (H1 _ Hin a Ha Hne Hm).
  - destruct (Z.eqb_spec a (- 2 ^ (N - 1))) as [->|Hne]; [exact (Hover _ Hin)|]. exact (H2 _ Hin a Ha Hne Hm).
Qed.

End IntFloat.
